(* ===== verification/_CoqProject ===== *)
-Q . S2P
Prelude.v
Nibbles.v
TrieNode.v
TrieUpdate.v
TrieTree.v
TrieInsertSpec.v
TrieRep.v
TrieInsert.v
TrieCorrect.v
Costs.v
GasCounter.v
Merkle.v
Doomslug.v
ShardLayout.v
Bandwidth.v
BandwidthCorrect.v
BandwidthRequests.v
Borsh.v
TrieKey.v
SortedMap.v
StateUpdate.v
StateUpdateCorrect.v
StateIter.v
Errors.v
TrieQueue.v
Fees.v
Receipt.v
ReceiptManager.v
Account.v
StoreUtils.v
RemoveAccount.v
Verifier.v
Transaction.v
ReceiptQueues.v
RuntimeStore.v
ProcessTransactions.v
Actions.v
ActionsCorrect.v
ValidatorAccounts.v
ApplyReceipt.v
ExecutionFrame.v
ProcessReceipt.v
Mail.v
MailCorrect.v
ProcessCorrect.v
ExecutionCorrect.v
OutgoingMetadata.v
F64.v
CongestionInfo.v
SchedulerRun.v
ReceiptSink.v
MailSink.v
DelayedReceipts.v
ReceiptSinkCorrect.v
DelayedCorrect.v
ChunkCongestion.v
ChunkExamples.v
ProcessSink.v
ProcessExamples.v
ExecutionExamples.v
MailExamples.v
ValidatorExamples.v
SchedulerExamples.v
