(* ===== verification/Prelude.v ===== *)
(** * A verification of parts of nearcore

    The program is a node of a sharded blockchain.  Of it this development models the path of a transaction through the runtime
    of one shard and the parts around it that are plain algorithms: the state trie and the overlay through which it is written,
    accounts, transactions and receipts, fees and gas, congestion control and the queues of receipts, the bandwidth that shards
    grant each other, the layout of shards, the agreement on blocks (Doomslug) and Merkle proofs.

    ** How code is modelled

    Definitions follow the functions of src/ one by one and keep their names where Rocq allows it.  Integers are [Z] with the
    bounds of their width written out: release builds have overflow checks, so an arithmetic overflow is a panic.  A pure function
    that can panic returns an [option]; one that can also fail returns [Res] ([ROk], [RErr], [RPanic]) or an [option] of a sum; code
    with state runs in the monad [M], whose results are [Ok], [Err], [Panic] and [OutOfFuel] and which keeps the state on an error,
    as a [&mut] argument does.  [returns m s Q] is total correctness: the run ends with [Ok] and [Q] holds.  Maps are [gmap] (with
    their entries in the order of the keys where the code iterates over a [BTreeMap]), lists are lists.

    Code outside src/ is a parameter: account ids (bytes and their parser, [AccountIds]), derived serialisation ([Borsh], with the
    round trip [BorshOk]; serialisation written out in src/ is modelled), hashes, signatures, the random shuffle, the contract
    virtual machine.  Components meet at type classes: [StateStore] with the laws [StateStoreOk] is what the queues and the runtime
    need of the state, and the overlay implements it; [RuntimeStore] with [RuntimeStoreOk] and [ContainsKeyOk] adds what receipts need
    (iteration, [contains_key], transactions), again implemented by the overlay; [TrieQueue] is the trait of queues in the state;
    [ReceiptSinkOk] and [SinkFrame] are what transactions and receipts need of the receipt sink, and the sink provides them
    (ProcessSink, MailSink); [Vm] with [VmOk] is the boundary to the execution of a contract.

    ** The files

    - Trie (core/store/src/trie): Nibbles (nibble_slice.rs), TrieNode (node types, raw_node.rs), TrieUpdate (trie_storage_update.rs,
      ops/insert_delete.rs, ops/squash.rs).  TrieTree and TrieInsertSpec are the specification (canonical trees and the map they
      denote), TrieRep and TrieInsert relate the arena to it, TrieCorrect states the result for byte keys: insertion into any arena
      that represents a trie updates exactly one key.
    - State: TrieKey (trie_key.rs: bytes of keys, parsers, prefixes), SortedMap, StateUpdate (trie/update.rs, its iterator,
      contract.rs), StateUpdateCorrect and StateIter (the overlay is a transactional map; its iterator lists exactly the keys of that
      map), TrieQueue and ReceiptQueues (receipts_column_helper.rs: queues in the state refine lists), OutgoingMetadata
      (outgoing_metadata.rs), StoreUtils and RemoveAccount (core/store/src/utils/mod.rs).
    - Values: Borsh, Account (primitives-core/src/account.rs), Fees (actions, runtime/src/config.rs), Receipt (primitives/src/receipt.rs),
      Transaction (primitives/src/transaction.rs), Errors, Costs (parameters/src/cost.rs and the gas profile), F64 (floating point).
    - Runtime (runtime/runtime/src): Verifier (verifier.rs), ProcessTransactions and ProcessCorrect ([Runtime::process_transactions]),
      RuntimeStore (the state as receipts see it), ReceiptManager (receipt_manager.rs), Actions (actions.rs, function_call.rs, ext.rs and
      global_contracts.rs: every action), ApplyReceipt ([Runtime::apply_action_receipt] with its refunds), ProcessReceipt
      ([Runtime::process_receipt]), ValidatorAccounts ([Runtime::update_validator_accounts]); ActionsCorrect and ExecutionCorrect hold the results on tokens and gas, Mail the specification of waiting
      receipts, ExecutionFrame and MailCorrect the proof that the runtime follows it;
      ReceiptSink and DelayedReceipts (congestion_control.rs) with ReceiptSinkCorrect, DelayedCorrect and ChunkCongestion, CongestionInfo
      (primitives/src/congestion_info.rs), Bandwidth and SchedulerRun (bandwidth_scheduler) with BandwidthCorrect and BandwidthRequests,
      GasCounter (near-vm-runner/src/logic/gas_counter.rs).
    - Chain: Doomslug (chain/chain/src/doomslug.rs), Merkle (primitives/src/merkle.rs), ShardLayout (primitives/src/shard_layout.rs).
    - Concrete runs that instantiate the parameters and the hypotheses: ChunkExamples, ProcessExamples, ExecutionExamples,
      MailExamples, ValidatorExamples, SchedulerExamples and the Example modules of the files.

    ** What the theorems show

    - The runtime: processing the transactions of a chunk, with validity masks, prefetched values and writes at the end, equals
      charging them one after the other on a ledger; it conserves tokens, counting the new receipts with the value that
      executing them conserves, and the nonces of a key only grow; every check of the verifier is
      characterised, with the exact charge.  A rejected transaction can still spend the allowance of its key (a finding).
    - Receipts: executing an action receipt conserves tokens between the account, the receipts it sends, the state and what is burnt (up to
      a stated exception, a finding), never burns more gas than was prepaid, and distributes unused gas by weight exactly; receipts that
      wait for data run exactly once, after the last of their data, in whatever order the parts arrive; a global contract reaches every shard;
      the accounts of validators get exactly their rewards at the start of an epoch.
    - Congestion: no receipt is lost between the sink and the buffers, what is sent uses up the limits of gas and size exactly, the congestion info that
      is maintained incrementally equals the one computed from the state, its values stay in range, and a fully congested shard is
      not locked out for ever.
    - Bandwidth: over any sequence of blocks the scheduler never fails, grants at most the limit per shard, grants nothing to or
      from shards that miss chunks and nothing to congested shards except from the allowed one, keeps the allowances bounded, and serves a lone request.
    - State: round trips and injectivity of keys, the overlay as a transactional map, iteration, queues as lists, the exact effect of
      removing an account, trie insertion.
    - Gas: limits are never exceeded, the profile adds up to the burnt gas, the fast path equals the general one; the cost of a
      transaction is the sum of its fees.
    - Chain: an honest node never endorses and skips conflicting heights, a block that is ready is accepted when its approvals were checked
      against the approvers of its parent, quorums at a height
      intersect; Merkle paths are complete and sound and the incremental tree has the root of the whole list; a derived shard layout splits exactly one shard.

    ** Bounds and fuel

    Loops without a structural measure take fuel, and the theorems prove that the fuel given suffices: insertion and deletion in the
    trie use a bound linear in the nibbles of the key ([insert_fuel], [delete_fuel]); the iterator of the overlay uses the number of
    items left ([iter_size]); the queue of bandwidth requests the number of increases left; popping delayed receipts the length of
    the queue; [merklize] uses the number of leaves and the insertion into a partial tree the 64 bits of its size.  Sizes that the code keeps in memory (lists, maps) are assumed to fit
    a [usize] where it matters, as a hypothesis of the theorem.

    ** Not modelled

    The contract virtual machines and their compilers (they need a semantics of WebAssembly and of machine code), host functions
    other than those that create receipts, the loops of [Runtime::apply] that choose which receipts of a chunk to process and its final
    checks (the steps they call are modelled), storage proofs and caches, in-memory tries and flat storage, the database, block processing and fork
    choice, epochs and validator selection, networking, clients, RPC and tools; tracing, metrics and debug assertions throughout.
    PROJECT.json lists every part with the reason.

    This file holds the shared vocabulary: machine integers, panics and errors, the monads, and lemmas on lists and sums. *)

From stdpp Require Export base tactics numbers list option gmap strings.
From Stdlib Require Export ZArith Lia ZifyNat.

#[export] Set Default Goal Selector "!".

#[global] Arguments Nat.modulo : simpl never.
#[global] Arguments Nat.div : simpl never.

(** * Machine integers

    A Rust integer of width [w] is a [Z] between [0] and [umax w].  The
    repository builds release binaries with [overflow-checks = true]
    (src/Cargo.toml), so the plain operators panic when they leave the range;
    a panic in code that cannot fail otherwise is [None]. *)

Section machine_integers.
Local Open Scope Z_scope.

Definition umax (w : Z) : Z := 2 ^ w - 1.

Definition in_u (w x : Z) : Prop := 0 <= x <= umax w.

Definition in_ub (w x : Z) : bool := (0 <=? x) && (x <=? umax w).

(** [a.checked_add(b)]; the same value is the plain [a + b], whose panic is [None]. *)
Definition checked_add (w a b : Z) : option Z :=
  if a + b <=? umax w then Some (a + b) else None.

Definition checked_sub (a b : Z) : option Z :=
  if b <=? a then Some (a - b) else None.

Definition checked_mul (w a b : Z) : option Z :=
  if a * b <=? umax w then Some (a * b) else None.

Definition checked_div (a b : Z) : option Z :=
  if b =? 0 then None else Some (a / b).

Definition saturating_add (w a b : Z) : Z := Z.min (a + b) (umax w).

Definition saturating_sub (a b : Z) : Z := Z.max 0 (a - b).

Definition saturating_mul (w a b : Z) : Z := Z.min (a * b) (umax w).

Definition wrapping_add (w a b : Z) : Z := (a + b) mod 2 ^ w.
End machine_integers.

(** [usize] subtraction; lengths are [nat] and a subtraction below zero panics. *)
Definition usize_sub (a b : nat) : option nat :=
  if decide (b ≤ a)%nat then Some (a - b)%nat else None.

Lemma in_ub_spec w x : in_ub w x = true ↔ in_u w x.
Proof. unfold in_ub, in_u. lia. Qed.

Lemma checked_add_Some w a b c :
  checked_add w a b = Some c ↔ (c = a + b ∧ a + b ≤ umax w)%Z.
Proof. unfold checked_add. case_match; naive_solver lia. Qed.

Lemma checked_sub_Some a b c : checked_sub a b = Some c ↔ (c = a - b ∧ b ≤ a)%Z.
Proof. unfold checked_sub. case_match; naive_solver lia. Qed.

Lemma checked_mul_Some w a b c :
  checked_mul w a b = Some c ↔ (c = a * b ∧ a * b ≤ umax w)%Z.
Proof. unfold checked_mul. case_match; naive_solver lia. Qed.

Lemma checked_add_ok w a b : (a + b ≤ umax w)%Z → checked_add w a b = Some (a + b)%Z.
Proof. intros. by apply checked_add_Some. Qed.

Lemma checked_add_overflow w a b : (umax w < a + b)%Z → checked_add w a b = None.
Proof. intros. unfold checked_add. case_match; [lia|done]. Qed.

Lemma checked_sub_ok a b : (b ≤ a)%Z → checked_sub a b = Some (a - b)%Z.
Proof. intros. by apply checked_sub_Some. Qed.

Lemma checked_mul_ok w a b : (a * b ≤ umax w)%Z → checked_mul w a b = Some (a * b)%Z.
Proof. intros. by apply checked_mul_Some. Qed.

Lemma checked_div_ok a b : b ≠ 0%Z → checked_div a b = Some (a / b)%Z.
Proof. intros Hb. unfold checked_div. by rewrite (proj2 (Z.eqb_neq b 0)). Qed.

Lemma bind_value {A B} (x : option A) a (f : A → option B) : x = Some a → x ≫= f = f a.
Proof. by intros ->. Qed.

Lemma usize_sub_Some a b c : usize_sub a b = Some c ↔ c = a - b ∧ b ≤ a.
Proof. unfold usize_sub. case_decide; naive_solver lia. Qed.

(** * Stateful, fallible code

    [M S E A] is code of a method on [&mut S] that returns [Result<A, E>].
    The state survives an [Err] (Rust keeps the mutations made before a [?]),
    [Panic] aborts the process and [OutOfFuel] marks a loop whose fuel ran
    out: a total-correctness theorem shows that neither occurs. *)

Inductive outcome (S E A : Type) : Type :=
| Ok (a : A) (s : S)
| Err (e : E) (s : S)
| Panic
| OutOfFuel.
Arguments Ok {S E A} a s.
Arguments Err {S E A} e s.
Arguments Panic {S E A}.
Arguments OutOfFuel {S E A}.

Definition M (S E A : Type) : Type := S → outcome S E A.

#[export] Instance M_ret {S E} : MRet (M S E) := λ A a s, Ok a s.

#[export] Instance M_bind {S E} : MBind (M S E) := λ A B f m s,
  match m s with
  | Ok a s' => f a s'
  | Err e s' => Err e s'
  | Panic => Panic
  | OutOfFuel => OutOfFuel
  end.

Definition get_state {S E} : M S E S := λ s, Ok s s.
Definition put_state {S E} (s' : S) : M S E () := λ _, Ok () s'.
Definition throw {S E A} (e : E) : M S E A := λ s, Err e s.
Definition panic {S E A} : M S E A := λ _, Panic.
Definition out_of_fuel {S E A} : M S E A := λ _, OutOfFuel.

(** [expect]/[unwrap]/indexing: [None] panics. *)
Definition expect {S E A} (o : option A) : M S E A :=
  match o with Some a => mret a | None => panic end.

Lemma bind_Ok {S E A B} (m : M S E A) (f : A → M S E B) s a s' :
  m s = Ok a s' → (m ≫= f) s = f a s'.
Proof. intros H. unfold mbind, M_bind. by rewrite H. Qed.

Lemma bind_expect {S E A B} (a : A) (f : A → M S E B) s : ((expect (Some a) : M S E A) ≫= f) s = f a s.
Proof. done. Qed.

Lemma bind_inv {S E A B} (m : M S E A) (f : A → M S E B) s b s'' :
  (m ≫= f) s = Ok b s'' → ∃ a s', m s = Ok a s' ∧ f a s' = Ok b s''.
Proof. unfold mbind, M_bind. destruct (m s); naive_solver. Qed.

(** A method of a part of the state. *)
Definition zoom {S T E A} (part : S → T) (update : T → S → S) (m : M T E A) : M S E A := λ s,
  match m (part s) with
  | Ok a t => Ok a (update t s)
  | Err e t => Err e (update t s)
  | Panic => Panic
  | OutOfFuel => OutOfFuel
  end.

Lemma zoom_Ok {S T E A} (part : S → T) update (m : M T E A) s a t :
  m (part s) = Ok a t → zoom part update m s = Ok a (update t s).
Proof. intros H. unfold zoom. by rewrite H. Qed.

(** ** Total correctness: the code returns, and the result and the state satisfy [Q]. *)

Definition returns {S E A} (m : M S E A) (s : S) (Q : A → S → Prop) : Prop :=
  match m s with Ok a s' => Q a s' | _ => False end.

Lemma returns_inv {S E A} (m : M S E A) s Q : returns m s Q → ∃ a s', m s = Ok a s' ∧ Q a s'.
Proof. unfold returns. destruct (m s) as [a s'| | |]; [eauto|done..]. Qed.

Lemma returns_Ok {S E A} (m : M S E A) s a s' (Q : A → S → Prop) : m s = Ok a s' → Q a s' → returns m s Q.
Proof. intros H HQ. unfold returns. by rewrite H. Qed.

Lemma returns_ret {S E A} (a : A) s (Q : A → S → Prop) : Q a s → returns (mret a : M S E A) s Q.
Proof. done. Qed.

Lemma returns_bind {S E A B} (m : M S E A) (f : A → M S E B) s (P : A → S → Prop) Q :
  returns m s P → (∀ a s', P a s' → returns (f a) s' Q) → returns (m ≫= f) s Q.
Proof. unfold returns, mbind, M_bind. destruct (m s); naive_solver. Qed.

Lemma returns_step {S E A B} (m : M S E A) (f : A → M S E B) s a s' Q :
  m s = Ok a s' → returns (f a) s' Q → returns (m ≫= f) s Q.
Proof. intros H Hf. unfold returns. by rewrite (bind_Ok _ _ _ _ _ H). Qed.

Lemma returns_assoc {S E A B C} (m : M S E A) (f : A → M S E B) (g : B → M S E C) s Q :
  returns ((m ≫= f) ≫= g) s Q → returns (x ← m; y ← f x; g y) s Q.
Proof. unfold returns, mbind, M_bind. by destruct (m s). Qed.

Lemma returns_mono {S E A} (m : M S E A) s (P Q : A → S → Prop) : returns m s P → (∀ a s', P a s' → Q a s') → returns m s Q.
Proof. unfold returns. destruct (m s); naive_solver. Qed.

Lemma returns_zoom {S T E A} (part : S → T) update (m : M T E A) s (Q : A → S → Prop) :
  returns m (part s) (λ a t, Q a (update t s)) → returns (zoom part update m) s Q.
Proof. unfold returns, zoom. by destruct (m (part s)). Qed.

(** ** Partial correctness: whenever the code returns [Ok], the result and the state satisfy [Q]; for code whose errors abort the caller. *)

Definition ensures {S E A} (m : M S E A) (s : S) (Q : A → S → Prop) : Prop :=
  match m s with Ok a s' => Q a s' | _ => True end.

Lemma ensures_inv {S E A} (m : M S E A) s Q a s' : ensures m s Q → m s = Ok a s' → Q a s'.
Proof. unfold ensures. intros HQ Hm. by rewrite Hm in HQ. Qed.

Lemma ensures_intro {S E A} (m : M S E A) s (Q : A → S → Prop) : (∀ a s', m s = Ok a s' → Q a s') → ensures m s Q.
Proof. unfold ensures. destruct (m s); naive_solver. Qed.

Lemma ensures_ret {S E A} (a : A) s (Q : A → S → Prop) : Q a s → ensures (mret a : M S E A) s Q.
Proof. done. Qed.

Lemma ensures_bind {S E A B} (m : M S E A) (f : A → M S E B) s (P : A → S → Prop) Q :
  ensures m s P → (∀ a s', P a s' → ensures (f a) s' Q) → ensures (m ≫= f) s Q.
Proof. unfold ensures, mbind, M_bind. destruct (m s); naive_solver. Qed.

Lemma ensures_seq {S E A B} (m : M S E A) (f : A → M S E B) s Q : ensures m s (λ a s', ensures (f a) s' Q) → ensures (m ≫= f) s Q.
Proof. intros H. by eapply ensures_bind; [exact H|]. Qed.

Lemma ensures_split {S E A B} (m : M S E A) (f : A → M S E B) s Q : ensures (m ≫= f) s Q → ensures m s (λ a s', ensures (f a) s' Q).
Proof. unfold ensures, mbind, M_bind. by destruct (m s). Qed.

Lemma ensures_mono {S E A} (m : M S E A) s (P Q : A → S → Prop) : ensures m s P → (∀ a s', P a s' → Q a s') → ensures m s Q.
Proof. unfold ensures. destruct (m s); naive_solver. Qed.

Lemma ensures_zoom {S T E A} (part : S → T) update (m : M T E A) s (Q : A → S → Prop) :
  ensures m (part s) (λ a t, Q a (update t s)) → ensures (zoom part update m) s Q.
Proof. unfold ensures, zoom. by destruct (m (part s)). Qed.

Lemma ensures_expect {S E A B} (o : option A) (f : A → M S E B) s Q : (∀ a, o = Some a → ensures (f a) s Q) → ensures (expect o ≫= f) s Q.
Proof. destruct o as [a|]; [|done]. intros H. by apply H. Qed.

(** [result.expect(..)]: an error panics. *)
Definition expect_ok {S E E' A} (m : M S E A) : M S E' A := λ s,
  match m s with
  | Ok a s => Ok a s
  | Err _ _ | Panic => Panic
  | OutOfFuel => OutOfFuel
  end.

Lemma expect_ok_Ok {S E E' A} (m : M S E A) s a s' : m s = Ok a s' → (expect_ok m : M S E' A) s = Ok a s'.
Proof. intros H. unfold expect_ok. by rewrite H. Qed.

(** [Result] in code without state: [inl] is [Err]. *)
#[export] Instance sum_ret {E} : MRet (sum E) := λ A a, inr a.
#[export] Instance sum_bind {E} : MBind (sum E) := λ A B f r,
  match r with inl e => inl e | inr a => f a end.

(** [ok_or]/[map_err]. *)
Definition ok_or_err {E A} (o : option A) (e : E) : E + A :=
  match o with Some a => inr a | None => inl e end.

(** [Result] of a function without state that may also panic. *)
Inductive Res (E A : Type) : Type :=
| ROk (a : A)
| RErr (e : E)
| RPanic.
Arguments ROk {E A} a.
Arguments RErr {E A} e.
Arguments RPanic {E A}.

#[export] Instance Res_ret {E} : MRet (Res E) := λ A a, ROk a.
#[export] Instance Res_bind {E} : MBind (Res E) := λ A B f r,
  match r with ROk a => f a | RErr e => RErr e | RPanic => RPanic end.

Definition res_expect {E A} (o : option A) : Res E A := match o with Some a => ROk a | None => RPanic end.
Definition ok_or {E A} (o : option A) (e : E) : Res E A := match o with Some a => ROk a | None => RErr e end.

(** [map_err(..)?] in code with state. *)
Definition run_res {S E E' A} (conv : E → E') (r : Res E A) : M S E' A :=
  match r with ROk a => mret a | RErr e => throw (conv e) | RPanic => panic end.

Lemma run_res_ok {S E E' A} (conv : E → E') (r : Res E A) a (s : S) : r = ROk a → (run_res conv r : M S E' A) s = Ok a s.
Proof. by intros ->. Qed.

Lemma res_bind_ROk {E A B} (r : Res E A) (f : A → Res E B) b :
  r ≫= f = ROk b ↔ ∃ a, r = ROk a ∧ f a = ROk b.
Proof. destruct r; cbn; naive_solver. Qed.

(** * Lists *)

Section lists.
Context {A : Type}.
Implicit Types l : list A.

Lemma lookup_drop_0 l n : drop n l !! 0%nat = l !! n.
Proof. rewrite lookup_drop. f_equal. lia. Qed.

Lemma drop_cons_lookup l n x : l !! n = Some x → drop n l = x :: drop (S n) l.
Proof. intros. by apply drop_S. Qed.

Lemma insert_snoc_length l x y : <[length l := y]> (l ++ [x]) = l ++ [y].
Proof. by induction l as [|z l IH]; simpl; [|rewrite IH]. Qed.

Lemma lookup_snoc_length l x : (l ++ [x]) !! length l = Some x.
Proof. by rewrite lookup_app_r, Nat.sub_diag. Qed.

Context (P Q : A → Prop) `{!∀ x, Decision (P x)} `{!∀ x, Decision (Q x)}.

Lemma filter_ext_elem l : (∀ x, x ∈ l → P x ↔ Q x) → filter P l = filter Q l.
Proof.
  induction l as [|x l IH]; intros Hl; [done|]. rewrite !filter_cons, IH by (intros y Hy; apply Hl; by right). destruct (Hl x) as [H1 H2]; [by left|].
  destruct (decide (P x)), (decide (Q x)); naive_solver.
Qed.

Lemma filter_all_elem l : (∀ x, x ∈ l → P x) → filter P l = l.
Proof. induction l as [|x l IH]; intros Hl; [done|]. rewrite filter_cons_True, IH; [done|intros y Hy; apply Hl; by right|apply Hl; by left]. Qed.

(** One element more passes the test. *)
Lemma filter_one_more l i w : l !! i = Some w → P w → ¬ Q w → (∀ j x, l !! j = Some x → j ≠ i → P x ↔ Q x) → filter P l ≡ₚ w :: filter Q l.
Proof.
  intros Hi Hw Hn Hx. rewrite <-(take_drop_middle l i w Hi), !filter_app, filter_cons_True, filter_cons_False by done.
  assert (filter P (take i l) = filter Q (take i l)) as ->.
  { apply filter_ext_elem. intros x (j & Hj)%list_elem_of_lookup. apply lookup_take_Some in Hj as [Hj Hlt]. apply (Hx j); [done|lia]. }
  assert (filter P (drop (S i) l) = filter Q (drop (S i) l)) as ->.
  { apply filter_ext_elem. intros x (j & Hj)%list_elem_of_lookup. rewrite lookup_drop in Hj. apply (Hx (S i + j)%nat); [done|lia]. }
  by rewrite Permutation_middle.
Qed.
End lists.

Lemma mapM_total {A B} (f : A → option B) (g : A → B) l :
  (∀ x, x ∈ l → f x = Some (g x)) → mapM f l = Some (g <$> l).
Proof. intros Hfg. apply mapM_Some_2, Forall2_fmap_r, Forall_Forall2_diag, Forall_forall, Hfg. Qed.

(** Sums. *)
Definition sum_Z (l : list Z) : Z := foldr Z.add 0%Z l.

Section sums.
Local Open Scope Z_scope.

Lemma sum_Z_cons x l : sum_Z (x :: l) = x + sum_Z l.
Proof. done. Qed.

Lemma sum_Z_zero {A} (l : list A) : sum_Z ((λ _, 0) <$> l) = 0.
Proof. induction l as [|x l IH]; [done|]. cbn [fmap list_fmap]. rewrite sum_Z_cons. exact IH. Qed.

Lemma sum_Z_fmap_add {A} (f g : A → Z) (l : list A) :
  sum_Z ((λ x, f x + g x) <$> l) = sum_Z (f <$> l) + sum_Z (g <$> l).
Proof. induction l as [|x l IH]; [done|]. rewrite !fmap_cons, !sum_Z_cons, IH. lia. Qed.

Lemma sum_Z_app l k : sum_Z (l ++ k) = sum_Z l + sum_Z k.
Proof. induction l as [|x l IH]; simpl; lia. Qed.

Lemma sum_Z_nonneg l : Forall (λ x, 0 <= x) l → 0 <= sum_Z l.
Proof. induction 1; simpl; lia. Qed.

Lemma sum_Z_elem x l : Forall (λ x, 0 <= x) l → x ∈ l → x <= sum_Z l.
Proof.
  intros Hl. induction Hl as [|y l Hy Hl IH]; intros Hx; [by apply not_elem_of_nil in Hx|].
  apply sum_Z_nonneg in Hl. simpl. apply elem_of_cons in Hx as [->|Hx]; [lia|]. apply IH in Hx. lia.
Qed.

Lemma sum_Z_permutation l k : l ≡ₚ k → sum_Z l = sum_Z k.
Proof. induction 1; simpl; lia. Qed.

Lemma sum_Z_insert l i x y : l !! i = Some y → sum_Z (<[i := x]> l) = sum_Z l + x - y.
Proof.
  revert i. induction l as [|z l IH]; intros [|i] Hi; simpl in *; simplify_eq; [lia|].
  rewrite (IH _ Hi). lia.
Qed.

Lemma list_alter_twice {A} (f g : A → A) (i : nat) (l : list A) : alter f i (alter g i l) = alter (λ x, f (g x)) i l.
Proof. revert i. induction l as [|x l IH]; intros [|i]; try done. cbn. f_equal. apply IH. Qed.

Lemma sum_Z_alter {A} (f : A → Z) g i l x : l !! i = Some x → sum_Z (f <$> alter g i l) = sum_Z (f <$> l) + f (g x) - f x.
Proof.
  revert i. induction l as [|y l IH]; intros [|i] H; [done|done|..]; cbn in H; simplify_eq.
  - cbn [alter list_alter fmap list_fmap]. rewrite !sum_Z_cons. lia.
  - change (alter g (S i) (y :: l)) with (y :: alter g i l). rewrite !fmap_cons, !sum_Z_cons, (IH i) by done. lia.
Qed.

Lemma sum_Z_replicate n x : sum_Z (replicate n x) = Z.of_nat n * x.
Proof. induction n as [|n IH]; simpl; lia. Qed.

(** A saturating sum is the sum, capped. *)
Lemma fold_saturating_add w l acc :
  0 <= acc <= umax w → Forall (λ x, 0 <= x) l →
  foldl (saturating_add w) acc l = Z.min (acc + sum_Z l) (umax w).
Proof.
  intros Hacc Hl. revert acc Hacc. induction Hl as [|x l Hx Hl IH]; intros acc Hacc; simpl; [lia|].
  rewrite IH by (unfold saturating_add; lia). apply sum_Z_nonneg in Hl. unfold saturating_add. lia.
Qed.
End sums.

(** Sums over finite sets. *)
Section set_sums.
Local Open Scope Z_scope.
Context {A : Type} `{Countable A}.
Implicit Types (X Y : gset A) (g : A → Z).

Definition sum_over g X : Z := sum_Z (g <$> elements X).

Lemma sum_over_empty g : sum_over g ∅ = 0.
Proof. unfold sum_over. by rewrite elements_empty. Qed.

Lemma sum_over_union g X Y : X ## Y → sum_over g (X ∪ Y) = sum_over g X + sum_over g Y.
Proof.
  intros Hd. unfold sum_over. rewrite <-sum_Z_app, <-fmap_app.
  apply sum_Z_permutation, fmap_Permutation. by apply elements_disj_union.
Qed.

Lemma sum_over_singleton g a : sum_over g {[a]} = g a.
Proof. unfold sum_over. rewrite elements_singleton. simpl. lia. Qed.

Lemma sum_over_insert g X a : a ∉ X → sum_over g ({[a]} ∪ X) = g a + sum_over g X.
Proof. intros Ha. rewrite sum_over_union by set_solver. by rewrite sum_over_singleton. Qed.

Lemma sum_over_delete g X a : a ∈ X → sum_over g (X ∖ {[a]}) = sum_over g X - g a.
Proof.
  intros Ha. rewrite (union_difference_singleton_L a X Ha) at 2.
  rewrite sum_over_insert by set_solver. lia.
Qed.

Lemma sum_over_nonneg g X : (∀ a, 0 <= g a) → 0 <= sum_over g X.
Proof. intros Hg. apply sum_Z_nonneg, Forall_fmap, Forall_forall. intros a _. apply Hg. Qed.

Lemma sum_over_mono g X Y : (∀ a, 0 <= g a) → X ⊆ Y → sum_over g X <= sum_over g Y.
Proof.
  intros Hg Hs. rewrite (union_difference_L X Y Hs), sum_over_union by set_solver.
  pose proof (sum_over_nonneg g (Y ∖ X) Hg). lia.
Qed.

Lemma sum_over_ext g1 g2 X : (∀ a, a ∈ X → g1 a = g2 a) → sum_over g1 X = sum_over g2 X.
Proof.
  intros Hg. unfold sum_over. f_equal. apply list_fmap_ext. intros i a Ha. apply Hg.
  apply elem_of_elements. by eapply list_elem_of_lookup_2.
Qed.

Lemma sum_over_split g X Y :
  sum_over g X = sum_over g (X ∩ Y) + sum_over g (X ∖ Y).
Proof.
  rewrite <-sum_over_union by set_solver. f_equal. apply set_eq. intros a.
  rewrite elem_of_union, elem_of_intersection, elem_of_difference. destruct (decide (a ∈ Y)); naive_solver.
Qed.

Lemma sum_over_zero g X : (∀ a, a ∈ X → g a = 0) → sum_over g X = 0.
Proof.
  intros Hg. rewrite (sum_over_ext g (λ _, 0)) by done. unfold sum_over.
  induction (elements X) as [|a l IH]; [done|]. change (0 + sum_Z ((λ _, 0) <$> l) = 0). by rewrite IH.
Qed.

(** One summand changes. *)
Lemma sum_over_update (f g : A → Z) X a : a ∈ X → (∀ b, b ≠ a → g b = f b) → sum_over g X = sum_over f X - f a + g a.
Proof.
  intros Ha Hg. pose proof (sum_over_delete f X a Ha). pose proof (sum_over_delete g X a Ha).
  rewrite (sum_over_ext g f (X ∖ {[a]})) in * by (intros b Hb; apply Hg; set_solver). lia.
Qed.

Lemma sum_over_elem g X a : (∀ b, b ∈ X → 0 <= g b) → a ∈ X → g a <= sum_over g X.
Proof.
  intros Hg Ha. unfold sum_over. apply sum_Z_elem; [|by apply list_elem_of_fmap_2, elem_of_elements].
  apply Forall_fmap, Forall_forall. intros b Hb. apply Hg. by apply elem_of_elements.
Qed.

Lemma elements_dom {V} (m : gmap A V) : elements (dom m) ≡ₚ (map_to_list m).*1.
Proof.
  apply NoDup_Permutation; [apply NoDup_elements|apply NoDup_fst_map_to_list|]. intros k.
  rewrite elem_of_elements, elem_of_dom, list_elem_of_fmap. split.
  - intros [v Hv]. exists (k, v). split; [done|]. by apply elem_of_map_to_list.
  - intros ([k' v] & -> & Hkv%elem_of_map_to_list). eauto.
Qed.

Lemma sum_over_dom {V} (m : gmap A V) g (f : V → Z) :
  (∀ k v, m !! k = Some v → g k = f v) → sum_over g (dom m) = sum_Z (f <$> (map_to_list m).*2).
Proof.
  intros Hg. unfold sum_over. rewrite (sum_Z_permutation _ (g <$> (map_to_list m).*1)).
  2: { apply fmap_Permutation, elements_dom. }
  rewrite <-!list_fmap_compose. f_equal. apply list_fmap_ext. intros i [k v] Hi. simpl. apply Hg.
  apply elem_of_map_to_list. by eapply list_elem_of_lookup_2.
Qed.
End set_sums.

(** Length of the longest common prefix. *)
Fixpoint common_prefix_len {A} `{EqDecision A} (l k : list A) : nat :=
  match l, k with
  | x :: l, y :: k => if decide (x = y) then S (common_prefix_len l k) else 0
  | _, _ => 0
  end.

Section common_prefix.
Context {A : Type} `{EqDecision A}.
Implicit Types l k : list A.

Lemma common_prefix_len_le_l l k : common_prefix_len l k ≤ length l.
Proof. revert k; induction l as [|x l IH]; intros [|y k]; simpl; try case_decide; try lia.
  specialize (IH k). lia. Qed.

Lemma common_prefix_len_comm l k : common_prefix_len l k = common_prefix_len k l.
Proof.
  revert k; induction l as [|x l IH]; intros [|y k]; simpl; try done.
  repeat case_decide; subst; try done. by rewrite IH.
Qed.

Lemma common_prefix_len_le_r l k : common_prefix_len l k ≤ length k.
Proof. rewrite common_prefix_len_comm. apply common_prefix_len_le_l. Qed.

Lemma common_prefix_take l k n :
  n ≤ common_prefix_len l k → take n l = take n k.
Proof.
  revert k n; induction l as [|x l IH]; intros [|y k] [|n]; simpl; try done; try lia.
  case_decide; [|lia]. intros. subst. f_equal. apply IH. lia.
Qed.

Lemma common_prefix_full l k :
  common_prefix_len l k = length k → l = k ++ drop (length k) l.
Proof.
  intros H. rewrite <-(take_drop (length k) l) at 1. f_equal.
  rewrite (common_prefix_take l k) by lia. by rewrite firstn_all.
Qed.

Lemma common_prefix_drop l k n :
  n ≤ common_prefix_len l k →
  common_prefix_len (drop n l) (drop n k) = common_prefix_len l k - n.
Proof.
  revert k n; induction l as [|x l IH]; intros [|y k] [|n]; simpl; try done; try lia.
  case_decide; [|lia]. intros. rewrite IH by lia. lia.
Qed.

Lemma common_prefix_app l k : common_prefix_len (k ++ l) k = length k.
Proof. induction k as [|x k IH]; simpl; [by destruct l|]. by rewrite decide_True, IH. Qed.

Lemma common_prefix_len_refl l : common_prefix_len l l = length l.
Proof. rewrite <-(app_nil_r l) at 1. apply common_prefix_app. Qed.
End common_prefix.

(** * Automation *)

Create HintDb near.
#[export] Hint Resolve common_prefix_len_le_l common_prefix_len_le_r : near.
#[export] Hint Rewrite @length_app @length_take @length_drop @length_insert
  @length_replicate @length_fmap : near.

(** Turn the decisions made by executable code into propositions. *)
Ltac to_prop :=
  repeat match goal with
  | H : bool_decide _ = true |- _ => apply bool_decide_eq_true in H
  | H : bool_decide _ = false |- _ => apply bool_decide_eq_false in H
  | H : andb _ _ = true |- _ => apply andb_true_iff in H as [? ?]
  | H : orb _ _ = false |- _ => apply orb_false_iff in H as [? ?]
  | H : negb _ = true |- _ => apply negb_true_iff in H
  | H : negb _ = false |- _ => apply negb_false_iff in H
  | H : (_ <=? _)%Z = true |- _ => apply Z.leb_le in H
  | H : (_ <=? _)%Z = false |- _ => apply Z.leb_gt in H
  | H : (_ <? _)%Z = true |- _ => apply Z.ltb_lt in H
  | H : (_ <? _)%Z = false |- _ => apply Z.ltb_ge in H
  | H : (_ =? _)%Z = true |- _ => apply Z.eqb_eq in H
  | H : (_ =? _)%Z = false |- _ => apply Z.eqb_neq in H
  end.

(** Linear arithmetic with division and modulo by constants. *)
Ltac lia_div := zify; Z.to_euclidean_division_equations; lia.

(** Case analysis on every match and decision in sight, closing easy goals. *)
Ltac crush_cases := repeat (case_match || case_decide); simplify_eq/=; to_prop; try done.

(** One monadic step whose result is known. *)
Ltac step_with H := rewrite (bind_Ok _ _ _ _ _ H); simpl.

(** * Bytes *)

Section bytes.
Local Open Scope Z_scope.

Definition byte_ok (b : Z) : Prop := 0 <= b < 256.

(** The order of slices. *)
Fixpoint lex_compare (l k : list Z) : comparison :=
  match l, k with
  | [], [] => Eq
  | [], _ => Lt
  | _, [] => Gt
  | a :: l, b :: k => match a ?= b with Eq => lex_compare l k | c => c end
  end.

Lemma lex_compare_eq l k : lex_compare l k = Eq ↔ l = k.
Proof.
  revert k. induction l as [|x l IH]; intros [|y k]; simpl; try done.
  destruct (Z.compare_spec x y); naive_solver lia.
Qed.

(** Little-endian encodings. *)
Definition to_le_bytes (n : nat) (x : Z) : list Z :=
  (λ i : nat, Z.shiftr x (8 * Z.of_nat i) mod 256) <$> seq 0 n.

Fixpoint from_le_bytes (bytes : list Z) : Z :=
  match bytes with
  | [] => 0
  | b :: bytes => b + 256 * from_le_bytes bytes
  end.

Lemma length_to_le_bytes n x : length (to_le_bytes n x) = n.
Proof. unfold to_le_bytes. by rewrite length_fmap, length_seq. Qed.

Lemma to_le_bytes_S n x : to_le_bytes (S n) x = x mod 256 :: to_le_bytes n (x / 256).
Proof.
  unfold to_le_bytes. cbn [seq fmap list_fmap]. f_equal. rewrite <-fmap_S_seq, <-list_fmap_compose.
  apply list_fmap_ext. intros i j _. simpl. f_equal. rewrite !Z.shiftr_div_pow2 by lia.
  replace (8 * Z.of_nat (S j)) with (8 + 8 * Z.of_nat j) by lia.
  rewrite Z.pow_add_r, Z.div_div by lia. done.
Qed.

Lemma to_le_bytes_ok n x : Forall byte_ok (to_le_bytes n x).
Proof.
  unfold to_le_bytes. apply Forall_fmap, Forall_forall. intros i _. simpl. unfold byte_ok. apply Z.mod_pos_bound. lia.
Qed.

Lemma from_to_le_bytes n : ∀ x, 0 <= x < 256 ^ Z.of_nat n → from_le_bytes (to_le_bytes n x) = x.
Proof.
  induction n as [|n IH]; intros x Hx; [simpl in *; lia|].
  rewrite to_le_bytes_S. cbn [from_le_bytes]. rewrite Nat2Z.inj_succ, Z.pow_succ_r in Hx by lia.
  rewrite IH by (split; [apply Z.div_pos; lia|apply Z.div_lt_upper_bound; lia]).
  pose proof (Z.div_mod x 256). lia.
Qed.

Lemma from_le_bytes_bound l : Forall byte_ok l → 0 <= from_le_bytes l < 256 ^ Z.of_nat (length l).
Proof.
  unfold byte_ok. induction 1 as [|b l Hb Hl IH]; [done|]. cbn [from_le_bytes length].
  rewrite Nat2Z.inj_succ, Z.pow_succ_r by lia. lia.
Qed.

Lemma from_le_bytes_app l k : from_le_bytes (l ++ k) = from_le_bytes l + 256 ^ Z.of_nat (length l) * from_le_bytes k.
Proof.
  induction l as [|b l IH]; [simpl; lia|]. cbn [from_le_bytes length app].
  rewrite IH, Nat2Z.inj_succ, Z.pow_succ_r by lia. lia.
Qed.
End bytes.

(** * Sorting

    [sort_by_key]: stable, by an integer key. *)

Section sort_by_key.
Context {A : Type} (key : A → Z).

Fixpoint insert_by_key (x : A) (l : list A) : list A :=
  match l with
  | [] => [x]
  | y :: l => if (key x <=? key y)%Z then x :: y :: l else y :: insert_by_key x l
  end.

Definition sort_by_key (l : list A) : list A := foldr insert_by_key [] l.

Lemma insert_by_key_perm x l : insert_by_key x l ≡ₚ x :: l.
Proof.
  induction l as [|y l IH]; [done|]. simpl. case_match; [done|]. rewrite IH. apply Permutation_swap.
Qed.

Lemma sort_by_key_perm l : sort_by_key l ≡ₚ l.
Proof. induction l as [|x l IH]; [done|]. simpl. by rewrite insert_by_key_perm, IH. Qed.
End sort_by_key.

(** * Loops

    Runs an operation for each element of a list. *)
Fixpoint for_each {A S} (f : A → S → option S) (l : list A) (s : S) : option S :=
  match l with
  | [] => Some s
  | x :: l => s ← f x s; for_each f l s
  end.

(** Loop invariants may speak of the elements already visited. *)
Lemma for_each_inv {A S} (P : list A → S → Prop) (f : A → S → option S) l s :
  P [] s →
  (∀ pre x post s, l = pre ++ x :: post → P pre s → ∃ s', f x s = Some s' ∧ P (pre ++ [x]) s') →
  ∃ s', for_each f l s = Some s' ∧ P l s'.
Proof.
  intros Hs Hstep. cut (∀ pre l', l = pre ++ l' → ∀ s, P pre s → ∃ s', for_each f l' s = Some s' ∧ P l s').
  { intros Hc. by apply (Hc []). }
  clear s Hs. intros pre l'. revert pre. induction l' as [|x l' IH]; intros pre Hl s Hs.
  { exists s. by rewrite Hl, app_nil_r. }
  cbn [for_each]. destruct (Hstep pre x l' s Hl Hs) as (s1 & -> & Hs1). cbn [mbind option_bind].
  apply (IH (pre ++ [x])); [by rewrite <-app_assoc|done].
Qed.

Lemma for_each_total {A S} (f : A → S → option S) l s : Forall (λ x, ∀ s, is_Some (f x s)) l → is_Some (for_each f l s).
Proof. intros HF. revert s. induction HF as [|x l Hx _ IH]; intros s; [by eexists|]. cbn [for_each]. destruct (Hx s) as [s' ->]. apply IH. Qed.
