(* ===== verification/Nibbles.v ===== *)
(** Nibble views of byte slices and the hex-prefix encoding of trie edges.

    Models src/core/store/src/trie/nibble_slice.rs.  A slice is the byte vector
    it borrows and a nibble offset into it; out-of-range indexing and [usize]
    subtraction below zero panic, which is [None].  [nibbles] is the abstract
    value of a slice and [hp_encode] the reference encoding; every routine of the
    module is related to them. *)

From S2P Require Import Prelude.

Local Open Scope Z_scope.

Module NibbleSlice.

(** * The code *)

Record slice : Type := mk_slice { data : list Z; offset : nat }.

Definition new_offset (d : list Z) (o : nat) : slice := mk_slice d o.

Definition new (d : list Z) : slice := new_offset d 0.

Definition from_encoded (d : list Z) : option (slice * bool) :=
  b0 ← d !! 0%nat;
  Some (new_offset d (if Z.land b0 16 =? 16 then 1%nat else 2%nat), Z.land b0 32 =? 32).

Definition len (s : slice) : option nat :=
  usize_sub (length (data s) * 2) (offset s).

Definition is_empty (s : slice) : option bool :=
  l ← len s; Some (bool_decide (l = 0%nat)).

Definition at_ (s : slice) (i : nat) : option Z :=
  let shift := if Nat.odd (offset s + i) then 0 else 4 in
  b ← data s !! ((offset s + i) / 2)%nat;
  Some (Z.land (Z.shiftr b shift) 15).

Definition mid (s : slice) (i : nat) : slice :=
  mk_slice (data s) (offset s + i).

(** The [for i in 0..s] loop of [common_prefix]: [n] iterations are left, [i] is the index. *)
Fixpoint common_prefix_loop (n i : nat) (s t : slice) : option nat :=
  match n with
  | O => Some i
  | S n =>
      a ← at_ s i; b ← at_ t i;
      if a =? b then common_prefix_loop n (S i) s t else Some i
  end.

Definition common_prefix (s t : slice) : option nat :=
  l1 ← len s; l2 ← len t;
  common_prefix_loop (l1 `min` l2) 0 s t.

Definition starts_with (s t : slice) : option bool :=
  c ← common_prefix s t; l ← len t; Some (bool_decide (c = l)).

(** The loops [while i < l { r.push(a(i) * 16 + b(i + 1)); i += 2 }]. *)
Fixpoint pack_loop (fuel : nat) (geta getb : nat → option Z) (i l : nat) : option (list Z) :=
  if decide (i < l)%nat then
    match fuel with
    | O => None
    | S fuel =>
        a ← geta i; b ← getb (i + 1)%nat;
        x ← checked_mul 8 a 16; y ← checked_add 8 x b;
        r ← pack_loop fuel geta getb (i + 2) l;
        Some (y :: r)
    end
  else Some [].

(** The byte pushed first by the [encode] family:
    [if i == 1 { 0x10 + at(0) } else { 0 } + if is_leaf { 0x20 } else { 0 }]. *)
Definition head_byte (odd : bool) (get0 : option Z) (is_leaf : bool) : option Z :=
  h ← (if odd then n0 ← get0; checked_add 8 16 n0 else Some 0);
  checked_add 8 h (if is_leaf then 32 else 0).

Definition encode_nibbles (ns : list Z) (is_leaf : bool) : option (list Z) :=
  let l := length ns in
  let i := (l mod 2)%nat in
  h ← head_byte (bool_decide (i = 1%nat)) (ns !! 0%nat) is_leaf;
  r ← pack_loop l (ns !!.) (ns !!.) i l;
  Some (h :: r).

(** [encoded]: the tail is copied from the underlying bytes. *)
Definition encoded (s : slice) (is_leaf : bool) : option (list Z) :=
  l ← len s;
  let parity := (l mod 2)%nat in
  first_byte ← (if bool_decide (parity = 1%nat) then n0 ← at_ s 0; checked_add 8 16 n0 else Some 0);
  let first_byte := if is_leaf then Z.lor first_byte 32 else first_byte in
  let from_byte := ((offset s + parity) / 2)%nat in
  if decide (from_byte ≤ length (data s))%nat
  then Some (first_byte :: drop from_byte (data s)) else None.

(** [encode_to] clears its buffer and writes what [encoded] returns. *)
Definition encode_to (s : slice) (is_leaf : bool) (to : list Z) : option (list Z) :=
  l ← len s;
  let parity := (l mod 2)%nat in
  first_byte ← (if bool_decide (parity = 1%nat) then n0 ← at_ s 0; checked_add 8 16 n0 else Some 0);
  let first_byte := if is_leaf then Z.lor first_byte 32 else first_byte in
  let to := [] ++ [first_byte] in
  let from_byte := ((offset s + parity) / 2)%nat in
  if decide (from_byte ≤ length (data s))%nat
  then Some (to ++ drop from_byte (data s)) else None.

Definition merge_encoded (s other : slice) (is_leaf : bool) : option (list Z) :=
  ls ← len s; lo ← len other;
  let l := (ls + lo)%nat in
  let i := (l mod 2)%nat in
  h ← head_byte (bool_decide (i = 1%nat)) (at_ s 0) is_leaf;
  let pick i := if decide (i < ls)%nat then at_ s i else at_ other (i - ls) in
  r ← pack_loop l pick (λ i, if decide (i < l)%nat then pick i else Some 0) i l;
  Some (h :: r).

Definition encoded_leftmost (s : slice) (n : nat) (is_leaf : bool) : option (list Z) :=
  ls ← len s;
  let l := (ls `min` n)%nat in
  let i := (l mod 2)%nat in
  h ← head_byte (bool_decide (i = 1%nat)) (at_ s 0) is_leaf;
  r ← pack_loop l (at_ s) (at_ s) i l;
  Some (h :: r).

(** [encode_leftmost_to] resizes the buffer and stores every byte by index. *)
Fixpoint store_loop (fuel : nat) (s : slice) (i l : nat) (to : list Z) : option (list Z) :=
  if decide (i < l)%nat then
    match fuel with
    | O => None
    | S fuel =>
        a ← at_ s i; b ← at_ s (i + 1)%nat;
        x ← checked_mul 8 a 16; y ← checked_add 8 x b;
        if decide (i / 2 + 1 < length to)%nat
        then store_loop fuel s (i + 2) l (<[(i / 2 + 1)%nat := y]> to) else None
    end
  else Some to.

Definition encode_leftmost_to (s : slice) (n : nat) (is_leaf : bool) (to : list Z)
    : option (list Z) :=
  ls ← len s;
  let l := (ls `min` n)%nat in
  let to := take (1 + l / 2) (to ++ replicate (1 + l / 2) 0) in
  let i := (l mod 2)%nat in
  h ← head_byte (bool_decide (i = 1%nat)) (at_ s 0) is_leaf;
  store_loop l s i l (<[0%nat := h]> to).

Definition nibbles_to_bytes (ns : list Z) : option (list Z) :=
  if decide (length ns mod 2 = 0)%nat then tail <$> encode_nibbles ns false else None.

(** [PartialEq::eq]. *)
Definition eq (s t : slice) : option bool :=
  l1 ← len s; l2 ← len t;
  if decide (l1 = l2) then starts_with s t else Some false.

(** [Ord::cmp]: the loop and the length comparison. *)
Fixpoint cmp_loop (n i : nat) (s t : slice) : option comparison :=
  match n with
  | O => l1 ← len s; l2 ← len t; Some (l1 ?= l2)%nat
  | S n =>
      a ← at_ s i; b ← at_ t i;
      match a ?= b with Eq => cmp_loop n (S i) s t | c => Some c end
  end.

Definition cmp (s t : slice) : option comparison :=
  l1 ← len s; l2 ← len t; cmp_loop (l1 `min` l2) 0 s t.

(** * Specification *)

Definition nibble_ok (n : Z) : Prop := 0 <= n < 16.

Definition byte_nibbles (b : Z) : list Z := [Z.land (Z.shiftr b 4) 15; Z.land b 15].

Definition bytes_nibbles (bs : list Z) : list Z := bs ≫= byte_nibbles.

(** The nibble sequence a slice denotes. *)
Definition nibbles (s : slice) : list Z := drop (offset s) (bytes_nibbles (data s)).

(** A slice whose offset lies inside its data. *)
Definition slice_ok (s : slice) : Prop :=
  Forall byte_ok (data s) ∧ (offset s ≤ length (data s) * 2)%nat.

Fixpoint pack (ns : list Z) : list Z :=
  match ns with a :: b :: ns => a * 16 + b :: pack ns | _ => [] end.

(** Hex-prefix encoding: one flag byte, which carries the first nibble of a
    sequence of odd length, then two nibbles per byte. *)
Definition hp_encode (is_leaf : bool) (ns : list Z) : list Z :=
  let flag := if is_leaf then 32 else 0 in
  if Nat.odd (length ns)
  then match ns with n0 :: ns => 16 + n0 + flag :: pack ns | [] => [] end
  else flag :: pack ns.

(** * Slices denote nibble sequences *)

Lemma bytes_nibbles_cons b bs : bytes_nibbles (b :: bs) = byte_nibbles b ++ bytes_nibbles bs.
Proof. done. Qed.

Lemma length_bytes_nibbles bs : length (bytes_nibbles bs) = (length bs * 2)%nat.
Proof.
  induction bs as [|b bs IH]; [done|]. rewrite bytes_nibbles_cons, length_app, IH. simpl. lia.
Qed.

Lemma nibble_ok_land x : nibble_ok (Z.land x 15).
Proof.
  unfold nibble_ok. change 15 with (Z.ones 4). rewrite Z.land_ones by lia.
  apply Z.mod_pos_bound. lia.
Qed.

Lemma bytes_nibbles_ok bs : Forall nibble_ok (bytes_nibbles bs).
Proof.
  induction bs as [|b bs IH]; [constructor|].
  rewrite bytes_nibbles_cons. apply Forall_app. split; [|done].
  repeat constructor; apply nibble_ok_land.
Qed.

Lemma nibbles_ok s : Forall nibble_ok (nibbles s).
Proof. apply Forall_drop, bytes_nibbles_ok. Qed.

Lemma length_nibbles s : length (nibbles s) = (length (data s) * 2 - offset s)%nat.
Proof. unfold nibbles. by rewrite length_drop, length_bytes_nibbles. Qed.

Lemma len_spec s : slice_ok s → len s = Some (length (nibbles s)).
Proof. intros [_ ?]. apply usize_sub_Some. rewrite length_nibbles. lia. Qed.

Lemma bytes_nibbles_lookup bs i :
  bytes_nibbles bs !! i =
    b ← bs !! (i / 2)%nat;
    Some (Z.land (Z.shiftr b (if Nat.odd i then 0 else 4)) 15).
Proof.
  revert i. induction bs as [|b bs IH]; intros i; [done|].
  destruct i as [|[|i]]; [done| |].
  { simpl. by rewrite Z.shiftr_0_r. }
  rewrite bytes_nibbles_cons, lookup_app_r by (simpl; lia). simpl length.
  replace (S (S i) - 2)%nat with i by lia. rewrite IH.
  replace (S (S i)) with (i + 1 * 2)%nat at 1 by lia.
  rewrite Nat.div_add, Nat.add_1_r by lia. done.
Qed.

(** Indexing a slice reads its nibble sequence; both are [None] out of range. *)
Lemma at_spec s i : at_ s i = nibbles s !! i.
Proof. unfold at_, nibbles. rewrite lookup_drop, bytes_nibbles_lookup. done. Qed.

Lemma nibbles_mid s i : nibbles (mid s i) = drop i (nibbles s).
Proof. unfold nibbles, mid. simpl. by rewrite drop_drop. Qed.

Lemma slice_ok_mid s i : slice_ok s → (i ≤ length (nibbles s))%nat → slice_ok (mid s i).
Proof. intros [? ?]. rewrite length_nibbles. split; simpl; [done|lia]. Qed.

Lemma slice_ok_new d : Forall byte_ok d → slice_ok (new d).
Proof. split; simpl; [done|lia]. Qed.

Lemma nibbles_new d : nibbles (new d) = bytes_nibbles d.
Proof. unfold nibbles. by rewrite drop_0. Qed.

Lemma common_prefix_loop_spec n i s t :
  (i + n = length (nibbles s) `min` length (nibbles t))%nat →
  common_prefix_loop n i s t =
    Some (i + common_prefix_len (drop i (nibbles s)) (drop i (nibbles t)))%nat.
Proof.
  revert i. induction n as [|n IH]; intros i Hn; simpl.
  - f_equal. destruct (drop i (nibbles s)) as [|x l] eqn:E1; [simpl; lia|].
    destruct (drop i (nibbles t)) as [|y k] eqn:E2; [simpl; lia|].
    apply (f_equal length) in E1, E2. rewrite length_drop in E1, E2. simpl in *. lia.
  - rewrite !at_spec.
    destruct (lookup_lt_is_Some_2 (nibbles s) i) as [a Ha]; [lia|].
    destruct (lookup_lt_is_Some_2 (nibbles t) i) as [b Hb]; [lia|].
    rewrite Ha, Hb. simpl. rewrite (drop_cons_lookup _ _ _ Ha), (drop_cons_lookup _ _ _ Hb). simpl.
    destruct (Z.eqb_spec a b) as [->|Hne].
    + rewrite IH by lia. rewrite decide_True by done. f_equal. lia.
    + rewrite decide_False by done. f_equal. lia.
Qed.

Lemma common_prefix_spec s t :
  slice_ok s → slice_ok t →
  common_prefix s t = Some (common_prefix_len (nibbles s) (nibbles t)).
Proof.
  intros Hs Ht. unfold common_prefix. rewrite (len_spec s), (len_spec t) by done. simpl.
  rewrite common_prefix_loop_spec by lia. by rewrite !drop_0.
Qed.

Lemma starts_with_spec s t :
  slice_ok s → slice_ok t →
  starts_with s t = Some (bool_decide (common_prefix_len (nibbles s) (nibbles t) = length (nibbles t))).
Proof.
  intros Hs Ht. unfold starts_with. rewrite common_prefix_spec, (len_spec t) by done. done.
Qed.

Lemma is_empty_spec s : slice_ok s → is_empty s = Some (bool_decide (nibbles s = [])).
Proof.
  intros Hs. unfold is_empty. rewrite len_spec by done. simpl. f_equal.
  apply bool_decide_ext. by rewrite length_zero_iff_nil.
Qed.

Lemma eq_spec s t :
  slice_ok s → slice_ok t → eq s t = Some (bool_decide (nibbles s = nibbles t)).
Proof.
  intros Hs Ht. unfold eq. rewrite (len_spec s), (len_spec t) by done. simpl.
  case_decide as Hl.
  - rewrite starts_with_spec by done. f_equal. apply bool_decide_ext. split.
    + intros Hc. rewrite (common_prefix_full _ _ Hc), <-Hl, drop_all. by rewrite app_nil_r.
    + intros ->. apply common_prefix_len_refl.
  - f_equal. symmetry. apply bool_decide_eq_false. congruence.
Qed.

(** * The encodings *)

Lemma nibble_byte a b :
  nibble_ok a → nibble_ok b →
  checked_mul 8 a 16 = Some (a * 16) ∧ checked_add 8 (a * 16) b = Some (a * 16 + b).
Proof.
  unfold nibble_ok. intros. split; [apply checked_mul_Some|apply checked_add_Some];
    (split; [done|change (umax 8) with 255; lia]).
Qed.

Lemma pack_loop_spec ns geta getb i l fuel :
  l = length ns → Forall nibble_ok ns →
  (∀ j, (j < l)%nat → geta j = ns !! j) → (∀ j, (j < l)%nat → getb j = ns !! j) →
  Nat.Even (l - i) → (i ≤ l)%nat → (l - i ≤ fuel)%nat →
  pack_loop fuel geta getb i l = Some (pack (drop i ns)).
Proof.
  intros -> Hok Ha Hb. revert i. induction fuel as [|fuel IH]; intros i Hev Hi Hf; simpl.
  - rewrite decide_False by lia. by rewrite drop_ge by lia.
  - case_decide as Hlt; [|by rewrite drop_ge by lia].
    destruct Hev as [k Hk].
    destruct (lookup_lt_is_Some_2 ns i) as [a Hai]; [lia|].
    destruct (lookup_lt_is_Some_2 ns (i + 1)) as [b Hbi]; [lia|].
    rewrite Ha, Hb, Hai, Hbi by lia. simpl.
    destruct (nibble_byte a b) as [-> Hadd];
      [by eapply Forall_lookup_1|by eapply Forall_lookup_1|]. simpl. rewrite Hadd. simpl.
    rewrite IH; [|exists (k - 1)%nat; lia|lia|lia]. simpl.
    rewrite (drop_cons_lookup _ _ _ Hai). rewrite Nat.add_1_r in Hbi.
    rewrite (drop_cons_lookup _ _ _ Hbi). simpl. by replace (i + 2)%nat with (S (S i)) by lia.
Qed.

Lemma mod2_cases n :
  (Nat.odd n = true ∧ n mod 2 = 1 ∧ Nat.Even (n - 1))%nat ∨
  (Nat.odd n = false ∧ n mod 2 = 0 ∧ Nat.Even n)%nat.
Proof.
  pose proof (Nat.div2_odd n) as H. destruct (Nat.odd n); simpl in H; [left|right].
  - split_and!; [done|lia_div|exists (Nat.div2 n); lia].
  - split_and!; [done|lia_div|exists (Nat.div2 n); lia].
Qed.

Lemma head_byte_spec is_leaf ns :
  Forall nibble_ok ns →
  head_byte (bool_decide (length ns mod 2 = 1)%nat) (ns !! 0%nat) is_leaf = hp_encode is_leaf ns !! 0%nat
  ∧ tail (hp_encode is_leaf ns) = pack (drop (length ns mod 2) ns).
Proof.
  intros Hok. unfold head_byte, hp_encode.
  destruct (mod2_cases (length ns)) as [(-> & -> & _)|(-> & -> & _)].
  - destruct ns as [|n0 ns]; [done|]. apply Forall_cons in Hok as [[] _]. simpl.
    unfold checked_add. change (umax 8) with 255.
    rewrite (proj2 (Z.leb_le (16 + n0) 255)) by lia. simpl. split; [|done].
    case_match eqn:E; to_prop; [done|]. destruct is_leaf; lia.
  - simpl. by destruct is_leaf.
Qed.

Lemma hp_encode_eq is_leaf ns h r :
  hp_encode is_leaf ns !! 0%nat = Some h → tail (hp_encode is_leaf ns) = r →
  hp_encode is_leaf ns = h :: r.
Proof. destruct (hp_encode is_leaf ns); naive_solver. Qed.

Lemma hp_encode_head is_leaf ns : is_Some (hp_encode is_leaf ns !! 0%nat).
Proof.
  unfold hp_encode. case_match eqn:Ho; [|done]. by destruct ns.
Qed.

(** The common shape of the [encode] routines. *)
Lemma encode_shape is_leaf ns geta getb :
  Forall nibble_ok ns →
  (∀ j, (j < length ns)%nat → geta j = ns !! j) →
  (∀ j, (j < length ns)%nat → getb j = ns !! j) →
  (h ← head_byte (bool_decide (length ns mod 2 = 1)%nat) (ns !! 0%nat) is_leaf;
   r ← pack_loop (length ns) geta getb (length ns mod 2) (length ns);
   Some (h :: r)) = Some (hp_encode is_leaf ns).
Proof.
  intros Hok Ha Hb. destruct (head_byte_spec is_leaf ns Hok) as [Hh Ht].
  destruct (hp_encode_head is_leaf ns) as [h0 H0].
  rewrite Hh, (hp_encode_eq _ _ _ _ H0 eq_refl), Ht. simpl.
  rewrite (pack_loop_spec ns); try done.
  - destruct (mod2_cases (length ns)) as [(_ & -> & H)|(_ & -> & H)]; [done|].
    by rewrite Nat.sub_0_r.
  - apply Nat.Div0.mod_le.
  - lia.
Qed.

Lemma encode_nibbles_spec ns is_leaf :
  Forall nibble_ok ns → encode_nibbles ns is_leaf = Some (hp_encode is_leaf ns).
Proof. intros Hok. unfold encode_nibbles. by apply encode_shape. Qed.

Lemma encoded_leftmost_spec s n is_leaf :
  slice_ok s → encoded_leftmost s n is_leaf = Some (hp_encode is_leaf (take n (nibbles s))).
Proof.
  intros Hs. unfold encoded_leftmost. rewrite len_spec by done. simpl.
  rewrite Nat.min_comm, <-length_take.
  assert (Hget : ∀ j, (j < length (take n (nibbles s)))%nat → at_ s j = take n (nibbles s) !! j).
  { intros j Hj. rewrite at_spec, lookup_take_lt; [done|]. rewrite length_take in Hj. lia. }
  rewrite <-(encode_shape is_leaf (take n (nibbles s)) (at_ s) (at_ s)); try done.
  - destruct (decide (length (take n (nibbles s)) = 0)%nat) as [E|E].
    + by rewrite E.
    + rewrite Hget by lia. done.
  - apply Forall_take, nibbles_ok.
Qed.

Lemma merge_encoded_spec s t is_leaf :
  slice_ok s → slice_ok t → nibbles s ≠ [] →
  merge_encoded s t is_leaf = Some (hp_encode is_leaf (nibbles s ++ nibbles t)).
Proof.
  intros Hs Ht Hne. unfold merge_encoded. rewrite (len_spec s), (len_spec t) by done. simpl.
  rewrite <-length_app. set (pick := λ i, if decide _ then _ else _).
  assert (Hget : ∀ j, (j < length (nibbles s ++ nibbles t))%nat →
            pick j = (nibbles s ++ nibbles t) !! j).
  { intros j _. unfold pick. rewrite !at_spec. case_decide.
    - by rewrite lookup_app_l.
    - by rewrite lookup_app_r by lia. }
  rewrite <-(encode_shape is_leaf (nibbles s ++ nibbles t) pick
    (λ i, if decide (i < length (nibbles s ++ nibbles t))%nat then pick i else Some 0)); try done.
  - rewrite at_spec. destruct (nibbles s) eqn:E; [done|]. done.
  - apply Forall_app; split; apply nibbles_ok.
  - intros j Hj. rewrite decide_True by done. auto.
Qed.

Lemma byte_split b : byte_ok b → Z.land (Z.shiftr b 4) 15 * 16 + Z.land b 15 = b.
Proof.
  unfold byte_ok. intros. change 15 with (Z.ones 4). rewrite !Z.land_ones, Z.shiftr_div_pow2 by lia.
  change (2 ^ 4) with 16. lia_div.
Qed.

Lemma pack_bytes_nibbles bs : Forall byte_ok bs → pack (bytes_nibbles bs) = bs.
Proof.
  induction 1 as [|b bs Hb _ IH]; [done|].
  rewrite bytes_nibbles_cons. simpl. by rewrite byte_split, IH.
Qed.

Lemma drop_bytes_nibbles k bs : drop (k * 2) (bytes_nibbles bs) = bytes_nibbles (drop k bs).
Proof.
  revert k. induction bs as [|b bs IH]; intros k; [by rewrite drop_nil; destruct k|].
  destruct k as [|k]; [done|]. apply IH.
Qed.

Lemma lor_flag x : 0 <= x < 32 → Z.lor x 32 = x + 32.
Proof.
  intros Hx. rewrite <-(Z.add_lor_land x 32).
  assert (Z.land x 32 = 0) as ->; [|lia].
  rewrite <-(Z.mod_small x (2 ^ 5)) by done. rewrite <-Z.land_ones, <-Z.land_assoc by lia.
  apply Z.land_0_r.
Qed.

Lemma drop_parity_bytes s :
  slice_ok s →
  ((offset s + length (nibbles s) mod 2) / 2 ≤ length (data s))%nat ∧
  drop (length (nibbles s) mod 2) (nibbles s) =
    bytes_nibbles (drop ((offset s + length (nibbles s) mod 2) / 2) (data s)).
Proof.
  intros [_ Ho]. rewrite length_nibbles. set (p := ((_ - _) mod 2)%nat).
  assert (offset s + p = (offset s + p) / 2 * 2)%nat as E by (unfold p; lia_div).
  split; [unfold p in *; lia_div|].
  unfold nibbles. rewrite drop_drop, E, drop_bytes_nibbles. repeat f_equal. lia.
Qed.

Lemma first_byte_spec s is_leaf :
  slice_ok s →
  ∃ f, (if bool_decide (length (nibbles s) mod 2 = 1)%nat
        then n0 ← at_ s 0; checked_add 8 16 n0 else Some 0) = Some f ∧
  hp_encode is_leaf (nibbles s) =
    (if is_leaf then Z.lor f 32 else f) :: pack (drop (length (nibbles s) mod 2) (nibbles s)).
Proof.
  intros Hs. rewrite at_spec. pose proof (nibbles_ok s) as Hok. unfold hp_encode.
  destruct (mod2_cases (length (nibbles s))) as [(Ho & -> & _)|(-> & -> & _)].
  - rewrite Ho. destruct (nibbles s) as [|n0 ns]; [done|]. apply Forall_cons in Hok as [[] _]. simpl.
    exists (16 + n0). unfold checked_add. change (umax 8) with 255.
    rewrite (proj2 (Z.leb_le (16 + n0) 255)) by lia. split; [done|].
    destruct is_leaf; [by rewrite lor_flag by lia|f_equal; lia].
  - exists 0. by destruct is_leaf.
Qed.

Lemma encoded_spec s is_leaf :
  slice_ok s → encoded s is_leaf = Some (hp_encode is_leaf (nibbles s)).
Proof.
  intros Hs. unfold encoded. rewrite len_spec by done. simpl.
  destruct (first_byte_spec s is_leaf Hs) as (f & -> & ->). simpl.
  destruct (drop_parity_bytes s Hs) as [Hle ->]. rewrite decide_True by done.
  rewrite pack_bytes_nibbles; [done|]. apply Forall_drop, Hs.
Qed.

Lemma encode_to_spec s is_leaf to :
  slice_ok s → encode_to s is_leaf to = Some (hp_encode is_leaf (nibbles s)).
Proof.
  intros Hs. rewrite <-encoded_spec by done. unfold encode_to, encoded.
  done.
Qed.

Lemma hp_flags n0 (is_leaf : bool) :
  nibble_ok n0 → ∀ f, f = (if is_leaf then 32 else 0) →
  Z.land (16 + n0 + f) 16 = 16 ∧ Z.land (16 + n0 + f) 32 = f ∧
  Z.land (16 + n0 + f) 15 = n0.
Proof.
  unfold nibble_ok. intros Hn f ->.
  assert (n0 = 0 ∨ n0 = 1 ∨ n0 = 2 ∨ n0 = 3 ∨ n0 = 4 ∨ n0 = 5 ∨ n0 = 6 ∨ n0 = 7 ∨ n0 = 8 ∨
          n0 = 9 ∨ n0 = 10 ∨ n0 = 11 ∨ n0 = 12 ∨ n0 = 13 ∨ n0 = 14 ∨ n0 = 15) as Hc by lia.
  destruct is_leaf; repeat (destruct Hc as [->|Hc]; [done|]); by subst.
Qed.

Lemma bytes_nibbles_pack ns :
  Forall nibble_ok ns → Nat.Even (length ns) → bytes_nibbles (pack ns) = ns.
Proof.
  intros Hok [k Hk]. revert k ns Hok Hk.
  induction k as [|k IH]; intros ns Hok Hk.
  - by destruct ns.
  - destruct ns as [|a [|b ns]]; simpl in Hk; [lia|lia|].
    apply Forall_cons in Hok as [[? ?] Hok]. apply Forall_cons in Hok as [[? ?] Hok]. cbn [pack].
    rewrite bytes_nibbles_cons, IH by (done || lia). unfold byte_nibbles.
    change 15 with (Z.ones 4). rewrite !Z.land_ones, Z.shiftr_div_pow2 by lia.
    change (2 ^ 4) with 16. simpl. repeat f_equal; lia_div.
Qed.

Lemma pack_byte_ok ns : Forall nibble_ok ns → Forall byte_ok (pack ns).
Proof.
  remember (length ns) as n eqn:E. assert (length ns ≤ n)%nat as Hn by lia. clear E.
  revert ns Hn. induction n as [|n IH]; intros [|a [|b ns]] Hn Hok; simpl in *; try constructor; try lia.
  - apply Forall_cons in Hok as [[? ?] Hok]. apply Forall_cons in Hok as [[? ?] Hok].
    unfold byte_ok. lia.
  - apply Forall_cons in Hok as [_ Hok]. apply Forall_cons in Hok as [_ Hok]. apply IH; [lia|done].
Qed.

Lemma hp_encode_byte_ok is_leaf ns : Forall nibble_ok ns → Forall byte_ok (hp_encode is_leaf ns).
Proof.
  intros Hok. unfold hp_encode. case_match.
  - destruct ns as [|n0 ns]; [done|]. apply Forall_cons in Hok as [[] Hok].
    constructor; [|by apply pack_byte_ok]. unfold byte_ok. destruct is_leaf; lia.
  - constructor; [|by apply pack_byte_ok]. unfold byte_ok. destruct is_leaf; lia.
Qed.

(** Decoding an encoded edge gives back its nibbles and its leaf flag. *)
Lemma from_encoded_hp_encode is_leaf ns :
  Forall nibble_ok ns →
  ∃ s, from_encoded (hp_encode is_leaf ns) = Some (s, is_leaf) ∧ slice_ok s ∧ nibbles s = ns.
Proof.
  intros Hok. unfold from_encoded, hp_encode.
  destruct (mod2_cases (length ns)) as [(Ho & _ & He)|(-> & _ & He)].
  - rewrite Ho. destruct ns as [|n0 ns]; [done|]. pose proof Hok as Hok'. apply Forall_cons in Hok as [Hn Hok].
    simpl. destruct (hp_flags n0 is_leaf Hn _ eq_refl) as (-> & -> & H15).
    exists (new_offset (16 + n0 + (if is_leaf then 32 else 0) :: pack ns) 1). split_and!.
    + by destruct is_leaf.
    + split; [|simpl; lia]. pose proof (hp_encode_byte_ok is_leaf (n0 :: ns) Hok') as H.
      unfold hp_encode in H. by rewrite Ho in H.
    + unfold nibbles, new_offset. simpl. rewrite H15. f_equal. apply bytes_nibbles_pack; [done|].
      simpl in He. by rewrite Nat.sub_0_r in He.
  - simpl. exists (new_offset ((if is_leaf then 32 else 0) :: pack ns) 2). split_and!.
    + by destruct is_leaf.
    + split; [|simpl; lia]. simpl. constructor; [|by apply pack_byte_ok].
      unfold byte_ok. destruct is_leaf; lia.
    + unfold nibbles, new_offset. simpl. by apply bytes_nibbles_pack.
Qed.

Lemma cmp_loop_spec n i s t :
  slice_ok s → slice_ok t →
  (i + n = length (nibbles s) `min` length (nibbles t))%nat →
  take i (nibbles s) = take i (nibbles t) →
  cmp_loop n i s t = Some (lex_compare (drop i (nibbles s)) (drop i (nibbles t))).
Proof.
  intros Hs Ht. revert i. induction n as [|n IH]; intros i Hn Hp; simpl.
  - rewrite (len_spec s), (len_spec t) by done. simpl. f_equal.
    destruct (drop i (nibbles s)) as [|x l] eqn:E1; destruct (drop i (nibbles t)) as [|y k] eqn:E2;
      apply (f_equal length) in E1, E2; rewrite length_drop in E1, E2; simpl in E1, E2 |- *;
      [apply Nat.compare_eq_iff|apply Nat.compare_lt_iff|apply Nat.compare_gt_iff|]; lia.
  - rewrite !at_spec.
    destruct (lookup_lt_is_Some_2 (nibbles s) i) as [a Ha]; [lia|].
    destruct (lookup_lt_is_Some_2 (nibbles t) i) as [b Hb]; [lia|].
    rewrite Ha, Hb. simpl. rewrite (drop_cons_lookup _ _ _ Ha), (drop_cons_lookup _ _ _ Hb). simpl.
    destruct (Z.compare_spec a b) as [->| |]; [|done|done].
    apply IH; [lia|]. by rewrite (take_S_r _ _ _ Ha), (take_S_r _ _ _ Hb), Hp.
Qed.

Lemma cmp_spec s t :
  slice_ok s → slice_ok t → cmp s t = Some (lex_compare (nibbles s) (nibbles t)).
Proof.
  intros Hs Ht. unfold cmp. rewrite (len_spec s), (len_spec t) by done. simpl.
  rewrite cmp_loop_spec by (done || lia). by rewrite !drop_0.
Qed.

Lemma store_loop_spec fuel s i l to :
  (l ≤ length (nibbles s))%nat → length to = (1 + l / 2)%nat → (i ≤ l)%nat →
  Nat.Even (l - i) → (l - i ≤ fuel)%nat → (i mod 2 = l mod 2)%nat →
  store_loop fuel s i l to =
    Some (take (1 + i / 2) to ++ pack (drop i (take l (nibbles s)))).
Proof.
  intros Hl. revert i to. induction fuel as [|fuel IH]; intros i to Hto Hi Hev Hf Hpar; simpl.
  - rewrite decide_False by lia. replace i with l by lia.
    rewrite (drop_ge (take _ _)) by (rewrite length_take; lia).
    rewrite app_nil_r, take_ge; [done|]. simpl. lia.
  - case_decide as Hlt.
    2:{ replace i with l by lia. rewrite (drop_ge (take _ _)) by (rewrite length_take; lia).
        rewrite app_nil_r, take_ge; [done|]. simpl. lia. }
    destruct Hev as [k Hk]. rewrite !at_spec.
    destruct (lookup_lt_is_Some_2 (nibbles s) i) as [a Ha]; [lia|].
    destruct (lookup_lt_is_Some_2 (nibbles s) (i + 1)) as [b Hb]; [lia|].
    rewrite Ha, Hb. simpl. pose proof (nibbles_ok s) as Hok.
    destruct (nibble_byte a b) as [-> Hadd];
      [by eapply Forall_lookup_1|by eapply Forall_lookup_1|]. simpl. rewrite Hadd. simpl.
    assert (i / 2 + 1 < 1 + l / 2)%nat as Hidx by lia_div.
    rewrite decide_True by lia.
    rewrite IH; [|by rewrite length_insert|lia|exists (k - 1)%nat; lia|lia|lia_div].
    replace ((i + 2) / 2)%nat with (i / 2 + 1)%nat by lia_div. f_equal.
    rewrite (drop_cons_lookup (take _ _) i a) by (rewrite lookup_take_lt by lia; done).
    rewrite (drop_cons_lookup (take _ _) (S i) b)
      by (rewrite lookup_take_lt by lia; by rewrite <-Nat.add_1_r).
    simpl. replace (i + 2)%nat with (S (S i)) by lia. rewrite cons_middle, app_assoc. f_equal.
    rewrite (take_S_r _ _ (a * 16 + b)).
    + f_equal. rewrite take_insert_ge by lia. f_equal. lia.
    + rewrite Nat.add_1_r. apply list_lookup_insert_eq. lia.
Qed.

Lemma encode_leftmost_to_spec s n is_leaf to :
  slice_ok s →
  encode_leftmost_to s n is_leaf to = Some (hp_encode is_leaf (take n (nibbles s))).
Proof.
  intros Hs. unfold encode_leftmost_to. rewrite len_spec by done. cbn [mbind option_bind].
  set (ns := take n (nibbles s)).
  assert (length (nibbles s) `min` n = length ns)%nat as E by (unfold ns; rewrite length_take; lia).
  rewrite E. assert (Hok : Forall nibble_ok ns) by apply Forall_take, nibbles_ok.
  assert (take (length ns) (nibbles s) = ns) as Etake.
  { rewrite <-E. unfold ns. destruct (Nat.min_spec (length (nibbles s)) n) as [[? ->]|[? ->]];
      [by rewrite !take_ge by lia|done]. }
  destruct (head_byte_spec is_leaf ns Hok) as [Hh Ht].
  destruct (hp_encode_head is_leaf ns) as [h0 H0].
  assert (head_byte (bool_decide (length ns mod 2 = 1)%nat) (at_ s 0) is_leaf = Some h0) as Eh.
  { rewrite <-H0, <-Hh. destruct (decide (length ns = 0)%nat) as [E0|E0]; [by rewrite E0|].
    rewrite at_spec. unfold ns. rewrite lookup_take_lt; [done|]. unfold ns in E0. rewrite length_take in E0. lia. }
  rewrite Eh, (hp_encode_eq _ _ _ _ H0 eq_refl), Ht. cbn [mbind option_bind].
  destruct (mod2_cases (length ns)) as [(Ho & Hm & Hev)|(Ho & Hm & Hev)];
    (rewrite store_loop_spec;
      [|lia| |lia|by rewrite Hm, ?Nat.sub_0_r|lia|by rewrite Hm]).
  all: try (rewrite length_insert, length_take, length_app, length_replicate; lia).
  all: rewrite Hm; f_equal.
  all: rewrite Etake.
  all: destruct (to ++ replicate _ _) as [|x r] eqn:Ex; [apply (f_equal length) in Ex; rewrite length_app in Ex; simpl in Ex; lia|done].
Qed.

(** * Main results *)

(** C17: encoding any well-formed nibble slice succeeds, gives a sequence of bytes, and
    [from_encoded] recovers the node kind and exactly the nibbles that were encoded; the five
    encoders ([encoded], [encode_to], [encoded_leftmost], [encode_leftmost_to] and
    [encode_nibbles]) produce the same bytes, whatever the output buffer held before. *)
Theorem encoded_roundtrip s is_leaf to :
  slice_ok s →
  ∃ enc s', encoded s is_leaf = Some enc ∧ Forall byte_ok enc ∧
    from_encoded enc = Some (s', is_leaf) ∧ slice_ok s' ∧ nibbles s' = nibbles s ∧
    encode_to s is_leaf to = Some enc ∧
    encoded_leftmost s (length (nibbles s)) is_leaf = Some enc ∧
    encode_leftmost_to s (length (nibbles s)) is_leaf to = Some enc ∧
    encode_nibbles (nibbles s) is_leaf = Some enc.
Proof.
  intros Hs. destruct (from_encoded_hp_encode is_leaf (nibbles s) (nibbles_ok s)) as (s' & Hd & Hok & Hn).
  exists (hp_encode is_leaf (nibbles s)), s'.
  rewrite encoded_spec, encode_to_spec, encoded_leftmost_spec, encode_leftmost_to_spec, encode_nibbles_spec
    by (done || apply nibbles_ok).
  rewrite firstn_all. split_and!; try done. apply hp_encode_byte_ok, nibbles_ok.
Qed.

Lemma encoded_roundtrip_witness :
  slice_ok (mk_slice [18; 52; 86] 1) ∧
  ∃ enc s', encoded (mk_slice [18; 52; 86] 1) true = Some enc ∧ Forall byte_ok enc ∧
    from_encoded enc = Some (s', true) ∧ slice_ok s' ∧ nibbles s' = [2; 3; 4; 5; 6] ∧
    encode_to (mk_slice [18; 52; 86] 1) true [7] = Some enc ∧
    encoded_leftmost (mk_slice [18; 52; 86] 1) 5 true = Some enc ∧
    encode_leftmost_to (mk_slice [18; 52; 86] 1) 5 true [7] = Some enc ∧
    encode_nibbles [2; 3; 4; 5; 6] true = Some enc.
Proof.
  assert (slice_ok (mk_slice [18; 52; 86] 1)) as Hok
    by (split; [repeat constructor; unfold byte_ok; lia|simpl; lia]).
  split; [done|]. exact (encoded_roundtrip (mk_slice [18; 52; 86] 1) true [7] Hok).
Defined.

(** Merging the key of a node with the key of its only child, as squashing does, yields
    an encoding that decodes to the concatenation of the two nibble sequences. *)
Theorem merge_encoded_concat s t is_leaf :
  slice_ok s → slice_ok t → nibbles s ≠ [] →
  ∃ enc u, merge_encoded s t is_leaf = Some enc ∧ from_encoded enc = Some (u, is_leaf) ∧
    nibbles u = nibbles s ++ nibbles t.
Proof.
  intros Hs Ht Hne.
  destruct (from_encoded_hp_encode is_leaf (nibbles s ++ nibbles t)) as (u & Hd & _ & Hn).
  { apply Forall_app. split; apply nibbles_ok. }
  exists (hp_encode is_leaf (nibbles s ++ nibbles t)), u. by rewrite merge_encoded_spec.
Qed.

Lemma merge_encoded_concat_witness :
  ∃ enc u, merge_encoded (mk_slice [18] 1) (mk_slice [52; 86] 0) false = Some enc ∧
    from_encoded enc = Some (u, false) ∧ nibbles u = [2; 3; 4; 5; 6].
Proof.
  apply (merge_encoded_concat (mk_slice [18] 1) (mk_slice [52; 86] 0) false).
  - split; [repeat constructor; unfold byte_ok; lia|simpl; lia].
  - split; [repeat constructor; unfold byte_ok; lia|simpl; lia].
  - discriminate.
Defined.

(** [cmp] compares slices as lexicographic order on their nibbles, it is antisymmetric,
    and it agrees with [==], which ignores how the nibbles are aligned in the bytes. *)
Theorem cmp_lexicographic s t :
  slice_ok s → slice_ok t →
  cmp s t = Some (lex_compare (nibbles s) (nibbles t)) ∧
  (cmp s t = Some Eq ↔ eq s t = Some true) ∧
  (eq s t = Some true ↔ nibbles s = nibbles t) ∧
  cmp t s = Some (CompOpp (lex_compare (nibbles s) (nibbles t))).
Proof.
  intros Hs Ht. rewrite !cmp_spec, eq_spec by done.
  assert (∀ l k, lex_compare l k = CompOpp (lex_compare k l)) as Hopp.
  { induction l as [|x l IH]; intros [|y k]; simpl; try done.
    rewrite (Z.compare_antisym y x). destruct (Z.compare_spec y x); simpl; try done. }
  split_and!; [done| | |by rewrite Hopp].
  - rewrite !(inj_iff Some), lex_compare_eq, bool_decide_eq_true. done.
  - by rewrite (inj_iff Some), bool_decide_eq_true.
Qed.

Lemma cmp_lexicographic_witness :
  cmp (mk_slice [18; 52] 1) (mk_slice [2; 53] 1) = Some Lt ∧
  eq (mk_slice [18; 52] 2) (mk_slice [52] 0) = Some true.
Proof.
  assert (∀ d o, Forall byte_ok d → (o ≤ length d * 2)%nat → slice_ok (mk_slice d o)) as Hok by done.
  assert (Forall byte_ok [18; 52] ∧ Forall byte_ok [52] ∧ Forall byte_ok [2; 53]) as (? & ? & ?)
    by (split_and!; repeat constructor; unfold byte_ok; lia).
  destruct (cmp_lexicographic (mk_slice [18; 52] 1) (mk_slice [2; 53] 1)) as [E _];
    [apply Hok; [done|simpl; lia]..|].
  destruct (cmp_lexicographic (mk_slice [18; 52] 2) (mk_slice [52] 0)) as (_ & _ & E' & _);
    [apply Hok; [done|simpl; lia]..|].
  split; [exact E|]. apply E'. reflexivity.
Defined.

End NibbleSlice.
