(* ===== verification/TrieNode.v ===== *)
(** Trie nodes, their memory cost and their raw on-disk form.

    Models the data types of src/core/store/src/trie/ops/interface.rs and
    src/core/store/src/trie/raw_node.rs.  Hashes are an abstract countable type:
    SHA-256 and the derived borsh codec come from third-party crates and appear
    as the class [TrieCodec]. *)

From S2P Require Import Prelude.

Local Open Scope Z_scope.

(** * Values *)

Record ValueRef (H : Type) : Type := mkValueRef { length_ : N; hash : H }.
Arguments mkValueRef {H} _ _.
Arguments length_ {H} _.
Arguments hash {H} _.

(** [StorageValueHandle(index, length)] points into the values of the update. *)
Inductive ValueHandle (H : Type) : Type :=
| InMemory (index value_len : nat)
| HashAndSize (value : ValueRef H).
Arguments InMemory {H} _ _.
Arguments HashAndSize {H} _.

(** [HasValueLength::len] for [ValueHandle]. *)
Definition value_handle_len {H} (v : ValueHandle H) : Z :=
  match v with
  | HashAndSize value => Z.of_N (length_ value)
  | InMemory _ n => Z.of_nat n
  end.

Lemma value_handle_len_nonneg {H} (v : ValueHandle H) : 0 <= value_handle_len v.
Proof. destruct v; simpl; lia. Qed.

(** Only the constructor taken by the on-disk trie carries a full value. *)
Inductive GenericTrieValue : Type :=
| MemtrieAndDisk (value : list Z)
| MemtrieOnly (flat_state_value : list Z).

(** * Nodes *)

Definition NUM_CHILDREN : nat := 16.

Inductive GenericTrieNode (Ptr V : Type) : Type :=
| Empty
| Leaf (extension : list Z) (value : V)
| Extension (extension : list Z) (child : Ptr)
| Branch (children : list (option Ptr)) (value : option V).
Arguments Empty {Ptr V}.
Arguments Leaf {Ptr V} _ _.
Arguments Extension {Ptr V} _ _.
Arguments Branch {Ptr V} _ _.

Inductive GenericNodeOrIndex (Ptr : Type) : Type :=
| Old (ptr : Ptr)
| Updated (id : nat).
Arguments Old {Ptr} _.
Arguments Updated {Ptr} _.

Definition GenericUpdatedTrieNode (Ptr V : Type) : Type :=
  GenericTrieNode (GenericNodeOrIndex Ptr) V.

Record GenericTrieNodeWithSize (Ptr V : Type) : Type := mkWithSize
  { node : GenericTrieNode Ptr V; memory_usage : Z }.
Arguments mkWithSize {Ptr V} _ _.
Arguments node {Ptr V} _.
Arguments memory_usage {Ptr V} _.

(** [GenericUpdatedTrieNodeWithSize] has the same fields over updated pointers. *)
Definition GenericUpdatedTrieNodeWithSize (Ptr V : Type) : Type :=
  GenericTrieNodeWithSize (GenericNodeOrIndex Ptr) V.

Definition empty_with_size {Ptr V} : GenericTrieNodeWithSize Ptr V := mkWithSize Empty 0.

(** [From<GenericTrieNode>] for updated nodes, over any pointer conversion. *)
Section node_map.
Context {A B V : Type} (f : A → B).

Definition node_map (n : GenericTrieNode A V) : GenericTrieNode B V :=
  match n with
  | Empty => Empty
  | Leaf extension value => Leaf extension value
  | Extension extension child => Extension extension (f child)
  | Branch children value => Branch (option_map f <$> children) value
  end.
End node_map.

Definition into_updated {Ptr V} (n : GenericTrieNode Ptr V) : GenericUpdatedTrieNode Ptr V :=
  node_map Old n.

Definition into_updated_with_size {Ptr V} (n : GenericTrieNodeWithSize Ptr V)
    : GenericUpdatedTrieNodeWithSize Ptr V :=
  mkWithSize (into_updated (node n)) (memory_usage n).

(** * Memory cost *)

Record TrieCosts : Type := mkTrieCosts { byte_of_key : Z; byte_of_value : Z; node_cost : Z }.

Definition TRIE_COSTS : TrieCosts := mkTrieCosts 2 1 50.

Definition memory_usage_value (value_length : Z) : option Z :=
  x ← checked_mul 64 value_length (byte_of_value TRIE_COSTS);
  checked_add 64 x (node_cost TRIE_COSTS).

Definition memory_usage_direct {Ptr V} (value_len : V → Z) (n : GenericTrieNode Ptr V) : option Z :=
  match n with
  | Empty => Some 0
  | Leaf extension value =>
      k ← checked_mul 64 (Z.of_nat (length extension)) (byte_of_key TRIE_COSTS);
      x ← checked_add 64 (node_cost TRIE_COSTS) k;
      v ← memory_usage_value (value_len value);
      checked_add 64 x v
  | Branch _ value =>
      v ← (match value with None => Some 0 | Some v => memory_usage_value (value_len v) end);
      checked_add 64 (node_cost TRIE_COSTS) v
  | Extension extension _ =>
      k ← checked_mul 64 (Z.of_nat (length extension)) (byte_of_key TRIE_COSTS);
      checked_add 64 (node_cost TRIE_COSTS) k
  end.

(** The same cost over unbounded integers. *)
Definition direct_cost {Ptr V} (value_len : V → Z) (n : GenericTrieNode Ptr V) : Z :=
  match n with
  | Empty => 0
  | Leaf extension value => 50 + Z.of_nat (length extension) * 2 + (value_len value + 50)
  | Branch _ value => 50 + match value with None => 0 | Some v => value_len v + 50 end
  | Extension extension _ => 50 + Z.of_nat (length extension) * 2
  end.

Lemma memory_usage_direct_spec {Ptr V} (value_len : V → Z) (n : GenericTrieNode Ptr V) :
  (∀ v, 0 <= value_len v) → direct_cost value_len n <= umax 64 →
  memory_usage_direct value_len n = Some (direct_cost value_len n).
Proof.
  intros Hv Hle. unfold memory_usage_direct, memory_usage_value, checked_mul, checked_add.
  destruct n as [|ext v|ext c|cs [v|]]; simpl in *; try done; try (specialize (Hv v));
    repeat (case_match; to_prop; simpl; try lia); f_equal; lia.
Qed.

Lemma direct_cost_nonneg {Ptr V} (value_len : V → Z) (n : GenericTrieNode Ptr V) :
  (∀ v, 0 <= value_len v) → 0 <= direct_cost value_len n.
Proof. intros Hv. destruct n as [|ext v|ext c|cs [v|]]; simpl; try specialize (Hv v); lia. Qed.

(** * Raw nodes *)

Inductive RawTrieNode (H : Type) : Type :=
| RawLeaf (extension : list Z) (value : ValueRef H)
| RawBranchNoValue (children : list (option H))
| RawBranchWithValue (value : ValueRef H) (children : list (option H))
| RawExtension (extension : list Z) (child : H).
Arguments RawLeaf {H} _ _.
Arguments RawBranchNoValue {H} _.
Arguments RawBranchWithValue {H} _ _.
Arguments RawExtension {H} _ _.

Record RawTrieNodeWithSize (H : Type) : Type := mkRawWithSize
  { raw_node : RawTrieNode H; raw_memory_usage : Z }.
Arguments mkRawWithSize {H} _ _.
Arguments raw_node {H} _.
Arguments raw_memory_usage {H} _.

(** [RawTrieNode::branch]. *)
Definition raw_branch {H} (children : list (option H)) (value : option (ValueRef H)) : RawTrieNode H :=
  match value with
  | Some value => RawBranchWithValue value children
  | None => RawBranchNoValue children
  end.

(** [TrieStorageNode::new_branch] and [TrieStorageNode::from_raw_trie_node]. *)
Definition new_branch {H} (children : list (option H)) (value : option (ValueRef H))
    : GenericTrieNode H (ValueHandle H) :=
  Branch children (HashAndSize <$> value).

Definition from_raw_trie_node {H} (n : RawTrieNode H) : GenericTrieNode H (ValueHandle H) :=
  match n with
  | RawLeaf extension value => Leaf extension (HashAndSize value)
  | RawBranchNoValue children => new_branch children None
  | RawBranchWithValue value children => new_branch children (Some value)
  | RawExtension extension child => Extension extension child
  end.

Definition from_raw_trie_node_with_size {H} (n : RawTrieNodeWithSize H)
    : GenericTrieNodeWithSize H (ValueHandle H) :=
  mkWithSize (from_raw_trie_node (raw_node n)) (raw_memory_usage n).

(** What the trie relies on from the hash function and the borsh codec. *)
Class TrieCodec (H : Type) : Type := {
  EMPTY_ROOT : H;
  hash_bytes : list Z → H;
  to_vec : RawTrieNodeWithSize H → list Z;
  try_from_slice : list Z → option (RawTrieNodeWithSize H)
}.
