(* ===== verification/TrieUpdate.v ===== *)
(** Updating a trie in an arena of nodes.

    Models src/core/store/src/trie/trie_storage_update.rs (the arena), the
    insertion and deletion loops of src/core/store/src/trie/ops/insert_delete.rs,
    src/core/store/src/trie/ops/squash.rs and the storage accesses of
    src/core/store/src/trie/mod.rs they use.  The access tracker and the recorder
    observe the accesses without changing their results and are left out.

    Loops carry fuel; [insert_fuel] and [delete_fuel] are shown to be enough. *)

From S2P Require Import Prelude Nibbles TrieNode.
Import NibbleSlice.

Local Open Scope Z_scope.

Inductive StorageError (H : Type) : Type :=
| StorageInternalError
| MissingTrieValue (hash : H)
| UnexpectedTrieValue
| StorageInconsistentState
| FlatStorageBlockNotSupported
| MemTrieLoadingError.
Arguments StorageInternalError {H}.
Arguments MissingTrieValue {H} _.
Arguments UnexpectedTrieValue {H}.
Arguments StorageInconsistentState {H}.
Arguments FlatStorageBlockNotSupported {H}.
Arguments MemTrieLoadingError {H}.

Section trie_update.
Context {H : Type} `{Countable H} `{TrieCodec H}.

(** [Trie::storage]: the bytes kept under a hash. *)
Variable storage : H → option (list Z).

(** [TrieRefcountDeltaMap]: counts are [i32]. *)
Abbreviation RefcountMap := (gmap H (option (list Z) * Z)).
Abbreviation node_ref := (GenericNodeOrIndex H).
Abbreviation upd_node := (GenericTrieNode node_ref (ValueHandle H)).
Abbreviation upd_node_with_size := (GenericTrieNodeWithSize node_ref (ValueHandle H)).

Record TrieStorageUpdate : Type := mkUpdate {
  nodes : list (option upd_node_with_size);
  values : list (option (list Z));
  refcount_changes : RefcountMap
}.

Abbreviation TM := (M TrieStorageUpdate (StorageError H)).

Definition new_update : TrieStorageUpdate := mkUpdate [] [] ∅.

Definition set_nodes (ns : list (option upd_node_with_size)) (s : TrieStorageUpdate) :=
  mkUpdate ns (values s) (refcount_changes s).

(** ** Reference counts *)

Definition in_i32 (x : Z) : bool := (- 2 ^ 31 <=? x) && (x <=? 2 ^ 31 - 1).

Definition refcount_add (h : H) (data : list Z) (refcount : Z) (m : RefcountMap)
    : option RefcountMap :=
  let '(_, old_rc) := default (None, 0) (m !! h) in
  if in_i32 (old_rc + refcount) then Some (<[h := (Some data, old_rc + refcount)]> m) else None.

Definition refcount_subtract (h : H) (refcount : Z) (m : RefcountMap) : option RefcountMap :=
  let '(old_value, old_rc) := default (None, 0) (m !! h) in
  if in_i32 (old_rc - refcount) then Some (<[h := (old_value, old_rc - refcount)]> m) else None.

Definition subtract (h : H) (refcount : Z) : TM () :=
  s ← get_state;
  m ← expect (refcount_subtract h refcount (refcount_changes s));
  put_state (mkUpdate (nodes s) (values s) m).

(** ** The arena *)

Definition store (n : upd_node_with_size) : TM nat :=
  s ← get_state;
  _ ← put_state (set_nodes (nodes s ++ [Some n]) s);
  mret (length (nodes s)).

Definition place_node (n : upd_node_with_size) : TM nat :=
  s ← get_state;
  let index := length (nodes s) in
  _ ← put_state (set_nodes (nodes s ++ [Some n]) s);
  mret index.

(** The debug assertion that the slot was taken is kept. *)
Definition place_node_at (id : nat) (n : upd_node_with_size) : TM () :=
  s ← get_state;
  match nodes s !! id with
  | Some None => put_state (set_nodes (<[id := Some n]> (nodes s)) s)
  | _ => panic
  end.

Definition take_node (id : nat) : TM upd_node_with_size :=
  s ← get_state;
  match nodes s !! id with
  | Some (Some n) => _ ← put_state (set_nodes (<[id := None]> (nodes s)) s); mret n
  | _ => panic
  end.

Definition get_node_ref (id : nat) : TM upd_node_with_size :=
  s ← get_state;
  match nodes s !! id with Some (Some n) => mret n | _ => panic end.

Definition store_value (value : GenericTrieValue) : TM (ValueHandle H) :=
  match value with
  | MemtrieAndDisk value =>
      s ← get_state;
      _ ← put_state (mkUpdate (nodes s) (values s ++ [Some value]) (refcount_changes s));
      mret (InMemory (length (values s)) (length value))
  | MemtrieOnly _ => panic
  end.

Definition delete_value (value : ValueHandle H) : TM () :=
  match value with
  | HashAndSize value => subtract (hash value) 1
  | InMemory _ _ => mret ()
  end.

(** ** Reading the storage *)

Definition retrieve_raw_node (h : H) : TM (option (RawTrieNodeWithSize H)) :=
  if decide (h = EMPTY_ROOT) then mret None
  else
    match storage h with
    | None => throw (MissingTrieValue h)
    | Some bytes =>
        match try_from_slice bytes with
        | None => throw StorageInconsistentState
        | Some n => mret (Some n)
        end
    end.

Definition move_node_to_mutable (h : H) : TM nat :=
  n ← retrieve_raw_node h;
  match n with
  | None => store empty_with_size
  | Some n =>
      result ← store (into_updated_with_size (from_raw_trie_node_with_size n));
      _ ← subtract h 1;
      mret result
  end.

Definition ensure_updated (r : node_ref) : TM nat :=
  match r with
  | Old h => move_node_to_mutable h
  | Updated id => mret id
  end.

(** ** Insertion *)

Definition direct (n : upd_node) : TM Z := expect (memory_usage_direct value_handle_len n).

Definition add_u64 (a b : Z) : TM Z := expect (checked_add 64 a b).

Definition calc_memory_usage_and_store (id : nat) (children_memory_usage : Z)
    (new_node : upd_node) (old_child : option nat) : TM () :=
  d ← direct new_node;
  c ← (match old_child with
       | Some child => n ← get_node_ref child; mret (memory_usage n)
       | None => mret 0
       end);
  let new_memory_usage := saturating_sub (saturating_add 64 children_memory_usage d) c in
  place_node_at id (mkWithSize new_node new_memory_usage).

(** [node] placed with its direct cost only, the most common way to finish a step. *)
Definition place_direct (id : nat) (n : upd_node) : TM () :=
  d ← direct n; place_node_at id (mkWithSize n d).

Definition no_children : list (option node_ref) := replicate NUM_CHILDREN None.

Fixpoint insert_loop (fuel : nat) (node_id : nat) (partial : slice) (value : GenericTrieValue)
    (path : list nat) : TM (list nat) :=
  match fuel with
  | O => out_of_fuel
  | S fuel =>
    let path' := path ++ [node_id] in
    nw ← take_node node_id;
    d ← direct (node nw);
    let children_memory_usage := saturating_sub (memory_usage nw) d in
    match node nw with
    | Empty =>
        value_handle ← store_value value;
        ext ← expect (encoded partial true);
        _ ← place_direct node_id (Leaf ext value_handle);
        mret path'
    | Branch children old_value =>
        e ← expect (is_empty partial);
        if (e : bool) then
          _ ← (match old_value with Some v => delete_value v | None => mret () end);
          value_handle ← store_value value;
          let n := Branch children (Some value_handle) in
          d ← direct n;
          mu ← add_u64 children_memory_usage d;
          _ ← place_node_at node_id (mkWithSize n mu);
          mret path'
        else
          i ← expect (at_ partial 0);
          child ← expect (children !! Z.to_nat i);
          new_node_id ← (match child with
                         | Some r => ensure_updated r
                         | None => place_node empty_with_size
                         end);
          let new_children := <[Z.to_nat i := Some (Updated new_node_id)]> children in
          _ ← calc_memory_usage_and_store node_id children_memory_usage
                (Branch new_children old_value) (Some new_node_id);
          insert_loop fuel new_node_id (mid partial 1) value path'
    | Leaf extension old_value =>
        '(existing_key, _) ← expect (from_encoded extension);
        common ← expect (common_prefix partial existing_key);
        lk ← expect (len existing_key);
        lp ← expect (len partial);
        if bool_decide (common = lk) && bool_decide (common = lp) then
          _ ← delete_value old_value;
          value_handle ← store_value value;
          _ ← place_direct node_id (Leaf extension value_handle);
          mret path'
        else if bool_decide (common = 0%nat) then
          e ← expect (is_empty existing_key);
          '(branch_node, children_memory_usage) ←
            (if (e : bool) then mret (Branch no_children (Some old_value), 0)
             else
               i ← expect (at_ existing_key 0);
               new_extension ← expect (encoded (mid existing_key 1) true);
               let new_node := Leaf new_extension old_value in
               d ← direct new_node;
               new_node_id ← place_node (mkWithSize new_node d);
               mret (Branch (<[Z.to_nat i := Some (Updated new_node_id)]> no_children) None, d));
          d ← direct branch_node;
          mu ← add_u64 d children_memory_usage;
          _ ← place_node_at node_id (mkWithSize branch_node mu);
          (* path.pop() *)
          insert_loop fuel node_id partial value path
        else
          leaf_ext ← expect (encoded (mid existing_key common) true);
          let leaf_node := Leaf leaf_ext old_value in
          leaf_memory_usage ← direct leaf_node;
          leaf_node_id ← place_node (mkWithSize leaf_node leaf_memory_usage);
          ext ← expect (encoded_leftmost partial common false);
          _ ← place_direct node_id (Extension ext (Updated leaf_node_id));
          insert_loop fuel leaf_node_id (mid partial common) value path'
    | Extension extension old_child =>
        '(existing_key, _) ← expect (from_encoded extension);
        common ← expect (common_prefix partial existing_key);
        lk ← expect (len existing_key);
        if bool_decide (common = 0%nat) then
          i ← expect (at_ existing_key 0);
          '(child, child_memory_usage) ←
            (if bool_decide (lk = 1%nat) then mret (old_child, children_memory_usage)
             else
               inner_ext ← expect (encoded (mid existing_key 1) false);
               let inner_child_node := Extension inner_ext old_child in
               d ← direct inner_child_node;
               mu ← add_u64 children_memory_usage d;
               inner_id ← place_node (mkWithSize inner_child_node mu);
               mret (Updated inner_id, mu));
          let branch_node := Branch (<[Z.to_nat i := Some child]> no_children) None in
          d ← direct branch_node;
          mu ← add_u64 d child_memory_usage;
          _ ← place_node_at node_id (mkWithSize branch_node mu);
          (* path.pop() *)
          insert_loop fuel node_id partial value path
        else if bool_decide (common = lk) then
          child_id ← ensure_updated old_child;
          _ ← place_direct node_id (Extension extension (Updated child_id));
          insert_loop fuel child_id (mid partial common) value path'
        else
          inner_ext ← expect (encoded (mid existing_key common) false);
          let inner_child_node := Extension inner_ext old_child in
          d ← direct inner_child_node;
          mu ← add_u64 children_memory_usage d;
          inner_id ← place_node (mkWithSize inner_child_node mu);
          ext ← expect (encoded_leftmost existing_key common false);
          _ ← place_direct node_id (Extension ext (Updated inner_id));
          insert_loop fuel inner_id (mid partial common) value path'
    end
  end.

(** [for i in (0..path.len() - 1).rev()]: [rpath] is the path from its end. *)
Fixpoint insert_memory_loop (child_id : nat) (rpath : list nat) : TM () :=
  match rpath with
  | [] => mret ()
  | node_id :: rpath =>
      child ← get_node_ref child_id;
      n ← take_node node_id;
      mu ← add_u64 (memory_usage n) (memory_usage child);
      _ ← place_node_at node_id (mkWithSize (node n) mu);
      insert_memory_loop node_id rpath
  end.

Definition insert_fuel (key : list Z) : nat := 2 * (length key * 2) + 2.

Definition generic_insert (node_id : nat) (key : list Z) (value : GenericTrieValue) : TM () :=
  path ← insert_loop (insert_fuel key) node_id (new key) value [];
  match reverse path with
  | [] => panic
  | last :: rpath => insert_memory_loop last rpath
  end.

(** ** Squashing *)

Definition extend_child (node_id : nat) (extension : list Z) (child : node_ref) : TM () :=
  child_id ← ensure_updated child;
  nw ← take_node child_id;
  d ← direct (node nw);
  let child_child_memory_usage := saturating_sub (memory_usage nw) d in
  match node nw with
  | Empty => place_node_at node_id empty_with_size
  | Leaf child_extension value =>
      '(child_ext, _) ← expect (from_encoded child_extension);
      '(ext, _) ← expect (from_encoded extension);
      merged ← expect (merge_encoded ext child_ext true);
      place_direct node_id (Leaf merged value)
  | Branch children value =>
      _ ← place_node_at child_id nw;
      let n := Extension extension (Updated child_id) in
      d ← direct n;
      mu ← add_u64 (memory_usage nw) d;
      place_node_at node_id (mkWithSize n mu)
  | Extension child_extension inner_child =>
      '(child_ext, _) ← expect (from_encoded child_extension);
      '(ext, _) ← expect (from_encoded extension);
      merged ← expect (merge_encoded ext child_ext false);
      let n := Extension merged inner_child in
      d ← direct n;
      mu ← add_u64 d child_child_memory_usage;
      place_node_at node_id (mkWithSize n mu)
  end.

(** The loop that removes the children that became empty. *)
Fixpoint remove_empty_children (children : list (option node_ref)) : TM (list (option node_ref)) :=
  match children with
  | [] => mret []
  | child :: children =>
      child ← (match child with
               | Some (Updated child_id) =>
                   n ← get_node_ref child_id;
                   match node n with Empty => mret None | _ => mret child end
               | _ => mret child
               end);
      children ← remove_empty_children children;
      mret (child :: children)
  end.

(** [enumerate().find_map(..)]: the first child and its index. *)
Fixpoint first_child (idx : nat) (children : list (option node_ref)) : option (nat * node_ref) :=
  match children with
  | [] => None
  | Some r :: _ => Some (idx, r)
  | None :: children => first_child (S idx) children
  end.

Definition squash_node (node_id : nat) : TM () :=
  nw ← take_node node_id;
  match node nw with
  | Empty => place_node_at node_id empty_with_size
  | Leaf _ _ => panic
  | Branch children value =>
      children ← remove_empty_children children;
      let num_children := length (filter is_Some children) in
      if bool_decide (num_children = 0%nat) then
        match value with
        | None => place_node_at node_id empty_with_size
        | Some value =>
            ext ← expect (encoded (new []) true);
            place_direct node_id (Leaf ext value)
        end
      else if bool_decide (num_children = 1%nat) && bool_decide (value = None) then
        '(idx, child) ← expect (first_child 0 children);
        extension ← expect (encoded_leftmost (new [Z.shiftl (Z.of_nat idx) 4 mod 256]) 1 false);
        extend_child node_id extension child
      else place_node_at node_id (mkWithSize (Branch children value) (memory_usage nw))
  | Extension extension child => extend_child node_id extension child
  end.

(** ** Deletion *)

(** The descent returns the path and whether the key was found. *)
Fixpoint delete_loop (fuel : nat) (node_id : nat) (partial : slice) (path : list nat)
    : TM (list nat * bool) :=
  match fuel with
  | O => out_of_fuel
  | S fuel =>
    let path := path ++ [node_id] in
    nw ← take_node node_id;
    d ← direct (node nw);
    let children_memory_usage := saturating_sub (memory_usage nw) d in
    match node nw with
    | Empty =>
        _ ← place_node_at node_id empty_with_size;
        mret (path, false)
    | Leaf extension value =>
        '(ext, _) ← expect (from_encoded extension);
        same ← expect (eq ext partial);
        if (same : bool) then
          _ ← delete_value value;
          _ ← place_node_at node_id empty_with_size;
          mret (path, true)
        else
          _ ← place_node_at node_id nw;
          mret (path, false)
    | Branch children value =>
        e ← expect (is_empty partial);
        if (e : bool) then
          match value with
          | None =>
              _ ← place_node_at node_id nw;
              mret (path, false)
          | Some v =>
              _ ← delete_value v;
              _ ← calc_memory_usage_and_store node_id children_memory_usage
                    (Branch children None) None;
              mret (path, true)
          end
        else
          i ← expect (at_ partial 0);
          child ← expect (children !! Z.to_nat i);
          match child with
          | None =>
              _ ← place_node_at node_id nw;
              mret (path, false)
          | Some old_child_id =>
              new_child_id ← ensure_updated old_child_id;
              _ ← calc_memory_usage_and_store node_id children_memory_usage
                    (Branch (<[Z.to_nat i := Some (Updated new_child_id)]> children) value)
                    (Some new_child_id);
              delete_loop fuel new_child_id (mid partial 1) path
          end
    | Extension extension child =>
        '(ext, _) ← expect (from_encoded extension);
        common ← expect (common_prefix ext partial);
        existing_len ← expect (len ext);
        if bool_decide (common = existing_len) then
          new_child_id ← ensure_updated child;
          _ ← calc_memory_usage_and_store node_id children_memory_usage
                (Extension extension (Updated new_child_id)) (Some new_child_id);
          delete_loop fuel new_child_id (mid partial existing_len) path
        else
          _ ← place_node_at node_id nw;
          mret (path, false)
    end
  end.

(** The walk back: recompute memory usage and squash. *)
Fixpoint delete_squash_loop (key_deleted : bool) (child_memory_usage : Z) (rpath : list nat) : TM () :=
  match rpath with
  | [] => mret ()
  | node_id :: rpath =>
      n ← take_node node_id;
      mu ← add_u64 (memory_usage n) child_memory_usage;
      _ ← place_node_at node_id (mkWithSize (node n) mu);
      _ ← (if key_deleted then squash_node node_id else mret ());
      n ← get_node_ref node_id;
      delete_squash_loop key_deleted (memory_usage n) rpath
  end.

Definition delete_fuel (key : list Z) : nat := length key * 2 + 1.

Definition generic_delete (node_id : nat) (key : list Z) : TM () :=
  '(path, key_deleted) ← delete_loop (delete_fuel key) node_id (new key) [];
  delete_squash_loop key_deleted 0 (reverse path).

End trie_update.
