(* ===== verification/TrieTree.v ===== *)
(** Abstract tries: labelled trees over nibble keys.

    The specification side of the trie: a tree denotes a finite map from nibble
    sequences to values ([tget]); [canon] is the shape the code maintains; a
    canonical tree is determined by the map it denotes ([canon_unique]), which is
    why a state root identifies the state. *)

From S2P Require Import Prelude Nibbles TrieNode.
Import NibbleSlice.

Local Open Scope Z_scope.

(** * Trees *)

Inductive anode (A V : Type) : Type :=
| AEmpty
| ALeaf (k : list Z) (v : V)
| AExt (k : list Z) (c : A)
| ABranch (cs : list (option A)) (v : option V).
Arguments AEmpty {A V}.
Arguments ALeaf {A V} _ _.
Arguments AExt {A V} _ _.
Arguments ABranch {A V} _ _.

Section anode_map.
Context {A B V : Type} (f : A → B).

Definition anode_map (n : anode A V) : anode B V :=
  match n with
  | AEmpty => AEmpty
  | ALeaf k v => ALeaf k v
  | AExt k c => AExt k (f c)
  | ABranch cs v => ABranch (map (option_map f) cs) v
  end.
End anode_map.

(** The node a labelled tree is stored as. *)
Definition encode_anode {A V} (n : anode A V) : GenericTrieNode A V :=
  match n with
  | AEmpty => Empty
  | ALeaf k v => Leaf (hp_encode true k) v
  | AExt k c => Extension (hp_encode false k) c
  | ABranch cs v => Branch cs v
  end.

Definition achildren {A V} (n : anode A V) : list A :=
  match n with
  | AEmpty | ALeaf _ _ => []
  | AExt _ c => [c]
  | ABranch cs _ => omap id cs
  end.

Inductive tree (L V : Type) : Type := T (l : L) (n : anode (tree L V) V).
Arguments T {L V} _ _.

Definition label {L V} (t : tree L V) : L := match t with T l _ => l end.
Definition top {L V} (t : tree L V) : anode (tree L V) V := match t with T _ n => n end.

Section tree_ind.
Context {L V : Type} (P : tree L V → Prop).
Hypothesis step : ∀ l n, (∀ c, c ∈ achildren n → P c) → P (T l n).

Definition opt_prop (o : option (tree L V)) : Prop :=
  match o with Some c => P c | None => True end.

Lemma opt_prop_children cs (c : tree L V) : Forall opt_prop cs → c ∈ omap id cs → P c.
Proof.
  intros Hcs (o & Ho & Hid)%list_elem_of_omap. rewrite Forall_forall in Hcs.
  specialize (Hcs _ Ho). simpl in Hid. by subst o.
Qed.

Lemma single_child (c c' : tree L V) : P c → c' ∈ [c] → P c'.
Proof. by intros ? ->%list_elem_of_singleton. Qed.

Lemma no_child (c : tree L V) : c ∈ [] → P c.
Proof. by intros ?%not_elem_of_nil. Qed.

Fixpoint tree_ind' (t : tree L V) : P t :=
  match t with
  | T l n => step l n
      match n return ∀ c, c ∈ achildren n → P c with
      | AEmpty => no_child
      | ALeaf _ _ => no_child
      | AExt _ c => λ c', single_child c c' (tree_ind' c)
      | ABranch cs _ => λ c, opt_prop_children cs c
          ((fix go cs : Forall opt_prop cs :=
              match cs with
              | [] => Forall_nil_2 _
              | o :: cs =>
                  Forall_cons_2 _ _ _
                    (match o return opt_prop o with Some c => tree_ind' c | None => I end) (go cs)
              end) cs)
      end
  end.
End tree_ind.

(** * Denotation *)

Definition strip_prefix (k key : list Z) : option (list Z) :=
  if decide (take (length k) key = k) then Some (drop (length k) key) else None.

Definition node_get {V} (n : anode (list Z → option V) V) (key : list Z) : option V :=
  match n with
  | AEmpty => None
  | ALeaf k v => if decide (k = key) then Some v else None
  | AExt k c => r ← strip_prefix k key; c r
  | ABranch cs v =>
      match key with
      | [] => v
      | x :: key => c ← mjoin (cs !! Z.to_nat x); c key
      end
  end.

Fixpoint tget {L V} (t : tree L V) : list Z → option V :=
  match t with T _ n => node_get (anode_map tget n) end.

Lemma strip_prefix_Some k key r : strip_prefix k key = Some r ↔ key = k ++ r.
Proof.
  unfold strip_prefix. case_decide as Hd; split; intros Heq; simplify_eq.
  - by rewrite <-Hd at 1; rewrite take_drop.
  - by rewrite drop_app_length.
  - by rewrite take_app_length in Hd.
Qed.

Lemma strip_prefix_app k r : strip_prefix k (k ++ r) = Some r.
Proof. by apply strip_prefix_Some. Qed.

(** * Canonical shape *)

Definition is_branch {L V} (t : tree L V) : bool :=
  match top t with ABranch _ _ => true | _ => false end.

Definition num_children {A} (cs : list (option A)) : nat := length (omap id cs).

Definition canon_node {L V} (n : anode (tree L V) V) : Prop :=
  match n with
  | AEmpty => False
  | ALeaf k _ => Forall nibble_ok k
  | AExt k c => Forall nibble_ok k ∧ k ≠ [] ∧ is_branch c
  | ABranch cs v =>
      length cs = NUM_CHILDREN ∧
      (2 ≤ num_children cs + match v with Some _ => 1 | None => 0 end)%nat ∧
      (1 ≤ num_children cs)%nat
  end.

Inductive canon {L V} : tree L V → Prop :=
| Canon l n : canon_node n → (∀ c, c ∈ achildren n → canon c) → canon (T l n).

(** A whole trie: empty or canonical. *)
Definition canon_root {L V} (t : tree L V) : Prop := top t = AEmpty ∨ canon t.

(** * A canonical tree is determined by its map *)

Fixpoint erase {L V} (t : tree L V) : tree () V :=
  match t with T _ n => T () (anode_map erase n) end.

(** Lookup equations. *)
Lemma tget_leaf {L V} (l : L) k (v : V) key :
  tget (T l (ALeaf k v)) key = if decide (k = key) then Some v else None.
Proof. done. Qed.

Lemma tget_ext {L V} (l : L) k (c : tree L V) key :
  tget (T l (AExt k c)) key = r ← strip_prefix k key; tget c r.
Proof. done. Qed.

Lemma tget_branch_nil {L V} (l : L) cs (v : option V) : tget (T l (ABranch cs v)) [] = v.
Proof. done. Qed.

Lemma tget_branch_cons {L V} (l : L) cs (v : option V) x key :
  tget (T l (ABranch cs v)) (x :: key) = c ← mjoin (cs !! Z.to_nat x); tget c key.
Proof.
  simpl. change (map (option_map tget) cs) with (option_map tget <$> cs).
  rewrite list_lookup_fmap. by destruct (cs !! Z.to_nat x) as [[c|]|].
Qed.

#[global] Arguments tget : simpl never.

Lemma tget_erase {L V} (t : tree L V) key : tget (erase t) key = tget t key.
Proof.
  revert key. induction t as [l n IH] using tree_ind'. intros key.
  destruct n as [|k v|k c|cs v]; try done.
  - change (erase (T l (AExt k c))) with (T () (AExt (V:=V) k (erase c))). rewrite !tget_ext.
    destruct (strip_prefix k key) as [r|]; [|done]. apply IH. simpl. set_solver.
  - change (erase (T l (ABranch cs v))) with (T () (ABranch (option_map erase <$> cs) v)).
    destruct key as [|x key]; [done|]. rewrite !tget_branch_cons, list_lookup_fmap.
    destruct (cs !! Z.to_nat x) as [[c|]|] eqn:Ec; simpl; try done. apply IH.
    apply list_elem_of_omap. exists (Some c). split; [by eapply list_elem_of_lookup_2|done].
Qed.

Lemma num_children_cons {A} (o : option A) cs :
  num_children (o :: cs) = ((match o with Some _ => 1 | None => 0 end) + num_children cs)%nat.
Proof. by destruct o. Qed.

Lemma num_children_Some {A} (cs : list (option A)) :
  (1 ≤ num_children cs)%nat → ∃ i c, cs !! i = Some (Some c).
Proof.
  induction cs as [|[c|] cs IH]; intros Hn; [unfold num_children in Hn; simpl in Hn; lia|by exists 0%nat, c|].
  rewrite num_children_cons in Hn. destruct (IH Hn) as (i & c & Hi). by exists (S i), c.
Qed.

Lemma num_children_two {A} (cs : list (option A)) i :
  (2 ≤ num_children cs)%nat → ∃ j c, j ≠ i ∧ cs !! j = Some (Some c).
Proof.
  revert i. induction cs as [|o cs IH]; intros i Hn; [unfold num_children in Hn; simpl in Hn; lia|].
  rewrite num_children_cons in Hn. destruct i as [|i].
  - destruct (num_children_Some cs) as (j & c' & Hj); [destruct o; lia|]. by exists (S j), c'.
  - destruct o as [c|]; [by exists 0%nat, c|].
    destruct (IH i Hn) as (j & c' & Hne & Hj). exists (S j), c'. split; [lia|done].
Qed.

Lemma child_elem {A} (cs : list (option A)) i c :
  cs !! i = Some (Some c) → c ∈ omap id cs.
Proof.
  intros Hi. apply list_elem_of_omap. exists (Some c).
  split; [by eapply list_elem_of_lookup_2|done].
Qed.

Definition nkey (key : list Z) : Prop := Forall nibble_ok key.

Lemma nkey_drop n key : nkey key → nkey (drop n key).
Proof. apply Forall_drop. Qed.

Lemma nkey_take n key : nkey key → nkey (take n key).
Proof. apply Forall_take. Qed.

#[export] Hint Resolve nkey_drop nkey_take : near.

Definition holds {L V} (t : tree L V) (key : list Z) : Prop := nkey key ∧ is_Some (tget t key).

Lemma nibble_index i : (i < NUM_CHILDREN)%nat → nibble_ok (Z.of_nat i).
Proof. unfold NUM_CHILDREN, nibble_ok. lia. Qed.

Lemma holds_branch_child {L V} (l : L) cs (v : option V) i c key :
  length cs = NUM_CHILDREN → cs !! i = Some (Some c) → holds c key →
  holds (T l (ABranch cs v)) (Z.of_nat i :: key).
Proof.
  intros Hl Hi [Hk Hs]. split.
  - constructor; [|done]. apply nibble_index. rewrite <-Hl. by eapply lookup_lt_Some.
  - rewrite tget_branch_cons, Nat2Z.id, Hi. done.
Qed.

Lemma canon_inhabited {L V} (t : tree L V) : canon t → ∃ key, holds t key.
Proof.
  intros Hc. induction Hc as [l n Hn Hcs IH]. destruct n as [|k v|k c|cs v]; simpl in *.
  - done.
  - exists k. split; [done|]. rewrite tget_leaf, decide_True by done. done.
  - destruct Hn as (Hk & _ & _). destruct (IH c) as [key [Hkey Hs]]; [set_solver|].
    exists (k ++ key). split; [by apply Forall_app|]. by rewrite tget_ext, strip_prefix_app.
  - destruct Hn as (Hl & _ & H1). destruct (num_children_Some cs H1) as (i & c & Hi).
    destruct (IH c) as [key Hkey]; [by eapply child_elem|].
    exists (Z.of_nat i :: key). by eapply holds_branch_child.
Qed.

(** The keys of a branch do not agree on their first nibble. *)
Lemma branch_diverges {L V} (t : tree L V) (o : option Z) :
  canon t → is_branch t → ∃ key, holds t key ∧ head key ≠ o.
Proof.
  intros Hc Hb. destruct Hc as [l n Hn Hcs]. destruct n as [|k v|k c|cs v]; try done.
  simpl in Hn. destruct Hn as (Hl & H2 & H1).
  assert (∀ i c, cs !! i = Some (Some c) → o ≠ Some (Z.of_nat i) →
            ∃ key, holds (T l (ABranch cs v)) key ∧ head key ≠ o) as Hchild.
  { intros i c Hi Hne. destruct (canon_inhabited c) as [key Hkey].
    { apply Hcs. by eapply child_elem. }
    exists (Z.of_nat i :: key). split; [by eapply holds_branch_child|]. simpl. congruence. }
  destruct o as [x|].
  - destruct v as [v|].
    + exists []. split; [|done]. split; [constructor|done].
    + destruct (num_children_two cs (Z.to_nat x)) as (j & c & Hj & Hc); [lia|].
      apply (Hchild j c Hc). intros [=]. subst. by rewrite Nat2Z.id in Hj.
  - destruct (num_children_Some cs H1) as (i & c & Hi). by apply (Hchild i c Hi).
Qed.

Definition same_map {L1 L2 V} (t1 : tree L1 V) (t2 : tree L2 V) : Prop :=
  ∀ key, nkey key → tget t1 key = tget t2 key.

Lemma same_map_holds {L1 L2 V} (t1 : tree L1 V) (t2 : tree L2 V) key :
  same_map t1 t2 → holds t1 key ↔ holds t2 key.
Proof. unfold holds. intros Hs. split; intros [Hk Hv]; (split; [done|]); rewrite ?Hs in *; by rewrite ?Hs in Hv. Qed.

Lemma same_map_sym {L1 L2 V} (t1 : tree L1 V) (t2 : tree L2 V) : same_map t1 t2 → same_map t2 t1.
Proof. intros Hs key Hk. by rewrite Hs. Qed.

Lemma holds_leaf_inv {L V} (l : L) k (v : V) key : holds (T l (ALeaf k v)) key → key = k.
Proof. intros [_ Hs]. rewrite tget_leaf in Hs. case_decide; [done|by destruct Hs]. Qed.

Lemma holds_ext_inv {L V} (l : L) k (c : tree L V) key :
  holds (T l (AExt k c)) key → ∃ r, key = k ++ r ∧ holds c r.
Proof.
  intros [Hk Hs]. rewrite tget_ext in Hs. destruct (strip_prefix k key) as [r|] eqn:E; [|by destruct Hs].
  apply strip_prefix_Some in E as ->. exists r. split; [done|]. split; [|done].
  by apply Forall_app in Hk as [_ ?].
Qed.

Lemma holds_ext {L V} (l : L) k (c : tree L V) r :
  nkey k → holds c r → holds (T l (AExt k c)) (k ++ r).
Proof.
  intros Hk [Hr Hs]. split; [by apply Forall_app|]. by rewrite tget_ext, strip_prefix_app.
Qed.

(** Two extensions with the same keys have the same edge. *)
Lemma ext_prefix {L1 L2 V} (l1 : L1) (l2 : L2) k1 k2 (c1 : tree L1 V) (c2 : tree L2 V) :
  nkey k1 → canon c1 → is_branch c1 →
  same_map (T l1 (AExt k1 c1)) (T l2 (AExt k2 c2)) → k2 `prefix_of` k1.
Proof.
  intros Hk Hc Hb Hs.
  destruct (branch_diverges c1 (drop (length k1) k2 !! 0%nat) Hc Hb) as (r & Hr & Hne).
  assert (Hh := holds_ext l1 k1 c1 r Hk Hr).
  apply (same_map_holds _ _ _ Hs) in Hh. apply holds_ext_inv in Hh as (r2 & Heq & _).
  destruct (decide (length k2 ≤ length k1)%nat) as [Hle|Hgt].
  - exists (drop (length k2) k1). rewrite <-(take_drop (length k2) k1) at 1. f_equal.
    apply (f_equal (take (length k2))) in Heq.
    by rewrite take_app_le, take_app_length in Heq by done.
  - exfalso. apply Hne. apply (f_equal (drop (length k1))) in Heq.
    rewrite drop_app_length, drop_app_le in Heq by lia. rewrite Heq.
    destruct (drop (length k1) k2) as [|x d] eqn:Ed; [|done].
    apply (f_equal length) in Ed. rewrite length_drop in Ed. simpl in Ed. lia.
Qed.

Lemma same_map_ext {L1 L2 V} (l1 : L1) (l2 : L2) k (c1 : tree L1 V) (c2 : tree L2 V) :
  nkey k → same_map (T l1 (AExt k c1)) (T l2 (AExt k c2)) → same_map c1 c2.
Proof.
  intros Hk Hs key Hkey. specialize (Hs (k ++ key)). rewrite !tget_ext, !strip_prefix_app in Hs.
  apply Hs. by apply Forall_app.
Qed.

Lemma same_map_child {L1 L2 V} (l1 : L1) (l2 : L2) cs1 cs2 (v1 v2 : option V) i :
  length cs1 = NUM_CHILDREN → length cs2 = NUM_CHILDREN → (i < NUM_CHILDREN)%nat →
  same_map (T l1 (ABranch cs1 v1)) (T l2 (ABranch cs2 v2)) →
  ∀ key, nkey key →
    (c ← mjoin (cs1 !! i); tget c key) = (c ← mjoin (cs2 !! i); tget c key).
Proof.
  intros Hl1 Hl2 Hi Hs key Hkey. specialize (Hs (Z.of_nat i :: key)).
  rewrite !tget_branch_cons, !Nat2Z.id in Hs. apply Hs. constructor; [by apply nibble_index|done].
Qed.

(** A branch denotes a different map than a leaf or an extension, a leaf than an extension. *)
Lemma branch_not_leaf {L1 L2 V} (t1 : tree L1 V) (l2 : L2) k (v : V) :
  canon t1 → is_branch t1 → ¬ same_map t1 (T l2 (ALeaf k v)).
Proof.
  intros Hc Hb Hs. destruct (branch_diverges t1 (head k) Hc Hb) as (key & Hh & Hne).
  apply (same_map_holds _ _ _ Hs), holds_leaf_inv in Hh. congruence.
Qed.

Lemma branch_not_ext {L1 L2 V} (t1 : tree L1 V) (l2 : L2) k (c : tree L2 V) :
  canon t1 → is_branch t1 → k ≠ [] → ¬ same_map t1 (T l2 (AExt k c)).
Proof.
  intros Hc Hb Hk Hs. destruct (branch_diverges t1 (head k) Hc Hb) as (key & Hh & Hne).
  apply (same_map_holds _ _ _ Hs), holds_ext_inv in Hh as (r & -> & _). by destruct k.
Qed.

Lemma ext_not_leaf {L1 L2 V} (l1 : L1) (l2 : L2) k1 (c : tree L1 V) k2 (v : V) :
  nkey k1 → canon c → is_branch c → ¬ same_map (T l1 (AExt k1 c)) (T l2 (ALeaf k2 v)).
Proof.
  intros Hk Hc Hb Hs.
  destruct (branch_diverges c (head (drop (length k1) k2)) Hc Hb) as (r & Hr & Hne).
  apply (holds_ext l1 k1 c r Hk), (same_map_holds _ _ _ Hs), holds_leaf_inv in Hr as <-.
  by rewrite drop_app_length in Hne.
Qed.

Lemma canon_unique {L1 L2 V} (t1 : tree L1 V) (t2 : tree L2 V) :
  canon t1 → canon t2 → same_map t1 t2 → erase t1 = erase t2.
Proof.
  revert t2. induction t1 as [l1 n1 IH] using tree_ind'. intros [l2 n2] Hc1 Hc2 Hs.
  inversion Hc1 as [? ? Hn1 Hcs1]; inversion Hc2 as [? ? Hn2 Hcs2]; subst.
  destruct n1 as [|k1 v1|k1 c1|cs1 v1], n2 as [|k2 v2|k2 c2|cs2 v2]; try done; simpl in Hn1, Hn2.
  - specialize (Hs k1 Hn1). rewrite !tget_leaf, decide_True in Hs by done.
    case_decide; simplify_eq. done.
  - destruct Hn2 as (? & ? & ?). exfalso. eapply ext_not_leaf; [| | |by apply same_map_sym]; try done.
    apply Hcs2. set_solver.
  - apply same_map_sym in Hs. by apply branch_not_leaf in Hs.
  - destruct Hn1 as (? & ? & ?). exfalso. eapply ext_not_leaf; [| | |done]; try done.
    apply Hcs1. set_solver.
  - destruct Hn1 as (Hk1 & ? & Hb1), Hn2 as (Hk2 & ? & Hb2).
    assert (canon c1) by (apply Hcs1; set_solver). assert (canon c2) by (apply Hcs2; set_solver).
    assert (k1 = k2) as <-.
    { apply (anti_symm prefix).
      - eapply (ext_prefix l2 l1); [| | |by apply same_map_sym]; done.
      - by eapply (ext_prefix l1 l2). }
    simpl. do 2 f_equal. apply IH; [set_solver|done|done|]. by eapply same_map_ext.
  - destruct Hn1 as (? & ? & ?). apply same_map_sym in Hs. by apply branch_not_ext in Hs.
  - by apply branch_not_leaf in Hs.
  - destruct Hn2 as (? & ? & ?). by apply branch_not_ext in Hs.
  - destruct Hn1 as (Hl1 & _ & _), Hn2 as (Hl2 & _ & _). simpl. do 2 f_equal.
    2: by apply (Hs []); constructor.
    apply list_eq_same_length with (n := NUM_CHILDREN); [by rewrite length_map|by rewrite length_map|].
    intros i x y Hi. rewrite !list_lookup_fmap. intros Hx Hy.
    pose proof (same_map_child l1 l2 cs1 cs2 v1 v2 i Hl1 Hl2 Hi Hs) as Hch.
    destruct (cs1 !! i) as [[c1|]|] eqn:E1; destruct (cs2 !! i) as [[c2|]|] eqn:E2;
      simplify_eq/=; try done; try apply child_elem in E1; try apply child_elem in E2.
    + f_equal. apply IH; eauto.
    + destruct (canon_inhabited c1) as (key & Hk & [v Hv]); [auto|]. rewrite Hch in Hv by done. done.
    + destruct (canon_inhabited c2) as (key & Hk & [v Hv]); [auto|]. rewrite <-Hch in Hv by done. done.
Qed.

Lemma canon_root_unique {L1 L2 V} (t1 : tree L1 V) (t2 : tree L2 V) :
  canon_root t1 → canon_root t2 → same_map t1 t2 → erase t1 = erase t2.
Proof.
  destruct t1 as [l1 n1], t2 as [l2 n2].
  intros [H1|Hc1] [H2|Hc2] Hs; simpl in *; subst.
  - done.
  - destruct (canon_inhabited _ Hc2) as (key & Hk & [v Hv]). by rewrite <-Hs in Hv.
  - destruct (canon_inhabited _ Hc1) as (key & Hk & [v Hv]). by rewrite Hs in Hv.
  - by apply (canon_unique (T l1 n1) (T l2 n2)).
Qed.
