(* ===== verification/TrieInsertSpec.v ===== *)
(** Insertion on abstract tries.

    [tinsert] is the functional form of the insertion loop of
    src/core/store/src/trie/ops/insert_delete.rs; it updates the map a trie
    denotes at one key ([tinsert_get]) and keeps tries canonical ([tinsert_canon]). *)

From S2P Require Import Prelude Nibbles TrieNode TrieTree.
Import NibbleSlice.

Local Open Scope nat_scope.

Section insert_spec.
Context {V : Type}.
Implicit Types (t c : tree () V) (v : V) (key : list Z).

Definition tempty : tree () V := T () AEmpty.
Definition no_subtrees : list (option (tree () V)) := replicate NUM_CHILDREN None.

(** A leaf or an extension turned into an equivalent branch. *)
Definition leaf_branch (k : list Z) v : tree () V :=
  match k with
  | [] => T () (ABranch no_subtrees (Some v))
  | x :: k => T () (ABranch (<[Z.to_nat x := Some (T () (ALeaf k v))]> no_subtrees) None)
  end.

Definition ext_branch (k : list Z) c : tree () V :=
  match k with
  | [] => c
  | [x] => T () (ABranch (<[Z.to_nat x := Some c]> no_subtrees) None)
  | x :: k => T () (ABranch (<[Z.to_nat x := Some (T () (AExt k c))]> no_subtrees) None)
  end.

Definition child_at (cs : list (option (tree () V))) (x : Z) : tree () V :=
  default tempty (mjoin (cs !! Z.to_nat x)).

Fixpoint tinsert (fuel : nat) (t : tree () V) (key : list Z) (v : V) : tree () V :=
  match fuel with
  | O => t
  | S fuel =>
    match top t with
    | AEmpty => T () (ALeaf key v)
    | ABranch cs ov =>
        match key with
        | [] => T () (ABranch cs (Some v))
        | x :: key =>
            T () (ABranch (<[Z.to_nat x := Some (tinsert fuel (child_at cs x) key v)]> cs) ov)
        end
    | ALeaf k ov =>
        let common := common_prefix_len key k in
        if bool_decide (common = length k) && bool_decide (common = length key)
        then T () (ALeaf k v)
        else if bool_decide (common = 0) then tinsert fuel (leaf_branch k ov) key v
        else T () (AExt (take common key)
                     (tinsert fuel (T () (ALeaf (drop common k) ov)) (drop common key) v))
    | AExt k c =>
        let common := common_prefix_len key k in
        if bool_decide (common = 0) then tinsert fuel (ext_branch k c) key v
        else if bool_decide (common = length k)
        then T () (AExt k (tinsert fuel c (drop common key) v))
        else T () (AExt (take common k)
                     (tinsert fuel (T () (AExt (drop common k) c)) (drop common key) v))
    end
  end.

(** ** Enough fuel *)

Definition easy_top t : bool :=
  match top t with ABranch _ _ | AEmpty => true | _ => false end.

Definition insert_need t key : nat := 2 * length key + (if easy_top t then 1 else 2).

(** ** Shapes the loop can meet *)

Definition shape_node (n : anode (tree () V) V) : Prop :=
  match n with
  | AEmpty => True
  | ALeaf k _ => nkey k
  | AExt k _ => nkey k ∧ k ≠ []
  | ABranch cs _ => length cs = NUM_CHILDREN
  end.

Inductive shape : tree () V → Prop :=
| Shape n : shape_node n → (∀ c, c ∈ achildren n → shape c) → shape (T () n).

Lemma canon_shape t : canon t → shape t.
Proof.
  induction 1 as [[] n Hn _ IH]. constructor; [|done].
  destruct n; simpl in *; naive_solver.
Qed.

Lemma length_no_subtrees : length no_subtrees = NUM_CHILDREN.
Proof. done. Qed.

Lemma length_single x (o : option (tree () V)) : length (<[x := o]> no_subtrees) = NUM_CHILDREN.
Proof. by rewrite length_insert. Qed.

Lemma no_subtrees_lookup i : i < NUM_CHILDREN → no_subtrees !! i = Some None.
Proof. intros. by apply lookup_replicate_2. Qed.

Lemma nibble_lt x : nibble_ok x → Z.to_nat x < NUM_CHILDREN.
Proof. unfold nibble_ok, NUM_CHILDREN. lia. Qed.

Lemma elem_single_child x c c' :
  c' ∈ omap id (<[x := Some c]> no_subtrees) → c' = c.
Proof.
  intros (o & Ho & Hid)%list_elem_of_omap. simpl in Hid. subst o.
  apply list_elem_of_lookup in Ho as [i Hi].
  destruct (decide (i = x)) as [->|Hne].
  - apply list_lookup_insert_Some in Hi as [(_ & Hi & _)|(Hne & _)]; [congruence|done].
  - rewrite list_lookup_insert_ne in Hi by done. apply lookup_replicate_1 in Hi as [? _]. done.
Qed.

Lemma shape_leaf_branch k v : nkey k → shape (leaf_branch k v).
Proof.
  intros Hk. destruct k as [|x k]; simpl; constructor; simpl.
  - done.
  - intros c Hc. exfalso. revert Hc. unfold no_subtrees, NUM_CHILDREN. simpl. by intros ?%not_elem_of_nil.
  - apply length_single.
  - intros c ->%elem_single_child. apply Forall_cons in Hk as [_ Hk]. constructor; [done|].
    simpl. by intros ? ?%not_elem_of_nil.
Qed.

Lemma shape_ext_branch k c : nkey k → k ≠ [] → shape c → shape (ext_branch k c).
Proof.
  intros Hk Hne Hc. destruct k as [|x [|y k]]; [done| |]; simpl; constructor; simpl.
  1,3: apply length_single.
  - by intros c' ->%elem_single_child.
  - intros c' ->%elem_single_child. apply Forall_cons in Hk as [_ Hk].
    constructor; [done|]. simpl. intros c'' ->%list_elem_of_singleton. done.
Qed.

Lemma tget_leaf_branch k v key :
  nkey k → nkey key → tget (leaf_branch k v) key = tget (T () (ALeaf k v)) key.
Proof.
  intros Hk Hkey. rewrite tget_leaf. destruct k as [|x k]; simpl leaf_branch.
  - destruct key as [|y key]; [done|]. rewrite tget_branch_cons.
    apply Forall_cons in Hkey as [Hy _]. by rewrite no_subtrees_lookup by by apply nibble_lt.
  - destruct key as [|y key]; [by rewrite decide_False|]. rewrite tget_branch_cons.
    apply Forall_cons in Hkey as [Hy _]. apply Forall_cons in Hk as [Hx _].
    destruct (decide (x = y)) as [->|Hne].
    + rewrite list_lookup_insert_eq by (rewrite length_no_subtrees; by apply nibble_lt).
      simpl. rewrite tget_leaf. repeat case_decide; simplify_eq; done.
    + rewrite list_lookup_insert_ne, no_subtrees_lookup by (by apply nibble_lt || (unfold nibble_ok in *; lia)).
      rewrite decide_False by congruence. done.
Qed.

Lemma tget_ext_branch k c key :
  nkey k → k ≠ [] → nkey key → tget (ext_branch k c) key = tget (T () (AExt k c)) key.
Proof.
  intros Hk Hne Hkey. rewrite tget_ext. destruct k as [|x k]; [done|].
  assert (∀ t', (∀ r, tget t' r = (r ← strip_prefix k r; tget c r)) →
    tget (T () (ABranch (<[Z.to_nat x := Some t']> no_subtrees) None)) key =
    (r ← strip_prefix (x :: k) key; tget c r)) as Hgen.
  { intros t' Ht'. apply Forall_cons in Hk as [Hx _]. destruct key as [|y key]; [done|].
    apply Forall_cons in Hkey as [Hy _]. rewrite tget_branch_cons.
    destruct (decide (x = y)) as [->|Hxy].
    - rewrite list_lookup_insert_eq by (rewrite length_no_subtrees; by apply nibble_lt).
      simpl. rewrite Ht'. unfold strip_prefix. simpl. repeat case_decide; try done; simplify_eq; congruence.
    - rewrite list_lookup_insert_ne, no_subtrees_lookup by (by apply nibble_lt || (unfold nibble_ok in *; lia)).
      unfold strip_prefix. simpl. case_decide; [congruence|done]. }
  destruct k as [|y k]; simpl ext_branch; apply Hgen; [|done].
  intros r. unfold strip_prefix. simpl. by rewrite drop_0.
Qed.

(** ** Insertion updates the map *)

Definition upd_at key v (f : list Z → option V) (key' : list Z) : option V :=
  if decide (key = key') then Some v else f key'.

Lemma upd_ext p t0 t1 d v key' :
  nkey key' →
  (∀ r, nkey r → tget t1 r = upd_at d v (tget t0) r) →
  tget (T () (AExt p t1)) key' = upd_at (p ++ d) v (tget (T () (AExt p t0))) key'.
Proof.
  intros Hk' Hr. unfold upd_at. rewrite !tget_ext.
  destruct (strip_prefix p key') as [r|] eqn:E; simpl.
  - apply strip_prefix_Some in E as ->. apply Forall_app in Hk' as [_ Hk'].
    rewrite Hr by done. unfold upd_at. repeat case_decide; simplify_eq; done.
  - case_decide; [|done]. subst. by rewrite strip_prefix_app in E.
Qed.

Lemma tget_ext_split n k c key :
  tget (T () (AExt k c)) key = tget (T () (AExt (take n k) (T () (AExt (drop n k) c)))) key.
Proof.
  rewrite !tget_ext. destruct (strip_prefix k key) as [r|] eqn:E; simpl.
  - apply strip_prefix_Some in E as ->. rewrite <-(take_drop n k) at 2.
    rewrite <-app_assoc, strip_prefix_app. simpl. by rewrite tget_ext, strip_prefix_app.
  - destruct (strip_prefix (take n k) key) as [r|] eqn:E1; simpl; [|done].
    apply strip_prefix_Some in E1 as ->. rewrite tget_ext.
    destruct (strip_prefix (drop n k) r) as [r'|] eqn:E2; [|done].
    apply strip_prefix_Some in E2 as ->. by rewrite app_assoc, take_drop, strip_prefix_app in E.
Qed.

Lemma tget_leaf_split n k v key :
  tget (T () (ALeaf k v)) key = tget (T () (AExt (take n k) (T () (ALeaf (drop n k) v)))) key.
Proof.
  rewrite tget_ext, tget_leaf. destruct (strip_prefix (take n k) key) as [r|] eqn:E; simpl.
  - apply strip_prefix_Some in E as ->. rewrite tget_leaf.
    pose proof (take_drop n k) as Etd.
    destruct (decide (k = take n k ++ r)) as [E1|E1], (decide (drop n k = r)) as [E2|E2]; try done; exfalso.
    + apply E2, (app_inv_head (take n k)). congruence.
    + apply E1. congruence.
  - case_decide; [|done]. subst. rewrite <-(take_drop n key) in E at 2. by rewrite strip_prefix_app in E.
Qed.

Lemma child_at_get cs x r :
  tget (child_at cs x) r = c ← mjoin (cs !! Z.to_nat x); tget c r.
Proof. unfold child_at. by destruct (cs !! Z.to_nat x) as [[c|]|]. Qed.

Lemma shape_child_at cs x :
  (∀ c, c ∈ omap id cs → shape c) → shape (child_at cs x).
Proof.
  intros Hcs. unfold child_at. destruct (cs !! Z.to_nat x) as [[c|]|] eqn:E; simpl;
    [apply Hcs; by eapply child_elem| |]; constructor; try done; by intros ? ?%not_elem_of_nil.
Qed.

Lemma need_child t key : insert_need t key ≤ 2 * length key + 2.
Proof. unfold insert_need. case_match; lia. Qed.

Lemma need_branch t key : easy_top t = true → insert_need t key = 2 * length key + 1.
Proof. unfold insert_need. by intros ->. Qed.

Lemma leaf_branch_easy k v : easy_top (leaf_branch k v) = true.
Proof. by destruct k. Qed.

Lemma ext_branch_easy k c : k ≠ [] → easy_top (ext_branch k c) = true.
Proof. by destruct k as [|x [|y k]]. Qed.

(** After the common prefix the need has dropped below the fuel that is left. *)
Lemma need_drop t n key fuel :
  n ≠ 0 → n ≤ length key → 2 * length key + 2 ≤ S fuel → insert_need t (drop n key) ≤ fuel.
Proof. intros. pose proof (need_child t (drop n key)). rewrite length_drop in *. lia. Qed.

Lemma shape_ext_drop k c n :
  shape (T () (AExt k c)) → n < length k → shape (T () (AExt (drop n k) c)).
Proof.
  intros Hs Hn. inversion Hs as [? Hn' Hc]; subst. destruct Hn' as [Hk Hne]. constructor; [|done].
  split; [by apply Forall_drop|]. intros E. apply (f_equal length) in E.
  rewrite length_drop in E. simpl in E. lia.
Qed.

Lemma shape_leaf_drop k v n : shape (T () (ALeaf k v)) → shape (T () (ALeaf (drop n k) v)).
Proof.
  intros Hs. inversion Hs as [? Hk Hc]; subst. constructor; [by apply Forall_drop|done].
Qed.

Lemma tinsert_get fuel t key v key' :
  shape t → nkey key → nkey key' → insert_need t key ≤ fuel →
  tget (tinsert fuel t key v) key' = upd_at key v (tget t) key'.
Proof.
  revert t key key'. induction fuel as [|fuel IH]; intros t key key' Ht Hk Hk' Hf.
  { unfold insert_need in Hf. case_match; lia. }
  inversion Ht as [n Hn Hcs]; subst. destruct n as [|k ov|k c|cs ov]; simpl tinsert.
  - done.
  - simpl in Hn. change (insert_need _ _) with (2 * length key + 2) in Hf.
    case_bool_decide as H1; [case_bool_decide as H2|]; simpl.
    { assert (k = key) as ->.
      { rewrite (common_prefix_full _ _ H1), <-H1, H2, drop_all. by rewrite app_nil_r. }
      unfold upd_at. rewrite !tget_leaf. case_decide; done. }
    all: case_bool_decide as H3.
    1,3: rewrite IH by (auto using shape_leaf_branch || (rewrite need_branch by apply leaf_branch_easy; lia));
      unfold upd_at; by rewrite tget_leaf_branch.
    all: pose proof (common_prefix_len_le_l key k) as Hle;
      erewrite upd_ext; [|done|intros r Hr; apply IH; auto using shape_leaf_drop, nkey_drop, need_drop with lia];
      rewrite take_drop; unfold upd_at; rewrite (common_prefix_take key k) by done;
      by rewrite <-tget_leaf_split.
  - destruct Hn as [Hkk Hne]. change (insert_need _ _) with (2 * length key + 2) in Hf.
    pose proof (common_prefix_len_le_l key k) as Hle. pose proof (common_prefix_len_le_r key k) as Hle'.
    assert (shape c) as Hc by (apply Hcs; set_solver).
    case_bool_decide as H1; [|case_bool_decide as H2].
    + rewrite IH by (auto using shape_ext_branch || (rewrite need_branch by (by apply ext_branch_easy); lia)).
      unfold upd_at. by rewrite tget_ext_branch.
    + erewrite upd_ext; [|done|intros r Hr; apply IH; auto using nkey_drop, need_drop with lia].
      rewrite H2. by rewrite <-(common_prefix_full key k H2).
    + erewrite upd_ext;
        [|done|intros r Hr; apply IH; auto using shape_ext_drop, nkey_drop, need_drop with lia].
      rewrite <-(common_prefix_take key k), take_drop by done. unfold upd_at.
      rewrite (common_prefix_take key k) by done. by rewrite <-tget_ext_split.
  - simpl in Hn. rewrite need_branch in Hf by done. destruct key as [|x key].
    + destruct key' as [|y key']; [done|]. unfold upd_at. by rewrite !tget_branch_cons.
    + apply Forall_cons in Hk as [Hx Hk]. destruct key' as [|y key']; [done|].
      apply Forall_cons in Hk' as [Hy Hk']. unfold upd_at. rewrite !tget_branch_cons.
      destruct (decide (x = y)) as [->|Hxy].
      * rewrite list_lookup_insert_eq by (rewrite Hn; by apply nibble_lt). simpl.
        rewrite IH; [|by apply shape_child_at|done|done|pose proof (need_child (child_at cs y) key); simpl in *; lia].
        unfold upd_at. rewrite child_at_get. repeat case_decide; simplify_eq; done.
      * rewrite list_lookup_insert_ne by (unfold nibble_ok in *; lia).
        rewrite decide_False by congruence. done.
Qed.

(** ** Insertion keeps tries canonical *)

(** A branch that the next step of the loop completes: it lacks one entry and
    the key adds it. *)
Definition completes (cs : list (option (tree () V))) (ov : option V) key : Prop :=
  (num_children cs = 1 ∧ ov = None ∧
    match key with [] => True | x :: _ => cs !! Z.to_nat x = Some None end) ∨
  (num_children cs = 0 ∧ is_Some ov ∧ key ≠ []).

Definition insertable t key : Prop :=
  match top t with
  | AEmpty => True
  | ABranch cs ov =>
      length cs = NUM_CHILDREN ∧ (∀ c, c ∈ omap id cs → canon c) ∧
      (canon_node (top t) ∨ completes cs ov key)
  | _ => canon t
  end.

Lemma canon_insertable t key : canon t → insertable t key.
Proof.
  intros Hc. inversion Hc as [[] n Hn Hcs]; subst. destruct n; try done.
  unfold insertable. simpl in *. naive_solver.
Qed.

Lemma num_children_insert {A} (cs : list (option A)) i o (c : A) :
  cs !! i = Some o →
  num_children (<[i := Some c]> cs) = num_children cs + match o with Some _ => 0 | None => 1 end.
Proof.
  revert i. induction cs as [|o' cs IH]; intros [|i] Hi; simplify_eq/=; rewrite !num_children_cons.
  - destruct o; lia.
  - rewrite (IH _ Hi). lia.
Qed.

Lemma num_children_no_subtrees : num_children no_subtrees = 0.
Proof. done. Qed.

Lemma num_children_single i c : i < NUM_CHILDREN → num_children (<[i := Some c]> no_subtrees) = 1.
Proof.
  intros Hi. by rewrite (num_children_insert _ _ None) by (by apply no_subtrees_lookup).
Qed.

Lemma elem_insert_child (cs : list (option (tree () V))) i c c' :
  c' ∈ omap id (<[i := Some c]> cs) → c' = c ∨ c' ∈ omap id cs.
Proof.
  intros (o & Ho & Hid)%list_elem_of_omap. simpl in Hid. subst o.
  apply list_elem_of_lookup in Ho as [j Hj].
  apply list_lookup_insert_Some in Hj as [(-> & Hj & _)|(Hne & Hj)]; [left; congruence|].
  right. by eapply child_elem.
Qed.

Lemma single_completes x c key :
  nibble_ok x → nkey key → canon c →
  match key with [] => True | y :: _ => y ≠ x end →
  insertable (T () (ABranch (<[Z.to_nat x := Some c]> no_subtrees) None)) key.
Proof.
  intros Hx Hk Hc Hne. split_and!; [apply length_single|by intros c' ->%elem_single_child|].
  right. left. split_and!; [by apply num_children_single, nibble_lt|done|].
  destruct key as [|y key]; [done|]. apply Forall_cons in Hk as [Hy _].
  rewrite list_lookup_insert_ne by (unfold nibble_ok in *; lia).
  by apply no_subtrees_lookup, nibble_lt.
Qed.

Lemma common_prefix_0_head (key k : list Z) x :
  common_prefix_len key (x :: k) = 0 → match key with [] => True | y :: _ => y ≠ x end.
Proof. destruct key as [|y key]; [done|]. simpl. case_decide; [lia|done]. Qed.

Lemma leaf_branch_insertable k v key :
  nkey k → nkey key → common_prefix_len key k = 0 → (k ≠ [] ∨ key ≠ []) →
  insertable (leaf_branch k v) key.
Proof.
  intros Hk Hkey H0 Hne. destruct k as [|x k]; simpl.
  - split_and!; [done| |].
    + intros c Hc. exfalso. revert Hc. unfold no_subtrees. simpl. by intros ?%not_elem_of_nil.
    + right. right. split_and!; [done|by eexists|naive_solver].
  - apply Forall_cons in Hk as [Hx Hk]. apply single_completes; try done.
    + constructor; [done|]. by intros ? ?%not_elem_of_nil.
    + by eapply common_prefix_0_head.
Qed.

Lemma ext_branch_insertable k c key :
  canon (T () (AExt k c)) → nkey key → common_prefix_len key k = 0 →
  insertable (ext_branch k c) key.
Proof.
  intros Hc Hkey H0. inversion Hc as [[] n Hn Hcs]; subst. destruct Hn as (Hk & Hne & Hb).
  assert (canon c) by (apply Hcs; set_solver).
  destruct k as [|x k]; [done|]. apply Forall_cons in Hk as [Hx Hk].
  apply common_prefix_0_head in H0. destruct k as [|y k]; simpl; apply single_completes; try done.
Qed.

Lemma tinsert_branch fuel t key v :
  shape t → insert_need t key ≤ fuel →
  (match top t with
   | ABranch _ _ => True
   | ALeaf k _ => common_prefix_len key k = 0 ∧ (k ≠ [] ∨ key ≠ [])
   | AExt k _ => common_prefix_len key k = 0
   | AEmpty => False
   end) →
  is_branch (tinsert fuel t key v).
Proof.
  destruct fuel as [|fuel]; [unfold insert_need; case_match; lia|].
  assert (∀ cs ov f, is_branch (tinsert (S f) (T () (ABranch cs ov)) key v)) as Hbr.
  { intros cs ov f. simpl. by destruct key. }
  intros Ht Hf Hpre. inversion Ht as [n Hn Hcs]; subst. destruct n as [|k ov|k c|cs ov]; try done.
  - destruct Hpre as [H0 Hne]. change (insert_need _ _) with (2 * length key + 2) in Hf.
    simpl. rewrite (bool_decide_eq_true_2 (_ = 0)) by done.
    destruct fuel as [|fuel]; [lia|].
    case_bool_decide as H1; [case_bool_decide as H2|]; simpl andb.
    { exfalso. destruct k, key; simpl in *; try done; try lia. naive_solver. }
    all: destruct k; apply Hbr.
  - destruct Hn as [Hk Hne]. change (insert_need _ _) with (2 * length key + 2) in Hf.
    simpl in Hpre |- *. rewrite bool_decide_eq_true_2 by done. destruct fuel as [|fuel]; [lia|].
    destruct k as [|x [|y k]]; [done|apply Hbr|apply Hbr].
Qed.

Lemma canon_ext_drop k c n :
  canon (T () (AExt k c)) → n < length k → canon (T () (AExt (drop n k) c)).
Proof.
  intros Hs Hn. inversion Hs as [? ? Hk Hc]; subst. destruct Hk as (Hk & Hne & Hb).
  constructor; [|done]. split_and!; [by apply Forall_drop| |done].
  intros E. apply (f_equal length) in E. rewrite length_drop in E. simpl in E. lia.
Qed.

Lemma canon_mk_ext k c : nkey k → k ≠ [] → canon c → is_branch c → canon (T () (AExt k c)).
Proof.
  intros. constructor; [done|]. simpl. by intros c' ->%list_elem_of_singleton.
Qed.

Lemma take_not_nil {A} n (l : list A) : n ≠ 0 → n ≤ length l → take n l ≠ [].
Proof. intros ? ? E. apply (f_equal length) in E. rewrite length_take in E. simpl in E. lia. Qed.

Lemma drop_common_0 (key k : list Z) :
  common_prefix_len (drop (common_prefix_len key k) key) (drop (common_prefix_len key k) k) = 0.
Proof. rewrite common_prefix_drop by done. lia. Qed.

Lemma tinsert_canon fuel t key v :
  insertable t key → nkey key → insert_need t key ≤ fuel → canon (tinsert fuel t key v).
Proof.
  revert t key. induction fuel as [|fuel IH]; intros t key Ht Hk Hf.
  { unfold insert_need in Hf. case_match; lia. }
  destruct t as [[] n]. destruct n as [|k ov|k c|cs ov]; simpl tinsert.
  - constructor; [done|]. by intros ? ?%not_elem_of_nil.
  - inversion Ht as [? ? Hn _]; subst. simpl in Hn.
    change (insert_need _ _) with (2 * length key + 2) in Hf.
    pose proof (common_prefix_len_le_l key k) as Hle. pose proof (common_prefix_len_le_r key k) as Hle'.
    case_bool_decide as H1; [case_bool_decide as H2|]; simpl andb; cbv iota.
    { constructor; [done|]. by intros ? ?%not_elem_of_nil. }
    all: case_bool_decide as H3.
    1,3: apply IH; [apply leaf_branch_insertable; try done|done|
      rewrite need_branch by apply leaf_branch_easy; lia].
    1: right; intros ->; simpl in *; lia.
    1: left; intros ->; destruct key; simpl in *; lia.
    all: apply canon_mk_ext; [by apply nkey_take|by apply take_not_nil| |].
    1,3: apply IH; [apply canon_insertable; constructor; [by apply Forall_drop|by intros ? ?%not_elem_of_nil]
      |by apply nkey_drop|by apply need_drop].
    all: apply tinsert_branch; [constructor; [by apply Forall_drop|by intros ? ?%not_elem_of_nil]
      |by apply need_drop|split; [apply drop_common_0|]].
    1: right; intros E; apply (f_equal length) in E; rewrite length_drop in E; simpl in E; lia.
    left; intros E; apply (f_equal length) in E; rewrite length_drop in E; simpl in E; lia.
  - pose proof Ht as Ht0. inversion Ht as [? ? Hn Hcs]; subst. destruct Hn as (Hkk & Hne & Hb).
    change (insert_need _ _) with (2 * length key + 2) in Hf.
    pose proof (common_prefix_len_le_l key k) as Hle. pose proof (common_prefix_len_le_r key k) as Hle'.
    assert (canon c) as Hc by (apply Hcs; set_solver).
    case_bool_decide as H1; [|case_bool_decide as H2].
    + apply IH; [by apply ext_branch_insertable|done|].
      rewrite need_branch by (by apply ext_branch_easy). lia.
    + apply canon_mk_ext; [done|done| |].
      * apply IH; [by apply canon_insertable|by apply nkey_drop|apply need_drop; lia].
      * apply tinsert_branch; [by apply canon_shape|apply need_drop; lia|].
        by destruct c as [[] []].
    + assert (canon (T () (AExt (drop (common_prefix_len key k) k) c))) as Hc'
        by (apply canon_ext_drop; [done|lia]).
      apply canon_mk_ext; [by apply nkey_take|by apply take_not_nil| |].
      * apply IH; [by apply canon_insertable|by apply nkey_drop|apply need_drop; lia].
      * apply tinsert_branch; [by apply canon_shape|apply need_drop; lia|apply drop_common_0].
  - destruct Ht as (Hl & Hcs & Hcomp). simpl in Hcomp. rewrite need_branch in Hf by done.
    destruct key as [|x key].
    + constructor; [|done]. simpl. split; [done|].
      destruct Hcomp as [(_ & ? & ?)|[(? & _)|(_ & _ & ?)]]; [|lia|done]. destruct ov; lia.
    + apply Forall_cons in Hk as [Hx Hk].
      destruct (lookup_lt_is_Some_2 cs (Z.to_nat x)) as [o Ho]; [rewrite Hl; by apply nibble_lt|].
      assert (canon (tinsert fuel (child_at cs x) key v)) as Hchild.
      { apply IH; [|done|pose proof (need_child (child_at cs x) key); simpl in *; lia].
        unfold child_at. rewrite Ho. destruct o as [c|]; simpl; [|done].
        apply canon_insertable, Hcs. by eapply child_elem. }
      constructor.
      * simpl. rewrite length_insert, (num_children_insert _ _ o) by done. split; [done|].
        destruct Hcomp as [(_ & ? & ?)|[(? & -> & ?)|(? & [? ->] & ?)]]; destruct o; simplify_eq; try lia.
        exfalso. apply child_elem in Ho. unfold num_children in *. destruct (omap id cs); [by apply not_elem_of_nil in Ho|simpl in *; lia].
      * simpl. intros c [->|Hc]%elem_insert_child; auto.
Qed.

End insert_spec.
