(* ===== verification/TrieRep.v ===== *)
(** Labelled trees that describe the arena.

    A tree whose nodes carry their reference (an arena slot or a storage hash) and
    their recorded memory usage describes what the arena and the storage hold
    ([rep]); [ids] are the slots it owns, [mem] the memory usage of a subtree and
    [mem_ok] says that every recorded usage is right.  The lemmas on the arena
    primitives and the frame rule are what the insertion and deletion proofs use. *)

From S2P Require Import Prelude Nibbles TrieNode TrieUpdate TrieTree.
Import NibbleSlice.

Local Open Scope Z_scope.

(** * Memory usage of trees *)

Section memory.
Context {L V : Type} (value_len : V → Z).

Fixpoint mem (t : tree L V) : Z :=
  match t with
  | T _ n => direct_cost value_len (encode_anode n) + sum_Z (achildren (anode_map mem n))
  end.

Lemma achildren_map {A B} (f : A → B) (n : anode A V) : achildren (anode_map f n) = f <$> achildren n.
Proof.
  destruct n as [|k v|k c|cs v]; try done. simpl.
  induction cs as [|[c|] cs IH]; simpl; [done| |done]. by f_equal.
Qed.

Lemma mem_eq l n : mem (T l n) = direct_cost value_len (encode_anode n) + sum_Z (mem <$> achildren n).
Proof. simpl. by rewrite achildren_map. Qed.

Lemma direct_cost_encode_map {A B} (f : A → B) (n : anode A V) :
  direct_cost value_len (encode_anode (anode_map f n)) = direct_cost value_len (encode_anode n).
Proof. by destruct n. Qed.

Hypothesis value_len_nonneg : ∀ v, 0 <= value_len v.

Lemma mem_nonneg t : 0 <= mem t.
Proof.
  induction t as [l n IH] using tree_ind'. rewrite mem_eq.
  pose proof (direct_cost_nonneg value_len (encode_anode n) value_len_nonneg).
  assert (0 <= sum_Z (mem <$> achildren n)); [|lia].
  apply sum_Z_nonneg, Forall_fmap, Forall_forall. auto.
Qed.

Lemma mem_direct_le l n : direct_cost value_len (encode_anode n) <= mem (T l n).
Proof.
  rewrite mem_eq. assert (0 <= sum_Z (mem <$> achildren n)); [|lia].
  apply sum_Z_nonneg, Forall_fmap, Forall_forall. intros. apply mem_nonneg.
Qed.

Lemma mem_child_le l n c : c ∈ achildren n → mem c + direct_cost value_len (encode_anode n) <= mem (T l n).
Proof.
  intros Hc. rewrite mem_eq. assert (mem c <= sum_Z (mem <$> achildren n)); [|lia].
  apply sum_Z_elem; [|by apply list_elem_of_fmap_2].
  apply Forall_fmap, Forall_forall. intros. apply mem_nonneg.
Qed.
End memory.

#[global] Arguments mem : simpl never.

Lemma mem_erase {L V} (value_len : V → Z) (t : tree L V) : mem value_len (erase t) = mem value_len t.
Proof.
  induction t as [l n IH] using tree_ind'. rewrite mem_eq. simpl erase. rewrite mem_eq.
  rewrite direct_cost_encode_map. f_equal. f_equal. rewrite achildren_map, <-list_fmap_compose.
  apply list_fmap_ext. intros i c Hi. apply IH. by eapply list_elem_of_lookup_2.
Qed.

Section rep.
Context {H : Type} `{Countable H} `{TrieCodec H}.
Variable storage : H → option (list Z).

Abbreviation V := (ValueHandle H).
Abbreviation ltree := (tree (GenericNodeOrIndex H * Z) V).
Abbreviation vlen := (value_handle_len (H:=H)).
Abbreviation state := (TrieStorageUpdate (H:=H)).

Definition root_ref (t : ltree) : GenericNodeOrIndex H := (label t).1.

Definition ids_of (r : GenericNodeOrIndex H) : list nat :=
  match r with Updated id => [id] | Old _ => [] end.

Fixpoint ids (t : ltree) : list nat :=
  match t with T l n => ids_of l.1 ++ mjoin (achildren (anode_map ids n)) end.

Lemma ids_eq l n : ids (T l n) = ids_of l.1 ++ mjoin (ids <$> achildren n).
Proof. simpl. by rewrite achildren_map. Qed.

Arguments ids : simpl never.

(** What is stored under a reference. *)
Definition stored_at (s : state) (l : GenericNodeOrIndex H * Z)
    (n : anode (GenericNodeOrIndex H) V) : Prop :=
  match l.1 with
  | Updated id => nodes s !! id = Some (Some (mkWithSize (encode_anode n) l.2))
  | Old h =>
      (h = EMPTY_ROOT ∧ n = AEmpty ∧ l.2 = 0) ∨
      (h ≠ EMPTY_ROOT ∧ ∃ bytes raw, storage h = Some bytes ∧ try_from_slice bytes = Some raw ∧
        into_updated_with_size (from_raw_trie_node_with_size raw) = mkWithSize (encode_anode n) l.2)
  end.

Inductive rep (s : state) : ltree → Prop :=
| Rep l n :
    stored_at s l (anode_map root_ref n) → (∀ c, c ∈ achildren n → rep s c) → rep s (T l n).

Inductive mem_ok : ltree → Prop :=
| MemOk l n : l.2 = mem vlen (T l n) → (∀ c, c ∈ achildren n → mem_ok c) → mem_ok (T l n).

Lemma mem_ok_label t : mem_ok t → (label t).2 = mem vlen t.
Proof. by destruct 1. Qed.

(** ** Frame *)

Lemma elem_ids_child l n c j : c ∈ achildren n → j ∈ ids c → j ∈ ids (T l n).
Proof.
  intros Hc Hj. rewrite ids_eq. apply elem_of_app. right.
  apply list_elem_of_join. exists (ids c). split; [done|]. by apply list_elem_of_fmap_2.
Qed.

Lemma rep_frame s s' t :
  rep s t → (∀ j, j ∈ ids t → nodes s' !! j = nodes s !! j) → rep s' t.
Proof.
  induction 1 as [l n Hst Hc IH]. intros Hf. constructor.
  - unfold stored_at in *. destruct (l.1) as [h|id] eqn:E; [done|].
    rewrite Hf; [done|]. rewrite ids_eq, E. by left.
  - intros c Hcc. apply IH; [done|]. intros j Hj. apply Hf. by eapply elem_ids_child.
Qed.

(** Everything a tree owns is allocated. *)
Lemma rep_ids_lt s t j : rep s t → j ∈ ids t → (j < length (nodes s))%nat.
Proof.
  induction 1 as [l n Hst Hc IH]. rewrite ids_eq. intros [Hj|Hj]%elem_of_app.
  - unfold stored_at in Hst. destruct (l.1) as [h|id]; [by apply not_elem_of_nil in Hj|].
    apply list_elem_of_singleton in Hj as ->. by eapply lookup_lt_Some.
  - apply list_elem_of_join in Hj as (X & Hj & HX).
    apply list_elem_of_fmap in HX as (c & -> & Hcc). by eapply IH.
Qed.

(** An old node has only old descendants. *)
Lemma rep_old_children s h m n c :
  rep s (T (Old h, m) n) → c ∈ achildren n → ∃ h', root_ref c = Old h'.
Proof.
  intros Hr Hc. inversion Hr as [l n' Hst _]; subst.
  destruct Hst as [(_ & Hn & _)|(_ & bytes & raw & _ & _ & Heq)].
  - destruct n; simpl in *; try discriminate; try by apply not_elem_of_nil in Hc.
  - unfold into_updated_with_size, into_updated in Heq. simpl in Heq.
    injection Heq as Heq _. revert Heq. generalize (from_raw_trie_node (raw_node raw)). intros g Heq.
    destruct n as [|k v|k c'|cs v]; simpl in Hc; try by apply not_elem_of_nil in Hc.
    + apply list_elem_of_singleton in Hc as ->. destruct g; simpl in Heq; try discriminate.
      injection Heq as _ Heq. eauto.
    + destruct g as [| | |children value]; simpl in Heq; try discriminate.
      injection Heq as Heq _. apply list_elem_of_omap in Hc as (o & Ho & Hid). simpl in Hid. subst o.
      apply list_elem_of_lookup in Ho as [i Hi].
      assert ((option_map Old <$> children) !! i = Some (Some (root_ref c))) as Hch.
      { rewrite Heq. change (map ?f ?l) with (f <$> l). by rewrite list_lookup_fmap, Hi. }
      rewrite list_lookup_fmap in Hch. destruct (children !! i) as [[h'|]|]; naive_solver.
Qed.

Lemma ids_old s t h : rep s t → root_ref t = Old h → ids t = [].
Proof.
  intros Hr. revert h. induction Hr as [[r m] n Hst Hc IH]. intros h Hroot. rewrite ids_eq.
  unfold root_ref in Hroot. simpl in *. subst r. simpl.
  assert (rep s (T (Old h, m) n)) as Hrep by by constructor.
  pose proof (λ c, rep_old_children s h m n c Hrep) as Hold. clear Hst Hrep Hc.
  induction (achildren n) as [|c l IHl]; [done|]. simpl.
  destruct (Hold c) as [h' Hh']; [left|]. rewrite (IH c ltac:(left) h' Hh'). simpl. apply IHl.
  - intros; eapply IH; [by right|done].
  - intros; apply Hold; by right.
Qed.

(** ** Arena primitives *)

Lemma take_node_ok (s : state) id n :
  nodes s !! id = Some (Some n) →
  take_node id s = Ok n (set_nodes (<[id := None]> (nodes s)) s).
Proof. intros Hn. unfold take_node, mbind, M_bind, get_state. by rewrite Hn. Qed.

Lemma place_node_at_ok (s : state) id n :
  nodes s !! id = Some None →
  place_node_at id n s = Ok () (set_nodes (<[id := Some n]> (nodes s)) s).
Proof. intros Hn. unfold place_node_at, mbind, M_bind, get_state. by rewrite Hn. Qed.

Lemma place_node_ok (s : state) n :
  place_node n s = Ok (length (nodes s)) (set_nodes (nodes s ++ [Some n]) s).
Proof. done. Qed.

Lemma get_node_ref_ok (s : state) id n :
  nodes s !! id = Some (Some n) → get_node_ref id s = Ok n s.
Proof. intros Hn. unfold get_node_ref, mbind, M_bind, get_state. by rewrite Hn. Qed.

Lemma expect_ok {A} (o : option A) a (s : state) :
  o = Some a → expect (E := StorageError H) o s = Ok a s.
Proof. by intros ->. Qed.

Lemma direct_ok (s : state) (n : GenericTrieNode (GenericNodeOrIndex H) V) :
  direct_cost vlen n <= umax 64 → direct n s = Ok (direct_cost vlen n) s.
Proof.
  intros Hd. apply expect_ok, memory_usage_direct_spec; [apply value_handle_len_nonneg|done].
Qed.

Lemma add_u64_ok (s : state) a b : a + b <= umax 64 → add_u64 a b s = Ok (a + b) s.
Proof. intros Hab. by apply expect_ok, checked_add_Some. Qed.

(** Room for [k] more decrements of any reference count. *)
Definition rc_room (s : state) (k : nat) : Prop :=
  Z.of_nat k <= 2 ^ 31 ∧
  ∀ h v rc, refcount_changes s !! h = Some (v, rc) → - 2 ^ 31 + Z.of_nat k <= rc <= 2 ^ 31 - 1.

Lemma rc_room_weaken (s : state) k k' : rc_room s k → (k' ≤ k)%nat → rc_room s k'.
Proof. intros [? Hr] ?. split; [lia|]. intros h v rc Hh. specialize (Hr h v rc Hh). lia. Qed.

Lemma rc_room_same (s s' : state) k :
  refcount_changes s' = refcount_changes s → rc_room s k → rc_room s' k.
Proof. unfold rc_room. by intros ->. Qed.

Lemma subtract_ok (s : state) h k :
  rc_room s (S k) →
  ∃ m, subtract h 1 s = Ok () (mkUpdate (nodes s) (values s) m) ∧
       rc_room (mkUpdate (nodes s) (values s) m) k.
Proof.
  intros [Hk Hr]. unfold subtract, mbind, M_bind, get_state, refcount_subtract.
  destruct (default (None, 0) (refcount_changes s !! h)) as [old rc] eqn:E.
  assert (- 2 ^ 31 + 1 + Z.of_nat k <= rc <= 2 ^ 31 - 1) as Hrc.
  { destruct (refcount_changes s !! h) as [[v' rc']|] eqn:E'; simpl in E; simplify_eq.
    - specialize (Hr _ _ _ E'). lia.
    - lia. }
  assert (in_i32 (rc - 1) = true) as -> by (unfold in_i32; lia).
  simpl. eexists. split; [done|]. split; [lia|]. simpl. intros h' v' rc'.
  destruct (decide (h = h')) as [->|Hne].
  - rewrite lookup_insert_eq. intros [= <- <-]. lia.
  - rewrite lookup_insert_ne by done. intros Hh. specialize (Hr _ _ _ Hh). lia.
Qed.

Lemma delete_value_ok (s : state) v k :
  rc_room s (S k) →
  ∃ m, delete_value v s = Ok () (mkUpdate (nodes s) (values s) m) ∧
       rc_room (mkUpdate (nodes s) (values s) m) k.
Proof.
  intros Hr. destruct v as [i n|r]; simpl.
  - exists (refcount_changes s). split; [by destruct s|].
    eapply rc_room_weaken; [by eapply rc_room_same|lia].
  - by apply subtract_ok.
Qed.

(** ** Making a child mutable *)

(** [s'] extends [s] with new slots only. *)
Definition extends (s s' : state) : Prop :=
  nodes s `prefix_of` nodes s' ∧ values s' = values s.

Lemma extends_lookup s s' j x : extends s s' → nodes s !! j = Some x → nodes s' !! j = Some x.
Proof. intros [Hp _] Hj. by eapply prefix_lookup_Some. Qed.

Lemma extends_rep s s' t : extends s s' → rep s t → rep s' t.
Proof.
  intros He Hr. eapply rep_frame; [done|]. intros j Hj.
  destruct (lookup_lt_is_Some_2 (nodes s) j) as [x Hx]; [by eapply rep_ids_lt|].
  rewrite Hx. by eapply extends_lookup.
Qed.

Lemma ensure_updated_ok (s : state) (c : ltree) k :
  rep s c → NoDup (ids c) → rc_room s (S k) →
  ∃ s' cid n m,
    ensure_updated storage (root_ref c) s = Ok cid s' ∧ c = T (root_ref c, m) n ∧
    extends s s' ∧ rep s' (T (Updated cid, m) n) ∧ NoDup (ids (T (Updated cid, m) n)) ∧
    (∀ j, j ∈ ids (T (Updated cid, m) n) → j ∈ ids c ∨ (length (nodes s) ≤ j)%nat) ∧
    rc_room s' k.
Proof.
  intros Hr Hnd Hroom. destruct c as [[r m] n]. unfold root_ref. simpl.
  destruct r as [h|id]; simpl.
  2:{ exists s, id, n, m. split_and!; [done|done|split; done|done|done|by left|].
      eapply rc_room_weaken; [done|lia]. }
  assert (Hchild : ∀ c, c ∈ achildren n → ids c = []).
  { intros c Hc. destruct (rep_old_children s h m n c Hr Hc) as [h' Hh'].
    inversion Hr as [? ? _ Hcs]; subst. eapply ids_old; [|done]. by apply Hcs. }
  assert (Hids : ids (T (Updated (length (nodes s)), m) n) = [length (nodes s)]).
  { rewrite ids_eq. simpl. f_equal. revert Hchild. generalize (achildren n). intros l Hl.
    induction l as [|c l IH]; [done|]. simpl. rewrite (Hl c) by left. apply IH.
    intros c' Hc'. apply Hl. by right. }
  assert (Hst := Hr). inversion Hst as [l n' Hstored Hcs]; subst. clear Hst.
  destruct Hstored as [(-> & Hn & Hm)|(Hne & bytes & raw & Hb & Hraw & Heq)].
  - destruct n; try discriminate. simpl in Hm. subst m.
    eexists (set_nodes (nodes s ++ [Some (mkWithSize Empty 0)]) s), (length (nodes s)), AEmpty, 0.
    split_and!; try done.
    + unfold move_node_to_mutable, retrieve_raw_node, mbind, M_bind. by rewrite decide_True.
    + split; [by apply prefix_app_r|done].
    + constructor; [|by intros ? ?%not_elem_of_nil]. simpl. apply lookup_snoc_length.
    + apply NoDup_singleton.
    + intros j ->%list_elem_of_singleton. by right.
    + eapply rc_room_weaken; [by eapply rc_room_same|lia].
  - set (s1 := set_nodes (nodes s ++ [Some (into_updated_with_size (from_raw_trie_node_with_size raw))]) s).
    destruct (subtract_ok s1 h k) as (mm & Hsub & Hroom'); [by eapply rc_room_same|].
    eexists _, (length (nodes s)), n, m. split_and!; [| done | | | | |exact Hroom'].
    + unfold move_node_to_mutable. rewrite (bind_Ok _ _ _ (Some raw) s).
      2: { unfold retrieve_raw_node. rewrite decide_False by done. by rewrite Hb, Hraw. }
      rewrite (bind_Ok _ _ _ (length (nodes s)) s1) by done.
      by rewrite (bind_Ok _ _ _ _ _ Hsub).
    + split; [by apply prefix_app_r|done].
    + constructor.
      * simpl. rewrite Heq. apply lookup_snoc_length.
      * intros c Hc. eapply rep_frame; [by apply Hcs|]. intros j Hj. rewrite Hchild in Hj by done.
        by apply not_elem_of_nil in Hj.
    + rewrite Hids. apply NoDup_singleton.
    + rewrite Hids. intros j ->%list_elem_of_singleton. by right.
Qed.

(** A trie rooted at slot [id]: its nodes are where the references say, nothing is shared,
    the recorded memory usages are exact, and its shape is canonical. *)
Record trie_at (s : state) (id : nat) (t : ltree) : Prop := {
  at_root : root_ref t = Updated id;
  at_rep : rep s t;
  at_nodup : NoDup (ids t);
  at_mem : mem_ok t;
  at_canon : canon_root (erase t)
}.
End rep.

#[global] Arguments ids : simpl never.
