(* ===== verification/TrieInsert.v ===== *)
(** The insertion loop refines functional insertion.

    [generic_insert] of src/core/store/src/trie/ops/insert_delete.rs, run on an
    arena that a labelled tree describes, terminates without panicking and leaves
    an arena described by the tree that [tinsert] computes, with every memory
    usage exact. *)

From S2P Require Import Prelude Nibbles TrieNode TrieUpdate TrieTree TrieInsertSpec TrieRep.
Import NibbleSlice.

Local Open Scope Z_scope.

(** * Memory bound of functional insertion *)

Lemma length_pack ns : length (pack ns) = (length ns / 2)%nat.
Proof.
  remember (length ns) as n eqn:E. revert ns E. induction n as [n IH] using lt_wf_ind. intros ns ->.
  destruct ns as [|a [|b ns]]; [done|done|]. simpl. rewrite (IH (length ns)) by (simpl; lia).
  change (S (S (length ns))) with (2 + length ns)%nat. lia_div.
Qed.

Lemma length_hp_encode is_leaf ns : length (hp_encode is_leaf ns) = (length ns / 2 + 1)%nat.
Proof.
  unfold hp_encode. destruct (mod2_cases (length ns)) as [(-> & Hm & _)|(-> & _ & _)].
  - destruct ns as [|n0 ns]; [done|]. simpl. rewrite length_pack. simpl in Hm. lia_div.
  - simpl. rewrite length_pack. lia.
Qed.

Section insert_memory.
Context {V : Type} (vlen : V → Z) (Hvlen : ∀ v, 0 <= vlen v).
Implicit Types (t c : tree () V).
Abbreviation mem := (mem vlen).

Lemma omap_single i (c : tree () V) :
  (i < NUM_CHILDREN)%nat → omap id (<[i := Some c]> no_subtrees) = [c].
Proof. unfold NUM_CHILDREN. intros. do 16 (destruct i as [|i]; [done|]). lia. Qed.

Lemma omap_no_subtrees : omap id (no_subtrees (V:=V)) = [].
Proof. done. Qed.

Lemma mem_single x c : nibble_ok x → mem (T () (ABranch (<[Z.to_nat x := Some c]> no_subtrees) None)) = 50 + mem c.
Proof. intros Hx. rewrite mem_eq. simpl achildren. rewrite omap_single by by apply nibble_lt. simpl. lia. Qed.

Lemma mem_leaf (k : list Z) v : mem (T () (ALeaf k v)) = 102 + 2 * (Z.of_nat (length k) / 2) + vlen v.
Proof. rewrite mem_eq. simpl. rewrite length_hp_encode. lia_div. Qed.

Lemma mem_ext (k : list Z) c : mem (T () (AExt k c)) = 52 + 2 * (Z.of_nat (length k) / 2) + mem c.
Proof. rewrite mem_eq. simpl. rewrite length_hp_encode. lia_div. Qed.

Lemma mem_leaf_branch k v : nkey k → mem (leaf_branch k v) <= mem (T () (ALeaf k v)) + 50.
Proof.
  intros Hk. destruct k as [|x k]; simpl leaf_branch.
  - rewrite mem_leaf, mem_eq. simpl. lia_div.
  - apply Forall_cons in Hk as [Hx _]. rewrite mem_single, !mem_leaf by done. simpl length. lia_div.
Qed.

Lemma mem_ext_branch k c : nkey k → k ≠ [] → mem (ext_branch k c) <= mem (T () (AExt k c)) + 50.
Proof.
  intros Hk Hne. destruct k as [|x [|y k]]; [done| |]; simpl ext_branch;
    apply Forall_cons in Hk as [Hx _]; rewrite mem_single, !mem_ext by done; simpl length; lia_div.
Qed.

Lemma sum_children_cons {L} (o : option (tree L V)) cs :
  sum_Z (TrieRep.mem vlen <$> omap id (o :: cs)) =
  match o with Some c => TrieRep.mem vlen c | None => 0 end + sum_Z (TrieRep.mem vlen <$> omap id cs).
Proof. by destruct o. Qed.

Lemma sum_children_insert {L} (cs : list (option (tree L V))) i o (c : tree L V) :
  cs !! i = Some o →
  sum_Z (TrieRep.mem vlen <$> omap id (<[i := Some c]> cs)) =
  sum_Z (TrieRep.mem vlen <$> omap id cs) +
    TrieRep.mem vlen c - match o with Some c' => TrieRep.mem vlen c' | None => 0 end.
Proof.
  revert i. induction cs as [|o' cs IH]; intros [|i] Hi; [done|done| |]; simpl in Hi.
  - change (<[0%nat := Some c]> (o' :: cs)) with (Some c :: cs). rewrite !sum_children_cons.
    simplify_eq. lia.
  - change (<[S i := Some c]> (o' :: cs)) with (o' :: <[i := Some c]> cs).
    rewrite !sum_children_cons, (IH _ Hi). lia.
Qed.

Lemma tinsert_mem fuel t key v :
  shape t → nkey key → (insert_need t key ≤ fuel)%nat →
  mem (tinsert fuel t key v) <= mem t + 52 * Z.of_nat fuel + 102 + Z.of_nat (length key) + vlen v.
Proof.
  revert t key. induction fuel as [|fuel IH]; intros t key Ht Hk Hf.
  { unfold insert_need in Hf. case_match; lia. }
  pose proof (Hvlen v) as Hv. pose proof (mem_nonneg vlen Hvlen t) as Ht0.
  inversion Ht as [n Hn Hcs]; subst. destruct n as [|k ov|k c|cs ov]; simpl tinsert.
  - rewrite mem_leaf. lia_div.
  - simpl in Hn. change (insert_need _ _) with (2 * length key + 2)%nat in Hf.
    pose proof (common_prefix_len_le_l key k) as Hle. pose proof (common_prefix_len_le_r key k) as Hle'.
    pose proof (Hvlen ov) as Hov.
    case_bool_decide as H1; [case_bool_decide as H2|]; simpl andb; cbv iota.
    { rewrite !mem_leaf in *. lia. }
    all: case_bool_decide as H3.
    1,3: pose proof (mem_leaf_branch k ov Hn);
      specialize (IH (leaf_branch k ov) key (shape_leaf_branch k ov Hn) Hk);
      rewrite need_branch in IH by apply leaf_branch_easy; lia.
    all: rewrite mem_ext; specialize (IH (T () (ALeaf (drop (common_prefix_len key k) k) ov))
      (drop (common_prefix_len key k) key) (shape_leaf_drop _ _ _ Ht) (nkey_drop _ _ Hk)
      (need_drop _ _ _ _ H3 Hle Hf));
      rewrite mem_leaf in *; rewrite !length_drop in *; rewrite length_take; lia_div.
  - destruct Hn as [Hkk Hne]. change (insert_need _ _) with (2 * length key + 2)%nat in Hf.
    pose proof (common_prefix_len_le_l key k) as Hle. pose proof (common_prefix_len_le_r key k) as Hle'.
    assert (shape c) as Hc by (apply Hcs; set_solver).
    case_bool_decide as H1; [|case_bool_decide as H2].
    + pose proof (mem_ext_branch k c Hkk Hne).
      specialize (IH (ext_branch k c) key (shape_ext_branch k c Hkk Hne Hc) Hk).
      rewrite need_branch in IH by by apply ext_branch_easy. lia.
    + specialize (IH c _ Hc (nkey_drop _ _ Hk) (need_drop _ _ _ _ H1 Hle Hf)).
      rewrite length_drop in IH. rewrite !mem_ext in *. lia_div.
    + assert (common_prefix_len key k < length k)%nat as Hlt by lia.
      specialize (IH (T () (AExt (drop (common_prefix_len key k) k) c)) _
        (shape_ext_drop _ _ _ Ht Hlt) (nkey_drop _ _ Hk) (need_drop _ _ _ _ H1 Hle Hf)).
      rewrite !mem_ext in *. rewrite !length_drop in *. rewrite length_take. lia_div.
  - simpl in Hn. rewrite need_branch in Hf by done. destruct key as [|x key].
    + rewrite !mem_eq in *. simpl in *. destruct ov as [w|]; [pose proof (Hvlen w)|]; lia.
    + apply Forall_cons in Hk as [Hx Hk].
      destruct (lookup_lt_is_Some_2 cs (Z.to_nat x)) as [o Ho]; [rewrite Hn; by apply nibble_lt|].
      specialize (IH (child_at cs x) key (shape_child_at _ _ Hcs) Hk).
      pose proof (need_child (child_at cs x) key). simpl length in *.
      rewrite !mem_eq in *. simpl achildren in *. rewrite (sum_children_insert _ _ _ _ Ho). simpl direct_cost in *.
      assert (mem (child_at cs x) = match o with Some c' => mem c' | None => 0 end) as Hchild.
      { unfold child_at. rewrite Ho. by destruct o. }
      lia.
Qed.
End insert_memory.

(** * The walk back: memory usage along the path *)

Section insert_arena.
Context {H : Type} `{Countable H} `{TrieCodec H}.
Variable storage : H → option (list Z).

Abbreviation V := (ValueHandle H).
Abbreviation ltree := (tree (GenericNodeOrIndex H * Z) V).
Abbreviation vlen := (value_handle_len (H:=H)).
Abbreviation state := (TrieStorageUpdate (H:=H)).
Abbreviation rep := (rep storage).
Abbreviation mem := (mem vlen).

(** After the descent the nodes of the path lack the memory usage of the next
    node on it; everything else is exact. *)
Inductive path_mem : ltree → list nat → Prop :=
| PathEnd id m n :
    mem_ok (T (Updated id, m) n) → path_mem (T (Updated id, m) n) [id]
| PathStep id m n l1 c l2 p :
    achildren n = l1 ++ c :: l2 → path_mem c p →
    (∀ d, d ∈ l1 ++ l2 → mem_ok d) →
    m = mem (T (Updated id, m) n) - mem c →
    path_mem (T (Updated id, m) n) (id :: p).

Fixpoint retag (t : ltree) : ltree :=
  match t with T l n => T (l.1, mem (T l n)) (anode_map retag n) end.

Lemma anode_map_compose {A B C} (f : A → B) (g : B → C) (n : anode A V) :
  anode_map g (anode_map f n) = anode_map (g ∘ f) n.
Proof.
  destruct n as [|k v|k c|cs v]; simpl; try done. f_equal. rewrite map_map.
  apply map_ext. by intros [c|].
Qed.

Lemma anode_map_ext {A B} (f g : A → B) (n : anode A V) :
  (∀ c, c ∈ achildren n → f c = g c) → anode_map f n = anode_map g n.
Proof.
  destruct n as [|k v|k c|cs v]; simpl; intros Hfg; try done.
  - by rewrite Hfg by by left.
  - f_equal. induction cs as [|[c|] cs IH]; simpl in *; [done| |by f_equal; apply IH].
    rewrite Hfg by by left. f_equal. apply IH. intros c' Hc'. apply Hfg. by right.
Qed.

Lemma root_ref_retag t : root_ref (retag t) = root_ref t.
Proof. by destruct t as [[r m] n]. Qed.

Lemma mem_retag t : mem (retag t) = mem t.
Proof.
  induction t as [l n IH] using tree_ind'. simpl retag. rewrite !mem_eq, direct_cost_encode_map.
  f_equal. f_equal. rewrite achildren_map, <-list_fmap_compose. apply list_fmap_ext.
  intros i c Hi. apply IH. by eapply list_elem_of_lookup_2.
Qed.

Lemma ids_retag t : ids (retag t) = ids t.
Proof.
  induction t as [l n IH] using tree_ind'. simpl retag. rewrite !ids_eq. simpl. f_equal. f_equal.
  rewrite achildren_map, <-list_fmap_compose. apply list_fmap_ext.
  intros i c Hi. apply IH. by eapply list_elem_of_lookup_2.
Qed.

Lemma erase_retag t : erase (retag t) = erase t.
Proof.
  induction t as [l n IH] using tree_ind'. simpl. f_equal. rewrite anode_map_compose.
  apply anode_map_ext. intros c Hc. by apply IH.
Qed.

Lemma mem_ok_retag t : mem_ok (retag t).
Proof.
  induction t as [l n IH] using tree_ind'. simpl. constructor.
  - simpl. change (T (l.1, mem (T l n)) (anode_map retag n)) with (retag (T l n)). by rewrite mem_retag.
  - intros c. rewrite achildren_map. intros (c' & -> & Hc')%list_elem_of_fmap. by apply IH.
Qed.

Lemma retag_mem_ok t : mem_ok t → retag t = t.
Proof.
  induction 1 as [[r m] n Hm _ IH]. simpl in *. rewrite <-Hm. f_equal.
  rewrite (anode_map_ext retag id) by done. destruct n as [|k v|k c|cs v]; simpl; try done.
  f_equal. rewrite <-map_id. apply map_ext. by intros [c|].
Qed.

Lemma path_mem_head t p :
  path_mem t p → ∃ id p', p = id :: p' ∧ root_ref t = Updated id.
Proof. destruct 1; eauto. Qed.

(** Subtrees of different children own different slots. *)
Lemma ids_children_disjoint l n l1 (c d : ltree) l2 j :
  NoDup (ids (T l n)) → achildren n = l1 ++ c :: l2 → d ∈ l1 ++ l2 → j ∈ ids c → j ∉ ids d.
Proof.
  rewrite ids_eq. intros (_ & _ & Hnd)%NoDup_app Heq Hd Hj Hj'.
  rewrite Heq, fmap_app, fmap_cons, join_app in Hnd. simpl in Hnd.
  apply NoDup_app in Hnd as (_ & H12 & Hnd). apply NoDup_app in Hnd as (_ & Hc2 & _).
  assert (∀ l, d ∈ l → j ∈ mjoin (ids <$> l)) as Hin.
  { intros l0 Hl. apply list_elem_of_join. exists (ids d). split; [done|]. by apply list_elem_of_fmap_2. }
  apply elem_of_app in Hd as [Hd|Hd].
  - apply (H12 j (Hin _ Hd)). apply elem_of_app. by left.
  - by apply (Hc2 j Hj), Hin.
Qed.

Lemma NoDup_ids_child l n (c : ltree) : NoDup (ids (T l n)) → c ∈ achildren n → NoDup (ids c).
Proof.
  rewrite ids_eq. intros (_ & _ & Hnd)%NoDup_app Hc. induction (achildren n) as [|x xs IH].
  - by apply not_elem_of_nil in Hc.
  - simpl in Hnd. apply NoDup_app in Hnd as (Hx & _ & Hnd).
    apply elem_of_cons in Hc as [->|Hc]; [done|by apply IH].
Qed.

Lemma root_not_in_child id m n (c : ltree) :
  NoDup (ids (T (Updated id, m) n)) → c ∈ achildren n → id ∉ ids c.
Proof.
  rewrite ids_eq. simpl. intros [Hid _]%NoDup_cons Hc Hj. apply Hid.
  apply list_elem_of_join. exists (ids c). split; [done|]. by apply list_elem_of_fmap_2.
Qed.

Definition walk_back (path : list nat) : M state (StorageError H) () :=
  match reverse path with
  | [] => panic
  | last :: rpath => insert_memory_loop last rpath
  end.

Lemma insert_memory_loop_snoc c l id (s : state) :
  insert_memory_loop c (l ++ [id]) s =
  (insert_memory_loop c l ≫= λ _, insert_memory_loop (default c (last l)) [id]) s.
Proof.
  revert c s. induction l as [|x l IH]; intros c s; [done|].
  simpl app. cbn [insert_memory_loop]. unfold mbind, M_bind.
  destruct (get_node_ref c s) as [n s1| | |]; try done.
  destruct (take_node x s1) as [n' s2| | |]; try done.
  destruct (add_u64 _ _ s2) as [mu s3| | |]; try done.
  destruct (place_node_at x _ s3) as [[] s4| | |]; try done.
  rewrite IH. unfold mbind, M_bind. destruct (insert_memory_loop x l s4); try done.
  rewrite last_cons. by destruct (last l).
Qed.

Lemma walk_back_cons id cid p (s : state) :
  walk_back (id :: cid :: p) s = (walk_back (cid :: p) ≫= λ _, insert_memory_loop cid [id]) s.
Proof.
  unfold walk_back. rewrite (reverse_cons (cid :: p) id).
  destruct (reverse (cid :: p)) as [|x l] eqn:E; [by rewrite reverse_cons in E; destruct (reverse p)|].
  simpl. rewrite insert_memory_loop_snoc.
  assert (default x (last l) = cid) as ->; [|done].
  assert (last (reverse (cid :: p)) = Some cid) as Hl by (rewrite reverse_cons; apply last_snoc).
  rewrite E, last_cons in Hl. by destruct (last l); simplify_eq/=.
Qed.

(** States that agree outside some slots. *)
Definition same_outside (X : list nat) (s s' : state) : Prop :=
  length (nodes s') = length (nodes s) ∧ values s' = values s ∧
  refcount_changes s' = refcount_changes s ∧
  ∀ j, j ∉ X → nodes s' !! j = nodes s !! j.

Lemma walk_back_ok t p s :
  path_mem t p → rep s t → NoDup (ids t) → mem t <= umax 64 →
  ∃ s', walk_back p s = Ok () s' ∧ rep s' (retag t) ∧ same_outside (ids t) s s'.
Proof.
  intros Hp. revert s. induction Hp as [id m n Hm|id m n l1 c l2 p Hsplit Hp IH Hsib Hm]; intros s Hr Hnd Hle.
  { exists s. split_and!; [done| |done..]. by rewrite retag_mem_ok. }
  destruct (path_mem_head _ _ Hp) as (cid & p' & -> & Hroot).
  assert (c ∈ achildren n) as Hc by (rewrite Hsplit; set_solver).
  pose proof (mem_child_le vlen value_handle_len_nonneg (Updated id, m) n c Hc) as Hcle.
  pose proof (mem_nonneg vlen value_handle_len_nonneg c) as Hc0.
  inversion Hr as [l n' Hst Hrc]; subst l n'.
  pose proof (direct_cost_nonneg vlen (encode_anode n) value_handle_len_nonneg) as Hd0.
  destruct (IH s) as (s1 & Hs1 & Hr1 & Hlen1 & Hv1 & Hrc1 & Hout1);
    [by apply Hrc|by eapply NoDup_ids_child|lia|].
  assert (id ∉ ids c) as Hid by by eapply root_not_in_child.
  rewrite walk_back_cons. rewrite (bind_Ok _ _ _ _ _ Hs1). cbn [insert_memory_loop].
  (* the child *)
  destruct (retag c) as [[r mc] nc] eqn:Erc.
  assert (r = Updated cid ∧ mc = mem c) as [-> ->].
  { rewrite <-mem_retag, <-root_ref_retag, Erc in *.
    pose proof (mem_ok_label _ (mem_ok_retag c)) as Hml. rewrite Erc in Hml. by simpl in *. }
  assert (nodes s1 !! cid = Some (Some (mkWithSize (encode_anode (anode_map root_ref nc)) (mem c)))) as Hcell.
  { inversion Hr1; subst. done. }
  rewrite (bind_Ok _ _ _ _ _ (get_node_ref_ok _ _ _ Hcell)).
  (* the node *)
  assert (nodes s1 !! id = Some (Some (mkWithSize (encode_anode (anode_map root_ref n)) m))) as Hnode.
  { rewrite Hout1 by done. done. }
  rewrite (bind_Ok _ _ _ _ _ (take_node_ok _ _ _ Hnode)). simpl memory_usage.
  assert (m + mem c <= umax 64) as Hadd by lia.
  rewrite (bind_Ok _ _ _ _ _ (add_u64_ok _ _ _ Hadd)).
  assert (id < length (nodes s1))%nat as Hlt by by eapply lookup_lt_Some.
  erewrite (bind_Ok _ _ _ _ _ (place_node_at_ok _ _ _ _)).
  Unshelve. 2: { simpl. by rewrite list_lookup_insert_eq. }
  eexists. split; [done|]. simpl nodes. rewrite list_insert_insert_eq.
  split.
  - constructor.
    + unfold stored_at. simpl. fold retag. rewrite list_lookup_insert_eq by done. rewrite anode_map_compose.
      rewrite (anode_map_ext (root_ref ∘ retag) root_ref) by (intros; apply root_ref_retag).
      repeat f_equal. lia.
    + intros d. rewrite achildren_map. intros (d' & -> & Hd')%list_elem_of_fmap.
      assert (rep s1 (retag d')) as Hrd.
      { assert (d' = c ∨ d' ∈ l1 ++ l2) as [->|Hdl] by (rewrite Hsplit in Hd'; set_solver);
          [by rewrite Erc|].
        rewrite retag_mem_ok by by apply Hsib. eapply rep_frame; [by apply Hrc|].
        intros j Hj. apply Hout1. intros Hj'. by eapply (ids_children_disjoint _ n l1 c d' l2 j). }
      eapply rep_frame; [exact Hrd|]. intros j Hj. simpl.
      apply list_lookup_insert_ne. intros ->. rewrite ids_retag in Hj.
      by eapply root_not_in_child.
  - split_and!; simpl; [by rewrite length_insert|done|done|].
    intros j Hj. rewrite list_lookup_insert_ne.
    + apply Hout1. intros Hj'. apply Hj. by eapply elem_ids_child.
    + intros ->. apply Hj. rewrite ids_eq. by left.
Qed.

(** * The descent *)

(** [s1] differs from [s] only at the slots [X] and at new slots. *)
Definition steps (X : list nat) (s s1 : state) : Prop :=
  (length (nodes s) ≤ length (nodes s1))%nat ∧
  (∀ j, (j < length (nodes s))%nat → j ∉ X → nodes s1 !! j = nodes s !! j) ∧
  values s1 = values s.

Definition fresh_from (s : state) (X Y : list nat) : Prop :=
  ∀ j, j ∈ Y → j ∈ X ∨ (length (nodes s) ≤ j)%nat.

(** Bound on the memory usage an insertion can add. *)
Definition slack (fuel : nat) (key value : list Z) : Z :=
  52 * Z.of_nat fuel + 102 + Z.of_nat (length key) + Z.of_nat (length value).

Record ins_pre (fuel : nat) (s : state) (t : ltree) (id : nat) (partial : slice) (value : list Z)
    : Prop := {
  pre_root : root_ref t = Updated id;
  pre_rep : rep s t;
  pre_nodup : NoDup (ids t);
  pre_mem : mem_ok t;
  pre_shape : shape (erase t);
  pre_slice : slice_ok partial;
  pre_fuel : (insert_need (erase t) (nibbles partial) ≤ fuel)%nat;
  pre_bound : mem t + slack fuel (nibbles partial) value <= umax 64;
  pre_room : rc_room s (S fuel)
}.

Record ins_post (s s' : state) (X : list nat) (value : list Z) (id : nat) (t' : ltree)
    (p : list nat) (e : tree () V) : Prop := {
  post_root : root_ref t' = Updated id;
  post_rep : rep s' t';
  post_nodup : NoDup (ids t');
  post_path : path_mem t' p;
  post_erase : erase t' = e;
  post_len : (length (nodes s) ≤ length (nodes s'))%nat;
  post_frame : ∀ j, (j < length (nodes s))%nat → j ∉ X → nodes s' !! j = nodes s !! j;
  post_fresh : fresh_from s X (ids t');
  post_values : values s' = values s ++ [Some value]
}.

(** The handle a value stored in [s] gets. *)
Definition new_handle (s : state) (value : list Z) : V :=
  InMemory (length (values s)) (length value).

Definition ins_ok (fuel : nat) (s : state) (t : ltree) (id : nat) (partial : slice)
    (value : list Z) (path : list nat) : Prop :=
  ∃ s' t' p,
    insert_loop storage fuel id partial (MemtrieAndDisk value) path s = Ok (path ++ p) s' ∧
    ins_post s s' (ids t) value id t' p
      (tinsert fuel (erase t) (nibbles partial) (new_handle s value)).

Lemma post_weaken s s1 s' X (t1 : ltree) value id t' p e :
  steps X s s1 → fresh_from s X (ids t1) →
  ins_post s1 s' (ids t1) value id t' p e → ins_post s s' X value id t' p e.
Proof.
  intros (Hl & Hf & Hv) Hfr [? ? ? ? ? Hl' Hf' Hfr' Hv']. constructor; try done.
  - lia.
  - intros j Hj HX. rewrite Hf'; [by apply Hf|lia|]. intros Hj1. apply Hfr in Hj1 as [?|?]; [done|lia].
  - intros j Hj. apply Hfr' in Hj as [Hj|Hj]; [by apply Hfr|right; lia].
  - congruence.
Qed.

(** Descending into one child and coming back. *)
Lemma post_step s s1 s' X id m n n' l1 (c c' : ltree) l2 cid p e value :
  steps X s s1 →
  nodes s1 !! id = Some (Some (mkWithSize (encode_anode (anode_map root_ref n)) m)) →
  achildren n = l1 ++ c :: l2 → achildren n' = l1 ++ c' :: l2 →
  anode_map root_ref n' = anode_map root_ref n →
  (∀ d, d ∈ l1 ++ l2 → rep s1 d ∧ mem_ok d) →
  NoDup (ids (T (Updated id, m) n)) →
  fresh_from s X (ids (T (Updated id, m) n)) →
  m = direct_cost vlen (encode_anode n) + sum_Z (mem <$> l1) + sum_Z (mem <$> l2) →
  ins_post s1 s' (ids c) value cid c' p e →
  ins_post s s' X value id (T (Updated id, m) n') (id :: p) (erase (T (Updated id, m) n')).
Proof.
  intros (Hl & Hf & Hv) Hcell Hn Hn' Hrefs Hsib Hnd Hfr Hm [Hroot Hrep Hnd' Hp He Hl' Hf' Hfr' Hv'].
  assert (id < length (nodes s1))%nat as Hlt by by eapply lookup_lt_Some.
  assert (Hc_in : c ∈ achildren n) by (rewrite Hn; set_solver).
  assert (id ∉ ids c) as Hidc by by eapply root_not_in_child.
  assert (∀ d j, d ∈ l1 ++ l2 → j ∈ ids d → j ∈ ids (T (Updated id, m) n)) as Hin.
  { intros d j Hd Hj. eapply elem_ids_child; [|done]. rewrite Hn. set_solver. }
  assert (∀ d j, d ∈ l1 ++ l2 → j ∈ ids d → (j < length (nodes s1))%nat) as Hsl.
  { intros d j Hd Hj. eapply rep_ids_lt; [|done]. by apply Hsib. }
  assert (∀ d j, d ∈ l1 ++ l2 → j ∈ ids d → j ∉ ids c) as Hdis.
  { intros d j Hd Hj Hj'. by eapply (ids_children_disjoint _ n l1 c d l2 j). }
  constructor; try done.
  - constructor.
    + unfold stored_at. simpl. rewrite Hf' by done. by rewrite Hrefs.
    + intros d. rewrite Hn'. intros Hd.
      assert (d = c' ∨ d ∈ l1 ++ l2) as [->|Hd'] by set_solver; [done|].
      eapply rep_frame; [by apply Hsib|]. intros j Hj. apply Hf'; eauto.
  - rewrite ids_eq, Hn', fmap_app, fmap_cons, join_app. simpl.
    rewrite ids_eq, Hn, fmap_app, fmap_cons, join_app in Hnd. simpl in Hnd.
    apply NoDup_cons in Hnd as [Hid Hnd]. apply NoDup_app in Hnd as (Hnd1 & Hd12 & Hnd2).
    apply NoDup_app in Hnd2 as (_ & Hc2 & Hnd2).
    assert (∀ (l : list ltree) j, j ∈ mjoin (ids <$> l) → ∃ d, d ∈ l ∧ j ∈ ids d) as Hjoin.
    { intros l j (Y & HY & Hmem)%list_elem_of_join. apply list_elem_of_fmap in Hmem as (d & -> & Hd). eauto. }
    assert (∀ j, j ∈ ids c' → ∀ d, d ∈ l1 ++ l2 → j ∉ ids d) as Hsep.
    { intros j Hj d Hd Hjd. apply Hfr' in Hj as [Hj|Hj]; [by eapply Hdis|].
      pose proof (Hsl d j Hd Hjd). lia. }
    apply NoDup_cons. split.
    { rewrite !elem_of_app. intros [Hj|[Hj|Hj]]; [apply Hid; set_solver| |apply Hid; set_solver].
      apply Hfr' in Hj as [?|?]; [done|lia]. }
    apply NoDup_app. split_and!; [done| |].
    { intros j Hj1. rewrite elem_of_app. intros [Hj|Hj].
      - apply Hjoin in Hj1 as (d & Hd & Hjd). eapply Hsep; [done| |done]. set_solver.
      - apply (Hd12 j Hj1). set_solver. }
    apply NoDup_app. split_and!; [done| |done].
    intros j Hj Hj2. apply Hjoin in Hj2 as (d & Hd & Hjd). eapply Hsep; [done| |done]. set_solver.
  - eapply PathStep; [done|done|intros d Hd; by apply Hsib|].
    rewrite mem_eq, Hn', fmap_app, fmap_cons, sum_Z_app. simpl.
    assert (direct_cost vlen (encode_anode n') = direct_cost vlen (encode_anode n)) as ->; [|lia].
    by rewrite <-(direct_cost_encode_map vlen root_ref n'), Hrefs, direct_cost_encode_map.
  - lia.
  - intros j Hj HX. rewrite Hf'; [by apply Hf|lia|]. intros Hj1.
    destruct (Hfr j) as [?|?]; [by eapply elem_ids_child|done|lia].
  - intros j. rewrite ids_eq, Hn', fmap_app, fmap_cons, join_app. simpl.
    rewrite elem_of_cons, !elem_of_app. intros [->|Hj].
    { apply Hfr. rewrite ids_eq. by left. }
    assert (∀ l : list ltree, (∀ d, d ∈ l → d ∈ l1 ++ l2) → j ∈ mjoin (ids <$> l) → j ∈ X ∨ (length (nodes s) ≤ j)%nat) as Hsub.
    { intros l Hsub (Y & HY & Hmem)%list_elem_of_join. apply list_elem_of_fmap in Hmem as (d & -> & Hd).
      apply Hfr. eapply Hin; [|done]. by apply Hsub. }
    destruct Hj as [Hj|[Hj|Hj]]; [eapply Hsub; [|done]; set_solver| |eapply Hsub; [|done]; set_solver].
    apply Hfr' in Hj as [Hj|Hj]; [|right; lia]. apply Hfr. by eapply elem_ids_child.
  - congruence.
Qed.

Lemma pre_facts fuel s id m n partial value :
  ins_pre fuel s (T (Updated id, m) n) id partial value →
  nodes s !! id = Some (Some (mkWithSize (encode_anode (anode_map root_ref n)) m)) ∧
  direct_cost vlen (encode_anode (anode_map root_ref n)) <= umax 64 ∧
  saturating_sub m (direct_cost vlen (encode_anode (anode_map root_ref n))) =
    sum_Z (mem <$> achildren n) ∧
  mem (T (Updated id, m) n) + slack fuel (nibbles partial) value <= umax 64 ∧
  0 <= sum_Z (mem <$> achildren n) ∧
  0 <= slack fuel (nibbles partial) value.
Proof.
  intros [_ Hrep _ Hmem _ _ _ Hb _]. inversion Hrep as [l n' Hst _]; subst.
  pose proof (mem_ok_label _ Hmem) as Hm. simpl in Hm. rewrite direct_cost_encode_map.
  pose proof (mem_direct_le vlen value_handle_len_nonneg (Updated id, m) n) as Hd.
  assert (0 <= slack fuel (nibbles partial) value) as Hs by (unfold slack; lia).
  rewrite mem_eq in *. split_and!; [done|lia| |lia|lia|done].
  unfold saturating_sub. lia.
Qed.

Lemma lookup_taken (s : state) id x :
  nodes s !! id = Some x → <[id := None]> (nodes s) !! id = Some None.
Proof. intros Hx. apply list_lookup_insert_eq. by eapply lookup_lt_Some. Qed.

Lemma place_direct_ok (s : state) id n :
  nodes s !! id = Some None → direct_cost vlen n <= umax 64 →
  place_direct id n s =
    Ok () (set_nodes (<[id := Some (mkWithSize n (direct_cost vlen n))]> (nodes s)) s).
Proof.
  intros Hn Hd. unfold place_direct. rewrite (bind_Ok _ _ _ _ _ (direct_ok _ _ Hd)).
  by apply place_node_at_ok.
Qed.

Lemma store_value_ok (s : state) value :
  store_value (MemtrieAndDisk value) s =
    Ok (new_handle s value) (mkUpdate (nodes s) (values s ++ [Some value]) (refcount_changes s)).
Proof. done. Qed.

Lemma cell_eq (ns : list (option (GenericTrieNodeWithSize (GenericNodeOrIndex H) V))) id n a b :
  a = b → <[id := Some (mkWithSize n a)]> ns = <[id := Some (mkWithSize n b)]> ns.
Proof. by intros ->. Qed.

(** Finishing at a node: only its cell changed. *)
Lemma ins_end s s' id m n n' value path :
  nodes s' = <[id := Some (mkWithSize (encode_anode (anode_map root_ref n'))
                            (mem (T (Updated id, m) n')))]> (nodes s) →
  values s' = values s ++ [Some value] →
  achildren n' = achildren n →
  rep s (T (Updated id, m) n) → NoDup (ids (T (Updated id, m) n)) →
  mem_ok (T (Updated id, m) n) →
  ∃ s1 t' p, (mret (path ++ [id]) : M state (StorageError H) (list nat)) s' = Ok (path ++ p) s1 ∧
    ins_post s s1 (ids (T (Updated id, m) n)) value id t' p (erase (T (Updated id, m) n')).
Proof.
  intros Hs' Hv Hch Hrep Hnd Hmem. set (m' := mem (T (Updated id, m) n')) in *.
  exists s', (T (Updated id, m') n'), [id]. split; [done|].
  assert (ids (T (Updated id, m') n') = ids (T (Updated id, m) n)) as Hids by (rewrite !ids_eq, Hch; done).
  assert (id < length (nodes s))%nat as Hlt by (eapply rep_ids_lt; [done|rewrite ids_eq; by left]).
  inversion Hrep as [? ? _ Hrc]; inversion Hmem as [? ? _ Hmc]; subst.
  constructor; try done.
  - constructor.
    + unfold stored_at. simpl. rewrite Hs', list_lookup_insert_eq by done. done.
    + rewrite Hch. intros c Hc. eapply rep_frame; [by apply Hrc|]. intros j Hj. rewrite Hs'.
      apply list_lookup_insert_ne. intros ->. by eapply root_not_in_child.
  - by rewrite Hids.
  - constructor. constructor; [done|by rewrite Hch].
  - by rewrite Hs', length_insert.
  - intros j Hj HX. rewrite Hs'. apply list_lookup_insert_ne. intros ->. apply HX. rewrite ids_eq. by left.
  - intros j Hj. left. by rewrite <-Hids.
Qed.

(** Where the descent continues: [plug] puts a subtree back at its place. *)
Record hole (plug : ltree → anode ltree V) (l1 l2 : list ltree) (mk : tree () V → tree () V) : Prop := {
  hole_children : ∀ c, achildren (plug c) = l1 ++ c :: l2;
  hole_refs : ∀ c c', root_ref c' = root_ref c →
    anode_map root_ref (plug c') = anode_map root_ref (plug c);
  hole_erase : ∀ l c, erase (T l (plug c)) = mk (erase c)
}.

Lemma ins_descend fuel s s1 X id m plug l1 l2 mk (c : ltree) cid partial value path :
  hole plug l1 l2 mk →
  steps X s s1 →
  nodes s1 !! id = Some (Some (mkWithSize (encode_anode (anode_map root_ref (plug c))) m)) →
  (∀ d, d ∈ l1 ++ l2 → rep s1 d ∧ mem_ok d) →
  NoDup (ids (T (Updated id, m) (plug c))) →
  fresh_from s X (ids (T (Updated id, m) (plug c))) →
  m = direct_cost vlen (encode_anode (plug c)) + sum_Z (mem <$> l1) + sum_Z (mem <$> l2) →
  ins_ok fuel s1 c cid partial value (path ++ [id]) → root_ref c = Updated cid →
  ∃ s' t' p,
    insert_loop storage fuel cid partial (MemtrieAndDisk value) (path ++ [id]) s1 = Ok (path ++ p) s' ∧
    ins_post s s' X value id t' p
      (mk (tinsert fuel (erase c) (nibbles partial) (new_handle s value))).
Proof.
  intros [Hch Hrefs He] Hst Hcell Hsib Hnd Hfr Hm (s' & c' & p & Hrun & Hpost) Hroot.
  exists s', (T (Updated id, m) (plug c')), (id :: p). split; [by rewrite Hrun, <-app_assoc|].
  replace (new_handle s value) with (new_handle s1 value)
    by (unfold new_handle; by destruct Hst as (_ & _ & ->)).
  rewrite <-(post_erase _ _ _ _ _ _ _ _ Hpost), <-(He (Updated id, m)).
  eapply post_step; try done. apply Hrefs. rewrite Hroot. by apply (post_root _ _ _ _ _ _ _ _ Hpost).
Qed.

Lemma hole_ext k : hole (AExt k) [] [] (λ c, T () (AExt k c)).
Proof. split; [done| |done]. simpl. by intros c c' ->. Qed.

Lemma omap_insert_split {A} (cs : list (option A)) i c :
  (i < length cs)%nat →
  omap id (<[i := Some c]> cs) = omap id (take i cs) ++ c :: omap id (drop (S i) cs).
Proof.
  intros Hi. rewrite insert_take_drop by done. by rewrite omap_app.
Qed.

Lemma hole_branch cs i ov :
  (i < length cs)%nat →
  hole (λ c, ABranch (<[i := Some c]> cs) ov) (omap id (take i cs)) (omap id (drop (S i) cs))
    (λ c, T () (ABranch (<[i := Some c]> (map (option_map erase) cs)) ov)).
Proof.
  intros Hi. split.
  - intros c. simpl. by apply omap_insert_split.
  - intros c c' Hr. simpl. change (map ?f ?l) with (f <$> l). rewrite !list_fmap_insert. simpl. by rewrite Hr.
  - intros l c. simpl. change (map ?f ?l) with (f <$> l). by rewrite list_fmap_insert.
Qed.

Ltac enter Hpre :=
  let Hcell := fresh "Hcell" in let Hd := fresh "Hd" in let Hsub := fresh "Hsub" in
  let Hb := fresh "Hb" in let Hs0 := fresh "Hs0" in let Hsl := fresh "Hsl" in
  destruct (pre_facts _ _ _ _ _ _ _ Hpre) as (Hcell & Hd & Hsub & Hb & Hs0 & Hsl);
  unfold ins_ok; cbn [insert_loop];
  rewrite (bind_Ok _ _ _ _ _ (take_node_ok _ _ _ Hcell)); cbn [node memory_usage];
  rewrite (bind_Ok _ _ _ _ _ (direct_ok _ _ Hd)); rewrite Hsub;
  cbn [encode_anode anode_map] in *.

Lemma insert_case_empty fuel s id m partial value path :
  ins_pre (S fuel) s (T (Updated id, m) AEmpty) id partial value →
  ins_ok (S fuel) s (T (Updated id, m) AEmpty) id partial value path.
Proof.
  intros Hpre. enter Hpre. destruct Hpre as [_ Hrep Hnd Hmem _ Hslice _ _ _].
  rewrite (bind_Ok _ _ _ _ _ (store_value_ok _ _)). simpl values.
  rewrite (bind_Ok _ _ _ _ _ (expect_ok _ _ _ (encoded_spec partial true Hslice))).
  assert (direct_cost vlen (Leaf (Ptr := GenericNodeOrIndex H) (hp_encode true (nibbles partial)) (new_handle s value)) <= umax 64) as Hd'.
  { simpl. rewrite length_hp_encode. rewrite mem_eq in Hb. simpl in Hb. unfold slack in Hb. lia_div. }
  erewrite (bind_Ok _ _ _ _ _ (place_direct_ok _ _ _ _ Hd')).
  Unshelve. 2: by eapply lookup_taken.
  eapply (ins_end s _ id m AEmpty (ALeaf (nibbles partial) (new_handle s value))); try done.
  simpl. rewrite list_insert_insert_eq, mem_eq. simpl. apply cell_eq. lia.
Qed.

Lemma insert_case_branch_end fuel s id m cs ov partial value path :
  nibbles partial = [] →
  ins_pre (S fuel) s (T (Updated id, m) (ABranch cs ov)) id partial value →
  ins_ok (S fuel) s (T (Updated id, m) (ABranch cs ov)) id partial value path.
Proof.
  intros Hnil Hpre. enter Hpre. destruct Hpre as [_ Hrep Hnd Hmem _ Hslice _ _ Hroom].
  rewrite (bind_Ok _ _ _ _ _ (expect_ok _ _ _ (is_empty_spec partial Hslice))).
  rewrite bool_decide_true by done. rewrite Hnil.
  set (s1 := set_nodes (<[id := None]> (nodes s)) s).
  assert (∃ rc, (match ov with Some v => delete_value v | None => mret () end) s1 =
    Ok () (mkUpdate (nodes s1) (values s1) rc)) as [rc Hdel].
  { destruct ov as [v|]; [|by exists (refcount_changes s1); destruct s].
    destruct (delete_value_ok storage s1 v (S fuel)) as (rc & Hrc & _); [by eapply rc_room_same|]. eauto. }
  rewrite (bind_Ok _ _ _ _ _ Hdel), (bind_Ok _ _ _ _ _ (store_value_ok _ _)). simpl values.
  set (n' := ABranch cs (Some (new_handle s value))).
  assert (direct_cost vlen (encode_anode (anode_map root_ref n')) + sum_Z (mem <$> achildren n') <= umax 64) as Hle.
  { rewrite direct_cost_encode_map. rewrite mem_eq in Hb. simpl in *. unfold slack in Hb.
    destruct ov as [v|]; [pose proof (value_handle_len_nonneg v)|]; lia. }
  erewrite (bind_Ok _ _ _ _ _ (direct_ok _ _ _)), (bind_Ok _ _ _ _ _ (add_u64_ok _ _ _ _)).
  Unshelve. 2: { simpl in *; lia. } 2: { simpl in *; lia. }
  erewrite (bind_Ok _ _ _ _ _ (place_node_at_ok _ _ _ _)).
  Unshelve. 2: by eapply lookup_taken.
  eapply (ins_end s _ id m (ABranch cs ov) n'); try done.
  simpl. rewrite list_insert_insert_eq, mem_eq. simpl. apply cell_eq. lia.
Qed.

(** A node's cell rewritten around a subtree made of old slots of that place and new ones. *)
Lemma hole_fresh s s1 id m m' n plug l1 oc l2 mk (c1 : ltree) cell :
  hole plug l1 l2 mk → achildren n = l1 ++ oc ++ l2 →
  rep s (T (Updated id, m) n) → NoDup (ids (T (Updated id, m) n)) → mem_ok (T (Updated id, m) n) →
  extends (set_nodes (<[id := None]> (nodes s)) s) s1 →
  rep s1 c1 → NoDup (ids c1) → fresh_from s (mjoin (ids <$> oc)) (ids c1) →
  let s2 := set_nodes (<[id := Some cell]> (nodes s1)) s1 in
  steps (ids (T (Updated id, m) n)) s s2 ∧ nodes s2 !! id = Some (Some cell) ∧
  (∀ d, d ∈ l1 ++ l2 → rep s2 d ∧ mem_ok d) ∧
  NoDup (ids (T (Updated id, m') (plug c1))) ∧
  fresh_from s (ids (T (Updated id, m) n)) (ids (T (Updated id, m') (plug c1))) ∧ rep s2 c1.
Proof.
  intros [Hch _ _] Hn Hrep Hnd Hmem [Hpre Hv] Hrep1 Hnd1 Hfr s2. simpl in Hpre.
  assert (id < length (nodes s))%nat as Hlt by (eapply rep_ids_lt; [done|rewrite ids_eq; by left]).
  assert (Hlen := prefix_length _ _ Hpre). rewrite length_insert in Hlen.
  assert (Hold : ∀ j, (j < length (nodes s))%nat → j ≠ id → nodes s2 !! j = nodes s !! j).
  { intros j Hj Hne. simpl. rewrite list_lookup_insert_ne by done.
    destruct (lookup_lt_is_Some_2 (nodes s) j Hj) as [x Hx]. rewrite Hx.
    eapply prefix_lookup_Some; [|done]. by rewrite list_lookup_insert_ne. }
  assert (Hids : ids (T (Updated id, m) n) =
    id :: mjoin (ids <$> l1) ++ mjoin (ids <$> oc) ++ mjoin (ids <$> l2)).
  { rewrite ids_eq, Hn, !fmap_app, !join_app. done. }
  assert (Hids' : ids (T (Updated id, m') (plug c1)) =
    id :: mjoin (ids <$> l1) ++ ids c1 ++ mjoin (ids <$> l2)).
  { rewrite ids_eq, Hch, !fmap_app, !join_app. done. }
  assert (Hall : ∀ j, j ∈ ids (T (Updated id, m) n) → (j < length (nodes s))%nat)
    by (intros j; by eapply rep_ids_lt).
  rewrite Hids in *. clear Hids. rewrite Hids' in *. clear Hids'.
  apply NoDup_cons in Hnd as [Hid Hnd].
  apply NoDup_app in Hnd as (Hnd_l & Hd1 & (Hnd_o & Hd2 & Hnd_r)%NoDup_app).
  assert (Hidc : id ∉ ids c1).
  { intros Hj. apply Hfr in Hj as [Hj|Hj]; [|lia]. apply Hid. set_solver. }
  assert (Hsep : ∀ j, j ∈ ids c1 → j ∈ mjoin (ids <$> l1) ∨ j ∈ mjoin (ids <$> l2) → False).
  { intros j Hj Hj'. apply Hfr in Hj as [Hj|Hj].
    - destruct Hj' as [Hj'|Hj']; [apply (Hd1 j Hj'); set_solver|by apply (Hd2 j Hj)].
    - assert (j < length (nodes s))%nat; [|lia]. apply Hall. set_solver. }
  split_and!.
  - split_and!; [simpl; rewrite length_insert; lia| |done].
    intros j Hj HX. apply Hold; [done|]. intros ->. apply HX. set_solver.
  - simpl. apply list_lookup_insert_eq. lia.
  - intros d Hd. inversion Hrep as [? ? _ Hrc]; inversion Hmem as [? ? _ Hmc]; subst.
    assert (Hdn : d ∈ achildren n) by (rewrite Hn; set_solver). split; [|by apply Hmc].
    eapply rep_frame; [by apply Hrc|]. intros j Hj.
    assert (Hjl : j ∈ mjoin (ids <$> l1) ++ mjoin (ids <$> l2)).
    { rewrite <-join_app, <-fmap_app. apply list_elem_of_join. exists (ids d).
      split; [done|by apply list_elem_of_fmap_2]. }
    apply Hold; [apply Hall; set_solver|]. intros ->. apply Hid. set_solver.
  - apply NoDup_cons. split; [set_solver|]. apply NoDup_app. split_and!; [done|set_solver|].
    apply NoDup_app. split_and!; [done|set_solver|done].
  - intros j. rewrite elem_of_cons, !elem_of_app. intros [->|[Hj|[Hj|Hj]]]; [left; set_solver..| |left; set_solver].
    apply Hfr in Hj as [?|?]; [left; set_solver|by right].
  - eapply rep_frame; [done|]. intros j Hj. simpl. apply list_lookup_insert_ne. by intros ->.
Qed.

(** The induction hypothesis of the loop. *)
Definition loop_ok (fuel : nat) : Prop :=
  ∀ s t id partial value path,
    ins_pre fuel s t id partial value → ins_ok fuel s t id partial value path.

(** A subtree ready for the next iteration in [s1], made from the subtrees [oc] of [s]. *)
Record ready (fuel : nat) (s s1 : state) (id : nat) (oc : list ltree) (c1 : ltree)  : Prop := {
  ready_ext : extends (set_nodes (<[id := None]> (nodes s)) s) s1;
  ready_rep : rep s1 c1;
  ready_nodup : NoDup (ids c1);
  ready_fresh : fresh_from s (mjoin (ids <$> oc)) (ids c1);
  ready_mem : mem_ok c1;
  ready_shape : shape (erase c1);
  ready_room : rc_room s1 (S fuel)
}.

Lemma ins_down fuel s s1 id m n plug l1 oc l2 mk (c1 : ltree) cid m' partial partial' value path :
  loop_ok fuel → hole plug l1 l2 mk → achildren n = l1 ++ oc ++ l2 →
  ins_pre (S fuel) s (T (Updated id, m) n) id partial value →
  ready fuel s s1 id oc c1 → root_ref c1 = Updated cid →
  m' = direct_cost vlen (encode_anode (plug c1)) + sum_Z (mem <$> l1) + sum_Z (mem <$> l2) →
  slice_ok partial' → (insert_need (erase c1) (nibbles partial') ≤ fuel)%nat →
  mem c1 + slack fuel (nibbles partial') value <= umax 64 →
  ∃ s' t' p,
    insert_loop storage fuel cid partial' (MemtrieAndDisk value) (path ++ [id])
      (set_nodes (<[id := Some (mkWithSize (encode_anode (anode_map root_ref (plug c1))) m')]>
                    (nodes s1)) s1) = Ok (path ++ p) s' ∧
    ins_post s s' (ids (T (Updated id, m) n)) value id t' p
      (mk (tinsert fuel (erase c1) (nibbles partial') (new_handle s value))).
Proof.
  intros IH Hh Hn [_ Hrep Hnd Hmem _ _ _ _ _] [Hext Hrep1 Hnd1 Hfr Hmem1 Hsh1 Hroom] Hroot Hm' Hsl Hneed Hb.
  destruct (hole_fresh s s1 id m m' n plug l1 oc l2 mk c1
    (mkWithSize (encode_anode (anode_map root_ref (plug c1))) m') Hh Hn Hrep Hnd Hmem Hext Hrep1 Hnd1 Hfr)
    as (Hst & Hcell & Hsib & Hnd2 & Hfr2 & Hrep2).
  eapply ins_descend; try done. by apply IH.
Qed.

(** Rewriting the node itself, [path.pop()], and going on. *)
Lemma ins_again fuel s s1 id m n plug l1 oc l2 mk (c1 : ltree) m' partial value path :
  loop_ok fuel → hole plug l1 l2 mk → achildren n = l1 ++ oc ++ l2 →
  ins_pre (S fuel) s (T (Updated id, m) n) id partial value →
  ready fuel s s1 id oc c1 →
  m' = mem (T (Updated id, m') (plug c1)) →
  shape (mk (erase c1)) → (insert_need (mk (erase c1)) (nibbles partial) ≤ fuel)%nat →
  m' + slack fuel (nibbles partial) value <= umax 64 →
  ∃ s' t' p,
    insert_loop storage fuel id partial (MemtrieAndDisk value) path
      (set_nodes (<[id := Some (mkWithSize (encode_anode (anode_map root_ref (plug c1))) m')]>
                    (nodes s1)) s1) = Ok (path ++ p) s' ∧
    ins_post s s' (ids (T (Updated id, m) n)) value id t' p
      (tinsert fuel (mk (erase c1)) (nibbles partial) (new_handle s value)).
Proof.
  intros IH Hh Hn [_ Hrep Hnd Hmem _ Hsl _ _ _] [Hext Hrep1 Hnd1 Hfr Hmem1 Hsh1 Hroom] Hm' Hsh Hneed Hb.
  destruct (hole_fresh s s1 id m m' n plug l1 oc l2 mk c1
    (mkWithSize (encode_anode (anode_map root_ref (plug c1))) m') Hh Hn Hrep Hnd Hmem Hext Hrep1 Hnd1 Hfr)
    as (Hst & Hcell & Hsib & Hnd2 & Hfr2 & Hrep2).
  set (s2 := set_nodes _ s1) in *. set (t2 := T (Updated id, m') (plug c1)) in *.
  destruct Hh as [Hch Hrefs He]. rewrite <-(He (Updated id, m')) in *.
  assert (∀ d, d ∈ achildren (plug c1) → d = c1 ∨ d ∈ l1 ++ l2) as Hd by (rewrite Hch; set_solver).
  destruct (IH s2 t2 id partial value path) as (s' & t' & p & Hrun & Hpost).
  { constructor; try done.
    - constructor; [done|]. intros d [->|?]%Hd; [done|by apply Hsib].
    - constructor; [done|]. intros d [->|?]%Hd; [done|by apply Hsib].
    - by rewrite <-Hm'. }
  exists s', t', p. split; [done|].
  replace (new_handle s value) with (new_handle s2 value) by (unfold new_handle; by destruct Hst as (_ & _ & ->)).
  eapply post_weaken; [exact Hst|exact Hfr2|done].
Qed.

Lemma taken_room fuel s t id partial value ns :
  ins_pre fuel s t id partial value → rc_room (set_nodes ns s) (S fuel).
Proof. intros Hpre. eapply rc_room_same, (pre_room _ _ _ _ _ _ Hpre). done. Qed.

Lemma pre_child fuel s id m n partial value (c : ltree) :
  ins_pre fuel s (T (Updated id, m) n) id partial value → c ∈ achildren n →
  rep (set_nodes (<[id := None]> (nodes s)) s) c ∧ NoDup (ids c) ∧ mem_ok c ∧ shape (erase c).
Proof.
  intros [_ Hrep Hnd Hmem Hsh _ _ _ _] Hc.
  inversion Hrep as [? ? _ Hrc]; inversion Hmem as [? ? _ Hmc]; inversion Hsh as [? _ Hsc]; subst.
  split_and!; [|by eapply NoDup_ids_child|by apply Hmc|].
  - eapply rep_frame; [by apply Hrc|]. intros j Hj. simpl. apply list_lookup_insert_ne. intros ->.
    by eapply root_not_in_child.
  - apply Hsc. rewrite achildren_map. by apply list_elem_of_fmap_2.
Qed.

Lemma ready_same fuel s id m n partial value (c : ltree) :
  ins_pre (S fuel) s (T (Updated id, m) n) id partial value → c ∈ achildren n →
  ready fuel s (set_nodes (<[id := None]> (nodes s)) s) id [c] c.
Proof.
  intros Hpre Hc. destruct (pre_child _ _ _ _ _ _ _ _ Hpre Hc) as (? & ? & ? & ?).
  constructor; try done.
  - intros j Hj. left. set_solver.
  - eapply (rc_room_weaken storage); [by eapply taken_room|lia].
Qed.

Lemma ready_updated fuel s id m n partial value (c : ltree) :
  ins_pre (S fuel) s (T (Updated id, m) n) id partial value → c ∈ achildren n →
  ∃ s1 cid c1, ensure_updated storage (root_ref c) (set_nodes (<[id := None]> (nodes s)) s) = Ok cid s1 ∧
    ready fuel s s1 id [c] c1 ∧ root_ref c1 = Updated cid ∧ erase c1 = erase c ∧ mem c1 = mem c.
Proof.
  intros Hpre Hc. destruct (pre_child _ _ _ _ _ _ _ _ Hpre Hc) as (Hr & Hnd & Hm & Hsh).
  destruct (ensure_updated_ok storage _ c (S fuel) Hr Hnd) as (s1 & cid & nc & mc & Hrun & Ec & Hext & Hr1 & Hnd1 & Hfr & Hroom).
  { by eapply taken_room. }
  exists s1, cid, (T (Updated cid, mc) nc).
  assert (He : erase (T (Updated cid, mc) nc) = erase c) by by rewrite Ec.
  assert (Hmm : mem (T (Updated cid, mc) nc) = mem c) by by rewrite Ec, !mem_eq.
  split_and!; try done. constructor; try done.
  - intros j Hj. apply Hfr in Hj as [Hj|Hj]; [left; set_solver|right]. simpl in Hj. by rewrite length_insert in Hj.
  - rewrite Ec in Hm. inversion Hm as [? ? Hml Hmc]; subst. constructor; [|done].
    simpl in *. by rewrite Hml, !mem_eq.
  - by rewrite He.
Qed.

(** A new node over subtrees of the old one. *)
Lemma ready_new fuel s id m n partial value n1 m1 :
  ins_pre (S fuel) s (T (Updated id, m) n) id partial value →
  achildren n1 = [] ∨ (∃ c, achildren n1 = [c] ∧ achildren n = [c]) →
  m1 = mem (T (Updated (length (nodes s)), m1) n1) →
  shape (erase (T (Updated (length (nodes s)), m1) n1)) →
  let s0 := set_nodes (<[id := None]> (nodes s)) s in
  place_node (mkWithSize (encode_anode (anode_map root_ref n1)) m1) s0 =
    Ok (length (nodes s)) (set_nodes (nodes s0 ++ [Some (mkWithSize (encode_anode (anode_map root_ref n1)) m1)]) s) ∧
  ready fuel s
    (set_nodes (nodes s0 ++ [Some (mkWithSize (encode_anode (anode_map root_ref n1)) m1)]) s)
    id (achildren n1) (T (Updated (length (nodes s)), m1) n1).
Proof.
  intros Hpre Hch Hm1 Hsh1 s0. rewrite place_node_ok. simpl. rewrite length_insert. split; [done|].
  assert (∀ c, c ∈ achildren n1 → c ∈ achildren n) as Hsub.
  { destruct Hch as [->|(c & -> & ->)]; [|done]. by intros ? ?%not_elem_of_nil. }
  set (s1 := set_nodes _ s) at 1. assert (extends s0 s1) as Hext by (split; [by apply prefix_app_r|done]).
  constructor; try done.
  - constructor.
    + unfold stored_at. simpl. rewrite lookup_app_r by (rewrite length_insert; lia).
      by rewrite length_insert, Nat.sub_diag.
    + intros c Hc%Hsub. eapply extends_rep; [exact Hext|]. by eapply pre_child.
  - rewrite ids_eq. simpl. apply NoDup_cons. split.
    + intros (X & Hj & HX)%list_elem_of_join. apply list_elem_of_fmap in HX as (c & -> & Hc%Hsub).
      destruct (pre_child _ _ _ _ _ _ _ _ Hpre Hc) as (Hr & _).
      pose proof (rep_ids_lt _ _ _ _ Hr Hj) as Hlt. simpl in Hlt. rewrite length_insert in Hlt. lia.
    + destruct Hch as [->|(c & -> & Hc)]; [constructor|]. simpl. rewrite app_nil_r.
      eapply pre_child; [done|]. rewrite Hc. set_solver.
  - intros j. rewrite ids_eq. simpl. intros [->|Hj]%elem_of_cons; [right; lia|by left].
  - constructor; [done|]. intros c Hc%Hsub. by eapply pre_child.
  - eapply (rc_room_weaken storage); [by eapply taken_room|lia].
Qed.

(** The child to descend into, made mutable or created. *)
Lemma ready_branch_child fuel s id m cs ov partial value i o :
  ins_pre (S fuel) s (T (Updated id, m) (ABranch cs ov)) id partial value → cs !! i = Some o →
  ∃ s1 cid c1,
    (match option_map root_ref o with
     | Some r => ensure_updated storage r
     | None => place_node empty_with_size
     end) (set_nodes (<[id := None]> (nodes s)) s) = Ok cid s1 ∧
    ready fuel s s1 id (option_list o) c1 ∧ root_ref c1 = Updated cid ∧
    erase c1 = default tempty (option_map erase o) ∧
    mem c1 = match o with Some c => mem c | None => 0 end.
Proof.
  intros Hpre Ho. destruct o as [c|]; simpl.
  - apply (ready_updated _ _ _ m (ABranch cs ov) partial value); [done|]. simpl. by eapply child_elem.
  - edestruct (ready_new fuel s id m (ABranch cs ov) partial value AEmpty 0 Hpre) as [Hrun Hready];
      [by left|done|by constructor; [|intros ? ?%not_elem_of_nil]|].
    eexists _, _, _. split; [exact Hrun|]. split_and!; [exact Hready|done..].
Qed.

Lemma omap_lookup_split {A} (cs : list (option A)) i o :
  cs !! i = Some o → omap id cs = omap id (take i cs) ++ option_list o ++ omap id (drop (S i) cs).
Proof.
  intros Hi. rewrite <-(take_drop_middle cs i o Hi) at 1. rewrite omap_app. by destruct o.
Qed.

Lemma sum_mem_nonneg (l : list ltree) : 0 <= sum_Z (mem <$> l).
Proof.
  apply sum_Z_nonneg, Forall_fmap, Forall_forall. intros c _. apply mem_nonneg, value_handle_len_nonneg.
Qed.

Lemma ready_cell fuel s s1 id oc (c1 : ltree) cid :
  ready fuel s s1 id oc c1 → root_ref c1 = Updated cid →
  ∃ nc, nodes s1 !! cid = Some (Some (mkWithSize nc (mem c1))).
Proof.
  intros [_ Hr _ _ Hm _ _] Hroot. apply mem_ok_label in Hm. destruct c1 as [[r mc1] nc1].
  unfold root_ref in Hroot. simpl in *. subst r. inversion Hr as [? ? Hst _]; subst.
  rewrite <-Hm. eexists. exact Hst.
Qed.

Lemma ready_taken fuel s s1 id oc (c1 : ltree) x :
  ready fuel s s1 id oc c1 → nodes s !! id = Some x → nodes s1 !! id = Some None.
Proof. intros [Hext _ _ _ _ _ _] Hx. eapply extends_lookup; [done|]. by eapply lookup_taken. Qed.

Lemma calc_store_ok (s : state) id a n cid nc mc :
  nodes s !! cid = Some (Some (mkWithSize nc mc)) → nodes s !! id = Some None →
  direct_cost vlen n + a <= umax 64 → 0 <= mc <= a →
  calc_memory_usage_and_store id a n (Some cid) s =
    Ok () (set_nodes (<[id := Some (mkWithSize n (a + direct_cost vlen n - mc))]> (nodes s)) s).
Proof.
  intros Hc Hid Ha Hmc. unfold calc_memory_usage_and_store.
  pose proof (direct_cost_nonneg vlen n value_handle_len_nonneg).
  erewrite (bind_Ok _ _ _ _ _ (direct_ok _ _ _)). Unshelve. 2: lia.
  assert ((x ← get_node_ref cid; mret (memory_usage x)) s = Ok (E := StorageError H) mc s) as Hget.
  { by rewrite (bind_Ok _ _ _ _ _ (get_node_ref_ok _ _ _ Hc)). }
  rewrite (bind_Ok _ _ _ _ _ Hget), (place_node_at_ok _ _ _ Hid). repeat f_equal.
  unfold saturating_sub, saturating_add. lia.
Qed.

Lemma insert_case_branch_down fuel s id m cs ov partial value path x key :
  loop_ok fuel → nibbles partial = x :: key →
  ins_pre (S fuel) s (T (Updated id, m) (ABranch cs ov)) id partial value →
  ins_ok (S fuel) s (T (Updated id, m) (ABranch cs ov)) id partial value path.
Proof.
  intros IH Hkey Hpre. enter Hpre.
  assert (Hslice := pre_slice _ _ _ _ _ _ Hpre). assert (Hsh := pre_shape _ _ _ _ _ _ Hpre).
  assert (Hfuel := pre_fuel _ _ _ _ _ _ Hpre).
  rewrite (bind_Ok _ _ _ _ _ (expect_ok _ _ _ (is_empty_spec partial Hslice))).
  rewrite bool_decide_false by (by rewrite Hkey).
  assert (at_ partial 0 = Some x) as Hat by (rewrite at_spec, Hkey; done).
  rewrite (bind_Ok _ _ _ _ _ (expect_ok _ _ _ Hat)).
  assert (nibble_ok x) as Hx by (pose proof (nibbles_ok partial) as Hok; rewrite Hkey in Hok; by inversion Hok).
  assert (length cs = NUM_CHILDREN) as Hlen.
  { inversion Hsh as [? Hn _]; subst. simpl in Hn. by rewrite length_map in Hn. }
  set (i := Z.to_nat x) in *. assert (i < length cs)%nat as Hi by (rewrite Hlen; by apply nibble_lt).
  destruct (lookup_lt_is_Some_2 cs i Hi) as [o Ho].
  assert (map (option_map root_ref) cs !! i = Some (option_map root_ref o)) as Ho'.
  { change (map ?f ?l) with (f <$> l). by rewrite list_lookup_fmap, Ho. }
  rewrite (bind_Ok _ _ _ _ _ (expect_ok _ _ _ Ho')).
  destruct (ready_branch_child _ _ _ _ _ _ _ _ _ _ Hpre Ho) as (s1 & cid & c1 & Hrun & Hready & Hroot & Her & Hmc).
  rewrite (bind_Ok _ _ _ _ _ Hrun).
  assert (Hsum := omap_lookup_split cs i o Ho). assert (Hc0 := mem_nonneg vlen value_handle_len_nonneg c1).
  set (l1 := omap Datatypes.id (take i cs)) in *. set (l2 := omap Datatypes.id (drop (S i) cs)) in *.
  assert (sum_Z (mem <$> achildren (ABranch cs ov)) = sum_Z (mem <$> l1) + mem c1 + sum_Z (mem <$> l2)) as Hsm.
  { simpl. rewrite Hsum, !fmap_app, !sum_Z_app, Hmc. destruct o; simpl; lia. }
  assert (Hl1 := sum_mem_nonneg l1). assert (Hl2 := sum_mem_nonneg l2).
  assert (Hh := hole_branch cs i ov Hi). fold l1 l2 in Hh.
  set (plug := λ c, ABranch (<[i := Some c]> cs) ov) in *.
  assert (<[i := Some (Updated cid)]> (map (option_map root_ref) cs) = map (option_map root_ref) (<[i := Some c1]> cs)) as ->.
  { change (map ?f ?l) with (f <$> l). rewrite list_fmap_insert. simpl. by rewrite Hroot. }
  change (Branch (map (option_map root_ref) (<[i := Some c1]> cs)) ov) with (encode_anode (anode_map root_ref (plug c1))).
  set (d := direct_cost vlen (encode_anode (plug c1))).
  assert (direct_cost vlen (encode_anode (anode_map root_ref (plug c1))) = d) as Hd1 by apply direct_cost_encode_map.
  assert (mem (T (Updated id, m) (ABranch cs ov)) = d + (sum_Z (mem <$> l1) + mem c1 + sum_Z (mem <$> l2))) as Htot.
  { rewrite mem_eq, Hsm. done. }
  assert (0 <= d) as Hd0 by apply (direct_cost_nonneg vlen _ value_handle_len_nonneg).
  destruct (ready_cell _ _ _ _ _ _ _ Hready Hroot) as [nc Hnc].
  erewrite (bind_Ok _ _ _ _ _ (calc_store_ok _ _ _ _ _ _ _ Hnc _ _ _)).
  Unshelve. 2: by eapply ready_taken. 2: { rewrite Hd1. lia. } 2: { rewrite Hsm in *. lia. }
  destruct (ins_down fuel s s1 id m (ABranch cs ov) plug l1 (option_list o) l2 _ c1 cid
    (d + sum_Z (mem <$> l1) + sum_Z (mem <$> l2)) partial (mid partial 1) value path IH Hh Hsum Hpre Hready Hroot)
    as (s' & t' & p & Hloop & Hpost).
  { done. }
  { apply slice_ok_mid; [done|]. rewrite Hkey. simpl. lia. }
  { rewrite nibbles_mid, Hkey, need_branch in * by done. simpl in *. pose proof (need_child (erase c1) (drop 0 key)). rewrite drop_0 in *. lia. }
  { rewrite nibbles_mid, Hkey in *. unfold slack in *. simpl length in *. rewrite drop_0. lia. }
  exists s', t', p. split.
  { rewrite <-Hloop. do 2 f_equal. apply cell_eq. rewrite Hd1. lia. }
  rewrite nibbles_mid, Hkey, Her in Hpost. rewrite Hkey. simpl in Hpost. rewrite drop_0 in Hpost.
  cbn [tinsert erase top anode_map]. unfold child_at. fold i.
  change (map ?f ?l) with (f <$> l) in *. rewrite list_lookup_fmap, Ho. done.
Qed.

Ltac run_expect H := rewrite (bind_Ok _ _ _ _ _ (expect_ok _ _ _ H)); cbv beta iota.

Lemma insert_case_leaf_equal fuel s id m k ov partial value path :
  nibbles partial = k →
  ins_pre (S fuel) s (T (Updated id, m) (ALeaf k ov)) id partial value →
  ins_ok (S fuel) s (T (Updated id, m) (ALeaf k ov)) id partial value path.
Proof.
  intros Hkey Hpre. enter Hpre. assert (Hroom := taken_room _ _ _ _ _ _ (<[id := None]> (nodes s)) Hpre).
  destruct Hpre as [_ Hrep Hnd Hmem Hsh Hslice _ _ _].
  destruct (from_encoded_hp_encode true k) as (ek & Hek & Hekok & Hekn).
  { rewrite <-Hkey. apply nibbles_ok. }
  run_expect Hek. run_expect (common_prefix_spec partial ek Hslice Hekok).
  run_expect (len_spec ek Hekok). run_expect (len_spec partial Hslice).
  rewrite Hekn, Hkey, common_prefix_len_refl, !bool_decide_true by done. cbn [andb].
  destruct (delete_value_ok storage _ ov _ Hroom) as (rc & Hdel & _).
  rewrite (bind_Ok _ _ _ _ _ Hdel), (bind_Ok _ _ _ _ _ (store_value_ok _ _)). cbn [values].
  erewrite (bind_Ok _ _ _ _ _ (place_direct_ok _ _ _ _ _)).
  Unshelve. 2: by eapply lookup_taken.
  2: { pose proof (value_handle_len_nonneg ov). rewrite mem_eq in Hb. unfold slack in Hb. simpl in *. lia. }
  cbn [tinsert erase top anode_map]. rewrite common_prefix_len_refl, !bool_decide_true by done. cbn [andb].
  eapply (ins_end s _ id m (ALeaf k ov) (ALeaf k (new_handle s value))); try done.
  simpl. rewrite list_insert_insert_eq, mem_eq. apply cell_eq. simpl. lia.
Qed.

Lemma shape_leaf k (v : V) : nkey k → shape (T () (ALeaf k v)).
Proof. intros Hk. constructor; [done|]. simpl. by intros ? ?%not_elem_of_nil. Qed.

Lemma insert_case_leaf_split fuel s id m k ov partial value path :
  loop_ok fuel →
  (bool_decide (common_prefix_len (nibbles partial) k = length k) &&
    bool_decide (common_prefix_len (nibbles partial) k = length (nibbles partial)) = false) →
  common_prefix_len (nibbles partial) k ≠ 0%nat →
  ins_pre (S fuel) s (T (Updated id, m) (ALeaf k ov)) id partial value →
  ins_ok (S fuel) s (T (Updated id, m) (ALeaf k ov)) id partial value path.
Proof.
  intros IH Hneq Hc Hpre. enter Hpre.
  assert (Hslice := pre_slice _ _ _ _ _ _ Hpre). assert (Hfuel := pre_fuel _ _ _ _ _ _ Hpre).
  assert (nkey k) as Hk by (assert (Hsh := pre_shape _ _ _ _ _ _ Hpre); by inversion Hsh).
  destruct (from_encoded_hp_encode true k Hk) as (ek & Hek & Hekok & Hekn).
  run_expect Hek. run_expect (common_prefix_spec partial ek Hslice Hekok).
  run_expect (len_spec ek Hekok). run_expect (len_spec partial Hslice).
  rewrite Hekn, Hneq. cbn [tinsert erase top anode_map]. rewrite Hneq.
  rewrite !(bool_decide_false _ Hc). set (n := common_prefix_len (nibbles partial) k) in *.
  assert (n ≤ length (nibbles partial))%nat as Hnp by apply common_prefix_len_le_l.
  assert (n ≤ length k)%nat as Hnk by apply common_prefix_len_le_r.
  assert (slice_ok (mid ek n)) as Hmid by (apply slice_ok_mid; [done|by rewrite Hekn]).
  run_expect (encoded_spec (mid ek n) true Hmid). rewrite nibbles_mid, Hekn.
  rewrite mem_eq in Hb. simpl direct_cost in *. rewrite length_hp_encode in *. simpl in Hb.
  assert (Hslk : slack (S fuel) (nibbles partial) value = slack fuel (nibbles partial) value + 52)
    by (unfold slack; lia).
  set (n1 := ALeaf (A := ltree) (drop n k) ov). set (m1 := mem (T (Updated 0%nat, 0) n1)).
  assert (m1 = 50 + Z.of_nat (length (drop n k) / 2 + 1) * 2 + (vlen ov + 50)) as Hm1.
  { unfold m1. rewrite mem_eq. simpl. rewrite length_hp_encode. lia. }
  rewrite length_drop in Hm1.
  erewrite (bind_Ok _ _ _ _ _ (direct_ok _ _ _)).
  Unshelve. 2: { simpl. rewrite length_hp_encode, length_drop. lia_div. }
  replace (direct_cost vlen (Leaf (hp_encode true (drop n k)) ov)) with m1
    by (rewrite Hm1; simpl; rewrite length_hp_encode, length_drop; lia).
  edestruct (ready_new fuel s id m (ALeaf k ov) partial value n1 m1 Hpre) as [Hrun Hready];
    [by left|done|by apply shape_leaf, nkey_drop|].
  rewrite (bind_Ok _ _ _ _ _ Hrun). run_expect (encoded_leftmost_spec partial n false Hslice).
  erewrite (bind_Ok _ _ _ _ _ (place_direct_ok _ _ _ _ _)).
  Unshelve. 2: by eapply ready_taken.
  2: { pose proof (value_handle_len_nonneg ov). unfold slack in *. simpl.
       rewrite length_hp_encode, length_take. lia_div. }
  edestruct (ins_down fuel s _ id m (ALeaf k ov) (AExt (take n (nibbles partial))) [] [] [] _ _ (length (nodes s))
    _ partial (mid partial n) value path IH (hole_ext _) eq_refl Hpre Hready eq_refl eq_refl)
    as (s' & t' & p & Hloop & Hpost).
  { by apply slice_ok_mid. }
  { rewrite nibbles_mid. eapply need_drop; [|done|]; done. }
  { change (mem _) with m1. rewrite nibbles_mid. unfold slack in *. rewrite length_drop. lia_div. }
  exists s', t', p. split.
  { rewrite <-Hloop. do 2 f_equal. apply cell_eq. simpl. lia. }
  by rewrite nibbles_mid in Hpost.
Qed.

(** The node itself replaced by one without children. *)
Lemma ins_again_flat fuel s id m n n' m' partial value path :
  loop_ok fuel → achildren n = [] → achildren n' = [] →
  ins_pre (S fuel) s (T (Updated id, m) n) id partial value →
  m' = mem (T (Updated id, m') n') → shape (erase (T (Updated id, m') n')) →
  (insert_need (erase (T (Updated id, m') n')) (nibbles partial) ≤ fuel)%nat →
  m' + slack fuel (nibbles partial) value <= umax 64 →
  ∃ s' t' p,
    insert_loop storage fuel id partial (MemtrieAndDisk value) path
      (set_nodes (<[id := Some (mkWithSize (encode_anode (anode_map root_ref n')) m')]> (nodes s)) s)
      = Ok (path ++ p) s' ∧
    ins_post s s' (ids (T (Updated id, m) n)) value id t' p
      (tinsert fuel (erase (T (Updated id, m') n')) (nibbles partial) (new_handle s value)).
Proof.
  intros IH Hn Hn' [_ Hrep Hnd Hmem _ Hsl _ _ Hroom] Hm' Hsh Hneed Hb.
  assert (id < length (nodes s))%nat as Hlt by (eapply rep_ids_lt; [done|rewrite ids_eq; by left]).
  assert (ids (T (Updated id, m) n) = [id]) as Hids by (by rewrite ids_eq, Hn).
  assert (ids (T (Updated id, m') n') = [id]) as Hids' by (by rewrite ids_eq, Hn').
  set (s2 := set_nodes _ s). rewrite Hids.
  destruct (IH s2 (T (Updated id, m') n') id partial value path) as (s' & t' & p & Hrun & Hpost).
  { constructor; try done.
    - constructor; [|rewrite Hn'; by intros ? ?%not_elem_of_nil].
      unfold stored_at. simpl. by rewrite list_lookup_insert_eq.
    - rewrite Hids'. apply NoDup_singleton.
    - constructor; [done|]. rewrite Hn'. by intros ? ?%not_elem_of_nil.
    - by rewrite <-Hm'.
    - eapply (rc_room_weaken storage), Nat.le_succ_diag_r. by eapply rc_room_same. }
  exists s', t', p. split; [done|]. eapply post_weaken, Hpost; rewrite ?Hids'.
  - split_and!; simpl; [by rewrite length_insert| |done].
    intros j _ Hj. apply list_lookup_insert_ne. set_solver.
  - intros j Hj. by left.
Qed.

Lemma single_ref i (c : ltree) :
  <[i := Some (root_ref c)]> no_children = map (option_map root_ref) (<[i := Some c]> (replicate NUM_CHILDREN None)).
Proof. change (map ?f ?l) with (f <$> l). rewrite list_fmap_insert. done. Qed.

Lemma hole_single i :
  (i < NUM_CHILDREN)%nat →
  hole (λ c, ABranch (<[i := Some c]> (replicate NUM_CHILDREN None)) None) [] []
    (λ c, T () (ABranch (<[i := Some c]> no_subtrees) None)).
Proof.
  intros Hi. destruct (hole_branch (replicate NUM_CHILDREN None) i None) as [Hch Hrefs He].
  { by rewrite length_replicate. }
  assert (∀ k, omap id (replicate k (@None ltree)) = []) as Hrep by (induction k; done).
  split; [|done|done]. intros c. rewrite Hch, take_replicate, drop_replicate, !Hrep. done.
Qed.

Lemma mem_single_l l i (c : ltree) :
  (i < NUM_CHILDREN)%nat →
  mem (T l (ABranch (<[i := Some c]> (replicate NUM_CHILDREN None)) None)) = 50 + mem c.
Proof.
  intros Hi. rewrite mem_eq. pose proof (hole_children _ _ _ _ (hole_single i Hi) c) as Hch.
  simpl in Hch. simpl achildren. rewrite Hch. simpl. lia.
Qed.

Lemma insert_case_leaf_branch fuel s id m k ov partial value path :
  loop_ok fuel →
  (bool_decide (common_prefix_len (nibbles partial) k = length k) &&
    bool_decide (common_prefix_len (nibbles partial) k = length (nibbles partial)) = false) →
  common_prefix_len (nibbles partial) k = 0%nat →
  ins_pre (S fuel) s (T (Updated id, m) (ALeaf k ov)) id partial value →
  ins_ok (S fuel) s (T (Updated id, m) (ALeaf k ov)) id partial value path.
Proof.
  intros IH Hneq Hc Hpre. enter Hpre.
  assert (Hslice := pre_slice _ _ _ _ _ _ Hpre). assert (Hfuel := pre_fuel _ _ _ _ _ _ Hpre).
  assert (nkey k) as Hk by (assert (Hsh := pre_shape _ _ _ _ _ _ Hpre); by inversion Hsh).
  destruct (from_encoded_hp_encode true k Hk) as (ek & Hek & Hekok & Hekn).
  run_expect Hek. run_expect (common_prefix_spec partial ek Hslice Hekok).
  run_expect (len_spec ek Hekok). run_expect (len_spec partial Hslice).
  rewrite Hekn, Hneq. cbn [tinsert erase top anode_map]. rewrite Hneq.
  rewrite !(bool_decide_true _ Hc). run_expect (is_empty_spec ek Hekok). rewrite Hekn.
  assert (Hslk : slack (S fuel) (nibbles partial) value = slack fuel (nibbles partial) value + 52)
    by (unfold slack; lia).
  assert (0 <= slack fuel (nibbles partial) value) as Hsl' by (unfold slack; lia).
  pose proof (value_handle_len_nonneg ov) as Hov.
  assert (∀ k', insert_need (leaf_branch k' ov) (nibbles partial) ≤ fuel)%nat as Hneed.
  { intros k'. rewrite need_branch by apply leaf_branch_easy. unfold insert_need in Hfuel. simpl in Hfuel. lia. }
  rewrite mem_eq in Hb. simpl direct_cost in Hb. simpl achildren in *. rewrite length_hp_encode in Hb. simpl in Hb.
  destruct k as [|x k'].
  - rewrite bool_decide_true by done.
    erewrite (bind_Ok (mret (M := M _ _) _)) by reflexivity. cbv beta iota.
    erewrite (bind_Ok _ _ _ _ _ (direct_ok _ _ _)), (bind_Ok _ _ _ _ _ (add_u64_ok _ _ _ _)).
    Unshelve. 2,3: simpl; lia.
    erewrite (bind_Ok _ _ _ _ _ (place_node_at_ok _ _ _ _)). Unshelve. 2: by eapply lookup_taken.
    simpl nodes. rewrite list_insert_insert_eq.
    apply (ins_again_flat fuel s id m (ALeaf [] ov) (ABranch (replicate NUM_CHILDREN None) (Some ov))); try done.
    + apply (shape_leaf_branch [] ov Hk).
    + apply (Hneed []).
    + simpl. lia_div.
  - rewrite bool_decide_false by done. apply Forall_cons in Hk as [Hx Hk].
    assert (at_ ek 0 = Some x) as Hat by (by rewrite at_spec, Hekn).
    assert (slice_ok (mid ek 1)) as Hmid by (apply slice_ok_mid; [done|rewrite Hekn; simpl; lia]).
    set (n1 := ALeaf (A := ltree) k' ov). set (m1 := mem (T (Updated 0%nat, 0) n1)).
    assert (m1 = 102 + 2 * (Z.of_nat (length k') / 2) + vlen ov) as Hm1.
    { unfold m1. rewrite mem_eq. simpl. rewrite length_hp_encode. lia_div. }
    assert (direct_cost vlen (Leaf (Ptr := GenericNodeOrIndex H) (hp_encode true k') ov) = m1) as Hd1.
    { rewrite Hm1. simpl. rewrite length_hp_encode. lia_div. }
    assert (direct_cost vlen (Leaf (Ptr := GenericNodeOrIndex H) (hp_encode true k') ov) <= umax 64) as Hd1le.
    { rewrite Hd1. simpl length in *. lia_div. }
    edestruct (ready_new fuel s id m (ALeaf (x :: k') ov) partial value n1 m1 Hpre) as [Hrun Hready];
      [by left|done|by apply shape_leaf|].
    erewrite bind_Ok.
    2:{ run_expect Hat. run_expect (encoded_spec (mid ek 1) true Hmid). rewrite nibbles_mid, Hekn. cbn [drop].
        rewrite (bind_Ok _ _ _ _ _ (direct_ok _ _ Hd1le)), Hd1, (bind_Ok _ _ _ _ _ Hrun). reflexivity. }
    cbv beta iota.
    erewrite (bind_Ok _ _ _ _ _ (direct_ok _ _ _)), (bind_Ok _ _ _ _ _ (add_u64_ok _ _ _ _)).
    Unshelve. 2,3: simpl length in *; simpl direct_cost; lia_div.
    erewrite (bind_Ok _ _ _ _ _ (place_node_at_ok _ _ _ _)). Unshelve. 2: by eapply ready_taken.
    change (Updated (length (nodes s))) with (root_ref (T (Updated (length (nodes s)), m1) n1)).
    rewrite single_ref.
    apply (ins_again fuel s _ id m (ALeaf (x :: k') ov) _ [] [] [] _ _ _ partial value path IH
      (hole_single (Z.to_nat x) (nibble_lt _ Hx)) eq_refl Hpre Hready).
    + rewrite mem_single_l by by apply nibble_lt. done.
    + apply (shape_leaf_branch (x :: k') ov). by constructor.
    + apply (Hneed (x :: k')).
    + simpl direct_cost. simpl length in *. lia_div.
Qed.

Lemma pre_ext fuel s id m k (c : ltree) partial value :
  ins_pre (S fuel) s (T (Updated id, m) (AExt k c)) id partial value →
  slice_ok partial ∧ (2 * length (nibbles partial) + 2 ≤ S fuel)%nat ∧ k ≠ [] ∧ nkey k ∧
  (∃ ek, from_encoded (hp_encode false k) = Some (ek, false) ∧ slice_ok ek ∧ nibbles ek = k) ∧
  sum_Z (mem <$> achildren (AExt (V:=V) k c)) = mem c ∧ 0 <= mem c ∧ c ∈ achildren (AExt (V:=V) k c) ∧
  52 + 2 * (Z.of_nat (length k) / 2) + mem c + slack (S fuel) (nibbles partial) value <= umax 64.
Proof.
  intros [_ _ _ _ Hsh Hslice Hfuel Hb _]. inversion Hsh as [? Hn _]; subst. destruct Hn as [Hk Hne].
  split_and!; [done|exact Hfuel|done|done|by apply from_encoded_hp_encode|simpl; lia| |simpl; set_solver|].
  - apply mem_nonneg, value_handle_len_nonneg.
  - rewrite mem_eq in Hb. simpl in Hb. rewrite length_hp_encode in Hb. lia_div.
Qed.

(** The inner extension of a split. *)
Lemma ready_inner fuel s id m k (c : ltree) partial value n :
  ins_pre (S fuel) s (T (Updated id, m) (AExt k c)) id partial value → (n < length k)%nat →
  let n1 := AExt (drop n k) c in
  let m1 := 52 + 2 * (Z.of_nat (length (drop n k)) / 2) + mem c in
  let s1 := set_nodes (<[id := None]> (nodes s) ++
              [Some (mkWithSize (encode_anode (anode_map root_ref n1)) m1)]) s in
  ∀ A (K : nat → Z → M state (StorageError H) A),
  (d ← direct (Extension (hp_encode false (drop n k)) (root_ref c));
   mu ← add_u64 (mem c) d;
   inner ← place_node (mkWithSize (Extension (hp_encode false (drop n k)) (root_ref c)) mu);
   K inner mu) (set_nodes (<[id := None]> (nodes s)) s) = K (length (nodes s)) m1 s1 ∧
  ready fuel s s1 id [c] (T (Updated (length (nodes s)), m1) n1) ∧
  m1 = mem (T (Updated (length (nodes s)), m1) n1).
Proof.
  intros Hpre Hn n1 m1 s1 A K.
  assert (m1 = mem (T (Updated (length (nodes s)), m1) n1)) as Hm1.
  { rewrite mem_eq. simpl. rewrite length_hp_encode, length_drop. unfold m1. rewrite length_drop. lia_div. }
  edestruct (ready_new fuel s id m (AExt k c) partial value n1 m1 Hpre) as [Hrun Hready]; [|done| |].
  { right. by exists c. }
  { apply shape_ext_drop; [|done]. by eapply (pre_shape _ _ _ _ _ _ Hpre). }
  destruct (pre_facts _ _ _ _ _ _ _ Hpre) as (_ & _ & _ & Hb & _ & Hsl).
  rewrite mem_eq in Hb. simpl in Hb. rewrite length_hp_encode in Hb.
  assert (direct_cost vlen (Extension (V:=V) (hp_encode false (drop n k)) (root_ref c)) =
    52 + 2 * (Z.of_nat (length (drop n k)) / 2)) as Hd.
  { simpl. rewrite length_hp_encode. lia_div. }
  pose proof (mem_nonneg vlen value_handle_len_nonneg c).
  erewrite (bind_Ok _ _ _ _ _ (direct_ok _ _ _)), (bind_Ok _ _ _ _ _ (add_u64_ok _ _ _ _)).
  Unshelve. 2,3: rewrite Hd, length_drop; lia_div.
  replace (mem c + direct_cost vlen _) with m1 by (rewrite Hd; unfold m1; lia).
  rewrite (bind_Ok _ _ _ _ _ Hrun). done.
Qed.

Lemma insert_case_ext_match fuel s id m k (c : ltree) partial value path :
  loop_ok fuel → common_prefix_len (nibbles partial) k ≠ 0%nat →
  common_prefix_len (nibbles partial) k = length k →
  ins_pre (S fuel) s (T (Updated id, m) (AExt k c)) id partial value →
  ins_ok (S fuel) s (T (Updated id, m) (AExt k c)) id partial value path.
Proof.
  intros IH Hc0 Hcl Hpre. enter Hpre.
  destruct (pre_ext _ _ _ _ _ _ _ _ Hpre) as (Hslice & Hfuel & Hne & Hk & (ek & Hek & Hekok & Hekn) & Hsum & Hcm & Hc & Hb').
  run_expect Hek. run_expect (common_prefix_spec partial ek Hslice Hekok).
  run_expect (len_spec ek Hekok). rewrite Hekn, Hsum in *. cbn [tinsert erase top anode_map].
  rewrite !(bool_decide_false _ Hc0), !(bool_decide_true _ Hcl).
  set (n := common_prefix_len (nibbles partial) k) in *.
  assert (n ≤ length (nibbles partial))%nat as Hnp by apply common_prefix_len_le_l.
  destruct (ready_updated _ _ _ _ _ _ _ _ Hpre Hc) as (s1 & cid & c1 & Hrun & Hready & Hroot & Her & Hmc).
  rewrite (bind_Ok _ _ _ _ _ Hrun).
  erewrite (bind_Ok _ _ _ _ _ (place_direct_ok _ _ _ _ _)).
  Unshelve. 2: by eapply ready_taken. 2: { simpl. rewrite length_hp_encode. lia. }
  edestruct (ins_down fuel s s1 id m (AExt k c) (AExt k) [] [c] [] _ c1 cid
    _ partial (mid partial n) value path IH (hole_ext _) eq_refl Hpre Hready Hroot eq_refl)
    as (s' & t' & p & Hloop & Hpost).
  { by apply slice_ok_mid. }
  { rewrite nibbles_mid. eapply need_drop; [|done|]; done. }
  { rewrite Hmc, nibbles_mid. unfold slack in *. rewrite length_drop. lia_div. }
  exists s', t', p. split.
  { rewrite <-Hloop. do 2 f_equal. simpl. rewrite Hroot. apply cell_eq. lia. }
  by rewrite nibbles_mid, Her in Hpost.
Qed.

Lemma insert_case_ext_split fuel s id m k (c : ltree) partial value path :
  loop_ok fuel → common_prefix_len (nibbles partial) k ≠ 0%nat →
  common_prefix_len (nibbles partial) k ≠ length k →
  ins_pre (S fuel) s (T (Updated id, m) (AExt k c)) id partial value →
  ins_ok (S fuel) s (T (Updated id, m) (AExt k c)) id partial value path.
Proof.
  intros IH Hc0 Hcl Hpre. enter Hpre.
  destruct (pre_ext _ _ _ _ _ _ _ _ Hpre) as (Hslice & Hfuel & Hne & Hk & (ek & Hek & Hekok & Hekn) & Hsum & Hcm & Hc & Hb').
  run_expect Hek. run_expect (common_prefix_spec partial ek Hslice Hekok).
  run_expect (len_spec ek Hekok). rewrite Hekn, Hsum in *. cbn [tinsert erase top anode_map].
  rewrite !(bool_decide_false _ Hc0), !(bool_decide_false _ Hcl).
  set (n := common_prefix_len (nibbles partial) k) in *.
  assert (n ≤ length (nibbles partial))%nat as Hnp by apply common_prefix_len_le_l.
  assert (n < length k)%nat as Hnk by (pose proof (common_prefix_len_le_r (nibbles partial) k); lia).
  assert (slice_ok (mid ek n)) as Hmid by (apply slice_ok_mid; [done|rewrite Hekn; lia]).
  run_expect (encoded_spec (mid ek n) false Hmid). rewrite nibbles_mid, Hekn.
  edestruct (ready_inner fuel s id m k c partial value n Hpre Hnk) as (Hrun & Hready & Hm1).
  rewrite Hrun. clear Hrun.
  run_expect (encoded_leftmost_spec ek n false Hekok). rewrite Hekn.
  erewrite (bind_Ok _ _ _ _ _ (place_direct_ok _ _ _ _ _)).
  Unshelve. 2: by eapply ready_taken. 2: { simpl. rewrite length_hp_encode, length_take. lia_div. }
  edestruct (ins_down fuel s _ id m (AExt k c) (AExt (take n k)) [] [c] [] _ _ (length (nodes s))
    _ partial (mid partial n) value path IH (hole_ext _) eq_refl Hpre Hready eq_refl eq_refl)
    as (s' & t' & p & Hloop & Hpost).
  { by apply slice_ok_mid. }
  { rewrite nibbles_mid. eapply need_drop; [|done|]; done. }
  { rewrite <-Hm1, nibbles_mid. unfold slack in *. rewrite !length_drop. lia_div. }
  exists s', t', p. split.
  { rewrite <-Hloop. do 2 f_equal. simpl. apply cell_eq. lia. }
  by rewrite nibbles_mid in Hpost.
Qed.

Lemma insert_case_ext_branch fuel s id m k (c : ltree) partial value path :
  loop_ok fuel → common_prefix_len (nibbles partial) k = 0%nat →
  ins_pre (S fuel) s (T (Updated id, m) (AExt k c)) id partial value →
  ins_ok (S fuel) s (T (Updated id, m) (AExt k c)) id partial value path.
Proof.
  intros IH Hc0 Hpre. enter Hpre.
  destruct (pre_ext _ _ _ _ _ _ _ _ Hpre) as (Hslice & Hfuel & Hne & Hk & (ek & Hek & Hekok & Hekn) & Hsum & Hcm & Hc & Hb').
  run_expect Hek. run_expect (common_prefix_spec partial ek Hslice Hekok).
  run_expect (len_spec ek Hekok). rewrite Hekn, Hsum in *. cbn [tinsert erase top anode_map].
  rewrite !(bool_decide_true _ Hc0).
  assert (slack (S fuel) (nibbles partial) value = slack fuel (nibbles partial) value + 52) as Hslk
    by (unfold slack; lia).
  assert (0 <= slack fuel (nibbles partial) value) as Hsl' by (unfold slack; lia).
  assert (insert_need (ext_branch k (erase c)) (nibbles partial) ≤ fuel)%nat as Hneed.
  { rewrite need_branch by by apply ext_branch_easy. lia. }
  assert (shape (ext_branch k (erase c))) as Hshb.
  { apply shape_ext_branch; [done|done|]. by eapply pre_child. }
  destruct k as [|x k']; [done|]. assert (Hx := Forall_inv Hk). simpl in Hx.
  assert (at_ ek 0 = Some x) as Hat by (by rewrite at_spec, Hekn). run_expect Hat.
  assert (Hhole := hole_single (Z.to_nat x) (nibble_lt _ Hx)).
  (* the subtree that goes under the branch *)
  destruct k' as [|y k'].
  - rewrite bool_decide_true by done. erewrite (bind_Ok (mret (M := M _ _) _)) by reflexivity. cbv beta iota.
    erewrite (bind_Ok _ _ _ _ _ (direct_ok _ _ _)), (bind_Ok _ _ _ _ _ (add_u64_ok _ _ _ _)).
    Unshelve. 2,3: simpl direct_cost; simpl length in *; lia_div.
    erewrite (bind_Ok _ _ _ _ _ (place_node_at_ok _ _ _ _)). Unshelve. 2: by eapply lookup_taken.
    rewrite single_ref.
    apply (ins_again fuel s _ id m (AExt [x] c) _ [] [c] [] _ c _ partial value path IH Hhole eq_refl Hpre
      (ready_same _ _ _ _ _ _ _ _ Hpre Hc)); [|done|done|].
    + rewrite mem_single_l by by apply nibble_lt. simpl. lia.
    + simpl direct_cost. simpl length in *. lia_div.
  - rewrite bool_decide_false by done.
    assert (slice_ok (mid ek 1)) as Hmid by (apply slice_ok_mid; [done|rewrite Hekn; simpl; lia]).
    assert (1 < length (x :: y :: k'))%nat as Hlen by (simpl; lia).
    edestruct (ready_inner fuel s id m _ c partial value 1 Hpre Hlen) as (Hrun & Hready & Hm1).
    erewrite bind_Ok.
    2:{ run_expect (encoded_spec (mid ek 1) false Hmid). rewrite nibbles_mid, Hekn. rewrite Hrun. reflexivity. }
    clear Hrun. cbv beta iota. cbn [drop] in *. set (m1 := 52 + 2 * (Z.of_nat (length (y :: k')) / 2) + mem c) in *.
    assert (50 + m1 + slack fuel (nibbles partial) value <= umax 64) as Hle.
    { unfold m1. simpl length in *. lia_div. }
    erewrite (bind_Ok _ _ _ _ _ (direct_ok _ _ _)), (bind_Ok _ _ _ _ _ (add_u64_ok _ _ _ _)).
    Unshelve. 2,3: simpl direct_cost; unfold m1 in *; simpl length in *; lia_div.
    erewrite (bind_Ok _ _ _ _ _ (place_node_at_ok _ _ _ _)). Unshelve. 2: by eapply ready_taken.
    change (Updated (length (nodes s))) with (root_ref (T (Updated (length (nodes s)), m1) (AExt (y :: k') c))).
    rewrite single_ref.
    apply (ins_again fuel s _ id m (AExt (x :: y :: k') c) _ [] [c] [] _ _ _ partial value path IH Hhole eq_refl Hpre
      Hready); [|done|done|].
    + rewrite mem_single_l by by apply nibble_lt. simpl direct_cost. lia.
    + simpl direct_cost. lia.
Qed.

Theorem insert_loop_ok fuel : loop_ok fuel.
Proof.
  induction fuel as [|fuel IH]; intros s t id partial value path Hpre.
  { destruct Hpre as [_ _ _ _ _ _ Hf _ _]. unfold insert_need in Hf. case_match; lia. }
  destruct t as [[r m] n]. assert (Hroot := pre_root _ _ _ _ _ _ Hpre).
  unfold root_ref in Hroot. simpl in Hroot. subst r. destruct n as [|k v|k c|cs ov].
  - by apply insert_case_empty.
  - destruct (bool_decide (common_prefix_len (nibbles partial) k = length k) &&
      bool_decide (common_prefix_len (nibbles partial) k = length (nibbles partial))) eqn:Heq.
    + apply andb_true_iff in Heq as [Hek%bool_decide_eq_true Hep%bool_decide_eq_true].
      apply insert_case_leaf_equal; [|done]. rewrite (common_prefix_full _ _ Hek).
      rewrite drop_ge by lia. by rewrite app_nil_r.
    + destruct (decide (common_prefix_len (nibbles partial) k = 0%nat)).
      * by apply insert_case_leaf_branch.
      * by apply insert_case_leaf_split.
  - destruct (decide (common_prefix_len (nibbles partial) k = 0%nat)); [by apply insert_case_ext_branch|].
    destruct (decide (common_prefix_len (nibbles partial) k = length k));
      [by apply insert_case_ext_match|by apply insert_case_ext_split].
  - destruct (nibbles partial) as [|x key] eqn:Hkey; [by apply insert_case_branch_end|].
    by eapply insert_case_branch_down.
Qed.

Lemma canon_root_shape (e : tree () V) : canon_root e → shape e.
Proof.
  destruct e as [[] n]. intros [Htop|Hcan]; [|by apply canon_shape]. simpl in Htop. subst.
  constructor; [done|]. simpl. by intros ? ?%not_elem_of_nil.
Qed.

Lemma canon_root_insertable (e : tree () V) key : canon_root e → insertable e key.
Proof.
  destruct e as [[] n]. intros [Htop|Hcan]; [|by apply canon_insertable]. simpl in Htop. by subst.
Qed.

(** The memory usage and the reference counts do not overflow during the insertion. *)
Definition insert_room (s : state) (t : ltree) (key value : list Z) : Prop :=
  mem t + slack (insert_fuel key) (bytes_nibbles key) value <= umax 64 ∧
  rc_room s (S (insert_fuel key)).

Lemma insert_need_fuel (e : tree () V) key : (insert_need e (bytes_nibbles key) ≤ insert_fuel key)%nat.
Proof.
  unfold insert_need, insert_fuel. rewrite length_bytes_nibbles. case_match; lia.
Qed.

(** Insertion into the arena implements [tinsert]. *)
Theorem generic_insert_ok s id t key value :
  trie_at storage s id t → Forall byte_ok key → insert_room s t key value →
  ∃ s' t',
    generic_insert storage id key (MemtrieAndDisk value) s = Ok () s' ∧ trie_at storage s' id t' ∧
    erase t' = tinsert (insert_fuel key) (erase t) (bytes_nibbles key) (new_handle s value) ∧
    values s' = values s ++ [Some value].
Proof.
  intros [Hroot Hrep Hnd Hmem Hcan] Hkey [Hb Hroom].
  assert (Hnk : nkey (bytes_nibbles key)) by (rewrite <-nibbles_new; apply nibbles_ok).
  assert (Hneed := insert_need_fuel (erase t) key).
  destruct (insert_loop_ok (insert_fuel key) s t id (new key) value []) as (s1 & t1 & p & Hloop & Hpost).
  { constructor; rewrite ?nibbles_new; try done; [by apply canon_root_shape|by apply slice_ok_new]. }
  rewrite nibbles_new in Hpost. destruct Hpost as [Hr1 Hrep1 Hnd1 Hp1 He1 _ _ _ Hv1].
  assert (mem t1 <= umax 64) as Hm1.
  { rewrite <-mem_erase, He1.
    pose proof (tinsert_mem vlen value_handle_len_nonneg (insert_fuel key) (erase t) (bytes_nibbles key)
      (new_handle s value) (canon_root_shape _ Hcan) Hnk Hneed) as Hle.
    rewrite mem_erase in Hle. unfold slack in Hb. unfold new_handle in *. simpl vlen in Hle. lia. }
  destruct (walk_back_ok t1 p s1 Hp1 Hrep1 Hnd1 Hm1) as (s' & Hwalk & Hrep' & _ & Hv' & _).
  exists s', (retag t1). unfold generic_insert. rewrite (bind_Ok _ _ _ _ _ Hloop).
  split_and!; [exact Hwalk| |by rewrite erase_retag|congruence].
  constructor; [by rewrite root_ref_retag|done|by rewrite ids_retag|apply mem_ok_retag|].
  rewrite erase_retag, He1. right. apply tinsert_canon; [by apply canon_root_insertable|done..].
Qed.
End insert_arena.
