(* ===== verification/TrieCorrect.v ===== *)
(** What the trie guarantees: the results of the trie files stated for byte keys. *)

From S2P Require Import Prelude Nibbles TrieNode TrieUpdate TrieTree TrieInsertSpec TrieRep TrieInsert.
Import NibbleSlice.

Local Open Scope Z_scope.

(** What a trie holds for a key given as bytes. *)
Definition trie_get {L V} (t : tree L V) (key : list Z) : option V := tget t (bytes_nibbles key).

Lemma bytes_nibbles_inj k1 k2 :
  Forall byte_ok k1 → Forall byte_ok k2 → bytes_nibbles k1 = bytes_nibbles k2 → k1 = k2.
Proof. intros H1 H2 E. by rewrite <-(pack_bytes_nibbles k1), E, pack_bytes_nibbles. Qed.

(** A concrete codec for the examples: an arena that never reads the storage. *)
Module Example.
#[global] Instance codec : TrieCodec Z :=
  {| EMPTY_ROOT := 0; hash_bytes := λ _, 1; to_vec := λ _, []; try_from_slice := λ _, None |}.

Definition no_storage : Z → option (list Z) := λ _, None.

(** The update of an empty trie, its root in slot 0. *)
Definition start : TrieStorageUpdate (H := Z) := set_nodes [Some empty_with_size] new_update.

Definition start_tree : tree (GenericNodeOrIndex Z * Z) (ValueHandle Z) := T (Updated 0%nat, 0) AEmpty.

Lemma start_ok : trie_at no_storage start 0 start_tree.
Proof.
  constructor; try done.
  - constructor; [done|]. by intros ? ?%not_elem_of_nil.
  - apply NoDup_singleton.
  - constructor; [done|]. by intros ? ?%not_elem_of_nil.
  - by left.
Qed.
End Example.

Section correct.
Context {H : Type} `{Countable H} `{TrieCodec H}.
Variable storage : H → option (list Z).

(** C1: inserting a key in a trie of the update arena terminates without error; the result is a
    canonical trie at the same root whose recorded memory usages are exact, the key is bound to
    the new value, which is in the value arena, and every other key keeps its binding. *)
Theorem insert_correct s id t key value :
  trie_at storage s id t → Forall byte_ok key → insert_room s t key value →
  ∃ s' t' i,
    generic_insert storage id key (MemtrieAndDisk value) s = Ok () s' ∧ trie_at storage s' id t' ∧
    trie_get t' key = Some (InMemory i (length value)) ∧ values s' !! i = Some (Some value) ∧
    (∀ key', Forall byte_ok key' → key' ≠ key → trie_get t' key' = trie_get t key').
Proof.
  intros Ht Hkey Hroom.
  destruct (generic_insert_ok storage s id t key value Ht Hkey Hroom) as (s' & t' & Hrun & Ht' & He & Hv).
  assert (Hget : ∀ key', Forall byte_ok key' → trie_get t' key' =
    upd_at (bytes_nibbles key) (new_handle s value) (tget t) (bytes_nibbles key')).
  { intros key' Hk'. unfold trie_get. rewrite <-tget_erase, He, tinsert_get.
    - unfold upd_at. by rewrite tget_erase.
    - apply canon_root_shape, Ht.
    - apply bytes_nibbles_ok.
    - apply bytes_nibbles_ok.
    - apply insert_need_fuel. }
  exists s', t', (length (values s)). split_and!; [done|done| | |].
  - rewrite Hget by done. unfold upd_at. by rewrite decide_True.
  - rewrite Hv. apply lookup_snoc_length.
  - intros key' Hk' Hne. rewrite Hget by done. unfold upd_at. rewrite decide_False; [done|].
    intros E. apply Hne. symmetry. by apply bytes_nibbles_inj.
Qed.
End correct.

Lemma insert_correct_witness :
  ∃ s' t' i,
    generic_insert Example.no_storage 0 [18; 52] (MemtrieAndDisk [7; 8; 9]) Example.start = Ok () s' ∧
    trie_at Example.no_storage s' 0 t' ∧
    trie_get t' [18; 52] = Some (InMemory i 3) ∧ values s' !! i = Some (Some [7; 8; 9]) ∧
    (∀ key', Forall byte_ok key' → key' ≠ [18; 52] → trie_get t' key' = trie_get Example.start_tree key').
Proof.
  apply (insert_correct Example.no_storage Example.start 0 Example.start_tree [18; 52] [7; 8; 9]).
  - apply Example.start_ok.
  - repeat constructor; unfold byte_ok; lia.
  - split; [done|]. split; [done|]. intros h v rc Hh. done.
Defined.
