(* ===== verification/Costs.v ===== *)
(** Cost parameters, fees and gas profiles.

    Models src/core/parameters/src/cost.rs (cost enumerations, fees, the refund
    penalty, transfer fees) and src/runtime/near-vm-runner/src/profile.rs (the
    profile of a contract call: which cost burnt how much gas). *)

From stdpp Require Import functions.
From S2P Require Import Prelude.

Local Open Scope Z_scope.

(** * Enumerations

    The constructors carry the prefix of their type, since the two Rust enums are
    separate name spaces; [ext_costs] and [action_costs] list them in the order of
    their discriminants. *)

Inductive ExtCosts : Type :=
| ext_base | ext_contract_loading_base | ext_contract_loading_bytes | ext_read_memory_base
| ext_read_memory_byte | ext_write_memory_base | ext_write_memory_byte | ext_read_register_base
| ext_read_register_byte | ext_write_register_base | ext_write_register_byte
| ext_utf8_decoding_base | ext_utf8_decoding_byte | ext_utf16_decoding_base
| ext_utf16_decoding_byte | ext_sha256_base | ext_sha256_byte | ext_keccak256_base
| ext_keccak256_byte | ext_keccak512_base | ext_keccak512_byte | ext_ripemd160_base
| ext_ripemd160_block | ext_ecrecover_base | ext_log_base | ext_log_byte | ext_storage_write_base
| ext_storage_write_key_byte | ext_storage_write_value_byte | ext_storage_write_evicted_byte
| ext_storage_read_base | ext_storage_read_key_byte | ext_storage_read_value_byte
| ext_storage_remove_base | ext_storage_remove_key_byte | ext_storage_remove_ret_value_byte
| ext_storage_has_key_base | ext_storage_has_key_byte | ext_storage_iter_create_prefix_base
| ext_storage_iter_create_prefix_byte | ext_storage_iter_create_range_base
| ext_storage_iter_create_from_byte | ext_storage_iter_create_to_byte | ext_storage_iter_next_base
| ext_storage_iter_next_key_byte | ext_storage_iter_next_value_byte | ext_touching_trie_node
| ext_read_cached_trie_node | ext_promise_and_base | ext_promise_and_per_promise
| ext_promise_return | ext_validator_stake_base | ext_validator_total_stake_base
| ext_alt_bn128_g1_multiexp_base | ext_alt_bn128_g1_multiexp_element
| ext_alt_bn128_pairing_check_base | ext_alt_bn128_pairing_check_element
| ext_alt_bn128_g1_sum_base | ext_alt_bn128_g1_sum_element | ext_ed25519_verify_base
| ext_ed25519_verify_byte | ext_yield_create_base | ext_yield_create_byte | ext_yield_resume_base
| ext_yield_resume_byte | ext_bls12381_p1_sum_base | ext_bls12381_p1_sum_element
| ext_bls12381_p2_sum_base | ext_bls12381_p2_sum_element | ext_bls12381_g1_multiexp_base
| ext_bls12381_g1_multiexp_element | ext_bls12381_g2_multiexp_base
| ext_bls12381_g2_multiexp_element | ext_bls12381_map_fp_to_g1_base
| ext_bls12381_map_fp_to_g1_element | ext_bls12381_map_fp2_to_g2_base
| ext_bls12381_map_fp2_to_g2_element | ext_bls12381_pairing_base | ext_bls12381_pairing_element
| ext_bls12381_p1_decompress_base | ext_bls12381_p1_decompress_element
| ext_bls12381_p2_decompress_base | ext_bls12381_p2_decompress_element
| ext_storage_large_read_overhead_base | ext_storage_large_read_overhead_byte.

Inductive ActionCosts : Type :=
| action_create_account | action_delete_account | action_deploy_contract_base
| action_deploy_contract_byte | action_function_call_base | action_function_call_byte
| action_transfer | action_stake | action_add_full_access_key | action_add_function_call_key_base
| action_add_function_call_key_byte | action_delete_key | action_new_action_receipt
| action_new_data_receipt_base | action_new_data_receipt_byte | action_delegate
| action_deploy_global_contract_base | action_deploy_global_contract_byte
| action_use_global_contract_base | action_use_global_contract_byte.

Definition ext_costs : list ExtCosts :=
  [ext_base; ext_contract_loading_base; ext_contract_loading_bytes; ext_read_memory_base;
   ext_read_memory_byte; ext_write_memory_base; ext_write_memory_byte; ext_read_register_base;
   ext_read_register_byte; ext_write_register_base; ext_write_register_byte;
   ext_utf8_decoding_base; ext_utf8_decoding_byte; ext_utf16_decoding_base;
   ext_utf16_decoding_byte; ext_sha256_base; ext_sha256_byte; ext_keccak256_base;
   ext_keccak256_byte; ext_keccak512_base; ext_keccak512_byte; ext_ripemd160_base;
   ext_ripemd160_block; ext_ecrecover_base; ext_log_base; ext_log_byte;
   ext_storage_write_base; ext_storage_write_key_byte; ext_storage_write_value_byte;
   ext_storage_write_evicted_byte; ext_storage_read_base; ext_storage_read_key_byte;
   ext_storage_read_value_byte; ext_storage_remove_base; ext_storage_remove_key_byte;
   ext_storage_remove_ret_value_byte; ext_storage_has_key_base; ext_storage_has_key_byte;
   ext_storage_iter_create_prefix_base; ext_storage_iter_create_prefix_byte;
   ext_storage_iter_create_range_base; ext_storage_iter_create_from_byte;
   ext_storage_iter_create_to_byte; ext_storage_iter_next_base;
   ext_storage_iter_next_key_byte; ext_storage_iter_next_value_byte; ext_touching_trie_node;
   ext_read_cached_trie_node; ext_promise_and_base; ext_promise_and_per_promise;
   ext_promise_return; ext_validator_stake_base; ext_validator_total_stake_base;
   ext_alt_bn128_g1_multiexp_base; ext_alt_bn128_g1_multiexp_element;
   ext_alt_bn128_pairing_check_base; ext_alt_bn128_pairing_check_element;
   ext_alt_bn128_g1_sum_base; ext_alt_bn128_g1_sum_element; ext_ed25519_verify_base;
   ext_ed25519_verify_byte; ext_yield_create_base; ext_yield_create_byte;
   ext_yield_resume_base; ext_yield_resume_byte; ext_bls12381_p1_sum_base;
   ext_bls12381_p1_sum_element; ext_bls12381_p2_sum_base; ext_bls12381_p2_sum_element;
   ext_bls12381_g1_multiexp_base; ext_bls12381_g1_multiexp_element;
   ext_bls12381_g2_multiexp_base; ext_bls12381_g2_multiexp_element;
   ext_bls12381_map_fp_to_g1_base; ext_bls12381_map_fp_to_g1_element;
   ext_bls12381_map_fp2_to_g2_base; ext_bls12381_map_fp2_to_g2_element;
   ext_bls12381_pairing_base; ext_bls12381_pairing_element; ext_bls12381_p1_decompress_base;
   ext_bls12381_p1_decompress_element; ext_bls12381_p2_decompress_base;
   ext_bls12381_p2_decompress_element; ext_storage_large_read_overhead_base;
   ext_storage_large_read_overhead_byte].

Definition action_costs : list ActionCosts :=
  [action_create_account; action_delete_account; action_deploy_contract_base;
   action_deploy_contract_byte; action_function_call_base; action_function_call_byte;
   action_transfer; action_stake; action_add_full_access_key;
   action_add_function_call_key_base; action_add_function_call_key_byte; action_delete_key;
   action_new_action_receipt; action_new_data_receipt_base; action_new_data_receipt_byte;
   action_delegate; action_deploy_global_contract_base; action_deploy_global_contract_byte;
   action_use_global_contract_base; action_use_global_contract_byte].

(** [cost as usize]: the discriminant. *)
Definition borsh_ext_index (c : ExtCosts) : nat :=
  match c with
  | ext_base => 0 | ext_contract_loading_base => 1 | ext_contract_loading_bytes => 2
  | ext_read_memory_base => 3 | ext_read_memory_byte => 4 | ext_write_memory_base => 5
  | ext_write_memory_byte => 6 | ext_read_register_base => 7 | ext_read_register_byte => 8
  | ext_write_register_base => 9 | ext_write_register_byte => 10 | ext_utf8_decoding_base => 11
  | ext_utf8_decoding_byte => 12 | ext_utf16_decoding_base => 13 | ext_utf16_decoding_byte => 14
  | ext_sha256_base => 15 | ext_sha256_byte => 16 | ext_keccak256_base => 17
  | ext_keccak256_byte => 18 | ext_keccak512_base => 19 | ext_keccak512_byte => 20
  | ext_ripemd160_base => 21 | ext_ripemd160_block => 22 | ext_ecrecover_base => 23
  | ext_log_base => 24 | ext_log_byte => 25 | ext_storage_write_base => 26
  | ext_storage_write_key_byte => 27 | ext_storage_write_value_byte => 28
  | ext_storage_write_evicted_byte => 29 | ext_storage_read_base => 30
  | ext_storage_read_key_byte => 31 | ext_storage_read_value_byte => 32
  | ext_storage_remove_base => 33 | ext_storage_remove_key_byte => 34
  | ext_storage_remove_ret_value_byte => 35 | ext_storage_has_key_base => 36
  | ext_storage_has_key_byte => 37 | ext_storage_iter_create_prefix_base => 38
  | ext_storage_iter_create_prefix_byte => 39 | ext_storage_iter_create_range_base => 40
  | ext_storage_iter_create_from_byte => 41 | ext_storage_iter_create_to_byte => 42
  | ext_storage_iter_next_base => 43 | ext_storage_iter_next_key_byte => 44
  | ext_storage_iter_next_value_byte => 45 | ext_touching_trie_node => 46
  | ext_read_cached_trie_node => 47 | ext_promise_and_base => 48
  | ext_promise_and_per_promise => 49 | ext_promise_return => 50 | ext_validator_stake_base => 51
  | ext_validator_total_stake_base => 52 | ext_alt_bn128_g1_multiexp_base => 53
  | ext_alt_bn128_g1_multiexp_element => 54 | ext_alt_bn128_pairing_check_base => 55
  | ext_alt_bn128_pairing_check_element => 56 | ext_alt_bn128_g1_sum_base => 57
  | ext_alt_bn128_g1_sum_element => 58 | ext_ed25519_verify_base => 59
  | ext_ed25519_verify_byte => 60 | ext_yield_create_base => 61 | ext_yield_create_byte => 62
  | ext_yield_resume_base => 63 | ext_yield_resume_byte => 64 | ext_bls12381_p1_sum_base => 65
  | ext_bls12381_p1_sum_element => 66 | ext_bls12381_p2_sum_base => 67
  | ext_bls12381_p2_sum_element => 68 | ext_bls12381_g1_multiexp_base => 69
  | ext_bls12381_g1_multiexp_element => 70 | ext_bls12381_g2_multiexp_base => 71
  | ext_bls12381_g2_multiexp_element => 72 | ext_bls12381_map_fp_to_g1_base => 73
  | ext_bls12381_map_fp_to_g1_element => 74 | ext_bls12381_map_fp2_to_g2_base => 75
  | ext_bls12381_map_fp2_to_g2_element => 76 | ext_bls12381_pairing_base => 77
  | ext_bls12381_pairing_element => 78 | ext_bls12381_p1_decompress_base => 79
  | ext_bls12381_p1_decompress_element => 80 | ext_bls12381_p2_decompress_base => 81
  | ext_bls12381_p2_decompress_element => 82 | ext_storage_large_read_overhead_base => 83
  | ext_storage_large_read_overhead_byte => 84
  end.

Definition borsh_action_index (c : ActionCosts) : nat :=
  match c with
  | action_create_account => 0 | action_delete_account => 1 | action_deploy_contract_base => 2
  | action_deploy_contract_byte => 3 | action_function_call_base => 4
  | action_function_call_byte => 5 | action_transfer => 6 | action_stake => 7
  | action_add_full_access_key => 8 | action_add_function_call_key_base => 9
  | action_add_function_call_key_byte => 10 | action_delete_key => 11
  | action_new_action_receipt => 12 | action_new_data_receipt_base => 13
  | action_new_data_receipt_byte => 14 | action_delegate => 15
  | action_deploy_global_contract_base => 16 | action_deploy_global_contract_byte => 17
  | action_use_global_contract_base => 18 | action_use_global_contract_byte => 19
  end.

Lemma ext_costs_index c : ext_costs !! borsh_ext_index c = Some c.
Proof. by destruct c. Qed.

Lemma action_costs_index c : action_costs !! borsh_action_index c = Some c.
Proof. by destruct c. Qed.

#[export] Instance borsh_ext_index_inj : Inj (=) (=) borsh_ext_index.
Proof. intros x y E. pose proof (ext_costs_index x) as Hx. rewrite E, ext_costs_index in Hx. by simplify_eq. Qed.

#[export] Instance borsh_action_index_inj : Inj (=) (=) borsh_action_index.
Proof.
  intros x y E. pose proof (action_costs_index x) as Hx. rewrite E, action_costs_index in Hx. by simplify_eq.
Qed.

#[export] Instance ExtCosts_eq_dec : EqDecision ExtCosts.
Proof.
  intros x y. destruct (decide (borsh_ext_index x = borsh_ext_index y)) as [E|E];
    [left; by apply (inj borsh_ext_index)|right; by intros ->].
Defined.

#[export] Instance ActionCosts_eq_dec : EqDecision ActionCosts.
Proof.
  intros x y. destruct (decide (borsh_action_index x = borsh_action_index y)) as [E|E];
    [left; by apply (inj borsh_action_index)|right; by intros ->].
Defined.

(** An [EnumMap] is a total function on the enumeration; [as_slice] lists its values. *)
Abbreviation EnumMap K := (K → Z).
Definition as_slice {K} (keys : list K) (m : EnumMap K) : list Z := m <$> keys.

(** * Fees *)

Record Fee : Type := mkFee { send_sir : Z; send_not_sir : Z; execution : Z }.

Definition send_fee (f : Fee) (sir : bool) : Z := if sir then send_sir f else send_not_sir f.

Definition exec_fee (f : Fee) : Z := execution f.

Definition min_send_and_exec_fee (f : Fee) : option Z :=
  checked_add 64 (Z.min (send_sir f) (send_not_sir f)) (execution f).

Record ParameterCost : Type := mkParameterCost { cost_gas : Z; cost_compute : Z }.

Definition ExtCostsConfig : Type := ExtCosts → ParameterCost.

Definition gas_cost (config : ExtCostsConfig) (c : ExtCosts) : Z := cost_gas (config c).
Definition compute_cost (config : ExtCostsConfig) (c : ExtCosts) : Z := cost_compute (config c).

(** A [Rational32] is a pair of [i32]. *)
Record Rational32 : Type := mkRational { numer : Z; denom : Z }.

Record StorageUsageConfig : Type := mkStorageUsageConfig {
  storage_amount_per_byte : Z;
  num_bytes_account : Z;
  num_extra_bytes_record : Z;
  global_contract_storage_amount_per_byte : Z
}.

Record RuntimeFeesConfig : Type := mkRuntimeFeesConfig {
  action_fees : ActionCosts → Fee;
  storage_usage_config : StorageUsageConfig;
  burnt_gas_reward : Rational32;
  pessimistic_gas_price_inflation_ratio : Rational32;
  refund_gas_price_changes : bool;
  gas_refund_penalty : Rational32;
  min_gas_refund_penalty : Z
}.

Definition fee (cfg : RuntimeFeesConfig) (c : ActionCosts) : Fee := action_fees cfg c.

Definition min_receipt_with_function_call_gas (cfg : RuntimeFeesConfig) : option Z :=
  a ← min_send_and_exec_fee (fee cfg action_new_action_receipt);
  b ← min_send_and_exec_fee (fee cfg action_function_call_base);
  checked_add 64 a b.

(** [x as u128] of an [i32] sign-extends. *)
Definition i32_as_u128 (x : Z) : Z := x mod 2 ^ 128.

Definition gas_penalty_for_gas_refund (cfg : RuntimeFeesConfig) (gas_refund : Z) : option Z :=
  product ← checked_mul 128 gas_refund (i32_as_u128 (numer (gas_refund_penalty cfg)));
  quotient ← checked_div product (i32_as_u128 (denom (gas_refund_penalty cfg)));
  let relative_cost := quotient mod 2 ^ 64 in
  let penalty := Z.max relative_cost (min_gas_refund_penalty cfg) in
  Some (Z.min penalty gas_refund).

(** The account types of the account-id crate. *)
Inductive AccountType : Type := NamedAccount | NearImplicitAccount | EthImplicitAccount.

Definition transfer_exec_fee (cfg : RuntimeFeesConfig)
    (implicit_account_creation_allowed eth_implicit_accounts_enabled : bool)
    (receiver_account_type : AccountType) : option Z :=
  let transfer_fee := exec_fee (fee cfg action_transfer) in
  match implicit_account_creation_allowed, eth_implicit_accounts_enabled, receiver_account_type with
  | _, _, NamedAccount => Some transfer_fee
  | false, _, _ => Some transfer_fee
  | true, false, EthImplicitAccount => Some transfer_fee
  | true, true, EthImplicitAccount =>
      checked_add 64 transfer_fee (exec_fee (fee cfg action_create_account))
  | true, _, NearImplicitAccount =>
      s ← checked_add 64 transfer_fee (exec_fee (fee cfg action_create_account));
      checked_add 64 s (exec_fee (fee cfg action_add_full_access_key))
  end.

Definition transfer_send_fee (cfg : RuntimeFeesConfig) (sender_is_receiver : bool)
    (implicit_account_creation_allowed eth_implicit_accounts_enabled : bool)
    (receiver_account_type : AccountType) : option Z :=
  let transfer_fee := send_fee (fee cfg action_transfer) sender_is_receiver in
  match implicit_account_creation_allowed, eth_implicit_accounts_enabled, receiver_account_type with
  | _, _, NamedAccount => Some transfer_fee
  | false, _, _ => Some transfer_fee
  | true, false, EthImplicitAccount => Some transfer_fee
  | true, true, EthImplicitAccount =>
      checked_add 64 transfer_fee (send_fee (fee cfg action_create_account) sender_is_receiver)
  | true, _, NearImplicitAccount =>
      s ← checked_add 64 transfer_fee (send_fee (fee cfg action_create_account) sender_is_receiver);
      checked_add 64 s (send_fee (fee cfg action_add_full_access_key) sender_is_receiver)
  end.

(** * Profiles *)

Record ProfileDataV3 : Type := mkProfile {
  actions_profile : EnumMap ActionCosts;
  wasm_ext_profile : EnumMap ExtCosts;
  wasm_gas : Z
}.

Definition new_profile : ProfileDataV3 := mkProfile (λ _, 0) (λ _, 0) 0.

Definition merge (p other : ProfileDataV3) : ProfileDataV3 :=
  mkProfile (λ c, saturating_add 64 (actions_profile p c) (actions_profile other c))
    (λ c, saturating_add 64 (wasm_ext_profile p c) (wasm_ext_profile other c))
    (saturating_add 64 (wasm_gas p) (wasm_gas other)).

Definition add_action_cost (p : ProfileDataV3) (c : ActionCosts) (value : Z) : ProfileDataV3 :=
  mkProfile (<[c := saturating_add 64 (actions_profile p c) value]> (actions_profile p))
    (wasm_ext_profile p) (wasm_gas p).

Definition add_ext_cost (p : ProfileDataV3) (c : ExtCosts) (value : Z) : ProfileDataV3 :=
  mkProfile (actions_profile p)
    (<[c := saturating_add 64 (wasm_ext_profile p c) value]> (wasm_ext_profile p)) (wasm_gas p).

Definition host_gas (p : ProfileDataV3) : Z :=
  foldl (saturating_add 64) 0 (as_slice ext_costs (wasm_ext_profile p)).

Definition action_gas (p : ProfileDataV3) : Z :=
  foldl (saturating_add 64) 0 (as_slice action_costs (actions_profile p)).

Definition compute_wasm_instruction_cost (p : ProfileDataV3) (total_gas_burnt : Z) : ProfileDataV3 :=
  mkProfile (actions_profile p) (wasm_ext_profile p)
    (saturating_sub (saturating_sub total_gas_burnt (action_gas p)) (host_gas p)).

(** The compute of one entry; the division panics on a zero gas cost. *)
Definition entry_compute (config : ExtCostsConfig) (c : ExtCosts) (value : Z) : option Z :=
  if value =? 0 then Some value
  else
    q ← checked_div (saturating_mul 128 value (compute_cost config c)) (gas_cost config c);
    Some (q mod 2 ^ 64).

Fixpoint compute_loop (config : ExtCostsConfig) (m : EnumMap ExtCosts) (keys : list ExtCosts) (acc : Z)
    : option Z :=
  match keys with
  | [] => Some acc
  | c :: keys =>
      v ← entry_compute config c (m c);
      compute_loop config m keys (saturating_add 64 acc v)
  end.

Definition total_compute_usage (p : ProfileDataV3) (config : ExtCostsConfig) : option Z :=
  ext_compute_cost ← compute_loop config (wasm_ext_profile p) ext_costs 0;
  Some (saturating_add 64 (saturating_add 64 ext_compute_cost (action_gas p)) (wasm_gas p)).

(** Serialization to the three borsh values. *)
Definition serialize_map {K} (index : K → nat) (keys : list K) (m : EnumMap K) : list Z :=
  foldl (λ arr c, <[index c := m c]> arr) (replicate (length keys) 0) keys.

Definition serialize_profile (p : ProfileDataV3) : list Z * list Z * Z :=
  (serialize_map borsh_action_index action_costs (actions_profile p),
   serialize_map borsh_ext_index ext_costs (wasm_ext_profile p), wasm_gas p).

Definition deserialize_profile (raw : list Z * list Z * Z) : ProfileDataV3 :=
  let '(actions_array, ext_array, gas) := raw in
  mkProfile (λ c, default 0 (actions_array !! borsh_action_index c))
    (λ c, default 0 (ext_array !! borsh_ext_index c)) gas.

(** * Positions of the costs *)

Lemma ext_costs_complete c : c ∈ ext_costs.
Proof. eapply list_elem_of_lookup_2, ext_costs_index. Qed.

Lemma action_costs_complete c : c ∈ action_costs.
Proof. eapply list_elem_of_lookup_2, action_costs_index. Qed.

Lemma ext_costs_NoDup : NoDup ext_costs.
Proof. apply (NoDup_fmap_1 borsh_ext_index). apply (NoDup_seq 0 85). Qed.

Lemma action_costs_NoDup : NoDup action_costs.
Proof. apply (NoDup_fmap_1 borsh_action_index). apply (NoDup_seq 0 20). Qed.

#[export] Hint Resolve ext_costs_complete action_costs_complete ext_costs_NoDup action_costs_NoDup : near.

(** * Sums over a profile *)

Section enum_sums.
Context {K : Type} `{EqDecision K}.
Implicit Types (m : EnumMap K) (keys : list K).

Lemma as_slice_nonneg keys m : (∀ c, 0 <= m c) → Forall (λ x, 0 <= x) (as_slice keys m).
Proof. intros Hm. apply Forall_fmap, Forall_forall. intros c _. apply Hm. Qed.

Lemma as_slice_other keys m c v : c ∉ keys → as_slice keys (<[c := v]> m) = as_slice keys m.
Proof.
  intros Hc. apply list_fmap_ext. intros i k Hk. rewrite fn_lookup_insert_ne; [done|].
  intros ->. apply Hc. by eapply list_elem_of_lookup_2.
Qed.

Lemma sum_as_slice_insert keys m c v :
  NoDup keys → c ∈ keys →
  sum_Z (as_slice keys (<[c := v]> m)) = sum_Z (as_slice keys m) + v - m c.
Proof.
  induction 1 as [|k keys Hk Hnd IH]; intros Hc; [by apply not_elem_of_nil in Hc|].
  simpl. destruct (decide (c = k)) as [->|Hne].
  - rewrite fn_lookup_insert. fold (as_slice keys (<[k := v]> m)). rewrite as_slice_other by done.
    unfold as_slice. lia.
  - rewrite fn_lookup_insert_ne by done. apply elem_of_cons in Hc as [?|Hc]; [done|].
    specialize (IH Hc). unfold as_slice in *. simpl in *. lia.
Qed.

Lemma entry_le_sum keys m c : (∀ c, 0 <= m c) → c ∈ keys → m c <= sum_Z (as_slice keys m).
Proof. intros Hm Hc. apply sum_Z_elem; [by apply as_slice_nonneg|]. by apply list_elem_of_fmap_2. Qed.
End enum_sums.

(** The gas a profile accounts for. *)
Definition host_sum (p : ProfileDataV3) : Z := sum_Z (as_slice ext_costs (wasm_ext_profile p)).
Definition action_sum (p : ProfileDataV3) : Z := sum_Z (as_slice action_costs (actions_profile p)).

Definition profile_ok (p : ProfileDataV3) : Prop :=
  (∀ c, 0 <= wasm_ext_profile p c) ∧ (∀ c, 0 <= actions_profile p c) ∧ 0 <= wasm_gas p.

Lemma host_gas_spec p : profile_ok p → host_gas p = Z.min (host_sum p) (umax 64).
Proof.
  intros (He & _). unfold host_gas. rewrite fold_saturating_add; [done|by vm_compute|by apply as_slice_nonneg].
Qed.

Lemma action_gas_spec p : profile_ok p → action_gas p = Z.min (action_sum p) (umax 64).
Proof.
  intros (_ & Ha & _). unfold action_gas. rewrite fold_saturating_add; [done|by vm_compute|by apply as_slice_nonneg].
Qed.

Lemma host_sum_add p c v :
  profile_ok p → 0 <= v → host_sum p + v <= umax 64 →
  host_sum (add_ext_cost p c v) = host_sum p + v ∧ action_sum (add_ext_cost p c v) = action_sum p ∧
  profile_ok (add_ext_cost p c v).
Proof.
  intros (He & Ha & Hw) Hv Hle. pose proof (entry_le_sum ext_costs _ c He (ext_costs_complete c)) as Hc.
  assert (saturating_add 64 (wasm_ext_profile p c) v = wasm_ext_profile p c + v) as E.
  { unfold saturating_add, host_sum in *. lia. }
  unfold host_sum, action_sum. cbn [wasm_ext_profile actions_profile add_ext_cost add_action_cost].
  rewrite E, sum_as_slice_insert by auto with near.
  unfold profile_ok. split_and!; [lia|done| |done|done]. intros c'. simpl.
  destruct (decide (c = c')) as [->|?]; [rewrite fn_lookup_insert|rewrite fn_lookup_insert_ne by done]; [|done].
  specialize (He c'). lia.
Qed.

Lemma action_sum_add p c v :
  profile_ok p → 0 <= v → action_sum p + v <= umax 64 →
  action_sum (add_action_cost p c v) = action_sum p + v ∧ host_sum (add_action_cost p c v) = host_sum p ∧
  profile_ok (add_action_cost p c v).
Proof.
  intros (He & Ha & Hw) Hv Hle. pose proof (entry_le_sum action_costs _ c Ha (action_costs_complete c)) as Hc.
  assert (saturating_add 64 (actions_profile p c) v = actions_profile p c + v) as E.
  { unfold saturating_add, action_sum in *. lia. }
  unfold host_sum, action_sum. cbn [wasm_ext_profile actions_profile add_ext_cost add_action_cost].
  rewrite E, sum_as_slice_insert by auto with near.
  unfold profile_ok. split_and!; [lia|done|done| |done]. intros c'. simpl.
  destruct (decide (c = c')) as [->|?]; [rewrite fn_lookup_insert|rewrite fn_lookup_insert_ne by done]; [|done].
  specialize (Ha c'). lia.
Qed.

(** The instruction cost is what the profile does not account for. *)
Lemma compute_wasm_spec p total :
  profile_ok p → host_sum p + action_sum p <= total <= umax 64 →
  let p' := compute_wasm_instruction_cost p total in
  wasm_gas p' = total - host_sum p - action_sum p ∧ host_gas p' + action_gas p' + wasm_gas p' = total.
Proof.
  intros Hp Ht p'.
  assert (0 <= host_sum p) as H1 by (apply sum_Z_nonneg, as_slice_nonneg, Hp).
  assert (0 <= action_sum p) as H2 by (apply sum_Z_nonneg, as_slice_nonneg, Hp).
  assert (host_gas p = host_sum p) as Eh by (rewrite host_gas_spec by exact Hp; lia).
  assert (action_gas p = action_sum p) as Ea by (rewrite action_gas_spec by exact Hp; lia).
  assert (host_gas p' = host_gas p) as -> by (unfold host_gas, p', compute_wasm_instruction_cost; cbn [wasm_ext_profile]; reflexivity).
  assert (action_gas p' = action_gas p) as -> by (unfold action_gas, p', compute_wasm_instruction_cost; cbn [actions_profile]; reflexivity).
  unfold p', compute_wasm_instruction_cost. cbn [wasm_gas]. rewrite Eh, Ea. unfold saturating_sub. lia.
Qed.

(** * Main results *)

Lemma i32_as_u128_nonneg x : 0 <= x < 2 ^ 128 → i32_as_u128 x = x.
Proof. intros. apply Z.mod_small. lia. Qed.

(** The penalty as a function on exact integers. *)
Lemma gas_penalty_spec cfg refund n d :
  gas_refund_penalty cfg = mkRational n d → 0 <= n <= d → 0 < d < 2 ^ 31 → in_u 64 refund →
  gas_penalty_for_gas_refund cfg refund =
    Some (Z.min (Z.max (refund * n / d) (min_gas_refund_penalty cfg)) refund).
Proof.
  intros E Hn Hd Hr. unfold gas_penalty_for_gas_refund. rewrite E. simpl numer. simpl denom.
  rewrite !i32_as_u128_nonneg by lia. unfold in_u, umax in Hr.
  assert (refund * n <= refund * d) as Hle by nia.
  rewrite (proj2 (checked_mul_Some 128 _ _ _)) by (split; [done|unfold umax; nia]). simpl.
  unfold checked_div. rewrite (proj2 (Z.eqb_neq d 0)) by lia. simpl.
  assert (0 <= refund * n / d <= refund) as Hq.
  { split; [apply Z.div_pos; nia|]. apply Z.div_le_upper_bound; nia. }
  by rewrite Z.mod_small by lia.
Qed.

(** For every configuration whose penalty ratio is between 0 and 1, the refund penalty of
    NEP-536 never overflows or panics, is never larger than the refund, is at least the
    configured minimum unless the whole refund is smaller, and is at least the configured ratio
    of the refund, rounded down. *)
Theorem gas_penalty_bounds cfg refund n d :
  gas_refund_penalty cfg = mkRational n d → 0 <= n <= d → 0 < d < 2 ^ 31 → in_u 64 refund →
  ∃ penalty, gas_penalty_for_gas_refund cfg refund = Some penalty ∧
    penalty <= refund ∧ Z.min refund (min_gas_refund_penalty cfg) <= penalty ∧
    refund * n / d <= penalty ∧
    (min_gas_refund_penalty cfg = 0 → penalty = refund * n / d).
Proof.
  intros E Hn Hd Hr. eexists. split; [by apply gas_penalty_spec|]. unfold in_u, umax in Hr.
  assert (0 <= refund * n / d <= refund) as Hq.
  { split; [apply Z.div_pos; nia|]. apply Z.div_le_upper_bound; nia. }
  lia.
Qed.

Definition example_fees : RuntimeFeesConfig :=
  mkRuntimeFeesConfig (λ _, mkFee 1 1 1) (mkStorageUsageConfig 1 100 40 1) (mkRational 3 10)
    (mkRational 103 100) false (mkRational 5 100) 1000000000000.

Lemma gas_penalty_bounds_witness :
  ∃ penalty, gas_penalty_for_gas_refund example_fees 300000000000000 = Some penalty ∧
    penalty <= 300000000000000 ∧ Z.min 300000000000000 1000000000000 <= penalty ∧
    300000000000000 * 5 / 100 <= penalty ∧
    (1000000000000 = 0 → penalty = 300000000000000 * 5 / 100).
Proof.
  apply (gas_penalty_bounds example_fees 300000000000000 5 100); [done|lia|lia|].
  unfold in_u. vm_compute. split; discriminate.
Defined.

Lemma serialize_map_spec {K} (index : K → nat) (keys : list K) (m : EnumMap K) :
  (∀ i c, keys !! i = Some c → index c = i) → serialize_map index keys m = as_slice keys m.
Proof.
  intros Hidx. unfold serialize_map.
  assert (∀ l pre, (∀ i c, l !! i = Some c → index c = (length pre + i)%nat) →
    foldl (λ arr c, <[index c := m c]> arr) (pre ++ replicate (length l) 0) l = pre ++ as_slice l m) as Hgen.
  { induction l as [|c l IH]; intros pre Hl; [done|]. simpl.
    rewrite (Hl 0%nat c eq_refl), Nat.add_0_r.
    replace (<[length pre := m c]> (pre ++ 0 :: replicate (length l) 0))
      with ((pre ++ [m c]) ++ replicate (length l) 0)
      by (rewrite insert_app_r_alt, Nat.sub_diag, <-app_assoc by lia; done).
    rewrite IH; [by rewrite <-app_assoc|]. intros i c' Hi.
    rewrite (Hl (S i) c' Hi), length_app. simpl. lia. }
  apply (Hgen keys []). done.
Qed.

Lemma ext_index_position i c : ext_costs !! i = Some c → borsh_ext_index c = i.
Proof.
  intros Hi. apply (NoDup_lookup ext_costs _ _ c ext_costs_NoDup); [apply ext_costs_index|done].
Qed.

Lemma action_index_position i c : action_costs !! i = Some c → borsh_action_index c = i.
Proof.
  intros Hi. apply (NoDup_lookup action_costs _ _ c action_costs_NoDup); [apply action_costs_index|done].
Qed.

(** A profile written to the database reads back unchanged; reading an array written by a
    binary that knew fewer costs keeps what was there and fills the missing costs with zero, and
    values of costs this binary does not know are ignored. *)
Theorem profile_roundtrip p n extra :
  (∀ c, actions_profile (deserialize_profile (serialize_profile p)) c = actions_profile p c) ∧
  (∀ c, wasm_ext_profile (deserialize_profile (serialize_profile p)) c = wasm_ext_profile p c) ∧
  wasm_gas (deserialize_profile (serialize_profile p)) = wasm_gas p ∧
  let '(actions, exts, gas) := serialize_profile p in
  (∀ c, wasm_ext_profile (deserialize_profile (actions, take n exts, gas)) c =
          if decide (borsh_ext_index c < n)%nat then wasm_ext_profile p c else 0) ∧
  (∀ c, wasm_ext_profile (deserialize_profile (actions, exts ++ extra, gas)) c = wasm_ext_profile p c).
Proof.
  unfold serialize_profile, deserialize_profile. cbn [actions_profile wasm_ext_profile wasm_gas].
  rewrite !serialize_map_spec by (apply ext_index_position || apply action_index_position).
  assert (∀ c, as_slice ext_costs (wasm_ext_profile p) !! borsh_ext_index c = Some (wasm_ext_profile p c)) as He.
  { intros c. unfold as_slice. by rewrite list_lookup_fmap, ext_costs_index. }
  split_and!; [intros c; by unfold as_slice; rewrite list_lookup_fmap, action_costs_index
              |intros c; by rewrite He|done|intros c|intros c].
  - case_decide; [by rewrite lookup_take_lt, He|by rewrite lookup_take_ge by lia].
  - by rewrite (lookup_app_l_Some _ _ _ _ (He c)).
Qed.

Lemma compute_loop_gas config m keys acc :
  (∀ c, compute_cost config c = gas_cost config c) → (∀ c, 0 <= gas_cost config c <= umax 64) →
  (∀ c, 0 <= m c <= umax 64 ∧ (m c ≠ 0 → gas_cost config c ≠ 0)) →
  compute_loop config m keys acc = Some (foldl (saturating_add 64) acc (as_slice keys m)).
Proof.
  intros Hcg Hg Hm. revert acc. induction keys as [|c keys IH]; intros acc; [done|].
  cbn [compute_loop]. destruct (Hm c) as [Hmc Hnz]. unfold entry_compute.
  destruct (m c =? 0) eqn:E; to_prop; cbn [mbind option_bind].
  { by rewrite IH. }
  specialize (Hg c). rewrite Hcg. unfold checked_div. rewrite (proj2 (Z.eqb_neq _ 0)) by auto.
  unfold saturating_mul. rewrite Z.min_l by (unfold umax in *; nia). cbn [mbind option_bind].
  rewrite Z.div_mul by auto. rewrite Z.mod_small by (unfold umax in *; lia). by rewrite IH.
Qed.

(** When every host function's compute cost equals its gas cost, the compute usage of a
    profile is the gas it accounts for: host functions, actions and Wasm instructions. *)
Theorem compute_usage_is_gas p config :
  (∀ c, compute_cost config c = gas_cost config c) → (∀ c, 0 < gas_cost config c <= umax 64) →
  profile_ok p → host_sum p + action_sum p + wasm_gas p <= umax 64 →
  total_compute_usage p config = Some (host_sum p + action_sum p + wasm_gas p).
Proof.
  intros Hcg Hg Hp Hsum. assert (Hp' := Hp). destruct Hp' as (He & Ha & Hw).
  assert (0 <= host_sum p) by by apply sum_Z_nonneg, as_slice_nonneg.
  assert (0 <= action_sum p) by by apply sum_Z_nonneg, as_slice_nonneg.
  assert (compute_loop config (wasm_ext_profile p) ext_costs 0 = Some (host_gas p)) as Hloop.
  { apply compute_loop_gas; [done|intros c; specialize (Hg c); lia|]. intros c. specialize (Hg c).
    pose proof (entry_le_sum ext_costs _ c He (ext_costs_complete c)) as Hc.
    unfold host_sum in *. specialize (He c). lia. }
  unfold total_compute_usage. rewrite Hloop. cbn [mbind option_bind].
  rewrite host_gas_spec, action_gas_spec by exact Hp. unfold saturating_add. f_equal. lia.
Qed.

Lemma compute_usage_is_gas_witness :
  total_compute_usage (add_ext_cost (add_action_cost new_profile action_transfer 40) ext_sha256_byte 2)
    (λ _, mkParameterCost 2 2) = Some 42.
Proof.
  apply (compute_usage_is_gas (add_ext_cost (add_action_cost new_profile action_transfer 40) ext_sha256_byte 2)
    (λ _, mkParameterCost 2 2)); [done|done| |by vm_compute].
  destruct (action_sum_add new_profile action_transfer 40) as (_ & Hh & Hok);
    [done|done|by vm_compute|].
  apply host_sum_add; [done|done|]. rewrite Hh. by vm_compute.
Defined.
