(* ===== verification/GasCounter.v ===== *)
(** The gas counter of a contract call.

    Models src/runtime/near-vm-runner/src/logic/gas_counter.rs: the counter shared
    with compiled code, the charging operations and the gas profile they fill.
    A call stops at the first error, so a run of the counter is a sequence of
    charges that the first failing one ends. *)

From S2P Require Import Prelude Costs.

Local Open Scope Z_scope.

(** * The counter *)

(** The errors of [HostError] that charging gas can raise. *)
Inductive HostError : Type := IntegerOverflow | GasExceeded | GasLimitExceeded.

Record FastGasCounter : Type := mkFast { burnt_gas : Z; gas_limit : Z; opcode_cost : Z }.

Record GasCounter : Type := mkGasCounter {
  fast_counter : FastGasCounter;
  promises_gas : Z;
  max_gas_burnt : Z;
  prepaid_gas : Z;
  is_view : bool;
  ext_costs_config : ExtCostsConfig;
  profile : ProfileDataV3
}.

Abbreviation GM := (M GasCounter HostError).

Definition new_counter (config : ExtCostsConfig) (max_gas_burnt opcode_cost prepaid_gas : Z)
    (is_view : bool) : GasCounter :=
  let prepaid_gas := if is_view then umax 64 else prepaid_gas in
  mkGasCounter (mkFast 0 (Z.min max_gas_burnt prepaid_gas) opcode_cost) 0 max_gas_burnt prepaid_gas
    is_view config new_profile.

Definition set_burnt (c : GasCounter) (burnt : Z) : GasCounter :=
  mkGasCounter (mkFast burnt (gas_limit (fast_counter c)) (opcode_cost (fast_counter c)))
    (promises_gas c) (max_gas_burnt c) (prepaid_gas c) (is_view c) (ext_costs_config c) (profile c).

Definition set_promises (c : GasCounter) (promises : Z) : GasCounter :=
  mkGasCounter (fast_counter c) promises (max_gas_burnt c) (prepaid_gas c) (is_view c)
    (ext_costs_config c) (profile c).

Definition set_limit (c : GasCounter) (limit : Z) : GasCounter :=
  mkGasCounter (mkFast (burnt_gas (fast_counter c)) limit (opcode_cost (fast_counter c)))
    (promises_gas c) (max_gas_burnt c) (prepaid_gas c) (is_view c) (ext_costs_config c) (profile c).

Definition set_profile (c : GasCounter) (p : ProfileDataV3) : GasCounter :=
  mkGasCounter (fast_counter c) (promises_gas c) (max_gas_burnt c) (prepaid_gas c) (is_view c)
    (ext_costs_config c) p.

(** [ok_or(e)?] *)
Definition ok_or {A} (o : option A) (e : HostError) : GM A :=
  match o with Some a => mret a | None => throw e end.

Definition modify (f : GasCounter → GasCounter) : GM () := c ← get_state; put_state (f c).

Definition process_gas_limit (new_burnt_gas new_used_gas : Z) : GM HostError :=
  c ← get_state;
  let hard_burnt_limit := Z.min (prepaid_gas c) (max_gas_burnt c) in
  let burnt := Z.min new_burnt_gas hard_burnt_limit in
  let used_gas_limit := Z.min (prepaid_gas c) new_used_gas in
  _ ← put_state (set_promises (set_burnt c burnt) (saturating_sub used_gas_limit burnt));
  mret (if max_gas_burnt c <? new_burnt_gas then GasLimitExceeded else GasExceeded).

Definition deduct_gas (gas_burnt gas_used : Z) : GM () :=
  if negb (gas_burnt <=? gas_used) then panic
  else
    c ← get_state;
    let promises := gas_used - gas_burnt in
    new_promises_gas ← ok_or (checked_add 64 (promises_gas c) promises) IntegerOverflow;
    new_burnt_gas ← ok_or (checked_add 64 (burnt_gas (fast_counter c)) gas_burnt) IntegerOverflow;
    new_used_gas ← ok_or (checked_add 64 new_burnt_gas new_promises_gas) IntegerOverflow;
    if (new_burnt_gas <=? max_gas_burnt c) && (new_used_gas <=? prepaid_gas c) then
      limit ← (if negb (promises =? 0) && negb (is_view c)
               then rest ← expect (checked_sub (prepaid_gas c) new_promises_gas);
                    mret (Z.min (max_gas_burnt c) rest)
               else mret (gas_limit (fast_counter c)));
      put_state (set_promises (set_burnt (set_limit c limit) new_burnt_gas) new_promises_gas)
    else
      e ← process_gas_limit new_burnt_gas new_used_gas;
      throw e.

Definition burn_gas (gas_burnt : Z) : GM () :=
  c ← get_state;
  new_burnt_gas ← ok_or (checked_add 64 (burnt_gas (fast_counter c)) gas_burnt) IntegerOverflow;
  if new_burnt_gas <=? gas_limit (fast_counter c) then put_state (set_burnt c new_burnt_gas)
  else
    let new_used_gas := wrapping_add 64 new_burnt_gas (promises_gas c) in
    e ← process_gas_limit new_burnt_gas new_used_gas;
    throw e.

Definition update_profile_host (cost : ExtCosts) (value : Z) : GM () :=
  modify (λ c, set_profile c (add_ext_cost (profile c) cost value)).

Definition update_profile_action (action : ActionCosts) (value : Z) : GM () :=
  modify (λ c, set_profile c (add_action_cost (profile c) action value)).

(** Run [m], then [after] on the state it leaves, and return the result of [m]. *)
Definition and_then_always {A} (m : GM A) (after : GM ()) : GM A := λ c,
  match m c with
  | Ok a c' => match after c' with Ok _ c'' => Ok a c'' | Err e c'' => Err e c'' | Panic => Panic | OutOfFuel => OutOfFuel end
  | Err e c' => match after c' with Ok _ c'' => Err e c'' | Err e' c'' => Err e' c'' | Panic => Panic | OutOfFuel => OutOfFuel end
  | Panic => Panic
  | OutOfFuel => OutOfFuel
  end.

Definition charge_host (cost : ExtCosts) (use_gas : Z) : GM () :=
  c ← get_state;
  let old_burnt_gas := burnt_gas (fast_counter c) in
  and_then_always (burn_gas use_gas)
    (c' ← get_state;
     update_profile_host cost (saturating_sub (burnt_gas (fast_counter c')) old_burnt_gas)).

Definition pay_per (cost : ExtCosts) (num : Z) : GM () :=
  c ← get_state;
  use_gas ← ok_or (checked_mul 64 num (gas_cost (ext_costs_config c) cost)) IntegerOverflow;
  charge_host cost use_gas.

Definition pay_base (cost : ExtCosts) : GM () :=
  c ← get_state;
  charge_host cost (gas_cost (ext_costs_config c) cost).

Definition pay_action_accumulated (burn_gas use_gas : Z) (action : ActionCosts) : GM () :=
  c ← get_state;
  let old_burnt_gas := burnt_gas (fast_counter c) in
  and_then_always (deduct_gas burn_gas use_gas)
    (c' ← get_state;
     update_profile_action action (saturating_sub (burnt_gas (fast_counter c')) old_burnt_gas)).

Definition prepay_gas (use_gas : Z) : GM () := deduct_gas 0 use_gas.

Definition used_gas (c : GasCounter) : option Z :=
  checked_add 64 (promises_gas c) (burnt_gas (fast_counter c)).

Definition add_contract_loading_fee (code_len : Z) : GM () :=
  _ ← pay_per ext_contract_loading_bytes code_len;
  pay_base ext_contract_loading_base.

Inductive FunctionCallError : Type := MethodEmptyName | FunctionCallGasExceeded.

Definition map_err {E E' A} (f : E → E') (m : M GasCounter E A) : M GasCounter E' A := λ c,
  match m c with
  | Ok a c' => Ok a c'
  | Err e c' => Err (f e) c'
  | Panic => Panic
  | OutOfFuel => OutOfFuel
  end.

Definition before_loading_executable (fix_contract_loading_cost : bool) (method_name : list Z)
    (wasm_code_bytes : Z) : M GasCounter FunctionCallError () :=
  match method_name with
  | [] => throw MethodEmptyName
  | _ =>
      if fix_contract_loading_cost
      then map_err (λ _, FunctionCallGasExceeded) (add_contract_loading_fee wasm_code_bytes)
      else mret ()
  end.

Definition after_loading_executable (fix_contract_loading_cost : bool) (wasm_code_bytes : Z)
    : M GasCounter FunctionCallError () :=
  if negb fix_contract_loading_cost
  then map_err (λ _, FunctionCallGasExceeded) (add_contract_loading_fee wasm_code_bytes)
  else mret ().

(** [StorageAccessTracker for GasCounter] *)
Definition trie_node_touched (count : Z) : GM () := pay_per ext_touching_trie_node count.
Definition cached_trie_node_access (count : Z) : GM () := pay_per ext_read_cached_trie_node count.
Definition deref_write_evicted_value_bytes (bytes : Z) : GM () := pay_per ext_storage_write_evicted_byte bytes.
Definition deref_removed_value_bytes (bytes : Z) : GM () := pay_per ext_storage_remove_ret_value_byte bytes.

(** * Invariants *)

Abbreviation burnt c := (burnt_gas (fast_counter c)).

(** The limits that hold at any time, also after a failed charge. *)
Record limits_ok (c : GasCounter) : Prop := {
  lim_burnt : 0 <= burnt c <= max_gas_burnt c;
  lim_promises : 0 <= promises_gas c;
  lim_used : burnt c + promises_gas c <= prepaid_gas c;
  lim_max : max_gas_burnt c <= umax 64;
  lim_prepaid : prepaid_gas c <= umax 64
}.

(** While the call runs, the limit shared with compiled code is the tightest one. *)
Record running_ok (c : GasCounter) : Prop := {
  run_limits : limits_ok c;
  run_limit : gas_limit (fast_counter c) = Z.min (max_gas_burnt c) (prepaid_gas c - promises_gas c);
  run_view : is_view c = true → promises_gas c = 0
}.

(** The profile never accounts for more than what was burnt. *)
Definition accounts_ok (c : GasCounter) : Prop :=
  profile_ok (profile c) ∧ host_sum (profile c) + action_sum (profile c) <= burnt c.

(** What a charge leaves untouched, and that gas is never given back. *)
Record grows (c c' : GasCounter) : Prop := {
  grow_burnt : burnt c <= burnt c';
  grow_max : max_gas_burnt c' = max_gas_burnt c;
  grow_prepaid : prepaid_gas c' = prepaid_gas c;
  grow_view : is_view c' = is_view c;
  grow_config : ext_costs_config c' = ext_costs_config c
}.

Lemma grows_refl c : grows c c.
Proof. by constructor. Qed.

(** The outcome of a charge: no panic, and the invariants in either case. *)
Definition charged (c : GasCounter) (ok err : GasCounter → Prop) (o : outcome GasCounter HostError ()) : Prop :=
  match o with
  | Ok _ c' => running_ok c' ∧ grows c c' ∧ ok c'
  | Err _ c' => limits_ok c' ∧ grows c c' ∧ err c'
  | _ => False
  end.

Lemma process_gas_limit_eq nb nu (c : GasCounter) :
  process_gas_limit nb nu c =
    Ok (if max_gas_burnt c <? nb then GasLimitExceeded else GasExceeded) (set_promises (set_burnt c (Z.min nb (Z.min (prepaid_gas c) (max_gas_burnt c))))
           (saturating_sub (Z.min (prepaid_gas c) nu) (Z.min nb (Z.min (prepaid_gas c) (max_gas_burnt c))))).
Proof. reflexivity. Qed.

Lemma halted_limits c nb nu :
  limits_ok c → burnt c <= nb → 0 <= nu →
  let c' := set_promises (set_burnt c (Z.min nb (Z.min (prepaid_gas c) (max_gas_burnt c))))
           (saturating_sub (Z.min (prepaid_gas c) nu) (Z.min nb (Z.min (prepaid_gas c) (max_gas_burnt c)))) in
  limits_ok c' ∧ grows c c' ∧ profile c' = profile c.
Proof.
  intros [Hb Hp Hu Hm Hpre] Hnb Hnu c'. subst c'. unfold saturating_sub.
  split_and!; [constructor|constructor|]; simpl; try done; lia.
Qed.

Lemma burn_gas_charged c g :
  running_ok c → 0 <= g →
  charged c (λ c', profile c' = profile c ∧ burnt c' = burnt c + g)
    (λ c', profile c' = profile c) (burn_gas g c).
Proof.
  intros [Hlim Hlimit Hview] Hg. assert (H := Hlim). destruct H as [Hb Hp Hu Hm Hpre].
  unfold burn_gas. rewrite (bind_Ok get_state _ c c c) by done. unfold ok_or.
  destruct (checked_add _ _ _) as [nb|] eqn:E.
  2: { simpl. split_and!; [done|apply grows_refl|done]. }
  apply checked_add_Some in E as [-> Hle]. rewrite (bind_Ok (mret _) _ c _ c) by done.
  destruct (_ <=? _) eqn:Hl; to_prop.
  - simpl. rewrite Hlimit in Hl. split_and!; [constructor|constructor| |]; simpl; try done; [constructor; simpl; lia|lia].
  - rewrite (bind_Ok _ _ _ _ _ (process_gas_limit_eq _ _ _)). simpl.
    apply halted_limits; [done|lia|]. unfold wrapping_add. apply Z.mod_pos_bound. lia.
Qed.

Lemma deduct_gas_charged c b u :
  running_ok c → 0 <= b <= u → (is_view c = true → b = u) →
  charged c (λ c', profile c' = profile c ∧ burnt c' = burnt c + b ∧
               promises_gas c' = promises_gas c + (u - b))
    (λ c', profile c' = profile c) (deduct_gas b u c).
Proof.
  intros [Hlim Hlimit Hview] Hbu Hv. assert (H := Hlim). destruct H as [Hb Hp Hu Hm Hpre].
  unfold deduct_gas. replace (negb (b <=? u)) with false by (symmetry; apply negb_false_iff; lia).
  rewrite (bind_Ok get_state _ c c c) by done. unfold ok_or.
  assert (Hsame : limits_ok c ∧ grows c c ∧ profile c = profile c) by (split_and!; [done|apply grows_refl|done]).
  destruct (checked_add 64 (promises_gas c) _) as [np|] eqn:E1; [|exact Hsame].
  apply checked_add_Some in E1 as [-> Hle1]. rewrite (bind_Ok (mret _) _ c _ c) by done.
  destruct (checked_add 64 (burnt c) b) as [nb|] eqn:E2; [|exact Hsame].
  apply checked_add_Some in E2 as [-> Hle2]. rewrite (bind_Ok (mret _) _ c _ c) by done.
  destruct (checked_add 64 (burnt c + b) _) as [nu|] eqn:E3; [|exact Hsame].
  apply checked_add_Some in E3 as [-> Hle3]. rewrite (bind_Ok (mret _) _ c _ c) by done.
  destruct (_ && _) eqn:Hl; to_prop.
  - assert (∃ limit, (if negb (u - b =? 0) && negb (is_view c)
               then rest ← expect (checked_sub (prepaid_gas c) (promises_gas c + (u - b)));
                    mret (Z.min (max_gas_burnt c) rest)
               else mret (gas_limit (fast_counter c))) c = Ok (E := HostError) limit c ∧
      limit = Z.min (max_gas_burnt c) (prepaid_gas c - (promises_gas c + (u - b)))) as (limit & Hrun & Hlim').
    { destruct (u - b =? 0) eqn:Ez; to_prop; simpl; [eexists; split; [done|]; lia|].
      destruct (is_view c) eqn:Ev; simpl; [specialize (Hv eq_refl); lia|].
      rewrite checked_sub_ok by lia. eauto. }
    rewrite (bind_Ok _ _ _ _ _ Hrun). simpl.
    split_and!; [constructor|constructor| | |]; simpl; try done; [constructor; simpl; lia| |lia].
    intros Hisv. rewrite Hview, Hv by done. lia.
  - rewrite (bind_Ok _ _ _ _ _ (process_gas_limit_eq _ _ _)). simpl. apply halted_limits; [done|lia|lia].
Qed.

(** * Runs of the counter *)

(** What charges a running call: host functions, actions, gas reserved for promises, and the
    instructions of the compiled code. *)
Inductive Charge : Type :=
| PayPer (cost : ExtCosts) (num : Z)
| PayBase (cost : ExtCosts)
| PayAction (burn use : Z) (action : ActionCosts)
| Prepay (use : Z)
| BurnWasm (gas : Z)
| LoadingFee (code_len : Z).

Definition run_charge (ch : Charge) : GM () :=
  match ch with
  | PayPer cost num => pay_per cost num
  | PayBase cost => pay_base cost
  | PayAction burn use action => pay_action_accumulated burn use action
  | Prepay use => prepay_gas use
  | BurnWasm gas => burn_gas gas
  | LoadingFee code_len => add_contract_loading_fee code_len
  end.

Fixpoint run_charges (chs : list Charge) : GM () :=
  match chs with
  | [] => mret ()
  | ch :: chs => _ ← run_charge ch; run_charges chs
  end.

(** Amounts are unsigned, the burnt part of an action is part of what it uses, and view calls
    reserve no gas for promises (they are refused before any gas is reserved). *)
Definition charge_ok (view : bool) (ch : Charge) : Prop :=
  match ch with
  | PayPer _ num => 0 <= num
  | PayBase _ => True
  | PayAction burn use _ => 0 <= burn <= use ∧ (view = true → burn = use)
  | Prepay use => 0 <= use ∧ (view = true → use = 0)
  | BurnWasm gas => 0 <= gas
  | LoadingFee code_len => 0 <= code_len
  end.

(** Gas burnt by the compiled code itself. *)
Definition wasm_charge (ch : Charge) : Z := match ch with BurnWasm gas => gas | _ => 0 end.

Definition wasm_part (c : GasCounter) : Z :=
  burnt c - host_sum (profile c) - action_sum (profile c).

Definition config_ok (config : ExtCostsConfig) : Prop := ∀ cost, 0 <= gas_cost config cost.

(** The invariant of a run: limits, and the profile accounts for everything but [wasm] gas. *)
Definition run_inv (wasm : Z) (c c' : GasCounter) : Prop :=
  running_ok c' ∧ grows c c' ∧ profile_ok (profile c') ∧ wasm_part c' = wasm.

Definition halt_inv (wasm : Z) (c c' : GasCounter) : Prop :=
  limits_ok c' ∧ grows c c' ∧ profile_ok (profile c') ∧ wasm <= wasm_part c'.

Definition run_post (wasm0 wasm : Z) (c : GasCounter) (o : outcome GasCounter HostError ()) : Prop :=
  match o with
  | Ok _ c' => run_inv wasm c c'
  | Err _ c' => halt_inv wasm0 c c'
  | _ => False
  end.

Lemma grows_trans c1 c2 c3 : grows c1 c2 → grows c2 c3 → grows c1 c3.
Proof. intros [] []. constructor; lia || congruence. Qed.

Lemma sums_nonneg p : profile_ok p → 0 <= host_sum p ∧ 0 <= action_sum p.
Proof. intros (He & Ha & _). split; by apply sum_Z_nonneg, as_slice_nonneg. Qed.

Section run_steps.
Variables (c : GasCounter) (wasm : Z).
Hypothesis Hrun : running_ok c.
Hypothesis Hprof : profile_ok (profile c).
Hypothesis Hwasm : wasm_part c = wasm.
Hypothesis Hwasm0 : 0 <= wasm.

(** The profile update that ends a host or action charge. *)
Lemma host_account c' cost :
  limits_ok c' → grows c c' → profile c' = profile c →
  let v := saturating_sub (burnt c') (burnt c) in
  let p' := add_ext_cost (profile c') cost v in
  profile_ok p' ∧ host_sum p' + action_sum p' = burnt c' - wasm.
Proof.
  intros [Hb _ _ Hm _] [Hg _ _ _ _] Hp v p'. destruct (sums_nonneg _ Hprof) as [H1 H2].
  assert (v = burnt c' - burnt c) as Hv by (unfold v, saturating_sub; lia). unfold wasm_part in Hwasm.
  destruct (host_sum_add (profile c) cost v) as (Hh & Ha & Hok); [done|lia|lia|].
  unfold p'. rewrite Hp, Hh, Ha. split; [done|lia].
Qed.

Lemma action_account c' action :
  limits_ok c' → grows c c' → profile c' = profile c →
  let v := saturating_sub (burnt c') (burnt c) in
  let p' := add_action_cost (profile c') action v in
  profile_ok p' ∧ host_sum p' + action_sum p' = burnt c' - wasm.
Proof.
  intros [Hb _ _ Hm _] [Hg _ _ _ _] Hp v p'. destruct (sums_nonneg _ Hprof) as [H1 H2].
  assert (v = burnt c' - burnt c) as Hv by (unfold v, saturating_sub; lia). unfold wasm_part in Hwasm.
  destruct (action_sum_add (profile c) action v) as (Hh & Ha & Hok); [done|lia|lia|].
  unfold p'. rewrite Hp, Hh, Ha. split; [done|lia].
Qed.

Lemma set_profile_running c' p : running_ok c' → running_ok (set_profile c' p).
Proof. intros [[] ? ?]. constructor; [constructor|..]; done. Qed.

Lemma set_profile_limits c' p : limits_ok c' → limits_ok (set_profile c' p).
Proof. intros []. constructor; done. Qed.

Lemma set_profile_grows c' p : grows c c' → grows c (set_profile c' p).
Proof. intros []. constructor; done. Qed.

Lemma charge_host_ok cost g : 0 <= g → run_post wasm wasm c (charge_host cost g c).
Proof.
  intros Hg. pose proof (burn_gas_charged c g Hrun Hg) as Hb. unfold charge_host.
  rewrite (bind_Ok get_state _ c c c) by done. unfold and_then_always.
  destruct (burn_gas g c) as [[] c'|e c'| |]; simpl in Hb; [| |done|done].
  - destruct Hb as (Hr & Hgr & Hp & _). destruct (host_account c' cost (run_limits _ Hr) Hgr Hp) as [Hok Hsum].
    split_and!; [by apply set_profile_running|by apply set_profile_grows|exact Hok|].
    unfold wasm_part. simpl. simpl in Hsum. lia.
  - destruct Hb as (Hr & Hgr & Hp). destruct (host_account c' cost Hr Hgr Hp) as [Hok Hsum].
    split_and!; [by apply set_profile_limits|by apply set_profile_grows|exact Hok|].
    unfold wasm_part. simpl. simpl in Hsum. lia.
Qed.

Lemma pay_action_ok b u action :
  0 <= b <= u → (is_view c = true → b = u) →
  run_post wasm wasm c (pay_action_accumulated b u action c).
Proof.
  intros Hbu Hv. pose proof (deduct_gas_charged c b u Hrun Hbu Hv) as Hb. unfold pay_action_accumulated.
  rewrite (bind_Ok get_state _ c c c) by done. unfold and_then_always.
  destruct (deduct_gas b u c) as [[] c'|e c'| |]; simpl in Hb; [| |done|done].
  - destruct Hb as (Hr & Hgr & Hp & _). destruct (action_account c' action (run_limits _ Hr) Hgr Hp) as [Hok Hsum].
    split_and!; [by apply set_profile_running|by apply set_profile_grows|exact Hok|].
    unfold wasm_part. simpl. simpl in Hsum. lia.
  - destruct Hb as (Hr & Hgr & Hp). destruct (action_account c' action Hr Hgr Hp) as [Hok Hsum].
    split_and!; [by apply set_profile_limits|by apply set_profile_grows|exact Hok|].
    unfold wasm_part. simpl. simpl in Hsum. lia.
Qed.

Lemma unchanged_halt : halt_inv wasm c c.
Proof. split_and!; [apply Hrun|apply grows_refl|done|lia]. Qed.

Lemma pay_per_ok cost num :
  config_ok (ext_costs_config c) → 0 <= num → run_post wasm wasm c (pay_per cost num c).
Proof.
  intros Hc Hn. unfold pay_per. rewrite (bind_Ok get_state _ c c c) by done. unfold ok_or.
  destruct (checked_mul _ _ _) as [g|] eqn:E; [|exact unchanged_halt].
  apply checked_mul_Some in E as [-> _]. rewrite (bind_Ok (mret _) _ c _ c) by done.
  apply charge_host_ok. specialize (Hc cost). nia.
Qed.

Lemma pay_base_ok cost : config_ok (ext_costs_config c) → run_post wasm wasm c (pay_base cost c).
Proof. intros Hc. unfold pay_base. rewrite (bind_Ok get_state _ c c c) by done. apply charge_host_ok, Hc. Qed.

Lemma prepay_ok u : 0 <= u → (is_view c = true → u = 0) → run_post wasm wasm c (prepay_gas u c).
Proof.
  intros Hu Hv. assert (0 <= 0 <= u) as Hu' by lia.
  pose proof (deduct_gas_charged c 0 u Hrun Hu' ltac:(intros E; symmetry; by apply Hv)) as Hb. unfold prepay_gas.
  destruct (deduct_gas 0 u c) as [[] c'|e c'| |]; simpl in Hb; [| |done|done].
  - destruct Hb as (Hr & Hgr & Hp & Hbt & _). split_and!; [done|done|by rewrite Hp|].
    unfold wasm_part in *. rewrite Hp, Hbt. lia.
  - destruct Hb as (Hr & Hgr & Hp). split_and!; [done|done|by rewrite Hp|].
    unfold wasm_part in *. rewrite Hp. destruct Hgr. lia.
Qed.

Lemma burn_wasm_ok g : 0 <= g → run_post wasm (wasm + g) c (burn_gas g c).
Proof.
  intros Hg. pose proof (burn_gas_charged c g Hrun Hg) as Hb.
  destruct (burn_gas g c) as [[] c'|e c'| |]; simpl in Hb; [| |done|done].
  - destruct Hb as (Hr & Hgr & Hp & Hbt). split_and!; [done|done|by rewrite Hp|].
    unfold wasm_part in *. rewrite Hp, Hbt. lia.
  - destruct Hb as (Hr & Hgr & Hp). split_and!; [done|done|by rewrite Hp|].
    unfold wasm_part in *. rewrite Hp. destruct Hgr. lia.
Qed.
End run_steps.

Lemma run_post_bind w0 w1 w2 c (m k : GM ()) :
  w0 <= w1 → run_post w0 w1 c (m c) → (∀ c', run_inv w1 c c' → run_post w1 w2 c' (k c')) →
  run_post w0 w2 c ((_ ← m; k) c).
Proof.
  intros Hw Hm Hk. unfold mbind, M_bind. destruct (m c) as [[] c1|e c1| |]; try done.
  specialize (Hk c1 Hm). destruct Hm as (_ & Hg1 & _ & _).
  destruct (k c1) as [[] c2|e c2| |]; [| |done|done].
  - destruct Hk as (? & Hg2 & ? & ?). split_and!; [done|by eapply grows_trans|done|done].
  - destruct Hk as (? & Hg2 & ? & ?). split_and!; [done|by eapply grows_trans|done|lia].
Qed.

Lemma run_charge_ok c wasm ch :
  running_ok c → profile_ok (profile c) → wasm_part c = wasm → 0 <= wasm →
  config_ok (ext_costs_config c) → charge_ok (is_view c) ch →
  run_post wasm (wasm + wasm_charge ch) c (run_charge ch c).
Proof.
  intros Hr Hp Hw Hw0 Hcfg Hch. destruct ch as [cost num|cost|b u a|u|g|len]; simpl in *; rewrite ?Z.add_0_r.
  - by apply pay_per_ok.
  - by apply pay_base_ok.
  - destruct Hch. by apply pay_action_ok.
  - destruct Hch. by apply prepay_ok.
  - by apply burn_wasm_ok.
  - unfold add_contract_loading_fee. eapply run_post_bind; [reflexivity|by apply pay_per_ok|].
    intros c' (Hr' & Hg & Hp' & Hw'). apply pay_base_ok; try done. by rewrite (grow_config _ _ Hg).
Qed.

Lemma run_charges_ok chs : ∀ c wasm,
  running_ok c → profile_ok (profile c) → wasm_part c = wasm → 0 <= wasm →
  config_ok (ext_costs_config c) → Forall (charge_ok (is_view c)) chs →
  run_post wasm (wasm + sum_Z (wasm_charge <$> chs)) c (run_charges chs c).
Proof.
  induction chs as [|ch chs IH]; intros c wasm Hr Hp Hw Hw0 Hcfg Hch.
  { simpl. split_and!; [done|apply grows_refl|done|lia]. }
  apply Forall_cons in Hch as [Hc Hch]. simpl. rewrite Z.add_assoc.
  assert (0 <= wasm_charge ch) as Hwc by (destruct ch; simpl in *; lia).
  eapply run_post_bind; [|by apply run_charge_ok|]; [lia|].
  intros c' (Hr' & Hg & Hp' & Hw'). apply IH; try done; [lia| |].
  - by rewrite (grow_config _ _ Hg).
  - by rewrite (grow_view _ _ Hg).
Qed.

Lemma new_counter_ok config max opcode prepaid view :
  in_u 64 max → in_u 64 prepaid →
  let c := new_counter config max opcode prepaid view in
  running_ok c ∧ profile_ok (profile c) ∧ wasm_part c = 0.
Proof.
  intros [Hm1 Hm2] [Hp1 Hp2] c. subst c. split_and!; [|done..|done].
  constructor; [constructor|..]; destruct view; simpl; try done; unfold umax in *; lia.
Qed.

(** * Main results *)

Section call.
Variables (config : ExtCostsConfig) (max opcode prepaid : Z) (view : bool) (chs : list Charge).
Hypothesis Hmax : in_u 64 max.
Hypothesis Hprepaid : in_u 64 prepaid.
Hypothesis Hconfig : config_ok config.
Hypothesis Hchs : Forall (charge_ok view) chs.

Let start := new_counter config max opcode prepaid view.

Lemma call_ok : run_post 0 (sum_Z (wasm_charge <$> chs)) start (run_charges chs start).
Proof.
  destruct (new_counter_ok config max opcode prepaid view Hmax Hprepaid) as (Hr & Hp & Hw).
  apply (run_charges_ok chs start 0); done.
Qed.

(** C22: whatever a contract call charges, from the start until it ends or a charge fails, the
    counter never panics, the burnt gas stays within the hard limit and the used gas (burnt plus
    reserved for promises) within the prepaid gas, and the sum the counter reports does not
    overflow; in a non-view call that is the gas the caller paid for. *)
Theorem gas_never_exceeds_limits :
  match run_charges chs start with
  | Ok _ c | Err _ c =>
      0 <= burnt c <= max ∧ 0 <= promises_gas c ∧
      used_gas c = Some (promises_gas c + burnt c) ∧
      (view = false → promises_gas c + burnt c <= prepaid)
  | _ => False
  end.
Proof.
  pose proof call_ok as Hpost. unfold used_gas.
  destruct (run_charges chs start) as [[] c|e c| |]; [| |done|done].
  all: assert (limits_ok c ∧ grows start c) as [[Hb Hp Hu Hm Hpre] [_ Egm Egp _ _]] by
    (destruct Hpost as (Hl & Hg & _); split; [|exact Hg]; first [apply Hl|exact Hl]).
  all: rewrite Egm, Egp in *; simpl in Hb, Hu, Hpre; rewrite checked_add_ok by lia.
  all: split_and!; [lia|lia|done|done|intros ->; lia].
Qed.

(** C23: the profile explains every unit of burnt gas: when a call ends, the Wasm instruction
    cost computed at the end is exactly the gas the compiled code burnt, and host functions,
    actions and instructions sum up to the burnt gas; after a failed charge nothing is
    attributed beyond what was burnt. *)
Theorem profile_explains_burnt_gas :
  match run_charges chs start with
  | Ok _ c =>
      let p := compute_wasm_instruction_cost (profile c) (burnt c) in
      wasm_gas p = sum_Z (wasm_charge <$> chs) ∧ host_gas p + action_gas p + wasm_gas p = burnt c
  | Err _ c =>
      let p := compute_wasm_instruction_cost (profile c) (burnt c) in
      host_gas p + action_gas p + wasm_gas p = burnt c
  | _ => False
  end.
Proof.
  pose proof call_ok as Hpost.
  destruct (run_charges chs start) as [[] c|e c| |]; [| |done|done].
  all: destruct Hpost as (Hl & Hg & Hp & Hw); destruct (sums_nonneg _ Hp) as [H1 H2].
  - assert (0 <= sum_Z (wasm_charge <$> chs)) as Hw0.
    { apply sum_Z_nonneg, Forall_fmap. eapply Forall_impl; [exact Hchs|]. intros [] Hc; simpl in *; lia. }
    destruct (compute_wasm_spec (profile c) (burnt c) Hp) as [E1 E2].
    { destruct Hl as [[] _ _]. unfold wasm_part in Hw. lia. }
    split; [|exact E2]. rewrite E1. unfold wasm_part in Hw. lia.
  - apply (compute_wasm_spec (profile c) (burnt c) Hp).
    destruct Hl. unfold wasm_part in Hw. lia.
Qed.
End call.

Lemma gas_never_exceeds_limits_witness :
  match run_charges [PayBase ext_sha256_base; PayAction 3 10 action_transfer; BurnWasm 4; PayPer ext_sha256_byte 90]
          (new_counter (λ _, mkParameterCost 2 2) 100 1 60 false) with
  | Ok _ c | Err _ c =>
      0 <= burnt c <= 100 ∧ 0 <= promises_gas c ∧
      used_gas c = Some (promises_gas c + burnt c) ∧
      (false = false → promises_gas c + burnt c <= 60)
  | _ => False
  end.
Proof.
  apply (gas_never_exceeds_limits (λ _, mkParameterCost 2 2) 100 1 60 false).
  - unfold in_u. vm_compute. split; discriminate.
  - unfold in_u. vm_compute. split; discriminate.
  - intros cost. done.
  - repeat constructor; simpl; (lia || discriminate).
Defined.

Lemma profile_explains_burnt_gas_witness :
  match run_charges [PayBase ext_sha256_base; PayAction 3 10 action_transfer; BurnWasm 4]
          (new_counter (λ _, mkParameterCost 2 2) 100 1 60 false) with
  | Ok _ c =>
      let p := compute_wasm_instruction_cost (profile c) (burnt c) in
      wasm_gas p = 4 ∧ host_gas p + action_gas p + wasm_gas p = burnt c
  | Err _ c =>
      let p := compute_wasm_instruction_cost (profile c) (burnt c) in
      host_gas p + action_gas p + wasm_gas p = burnt c
  | _ => False
  end.
Proof.
  apply (profile_explains_burnt_gas (λ _, mkParameterCost 2 2) 100 1 60 false
    [PayBase ext_sha256_base; PayAction 3 10 action_transfer; BurnWasm 4]).
  - unfold in_u. vm_compute. split; discriminate.
  - unfold in_u. vm_compute. split; discriminate.
  - intros cost. done.
  - repeat constructor; simpl; (lia || discriminate).
Defined.

(** The fast path for charges without promises agrees with the general one: as long as
    the used gas does not overflow, [burn_gas] returns the same result and leaves the same
    counter as [deduct_gas] with equal burnt and used gas; when it would overflow, [deduct_gas]
    reports an integer overflow and changes nothing while [burn_gas] reports an exceeded limit. *)
Theorem burn_gas_refines_deduct_gas c g :
  running_ok c → 0 <= g → burnt c + g <= umax 64 →
  if decide (burnt c + g + promises_gas c <= umax 64)
  then burn_gas g c = deduct_gas g g c
  else deduct_gas g g c = Err IntegerOverflow c ∧
       ∃ c', burn_gas g c = Err (if max_gas_burnt c <? burnt c + g then GasLimitExceeded else GasExceeded) c' ∧
             limits_ok c'.
Proof.
  intros [Hlim Hlimit Hview] Hg Hov. assert (H := Hlim). destruct H as [Hb Hp Hu Hm Hpre].
  unfold burn_gas, deduct_gas. rewrite Z.leb_refl. cbn [negb].
  rewrite !(bind_Ok get_state _ c c c) by done. rewrite Z.sub_diag.
  rewrite !(checked_add_ok 64 (burnt c) g), (checked_add_ok 64 (promises_gas c) 0) by lia.
  cbn [ok_or]. rewrite !(bind_Ok (mret _) _ c _ c) by done. case_decide as Hdec.
  - rewrite checked_add_ok by lia. cbn [ok_or]. rewrite (bind_Ok (mret _) _ c _ c) by done.
    rewrite Z.add_0_r, Hlimit.
    assert ((burnt c + g <=? max_gas_burnt c) && (burnt c + g + promises_gas c <=? prepaid_gas c) =
      (burnt c + g <=? Z.min (max_gas_burnt c) (prepaid_gas c - promises_gas c))) as -> by lia.
    case_match; to_prop.
    + cbn [Z.eqb negb andb]. destruct c as [[] ? ? ? ? ? ?]. simpl in *. by rewrite Hlimit.
    + rewrite !(bind_Ok _ _ _ _ _ (process_gas_limit_eq _ _ _)). unfold wrapping_add.
      rewrite Z.mod_small; [done|]. unfold umax in *. lia.
  - rewrite Z.add_0_r. unfold checked_add.
    replace (burnt c + g + promises_gas c <=? umax 64) with false by lia. split; [done|].
    rewrite (proj2 (Z.leb_gt _ _)) by lia.
    rewrite (bind_Ok _ _ _ _ _ (process_gas_limit_eq _ _ _)). eexists. split; [done|].
    apply halted_limits; [done|lia|]. unfold wrapping_add. apply Z.mod_pos_bound. lia.
Qed.

Lemma burn_gas_refines_deduct_gas_witness :
  burn_gas 30 (new_counter (λ _, mkParameterCost 2 2) 100 1 60 false) =
  deduct_gas 30 30 (new_counter (λ _, mkParameterCost 2 2) 100 1 60 false).
Proof.
  apply (burn_gas_refines_deduct_gas (new_counter (λ _, mkParameterCost 2 2) 100 1 60 false) 30).
  - constructor; [constructor|..]; vm_compute; repeat split; discriminate.
  - lia.
  - vm_compute. discriminate.
Defined.
