(* ===== verification/Merkle.v ===== *)
(** Merkle trees.

    Models src/core/primitives/src/merkle.rs: [merklize], which builds the root
    and all membership paths of an array in place, path verification with and
    without an index, and [PartialMerkleTree], which keeps only the path of the
    next leaf.  The hash functions (SHA-256 of a borsh encoding) are parameters:
    [hash_borsh] for items and [combine_hash] for pairs of hashes. *)

From S2P Require Import Prelude.

Local Open Scope nat_scope.

#[local] Arguments Nat.pow : simpl never.

Inductive Direction : Type := Left | Right.

#[export] Instance Direction_eq_dec : EqDecision Direction.
Proof. solve_decision. Defined.

Record MerklePathItem (H : Type) : Type := mkItem { hash : H; direction : Direction }.
Arguments mkItem {H} _ _.
Arguments hash {H} _.
Arguments direction {H} _.

Abbreviation MerklePath H := (list (MerklePathItem H)).

(** [n.next_power_of_two()] for [n] at least one. *)
Definition next_power_of_two (n : nat) : nat := 2 ^ Nat.log2_up n.

Section merkle.
Context {H T : Type} `{EqDecision H}.
Variable combine_hash : H → H → H.
Variable hash_borsh : T → H.
Variable default_hash : H.

(** * Building a tree *)

(** The path of leaf [i] in the lowest level. *)
Definition first_path (hashes : list H) (arr_len i : nat) : option (MerklePath H) :=
  if bool_decide (i mod 2 = 0) then
    if bool_decide (i + 1 < arr_len) then
      h ← hashes !! (i + 1);
      Some [mkItem h Right]
    else Some []
  else
    h ← hashes !! (i - 1);
    Some [mkItem h Left].

(** [for j in 0..counter]: push [item] on the paths of a block of leaves. *)
Fixpoint push_block (js : list nat) (base : nat) (item : MerklePathItem H) (paths : list (MerklePath H))
    : list (MerklePath H) :=
  match js with
  | [] => paths
  | j :: js =>
      let index := base + j in
      let paths := if bool_decide (index < length paths)
                   then alter (λ p, p ++ [item]) index paths else paths in
      push_block js base item paths
  end.

Definition merklize_step (len counter arr_len i : nat) (st : list H * list (MerklePath H))
    : option (list H * list (MerklePath H)) :=
  let '(hashes, paths) := st in
  if bool_decide (arr_len ≤ 2 * i) then Some st
  else
    hash ← (if bool_decide (arr_len ≤ 2 * i + 1) then hashes !! (2 * i)
            else a ← hashes !! (2 * i); b ← hashes !! (2 * i + 1); Some (combine_hash a b));
    let hashes := <[i := hash]> hashes in
    if bool_decide (1 < len) then
      if bool_decide (i mod 2 = 0)
      then Some (hashes, push_block (seq 0 counter) ((i + 1) * counter) (mkItem hash Left) paths)
      else Some (hashes, push_block (seq 0 counter) ((i - 1) * counter) (mkItem hash Right) paths)
    else Some (hashes, paths).

Fixpoint merklize_for (ixs : list nat) (len counter arr_len : nat) (st : list H * list (MerklePath H))
    : option (list H * list (MerklePath H)) :=
  match ixs with
  | [] => Some st
  | i :: ixs =>
      st ← merklize_step len counter arr_len i st;
      merklize_for ixs len counter arr_len st
  end.

Fixpoint merklize_while (fuel len counter arr_len : nat) (st : list H * list (MerklePath H))
    : option (list H * list (MerklePath H)) :=
  if bool_decide (1 < len) then
    match fuel with
    | 0 => None
    | S fuel =>
        let len := len / 2 in
        let counter := counter * 2 in
        st ← merklize_for (seq 0 len) len counter arr_len st;
        merklize_while fuel len counter ((arr_len + 1) / 2) st
    end
  else Some st.

Definition merklize (arr : list T) : option (H * list (MerklePath H)) :=
  match arr with
  | [] => Some (default_hash, [])
  | _ =>
      let len := next_power_of_two (length arr) in
      let hashes := hash_borsh <$> arr in
      if bool_decide (len = 1) then h ← hashes !! 0; Some (h, [[]])
      else
        paths ← mapM (first_path hashes (length arr)) (seq 0 (length arr));
        '(hashes, paths) ← merklize_while (length arr) len 1 (length arr) (hashes, paths);
        root ← hashes !! 0;
        Some (root, paths)
  end.

(** * Verifying a path *)

Definition path_step (res : H) (item : MerklePathItem H) : H :=
  match direction item with
  | Left => combine_hash (hash item) res
  | Right => combine_hash res (hash item)
  end.

Definition compute_root_from_path (path : MerklePath H) (item_hash : H) : H :=
  foldl path_step item_hash path.

Definition verify_hash (root : H) (path : MerklePath H) (item_hash : H) : bool :=
  bool_decide (compute_root_from_path path item_hash = root).

Definition verify_path (root : H) (path : MerklePath H) (item : T) : bool :=
  verify_hash root path (hash_borsh item).

Definition compute_root_from_path_and_item (path : MerklePath H) (item : T) : H :=
  compute_root_from_path path (hash_borsh item).

(** [for k in 0..height]; [None] is a [return false], [Some] the value of [used] at the end. *)
Fixpoint match_index_loop (ks : list nat) (path : MerklePath H) (part_idx num_merklized_parts : Z) (used : nat)
    : option nat :=
  match ks with
  | [] => Some used
  | k :: ks =>
      let block := Z.shiftr part_idx (Z.of_nat k) in
      let sibling_block := Z.lxor block 1 in
      let sibling_leaf_start_index := (Z.shiftl sibling_block (Z.of_nat k) mod 2 ^ 64)%Z in
      if (sibling_leaf_start_index <? num_merklized_parts)%Z then
        item ← path !! used;
        let expected := if (Z.land (Z.shiftr part_idx (Z.of_nat k)) 1 =? 0)%Z then Right else Left in
        if bool_decide (direction item = expected)
        then match_index_loop ks path part_idx num_merklized_parts (S used)
        else None
      else match_index_loop ks path part_idx num_merklized_parts used
  end.

(** [None] is the panic of [next_power_of_two] above [2^63]. *)
Definition verify_path_matches_index (path : MerklePath H) (part_idx num_merklized_parts : Z) : option bool :=
  if (num_merklized_parts <=? part_idx)%Z then Some false
  else if (2 ^ 63 <? num_merklized_parts)%Z then None
  else
    let height := Z.to_nat (Z.log2_up num_merklized_parts) in
    Some match match_index_loop (seq 0 height) path part_idx num_merklized_parts 0 with
         | Some used => bool_decide (used = length path)
         | None => false
         end.

Definition verify_path_with_index (root : H) (path : MerklePath H) (item : T)
    (part_idx num_merklized_parts : Z) : option bool :=
  ok ← verify_path_matches_index path part_idx num_merklized_parts;
  Some (ok && verify_path root path item).

(** * The tree that keeps the path of the next leaf *)

Record PartialMerkleTree : Type := mkPartial { path : list H; size : Z }.

Definition empty_partial : PartialMerkleTree := mkPartial [] 0.

(** [u64::count_ones] *)
Fixpoint count_ones_pos (p : positive) : nat :=
  match p with xH => 1 | xO p => count_ones_pos p | xI p => S (count_ones_pos p) end.

Definition count_ones (z : Z) : nat := match z with Zpos p => count_ones_pos p | _ => 0 end.

Definition is_well_formed (t : PartialMerkleTree) : bool :=
  bool_decide (length (path t) = count_ones (size t)).

(** [res] starts at the last element and combines to the left. *)
Definition root (t : PartialMerkleTree) : H :=
  match reverse (path t) with
  | [] => default_hash
  | last :: rest => foldl (λ res h, combine_hash h res) last rest
  end.

(** [while s % 2 == 1]; the path is kept from its end. *)
Fixpoint insert_while (fuel : nat) (s : Z) (rpath : list H) (node : H) : option (list H * H) :=
  if (s mod 2 =? 1)%Z then
    match fuel with
    | 0 => None
    | S fuel =>
        match rpath with
        | [] => None
        | last_path_elem :: rpath => insert_while fuel (s / 2)%Z rpath (combine_hash last_path_elem node)
        end
    end
  else Some (rpath, node).

(** The fuel is the width of the counter. *)
Definition insert (t : PartialMerkleTree) (elem : H) : option PartialMerkleTree :=
  '(rpath, node) ← insert_while 64 (size t) (reverse (path t)) elem;
  size' ← checked_add 64 (size t) 1;
  Some (mkPartial (reverse rpath ++ [node]) size').

(** [u64::trailing_zeros] of a positive number. *)
Fixpoint trailing_zeros_pos (p : positive) : nat :=
  match p with xO p => S (trailing_zeros_pos p) | _ => 0 end.

(** The calls [f(node, level)] of [iter_path_from_bottom], in order. *)
Fixpoint iter_from_bottom (rpath : list H) (level : nat) (index : Z) : list (H * nat) :=
  match rpath with
  | [] => []
  | node :: rpath =>
      match index with
      | Zpos p =>
          let trailing_zeros := trailing_zeros_pos p in
          let level := level + trailing_zeros in
          let index := (Z.shiftr index (Z.of_nat trailing_zeros) - 1)%Z in
          (node, level) :: iter_from_bottom rpath level index
      | _ => []
      end
  end.

Definition iter_path_from_bottom (t : PartialMerkleTree) : list (H * nat) :=
  iter_from_bottom (reverse (path t)) 0 (size t).

(** * Reference: levels of the tree *)

(** One level up: neighbours combined, a last odd hash kept. *)
Fixpoint pairs (l : list H) : list H :=
  match l with
  | a :: b :: l => combine_hash a b :: pairs l
  | _ => l
  end.

Definition level (k : nat) (l : list H) : list H := Nat.iter k pairs l.

Definition sibling (b : nat) : nat := if bool_decide (b mod 2 = 0) then b + 1 else b - 1.
Definition side (b : nat) : Direction := if bool_decide (b mod 2 = 0) then Right else Left.

(** What level [k] contributes to the path of leaf [i]. *)
Definition level_items (l : list H) (k i : nat) : MerklePath H :=
  match level k l !! sibling (i / 2 ^ k) with
  | Some h => [mkItem h (side (i / 2 ^ k))]
  | None => []
  end.

Fixpoint path_upto (l : list H) (k i : nat) : MerklePath H :=
  match k with 0 => [] | S k => path_upto l k i ++ level_items l k i end.

Lemma pairs_ind (P : list H → Prop) :
  P [] → (∀ a, P [a]) → (∀ a b l, P l → P (a :: b :: l)) → ∀ l, P l.
Proof.
  intros H0 H1 H2. fix IH 1. intros [|a [|b l]]; [exact H0|apply H1|apply H2, IH].
Qed.

Lemma length_pairs l : length (pairs l) = (length l + 1) / 2.
Proof.
  induction l as [|a|a b l IH] using pairs_ind; [done|done|]. simpl. rewrite IH. lia_div.
Qed.

Lemma pairs_lookup l j :
  pairs l !! j = match l !! (2 * j), l !! (2 * j + 1) with
                 | Some a, Some b => Some (combine_hash a b)
                 | Some a, None => Some a
                 | None, _ => None
                 end.
Proof.
  revert j. induction l as [|a|a b l IH] using pairs_ind; intros j; [done| |].
  - destruct j as [|j]; [done|]. simpl. by replace (j + S (j + 0)) with (S (2 * j)) by lia.
  - destruct j as [|j]; [done|]. simpl pairs. rewrite lookup_cons_ne_0 by lia. simpl Nat.pred. rewrite IH.
    replace (2 * S j) with (S (S (2 * j))) by lia. replace (S (S (2 * j)) + 1) with (S (S (2 * j + 1))) by lia.
    done.
Qed.

Lemma level_S k l : level (S k) l = pairs (level k l).
Proof. done. Qed.

Lemma level_pairs k l : level (S k) l = level k (pairs l).
Proof. unfold level. induction k as [|k IH]; [done|]. simpl in *. by rewrite IH. Qed.

Lemma level_nonempty k l : l ≠ [] → level k l ≠ [].
Proof.
  intros Hl. induction k as [|k IH]; [done|]. rewrite level_S.
  destruct (level k l) as [|a [|b m]]; simpl; done.
Qed.

(** ** A path leads to its ancestors *)

Lemma parent_of_even b : b mod 2 = 0 → 2 * (b / 2) = b.
Proof. lia_div. Qed.

Lemma parent_of_odd b : b mod 2 ≠ 0 → 2 * (b / 2) + 1 = b.
Proof. lia_div. Qed.

Lemma step_up l b x :
  l !! b = Some x →
  pairs l !! (b / 2) =
    Some match l !! sibling b with
         | Some h => path_step x (mkItem h (side b))
         | None => x
         end.
Proof.
  intros Hb. rewrite pairs_lookup. unfold sibling, side. case_bool_decide as Hm.
  - rewrite (parent_of_even b Hm), Hb. destruct (l !! (b + 1)); done.
  - pose proof (parent_of_odd b Hm) as Hodd.
    assert (2 * (b / 2) = b - 1) as -> by lia. replace (b - 1 + 1) with b by lia.
    destruct (lookup_lt_is_Some_2 l (b - 1)) as [y Hy]; [apply lookup_lt_Some in Hb; lia|].
    by rewrite Hy, Hb.
Qed.

Lemma compute_root_app p q x :
  compute_root_from_path (p ++ q) x = compute_root_from_path q (compute_root_from_path p x).
Proof. apply foldl_app. Qed.

Lemma div_pow_S i k : i / 2 ^ S k = i / 2 ^ k / 2.
Proof. rewrite Nat.Div0.div_div. f_equal. rewrite Nat.pow_succ_r'. lia. Qed.

Lemma path_upto_root l k i x :
  l !! i = Some x → level k l !! (i / 2 ^ k) = Some (compute_root_from_path (path_upto l k i) x).
Proof.
  intros Hi. induction k as [|k IH].
  { simpl. by rewrite Nat.div_1_r. }
  rewrite level_S, div_pow_S, (step_up _ _ _ IH). simpl path_upto. rewrite compute_root_app.
  unfold level_items. by destruct (level k l !! sibling (i / 2 ^ k)).
Qed.

(** ** [merklize] computes the levels *)

Lemma push_block_spec s c base it (paths : list (MerklePath H)) i :
  push_block (seq s c) base it paths !! i =
    (λ p, if bool_decide (base + s ≤ i ∧ i < base + s + c) then p ++ [it] else p) <$> paths !! i.
Proof.
  revert s paths. induction c as [|c IH]; intros s paths; simpl.
  - destruct (paths !! i); [|done]. simpl. rewrite bool_decide_false by lia. done.
  - rewrite IH.
    assert (bool_decide (base + S s ≤ i ∧ i < base + S s + c) =
      bool_decide (base + s ≤ i ∧ i < base + s + S c) && bool_decide (i ≠ base + s)) as ->
      by (repeat case_bool_decide; simpl; try done; lia).
    destruct (decide (base + s < length paths)) as [Hlt|Hge].
    + rewrite (bool_decide_true _ Hlt). destruct (decide (i = base + s)) as [->|Hne].
      * rewrite list_lookup_alter_eq. destruct (paths !! (base + s)); simpl; [|done].
        assert (bool_decide (base + s ≤ base + s ∧ base + s < base + s + S c) = true) as ->
          by (apply bool_decide_eq_true; lia).
        assert (bool_decide (base + s ≠ base + s) = false) as -> by (apply bool_decide_eq_false; lia). done.
      * rewrite list_lookup_alter_ne by done. rewrite (bool_decide_true (i ≠ _)), andb_true_r by done. done.
    + rewrite (bool_decide_false _ Hge). destruct (paths !! i) as [p|] eqn:Hi; [|done]. apply lookup_lt_Some in Hi.
      rewrite (bool_decide_true (i ≠ _)), andb_true_r by lia. done.
Qed.

Lemma length_push_block js base it (paths : list (MerklePath H)) :
  length (push_block js base it paths) = length paths.
Proof.
  revert paths. induction js as [|j js IH]; intros paths; simpl; [done|]. rewrite IH.
  case_bool_decide; [apply length_alter|done].
Qed.

(** In block terms: the leaves under block [b] of level [k]. *)
Lemma in_block i b c : 0 < c → (b * c ≤ i ∧ i < b * c + c) ↔ i / c = b.
Proof.
  intros Hc. split.
  - intros [H1 H2]. symmetry. apply (Nat.div_unique i c b (i - b * c)); lia.
  - intros <-. pose proof (Nat.div_mod_eq i c). pose proof (Nat.mod_upper_bound i c). nia.
Qed.

Lemma sibling_sym a b : sibling a = b ↔ sibling b = a.
Proof. unfold sibling. repeat case_bool_decide; lia_div. Qed.

(** The state of the inner loop after [m] iterations, on the way from level [k] to [S k]. *)
Definition for_state (l : list H) (k m : nat) (last : bool) (st : list H * list (MerklePath H)) : Prop :=
  let up := level (S k) l in
  length st.1 = length l ∧ length st.2 = length l ∧
  (∀ j, j < m → j < length up → st.1 !! j = up !! j) ∧
  (∀ j, m ≤ j → j < length (level k l) → st.1 !! j = level k l !! j) ∧
  (∀ i, i < length l → st.2 !! i =
    Some (path_upto l (S k) i ++
      (if negb last && bool_decide (sibling (i / 2 ^ S k) < m) then level_items l (S k) i else []))).

Lemma length_level_le k l : length (level k l) ≤ length l.
Proof. induction k as [|k IH]; [done|]. rewrite level_S, length_pairs. lia_div. Qed.

(** The hash computed at index [m]. *)
Lemma step_hash l k m (hashes : list H) x :
  (∀ j, m ≤ j → j < length (level k l) → hashes !! j = level k l !! j) →
  2 * m < length (level k l) → level (S k) l !! m = Some x →
  (if bool_decide (length (level k l) ≤ 2 * m + 1) then hashes !! (2 * m)
   else a ← hashes !! (2 * m); b ← hashes !! (2 * m + 1); Some (combine_hash a b)) = Some x.
Proof.
  intros Hcur Hm Hx. rewrite level_S, pairs_lookup in Hx. case_bool_decide as Hodd.
  - rewrite Hcur by lia. rewrite (lookup_ge_None_2 _ (2 * m + 1)) in Hx by lia.
    by destruct (level k l !! (2 * m)).
  - rewrite !Hcur by lia. destruct (level k l !! (2 * m)); [|done].
    destruct (lookup_lt_is_Some_2 (level k l) (2 * m + 1)) as [y Hy]; [lia|]. by rewrite Hy in *.
Qed.

Lemma side_sibling b m : sibling b = m → side b = if bool_decide (m mod 2 = 0) then Left else Right.
Proof. unfold sibling, side. repeat case_bool_decide; intros; try done; lia_div. Qed.

Lemma block_base m c : 0 < c →
  (if bool_decide (m mod 2 = 0) then (m + 1) * c else (m - 1) * c) = sibling m * c.
Proof. intros. unfold sibling. by case_bool_decide. Qed.

Lemma merklize_step_ok l k m len (last : bool) st :
  for_state l k m last st → (last = true ↔ len ≤ 1) → m < len →
  ∃ st', merklize_step len (2 ^ S k) (length (level k l)) m st = Some st' ∧ for_state l k (S m) last st'.
Proof.
  destruct st as [hashes paths]. intros (Hlh & Hlp & Hup & Hcur & Hpath) Hlast Hm.
  cbn [fst snd] in *. unfold merklize_step.
  assert (Hlen : length (level (S k) l) = (length (level k l) + 1) / 2) by apply length_pairs.
  pose proof (length_level_le k l) as Hle.
  destruct (decide (length (level k l) ≤ 2 * m)) as [Hend|Hmore].
  - rewrite (bool_decide_true _ Hend). exists (hashes, paths). split; [done|]. split_and!; cbn [fst snd]; try done.
    + intros j Hj Hj'. apply Hup; [|done]. rewrite Hlen in Hj'. lia_div.
    + intros j Hj Hj'. apply Hcur; lia.
    + intros i Hi. rewrite Hpath by done. do 2 f_equal. destruct last; simpl; [done|].
      unfold level_items. repeat case_bool_decide; try done; try lia.
      assert (sibling (i / 2 ^ S k) = m) as -> by lia. rewrite lookup_ge_None_2; [done|]. rewrite Hlen. lia_div.
  - rewrite (bool_decide_false _ Hmore).
    assert (∃ x, level (S k) l !! m = Some x) as [x Hx]
      by (apply lookup_lt_is_Some_2; rewrite Hlen; lia_div).
    rewrite (step_hash l k m hashes x) by (done || lia). cbn [mbind option_bind].
    assert (Hhash : ∀ q, (∀ i, i < length l → q !! i = Some (path_upto l (S k) i ++
      (if negb last && bool_decide (sibling (i / 2 ^ S k) < S m) then level_items l (S k) i else []))) →
      length q = length l → for_state l k (S m) last (<[m := x]> hashes, q)).
    { intros q Hq Hlq. split_and!; cbn [fst snd]; [by rewrite length_insert|done| | |done].
      - intros j Hj Hj'. destruct (decide (j = m)) as [->|?].
        + rewrite list_lookup_insert_eq; [done|]. lia.
        + rewrite list_lookup_insert_ne by done. apply Hup; lia.
      - intros j Hj Hj'. rewrite list_lookup_insert_ne by lia. apply Hcur; lia. }
    destruct last.
    { rewrite (bool_decide_false (1 < len)) by (assert (len ≤ 1) by (by apply Hlast); lia). eauto. }
    rewrite (bool_decide_true (1 < len)) by (destruct (decide (len ≤ 1)); [|lia]; by apply Hlast in l0).
    set (it := mkItem x (if bool_decide (m mod 2 = 0) then Left else Right)).
    exists (<[m := x]> hashes, push_block (seq 0 (2 ^ S k)) (sibling m * 2 ^ S k) it paths). split.
    { unfold it, sibling. by case_bool_decide. }
    apply Hhash; [|by rewrite length_push_block]. intros i Hi. rewrite push_block_spec, Hpath by done. simpl. f_equal.
    rewrite Nat.add_0_r. assert (0 < 2 ^ S k) as Hpos by (apply Nat.neq_0_lt_0, Nat.pow_nonzero; lia).
    rewrite (bool_decide_ext _ _ (in_block i (sibling m) (2 ^ S k) Hpos)).
    case_bool_decide as Hblk.
    + assert (sibling (i / 2 ^ S k) = m) as Hsib by by apply sibling_sym.
      rewrite (bool_decide_false (_ < m)), (bool_decide_true (_ < S m)) by lia. rewrite app_nil_r. f_equal.
      unfold level_items. rewrite Hsib, Hx. f_equal. unfold it. f_equal. symmetry. by apply side_sibling.
    + assert (sibling (i / 2 ^ S k) ≠ m) as Hsib by (intros E; apply Hblk; symmetry; by apply sibling_sym).
      rewrite (bool_decide_ext (sibling (i / 2 ^ S k) < S m) (sibling (i / 2 ^ S k) < m)) by lia. done.
Qed.

Lemma merklize_for_ok l k c len (last : bool) : ∀ m st,
  for_state l k m last st → (last = true ↔ len ≤ 1) → m + c ≤ len →
  ∃ st', merklize_for (seq m c) len (2 ^ S k) (length (level k l)) st = Some st' ∧
    for_state l k (m + c) last st'.
Proof.
  induction c as [|c IH]; intros m st Hst Hlast Hm.
  { exists st. rewrite Nat.add_0_r. done. }
  cbn [seq merklize_for]. destruct (merklize_step_ok l k m len last st) as (st1 & Hrun & Hst1); [done|done|lia|].
  rewrite Hrun. cbn [mbind option_bind]. destruct (IH (S m) st1) as (st2 & Hrun2 & Hst2); [done|done|lia|].
  exists st2. split; [done|]. by replace (m + S c) with (S m + c) by lia.
Qed.

Definition while_state (l : list H) (k h : nat) (st : list H * list (MerklePath H)) : Prop :=
  length st.1 = length l ∧ length st.2 = length l ∧
  (∀ j, j < length (level k l) → st.1 !! j = level k l !! j) ∧
  (∀ i, i < length l → st.2 !! i = Some (path_upto l (S k `min` h) i)).

Lemma length_level_pow l h k : length l ≤ 2 ^ h → k ≤ h → length (level k l) ≤ 2 ^ (h - k).
Proof.
  intros Hl. induction k as [|k IH]; intros Hk; [by rewrite Nat.sub_0_r|].
  rewrite level_S, length_pairs. specialize (IH ltac:(lia)).
  replace (h - k) with (S (h - S k)) in IH by lia. rewrite Nat.pow_succ_r' in IH. lia_div.
Qed.

Lemma level_items_none l k i : length (level k l) ≤ sibling (i / 2 ^ k) → level_items l k i = [].
Proof. intros Hge. unfold level_items. by rewrite lookup_ge_None_2. Qed.

Lemma for_while l k h last st :
  length l ≤ 2 ^ h → k < h → (last = true ↔ S k = h) →
  for_state l k (2 ^ (h - S k)) last st → while_state l (S k) h st.
Proof.
  intros Hl Hk Hlast (Hlh & Hlp & Hup & _ & Hpath).
  assert (length (level (S k) l) ≤ 2 ^ (h - S k)) as Hlen by (apply length_level_pow; [done|lia]).
  split_and!; [done|done| |].
  - intros j Hj. apply Hup; lia.
  - intros i Hi. rewrite Hpath by done. f_equal. destruct last; cbn [negb andb].
    + rewrite app_nil_r. f_equal. assert (S k = h) by (by apply Hlast). lia.
    + assert (S k ≠ h) by (intros E; by apply Hlast in E).
      replace (S (S k) `min` h) with (S (S k)) by lia. cbn [path_upto].
      case_bool_decide; [done|]. rewrite (level_items_none l (S k) i) by lia. done.
Qed.

Lemma merklize_while_ok l h : length l ≤ 2 ^ h → ∀ d k fuel st,
  d = h - k → k ≤ h → d ≤ fuel → while_state l k h st →
  ∃ st', merklize_while fuel (2 ^ d) (2 ^ k) (length (level k l)) st = Some st' ∧ while_state l h h st'.
Proof.
  intros Hl. induction d as [|d IH]; intros k fuel st Hd Hk Hf Hst.
  { assert (k = h) as -> by lia. exists st. split; [|done]. destruct fuel; simpl; done. }
  assert (1 < 2 ^ S d) as Hlt by (rewrite Nat.pow_succ_r'; pose proof (Nat.pow_nonzero 2 d); lia).
  destruct fuel as [|fuel]; [lia|]. cbn [merklize_while]. rewrite (bool_decide_true _ Hlt).
  assert (2 ^ S d / 2 = 2 ^ d) as Hdiv by (rewrite Nat.pow_succ_r', Nat.mul_comm; by apply Nat.div_mul).
  rewrite Hdiv. replace (2 ^ k * 2) with (2 ^ S k) by (rewrite Nat.pow_succ_r'; lia).
  destruct Hst as (Hlh & Hlp & Hhs & Hps).
  destruct (merklize_for_ok l k (2 ^ d) (2 ^ d) (bool_decide (S k = h)) 0 st) as (st1 & Hrun & Hst1).
  - split_and!; [done|done|intros; lia|intros; by apply Hhs|].
    intros i Hi. rewrite Hps by done. rewrite (bool_decide_false (_ < 0)) by lia.
    rewrite andb_false_r, app_nil_r. do 2 f_equal. lia.
  - rewrite bool_decide_eq_true. split.
    + intros. replace d with 0 by lia. done.
    + intros Hle. destruct d as [|d]; [lia|]. rewrite Nat.pow_succ_r' in Hle.
      pose proof (Nat.pow_nonzero 2 d). lia.
  - lia.
  - rewrite Hrun. cbn [mbind option_bind].
    replace ((length (level k l) + 1) / 2) with (length (level (S k) l)) by apply length_pairs.
    apply IH; [lia|lia|lia|]. apply (for_while l k h (bool_decide (S k = h))); [done|lia|by rewrite bool_decide_eq_true|].
    by replace (h - S k) with d by lia.
Qed.

(** The root and the paths [merklize] is meant to compute. *)
Definition merkle_height (l : list H) : nat := Nat.log2_up (length l).
Definition merkle_root (l : list H) : H := default default_hash (level (merkle_height l) l !! 0).

Lemma length_top l : l ≠ [] → length (level (merkle_height l) l) = 1.
Proof.
  intros Hl. pose proof (level_nonempty (merkle_height l) l Hl) as Hne.
  assert (length l ≤ 2 ^ merkle_height l) as Hle.
  { apply Nat.log2_log2_up_spec. destruct l; simpl; [done|lia]. }
  pose proof (length_level_pow l _ (merkle_height l) Hle ltac:(lia)) as H1. rewrite Nat.sub_diag in H1.
  change (2 ^ 0) with 1 in H1. destruct (level (merkle_height l) l); simpl in *; [done|lia].
Qed.

Lemma first_path_ok l i : i < length l → first_path l (length l) i = Some (path_upto l 1 i).
Proof.
  intros Hi. unfold first_path. cbn [path_upto]. unfold level_items, sibling, side.
  change (2 ^ 0) with 1. rewrite Nat.div_1_r. change (level 0 l) with l.
  case_bool_decide as Hm.
  - case_bool_decide as Hlt; [|by rewrite lookup_ge_None_2 by lia].
    destruct (lookup_lt_is_Some_2 l (i + 1)) as [h Hh]; [lia|]. by rewrite Hh.
  - destruct (lookup_lt_is_Some_2 l (i - 1)) as [h Hh]; [lia|]. by rewrite Hh.
Qed.

Lemma mapM_first_path l c : ∀ s, s + c ≤ length l →
  mapM (first_path l (length l)) (seq s c) = Some (path_upto l 1 <$> seq s c).
Proof.
  induction c as [|c IH]; intros s Hs; [done|]. simpl. rewrite first_path_ok by lia. simpl.
  rewrite IH by lia. done.
Qed.

Lemma merklize_ok arr :
  arr ≠ [] →
  merklize arr = Some (merkle_root (hash_borsh <$> arr),
    path_upto (hash_borsh <$> arr) (merkle_height (hash_borsh <$> arr)) <$> seq 0 (length arr)).
Proof.
  intros Ha. set (l := hash_borsh <$> arr). assert (length l = length arr) as Hlen by apply length_fmap.
  assert (l ≠ []) as Hl by (by destruct arr). assert (Htop := length_top l Hl).
  set (h := merkle_height l) in *.
  assert (length l ≤ 2 ^ h) as Hle by (apply Nat.log2_log2_up_spec; destruct l; simpl; [done|lia]).
  assert (next_power_of_two (length arr) = 2 ^ h) as Hnp by (unfold next_power_of_two, h, merkle_height; by rewrite Hlen).
  unfold merklize. fold l. destruct arr as [|a arr]; [done|]. set (n := length (a :: arr)) in *.
  rewrite Hnp. case_bool_decide as H1.
  - assert (h = 0) as Hh0 by (destruct (decide (h = 0)) as [|Hne]; [done|]; pose proof (Nat.pow_gt_1 2 h); lia).
    assert (n = 1) as Hn1 by (rewrite Hh0 in Hle; change (2 ^ 0) with 1 in Hle; unfold n in *; simpl in *; lia).
    unfold merkle_root. fold h. rewrite Hh0, Hn1. change (level 0 l) with l.
    destruct (lookup_lt_is_Some_2 l 0) as [x Hx]; [lia|]. rewrite Hx. done.
  - rewrite <-Hlen, mapM_first_path by lia. cbn [mbind option_bind].
    assert (0 < h) as Hh by (destruct (decide (h = 0)) as [E|]; [by rewrite E in H1|lia]).
    destruct (merklize_while_ok l h Hle h 0 (length l) (l, path_upto l 1 <$> seq 0 (length l))) as ([hs ps] & Hrun & Hst).
    + lia.
    + lia.
    + rewrite Hlen. unfold h, merkle_height. rewrite Hlen. apply Nat.log2_up_le_lin. lia.
    + split_and!; cbn [fst snd]; [done|by rewrite length_fmap, length_seq|done|].
      intros i Hi. rewrite list_lookup_fmap, lookup_seq_lt by done. by replace (1 `min` h) with 1 by lia.
    + change (level 0 l) with l in Hrun. change (2 ^ 0) with 1 in Hrun. rewrite Hrun. cbn [mbind option_bind].
      destruct Hst as (_ & Hlps & Hhs & Hps). cbn [fst snd] in *. rewrite Hhs by lia.
      destruct (lookup_lt_is_Some_2 (level h l) 0) as [x Hx]; [lia|]. unfold merkle_root. fold h. rewrite Hx.
      cbn [mbind option_bind]. change (default default_hash (Some x)) with x. do 2 f_equal.
      apply list_eq. intros i. rewrite list_lookup_fmap.
      destruct (decide (i < length l)) as [Hi|Hi].
      * rewrite Hps by done. rewrite lookup_seq_lt by done. by replace (S h `min` h) with h by lia.
      * rewrite !lookup_ge_None_2; [done|by rewrite length_seq; lia|lia].
Qed.

(** ** Directions determine the index *)

(** The directions the path of leaf [i] among [n] must have. *)
Fixpoint dirs (n i : nat) (ks : list nat) : list Direction :=
  match ks with
  | [] => []
  | k :: ks => (if bool_decide (sibling (i / 2 ^ k) * 2 ^ k < n) then [side (i / 2 ^ k)] else []) ++ dirs n i ks
  end.

Lemma dirs_app n i ks ks' : dirs n i (ks ++ ks') = dirs n i ks ++ dirs n i ks'.
Proof. induction ks as [|k ks IH]; [done|]. simpl. by rewrite IH, app_assoc. Qed.

Lemma pow2_pos k : 0 < 2 ^ k.
Proof. pose proof (Nat.pow_nonzero 2 k). lia. Qed.

Lemma lt_length_level l k s : s < length (level k l) ↔ s * 2 ^ k < length l.
Proof.
  revert s. induction k as [|k IH]; intros s.
  { change (2 ^ 0) with 1. rewrite Nat.mul_1_r. done. }
  rewrite level_S, length_pairs, Nat.pow_succ_r'.
  assert (s * (2 * 2 ^ k) = (2 * s) * 2 ^ k) as -> by lia. rewrite <-IH. lia_div.
Qed.

Lemma path_directions l k i : direction <$> path_upto l k i = dirs (length l) i (seq 0 k).
Proof.
  induction k as [|k IH]; [done|]. rewrite seq_S, dirs_app. cbn [path_upto]. rewrite fmap_app, IH. f_equal.
  simpl. rewrite app_nil_r. unfold level_items. case_bool_decide as Hlt.
  - apply lt_length_level in Hlt. destruct (lookup_lt_is_Some_2 _ _ Hlt) as [h Hh]. by rewrite Hh.
  - rewrite <-lt_length_level in Hlt. rewrite lookup_ge_None_2; [done|lia].
Qed.

Lemma block_Z i k : Z.shiftr (Z.of_nat i) (Z.of_nat k) = Z.of_nat (i / 2 ^ k).
Proof. rewrite Z.shiftr_div_pow2 by lia. rewrite Nat2Z.inj_div, Nat2Z.inj_pow. done. Qed.

Lemma land_1_mod b : Z.land (Z.of_nat b) 1 = Z.of_nat (b mod 2).
Proof. change 1%Z with (Z.ones 1). rewrite Z.land_ones by lia. by rewrite Nat2Z.inj_mod. Qed.

Lemma lxor_1_even z : (0 <= z → Z.lxor (2 * z) 1 = 2 * z + 1)%Z.
Proof. destruct z as [|p|p]; simpl; [done|done|lia]. Qed.

Lemma lxor_1_odd z : (0 <= z → Z.lxor (2 * z + 1) 1 = 2 * z)%Z.
Proof. destruct z as [|p|p]; simpl; [done|done|lia]. Qed.

Lemma lxor_1_sibling b : Z.lxor (Z.of_nat b) 1 = Z.of_nat (sibling b).
Proof.
  unfold sibling. case_bool_decide as Hm.
  - pose proof (parent_of_even b Hm) as E. replace (Z.of_nat b) with (2 * Z.of_nat (b / 2))%Z by lia.
    rewrite lxor_1_even; lia.
  - pose proof (parent_of_odd b Hm) as E. replace (Z.of_nat b) with (2 * Z.of_nat (b / 2) + 1)%Z by lia.
    rewrite lxor_1_odd; lia.
Qed.

Lemma side_Z b : (if (Z.land (Z.of_nat b) 1 =? 0)%Z then Right else Left) = side b.
Proof. rewrite land_1_mod. unfold side. case_match; case_bool_decide; to_prop; (done || lia). Qed.

(** The start of the sibling block, which fits in 64 bits. *)
Lemma sibling_start i k n :
  i < n → (Z.of_nat n <= 2 ^ 63)%Z → (Z.of_nat (2 ^ k) <= 2 ^ 62)%Z →
  (Z.shiftl (Z.lxor (Z.of_nat (i / 2 ^ k)) 1) (Z.of_nat k) mod 2 ^ 64)%Z = Z.of_nat (sibling (i / 2 ^ k) * 2 ^ k).
Proof.
  intros Hi Hn Hk. rewrite lxor_1_sibling, Z.shiftl_mul_pow2 by lia.
  replace (2 ^ Z.of_nat k)%Z with (Z.of_nat (2 ^ k)) by (by rewrite Nat2Z.inj_pow).
  rewrite <-Nat2Z.inj_mul. apply Z.mod_small. split; [lia|].
  assert (sibling (i / 2 ^ k) ≤ i / 2 ^ k + 1) as Hs by (unfold sibling; case_bool_decide; lia).
  assert (i / 2 ^ k * 2 ^ k ≤ i) as Hd by (rewrite Nat.mul_comm; apply Nat.Div0.mul_div_le).
  assert (sibling (i / 2 ^ k) * 2 ^ k ≤ i + 2 ^ k) as Hle by nia. lia.
Qed.

Lemma match_index_loop_spec path i n ks used :
  i < n → (Z.of_nat n <= 2 ^ 63)%Z → Forall (λ k, (Z.of_nat (2 ^ k) <= 2 ^ 62)%Z) ks →
  match_index_loop ks path (Z.of_nat i) (Z.of_nat n) used =
    let ds := dirs n i ks in
    if decide (take (length ds) (drop used (direction <$> path)) = ds) then Some (used + length ds) else None.
Proof.
  intros Hi Hn Hks. revert used. induction Hks as [|k ks Hk Hks IH]; intros used.
  { simpl. by rewrite Nat.add_0_r. }
  cbn [match_index_loop dirs]. rewrite !block_Z, (sibling_start i k n Hi Hn Hk), side_Z.
  case_bool_decide as Hlt.
  2: { rewrite (proj2 (Z.ltb_ge _ _)) by lia. by rewrite IH. }
  rewrite (proj2 (Z.ltb_lt _ _)) by lia. simpl length. cbn [app].
  destruct (path !! used) as [it|] eqn:Hit; cbn [mbind option_bind].
  - rewrite (drop_S (direction <$> path) (direction it) used) by (by rewrite list_lookup_fmap, Hit).
    simpl. case_bool_decide as Hd.
    + rewrite IH. simpl. rewrite Hd. set (tk := take _ _).
      destruct (decide (tk = dirs n i ks)) as [E|E]; [rewrite decide_True by (by rewrite E); f_equal; lia|].
      rewrite decide_False; [done|]. by intros [= ].
    + rewrite decide_False; [done|]. by intros [=].
  - rewrite drop_ge; [done|]. rewrite length_fmap. by apply lookup_ge_None_1.
Qed.

Lemma log2_up_Z n : Z.to_nat (Z.log2_up (Z.of_nat n)) = Nat.log2_up n.
Proof.
  destruct (decide (n ≤ 1)) as [Hn|Hn].
  - destruct n as [|[|]]; [done|done|lia].
  - apply Nat2Z.inj. rewrite Z2Nat.id by apply Z.log2_up_nonneg.
    assert (0 < Nat.log2_up n) as Hpos by (apply Nat.log2_up_pos; lia). apply Z.log2_up_unique; [lia|].
    destruct (Nat.log2_up_spec n) as [H1 H2]; [lia|]. apply Nat2Z.inj_lt in H1. apply Nat2Z.inj_le in H2.
    rewrite Nat2Z.inj_pow in H1, H2. rewrite Nat2Z.inj_pred in H1 by done. done.
Qed.

Lemma matches_index_spec path i n :
  i < n → (Z.of_nat n <= 2 ^ 63)%Z →
  verify_path_matches_index path (Z.of_nat i) (Z.of_nat n) =
    Some (bool_decide (direction <$> path = dirs n i (seq 0 (Nat.log2_up n)))).
Proof.
  intros Hi Hn. unfold verify_path_matches_index.
  rewrite (proj2 (Z.leb_gt _ _)), (proj2 (Z.ltb_ge _ _)) by lia. rewrite log2_up_Z.
  rewrite match_index_loop_spec; [|done|done|].
  - simpl. set (ds := dirs n i _). case_decide as Hd; simpl; f_equal; apply bool_decide_ext || symmetry.
    + rewrite drop_0 in Hd. split.
      * intros Hl. rewrite <-Hd. symmetry. apply take_ge. rewrite length_fmap. lia.
      * intros <-. by rewrite length_fmap.
    + apply bool_decide_eq_false. intros E. apply Hd. by rewrite drop_0, E, take_ge.
  - apply Forall_forall. intros k Hk%elem_of_seq.
    assert (Z.log2_up (Z.of_nat n) <= 63)%Z as Hlog.
    { rewrite <-(Z.log2_up_pow2 63) by lia. apply Z.log2_up_le_mono. lia. }
    rewrite <-log2_up_Z in Hk. rewrite Nat2Z.inj_pow. apply Z.pow_le_mono_r; lia.
Qed.

Lemma path_to_root l i x :
  l !! i = Some x → compute_root_from_path (path_upto l (merkle_height l) i) x = merkle_root l.
Proof.
  intros Hi. assert (l ≠ []) as Hl by (by destruct l).
  pose proof (path_upto_root l (merkle_height l) i x Hi) as Hp. unfold merkle_root.
  assert (i / 2 ^ merkle_height l = 0) as E0.
  { apply Nat.div_small. apply lookup_lt_Some in Hi.
    assert (length l ≤ 2 ^ merkle_height l); [|lia]. apply Nat.log2_log2_up_spec. lia. }
  rewrite E0 in Hp. by rewrite Hp.
Qed.

(** Paths with the same directions and results start at the same hash, if hashes do not collide. *)
Lemma same_directions_inj (p q : MerklePath H) x y :
  (∀ a b c d, combine_hash a b = combine_hash c d → a = c ∧ b = d) →
  direction <$> p = direction <$> q → compute_root_from_path p x = compute_root_from_path q y →
  p = q ∧ x = y.
Proof.
  intros Hinj. revert q. induction p as [|it p IH] using rev_ind; intros q Hd Hr.
  - destruct q; [done|]. done.
  - destruct q as [|it' q _] using rev_ind; [rewrite fmap_app in Hd; by destruct (direction <$> p)|].
    rewrite !fmap_app in Hd. apply app_inj_tail in Hd as [Hd E]. rewrite !compute_root_app in Hr. simpl in Hr.
    unfold path_step in Hr. destruct it as [h d], it' as [h' d']. simpl in *. subst d'.
    destruct d; apply Hinj in Hr as [E1 E2]; simplify_eq.
    + destruct (IH q Hd E2) as [-> ->]. done.
    + destruct (IH q Hd E1) as [-> ->]. done.
Qed.

(** * The partial tree *)

Lemma pairs_app_even l k : length l mod 2 = 0 → pairs (l ++ k) = pairs l ++ pairs k.
Proof.
  induction l as [|a|a b l IH] using pairs_ind; [done|done|]. intros Hm. simpl in *.
  rewrite IH; [done|]. lia_div.
Qed.

(** The reversed path of a tree with leaves [l]: the roots of its perfect subtrees. *)
Inductive peaks : list H → list H → Prop :=
| peaks_nil : peaks [] []
| peaks_even l rp : l ≠ [] → length l mod 2 = 0 → peaks (pairs l) rp → peaks l rp
| peaks_odd l x rp : length l mod 2 = 0 → peaks (pairs l) rp → peaks (l ++ [x]) (x :: rp).

Lemma peaks_pairs l rp : peaks l rp → length l mod 2 = 0 → peaks (pairs l) rp.
Proof.
  intros Hp Hm. destruct Hp as [|l rp Hl _ Hp|l x rp Hl Hp]; [constructor|done|].
  rewrite length_app in Hm. simpl in Hm. lia_div.
Qed.

Lemma length_pairs_even l : length l mod 2 = 0 → length (pairs l) = length l / 2.
Proof. intros. rewrite length_pairs. lia_div. Qed.

Lemma insert_while_ok l rp : peaks l rp → ∀ fuel x,
  (Z.of_nat (length l) < 2 ^ Z.of_nat fuel)%Z →
  ∃ rp' node, insert_while fuel (Z.of_nat (length l)) rp x = Some (rp', node) ∧ peaks (l ++ [x]) (node :: rp').
Proof.
  intros Hp. induction Hp as [|l rp Hl Hm Hp IH|l y rp Hm Hp IH]; intros fuel x Hf.
  - exists [], x. split; [by destruct fuel|]. apply (peaks_odd [] x []); [done|constructor].
  - exists rp, x. split; [|by apply peaks_odd].
    assert ((Z.of_nat (length l) mod 2 =? 1)%Z = false) as E by lia_div.
    destruct fuel; cbn [insert_while]; by rewrite E.
  - rewrite length_app in *. simpl length in *.
    assert ((Z.of_nat (length l + 1) mod 2 =? 1)%Z = true) as E by lia_div.
    destruct fuel as [|fuel]; [simpl in Hf; lia|]. cbn [insert_while]. rewrite E.
    assert (Z.of_nat (length l + 1) / 2 = Z.of_nat (length (pairs l)))%Z as ->
      by (rewrite length_pairs_even by done; lia_div).
    destruct (IH fuel (combine_hash y x)) as (rp' & node & Hrun & Hpk).
    { rewrite length_pairs_even by done. rewrite Nat2Z.inj_succ, Z.pow_succ_r in Hf by lia. lia_div. }
    exists rp', node. split; [done|]. rewrite <-app_assoc. simpl app. apply peaks_even.
    + by destruct l.
    + rewrite length_app. simpl. lia_div.
    + by rewrite pairs_app_even.
Qed.

Lemma level_stable l k j : length (level k l) = 1 → level (j + k) l = level k l.
Proof.
  intros Hk. induction j as [|j IH]; [done|].
  change (S j + k) with (S (j + k)). rewrite level_S, IH. by destruct (level k l) as [|a [|b m]].
Qed.

Lemma merkle_root_pairs l : 2 ≤ length l → merkle_root (pairs l) = merkle_root l.
Proof.
  intros Hl. unfold merkle_root. rewrite <-!level_pairs.
  assert (l ≠ []) as Hne by (by destruct l; simpl in *; [lia|]).
  assert (pairs l ≠ []) as Hne' by (destruct l as [|a [|b l]]; simpl in *; done || lia).
  pose proof (length_top l Hne) as H1. pose proof (length_top (pairs l) Hne') as H2.
  rewrite <-level_pairs in H2. set (h := merkle_height l) in *. set (h' := S (merkle_height (pairs l))) in *.
  destruct (decide (h ≤ h')).
  - replace h' with ((h' - h) + h) by lia. by rewrite (level_stable l h).
  - replace h with ((h - h') + h') by lia. by rewrite (level_stable l h').
Qed.

Lemma peaks_fold l rp x : peaks l rp → foldl (λ res h, combine_hash h res) x rp = merkle_root (l ++ [x]).
Proof.
  intros Hp. revert x. induction Hp as [|l rp Hl Hm Hp IH|l y rp Hm Hp IH]; intros x.
  - done.
  - rewrite IH, <-(merkle_root_pairs (l ++ [x])), pairs_app_even; [done|done|].
    rewrite length_app. destruct l; simpl; [done|lia].
  - simpl. rewrite IH, <-app_assoc. simpl app.
    rewrite <-(merkle_root_pairs (l ++ [y; x])), pairs_app_even; [done|done|].
    rewrite length_app. simpl. lia.
Qed.

Lemma peaks_root l rp : peaks l rp → l ≠ [] →
  ∃ last rest, rp = last :: rest ∧ foldl (λ res h, combine_hash h res) last rest = merkle_root l.
Proof.
  intros Hp. induction Hp as [|l rp Hl Hm Hp IH|l y rp Hm Hp IH]; intros Hne; [done| |].
  - assert (2 ≤ length l) by (destruct l as [|a [|b l]]; simpl in *; [done|done|lia]).
    rewrite <-(merkle_root_pairs l) by done. apply IH. destruct l as [|a [|b l]]; simpl in *; done || lia.
  - exists y, rp. split; [done|]. rewrite (peaks_fold _ _ y Hp).
    destruct (decide (l = [])) as [->|Hl]; [done|].
    rewrite <-(merkle_root_pairs (l ++ [y])), pairs_app_even; [done|done|].
    rewrite length_app. destruct l; simpl; [done|lia].
Qed.

Lemma count_ones_even n : count_ones (Z.of_nat (2 * n)) = count_ones (Z.of_nat n).
Proof. rewrite Nat2Z.inj_mul. by destruct (Z.of_nat n). Qed.

Lemma count_ones_odd n : count_ones (Z.of_nat (2 * n + 1)) = S (count_ones (Z.of_nat n)).
Proof.
  rewrite Nat2Z.inj_add, Nat2Z.inj_mul. destruct (Z.of_nat n) as [|p|p] eqn:E; [done|done|lia].
Qed.

Lemma peaks_length l rp : peaks l rp → length rp = count_ones (Z.of_nat (length l)).
Proof.
  induction 1 as [|l rp Hl Hm Hp IH|l y rp Hm Hp IH]; [done| |].
  - rewrite IH, length_pairs_even by done. rewrite <-count_ones_even. f_equal. f_equal. lia_div.
  - simpl. rewrite IH, length_pairs_even, length_app by done. simpl. rewrite <-count_ones_odd. f_equal. f_equal. lia_div.
Qed.

(** The tree that represents the leaves [l]. *)
Definition represents (t : PartialMerkleTree) (l : list H) : Prop :=
  peaks l (reverse (path t)) ∧ size t = Z.of_nat (length l).

Lemma insert_ok t l x :
  represents t l → (Z.of_nat (length l) < umax 64)%Z →
  ∃ t', insert t x = Some t' ∧ represents t' (l ++ [x]).
Proof.
  intros [Hp Hs] Hlt. unfold insert. rewrite Hs.
  destruct (insert_while_ok l _ Hp 64 x) as (rp' & node & Hrun & Hpk).
  { unfold umax in Hlt. change (Z.of_nat 64) with 64%Z. lia. }
  rewrite Hrun. cbn [mbind option_bind]. rewrite checked_add_ok by lia. cbn [mbind option_bind].
  eexists. split; [done|]. split; simpl.
  - by rewrite reverse_snoc, reverse_involutive.
  - rewrite length_app. simpl. lia.
Qed.

Definition insert_all (t : PartialMerkleTree) (l : list H) : option PartialMerkleTree :=
  foldl (λ t x, t ← t; insert t x) (Some t) l.

Lemma insert_all_ok k : ∀ t l,
  represents t l → (Z.of_nat (length l + length k) <= umax 64)%Z →
  ∃ t', insert_all t k = Some t' ∧ represents t' (l ++ k).
Proof.
  induction k as [|x k IH]; intros t l Ht Hk.
  - exists t. by rewrite app_nil_r.
  - simpl in Hk. destruct (insert_ok t l x Ht) as (t1 & H1 & Ht1); [lia|].
    destruct (IH t1 (l ++ [x]) Ht1) as (t2 & H2 & Ht2); [rewrite length_app; simpl; lia|].
    exists t2. rewrite <-app_assoc in Ht2. split; [|done]. unfold insert_all in *. simpl. by rewrite H1.
Qed.

(** * Main results *)

(** C24: [merklize] of a non-empty array of at most 2^63 items returns a root and one path per
    item, and every path is accepted for its item, both by [verify_path] and, with the index of
    the item, by [verify_path_with_index]. *)
Theorem merklize_complete arr :
  arr ≠ [] → (Z.of_nat (length arr) <= 2 ^ 63)%Z →
  ∃ r paths, merklize arr = Some (r, paths) ∧ length paths = length arr ∧
    ∀ i item p, arr !! i = Some item → paths !! i = Some p →
      verify_path r p item = true ∧
      verify_path_with_index r p item (Z.of_nat i) (Z.of_nat (length arr)) = Some true.
Proof.
  intros Ha Hn. eexists _, _. split; [by apply merklize_ok|]. set (l := hash_borsh <$> arr).
  split; [by rewrite length_fmap, length_seq|]. intros i item p Hi Hp.
  rewrite list_lookup_fmap in Hp. assert (i < length arr) as Hlt by by eapply lookup_lt_Some.
  rewrite lookup_seq_lt in Hp by done. injection Hp as <-. simpl.
  assert (l !! i = Some (hash_borsh item)) as Hl by (unfold l; by rewrite list_lookup_fmap, Hi).
  assert (verify_path (merkle_root l) (path_upto l (merkle_height l) i) item = true) as Hv.
  { apply bool_decide_eq_true. by apply path_to_root. }
  split; [done|]. unfold verify_path_with_index. rewrite matches_index_spec by done. cbn [mbind option_bind].
  rewrite Hv, andb_true_r. f_equal. apply bool_decide_eq_true. rewrite path_directions. unfold l at 1.
  rewrite length_fmap. unfold merkle_height, l. by rewrite length_fmap.
Qed.

(** C25: if neither the item hash nor the pair hash has collisions, a proof checked against an
    index is binding: whatever path a prover sends, [verify_path_with_index] accepts it for the
    root of an array only if the item is the one at that index and the path is the one
    [merklize] built. *)
Theorem verify_path_with_index_sound arr r paths p item i :
  (∀ a b c d, combine_hash a b = combine_hash c d → a = c ∧ b = d) →
  (∀ x y, hash_borsh x = hash_borsh y → x = y) →
  merklize arr = Some (r, paths) → (Z.of_nat (length arr) <= 2 ^ 63)%Z →
  verify_path_with_index r p item (Z.of_nat i) (Z.of_nat (length arr)) = Some true →
  arr !! i = Some item ∧ paths !! i = Some p.
Proof.
  intros Hinj Hinj' Hm Hn Hv. unfold verify_path_with_index in Hv.
  destruct (decide (i < length arr)) as [Hi|Hi].
  2: { unfold verify_path_matches_index in Hv. rewrite (proj2 (Z.leb_le _ _)) in Hv by lia. done. }
  rewrite matches_index_spec in Hv by done. cbn [mbind option_bind] in Hv. injection Hv as Hv.
  apply andb_true_iff in Hv as [Hd%bool_decide_eq_true Hr%bool_decide_eq_true].
  rewrite merklize_ok in Hm by (by destruct arr; simpl in *; [lia|]). injection Hm as <- <-.
  set (l := hash_borsh <$> arr) in *. destruct (lookup_lt_is_Some_2 arr i Hi) as [item' Hitem].
  assert (l !! i = Some (hash_borsh item')) as Hl by (unfold l; by rewrite list_lookup_fmap, Hitem).
  assert (length l = length arr) as Hlen by apply length_fmap.
  destruct (same_directions_inj p (path_upto l (merkle_height l) i) (hash_borsh item) (hash_borsh item'))
    as [-> E]; [done| |by rewrite Hr, (path_to_root l i)|].
  { rewrite path_directions, Hd. unfold merkle_height. by rewrite Hlen. }
  split; [by rewrite Hitem, (Hinj' _ _ E)|]. rewrite list_lookup_fmap, lookup_seq_lt by done. done.
Qed.

(** Inserting any hashes one by one never fails, and the root is that of the levels above them. *)
Lemma partial_tree_levels l :
  (Z.of_nat (length l) <= umax 64)%Z →
  ∃ t, insert_all empty_partial l = Some t ∧ is_well_formed t = true ∧
    size t = Z.of_nat (length l) ∧
    root t = if decide (l = []) then default_hash else merkle_root l.
Proof.
  intros Hl. destruct (insert_all_ok l empty_partial []) as (t & Hrun & Hp & Hs); [split; [constructor|done]|done|].
  simpl in *. exists t. split_and!; [done| |done|].
  - apply bool_decide_eq_true. rewrite Hs, <-(peaks_length _ _ Hp). by rewrite length_reverse.
  - unfold root. case_decide as Hne.
    + subst l. inversion Hp as [|? ? Hn|? ? ? _ _ E]; [done|done|]. by destruct l.
    + by destruct (peaks_root _ _ Hp Hne) as (last & rest & -> & ->).
Qed.

(** C26: Inserting the hashes of items one by one into an empty partial tree never fails, keeps the
    tree well formed with the number of inserted hashes as its size, and its root is the root that
    [merklize] computes for the whole sequence of items, also for the empty one. *)
Theorem partial_tree_root arr :
  (Z.of_nat (length arr) <= umax 64)%Z →
  ∃ t paths, insert_all empty_partial (hash_borsh <$> arr) = Some t ∧ is_well_formed t = true ∧
    size t = Z.of_nat (length arr) ∧ merklize arr = Some (root t, paths).
Proof.
  intros Hl. destruct (partial_tree_levels (hash_borsh <$> arr)) as (t & Hrun & Hwf & Hs & Hroot); [by rewrite length_fmap|].
  rewrite length_fmap in Hs. destruct (decide (arr = [])) as [->|Hne].
  - exists t, []. rewrite decide_True in Hroot by done. by rewrite Hroot.
  - rewrite decide_False in Hroot by (by intros ?%fmap_nil_inv). eexists t, _. split_and!; [done..|]. rewrite Hroot. by apply merklize_ok.
Qed.

End merkle.

(** Witnesses: hashes as free binary trees, which cannot collide. *)
Module FreeHash.
Inductive t : Type := Default | Leaf (n : nat) | Node (a b : t).

#[global] Instance eq_dec : EqDecision t.
Proof. solve_decision. Defined.
End FreeHash.

Lemma merklize_complete_witness :
  ∃ r paths, merklize FreeHash.Node FreeHash.Leaf FreeHash.Default [10; 11; 12] = Some (r, paths) ∧
    length paths = 3 ∧
    ∀ i item p, [10; 11; 12] !! i = Some item → paths !! i = Some p →
      verify_path FreeHash.Node FreeHash.Leaf r p item = true ∧
      verify_path_with_index FreeHash.Node FreeHash.Leaf r p item (Z.of_nat i) 3 = Some true.
Proof.
  apply (merklize_complete FreeHash.Node FreeHash.Leaf FreeHash.Default [10; 11; 12]); done.
Defined.

Lemma verify_path_with_index_sound_witness :
  [10; 11; 12] !! 2 = Some 12 ∧
  [[mkItem (FreeHash.Leaf 11) Right; mkItem (FreeHash.Leaf 12) Right];
   [mkItem (FreeHash.Leaf 10) Left; mkItem (FreeHash.Leaf 12) Right];
   [mkItem (FreeHash.Node (FreeHash.Leaf 10) (FreeHash.Leaf 11)) Left]] !! 2 =
  Some [mkItem (FreeHash.Node (FreeHash.Leaf 10) (FreeHash.Leaf 11)) Left].
Proof.
  apply (verify_path_with_index_sound FreeHash.Node FreeHash.Leaf FreeHash.Default [10; 11; 12]
    (FreeHash.Node (FreeHash.Node (FreeHash.Leaf 10) (FreeHash.Leaf 11)) (FreeHash.Leaf 12))).
  - by intros a b c d [=].
  - by intros x y [=].
  - reflexivity.
  - done.
  - reflexivity.
Defined.

Lemma partial_tree_root_witness :
  ∃ t paths, insert_all FreeHash.Node empty_partial [FreeHash.Leaf 1; FreeHash.Leaf 2; FreeHash.Leaf 3] = Some t ∧
    is_well_formed t = true ∧ size t = 3%Z ∧
    merklize FreeHash.Node FreeHash.Leaf FreeHash.Default [1; 2; 3] = Some (root FreeHash.Node FreeHash.Default t, paths) ∧
    root FreeHash.Node FreeHash.Default t =
      FreeHash.Node (FreeHash.Node (FreeHash.Leaf 1) (FreeHash.Leaf 2)) (FreeHash.Leaf 3).
Proof.
  destruct (partial_tree_root FreeHash.Node FreeHash.Leaf FreeHash.Default [1; 2; 3]) as (t & paths & Hi & Hw & Hs & Hm); [done|].
  exists t, paths. split_and!; [done..|]. vm_compute in Hi. by injection Hi as <-.
Defined.
