(* ===== verification/Doomslug.v ===== *)
(** Doomslug: approvals and block production.

    Models src/chain/chain/src/doomslug.rs: the trackers that collect approvals
    for a target height, the readiness condition for producing a block, the timer
    that issues endorsements and skips, and the updates of the tip.

    Account ids, block hashes and signatures are parameters.  Time is an explicit
    argument: [now] is the reading of the monotonic clock and [now_utc] of the wall
    clock when the operation runs; instants and durations are integers in
    nanoseconds, without the range limits of the time crate.  [None] is a panic. *)

From S2P Require Import Prelude.

Local Open Scope Z_scope.

Definition MAX_TIMER_ITERS : nat := 20.
Definition MAX_HEIGHTS_AHEAD_TO_STORE_APPROVALS : Z := 10000.
Definition MAX_HEIGHTS_BEFORE_TO_STORE_APPROVALS : Z := 20.
Definition MAX_HISTORY_SIZE : nat := 1000.

Definition should_retain_height (height head_height : Z) : option bool :=
  if saturating_sub head_height MAX_HEIGHTS_BEFORE_TO_STORE_APPROVALS <? height then
    limit ← checked_add 64 head_height MAX_HEIGHTS_AHEAD_TO_STORE_APPROVALS;
    Some (height <=? limit)
  else Some false.

Inductive DoomslugThresholdMode : Type := NoApprovals | TwoThirds.

#[export] Instance DoomslugThresholdMode_eq_dec : EqDecision DoomslugThresholdMode.
Proof. solve_decision. Defined.

Inductive DoomslugBlockProductionReadiness : Type := NotReady | ReadySince (when_ : Z).

Inductive ChunksReadiness : Type := ChunksReady (since : Z) | ChunksNotReady.

(** [iter().sum::<Balance>()] *)
Definition sum_balance (l : list Z) : option Z :=
  foldl (λ acc x, acc ← acc; checked_add 128 acc x) (Some 0) l.

Section doomslug.
Context {AccountId CryptoHash Signature : Type}.
Context `{Countable AccountId} `{Countable CryptoHash}.

(** * Approvals *)

Inductive ApprovalInner : Type := Endorsement (parent_hash : CryptoHash) | Skip (parent_height : Z).

#[export] Instance ApprovalInner_eq_dec : EqDecision ApprovalInner.
Proof. solve_decision. Defined.

#[export] Instance ApprovalInner_countable : Countable ApprovalInner.
Proof.
  refine (inj_countable'
    (λ a, match a with Endorsement h => inl h | Skip z => inr z end)
    (λ s, match s with inl h => Endorsement h | inr z => Skip z end) _).
  by intros [].
Defined.

Definition new_inner (parent_hash : CryptoHash) (parent_height target_height : Z) : option ApprovalInner :=
  next ← checked_add 64 parent_height 1;
  Some (if target_height =? next then Endorsement parent_hash else Skip parent_height).

Record Approval : Type := mkApproval {
  inner : ApprovalInner;
  target_height : Z;
  signature : Signature;
  account_id : AccountId
}.

(** A [ValidatorSigner]: its account and what it signs. *)
Record ValidatorSigner : Type := mkSigner {
  validator_id : AccountId;
  sign : ApprovalInner → Z → Signature
}.

Definition new_approval (parent_hash : CryptoHash) (parent_height target_height : Z)
    (signer : ValidatorSigner) : option Approval :=
  inner ← new_inner parent_hash parent_height target_height;
  Some (mkApproval inner target_height (sign signer inner target_height) (validator_id signer)).

Record ApprovalStake : Type := mkApprovalStake {
  stake_account_id : AccountId;
  stake_this_epoch : Z;
  stake_next_epoch : Z
}.

(** * Trackers *)

Record DoomslugApprovalsTracker : Type := mkTracker {
  witness : gmap AccountId (Approval * Z);
  account_id_to_stakes : gmap AccountId (Z * Z);
  total_stake_this_epoch : Z;
  approved_stake_this_epoch : Z;
  total_stake_next_epoch : Z;
  approved_stake_next_epoch : Z;
  time_passed_threshold : option Z;
  threshold_mode : DoomslugThresholdMode
}.

Definition map_values {V} (m : gmap AccountId V) : list V := (map_to_list m).*2.

Definition new_tracker (account_id_to_stakes : gmap AccountId (Z * Z)) (mode : DoomslugThresholdMode)
    : option DoomslugApprovalsTracker :=
  total_this ← sum_balance (fst <$> map_values account_id_to_stakes);
  total_next ← sum_balance (snd <$> map_values account_id_to_stakes);
  Some (mkTracker ∅ account_id_to_stakes total_this 0 total_next 0 None mode).

Definition stakes_of (t : DoomslugApprovalsTracker) (a : AccountId) : Z * Z :=
  default (0, 0) (account_id_to_stakes t !! a).

Definition set_witness (t : DoomslugApprovalsTracker) (w : gmap AccountId (Approval * Z)) (this next : Z)
    : DoomslugApprovalsTracker :=
  mkTracker w (account_id_to_stakes t) (total_stake_this_epoch t) this (total_stake_next_epoch t) next
    (time_passed_threshold t) (threshold_mode t).

Definition set_time_passed (t : DoomslugApprovalsTracker) (when_ : option Z) : DoomslugApprovalsTracker :=
  mkTracker (witness t) (account_id_to_stakes t) (total_stake_this_epoch t) (approved_stake_this_epoch t)
    (total_stake_next_epoch t) (approved_stake_next_epoch t) when_ (threshold_mode t).

(** The thresholds; [&&] and [||] are lazy, so the second product may not be computed. *)
Definition threshold_reached (t : DoomslugApprovalsTracker) : option bool :=
  double_this ← checked_mul 128 (total_stake_this_epoch t) 2;
  enough ← (if double_this / 3 <? approved_stake_this_epoch t then
              double_next ← checked_mul 128 (total_stake_next_epoch t) 2;
              Some ((double_next / 3 <? approved_stake_next_epoch t) || (total_stake_next_epoch t =? 0))
            else Some false);
  Some (enough || bool_decide (threshold_mode t = NoApprovals)).

Definition get_block_production_readiness (now : Z) (t : DoomslugApprovalsTracker)
    : option (DoomslugApprovalsTracker * DoomslugBlockProductionReadiness) :=
  reached ← threshold_reached t;
  if (reached : bool) then
    let since := default now (time_passed_threshold t) in
    Some (set_time_passed t (Some since), ReadySince since)
  else Some (t, NotReady).

Definition tracker_process_approval (now now_utc : Z) (t : DoomslugApprovalsTracker) (approval : Approval)
    : option (DoomslugApprovalsTracker * DoomslugBlockProductionReadiness) :=
  t ← (match witness t !! account_id approval with
       | Some _ => Some t
       | None =>
           let stakes := stakes_of t (account_id approval) in
           this ← checked_add 128 (approved_stake_this_epoch t) stakes.1;
           next ← checked_add 128 (approved_stake_next_epoch t) stakes.2;
           Some (set_witness t (<[account_id approval := (approval, now_utc)]> (witness t)) this next)
       end);
  get_block_production_readiness now t.

Definition withdraw_approval (t : DoomslugApprovalsTracker) (a : AccountId) : option DoomslugApprovalsTracker :=
  match witness t !! a with
  | None => Some t
  | Some (approval, _) =>
      let stakes := stakes_of t (account_id approval) in
      this ← checked_sub (approved_stake_this_epoch t) stakes.1;
      next ← checked_sub (approved_stake_next_epoch t) stakes.2;
      Some (set_witness t (delete a (witness t)) this next)
  end.

Definition get_witnesses (t : DoomslugApprovalsTracker) : list (AccountId * Z) :=
  (λ kv, (kv.1, kv.2.2)) <$> map_to_list (witness t).

Record DoomslugApprovalsTrackersAtHeight : Type := mkAtHeight {
  trackers : gmap ApprovalInner DoomslugApprovalsTracker;
  last_approval_per_account : gmap AccountId ApprovalInner
}.

Definition new_at_height : DoomslugApprovalsTrackersAtHeight := mkAtHeight ∅ ∅.

(** The withdrawal of the previous approval of the account. *)
Definition withdraw_last (at_h : DoomslugApprovalsTrackersAtHeight) (a : AccountId)
    : option (gmap ApprovalInner DoomslugApprovalsTracker) :=
  match last_approval_per_account at_h !! a with
  | None => Some (trackers at_h)
  | Some last_parent =>
      match trackers at_h !! last_parent with
      | None => Some (trackers at_h)
      | Some x =>
          x ← withdraw_approval x a;
          Some (if decide (witness x = ∅) then delete last_parent (trackers at_h)
                else <[last_parent := x]> (trackers at_h))
      end
  end.

Definition stakes_map (stakes : list ApprovalStake) : gmap AccountId (Z * Z) :=
  list_to_map (reverse ((λ x, (stake_account_id x, (stake_this_epoch x, stake_next_epoch x))) <$> stakes)).

Definition at_height_process_approval (now now_utc : Z) (at_h : DoomslugApprovalsTrackersAtHeight)
    (approval : Approval) (stakes : list ApprovalStake) (mode : DoomslugThresholdMode)
    : option (DoomslugApprovalsTrackersAtHeight * DoomslugBlockProductionReadiness) :=
  ts ← withdraw_last at_h (account_id approval);
  let account_id_to_stakes := stakes_map stakes in
  if negb (bool_decide (size account_id_to_stakes = length stakes)) then None
  else if negb (bool_decide (is_Some (account_id_to_stakes !! account_id approval)))
  then Some (mkAtHeight ts (last_approval_per_account at_h), NotReady)
  else
    let last := <[account_id approval := inner approval]> (last_approval_per_account at_h) in
    tracker ← (match ts !! inner approval with
               | Some t => Some t
               | None => new_tracker account_id_to_stakes mode
               end);
    '(tracker, ret) ← tracker_process_approval now now_utc tracker approval;
    Some (mkAtHeight (<[inner approval := tracker]> ts) last, ret).

Record ApprovalAtHeightStatus : Type := mkStatus {
  approvals : list (AccountId * (ApprovalInner * Z));
  ready_at : option Z
}.

Definition min_opt (a b : option Z) : option Z :=
  match a, b with Some x, Some y => Some (Z.min x y) | Some x, None => Some x | None, b => b end.

Definition status (now now_utc : Z) (at_h : DoomslugApprovalsTrackersAtHeight) : ApprovalAtHeightStatus :=
  let approvals :=
    map_to_list (trackers at_h) ≫= λ kv,
      (λ w, (w.1, (kv.1, w.2))) <$> get_witnesses kv.2 in
  let threshold_approval :=
    (λ ts, now_utc - (now - ts)) <$>
      foldr (λ kv acc, min_opt (time_passed_threshold kv.2) acc) None (map_to_list (trackers at_h)) in
  mkStatus approvals threshold_approval.

(** * The state machine *)

Record DoomslugTimer : Type := mkTimer {
  started : Z;
  last_endorsement_sent : Z;
  timer_height : Z;
  endorsement_delay : Z;
  min_delay : Z;
  delay_step : Z;
  max_delay : Z;
  chunk_wait_mult : Z * Z
}.

Definition get_delay (timer : DoomslugTimer) (n : Z) : Z :=
  let n32 := if n <=? umax 32 then n else umax 32 in
  Z.min (max_delay timer) (min_delay timer + delay_step timer * saturating_sub n32 2).

Record DoomslugTip : Type := mkTip { tip_block_hash : CryptoHash; tip_height : Z }.

Record ApprovalHistoryEntry : Type := mkHistoryEntry {
  entry_parent_height : Z;
  entry_target_height : Z;
  approval_creation_time : Z;
  timer_started_ago_millis : Z;
  expected_delay_millis : Z
}.

Record Doomslug : Type := mkDoomslug {
  ds_threshold_mode : DoomslugThresholdMode;
  approval_trackers : gmap Z DoomslugApprovalsTrackersAtHeight;
  largest_target_height : Z;
  largest_final_height : Z;
  largest_threshold_height : Z;
  largest_approval_height : Z;
  tip : DoomslugTip;
  endorsement_pending : bool;
  timer : DoomslugTimer;
  history : list ApprovalHistoryEntry
}.

Definition new_doomslug (now : Z) (default_hash : CryptoHash) (largest_target_height endorsement_delay min_delay
    delay_step max_delay : Z) (chunk_wait_mult : Z * Z) (mode : DoomslugThresholdMode) : Doomslug :=
  mkDoomslug mode ∅ largest_target_height 0 0 0 (mkTip default_hash 0) false
    (mkTimer now now 0 endorsement_delay min_delay delay_step max_delay chunk_wait_mult) [].

(** [while self.history.len() >= MAX_HISTORY_SIZE { pop_front }], then [push_back]. *)
Definition update_history (h : list ApprovalHistoryEntry) (entry : ApprovalHistoryEntry)
    : list ApprovalHistoryEntry :=
  drop (S (length h) - MAX_HISTORY_SIZE) h ++ [entry].

Definition create_approval (d : Doomslug) (target : Z) (signer : option ValidatorSigner)
    : option (option Approval) :=
  match signer with
  | None => Some None
  | Some signer =>
      a ← new_approval (tip_block_hash (tip d)) (tip_height (tip d)) target signer;
      Some (Some a)
  end.

(** [whole_milliseconds().max(0) as u64] and [whole_milliseconds() as u64]. *)
Definition millis_since (d : Z) : Z := Z.max (Z.quot d 1000000) 0 mod 2 ^ 64.
Definition millis (d : Z) : Z := Z.quot d 1000000 mod 2 ^ 64.

Definition set_target (d : Doomslug) (target : Z) : Doomslug :=
  mkDoomslug (ds_threshold_mode d) (approval_trackers d) target (largest_final_height d)
    (largest_threshold_height d) (largest_approval_height d) (tip d) (endorsement_pending d) (timer d) (history d).

Definition set_history (d : Doomslug) (h : list ApprovalHistoryEntry) : Doomslug :=
  mkDoomslug (ds_threshold_mode d) (approval_trackers d) (largest_target_height d) (largest_final_height d)
    (largest_threshold_height d) (largest_approval_height d) (tip d) (endorsement_pending d) (timer d) h.

Definition set_timer (d : Doomslug) (pending : bool) (t : DoomslugTimer) : Doomslug :=
  mkDoomslug (ds_threshold_mode d) (approval_trackers d) (largest_target_height d) (largest_final_height d)
    (largest_threshold_height d) (largest_approval_height d) (tip d) pending t (history d).

Definition set_trackers (d : Doomslug) (ts : gmap Z DoomslugApprovalsTrackersAtHeight)
    (approval_height threshold_height : Z) : Doomslug :=
  mkDoomslug (ds_threshold_mode d) ts (largest_target_height d) (largest_final_height d)
    threshold_height approval_height (tip d) (endorsement_pending d) (timer d) (history d).

(** The endorsement part of one iteration of [process_timer]. *)
Definition endorse_step (now now_utc : Z) (signer : option ValidatorSigner) (d : Doomslug) (ret : list Approval)
    : option (Doomslug * list Approval) :=
  let t := timer d in
  let tip_h := tip_height (tip d) in
  if endorsement_pending d && (last_endorsement_sent t + endorsement_delay t <=? now) then
    '(d, ret) ←
      (if largest_target_height d <=? tip_h then
         next ← checked_add 64 tip_h 1;
         let d := set_target d next in
         approval ← create_approval d next signer;
         let d := set_history d (update_history (history d)
                    (mkHistoryEntry tip_h next now_utc (millis_since (now - last_endorsement_sent t))
                       (millis (endorsement_delay t)))) in
         Some (d, ret ++ option_list approval)
       else Some (d, ret));
    Some (set_timer d false (mkTimer (started t) now (timer_height t) (endorsement_delay t) (min_delay t)
                               (delay_step t) (max_delay t) (chunk_wait_mult t)), ret)
  else Some (d, ret).

(** The skip part; [false] is the [break]. *)
Definition skip_step (now now_utc : Z) (signer : option ValidatorSigner) (skip_delay : Z) (d : Doomslug)
    (ret : list Approval) : option (bool * Doomslug * list Approval) :=
  let t := timer d in
  if started t + skip_delay <=? now then
    next ← checked_add 64 (timer_height t) 1;
    let d := set_target d (Z.max next (largest_target_height d)) in
    approval ← create_approval d next signer;
    let d := set_history d (update_history (history d)
               (mkHistoryEntry (tip_height (tip d)) next now_utc (millis_since (now - started t))
                  (millis skip_delay))) in
    let d := set_timer d (endorsement_pending d)
               (mkTimer (started t + skip_delay) (last_endorsement_sent t) next (endorsement_delay t)
                  (min_delay t) (delay_step t) (max_delay t) (chunk_wait_mult t)) in
    Some (true, d, ret ++ option_list approval)
  else Some (false, d, ret).

Fixpoint timer_loop (iters : nat) (now now_utc : Z) (signer : option ValidatorSigner) (d : Doomslug)
    (ret : list Approval) : option (Doomslug * list Approval) :=
  match iters with
  | O => Some (d, ret)
  | S iters =>
      let skip_delay := get_delay (timer d) (saturating_sub (timer_height (timer d)) (largest_final_height d)) in
      '(d, ret) ← endorse_step now now_utc signer d ret;
      '(continue_, d, ret) ← skip_step now now_utc signer skip_delay d ret;
      if (continue_ : bool) then timer_loop iters now now_utc signer d ret else Some (d, ret)
  end.

Definition process_timer (now now_utc : Z) (signer : option ValidatorSigner) (d : Doomslug)
    : option (Doomslug * list Approval) :=
  timer_loop MAX_TIMER_ITERS now now_utc signer d [].

Definition can_approved_block_be_produced {Sig} (mode : DoomslugThresholdMode) (approvals : list (option Sig))
    (stakes : list (Z * Z)) : option bool :=
  if bool_decide (mode = NoApprovals) then Some true
  else
    total1 ← sum_balance (fst <$> stakes);
    double1 ← checked_mul 128 total1 2;
    let threshold1 := double1 / 3 in
    total2 ← sum_balance (snd <$> stakes);
    double2 ← checked_mul 128 total2 2;
    let threshold2 := double2 / 3 in
    approved_stake1 ← sum_balance
      ((λ p, if bool_decide (is_Some p.1) then p.2.1 else 0) <$> zip approvals stakes);
    approved_stake2 ← sum_balance
      ((λ p, if bool_decide (is_Some p.1) then p.2.2 else 0) <$> zip approvals stakes);
    Some (((threshold1 <? approved_stake1) || (threshold1 =? 0)) &&
          ((threshold2 <? approved_stake2) || (threshold2 =? 0))).

Definition get_witness (d : Doomslug) (prev_hash : CryptoHash) (parent_height target : Z)
    : option (gmap AccountId (Approval * Z)) :=
  hash_or_height ← new_inner prev_hash parent_height target;
  Some match approval_trackers d !! target with
       | Some at_h =>
           match trackers at_h !! hash_or_height with
           | None => ∅
           | Some t => witness t
           end
       | None => ∅
       end.

(** [retain]: the predicate may panic. *)
Definition retain_step (head : Z) (kv : Z * DoomslugApprovalsTrackersAtHeight)
    (acc : option (gmap Z DoomslugApprovalsTrackersAtHeight)) : option (gmap Z DoomslugApprovalsTrackersAtHeight) :=
  acc ← acc;
  keep ← should_retain_height kv.1 head;
  Some (if (keep : bool) then <[kv.1 := kv.2]> acc else acc).

Definition retain_heights (head : Z) (ts : gmap Z DoomslugApprovalsTrackersAtHeight)
    : option (gmap Z DoomslugApprovalsTrackersAtHeight) :=
  foldr (retain_step head) (Some ∅) (map_to_list ts).

Definition set_tip (now : Z) (block_hash : CryptoHash) (height last_final_height : Z) (d : Doomslug)
    : option Doomslug :=
  next ← checked_add 64 height 1;
  let t := timer d in
  ts ← retain_heights height (approval_trackers d);
  Some (mkDoomslug (ds_threshold_mode d) ts (largest_target_height d) last_final_height
    (largest_threshold_height d) (largest_approval_height d) (mkTip block_hash height) true
    (mkTimer now (last_endorsement_sent t) next (endorsement_delay t) (min_delay t) (delay_step t)
       (max_delay t) (chunk_wait_mult t)) (history d)).

Definition on_approval_message_internal (now now_utc : Z) (approval : Approval) (stakes : list ApprovalStake)
    (d : Doomslug) : option (Doomslug * DoomslugBlockProductionReadiness) :=
  let at_h := default new_at_height (approval_trackers d !! target_height approval) in
  '(at_h, ret) ← at_height_process_approval now now_utc at_h approval stakes (ds_threshold_mode d);
  let approval_height := Z.max (target_height approval) (largest_approval_height d) in
  let threshold_height :=
    match ret with
    | NotReady => largest_threshold_height d
    | ReadySince _ => Z.max (target_height approval) (largest_threshold_height d)
    end in
  Some (set_trackers d (<[target_height approval := at_h]> (approval_trackers d)) approval_height
          threshold_height, ret).

Definition on_approval_message (now now_utc : Z) (approval : Approval) (stakes : list ApprovalStake)
    (d : Doomslug) : option Doomslug :=
  if target_height approval <? tip_height (tip d) then Some d
  else
    limit ← checked_add 64 (tip_height (tip d)) MAX_HEIGHTS_AHEAD_TO_STORE_APPROVALS;
    if limit <? target_height approval then Some d
    else
      '(d, _) ← on_approval_message_internal now now_utc approval stakes d;
      Some d.

Definition approval_status_at_height (now now_utc : Z) (height : Z) (d : Doomslug) : ApprovalAtHeightStatus :=
  match approval_trackers d !! height with
  | Some at_h => status now now_utc at_h
  | None => mkStatus [] None
  end.

Definition ready_to_produce_block (now : Z) (target : Z) (chunks_readiness : ChunksReadiness) (d : Doomslug)
    : option (Doomslug * bool) :=
  hash_or_height ← new_inner (tip_block_hash (tip d)) (tip_height (tip d)) target;
  match approval_trackers d !! target with
  | None => Some (d, false)
  | Some at_h =>
      match trackers at_h !! hash_or_height with
      | None => Some (d, false)
      | Some tracker =>
          '(tracker, readiness) ← get_block_production_readiness now tracker;
          let at_h := mkAtHeight (<[hash_or_height := tracker]> (trackers at_h)) (last_approval_per_account at_h) in
          let d := set_trackers d (<[target := at_h]> (approval_trackers d)) (largest_approval_height d)
                     (largest_threshold_height d) in
          match readiness, chunks_readiness with
          | NotReady, _ => Some (d, false)
          | ReadySince _, ChunksReady _ => Some (d, true)
          | ReadySince when_, ChunksNotReady =>
              let '(num, den) := chunk_wait_mult (timer d) in
              if den =? 0 then None
              else
                let delay := Z.quot (get_delay (timer d)
                               (saturating_sub (timer_height (timer d)) (largest_final_height d)) * num) den in
                Some (d, when_ + delay <? now)
          end
      end
  end.

(** The approvals a block producer puts in its block, in the order of the epoch's approvers:
    the map is drained by [HashMap::remove]. *)
Fixpoint collect_approvals (approvals_map : gmap AccountId (Approval * Z)) (approvers : list ApprovalStake)
    : list (option Signature) :=
  match approvers with
  | [] => []
  | s :: approvers =>
      (signature ∘ fst <$> approvals_map !! stake_account_id s) ::
      collect_approvals (delete (stake_account_id s) approvals_map) approvers
  end.

(** * Stakes *)

Lemma sum_balance_spec l :
  Forall (λ x, 0 <= x) l → sum_Z l <= umax 128 → sum_balance l = Some (sum_Z l).
Proof.
  intros Hl Hs. unfold sum_balance.
  assert (∀ acc, 0 <= acc → acc + sum_Z l <= umax 128 →
    foldl (λ acc x, acc ← acc; checked_add 128 acc x) (Some acc) l = Some (acc + sum_Z l)) as Hgen.
  { clear Hs. induction Hl as [|x l Hx Hl IH]; intros acc Hacc Hle; simpl in *; [f_equal; lia|].
    pose proof (sum_Z_nonneg l Hl). rewrite checked_add_ok by lia. rewrite IH by lia. f_equal. lia. }
  rewrite Hgen by lia. f_equal.
Qed.

Lemma sum_balance_eq l v :
  Forall (λ x, 0 <= x) l → sum_Z l = v → v <= umax 128 → sum_balance l = Some v.
Proof. intros ? <- ?. by apply sum_balance_spec. Qed.

Definition stake_this (m : gmap AccountId (Z * Z)) (a : AccountId) : Z := (default (0, 0) (m !! a)).1.
Definition stake_next (m : gmap AccountId (Z * Z)) (a : AccountId) : Z := (default (0, 0) (m !! a)).2.

Definition stakes_ok (m : gmap AccountId (Z * Z)) : Prop :=
  (∀ a, 0 <= stake_this m a ∧ 0 <= stake_next m a) ∧
  2 * sum_over (stake_this m) (dom m) <= umax 128 ∧ 2 * sum_over (stake_next m) (dom m) <= umax 128.

Lemma new_tracker_ok m mode :
  stakes_ok m →
  new_tracker m mode = Some (mkTracker ∅ m (sum_over (stake_this m) (dom m)) 0
    (sum_over (stake_next m) (dom m)) 0 None mode).
Proof.
  intros (Hnn & Hthis & Hnext).
  assert (sum_Z (fst <$> map_values m) = sum_over (stake_this m) (dom m)) as E1.
  { symmetry. apply sum_over_dom. intros k v Hk. unfold stake_this. by rewrite Hk. }
  assert (sum_Z (snd <$> map_values m) = sum_over (stake_next m) (dom m)) as E2.
  { symmetry. apply sum_over_dom. intros k v Hk. unfold stake_next. by rewrite Hk. }
  assert (∀ v, v ∈ map_values m → 0 <= v.1 ∧ 0 <= v.2) as Hv.
  { intros v ([k v'] & -> & Hk%elem_of_map_to_list)%list_elem_of_fmap. specialize (Hnn k).
    unfold stake_this, stake_next in Hnn. by rewrite Hk in Hnn. }
  pose proof (sum_over_nonneg (stake_this m) (dom m) (λ a, proj1 (Hnn a))).
  pose proof (sum_over_nonneg (stake_next m) (dom m) (λ a, proj2 (Hnn a))).
  unfold new_tracker. rewrite !sum_balance_spec; [by rewrite E1, E2|..].
  all: try (apply Forall_fmap, Forall_forall; intros v Hin; by apply Hv).
  all: lia.
Qed.

(** * Trackers account for exactly the stake of their witnesses *)

Record tracker_ok (t : DoomslugApprovalsTracker) : Prop := {
  tr_stakes : stakes_ok (account_id_to_stakes t);
  tr_total_this : total_stake_this_epoch t = sum_over (stake_this (account_id_to_stakes t)) (dom (account_id_to_stakes t));
  tr_total_next : total_stake_next_epoch t = sum_over (stake_next (account_id_to_stakes t)) (dom (account_id_to_stakes t));
  tr_this : approved_stake_this_epoch t = sum_over (stake_this (account_id_to_stakes t)) (dom (witness t));
  tr_next : approved_stake_next_epoch t = sum_over (stake_next (account_id_to_stakes t)) (dom (witness t));
  tr_account : ∀ a ap utc, witness t !! a = Some (ap, utc) → account_id ap = a
}.

Lemma sum_over_stakes_le m (g : AccountId → Z) (X : gset AccountId) :
  (∀ a, 0 <= g a) → (∀ a, m !! a = None → g a = 0) →
  sum_over g X <= sum_over g (dom (m : gmap AccountId (Z * Z))).
Proof.
  intros Hg Hz. pose proof (sum_over_split g X (dom m)) as Hs.
  assert (sum_over g (X ∖ dom m) = 0) as E.
  { apply sum_over_zero. intros a Ha. apply Hz, not_elem_of_dom. set_solver. }
  assert (sum_over g (X ∩ dom m) <= sum_over g (dom m)); [apply sum_over_mono; [done|set_solver]|lia].
Qed.

Lemma approved_le_total m X :
  stakes_ok m →
  sum_over (stake_this m) X <= sum_over (stake_this m) (dom m) ∧
  sum_over (stake_next m) X <= sum_over (stake_next m) (dom m).
Proof.
  intros (Hnn & _). split; apply sum_over_stakes_le; try (intros a; apply Hnn).
  - intros a Ha. unfold stake_this. by rewrite Ha.
  - intros a Ha. unfold stake_next. by rewrite Ha.
Qed.

Lemma two_thirds a t : 0 <= t → (2 * t / 3 <? a) = (2 * t <? 3 * a).
Proof. intros. lia_div. Qed.

(** The readiness condition in exact arithmetic. *)
Definition has_quorum (t : DoomslugApprovalsTracker) : bool :=
  ((2 * total_stake_this_epoch t <? 3 * approved_stake_this_epoch t) &&
   ((2 * total_stake_next_epoch t <? 3 * approved_stake_next_epoch t) || (total_stake_next_epoch t =? 0)))
  || bool_decide (threshold_mode t = NoApprovals).

Lemma threshold_reached_spec t : tracker_ok t → threshold_reached t = Some (has_quorum t).
Proof.
  intros [Hst Ht Hn Ha Hb _]. assert (Hst' := Hst). destruct Hst' as (Hnn & H1 & H2).
  pose proof (sum_over_nonneg _ (dom (account_id_to_stakes t)) (λ a, proj1 (Hnn a))) as P1.
  pose proof (sum_over_nonneg _ (dom (account_id_to_stakes t)) (λ a, proj2 (Hnn a))) as P2.
  assert (0 <= total_stake_this_epoch t ∧ 0 <= total_stake_next_epoch t) as [Q1 Q2] by lia.
  unfold threshold_reached, has_quorum.
  rewrite (checked_mul_ok 128 (total_stake_this_epoch t)) by lia. cbn [mbind option_bind]. rewrite (Z.mul_comm (total_stake_this_epoch t) 2), (two_thirds _ _ Q1).
  destruct (2 * total_stake_this_epoch t <? _); [|done].
  rewrite checked_mul_ok by lia. cbn [mbind option_bind]. rewrite (Z.mul_comm (total_stake_next_epoch t) 2), (two_thirds _ _ Q2). done.
Qed.

Lemma set_time_ok t w : tracker_ok t → tracker_ok (set_time_passed t w).
Proof. intros []. by constructor. Qed.

(** What a tracker is created with and never changes. *)
Definition config (t : DoomslugApprovalsTracker) : gmap AccountId (Z * Z) * DoomslugThresholdMode :=
  (account_id_to_stakes t, threshold_mode t).

Lemma readiness_ok now t :
  tracker_ok t →
  ∃ t' r, get_block_production_readiness now t = Some (t', r) ∧ tracker_ok t' ∧ witness t' = witness t ∧
    config t' = config t ∧ has_quorum t' = has_quorum t ∧
    (r = NotReady ↔ has_quorum t = false).
Proof.
  intros Ht. unfold get_block_production_readiness. rewrite threshold_reached_spec by done. cbn [mbind option_bind].
  destruct (has_quorum t) eqn:E.
  - eexists _, _. split; [done|]. split_and!; try done; [by apply set_time_ok].
  - eexists _, _. split; [done|]. split_and!; done.
Qed.

Lemma tracker_process_ok now utc t ap :
  tracker_ok t →
  ∃ t' r, tracker_process_approval now utc t ap = Some (t', r) ∧ tracker_ok t' ∧
    dom (witness t') = {[account_id ap]} ∪ dom (witness t) ∧
    config t' = config t ∧ (r = NotReady ↔ has_quorum t' = false).
Proof.
  intros Ht. unfold tracker_process_approval. destruct (witness t !! account_id ap) as [x|] eqn:Hw.
  - cbn [mbind option_bind]. destruct (readiness_ok now t Ht) as (t' & r & Hrun & Hok & Hwit & Hs & Hq & Hr).
    exists t', r. rewrite Hwit, Hq. split_and!; try done. apply elem_of_dom_2 in Hw. set_solver.
  - set (t1 := set_witness t (<[account_id ap := (ap, utc)]> (witness t))
      (approved_stake_this_epoch t + (stakes_of t (account_id ap)).1)
      (approved_stake_next_epoch t + (stakes_of t (account_id ap)).2)).
    assert (account_id ap ∉ dom (witness t)) as Hnew by by apply not_elem_of_dom.
    assert (tracker_ok t1) as Ht1.
    { destruct Ht as [Hst Htt Htn Ha Hb Hacc]. constructor; simpl; try done.
      - rewrite dom_insert_L, sum_over_insert, Ha by done. unfold stake_this, stakes_of. lia.
      - rewrite dom_insert_L, sum_over_insert, Hb by done. unfold stake_next, stakes_of. lia.
      - intros a ap' utc' [[<- [= <- <-]]|[_ ?]]%lookup_insert_Some; [done|]. by eapply Hacc. }
    destruct (approved_le_total _ (dom (witness t1)) (tr_stakes _ Ht1)) as [L1 L2].
    destruct (tr_stakes _ Ht1) as (_ & U1 & U2).
    rewrite <-(tr_this _ Ht1) in L1. rewrite <-(tr_next _ Ht1) in L2. simpl in L1, L2, U1, U2.
    assert (∀ z, 2 * z <= umax 128 → 0 <= z → z <= umax 128) as Hhalf by (intros; lia).
    pose proof (sum_over_nonneg _ (dom (account_id_to_stakes t)) (λ a, proj1 (proj1 (tr_stakes _ Ht) a))).
    pose proof (sum_over_nonneg _ (dom (account_id_to_stakes t)) (λ a, proj2 (proj1 (tr_stakes _ Ht) a))).
    rewrite !checked_add_ok by lia. cbn [mbind option_bind]. fold t1.
    destruct (readiness_ok now t1 Ht1) as (t' & r & Hrun & Hok & Hwit & Hs & Hq & Hr).
    exists t', r. rewrite Hwit, Hq. split_and!; try done. simpl. by rewrite dom_insert_L.
Qed.

Lemma withdraw_ok t a :
  tracker_ok t →
  ∃ t', withdraw_approval t a = Some t' ∧ tracker_ok t' ∧ dom (witness t') = dom (witness t) ∖ {[a]} ∧
    config t' = config t.
Proof.
  intros Ht. unfold withdraw_approval. destruct (witness t !! a) as [[ap utc]|] eqn:Hw.
  - rewrite (tr_account _ Ht _ _ _ Hw). assert (a ∈ dom (witness t)) as Ha by by eapply elem_of_dom_2.
    assert (sum_over (stake_this (account_id_to_stakes t)) (dom (witness t) ∖ {[a]}) =
      approved_stake_this_epoch t - (stakes_of t a).1) as E1 by (by rewrite sum_over_delete, (tr_this _ Ht)).
    assert (sum_over (stake_next (account_id_to_stakes t)) (dom (witness t) ∖ {[a]}) =
      approved_stake_next_epoch t - (stakes_of t a).2) as E2 by (by rewrite sum_over_delete, (tr_next _ Ht)).
    pose proof (sum_over_nonneg _ (dom (witness t) ∖ {[a]}) (λ a, proj1 (proj1 (tr_stakes _ Ht) a))).
    pose proof (sum_over_nonneg _ (dom (witness t) ∖ {[a]}) (λ a, proj2 (proj1 (tr_stakes _ Ht) a))).
    rewrite !checked_sub_ok by lia. cbn [mbind option_bind]. eexists. split; [done|].
    destruct Ht as [Hst Htt Htn Hth Hne Hacc]. split_and!; [constructor|..]; simpl; try done.
    + by rewrite dom_delete_L, E1.
    + by rewrite dom_delete_L, E2.
    + intros a' ap' utc' [_ ?]%lookup_delete_Some. by eapply Hacc.
    + by rewrite dom_delete_L.
  - exists t. split_and!; try done. apply not_elem_of_dom in Hw. set_solver.
Qed.

(** * One approval per account and height *)

(** The trackers partition the accounts by their last approval. *)
Record partition (c : gmap AccountId (Z * Z) * DoomslugThresholdMode) (last : gmap AccountId ApprovalInner)
    (ts : gmap ApprovalInner DoomslugApprovalsTracker) : Prop := {
  part_tracker : ∀ i t, ts !! i = Some t → tracker_ok t ∧ config t = c;
  part_witness : ∀ i t a, ts !! i = Some t → (a ∈ dom (witness t) ↔ last !! a = Some i);
  part_last : ∀ a i, last !! a = Some i → is_Some (ts !! i)
}.

Record at_height_ok (c : gmap AccountId (Z * Z) * DoomslugThresholdMode) (at_h : DoomslugApprovalsTrackersAtHeight) : Prop := {
  ath_partition : partition c (last_approval_per_account at_h) (trackers at_h);
  ath_accounts : dom (last_approval_per_account at_h) ⊆ dom c.1
}.

Lemma new_at_height_ok c : at_height_ok c new_at_height.
Proof.
  constructor; [constructor|]; simpl; set_solver.
Qed.

Lemma withdraw_last_ok c at_h a :
  at_height_ok c at_h →
  ∃ ts, withdraw_last at_h a = Some ts ∧ partition c (delete a (last_approval_per_account at_h)) ts.
Proof.
  destruct at_h as [ts last]. intros [[Htr Hwit Hlast] _]. simpl in *. unfold withdraw_last. simpl.
  destruct (last !! a) as [p|] eqn:Ha.
  2: { exists ts. split; [done|]. rewrite delete_id by done. by constructor. }
  destruct (Hlast a p Ha) as [x Hx]. rewrite Hx. destruct (Htr p x Hx) as [Hok Hm].
  destruct (withdraw_ok x a Hok) as (x' & Hrun & Hok' & Hdom & Hm'). rewrite Hrun. cbn [mbind option_bind].
  eexists. split; [done|].
  assert (Hx' : ∀ a', a' ∈ dom (witness x') ↔ delete a last !! a' = Some p).
  { intros a'. rewrite Hdom, elem_of_difference, elem_of_singleton, (Hwit p x a' Hx), lookup_delete_Some. naive_solver. }
  assert (Hother : ∀ i t, i ≠ p → ts !! i = Some t → ∀ a', a' ∈ dom (witness t) ↔ delete a last !! a' = Some i).
  { intros i t Hne Hi a'. rewrite (Hwit i t a' Hi), lookup_delete_Some. naive_solver. }
  case_decide as Hemp.
  - assert (dom (witness x') = ∅) as Hd by (rewrite Hemp; apply dom_empty_L). constructor.
    + intros i t [_ Hi]%lookup_delete_Some. by apply (Htr i).
    + intros i t a' [Hne Hi]%lookup_delete_Some. by apply (Hother i).
    + intros a' i Hi. assert (i ≠ p) as Hne.
      { intros ->. apply Hx' in Hi. rewrite Hd in Hi. set_solver. }
      apply lookup_delete_Some in Hi as [_ Hi]. rewrite lookup_delete_ne by done. by eapply Hlast.
  - constructor.
    + intros i t [[<- <-]|[_ Hi]]%lookup_insert_Some; [split; [done|congruence]|by apply (Htr i)].
    + intros i t a' [[<- <-]|[Hne Hi]]%lookup_insert_Some; [done|]. by apply (Hother i).
    + intros a' i [_ Hi]%lookup_delete_Some. destruct (decide (p = i)) as [->|?];
        [rewrite lookup_insert_eq; eauto|rewrite lookup_insert_ne by done; by eapply Hlast].
Qed.

(** * The list of approvers and its map *)

Lemma stakes_map_keys stakes :
  NoDup (stake_account_id <$> stakes) →
  NoDup ((reverse ((λ x, (stake_account_id x, (stake_this_epoch x, stake_next_epoch x))) <$> stakes)).*1).
Proof. intros Hnd. rewrite fmap_reverse, <-list_fmap_compose. by rewrite reverse_Permutation. Qed.

Lemma stakes_map_size stakes :
  NoDup (stake_account_id <$> stakes) → size (stakes_map stakes) = length stakes.
Proof.
  intros Hnd%stakes_map_keys. rewrite <-length_map_to_list. unfold stakes_map.
  by rewrite map_to_list_to_map, length_reverse, length_fmap.
Qed.

Lemma stakes_map_lookup stakes s :
  NoDup (stake_account_id <$> stakes) → s ∈ stakes →
  stakes_map stakes !! stake_account_id s = Some (stake_this_epoch s, stake_next_epoch s).
Proof.
  intros Hnd%stakes_map_keys Hs. apply elem_of_list_to_map_1; [done|].
  apply elem_of_reverse, list_elem_of_fmap. by exists s.
Qed.

Lemma stakes_map_dom stakes : dom (stakes_map stakes) = list_to_set (stake_account_id <$> stakes).
Proof.
  unfold stakes_map. rewrite dom_list_to_map_L, fmap_reverse, <-list_fmap_compose.
  apply set_eq. intros a. by rewrite !elem_of_list_to_set, elem_of_reverse.
Qed.

Lemma sum_over_approvers stakes (g : AccountId → Z) (f : ApprovalStake → Z) (X : gset AccountId) :
  NoDup (stake_account_id <$> stakes) → X ⊆ dom (stakes_map stakes) →
  (∀ s, s ∈ stakes → g (stake_account_id s) = f s) →
  sum_Z ((λ s, if bool_decide (stake_account_id s ∈ X) then f s else 0) <$> stakes) = sum_over g X.
Proof.
  intros Hnd HX Hg.
  transitivity (sum_over (λ a, if bool_decide (a ∈ X) then g a else 0) (dom (stakes_map stakes))).
  - rewrite stakes_map_dom. unfold sum_over.
    rewrite (sum_Z_permutation _ _ (fmap_Permutation _ _ _ (elements_list_to_set (C := gset AccountId) _ Hnd))).
    rewrite <-list_fmap_compose. f_equal. apply list_fmap_ext. intros k s Hk%list_elem_of_lookup_2. simpl.
    case_bool_decide; [by rewrite Hg|done].
  - clear Hg. set (D := dom (stakes_map stakes) : gset AccountId) in *. clearbody D.
    set (h := λ a, if bool_decide (a ∈ X) then g a else 0).
    assert (sum_over h (D ∖ X) = 0) as E0.
    { apply sum_over_zero. intros a [_ Ha]%elem_of_difference. unfold h. by rewrite bool_decide_false. }
    assert (sum_over h (D ∩ X) = sum_over g X) as E1.
    { rewrite (intersection_comm_L D X), (subseteq_intersection_1_L X D HX).
      apply sum_over_ext. intros a Ha. unfold h. by rewrite bool_decide_true. }
    pose proof (sum_over_split h D X). lia.
Qed.

Lemma collect_approvals_spec stakes : ∀ w,
  NoDup (stake_account_id <$> stakes) →
  collect_approvals w stakes = (λ s, signature ∘ fst <$> w !! stake_account_id s) <$> stakes.
Proof.
  induction stakes as [|s stakes IH]; intros w Hnd; [done|]. cbn in Hnd. apply NoDup_cons in Hnd as [Hni Hnd].
  cbn [collect_approvals fmap list_fmap]. f_equal. rewrite IH by done. apply list_fmap_ext.
  intros k s' Hk%list_elem_of_lookup_2. rewrite lookup_delete_ne; [done|].
  intros E. apply Hni. rewrite E. by apply list_elem_of_fmap_2.
Qed.

Lemma total_stake stakes (f : ApprovalStake → Z) (g : AccountId → Z) :
  NoDup (stake_account_id <$> stakes) →
  (∀ s, s ∈ stakes → g (stake_account_id s) = f s) →
  sum_Z (f <$> stakes) = sum_over g (dom (stakes_map stakes)).
Proof.
  intros Hnd Hfg. rewrite <-(sum_over_approvers stakes g f) by done. f_equal. apply list_fmap_ext.
  intros k s Hk%list_elem_of_lookup_2. rewrite bool_decide_true; [done|].
  apply elem_of_dom. by rewrite stakes_map_lookup.
Qed.

Lemma stakes_ok_of_list stakes :
  NoDup (stake_account_id <$> stakes) →
  Forall (λ s, 0 <= stake_this_epoch s ∧ 0 <= stake_next_epoch s) stakes →
  2 * sum_Z (stake_this_epoch <$> stakes) <= umax 128 → 2 * sum_Z (stake_next_epoch <$> stakes) <= umax 128 →
  stakes_ok (stakes_map stakes).
Proof.
  intros Hnd Hnn H1 H2.
  assert (Hlook : ∀ s, s ∈ stakes → stake_this (stakes_map stakes) (stake_account_id s) = stake_this_epoch s ∧
    stake_next (stakes_map stakes) (stake_account_id s) = stake_next_epoch s).
  { intros s Hs. unfold stake_this, stake_next. by rewrite stakes_map_lookup. }
  rewrite (total_stake stakes _ (stake_this (stakes_map stakes))) in H1 by (done || apply Hlook).
  rewrite (total_stake stakes _ (stake_next (stakes_map stakes))) in H2 by (done || apply Hlook).
  split; [|done]. intros a. destruct (decide (a ∈ dom (stakes_map stakes))) as [Ha|Ha].
  - rewrite stakes_map_dom, elem_of_list_to_set in Ha. apply list_elem_of_fmap in Ha as (s & -> & Hs).
    destruct (Hlook s Hs) as [-> ->]. by eapply Forall_forall in Hnn.
  - apply not_elem_of_dom in Ha. unfold stake_this, stake_next. by rewrite Ha.
Qed.

Section same_stakes.
Variables (stakes : list ApprovalStake) (mode : DoomslugThresholdMode).
Abbreviation m := (stakes_map stakes).
Hypothesis Hnodup : NoDup (stake_account_id <$> stakes).
Hypothesis Hstakes : stakes_ok (stakes_map stakes).

(** What an approval does to the record of last approvals. *)
Definition record_approval (last : gmap AccountId ApprovalInner) (ap : Approval) : gmap AccountId ApprovalInner :=
  if decide (account_id ap ∈ dom m) then <[account_id ap := inner ap]> last else last.

Lemma at_height_process_ok now utc at_h ap :
  at_height_ok (m, mode) at_h →
  ∃ at_h' r, at_height_process_approval now utc at_h ap stakes mode = Some (at_h', r) ∧
    at_height_ok (m, mode) at_h' ∧
    last_approval_per_account at_h' = record_approval (last_approval_per_account at_h) ap ∧
    (r ≠ NotReady → ∃ t, trackers at_h' !! inner ap = Some t ∧ has_quorum t = true).
Proof.
  intros Hat. destruct (withdraw_last_ok (m, mode) at_h (account_id ap) Hat) as (ts & Hrun & Hpart).
  unfold at_height_process_approval, record_approval. rewrite Hrun. cbn [mbind option_bind].
  rewrite bool_decide_true by (by apply stakes_map_size). simpl negb.
  destruct (decide (account_id ap ∈ dom m)) as [Hin|Hout].
  2: { rewrite bool_decide_false by (by rewrite <-elem_of_dom). simpl.
       assert (last_approval_per_account at_h !! account_id ap = None) as Hnone.
       { apply not_elem_of_dom. intros Ha. by apply Hout, (ath_accounts _ _ Hat). }
       eexists _, _. split; [done|]. split_and!; [|done|done]. rewrite delete_id in Hpart by done.
       constructor; [done|apply Hat]. }
  rewrite bool_decide_true by (by apply elem_of_dom). simpl negb. cbv iota.
  destruct Hpart as [Htr Hwit Hlast].
  assert (∃ t, (match ts !! inner ap with Some t => Some t | None => new_tracker m mode end) = Some t ∧
    tracker_ok t ∧ config t = (m, mode) ∧
    (∀ a, a ∈ dom (witness t) ↔ delete (account_id ap) (last_approval_per_account at_h) !! a = Some (inner ap)))
    as (t & Ht & Hok & Hm & Hwt).
  { destruct (ts !! inner ap) as [t|] eqn:Hi.
    - exists t. destruct (Htr _ _ Hi). split_and!; try done. intros a. by apply Hwit.
    - rewrite new_tracker_ok by done. eexists. split; [done|]. split_and!; [|done|].
      + by destruct Hstakes as (? & ? & ?).
      + intros a. simpl. rewrite dom_empty_L. split; [set_solver|]. intros Ha.
        destruct (Hlast _ _ Ha) as [? ?]. congruence. }
  rewrite Ht. cbn [mbind option_bind].
  destruct (tracker_process_ok now utc t ap Hok) as (t' & r & Hproc & Hok' & Hdom & Hm' & Hr).
  rewrite Hproc. cbn [mbind option_bind]. eexists _, _. split; [done|]. split_and!; simpl; [|done|].
  - constructor; [constructor|]; simpl.
    + intros i t0 [[<- <-]|[_ Hi]]%lookup_insert_Some; [split; [done|congruence]|by apply (Htr i)].
    + intros i t0 a [[<- <-]|[Hne Hi]]%lookup_insert_Some.
      * rewrite Hdom, elem_of_union, elem_of_singleton, Hwt, lookup_delete_Some, lookup_insert_Some.
        destruct (decide (a = account_id ap)); naive_solver.
      * rewrite (Hwit i t0 a Hi), lookup_delete_Some, lookup_insert_Some. naive_solver.
    + intros a i [[<- <-]|[Hne Hi]]%lookup_insert_Some; [rewrite lookup_insert_eq; eauto|].
      destruct (decide (inner ap = i)) as [->|?]; [rewrite lookup_insert_eq; eauto|].
      rewrite lookup_insert_ne by done. eapply (Hlast a). by rewrite lookup_delete_ne.
    + rewrite dom_insert_L. pose proof (ath_accounts _ _ Hat). set_solver.
  - intros Hnr. exists t'. rewrite lookup_insert_eq. split; [done|]. destruct (has_quorum t') eqn:E; [done|].
    exfalso. by apply Hnr, Hr.
Qed.

(** Approvals for one height, in the order they arrive; each comes with the clock readings. *)
Fixpoint process_approvals (aps : list (Z * Z * Approval)) (at_h : DoomslugApprovalsTrackersAtHeight)
    : option DoomslugApprovalsTrackersAtHeight :=
  match aps with
  | [] => Some at_h
  | (now, utc, ap) :: aps =>
      '(at_h, _) ← at_height_process_approval now utc at_h ap stakes mode;
      process_approvals aps at_h
  end.

Lemma process_approvals_ok aps : ∀ at_h,
  at_height_ok (m, mode) at_h →
  ∃ at_h', process_approvals aps at_h = Some at_h' ∧ at_height_ok (m, mode) at_h' ∧
    last_approval_per_account at_h' = foldl (λ l x, record_approval l x.2) (last_approval_per_account at_h) aps.
Proof.
  induction aps as [|[[now utc] ap] aps IH]; intros at_h Hat; [by exists at_h|].
  cbn [process_approvals]. destruct (at_height_process_ok now utc at_h ap Hat) as (at1 & r & Hrun & Hat1 & Hl1 & _).
  rewrite Hrun. cbn [mbind option_bind]. destruct (IH at1 Hat1) as (at2 & Hrun2 & Hat2 & Hl2).
  exists at2. split_and!; [done|done|]. simpl. by rewrite Hl2, Hl1.
Qed.

(** The accounts whose last accepted approval at the height is [i]. *)
Definition last_approvals (aps : list (Z * Z * Approval)) : gmap AccountId ApprovalInner :=
  foldl (λ l x, record_approval l x.2) ∅ aps.

Definition approvers (aps : list (Z * Z * Approval)) (i : ApprovalInner) : gset AccountId :=
  dom (filter (λ kv, kv.2 = i) (last_approvals aps)).

Lemma elem_of_approvers aps i a : a ∈ approvers aps i ↔ last_approvals aps !! a = Some i.
Proof.
  unfold approvers. rewrite elem_of_dom. unfold is_Some. setoid_rewrite map_lookup_filter_Some. naive_solver.
Qed.

Lemma approvers_disjoint aps i j : i ≠ j → approvers aps i ## approvers aps j.
Proof. intros Hne a Hi Hj. rewrite elem_of_approvers in Hi, Hj. congruence. Qed.

(** More than two thirds of the stake of both epochs, in exact arithmetic. *)
Definition quorum (X : gset AccountId) : bool :=
  (2 * sum_over (stake_this m) (dom m) <? 3 * sum_over (stake_this m) X) &&
  ((2 * sum_over (stake_next m) (dom m) <? 3 * sum_over (stake_next m) X)
   || (sum_over (stake_next m) (dom m) =? 0)).

Lemma process_approvals_trackers aps :
  ∃ at_h, process_approvals aps new_at_height = Some at_h ∧ at_height_ok (m, mode) at_h ∧
    ∀ i t, trackers at_h !! i = Some t → dom (witness t) = approvers aps i.
Proof.
  destruct (process_approvals_ok aps new_at_height (new_at_height_ok (m, mode))) as (at_h & Hrun & Hat & Hl).
  exists at_h. split_and!; [done|done|]. intros i t Hi. apply set_eq. intros a.
  rewrite (part_witness _ _ _ (ath_partition _ _ Hat) i t a Hi), elem_of_approvers. by rewrite Hl.
Qed.

Lemma tracker_quorum t X :
  tracker_ok t → account_id_to_stakes t = m → dom (witness t) = X → threshold_mode t = TwoThirds →
  threshold_reached t = Some (quorum X).
Proof.
  intros Hok Hm HX Hmode. rewrite threshold_reached_spec by done. unfold has_quorum, quorum.
  rewrite (tr_total_this _ Hok), (tr_total_next _ Hok), (tr_this _ Hok), (tr_next _ Hok), Hm, HX, Hmode.
  by rewrite orb_false_r.
Qed.

Lemma quorum_unique X Y : quorum X = true → X ## Y → quorum Y = false.
Proof.
  intros HX Hd. destruct Hstakes as (Hnn & _). unfold quorum in *.
  apply andb_true_iff in HX as [HX%Z.ltb_lt _].
  pose proof (proj1 (approved_le_total m (X ∪ Y) Hstakes)) as Hle. rewrite sum_over_union in Hle by done.
  pose proof (sum_over_nonneg (stake_this m) (dom m) (λ a, proj1 (Hnn a))).
  apply andb_false_iff. left. apply Z.ltb_ge. lia.
Qed.

Lemma collected_stake (w : gmap AccountId (Approval * Z)) (f : ApprovalStake → Z) (pr : Z * Z → Z)
    (g : AccountId → Z) :
  dom w ⊆ dom m →
  (∀ s, s ∈ stakes → g (stake_account_id s) = f s ∧ pr (stake_this_epoch s, stake_next_epoch s) = f s) →
  sum_Z ((λ p : option Signature * (Z * Z), if bool_decide (is_Some p.1) then pr p.2 else 0) <$>
    zip (collect_approvals w stakes) ((λ s, (stake_this_epoch s, stake_next_epoch s)) <$> stakes)) =
  sum_over g (dom w).
Proof.
  intros Hw Hf. rewrite collect_approvals_spec by done.
  rewrite <-(sum_over_approvers stakes g f) by (done || (intros s Hs; by apply Hf)).
  rewrite zip_with_fmap_l, zip_with_fmap_r, zip_with_diag, <-list_fmap_compose. f_equal.
  apply list_fmap_ext. intros k s Hk%list_elem_of_lookup_2. simpl. rewrite (proj2 (Hf s Hk)).
  rewrite (bool_decide_ext (is_Some _) (stake_account_id s ∈ dom w)); [done|].
  rewrite elem_of_dom. apply fmap_is_Some.
Qed.

(** The validation of a block's approvals is met whenever the stake of the collected ones is a quorum. *)
Lemma collected_quorum (w : gmap AccountId (Approval * Z)) :
  dom w ⊆ dom m → quorum (dom w) = true →
  can_approved_block_be_produced TwoThirds (collect_approvals w stakes)
    ((λ s, (stake_this_epoch s, stake_next_epoch s)) <$> stakes) = Some true.
Proof.
  intros Hw Hq. assert (Hst := Hstakes). destruct Hst as (Hnn & H1 & H2).
  assert (Hlook : ∀ s, s ∈ stakes → stake_this m (stake_account_id s) = stake_this_epoch s ∧
    stake_next m (stake_account_id s) = stake_next_epoch s).
  { intros s Hs. unfold stake_this, stake_next. by rewrite stakes_map_lookup. }
  destruct (approved_le_total m (dom w) Hstakes) as [L1 L2].
  pose proof (sum_over_nonneg (stake_this m) (dom w) (λ a, proj1 (Hnn a))).
  pose proof (sum_over_nonneg (stake_next m) (dom w) (λ a, proj2 (Hnn a))).
  assert (∀ s, s ∈ stakes → 0 <= stake_this_epoch s ∧ 0 <= stake_next_epoch s) as Hpos.
  { intros s Hs. destruct (Hlook s Hs) as [<- <-]. apply Hnn. }
  assert (Hin : ∀ p, p ∈ zip (collect_approvals w stakes) ((λ s, (stake_this_epoch s, stake_next_epoch s)) <$> stakes) →
    0 <= p.2.1 ∧ 0 <= p.2.2).
  { intros [x y] (s & -> & Hs)%elem_of_zip_r%list_elem_of_fmap. by apply Hpos. }
  set (st := (λ s, (stake_this_epoch s, stake_next_epoch s)) <$> stakes) in *.
  assert (sum_balance (fst <$> st) = Some (sum_over (stake_this m) (dom m))) as S1.
  { unfold st. rewrite <-list_fmap_compose. apply sum_balance_eq; [|by apply total_stake; [|apply Hlook]|lia].
    apply Forall_fmap, Forall_forall. intros s Hs. by apply Hpos. }
  assert (sum_balance (snd <$> st) = Some (sum_over (stake_next m) (dom m))) as S2.
  { unfold st. rewrite <-list_fmap_compose. apply sum_balance_eq; [|by apply total_stake; [|apply Hlook]|lia].
    apply Forall_fmap, Forall_forall. intros s Hs. by apply Hpos. }
  assert (sum_balance ((λ p, if bool_decide (is_Some p.1) then p.2.1 else 0) <$> zip (collect_approvals w stakes) st) =
    Some (sum_over (stake_this m) (dom w))) as S3.
  { apply sum_balance_eq; [|apply (collected_stake w stake_this_epoch fst); [done|]|lia].
    - apply Forall_fmap, Forall_forall. intros p Hp. simpl. case_bool_decide; [by apply Hin|done].
    - intros s Hs. by split; [apply Hlook|]. }
  assert (sum_balance ((λ p, if bool_decide (is_Some p.1) then p.2.2 else 0) <$> zip (collect_approvals w stakes) st) =
    Some (sum_over (stake_next m) (dom w))) as S4.
  { apply sum_balance_eq; [|apply (collected_stake w stake_next_epoch snd); [done|]|lia].
    - apply Forall_fmap, Forall_forall. intros p Hp. simpl. case_bool_decide; [by apply Hin|done].
    - intros s Hs. by split; [apply Hlook|]. }
  unfold can_approved_block_be_produced. rewrite bool_decide_false by done. rewrite S1, S2, S3, S4.
  unfold quorum in Hq. cbn [mbind option_bind]. rewrite !checked_mul_ok by lia. cbn [mbind option_bind].
  rewrite !(Z.mul_comm _ 2), !two_thirds by lia. apply andb_true_iff in Hq as [-> Hq2]. f_equal. simpl.
  apply orb_true_iff in Hq2 as [->|Hz%Z.eqb_eq]; [done|]. rewrite Hz. apply orb_true_r.
Qed.

(** C20: Approvals are counted exactly.  Whatever approvals arrive for a height, in whatever order
    and with whatever repetitions, changes of mind and unknown accounts, no operation panics,
    and the tracker of an approved parent reports the threshold as reached precisely when the
    stake of the accounts whose last approval is for that parent exceeds two thirds of the total
    stake of this epoch and of the next one (or no approvals are required). *)
Theorem approvals_counted aps :
  ∃ at_h, process_approvals aps new_at_height = Some at_h ∧
    ∀ i, match trackers at_h !! i with
         | Some t => threshold_reached t = Some (quorum (approvers aps i) || bool_decide (mode = NoApprovals))
         | None => approvers aps i = ∅
         end.
Proof.
  destruct (process_approvals_trackers aps) as (at_h & Hrun & Hat & Hw). exists at_h. split; [done|]. intros i.
  destruct Hat as [[Htr Hwit Hlast] _]. destruct (trackers at_h !! i) as [t|] eqn:Hi.
  - destruct (Htr i t Hi) as [Hok [= Hm Hmode]]. rewrite threshold_reached_spec by done. unfold has_quorum, quorum.
    by rewrite (tr_total_this _ Hok), (tr_total_next _ Hok), (tr_this _ Hok), (tr_next _ Hok), Hm, Hmode, (Hw i t Hi).
  - apply elem_of_equiv_empty_L. intros a Ha%elem_of_approvers.
    destruct (process_approvals_ok aps new_at_height (new_at_height_ok (m, mode))) as (at1 & Hrun1 & _ & Hl).
    assert (at1 = at_h) as -> by congruence. unfold last_approvals in Ha. simpl in Hl. rewrite <-Hl in Ha.
    destruct (Hlast a i Ha). congruence.
Qed.

(** C21: At most one parent of a block at a height can be approved.  When two thirds of the stake are
    required and the tracker of one parent has reached the threshold, the tracker of no other
    parent has, whatever approvals arrived. *)
Theorem one_quorum_per_height aps i j :
  mode = TwoThirds → i ≠ j →
  ∃ at_h, process_approvals aps new_at_height = Some at_h ∧
    ∀ ti tj, trackers at_h !! i = Some ti → trackers at_h !! j = Some tj →
      threshold_reached ti = Some true → threshold_reached tj = Some false.
Proof.
  intros Hmode Hne. destruct (process_approvals_trackers aps) as (at_h & Hrun & Hat & Hw). exists at_h.
  split; [done|]. intros ti tj Hi Hj Hti. destruct Hat as [[Htr _ _] _].
  destruct (Htr i ti Hi) as [Hoki [= Hmi Hmodei]], (Htr j tj Hj) as [Hokj [= Hmj Hmodej]].
  rewrite (tracker_quorum ti _ Hoki Hmi (Hw i ti Hi)) in Hti by congruence.
  rewrite (tracker_quorum tj _ Hokj Hmj (Hw j tj Hj)) by congruence.
  injection Hti as Hti. f_equal. eapply quorum_unique; [done|by apply approvers_disjoint].
Qed.
End same_stakes.

(** * Runs *)

(** The calls a client makes, with what each reads: the clocks, the signer, the new head, a
    message with the approvers that the client looked up for it, the height a block could be
    produced at.  The client takes the approvers of the parent the approval names, and for a skip of
    a block at the height of the parent, so they may differ between messages for one height. *)
Inductive Event : Type :=
  | Timer (now now_utc : Z) (signer : option ValidatorSigner)
  | SetTip (now : Z) (block_hash : CryptoHash) (height last_final_height : Z)
  | ApprovalMessage (now now_utc : Z) (approval : Approval) (stakes : list ApprovalStake)
  | ReadyToProduce (now target : Z) (chunks_readiness : ChunksReadiness).

(** A call and the approvals it sends out. *)
Definition step (d : Doomslug) (e : Event) : option (Doomslug * list Approval) :=
  match e with
  | Timer now now_utc signer => process_timer now now_utc signer d
  | SetTip now block_hash height last_final_height =>
      d ← set_tip now block_hash height last_final_height d; Some (d, [])
  | ApprovalMessage now now_utc approval stakes =>
      d ← on_approval_message now now_utc approval stakes d; Some (d, [])
  | ReadyToProduce now target chunks_readiness =>
      '(d, _) ← ready_to_produce_block now target chunks_readiness d; Some (d, [])
  end.

Fixpoint run (d : Doomslug) (evs : list Event) : option (Doomslug * list Approval) :=
  match evs with
  | [] => Some (d, [])
  | e :: evs =>
      '(d, sent) ← step d e;
      '(d, sent') ← run d evs;
      Some (d, sent ++ sent')
  end.

(** Heights of blocks are far from the end of [u64]; approvers are listed once, and twice their
    total stake fits [u128]. *)
Definition event_ok (e : Event) : Prop :=
  match e with
  | SetTip _ _ height _ => 0 <= height < 2 ^ 63
  | ApprovalMessage _ _ _ stakes => NoDup (stake_account_id <$> stakes) ∧ stakes_ok (stakes_map stakes)
  | _ => True
  end.

(** What was sent while [largest_target_height] went from [lo] to [hi]: an endorsement is
    always for a height above every height targeted before. *)
Inductive issued : Z → list Approval → Z → Prop :=
  | issued_done lo hi : lo <= hi → issued lo [] hi
  | issued_next lo ap mid l hi :
      lo <= mid → target_height ap <= mid →
      (∀ h, inner ap = Endorsement h → lo < target_height ap) →
      issued mid l hi → issued lo (ap :: l) hi.

Lemma issued_weaken lo lo' l hi : lo <= lo' → issued lo' l hi → issued lo l hi.
Proof.
  intros Hle Hi. destruct Hi as [lo' hi Hl|lo' ap mid l hi Hl Ht He Hi]; [constructor; lia|].
  apply (issued_next _ _ mid); [lia|done| |done]. intros h Hh. specialize (He h Hh). lia.
Qed.

Lemma issued_app lo l mid l' hi : issued lo l mid → issued mid l' hi → issued lo (l ++ l') hi.
Proof.
  induction 1 as [lo mid Hl|lo ap mid' l mid Hl Ht He Hi IH]; intros Hi'; simpl; [by eapply issued_weaken|].
  eapply issued_next; eauto.
Qed.

Lemma issued_le lo l hi : issued lo l hi → lo <= hi.
Proof. induction 1; lia. Qed.

Lemma issued_endorsement pre ap post h : ∀ lo hi,
  issued lo (pre ++ ap :: post) hi → inner ap = Endorsement h →
  lo < target_height ap ∧ Forall (λ b, target_height b < target_height ap) pre.
Proof.
  induction pre as [|b pre IH]; intros lo hi Hi Hap; simpl in Hi; inversion Hi as [|? ? mid ? ? Hl Ht He Hi']; subst.
  - split; [by eapply He|done].
  - destruct (IH _ _ Hi' Hap) as [Hlt HF]. split; [lia|]. constructor; [lia|done].
Qed.

Record heights_ok (n : Z) (d : Doomslug) : Prop := {
  ho_tip : 0 <= tip_height (tip d) < 2 ^ 63;
  ho_timer : tip_height (tip d) < timer_height (timer d) <= 2 ^ 63 + n;
  ho_wait : (chunk_wait_mult (timer d)).2 ≠ 0
}.

(** What one part of [process_timer] does: from [d], it sends [sent] and goes to [d']. *)
Record sends (n : Z) (d : Doomslug) (sent : list Approval) (d' : Doomslug) : Prop := {
  sends_heights : heights_ok n d';
  sends_issued : issued (largest_target_height d) sent (largest_target_height d');
  sends_trackers : approval_trackers d' = approval_trackers d;
  sends_mode : ds_threshold_mode d' = ds_threshold_mode d;
  sends_tip : tip d' = tip d
}.

Lemma sends_trans n n' d s1 d1 s2 d2 : sends n d s1 d1 → sends n' d1 s2 d2 → sends n' d (s1 ++ s2) d2.
Proof. intros [? ? ? ? ?] [? ? ? ? ?]. constructor; [done|by eapply issued_app|congruence..]. Qed.

Lemma sends_nothing n d : heights_ok n d → sends n d [] d.
Proof. intros Hh. constructor; try done. constructor. lia. Qed.

Lemma create_approval_ok n d target signer :
  heights_ok n d →
  ∃ a, create_approval d target signer = Some a ∧
    ∀ lo hi, lo <= hi → target <= hi → (target = tip_height (tip d) + 1 → lo < target) →
      issued lo (option_list a) hi.
Proof.
  intros [Htip _ _]. unfold create_approval, new_approval, new_inner. destruct signer as [sg|].
  2: { eexists. split; [done|]. intros. by constructor. }
  rewrite checked_add_ok by (unfold umax; lia). cbn [mbind option_bind]. eexists. split; [done|]. intros lo hi Hle Ht Hlt. simpl.
  apply (issued_next _ _ hi); simpl; [done|done| |constructor; lia].
  destruct (target =? tip_height (tip d) + 1) eqn:E; [intros ? _; lia|done].
Qed.

Lemma endorse_step_ok n now utc signer d ret :
  heights_ok n d →
  ∃ d' sent, endorse_step now utc signer d ret = Some (d', ret ++ sent) ∧ sends n d sent d' ∧
    timer_height (timer d') = timer_height (timer d).
Proof.
  intros Hh. assert (Hh' := Hh). destruct Hh' as [Htip Htim Hw]. unfold endorse_step.
  destruct (endorsement_pending d && _).
  2: { exists d, []. rewrite app_nil_r. split_and!; [done| |done]. by apply sends_nothing. }
  destruct (largest_target_height d <=? tip_height (tip d)) eqn:E.
  - rewrite checked_add_ok by (unfold umax; lia). cbn [mbind option_bind].
    destruct (create_approval_ok n (set_target d (tip_height (tip d) + 1)) (tip_height (tip d) + 1) signer)
      as (a & -> & Ha); [by constructor|]. cbn [mbind option_bind].
    eexists _, _. split; [done|]. split; [|done]. constructor; simpl; try done. apply Ha; lia.
  - cbn [mbind option_bind]. exists (set_timer d false (mkTimer (started (timer d)) now (timer_height (timer d))
      (endorsement_delay (timer d)) (min_delay (timer d)) (delay_step (timer d)) (max_delay (timer d))
      (chunk_wait_mult (timer d)))), []. rewrite app_nil_r. split_and!; [done| |done].
    constructor; simpl; try done. constructor. lia.
Qed.

Lemma skip_step_ok n now utc signer skip_delay d ret :
  heights_ok n d → 0 <= n < 2 ^ 62 →
  ∃ continue_ d' sent, skip_step now utc signer skip_delay d ret = Some (continue_, d', ret ++ sent) ∧
    sends (n + 1) d sent d'.
Proof.
  intros Hh Hn. assert (Hh' := Hh). destruct Hh' as [Htip Htim Hw]. unfold skip_step.
  destruct (started (timer d) + skip_delay <=? now).
  2: { exists false, d, []. rewrite app_nil_r. split; [done|]. apply sends_nothing. constructor; [done|lia|done]. }
  rewrite checked_add_ok by (unfold umax; lia). cbn [mbind option_bind].
  destruct (create_approval_ok n (set_target d (Z.max (timer_height (timer d) + 1) (largest_target_height d)))
    (timer_height (timer d) + 1) signer) as (a & -> & Ha); [by constructor|]. cbn [mbind option_bind].
  eexists _, _, _. split; [done|]. simpl in Ha. constructor; simpl; try done; [constructor; simpl; [done|lia|done]|].
  apply Ha; lia.
Qed.

Lemma timer_loop_ok now utc signer iters : ∀ n d ret,
  heights_ok n d → 0 <= n → n + Z.of_nat iters < 2 ^ 62 →
  ∃ d' sent, timer_loop iters now utc signer d ret = Some (d', ret ++ sent) ∧ sends (n + Z.of_nat iters) d sent d'.
Proof.
  induction iters as [|iters IH]; intros n d ret Hh Hn Hb.
  { exists d, []. rewrite app_nil_r. split; [done|]. rewrite Z.add_0_r. by apply sends_nothing. }
  cbn [timer_loop]. set (sd := get_delay _ _).
  destruct (endorse_step_ok n now utc signer d ret Hh) as (d1 & s1 & -> & Hs1 & _). cbn [mbind option_bind].
  destruct (skip_step_ok n now utc signer sd d1 (ret ++ s1) (sends_heights _ _ _ _ Hs1)) as (c & d2 & s2 & -> & Hs2); [lia|].
  cbn [mbind option_bind]. pose proof (sends_trans _ _ _ _ _ _ _ Hs1 Hs2) as Hs. destruct c.
  - destruct (IH (n + 1) d2 ((ret ++ s1) ++ s2) (sends_heights _ _ _ _ Hs2)) as (d3 & s3 & -> & Hs3); [lia|lia|].
    exists d3, ((s1 ++ s2) ++ s3). rewrite !(assoc_L (++)). split; [done|].
    replace (n + Z.of_nat (S iters)) with (n + 1 + Z.of_nat iters) by lia. rewrite <-!(assoc_L (++)).
    rewrite (assoc_L (++)). by eapply sends_trans.
  - exists d2, (s1 ++ s2). rewrite (assoc_L (++)). split; [done|]. destruct Hs as [[] ? ? ? ?].
    constructor; [|done..]. constructor; [done|lia|done].
Qed.

(** ** Trackers and the approvers they were created with *)

Section runs.
(** [given h i stakes]: an approval of [i] for the height [h] came with the approvers [stakes]. *)
Variable given : Z → ApprovalInner → list ApprovalStake → Prop.

Definition admitted (e : Event) : Prop :=
  match e with ApprovalMessage _ _ ap stakes => given (target_height ap) (inner ap) stakes | _ => True end.

(** Trackers count correctly, each with the approvers of one of its approvals. *)
Record counting (h : Z) (mode : DoomslugThresholdMode) (ts : gmap ApprovalInner DoomslugApprovalsTracker) : Prop := {
  cn_tracker : ∀ i t, ts !! i = Some t → tracker_ok t ∧ threshold_mode t = mode ∧
    ∃ stakes, given h i stakes ∧ account_id_to_stakes t = stakes_map stakes;
  cn_witness : ∀ i t a, ts !! i = Some t → a ∈ dom (witness t) →
    ∃ stakes, given h i stakes ∧ a ∈ dom (stakes_map stakes)
}.

Lemma counting_insert h mode ts i t :
  counting h mode ts → tracker_ok t → threshold_mode t = mode →
  (∃ stakes, given h i stakes ∧ account_id_to_stakes t = stakes_map stakes) →
  (∀ a, a ∈ dom (witness t) → ∃ stakes, given h i stakes ∧ a ∈ dom (stakes_map stakes)) →
  counting h mode (<[i := t]> ts).
Proof.
  intros [Ht Hw] Hok Hm Hst Hwit. constructor.
  - intros j x [[<- <-]|[_ Hj]]%lookup_insert_Some; [done|by apply Ht].
  - intros j x a [[<- <-]|[_ Hj]]%lookup_insert_Some; [apply Hwit|by eapply Hw].
Qed.

Lemma withdraw_counting h mode at_h a :
  counting h mode (trackers at_h) → ∃ ts, withdraw_last at_h a = Some ts ∧ counting h mode ts.
Proof.
  intros Hc. unfold withdraw_last. destruct (last_approval_per_account at_h !! a) as [p|]; [|by eexists].
  destruct (trackers at_h !! p) as [x|] eqn:Hx; [|by eexists]. destruct (cn_tracker _ _ _ Hc p x Hx) as (Hok & Hm & Hst).
  destruct (withdraw_ok x a Hok) as (x' & -> & Hok' & Hdom & [= Hs' Hm']). cbn [mbind option_bind]. eexists. split; [done|]. case_decide.
  - constructor; intros i t; [intros [_ Hi]%lookup_delete_Some; by apply (cn_tracker _ _ _ Hc)|].
    intros b [_ Hi]%lookup_delete_Some. by apply (cn_witness _ _ _ Hc _ t).
  - apply counting_insert; [done|done|congruence|by rewrite Hs'|]. intros b Hb. apply (cn_witness _ _ _ Hc p x); [done|set_solver].
Qed.

(** An approval is counted whatever approvers the earlier ones for the height came with. *)
Lemma process_counting h mode now utc at_h ap stakes :
  NoDup (stake_account_id <$> stakes) → stakes_ok (stakes_map stakes) → given h (inner ap) stakes → counting h mode (trackers at_h) →
  ∃ at_h' r, at_height_process_approval now utc at_h ap stakes mode = Some (at_h', r) ∧ counting h mode (trackers at_h').
Proof.
  intros Hnd Hst Hg Hc. destruct (withdraw_counting h mode at_h (account_id ap) Hc) as (ts & Hrun & Hts).
  unfold at_height_process_approval. rewrite Hrun. cbn [mbind option_bind]. rewrite bool_decide_true by (by apply stakes_map_size). simpl negb. cbv iota.
  case_bool_decide as Hin; simpl negb; cbv iota; [|by eexists _, _].
  assert (∃ t, (match ts !! inner ap with Some t => Some t | None => new_tracker (stakes_map stakes) mode end) = Some t ∧ tracker_ok t ∧ threshold_mode t = mode ∧
    (∃ stakes, given h (inner ap) stakes ∧ account_id_to_stakes t = stakes_map stakes) ∧
    (∀ a, a ∈ dom (witness t) → ∃ stakes, given h (inner ap) stakes ∧ a ∈ dom (stakes_map stakes))) as (t & Ht & Hok & Hm & Hs & Hw).
  { destruct (ts !! inner ap) as [t|] eqn:Hi.
    - exists t. destruct (cn_tracker _ _ _ Hts _ _ Hi) as (? & ? & ?). split_and!; try done. intros a. by apply (cn_witness _ _ _ Hts _ t).
    - rewrite new_tracker_ok by done. eexists. split; [done|]. split_and!; [by destruct Hst as (? & ? & ?)|done|by exists stakes|].
      intros a. simpl. rewrite dom_empty_L. set_solver. }
  rewrite Ht. cbn [mbind option_bind]. destruct (tracker_process_ok now utc t ap Hok) as (t' & r & -> & Hok' & Hdom & [= Hs' Hm'] & _).
  cbn [mbind option_bind]. eexists _, _. split; [done|]. simpl. apply counting_insert; [done|done|congruence|by rewrite Hs'|].
  intros a. rewrite Hdom, elem_of_union, elem_of_singleton. intros [->|Ha]; [|by apply Hw]. exists stakes. split; [done|]. by apply elem_of_dom.
Qed.

Definition trackers_ok (d : Doomslug) : Prop :=
  ∀ h at_h, approval_trackers d !! h = Some at_h → counting h (ds_threshold_mode d) (trackers at_h).

(** Approvals are kept for a window of heights around the tip only. *)
Definition window (d : Doomslug) : Prop :=
  ∀ h at_h, approval_trackers d !! h = Some at_h →
    tip_height (tip d) - MAX_HEIGHTS_BEFORE_TO_STORE_APPROVALS <= h <=
    tip_height (tip d) + MAX_HEIGHTS_AHEAD_TO_STORE_APPROVALS.

Record inv (n : Z) (d : Doomslug) : Prop := {
  inv_heights : heights_ok n d;
  inv_trackers : trackers_ok d;
  inv_window : window d
}.

Lemma heights_mono n n' d : n <= n' → heights_ok n d → heights_ok n' d.
Proof. intros Hle [? ? ?]. constructor; [done|lia|done]. Qed.

Lemma retain_heights_ok head ts :
  0 <= head < 2 ^ 63 →
  ∃ ts', retain_heights head ts = Some ts' ∧
    ∀ h at_h, ts' !! h = Some at_h → ts !! h = Some at_h ∧
      head - MAX_HEIGHTS_BEFORE_TO_STORE_APPROVALS <= h <= head + MAX_HEIGHTS_AHEAD_TO_STORE_APPROVALS.
Proof.
  intros Hh. unfold retain_heights.
  assert (∃ ts', foldr (retain_step head) (Some ∅) (map_to_list ts) = Some ts' ∧
    ∀ h at_h, ts' !! h = Some at_h → (h, at_h) ∈ map_to_list ts ∧
      head - MAX_HEIGHTS_BEFORE_TO_STORE_APPROVALS <= h <= head + MAX_HEIGHTS_AHEAD_TO_STORE_APPROVALS) as (ts' & Hr & Hts).
  { induction (map_to_list ts) as [|[k v] l IH]; [by exists ∅|]. destruct IH as (ts' & Hr & Hts).
    cbn [foldr]. rewrite Hr. unfold retain_step. cbn [mbind option_bind fst snd]. unfold should_retain_height.
    unfold MAX_HEIGHTS_BEFORE_TO_STORE_APPROVALS, MAX_HEIGHTS_AHEAD_TO_STORE_APPROVALS in *.
    assert (∀ h at_h, ts' !! h = Some at_h → (h, at_h) ∈ (k, v) :: l ∧ head - 20 <= h <= head + 10000) as Hts'.
    { intros h at_h Hl. destruct (Hts h at_h Hl). split; [by constructor|done]. }
    destruct (saturating_sub head 20 <? k) eqn:E1; [|by exists ts'].
    rewrite checked_add_ok by (unfold umax; lia). cbn [mbind option_bind].
    destruct (k <=? head + 10000) eqn:E2; [|by exists ts'].
    eexists. split; [done|]. intros h at_h [[<- <-]|[_ Hl]]%lookup_insert_Some; [|by apply Hts'].
    split; [by constructor|]. unfold saturating_sub in E1. lia. }
  exists ts'. split; [done|]. intros h at_h Hl. destruct (Hts h at_h Hl) as [Hin%elem_of_map_to_list Hw]. done.
Qed.

Lemma set_tip_ok n now hash height final d :
  inv n d → 0 <= n → 0 <= height < 2 ^ 63 →
  ∃ d', set_tip now hash height final d = Some d' ∧ inv (n + 20) d' ∧
    largest_target_height d' = largest_target_height d ∧ ds_threshold_mode d' = ds_threshold_mode d.
Proof.
  intros [Hh Ht Hw] Hn Hheight. unfold set_tip. rewrite checked_add_ok by (unfold umax; lia). cbn [mbind option_bind].
  destruct (retain_heights_ok height (approval_trackers d) Hheight) as (ts & -> & Hts). cbn [mbind option_bind].
  eexists. split; [done|]. split_and!; [|done|done]. constructor.
  - destruct Hh. constructor; simpl; [done|lia|done].
  - intros h at_h Hl. simpl. apply Ht. by apply Hts.
  - intros h at_h Hl. by apply (Hts h at_h).
Qed.

Lemma on_approval_ok n now utc ap stakes d :
  inv n d → event_ok (ApprovalMessage now utc ap stakes) → given (target_height ap) (inner ap) stakes →
  ∃ d', on_approval_message now utc ap stakes d = Some d' ∧ inv n d' ∧
    largest_target_height d' = largest_target_height d ∧ ds_threshold_mode d' = ds_threshold_mode d.
Proof.
  intros Hinv [Hnd Hst] Hg. assert (Hinv' := Hinv). destruct Hinv' as [Hh Ht Hw]. unfold on_approval_message.
  destruct (target_height ap <? tip_height (tip d)) eqn:E1; [by exists d|].
  destruct Hh as [Htip Htim Hm].
  rewrite checked_add_ok by (unfold umax, MAX_HEIGHTS_AHEAD_TO_STORE_APPROVALS; lia). cbn [mbind option_bind].
  destruct (_ <? target_height ap) eqn:E2; [by exists d|]. unfold on_approval_message_internal.
  set (at_h := default new_at_height (approval_trackers d !! target_height ap)).
  assert (counting (target_height ap) (ds_threshold_mode d) (trackers at_h)) as Hat.
  { unfold at_h. destruct (approval_trackers d !! target_height ap) as [x|] eqn:Hl; simpl; [by apply Ht|].
    constructor; simpl; set_solver. }
  destruct (process_counting _ _ now utc at_h ap stakes Hnd Hst Hg Hat) as (at1 & r & -> & Hat1).
  cbn [mbind option_bind]. eexists. split; [done|]. split_and!; [|done|done]. constructor; [by constructor|..].
  - intros h x. simpl. intros [[<- <-]|[_ Hl]]%lookup_insert_Some; [done|by apply Ht].
  - intros h x. simpl. intros [[<- <-]|[_ Hl]]%lookup_insert_Some; [|by apply (Hw h x)].
    unfold MAX_HEIGHTS_BEFORE_TO_STORE_APPROVALS. lia.
Qed.

(** A tracker that has reached the threshold, with where its approvers come from. *)
Record reports (h : Z) (i : ApprovalInner) (mode : DoomslugThresholdMode) (t : DoomslugApprovalsTracker) : Prop := {
  rp_ok : tracker_ok t;
  rp_mode : threshold_mode t = mode;
  rp_stakes : ∃ stakes, given h i stakes ∧ account_id_to_stakes t = stakes_map stakes;
  rp_witness : ∀ a, a ∈ dom (witness t) → ∃ stakes, given h i stakes ∧ a ∈ dom (stakes_map stakes);
  rp_quorum : has_quorum t = true
}.

Lemma ready_to_produce_ok n now target chunks d :
  inv n d →
  ∃ d' ready, ready_to_produce_block now target chunks d = Some (d', ready) ∧ inv n d' ∧
    largest_target_height d' = largest_target_height d ∧ ds_threshold_mode d' = ds_threshold_mode d ∧
    (ready = true → ∃ i t, new_inner (tip_block_hash (tip d)) (tip_height (tip d)) target = Some i ∧
      get_witness d' (tip_block_hash (tip d)) (tip_height (tip d)) target = Some (witness t) ∧ reports target i (ds_threshold_mode d) t).
Proof.
  intros Hinv. assert (Hinv' := Hinv). destruct Hinv' as [Hh Ht Hw].
  unfold ready_to_produce_block, get_witness, new_inner. destruct Hh as [Htip Htim Hm].
  rewrite checked_add_ok by (unfold umax; lia). cbn [mbind option_bind].
  set (i := if target =? tip_height (tip d) + 1 then _ else _).
  destruct (approval_trackers d !! target) as [at_h|] eqn:Hl; [|by exists d, false].
  destruct (trackers at_h !! i) as [t|] eqn:Hi; [|by exists d, false].
  pose proof (Ht _ _ Hl) as Hat. destruct (cn_tracker _ _ _ Hat i t Hi) as (Hok & Hmode & Hst). pose proof (λ a, cn_witness _ _ _ Hat i t a Hi) as Hwit.
  destruct (readiness_ok now t Hok) as (t' & r & -> & Hok' & Hw' & [= Hs' Hm'] & Hq & Hr). cbn [mbind option_bind].
  rewrite <-Hs' in Hst. rewrite <-Hw' in Hwit. rewrite <-Hm' in Hmode.
  set (at' := mkAtHeight (<[i := t']> (trackers at_h)) (last_approval_per_account at_h)).
  set (d' := set_trackers d (<[target := at']> (approval_trackers d)) _ _).
  assert (inv n d') as Hinv'.
  { constructor; [by constructor|..].
    - intros h x. simpl. intros [[<- <-]|[_ Hx]]%lookup_insert_Some; [|by apply Ht].
      by apply counting_insert.
    - intros h x. simpl. intros [[<- <-]|[_ Hx]]%lookup_insert_Some; [by apply (Hw _ at_h)|by apply (Hw h x)]. }
  assert (has_quorum t = true → ∃ i0 t0, Some i = Some i0 ∧
    Some match approval_trackers d' !! target with
         | Some at_h => match trackers at_h !! i with None => ∅ | Some t => witness t end
         | None => ∅ end = Some (witness t0) ∧ reports target i0 (ds_threshold_mode d) t0) as Hend.
  { intros Hquo. exists i, t'. simpl. rewrite lookup_insert_eq. simpl. rewrite lookup_insert_eq. split_and!; [done..|]. constructor; [done..|congruence]. }
  destruct r as [|since].
  { exists d', false. by split_and!. }
  assert (has_quorum t = true) as Hquo.
  { destruct (has_quorum t) eqn:E; [done|]. by destruct Hr as [_ Hr]; specialize (Hr eq_refl). }
  specialize (Hend Hquo). destruct chunks as [since'|]; [by exists d', true|].
  change (chunk_wait_mult (timer d')) with (chunk_wait_mult (timer d)).
  destruct (chunk_wait_mult (timer d)) as [num den]. simpl in Hm.
  destruct (Z.eqb_spec den 0) as [?|_]; [done|]. by eexists d', _.
Qed.

Lemma step_ok n d e :
  inv n d → 0 <= n → n + 20 < 2 ^ 62 → event_ok e → admitted e →
  ∃ d' sent, step d e = Some (d', sent) ∧ inv (n + 20) d' ∧
    issued (largest_target_height d) sent (largest_target_height d') ∧ ds_threshold_mode d' = ds_threshold_mode d.
Proof.
  intros Hinv Hn Hb He Ha.
  assert (∀ d', inv n d' → inv (n + 20) d') as Hmono.
  { intros d' []. constructor; [eapply heights_mono; [|done]; lia|done..]. }
  destruct e as [now utc signer|now hash height final|now utc ap stakes|now target chunks]; simpl.
  - destruct Hinv as [Hh Ht Hw].
    destruct (timer_loop_ok now utc signer MAX_TIMER_ITERS n d [] Hh) as (d' & sent & Hrun & Hs);
      [done|unfold MAX_TIMER_ITERS; lia|].
    exists d', sent. split; [done|]. destruct Hs as [Hh' Hi Htr Hm Htip]. split_and!; [|done|done].
    constructor; [done| |].
    + intros h x. rewrite Htr, Hm. apply Ht.
    + unfold window. rewrite Htr, Htip. exact Hw.
  - destruct (set_tip_ok n now hash height final d Hinv Hn He) as (d' & -> & Hinv' & Hl & Hm).
    exists d', []. split_and!; try done. constructor. lia.
  - destruct (on_approval_ok n now utc ap stakes d Hinv He Ha) as (d' & -> & Hinv' & Hl & Hm).
    exists d', []. split_and!; try done; [by apply Hmono|constructor; lia].
  - destruct (ready_to_produce_ok n now target chunks d Hinv) as (d' & r & -> & Hinv' & Hl & Hm & _).
    exists d', []. split_and!; try done; [by apply Hmono|constructor; lia].
Qed.

Lemma run_ok evs : ∀ n d,
  inv n d → 0 <= n → n + 20 * Z.of_nat (length evs) < 2 ^ 62 → Forall event_ok evs → Forall admitted evs →
  ∃ d' sent, run d evs = Some (d', sent) ∧ inv (n + 20 * Z.of_nat (length evs)) d' ∧
    issued (largest_target_height d) sent (largest_target_height d') ∧ ds_threshold_mode d' = ds_threshold_mode d.
Proof.
  induction evs as [|e evs IH]; intros n d Hinv Hn Hb Hev Had.
  { exists d, []. rewrite Z.add_0_r. split_and!; try done. constructor. lia. }
  apply Forall_cons in Hev as [He Hev]. apply Forall_cons in Had as [Ha Had]. cbn [run length] in *.
  destruct (step_ok n d e Hinv Hn) as (d1 & s1 & -> & Hinv1 & Hi1 & Hm1); [lia|done|done|]. cbn [mbind option_bind].
  destruct (IH (n + 20) d1 Hinv1) as (d2 & s2 & -> & Hinv2 & Hi2 & Hm2); [lia|lia|done|done|]. cbn [mbind option_bind].
  exists d2, (s1 ++ s2). split_and!; [done| |by eapply issued_app|congruence].
  by replace (n + 20 * Z.of_nat (S (length evs))) with (n + 20 + 20 * Z.of_nat (length evs)) by lia.
Qed.

(** A client starts from a fresh state and first sets the tip to the head of its chain. *)
Lemma first_tip_ok now hash0 target delays wait mode e :
  wait.2 ≠ 0 → event_ok e → (∃ t h ht f, e = SetTip t h ht f) →
  ∃ d, step (new_doomslug now hash0 target delays.1.1.1 delays.1.1.2 delays.1.2 delays.2 wait mode) e = Some (d, []) ∧
    inv 1 d ∧ largest_target_height d = target ∧ ds_threshold_mode d = mode.
Proof.
  intros Hwait He (t & h & ht & f & ->). simpl in He. unfold step, set_tip.
  rewrite checked_add_ok by (unfold umax; lia). cbn [mbind option_bind].
  assert (retain_heights ht (approval_trackers (new_doomslug now hash0 target delays.1.1.1 delays.1.1.2 delays.1.2
    delays.2 wait mode)) = Some ∅) as ->.
  { unfold retain_heights. simpl. by rewrite map_to_list_empty. }
  cbn [mbind option_bind]. eexists. split; [done|]. split_and!; [|done|done].
  constructor; [constructor; simpl; [lia|lia|done]|intros h' x Hx; simpl in Hx; by rewrite lookup_empty in Hx..].
Qed.
End runs.

(** The approvers that came with the approvals of a run. *)
Definition given_in (evs : list Event) (h : Z) (i : ApprovalInner) (stakes : list ApprovalStake) : Prop :=
  ∃ now utc ap, ApprovalMessage now utc ap stakes ∈ evs ∧ target_height ap = h ∧ inner ap = i.

Lemma given_admitted evs : Forall (admitted (given_in evs)) evs.
Proof. apply Forall_forall. intros [] He; try done. by eexists _, _, _. Qed.

(** C18: A validator never equivocates.  Over any sequence of calls a client makes after setting
    its first tip (timer ticks, new tips, approval messages, production queries) no call panics,
    and every endorsement sent is for a height strictly above the largest target height the
    node was started with and above the target of every approval sent before it; so no height
    is endorsed twice, even across forks and restarts. *)
Theorem endorsements_never_conflict now hash0 target delays wait mode t h ht f evs :
  wait.2 ≠ 0 → Forall event_ok (SetTip t h ht f :: evs) → Z.of_nat (length evs) < 2 ^ 50 →
  ∃ d sent,
    run (new_doomslug now hash0 target delays.1.1.1 delays.1.1.2 delays.1.2 delays.2 wait mode)
      (SetTip t h ht f :: evs) = Some (d, sent) ∧
    ∀ pre ap post hash, sent = pre ++ ap :: post → inner ap = Endorsement hash →
      target < target_height ap ∧ Forall (λ b, target_height b < target_height ap) pre.
Proof.
  intros Hwait [He Hev]%Forall_cons Hlen. cbn [run].
  destruct (first_tip_ok (given_in evs) now hash0 target delays wait mode (SetTip t h ht f)) as (d0 & -> & Hinv & Hl & _); [done|done|eauto|].
  cbn [mbind option_bind]. destruct (run_ok (given_in evs) evs 1 d0 Hinv) as (d & sent & -> & _ & Hi & _); [lia|lia|done|apply given_admitted|].
  cbn [mbind option_bind app]. exists d, sent. split; [done|]. intros pre ap post hash -> Hap. rewrite Hl in Hi.
  by eapply issued_endorsement.
Qed.

(** C19: A block produced when Doomslug says so is accepted.  After any run in the two-thirds mode,
    if [ready_to_produce_block] answers true for a target height then the approvals that
    [get_witness] returns, listed in the order of the approvers of the parent as the producer lists
    them, pass the check [can_approved_block_be_produced] every validator makes of the block,
    provided that the approvals of this parent for this height came with these approvers.  Other
    messages, also for the same height, may have come with any approvers. *)
Theorem ready_block_is_accepted now hash0 largest delays wait t h ht f evs :
  wait.2 ≠ 0 → Forall event_ok (SetTip t h ht f :: evs) → Z.of_nat (length evs) < 2 ^ 50 →
  ∃ d sent,
    run (new_doomslug now hash0 largest delays.1.1.1 delays.1.1.2 delays.1.2 delays.2 wait TwoThirds)
      (SetTip t h ht f :: evs) = Some (d, sent) ∧
    ∀ now' target chunks d' i approvers, ready_to_produce_block now' target chunks d = Some (d', true) →
      new_inner (tip_block_hash (tip d)) (tip_height (tip d)) target = Some i →
      (∀ stakes, given_in evs target i stakes → stakes = approvers) →
      ∃ w, get_witness d' (tip_block_hash (tip d)) (tip_height (tip d)) target = Some w ∧
        can_approved_block_be_produced TwoThirds (collect_approvals w approvers)
          ((λ s, (stake_this_epoch s, stake_next_epoch s)) <$> approvers) = Some true.
Proof.
  intros Hwait [He Hev]%Forall_cons Hlen. cbn [run].
  destruct (first_tip_ok (given_in evs) now hash0 largest delays wait TwoThirds (SetTip t h ht f)) as (d0 & -> & Hinv & Hl & Hm); [done|done|eauto|].
  cbn [mbind option_bind]. destruct (run_ok (given_in evs) evs 1 d0 Hinv) as (d & sent & -> & Hinv' & _ & Hm'); [lia|lia|done|apply given_admitted|].
  cbn [mbind option_bind app]. exists d, sent. split; [done|]. intros now' tgt chunks d' i approvers Hready Hi Hsame.
  destruct (ready_to_produce_ok _ _ now' tgt chunks d Hinv') as (d1 & r & Hrun & _ & _ & _ & Hr).
  rewrite Hready in Hrun. injection Hrun as <- <-. destruct (Hr eq_refl) as (i' & x & Hi' & Hw & [Hok Hmode (st & Hst & Hx) Hwit Hq]).
  rewrite Hi in Hi'. injection Hi' as <-. exists (witness x). split; [done|]. pose proof (Hsame st Hst) as ->.
  destruct Hst as (n1 & n2 & ap & Hin & _). rewrite Forall_forall in Hev. destruct (Hev _ Hin) as [Hnd Hsok].
  apply collected_quorum; [done|done| |].
  - intros a Ha. destruct (Hwit a Ha) as (st' & Hst' & Ha'). by rewrite <-(Hsame st' Hst').
  - rewrite Hm', Hm in Hmode. pose proof (tracker_quorum approvers x (dom (witness x)) Hok Hx eq_refl Hmode) as Hqu.
    rewrite threshold_reached_spec in Hqu by done. congruence.
Qed.
End doomslug.

(** * Concrete runs *)

Module Example.
Definition stakes : list (ApprovalStake (AccountId := Z)) :=
  [mkApprovalStake 1 100 0; mkApprovalStake 2 100 50; mkApprovalStake 3 90 50].

Lemma stakes_nodup : NoDup (stake_account_id <$> stakes).
Proof. apply (bool_decide_unpack _). by vm_compute. Qed.

Lemma stakes_valid : stakes_ok (stakes_map stakes).
Proof.
  apply stakes_ok_of_list; [apply stakes_nodup| |by vm_compute|by vm_compute].
  repeat constructor; by vm_compute.
Qed.

Definition approve (a : Z) (i : ApprovalInner (CryptoHash := Z)) : Z * Z * Approval (Signature := Z) :=
  (0, 0, mkApproval i 8 0 a).

(** Account 1 first skips, then endorses; account 9 is not an approver. *)
Definition aps := [approve 1 (Skip 5); approve 2 (Endorsement 77); approve 9 (Endorsement 77);
  approve 1 (Endorsement 77); approve 3 (Endorsement 77)].

Definition signer : ValidatorSigner (AccountId := Z) (CryptoHash := Z) (Signature := Z) := mkSigner 1 (λ _ h, h).

(** The approvers of another parent; account 1 is not one of them. *)
Definition other_stakes : list (ApprovalStake (AccountId := Z)) := [mkApprovalStake 2 40 0; mkApprovalStake 4 70 0].

Lemma other_nodup : NoDup (stake_account_id <$> other_stakes).
Proof. apply (bool_decide_unpack _). by vm_compute. Qed.

Lemma other_valid : stakes_ok (stakes_map other_stakes).
Proof.
  apply stakes_ok_of_list; [apply other_nodup| |by vm_compute|by vm_compute].
  repeat constructor; by vm_compute.
Qed.

Definition evs : list Event :=
  [Timer 2500 2500 (Some signer); ApprovalMessage 10000000 0 (mkApproval (Endorsement 66) 8 0 2) other_stakes; ApprovalMessage 10000001 0 (mkApproval (Endorsement 77) 8 0 1) stakes;
   ApprovalMessage 10000002 0 (mkApproval (Endorsement 77) 8 0 2) stakes;
   ApprovalMessage 10000003 0 (mkApproval (Endorsement 77) 8 0 3) stakes;
   ReadyToProduce 10000004 8 (ChunksReady 0); Timer 50000000000 50000000000 (Some signer);
   SetTip 60000000000 55 6 4; Timer 70000000000 70000000000 (Some signer)].
End Example.

Lemma approvals_counted_witness :
  ∃ at_h, process_approvals Example.stakes TwoThirds Example.aps new_at_height = Some at_h ∧
    ∀ i, match trackers at_h !! i with
         | Some t => threshold_reached t = Some (quorum Example.stakes (approvers Example.stakes Example.aps i)
                       || bool_decide (TwoThirds = NoApprovals))
         | None => approvers Example.stakes Example.aps i = ∅
         end.
Proof.
  exact (approvals_counted Example.stakes TwoThirds Example.stakes_nodup Example.stakes_valid Example.aps).
Defined.

Lemma one_quorum_per_height_witness :
  ∃ at_h, process_approvals Example.stakes TwoThirds Example.aps new_at_height = Some at_h ∧
    ∀ ti tj, trackers at_h !! Endorsement 77 = Some ti → trackers at_h !! Skip 5 = Some tj →
      threshold_reached ti = Some true → threshold_reached tj = Some false.
Proof.
  apply (one_quorum_per_height Example.stakes TwoThirds Example.stakes_nodup Example.stakes_valid); done.
Defined.

Lemma evs_ok : Forall event_ok (SetTip 0 77 7 5 :: Example.evs).
Proof.
  assert (∀ t u (ap : Approval (CryptoHash := Z) (Signature := Z)), event_ok (ApprovalMessage t u ap Example.stakes)) as H1 by (intros; exact (conj Example.stakes_nodup Example.stakes_valid)).
  assert (∀ t u (ap : Approval (CryptoHash := Z) (Signature := Z)), event_ok (ApprovalMessage t u ap Example.other_stakes)) as H2 by (intros; exact (conj Example.other_nodup Example.other_valid)).
  unfold Example.evs. repeat (apply Forall_cons_2; [first [apply H1|apply H2|exact I|by vm_compute]|]). constructor.
Qed.

Lemma endorsements_never_conflict_witness :
  ∃ d sent,
    run (new_doomslug 0 0 3 1000 2000 100 9000 (1, 3) TwoThirds)
      (SetTip 0 77 7 5 :: Example.evs) = Some (d, sent) ∧
    ∀ pre ap post hash, sent = pre ++ ap :: post → inner ap = Endorsement hash →
      3 < target_height ap ∧ Forall (λ b, target_height b < target_height ap) pre.
Proof.
  apply (endorsements_never_conflict 0 0 3 (1000, 2000, 100, 9000) (1, 3) TwoThirds); [done|apply evs_ok|by vm_compute].
Defined.

Lemma example_ready :
  match run (new_doomslug 0 0 3 1000 2000 100 9000 (1, 3) TwoThirds) (SetTip 0 77 7 5 :: take 5 Example.evs) with
  | Some (d, _) => tip d = mkTip 77 7 ∧ match ready_to_produce_block 1 8 (ChunksReady 0) d with Some (_, b) => b = true | None => False end
  | None => False
  end.
Proof. by vm_compute. Qed.

Lemma example_given st : given_in (take 5 Example.evs) 8 (Endorsement 77) st → st = Example.stakes.
Proof.
  intros (n & u & ap & Hin & _ & Hi). unfold Example.evs in Hin. cbn [take] in Hin.
  repeat (apply elem_of_cons in Hin as [Hin|Hin]; [try discriminate Hin; injection Hin as _ _ -> ->; (reflexivity || discriminate Hi)|]). by apply not_elem_of_nil in Hin.
Qed.

(** Up to the query, the block on top of 77 has its approvals, next to one of another parent with other approvers. *)
Lemma ready_block_is_accepted_witness :
  ∃ d sent d' w,
    run (new_doomslug 0 0 3 1000 2000 100 9000 (1, 3) TwoThirds)
      (SetTip 0 77 7 5 :: take 5 Example.evs) = Some (d, sent) ∧
    ready_to_produce_block 1 8 (ChunksReady 0) d = Some (d', true) ∧ get_witness d' 77 7 8 = Some w ∧
    can_approved_block_be_produced TwoThirds (collect_approvals w Example.stakes)
      ((λ s, (stake_this_epoch s, stake_next_epoch s)) <$> Example.stakes) = Some true.
Proof.
  destruct (ready_block_is_accepted 0 0 3 (1000, 2000, 100, 9000) (1, 3) 0 77 7 5 (take 5 Example.evs)) as (d & sent & Hrun & Hacc);
    [done|exact (Forall_take _ 6 _ evs_ok)|by vm_compute|].
  pose proof example_ready as Hready. cbn [fst snd] in Hrun. rewrite Hrun in Hready. destruct Hready as [Htip Hready].
  destruct (ready_to_produce_block 1 8 (ChunksReady 0) d) as [[d' b]|] eqn:Hr; [|contradiction]. rewrite Hready in Hr.
  destruct (Hacc 1 8 (ChunksReady 0) d' (Endorsement 77) Example.stakes Hr) as (w & Hw & Hok); [by rewrite Htip| |].
  - apply example_given.
  - rewrite Htip in Hw. exists d, sent, d', w. split; [exact Hrun|]. split; [exact Hr|]. split; [exact Hw|exact Hok].
Defined.

(** In that run the three approvals make the block producible, and the first tick of the timer
    endorses the tip and skips one height. *)
Example run_example :
  match run (new_doomslug 0 0 3 1000 2000 100 9000 (1, 3) TwoThirds)
      (SetTip 0 77 7 5 :: take 6 Example.evs) with
  | Some (d, sent) =>
      map (λ a, (inner a, target_height a)) sent = [(Endorsement 77, 8); (Skip 7, 9)] ∧
      match ready_to_produce_block 1 8 (ChunksReady 0) d with Some (_, b) => b = true | None => False end
  | None => False
  end.
Proof. by vm_compute. Qed.
