(* ===== verification/ShardLayout.v ===== *)
(** Shard layouts.

    Models src/core/primitives/src/shard_layout.rs: the three versions of
    [ShardLayout], the assignment of accounts to shards, the maps between shard ids,
    shard indexes and parents, the derivation of a layout that splits one shard, and
    the encodings of [ShardUId].

    Account ids (a crate outside the repository) are a type with a decidable total
    order, and the hash that assigns accounts in a [V0] layout is a parameter.  Shard
    ids are [u64], shard indexes [usize]; [None] is a panic.  The constructors for
    tests ([multi_shard], [multi_shard_custom]) and the serde glue are left out. *)

From S2P Require Import Prelude.
From stdpp Require Import sorting strings pretty.

Local Open Scope Z_scope.

(** A [BTreeMap] is a [gmap] whose entries are visited in the order of their keys. *)
Definition key_le {V} : relation (Z * V) := λ a b, a.1 <= b.1.

#[export] Instance key_le_dec {V} : RelDecision (@key_le V).
Proof. intros a b. unfold key_le. apply _. Defined.

#[export] Instance key_le_total {V} : Total (@key_le V).
Proof. intros a b. unfold key_le. lia. Qed.

#[export] Instance key_le_trans {V} : Transitive (@key_le V).
Proof. intros a b c. unfold key_le. lia. Qed.

Definition entries {V} (m : gmap Z V) : list (Z * V) := merge_sort key_le (map_to_list m).

Inductive ShardLayoutError : Type :=
  | InvalidShardIdError (shard_id : Z)
  | InvalidShardIndexError (shard_index : nat)
  | NoParentError (shard_id : Z).

(** * Shard unique ids *)

Record ShardUId : Type := mkShardUId { uid_version : Z; uid_shard_id : Z }.

(** [shard_id.into()] truncates to 32 bits. *)
Definition new_uid (version shard_id : Z) : ShardUId := mkShardUId version (shard_id mod 2 ^ 32).

Definition to_bytes (u : ShardUId) : list Z := to_le_bytes 4 (uid_version u) ++ to_le_bytes 4 (uid_shard_id u).

Definition uid_try_from (bytes : list Z) : option ShardUId :=
  if negb (bool_decide (length bytes = 8%nat)) then None
  else Some (mkShardUId (from_le_bytes (take 4 bytes)) (from_le_bytes (drop 4 bytes))).

(** [for i in (0..8).rev()]: the bytes from the last to the first; [None] is the panic. *)
Fixpoint increment_rev (rev_bytes : list Z) : option (list Z) :=
  match rev_bytes with
  | [] => None
  | b :: rest => if b =? 255 then rest ← increment_rev rest; Some (0 :: rest) else Some (b + 1 :: rest)
  end.

Definition get_upper_bound_db_key (shard_uid_bytes : list Z) : option (list Z) :=
  reverse <$> increment_rev (reverse shard_uid_bytes).

Definition get_block_shard_uid (block_hash : list Z) (u : ShardUId) : list Z := block_hash ++ to_bytes u.

Definition get_block_shard_uid_rev (key : list Z) : option (list Z * ShardUId) :=
  if negb (bool_decide (length key = 40%nat)) then None
  else
    u ← uid_try_from (drop 32 key);
    Some (take 32 key, u).

(** The map from ids to indexes that [v2] fills. *)
Lemma index_map_spec ids : ∀ c i,
  NoDup ids →
  foldl (λ (m : gmap Z nat) x, <[x.2 := x.1]> m) ∅ (imap pair ids) !! c = Some i ↔ ids !! i = Some c.
Proof.
  induction ids as [|x ids IH] using rev_ind; intros c i Hnd; [done|].
  apply NoDup_app in Hnd as (Hnd & Hx & _). rewrite imap_app, foldl_app. simpl. rewrite Nat.add_0_r.
  assert (x ∉ ids) as Hni by (intros Hi; apply (Hx x Hi); set_solver).
  rewrite lookup_insert_Some, IH by done. split.
  - intros [[-> <-]|[Hne Hi]]; [by rewrite lookup_app_r, Nat.sub_diag by lia|by apply lookup_app_l_Some].
  - intros [Hi|[Hle Hi]]%lookup_app_Some; [right; split; [|done]|left].
    + intros ->. by apply Hni, (list_elem_of_lookup_2 _ i).
    + apply list_lookup_singleton_Some in Hi as [Hi <-]. split; [done|lia].
Qed.

Section layout.
Context {AccountId : Type} `{EqDecision AccountId}.
Context (account_le : relation AccountId) `{!RelDecision account_le} `{!TotalOrder account_le}.

(** * Layouts *)

Record ShardLayoutV0 : Type := mkV0 { v0_num_shards : Z; v0_version : Z }.

Record ShardLayoutV1 : Type := mkV1 {
  v1_boundary_accounts : list AccountId;
  v1_shards_split_map : option (list (list Z));
  to_parent_shard_map : option (list Z);
  v1_version : Z
}.

Record ShardLayoutV2 : Type := mkV2 {
  v2_boundary_accounts : list AccountId;
  v2_shard_ids : list Z;
  id_to_index_map : gmap Z nat;
  index_to_id_map : gmap nat Z;
  v2_shards_split_map : option (gmap Z (list Z));
  shards_parent_map : option (gmap Z Z);
  v2_version : Z
}.

Inductive ShardLayout : Type :=
  | V0 (v0 : ShardLayoutV0)
  | V1 (v1 : ShardLayoutV1)
  | V2 (v2 : ShardLayoutV2).

(** The index of the first boundary account above [account_id]. *)
Fixpoint boundary_index (account_id : AccountId) (boundary_accounts : list AccountId) : nat :=
  match boundary_accounts with
  | [] => 0
  | b :: boundary_accounts =>
      if decide (strict account_le account_id b) then 0 else S (boundary_index account_id boundary_accounts)
  end.

Definition v1_account_id_to_shard_id (l : ShardLayoutV1) (account_id : AccountId) : Z :=
  Z.of_nat (boundary_index account_id (v1_boundary_accounts l)).

Definition v2_account_id_to_shard_id (l : ShardLayoutV2) (account_id : AccountId) : option Z :=
  v2_shard_ids l !! boundary_index account_id (v2_boundary_accounts l).

Definition single_shard : ShardLayout :=
  V2 (mkV2 [] [0] {[0 := 0%nat]} {[0%nat := 0]} None None 0).

Definition v0 (num_shards version : Z) : ShardLayout := V0 (mkV0 num_shards version).

(** Insertion with [assert!(prev.is_none())]. *)
Definition insert_new (child parent : Z) (m : gmap Z Z) : option (gmap Z Z) :=
  match m !! child with Some _ => None | None => Some (<[child := parent]> m) end.

Fixpoint v1_children (num_shards parent : Z) (children : list Z) (m : gmap Z Z) : option (gmap Z Z) :=
  match children with
  | [] => Some m
  | c :: children =>
      m ← insert_new c parent m;
      if c <? num_shards then v1_children num_shards parent children m else None
  end.

Fixpoint v1_parents (num_shards : Z) (parent : nat) (split : list (list Z)) (m : gmap Z Z) : option (gmap Z Z) :=
  match split with
  | [] => Some m
  | children :: split =>
      m ← v1_children num_shards (Z.of_nat parent) children m;
      v1_parents num_shards (S parent) split m
  end.

Definition v1 (boundary_accounts : list AccountId) (shards_split_map : option (list (list Z))) (version : Z)
    : option ShardLayout :=
  let num_shards := Z.of_nat (length boundary_accounts) + 1 in
  to_parent ← (match shards_split_map with
               | Some split =>
                   m ← v1_parents num_shards 0 split ∅;
                   l ← mapM (λ i, m !! i) (seqZ 0 num_shards);
                   Some (Some l)
               | None => Some None
               end);
  Some (V1 (mkV1 boundary_accounts shards_split_map to_parent version)).

Fixpoint insert_children (parent : Z) (children : list Z) (m : gmap Z Z) : option (gmap Z Z) :=
  match children with
  | [] => Some m
  | c :: children => m ← insert_new c parent m; insert_children parent children m
  end.

Definition parent_step (shard_ids : list Z) (parent : Z) (children : list Z) (m : gmap Z Z)
    : option (gmap Z Z) :=
  m ← insert_children parent children m;
  match children with
  | [c] => if parent =? c then Some m else None
  | _ => if bool_decide (parent ∈ shard_ids) then None else Some m
  end.

Fixpoint parent_loop (shard_ids : list Z) (split : list (Z * list Z)) (m : gmap Z Z) : option (gmap Z Z) :=
  match split with
  | [] => Some m
  | (parent, children) :: split =>
      m ← parent_step shard_ids parent children m;
      parent_loop shard_ids split m
  end.

Definition validate_and_derive_shard_parent_map_v2 (shard_ids : list Z) (split : gmap Z (list Z))
    : option (gmap Z Z) :=
  m ← parent_loop shard_ids (entries split) ∅;
  if bool_decide (merge_sort Z.le shard_ids = (entries m).*1) then Some m else None.

Definition v2 (boundary_accounts : list AccountId) (shard_ids : list Z) (split : option (gmap Z (list Z)))
    : option ShardLayout :=
  if negb (bool_decide (S (length boundary_accounts) = length shard_ids)) then None
  else if negb (bool_decide (boundary_accounts = merge_sort account_le boundary_accounts)) then None
  else
    let id_to_index := foldl (λ m x, <[x.2 := x.1]> m) ∅ (imap pair shard_ids) in
    let index_to_id := foldl (λ m x, <[x.1 := x.2]> m) ∅ (imap pair shard_ids) in
    parents ← (match split with
               | Some split => m ← validate_and_derive_shard_parent_map_v2 shard_ids split; Some (Some m)
               | None => Some None
               end);
    Some (V2 (mkV2 boundary_accounts shard_ids id_to_index index_to_id split parents 3)).

Definition version (l : ShardLayout) : Z :=
  match l with V0 l => v0_version l | V1 l => v1_version l | V2 l => v2_version l end.

Definition boundary_accounts (l : ShardLayout) : option (list AccountId) :=
  match l with
  | V1 l => Some (v1_boundary_accounts l)
  | V2 l => Some (v2_boundary_accounts l)
  | V0 _ => None
  end.

Definition num_shards (l : ShardLayout) : Z :=
  match l with
  | V0 l => v0_num_shards l
  | V1 l => Z.of_nat (length (v1_boundary_accounts l)) + 1
  | V2 l => Z.of_nat (length (v2_shard_ids l))
  end.

Definition shard_ids (l : ShardLayout) : list Z :=
  match l with
  | V0 _ | V1 _ => seqZ 0 (num_shards l)
  | V2 l => v2_shard_ids l
  end.

Definition shard_indexes (l : ShardLayout) : list nat := seq 0 (Z.to_nat (num_shards l)).

Definition get_shard_index (l : ShardLayout) (shard_id : Z) : ShardLayoutError + nat :=
  match l with
  | V0 _ | V1 _ => inr (Z.to_nat shard_id)
  | V2 l =>
      match id_to_index_map l !! shard_id with
      | Some i => inr i
      | None => inl (InvalidShardIdError shard_id)
      end
  end.

Definition get_shard_id (l : ShardLayout) (shard_index : nat) : ShardLayoutError + Z :=
  match l with
  | V0 _ | V1 _ =>
      if (Z.to_nat (num_shards l) <=? shard_index)%nat then inl (InvalidShardIndexError shard_index)
      else inr (Z.of_nat shard_index)
  | V2 l =>
      match v2_shard_ids l !! shard_index with
      | Some i => inr i
      | None => inl (InvalidShardIndexError shard_index)
      end
  end.

Definition from_shard_id_and_layout (shard_id : Z) (l : ShardLayout) : option ShardUId :=
  if bool_decide (shard_id ∈ shard_ids l) then Some (new_uid (version l) shard_id) else None.

Definition get_shard_uid (l : ShardLayout) (shard_index : nat) : option (ShardLayoutError + ShardUId) :=
  match get_shard_id l shard_index with
  | inl e => Some (inl e)
  | inr shard_id => u ← from_shard_id_and_layout shard_id l; Some (inr u)
  end.

Definition shard_uids (l : ShardLayout) : option (list ShardUId) :=
  mapM (λ shard_id, from_shard_id_and_layout shard_id l) (shard_ids l).

Definition shard_infos (l : ShardLayout) : option (list (nat * ShardUId)) :=
  uids ← shard_uids l; Some (imap pair uids).

(** The 32 bytes of the hash of an account id. *)
Definition account_id_to_shard_id (hash_bytes : AccountId → list Z) (l : ShardLayout) (account_id : AccountId)
    : option Z :=
  match l with
  | V0 l =>
      if v0_num_shards l =? 0 then None
      else Some (from_le_bytes (take 8 (hash_bytes account_id)) mod v0_num_shards l)
  | V1 l => Some (v1_account_id_to_shard_id l account_id)
  | V2 l => v2_account_id_to_shard_id l account_id
  end.

Definition account_id_to_shard_uid (hash_bytes : AccountId → list Z) (l : ShardLayout) (account_id : AccountId)
    : option ShardUId :=
  shard_id ← account_id_to_shard_id hash_bytes l account_id;
  from_shard_id_and_layout shard_id l.

Definition get_children_shards_ids (l : ShardLayout) (parent_shard_id : Z) : option (list Z) :=
  match l with
  | V0 _ => None
  | V1 l => split ← v1_shards_split_map l; split !! Z.to_nat parent_shard_id
  | V2 l => split ← v2_shards_split_map l; split !! parent_shard_id
  end.

(** The outer option is the panic, the inner one the result. *)
Definition get_children_shards_uids (l : ShardLayout) (parent_shard_id : Z) : option (option (list ShardUId)) :=
  match get_children_shards_ids l parent_shard_id with
  | None => Some None
  | Some shards => uids ← mapM (λ i, from_shard_id_and_layout i l) shards; Some (Some uids)
  end.

Definition try_get_parent_shard_id (l : ShardLayout) (shard_id : Z) : option (ShardLayoutError + option Z) :=
  if negb (bool_decide (shard_id ∈ shard_ids l)) then Some (inl (InvalidShardIdError shard_id))
  else
    match l with
    | V0 _ => Some (inr None)
    | V1 v1 =>
        match to_parent_shard_map v1 with
        | Some parents =>
            match get_shard_index l shard_id with
            | inl _ => None
            | inr i => p ← parents !! i; Some (inr (Some p))
            end
        | None => Some (inr None)
        end
    | V2 l =>
        match shards_parent_map l with
        | Some parents => p ← parents !! shard_id; Some (inr (Some p))
        | None => Some (inr None)
        end
    end.

Definition get_parent_shard_id (l : ShardLayout) (shard_id : Z) : option (ShardLayoutError + Z) :=
  r ← try_get_parent_shard_id l shard_id;
  Some match r with
       | inl e => inl e
       | inr (Some p) => inr p
       | inr None => inl (NoParentError shard_id)
       end.

Fixpoint split_parents (l : ShardLayout) (ids : list Z) (acc : gset Z) : option (gset Z) :=
  match ids with
  | [] => Some acc
  | shard_id :: ids =>
      r ← try_get_parent_shard_id l shard_id;
      match r with
      | inl _ => None
      | inr None => split_parents l ids acc
      | inr (Some p) => split_parents l ids (if p =? shard_id then acc else {[p]} ∪ acc)
      end
  end.

Definition get_split_parent_shard_ids (l : ShardLayout) : option (gset Z) := split_parents l (shard_ids l) ∅.

(** [iter().max().expect(..)] *)
Definition max_id (ids : list Z) : option Z :=
  match ids with [] => None | i :: ids => Some (foldl Z.max i ids) end.

(** [splice(index..index + 1, new)]: what is removed, and what remains. *)
Definition splice_one (index : nat) (new : list Z) (ids : list Z) : option (list Z * list Z) :=
  if (S index <=? length ids)%nat
  then Some (take 1 (drop index ids), take index ids ++ new ++ drop (S index) ids)
  else None.

Definition derive_shard_layout (base : ShardLayout) (new_boundary_account : AccountId) : option ShardLayout :=
  bounds ← boundary_accounts base;
  let ids := shard_ids base in
  let split : gmap Z (list Z) := list_to_map ((λ i, (i, [i])) <$> ids) in
  if bool_decide (new_boundary_account ∈ bounds) then None
  else
    let bounds := merge_sort account_le (bounds ++ [new_boundary_account]) in
    index ← fst <$> list_find (λ a, a = new_boundary_account) bounds;
    max_shard_id ← max_id ids;
    c1 ← checked_add 64 max_shard_id 1;
    c2 ← checked_add 64 max_shard_id 2;
    '(removed, ids) ← splice_one index [c1; c2] ids;
    match removed with
    | [parent] => v2 bounds ids (Some (<[parent := [c1; c2]]> split))
    | _ => None
    end.

(** * Accounts and boundaries *)

Abbreviation account_lt := (strict account_le).

Lemma not_lt_le a b : ¬ account_lt a b → account_le b a.
Proof. destruct (total account_le a b) as [Hab|Hba]; [|done]. intros Hn. destruct (decide (a = b)) as [->|Hne]; [done|].
  exfalso. apply Hn. split; [done|]. intros Hba. by apply Hne, (anti_symm account_le). Qed.

Lemma le_not_lt a b : account_le b a → ¬ account_lt a b.
Proof. intros Hba [_ Hn]. done. Qed.

Lemma lt_le_trans a b c : account_lt a b → account_le b c → account_lt a c.
Proof. intros Hab Hbc. by eapply strict_trans_l. Qed.

Lemma le_lt_trans a b c : account_le a b → account_lt b c → account_lt a c.
Proof. intros Hab Hbc. by eapply strict_trans_r. Qed.

(** The shard at index [i] holds exactly the accounts between its two boundaries. *)
Record at_boundary (a : AccountId) (bs : list AccountId) (i : nat) : Prop := {
  bd_len : (i <= length bs)%nat;
  bd_below : Forall (λ b, account_le b a) (take i bs);
  bd_above : Forall (account_lt a) (drop i bs)
}.

Lemma boundary_index_spec a bs : StronglySorted account_le bs → at_boundary a bs (boundary_index a bs).
Proof.
  induction 1 as [|b bs Hs IH Hb]; simpl; [by constructor|]. destruct (decide (account_lt a b)) as [Hlt|Hn].
  - constructor; [simpl; lia|constructor|]. simpl. constructor; [done|]. eapply Forall_impl; [exact Hb|].
    intros b' Hb'. by eapply lt_le_trans.
  - destruct IH as [Hl Hbe Hab]. constructor; simpl; [lia| |done]. constructor; [by apply not_lt_le|done].
Qed.

Lemma at_boundary_le a bs i j : at_boundary a bs i → at_boundary a bs j → (i <= j)%nat.
Proof.
  intros [Hi Hbi _] [Hj _ Haj]. destruct (decide (i <= j)%nat) as [|Hn]; [done|].
  assert (is_Some (bs !! j)) as [b Hb] by (apply lookup_lt_is_Some; lia).
  rewrite Forall_lookup in Hbi, Haj. exfalso. apply (le_not_lt a b).
  - apply (Hbi j). rewrite lookup_take_lt by lia. done.
  - apply (Haj 0%nat). by rewrite lookup_drop, Nat.add_0_r.
Qed.

Lemma boundary_index_unique a bs i : StronglySorted account_le bs → at_boundary a bs i → boundary_index a bs = i.
Proof.
  intros Hs Hi. pose proof (boundary_index_spec a bs Hs) as Hb.
  apply Nat.le_antisymm; by eapply at_boundary_le.
Qed.

(** Adding the boundary [n] in its place. *)
Definition add_boundary (n : AccountId) (bs : list AccountId) : list AccountId :=
  let k := boundary_index n bs in take k bs ++ n :: drop k bs.

Lemma add_boundary_sorted n bs : StronglySorted account_le bs → StronglySorted account_le (add_boundary n bs).
Proof.
  intros Hs. destruct (boundary_index_spec n bs Hs) as [Hl Hbe Hab]. unfold add_boundary.
  set (k := boundary_index n bs) in *. rewrite <-(take_drop k bs) in Hs.
  apply StronglySorted_app in Hs as (Hcross & Hs1 & Hs2). apply StronglySorted_app_2; [|done|].
  - intros x y Hx Hy. apply elem_of_cons in Hy as [->|Hy].
    + rewrite Forall_forall in Hbe. by apply Hbe.
    + by apply Hcross.
  - constructor; [done|]. eapply Forall_impl; [exact Hab|]. by intros b [? _].
Qed.

Lemma add_boundary_perm n bs : bs ++ [n] ≡ₚ add_boundary n bs.
Proof. unfold add_boundary. rewrite <-(take_drop (boundary_index n bs) bs) at 1. solve_Permutation. Qed.

Lemma sort_add_boundary n bs : StronglySorted account_le bs → merge_sort account_le (bs ++ [n]) = add_boundary n bs.
Proof.
  intros Hs. apply (StronglySorted_unique account_le).
  - apply (StronglySorted_merge_sort account_le).
  - by apply add_boundary_sorted.
  - rewrite merge_sort_Permutation. apply add_boundary_perm.
Qed.

Lemma find_add_boundary n bs :
  n ∉ bs → list_find (λ a, a = n) (add_boundary n bs) = Some (boundary_index n bs `min` length bs, n)%nat.
Proof.
  intros Hn. unfold add_boundary. apply list_find_Some. rewrite <-length_take. split_and!; [|done|].
  - by rewrite list_lookup_middle.
  - intros j y Hj Hlt ->. rewrite lookup_app_l in Hj by lia. apply Hn.
    apply list_elem_of_lookup_2 in Hj. rewrite <-(take_drop (boundary_index n bs) bs). set_solver.
Qed.

Lemma boundary_index_add a n bs :
  StronglySorted account_le bs →
  boundary_index a (add_boundary n bs) =
    (if decide (account_lt a n) then boundary_index a bs else S (boundary_index a bs)) ∧
  (account_lt a n → (boundary_index a bs <= boundary_index n bs)%nat) ∧
  (¬ account_lt a n → (boundary_index n bs <= boundary_index a bs)%nat).
Proof.
  intros Hs. destruct (boundary_index_spec n bs Hs) as [Hln Hben Habn], (boundary_index_spec a bs Hs) as [Hla Hbea Haba].
  pose proof (add_boundary_sorted n bs Hs) as Hs'.
  set (k := boundary_index n bs) in *. set (j := boundary_index a bs) in *.
  assert (account_lt a n → (j <= k)%nat) as H1.
  { intros Hlt. destruct (decide (j <= k)%nat) as [|Hn]; [done|]. exfalso.
    assert (is_Some (bs !! k)) as [b Hb] by (apply lookup_lt_is_Some; lia).
    rewrite Forall_lookup in Hbea, Habn. apply (le_not_lt a b).
    - apply (Hbea k). rewrite lookup_take_lt by lia. done.
    - transitivity n; [exact Hlt|]. apply (Habn 0%nat). by rewrite lookup_drop, Nat.add_0_r. }
  assert (¬ account_lt a n → (k <= j)%nat) as H2.
  { intros Hlt%not_lt_le. destruct (decide (k <= j)%nat) as [|Hn]; [done|]. exfalso.
    assert (is_Some (bs !! j)) as [b Hb] by (apply lookup_lt_is_Some; lia).
    rewrite Forall_lookup in Haba, Hben. apply (le_not_lt a b).
    - transitivity n; [|done]. apply (Hben j). rewrite lookup_take_lt by lia. done.
    - apply (Haba 0%nat). by rewrite lookup_drop, Nat.add_0_r. }
  split; [|done]. apply boundary_index_unique; [done|]. unfold add_boundary. fold k.
  assert (length (take k bs) = k) as Hk by (rewrite length_take; lia).
  rewrite <-(take_drop k bs), take_app, Hk in Hbea. rewrite <-(take_drop k bs), drop_app, Hk in Haba. apply Forall_app in Hbea as [B1 B2], Haba as [A1 A2].
  assert (length (take k bs ++ n :: drop k bs) = S (length bs)) as Hlen.
  { rewrite length_app, Hk. simpl. rewrite length_drop. lia. }
  destruct (decide (account_lt a n)) as [Hlt|Hn].
  - specialize (H1 Hlt). constructor; [lia| |].
    + rewrite take_app_le by lia. done.
    + rewrite drop_app_le by lia. apply Forall_app. split; [done|]. constructor; [done|].
      by replace (j - k)%nat with 0%nat in A2 by lia.
  - specialize (H2 Hn). constructor; [lia| |].
    + rewrite take_app_ge, Hk by lia. replace (S j - k)%nat with (S (j - k)) by lia. simpl.
      rewrite take_ge in B1 by lia. apply Forall_app. split; [done|]. constructor; [by apply not_lt_le|done].
    + rewrite drop_app_ge, Hk by lia. by replace (S j - k)%nat with (S (j - k)) by lia.
Qed.

(** * Parent maps *)

Lemma insert_children_ok p cs : ∀ m : gmap Z Z,
  NoDup cs → (∀ c, c ∈ cs → m !! c = None) →
  ∃ m', insert_children p cs m = Some m' ∧ ∀ c, m' !! c = if bool_decide (c ∈ cs) then Some p else m !! c.
Proof.
  induction cs as [|c cs IH]; intros m Hnd Hfresh; simpl.
  { exists m. split; [done|]. done. }
  apply NoDup_cons in Hnd as [Hc Hnd]. unfold insert_new. rewrite Hfresh by set_solver. cbn [mbind option_bind].
  destruct (IH (<[c := p]> m) Hnd) as (m' & Hrun & Hm').
  { intros c' Hc'. rewrite lookup_insert_ne by (intros ->; done). apply Hfresh. set_solver. }
  exists m'. split; [done|]. intros c'. rewrite Hm'. destruct (decide (c' = c)) as [->|Hne].
  - rewrite bool_decide_false by done. rewrite bool_decide_true by set_solver. by rewrite lookup_insert_eq.
  - rewrite lookup_insert_ne by done. erewrite bool_decide_ext; [done|]. set_solver.
Qed.

(** A shard either keeps its id or disappears. *)
Definition split_entry_ok (ids : list Z) (e : Z * list Z) : Prop :=
  e.2 = [e.1] ∨ (length e.2 ≠ 1%nat ∧ e.1 ∉ ids).

Lemma parent_loop_ok ids L : ∀ m : gmap Z Z,
  Forall (split_entry_ok ids) L → NoDup ((L ≫= snd)) → (∀ c, c ∈ (L ≫= snd) → m !! c = None) →
  ∃ m', parent_loop ids L m = Some m' ∧
    ∀ c p, m' !! c = Some p ↔ m !! c = Some p ∨ ∃ cs, (p, cs) ∈ L ∧ c ∈ cs.
Proof.
  induction L as [|[p cs] L IH]; intros m HF Hnd Hfresh; simpl.
  { exists m. split; [done|]. intros c q. set_solver. }
  apply Forall_cons in HF as [He HF]. simpl in Hnd, Hfresh. apply NoDup_app in Hnd as (Hcs & Hdisj & Hnd).
  unfold parent_step.
  destruct (insert_children_ok p cs m Hcs) as (m1 & -> & Hm1); [intros c Hc; apply Hfresh; set_solver|].
  cbn [mbind option_bind].
  assert (match cs with
          | [c] => if p =? c then Some m1 else None
          | _ => if bool_decide (p ∈ ids) then None else Some m1
          end = Some m1) as ->.
  { destruct He as [Hp|[Hlen Hp]]; simpl in *; [subst cs; by rewrite Z.eqb_refl|].
    destruct cs as [|c [|c' cs]]; simpl in *; [|done|]; by rewrite bool_decide_false. }
  cbn [mbind option_bind]. destruct (IH m1 HF Hnd) as (m2 & -> & Hm2).
  { intros c Hc. rewrite Hm1, bool_decide_false by (intros Hc'; by apply (Hdisj c)). apply Hfresh. set_solver. }
  exists m2. split; [done|]. intros c q. rewrite Hm2, Hm1. case_bool_decide as Hc.
  - assert (m !! c = None) as Hn by (apply Hfresh; set_solver). rewrite Hn. split.
    + intros [[= <-]|(cs' & Hin & Hc')]; [right; exists cs; set_solver|right; exists cs'; set_solver].
    + intros [[=]|(cs' & [Heq|Hin]%elem_of_cons & Hc')]; [by simplify_eq; left|]. right. by exists cs'.
  - split; [intros [?|(cs' & Hin & Hc')]; [by left|right; exists cs'; set_solver]|].
    intros [?|(cs' & [Heq|Hin]%elem_of_cons & Hc')]; [by left|by simplify_eq|]. right. by exists cs'.
Qed.

Lemma entries_perm {V} (m : gmap Z V) : entries m ≡ₚ map_to_list m.
Proof. apply merge_sort_Permutation. Qed.

Lemma entries_keys {V} (m : gmap Z V) ids :
  NoDup ids → (∀ c, c ∈ ids ↔ is_Some (m !! c)) → merge_sort Z.le ids = (entries m).*1.
Proof.
  intros Hnd Hids. apply (StronglySorted_unique Z.le).
  - apply (StronglySorted_merge_sort Z.le).
  - apply (StronglySorted_fmap fst key_le); [by intros a b|]. apply (StronglySorted_merge_sort key_le).
  - rewrite merge_sort_Permutation, entries_perm. apply NoDup_Permutation; [done|apply NoDup_fst_map_to_list|].
    intros c. rewrite Hids, list_elem_of_fmap. split.
    + intros [v Hv]. exists (c, v). split; [done|]. by apply elem_of_map_to_list.
    + intros ([c' v] & -> & Hin%elem_of_map_to_list). by exists v.
Qed.

Lemma parent_map_ok ids (split : gmap Z (list Z)) :
  NoDup ids → (∀ p cs, split !! p = Some cs → split_entry_ok ids (p, cs)) →
  (map_to_list split ≫= snd) ≡ₚ ids →
  ∃ m, validate_and_derive_shard_parent_map_v2 ids split = Some m ∧
    ∀ c p, m !! c = Some p ↔ ∃ cs, split !! p = Some cs ∧ c ∈ cs.
Proof.
  intros Hnd He Hc. unfold validate_and_derive_shard_parent_map_v2.
  assert ((entries split ≫= snd) ≡ₚ ids) as Hc' by (by rewrite entries_perm).
  destruct (parent_loop_ok ids (entries split) ∅) as (m & -> & Hm).
  - apply Forall_forall. intros [p cs] Hin. rewrite entries_perm in Hin. by apply He, elem_of_map_to_list.
  - by rewrite Hc'.
  - intros c _. apply lookup_empty.
  - cbn [mbind option_bind].
    assert (∀ c p, m !! c = Some p ↔ ∃ cs, split !! p = Some cs ∧ c ∈ cs) as Hm'.
    { intros c p. rewrite Hm, lookup_empty. setoid_rewrite entries_perm. setoid_rewrite elem_of_map_to_list. naive_solver. }
    rewrite bool_decide_true; [by exists m|]. apply entries_keys; [done|]. intros c. rewrite <-Hc, list_elem_of_bind. split.
    + intros ([p cs] & Hcs & Hin%elem_of_map_to_list). exists p. apply Hm'. by exists cs.
    + intros [p (cs & Hcs & Hin)%Hm']. exists (p, cs). split; [done|]. by apply elem_of_map_to_list.
Qed.

(** * Well-formed layouts *)

(** A layout that assigns ranges of accounts to shards. *)
Record ranged (l : ShardLayout) (bs : list AccountId) : Prop := {
  rg_boundaries : boundary_accounts l = Some bs;
  rg_sorted : StronglySorted account_le bs;
  rg_nodup : NoDup (shard_ids l);
  rg_length : length (shard_ids l) = S (length bs);
  rg_range : Forall (λ i, 0 <= i < 2 ^ 63) (shard_ids l)
}.

Lemma ranged_assign hash_bytes l bs a :
  ranged l bs → account_id_to_shard_id hash_bytes l a = shard_ids l !! boundary_index a bs.
Proof.
  intros [Hb Hs _ Hl _]. destruct l as [v0|v1|v2]; simpl in *; [done| |]; injection Hb as <-; [|done].
  destruct (boundary_index_spec a _ Hs) as [Hle _ _]. symmetry. apply lookup_seqZ. unfold v1_account_id_to_shard_id. lia.
Qed.

(** What [v2] builds. *)
Definition v2_layout (bs : list AccountId) (ids : list Z) (split : option (gmap Z (list Z)))
    (parents : option (gmap Z Z)) : ShardLayout :=
  V2 (mkV2 bs ids (foldl (λ m x, <[x.2 := x.1]> m) ∅ (imap pair ids))
    (foldl (λ m x, <[x.1 := x.2]> m) ∅ (imap pair ids)) split parents 3).

Lemma v2_ok bs ids split parents :
  length ids = S (length bs) → StronglySorted account_le bs →
  validate_and_derive_shard_parent_map_v2 ids split = Some parents →
  v2 bs ids (Some split) = Some (v2_layout bs ids (Some split) (Some parents)).
Proof.
  intros Hl Hs Hv. unfold v2. rewrite bool_decide_true by done. simpl negb. cbv iota.
  rewrite bool_decide_true.
  2: { apply (StronglySorted_unique account_le); [done|apply (StronglySorted_merge_sort account_le)|].
       by rewrite merge_sort_Permutation. }
  simpl negb. cbv iota. rewrite Hv. done.
Qed.

(** * Splitting a shard *)

Lemma max_id_spec ids m : max_id ids = Some m → m ∈ ids ∧ Forall (λ i, i <= m) ids.
Proof.
  destruct ids as [|i ids]; [done|]. intros [= <-]. cut (∀ ids i, foldl Z.max i ids ∈ i :: ids ∧
    Forall (λ j, j <= foldl Z.max i ids) (i :: ids)); [intros Hc; apply Hc|].
  clear. induction ids as [|j ids IH]; intros i; simpl; [split; [set_solver|by repeat constructor]|].
  destruct (IH (i `max` j)) as [Hin HF]. apply Forall_cons in HF as [Hmax HF]. split.
  - apply elem_of_cons in Hin as [->|Hin]; [|set_solver]. destruct (Z.max_spec i j) as [[_ ->]|[_ ->]]; set_solver.
  - constructor; [lia|]. constructor; [lia|done].
Qed.

(** The ids and the split map after shard [p] became [c1] and [c2]. *)
Section split.
Variables (l1 l2 : list Z) (p c1 c2 : Z).
Abbreviation old_ids := (l1 ++ p :: l2).
Abbreviation new_ids := (l1 ++ c1 :: c2 :: l2).
Hypothesis Hnodup : NoDup (l1 ++ p :: l2).
Hypothesis Hfresh : ∀ i, i ∈ l1 ++ p :: l2 → i ≠ c1 ∧ i ≠ c2.
Hypothesis Hne : c1 ≠ c2.

Definition keep (ids : list Z) : gmap Z (list Z) := list_to_map ((λ i, (i, [i])) <$> ids).
Definition split_map : gmap Z (list Z) := <[p := [c1; c2]]> (keep old_ids).

Lemma keep_lookup ids i cs : NoDup ids → keep ids !! i = Some cs ↔ i ∈ ids ∧ cs = [i].
Proof.
  intros Hnd. unfold keep. rewrite <-elem_of_list_to_map.
  - rewrite list_elem_of_fmap. split; [intros (j & [= -> ->] & Hj); done|intros [Hi ->]; by exists i].
  - by rewrite <-list_fmap_compose, list_fmap_id.
Qed.

Lemma split_lookup q cs :
  split_map !! q = Some cs ↔ (q = p ∧ cs = [c1; c2]) ∨ (q ≠ p ∧ q ∈ l1 ++ l2 ∧ cs = [q]).
Proof.
  unfold split_map. rewrite lookup_insert_Some, keep_lookup by done.
  split; [intros [[-> <-]|(Hn & Hq & ->)]|intros [[-> ->]|(Hn & Hq & ->)]]; [by left|right; set_solver|by left|right; set_solver].
Qed.

Lemma p_not_other : p ∉ l1 ++ l2.
Proof. apply (NoDup_cons p (l1 ++ l2)). by rewrite Permutation_middle. Qed.

Lemma new_ids_nodup : NoDup new_ids.
Proof.
  assert (new_ids ≡ₚ c1 :: c2 :: (l1 ++ l2)) as -> by solve_Permutation.
  assert (NoDup (p :: (l1 ++ l2))) as [_ Hnd]%NoDup_cons by (by rewrite Permutation_middle).
  constructor; [|constructor; [|done]].
  - intros [->|Hin]%elem_of_cons; [done|]. by destruct (Hfresh c1) as [Hc _]; [set_solver|].
  - intros Hin. by destruct (Hfresh c2) as [_ Hc]; [set_solver|].
Qed.

Lemma split_children : (map_to_list split_map ≫= snd) ≡ₚ new_ids.
Proof.
  assert (split_map = <[p := [c1; c2]]> (keep (l1 ++ l2))) as ->.
  { apply map_eq. intros q. apply option_eq. intros cs. rewrite split_lookup, lookup_insert_Some, keep_lookup.
    - naive_solver.
    - assert (NoDup (p :: (l1 ++ l2))) as [_ ?]%NoDup_cons by (by rewrite Permutation_middle). done. }
  rewrite map_to_list_insert.
  2: { apply eq_None_not_Some. intros [cs Hcs]. apply keep_lookup in Hcs as [Hin _]; [by apply p_not_other|].
       by apply (NoDup_cons p (l1 ++ l2)); rewrite Permutation_middle. }
  simpl. unfold keep. rewrite map_to_list_to_map.
  2: { rewrite <-list_fmap_compose, list_fmap_id. by apply (NoDup_cons p (l1 ++ l2)); rewrite Permutation_middle. }
  rewrite list_fmap_bind. assert (∀ l : list Z, (l ≫= snd ∘ (λ i, (i, [i]))) = l) as ->.
  { intros l. induction l as [|x l IHl]; [done|]. cbn [mbind list_bind app]. simpl. f_equal. exact IHl. }
  solve_Permutation.
Qed.

Lemma split_parents_ok :
  ∃ m, validate_and_derive_shard_parent_map_v2 new_ids split_map = Some m ∧
    m !! c1 = Some p ∧ m !! c2 = Some p ∧ ∀ i, i ∈ l1 ++ l2 → m !! i = Some i.
Proof.
  destruct (parent_map_ok new_ids split_map new_ids_nodup) as (m & Hrun & Hm).
  - intros q cs Hq. apply split_lookup in Hq as [[-> ->]|(Hn & Hq & ->)]; [right|by left]. split; [done|]. simpl.
    assert (p ≠ c1 ∧ p ≠ c2) as [] by (apply Hfresh; set_solver). pose proof p_not_other. set_solver.
  - apply split_children.
  - exists m. split_and!; [done|..].
    + apply Hm. exists [c1; c2]. split; [apply split_lookup; by left|set_solver].
    + apply Hm. exists [c1; c2]. split; [apply split_lookup; by left|set_solver].
    + intros i Hi. apply Hm. exists [i]. split; [|set_solver]. apply split_lookup. right. split_and!; [|done|done].
      intros ->. by apply p_not_other.
Qed.
End split.

Lemma splice_spec k ids p new : ids !! k = Some p → splice_one k new ids = Some ([p], take k ids ++ new ++ drop (S k) ids).
Proof.
  intros Hk. unfold splice_one. pose proof (lookup_lt_Some _ _ _ Hk).
  rewrite (proj2 (Nat.leb_le _ _)) by lia. by rewrite (drop_S ids p k Hk).
Qed.

(** What [derive_shard_layout] returns for the boundary [n] and the split shard [p]. *)
Lemma derive_eq base bs n :
  ranged base bs → n ∉ bs →
  ∃ l1 p l2 mx parents,
    shard_ids base = l1 ++ p :: l2 ∧ length l1 = boundary_index n bs ∧
    mx ∈ shard_ids base ∧ (∀ i, i ∈ shard_ids base → i <= mx) ∧
    derive_shard_layout base n = Some (v2_layout (add_boundary n bs) (l1 ++ (mx + 1) :: (mx + 2) :: l2)
      (Some (split_map l1 l2 p (mx + 1) (mx + 2))) (Some parents)) ∧
    parents !! (mx + 1) = Some p ∧ parents !! (mx + 2) = Some p ∧ (∀ i, i ∈ l1 ++ l2 → parents !! i = Some i).
Proof.
  intros [Hb Hs Hnd Hlen Hr] Hn. unfold derive_shard_layout. rewrite Hb. cbn [mbind option_bind].
  rewrite bool_decide_false by done. rewrite sort_add_boundary, find_add_boundary by done. cbn [fmap option_fmap option_map mbind option_bind fst].
  destruct (boundary_index_spec n bs Hs) as [Hk _ _]. rewrite Nat.min_l by done. set (k := boundary_index n bs) in *.
  assert (is_Some (shard_ids base !! k)) as [p Hp] by (apply lookup_lt_is_Some; lia).
  assert (is_Some (max_id (shard_ids base))) as [mx Hmx] by (destruct (shard_ids base); [done|by eexists]).
  destruct (max_id_spec _ _ Hmx) as [Hin Hmax]. rewrite Forall_forall in Hr, Hmax. pose proof (Hr _ Hin) as Hrm.
  rewrite Hmx. cbn [mbind option_bind]. rewrite !checked_add_ok by (unfold umax; lia). cbn [mbind option_bind].
  rewrite (splice_spec k _ p) by done. cbn [mbind option_bind app].
  pose proof (take_drop_middle _ _ _ Hp) as Hsplit.
  set (l1 := take k (shard_ids base)) in *. set (l2 := drop (S k) (shard_ids base)) in *.
  destruct (split_parents_ok l1 l2 p (mx + 1) (mx + 2)) as (parents & Hv & Hc1 & Hc2 & Hrest).
  { by rewrite Hsplit. }
  { rewrite Hsplit. intros i Hi. specialize (Hmax i Hi). lia. }
  { lia. }
  exists l1, p, l2, mx, parents. split_and!; try done.
  - unfold l1. rewrite length_take. lia.
  - change (list_to_map ((λ i, (i, [i])) <$> shard_ids base)) with (keep (shard_ids base)).
    rewrite <-Hsplit. apply v2_ok; [|by apply add_boundary_sorted|done].
    rewrite <-Hsplit in Hlen. rewrite !length_app in *. simpl in *.
    rewrite <-(Permutation_length (add_boundary_perm n bs)), length_app. simpl. lia.
Qed.

(** Where index [j] of the old ids goes, when it is on the given side of the split one. *)
Lemma split_position l1 l2 (p c1 c2 : Z) j (P : Prop) `{!Decision P} :
  NoDup (l1 ++ p :: l2) → (P → (j <= length l1)%nat) → (¬ P → (length l1 <= j)%nat) →
  (j < length (l1 ++ p :: l2))%nat →
  ∃ old new, (l1 ++ p :: l2) !! j = Some old ∧
    (l1 ++ c1 :: c2 :: l2) !! (if decide P then j else S j) = Some new ∧
    new = (if bool_decide (old = p) then if bool_decide P then c1 else c2 else old).
Proof.
  intros Hnd Hlt Hge Hj. assert (is_Some ((l1 ++ p :: l2) !! j)) as [old Hold] by (by apply lookup_lt_is_Some).
  assert ((l1 ++ p :: l2) !! length l1 = Some p) as Hp by (by rewrite list_lookup_middle).
  exists old. destruct (decide (j = length l1)) as [->|Hne].
  - assert (old = p) as -> by congruence. rewrite (bool_decide_true (p = p)) by done.
    destruct (decide P) as [HP|HP]; [rewrite (bool_decide_true P) by done|rewrite (bool_decide_false P) by done];
      eexists; split_and!; try done; rewrite lookup_app_r by lia; [by rewrite Nat.sub_diag|].
    by replace (S (length l1) - length l1)%nat with 1%nat by lia.
  - assert (old ≠ p) as Hop by (intros ->; by apply Hne, (NoDup_lookup _ _ _ _ Hnd Hold Hp)).
    rewrite (bool_decide_false (old = p)) by done. exists old. split_and!; [done| |done].
    destruct (decide P) as [HP|HP].
    + specialize (Hlt HP). rewrite lookup_app_l in Hold |- * by lia. done.
    + specialize (Hge HP). rewrite lookup_app_r in Hold |- * by lia.
      destruct (j - length l1)%nat as [|d] eqn:Ed; [lia|]. replace (S j - length l1)%nat with (S (S d)) by lia. done.
Qed.

Lemma v2_parent bs ids split parents p i :
  i ∈ ids → parents !! i = Some p →
  get_parent_shard_id (v2_layout bs ids split (Some parents)) i = Some (inr p).
Proof.
  intros Hi Hp. unfold get_parent_shard_id, try_get_parent_shard_id. simpl.
  rewrite bool_decide_true by done. simpl. by rewrite Hp.
Qed.

(** C28: Splitting a shard moves no other account.  Deriving a layout with a new boundary account from
    a well-formed layout succeeds; the result is well-formed again, with one shard more; every
    account of the shard that held the new boundary goes to one of two fresh shards, below or
    from the boundary on, and every other account stays in the shard it was in; and the parent
    of the new shard of any account is its old shard. *)
Theorem derive_splits_one_shard hash_bytes base bs n :
  ranged base bs → n ∉ bs → Forall (λ i, i < 2 ^ 62) (shard_ids base) →
  ∃ l p c1 c2, derive_shard_layout base n = Some l ∧
    ranged l (add_boundary n bs) ∧ num_shards l = Z.of_nat (length (shard_ids base)) + 1 ∧
    account_id_to_shard_id hash_bytes base n = Some p ∧
    get_children_shards_ids l p = Some [c1; c2] ∧ c1 ∉ shard_ids base ∧ c2 ∉ shard_ids base ∧
    ∀ a, ∃ old new, account_id_to_shard_id hash_bytes base a = Some old ∧
      account_id_to_shard_id hash_bytes l a = Some new ∧
      get_parent_shard_id l new = Some (inr old) ∧
      new = (if bool_decide (old = p) then if bool_decide (account_lt a n) then c1 else c2 else old).
Proof.
  intros Hrg Hn Hsmall. destruct (derive_eq base bs n Hrg Hn)
    as (l1 & p & l2 & mx & parents & Hids & Hk & Hmx & Hmax & Hrun & Hp1 & Hp2 & Hrest).
  assert (∀ i, i ∈ shard_ids base → 0 <= i < 2 ^ 62) as Hr.
  { pose proof (rg_range _ _ Hrg) as Hr. rewrite Forall_forall in Hr, Hsmall. intros i Hi.
    specialize (Hr i Hi). specialize (Hsmall i Hi). lia. }
  assert (∀ i, i ∈ shard_ids base → i ≠ mx + 1 ∧ i ≠ mx + 2) as Hne by (intros i Hi; specialize (Hmax i Hi); lia).
  assert (NoDup (l1 ++ p :: l2)) as Hnd by (rewrite <-Hids; apply Hrg).
  rewrite Hids in Hne. remember (mx + 1) as c1 eqn:Ec1. remember (mx + 2) as c2 eqn:Ec2.
  assert (ranged (v2_layout (add_boundary n bs) (l1 ++ c1 :: c2 :: l2) (Some (split_map l1 l2 p c1 c2)) (Some parents))
    (add_boundary n bs)) as Hrg'.
  { constructor; simpl; [done|by apply add_boundary_sorted, Hrg|apply (new_ids_nodup _ _ p); [done|done|lia]|..].
    - pose proof (rg_length _ _ Hrg) as Hl. rewrite Hids in Hl.
      rewrite <-(Permutation_length (add_boundary_perm n bs)). rewrite !length_app in *. simpl in *. lia.
    - pose proof (Hr mx Hmx). apply Forall_forall. intros i Hi.
      assert (i = c1 ∨ i = c2 ∨ i ∈ shard_ids base) as [->|[->|Hi']] by (rewrite Hids; set_solver); [lia|lia|]. specialize (Hr i Hi'). lia. }
  exists (v2_layout (add_boundary n bs) (l1 ++ c1 :: c2 :: l2) (Some (split_map l1 l2 p c1 c2)) (Some parents)), p, c1, c2.
  split_and!; [done|done| | | | | |].
  - simpl. rewrite Hids, !length_app. simpl. lia.
  - rewrite (ranged_assign _ _ bs) by done. rewrite Hids, <-Hk. by rewrite list_lookup_middle.
  - simpl. apply (split_lookup l1 l2 p c1 c2 Hnd); [done|lia|by left].
  - rewrite Hids. intros Hi. by destruct (Hne _ Hi).
  - rewrite Hids. intros Hi. by destruct (Hne _ Hi).
  - intros a. rewrite !(ranged_assign _ _ bs), !(ranged_assign _ _ (add_boundary n bs)) by done.
    destruct (boundary_index_add a n bs (rg_sorted _ _ Hrg)) as (-> & Hlt & Hge). rewrite <-Hk in Hlt, Hge.
    pose proof (boundary_index_spec a bs (rg_sorted _ _ Hrg)) as [Hj _ _]. pose proof (rg_length _ _ Hrg) as Hlen.
    rewrite Hids in Hlen |- *.
    destruct (split_position l1 l2 p c1 c2 (boundary_index a bs) (account_lt a n)) as (old & new & Hold & Hnew & Hval);
      [done|done|done|lia|].
    exists old, new. split_and!; [done|done| |done]. rewrite (v2_parent _ _ _ _ old); [done| |].
    + by eapply list_elem_of_lookup_2.
    + rewrite Hval. pose proof (list_elem_of_lookup_2 _ _ _ Hold) as Hin. case_bool_decide as Hp; [subst old; by case_bool_decide|].
      apply Hrest. set_solver.
Qed.

(** C29: Every account is in exactly one shard.  In a layout built by [v2] with distinct shard ids, the
    shard assigned to an account is the one whose range of accounts, from its lower boundary up
    to but excluding its upper one, contains the account, no other range contains it, and shard
    ids and shard indexes are converted into each other without loss. *)
Theorem account_assignment hash_bytes bs ids split l a :
  v2 bs ids split = Some l → NoDup ids →
  ∃ id i, account_id_to_shard_id hash_bytes l a = Some id ∧
    at_boundary a bs i ∧ (∀ j, at_boundary a bs j → j = i) ∧
    get_shard_index l id = inr i ∧ get_shard_id l i = inr id ∧
    (∀ i' id', get_shard_id l i' = inr id' ↔ get_shard_index l id' = inr i').
Proof.
  intros Hv Hnd. unfold v2 in Hv. case_bool_decide as Hl; [|done]. simpl negb in Hv. cbv iota in Hv.
  case_bool_decide as Hsort; [|done]. simpl negb in Hv. cbv iota in Hv. apply bind_Some in Hv as (parents & _ & [= <-]).
  assert (StronglySorted account_le bs) as Hs.
  { rewrite Hsort. apply (StronglySorted_merge_sort account_le). }
  pose proof (boundary_index_spec a bs Hs) as Hb.
  assert (is_Some (ids !! boundary_index a bs)) as [id Hid].
  { apply lookup_lt_is_Some. pose proof (bd_len _ _ _ Hb). lia. }
  assert (∀ i' id', match foldl (λ (m : gmap Z nat) x, <[x.2 := x.1]> m) ∅ (imap pair ids) !! id' with
    | Some i => inr i | None => inl (InvalidShardIdError id') end = inr i' ↔ ids !! i' = Some id') as Hindex.
  { intros i' id'. rewrite <-index_map_spec by done. destruct (foldl _ _ _ !! id'); split; intros; simplify_eq; done. }
  exists id, (boundary_index a bs). split_and!; [done|done| | | |].
  - intros j Hj. symmetry. by apply boundary_index_unique.
  - simpl. by apply Hindex.
  - simpl. by rewrite Hid.
  - intros i' id'. simpl. rewrite Hindex. destruct (ids !! i'); split; intros; simplify_eq; done.
Qed.
End layout.

#[local] Instance Z_total_order : TotalOrder Z.le.
Proof.
  split; [apply _|]. intros a b. unfold strict. destruct (Z.lt_trichotomy a b) as [?|[?|?]].
  - left. lia.
  - right. by left.
  - right. right. lia.
Qed.

Lemma account_assignment_witness :
  ∃ id i, account_id_to_shard_id Z.le (λ _, []) (v2_layout [10; 20] [3; 7; 5] None None) 15 = Some id ∧
    at_boundary Z.le 15 [10; 20] i ∧ (∀ j, at_boundary Z.le 15 [10; 20] j → j = i) ∧
    get_shard_index (v2_layout [10; 20] [3; 7; 5] None None) id = inr i ∧
    get_shard_id (v2_layout [10; 20] [3; 7; 5] None None) i = inr id ∧
    (∀ i' id', get_shard_id (v2_layout [10; 20] [3; 7; 5] None None) i' = inr id' ↔
      get_shard_index (v2_layout [10; 20] [3; 7; 5] None None) id' = inr i').
Proof.
  apply (account_assignment Z.le (λ _, []) [10; 20] [3; 7; 5] None); [by vm_compute|].
  apply (bool_decide_unpack _). by vm_compute.
Defined.

Lemma derive_splits_one_shard_witness :
  ∃ l p c1 c2, derive_shard_layout Z.le (v2_layout [10; 20] [3; 7; 5] None None) 15 = Some l ∧
    ranged Z.le l (add_boundary Z.le 15 [10; 20]) ∧ num_shards l = 4 ∧
    account_id_to_shard_id Z.le (λ _, []) (v2_layout [10; 20] [3; 7; 5] None None) 15 = Some p ∧
    get_children_shards_ids l p = Some [c1; c2] ∧ c1 ∉ [3; 7; 5] ∧ c2 ∉ [3; 7; 5] ∧
    ∀ a, ∃ old new,
      account_id_to_shard_id Z.le (λ _, []) (v2_layout [10; 20] [3; 7; 5] None None) a = Some old ∧
      account_id_to_shard_id Z.le (λ _, []) l a = Some new ∧
      get_parent_shard_id l new = Some (inr old) ∧
      new = (if bool_decide (old = p) then if bool_decide (strict Z.le a 15) then c1 else c2 else old).
Proof.
  apply (derive_splits_one_shard Z.le (λ _, []) (v2_layout [10; 20] [3; 7; 5] None None) [10; 20] 15).
  - constructor; [done|repeat constructor; lia|apply (bool_decide_unpack _); by vm_compute|done|].
    simpl. repeat constructor; lia.
  - apply (bool_decide_unpack _). by vm_compute.
  - simpl. repeat constructor; lia.
Defined.

(** * Keys of shards *)

Definition uid_ok (u : ShardUId) : Prop := in_u 32 (uid_version u) ∧ in_u 32 (uid_shard_id u).

Lemma uid_bytes u : uid_ok u → uid_try_from (to_bytes u) = Some u.
Proof.
  intros [Hv Hs]. unfold in_u, umax in *. unfold uid_try_from, to_bytes.
  rewrite bool_decide_true by (by rewrite length_app, !length_to_le_bytes). simpl negb. cbv iota.
  rewrite take_app_length', drop_app_length' by (by rewrite length_to_le_bytes).
  rewrite !from_to_le_bytes by (change (256 ^ Z.of_nat 4) with (2 ^ 32); lia). by destruct u.
Qed.

Lemma length_uid_bytes u : length (to_bytes u) = 8%nat.
Proof. unfold to_bytes. by rewrite length_app, !length_to_le_bytes. Qed.

(** A shard uid and a (block hash, shard uid) key are read back from their byte encodings. *)
Theorem uid_roundtrip u block_hash :
  uid_ok u → length block_hash = 32%nat →
  uid_try_from (to_bytes u) = Some u ∧
  get_block_shard_uid_rev (get_block_shard_uid block_hash u) = Some (block_hash, u).
Proof.
  intros Hu Hlen. split; [by apply uid_bytes|]. unfold get_block_shard_uid_rev, get_block_shard_uid.
  rewrite bool_decide_true by (by rewrite length_app, length_uid_bytes, Hlen). simpl negb. cbv iota.
  rewrite drop_app_length', take_app_length' by done. by rewrite uid_bytes.
Qed.

Lemma uid_roundtrip_witness :
  uid_try_from (to_bytes (mkShardUId 3 4000000000)) = Some (mkShardUId 3 4000000000) ∧
  get_block_shard_uid_rev (get_block_shard_uid (replicate 32 7) (mkShardUId 3 4000000000)) =
    Some (replicate 32 7, mkShardUId 3 4000000000).
Proof. apply uid_roundtrip; [by vm_compute|done]. Defined.

(** The value of a big-endian key. *)
Definition be_value (l : list Z) : Z := from_le_bytes (reverse l).

Lemma be_value_cons b l : be_value (b :: l) = b * 256 ^ Z.of_nat (length l) + be_value l.
Proof. unfold be_value. rewrite reverse_cons, from_le_bytes_app, length_reverse. simpl. lia. Qed.

Lemma be_value_bound l : Forall byte_ok l → 0 <= be_value l < 256 ^ Z.of_nat (length l).
Proof. intros Hl. unfold be_value. rewrite <-length_reverse. apply from_le_bytes_bound. by apply Forall_reverse. Qed.

Lemma lex_compare_be l : ∀ k,
  length l = length k → Forall byte_ok l → Forall byte_ok k → lex_compare l k = (be_value l ?= be_value k).
Proof.
  induction l as [|b l IH]; intros [|c k] Hlen Hl Hk; try done. simpl in Hlen.
  apply Forall_cons in Hl as [Hb Hl], Hk as [Hc Hk]. cbn [lex_compare]. rewrite !be_value_cons.
  assert (length l = length k) as Hlen' by lia. rewrite IH by done. rewrite Hlen'.
  pose proof (be_value_bound l Hl) as B1. pose proof (be_value_bound k Hk) as B2. rewrite Hlen' in B1.
  set (P := 256 ^ Z.of_nat (length k)) in *. set (x := be_value l) in *. set (y := be_value k) in *. clearbody P x y.
  destruct (Z.compare_spec b c) as [->|Hlt|Hgt].
  - destruct (Z.compare_spec x y), (Z.compare_spec (c * P + x) (c * P + y)); try done; lia.
  - symmetry. apply Z.compare_lt_iff. nia.
  - symmetry. apply Z.compare_gt_iff. nia.
Qed.

Lemma increment_rev_spec l : ∀ l',
  increment_rev l = Some l' → Forall byte_ok l →
  length l' = length l ∧ Forall byte_ok l' ∧ from_le_bytes l' = from_le_bytes l + 1.
Proof.
  induction l as [|b l IH]; intros l' Hl HF; [done|]. apply Forall_cons in HF as [Hb HF]. cbn [increment_rev] in Hl.
  destruct (Z.eqb_spec b 255) as [->|Hne].
  - apply bind_Some in Hl as (r & Hr & [= <-]). destruct (IH r Hr HF) as (Hlen & Hok & Hv).
    split_and!; [simpl; lia|by constructor|]. cbn [from_le_bytes]. lia.
  - injection Hl as <-. split_and!; [done|constructor; [|done]|].
    + unfold byte_ok in *. lia.
    + cbn [from_le_bytes]. lia.
Qed.

Lemma lex_compare_app_l p r k : length p = length k →
  lex_compare (p ++ r) k = match lex_compare p k with Eq => match r with [] => Eq | _ => Gt end | c => c end.
Proof.
  revert k. induction p as [|x p IH]; intros [|y k] Hlen; try done; [by destruct r|]. cbn. destruct (x ?= y); [|done..].
  apply IH. simpl in Hlen. lia.
Qed.

Lemma lex_compare_app_r p r k : length p = length k →
  lex_compare k (p ++ r) = match lex_compare k p with Eq => match r with [] => Eq | _ => Lt end | c => c end.
Proof.
  revert k. induction p as [|x p IH]; intros [|y k] Hlen; try done. cbn. destruct (y ?= x); [|done..].
  apply IH. simpl in Hlen. lia.
Qed.

(** The upper bound of a shard's keys is exact.  In the order of the database, the keys of eight or
    more bytes from the bytes of a shard uid up to but excluding [get_upper_bound_db_key] of
    them are exactly the keys that start with those bytes. *)
Theorem upper_bound_key_exact b ub key :
  length b = 8%nat → Forall byte_ok b → Forall byte_ok key → (8 <= length key)%nat →
  get_upper_bound_db_key b = Some ub →
  (take 8 key = b ↔ lex_compare b key ≠ Gt ∧ lex_compare key ub = Lt).
Proof.
  intros Hlen Hb Hkey Hlk Hub. unfold get_upper_bound_db_key in Hub. apply fmap_Some in Hub as (r & Hr & ->).
  destruct (increment_rev_spec _ _ Hr) as (Hl & Hok & Hv); [by apply Forall_reverse|]. rewrite length_reverse in Hl.
  rewrite <-(take_drop 8 key) in Hkey |- *. apply Forall_app in Hkey as [Hp _].
  set (p := take 8 key) in *. set (rest := drop 8 key) in *.
  assert (length p = 8%nat) as Hpl by (unfold p; rewrite length_take; lia).
  rewrite take_app_length' by done. rewrite lex_compare_app_l, lex_compare_app_r by (rewrite ?length_reverse; lia).
  rewrite (lex_compare_be b p) by (done || lia).
  rewrite (lex_compare_be p (reverse r)) by (rewrite ?length_reverse; done || lia || by apply Forall_reverse).
  assert (be_value (reverse r) = be_value b + 1) as Hval.
  { unfold be_value. rewrite reverse_involutive, Hv. done. }
  rewrite Hval. split.
  - intros ->. rewrite Z.compare_refl. split; [by destruct rest|].
    rewrite (proj2 (Z.compare_lt_iff _ _)) by lia. done.
  - intros [H1 H2]. assert (be_value p = be_value b) as Heq.
    { destruct (Z.compare_spec (be_value b) (be_value p)), (Z.compare_spec (be_value p) (be_value b + 1)); try lia; try done.
      by destruct rest. }
    apply lex_compare_eq. rewrite lex_compare_be by (done || lia). by apply Z.compare_eq_iff.
Qed.

Lemma upper_bound_key_exact_witness :
  take 8 [3; 0; 0; 0; 1; 0; 0; 255; 9] = [3; 0; 0; 0; 1; 0; 0; 255] ↔
  lex_compare [3; 0; 0; 0; 1; 0; 0; 255] [3; 0; 0; 0; 1; 0; 0; 255; 9] ≠ Gt ∧
  lex_compare [3; 0; 0; 0; 1; 0; 0; 255; 9] [3; 0; 0; 0; 1; 0; 1; 0] = Lt.
Proof.
  apply upper_bound_key_exact; [done| | |simpl; lia|by vm_compute];
    repeat constructor; by vm_compute.
Defined.
