(* ===== verification/Bandwidth.v ===== *)
(** The bandwidth scheduler.

    Models src/core/primitives/src/bandwidth_scheduler.rs (requests, parameters) and
    src/runtime/runtime/src/bandwidth_scheduler/{scheduler,distribute_remaining}.rs
    (the algorithm that grants cross-shard bandwidth at a height).

    The scheduler is a record passed through its operations; [None] is a panic (an index
    out of bounds, an arithmetic overflow) or the exhaustion of the fuel of the request
    loop, whose sufficiency is proved.  The shuffle of equal-priority requests (crates
    [rand] and [rand_chacha]) is a parameter. *)

From S2P Require Import Prelude ShardLayout.

Local Open Scope Z_scope.

(** * Parameters and requests *)

Record BandwidthSchedulerParams : Type := mkParams {
  base_bandwidth : Z;
  max_shard_bandwidth : Z;
  max_single_grant : Z;
  max_receipt_size : Z;
  max_allowance : Z
}.

(** [BandwidthSchedulerParams::calculate]; the assertions and the underflow of
    [num_shards - 1] are panics. *)
Definition calculate (max_shard_bandwidth max_single_grant max_allowance max_base_bandwidth max_receipt_size
    num_shards : Z) : option BandwidthSchedulerParams :=
  if negb (max_receipt_size <=? max_single_grant) then None
  else if negb (max_single_grant <=? max_shard_bandwidth) then None
  else
    available_bandwidth ← checked_sub max_shard_bandwidth max_single_grant;
    others ← checked_sub num_shards 1;
    let base_bandwidth := available_bandwidth / Z.max 1 others in
    let base_bandwidth := if max_base_bandwidth <? base_bandwidth then max_base_bandwidth else base_bandwidth in
    Some (mkParams base_bandwidth max_shard_bandwidth max_single_grant max_receipt_size max_allowance).

Definition BANDWIDTH_REQUEST_VALUES_NUM : nat := 40.
Definition BANDWIDTH_REQUEST_BITMAP_SIZE : nat := BANDWIDTH_REQUEST_VALUES_NUM / 8.

Definition interpolate (min max i n : Z) : option Z :=
  d ← checked_sub max min;
  p ← checked_mul 64 d i;
  q ← checked_div p n;
  checked_add 64 min q.

(** [BandwidthRequestValues::new] *)
Definition request_values (params : BandwidthSchedulerParams) : option (list Z) :=
  mapM (λ i : nat, interpolate (base_bandwidth params) (max_single_grant params) (Z.of_nat i + 1)
    (Z.of_nat BANDWIDTH_REQUEST_VALUES_NUM)) (seq 0 BANDWIDTH_REQUEST_VALUES_NUM).

(** The bitmap: bytes, least significant bit first. *)
Definition new_bitmap : list Z := replicate BANDWIDTH_REQUEST_BITMAP_SIZE 0.

Definition get_bit (data : list Z) (idx : nat) : option bool :=
  if (idx <? BANDWIDTH_REQUEST_VALUES_NUM)%nat then
    b ← data !! (idx / 8)%nat;
    Some (Z.testbit b (Z.of_nat (idx mod 8)))
  else None.

Definition set_bit (data : list Z) (idx : nat) (val : bool) : option (list Z) :=
  if (idx <? BANDWIDTH_REQUEST_VALUES_NUM)%nat then
    b ← data !! (idx / 8)%nat;
    let k := Z.of_nat (idx mod 8) in
    Some (<[(idx / 8)%nat := if val then Z.setbit b k else Z.clearbit b k]> data)
  else None.

Definition is_all_zeros (data : list Z) : bool := bool_decide (data = replicate BANDWIDTH_REQUEST_BITMAP_SIZE 0).

Record BandwidthRequest : Type := mkRequest { to_shard : Z; requested_values_bitmap : list Z }.

(** [while cur_value_idx < values.len() && values[cur_value_idx] < total_size] *)
Fixpoint advance (values : list Z) (fuel cur : nat) (total_size : Z) : nat :=
  match fuel with
  | O => cur
  | S fuel =>
      match values !! cur with
      | Some v => if v <? total_size then advance values fuel (S cur) total_size else cur
      | None => cur
      end
  end.

(** The loop over the receipt sizes; the sizes are read from an iterator that may fail. *)
Fixpoint sizes_loop {E} (params : BandwidthSchedulerParams) (values : list Z) (sizes : list (E + Z))
    (total_size : Z) (cur : nat) (bitmap : list Z) : option (E + list Z) :=
  match sizes with
  | [] => Some (inr bitmap)
  | inl e :: _ => Some (inl e)
  | inr receipt_size :: sizes =>
      total_size ← checked_add 64 total_size receipt_size;
      if total_size <=? base_bandwidth params then sizes_loop params values sizes total_size cur bitmap
      else
        let cur := advance values (length values) cur total_size in
        if bool_decide (cur = length values) then Some (inr bitmap)
        else
          bitmap ← set_bit bitmap cur true;
          sizes_loop params values sizes total_size cur bitmap
  end.

Definition make_from_receipt_sizes {E} (to_shard : Z) (sizes : list (E + Z)) (params : BandwidthSchedulerParams)
    : option (E + option BandwidthRequest) :=
  values ← request_values params;
  r ← sizes_loop params values sizes 0 0 new_bitmap;
  Some match r with
       | inl e => inl e
       | inr bitmap =>
           if is_all_zeros bitmap then inr None
           else inr (Some (mkRequest (to_shard mod 2 ^ 16) bitmap))
       end.

Record LinkAllowance : Type := mkLinkAllowance { la_sender : Z; la_receiver : Z; la_allowance : Z }.

(** * Maps indexed by shards and by links *)

Abbreviation ShardIndexMap T := (list (option T)).

Definition index_map_new {T} (n : nat) : ShardIndexMap T := replicate n None.

(** The outer option is the bounds check. *)
Definition index_map_get {T} (m : ShardIndexMap T) (index : nat) : option (option T) := m !! index.

Definition index_map_insert {T} (m : ShardIndexMap T) (index : nat) (v : T) : option (ShardIndexMap T) :=
  if (index <? length m)%nat then Some (<[index := Some v]> m) else None.

Record ShardLink : Type := mkLink { sender : nat; receiver : nat }.

#[export] Instance ShardLink_eq_dec : EqDecision ShardLink.
Proof. solve_decision. Defined.

Record ShardLinkMap (T : Type) : Type := mkLinkMap { link_data : list (option T); num_indexes : nat }.
Arguments mkLinkMap {T}.
Arguments link_data {T}.
Arguments num_indexes {T}.

Definition link_map_new {T} (n : nat) : ShardLinkMap T := mkLinkMap (replicate (n * n) None) n.

Definition data_index_for_link {T} (m : ShardLinkMap T) (link : ShardLink) : nat :=
  sender link * num_indexes m + receiver link.

Definition link_map_get {T} (m : ShardLinkMap T) (link : ShardLink) : option (option T) :=
  link_data m !! data_index_for_link m link.

Definition link_map_insert {T} (m : ShardLinkMap T) (link : ShardLink) (v : T) : option (ShardLinkMap T) :=
  let i := data_index_for_link m link in
  if (i <? length (link_data m))%nat then Some (mkLinkMap (<[i := Some v]> (link_data m)) (num_indexes m)) else None.

(** * Distribution of the remaining bandwidth *)

Record EndpointInfo : Type := mkEndpoint { bandwidth_left : Z; links_num : Z }.

Definition average_link_bandwidth (e : EndpointInfo) : Z :=
  if links_num e =? 0 then 0 else bandwidth_left e / links_num e.

Definition link_proposition (e : EndpointInfo) : option Z := checked_div (bandwidth_left e) (links_num e).

(** [get(..).copied().unwrap_or(0)] on budgets, [*get(..).unwrap_or(&false)] on the allowed links. *)
Definition budget_of (m : ShardIndexMap Z) (i : nat) : option Z := default 0 <$> index_map_get m i.
Definition allowed_of (m : ShardLinkMap bool) (link : ShardLink) : option bool := default false <$> link_map_get m link.

Fixpoint init_infos (indexes : list nat) (budgets : ShardIndexMap Z) (infos : ShardIndexMap EndpointInfo)
    : option (ShardIndexMap EndpointInfo) :=
  match indexes with
  | [] => Some infos
  | i :: indexes =>
      b ← budget_of budgets i;
      infos ← index_map_insert infos i (mkEndpoint b 0);
      init_infos indexes budgets infos
  end.

(** [infos.get_mut(&i).unwrap()] *)
Definition info_of (infos : ShardIndexMap EndpointInfo) (i : nat) : option EndpointInfo := e ← infos !! i; e.

Definition count_link (infos : ShardIndexMap EndpointInfo) (i : nat) : option (ShardIndexMap EndpointInfo) :=
  e ← info_of infos i;
  num ← checked_add 64 (links_num e) 1;
  index_map_insert infos i (mkEndpoint (bandwidth_left e) num).

Fixpoint count_links (links : list ShardLink) (allowed : ShardLinkMap bool)
    (senders receivers : ShardIndexMap EndpointInfo)
    : option (ShardIndexMap EndpointInfo * ShardIndexMap EndpointInfo) :=
  match links with
  | [] => Some (senders, receivers)
  | link :: links =>
      ok ← allowed_of allowed link;
      if (ok : bool) then
        senders ← count_link senders (sender link);
        receivers ← count_link receivers (receiver link);
        count_links links allowed senders receivers
      else count_links links allowed senders receivers
  end.

Definition use_link (infos : ShardIndexMap EndpointInfo) (i : nat) (e : EndpointInfo) (granted : Z)
    : option (ShardIndexMap EndpointInfo) :=
  left ← checked_sub (bandwidth_left e) granted;
  num ← checked_sub (links_num e) 1;
  index_map_insert infos i (mkEndpoint left num).

Record DistributeState : Type := mkDistribute {
  sender_infos : ShardIndexMap EndpointInfo;
  receiver_infos : ShardIndexMap EndpointInfo;
  bandwidth_grants : ShardLinkMap Z
}.

(** The inner loop, for one sender; the early return is the [break]. *)
Fixpoint distribute_receivers (allowed : ShardLinkMap bool) (s : nat) (receivers : list nat) (st : DistributeState)
    : option DistributeState :=
  match receivers with
  | [] => Some st
  | r :: receivers =>
      ok ← allowed_of allowed (mkLink s r);
      if negb (ok : bool) then distribute_receivers allowed s receivers st
      else
        sender_info ← info_of (sender_infos st) s;
        receiver_info ← info_of (receiver_infos st) r;
        if (links_num sender_info =? 0) || (links_num receiver_info =? 0) then Some st
        else
          sender_proposition ← link_proposition sender_info;
          receiver_proposition ← link_proposition receiver_info;
          let granted := Z.min sender_proposition receiver_proposition in
          grants ← link_map_insert (bandwidth_grants st) (mkLink s r) granted;
          senders ← use_link (sender_infos st) s sender_info granted;
          receiver_infos ← use_link (receiver_infos st) r receiver_info granted;
          distribute_receivers allowed s receivers (mkDistribute senders receiver_infos grants)
  end.

Fixpoint distribute_senders (allowed : ShardLinkMap bool) (senders receivers : list nat) (st : DistributeState)
    : option DistributeState :=
  match senders with
  | [] => Some st
  | s :: senders =>
      _ ← info_of (sender_infos st) s;
      st ← distribute_receivers allowed s receivers st;
      distribute_senders allowed senders receivers st
  end.

(** All links, row by row. *)
Definition all_links (n : nat) : list ShardLink := seq 0 n ≫= λ s, (λ r, mkLink s r) <$> seq 0 n.

Definition by_average (infos : ShardIndexMap EndpointInfo) (indexes : list nat) : option (list nat) :=
  keyed ← mapM (λ i, e ← info_of infos i; Some (average_link_bandwidth e, i)) indexes;
  Some (sort_by_key fst keyed).*2.

Definition distribute_remaining_bandwidth (sender_budgets receiver_budgets : ShardIndexMap Z)
    (is_link_allowed : ShardLinkMap bool) (n : nat) : option (ShardLinkMap Z) :=
  senders ← init_infos (seq 0 n) sender_budgets (index_map_new n);
  receivers ← init_infos (seq 0 n) receiver_budgets (index_map_new n);
  '(senders, receivers) ← count_links (all_links n) is_link_allowed senders receivers;
  senders_by_avg ← by_average senders (seq 0 n);
  receivers_by_avg ← by_average receivers (seq 0 n);
  st ← distribute_senders is_link_allowed senders_by_avg receivers_by_avg
         (mkDistribute senders receivers (link_map_new n));
  Some (bandwidth_grants st).

(** * The scheduler *)

Record ShardStatus : Type := mkShardStatus {
  is_fully_congested : bool;
  last_chunk_missing : bool;
  allowed_sender_shard_index : option nat
}.

Record SchedulerBandwidthRequest : Type := mkSchedulerRequest {
  link : ShardLink;
  bandwidth_increases : list Z
}.

(** The loop over the bits of a request: the increases over [current_total]. *)
Fixpoint increases_loop (bitmap values : list Z) (idxs : list nat) (current_total : Z) : option (list Z) :=
  match idxs with
  | [] => Some []
  | idx :: idxs =>
      requested ← get_bit bitmap idx;
      if negb (requested : bool) then increases_loop bitmap values idxs current_total
      else
        requested_value ← values !! idx;
        if requested_value <=? current_total then increases_loop bitmap values idxs current_total
        else
          increase ← checked_sub requested_value current_total;
          rest ← increases_loop bitmap values idxs requested_value;
          Some (increase :: rest)
  end.

(** The requests by allowance. *)
Abbreviation Queue := (gmap Z (list SchedulerBandwidthRequest)).

Section scheduler.
Context {AccountId : Type}.
Abbreviation Layout := (ShardLayout (AccountId := AccountId)).

(** The outer option is a panic. *)
Definition new_request (sender_shard : Z) (request : BandwidthRequest) (params : BandwidthSchedulerParams)
    (layout : Layout) : option (option SchedulerBandwidthRequest) :=
  match get_shard_index layout sender_shard with
  | inl _ => Some None
  | inr sender_index =>
      match get_shard_index layout (to_shard request) with
      | inl _ => Some None
      | inr receiver_index =>
          values ← request_values params;
          increases ← increases_loop (requested_values_bitmap request) values (seq 0 BANDWIDTH_REQUEST_VALUES_NUM)
            (base_bandwidth params);
          Some (if bool_decide (increases = []) then None
                else Some (mkSchedulerRequest (mkLink sender_index receiver_index) increases))
      end
  end.

(** The shuffle of requests with the same allowance. *)
Context {Rng : Type}.
Variable shuffle : Rng → list SchedulerBandwidthRequest → list SchedulerBandwidthRequest * Rng.

Record BandwidthScheduler : Type := mkScheduler {
  shard_layout : Layout;
  params : BandwidthSchedulerParams;
  is_link_allowed_map : ShardLinkMap bool;
  sender_budget : ShardIndexMap Z;
  receiver_budget : ShardIndexMap Z;
  link_allowances : ShardLinkMap Z;
  granted_bandwidth : ShardLinkMap Z;
  rng : Rng
}.

Definition set_budgets (s : BandwidthScheduler) (sb rb : ShardIndexMap Z) : BandwidthScheduler :=
  mkScheduler (shard_layout s) (params s) (is_link_allowed_map s) sb rb (link_allowances s) (granted_bandwidth s) (rng s).
Definition set_allowances (s : BandwidthScheduler) (a : ShardLinkMap Z) : BandwidthScheduler :=
  mkScheduler (shard_layout s) (params s) (is_link_allowed_map s) (sender_budget s) (receiver_budget s) a
    (granted_bandwidth s) (rng s).
Definition set_granted (s : BandwidthScheduler) (g : ShardLinkMap Z) : BandwidthScheduler :=
  mkScheduler (shard_layout s) (params s) (is_link_allowed_map s) (sender_budget s) (receiver_budget s)
    (link_allowances s) g (rng s).
Definition set_rng (s : BandwidthScheduler) (r : Rng) : BandwidthScheduler :=
  mkScheduler (shard_layout s) (params s) (is_link_allowed_map s) (sender_budget s) (receiver_budget s)
    (link_allowances s) (granted_bandwidth s) r.

Definition num_links (s : BandwidthScheduler) : nat := Z.to_nat (num_shards (shard_layout s)).

Definition iter_links (s : BandwidthScheduler) : list ShardLink := all_links (num_links s).

Definition init_budgets (s : BandwidthScheduler) : option BandwidthScheduler :=
  let full := λ i m, index_map_insert m i (max_shard_bandwidth (params s)) in
  sb ← for_each full (shard_indexes (shard_layout s)) (sender_budget s);
  rb ← for_each full (shard_indexes (shard_layout s)) (receiver_budget s);
  Some (set_budgets s sb rb).

Definition default_link_allowance : Z := 0.

Definition get_allowance (s : BandwidthScheduler) (l : ShardLink) : option Z :=
  default default_link_allowance <$> link_map_get (link_allowances s) l.

Definition increase_allowance (l : ShardLink) (increase : Z) (s : BandwidthScheduler) : option BandwidthScheduler :=
  current_allowance ← get_allowance s l;
  let new_allowance := saturating_add 64 current_allowance increase in
  let new_allowance := if max_allowance (params s) <? new_allowance then max_allowance (params s) else new_allowance in
  a ← link_map_insert (link_allowances s) l new_allowance;
  Some (set_allowances s a).

Definition decrease_allowance (l : ShardLink) (decrease : Z) (s : BandwidthScheduler) : option BandwidthScheduler :=
  current_allowance ← get_allowance s l;
  a ← link_map_insert (link_allowances s) l (saturating_sub current_allowance decrease);
  Some (set_allowances s a).

Definition increase_allowances (s : BandwidthScheduler) : option BandwidthScheduler :=
  fair_link_bandwidth ← checked_div (max_shard_bandwidth (params s)) (num_shards (shard_layout s));
  for_each (λ l s, increase_allowance l fair_link_bandwidth s) (iter_links s) s.

Definition grant_more_bandwidth (l : ShardLink) (bandwidth : Z) (s : BandwidthScheduler) : option BandwidthScheduler :=
  current ← link_map_get (granted_bandwidth s) l;
  let new_granted := default (umax 64) (checked_add 64 (default 0 current) bandwidth) in
  g ← link_map_insert (granted_bandwidth s) l new_granted;
  Some (set_granted s g).

Definition is_link_allowed (s : BandwidthScheduler) (l : ShardLink) : option bool :=
  allowed_of (is_link_allowed_map s) l.

(** The boolean is [TryGrantOutcome]: true for [Granted]. *)
Definition try_grant_bandwidth (l : ShardLink) (bandwidth : Z) (s : BandwidthScheduler)
    : option (BandwidthScheduler * bool) :=
  ok ← is_link_allowed s l;
  if negb (ok : bool) then Some (s, false)
  else
    sb ← budget_of (sender_budget s) (sender l);
    rb ← budget_of (receiver_budget s) (receiver l);
    if (sb <? bandwidth) || (rb <? bandwidth) then Some (s, false)
    else
      sb_left ← checked_sub sb bandwidth;
      rb_left ← checked_sub rb bandwidth;
      sender_budget ← index_map_insert (sender_budget s) (sender l) sb_left;
      receiver_budget ← index_map_insert (receiver_budget s) (receiver l) rb_left;
      s ← decrease_allowance l bandwidth (set_budgets s sender_budget receiver_budget);
      s ← grant_more_bandwidth l bandwidth s;
      Some (s, true).

Definition grant_base_bandwidth (s : BandwidthScheduler) : option BandwidthScheduler :=
  for_each (λ l s, fst <$> try_grant_bandwidth l (base_bandwidth (params s)) s) (iter_links s) s.

(** [entry(allowance).or_insert_with(Vec::new).push(request)] *)
Definition push_request (s : BandwidthScheduler) (request : SchedulerBandwidthRequest) (q : Queue) : option Queue :=
  a ← get_allowance s (link request);
  Some (<[a := default [] (q !! a) ++ [request]]> q).

Definition pop_last (q : Queue) : option (list SchedulerBandwidthRequest * Queue) :=
  match last (entries q) with
  | Some (a, requests) => Some (requests, delete a q)
  | None => None
  end.

Definition process_request (request : SchedulerBandwidthRequest) (sq : BandwidthScheduler * Queue)
    : option (BandwidthScheduler * Queue) :=
  let '(s, q) := sq in
  match bandwidth_increases request with
  | [] => Some (s, q)
  | bandwidth_increase :: rest =>
      '(s, granted) ← try_grant_bandwidth (link request) bandwidth_increase s;
      if (granted : bool) then
        if bool_decide (rest = []) then Some (s, q)
        else q ← push_request s (mkSchedulerRequest (link request) rest) q; Some (s, q)
      else Some (s, q)
  end.

Fixpoint requests_loop (fuel : nat) (s : BandwidthScheduler) (q : Queue) : option BandwidthScheduler :=
  match pop_last q with
  | None => Some s
  | Some (requests, q) =>
      match fuel with
      | O => None
      | S fuel =>
          let '(requests, r) := shuffle (rng s) requests in
          '(s, q) ← for_each process_request requests (set_rng s r, q);
          requests_loop fuel s q
      end
  end.

(** Each turn of the loop consumes at least one increase. *)
Definition total_increases (requests : list SchedulerBandwidthRequest) : nat :=
  sum_list ((λ r, length (bandwidth_increases r)) <$> requests).

Definition process_bandwidth_requests (requests : list SchedulerBandwidthRequest) (s : BandwidthScheduler)
    : option BandwidthScheduler :=
  q ← for_each (push_request s) requests ∅;
  requests_loop (total_increases requests) s q.

Definition distribute_remaining (s : BandwidthScheduler) : option BandwidthScheduler :=
  remaining ← distribute_remaining_bandwidth (sender_budget s) (receiver_budget s) (is_link_allowed_map s) (num_links s);
  for_each (λ l s,
    grant ← link_map_get remaining l;
    match grant with
    | Some g => grant_more_bandwidth l g s
    | None => Some s
    end) (iter_links s) s.

Definition unwrap {E A} (r : E + A) : option A := match r with inl _ => None | inr a => Some a end.

Definition get_final_granted_bandwidth (s : BandwidthScheduler) : option (gmap (Z * Z) Z) :=
  for_each (λ l granted,
    g ← link_map_get (granted_bandwidth s) l;
    match g with
    | Some g =>
        from ← unwrap (get_shard_id (shard_layout s) (sender l));
        to ← unwrap (get_shard_id (shard_layout s) (receiver l));
        Some (<[(from, to) := g]> granted)
    | None => Some granted
    end) (iter_links s) ∅.

Definition get_granted_bandwidth (granted : gmap (Z * Z) Z) (from to : Z) : Z := default 0 (granted !! (from, to)).

Definition calculate_is_link_allowed (sender_index receiver_index : nat) (shards_status : ShardIndexMap ShardStatus)
    : option bool :=
  receiver_status ← index_map_get shards_status receiver_index;
  match receiver_status with
  | None => Some false
  | Some receiver_status =>
      if last_chunk_missing receiver_status then Some false
      else
        sender_status ← index_map_get shards_status sender_index;
        if (match sender_status with Some st => last_chunk_missing st | None => false end) then Some false
        else if is_fully_congested receiver_status then
          Some (bool_decide (Some sender_index = allowed_sender_shard_index receiver_status))
        else Some true
  end.

Definition update_scheduler_state (s : BandwidthScheduler) : option (list LinkAllowance) :=
  for_each (λ l acc,
    a ← link_map_get (link_allowances s) l;
    match a with
    | Some a =>
        from ← unwrap (get_shard_id (shard_layout s) (sender l));
        to ← unwrap (get_shard_id (shard_layout s) (receiver l));
        Some (acc ++ [mkLinkAllowance from to a])
    | None => Some acc
    end) (iter_links s) [].

Definition schedule_bandwidth (requests : list SchedulerBandwidthRequest) (s : BandwidthScheduler)
    : option (BandwidthScheduler * gmap (Z * Z) Z) :=
  s ← init_budgets s;
  s ← increase_allowances s;
  s ← grant_base_bandwidth s;
  s ← process_bandwidth_requests requests s;
  s ← distribute_remaining s;
  granted ← get_final_granted_bandwidth s;
  Some (s, granted).

Definition load_allowance (layout : Layout) (la : LinkAllowance) (m : ShardLinkMap Z) : option (ShardLinkMap Z) :=
  match get_shard_index layout (la_sender la), get_shard_index layout (la_receiver la) with
  | inr s, inr r => link_map_insert m (mkLink s r) (la_allowance la)
  | _, _ => Some m
  end.

Definition load_status (layout : Layout) (st : Z * ShardStatus) (m : ShardIndexMap ShardStatus)
    : option (ShardIndexMap ShardStatus) :=
  match get_shard_index layout st.1 with
  | inr i => index_map_insert m i st.2
  | inl _ => Some m
  end.

Definition load_allowed (statuses : ShardIndexMap ShardStatus) (l : ShardLink) (m : ShardLinkMap bool)
    : option (ShardLinkMap bool) :=
  ok ← calculate_is_link_allowed (sender l) (receiver l) statuses;
  link_map_insert m l ok.

Definition load_request (params : BandwidthSchedulerParams) (layout : Layout) (from : Z) (request : BandwidthRequest)
    (acc : list SchedulerBandwidthRequest) : option (list SchedulerBandwidthRequest) :=
  r ← new_request from request params layout;
  Some (acc ++ option_list r).

(** [BandwidthScheduler::run]: the new allowances and the grants.  [block_requests] and
    [shards_status] are the entries of the maps in the order of the shard ids. *)
Definition run (layout : Layout) (allowances : list LinkAllowance) (params : BandwidthSchedulerParams)
    (block_requests : list (Z * list BandwidthRequest)) (shards_status : list (Z * ShardStatus)) (seed : Rng)
    : option (list LinkAllowance * gmap (Z * Z) Z) :=
  if num_shards layout =? 0 then Some (allowances, ∅)
  else
    let n := Z.to_nat (num_shards layout) in
    link_allowances ← for_each (load_allowance layout) allowances (link_map_new n);
    statuses ← for_each (load_status layout) shards_status (index_map_new n);
    allowed ← for_each (load_allowed statuses) (all_links n) (link_map_new n);
    requests ← for_each (λ kv, for_each (load_request params layout kv.1) kv.2) block_requests [];
    let s := mkScheduler layout params allowed (index_map_new n) (index_map_new n) link_allowances (link_map_new n) seed in
    '(s, grants) ← schedule_bandwidth requests s;
    allowances ← update_scheduler_state s;
    Some (allowances, grants).
End scheduler.

(** Bandwidth requests as they are recorded, by sender and receiver. *)
Definition get_requested_values (request : BandwidthRequest) (params : BandwidthSchedulerParams) : option (list Z) :=
  values ← request_values params;
  for_each (λ i res,
    bit ← get_bit (requested_values_bitmap request) i;
    if (bit : bool) then v ← values !! i; Some (res ++ [v]) else Some res)
    (seq 0 BANDWIDTH_REQUEST_VALUES_NUM) [].

Definition add_requests_to_map (requests : list BandwidthRequest) (from_shard : Z) (params : BandwidthSchedulerParams)
    (m : gmap (Z * Z) (list Z)) : option (gmap (Z * Z) (list Z)) :=
  for_each (λ request m, v ← get_requested_values request params; Some (<[(from_shard, to_shard request) := v]> m)) requests m.
