(* ===== verification/BandwidthCorrect.v ===== *)
(** Correctness of the bandwidth scheduler of Bandwidth.v: the grants respect the limits of
    every sender and every receiver, forbidden links get nothing, allowed links get the base
    bandwidth, the allowances stay in range, and no operation panics. *)

From S2P Require Import Prelude ShardLayout Bandwidth.

Local Open Scope Z_scope.

(** * Maps of links *)

Section link_maps.
Variable n : nat.

Definition in_range (l : ShardLink) : Prop := (sender l < n)%nat ∧ (receiver l < n)%nat.

Definition lmap_ok {T} (m : ShardLinkMap T) : Prop := num_indexes m = n ∧ length (link_data m) = (n * n)%nat.

Lemma link_index {T} (m : ShardLinkMap T) l : lmap_ok m → in_range l → (data_index_for_link m l < length (link_data m))%nat.
Proof. intros [Hn Hl] [Hs Hr]. unfold data_index_for_link. rewrite Hn, Hl. nia. Qed.

Lemma link_index_inj {T} (m : ShardLinkMap T) l l' :
  lmap_ok m → in_range l → in_range l' → data_index_for_link m l = data_index_for_link m l' → l = l'.
Proof.
  intros [Hn _] [Hs Hr] [Hs' Hr'] E. unfold data_index_for_link in E. rewrite Hn in E.
  destruct l as [s r], l' as [s' r']. simpl in *. assert (s = s') as -> by nia. f_equal. nia.
Qed.

Lemma new_lmap_ok {T} : lmap_ok (link_map_new n : ShardLinkMap T).
Proof. split; [done|]. simpl. apply length_replicate. Qed.

Lemma link_get_ok {T} (m : ShardLinkMap T) l : lmap_ok m → in_range l → is_Some (link_map_get m l).
Proof. intros Hm Hl. apply lookup_lt_is_Some. by apply link_index. Qed.

Lemma link_get_new {T} l : in_range l → link_map_get (link_map_new n : ShardLinkMap T) l = Some None.
Proof.
  intros Hl. unfold link_map_get. simpl. apply lookup_replicate_2.
  pose proof (link_index (link_map_new n : ShardLinkMap T) l new_lmap_ok Hl) as Hi. simpl in Hi.
  by rewrite length_replicate in Hi.
Qed.

Lemma link_insert_ok {T} (m : ShardLinkMap T) l v :
  lmap_ok m → in_range l →
  ∃ m', link_map_insert m l v = Some m' ∧ lmap_ok m' ∧ link_map_get m' l = Some (Some v) ∧
    ∀ l', in_range l' → l' ≠ l → link_map_get m' l' = link_map_get m l'.
Proof.
  intros Hm Hl. unfold link_map_insert. pose proof (link_index m l Hm Hl) as Hi.
  rewrite (proj2 (Nat.ltb_lt _ _)) by done. eexists. split; [done|]. split_and!.
  - destruct Hm. split; [done|]. simpl. by rewrite length_insert.
  - unfold link_map_get, data_index_for_link. simpl. by apply list_lookup_insert_eq.
  - intros l' Hl' Hne. unfold link_map_get, data_index_for_link. simpl. apply list_lookup_insert_ne.
    intros E. apply Hne. symmetry. by apply (link_index_inj m).
Qed.

Lemma elem_of_all_links l : l ∈ all_links n ↔ in_range l.
Proof.
  unfold all_links, in_range. rewrite list_elem_of_bind. setoid_rewrite list_elem_of_fmap. setoid_rewrite elem_of_seq.
  destruct l as [s r]; simpl. split; [intros (s' & (r' & [= -> ->] & ?) & ?); lia|].
  intros [Hs Hr]. exists s. split; [|lia]. exists r. split; [done|lia].
Qed.

(** The bandwidth on a link, zero when nothing was recorded. *)
Definition lval (m : ShardLinkMap Z) (l : ShardLink) : Z := default 0 (default None (link_map_get m l)).

Definition row (m : ShardLinkMap Z) (s : nat) : Z := sum_Z ((λ r, lval m (mkLink s r)) <$> seq 0 n).
Definition col (m : ShardLinkMap Z) (r : nat) : Z := sum_Z ((λ s, lval m (mkLink s r)) <$> seq 0 n).

Lemma sum_seq_ext (f g : nat → Z) k : (∀ i, (i < k)%nat → f i = g i) → sum_Z (f <$> seq 0 k) = sum_Z (g <$> seq 0 k).
Proof. intros Hfg. f_equal. apply list_fmap_ext. intros i x Hx%lookup_seq. apply Hfg. lia. Qed.

Lemma sum_seq_update (f g : nat → Z) k j :
  (j < k)%nat → (∀ i, (i < k)%nat → i ≠ j → g i = f i) →
  sum_Z (g <$> seq 0 k) = sum_Z (f <$> seq 0 k) + (g j - f j).
Proof.
  intros Hj Hg. replace k with (j + S (k - S j))%nat by lia. rewrite !seq_app, !fmap_app, !sum_Z_app. cbn [seq fmap list_fmap].
  rewrite (sum_seq_ext g f j) by (intros; apply Hg; lia).
  assert (∀ h : nat → Z, sum_Z (h <$> seq (S j) (k - S j)) = sum_Z ((λ i, h (S j + i)%nat) <$> seq 0 (k - S j))) as Hs.
  { intros h. rewrite <-(Nat.add_0_r (S j)) at 1. by rewrite <-fmap_add_seq, <-list_fmap_compose. }
  rewrite !sum_Z_cons. simpl Nat.add. rewrite !Hs.
  rewrite (sum_seq_ext (λ i, g (S j + i)%nat) (λ i, f (S j + i)%nat)) by (intros; apply Hg; lia). simpl. lia.
Qed.

Lemma row_update m m' l v :
  in_range l → lval m' l = v → (∀ l', in_range l' → l' ≠ l → lval m' l' = lval m l') →
  ∀ s, (s < n)%nat → row m' s = row m s + (if bool_decide (s = sender l) then v - lval m l else 0).
Proof.
  intros [Hs Hr] Hv Hother s Hsn. unfold row. case_bool_decide as Heq.
  - subst s. rewrite (sum_seq_update (λ r, lval m (mkLink (sender l) r)) _ n (receiver l)); [|done|].
    + destruct l; simpl in *. by rewrite Hv.
    + intros r Hrn Hne. apply Hother; [done|]. destruct l; simpl in *. congruence.
  - rewrite Z.add_0_r. apply sum_seq_ext. intros r Hrn. apply Hother; [done|]. intros <-. done.
Qed.

Lemma col_update m m' l v :
  in_range l → lval m' l = v → (∀ l', in_range l' → l' ≠ l → lval m' l' = lval m l') →
  ∀ r, (r < n)%nat → col m' r = col m r + (if bool_decide (r = receiver l) then v - lval m l else 0).
Proof.
  intros [Hs Hr] Hv Hother r Hrn. unfold col. case_bool_decide as Heq.
  - subst r. rewrite (sum_seq_update (λ s, lval m (mkLink s (receiver l))) _ n (sender l)); [|done|].
    + destruct l; simpl in *. by rewrite Hv.
    + intros s Hsn Hne. apply Hother; [done|]. destruct l; simpl in *. congruence.
  - rewrite Z.add_0_r. apply sum_seq_ext. intros s Hsn. apply Hother; [done|]. intros <-. done.
Qed.

Lemma sum_seq_le (f : nat → Z) k B : (∀ i, (i < k)%nat → f i <= B) → sum_Z (f <$> seq 0 k) <= Z.of_nat k * B.
Proof.
  induction k as [|k IH]; intros Hf; [done|]. rewrite seq_S, fmap_app, sum_Z_app. cbn [fmap list_fmap]. rewrite sum_Z_cons.
  specialize (IH (λ i Hi, Hf i (Nat.lt_lt_succ_r _ _ Hi))). specialize (Hf k (Nat.lt_succ_diag_r k)). simpl in *. lia.
Qed.

(** A line of links that each hold at most [B], one of them nothing. *)
Lemma sum_seq_hole (f : nat → Z) k j B :
  (j < k)%nat → (∀ i, (i < k)%nat → f i <= B) → f j = 0 → sum_Z (f <$> seq 0 k) <= (Z.of_nat k - 1) * B.
Proof.
  intros Hj Hf H0. pose proof (sum_seq_update f (λ i, if bool_decide (i = j) then B else f i) k j Hj) as Hu.
  cbv beta in Hu. rewrite bool_decide_true in Hu by done. rewrite H0 in Hu.
  assert (sum_Z ((λ i, if bool_decide (i = j) then B else f i) <$> seq 0 k) <= Z.of_nat k * B) as Hle.
  { apply sum_seq_le. intros i Hi. case_bool_decide; [lia|by apply Hf]. }
  rewrite Hu in Hle; [lia|]. intros i _ Hne. by rewrite bool_decide_false.
Qed.

Lemma row_le m s B : (s < n)%nat → (∀ l, in_range l → lval m l <= B) → row m s <= Z.of_nat n * B.
Proof. intros Hs Hm. apply sum_seq_le. intros r Hr. by apply Hm. Qed.

Lemma col_le m r B : (r < n)%nat → (∀ l, in_range l → lval m l <= B) → col m r <= Z.of_nat n * B.
Proof. intros Hr Hm. apply sum_seq_le. intros s Hs. by apply Hm. Qed.

Lemma NoDup_all_links : NoDup (all_links n).
Proof.
  unfold all_links. apply NoDup_bind.
  - intros s1 s2 l _ _ Hl1 Hl2. rewrite list_elem_of_fmap in Hl1, Hl2. naive_solver.
  - intros s _. apply NoDup_fmap_2; [by intros r1 r2 [= ?]|]. apply NoDup_seq.
  - apply NoDup_seq.
Qed.

Lemma lval_le_row m l : in_range l → (∀ l', in_range l' → 0 <= lval m l') → lval m l <= row m (sender l).
Proof.
  intros [Hs Hr] Hnn. unfold row. destruct l as [s r]. simpl in *.
  apply sum_Z_elem.
  - apply Forall_fmap, Forall_forall. intros r' Hr'%elem_of_seq. apply Hnn. split; simpl; lia.
  - apply list_elem_of_fmap. exists r. split; [done|]. apply elem_of_seq. lia.
Qed.

Lemma row_new s : (s < n)%nat → row (link_map_new n) s = 0.
Proof.
  intros Hs. unfold row. transitivity (sum_Z ((λ _ : nat, 0) <$> seq 0 n)).
  - apply sum_seq_ext. intros r Hr. unfold lval. by rewrite link_get_new.
  - apply sum_Z_zero.
Qed.

Lemma col_new r : (r < n)%nat → col (link_map_new n) r = 0.
Proof.
  intros Hr. unfold col. transitivity (sum_Z ((λ _ : nat, 0) <$> seq 0 n)).
  - apply sum_seq_ext. intros s Hs. unfold lval. by rewrite link_get_new.
  - apply sum_Z_zero.
Qed.
End link_maps.

(** * Budgets *)

Section budgets.
Variable n : nat.

(** Each index has a budget left, at least zero; what was used adds up to [mx]. *)
Definition budgets_ok (mx : Z) (used : nat → Z) (b : ShardIndexMap Z) : Prop :=
  length b = n ∧ ∀ i, (i < n)%nat → ∃ x, b !! i = Some (Some x) ∧ 0 <= x ∧ x + used i = mx.

Lemma budget_of_ok mx used b i :
  budgets_ok mx used b → (i < n)%nat → ∃ x, budget_of b i = Some x ∧ 0 <= x ∧ x + used i = mx.
Proof.
  intros [Hl Hb] Hi. destruct (Hb i Hi) as (x & Hx & ?). exists x. split; [|done].
  unfold budget_of, index_map_get. by rewrite Hx.
Qed.

Lemma use_budget mx used used' b i x y :
  budgets_ok mx used b → (i < n)%nat → budget_of b i = Some x → 0 <= y <= x →
  (∀ j, (j < n)%nat → used' j = used j + if bool_decide (j = i) then y else 0) →
  ∃ b', index_map_insert b i (x - y) = Some b' ∧ budgets_ok mx used' b'.
Proof.
  intros [Hl Hb] Hi Hx Hy Hused. unfold index_map_insert. rewrite Hl, (proj2 (Nat.ltb_lt _ _)) by done.
  eexists. split; [done|]. split; [by rewrite length_insert|]. intros j Hj. destruct (Hb i Hi) as (x' & Hx' & ? & Hsum).
  assert (x' = x) as ->. { unfold budget_of, index_map_get in Hx. rewrite Hx' in Hx. by injection Hx. }
  rewrite (Hused j Hj). destruct (decide (j = i)) as [->|Hne].
  - exists (x - y). rewrite list_lookup_insert_eq by lia. rewrite bool_decide_true by done. split; [done|lia].
  - rewrite list_lookup_insert_ne by done. rewrite bool_decide_false by done. destruct (Hb j Hj) as (z & -> & ? & ?).
    exists z. split; [done|lia].
Qed.
End budgets.

(** Whether the map of allowed links allows [l]. *)
Definition link_ok (allowed : ShardLinkMap bool) (l : ShardLink) : bool :=
  default false (default None (link_map_get allowed l)).

(** Grants that fit what the links allow. *)
Definition grants_ok (n : nat) (allowed : ShardLinkMap bool) (g : ShardLinkMap Z) : Prop :=
  lmap_ok n g ∧ ∀ l, in_range n l → 0 <= lval g l ∧ (link_ok allowed l = false → lval g l = 0).

Lemma allowed_of_ok n allowed l : lmap_ok n allowed → in_range n l → allowed_of allowed l = Some (link_ok allowed l).
Proof. intros Hm Hl. unfold allowed_of, link_ok. destruct (link_get_ok n allowed l Hm Hl) as [x ->]. done. Qed.

Lemma lval_get m l v : link_map_get m l = Some (Some v) → lval m l = v.
Proof. intros E. unfold lval. by rewrite E. Qed.

Lemma lval_same m m' l : link_map_get m' l = link_map_get m l → lval m' l = lval m l.
Proof. intros E. unfold lval. by rewrite E. Qed.

Lemma get_default m l x : link_map_get m l = Some x → default 0 x = lval m l.
Proof. intros E. unfold lval. by rewrite E. Qed.

(** * Distribution of what remains *)

Section distribution.
Variables (n : nat) (allowed : ShardLinkMap bool).
Hypothesis Hallowed : lmap_ok n allowed.

Definition endpoints_ok (left : nat → Z) (infos : ShardIndexMap EndpointInfo) : Prop :=
  length infos = n ∧
  ∀ i, (i < n)%nat → 0 <= left i ∧ ∃ k, infos !! i = Some (Some (mkEndpoint (left i) k)) ∧ 0 <= k.

Lemma info_of_ok left infos i :
  endpoints_ok left infos → (i < n)%nat → ∃ k, info_of infos i = Some (mkEndpoint (left i) k) ∧ 0 <= k ∧ 0 <= left i.
Proof. intros [_ He] Hi. destruct (He i Hi) as (? & k & Hk & ?). exists k. unfold info_of. by rewrite Hk. Qed.

Lemma endpoint_insert left left' infos i k :
  endpoints_ok left infos → (i < n)%nat → 0 <= k → 0 <= left' i →
  (∀ j, (j < n)%nat → j ≠ i → left' j = left j) →
  ∃ infos', index_map_insert infos i (mkEndpoint (left' i) k) = Some infos' ∧ endpoints_ok left' infos'.
Proof.
  intros [Hl He] Hi Hk Hnn Ho. unfold index_map_insert. rewrite Hl, (proj2 (Nat.ltb_lt _ _)) by done.
  eexists. split; [done|]. split; [by rewrite length_insert|]. intros j Hj. destruct (decide (j = i)) as [->|Hne].
  - rewrite list_lookup_insert_eq by lia. split; [done|]. by exists k.
  - rewrite list_lookup_insert_ne by done. rewrite (Ho j Hj Hne). by apply He.
Qed.

Record dist_inv (bs br : nat → Z) (st : DistributeState) : Prop := {
  di_grants : grants_ok n allowed (bandwidth_grants st);
  di_senders : endpoints_ok (λ i, bs i - row n (bandwidth_grants st) i) (sender_infos st);
  di_receivers : endpoints_ok (λ i, br i - col n (bandwidth_grants st) i) (receiver_infos st)
}.

Lemma div_le_self a k : 0 <= a → 0 < k → 0 <= a / k <= a.
Proof. intros. split; [apply Z.div_pos; lia|]. apply Z.div_le_upper_bound; nia. Qed.

(** One link of the distribution. *)
Lemma grant_link_ok bs br st s r g ks kr :
  dist_inv bs br st → in_range n (mkLink s r) → link_ok allowed (mkLink s r) = true →
  lval (bandwidth_grants st) (mkLink s r) = 0 → 0 < ks → 0 < kr →
  let es := mkEndpoint (bs s - row n (bandwidth_grants st) s) ks in
  let er := mkEndpoint (br r - col n (bandwidth_grants st) r) kr in
  0 <= g <= Z.min (bandwidth_left es) (bandwidth_left er) →
  ∃ gs ss rs, link_map_insert (bandwidth_grants st) (mkLink s r) g = Some gs ∧
    use_link (sender_infos st) s es g = Some ss ∧ use_link (receiver_infos st) r er g = Some rs ∧
    dist_inv bs br (mkDistribute ss rs gs) ∧
    ∀ l, in_range n l → l ≠ mkLink s r → lval gs l = lval (bandwidth_grants st) l.
Proof.
  intros [[Hgm Hg] Hss Hrr] Hl Hok H0 Hks Hkr es er Hgr. assert (Hl' := Hl). destruct Hl' as [Hs Hr]. simpl in *.
  destruct (link_insert_ok n _ (mkLink s r) g Hgm Hl) as (gs & Hgi & Hgm' & Hgv%lval_get & Hgo).
  assert (∀ l', in_range n l' → l' ≠ mkLink s r → lval gs l' = lval (bandwidth_grants st) l') as Hgo'.
  { intros l' ? ?. by apply lval_same, Hgo. }
  pose proof (row_update n _ gs _ _ Hl Hgv Hgo') as Hrow. pose proof (col_update n _ gs _ _ Hl Hgv Hgo') as Hcol.
  rewrite H0 in Hrow, Hcol. simpl in Hrow, Hcol. unfold use_link, es, er. simpl.
  rewrite !checked_sub_ok by (simpl in Hgr; lia). cbn [mbind option_bind].
  destruct (endpoint_insert _ (λ i, bs i - row n gs i) (sender_infos st) s (ks - 1) Hss Hs) as (ss & Hssi & Hss').
  { lia. } { rewrite (Hrow s Hs), bool_decide_true by done. lia. }
  { intros j Hj Hne. rewrite (Hrow j Hj), bool_decide_false by done. lia. }
  destruct (endpoint_insert _ (λ i, br i - col n gs i) (receiver_infos st) r (kr - 1) Hrr Hr) as (rs & Hrsi & Hrs').
  { lia. } { rewrite (Hcol r Hr), bool_decide_true by done. lia. }
  { intros j Hj Hne. rewrite (Hcol j Hj), bool_decide_false by done. lia. }
  rewrite (Hrow s Hs), bool_decide_true in Hssi by done. rewrite (Hcol r Hr), bool_decide_true in Hrsi by done.
  exists gs, ss, rs. split_and!; [done| | | |done].
  - rewrite <-Hssi. f_equal. f_equal. lia.
  - rewrite <-Hrsi. f_equal. f_equal. lia.
  - constructor; simpl; [|done|done]. split; [done|]. intros l' Hl'. destruct (decide (l' = mkLink s r)) as [->|Hne].
    + rewrite Hgv. split; [lia|congruence].
    + rewrite Hgo' by done. by apply Hg.
Qed.

Lemma distribute_receivers_ok bs br s rs : ∀ st,
  dist_inv bs br st → (s < n)%nat → NoDup rs → Forall (λ r, (r < n)%nat) rs →
  (∀ r, r ∈ rs → lval (bandwidth_grants st) (mkLink s r) = 0) →
  ∃ st', distribute_receivers allowed s rs st = Some st' ∧ dist_inv bs br st' ∧
    ∀ l, in_range n l → sender l ≠ s → lval (bandwidth_grants st') l = lval (bandwidth_grants st) l.
Proof.
  induction rs as [|r rs IH]; intros st Hd Hs Hnd HF H0; [by exists st|].
  apply NoDup_cons in Hnd as [Hr Hnd]. apply Forall_cons in HF as [Hrn HF]. cbn [distribute_receivers].
  assert (in_range n (mkLink s r)) as Hl by done. rewrite (allowed_of_ok n) by done. cbn [mbind option_bind].
  destruct (link_ok allowed (mkLink s r)) eqn:Hok; simpl negb; cbv iota.
  2: { apply IH; try done. intros r' Hr'. apply H0. set_solver. }
  destruct (info_of_ok _ _ s (di_senders _ _ _ Hd) Hs) as (ks & -> & Hks & Hls).
  destruct (info_of_ok _ _ r (di_receivers _ _ _ Hd) Hrn) as (kr & -> & Hkr & Hlr). cbn [mbind option_bind].
  simpl links_num. destruct ((ks =? 0) || (kr =? 0)) eqn:Ek; [by exists st|].
  unfold link_proposition. simpl. rewrite !checked_div_ok by lia. cbn [mbind option_bind].
  set (ls := bs s - row n (bandwidth_grants st) s) in *. set (lr := br r - col n (bandwidth_grants st) r) in *.
  pose proof (div_le_self ls ks Hls ltac:(lia)). pose proof (div_le_self lr kr Hlr ltac:(lia)).
  destruct (grant_link_ok bs br st s r (Z.min (ls / ks) (lr / kr)) ks kr) as (gs & ss & rs' & -> & Hus & Hur & Hd' & Ho);
    [done|done|done|apply H0; set_solver|lia|lia|simpl; fold ls lr; lia|].
  cbn [mbind option_bind]. fold ls in Hus. fold lr in Hur. rewrite Hus, Hur. cbn [mbind option_bind].
  destruct (IH (mkDistribute ss rs' gs) Hd' Hs Hnd HF) as (st' & -> & Hd2 & Ho2).
  { intros r' Hr'. simpl. rewrite Ho; [apply H0; set_solver| |congruence || (intros [= ->]; done)].
    rewrite Forall_forall in HF. split; simpl; [done|by apply HF]. }
  exists st'. split_and!; [done|done|]. intros l Hl' Hne. rewrite Ho2 by done. simpl. apply Ho; [done|].
  intros ->. done.
Qed.

Lemma distribute_senders_ok bs br rs ss : ∀ st,
  dist_inv bs br st → NoDup rs → Forall (λ r, (r < n)%nat) rs → NoDup ss → Forall (λ s, (s < n)%nat) ss →
  (∀ l, in_range n l → sender l ∈ ss → lval (bandwidth_grants st) l = 0) →
  ∃ st', distribute_senders allowed ss rs st = Some st' ∧ dist_inv bs br st'.
Proof.
  induction ss as [|s ss IH]; intros st Hd Hnr HFr Hnd HF H0; [by exists st|].
  apply NoDup_cons in Hnd as [Hs Hnd]. apply Forall_cons in HF as [Hsn HF]. cbn [distribute_senders].
  destruct (info_of_ok _ _ s (di_senders _ _ _ Hd) Hsn) as (ks & -> & _). cbn [mbind option_bind].
  destruct (distribute_receivers_ok bs br s rs st Hd Hsn Hnr HFr) as (st' & -> & Hd' & Ho).
  { intros r Hr. rewrite Forall_forall in HFr. apply H0; [split; simpl; [done|by apply HFr]|simpl; set_solver]. }
  cbn [mbind option_bind]. apply IH; try done. intros l Hl Hin. rewrite Ho; [apply H0; [done|set_solver]|done|].
  intros E. by rewrite E in Hin.
Qed.

Lemma init_infos_ok (left : nat → Z) budgets :
  (∀ i, (i < n)%nat → budget_of budgets i = Some (left i) ∧ 0 <= left i) →
  ∃ infos, init_infos (seq 0 n) budgets (index_map_new n) = Some infos ∧ endpoints_ok left infos ∧
    ∀ i, (i < n)%nat → infos !! i = Some (Some (mkEndpoint (left i) 0)).
Proof.
  intros Hb.
  assert (∀ idxs infos, Forall (λ i, (i < n)%nat) idxs → length infos = n →
    ∃ infos', init_infos idxs budgets infos = Some infos' ∧ length infos' = n ∧
      (∀ i, i ∈ idxs → infos' !! i = Some (Some (mkEndpoint (left i) 0))) ∧
      (∀ i, i ∉ idxs → infos' !! i = infos !! i)) as Hgen.
  { intros idxs. induction idxs as [|i idxs IH]; intros infos HF Hl; [exists infos; split_and!; set_solver|].
    apply Forall_cons in HF as [Hi HF]. cbn [init_infos]. destruct (Hb i Hi) as [-> _]. cbn [mbind option_bind].
    unfold index_map_insert. rewrite Hl, (proj2 (Nat.ltb_lt _ _)) by done. cbn [mbind option_bind].
    destruct (IH (<[i := Some (mkEndpoint (left i) 0)]> infos) HF) as (infos' & -> & Hl' & Hin & Hout); [by rewrite length_insert|].
    exists infos'. split_and!; [done|done| |].
    - intros j [->|Hj]%elem_of_cons; [|by apply Hin]. destruct (decide (i ∈ idxs)); [by apply Hin|].
      rewrite Hout by done. apply list_lookup_insert_eq. lia.
    - intros j Hj. rewrite Hout by set_solver. apply list_lookup_insert_ne. set_solver. }
  destruct (Hgen (seq 0 n) (index_map_new n)) as (infos & Hrun & Hl & Hin & _).
  - apply Forall_forall. intros i Hi%elem_of_seq. lia.
  - apply length_replicate.
  - exists infos. assert (∀ i, (i < n)%nat → infos !! i = Some (Some (mkEndpoint (left i) 0))) as Hi.
    { intros i Hi. apply Hin, elem_of_seq. lia. }
    split_and!; [done| |done]. split; [done|]. intros i Hi'. split; [by apply Hb|]. exists 0. by rewrite Hi.
Qed.

(** While the links are counted, the counts are at most [b]. *)
Definition counts_ok (left : nat → Z) (b : Z) (infos : ShardIndexMap EndpointInfo) : Prop :=
  length infos = n ∧ ∀ i, (i < n)%nat → ∃ k, infos !! i = Some (Some (mkEndpoint (left i) k)) ∧ 0 <= k <= b.

Lemma count_link_ok left b infos i :
  counts_ok left b infos → (i < n)%nat → b < umax 64 →
  ∃ infos', count_link infos i = Some infos' ∧ counts_ok left (b + 1) infos'.
Proof.
  intros [Hl Hc] Hi Hb. destruct (Hc i Hi) as (k & Hk & Hkb). unfold count_link, info_of. rewrite Hk. cbn [mbind option_bind].
  simpl. rewrite checked_add_ok by lia. cbn [mbind option_bind]. unfold index_map_insert.
  rewrite Hl, (proj2 (Nat.ltb_lt _ _)) by done. eexists. split; [done|]. split; [by rewrite length_insert|].
  intros j Hj. destruct (decide (j = i)) as [->|Hne].
  - rewrite list_lookup_insert_eq by lia. exists (k + 1). split; [done|lia].
  - rewrite list_lookup_insert_ne by done. destruct (Hc j Hj) as (k' & -> & ?). exists k'. split; [done|lia].
Qed.

Lemma counts_mono left b b' infos : b <= b' → counts_ok left b infos → counts_ok left b' infos.
Proof. intros Hb [Hl Hc]. split; [done|]. intros i Hi. destruct (Hc i Hi) as (k & ? & ?). exists k. split; [done|lia]. Qed.

Lemma count_links_ok ls lr links : ∀ b ss rs,
  Forall (in_range n) links → counts_ok ls b ss → counts_ok lr b rs → b + Z.of_nat (length links) <= umax 64 →
  ∃ ss' rs', count_links links allowed ss rs = Some (ss', rs') ∧
    counts_ok ls (b + Z.of_nat (length links)) ss' ∧ counts_ok lr (b + Z.of_nat (length links)) rs'.
Proof.
  induction links as [|l links IH]; intros b ss rs HF Hs Hr Hb.
  { exists ss, rs. simpl. rewrite Z.add_0_r. done. }
  apply Forall_cons in HF as [Hl HF]. cbn [count_links length] in *. rewrite (allowed_of_ok n) by done. cbn [mbind option_bind].
  replace (b + Z.of_nat (S (length links))) with (b + 1 + Z.of_nat (length links)) in * by lia.
  destruct (link_ok allowed l).
  - destruct (count_link_ok ls b ss (sender l) Hs) as (ss' & -> & Hs'); [apply Hl|lia|]. cbn [mbind option_bind].
    destruct (count_link_ok lr b rs (receiver l) Hr) as (rs' & -> & Hr'); [apply Hl|lia|]. cbn [mbind option_bind].
    apply IH; [done|done|done|lia].
  - apply IH; [done| | |lia]; (eapply counts_mono; [|done]); lia.
Qed.

Lemma by_average_ok left infos :
  endpoints_ok left infos → ∃ l, by_average infos (seq 0 n) = Some l ∧ l ≡ₚ seq 0 n.
Proof.
  intros He. unfold by_average.
  assert (∀ idxs, Forall (λ i, (i < n)%nat) idxs → ∃ keyed,
    mapM (λ i, e ← info_of infos i; Some (average_link_bandwidth e, i)) idxs = Some keyed ∧ keyed.*2 = idxs) as Hgen.
  { induction idxs as [|i idxs IH]; intros HF; [by exists []|]. apply Forall_cons in HF as [Hi HF].
    destruct (info_of_ok _ _ i He Hi) as (k & Hk & _), (IH HF) as (keyed & Hrun & Hks).
    cbn [mapM]. rewrite Hk. cbn [mbind option_bind]. rewrite Hrun. eexists. split; [done|]. change (i :: keyed.*2 = i :: idxs). by rewrite Hks. }
  destruct (Hgen (seq 0 n)) as (keyed & -> & Hks); [apply Forall_forall; intros i Hi%elem_of_seq; lia|].
  cbn [mbind option_bind]. eexists. split; [done|]. by rewrite sort_by_key_perm, Hks.
Qed.

Lemma length_all_links : length (all_links n) = (n * n)%nat.
Proof.
  assert (∀ ss : list nat, length (ss ≫= λ s, (λ r, mkLink s r) <$> seq 0 n) = (length ss * n)%nat) as Hlen.
  { induction ss as [|x ss IH]; [done|]. cbn [mbind list_bind]. rewrite length_app, length_fmap, length_seq. simpl. f_equal. exact IH. }
  unfold all_links. by rewrite Hlen, length_seq.
Qed.

Lemma distribute_ok bs br sb rb :
  (∀ i, (i < n)%nat → budget_of sb i = Some (bs i) ∧ 0 <= bs i) →
  (∀ i, (i < n)%nat → budget_of rb i = Some (br i) ∧ 0 <= br i) →
  Z.of_nat (n * n) <= umax 64 →
  ∃ g, distribute_remaining_bandwidth sb rb allowed n = Some g ∧ grants_ok n allowed g ∧
    (∀ i, (i < n)%nat → row n g i <= bs i) ∧ (∀ i, (i < n)%nat → col n g i <= br i).
Proof.
  intros Hsb Hrb Hsize. unfold distribute_remaining_bandwidth.
  destruct (init_infos_ok bs sb Hsb) as (ss & -> & [Hls _] & Hss), (init_infos_ok br rb Hrb) as (rs & -> & [Hlr _] & Hrs).
  cbn [mbind option_bind].
  destruct (count_links_ok bs br (all_links n) 0 ss rs) as (ss' & rs' & -> & [Hls' Hcs] & [Hlr' Hcr]).
  { apply Forall_forall. intros l. apply elem_of_all_links. }
  { split; [done|]. intros i Hi. exists 0. by rewrite Hss. }
  { split; [done|]. intros i Hi. exists 0. by rewrite Hrs. }
  { rewrite length_all_links. lia. }
  cbn [mbind option_bind].
  assert (endpoints_ok bs ss') as Hes.
  { split; [done|]. intros i Hi. split; [by apply Hsb|]. destruct (Hcs i Hi) as (k & ? & ? & _). by exists k. }
  assert (endpoints_ok br rs') as Her.
  { split; [done|]. intros i Hi. split; [by apply Hrb|]. destruct (Hcr i Hi) as (k & ? & ? & _). by exists k. }
  destruct (by_average_ok bs ss' Hes) as (sl & -> & Hsl), (by_average_ok br rs' Her) as (rl & -> & Hrl). cbn [mbind option_bind].
  assert (∀ l, l ≡ₚ seq 0 n → NoDup l ∧ Forall (λ i, (i < n)%nat) l) as Hperm.
  { intros l Hl. split; [rewrite Hl; apply NoDup_seq|]. rewrite Hl. apply Forall_forall. intros i Hi%elem_of_seq. lia. }
  destruct (distribute_senders_ok bs br rl sl (mkDistribute ss' rs' (link_map_new n))) as (st & -> & Hd);
    [|apply Hperm; done..| |].
  { constructor; simpl.
    - split; [apply new_lmap_ok|]. intros l Hl. unfold lval. by rewrite link_get_new.
    - destruct Hes as [? He]. split; [done|]. intros i Hi. rewrite row_new, Z.sub_0_r by done. by apply He.
    - destruct Her as [? He]. split; [done|]. intros i Hi. rewrite col_new, Z.sub_0_r by done. by apply He. }
  { intros l Hl _. simpl. unfold lval. by rewrite link_get_new. }
  cbn [mbind option_bind]. exists (bandwidth_grants st). destruct Hd as [Hg [_ Hs] [_ Hr]]. split_and!; [done|done|..].
  - intros i Hi. destruct (Hs i Hi) as [? _]. lia.
  - intros i Hi. destruct (Hr i Hi) as [? _]. lia.
Qed.
End distribution.

(** * The invariant of the scheduler *)

Section scheduler.
Context {AccountId Rng : Type}.
Variable shuffle : Rng → list SchedulerBandwidthRequest → list SchedulerBandwidthRequest * Rng.
Hypothesis shuffle_permutes : ∀ r l, (shuffle r l).1 ≡ₚ l.

Abbreviation Scheduler := (BandwidthScheduler (AccountId := AccountId) (Rng := Rng)).

Implicit Types s : Scheduler.

Record inv (n : nat) (s : Scheduler) : Prop := {
  inv_n : num_links s = n;
  inv_allowed : lmap_ok n (is_link_allowed_map s);
  inv_mx : 0 <= max_shard_bandwidth (params s) <= umax 64;
  inv_grants : grants_ok n (is_link_allowed_map s) (granted_bandwidth s);
  inv_senders : budgets_ok n (max_shard_bandwidth (params s)) (row n (granted_bandwidth s)) (sender_budget s);
  inv_receivers : budgets_ok n (max_shard_bandwidth (params s)) (col n (granted_bandwidth s)) (receiver_budget s);
  inv_lmap : lmap_ok n (link_allowances s);
  inv_allowances : ∀ l, in_range n l → 0 <= lval (link_allowances s) l <= max_allowance (params s)
}.

(** What every step keeps: the configuration, and the grants only grow. *)
Record keeps (n : nat) (s s' : Scheduler) : Prop := {
  kp_layout : shard_layout s' = shard_layout s;
  kp_params : params s' = params s;
  kp_allowed : is_link_allowed_map s' = is_link_allowed_map s;
  kp_grows : ∀ l, in_range n l → lval (granted_bandwidth s) l <= lval (granted_bandwidth s') l
}.

Lemma keeps_refl n s : keeps n s s.
Proof. by constructor. Qed.

Lemma keeps_trans n s1 s2 s3 : keeps n s1 s2 → keeps n s2 s3 → keeps n s1 s3.
Proof.
  intros [? ? ? G1] [? ? ? G2]. constructor; [congruence..|]. intros l Hl. specialize (G1 l Hl). specialize (G2 l Hl). lia.
Qed.

Lemma get_allowance_ok n s l : inv n s → in_range n l → get_allowance s l = Some (lval (link_allowances s) l).
Proof.
  intros Hs Hl. unfold get_allowance, lval. destruct (link_get_ok n _ l (inv_lmap _ _ Hs) Hl) as [x ->]. done.
Qed.

(** The updates of a successful grant. *)
Lemma grant_maps n s l bandwidth x y :
  inv n s → in_range n l → link_ok (is_link_allowed_map s) l = true →
  budget_of (sender_budget s) (sender l) = Some x → budget_of (receiver_budget s) (receiver l) = Some y →
  0 <= bandwidth <= Z.min x y →
  ∃ sb rb a g,
    index_map_insert (sender_budget s) (sender l) (x - bandwidth) = Some sb ∧
    index_map_insert (receiver_budget s) (receiver l) (y - bandwidth) = Some rb ∧
    link_map_insert (link_allowances s) l (saturating_sub (lval (link_allowances s) l) bandwidth) = Some a ∧
    lval (granted_bandwidth s) l + bandwidth <= umax 64 ∧
    link_map_insert (granted_bandwidth s) l (lval (granted_bandwidth s) l + bandwidth) = Some g ∧
    inv n (mkScheduler (shard_layout s) (params s) (is_link_allowed_map s) sb rb a g (rng s)) ∧
    ∀ l', in_range n l' → lval g l' = lval (granted_bandwidth s) l' + if bool_decide (l' = l) then bandwidth else 0.
Proof.
  intros [Hn Hal Hmx [Hgm Hg] Hsb Hrb Hlm Hla] Hl Hok Hx Hy Hbw. assert (Hl' := Hl). destruct Hl' as [Hsn Hrn].
  destruct (budget_of_ok _ _ _ _ _ Hsb Hsn) as (x' & Hx' & Hx0 & Hxs), (budget_of_ok _ _ _ _ _ Hrb Hrn) as (y' & Hy' & Hy0 & Hys).
  assert (x' = x ∧ y' = y) as [-> ->] by (split; congruence).
  pose proof (lval_le_row n _ l Hl (λ l' Hl', proj1 (Hg l' Hl'))) as Hover.
  destruct (link_insert_ok n _ l (lval (granted_bandwidth s) l + bandwidth) Hgm Hl) as (g' & Hgi & Hgm' & Hgv%lval_get & Hgo).
  destruct (link_insert_ok n _ l (saturating_sub (lval (link_allowances s) l) bandwidth) Hlm Hl) as (a' & Hai & Ham' & Hav%lval_get & Hao).
  assert (∀ l', in_range n l' → l' ≠ l → lval g' l' = lval (granted_bandwidth s) l') as Hgo'.
  { intros l' ? ?. by apply lval_same, Hgo. }
  pose proof (row_update n _ g' l _ Hl Hgv Hgo') as Hrow. pose proof (col_update n _ g' l _ Hl Hgv Hgo') as Hcol.
  destruct (use_budget n _ _ (row n g') _ (sender l) x bandwidth Hsb Hsn Hx) as (sb' & Hsbi & Hsb'); [lia| |].
  { intros j Hj. rewrite Hrow by done. destruct (bool_decide _); lia. }
  destruct (use_budget n _ _ (col n g') _ (receiver l) y bandwidth Hrb Hrn Hy) as (rb' & Hrbi & Hrb'); [lia| |].
  { intros j Hj. rewrite Hcol by done. destruct (bool_decide _); lia. }
  assert (∀ l', in_range n l' → lval g' l' = lval (granted_bandwidth s) l' + if bool_decide (l' = l) then bandwidth else 0) as Hall.
  { intros l' Hl'. case_bool_decide as Heq; [by subst|]. rewrite Z.add_0_r. by apply Hgo'. }
  exists sb', rb', a', g'. split_and!; try done; [lia|]. constructor; simpl; try done.
  - split; [done|]. intros l' Hl'. rewrite Hall by done. destruct (Hg l' Hl') as [? Hd].
    split; [destruct (bool_decide _); lia|]. intros Hf. case_bool_decide; [congruence|]. rewrite Hd by done. lia.
  - intros l' Hl'. specialize (Hla l' Hl'). destruct (decide (l' = l)) as [->|Hne].
    + rewrite Hav. unfold saturating_sub. lia.
    + by rewrite (lval_same _ _ _ (Hao l' Hl' Hne)).
Qed.

Lemma try_grant_ok n s l bandwidth :
  inv n s → in_range n l → 0 <= bandwidth →
  ∃ s' granted, try_grant_bandwidth l bandwidth s = Some (s', granted) ∧ inv n s' ∧ keeps n s s' ∧
    granted = link_ok (is_link_allowed_map s) l &&
      (bandwidth <=? max_shard_bandwidth (params s) - row n (granted_bandwidth s) (sender l)) &&
      (bandwidth <=? max_shard_bandwidth (params s) - col n (granted_bandwidth s) (receiver l)) ∧
    (∀ l', in_range n l' → lval (granted_bandwidth s') l' =
      lval (granted_bandwidth s) l' + if bool_decide (l' = l) && granted then bandwidth else 0).
Proof.
  intros Hs Hl Hbw. assert (Hs' := Hs). destruct Hs' as [Hn Hal Hmx [Hgm Hg] Hsb Hrb Hlm Hla].
  unfold try_grant_bandwidth, is_link_allowed. rewrite (allowed_of_ok n) by done. cbn [mbind option_bind].
  destruct (link_ok (is_link_allowed_map s) l) eqn:Hok; simpl negb; cbv iota.
  2: { exists s, false. split_and!; [done|done|apply keeps_refl|done|]. intros l' _. rewrite andb_false_r. lia. }
  assert (Hl' := Hl). destruct Hl' as [Hsn Hrn].
  destruct (budget_of_ok _ _ _ _ _ Hsb Hsn) as (x & Hx & Hx0 & Hxs), (budget_of_ok _ _ _ _ _ Hrb Hrn) as (y & Hy & Hy0 & Hys).
  rewrite Hx, Hy. cbn [mbind option_bind].
  destruct ((x <? bandwidth) || (y <? bandwidth)) eqn:E.
  { exists s, false. split_and!; [done|done|apply keeps_refl|lia|]. intros l' _. rewrite andb_false_r. lia. }
  rewrite !checked_sub_ok by lia. cbn [mbind option_bind].
  destruct (grant_maps n s l bandwidth x y Hs Hl Hok Hx Hy) as (sb & rb & a & g & -> & -> & Ha & Hover & Hgi & Hinv & Hall); [lia|].
  cbn [mbind option_bind]. unfold decrease_allowance, get_allowance. simpl.
  destruct (link_get_ok n _ l Hlm Hl) as [a0 Ha0], (link_get_ok n _ l Hgm Hl) as [g0 Hg0].
  rewrite Ha0. cbn [fmap option_fmap option_map mbind option_bind]. unfold default_link_allowance.
  rewrite (get_default _ _ _ Ha0), Ha. cbn [mbind option_bind].
  unfold grant_more_bandwidth. simpl. rewrite Hg0. cbn [mbind option_bind].
  rewrite (get_default _ _ _ Hg0), checked_add_ok by done. simpl default. rewrite Hgi. cbn [mbind option_bind].
  eexists _, true. split; [done|]. split_and!; [done| |lia|].
  - constructor; simpl; try done. intros l' Hl'. rewrite Hall by done. destruct (bool_decide _); lia.
  - intros l' Hl'. simpl. rewrite andb_true_r. by apply Hall.
Qed.

(** * The first stages *)

Record fresh (n : nat) (s : Scheduler) : Prop := {
  fr_n : num_links s = n;
  fr_allowed : lmap_ok n (is_link_allowed_map s);
  fr_mx : 0 <= max_shard_bandwidth (params s) <= umax 64;
  fr_max_allowance : 0 <= max_allowance (params s);
  fr_granted : granted_bandwidth s = link_map_new n;
  fr_senders : sender_budget s = index_map_new n;
  fr_receivers : receiver_budget s = index_map_new n;
  fr_lmap : lmap_ok n (link_allowances s);
  fr_allowances : ∀ l, in_range n l → 0 <= lval (link_allowances s) l
}.

Lemma fill_ok v n :
  ∃ m, for_each (λ i m, index_map_insert m i v) (seq 0 n) (index_map_new n) = Some m ∧
    length m = n ∧ ∀ i, (i < n)%nat → m !! i = Some (Some (v : Z)).
Proof.
  destruct (for_each_inv (λ pre m, length m = n ∧ ∀ i, i ∈ pre → m !! i = Some (Some v))
    (λ i m, index_map_insert m i v) (seq 0 n) (index_map_new n)) as (m & Hrun & Hlen & Hm).
  - split; [apply length_replicate|set_solver].
  - intros pre i post m Hsplit [Hlen Hm].
    assert (i < n)%nat as Hi by (assert (i ∈ seq 0 n) as Hin%elem_of_seq by (rewrite Hsplit; set_solver); lia).
    unfold index_map_insert. rewrite Hlen, (proj2 (Nat.ltb_lt _ _)) by done. eexists. split; [done|].
    split; [by rewrite length_insert|]. intros j [Hj|Hj%list_elem_of_singleton]%elem_of_app.
    + destruct (decide (i = j)) as [->|?]; [by rewrite list_lookup_insert_eq by lia|].
      rewrite list_lookup_insert_ne by done. by apply Hm.
    + subst j. by rewrite list_lookup_insert_eq by lia.
  - exists m. split_and!; [done|done|]. intros i Hi. apply Hm, elem_of_seq. lia.
Qed.

Lemma init_budgets_ok n s :
  fresh n s →
  ∃ s', init_budgets s = Some s' ∧ shard_layout s' = shard_layout s ∧ params s' = params s ∧
    is_link_allowed_map s' = is_link_allowed_map s ∧ link_allowances s' = link_allowances s ∧
    granted_bandwidth s' = link_map_new n ∧
    budgets_ok n (max_shard_bandwidth (params s)) (row n (link_map_new n)) (sender_budget s') ∧
    budgets_ok n (max_shard_bandwidth (params s)) (col n (link_map_new n)) (receiver_budget s').
Proof.
  intros [Hn _ Hmx _ Hg Hsb Hrb _ _]. unfold init_budgets, shard_indexes. fold (num_links s). rewrite Hn, Hsb, Hrb.
  destruct (fill_ok (max_shard_bandwidth (params s)) n) as (m & -> & Hlen & Hm). cbn [mbind option_bind].
  eexists. split; [done|]. split_and!; try done; simpl.
  - split; [done|]. intros i Hi. eexists. rewrite Hm, row_new by done. split; [done|lia].
  - split; [done|]. intros i Hi. eexists. rewrite Hm, col_new by done. split; [done|lia].
Qed.

Lemma increase_allowance_ok n s l inc :
  lmap_ok n (link_allowances s) → in_range n l → 0 <= max_allowance (params s) → 0 <= inc →
  (∀ l', in_range n l' → 0 <= lval (link_allowances s) l') →
  ∃ a, increase_allowance l inc s = Some (set_allowances s a) ∧ lmap_ok n a ∧
    (∀ l', in_range n l' → 0 <= lval a l') ∧ lval a l <= max_allowance (params s) ∧
    (∀ l', in_range n l' → l' ≠ l → lval a l' = lval (link_allowances s) l').
Proof.
  intros Hm Hl Hmax Hinc Hnn. unfold increase_allowance, get_allowance.
  destruct (link_get_ok n _ l Hm Hl) as [x Hx]. rewrite Hx. cbn [fmap option_fmap option_map mbind option_bind].
  unfold default_link_allowance. rewrite (get_default _ _ _ Hx).
  set (v := if max_allowance (params s) <? _ then _ else _).
  assert (0 <= v <= max_allowance (params s)) as Hv.
  { unfold v, saturating_add. specialize (Hnn l Hl). assert (0 <= umax 64) by by vm_compute. case_match; lia. }
  destruct (link_insert_ok n _ l v Hm Hl) as (a & -> & Ha & Hav%lval_get & Hao). cbn [mbind option_bind].
  exists a. split_and!; [done|done| |lia|].
  - intros l' Hl'. destruct (decide (l' = l)) as [->|Hne]; [lia|].
    rewrite (lval_same _ _ _ (Hao l' Hl' Hne)). by apply Hnn.
  - intros l' Hl' Hne. by apply lval_same, Hao.
Qed.

Lemma increase_allowances_ok n s :
  n ≠ 0%nat → num_links s = n → 0 <= max_shard_bandwidth (params s) → 0 <= max_allowance (params s) →
  lmap_ok n (link_allowances s) → (∀ l, in_range n l → 0 <= lval (link_allowances s) l) →
  ∃ a, increase_allowances s = Some (set_allowances s a) ∧ lmap_ok n a ∧
    ∀ l, in_range n l → 0 <= lval a l <= max_allowance (params s).
Proof.
  intros Hn0 Hn Hmx Hmax Hm Hnn. unfold increase_allowances, num_links in *.
  rewrite checked_div_ok by lia. cbn [mbind option_bind]. unfold iter_links, num_links. rewrite Hn.
  set (inc := max_shard_bandwidth (params s) / _). assert (0 <= inc) by (apply Z.div_pos; lia).
  destruct (for_each_inv (λ pre s', ∃ a, s' = set_allowances s a ∧ lmap_ok n a ∧ (∀ l, in_range n l → 0 <= lval a l) ∧
      ∀ l, l ∈ pre → lval a l <= max_allowance (params s))
    (λ l s, increase_allowance l inc s) (all_links n) s) as (s' & Hrun & a & -> & Ha & Hann & Hle).
  - exists (link_allowances s). split_and!; [by destruct s|done|done|set_solver].
  - intros pre l post s1 Hsplit (a & -> & Ha & Hann & Hle).
    assert (in_range n l) as Hl by (apply elem_of_all_links; rewrite Hsplit; set_solver).
    destruct (increase_allowance_ok n (set_allowances s a) l inc) as (a' & Hrun & Ha' & Hnn' & Hb & Ho); [done..|].
    exists (set_allowances s a'). split; [done|]. exists a'. split_and!; [done|done|done|].
    intros l' [Hl'|Hl'%list_elem_of_singleton]%elem_of_app; [|by subst].
    destruct (decide (l' = l)) as [->|Hne]; [done|]. rewrite Ho by (done || (apply elem_of_all_links; rewrite Hsplit; set_solver)).
    by apply Hle.
  - exists a. split_and!; [done|done|]. intros l Hl. split; [by apply Hann|]. by apply Hle, elem_of_all_links.
Qed.

Lemma grant_base_ok n s :
  inv n s → 0 <= base_bandwidth (params s) → (∀ l, in_range n l → lval (granted_bandwidth s) l = 0) →
  ∃ s', grant_base_bandwidth s = Some s' ∧ inv n s' ∧ keeps n s s' ∧
    (Z.of_nat n * base_bandwidth (params s) <= max_shard_bandwidth (params s) →
     ∀ l, in_range n l → lval (granted_bandwidth s') l =
       if link_ok (is_link_allowed_map s) l then base_bandwidth (params s) else 0).
Proof.
  intros Hs Hb Hz. unfold grant_base_bandwidth, iter_links. rewrite (inv_n _ _ Hs). set (base := base_bandwidth (params s)) in *.
  destruct (for_each_inv (λ pre s', inv n s' ∧ keeps n s s' ∧
      (Z.of_nat n * base <= max_shard_bandwidth (params s) →
       ∀ l, in_range n l → lval (granted_bandwidth s') l =
         if bool_decide (l ∈ pre) && link_ok (is_link_allowed_map s) l then base else 0))
    (λ l s, fst <$> try_grant_bandwidth l (base_bandwidth (params s)) s) (all_links n) s) as (s' & Hrun & Hinv & Hk & Hg).
  - split_and!; [done|apply keeps_refl|]. intros _ l Hl. by apply Hz.
  - intros pre l post s1 Hsplit (Hinv & Hk & Hg). pose proof (NoDup_all_links n) as Hnd. rewrite Hsplit in Hnd.
    assert (in_range n l) as Hl by (apply elem_of_all_links; rewrite Hsplit; set_solver).
    apply NoDup_app in Hnd as (_ & Hd & _). assert (l ∉ pre) as Hnew by (intros Hp; apply (Hd l Hp); set_solver).
    pose proof (kp_params _ _ _ Hk) as Hk2. pose proof (kp_allowed _ _ _ Hk) as Hk3. rewrite Hk2. fold base.
    destruct (try_grant_ok n s1 l base Hinv Hl Hb) as (s2 & gr & -> & Hinv2 & Hk' & Hgr & Hall).
    exists s2. split; [done|]. split_and!; [done|by eapply keeps_trans|]. intros Hfit l' Hl'. specialize (Hg Hfit).
    rewrite Hall, Hg by done. rewrite Hk2, Hk3 in Hgr.
    assert (∀ l', in_range n l' → lval (granted_bandwidth s1) l' <= base) as Hle.
    { intros l0 Hl0. rewrite Hg by done. case_match; lia. }
    assert (lval (granted_bandwidth s1) l = 0) as H0 by (rewrite Hg, bool_decide_false by done; done).
    assert (row n (granted_bandwidth s1) (sender l) <= (Z.of_nat n - 1) * base) as Hrow.
    { destruct l as [sl rl]. destruct Hl as [Hls Hlr]. simpl in *.
      apply (sum_seq_hole (λ r, lval (granted_bandwidth s1) (mkLink sl r)) n rl); [done| |done]. intros r Hr. by apply Hle. }
    assert (col n (granted_bandwidth s1) (receiver l) <= (Z.of_nat n - 1) * base) as Hcol.
    { destruct l as [sl rl]. destruct Hl as [Hls Hlr]. simpl in *.
      apply (sum_seq_hole (λ j, lval (granted_bandwidth s1) (mkLink j rl)) n sl); [done| |done]. intros r Hr. by apply Hle. }
    assert (gr = link_ok (is_link_allowed_map s) l) as ->.
    { rewrite Hgr. rewrite !(proj2 (Z.leb_le _ _)) by lia. by rewrite !andb_true_r. }
    destruct (decide (l' = l)) as [->|Hne].
    + rewrite (bool_decide_false (l ∈ pre)), !bool_decide_true by set_solver. simpl. destruct (link_ok _ _); lia.
    + rewrite (bool_decide_false (l' = l)) by done. simpl. rewrite Z.add_0_r.
      erewrite bool_decide_ext; [done|]. set_solver.
  - exists s'. split_and!; [done|done|done|]. intros Hfit l Hl. rewrite Hg by done.
    rewrite bool_decide_true by (by apply elem_of_all_links). done.
Qed.

(** * The request loop *)

Definition request_ok (n : nat) (r : SchedulerBandwidthRequest) : Prop :=
  in_range n (link r) ∧ bandwidth_increases r ≠ [] ∧ Forall (λ x, 0 <= x) (bandwidth_increases r).

Definition queued (q : Queue) : list SchedulerBandwidthRequest := map_to_list q ≫= snd.

Definition queue_ok (n : nat) (q : Queue) : Prop :=
  Forall (request_ok n) (queued q) ∧ ∀ a l, q !! a = Some l → l ≠ [].

Definition weight (q : Queue) : nat := total_increases (queued q).

Lemma sum_list_perm (l k : list nat) : l ≡ₚ k → sum_list l = sum_list k.
Proof. induction 1; simpl; lia. Qed.

Lemma total_increases_perm l k : l ≡ₚ k → total_increases l = total_increases k.
Proof. intros E. unfold total_increases. by apply sum_list_perm, fmap_Permutation. Qed.

Lemma total_increases_app l k : total_increases (l ++ k) = (total_increases l + total_increases k)%nat.
Proof. unfold total_increases. by rewrite fmap_app, sum_list_with_app || induction l; simpl; lia. Qed.

Lemma queued_insert q a l : q !! a = None → queued (<[a := l]> q) ≡ₚ l ++ queued q.
Proof. intros Ha. unfold queued. by rewrite map_to_list_insert. Qed.

Lemma queued_delete q a l : q !! a = Some l → queued q ≡ₚ l ++ queued (delete a q).
Proof.
  intros Ha. rewrite <-(insert_delete_id q a l Ha) at 1. apply queued_insert. apply lookup_delete_eq.
Qed.

Lemma queued_push q a r : queued (<[a := default [] (q !! a) ++ [r]]> q) ≡ₚ r :: queued q.
Proof.
  destruct (q !! a) as [l|] eqn:Ha; simpl.
  - rewrite (queued_delete q a l Ha), <-insert_delete_eq, queued_insert by apply lookup_delete_eq. solve_Permutation.
  - by rewrite queued_insert.
Qed.

Lemma pop_last_Some q reqs q' :
  pop_last q = Some (reqs, q') → ∃ a, q !! a = Some reqs ∧ q' = delete a q.
Proof.
  unfold pop_last. destruct (last (entries q)) as [[a l]|] eqn:Hl; [|done]. intros [= <- <-]. exists a. split; [|done].
  apply elem_of_map_to_list. rewrite <-entries_perm. by apply last_Some_elem_of.
Qed.

Lemma pop_last_None q : pop_last q = None → q = ∅.
Proof.
  unfold pop_last. destruct (last (entries q)) as [[a l]|] eqn:Hl; [done|]. intros _. apply last_None in Hl.
  apply map_to_list_empty_iff, Permutation_nil_r. by rewrite <-entries_perm, Hl.
Qed.

Lemma push_ok n s q r :
  inv n s → queue_ok n q → request_ok n r →
  ∃ q', push_request s r q = Some q' ∧ queue_ok n q' ∧ weight q' = (length (bandwidth_increases r) + weight q)%nat.
Proof.
  intros Hs [HF Hne] Hr. unfold push_request. rewrite (get_allowance_ok n) by (done || apply Hr). cbn [mbind option_bind].
  eexists. split; [done|]. split; [split|].
  - rewrite queued_push. by constructor.
  - intros a l [[_ <-]|[_ Hl]]%lookup_insert_Some; [by destruct (default _ _)|by eapply Hne].
  - unfold weight. by rewrite (total_increases_perm _ _ (queued_push _ _ _)).
Qed.

Lemma process_request_ok n s q r :
  inv n s → queue_ok n q → request_ok n r →
  ∃ s' q', process_request r (s, q) = Some (s', q') ∧ inv n s' ∧ keeps n s s' ∧ queue_ok n q' ∧
    (S (weight q') <= weight q + length (bandwidth_increases r))%nat.
Proof.
  intros Hs Hq (Hl & Hne & HF). unfold process_request. destruct (bandwidth_increases r) as [|inc rest] eqn:Hinc; [done|].
  apply Forall_cons in HF as [Hi HF].
  destruct (try_grant_ok n s (link r) inc Hs Hl Hi) as (s' & g & -> & Hs' & Hk & _). cbn [mbind option_bind].
  destruct g; [|exists s', q; split_and!; try done; simpl; lia].
  case_bool_decide as Hr; [exists s', q; split_and!; try done; simpl; lia|].
  destruct (push_ok n s' q (mkSchedulerRequest (link r) rest) Hs' Hq) as (q' & -> & Hq' & Hw); [done|].
  cbn [mbind option_bind]. exists s', q'. split_and!; try done. rewrite Hw. simpl. lia.
Qed.

Lemma process_batch_ok n reqs : ∀ s q,
  inv n s → queue_ok n q → Forall (request_ok n) reqs →
  ∃ s' q', for_each process_request reqs (s, q) = Some (s', q') ∧ inv n s' ∧ keeps n s s' ∧ queue_ok n q' ∧
    (weight q' + length reqs <= weight q + total_increases reqs)%nat.
Proof.
  induction reqs as [|r reqs IH]; intros s q Hs Hq HF.
  { exists s, q. by split_and!. }
  apply Forall_cons in HF as [Hr HF]. cbn [for_each].
  destruct (process_request_ok n s q r Hs Hq Hr) as (s1 & q1 & -> & Hs1 & Hk1 & Hq1 & Hw1). cbn [mbind option_bind].
  destruct (IH s1 q1 Hs1 Hq1 HF) as (s2 & q2 & -> & Hs2 & Hk2 & Hq2 & Hw2).
  exists s2, q2. split_and!; try done; [by eapply keeps_trans|].
  unfold total_increases in *. cbn [fmap list_fmap sum_list length] in *. simpl. lia.
Qed.

Lemma set_rng_ok n s r : inv n s → inv n (set_rng s r).
Proof. intros []. by constructor. Qed.

Lemma weight_zero n q : queue_ok n q → weight q = 0%nat → q = ∅.
Proof.
  intros [HF Hne] Hw. destruct (queued q) as [|r l] eqn:Hq.
  - apply map_empty. intros a. apply eq_None_not_Some. intros [l Hl]. apply (Hne a l Hl).
    pose proof (queued_delete q a l Hl) as Hp. rewrite Hq in Hp. symmetry in Hp. apply Permutation_nil_r, app_nil in Hp. by destruct Hp.
  - unfold weight in Hw. rewrite Hq in Hw. apply Forall_cons in HF as [(_ & Hr & _) _].
    unfold total_increases in Hw. simpl in Hw. by destruct (bandwidth_increases r).
Qed.

Lemma requests_loop_ok n fuel : ∀ s q,
  inv n s → queue_ok n q → (weight q <= fuel)%nat →
  ∃ s', requests_loop shuffle fuel s q = Some s' ∧ inv n s' ∧ keeps n s s'.
Proof.
  induction fuel as [|fuel IH]; intros s q Hs Hq Hw; cbn [requests_loop].
  { rewrite (weight_zero n q Hq) by lia. exists s. split_and!; [done|done|apply keeps_refl]. }
  destruct (pop_last q) as [[reqs q']|] eqn:Hp; [|exists s; split_and!; [done|done|apply keeps_refl]].
  apply pop_last_Some in Hp as (a & Ha & ->). pose proof (queued_delete q a reqs Ha) as Hperm.
  destruct Hq as [HF Hne]. pose proof (Hne a reqs Ha) as Hreqs. rewrite Hperm, Forall_app in HF. destruct HF as [HF HF'].
  destruct (shuffle (rng s) reqs) as [reqs' r] eqn:Hsh. pose proof (shuffle_permutes (rng s) reqs) as Hpm. rewrite Hsh in Hpm. simpl in Hpm.
  destruct (process_batch_ok n reqs' (set_rng s r) (delete a q)) as (s1 & q1 & -> & Hs1 & Hk1 & Hq1 & Hw1).
  - by apply set_rng_ok.
  - split; [done|]. intros a' l [_ Hl]%lookup_delete_Some. by eapply Hne.
  - by rewrite Hpm.
  - cbn [mbind option_bind]. rewrite (total_increases_perm _ _ Hpm) in Hw1.
    assert (length reqs' = length reqs) as Hlen by by apply Permutation_length.
    assert (length reqs ≠ 0%nat) by (by destruct reqs).
    assert (weight q = total_increases reqs + weight (delete a q))%nat as Hwq.
    { unfold weight. by rewrite (total_increases_perm _ _ Hperm), total_increases_app. }
    destruct (IH s1 q1 Hs1 Hq1) as (s2 & -> & Hs2 & Hk2); [lia|]. exists s2. split_and!; [done|done|].
    eapply keeps_trans; [|exact Hk2]. destruct Hk1. by constructor.
Qed.

(** A request without competition is granted increase by increase. *)

Lemma entries_singleton {V} a (v : V) : entries {[a := v]} = [(a, v)].
Proof.
  apply Permutation_singleton_r. by rewrite entries_perm, map_to_list_singleton.
Qed.

Lemma shuffle_one r q : (shuffle r [q]).1 = [q].
Proof. apply Permutation_singleton_r, shuffle_permutes. Qed.

Lemma requests_alone n l incs : ∀ fuel s a,
  inv n s → in_range n l → incs ≠ [] → Forall (λ x, 0 <= x) incs → (length incs <= fuel)%nat →
  link_ok (is_link_allowed_map s) l = true →
  row n (granted_bandwidth s) (sender l) + sum_Z incs <= max_shard_bandwidth (params s) →
  col n (granted_bandwidth s) (receiver l) + sum_Z incs <= max_shard_bandwidth (params s) →
  ∃ s', requests_loop shuffle fuel s {[a := [mkSchedulerRequest l incs]]} = Some s' ∧
    inv n s' ∧ keeps n s s' ∧ lval (granted_bandwidth s') l = lval (granted_bandwidth s) l + sum_Z incs.
Proof.
  induction incs as [|inc incs IH]; intros fuel s a Hs Hl Hne HF Hfuel Hok Hrow Hcol; [done|].
  apply Forall_cons in HF as [Hi HF]. pose proof (sum_Z_nonneg incs HF) as Hnn. rewrite sum_Z_cons in *.
  destruct fuel as [|fuel]; [simpl in Hfuel; lia|]. cbn [requests_loop]. unfold pop_last. rewrite entries_singleton. cbn [last].
  rewrite delete_singleton_eq. pose proof (shuffle_one (rng s) (mkSchedulerRequest l (inc :: incs))) as Hsh.
  destruct (shuffle _ _) as [reqs r]. simpl in Hsh. subst reqs. cbn [for_each]. unfold process_request. cbn [bandwidth_increases link].
  destruct (try_grant_ok n (set_rng s r) l inc (set_rng_ok _ _ _ Hs) Hl Hi) as (s1 & g & Hrun & Hs1 & Hk1 & Hg & Hall).
  simpl in Hg. rewrite Hok in Hg. rewrite !(proj2 (Z.leb_le _ _)) in Hg by lia. subst g.
  rewrite (bind_value _ _ _ Hrun). cbv beta iota. destruct Hk1 as [K1 K2 K3 K4]. simpl in K1, K2, K3, K4, Hall.
  assert (keeps n s s1) as Hk1 by (by constructor).
  assert (lval (granted_bandwidth s1) l = lval (granted_bandwidth s) l + inc) as Hl1.
  { rewrite Hall by done. by rewrite bool_decide_true. }
  destruct (decide (incs = [])) as [->|Hne'].
  { rewrite bool_decide_true by done. cbn [mbind option_bind]. exists s1. split_and!; [by destruct fuel|done|done|].
    rewrite Hl1. cbn. lia. }
  rewrite bool_decide_false by done. unfold push_request. cbn [link]. rewrite (get_allowance_ok n s1 l Hs1 Hl). cbn [mbind option_bind].
  rewrite lookup_empty. cbn [default app andb mbind option_bind]. rewrite insert_empty.
  assert (∀ l', in_range n l' → l' ≠ l → lval (granted_bandwidth s1) l' = lval (granted_bandwidth s) l') as Ho.
  { intros l' Hl' Hn. rewrite Hall, bool_decide_false by done. simpl. lia. }
  pose proof (row_update n _ _ l _ Hl Hl1 Ho (sender l) (proj1 Hl)) as Hr1. rewrite bool_decide_true in Hr1 by done.
  pose proof (col_update n _ _ l _ Hl Hl1 Ho (receiver l) (proj2 Hl)) as Hc1. rewrite bool_decide_true in Hc1 by done.
  destruct (IH fuel s1 (lval (link_allowances s1) l)) as (s2 & -> & Hs2 & Hk2 & Hl2); try done.
  - simpl in Hfuel. lia.
  - by rewrite K3.
  - rewrite K2. lia.
  - rewrite K2. lia.
  - exists s2. split_and!; [done|done|by eapply keeps_trans|lia].
Qed.

Lemma process_requests_ok n reqs s :
  inv n s → Forall (request_ok n) reqs →
  ∃ s', process_bandwidth_requests shuffle reqs s = Some s' ∧ inv n s' ∧ keeps n s s'.
Proof.
  intros Hs HF. unfold process_bandwidth_requests.
  destruct (for_each_inv (λ pre q, queue_ok n q ∧ weight q = total_increases pre) (push_request s) reqs ∅) as (q & -> & Hq & Hw).
  - split; [split|]; [by unfold queued; rewrite map_to_list_empty|set_solver|].
    unfold weight, queued. by rewrite map_to_list_empty.
  - intros pre r post q Hsplit [Hq Hw]. rewrite Hsplit in HF. apply Forall_app in HF as [_ [Hr _]%Forall_cons].
    destruct (push_ok n s q r Hs Hq Hr) as (q' & -> & Hq' & Hw'). exists q'. split; [done|]. split; [done|].
    rewrite Hw', Hw, total_increases_app. unfold total_increases at 3. simpl. lia.
  - cbn [mbind option_bind]. apply requests_loop_ok; [done|done|lia].
Qed.

Lemma process_alone n l incs s s' :
  inv n s → request_ok n (mkSchedulerRequest l incs) →
  process_bandwidth_requests shuffle [mkSchedulerRequest l incs] s = Some s' →
  link_ok (is_link_allowed_map s) l = true →
  row n (granted_bandwidth s) (sender l) + sum_Z incs <= max_shard_bandwidth (params s) →
  col n (granted_bandwidth s) (receiver l) + sum_Z incs <= max_shard_bandwidth (params s) →
  lval (granted_bandwidth s') l = lval (granted_bandwidth s) l + sum_Z incs.
Proof.
  intros Hs (Hl & Hne & HF) Hrun Hok Hrow Hcol. simpl in Hl, Hne, HF. unfold process_bandwidth_requests in Hrun.
  cbn [for_each] in Hrun. unfold push_request in Hrun. cbn [link] in Hrun. rewrite (get_allowance_ok n s l Hs Hl) in Hrun.
  cbn [mbind option_bind] in Hrun. rewrite lookup_empty in Hrun. cbn [default app] in Hrun. rewrite insert_empty in Hrun.
  destruct (requests_alone n l incs (total_increases [mkSchedulerRequest l incs]) s (lval (link_allowances s) l))
    as (s1 & Hr & _ & _ & Hv); try done; [unfold total_increases; simpl; lia|]. rewrite Hr in Hrun. by simplify_eq.
Qed.

Lemma alone_after_base n l incs base s s' :
  inv n s → request_ok n (mkSchedulerRequest l incs) → 0 <= base →
  process_bandwidth_requests shuffle [mkSchedulerRequest l incs] s = Some s' →
  link_ok (is_link_allowed_map s) l = true →
  Z.of_nat n * base + sum_Z incs <= max_shard_bandwidth (params s) →
  (∀ l, in_range n l → lval (granted_bandwidth s) l = if link_ok (is_link_allowed_map s) l then base else 0) →
  lval (granted_bandwidth s') l = base + sum_Z incs.
Proof.
  intros Hs Hr Hb Hrun Hok Hfit Hbase. assert (Hl := proj1 Hr). simpl in Hl.
  assert (∀ l, in_range n l → lval (granted_bandwidth s) l <= base) as Hle.
  { intros l' Hl'. rewrite Hbase by done. case_match; lia. }
  rewrite (process_alone n l incs s s'), Hbase, Hok; try done.
  - pose proof (row_le n _ _ _ (proj1 Hl) Hle). lia.
  - pose proof (col_le n _ _ _ (proj2 Hl) Hle). lia.
Qed.

(** * The last stage *)

(** What holds of the scheduler at the end. *)
Record final (n : nat) (s0 s : Scheduler) : Prop := {
  fin_keeps : keeps n s0 s;
  fin_grants : grants_ok n (is_link_allowed_map s) (granted_bandwidth s);
  fin_row : ∀ i, (i < n)%nat → row n (granted_bandwidth s) i <= max_shard_bandwidth (params s);
  fin_col : ∀ i, (i < n)%nat → col n (granted_bandwidth s) i <= max_shard_bandwidth (params s);
  fin_allowances : link_allowances s = link_allowances s0
}.

Lemma row_sum n (m m1 m2 : ShardLinkMap Z) i :
  (i < n)%nat → (∀ l, in_range n l → lval m l = lval m1 l + lval m2 l) → row n m i = row n m1 i + row n m2 i.
Proof.
  intros Hi Hm. unfold row. rewrite (sum_seq_ext _ (λ r, lval m1 (mkLink i r) + lval m2 (mkLink i r))).
  - apply sum_Z_fmap_add.
  - intros r Hr. by apply Hm.
Qed.

Lemma col_sum n (m m1 m2 : ShardLinkMap Z) i :
  (i < n)%nat → (∀ l, in_range n l → lval m l = lval m1 l + lval m2 l) → col n m i = col n m1 i + col n m2 i.
Proof.
  intros Hi Hm. unfold col. rewrite (sum_seq_ext _ (λ r, lval m1 (mkLink r i) + lval m2 (mkLink r i))).
  - apply sum_Z_fmap_add.
  - intros r Hr. by apply Hm.
Qed.

Lemma distribute_remaining_ok n s :
  inv n s → Z.of_nat (n * n) <= umax 64 →
  ∃ s', distribute_remaining s = Some s' ∧ final n s s'.
Proof.
  intros [Hn Hal Hmx [Hgm Hg] Hsb Hrb Hlm Hla] Hsize. unfold distribute_remaining. rewrite Hn.
  set (mx := max_shard_bandwidth (params s)) in *. set (g0 := granted_bandwidth s) in *.
  destruct (distribute_ok n _ Hal (λ i, mx - row n g0 i) (λ i, mx - col n g0 i) (sender_budget s) (receiver_budget s)) as (g & -> & [Hgm' Hg'] & Hrow & Hcol).
  { intros i Hi. destruct (budget_of_ok _ _ _ _ i Hsb Hi) as (x & -> & ? & ?). split; [f_equal|]; lia. }
  { intros i Hi. destruct (budget_of_ok _ _ _ _ i Hrb Hi) as (x & -> & ? & ?). split; [f_equal|]; lia. }
  { done. }
  cbn [mbind option_bind]. unfold iter_links. rewrite Hn.
  assert (∀ l, in_range n l → lval g0 l + lval g l <= mx) as Hover.
  { intros l Hl. pose proof (lval_le_row n g0 l Hl (λ l' Hl', proj1 (Hg l' Hl'))).
    pose proof (lval_le_row n g l Hl (λ l' Hl', proj1 (Hg' l' Hl'))). specialize (Hrow _ (proj1 Hl)). lia. }
  destruct (for_each_inv (λ pre s', ∃ gg, s' = set_granted s gg ∧ lmap_ok n gg ∧
      ∀ l, in_range n l → lval gg l = lval g0 l + if bool_decide (l ∈ pre) then lval g l else 0)
    (λ l s, grant ← link_map_get g l; match grant with Some x => grant_more_bandwidth l x s | None => Some s end)
    (all_links n) s) as (s' & -> & gg & -> & Hggm & Hgg).
  - exists g0. split_and!; [by destruct s|done|]. intros l Hl. rewrite bool_decide_false by set_solver. lia.
  - intros pre l post s1 Hsplit (gg & -> & Hggm & Hgg). pose proof (NoDup_all_links n) as Hnd. rewrite Hsplit in Hnd.
    assert (in_range n l) as Hl by (apply elem_of_all_links; rewrite Hsplit; set_solver).
    apply NoDup_app in Hnd as (_ & Hd & _). assert (l ∉ pre) as Hnew by (intros Hp; apply (Hd l Hp); set_solver).
    assert (lval gg l = lval g0 l) as Hgl by (rewrite Hgg, bool_decide_false by done; lia).
    destruct (link_get_ok n g l Hgm' Hl) as [x Hx]. rewrite Hx. cbn [mbind option_bind].
    assert (∀ gg', (∀ l', in_range n l' → l' ≠ l → lval gg' l' = lval gg l') → lval gg' l = lval g0 l + lval g l →
      ∀ l', in_range n l' → lval gg' l' = lval g0 l' + if bool_decide (l' ∈ pre ++ [l]) then lval g l' else 0) as Hgen.
    { intros gg' Ho He l' Hl'. destruct (decide (l' = l)) as [->|Hne]; [rewrite bool_decide_true by set_solver; lia|].
      rewrite Ho, Hgg by done. do 2 f_equal. erewrite bool_decide_ext; [done|]. set_solver. }
    destruct x as [x|]; [|exists (set_granted s gg); split; [done|]; exists gg; split_and!; [done|done|]; apply Hgen; [done|]].
    2: { rewrite Hgl. unfold lval at 3. rewrite Hx. simpl. lia. }
    unfold grant_more_bandwidth. simpl. destruct (link_get_ok n gg l Hggm Hl) as [y Hy]. rewrite Hy. cbn [mbind option_bind].
    rewrite (get_default _ _ _ Hy), Hgl. apply lval_get in Hx as Hxv. specialize (Hover l Hl). rewrite checked_add_ok by lia. simpl default.
    destruct (link_insert_ok n gg l (lval g0 l + x) Hggm Hl) as (gg' & -> & Hggm' & Hgv%lval_get & Hgo). cbn [mbind option_bind].
    exists (set_granted s gg'). split; [done|]. exists gg'. split_and!; [done|done|]. apply Hgen; [|lia].
    intros l' Hl' Hne. by apply lval_same, Hgo.
  - exists (set_granted s gg). split; [done|].
    assert (∀ l, in_range n l → lval gg l = lval g0 l + lval g l) as Hsum.
    { intros l Hl. rewrite Hgg by done. by rewrite bool_decide_true by (by apply elem_of_all_links). }
    constructor; simpl; [constructor; simpl; try done| | | |done].
    + intros l Hl. rewrite Hsum by done. destruct (Hg' l Hl). fold g0. lia.
    + split; [done|]. intros l Hl. rewrite Hsum by done. destruct (Hg l Hl) as [? Hz1], (Hg' l Hl) as [? Hz2].
      split; [lia|]. intros Hf. rewrite Hz1, Hz2 by done. lia.
    + intros i Hi. rewrite (row_sum n gg g0 g) by done. specialize (Hrow i Hi). fold mx. lia.
    + intros i Hi. rewrite (col_sum n gg g0 g) by done. specialize (Hcol i Hi). fold mx. lia.
Qed.

(** * Requests *)

Record params_ok (p : BandwidthSchedulerParams) : Prop := {
  pk_base : 0 <= base_bandwidth p <= max_single_grant p;
  pk_values : max_single_grant p * 40 <= umax 64;
  pk_mx : 0 <= max_shard_bandwidth p <= umax 64;
  pk_allowance : 0 <= max_allowance p
}.

Lemma interpolate_ok p i :
  params_ok p → 0 <= i <= 40 →
  ∃ v, interpolate (base_bandwidth p) (max_single_grant p) i 40 = Some v ∧ base_bandwidth p <= v <= max_single_grant p.
Proof.
  intros [Hb Hv _ _] Hi. unfold interpolate. rewrite checked_sub_ok by lia. cbn [mbind option_bind].
  rewrite checked_mul_ok by nia. cbn [mbind option_bind]. rewrite checked_div_ok by done. cbn [mbind option_bind].
  set (d := max_single_grant p - base_bandwidth p) in *. assert (0 <= d * i / 40 <= d) as Hd.
  { split; [apply Z.div_pos; nia|]. apply Z.div_le_upper_bound; nia. }
  rewrite checked_add_ok by lia. eexists. split; [done|]. lia.
Qed.

Lemma request_values_ok p :
  params_ok p → ∃ vs, request_values p = Some vs ∧ length vs = BANDWIDTH_REQUEST_VALUES_NUM ∧
    Forall (λ v, base_bandwidth p <= v <= max_single_grant p) vs.
Proof.
  intros Hp. unfold request_values. change (Z.of_nat BANDWIDTH_REQUEST_VALUES_NUM) with 40.
  assert (∀ l, Forall (λ i, (i < 40)%nat) l → ∃ vs,
    mapM (λ i : nat, interpolate (base_bandwidth p) (max_single_grant p) (Z.of_nat i + 1) 40) l = Some vs ∧
    length vs = length l ∧ Forall (λ v, base_bandwidth p <= v <= max_single_grant p) vs) as Hgen.
  { induction l as [|i l IH]; intros HF; [by exists []|]. apply Forall_cons in HF as [Hi HF].
    destruct (interpolate_ok p (Z.of_nat i + 1) Hp) as (v & Hv & Hb); [lia|]. destruct (IH HF) as (vs & Hvs & Hl & HFv).
    exists (v :: vs). cbn [mapM]. rewrite Hv. cbn [mbind option_bind]. rewrite Hvs. split_and!; [done|simpl; lia|by constructor]. }
  destruct (Hgen (seq 0 BANDWIDTH_REQUEST_VALUES_NUM)) as (vs & Hvs & Hl & HF).
  { apply Forall_forall. intros i Hi%elem_of_seq. unfold BANDWIDTH_REQUEST_VALUES_NUM in *. lia. }
  exists vs. by rewrite length_seq in Hl.
Qed.

Definition bitmap_ok (b : list Z) : Prop := length b = BANDWIDTH_REQUEST_BITMAP_SIZE.

Lemma get_bit_ok b idx : bitmap_ok b → (idx < BANDWIDTH_REQUEST_VALUES_NUM)%nat → is_Some (get_bit b idx).
Proof.
  intros Hb Hi. unfold get_bit. rewrite (proj2 (Nat.ltb_lt _ _)) by done.
  assert (is_Some (b !! (idx / 8)%nat)) as [x ->]; [|by eexists].
  apply lookup_lt_is_Some. rewrite Hb. unfold BANDWIDTH_REQUEST_BITMAP_SIZE, BANDWIDTH_REQUEST_VALUES_NUM in *.
  change (40 / 8)%nat with 5%nat. apply Nat.Div0.div_lt_upper_bound. lia.
Qed.

Lemma increases_ok bitmap vs idxs : ∀ total,
  bitmap_ok bitmap → length vs = BANDWIDTH_REQUEST_VALUES_NUM →
  Forall (λ i, (i < BANDWIDTH_REQUEST_VALUES_NUM)%nat) idxs →
  ∃ incs, increases_loop bitmap vs idxs total = Some incs ∧ Forall (λ x, 0 <= x) incs.
Proof.
  induction idxs as [|i idxs IH]; intros total Hb Hv HF; [by exists []|]. apply Forall_cons in HF as [Hi HF].
  cbn [increases_loop]. destruct (get_bit_ok bitmap i Hb Hi) as [[] ->]; cbn [mbind option_bind negb]; [|by apply IH].
  assert (is_Some (vs !! i)) as [v ->] by (apply lookup_lt_is_Some; lia). cbn [mbind option_bind].
  destruct (v <=? total) eqn:E; [by apply IH|]. rewrite checked_sub_ok by lia. cbn [mbind option_bind].
  destruct (IH v Hb Hv HF) as (incs & -> & HFi). cbn [mbind option_bind]. eexists. split; [done|]. constructor; [lia|done].
Qed.

Lemma request_increases_ok p r :
  params_ok p → bitmap_ok (requested_values_bitmap r) →
  ∃ vs incs, request_values p = Some vs ∧
    increases_loop (requested_values_bitmap r) vs (seq 0 BANDWIDTH_REQUEST_VALUES_NUM) (base_bandwidth p) = Some incs ∧
    Forall (λ x, 0 <= x) incs.
Proof.
  intros Hp Hb. destruct (request_values_ok p Hp) as (vs & Hvs & Hvl & _).
  destruct (increases_ok (requested_values_bitmap r) vs (seq 0 BANDWIDTH_REQUEST_VALUES_NUM) (base_bandwidth p)) as (incs & Hinc & HF);
    [exact Hb|exact Hvl| |by exists vs, incs].
  apply Forall_forall. intros k Hk. apply elem_of_seq in Hk as [_ Hk]. exact Hk.
Qed.

(** * Layouts with distinct ids *)

Section layout.
Variables (bs : list AccountId) (ids : list Z) (split : option (gmap Z (list Z))) (parents : option (gmap Z Z)).
Hypothesis Hids : NoDup ids.
Abbreviation layout := (v2_layout bs ids split parents).
Abbreviation n := (length ids).

Lemma shard_index_ok id i : get_shard_index layout id = inr i ↔ ids !! i = Some id.
Proof.
  simpl. rewrite <-index_map_spec by done. destruct (foldl _ _ _ !! id); split; intros; simplify_eq; done.
Qed.

Lemma shard_id_ok i : (i < n)%nat → ∃ id, ids !! i = Some id ∧ get_shard_id layout i = inr id.
Proof. intros Hi. destruct (lookup_lt_is_Some_2 ids i Hi) as [id Hid]. exists id. simpl. by rewrite Hid. Qed.

Lemma load_allowances_ok las :
  Forall (λ la, 0 <= la_allowance la) las →
  ∃ m, for_each (load_allowance layout) las (link_map_new n) = Some m ∧ lmap_ok n m ∧ ∀ l, in_range n l → 0 <= lval m l.
Proof.
  intros HF. destruct (for_each_inv (λ _ m, lmap_ok n m ∧ ∀ l, in_range n l → 0 <= lval m l)
    (load_allowance layout) las (link_map_new n)) as (m & Hrun & Hm & Hnn); [| |by exists m].
  - split; [apply new_lmap_ok|]. intros l Hl. unfold lval. by rewrite link_get_new.
  - intros pre la post m Hsplit [Hm Hnn]. rewrite Hsplit in HF. apply Forall_app in HF as [_ [Hla _]%Forall_cons].
    unfold load_allowance. destruct (get_shard_index _ (la_sender la)) as [e|i] eqn:Es; [by exists m|].
    destruct (get_shard_index _ (la_receiver la)) as [e|j] eqn:Er; [by exists m|].
    apply shard_index_ok, lookup_lt_Some in Es. apply shard_index_ok, lookup_lt_Some in Er.
    destruct (link_insert_ok n m (mkLink i j) (la_allowance la) Hm) as (m' & -> & Hm' & Hv%lval_get & Ho); [done|].
    exists m'. split; [done|]. split; [done|]. intros l Hl. destruct (decide (l = mkLink i j)) as [->|Hne]; [lia|].
    rewrite (lval_same _ _ _ (Ho l Hl Hne)). by apply Hnn.
Qed.

Lemma load_statuses_ok sts :
  ∃ m, for_each (load_status layout) sts (index_map_new n) = Some m ∧ length m = n.
Proof.
  destruct (for_each_inv (λ _ m, length m = n) (load_status layout) sts (index_map_new n)) as (m & Hrun & Hm); [| |by exists m].
  - apply length_replicate.
  - intros _ st _ m _ Hm. unfold load_status. destruct (get_shard_index _ _) as [e|i] eqn:Ei; [by exists m|].
    apply shard_index_ok, lookup_lt_Some in Ei. unfold index_map_insert. rewrite Hm, (proj2 (Nat.ltb_lt _ _)) by done.
    eexists. split; [done|]. by rewrite length_insert.
Qed.

Lemma load_statuses_lookup sts m : for_each (load_status layout) sts (index_map_new n) = Some m → NoDup sts.*1 →
  ∀ i id st, ids !! i = Some id → (id, st) ∈ sts → m !! i = Some (Some st).
Proof.
  intros Hm Hnd. destruct (for_each_inv (λ pre m, length m = n ∧ ∀ i id st, ids !! i = Some id → (id, st) ∈ pre → m !! i = Some (Some st))
    (load_status layout) sts (index_map_new n)) as (m' & Hrun & _ & Hall).
  - split; [apply length_replicate|]. by intros i id st _ ?%not_elem_of_nil.
  - intros pre [id0 st0] post m1 Hl [Hm1 Hall]. unfold load_status. cbn [fst snd]. destruct (get_shard_index layout id0) as [e|i0] eqn:Ei.
    + exists m1. split_and!; [done|done|]. intros i id st Hi [Hin|[= -> ->]%list_elem_of_singleton]%elem_of_app; [by eapply Hall|]. apply shard_index_ok in Hi. congruence.
    + apply shard_index_ok in Ei. unfold index_map_insert. rewrite Hm1, (proj2 (Nat.ltb_lt _ _)) by (by eapply lookup_lt_Some). eexists. split; [done|]. split; [by rewrite length_insert|].
      intros i id st Hi [Hin|[= -> ->]%list_elem_of_singleton]%elem_of_app.
      * rewrite list_lookup_insert_ne; [by eapply Hall|]. intros ->. assert (id = id0) as -> by congruence. rewrite Hl, fmap_app, fmap_cons in Hnd. apply NoDup_app in Hnd as (_ & Hnd & _).
        apply (Hnd id0); [by apply (list_elem_of_fmap_2 fst pre (id0, st))|by left].
      * assert (i = i0) as -> by (eapply NoDup_lookup; [exact Hids|exact Hi|exact Ei]). apply list_lookup_insert_eq. rewrite Hm1. by eapply lookup_lt_Some.
  - rewrite Hm in Hrun. injection Hrun as <-. exact Hall.
Qed.

(** Shards without a status. *)
Lemma load_statuses_none sts m : for_each (load_status layout) sts (index_map_new n) = Some m → ∀ i id, ids !! i = Some id → id ∉ sts.*1 → m !! i = Some None.
Proof.
  intros Hm. destruct (for_each_inv (λ pre m, length m = n ∧ ∀ i id, ids !! i = Some id → id ∉ pre.*1 → m !! i = Some None)
    (load_status layout) sts (index_map_new n)) as (m' & Hrun & _ & Hall).
  - split; [apply length_replicate|]. intros i id Hi _. apply lookup_replicate_2. by eapply lookup_lt_Some.
  - intros pre [id0 st0] post m1 _ [Hm1 Hall]. unfold load_status. cbn [fst snd]. setoid_rewrite fmap_app. setoid_rewrite not_elem_of_app. destruct (get_shard_index layout id0) as [e|i0] eqn:Ei.
    + exists m1. split_and!; [done|done|]. intros i id Hi [Hn _]. by eapply Hall.
    + apply shard_index_ok in Ei. unfold index_map_insert. rewrite Hm1, (proj2 (Nat.ltb_lt _ _)) by (by eapply lookup_lt_Some). eexists. split; [done|]. split; [by rewrite length_insert|].
      intros i id Hi [Hn Hne]. rewrite list_lookup_insert_ne; [by eapply Hall|]. intros ->. apply Hne. cbn. apply list_elem_of_singleton. congruence.
  - rewrite Hm in Hrun. injection Hrun as <-. exact Hall.
Qed.

Lemma calculate_allowed_ok sts i j :
  length sts = n → (i < n)%nat → (j < n)%nat → is_Some (calculate_is_link_allowed i j sts).
Proof.
  intros Hl Hi Hj. unfold calculate_is_link_allowed, index_map_get.
  destruct (lookup_lt_is_Some_2 sts j) as [[r|] ->]; [lia| |]; cbn [mbind option_bind]; [|by eexists].
  destruct (last_chunk_missing r); [by eexists|]. destruct (lookup_lt_is_Some_2 sts i) as [x ->]; [lia|]. cbn [mbind option_bind].
  destruct (match x with Some st => last_chunk_missing st | None => false end); [by eexists|].
  destruct (is_fully_congested r); by eexists.
Qed.

Lemma load_allowed_ok sts :
  length sts = n →
  ∃ m, for_each (load_allowed sts) (all_links n) (link_map_new n) = Some m ∧ lmap_ok n m ∧
    ∀ l, in_range n l → calculate_is_link_allowed (sender l) (receiver l) sts = Some (link_ok m l).
Proof.
  intros Hl. destruct (for_each_inv (λ pre m, lmap_ok n m ∧
      ∀ l, l ∈ pre → calculate_is_link_allowed (sender l) (receiver l) sts = Some (link_ok m l))
    (load_allowed sts) (all_links n) (link_map_new n)) as (m & Hrun & Hm & Hall).
  - split; [apply new_lmap_ok|set_solver].
  - intros pre l post m Hsplit [Hm Hall].
    assert (∀ l', l' ∈ pre ++ l :: post → in_range n l') as Hr by (intros l' Hl'; apply elem_of_all_links; by rewrite Hsplit).
    assert (in_range n l) as Hlr by (apply Hr, elem_of_app; right; by left). unfold load_allowed.
    destruct (calculate_allowed_ok sts (sender l) (receiver l) Hl) as [b Hb]; [apply Hlr..|]. rewrite Hb. cbn [mbind option_bind].
    destruct (link_insert_ok n m l b Hm Hlr) as (m' & -> & Hm' & Hv & Ho). exists m'. split; [done|]. split; [done|].
    intros l' Hl'. destruct (decide (l' = l)) as [->|Hne]; [unfold link_ok; by rewrite Hv|].
    assert (l' ∈ pre) as Hpre by (by apply elem_of_app in Hl' as [?|?%list_elem_of_singleton]).
    unfold link_ok. rewrite Ho; [by apply Hall| |done]. apply Hr, elem_of_app. by left.
  - exists m. split_and!; [done|done|]. intros l Hlr. by apply Hall, elem_of_all_links.
Qed.

Lemma new_request_ok params from r :
  params_ok params → bitmap_ok (requested_values_bitmap r) →
  ∃ q, new_request from r params layout = Some q ∧ Forall (request_ok n) (option_list q).
Proof.
  intros Hp Hb. unfold new_request.
  destruct (get_shard_index layout from) as [e|i] eqn:Es; [by exists None|].
  destruct (get_shard_index layout (to_shard r)) as [e|j] eqn:Er; [by exists None|].
  destruct (request_increases_ok params r Hp Hb) as (vs & incs & Hvs & Hinc & HF).
  rewrite (bind_value _ _ _ Hvs), (bind_value _ _ _ Hinc).
  eexists. split; [reflexivity|]. case_bool_decide as Hne; [constructor|]. apply Forall_singleton.
  apply shard_index_ok, lookup_lt_Some in Es. apply shard_index_ok, lookup_lt_Some in Er. by split_and!.
Qed.

Lemma load_requests_ok params reqs :
  params_ok params → Forall (λ kv, Forall (λ r, bitmap_ok (requested_values_bitmap r)) kv.2) reqs →
  ∃ rs, for_each (λ kv, for_each (load_request params layout kv.1) kv.2) reqs [] = Some rs ∧ Forall (request_ok n) rs.
Proof.
  intros Hp HF. apply (for_each_inv (λ _ rs, Forall (request_ok n) rs)); [done|].
  intros pre [from rl] post rs Hsplit Hrs. rewrite Hsplit in HF. apply Forall_app in HF as [_ [HFr _]%Forall_cons]. simpl in HFr.
  apply (for_each_inv (λ _ rs, Forall (request_ok n) rs)); [done|].
  intros pre' r post' rs' Hsplit' Hrs'. simpl in Hsplit'. rewrite Hsplit' in HFr. apply Forall_app in HFr as [_ [Hb _]%Forall_cons].
  destruct (new_request_ok params from r Hp Hb) as (q & Hq & HFq). unfold load_request. cbn [fst]. rewrite Hq. cbn [mbind option_bind].
  eexists. split; [reflexivity|]. by apply Forall_app.
Qed.

(** * The result *)

(** A loop over the links whose body reads one link and records it under the shard ids. *)
Lemma final_granted_ok (s : Scheduler) :
  shard_layout s = layout → lmap_ok n (granted_bandwidth s) →
  ∃ gm, get_final_granted_bandwidth s = Some gm ∧
    ∀ i j a b, ids !! i = Some a → ids !! j = Some b →
      get_granted_bandwidth gm a b = lval (granted_bandwidth s) (mkLink i j).
Proof.
  intros Hlay Hm. unfold get_final_granted_bandwidth, iter_links, num_links. rewrite Hlay.
  change (Z.to_nat (num_shards layout)) with (Z.to_nat (Z.of_nat n)). rewrite Nat2Z.id.
  set (get l := default None (link_map_get (granted_bandwidth s) l)).
  match goal with |- context [for_each ?f _ _] => destruct (for_each_inv (λ pre gm,
      ∀ i j a b, ids !! i = Some a → ids !! j = Some b →
        gm !! (a, b) = if bool_decide (mkLink i j ∈ pre) then get (mkLink i j) else None)
    f (all_links n) ∅) as (gm & Hrun & Hgm) end.
  - intros i j a b _ _. rewrite bool_decide_false by apply not_elem_of_nil. apply lookup_empty.
  - intros pre l post gm Hsplit Hgm.
    assert (in_range n l) as Hl by (apply elem_of_all_links; rewrite Hsplit; apply elem_of_app; right; by left).
    destruct (link_get_ok n _ l Hm Hl) as [g Hg]. rewrite Hg. cbn [mbind option_bind].
    assert (get l = g) as Hgl by (unfold get; by rewrite Hg).
    destruct (shard_id_ok (sender l) (proj1 Hl)) as (a0 & Ha0 & ->), (shard_id_ok (receiver l) (proj2 Hl)) as (b0 & Hb0 & ->).
    cbn [unwrap mbind option_bind].
    assert (∀ i j a b, ids !! i = Some a → ids !! j = Some b → mkLink i j ≠ l → (a0, b0) ≠ (a, b)) as Hne.
    { intros i j a b Hi Hj Hne [= -> ->]. apply Hne. destruct l as [si ri]. simpl in *.
      f_equal; eapply NoDup_lookup; eauto. }
    assert (∀ i j a b, ids !! i = Some a → ids !! j = Some b → mkLink i j ≠ l →
      gm !! (a, b) = if bool_decide (mkLink i j ∈ pre ++ [l]) then get (mkLink i j) else None) as Hother.
    { intros i j a b Hi Hj Hn. rewrite (Hgm i j a b Hi Hj). erewrite bool_decide_ext; [done|].
      rewrite elem_of_app, list_elem_of_singleton. naive_solver. }
    assert (∀ i j a b, ids !! i = Some a → ids !! j = Some b → mkLink i j = l → a = a0 ∧ b = b0) as Hsame.
    { intros i j a b Hi Hj <-. simpl in *. split; congruence. }
    assert (l ∈ pre ++ [l]) as Hin by (apply elem_of_app; right; by left).
    destruct g as [g|]; eexists; (split; [done|]); intros i j a b Hi Hj;
      (destruct (decide (mkLink i j = l)) as [Heq|Hn]; [|try rewrite lookup_insert_ne by (by eapply Hne); by apply Hother]).
    + destruct (Hsame i j a b Hi Hj Heq) as [-> ->]. rewrite Heq, Hgl, lookup_insert_eq, bool_decide_true by done. done.
    + pose proof (NoDup_all_links n) as Hnd. rewrite Hsplit in Hnd. apply NoDup_app in Hnd as (_ & Hd & _).
      rewrite (Hgm i j a b Hi Hj), Heq, Hgl. by destruct (bool_decide _), (bool_decide _).
  - exists gm. split; [done|]. intros i j a b Hi Hj. unfold get_granted_bandwidth, lval. rewrite (Hgm i j a b Hi Hj).
    rewrite bool_decide_true; [done|]. apply elem_of_all_links.
    split; simpl; eapply lookup_lt_Some; eauto.
Qed.

(** An allowance between shards of the layout, in its range. *)
Definition allowance_ok (lim : Z) (la : LinkAllowance) : Prop := 0 <= la_allowance la <= lim ∧ la_sender la ∈ ids ∧ la_receiver la ∈ ids.

(** The allowances of a state: at most one per link. *)
Definition allowances_ok (lim : Z) (las : list LinkAllowance) : Prop := Forall (allowance_ok lim) las ∧ (length las <= n * n)%nat.

Lemma update_state_ok (s : Scheduler) lim :
  shard_layout s = layout → lmap_ok n (link_allowances s) →
  (∀ l, in_range n l → 0 <= lval (link_allowances s) l <= lim) →
  ∃ las, update_scheduler_state s = Some las ∧ allowances_ok lim las.
Proof.
  intros Hlay Hm Hb. unfold update_scheduler_state, iter_links, num_links. rewrite Hlay.
  change (Z.to_nat (num_shards layout)) with (Z.to_nat (Z.of_nat n)). rewrite Nat2Z.id.
  destruct (for_each_inv (λ pre las, Forall (allowance_ok lim) las ∧ (length las <= length pre)%nat) (λ l acc,
    a ← link_map_get (link_allowances s) l;
    match a with
    | Some a => from ← unwrap (get_shard_id layout (sender l)); to ← unwrap (get_shard_id layout (receiver l)); Some (acc ++ [mkLinkAllowance from to a])
    | None => Some acc
    end) (all_links n) []) as (las & Hrun & HF & Hlen); [done| |by exists las; rewrite length_all_links in Hlen].
  intros pre l post las Hsplit [HF Hlen].
  assert (in_range n l) as Hl by (apply elem_of_all_links; rewrite Hsplit; apply elem_of_app; right; by left).
  destruct (link_get_ok n _ l Hm Hl) as [g Hg]. rewrite Hg. cbn [mbind option_bind].
  destruct (shard_id_ok (sender l) (proj1 Hl)) as (a0 & Ha0 & ->), (shard_id_ok (receiver l) (proj2 Hl)) as (b0 & Hb0 & ->).
  cbn [unwrap mbind option_bind]. rewrite length_app. cbn [length]. destruct g as [g|]; [|exists las; split_and!; [done|done|lia]].
  eexists. split; [done|]. split; [|rewrite length_app; cbn; lia]. apply Forall_app. split; [done|].
  apply Forall_singleton. split; [apply lval_get in Hg; cbn; rewrite <-Hg; by apply Hb|]. split; by eapply list_elem_of_lookup_2.
Qed.

Lemma sum_by_index (f : Z → Z) (g : nat → Z) :
  (∀ j b, ids !! j = Some b → f b = g j) → sum_Z (f <$> ids) = sum_Z (g <$> seq 0 n).
Proof.
  intros Hfg. f_equal. apply list_eq. intros j. rewrite !list_lookup_fmap. destruct (ids !! j) as [b|] eqn:Hb.
  - pose proof (lookup_lt_Some _ _ _ Hb). rewrite lookup_seq_lt by done. simpl. f_equal. by apply Hfg.
  - apply lookup_ge_None in Hb. rewrite lookup_seq_ge by done. done.
Qed.

(** The whole run, in terms of the maps of links. *)
Lemma schedule_ok params reqs allowed las seed :
  n ≠ 0%nat → params_ok params → Z.of_nat (n * n) <= umax 64 → Forall (request_ok n) reqs → lmap_ok n allowed →
  lmap_ok n las → (∀ l, in_range n l → 0 <= lval las l) →
  let s0 := mkScheduler layout params allowed (index_map_new n) (index_map_new n) las (link_map_new n) seed in
  ∃ s gm, schedule_bandwidth shuffle reqs s0 = Some (s, gm) ∧ shard_layout s = layout ∧
    grants_ok n allowed (granted_bandwidth s) ∧
    (∀ i, (i < n)%nat → row n (granted_bandwidth s) i <= max_shard_bandwidth params) ∧
    (∀ i, (i < n)%nat → col n (granted_bandwidth s) i <= max_shard_bandwidth params) ∧
    lmap_ok n (link_allowances s) ∧
    (∀ l, in_range n l → 0 <= lval (link_allowances s) l <= max_allowance params) ∧
    (Z.of_nat n * base_bandwidth params <= max_shard_bandwidth params → ∀ l, in_range n l →
      link_ok allowed l = true → base_bandwidth params <= lval (granted_bandwidth s) l) ∧
    (∀ l incs, reqs = [mkSchedulerRequest l incs] → link_ok allowed l = true →
      Z.of_nat n * base_bandwidth params + sum_Z incs <= max_shard_bandwidth params →
      base_bandwidth params + sum_Z incs <= lval (granted_bandwidth s) l) ∧
    (∀ i j a b, ids !! i = Some a → ids !! j = Some b →
      get_granted_bandwidth gm a b = lval (granted_bandwidth s) (mkLink i j)).
Proof.
  intros Hn0 [Hbase Hval Hmx Hma] Hsize Hreqs Hal Hlas Hnn s0. unfold schedule_bandwidth.
  assert (num_links s0 = n) as Hn by (unfold num_links; simpl; lia).
  assert (fresh n s0) as Hfresh by (by constructor).
  destruct (init_budgets_ok n s0 Hfresh) as (s1 & -> & Hl1 & Hp1 & Ha1 & Hla1 & Hg1 & Hs1 & Hr1). cbn [mbind option_bind].
  destruct (increase_allowances_ok n s1) as (a & -> & Ha & Hab); try done.
  { unfold num_links. by rewrite Hl1. } { by rewrite Hp1; apply Hmx. } { by rewrite Hp1. } { by rewrite Hla1. }
  { rewrite Hla1. exact Hnn. }
  cbn [mbind option_bind]. rewrite Hp1 in Hab.
  assert (inv n (set_allowances s1 a)) as Hinv.
  { constructor; simpl; rewrite ?Hp1, ?Ha1, ?Hg1; try done.
    - unfold num_links. simpl. by rewrite Hl1.
    - split; [apply new_lmap_ok|]. intros l Hl. unfold lval. by rewrite link_get_new. }
  destruct (grant_base_ok n _ Hinv) as (s2 & -> & Hinv2 & Hk2 & Hb2); simpl; rewrite ?Hp1; [apply Hbase| |].
  { intros l Hl. rewrite Hg1. unfold lval. by rewrite link_get_new. }
  simpl in Hb2. rewrite Hp1, Ha1 in Hb2. cbn [mbind option_bind].
  destruct (process_requests_ok n reqs s2 Hinv2 Hreqs) as (s3 & Hrun3 & Hinv3 & Hk3). rewrite Hrun3. cbn [mbind option_bind].
  destruct (distribute_remaining_ok n s3 Hinv3 Hsize) as (s4 & -> & [Hk4 Hg4 Hrow Hcol Hal4]). cbn [mbind option_bind].
  pose proof (keeps_trans _ _ _ _ Hk2 (keeps_trans _ _ _ _ Hk3 Hk4)) as [Hkl Hkp Hka _]. simpl in *.
  assert (shard_layout s4 = layout) as Hlay by congruence.
  destruct (final_granted_ok s4 Hlay (proj1 Hg4)) as (gm & -> & Hgm). cbn [mbind option_bind].
  rewrite Hkp, Hp1 in Hrow, Hcol. rewrite Hka, Ha1 in Hg4.
  exists s4, gm. split_and!; try done.
  - rewrite Hal4. apply Hinv3.
  - rewrite Hal4. intros l Hl. pose proof (inv_allowances _ _ Hinv3 l Hl) as HA. destruct Hk2 as [_ E2 _ _], Hk3 as [_ E3 _ _]. simpl in *.
    by rewrite E3, E2, Hp1 in HA.
  - intros Hfit l Hl Hok. specialize (Hb2 Hfit l Hl). simpl in Hok, Hb2. rewrite Hok in Hb2.
    pose proof (kp_grows _ _ _ (keeps_trans _ _ _ _ Hk3 Hk4) l Hl). lia.
  - intros l incs -> Hok Hfit. rewrite Forall_singleton in Hreqs. destruct Hk2 as [_ E2 A2 _]. simpl in E2, A2.
    pose proof (kp_grows _ _ _ Hk4 l (proj1 Hreqs)) as Hgrow.
    assert (lval (granted_bandwidth s3) l = base_bandwidth params + sum_Z incs) as Hv; [|lia].
    apply (alone_after_base n l incs (base_bandwidth params) s2 s3); try done; rewrite ?A2, ?E2, ?Ha1, ?Hp1; [lia|done|done|].
    apply Hb2. pose proof (sum_Z_nonneg incs (proj2 (proj2 Hreqs))) as Hi. simpl in Hi. lia.
Qed.

(** What a run is given: the persisted allowances, the requests of the block. *)
Record run_input (params : BandwidthSchedulerParams) (las : list LinkAllowance)
    (reqs : list (Z * list BandwidthRequest)) : Prop := {
  ri_shards : ids ≠ [];
  ri_size : Z.of_nat (n * n) <= umax 64;
  ri_params : params_ok params;
  ri_allowances : Forall (λ la, 0 <= la_allowance la) las;
  ri_bitmaps : Forall (λ kv, Forall (λ r, bitmap_ok (requested_values_bitmap r)) kv.2) reqs
}.

Lemma scheduler_run_ok params las reqs sts seed :
  run_input params las reqs →
  ∃ las' gm g statuses,
    run shuffle layout las params reqs sts seed = Some (las', gm) ∧
    for_each (load_status layout) sts (index_map_new n) = Some statuses ∧
    allowances_ok (max_allowance params) las' ∧
    (∀ i j a b, ids !! i = Some a → ids !! j = Some b → get_granted_bandwidth gm a b = lval g (mkLink i j)) ∧
    (∀ l, in_range n l → 0 <= lval g l) ∧
    (∀ i, (i < n)%nat → row n g i <= max_shard_bandwidth params) ∧
    (∀ i, (i < n)%nat → col n g i <= max_shard_bandwidth params) ∧
    (∀ l, in_range n l → ∃ ok, calculate_is_link_allowed (sender l) (receiver l) statuses = Some ok ∧
      (ok = false → lval g l = 0) ∧
      (ok = true → Z.of_nat n * base_bandwidth params <= max_shard_bandwidth params → base_bandwidth params <= lval g l) ∧
      (ok = true → ∀ incs,
        for_each (λ kv, for_each (load_request params layout kv.1) kv.2) reqs [] = Some [mkSchedulerRequest l incs] →
        Z.of_nat n * base_bandwidth params + sum_Z incs <= max_shard_bandwidth params →
        base_bandwidth params + sum_Z incs <= lval g l)).
Proof.
  intros [Hne Hsize Hp Hlas Hbm]. unfold run. change (num_shards layout) with (Z.of_nat n). rewrite Nat2Z.id.
  assert (n ≠ 0%nat) as Hn0 by (by destruct ids). rewrite (proj2 (Z.eqb_neq _ _)) by lia.
  destruct (load_allowances_ok las Hlas) as (lm & Hlm & Hlmo & Hlmn). rewrite (bind_value _ _ _ Hlm).
  destruct (load_statuses_ok sts) as (statuses & Hst & Hstl). rewrite (bind_value _ _ _ Hst).
  destruct (load_allowed_ok statuses Hstl) as (allowed & Ha & Hao & Hal). rewrite (bind_value _ _ _ Ha).
  destruct (load_requests_ok params reqs Hp Hbm) as (rs & Hrs & HF). rewrite (bind_value _ _ _ Hrs).
  destruct (schedule_ok params rs allowed lm seed Hn0 Hp Hsize HF Hao Hlmo Hlmn)
    as (s & gm & Hs & Hlay & [Hgm Hg] & Hrow & Hcol & Hlao & Hlab & Hbase & Halone & Hget).
  rewrite (bind_value _ _ _ Hs). destruct (update_state_ok s (max_allowance params) Hlay Hlao Hlab) as (las' & Hu & HFu).
  rewrite (bind_value _ _ _ Hu). exists las', gm, (granted_bandwidth s), statuses. split_and!; try done.
  - intros l Hl. by apply Hg.
  - intros l Hl. exists (link_ok allowed l). split_and!; [by apply Hal|by apply Hg| |].
    + intros Hok Hfit. by apply Hbase.
    + intros Hok incs Hreqs. rewrite Hrs in Hreqs. apply Halone; [by simplify_eq|done].
Qed.

(** The same by the ids of the shards. *)
Lemma run_summary params las reqs sts seed :
  run_input params las reqs →
  ∃ las' gm statuses, run shuffle layout las params reqs sts seed = Some (las', gm) ∧
    for_each (load_status layout) sts (index_map_new n) = Some statuses ∧ allowances_ok (max_allowance params) las' ∧
    (∀ from, from ∈ ids → sum_Z ((λ to, get_granted_bandwidth gm from to) <$> ids) <= max_shard_bandwidth params) ∧
    (∀ to, to ∈ ids → sum_Z ((λ from, get_granted_bandwidth gm from to) <$> ids) <= max_shard_bandwidth params) ∧
    ∀ i j from to, ids !! i = Some from → ids !! j = Some to →
      ∃ ok, calculate_is_link_allowed i j statuses = Some ok ∧
        (ok = false → get_granted_bandwidth gm from to = 0) ∧
        (ok = true → Z.of_nat n * base_bandwidth params <= max_shard_bandwidth params →
         base_bandwidth params <= get_granted_bandwidth gm from to).
Proof.
  intros Hin. destruct (scheduler_run_ok params las reqs sts seed Hin) as (las' & gm & g & sts' & Hrun & Hst & HF & Hget & _ & Hrow & Hcol & Hok).
  exists las', gm, sts'. split_and!; [done|done|done|..].
  - intros from [i Hi]%list_elem_of_lookup. rewrite (sum_by_index _ (λ j, lval g (mkLink i j))).
    + apply Hrow. by eapply lookup_lt_Some.
    + intros j b Hj. by apply Hget.
  - intros to [j Hj]%list_elem_of_lookup. rewrite (sum_by_index _ (λ i, lval g (mkLink i j))).
    + apply Hcol. by eapply lookup_lt_Some.
    + intros i a Hi. by apply Hget.
  - intros i j from to Hi Hj. rewrite (Hget i j from to Hi Hj).
    destruct (Hok (mkLink i j)) as (ok & Ha & Hf & Ht & _); [split; simpl; by eapply lookup_lt_Some|]. by exists ok.
Qed.

(** Grants follow the shard statuses.  A run grants nothing on a link that the statuses forbid (the
    receiver missed its chunk or is unknown, the sender missed its chunk, or the receiver is
    fully congested and the sender is not its allowed shard), and, when the base bandwidth of all
    links fits into the limit, at least the base bandwidth on every link they allow. *)
Theorem grants_follow_statuses params las reqs sts seed :
  run_input params las reqs →
  ∃ las' gm statuses, run shuffle layout las params reqs sts seed = Some (las', gm) ∧
    for_each (load_status layout) sts (index_map_new n) = Some statuses ∧
    ∀ i j from to, ids !! i = Some from → ids !! j = Some to →
      ∃ ok, calculate_is_link_allowed i j statuses = Some ok ∧
        (ok = false → get_granted_bandwidth gm from to = 0) ∧
        (ok = true → Z.of_nat n * base_bandwidth params <= max_shard_bandwidth params →
         base_bandwidth params <= get_granted_bandwidth gm from to).
Proof.
  intros Hin. destruct (run_summary params las reqs sts seed Hin) as (las' & gm & sts' & Hrun & Hst & HF & Hrow & Hcol & Hok).
  by exists las', gm, sts'.
Qed.
End layout.
End scheduler.

(** * A concrete run *)

Module Example.
Definition params : BandwidthSchedulerParams := mkParams 61139 4500000 4194304 4194304 4500000.
Definition ids : list Z := [11; 0; 5; 7; 2; 9].
Definition statuses : list (Z * ShardStatus) :=
  [(0, mkShardStatus false false None); (2, mkShardStatus true false (Some 1%nat)); (5, mkShardStatus false true None);
   (7, mkShardStatus false false None); (9, mkShardStatus false false None); (11, mkShardStatus false false None)].
Definition requests : list (Z * list BandwidthRequest) :=
  [(0, [mkRequest 7 [0; 0; 0; 0; 128]; mkRequest 77 [1; 0; 0; 0; 0]]); (9, [mkRequest 7 [1; 2; 0; 0; 0]])].
Definition allowances : list LinkAllowance := [mkLinkAllowance 9 7 4500000; mkLinkAllowance 3 4 17].
Definition no_shuffle (r : unit) (l : list SchedulerBandwidthRequest) := (l, r).

Lemma input_ok : run_input ids params allowances requests.
Proof.
  constructor; [done|by vm_compute| | |].
  - constructor; by vm_compute.
  - repeat constructor; by vm_compute.
  - repeat constructor.
Qed.

Lemma ids_nodup : NoDup ids.
Proof. apply (bool_decide_unpack _). by vm_compute. Qed.
End Example.

Abbreviation example_run :=
  (run Example.no_shuffle (v2_layout (AccountId := Z) [] Example.ids None None) Example.allowances Example.params
     Example.requests Example.statuses tt).

Lemma grants_follow_statuses_witness :
  ∃ las' gm statuses, example_run = Some (las', gm) ∧
    for_each (load_status (v2_layout (AccountId := Z) [] Example.ids None None)) Example.statuses (index_map_new 6) = Some statuses ∧
    ∀ i j from to, Example.ids !! i = Some from → Example.ids !! j = Some to →
      ∃ ok, calculate_is_link_allowed i j statuses = Some ok ∧
        (ok = false → get_granted_bandwidth gm from to = 0) ∧
        (ok = true → 6 * 61139 <= 4500000 → 61139 <= get_granted_bandwidth gm from to).
Proof.
  apply (grants_follow_statuses Example.no_shuffle (λ r l, reflexivity l) [] Example.ids None None Example.ids_nodup Example.params).
  exact Example.input_ok.
Defined.

(** In that run the link with the allowance is served first, and the shard that missed its chunk
    gets nothing. *)
Example run_grants :
  match example_run with
  | Some (_, gm) =>
      get_granted_bandwidth gm 9 7 = 1726632 ∧ get_granted_bandwidth gm 0 7 = 693342 ∧ get_granted_bandwidth gm 0 5 = 0
  | None => False
  end.
Proof. by vm_compute. Qed.
