(* ===== verification/BandwidthRequests.v ===== *)
(** The path of a bandwidth request from the receipts a shard has buffered to the grant: the request
    that is built from the receipt sizes ([make_from_receipt_sizes]) asks for enough to send the
    first receipt, and a scheduler that has no other request to serve grants it.

    Requires the scheduler ([Bandwidth], [BandwidthCorrect]). *)

From Stdlib Require Import ZArith Lia.
From stdpp Require Import base list option gmap numbers.
From S2P Require Import Prelude ShardLayout Bandwidth BandwidthCorrect.
Local Open Scope Z_scope.

(** * Bitmaps *)

Lemma byte_index idx : (idx < BANDWIDTH_REQUEST_VALUES_NUM)%nat → (idx / 8 < BANDWIDTH_REQUEST_BITMAP_SIZE)%nat.
Proof.
  unfold BANDWIDTH_REQUEST_BITMAP_SIZE, BANDWIDTH_REQUEST_VALUES_NUM. change (40 / 8)%nat with 5%nat. intros Hi.
  apply Nat.Div0.div_lt_upper_bound. lia.
Qed.

Lemma set_bit_spec data idx data' :
  set_bit data idx true = Some data' →
  length data' = length data ∧ get_bit data' idx = Some true ∧
  ∀ i, get_bit data i = Some true → get_bit data' i = Some true.
Proof.
  unfold set_bit, get_bit. destruct (idx <? _)%nat eqn:Hi; [|done].
  destruct (data !! (idx / 8)%nat) as [b|] eqn:Hb; [|done]. cbn [mbind option_bind]. intros [= <-].
  pose proof (lookup_lt_Some _ _ _ Hb) as Hlt. split_and!; [apply length_insert| |].
  - rewrite list_lookup_insert_eq by done. cbn [mbind option_bind]. by rewrite Z.setbit_eq by lia.
  - intros i. destruct (i <? _)%nat; [|done]. destruct (decide (idx / 8 = i / 8)%nat) as [E|Hne].
    + rewrite <-E, Hb, list_lookup_insert_eq by done. cbn [mbind option_bind]. intros [= Ht].
      by rewrite Z.setbit_eqb, Ht, orb_true_r by lia.
    + by rewrite list_lookup_insert_ne.
Qed.

Lemma not_all_zeros data idx : get_bit data idx = Some true → is_all_zeros data = false.
Proof.
  intros Hg. unfold is_all_zeros. apply bool_decide_eq_false. intros ->. unfold get_bit in Hg.
  destruct (idx <? _)%nat eqn:Hi; [|done]. apply Nat.ltb_lt, byte_index in Hi.
  rewrite lookup_replicate_2 in Hg by done. cbn [mbind option_bind] in Hg. by rewrite Z.bits_0 in Hg.
Qed.

(** * Building a request *)

(** The search stops at the first value that is large enough, when there is one. *)
Lemma advance_spec values total fuel : ∀ cur k v,
  values !! k = Some v → total <= v → (cur <= k)%nat → (k < cur + fuel)%nat →
  ∃ w, values !! advance values fuel cur total = Some w ∧ total <= w.
Proof.
  induction fuel as [|fuel IH]; intros cur k v Hk Hv Hle Hf; [lia|]. cbn [advance].
  destruct (lookup_lt_is_Some_2 values cur) as [w Hw]; [apply lookup_lt_Some in Hk; lia|]. rewrite Hw.
  destruct (w <? total) eqn:E; [|exists w; split; [done|lia]].
  apply (IH (S cur) k v Hk Hv); [|lia]. destruct (decide (cur = k)) as [->|]; [|lia].
  assert (w = v) by congruence. lia.
Qed.

Lemma sizes_loop_mono {E} params values (sizes : list (E + Z)) : ∀ total cur bm bm',
  sizes_loop params values sizes total cur bm = Some (inr bm') →
  length bm' = length bm ∧ ∀ i, get_bit bm i = Some true → get_bit bm' i = Some true.
Proof.
  induction sizes as [|[e|x] sizes IH]; intros total cur bm bm'; cbn [sizes_loop]; [by intros [= <-]|done|].
  destruct (checked_add 64 total x) as [t|]; [|done]. cbn [mbind option_bind].
  destruct (t <=? base_bandwidth params); [apply IH|]. set (c := advance _ _ _ _).
  destruct (bool_decide (c = length values)); [by intros [= <-]|].
  destruct (set_bit bm c true) as [bm1|] eqn:Hs; [|done]. cbn [mbind option_bind]. intros Hr.
  apply set_bit_spec in Hs as (Hl & _ & Hm). apply IH in Hr as [Hl' Hm']. split; [lia|]. auto.
Qed.

(** The values go up to the largest grant. *)
Lemma last_value params vs :
  params_ok params → request_values params = Some vs → vs !! 39%nat = Some (max_single_grant params).
Proof.
  intros Hp Hvs. unfold request_values in Hvs. rewrite mapM_Some in Hvs.
  apply (Forall2_lookup_l _ _ _ 39%nat 39%nat) in Hvs as (v & Hv & Hi); [|done]. rewrite Hv. f_equal.
  unfold interpolate in Hi. destruct Hp as [Hb Hm _ _]. change (Z.of_nat 39 + 1) with 40 in Hi.
  change (Z.of_nat BANDWIDTH_REQUEST_VALUES_NUM) with 40 in Hi. rewrite checked_sub_ok in Hi by lia.
  cbn [mbind option_bind] in Hi. rewrite checked_mul_ok in Hi by nia. cbn [mbind option_bind] in Hi.
  rewrite checked_div_ok in Hi by done. cbn [mbind option_bind] in Hi. rewrite Z.div_mul in Hi by done.
  rewrite checked_add_ok in Hi by lia. simplify_eq. lia.
Qed.

(** A first receipt above the base bandwidth: the request asks for a value that covers it. *)
Lemma make_covers_first {E} to (sizes : list (E + Z)) params x req :
  params_ok params → base_bandwidth params < x <= max_single_grant params →
  make_from_receipt_sizes to (inr x :: sizes) params = Some (inr req) →
  ∃ r vs k v, req = Some r ∧ to_shard r = to mod 2 ^ 16 ∧ bitmap_ok (requested_values_bitmap r) ∧
    request_values params = Some vs ∧ get_bit (requested_values_bitmap r) k = Some true ∧ vs !! k = Some v ∧ x <= v.
Proof.
  intros Hp Hx. unfold make_from_receipt_sizes.
  destruct (request_values_ok params Hp) as (vs & Hvs & Hlen & _). rewrite (bind_value _ _ _ Hvs).
  pose proof (last_value params vs Hp Hvs) as Hlast. cbn [sizes_loop].
  rewrite checked_add_ok by (destruct Hp; lia). cbn [mbind option_bind]. rewrite Z.add_0_l.
  rewrite (proj2 (Z.leb_gt _ _)) by lia.
  destruct (advance_spec vs x (length vs) 0 39 _ Hlast) as (w & Hw & Hxw); [lia|lia|rewrite Hlen; unfold BANDWIDTH_REQUEST_VALUES_NUM; lia|].
  set (c := advance _ _ _ _) in *. rewrite bool_decide_false by (apply lookup_lt_Some in Hw; lia).
  destruct (set_bit new_bitmap c true) as [bm|] eqn:Hs; [|done]. cbn [mbind option_bind].
  destruct (sizes_loop _ _ _ _ _ _) as [[e|bm']|] eqn:Hr; [done| |done]. cbn [mbind option_bind].
  apply set_bit_spec in Hs as (Hl & Hc & _). apply sizes_loop_mono in Hr as [Hl' Hm].
  rewrite (not_all_zeros bm' c) by auto. intros [= <-]. eexists _, vs, c, w. split_and!; [done|done| |done|auto|done|done].
  unfold bitmap_ok. simpl. rewrite Hl', Hl. apply length_replicate.
Qed.

(** * From a request to its increases *)

(** The increases reach the largest requested value: they cover every value whose bit is set and do not
    exceed the largest value. *)
Lemma increases_cover bitmap vs bound idxs : ∀ total incs,
  Forall (λ v, v <= bound) vs → total <= bound →
  increases_loop bitmap vs idxs total = Some incs →
  total <= total + sum_Z incs <= bound ∧
  ∀ k v, k ∈ idxs → get_bit bitmap k = Some true → vs !! k = Some v → v <= total + sum_Z incs.
Proof.
  induction idxs as [|i idxs IH]; intros total incs HF Hb Hr; cbn [increases_loop] in Hr.
  { simplify_eq. cbn. split; [lia|]. intros k v Hk. by apply elem_of_nil in Hk. }
  destruct (get_bit bitmap i) as [[]|] eqn:Hi; [| |done]; cbn [mbind option_bind negb] in Hr.
  2: { destruct (IH total incs HF Hb Hr) as [? Hc]. split; [done|]. intros k v [->|Hk]%elem_of_cons; [congruence|by apply Hc]. }
  destruct (vs !! i) as [v|] eqn:Hv; [|done]. cbn [mbind option_bind] in Hr.
  destruct (v <=? total) eqn:Hle.
  { destruct (IH total incs HF Hb Hr) as [? Hc]. split; [done|].
    intros k w [->|Hk]%elem_of_cons; [intros _ [= <-]%(eq_trans (eq_sym Hv)); lia|by apply Hc]. }
  rewrite checked_sub_ok in Hr by lia. cbn [mbind option_bind] in Hr.
  destruct (increases_loop bitmap vs idxs v) as [rest|] eqn:Hrest; [|done]. cbn [mbind option_bind] in Hr. simplify_eq.
  assert (v <= bound) as Hvb by (rewrite Forall_lookup in HF; by eapply HF).
  destruct (IH v rest HF Hvb Hrest) as [? Hc]. rewrite sum_Z_cons. replace (total + (v - total + sum_Z rest)) with (v + sum_Z rest) by lia.
  split; [lia|]. intros k w [->|Hk]%elem_of_cons; [intros _ [= <-]%(eq_trans (eq_sym Hv)); lia|by apply Hc].
Qed.

(** The parameters leave room for the base bandwidth of all links and one grant of the largest size. *)
Lemma calculate_room mx grant allowance base receipt k params :
  0 <= k → calculate mx grant allowance base receipt k = Some params → 0 <= base_bandwidth params →
  (k - 1) * base_bandwidth params + max_single_grant params <= max_shard_bandwidth params.
Proof.
  intros Hk. unfold calculate. destruct (receipt <=? grant); [|done]. destruct (grant <=? mx) eqn:Hg; [|done]. cbn [negb].
  rewrite (checked_sub_ok mx grant) by lia. cbn [mbind option_bind]. unfold checked_sub. destruct (1 <=? k) eqn:E; [|done]. cbn [mbind option_bind].
  intros [= <-]. cbn [base_bandwidth max_single_grant max_shard_bandwidth].
  pose proof (Z.mul_div_le (mx - grant) (Z.max 1 (k - 1)) ltac:(lia)) as Hd.
  destruct (base <? _) eqn:Hbase; intros Hb; nia.
Qed.

Section lone.
Context {AccountId Rng : Type}.
Variable shuffle : Rng → list SchedulerBandwidthRequest → list SchedulerBandwidthRequest * Rng.
Hypothesis shuffle_permutes : ∀ r l, (shuffle r l).1 ≡ₚ l.
Variables (bs : list AccountId) (ids : list Z) (split : option (gmap Z (list Z))) (parents : option (gmap Z Z)).
Hypothesis Hids : NoDup ids.
Abbreviation layout := (v2_layout bs ids split parents).

Lemma new_request_covers params i j from r vs k v :
  params_ok params → bitmap_ok (requested_values_bitmap r) → ids !! i = Some from → ids !! j = Some (to_shard r) →
  request_values params = Some vs → get_bit (requested_values_bitmap r) k = Some true → vs !! k = Some v →
  base_bandwidth params < v →
  ∃ incs, new_request from r params layout = Some (Some (mkSchedulerRequest (mkLink i j) incs)) ∧
    v <= base_bandwidth params + sum_Z incs <= max_single_grant params.
Proof.
  intros Hp Hbm Hi Hj Hvs Hbit Hv Hlt. unfold new_request.
  apply (shard_index_ok bs ids split parents Hids) in Hi. apply (shard_index_ok bs ids split parents Hids) in Hj. rewrite Hi, Hj.
  destruct (request_increases_ok params r Hp Hbm) as (vs' & incs & Hvs' & Hinc & _).
  destruct (request_values_ok params Hp) as (vs'' & Hvs'' & Hlen & HF). assert (vs' = vs ∧ vs'' = vs) as [-> ->] by (split; congruence).
  rewrite (bind_value _ _ _ Hvs), (bind_value _ _ _ Hinc).
  destruct (increases_cover (requested_values_bitmap r) vs (max_single_grant params) (seq 0 BANDWIDTH_REQUEST_VALUES_NUM)
    (base_bandwidth params) incs) as [Hb Hc]; [|apply Hp|exact Hinc|].
  { eapply Forall_impl; [exact HF|]. by intros w [_ ?]. }
  assert (v <= base_bandwidth params + sum_Z incs) as Hcov.
  { apply (Hc k v); [|done|done]. apply elem_of_seq. apply lookup_lt_Some in Hv. lia. }
  exists incs. split; [|lia]. rewrite bool_decide_false; [done|]. intros ->. change (sum_Z []) with 0 in Hcov. lia.
Qed.

(** C30: A shard with a receipt to send gets the bandwidth for it.  When a shard builds its request from
    the sizes of its buffered receipts, the first of which is no larger than the largest grant,
    and no other request competes, then a run of the scheduler with the parameters of this
    number of shards grants the shard, on any link that the statuses allow, at least the size
    of that receipt. *)
Theorem first_receipt_is_granted {E} mx grant allowance base receipt params las sts seed
    i j from to x (sizes : list (E + Z)) req :
  calculate mx grant allowance base receipt (num_shards layout) = Some params →
  run_input ids params las [(from, option_list req)] →
  ids !! i = Some from → ids !! j = Some to → 0 <= to < 2 ^ 16 → 0 <= x <= max_single_grant params →
  make_from_receipt_sizes to (inr x :: sizes) params = Some (inr req) →
  ∃ las' gm statuses, run shuffle layout las params [(from, option_list req)] sts seed = Some (las', gm) ∧
    for_each (load_status layout) sts (index_map_new (length ids)) = Some statuses ∧
    (calculate_is_link_allowed i j statuses = Some true → x <= get_granted_bandwidth gm from to).
Proof.
  intros Hcalc Hin Hi Hj Hto Hx Hmake. assert (Hp := ri_params _ _ _ _ Hin). assert (Hb := pk_base _ Hp).
  assert (Hroom := Hcalc). apply calculate_room in Hroom; [|simpl; lia|lia]. change (num_shards layout) with (Z.of_nat (length ids)) in Hroom.
  destruct (scheduler_run_ok shuffle shuffle_permutes bs ids split parents Hids params las _ sts seed Hin)
    as (las' & gm & g & statuses & Hrun & Hst & _ & Hget & _ & _ & _ & Hok).
  exists las', gm, statuses. split_and!; [done|done|]. intros Hal. rewrite (Hget i j from to Hi Hj).
  destruct (Hok (mkLink i j)) as (ok & Hal' & _ & Hbase & Halone); [split; simpl; by eapply lookup_lt_Some|].
  simpl in Hal'. assert (ok = true) as -> by congruence.
  destruct (decide (x <= base_bandwidth params)) as [Hsmall|Hbig]; [specialize (Hbase eq_refl); lia|].
  destruct (make_covers_first to sizes params x req Hp) as (r & vs & k & v & -> & Hr & Hbm & Hvs & Hbit & Hv & Hxv); [lia|done|].
  rewrite Z.mod_small in Hr by lia. subst to.
  destruct (new_request_covers params i j from r vs k v) as (incs & Hnew & Hcov); try done; [lia|].
  etransitivity; [exact Hxv|]. etransitivity; [apply Hcov|]. apply Halone; [done| |lia].
  change (option_list (Some r)) with [r]. cbn [for_each fst snd]. unfold load_request. by rewrite Hnew.
Qed.
End lone.

Module RequestExample.
Definition params : BandwidthSchedulerParams := mkParams 61139 4500000 4194304 4194304 4500000.
Definition ids : list Z := [11; 0; 5; 7; 2; 9].
Definition statuses : list (Z * ShardStatus) :=
  [(0, mkShardStatus false false None); (2, mkShardStatus true false (Some 1%nat)); (7, mkShardStatus false false None)].
Definition sizes : list (unit + Z) := [inr 70000; inr 20].
Definition request : list Z := [0; 0; 0; 48; 0].

Lemma request_input : run_input ids params [] [(0, [mkRequest 2 request])].
Proof.
  constructor; [done|by vm_compute| | |].
  - constructor; by vm_compute.
  - constructor.
  - repeat constructor.
Qed.

Lemma request_ids_nodup : NoDup ids.
Proof. apply (bool_decide_unpack _). by vm_compute. Qed.
End RequestExample.

Lemma first_receipt_is_granted_witness :
  ∃ las' gm statuses,
    run Example.no_shuffle (v2_layout (AccountId := Z) [] RequestExample.ids None None) [] RequestExample.params
      [(0, [mkRequest 2 RequestExample.request])] RequestExample.statuses tt = Some (las', gm) ∧
    for_each (load_status (v2_layout (AccountId := Z) [] RequestExample.ids None None)) RequestExample.statuses
      (index_map_new 6) = Some statuses ∧
    (calculate_is_link_allowed 1 4 statuses = Some true → 3000000 <= get_granted_bandwidth gm 0 2).
Proof.
  apply (first_receipt_is_granted Example.no_shuffle (λ r l, reflexivity l) [] RequestExample.ids None None
    RequestExample.request_ids_nodup (E := unit) 4500000 4194304 4500000 100000 4194304 RequestExample.params [] RequestExample.statuses tt
    1 4 0 2 3000000 RequestExample.sizes (Some (mkRequest 2 RequestExample.request))).
  - by vm_compute.
  - exact RequestExample.request_input.
  - done.
  - done.
  - lia.
  - simpl. lia.
  - vm_compute. reflexivity.
Defined.
