(* ===== verification/Borsh.v ===== *)
(** The interface to the serialisation library.  The derived implementations of borsh are not part of
    the repository: a type that derives them comes with an instance of [Borsh], and what is used of
    them is [BorshOk], the documented round trip of a self-delimiting format.  Types whose
    implementation is written out in the repository have an instance of their own. *)

From S2P Require Import Prelude.
Local Open Scope Z_scope.

Class Borsh (A : Type) : Type := {
  borsh_encode : A → list Z;
  borsh_decode : list Z → option (A * list Z)
}.

(** Reading back what was written gives the value and leaves the bytes after it. *)
Class BorshOk (A : Type) `{Borsh A} (ok : A → Prop) : Prop :=
  borsh_roundtrip : ∀ a rest, ok a → borsh_decode (borsh_encode a ++ rest) = Some (a, rest).

(** [try_from_slice]: all bytes must be used. *)
Definition try_from_slice {A} `{Borsh A} (bytes : list Z) : option A :=
  match borsh_decode bytes with
  | Some (a, []) => Some a
  | _ => None
  end.

Section laws.
Context {A : Type} `{Borsh A} (ok : A → Prop) `{!BorshOk A ok}.

Lemma try_from_slice_encode a : ok a → try_from_slice (borsh_encode a) = Some a.
Proof.
  intros Ha. unfold try_from_slice. pose proof (borsh_roundtrip a [] Ha) as Hr. by rewrite app_nil_r in Hr; rewrite Hr.
Qed.

Lemma borsh_encode_inj a b r s : ok a → ok b → borsh_encode a ++ r = borsh_encode b ++ s → a = b ∧ r = s.
Proof.
  intros Ha Hb Heq. pose proof (borsh_roundtrip a r Ha) as Hra. rewrite Heq, (borsh_roundtrip b s Hb) in Hra. by simplify_eq.
Qed.

Lemma borsh_encode_inj_nil a b : ok a → ok b → borsh_encode a = borsh_encode b → a = b.
Proof. intros Ha Hb Heq. by apply (borsh_encode_inj a b [] []); [..|rewrite !app_nil_r]. Qed.
End laws.

(** An integer of [n] bytes, least significant byte first. *)
Definition borsh_uint (n : nat) : Borsh Z := {|
  borsh_encode := to_le_bytes n;
  borsh_decode := λ bytes,
    if (length bytes <? n)%nat then None else Some (from_le_bytes (take n bytes), drop n bytes)
|}.

Lemma borsh_uint_ok n : @BorshOk Z (borsh_uint n) (λ x, 0 <= x < 256 ^ Z.of_nat n).
Proof.
  intros x rest Hx. cbn [borsh_encode borsh_decode borsh_uint].
  rewrite (proj2 (Nat.ltb_ge _ _)) by (rewrite length_app, length_to_le_bytes; lia).
  rewrite take_app_length', drop_app_length' by (by rewrite length_to_le_bytes). by rewrite from_to_le_bytes.
Qed.

(** A vector: its length, in four bytes, and its elements. *)
Section vec.
Context {A : Type} (enc : A → list Z) (dec : list Z → option (A * list Z)).

Fixpoint decode_n (n : nat) (b : list Z) : option (list A * list Z) :=
  match n with
  | O => Some ([], b)
  | S n => '(a, b) ← dec b; '(l, b) ← decode_n n b; Some (a :: l, b)
  end.

Definition encode_vec (l : list A) : list Z := borsh_encode (Borsh := borsh_uint 4) (Z.of_nat (length l)) ++ concat (enc <$> l).
Definition decode_vec (b : list Z) : option (list A * list Z) :=
  '(n, b) ← borsh_decode (Borsh := borsh_uint 4) b;
  decode_n (Z.to_nat n) b.

Lemma decode_vec_ok (ok : A → Prop) l rest : (∀ a rest, ok a → dec (enc a ++ rest) = Some (a, rest)) → Forall ok l → Z.of_nat (length l) <= umax 32 →
  decode_vec (encode_vec l ++ rest) = Some (l, rest).
Proof.
  intros Hdec Hok Hl. unfold decode_vec, encode_vec. rewrite <-app_assoc, (borsh_uint_ok 4 (Z.of_nat (length l))) by (unfold umax in Hl; change (256 ^ Z.of_nat 4) with (2 ^ 32); lia).
  cbn [mbind option_bind]. rewrite Nat2Z.id. clear Hl. induction Hok as [|a l Ha _ IH]; [done|].
  cbn [length decode_n fmap list_fmap concat]. rewrite <-app_assoc, Hdec by done. cbn [mbind option_bind]. by rewrite IH.
Qed.
End vec.
