(* ===== verification/TrieKey.v ===== *)
(** The keys of the state trie (core/primitives/src/trie_key.rs) and the public keys that occur in
    them (core/crypto/src/signature.rs).

    A [TrieKey] is written as the bytes [to_vec] and read back by the functions of
    [trie_key_parsers].  Account ids come from a library: they are a type with the functions
    [as_bytes] and [from_str] (on the bytes of a string).  A panic is [None]. *)

From S2P Require Import Prelude Borsh.
Local Open Scope Z_scope.

(** * Columns *)

Definition ACCOUNT_DATA_SEPARATOR : Z := 44.

Module col.
Definition ACCOUNT : Z := 0.
Definition CONTRACT_CODE : Z := 1.
Definition ACCESS_KEY : Z := 2.
Definition RECEIVED_DATA : Z := 3.
Definition POSTPONED_RECEIPT_ID : Z := 4.
Definition PENDING_DATA_COUNT : Z := 5.
Definition POSTPONED_RECEIPT : Z := 6.
Definition DELAYED_RECEIPT_OR_INDICES : Z := 7.
Definition CONTRACT_DATA : Z := 9.
Definition PROMISE_YIELD_INDICES : Z := 10.
Definition PROMISE_YIELD_TIMEOUT : Z := 11.
Definition PROMISE_YIELD_RECEIPT : Z := 12.
Definition BUFFERED_RECEIPT_INDICES : Z := 13.
Definition BUFFERED_RECEIPT : Z := 14.
Definition BANDWIDTH_SCHEDULER_STATE : Z := 15.
Definition BUFFERED_RECEIPT_GROUPS_QUEUE_DATA : Z := 16.
Definition BUFFERED_RECEIPT_GROUPS_QUEUE_ITEM : Z := 17.
Definition GLOBAL_CONTRACT_CODE : Z := 18.
Definition GAS_KEY : Z := 19.

(** The names only occur in error messages. *)
Definition COLUMNS_WITH_ACCOUNT_ID_IN_KEY : list Z :=
  [ACCOUNT; CONTRACT_CODE; ACCESS_KEY; RECEIVED_DATA; POSTPONED_RECEIPT_ID; PENDING_DATA_COUNT; POSTPONED_RECEIPT;
   CONTRACT_DATA; PROMISE_YIELD_RECEIPT; GAS_KEY].
End col.

Create HintDb columns.
#[export] Hint Unfold col.ACCOUNT col.CONTRACT_CODE col.ACCESS_KEY col.RECEIVED_DATA col.POSTPONED_RECEIPT_ID
  col.PENDING_DATA_COUNT col.POSTPONED_RECEIPT col.DELAYED_RECEIPT_OR_INDICES col.CONTRACT_DATA col.PROMISE_YIELD_INDICES
  col.PROMISE_YIELD_TIMEOUT col.PROMISE_YIELD_RECEIPT col.BUFFERED_RECEIPT_INDICES col.BUFFERED_RECEIPT
  col.BANDWIDTH_SCHEDULER_STATE col.BUFFERED_RECEIPT_GROUPS_QUEUE_DATA col.BUFFERED_RECEIPT_GROUPS_QUEUE_ITEM
  col.GLOBAL_CONTRACT_CODE col.GAS_KEY : columns.

Definition ACCESS_KEY_SEPARATOR : Z := col.ACCESS_KEY.

(** * Public keys *)

Inductive PublicKey : Type :=
| ED25519 (key : list Z)
| SECP256K1 (key : list Z).

Definition public_key_len (k : PublicKey) : nat :=
  match k with ED25519 _ => 33 | SECP256K1 _ => 65 end.

Definition public_key_serialize (k : PublicKey) : list Z :=
  match k with
  | ED25519 key => 0 :: key
  | SECP256K1 key => 1 :: key
  end.

(** Reading an array of [n] bytes. *)
Definition read_bytes (n : nat) (bytes : list Z) : option (list Z * list Z) :=
  if (length bytes <? n)%nat then None else Some (take n bytes, drop n bytes).

Definition public_key_deserialize (bytes : list Z) : option (PublicKey * list Z) :=
  match bytes with
  | [] => None
  | key_type :: bytes =>
      if key_type =? 0 then '(key, rest) ← read_bytes 32 bytes; Some (ED25519 key, rest)
      else if key_type =? 1 then '(key, rest) ← read_bytes 64 bytes; Some (SECP256K1 key, rest)
      else None
  end.

#[export] Instance PublicKey_borsh : Borsh PublicKey := {|
  borsh_encode := public_key_serialize;
  borsh_decode := public_key_deserialize
|}.

(** * UTF-8

    The check of [std::str::from_utf8]. *)

Definition between (lo hi b : Z) : bool := (lo <=? b) && (b <=? hi).

Definition continuation (b : Z) : bool := between 128 191 b.

Fixpoint utf8_ok (bytes : list Z) : bool :=
  match bytes with
  | [] => true
  | b :: rest =>
      if between 0 127 b then utf8_ok rest
      else
        match rest with
        | [] => false
        | c :: rest =>
            if between 194 223 b then continuation c && utf8_ok rest
            else
              match rest with
              | [] => false
              | d :: rest =>
                  if between 224 239 b then
                    between (if b =? 224 then 160 else 128) (if b =? 237 then 159 else 191) c
                    && continuation d && utf8_ok rest
                  else
                    match rest with
                    | [] => false
                    | e :: rest =>
                        between 240 244 b && between (if b =? 240 then 144 else 128) (if b =? 244 then 143 else 191) c
                        && continuation d && continuation e && utf8_ok rest
                    end
              end
        end
  end.

(** * Keys *)

Section data.
Context {AccountId : Type}.

Inductive GlobalContractCodeIdentifier : Type :=
| IdCodeHash (hash : list Z)
| IdAccountId (account_id : AccountId).

Inductive TrieKey : Type :=
| Account (account_id : AccountId)
| ContractCode (account_id : AccountId)
| AccessKey (account_id : AccountId) (public_key : PublicKey)
| ReceivedData (receiver_id : AccountId) (data_id : list Z)
| PostponedReceiptId (receiver_id : AccountId) (data_id : list Z)
| PendingDataCount (receiver_id : AccountId) (receipt_id : list Z)
| PostponedReceipt (receiver_id : AccountId) (receipt_id : list Z)
| DelayedReceiptIndices
| DelayedReceipt (index : Z)
| ContractData (account_id : AccountId) (key : list Z)
| PromiseYieldIndices
| PromiseYieldTimeout (index : Z)
| PromiseYieldReceipt (receiver_id : AccountId) (data_id : list Z)
| BufferedReceiptIndices
| BufferedReceipt (receiving_shard index : Z)
| BandwidthSchedulerState
| BufferedReceiptGroupsQueueData (receiving_shard : Z)
| BufferedReceiptGroupsQueueItem (receiving_shard index : Z)
| GlobalContractCode (identifier : GlobalContractCodeIdentifier)
| GasKey (account_id : AccountId) (public_key : PublicKey) (index : option Z).

Inductive AccountContract : Type :=
| ContractNone
| ContractLocal (hash : list Z)
| ContractGlobal (hash : list Z)
| ContractGlobalByAccount (account_id : AccountId).
End data.
Arguments GlobalContractCodeIdentifier : clear implicits.
Arguments TrieKey : clear implicits.
Arguments AccountContract : clear implicits.

Inductive ParseError : Type :=
| TooShort
| WrongColumn
| InvalidUtf8
| InvalidAccountId
| NoSeparator
| UnexpectedLength
| InvalidPublicKey
| InvalidNonceIndex
| InvalidHash.

Section keys.
Context {AccountId : Type} `{EqDecision AccountId}.
Variable as_bytes : AccountId → list Z.
Variable from_str : list Z → option AccountId.
Context `{!Borsh (GlobalContractCodeIdentifier AccountId)} `{!Borsh (option Z)}.

Abbreviation Key := (TrieKey AccountId).

Definition account_len (a : AccountId) : nat := length (as_bytes a).

(** The length of a column id or a separator. *)
Definition byte_len (b : Z) : nat := 1.

Definition identifier_len (i : GlobalContractCodeIdentifier AccountId) : nat :=
  1 + match i with
      | IdCodeHash hash => length hash
      | IdAccountId account_id => 4 + account_len account_id
      end.

Definition trie_key_len (k : Key) : nat :=
  match k with
  | Account account_id => byte_len col.ACCOUNT + account_len account_id
  | ContractCode account_id => byte_len col.CONTRACT_CODE + account_len account_id
  | AccessKey account_id public_key => byte_len col.ACCESS_KEY * 2 + account_len account_id + public_key_len public_key
  | ReceivedData receiver_id data_id =>
      byte_len col.RECEIVED_DATA + account_len receiver_id + byte_len ACCOUNT_DATA_SEPARATOR + length data_id
  | PostponedReceiptId receiver_id data_id =>
      byte_len col.POSTPONED_RECEIPT_ID + account_len receiver_id + byte_len ACCOUNT_DATA_SEPARATOR + length data_id
  | PendingDataCount receiver_id receipt_id =>
      byte_len col.PENDING_DATA_COUNT + account_len receiver_id + byte_len ACCOUNT_DATA_SEPARATOR + length receipt_id
  | PostponedReceipt receiver_id receipt_id =>
      byte_len col.POSTPONED_RECEIPT + account_len receiver_id + byte_len ACCOUNT_DATA_SEPARATOR + length receipt_id
  | DelayedReceiptIndices => byte_len col.DELAYED_RECEIPT_OR_INDICES
  | DelayedReceipt _ => byte_len col.DELAYED_RECEIPT_OR_INDICES + 8
  | PromiseYieldIndices => byte_len col.PROMISE_YIELD_INDICES
  | PromiseYieldTimeout _ => byte_len col.PROMISE_YIELD_TIMEOUT + 8
  | PromiseYieldReceipt receiver_id data_id =>
      byte_len col.PROMISE_YIELD_RECEIPT + account_len receiver_id + byte_len ACCOUNT_DATA_SEPARATOR + length data_id
  | ContractData account_id key =>
      byte_len col.CONTRACT_DATA + account_len account_id + byte_len ACCOUNT_DATA_SEPARATOR + length key
  | BufferedReceiptIndices => byte_len col.BUFFERED_RECEIPT_INDICES
  | BufferedReceipt _ _ => byte_len col.BUFFERED_RECEIPT + 2 + 8
  | BandwidthSchedulerState => byte_len col.BANDWIDTH_SCHEDULER_STATE
  | BufferedReceiptGroupsQueueData _ => byte_len col.BUFFERED_RECEIPT_GROUPS_QUEUE_DATA + 8
  | BufferedReceiptGroupsQueueItem _ _ => byte_len col.BUFFERED_RECEIPT_GROUPS_QUEUE_ITEM + 8 + 8
  | GlobalContractCode identifier => byte_len col.GLOBAL_CONTRACT_CODE + identifier_len identifier
  | GasKey account_id public_key index =>
      byte_len col.GAS_KEY + account_len account_id + byte_len ACCOUNT_DATA_SEPARATOR + public_key_len public_key
      + length (borsh_encode index)
  end.

(** The bytes that are appended to the buffer. *)
Definition append_into (k : Key) (buf : list Z) : option (list Z) :=
  match k with
  | Account account_id => Some (buf ++ [col.ACCOUNT] ++ as_bytes account_id)
  | ContractCode account_id => Some (buf ++ [col.CONTRACT_CODE] ++ as_bytes account_id)
  | AccessKey account_id public_key =>
      Some (buf ++ [col.ACCESS_KEY] ++ as_bytes account_id ++ [ACCESS_KEY_SEPARATOR] ++ borsh_encode public_key)
  | ReceivedData receiver_id data_id =>
      Some (buf ++ [col.RECEIVED_DATA] ++ as_bytes receiver_id ++ [ACCOUNT_DATA_SEPARATOR] ++ data_id)
  | PostponedReceiptId receiver_id data_id =>
      Some (buf ++ [col.POSTPONED_RECEIPT_ID] ++ as_bytes receiver_id ++ [ACCOUNT_DATA_SEPARATOR] ++ data_id)
  | PendingDataCount receiver_id receipt_id =>
      Some (buf ++ [col.PENDING_DATA_COUNT] ++ as_bytes receiver_id ++ [ACCOUNT_DATA_SEPARATOR] ++ receipt_id)
  | PostponedReceipt receiver_id receipt_id =>
      Some (buf ++ [col.POSTPONED_RECEIPT] ++ as_bytes receiver_id ++ [ACCOUNT_DATA_SEPARATOR] ++ receipt_id)
  | DelayedReceiptIndices => Some (buf ++ [col.DELAYED_RECEIPT_OR_INDICES])
  | DelayedReceipt index => Some (buf ++ [col.DELAYED_RECEIPT_OR_INDICES] ++ to_le_bytes 8 index)
  | ContractData account_id key =>
      Some (buf ++ [col.CONTRACT_DATA] ++ as_bytes account_id ++ [ACCOUNT_DATA_SEPARATOR] ++ key)
  | PromiseYieldIndices => Some (buf ++ [col.PROMISE_YIELD_INDICES])
  | PromiseYieldTimeout index => Some (buf ++ [col.PROMISE_YIELD_TIMEOUT] ++ to_le_bytes 8 index)
  | PromiseYieldReceipt receiver_id data_id =>
      Some (buf ++ [col.PROMISE_YIELD_RECEIPT] ++ as_bytes receiver_id ++ [ACCOUNT_DATA_SEPARATOR] ++ data_id)
  | BufferedReceiptIndices => Some (buf ++ [col.BUFFERED_RECEIPT_INDICES])
  | BufferedReceipt receiving_shard index =>
      if receiving_shard <=? umax 16 then
        Some (buf ++ [col.BUFFERED_RECEIPT] ++ to_le_bytes 2 receiving_shard ++ to_le_bytes 8 index)
      else None
  | BandwidthSchedulerState => Some (buf ++ [col.BANDWIDTH_SCHEDULER_STATE])
  | BufferedReceiptGroupsQueueData receiving_shard =>
      Some (buf ++ [col.BUFFERED_RECEIPT_GROUPS_QUEUE_DATA] ++ to_le_bytes 8 receiving_shard)
  | BufferedReceiptGroupsQueueItem receiving_shard index =>
      Some (buf ++ [col.BUFFERED_RECEIPT_GROUPS_QUEUE_ITEM] ++ to_le_bytes 8 receiving_shard ++ to_le_bytes 8 index)
  | GlobalContractCode identifier => Some (buf ++ [col.GLOBAL_CONTRACT_CODE] ++ borsh_encode identifier)
  | GasKey account_id public_key index =>
      Some (buf ++ [col.GAS_KEY] ++ as_bytes account_id ++ [ACCOUNT_DATA_SEPARATOR] ++ borsh_encode public_key
            ++ borsh_encode index)
  end.

Definition to_vec (k : Key) : option (list Z) := append_into k [].

Definition get_account_id (k : Key) : option AccountId :=
  match k with
  | Account account_id => Some account_id
  | ContractCode account_id => Some account_id
  | AccessKey account_id _ => Some account_id
  | ReceivedData receiver_id _ => Some receiver_id
  | PostponedReceiptId receiver_id _ => Some receiver_id
  | PendingDataCount receiver_id _ => Some receiver_id
  | PostponedReceipt receiver_id _ => Some receiver_id
  | DelayedReceiptIndices => None
  | DelayedReceipt _ => None
  | ContractData account_id _ => Some account_id
  | PromiseYieldIndices => None
  | PromiseYieldTimeout _ => None
  | PromiseYieldReceipt receiver_id _ => Some receiver_id
  | BufferedReceiptIndices => None
  | BufferedReceipt _ _ => None
  | BandwidthSchedulerState => None
  | BufferedReceiptGroupsQueueData _ => None
  | BufferedReceiptGroupsQueueItem _ _ => None
  | GlobalContractCode _ => None
  | GasKey account_id _ _ => Some account_id
  end.

Definition for_account_contract_code (account_id : AccountId) (c : AccountContract AccountId) : option Key :=
  match c with
  | ContractNone => None
  | ContractLocal _ => Some (ContractCode account_id)
  | ContractGlobal code_hash => Some (GlobalContractCode (IdCodeHash code_hash))
  | ContractGlobalByAccount account_id => Some (GlobalContractCode (IdAccountId account_id))
  end.

(** * Parsers *)

Definition parse_public_key_from_access_key_key (raw_key : list Z) (account_id : AccountId) : ParseError + PublicKey :=
  let prefix_len := (byte_len col.ACCESS_KEY * 2 + account_len account_id)%nat in
  if (length raw_key <? prefix_len)%nat then inl TooShort
  else ok_or_err (try_from_slice (drop prefix_len raw_key)) InvalidPublicKey.

Definition parse_public_key_from_gas_key_key (raw_key : list Z) (account_id : AccountId) : ParseError + PublicKey :=
  let prefix_len := (byte_len col.GAS_KEY + account_len account_id + byte_len ACCOUNT_DATA_SEPARATOR)%nat in
  if (length raw_key <? prefix_len)%nat then inl TooShort
  else ok_or_err (fst <$> borsh_decode (drop prefix_len raw_key)) InvalidPublicKey.

Definition parse_nonce_index_from_gas_key_key (raw_key : list Z) (account_id : AccountId) (public_key : PublicKey)
    : ParseError + option Z :=
  let prefix_len :=
    (byte_len col.GAS_KEY + account_len account_id + byte_len ACCOUNT_DATA_SEPARATOR + public_key_len public_key)%nat in
  if (length raw_key <? prefix_len)%nat then inl TooShort
  else ok_or_err (try_from_slice (drop prefix_len raw_key)) InvalidNonceIndex.

Definition parse_data_key_from_contract_data_key (raw_key : list Z) (account_id : AccountId) : ParseError + list Z :=
  let prefix_len := (byte_len col.CONTRACT_DATA + account_len account_id + byte_len ACCOUNT_DATA_SEPARATOR)%nat in
  if (length raw_key <? prefix_len)%nat then inl TooShort
  else inr (drop prefix_len raw_key).

Definition parse_account_id_prefix (column : Z) (raw_key : list Z) : ParseError + list Z :=
  match raw_key with
  | b :: tail => if b =? column then inr tail else inl WrongColumn
  | [] => inl WrongColumn
  end.

Definition parse_account_id_from_slice (data : list Z) : ParseError + AccountId :=
  if utf8_ok data then ok_or_err (from_str data) InvalidAccountId else inl InvalidUtf8.

(** The position of the first separator. *)
Definition next_token (data : list Z) (separator : Z) : option (list Z) :=
  (λ p, take p.1 data) <$> list_find (λ byte, byte = separator) data.

Definition parse_account_id_from_trie_key_with_separator (column : Z) (raw_key : list Z) : ParseError + AccountId :=
  account_id_prefix ← parse_account_id_prefix column raw_key;
  match next_token account_id_prefix ACCOUNT_DATA_SEPARATOR with
  | Some account_id => parse_account_id_from_slice account_id
  | None => inl NoSeparator
  end.

Definition parse_account_id_from_contract_data_key (raw_key : list Z) : ParseError + AccountId :=
  account_id_prefix ← parse_account_id_prefix col.CONTRACT_DATA raw_key;
  match next_token account_id_prefix ACCOUNT_DATA_SEPARATOR with
  | Some account_id => parse_account_id_from_slice account_id
  | None => inl NoSeparator
  end.

Definition parse_account_id_from_account_key (raw_key : list Z) : ParseError + AccountId :=
  account_id ← parse_account_id_prefix col.ACCOUNT raw_key;
  parse_account_id_from_slice account_id.

Definition parse_account_id_from_access_key_key (raw_key : list Z) : ParseError + AccountId :=
  account_id_prefix ← parse_account_id_prefix col.ACCESS_KEY raw_key;
  match next_token account_id_prefix ACCESS_KEY_SEPARATOR with
  | Some account_id => parse_account_id_from_slice account_id
  | None => inl NoSeparator
  end.

Definition parse_account_id_from_gas_key_key (raw_key : list Z) : ParseError + AccountId :=
  account_id_prefix ← parse_account_id_prefix col.GAS_KEY raw_key;
  match next_token account_id_prefix ACCOUNT_DATA_SEPARATOR with
  | Some account_id => parse_account_id_from_slice account_id
  | None => inl NoSeparator
  end.

Definition parse_index_from_delayed_receipt_key (raw_key : list Z) : ParseError + Z :=
  if negb (bool_decide (length raw_key = 9%nat)) then inl UnexpectedLength
  else inr (from_le_bytes (take 8 (drop 1 raw_key))).

Definition parse_account_id_from_contract_code_key (raw_key : list Z) : ParseError + AccountId :=
  account_id ← parse_account_id_prefix col.CONTRACT_CODE raw_key;
  parse_account_id_from_slice account_id.

Definition parse_trie_key_access_key_from_raw_key (raw_key : list Z) : ParseError + Key :=
  account_id ← parse_account_id_from_access_key_key raw_key;
  public_key ← parse_public_key_from_access_key_key raw_key account_id;
  mret (AccessKey account_id public_key).

Definition parse_trie_key_gas_key_from_raw_key (raw_key : list Z) : ParseError + Key :=
  account_id ← parse_account_id_from_gas_key_key raw_key;
  public_key ← parse_public_key_from_gas_key_key raw_key account_id;
  index ← parse_nonce_index_from_gas_key_key raw_key account_id public_key;
  mret (GasKey account_id public_key index).

Definition parse_account_id_of_column (c : Z) (raw_key : list Z) : ParseError + AccountId :=
  if c =? col.ACCOUNT then parse_account_id_from_account_key raw_key
  else if c =? col.CONTRACT_CODE then parse_account_id_from_contract_code_key raw_key
  else if c =? col.ACCESS_KEY then parse_account_id_from_access_key_key raw_key
  else parse_account_id_from_trie_key_with_separator c raw_key.

(** The loop over the columns: the first one whose byte starts the key. *)
Fixpoint parse_account_id_loop (cols : list Z) (raw_key : list Z) : ParseError + option AccountId :=
  match cols with
  | [] => inr None
  | c :: cols =>
      match parse_account_id_prefix c raw_key with
      | inl _ => parse_account_id_loop cols raw_key
      | inr _ =>
          account_id ← parse_account_id_of_column c raw_key;
          mret (Some account_id)
      end
  end.

Definition parse_account_id_from_raw_key (raw_key : list Z) : ParseError + option AccountId :=
  parse_account_id_loop col.COLUMNS_WITH_ACCOUNT_ID_IN_KEY raw_key.

Definition parse_account_id_from_received_data_key (raw_key : list Z) : ParseError + AccountId :=
  parse_account_id_from_trie_key_with_separator col.RECEIVED_DATA raw_key.

(** [CryptoHash::try_from] needs exactly 32 bytes. *)
Definition parse_data_id_from_received_data_key (raw_key : list Z) (account_id : AccountId) : ParseError + list Z :=
  let prefix_len := (byte_len col.ACCESS_KEY * 2 + account_len account_id)%nat in
  if (length raw_key <? prefix_len)%nat then inl TooShort
  else
    let hash := drop prefix_len raw_key in
    if bool_decide (length hash = 32%nat) then inr hash else inl InvalidHash.

Definition get_raw_prefix_for_access_keys (account_id : AccountId) : list Z :=
  [col.ACCESS_KEY] ++ as_bytes account_id ++ [col.ACCESS_KEY].

Definition get_raw_prefix_for_gas_key (account_id : AccountId) (public_key : PublicKey) : list Z :=
  [col.GAS_KEY] ++ as_bytes account_id ++ [ACCOUNT_DATA_SEPARATOR] ++ borsh_encode public_key.

Definition get_raw_prefix_for_gas_keys (account_id : AccountId) : list Z :=
  [col.GAS_KEY] ++ as_bytes account_id ++ [ACCOUNT_DATA_SEPARATOR].

Definition get_raw_prefix_for_contract_data (account_id : AccountId) (prefix : list Z) : list Z :=
  [col.CONTRACT_DATA] ++ as_bytes account_id ++ [ACCOUNT_DATA_SEPARATOR] ++ prefix.

End keys.

(** * What the keys consist of *)

(** The characters of account ids. *)
Definition account_char (b : Z) : bool :=
  between 97 122 b || between 48 57 b || (b =? 45) || (b =? 46) || (b =? 95).

(** What is used of the account ids: their characters, and that they are read back from them. *)
Class AccountIds {AccountId} (as_bytes : AccountId → list Z) (from_str : list Z → option AccountId) : Prop := {
  account_chars : ∀ a, Forall (λ b, account_char b = true) (as_bytes a);
  from_str_as_bytes : ∀ a, from_str (as_bytes a) = Some a
}.

Definition public_key_ok (k : PublicKey) : Prop :=
  match k with ED25519 key => length key = 32%nat | SECP256K1 key => length key = 64%nat end.

Definition identifier_ok {AccountId} (i : GlobalContractCodeIdentifier AccountId) : Prop :=
  match i with IdCodeHash hash => length hash = 32%nat | IdAccountId _ => True end.

Definition nonce_index_ok (index : option Z) : Prop :=
  match index with None => True | Some i => in_u 32 i end.

Definition key_ok {AccountId} (k : TrieKey AccountId) : Prop :=
  match k with
  | AccessKey _ public_key => public_key_ok public_key
  | ReceivedData _ h | PostponedReceiptId _ h | PendingDataCount _ h | PostponedReceipt _ h
  | PromiseYieldReceipt _ h => length h = 32%nat
  | DelayedReceipt index | PromiseYieldTimeout index => in_u 64 index
  | BufferedReceipt receiving_shard index => in_u 64 receiving_shard ∧ in_u 64 index
  | BufferedReceiptGroupsQueueData receiving_shard => in_u 64 receiving_shard
  | BufferedReceiptGroupsQueueItem receiving_shard index => in_u 64 receiving_shard ∧ in_u 64 index
  | GlobalContractCode identifier => identifier_ok identifier
  | GasKey _ public_key index => public_key_ok public_key ∧ nonce_index_ok index
  | _ => True
  end.

#[export] Instance PublicKey_borsh_ok : BorshOk PublicKey public_key_ok.
Proof.
  intros [key|key] rest Hk; cbn [borsh_encode borsh_decode PublicKey_borsh public_key_serialize app public_key_deserialize Z.eqb];
    unfold read_bytes; rewrite length_app, (proj2 (Nat.ltb_ge _ _)) by (simpl in Hk; lia);
    cbn [mbind option_bind]; by rewrite take_app_length', drop_app_length' by (simpl in Hk; lia).
Qed.

Lemma public_key_inj a b r s :
  public_key_ok a → public_key_ok b → public_key_serialize a ++ r = public_key_serialize b ++ s → a = b ∧ r = s.
Proof. apply (borsh_encode_inj (H := PublicKey_borsh) public_key_ok). Qed.

Lemma length_public_key k : public_key_ok k → length (borsh_encode k) = public_key_len k.
Proof. destruct k; simpl; lia. Qed.

Lemma account_char_ascii b : account_char b = true → between 0 127 b = true ∧ b ≠ ACCOUNT_DATA_SEPARATOR ∧ b ≠ ACCESS_KEY_SEPARATOR.
Proof. unfold account_char, between, ACCOUNT_DATA_SEPARATOR, ACCESS_KEY_SEPARATOR, col.ACCESS_KEY. lia. Qed.

Lemma ascii_utf8 l : Forall (λ b, account_char b = true) l → utf8_ok l = true.
Proof. induction 1 as [|b l Hb Hl IH]; [done|]. cbn [utf8_ok]. by rewrite (proj1 (account_char_ascii b Hb)). Qed.

(** A token without the separator is found in front of it. *)
Lemma next_token_app sep l rest : sep ∉ l → next_token (l ++ sep :: rest) sep = Some l.
Proof.
  intros Hs. unfold next_token.
  rewrite (proj2 (list_find_Some _ _ (length l) sep)).
  - cbn [fmap option_fmap option_map fst]. by rewrite take_app_length.
  - split_and!; [by rewrite lookup_app_r, Nat.sub_diag|done|]. intros j y Hj Hlt ->. rewrite lookup_app_l in Hj by done.
    by apply list_elem_of_lookup_2 in Hj.
Qed.

Lemma separator_inj (sep : Z) (a b r s : list Z) : sep ∉ a → sep ∉ b → a ++ sep :: r = b ++ sep :: s → a = b ∧ r = s.
Proof.
  intros Ha Hb Heq. pose proof (next_token_app sep a r Ha) as Ht. rewrite Heq, next_token_app in Ht by done.
  injection Ht as ->. by apply app_inv_head in Heq; simplify_eq.
Qed.

Lemma le_bytes_inj n x y r s :
  0 <= x < 256 ^ Z.of_nat n → 0 <= y < 256 ^ Z.of_nat n → to_le_bytes n x ++ r = to_le_bytes n y ++ s → x = y ∧ r = s.
Proof. intros Hx Hy. by apply (borsh_encode_inj (H := borsh_uint n) _ (BorshOk0 := borsh_uint_ok n)). Qed.

(** * The encoding of the keys *)

Section correct.
Context {AccountId : Type} (as_bytes : AccountId → list Z) (from_str : list Z → option AccountId).
Context `{!AccountIds as_bytes from_str}.
Context `{!Borsh (GlobalContractCodeIdentifier AccountId)} `{!BorshOk (GlobalContractCodeIdentifier AccountId) identifier_ok}.
Context `{!Borsh (option Z)} `{!BorshOk (option Z) nonce_index_ok}.

Abbreviation Key := (TrieKey AccountId).

Lemma no_data_separator a : ACCOUNT_DATA_SEPARATOR ∉ as_bytes a.
Proof. intros Hin. pose proof (account_chars a) as HF. rewrite Forall_forall in HF. by apply HF, account_char_ascii in Hin as (_ & ? & _). Qed.

Lemma no_access_key_separator a : ACCESS_KEY_SEPARATOR ∉ as_bytes a.
Proof. intros Hin. pose proof (account_chars a) as HF. rewrite Forall_forall in HF. by apply HF, account_char_ascii in Hin as (_ & _ & ?). Qed.

Lemma as_bytes_inj a b : as_bytes a = as_bytes b → a = b.
Proof. intros Heq. pose proof (from_str_as_bytes a) as Ha. rewrite Heq, from_str_as_bytes in Ha. by simplify_eq. Qed.

Lemma separated_inj a b r s :
  as_bytes a ++ ACCOUNT_DATA_SEPARATOR :: r = as_bytes b ++ ACCOUNT_DATA_SEPARATOR :: s → a = b ∧ r = s.
Proof. intros [?%as_bytes_inj ?]%separator_inj; [done|apply no_data_separator..]. Qed.

Lemma access_separated_inj a b r s :
  as_bytes a ++ ACCESS_KEY_SEPARATOR :: r = as_bytes b ++ ACCESS_KEY_SEPARATOR :: s → a = b ∧ r = s.
Proof. intros [?%as_bytes_inj ?]%separator_inj; [done|apply no_access_key_separator..]. Qed.

Lemma u64_bytes_inj x y r s : in_u 64 x → in_u 64 y → to_le_bytes 8 x ++ r = to_le_bytes 8 y ++ s → x = y ∧ r = s.
Proof. unfold in_u, umax. intros Hx Hy. apply le_bytes_inj; simpl; lia. Qed.

Lemma u64_bytes_inj_nil x y : in_u 64 x → in_u 64 y → to_le_bytes 8 x = to_le_bytes 8 y → x = y.
Proof. intros Hx Hy Heq. by apply (u64_bytes_inj x y [] []); [..|rewrite !app_nil_r]. Qed.

(** The byte strings of well-formed keys are different. *)
Lemma to_vec_inj k1 k2 raw :
  key_ok k1 → key_ok k2 → to_vec as_bytes k1 = Some raw → to_vec as_bytes k2 = Some raw → k1 = k2.
Proof.
  intros Hk1 Hk2 H1 H2. destruct k1; destruct k2; cbv [to_vec append_into] in H1, H2; autounfold with columns in H1, H2;
    cbn [app] in H1, H2; repeat case_match; try discriminate; rewrite <-H1 in H2; clear H1; try discriminate;
    try reflexivity;
    apply (f_equal (λ o : option (list Z), match o with Some l => tail l | None => [] end)) in H2 as Heq;
    cbn [tail key_ok] in Heq, Hk1, Hk2.
  all: try (by apply as_bytes_inj in Heq; subst).
  all: try (apply separated_inj in Heq as [-> Heq]).
  all: try (by subst).
  all: try (by apply u64_bytes_inj_nil in Heq as ->).
  - apply access_separated_inj in Heq as [-> Heq]. 
    destruct (public_key_inj public_key0 public_key [] []) as [-> _]; by rewrite ?app_nil_r.
  - destruct Hk1 as [Hs1 Hi1], Hk2 as [Hs2 Hi2]. apply le_bytes_inj in Heq as [-> Heq]; [|unfold in_u, umax in *; simpl; lia..].
    by apply u64_bytes_inj_nil in Heq as ->.
  - destruct Hk1 as [Hs1 Hi1], Hk2 as [Hs2 Hi2]. apply u64_bytes_inj in Heq as [-> Heq]; [|done..].
    by apply u64_bytes_inj_nil in Heq as ->.
  - by apply (borsh_encode_inj_nil identifier_ok) in Heq as ->.
  - destruct Hk1 as [Hp1 Hi1], Hk2 as [Hp2 Hi2]. apply public_key_inj in Heq as [-> Heq]; [|done..].
    by apply (borsh_encode_inj_nil nonce_index_ok) in Heq as ->.
Qed.

(** C31: Different keys never share an entry of the state.  The byte strings of two well-formed keys
    (hashes of 32 bytes, public keys of the size of their type, indices within their width) are
    equal only if the keys are, across all twenty kinds of keys; in particular the two kinds that share the column of
    the delayed receipts do not collide. *)
Theorem to_vec_injective k1 k2 raw :
  key_ok k1 → key_ok k2 → to_vec as_bytes k1 = Some raw → to_vec as_bytes k2 = Some raw → k1 = k2.
Proof. apply to_vec_inj. Qed.

(** The announced length of a key is the length of its bytes, for every kind of key. *)
Theorem to_vec_length k raw :
  (∀ i, identifier_ok i → length (borsh_encode i) = identifier_len as_bytes i) →
  key_ok k → to_vec as_bytes k = Some raw → length raw = trie_key_len as_bytes k.
Proof.
  intros Hid Hk Hraw. destruct k; unfold to_vec, append_into in Hraw; try (case_match; [|done]); apply (inj Some) in Hraw as <-;
    cbn [trie_key_len]; unfold byte_len, account_len; rewrite ?app_nil_l, ?length_app, ?length_to_le_bytes; cbn [length]; try lia.
  - rewrite (length_public_key public_key Hk). lia.
  - rewrite (Hid identifier Hk). lia.
  - rewrite (length_public_key public_key (proj1 Hk)). lia.
Qed.

Lemma parse_slice_ok a : parse_account_id_from_slice from_str (as_bytes a) = inr a.
Proof.
  unfold parse_account_id_from_slice. rewrite ascii_utf8 by apply account_chars. by rewrite from_str_as_bytes.
Qed.

Lemma parse_separated_ok c a rest :
  parse_account_id_from_trie_key_with_separator from_str c (c :: as_bytes a ++ ACCOUNT_DATA_SEPARATOR :: rest) = inr a.
Proof.
  unfold parse_account_id_from_trie_key_with_separator, parse_account_id_prefix. rewrite Z.eqb_refl. cbn [mbind sum_bind].
  rewrite next_token_app by apply no_data_separator. apply parse_slice_ok.
Qed.

Lemma parse_access_key_account_ok a rest :
  parse_account_id_from_access_key_key from_str (col.ACCESS_KEY :: as_bytes a ++ ACCESS_KEY_SEPARATOR :: rest) = inr a.
Proof.
  unfold parse_account_id_from_access_key_key, parse_account_id_prefix. rewrite Z.eqb_refl. cbn [mbind sum_bind].
  rewrite next_token_app by apply no_access_key_separator. apply parse_slice_ok.
Qed.

Lemma parse_loop c rest cols :
  parse_account_id_loop from_str cols (c :: rest) =
    if bool_decide (c ∈ cols) then account_id ← parse_account_id_of_column from_str c (c :: rest); mret (Some account_id)
    else inr None.
Proof.
  induction cols as [|c' cols IH]; [done|]. cbn [parse_account_id_loop parse_account_id_prefix].
  destruct (Z.eqb_spec c c') as [<-|Hne].
  - rewrite bool_decide_true by (by left). done.
  - rewrite IH. erewrite bool_decide_ext; [done|]. rewrite elem_of_cons. naive_solver.
Qed.

(** The account of every key is recovered from its bytes: the parser of raw keys returns the
    account that the key belongs to, and that there is none for the keys that hold data of the
    whole shard. *)
Theorem account_id_recovered k raw :
  to_vec as_bytes k = Some raw → parse_account_id_from_raw_key from_str raw = inr (get_account_id k).
Proof.
  intros Hraw. unfold parse_account_id_from_raw_key.
  destruct k; unfold to_vec, append_into in Hraw; try (case_match; [|done]); apply (inj Some) in Hraw as <-;
    cbn [app]; rewrite parse_loop; try reflexivity; rewrite bool_decide_true by (apply (bool_decide_unpack _); by vm_compute).
  all: cbn [get_account_id]; first
    [ change (parse_account_id_of_column from_str ?c ?r) with (parse_account_id_from_trie_key_with_separator from_str c r);
      by rewrite parse_separated_ok
    | idtac ].
  - unfold parse_account_id_of_column, parse_account_id_from_account_key. cbn. by rewrite parse_slice_ok.
  - unfold parse_account_id_of_column, parse_account_id_from_contract_code_key. cbn. by rewrite parse_slice_ok.
  - change (parse_account_id_of_column from_str col.ACCESS_KEY ?r) with (parse_account_id_from_access_key_key from_str r).
    by rewrite parse_access_key_account_ok.
Qed.

Lemma drop_prefix c a sep rest : drop (1 + account_len as_bytes a + 1) (c :: as_bytes a ++ sep :: rest) = rest.
Proof.
  unfold account_len. rewrite Nat.add_comm, Nat.add_assoc. cbn [Nat.add drop].
  rewrite drop_app_ge by lia. replace (S (length (as_bytes a)) - length (as_bytes a))%nat with 1%nat by lia. done.
Qed.

Lemma prefix_length c a sep rest : (length (c :: as_bytes a ++ sep :: rest) <? 1 + account_len as_bytes a + 1)%nat = false.
Proof. apply Nat.ltb_ge. unfold account_len. cbn [length]. rewrite length_app. simpl. lia. Qed.

Lemma parse_public_key_ok a pk raw : public_key_ok pk → to_vec as_bytes (AccessKey a pk) = Some raw → parse_public_key_from_access_key_key as_bytes raw a = inr pk.
Proof.
  intros Hk Hraw. apply (inj Some) in Hraw as <-. cbn [app]. unfold parse_public_key_from_access_key_key.
  replace (byte_len _ * 2 + account_len as_bytes a)%nat with (1 + account_len as_bytes a + 1)%nat by (unfold byte_len; lia).
  rewrite prefix_length, drop_prefix, (try_from_slice_encode public_key_ok) by done. done.
Qed.

Lemma parse_data_key_ok a key raw : to_vec as_bytes (ContractData a key) = Some raw → parse_data_key_from_contract_data_key as_bytes raw a = inr key.
Proof. intros Hraw. apply (inj Some) in Hraw as <-. cbn [app]. unfold parse_data_key_from_contract_data_key, byte_len. by rewrite prefix_length, drop_prefix. Qed.

(** Keys are read back from their bytes: the parsers return the parts that the raw access keys,
    gas keys, contract data keys, received data keys and delayed receipt keys were made from. *)
Theorem keys_parse_back k raw :
  key_ok k → to_vec as_bytes k = Some raw →
  match k with
  | AccessKey _ _ => parse_trie_key_access_key_from_raw_key as_bytes from_str raw = inr k
  | GasKey _ _ _ => parse_trie_key_gas_key_from_raw_key as_bytes from_str raw = inr k
  | ContractData account_id key =>
      parse_account_id_from_contract_data_key from_str raw = inr account_id ∧
      parse_data_key_from_contract_data_key as_bytes raw account_id = inr key
  | ReceivedData receiver_id data_id =>
      parse_account_id_from_received_data_key from_str raw = inr receiver_id ∧
      parse_data_id_from_received_data_key as_bytes raw receiver_id = inr data_id
  | DelayedReceipt index => parse_index_from_delayed_receipt_key raw = inr index
  | _ => True
  end.
Proof.
  intros Hk Hraw. destruct k as [| |a pk|a d| | | | |i|a key| | | | | | | | | |a pk index]; try done;
    apply (inj Some) in Hraw as <-; cbn [app key_ok] in *.
  - unfold parse_trie_key_access_key_from_raw_key. rewrite parse_access_key_account_ok. cbn [mbind sum_bind]. by rewrite (parse_public_key_ok a pk).
  - split; [apply parse_separated_ok|]. unfold parse_data_id_from_received_data_key.
    replace (byte_len _ * 2 + account_len as_bytes a)%nat with (1 + account_len as_bytes a + 1)%nat by (unfold byte_len; lia).
    rewrite prefix_length, drop_prefix. by rewrite bool_decide_true.
  - unfold parse_index_from_delayed_receipt_key. rewrite bool_decide_true by (cbn [length]; by rewrite length_to_le_bytes).
    cbn [negb]. change (drop 1 (?c :: ?l)) with l. rewrite take_ge by (by rewrite length_to_le_bytes). by rewrite from_to_le_bytes by (unfold in_u, umax in Hk; simpl; lia).
  - split; [apply parse_separated_ok|by apply parse_data_key_ok].
  - destruct Hk as [Hpk Hi]. unfold parse_trie_key_gas_key_from_raw_key.
    change (parse_account_id_from_gas_key_key from_str ?r) with (parse_account_id_from_trie_key_with_separator from_str col.GAS_KEY r).
    rewrite parse_separated_ok. cbn [mbind sum_bind]. unfold parse_public_key_from_gas_key_key, byte_len.
    rewrite prefix_length, drop_prefix, (borsh_roundtrip pk _ Hpk). cbn [fmap option_fmap option_map ok_or_err fst mbind sum_bind].
    unfold parse_nonce_index_from_gas_key_key, byte_len. rewrite (proj2 (Nat.ltb_ge _ _)).
    + rewrite <-drop_drop, drop_prefix, <-(length_public_key pk Hpk), drop_app_length, (try_from_slice_encode nonce_index_ok) by done. done.
    + cbn [length]. unfold account_len. rewrite length_app. cbn [length]. rewrite length_app, (length_public_key pk Hpk). lia.
Qed.

Lemma prefix_separated c c' a a' p rest :
  (c :: as_bytes a ++ ACCOUNT_DATA_SEPARATOR :: p) `prefix_of` (c' :: as_bytes a' ++ ACCOUNT_DATA_SEPARATOR :: rest) ↔
  c = c' ∧ a = a' ∧ p `prefix_of` rest.
Proof.
  split.
  - intros [k Hk]. cbn [app] in Hk. rewrite <-app_assoc in Hk. injection Hk as -> Hk. cbn [app] in Hk.
    apply separated_inj in Hk as [-> ->]. split_and!; [done|done|by exists k].
  - intros (-> & -> & k & ->). exists k. cbn [app]. by rewrite <-app_assoc.
Qed.

Lemma prefix_access c c' a a' p rest :
  (c :: as_bytes a ++ ACCESS_KEY_SEPARATOR :: p) `prefix_of` (c' :: as_bytes a' ++ ACCESS_KEY_SEPARATOR :: rest) ↔
  c = c' ∧ a = a' ∧ p `prefix_of` rest.
Proof.
  split.
  - intros [k Hk]. cbn [app] in Hk. rewrite <-app_assoc in Hk. injection Hk as -> Hk. cbn [app] in Hk.
    apply access_separated_inj in Hk as [-> ->]. split_and!; [done|done|by exists k].
  - intros (-> & -> & k & ->). exists k. cbn [app]. by rewrite <-app_assoc.
Qed.

Lemma prefix_column (c c' : Z) p rest : (c :: p) `prefix_of` (c' :: rest) → c = c'.
Proof. intros [k Hk]. by injection Hk. Qed.

Lemma prefix_entries k raw a pk p :
  key_ok k → public_key_ok pk → to_vec as_bytes k = Some raw →
  (get_raw_prefix_for_contract_data as_bytes a p `prefix_of` raw ↔ ∃ rest, k = ContractData a (p ++ rest)) ∧
  (get_raw_prefix_for_access_keys as_bytes a `prefix_of` raw ↔ ∃ pk, k = AccessKey a pk) ∧
  (get_raw_prefix_for_gas_keys as_bytes a `prefix_of` raw ↔ ∃ pk i, k = GasKey a pk i) ∧
  (get_raw_prefix_for_gas_key as_bytes a pk `prefix_of` raw ↔ ∃ i, k = GasKey a pk i).
Proof.
  intros Hk Hpk Hraw. unfold get_raw_prefix_for_contract_data, get_raw_prefix_for_access_keys, get_raw_prefix_for_gas_keys,
    get_raw_prefix_for_gas_key. change col.ACCESS_KEY with ACCESS_KEY_SEPARATOR at 2. cbn [app].
  destruct k; unfold to_vec, append_into in Hraw; try (case_match; [|done]); apply (inj Some) in Hraw as <-; cbn [app].
  all: split; [|split; [|split]]; try (split; [intros Hp; apply prefix_column in Hp; discriminate Hp|naive_solver]).
  - rewrite prefix_access. split; [intros (_ & -> & _); eauto|]. intros [? [= -> ->]]. split_and!; [done|done|apply prefix_nil].
  - rewrite prefix_separated. split; [intros (_ & -> & r & ->); eauto|]. intros [r [= -> ->]]. split_and!; [done|done|by eexists].
  - rewrite prefix_separated. split; [intros (_ & -> & _); eauto|]. intros (? & ? & [= -> -> ->]). split_and!; [done|done|apply prefix_nil].
  - rewrite prefix_separated. split.
    + intros (_ & -> & r & Hr). destruct Hk as [Hk _]. apply public_key_inj in Hr as [-> _]; [by eexists|done..].
    + intros [i [= -> -> ->]]. split_and!; [done|done|by eexists].
Qed.

(** C32: An iteration over the entries of an account sees exactly its own.  Among all keys, those that start
    with the prefix for the contract data of an account are its contract data with that key
    prefix, and likewise for its access keys, for its gas keys and for one of its gas keys; so nothing of another account
    whose name extends this one is touched. *)
Theorem prefixes_select_own_entries k raw a pk p :
  key_ok k → public_key_ok pk → to_vec as_bytes k = Some raw →
  (get_raw_prefix_for_contract_data as_bytes a p `prefix_of` raw ↔ ∃ rest, k = ContractData a (p ++ rest)) ∧
  (get_raw_prefix_for_access_keys as_bytes a `prefix_of` raw ↔ ∃ pk, k = AccessKey a pk) ∧
  (get_raw_prefix_for_gas_keys as_bytes a `prefix_of` raw ↔ ∃ pk i, k = GasKey a pk i) ∧
  (get_raw_prefix_for_gas_key as_bytes a pk `prefix_of` raw ↔ ∃ i, k = GasKey a pk i).
Proof. apply prefix_entries. Qed.
End correct.

(** * Examples

    Account ids as strings of at most 64 of the allowed characters, and the borsh formats of an
    option and of an enumeration. *)

Module KeyExample.
Definition valid (l : list Z) : Prop := Forall (λ b, account_char b = true) l ∧ (length l ≤ 64)%nat.

#[export] Instance valid_dec l : Decision (valid l).
Proof. apply _. Defined.

Definition AccountId : Type := dsig valid.
Definition as_bytes (a : AccountId) : list Z := proj1_sig a.
Definition from_str (l : list Z) : option AccountId :=
  match decide (valid l) with left Hl => Some (dexist l Hl) | right _ => None end.

#[export] Instance accounts : AccountIds as_bytes from_str.
Proof.
  split.
  - intros a. apply (proj2_dsig a).
  - intros a. unfold from_str. destruct (decide _) as [Hl|Hn]; [|destruct Hn; apply (proj2_dsig a)].
    f_equal. by apply dsig_eq.
Qed.

#[export] Instance option_borsh : Borsh (option Z) := {|
  borsh_encode i := match i with None => [0] | Some i => 1 :: to_le_bytes 4 i end;
  borsh_decode bytes :=
    match bytes with
    | 0 :: rest => Some (None, rest)
    | 1 :: rest => '(i, rest) ← @borsh_decode Z (borsh_uint 4) rest; Some (Some i, rest)
    | _ => None
    end
|}.

#[export] Instance option_borsh_ok : BorshOk (option Z) nonce_index_ok.
Proof.
  intros [i|] rest Hi; [|done]. cbn [borsh_encode borsh_decode option_borsh app].
  change (to_le_bytes 4 i) with (@borsh_encode Z (borsh_uint 4) i).
  rewrite (@borsh_roundtrip Z (borsh_uint 4) _ (borsh_uint_ok 4)); [done|]. unfold nonce_index_ok, in_u, umax in Hi. simpl. lia.
Qed.

#[export] Instance identifier_borsh : Borsh (GlobalContractCodeIdentifier AccountId) := {|
  borsh_encode i :=
    match i with
    | IdCodeHash hash => 0 :: hash
    | IdAccountId a => 1 :: to_le_bytes 4 (Z.of_nat (length (as_bytes a))) ++ as_bytes a
    end;
  borsh_decode bytes :=
    match bytes with
    | 0 :: rest => '(h, rest) ← read_bytes 32 rest; Some (IdCodeHash h, rest)
    | 1 :: rest =>
        '(n, rest) ← @borsh_decode Z (borsh_uint 4) rest;
        '(s, rest) ← read_bytes (Z.to_nat n) rest;
        a ← from_str s;
        Some (IdAccountId a, rest)
    | _ => None
    end
|}.

#[export] Instance identifier_borsh_ok : BorshOk (GlobalContractCodeIdentifier AccountId) identifier_ok.
Proof.
  intros [h|a] rest Hi; cbn [borsh_encode borsh_decode identifier_borsh app].
  - unfold read_bytes. rewrite length_app, (proj2 (Nat.ltb_ge _ _)) by (simpl in Hi; lia). cbn [mbind option_bind].
    by rewrite take_app_length', drop_app_length' by (simpl in Hi; lia).
  - rewrite <-app_assoc. change (to_le_bytes 4 ?n) with (@borsh_encode Z (borsh_uint 4) n).
    rewrite (@borsh_roundtrip Z (borsh_uint 4) _ (borsh_uint_ok 4)); [|pose proof (proj2 (proj2_dsig a)); unfold as_bytes; simpl; lia].
    cbn [mbind option_bind]. rewrite Nat2Z.id. unfold read_bytes. rewrite length_app, (proj2 (Nat.ltb_ge _ _)) by lia.
    cbn [mbind option_bind]. rewrite take_app_length, drop_app_length, from_str_as_bytes. done.
Qed.

Definition alice : AccountId := dexist [97; 108; 105; 99; 101] (bool_decide_unpack (valid [97; 108; 105; 99; 101]) I).
Definition alice_near : AccountId := dexist [97; 108; 105; 99; 101; 46; 110] (bool_decide_unpack (valid [97; 108; 105; 99; 101; 46; 110]) I).
Definition pk : PublicKey := ED25519 (replicate 32 44).
Definition gas_key : TrieKey AccountId := GasKey alice pk (Some 300).
Definition raw_gas_key : list Z := [19; 97; 108; 105; 99; 101; 44; 0] ++ replicate 32 44 ++ [1; 44; 1; 0; 0].
End KeyExample.
Import KeyExample.

Lemma to_vec_injective_witness :
  to_vec as_bytes gas_key = Some raw_gas_key ∧
  gas_key = gas_key.
Proof.
  assert (to_vec as_bytes gas_key = Some raw_gas_key) as H by by vm_compute.
  split; [exact H|]. apply (to_vec_injective as_bytes from_str gas_key gas_key raw_gas_key); [by vm_compute..|exact H|exact H].
Defined.

Lemma account_id_recovered_witness :
  parse_account_id_from_raw_key from_str raw_gas_key = inr (Some alice).
Proof. apply (account_id_recovered as_bytes from_str gas_key). by vm_compute. Defined.

Lemma keys_parse_back_witness :
  parse_trie_key_gas_key_from_raw_key as_bytes from_str raw_gas_key = inr gas_key.
Proof. apply (keys_parse_back as_bytes from_str gas_key); by vm_compute. Defined.

Lemma prefixes_select_own_entries_witness :
  get_raw_prefix_for_gas_keys as_bytes alice_near `prefix_of` raw_gas_key ↔
  ∃ pk i, gas_key = GasKey alice_near pk i.
Proof.
  apply (prefixes_select_own_entries as_bytes from_str gas_key raw_gas_key
    alice_near pk []); by vm_compute.
Defined.
