(* ===== verification/SortedMap.v ===== *)
(** Maps whose keys are byte strings ([BTreeMap<Vec<u8>, _>]): the order of the keys, the entries in
    that order, and ranges of entries. *)

From stdpp Require Import sorting.
From S2P Require Import Prelude.
Local Open Scope Z_scope.

(** * The order of byte strings *)

Definition lex_le (l k : list Z) : Prop := lex_compare l k ≠ Gt.
Definition lex_lt (l k : list Z) : Prop := lex_compare l k = Lt.

#[export] Instance lex_le_dec l k : Decision (lex_le l k).
Proof. unfold lex_le. apply _. Defined.
#[export] Instance lex_lt_dec l k : Decision (lex_lt l k).
Proof. unfold lex_lt. apply _. Defined.

Lemma lex_compare_opp l : ∀ k, lex_compare k l = CompOpp (lex_compare l k).
Proof.
  induction l as [|x l IH]; intros [|y k]; cbn [lex_compare]; [done..|].
  rewrite (Z.compare_antisym x y). destruct (x ?= y); cbn [CompOpp]; [apply IH|done..].
Qed.

Lemma lex_lt_cons x l y k : lex_lt (x :: l) (y :: k) ↔ x < y ∨ x = y ∧ lex_lt l k.
Proof. unfold lex_lt. cbn [lex_compare]. destruct (Z.compare_spec x y); naive_solver lia. Qed.

Lemma lex_le_cons x l y k : lex_le (x :: l) (y :: k) ↔ x < y ∨ x = y ∧ lex_le l k.
Proof. unfold lex_le. cbn [lex_compare]. destruct (Z.compare_spec x y); naive_solver lia. Qed.

Lemma lex_le_lt l k : lex_le l k ↔ lex_lt l k ∨ l = k.
Proof. unfold lex_le, lex_lt. rewrite <-lex_compare_eq. destruct (lex_compare l k); naive_solver. Qed.

Lemma lex_not_lt l k : ¬ lex_lt l k ↔ lex_le k l.
Proof. unfold lex_le, lex_lt. rewrite (lex_compare_opp l k). destruct (lex_compare l k); naive_solver. Qed.

#[export] Instance lex_lt_trans : Transitive lex_lt.
Proof.
  intros l. induction l as [|x l IH]; intros [|y k] [|z m]; try done.
  rewrite !lex_lt_cons. intros [?|(-> & ?)] [?|(-> & ?)]; [left; lia|left; lia|left; lia|right]. split; [done|]. by eapply IH.
Qed.

Lemma lex_lt_irrefl l : ¬ lex_lt l l.
Proof. unfold lex_lt. by rewrite (proj2 (lex_compare_eq l l)). Qed.

#[export] Instance lex_le_trans : Transitive lex_le.
Proof.
  intros l k m. rewrite !lex_le_lt. intros [H1| ->] [H2| ->]; try (by left); [left; by etrans|by right].
Qed.

#[export] Instance lex_le_total : Total lex_le.
Proof. intros l k. unfold lex_le. rewrite (lex_compare_opp l k). destruct (lex_compare l k); simpl; auto. Qed.

#[export] Instance lex_le_antisymm : AntiSymm (=) lex_le.
Proof.
  intros l k Hl Hk. apply lex_compare_eq. unfold lex_le in *. rewrite (lex_compare_opp l k) in Hk. by destruct (lex_compare l k).
Qed.

Lemma lex_prefix_le p r : lex_le p (p ++ r).
Proof. induction p as [|x p IH]; [by destruct r|]. cbn [app]. apply lex_le_cons. by right. Qed.

(** * Entries in the order of the keys *)

Section entries.
Context {V : Type}.
Implicit Types m : gmap (list Z) V.

Definition entry_le (p q : list Z * V) : Prop := lex_le p.1 q.1.

#[export] Instance entry_le_dec p q : Decision (entry_le p q).
Proof. unfold entry_le. apply _. Defined.

Definition sorted_entries m : list (list Z * V) := merge_sort entry_le (map_to_list m).

(** The keys of the list increase strictly. *)
Definition increasing (l : list (list Z * V)) : Prop := StronglySorted lex_lt l.*1.

Lemma sorted_entries_perm m : sorted_entries m ≡ₚ map_to_list m.
Proof. apply merge_sort_Permutation. Qed.

Lemma elem_of_sorted_entries m k v : (k, v) ∈ sorted_entries m ↔ m !! k = Some v.
Proof. rewrite sorted_entries_perm. apply elem_of_map_to_list. Qed.

Lemma increasing_cons k v l : increasing ((k, v) :: l) ↔ (∀ k' v', (k', v') ∈ l → lex_lt k k') ∧ increasing l.
Proof.
  unfold increasing. cbn [fmap list_fmap fst]. split.
  - intros [Hs HF]%StronglySorted_inv. split; [|done]. intros k' v' Hin. rewrite Forall_forall in HF. apply HF.
    apply list_elem_of_fmap. by exists (k', v').
  - intros [Hlt Hs]. constructor; [done|]. apply Forall_forall. intros k' ([k1 v1] & -> & Hin)%list_elem_of_fmap. by eapply Hlt.
Qed.

Lemma increasing_sorted_entries m : increasing (sorted_entries m).
Proof.
  assert (StronglySorted entry_le (sorted_entries m)) as Hs.
  { apply StronglySorted_merge_sort; [intros p q r; apply lex_le_trans|intros p q; apply lex_le_total]. }
  assert (NoDup (sorted_entries m).*1) as Hnd.
  { rewrite sorted_entries_perm. apply NoDup_fst_map_to_list. }
  induction (sorted_entries m) as [|[k v] l IH]; [constructor|]. apply StronglySorted_inv in Hs as [Hs HF].
  cbn [fmap list_fmap] in Hnd. apply NoDup_cons in Hnd as [Hk Hnd]. apply increasing_cons. split; [|by apply IH].
  intros k' v' Hin. rewrite Forall_forall in HF. pose proof (HF _ Hin) as Hle. unfold entry_le in Hle. simpl in Hle.
  apply lex_le_lt in Hle as [?| ->]; [done|]. destruct Hk. apply list_elem_of_fmap. by exists (k', v').
Qed.

(** [range]: the entries from [lo], below [hi] when there is an upper bound. *)
Definition in_range (lo : list Z) (hi : option (list Z)) (k : list Z) : Prop :=
  lex_le lo k ∧ match hi with Some hi => lex_lt k hi | None => True end.

#[export] Instance in_range_dec lo hi k : Decision (in_range lo hi k).
Proof. unfold in_range. destruct hi; apply _. Defined.

Definition range m (lo : list Z) (hi : option (list Z)) : list (list Z * V) :=
  filter (λ p, in_range lo hi p.1) (sorted_entries m).

Lemma elem_of_range m lo hi k v : (k, v) ∈ range m lo hi ↔ in_range lo hi k ∧ m !! k = Some v.
Proof. unfold range. by rewrite list_elem_of_filter, elem_of_sorted_entries. Qed.

Lemma increasing_filter (P : list Z * V → Prop) `{∀ p, Decision (P p)} l : increasing l → increasing (filter P l).
Proof.
  induction l as [|[k v] l IH]; [done|]. intros [Hlt Hs]%increasing_cons. rewrite filter_cons. case_decide; [|by apply IH].
  apply increasing_cons. split; [|by apply IH]. intros k' v' [_ Hin]%list_elem_of_filter. by eapply Hlt.
Qed.

Lemma increasing_range m lo hi : increasing (range m lo hi).
Proof. apply increasing_filter, increasing_sorted_entries. Qed.
End entries.

(** Strictly increasing lists of keys with the same elements are equal. *)
Lemma increasing_unique (l k : list (list Z)) :
  StronglySorted lex_lt l → StronglySorted lex_lt k → (∀ x, x ∈ l ↔ x ∈ k) → l = k.
Proof.
  intros Hl Hk Heq. apply (StronglySorted_unique_strong lex_lt); [|done|done|].
  - intros x y _ _ H1 H2. destruct (lex_lt_irrefl x). by etrans.
  - assert (∀ l, StronglySorted lex_lt l → NoDup l) as Hnd.
    { induction 1 as [|x m Hs IH HF]; constructor; [|done]. intros Hin. rewrite Forall_forall in HF. by apply (lex_lt_irrefl x), HF. }
    apply NoDup_Permutation; auto.
Qed.
