(* ===== verification/StateUpdate.v ===== *)
(** The overlay through which the runtime reads and writes the state
    (core/store/src/trie/update.rs), its iterator (core/store/src/trie/update/iterator.rs) and the
    contracts that are deployed and called meanwhile (core/store/src/contract.rs).

    Keys are turned into byte strings by [to_vec], whose panic is [None].  The trie below is used
    through [trie_get] and, at the end, [trie_apply] (the function [Trie::update]); of the
    recorder of storage proofs the part that [remove] changes is modelled. *)

From S2P Require Import Prelude Borsh TrieKey SortedMap.
Local Open Scope Z_scope.

Abbreviation bytes := (list Z).

(** * Contracts *)

Record Code : Type := mkCode { code : bytes; code_hash : bytes }.

Record ContractsTracker : Type := mkTracker {
  uncommitted_deploys : gmap bytes Code;
  committed_deploys : gmap bytes Code;
  contract_calls : gset bytes
}.

Record ContractUpdates : Type := mkContractUpdates {
  contract_accesses : gset bytes;
  contract_deploys : list Code
}.

Definition default_tracker : ContractsTracker := mkTracker ∅ ∅ ∅.

Definition tracker_get (t : ContractsTracker) (hash : bytes) : option Code :=
  (λ c, mkCode (code c) hash) <$>
    match uncommitted_deploys t !! hash with
    | Some c => Some c
    | None => committed_deploys t !! hash
    end.

Definition tracker_call (hash : bytes) (t : ContractsTracker) : ContractsTracker :=
  mkTracker (uncommitted_deploys t) (committed_deploys t) ({[hash]} ∪ contract_calls t).

Definition tracker_deploy (c : Code) (t : ContractsTracker) : ContractsTracker :=
  mkTracker (<[code_hash c := c]> (uncommitted_deploys t)) (committed_deploys t) (contract_calls t).

Definition tracker_rollback (t : ContractsTracker) : ContractsTracker :=
  mkTracker ∅ (committed_deploys t) (contract_calls t).

Definition tracker_commit (t : ContractsTracker) : ContractsTracker :=
  mkTracker ∅
    (foldl (λ m p, <[p.1 := p.2]> m) (committed_deploys t) (sorted_entries (uncommitted_deploys t)))
    (contract_calls t).

Definition tracker_finalize (t : ContractsTracker) : ContractUpdates :=
  mkContractUpdates (contract_calls t) (sorted_entries (committed_deploys t)).*2.

(** * The recorder of removals *)

Record Recorder : Type := mkRecorder { upper_bound_size : Z; removal_counter : Z }.

Definition record_key_removal (r : Recorder) : option Recorder :=
  size ← checked_add 64 (upper_bound_size r) 2000;
  Some (mkRecorder size (wrapping_add 64 (removal_counter r) 1)).

(** * The overlay *)

Section overlay.
Context {AccountId : Type} (as_bytes : AccountId → bytes).
Context `{!Borsh (GlobalContractCodeIdentifier AccountId)} `{!Borsh (option Z)}.
Abbreviation Key := (TrieKey AccountId).

Context {Trie StorageError TrieChanges Cause : Type}.
Variable trie_get : Trie → bytes → StorageError + option bytes.
Variable trie_contains_key : Trie → bytes → StorageError + bool.
Variable trie_apply : Trie → list (bytes * option bytes) → StorageError + TrieChanges.
(** [Trie::get_optimized_ref]: the length and the hash of the value under a key; and the error for a missing value. *)
Variable trie_value_ref : Trie → bytes → StorageError + option (Z * bytes).
Variable is_missing_value : StorageError → bool.
Variable hash : bytes → bytes.

Record TrieKeyValueUpdate : Type := mkKeyValue { kv_key : Key; kv_value : option bytes }.

Record RawStateChange : Type := mkChange { cause : Cause; data : option bytes }.

Record RawStateChangesWithTrieKey : Type := mkChanges { ch_key : Key; changes : list RawStateChange }.

Record TrieUpdate : Type := mkUpdate {
  trie : Trie;
  recorder : option Recorder;
  contract_storage : option ContractsTracker;
  committed : gmap bytes RawStateChangesWithTrieKey;
  prospective : gmap bytes TrieKeyValueUpdate
}.

Definition new_update (t : Trie) (r : option Recorder) : TrieUpdate := mkUpdate t r (Some default_tracker) ∅ ∅.

(** The inner option is a removed key. *)
Definition get_ref_from_updates (u : TrieUpdate) (key : bytes) : option (option bytes) :=
  match prospective u !! key with
  | Some key_value => Some (kv_value key_value)
  | None =>
      match committed u !! key with
      | Some changes_with_trie_key => data <$> last (changes changes_with_trie_key)
      | None => None
      end
  end.

Definition get_from_updates (u : TrieUpdate) (key : bytes) (fallback : bytes → StorageError + option bytes)
    : StorageError + option bytes :=
  match get_ref_from_updates u key with
  | Some value => inr value
  | None => fallback key
  end.

Definition get (u : TrieUpdate) (k : Key) : option (StorageError + option bytes) :=
  key ← to_vec as_bytes k;
  Some (get_from_updates u key (trie_get (trie u))).

Definition contains_key (u : TrieUpdate) (k : Key) : option (StorageError + bool) :=
  key ← to_vec as_bytes k;
  Some match prospective u !! key with
       | Some _ => inr true
       | None =>
           match committed u !! key ≫= λ c, last (changes c) with
           | Some change => inr (bool_decide (is_Some (data change)))
           | None => trie_contains_key (trie u) key
           end
       end.

(** A [TrieUpdateValuePtr] by its length and hash; the length is cast to [u32]. *)
Definition memory_ref (value : bytes) : Z * bytes := (Z.of_nat (length value) mod 2 ^ 32, hash value).

Definition get_ref (u : TrieUpdate) (k : Key) : option (StorageError + option (Z * bytes)) :=
  key ← to_vec as_bytes k;
  Some match get_ref_from_updates u key with
       | Some value_ref => inr (memory_ref <$> value_ref)
       | None => trie_value_ref (trie u) key
       end.

Definition set_prospective (u : TrieUpdate) (p : gmap bytes TrieKeyValueUpdate) : TrieUpdate :=
  mkUpdate (trie u) (recorder u) (contract_storage u) (committed u) p.

Definition set (k : Key) (value : bytes) (u : TrieUpdate) : option TrieUpdate :=
  key ← to_vec as_bytes k;
  Some (set_prospective u (<[key := mkKeyValue k (Some value)]> (prospective u))).

Definition is_contract_data (k : Key) : bool := match k with ContractData _ _ => true | _ => false end.

Definition remove (k : Key) (u : TrieUpdate) : option TrieUpdate :=
  r ← (match recorder u with
       | Some r => if is_contract_data k then Some <$> record_key_removal r else Some (Some r)
       | None => Some None
       end);
  key ← to_vec as_bytes k;
  Some (mkUpdate (trie u) r (contract_storage u) (committed u) (<[key := mkKeyValue k None]> (prospective u))).

(** ** Contract code *)

(** [ContractCode::new] *)
Definition new_code (raw : bytes) (h : option bytes) : Code := mkCode raw (default (hash raw) h).

(** [map(|opt| opt.map(f))] of a result that may be a panic. *)
Definition map_value {A B} (f : A → B) (r : option (StorageError + option A)) : option (StorageError + option B) :=
  match r with
  | None => None
  | Some (inl e) => Some (inl e)
  | Some (inr o) => Some (inr (f <$> o))
  end.

Definition get_code (u : TrieUpdate) (account_id : AccountId) (code_hash : bytes) : option (StorageError + option Code) :=
  map_value (λ code, new_code code (Some code_hash)) (get u (ContractCode account_id)).

Definition get_global_contract_code (u : TrieUpdate) (identifier : GlobalContractCodeIdentifier AccountId) : option (StorageError + option Code) :=
  let code_hash := match identifier with IdCodeHash hash => Some hash | IdAccountId _ => None end in
  map_value (λ code, new_code code code_hash) (get u (GlobalContractCode identifier)).

Definition get_code_len (u : TrieUpdate) (account_id : AccountId) : option (StorageError + option Z) :=
  map_value fst (get_ref u (ContractCode account_id)).

Definition set_code (account_id : AccountId) (c : Code) (u : TrieUpdate) : option TrieUpdate := set (ContractCode account_id) (code c) u.

(** One entry of [prospective]: [entry(..).or_insert_with(..).changes.push(..)]. *)
Definition commit_entry (event : Cause) (m : gmap bytes RawStateChangesWithTrieKey) (p : bytes * TrieKeyValueUpdate)
    : gmap bytes RawStateChangesWithTrieKey :=
  let '(raw_key, kv) := p in
  let entry := default (mkChanges (kv_key kv) []) (m !! raw_key) in
  <[raw_key := mkChanges (ch_key entry) (changes entry ++ [mkChange event (kv_value kv)])]> m.

Definition commit (event : Cause) (u : TrieUpdate) : option TrieUpdate :=
  let c := foldl (commit_entry event) (committed u) (sorted_entries (prospective u)) in
  t ← contract_storage u;
  Some (mkUpdate (trie u) (recorder u) (Some (tracker_commit t)) c ∅).

Definition rollback (u : TrieUpdate) : option TrieUpdate :=
  t ← contract_storage u;
  Some (mkUpdate (trie u) (recorder u) (Some (tracker_rollback t)) (committed u) ∅).

Record TrieUpdateResult : Type := mkResult {
  result_trie : Trie;
  trie_changes : TrieChanges;
  state_changes : list RawStateChangesWithTrieKey;
  contract_updates : ContractUpdates
}.

(** The last change of every committed entry; an entry without changes is a panic. *)
Definition final_changes (u : TrieUpdate) : option (list (bytes * option bytes)) :=
  mapM (λ p, c ← last (changes p.2); Some (p.1, data c)) (sorted_entries (committed u)).

Definition finalize (u : TrieUpdate) : option (StorageError + TrieUpdateResult) :=
  if negb (bool_decide (prospective u = ∅)) then None
  else
    ch ← final_changes u;
    match trie_apply (trie u) ch with
    | inl e => Some (inl e)
    | inr tc =>
        t ← contract_storage u;
        Some (inr (mkResult (trie u) tc (sorted_entries (committed u)).*2 (tracker_finalize t)))
    end.

Definition record_contract_deploy (c : Code) (u : TrieUpdate) : option TrieUpdate :=
  t ← contract_storage u;
  Some (mkUpdate (trie u) (recorder u) (Some (tracker_deploy c t)) (committed u) (prospective u)).

Definition record_call (hash : bytes) (u : TrieUpdate) : option TrieUpdate :=
  t ← contract_storage u;
  Some (mkUpdate (trie u) (recorder u) (Some (tracker_call hash t)) (committed u) (prospective u)).

(** [update_tracked_shard] is [apply_reason == ApplyChunkReason::UpdateTrackedShard]. *)
Definition record_contract_call (account_id : AccountId) (code_hash : bytes) (account_contract : AccountContract AccountId)
    (update_tracked_shard : bool) (u : TrieUpdate) : option (StorageError + TrieUpdate) :=
  if negb update_tracked_shard then Some (inr u)
  else
    match for_account_contract_code account_id account_contract with
    | None => Some (inr u)
    | Some trie_key =>
        key ← to_vec as_bytes trie_key;
        match trie_value_ref (trie u) key with
        | inl err => if is_missing_value err then Some (inr u) else Some (inl err)
        | inr contract_ref =>
            if bool_decide (snd <$> contract_ref = Some code_hash) then inr <$> record_call code_hash u else Some (inr u)
        end
    end.

(** [ContractStorage::get]; [retrieve] reads the storage below. *)
Definition contract_get (retrieve : bytes → option bytes) (u : TrieUpdate) (hash : bytes) : option Code :=
  match (t ← contract_storage u; tracker_get t hash) with
  | Some c => Some (mkCode (code c) hash)
  | None => (λ raw, mkCode raw hash) <$> retrieve hash
  end.

(** * Iteration *)

(** The number of bytes 255 at the end. *)
Fixpoint count_ff (rev_prefix : bytes) : nat :=
  match rev_prefix with
  | b :: rest => if b =? 255 then S (count_ff rest) else 0
  | [] => 0
  end.

(** The outer option is a panic. *)
Definition make_prefix_range_end_bound (prefix : bytes) : option (option bytes) :=
  let ffs := count_ff (reverse prefix) in
  let next := take (length prefix - ffs) prefix in
  match last next with
  | None => Some None
  | Some b =>
      b ← checked_add 8 b 1;
      Some (Some (<[(length next - 1)%nat := b]> next))
  end.

Abbreviation Item := (bytes * option bytes)%type.

(** [MergeIter::next]: the item and the two iterators after it. *)
Definition merge_next (left right : list Item) : option (Item * (list Item * list Item)) :=
  match left, right with
  | l :: left', r :: right' =>
      match lex_compare l.1 r.1 with
      | Lt => Some (l, (left', right))
      | Gt => Some (r, (left, right'))
      | Eq => Some (r, (left', right'))
      end
  | l :: left', [] => Some (l, (left', []))
  | [], r :: right' => Some (r, ([], right'))
  | [], [] => None
  end.

Abbreviation TrieItems := (list (StorageError + bytes * bytes)).

(** The iterator is exhausted ([None]) or holds the items of the trie and of the overlay. *)
Abbreviation IterState := (option (TrieItems * (list Item * list Item))).

(** One turn of the loop in [next]: an item or the end ([inl]), or another turn. *)
Definition iter_step (it : TrieItems) (left right : list Item)
    : (option (StorageError + bytes) * IterState) + (TrieItems * (list Item * list Item)) :=
  match it, merge_next left right with
  | inl err :: _, _ => inl (Some (inl err), None)
  | [], None => inl (None, None)
  | inr (key, _) :: it', None => inl (Some (inr key), Some (it', (left, right)))
  | [], Some ((key, value), rest) =>
      if bool_decide (is_Some value) then inl (Some (inr key), Some ([], rest)) else inr ([], rest)
  | inr (left_key, v) :: it', Some ((right_key, value), rest) =>
      match lex_compare left_key right_key with
      | Lt => inl (Some (inr left_key), Some (it', (left, right)))
      | Eq => if bool_decide (is_Some value) then inl (Some (inr left_key), Some (it', rest)) else inr (it', rest)
      | Gt => if bool_decide (is_Some value) then inl (Some (inr right_key), Some (it, rest)) else inr (it, rest)
      end
  end.

Fixpoint next_loop (fuel : nat) (it : TrieItems) (left right : list Item)
    : option (option (StorageError + bytes) * IterState) :=
  match fuel with
  | O => None
  | S fuel =>
      match iter_step it left right with
      | inl r => Some r
      | inr (it, (ls, rs)) => next_loop fuel it ls rs
      end
  end.

(** Every turn consumes an item. *)
Definition items_left (it : TrieItems) (left right : list Item) : nat := length it + length left + length right.

Definition iter_size (s : IterState) : nat := match s with None => 0 | Some (it, (ls, rs)) => items_left it ls rs end.

Definition iter_next (s : IterState) : option (option (StorageError + bytes) * IterState) :=
  match s with
  | None => Some (None, None)
  | Some (it, (ls, rs)) => next_loop (S (items_left it ls rs)) it ls rs
  end.

(** [collect::<Result<Vec<_>, _>>()] *)
Fixpoint collect (fuel : nat) (s : IterState) (acc : list bytes) : option (StorageError + list bytes) :=
  match fuel with
  | O => None
  | S fuel =>
      '(item, s) ← iter_next s;
      match item with
      | None => Some (inr acc)
      | Some (inl err) => Some (inl err)
      | Some (inr key) => collect fuel s (acc ++ [key])
      end
  end.

(** The iterator over the keys with a prefix.  [trie_items] is what the iterator of the trie yields
    after [seek_prefix]. *)
Definition update_iter (u : TrieUpdate) (prefix : bytes) (trie_items : TrieItems) : option IterState :=
  end_bound ← make_prefix_range_end_bound prefix;
  committed_iter ← mapM (λ p, c ← last (changes p.2); Some (p.1, data c)) (range (committed u) prefix end_bound);
  let prospective_iter := (λ p, (p.1, kv_value p.2)) <$> range (prospective u) prefix end_bound in
  Some (Some (trie_items, (committed_iter, prospective_iter))).
End overlay.
