(* ===== verification/StateUpdateCorrect.v ===== *)
(** What the state overlay guarantees: it is a transactional map on top of the trie, and its iterator
    lists the keys of that map. *)

From stdpp Require Import sorting.
From S2P Require Import Prelude Borsh TrieKey SortedMap StateUpdate.
Local Open Scope Z_scope.

(** * Loops over the entries of a map *)

Section fold_entries.
Context {V W : Type}.

(** A loop that updates, for every entry, the value under its key. *)
Lemma foldl_entries (f : option W → V → W) (l : list (bytes * V)) : ∀ (m : gmap bytes W) k,
  NoDup l.*1 →
  foldl (λ m p, <[p.1 := f (m !! p.1) p.2]> m) m l !! k =
    match (list_to_map l : gmap bytes V) !! k with Some v => Some (f (m !! k) v) | None => m !! k end.
Proof.
  induction l as [|[k0 v0] l IH]; intros m k Hnd; [done|]. cbn [fmap list_fmap fst] in Hnd. apply NoDup_cons in Hnd as [Hk0 Hnd].
  cbn [foldl list_to_map foldr fst snd]. rewrite IH by done. destruct (decide (k0 = k)) as [->|Hne].
  - rewrite lookup_insert_eq, not_elem_of_list_to_map_1 by done. cbn. by rewrite !lookup_insert_eq.
  - rewrite !lookup_insert_ne by done. done.
Qed.

Lemma list_to_map_sorted_entries (m : gmap bytes V) : list_to_map (sorted_entries m) = m.
Proof.
  rewrite <-(list_to_map_to_list m) at 2. apply list_to_map_proper; [|apply sorted_entries_perm].
  rewrite sorted_entries_perm. apply NoDup_fst_map_to_list.
Qed.

Lemma NoDup_sorted_entries (m : gmap bytes V) : NoDup (sorted_entries m).*1.
Proof. rewrite sorted_entries_perm. apply NoDup_fst_map_to_list. Qed.

Lemma foldl_sorted_entries (f : option W → V → W) (m0 : gmap bytes V) (m : gmap bytes W) k :
  foldl (λ m p, <[p.1 := f (m !! p.1) p.2]> m) m (sorted_entries m0) !! k =
    match m0 !! k with Some v => Some (f (m !! k) v) | None => m !! k end.
Proof. rewrite foldl_entries by apply NoDup_sorted_entries. by rewrite list_to_map_sorted_entries. Qed.
End fold_entries.

(** * Transactions *)

Section correct.
Context {AccountId : Type} (as_bytes : AccountId → bytes).
Context `{!Borsh (GlobalContractCodeIdentifier AccountId)} `{!Borsh (option Z)}.
Context {Trie Cause : Type}.
(** The content of the trie. *)
Variable content : Trie → gmap bytes bytes.

Abbreviation Key := (TrieKey AccountId).
Abbreviation Update := (TrieUpdate (AccountId := AccountId) (Trie := Trie) (Cause := Cause)).

(** The specification: the state and the deployed contracts, with the versions a rollback returns to. *)
Record Tx : Type := mkTx {
  saved : gmap bytes bytes;
  current : gmap bytes bytes;
  saved_code : gmap bytes Code;
  current_code : gmap bytes Code
}.

Inductive Op : Type :=
| OpSet (k : Key) (v : bytes)
| OpRemove (k : Key)
| OpCommit (event : Cause)
| OpRollback
| OpDeploy (c : Code).

Definition exec (op : Op) (u : Update) : option Update :=
  match op with
  | OpSet k v => set as_bytes k v u
  | OpRemove k => remove as_bytes k u
  | OpCommit event => commit event u
  | OpRollback => rollback u
  | OpDeploy c => record_contract_deploy c u
  end.

Definition spec_op (op : Op) (x : Tx) : option Tx :=
  match op with
  | OpSet k v => raw ← to_vec as_bytes k; Some (mkTx (saved x) (<[raw := v]> (current x)) (saved_code x) (current_code x))
  | OpRemove k => raw ← to_vec as_bytes k; Some (mkTx (saved x) (delete raw (current x)) (saved_code x) (current_code x))
  | OpCommit _ => Some (mkTx (current x) (current x) (current_code x) (current_code x))
  | OpRollback => Some (mkTx (saved x) (saved x) (saved_code x) (saved_code x))
  | OpDeploy c => Some (mkTx (saved x) (current x) (saved_code x) (<[code_hash c := c]> (current_code x)))
  end.

(** The value of a key after the committed changes, and after all changes. *)
Definition last_change (u : Update) (k : bytes) : option (option bytes) := c ← committed u !! k; data <$> last (changes c).

Definition view_committed (u : Update) (k : bytes) : option bytes :=
  match last_change u k with Some v => v | None => content (trie u) !! k end.

Definition view (u : Update) (k : bytes) : option bytes :=
  match prospective u !! k with Some kv => kv_value kv | None => view_committed u k end.

Record rep (t : Trie) (u : Update) (x : Tx) : Prop := {
  rep_trie : trie u = t;
  rep_saved : ∀ k, saved x !! k = view_committed u k;
  rep_current : ∀ k, current x !! k = view u k;
  rep_changes : ∀ k c, committed u !! k = Some c → changes c ≠ [];
  rep_code : ∃ ct, contract_storage u = Some ct ∧ saved_code x = committed_deploys ct ∧
    ∀ h, current_code x !! h = match uncommitted_deploys ct !! h with Some c => Some c | None => committed_deploys ct !! h end
}.

Lemma commit_lookup event (u : Update) k :
  foldl (commit_entry event) (committed u) (sorted_entries (prospective u)) !! k =
    match prospective u !! k with
    | Some kv =>
        let entry := default (mkChanges (kv_key kv) []) (committed u !! k) in
        Some (mkChanges (ch_key entry) (changes entry ++ [mkChange event (kv_value kv)]))
    | None => committed u !! k
    end.
Proof.
  etransitivity; [|apply (foldl_sorted_entries (λ o kv, let entry := default (mkChanges (kv_key kv) []) o in
    mkChanges (ch_key entry) (changes entry ++ [mkChange event (kv_value kv)])) (prospective u) (committed u) k)].
  f_equal. generalize (committed u). induction (sorted_entries (prospective u)) as [|[k0 kv] l IH]; intros m; [done|].
  cbn [foldl]. by rewrite IH.
Qed.

Lemma commit_view event u u' k : commit event u = Some u' → view_committed u' k = view u k.
Proof.
  unfold commit. destruct (contract_storage u); [|done]. cbn [mbind option_bind]. intros [= <-].
  unfold view_committed, view, last_change. cbn [committed trie]. rewrite commit_lookup.
  destruct (prospective u !! k) as [kv|]; [|done]. cbn [mbind option_bind changes]. by rewrite last_snoc.
Qed.

Lemma tracker_commit_lookup t h :
  committed_deploys (tracker_commit t) !! h = match uncommitted_deploys t !! h with Some c => Some c | None => committed_deploys t !! h end.
Proof.
  unfold tracker_commit. cbn [committed_deploys].
  apply (foldl_sorted_entries (λ (_ : option Code) (c : Code), c) (uncommitted_deploys t) (committed_deploys t) h).
Qed.

(** Room in the counter of the recorder for [n] removals. *)
Definition recorder_room (n : nat) (r : option Recorder) : Prop :=
  match r with Some r => upper_bound_size r + 2000 * Z.of_nat n <= umax 64 | None => True end.

Definition encodable (op : Op) : Prop :=
  match op with OpSet k _ | OpRemove k => is_Some (to_vec as_bytes k) | _ => True end.

Lemma remove_ok k raw (u : Update) n :
  to_vec as_bytes k = Some raw → recorder_room (S n) (recorder u) →
  ∃ r, remove as_bytes k u = Some (mkUpdate (trie u) r (contract_storage u) (committed u)
      (<[raw := mkKeyValue k None]> (prospective u))) ∧ recorder_room n r.
Proof.
  intros Hk. unfold remove. rewrite Hk. destruct (recorder u) as [r|]; intros Hr; cbn [mbind option_bind]; [|by eexists].
  unfold recorder_room in *. destruct (is_contract_data k).
  - unfold record_key_removal. rewrite checked_add_ok by lia. cbn. eexists. split; [done|]. simpl. lia.
  - cbn. eexists. split; [done|]. cbv iota. lia.
Qed.

Lemma write_rep t u x raw k v r :
  rep t u x →
  rep t (mkUpdate (trie u) r (contract_storage u) (committed u) (<[raw := mkKeyValue k v]> (prospective u)))
    (mkTx (saved x) (partial_alter (λ _, v) raw (current x)) (saved_code x) (current_code x)).
Proof.
  intros [Ht Hs Hc Hch Hcode]. constructor; simpl; try done. intros k'. unfold view. cbn [prospective].
  destruct (decide (raw = k')) as [->|Hne].
  - by rewrite lookup_partial_alter_eq, lookup_insert_eq.
  - rewrite lookup_partial_alter_ne, lookup_insert_ne by done. apply Hc.
Qed.

Lemma commit_rep t u x event u' :
  rep t u x → commit event u = Some u' →
  rep t u' (mkTx (current x) (current x) (current_code x) (current_code x)).
Proof.
  intros [Ht Hs Hc Hch (ct & Hct & Hsc & Hcc)] Hcommit. pose proof (λ k, commit_view event u u' k Hcommit) as Hv.
  unfold commit in Hcommit. rewrite Hct in Hcommit. cbn [mbind option_bind] in Hcommit. simplify_eq. constructor; simpl.
  - done.
  - intros k. by rewrite Hc, Hv.
  - intros k. rewrite Hc, <-Hv. done.
  - intros k c. rewrite commit_lookup. destruct (prospective u !! k); [|apply Hch]. intros [= <-]. simpl. by intros [_ ?]%app_nil.
  - eexists. split_and!; [done| |].
    + apply map_eq. intros h. rewrite tracker_commit_lookup. apply Hcc.
    + intros h. rewrite Hcc, tracker_commit_lookup. done.
Qed.

Lemma exec_rep t u x op n :
  rep t u x → encodable op → recorder_room (S n) (recorder u) →
  ∃ u' x', exec op u = Some u' ∧ spec_op op x = Some x' ∧ rep t u' x' ∧ recorder_room n (recorder u').
Proof.
  intros Hrep Hop Hroom. assert (Hroom' : recorder_room n (recorder u)).
  { unfold recorder_room in *. destruct (recorder u) as [r|]; [lia|done]. }
  destruct (rep_code _ _ _ Hrep) as (ct & Hct & Hsc & Hcc). destruct op as [k v|k|event| |c]; cbn [exec spec_op].
  - destruct Hop as [raw Hraw]. unfold set. rewrite Hraw. cbn [mbind option_bind]. eexists _, _. split_and!; [done|done| |done].
    by apply (write_rep t u x raw k (Some v)).
  - destruct Hop as [raw Hraw]. destruct (remove_ok k raw u n Hraw Hroom) as (r & -> & Hr). rewrite Hraw. cbn [mbind option_bind].
    eexists _, _. split_and!; [done|done| |done]. by apply (write_rep t u x raw k None).
  - unfold commit. rewrite Hct. cbn [mbind option_bind]. eexists _, _. split_and!; [done|done| |done].
    eapply commit_rep; [done|]. unfold commit. by rewrite Hct.
  - unfold rollback. rewrite Hct. cbn [mbind option_bind]. eexists _, _. split_and!; [done|done| |done].
    destruct Hrep as [Ht Hs Hc Hch _]. constructor; simpl; try done. eexists. split_and!; [done|done|]. intros h. by rewrite Hsc.
  - unfold record_contract_deploy. rewrite Hct. cbn [mbind option_bind]. eexists _, _. split_and!; [done|done| |done].
    destruct Hrep as [Ht Hs Hc Hch _]. constructor; simpl; try done. eexists. split_and!; [done|done|]. intros h. simpl.
    destruct (decide (code_hash c = h)) as [<-|Hne]; [by rewrite !lookup_insert_eq|]. rewrite !lookup_insert_ne by done. apply Hcc.
Qed.

Lemma new_rep t r : rep t (new_update t r) (mkTx (content t) (content t) ∅ ∅).
Proof.
  constructor; simpl; try done. eexists. split_and!; [done|done|]. intros h. simpl. by rewrite !lookup_empty.
Qed.

Lemma run_rep t ops : ∀ u x,
  rep t u x → Forall encodable ops → recorder_room (length ops) (recorder u) →
  ∃ u' x', for_each exec ops u = Some u' ∧ for_each spec_op ops x = Some x' ∧ rep t u' x'.
Proof.
  induction ops as [|op ops IH]; intros u x Hrep HF Hroom; [by exists u, x|]. apply Forall_cons in HF as [Hop HF].
  destruct (exec_rep t u x op (length ops) Hrep Hop Hroom) as (u1 & x1 & Hu1 & Hx1 & Hrep1 & Hroom1).
  destruct (IH u1 x1 Hrep1 HF Hroom1) as (u2 & x2 & Hu2 & Hx2 & Hrep2). exists u2, x2. cbn [for_each].
  rewrite (bind_value _ _ _ Hu1), (bind_value _ _ _ Hx1). done.
Qed.

(** What [Trie::update] does with the list of changes. *)
Definition apply_changes (m : gmap bytes bytes) (ch : list (bytes * option bytes)) : gmap bytes bytes :=
  foldl (λ m p, partial_alter (λ _, p.2) p.1 m) m ch.

Lemma apply_changes_lookup ch : ∀ m k,
  NoDup ch.*1 →
  apply_changes m ch !! k = match (list_to_map ch : gmap bytes (option bytes)) !! k with Some v => v | None => m !! k end.
Proof.
  induction ch as [|[k0 v0] ch IH]; intros m k Hnd; [done|]. cbn [fmap list_fmap fst] in Hnd. apply NoDup_cons in Hnd as [Hk0 Hnd].
  unfold apply_changes in *. cbn [foldl list_to_map foldr fst snd]. rewrite IH by done. destruct (decide (k0 = k)) as [->|Hne].
  - rewrite lookup_partial_alter_eq, not_elem_of_list_to_map_1 by done. cbn. by rewrite lookup_insert_eq.
  - rewrite lookup_partial_alter_ne by done. cbn. by rewrite lookup_insert_ne.
Qed.

Lemma final_changes_ok t u x :
  rep t u x → ∃ ch, final_changes u = Some ch ∧ apply_changes (content t) ch = saved x.
Proof.
  intros [Ht Hs _ Hch _]. unfold final_changes. set (h := λ c : RawStateChangesWithTrieKey (AccountId := AccountId) (Cause := Cause), default None (data <$> last (changes c))).
  exists (prod_map id h <$> sorted_entries (committed u)). split.
  - apply mapM_total. intros [k c] Hin. apply elem_of_sorted_entries, Hch in Hin. cbn [fst snd prod_map]. unfold h.
    destruct (last (changes c)) as [d|] eqn:Hl; [done|]. by apply last_None in Hl.
  - apply map_eq. intros k. rewrite apply_changes_lookup.
    + rewrite list_to_map_fmap, list_to_map_sorted_entries, lookup_fmap, Hs. unfold view_committed, last_change.
      destruct (committed u !! k) as [c|] eqn:Hc; cbn; [|by rewrite Ht]. unfold h.
      destruct (last (changes c)) as [d|] eqn:Hl; cbn; [done|]. apply last_None in Hl. by apply Hch in Hc.
    + rewrite <-list_fmap_compose. rewrite (list_fmap_ext _ fst); [apply NoDup_sorted_entries|done].
Qed.

(** * Reading and finalising *)

Context {StorageError TrieChanges : Type}.
Variable trie_get : Trie → bytes → StorageError + option bytes.
Variable trie_contains_key : Trie → bytes → StorageError + bool.
Variable trie_apply : Trie → list (bytes * option bytes) → StorageError + TrieChanges.
(** What the trie promises: its reads return its content. *)
Hypothesis trie_get_content : ∀ t k, trie_get t k = inr (content t !! k).
Hypothesis trie_contains_content : ∀ t k, trie_contains_key t k = inr (bool_decide (is_Some (content t !! k))).

Lemma get_view u k raw : to_vec as_bytes k = Some raw → get as_bytes trie_get u k = Some (inr (view u raw)).
Proof.
  intros Hk. unfold get. rewrite Hk. cbn [mbind option_bind]. f_equal. unfold get_from_updates, get_ref_from_updates, view, view_committed, last_change.
  destruct (prospective u !! raw) as [kv|]; [done|]. destruct (committed u !! raw) as [c|]; cbn [mbind option_bind]; [|apply trie_get_content].
  destruct (last (changes c)); cbn; [done|apply trie_get_content].
Qed.

(** C33: The overlay is a transactional map.  Any sequence of writes, removals, contract deployments, commits and
    rollbacks on a fresh overlay succeeds and behaves as the map of the trie's content with a
    saved version: reads return the current version, a commit saves it and a rollback
    returns to the saved one, for contracts as well as for the state.  Finalising is possible
    when nothing is uncommitted: it hands to the trie changes that turn the content of the
    trie into the saved version, and returns the saved contracts. *)
Theorem overlay_is_transactional t r ops :
  Forall encodable ops → recorder_room (length ops) r →
  ∃ u x ch, for_each exec ops (new_update t r) = Some u ∧
    for_each spec_op ops (mkTx (content t) (content t) ∅ ∅) = Some x ∧
    (∀ k raw, to_vec as_bytes k = Some raw → get as_bytes trie_get u k = Some (inr (current x !! raw))) ∧
    (∀ retrieve h, contract_get retrieve u h =
       match current_code x !! h with Some c => Some (mkCode (code c) h) | None => (λ raw, mkCode raw h) <$> retrieve h end) ∧
    apply_changes (content t) ch = saved x ∧
    finalize trie_apply u =
      if bool_decide (prospective u = ∅) then
        Some match trie_apply t ch with
             | inl e => inl e
             | inr tc => inr (mkResult t tc (sorted_entries (committed u)).*2
                 (mkContractUpdates (contract_accesses (tracker_finalize (default default_tracker (contract_storage u))))
                    (sorted_entries (saved_code x)).*2))
             end
      else None.
Proof.
  intros HF Hroom. destruct (run_rep t ops (new_update t r) _ (new_rep t r) HF Hroom) as (u & x & Hu & Hx & Hrep).
  destruct (final_changes_ok t u x Hrep) as (ch & Hch & Happ). exists u, x, ch.
  destruct (rep_code _ _ _ Hrep) as (ct & Hct & Hsc & Hcc). split_and!; try done.
  - intros k raw Hk. rewrite (get_view u k raw Hk). by rewrite (rep_current _ _ _ Hrep).
  - intros retrieve h. unfold contract_get. rewrite Hct. cbn [mbind option_bind]. unfold tracker_get. rewrite Hcc.
    destruct (uncommitted_deploys ct !! h) as [c|]; [done|]. by destruct (committed_deploys ct !! h).
  - unfold finalize. case_bool_decide as Hp; [|done]. cbn [negb]. rewrite Hch, (rep_trie _ _ _ Hrep). cbn [mbind option_bind].
    destruct (trie_apply t ch); [done|]. rewrite Hct. cbn. by rewrite Hsc.
Qed.

(** C35: [contains_key] agrees with [get] on every key that has no uncommitted removal, and on a
    key with an uncommitted removal it reports a value where [get] finds none. *)
Theorem contains_key_misses_removals u k raw :
  to_vec as_bytes k = Some raw →
  contains_key as_bytes trie_contains_key u k =
    Some (inr (bool_decide (is_Some (view u raw)) || bool_decide (kv_value <$> prospective u !! raw = Some None))) ∧
  get as_bytes trie_get u k = Some (inr (view u raw)) ∧
  (kv_value <$> prospective u !! raw = Some None → view u raw = None).
Proof.
  intros Hk. split_and!; [|by apply get_view|].
  - unfold contains_key. rewrite Hk. cbn [mbind option_bind]. unfold view, view_committed, last_change.
    destruct (prospective u !! raw) as [[kk [v|]]|]; cbn; [done..|]. rewrite orb_false_r.
    destruct (committed u !! raw) as [c|]; cbn; [|by rewrite trie_contains_content].
    destruct (last (changes c)) as [d|]; cbn; [done|by rewrite trie_contains_content].
  - unfold view. destruct (prospective u !! raw) as [kv|]; cbn; [|done]. by intros [= ->].
Qed.
End correct.

(** * Examples *)

Module OverlayExample.
Import KeyExample.

Definition key : TrieKey AccountId := ContractData alice [1; 255].
Definition raw : bytes := [9; 97; 108; 105; 99; 101; 44; 1; 255].
Definition t : gmap bytes bytes := {[ raw := [7] ]}.
Definition ops : list (Op (AccountId := AccountId) (Cause := unit)) :=
  [OpSet (ContractData alice [1]) [8]; OpCommit tt; OpRemove key; OpDeploy (mkCode [1] [2]); OpRollback; OpRemove key].

Definition trie_get (t : gmap bytes bytes) (k : bytes) : unit + option bytes := inr (t !! k).
Definition trie_contains_key (t : gmap bytes bytes) (k : bytes) : unit + bool := inr (bool_decide (is_Some (t !! k))).
Definition trie_apply (t : gmap bytes bytes) (ch : list (bytes * option bytes)) : unit + gmap bytes bytes :=
  inr (apply_changes t ch).

Lemma ops_encodable : Forall (encodable as_bytes) ops.
Proof. repeat constructor; cbn; by eexists. Qed.

Definition u : TrieUpdate := default (new_update t None) (for_each (exec as_bytes) ops (new_update t (Some (mkRecorder 0 0)))).
End OverlayExample.
Import KeyExample OverlayExample.

Lemma overlay_is_transactional_witness :
  ∃ u x ch, for_each (exec as_bytes) ops (new_update t (Some (mkRecorder 0 0))) = Some u ∧
    for_each (spec_op as_bytes) ops (mkTx t t ∅ ∅) = Some x ∧
    (∀ k raw, to_vec as_bytes k = Some raw → get as_bytes trie_get u k = Some (inr (current x !! raw))) ∧
    (∀ retrieve h, contract_get retrieve u h =
       match current_code x !! h with Some c => Some (mkCode (code c) h) | None => (λ raw, mkCode raw h) <$> retrieve h end) ∧
    apply_changes t ch = saved x ∧
    finalize trie_apply u =
      if bool_decide (prospective u = ∅) then
        Some match trie_apply t ch with
             | inl e => inl e
             | inr tc => inr (mkResult t tc (sorted_entries (committed u)).*2
                 (mkContractUpdates (contract_accesses (tracker_finalize (default default_tracker (contract_storage u))))
                    (sorted_entries (saved_code x)).*2))
             end
      else None.
Proof.
  apply (overlay_is_transactional as_bytes (λ t : gmap bytes bytes, t) trie_get trie_apply).
  - done.
  - exact ops_encodable.
  - by vm_compute.
Defined.

Lemma contains_key_misses_removals_witness :
  contains_key as_bytes trie_contains_key u key = Some (inr true) ∧ get as_bytes trie_get u key = Some (inr None).
Proof.
  destruct (contains_key_misses_removals as_bytes (λ t : gmap bytes bytes, t) trie_get trie_contains_key (λ _ _, eq_refl) (λ _ _, eq_refl)
    u key raw) as (Hc & Hg & Hv); [by vm_compute|]. rewrite Hc, Hg. rewrite Hv by (by vm_compute). split; [by vm_compute|done].
Defined.
