(* ===== verification/StateIter.v ===== *)
(** The iterator of the state overlay lists the keys of the current state that have a given prefix, in
    order ([StateUpdate.update_iter]). *)

From stdpp Require Import sorting.
From S2P Require Import Prelude Borsh TrieKey SortedMap StateUpdate StateUpdateCorrect.
Local Open Scope Z_scope.

(** * The range of a prefix *)

Lemma count_ff_spec l : l = replicate (count_ff l) 255 ++ drop (count_ff l) l ∧
  match drop (count_ff l) l with b :: _ => b ≠ 255 | [] => True end.
Proof.
  induction l as [|b l IH]; [done|]. cbn [count_ff]. destruct (Z.eqb_spec b 255) as [->|Hne]; [|done].
  cbn [replicate drop app]. destruct IH as [Heq Hb]. split; [by f_equal|done].
Qed.

(** A prefix ends in bytes 255, after a smaller byte or nothing. *)
Lemma prefix_shape prefix :
  (∃ n, prefix = replicate n 255 ∧ make_prefix_range_end_bound prefix = Some None) ∨
  (∃ q b n, prefix = q ++ [b] ++ replicate n 255 ∧ b ≠ 255 ∧
     make_prefix_range_end_bound prefix = (λ b', Some (q ++ [b'])) <$> checked_add 8 b 1).
Proof.
  destruct (count_ff_spec (reverse prefix)) as [Heq Hb]. set (n := count_ff (reverse prefix)) in *.
  apply (f_equal reverse) in Heq. rewrite reverse_involutive, reverse_app, reverse_replicate in Heq.
  assert (take (length prefix - n) prefix = reverse (drop n (reverse prefix))) as Htake.
  { rewrite Heq at 2. rewrite take_app_length'; [done|]. rewrite Heq at 1. rewrite length_app, length_replicate. lia. }
  unfold make_prefix_range_end_bound. fold n. rewrite Htake. destruct (drop n (reverse prefix)) as [|b rest]; [left|right].
  - exists n. split; [|done]. by rewrite Heq.
  - exists (reverse rest), b, n. rewrite reverse_cons in *. split_and!; [by rewrite <-app_assoc in Heq|done|].
    rewrite last_snoc. destruct (checked_add 8 b 1) as [b'|]; [|done]. cbn. do 2 f_equal.
    rewrite length_app, Nat.add_sub. apply (insert_snoc_length (reverse rest)).
Qed.

Lemma lex_app_lt q : ∀ l r, lex_lt (q ++ l) (q ++ r) ↔ lex_lt l r.
Proof. induction q as [|x q IH]; intros l r; [done|]. cbn [app]. rewrite lex_lt_cons, IH. naive_solver lia. Qed.

Lemma lex_ff n : ∀ key, Forall byte_ok key → lex_le (replicate n 255) key → replicate n 255 `prefix_of` key.
Proof.
  unfold byte_ok. induction n as [|n IH]; intros key Hk Hle; [apply prefix_nil|]. cbn [replicate] in *.
  destruct key as [|c key]; [done|]. apply Forall_cons in Hk as [Hc Hk]. apply lex_le_cons in Hle as [?|(<- & Hle)]; [lia|].
  apply prefix_cons, IH; done.
Qed.

(** Between [q b ff..ff] and [q (b+1)]. *)
Lemma lex_between q b n : ∀ key,
  Forall byte_ok key → lex_le (q ++ [b] ++ replicate n 255) key → lex_lt key (q ++ [b + 1]) →
  (q ++ [b] ++ replicate n 255) `prefix_of` key.
Proof.
  induction q as [|x q IH]; intros key Hk Hle Hlt; cbn [app] in *; (destruct key as [|c key]; [done|]);
    apply Forall_cons in Hk as [Hc Hk]; apply lex_lt_cons in Hlt; apply lex_le_cons in Hle.
  - destruct Hlt as [Hlt|(-> & Hlt)]; [|by destruct key]. destruct Hle as [?|(<- & Hle)]; [lia|].
    apply prefix_cons. by apply lex_ff.
  - destruct Hlt as [Hlt|(<- & Hlt)]; [naive_solver lia|]. destruct Hle as [?|(_ & Hle)]; [lia|]. apply prefix_cons. by apply IH.
Qed.

(** The range of a prefix holds exactly the keys with that prefix. *)
Lemma prefix_range prefix :
  Forall byte_ok prefix →
  ∃ hi, make_prefix_range_end_bound prefix = Some hi ∧
    ∀ key, Forall byte_ok key → in_range prefix hi key ↔ prefix `prefix_of` key.
Proof.
  intros Hp. destruct (prefix_shape prefix) as [(n & Heq & ->)|(q & b & n & Heq & Hb & ->)].
  - exists None. split; [done|]. intros key Hk. unfold in_range. split.
    + intros [Hle _]. rewrite Heq in *. by apply lex_ff.
    + intros [r ->]. split; [apply lex_prefix_le|done].
  - assert (0 <= b < 255) as Hb'.
    { rewrite Heq, !Forall_app, Forall_singleton in Hp. destruct Hp as (_ & Hp & _). unfold byte_ok in Hp. lia. }
    rewrite checked_add_ok by (unfold umax; simpl; lia). eexists. split; [done|]. intros key Hk. unfold in_range. rewrite Heq. split.
    + intros [Hle Hlt]. by apply lex_between.
    + intros [r ->]. split; [apply lex_prefix_le|]. rewrite <-!app_assoc. apply lex_app_lt. cbn [app]. apply lex_lt_cons. left. lia.
Qed.

(** * Merging *)

Section iterator.
Context {StorageError : Type}.
Abbreviation Item := (bytes * option bytes)%type.
Abbreviation next_loop := (next_loop (StorageError := StorageError)).
Abbreviation collect := (collect (StorageError := StorageError)).
Abbreviation iter_step := (iter_step (StorageError := StorageError)).

Definition find {V} (l : list (bytes * V)) (k : bytes) : option V := (list_to_map l : gmap bytes V) !! k.

Lemma find_cons {V} k0 (v : V) l k : find ((k0, v) :: l) k = if decide (k0 = k) then Some v else find l k.
Proof.
  unfold find. cbn [list_to_map foldr fst snd]. case_decide as Hk; [subst; apply lookup_insert_eq|by apply lookup_insert_ne].
Qed.

Lemma find_nil {V} k : find (V := V) [] k = None.
Proof. apply lookup_empty. Qed.

Lemma find_elem {V} (l : list (bytes * V)) k v : find l k = Some v → (k, v) ∈ l.
Proof. apply elem_of_list_to_map_2. Qed.

(** Every key of the list is above [k]. *)
Definition above {V} (k : bytes) (l : list (bytes * V)) : Prop := ∀ k' v, (k', v) ∈ l → lex_lt k k'.

Lemma above_nil {V} k : above (V := V) k [].
Proof. intros k' v Hin. by apply elem_of_nil in Hin. Qed.

Lemma increasing_nil {V} : increasing (V := V) [].
Proof. constructor. Qed.
#[local] Hint Resolve above_nil increasing_nil : core.

Lemma find_above {V} k (l : list (bytes * V)) : above k l → find l k = None.
Proof. intros Hab. destruct (find l k) as [v|] eqn:Hf; [|done]. apply find_elem, Hab in Hf. by apply lex_lt_irrefl in Hf. Qed.

Lemma above_trans {V} k k' (l : list (bytes * V)) : lex_lt k k' → above k' l → above k l.
Proof. intros Hlt Hab k2 v Hin. etrans; [exact Hlt|by eapply Hab]. Qed.

Lemma above_cons {V} k k' (v : V) l : lex_lt k k' → increasing ((k', v) :: l) → above k ((k', v) :: l).
Proof.
  intros Hlt [Hab _]%increasing_cons k2 v2 [[= -> ->]|Hin]%elem_of_cons; [done|]. etrans; [exact Hlt|by eapply Hab].
Qed.

Lemma increasing_above {V} k (v : V) l : increasing ((k, v) :: l) → above k l ∧ increasing l.
Proof. intros [Hab Hs]%increasing_cons. split; [exact Hab|done]. Qed.

(** What the two lists of changes say about a key: the later one wins. *)
Definition overlay (ls rs : list Item) (k : bytes) : option (option bytes) :=
  match find rs k with Some v => Some v | None => find ls k end.

Lemma merge_next_None ls rs : merge_next ls rs = None → ls = [] ∧ rs = [].
Proof. destruct ls as [|[k v] ls], rs as [|[k' v'] rs]; cbn [merge_next]; [done|done|done|]. by destruct (lex_compare _ _). Qed.

Lemma merge_next_spec ls rs k v ls' rs' :
  increasing ls → increasing rs → merge_next ls rs = Some ((k, v), (ls', rs')) →
  increasing ls' ∧ increasing rs' ∧ above k ls' ∧ above k rs' ∧
  (∀ x, overlay ls rs x = if decide (k = x) then Some v else overlay ls' rs' x) ∧
  (length ls' + length rs' < length ls + length rs)%nat.
Proof.
  intros Hl Hr. unfold overlay. destruct ls as [|[kl vl] ls], rs as [|[kr vr] rs]; cbn [merge_next fst]; [done|..].
  - intros [= <- <- <- <-]. apply increasing_above in Hr as [Hab Hr]. split_and!; try done; [|simpl; lia].
    intros x. rewrite find_cons. case_decide; done.
  - intros [= <- <- <- <-]. apply increasing_above in Hl as [Hab Hl]. split_and!; try done; [|simpl; lia].
    intros x. rewrite find_cons, !find_nil. case_decide; done.
  - pose proof (increasing_above _ _ _ Hl) as [Hal Hl']. pose proof (increasing_above _ _ _ Hr) as [Har Hr'].
    destruct (lex_compare kl kr) eqn:Hc; intros [= <- <- <- <-]; cbn [fst] in *.
    + apply lex_compare_eq in Hc. subst kr. split_and!; try done; [|simpl; lia]. intros x. rewrite !find_cons. by case_decide.
    + pose proof (above_cons kl kr vr rs Hc Hr) as Hab. split_and!; try done; [|simpl; lia].
      intros x. rewrite (find_cons kl). case_decide as Hx; [|done]. subst x. by rewrite (find_above kl _ Hab).
    + assert (lex_lt kr kl) as Hlt by (unfold lex_lt; by rewrite (lex_compare_opp kl kr), Hc).
      split_and!; try done; [by apply above_cons| |simpl; lia].
      intros x. rewrite (find_cons kr). by case_decide.
Qed.

(** The keys that are there: those of the overlay that are not removed, and those of the trie that the
    overlay does not mention. *)
Definition visible (T : list (bytes * bytes)) (ls rs : list Item) (k : bytes) : Prop :=
  match overlay ls rs k with Some v => is_Some v | None => is_Some (find T k) end.

Definition items_ok (T : list (bytes * bytes)) (ls rs : list Item) : Prop := increasing T ∧ increasing ls ∧ increasing rs.

Definition all_above (k : bytes) (T : list (bytes * bytes)) (ls rs : list Item) : Prop :=
  above k T ∧ above k ls ∧ above k rs.

Lemma visible_above k T ls rs x : all_above k T ls rs → visible T ls rs x → lex_lt k x.
Proof.
  intros (HT & Hl & Hr). unfold visible, overlay.
  destruct (find rs x) as [v|] eqn:Er; [intros _; by eapply Hr, find_elem|].
  destruct (find ls x) as [v|] eqn:El; [intros _; by eapply Hl, find_elem|].
  intros [v Ev]. by eapply HT, find_elem.
Qed.

(** The two kinds of turns of the loop. *)
Definition delivers T ls rs k T' ls' rs' : Prop :=
  items_ok T' ls' rs' ∧ all_above k T' ls' rs' ∧ visible T ls rs k ∧ (∀ x, x ≠ k → visible T ls rs x ↔ visible T' ls' rs' x).

Definition skips T ls rs T' ls' rs' : Prop :=
  items_ok T' ls' rs' ∧ (∀ x, visible T ls rs x ↔ visible T' ls' rs' x).

Definition weight (T : list (bytes * bytes)) (ls rs : list Item) : nat := length T + length ls + length rs.

(** An item of the overlay that comes first: it is delivered, or skipped when it is a removal. *)
Lemma merge_next_least ls rs k v ls' rs' k0 :
  increasing ls → increasing rs → merge_next ls rs = Some ((k, v), (ls', rs')) → lex_lt k0 k → above k0 ls ∧ above k0 rs.
Proof.
  intros Hl Hr. destruct ls as [|[kl vl] ls], rs as [|[kr vr] rs]; cbn [merge_next fst]; [done|..].
  - intros [= <- <- <- <-] Hlt. split; [done|by apply above_cons].
  - intros [= <- <- <- <-] Hlt. split; [by apply above_cons|done].
  - destruct (lex_compare kl kr) eqn:Hc; intros [= <- <- <- <-] Hlt.
    + apply lex_compare_eq in Hc. subst kr. split; by apply above_cons.
    + split; apply above_cons; try done. by etrans.
    + assert (lex_lt kr kl) by (unfold lex_lt; by rewrite (lex_compare_opp kl kr), Hc). split; apply above_cons; try done. by etrans.
Qed.

(** An item of the trie that comes before those of the overlay. *)
Lemma trie_first kt vt T ls rs :
  items_ok ((kt, vt) :: T) ls rs → above kt ls → above kt rs → delivers ((kt, vt) :: T) ls rs kt T ls rs.
Proof.
  intros (HT & Hl & Hr) Hal Har. apply increasing_above in HT as [Hat HT]. split_and!; try done.
  - unfold visible, overlay. rewrite (find_above kt rs), (find_above kt ls), find_cons, decide_True by done. by eexists.
  - intros x Hx. unfold visible. rewrite find_cons. by rewrite decide_False.
Qed.

Lemma overlay_first T T' ls rs k v ls' rs' :
  items_ok T ls rs → merge_next ls rs = Some ((k, v), (ls', rs')) →
  increasing T' → above k T' → (∀ x, x ≠ k → find T x = find T' x) →
  (is_Some v → delivers T ls rs k T' ls' rs') ∧ (v = None → skips T ls rs T' ls' rs').
Proof.
  intros (HT & Hl & Hr) Hm HT' Hab Hfind. destruct (merge_next_spec ls rs k v ls' rs' Hl Hr Hm) as (Hl' & Hr' & Hal & Har & Hov & _).
  assert (∀ x, x ≠ k → visible T ls rs x ↔ visible T' ls' rs' x) as Hother.
  { intros x Hx. unfold visible. rewrite Hov, decide_False by done. by rewrite Hfind. }
  split.
  - intros Hv. split_and!; try done. unfold visible. by rewrite Hov, decide_True.
  - intros ->. split; [done|]. intros x. destruct (decide (x = k)) as [->|Hx]; [|by apply Hother].
    unfold visible at 1. rewrite Hov, decide_True by done. split; [by intros []|]. intros Hvis.
    destruct (lex_lt_irrefl k). by apply (visible_above k T' ls' rs').
Qed.

Lemma iter_step_spec T ls rs :
  items_ok T ls rs →
  match iter_step (inr <$> T) ls rs with
  | inl (None, s) => s = None ∧ ∀ x, ¬ visible T ls rs x
  | inl (Some (inr k), s) => ∃ T' ls' rs', s = Some (inr <$> T', (ls', rs')) ∧ delivers T ls rs k T' ls' rs' ∧
      (weight T' ls' rs' < weight T ls rs)%nat
  | inl (Some (inl _), _) => False
  | inr (it, (ls', rs')) => ∃ T', it = inr <$> T' ∧ skips T ls rs T' ls' rs' ∧ (weight T' ls' rs' < weight T ls rs)%nat
  end.
Proof.
  intros Hok. assert (Hok' := Hok). destruct Hok' as (HT & Hl & Hr). unfold iter_step.
  destruct (merge_next ls rs) as [[[k v] [ls' rs']]|] eqn:Hm.
  - pose proof (merge_next_spec ls rs k v ls' rs' Hl Hr Hm) as (_ & _ & _ & _ & _ & Hw). destruct T as [|[kt vt] T]; cbn [fmap list_fmap].
    + destruct (overlay_first [] [] ls rs k v ls' rs' Hok Hm) as [Hd Hs]; [done|done|done|].
      case_bool_decide as Hv; [exists [], ls', rs'|exists []]; (split_and!; [done| |unfold weight; simpl; lia]); [by apply Hd|].
      apply Hs. by apply eq_None_not_Some.
    + pose proof (increasing_above _ _ _ HT) as [Hat HT']. destruct (lex_compare kt k) eqn:Hc.
      * apply lex_compare_eq in Hc. subst kt.
        destruct (overlay_first ((k, vt) :: T) T ls rs k v ls' rs' Hok Hm) as [Hd Hs]; [done|done| |].
        { intros x Hx. rewrite find_cons. by rewrite decide_False. }
        case_bool_decide as Hv; [exists T, ls', rs'|exists T]; (split_and!; [done| |unfold weight; simpl; lia]); [by apply Hd|].
        apply Hs. by apply eq_None_not_Some.
      * destruct (merge_next_least ls rs k v ls' rs' kt Hl Hr Hm Hc) as [Hal Har]. exists T, ls, rs.
        split_and!; [done|by apply trie_first|unfold weight; simpl; lia].
      * assert (lex_lt k kt) as Hlt by (unfold lex_lt; by rewrite (lex_compare_opp kt k), Hc).
        destruct (overlay_first ((kt, vt) :: T) ((kt, vt) :: T) ls rs k v ls' rs' Hok Hm) as [Hd Hs]; [done|by apply above_cons|done|].
        case_bool_decide as Hv; [exists ((kt, vt) :: T), ls', rs'|exists ((kt, vt) :: T)];
          (split_and!; [done| |unfold weight; simpl; lia]); [by apply Hd|]. apply Hs. by apply eq_None_not_Some.
  - apply merge_next_None in Hm as [-> ->]. destruct T as [|[kt vt] T]; cbn [fmap list_fmap].
    + split; [done|]. intros x. unfold visible, overlay. rewrite !find_nil. by intros [].
    + exists T, [], []. split_and!; [done|by apply trie_first|unfold weight; simpl; lia].
Qed.

(** * Iterating *)

Lemma next_loop_spec fuel : ∀ T ls rs,
  items_ok T ls rs → (weight T ls rs < fuel)%nat →
  (next_loop fuel (inr <$> T) ls rs = Some (None, None) ∧ ∀ x, ¬ visible T ls rs x) ∨
  ∃ k T' ls' rs', next_loop fuel (inr <$> T) ls rs = Some (Some (inr k), Some (inr <$> T', (ls', rs'))) ∧
    delivers T ls rs k T' ls' rs' ∧ (weight T' ls' rs' < weight T ls rs)%nat.
Proof.
  induction fuel as [|fuel IH]; intros T ls rs Hok Hw; [lia|]. cbn [StateUpdate.next_loop]. pose proof (iter_step_spec T ls rs Hok) as Hstep.
  destruct (iter_step (inr <$> T) ls rs) as [[[[e|k]|] s]|[it [ls' rs']]]; [done|..].
  - right. destruct Hstep as (T' & ls' & rs' & -> & Hd & Hw'). by exists k, T', ls', rs'.
  - left. destruct Hstep as [-> Hv]. done.
  - destruct Hstep as (T' & -> & [Hok' Hs] & Hw'). destruct (IH T' ls' rs' Hok') as [[Hr Hv]|(k & T2 & l2 & r2 & Hr & (Hok2 & Hab & Hvis & Hoth) & Hw2)]; [lia|left|right].
    + split; [done|]. intros x. rewrite Hs. apply Hv.
    + exists k, T2, l2, r2. split_and!; [done| |lia]. split_and!; [done..| |]; [by apply Hs|]. intros x Hx. rewrite Hs. by apply Hoth.
Qed.

Lemma collect_spec fuel : ∀ T ls rs acc,
  items_ok T ls rs → (weight T ls rs < fuel)%nat →
  ∃ l, collect fuel (Some (inr <$> T, (ls, rs))) acc = Some (inr (acc ++ l)) ∧ StronglySorted lex_lt l ∧
    ∀ k, k ∈ l ↔ visible T ls rs k.
Proof.
  induction fuel as [|fuel IH]; intros T ls rs acc Hok Hw; [lia|]. cbn [StateUpdate.collect iter_next].
  replace (items_left (inr <$> T) ls rs) with (weight T ls rs) by (unfold items_left, weight; by rewrite length_fmap).
  destruct (next_loop_spec (S (weight T ls rs)) T ls rs Hok) as [[Hr Hv]|(k & T' & ls' & rs' & Hr & (Hok' & Hab & Hvis & Hoth) & Hw')];
    [lia|..]; rewrite Hr; cbn [mbind option_bind].
  - exists []. split_and!; [by rewrite app_nil_r|constructor|]. intros x. split; [by intros ?%elem_of_nil|by intros ?%Hv].
  - destruct (IH T' ls' rs' (acc ++ [k]) Hok') as (l & -> & Hs & Hl); [lia|]. exists (k :: l). split_and!.
    + by rewrite <-app_assoc.
    + constructor; [done|]. apply Forall_forall. intros x Hx%Hl. by eapply visible_above.
    + intros x. rewrite elem_of_cons, Hl. destruct (decide (x = k)) as [->|Hx]; [naive_solver|]. rewrite Hoth by done. naive_solver.
Qed.
End iterator.

(** * The iterator of the overlay *)

Lemma find_increasing {V} (l : list (bytes * V)) k v : increasing l → find l k = Some v ↔ (k, v) ∈ l.
Proof.
  intros Hl. unfold find. symmetry. apply elem_of_list_to_map.
  induction l as [|[k0 v0] l IH]; [constructor|]. apply increasing_cons in Hl as [Hab Hl]. cbn [fmap list_fmap fst]. constructor; [|by apply IH].
  intros ([k1 v1] & -> & Hin)%list_elem_of_fmap. apply Hab in Hin. by apply lex_lt_irrefl in Hin.
Qed.

Lemma increasing_map {V W} (g : V → W) (l : list (bytes * V)) : increasing l → increasing ((λ p, (p.1, g p.2)) <$> l).
Proof. unfold increasing. by rewrite <-list_fmap_compose. Qed.

Lemma find_range {V W} (g : V → W) (m : gmap bytes V) lo hi k :
  find ((λ p, (p.1, g p.2)) <$> range m lo hi) k = if decide (in_range lo hi k) then g <$> m !! k else None.
Proof.
  apply option_eq. intros w. rewrite find_increasing by apply increasing_map, increasing_range. rewrite list_elem_of_fmap. split.
  - intros ([k1 v1] & [= -> ->] & [Hr Hm]%elem_of_range). rewrite decide_True by done. by rewrite Hm.
  - case_decide as Hr; [|done]. intros (v & Hm & ->)%fmap_Some. exists (k, v). split; [done|]. by apply elem_of_range.
Qed.

Lemma find_filter (m : gmap bytes bytes) (P : bytes → Prop) `{∀ k, Decision (P k)} k :
  find (filter (λ p, P p.1) (sorted_entries m)) k = if decide (P k) then m !! k else None.
Proof.
  apply option_eq. intros v. rewrite find_increasing by apply increasing_filter, increasing_sorted_entries.
  rewrite list_elem_of_filter, elem_of_sorted_entries. simpl. case_decide; naive_solver.
Qed.

Section overlay_iterator.
Context {AccountId : Type} (as_bytes : AccountId → bytes).
Context `{!Borsh (GlobalContractCodeIdentifier AccountId)} `{!Borsh (option Z)}.
Context {Trie StorageError Cause : Type}.
Variable content : Trie → gmap bytes bytes.
Abbreviation Update := (TrieUpdate (AccountId := AccountId) (Trie := Trie) (Cause := Cause)).

(** All keys consist of bytes. *)
Definition byte_keys (u : Update) : Prop :=
  ∀ k, is_Some (prospective u !! k) ∨ is_Some (committed u !! k) ∨ is_Some (content (trie u) !! k) → Forall byte_ok k.

(** What the iterator of the trie yields after [seek_prefix]. *)
Definition trie_items (t : Trie) (prefix : bytes) : list (StorageError + bytes * bytes) :=
  inr <$> filter (λ p, prefix `prefix_of` p.1) (sorted_entries (content t)).

Lemma iter_view t u x prefix :
  rep content t u x → byte_keys u → Forall byte_ok prefix →
  ∃ s l, update_iter u prefix (trie_items t prefix) = Some s ∧
    (∀ fuel, (iter_size s < fuel)%nat → collect fuel s [] = Some (inr l)) ∧ StronglySorted lex_lt l ∧
    ∀ k, k ∈ l ↔ prefix `prefix_of` k ∧ is_Some (current x !! k).
Proof.
  intros [Ht _ Hcur Hch _] Hbk Hp. destruct (prefix_range prefix Hp) as (hi & Hhi & Hrange). unfold update_iter. rewrite Hhi. cbn [mbind option_bind].
  set (h := λ c : RawStateChangesWithTrieKey (AccountId := AccountId) (Cause := Cause), default None (data <$> last (changes c))).
  rewrite (mapM_total _ (λ p, (p.1, h p.2))).
  2: { intros [k c] [_ Hc]%elem_of_range. apply Hch in Hc. cbn [fst snd]. unfold h. destruct (last (changes c)) as [d|] eqn:Hl; [done|].
       by apply last_None in Hl. }
  cbn [mbind option_bind]. set (T := filter (λ p, prefix `prefix_of` p.1) (sorted_entries (content t))). set (ls := _ <$> range (committed u) prefix hi).
  set (rs := _ <$> range (prospective u) prefix hi).
  assert (items_ok T ls rs) as Hok.
  { split_and!; [apply increasing_filter, increasing_sorted_entries|apply increasing_map, increasing_range..]. }
  assert (∀ k, visible T ls rs k ↔ prefix `prefix_of` k ∧ is_Some (current x !! k)) as Hvis.
  { intros k. unfold visible, overlay, ls, rs, T. rewrite !find_range, find_filter, Hcur. unfold view, view_committed, last_change. rewrite Ht.
    assert (is_Some (prospective u !! k) ∨ is_Some (committed u !! k) ∨ is_Some (content t !! k) → in_range prefix hi k ↔ prefix `prefix_of` k) as Hr.
    { rewrite <-Ht. intros Hk. by apply Hrange, Hbk. }
    pose proof (is_Some_None (A := bytes)) as Hno. destruct (prospective u !! k) as [kv|] eqn:Ek.
    { assert (Hr' := Hr ltac:(eauto)). clear -Hr' Hno. repeat case_decide; cbn; tauto. }
    destruct (committed u !! k) as [c|] eqn:Ec; cbn [mbind option_bind fmap option_fmap option_map].
    { assert (Hr' := Hr ltac:(eauto)). unfold h. destruct (last (changes c)) as [d|] eqn:El; [|apply last_None in El; by apply Hch in Ec].
      clear -Hr' Hno. repeat case_decide; cbn; tauto. }
    destruct (content t !! k) as [v|] eqn:Et; [assert (Hr' := Hr ltac:(eauto)); clear -Hr' Hno|clear -Hno];
      repeat case_decide; cbn; tauto. }
  eexists. destruct (collect_spec (StorageError := StorageError) (S (weight T ls rs)) T ls rs [] Hok) as (l & _ & Hs & Hl); [lia|].
  exists l. split_and!; [done| |done|].
  - intros fuel Hf. cbn [iter_size] in Hf. unfold items_left, trie_items in Hf. rewrite length_fmap in Hf. destruct (collect_spec (StorageError := StorageError) fuel T ls rs [] Hok Hf) as (l' & Hc & Hs' & Hl').
    rewrite (increasing_unique l l'); [done|done|done|]. intros k. by rewrite Hl, Hl'.
  - intros k. by rewrite Hl.
Qed.

(** C34: Iterating over the overlay lists the current state.  After any sequence of writes, removals, commits and
    rollbacks, the iterator for a prefix terminates without error and yields, in increasing
    order and once each, exactly the keys with that prefix that have a value in the current
    version: keys of the trie that were removed are skipped, whether the removal is committed or not. *)
Theorem iterator_lists_current_keys t r ops prefix :
  Forall (encodable as_bytes) ops → recorder_room (length ops) r → Forall byte_ok prefix →
  ∃ u x, for_each (exec as_bytes) ops (new_update t r : Update) = Some u ∧
    for_each (spec_op as_bytes) ops (mkTx (content t) (content t) ∅ ∅) = Some x ∧
    (byte_keys u →
     ∃ s l n, update_iter u prefix (trie_items t prefix) = Some s ∧
       (∀ fuel, (n < fuel)%nat → collect fuel s [] = Some (inr l)) ∧ StronglySorted lex_lt l ∧
       ∀ k, k ∈ l ↔ prefix `prefix_of` k ∧ is_Some (current x !! k)).
Proof.
  intros HF Hroom Hp. destruct (run_rep as_bytes content t ops (new_update t r) _ (new_rep content t r) HF Hroom) as (u & x & Hu & Hx & Hrep).
  exists u, x. split_and!; [done|done|]. intros Hbk. destruct (iter_view t u x prefix Hrep Hbk Hp) as (s & l & H). by exists s, l, (iter_size s).
Qed.
End overlay_iterator.

Import KeyExample OverlayExample.

Lemma iterator_lists_current_keys_witness :
  ∃ u x, for_each (exec as_bytes) ops (new_update t None) = Some u ∧ for_each (spec_op as_bytes) ops (mkTx t t ∅ ∅) = Some x ∧
    (byte_keys (λ t, t) u →
     ∃ s l n, update_iter u [9; 97] (trie_items (StorageError := unit) (λ t, t) t [9; 97]) = Some s ∧
       (∀ fuel, (n < fuel)%nat → collect fuel s [] = Some (inr l)) ∧ StronglySorted lex_lt l ∧
       ∀ k, k ∈ l ↔ [9; 97] `prefix_of` k ∧ is_Some (current x !! k)).
Proof.
  apply (iterator_lists_current_keys as_bytes (λ t : gmap bytes bytes, t) t None ops [9; 97]).
  - exact ops_encodable.
  - done.
  - by repeat constructor.
Defined.

(** The removed key is skipped. *)
Example iterate_after_removal :
  (s ← update_iter u [9; 97] (trie_items (StorageError := unit) (λ t, t) t [9; 97]); collect 10 s []) =
    Some (inr [[9; 97; 108; 105; 99; 101; 44; 1]]).
Proof. by vm_compute. Qed.
