(* ===== verification/Errors.v ===== *)
(** The errors of the runtime (core/primitives/src/errors.rs) as far as the modelled code returns them, and
    the conversions between them.  The texts of the messages are left out. *)

From S2P Require Import Prelude.

(** [StorageError] is a parameter of the code that reads the state. *)
Inductive EpochError : Type := ShardingError (shard : Z).

Inductive IntegerOverflowError : Type := IntegerOverflow.

Inductive RuntimeError (StorageError : Type) : Type :=
| RtStorageError (e : StorageError)
| UnexpectedIntegerOverflow
| ValidatorError (e : EpochError).
Arguments RtStorageError {StorageError}.
Arguments UnexpectedIntegerOverflow {StorageError}.
Arguments ValidatorError {StorageError}.

(** [From] *)
Definition from_overflow {StorageError} (_ : IntegerOverflowError) : RuntimeError StorageError := UnexpectedIntegerOverflow.
Definition from_epoch {StorageError} (e : EpochError) : RuntimeError StorageError := ValidatorError e.
