(* ===== verification/TrieQueue.v ===== *)
(** Queues that are stored in the state (core/store/src/trie/receipts_column_helper.rs): the trait
    [TrieQueue] with its operations.  The state below is used through the interface [StateStore],
    which the overlay of [StateUpdate] implements; every operation is a method on the queue and
    the state, so it runs in the monad [M] over the pair of both. *)

From S2P Require Import Prelude Errors Borsh.
Local Open Scope Z_scope.

(** * The state below *)

(** Reading and writing the state by keys.  [st_get_trie] reads the trie below the changes.  The
    outer option is the panic of a key that has no bytes. *)
Class StateStore (Key StorageError U : Type) : Type := {
  st_get : U → Key → option (StorageError + option (list Z));
  st_get_trie : U → Key → option (StorageError + option (list Z));
  st_set : Key → list Z → U → option U;
  st_remove : Key → U → option U;
  st_inconsistent : StorageError
}.

(** What writes do not change: the values of the trie below the changes, and whether the update is in use, that is not yet finalised. *)
Record Base (Key : Type) : Type := mkBase { base_view : Key → option (list Z); base_live : bool }.
Arguments mkBase {_}.
Arguments base_view {_}.
Arguments base_live {_}.

(** What the state promises, on keys that are well formed: reads succeed and see the last write. *)
Class StateStoreOk (Key StorageError U : Type) `{StateStore Key StorageError U} `{EqDecision Key} (key_ok : Key → Prop)
    (st_view : U → Key → option (list Z)) (st_trie_view : U → Base Key) : Prop := {
  st_get_ok u k : key_ok k → st_get u k = Some (inr (st_view u k));
  st_get_trie_ok u k : key_ok k → st_get_trie u k = Some (inr (base_view (st_trie_view u) k));
  st_set_ok u k v : key_ok k → ∃ u', st_set k v u = Some u' ∧ st_trie_view u' = st_trie_view u ∧
    ∀ k', key_ok k' → st_view u' k' = if decide (k' = k) then Some v else st_view u k';
  st_remove_ok u k : key_ok k → ∃ u', st_remove k u = Some u' ∧ st_trie_view u' = st_trie_view u ∧
    ∀ k', key_ok k' → st_view u' k' = if decide (k' = k) then None else st_view u k'
}.

(** * Queues *)

Record TrieQueueIndices : Type := mkIndices { first_index : Z; next_available_index : Z }.

Definition default_indices : TrieQueueIndices := mkIndices 0 0.

(** [TrieQueueIndices::len] *)
Definition indices_len (i : TrieQueueIndices) : option Z := checked_sub (next_available_index i) (first_index i).

Section queue.
Context {Key StorageError U : Type} `{!StateStore Key StorageError U}.

(** The methods that an implementation of the trait provides. *)
Class TrieQueue (Q : Type) : Type := {
  indices : Q → TrieQueueIndices;
  set_indices : Q → TrieQueueIndices → Q;
  write_indices : Q → U → option U;
  trie_key : Q → Z → Key
}.

Context {Q Item : Type} `{!TrieQueue Q} `{!Borsh Item}.

Abbreviation QM := (M (Q * U) (RuntimeError StorageError)).

(** [get] on the state: a value that cannot be read is an inconsistent state. *)
Definition decode_item (r : StorageError + option (list Z)) : RuntimeError StorageError + option Item :=
  match r with
  | inl e => inl (RtStorageError e)
  | inr None => inr None
  | inr (Some data) =>
      match try_from_slice data with
      | Some item => inr (Some item)
      | None => inl (RtStorageError st_inconsistent)
      end
  end.

Definition get_item (key : Key) : QM (option Item) := λ s,
  match st_get s.2 key with
  | None => Panic
  | Some r => match decode_item r with inl e => Err e s | inr o => Ok o s end
  end.

Definition get_queue : QM Q := λ s, Ok s.1 s.
Definition put_queue (q : Q) : QM () := λ s, Ok () (q, s.2).
Definition update_state (f : U → option U) : QM () := λ s,
  match f s.2 with Some u => Ok () (s.1, u) | None => Panic end.

(** Every change of the indices is written back. *)
Definition store_indices (i : TrieQueueIndices) : QM () :=
  q ← get_queue;
  let q := set_indices q i in
  _ ← put_queue q;
  update_state (write_indices q).

Definition push_back (item : Item) : QM () :=
  q ← get_queue;
  let index := next_available_index (indices q) in
  _ ← update_state (st_set (trie_key q index) (borsh_encode item));
  match checked_add 64 index 1 with
  | None => throw UnexpectedIntegerOverflow
  | Some next => store_indices (mkIndices (first_index (indices q)) next)
  end.

(** The item that must be in the state. *)
Definition take_item (key : Key) : QM Item :=
  o ← get_item key;
  match o with Some item => mret item | None => throw (RtStorageError st_inconsistent) end.

Definition pop_front : QM (option Item) :=
  q ← get_queue;
  let i := indices q in
  if next_available_index i <=? first_index i then mret None
  else
    let key := trie_key q (first_index i) in
    item ← take_item key;
    _ ← update_state (st_remove key);
    first ← expect (checked_add 64 (first_index i) 1);
    _ ← store_indices (mkIndices first (next_available_index i));
    mret (Some item).

Definition pop_back : QM (option Item) :=
  q ← get_queue;
  let i := indices q in
  if next_available_index i <=? first_index i then mret None
  else
    last_item_index ← expect (checked_sub (next_available_index i) 1);
    let key := trie_key q last_item_index in
    item ← take_item key;
    _ ← update_state (st_remove key);
    _ ← store_indices (mkIndices (first_index i) last_item_index);
    mret (Some item).

(** [modify_fn] may panic. *)
Definition modify_first (modify_fn : Item → option (option Item)) : QM () :=
  q ← get_queue;
  let i := indices q in
  if next_available_index i <=? first_index i then panic
  else
    let key := trie_key q (first_index i) in
    first_item ← take_item key;
    modified_item ← expect (modify_fn first_item);
    match modified_item with
    | Some item =>
        _ ← update_state (st_set key (borsh_encode item));
        update_state (write_indices q)
    | None => _ ← pop_front; mret ()
    end.

(** [for index in first_index..(first_index + to_remove)] *)
Fixpoint remove_items (q : Q) (index : Z) (n : nat) : QM () :=
  match n with
  | O => mret ()
  | S n =>
      _ ← update_state (st_remove (trie_key q index));
      remove_items q (index + 1) n
  end.

Definition pop_n (n : Z) : QM Z :=
  q ← get_queue;
  let i := indices q in
  let to_remove := Z.min n (default 0 (checked_sub (next_available_index i) (first_index i))) in
  last ← expect (checked_add 64 (first_index i) to_remove);
  _ ← remove_items q (first_index i) (Z.to_nat to_remove);
  _ ← (if 0 <? to_remove then store_indices (mkIndices last (next_available_index i)) else mret ());
  mret to_remove.

Definition queue_len (q : Q) : option Z := indices_len (indices q).

(** [iter] on the overlay or, with [st_get_trie], on the trie below it: what the iterator yields.  The
    outer option is a panic. *)
Definition iter_item (read : Key → option (StorageError + option (list Z))) (q : Q) (index : Z)
    : option (RuntimeError StorageError + Item) :=
  r ← read (trie_key q index);
  Some (match decode_item r with
        | inl e => inl e
        | inr None => inl (RtStorageError st_inconsistent)
        | inr (Some item) => inr item
        end).

Definition queue_iter (read : Key → option (StorageError + option (list Z))) (q : Q)
    : list (option (RuntimeError StorageError + Item)) :=
  let i := indices q in
  (λ k : nat, iter_item read q (first_index i + Z.of_nat k)) <$> seq 0 (Z.to_nat (next_available_index i - first_index i)).
End queue.
Arguments TrieQueue : clear implicits.

(** * The queue as a list *)

Section laws.
Context {Key StorageError U : Type} `{!StateStore Key StorageError U} `{!EqDecision Key}.
Context (key_ok : Key → Prop) (st_view : U → Key → option (list Z)) (st_trie_view : U → Base Key).
Context `{!StateStoreOk Key StorageError U key_ok st_view st_trie_view}.

(** What an implementation of the trait must satisfy: the indices are kept under a key of their own, and
    the keys of the items are different. *)
Class TrieQueueOk (Q : Type) `{!TrieQueue Key U Q} (queue_wf : Q → Prop) (index_key : Q → Key) (index_value : Q → list Z)
    : Prop := {
  indices_set q i : indices (set_indices q i) = i;
  set_set q i j : set_indices (set_indices q i) j = set_indices q j;
  trie_key_set q i n : trie_key (set_indices q i) n = trie_key q n;
  index_key_set q i : index_key (set_indices q i) = index_key q;
  queue_wf_set q i : queue_wf q → queue_wf (set_indices q i);
  write_indices_eq q u : write_indices q u = st_set (index_key q) (index_value q) u;
  index_key_ok q : queue_wf q → key_ok (index_key q);
  trie_key_ok q n : queue_wf q → in_u 64 n → key_ok (trie_key q n);
  trie_key_inj q m n : trie_key q m = trie_key q n → m = n;
  trie_key_not_index q n : trie_key q n ≠ index_key q
}.

Context {Q Item : Type} `{!TrieQueue Key U Q} `{!Borsh Item} (item_ok : Item → Prop) `{!BorshOk Item item_ok}.
Context (queue_wf : Q → Prop) (index_key : Q → Key) (index_value : Q → list Z).
Context `{!TrieQueueOk Q queue_wf index_key index_value}.

Abbreviation QM := (M (Q * U) (RuntimeError StorageError)).

(** [items] is the content of the queue. *)
Record queue_rep (q : Q) (u : U) (items : list Item) : Prop := {
  qr_wf : queue_wf q;
  qr_first : 0 <= first_index (indices q);
  qr_next : next_available_index (indices q) = first_index (indices q) + Z.of_nat (length items);
  qr_bound : next_available_index (indices q) <= umax 64;
  qr_items : Forall item_ok items;
  qr_view : ∀ i item, items !! i = Some item → st_view u (trie_key q (first_index (indices q) + Z.of_nat i)) = Some (borsh_encode item)
}.

(** The keys of other data. *)
Definition foreign (q : Q) (k : Key) : Prop := key_ok k ∧ k ≠ index_key q ∧ ∀ n, k ≠ trie_key q n.

(** The changes of an operation on [q]: nothing outside its own keys, and never the trie below. *)
Record frame (q : Q) (u u' : U) : Prop := {
  fr_view : ∀ k, foreign q k → st_view u' k = st_view u k;
  fr_trie : st_trie_view u' = st_trie_view u
}.

Lemma frame_refl q u : frame q u u.
Proof. by constructor. Qed.

Lemma foreign_set q i k : foreign (set_indices q i) k ↔ foreign q k.
Proof. unfold foreign. rewrite index_key_set. setoid_rewrite trie_key_set. done. Qed.

Lemma frame_trans q u1 u2 u3 : frame q u1 u2 → frame q u2 u3 → frame q u1 u3.
Proof. intros [V1 T1] [V2 T2]. constructor; [|congruence]. intros k Hk. by rewrite V2, V1. Qed.

Lemma frame_set q i u u' : frame (set_indices q i) u u' ↔ frame q u u'.
Proof. split; intros [V T]; constructor; try done; intros k Hk; apply V; by apply (foreign_set q i). Qed.

(** One write under a key of the queue. *)
Lemma set_frame q u k v :
  key_ok k → (k = index_key q ∨ ∃ n, k = trie_key q n) →
  ∃ u', st_set k v u = Some u' ∧ frame q u u' ∧ ∀ k', key_ok k' → st_view u' k' = if decide (k' = k) then Some v else st_view u k'.
Proof.
  intros Hk Hq. destruct (st_set_ok u k v Hk) as (u' & Hu & Ht & Hv). exists u'. split_and!; [done| |done].
  constructor; [|done]. intros k' (Hok & Hi & Hn). rewrite Hv by done. rewrite decide_False; [done|]. naive_solver.
Qed.

Lemma remove_frame q u n :
  key_ok (trie_key q n) →
  ∃ u', st_remove (trie_key q n) u = Some u' ∧ frame q u u' ∧
    ∀ k', key_ok k' → st_view u' k' = if decide (k' = trie_key q n) then None else st_view u k'.
Proof.
  intros Hk. destruct (st_remove_ok u _ Hk) as (u' & Hu & Ht & Hv). exists u'. split_and!; [done| |done].
  constructor; [|done]. intros k' (Hok & Hi & Hn). rewrite Hv by done. by rewrite decide_False.
Qed.

Lemma item_key_ok q u items (i : nat) : queue_rep q u items → (i < length items)%nat → key_ok (trie_key q (first_index (indices q) + Z.of_nat i)).
Proof. intros [Hwf Hf Hn Hb _ _] Hi. apply trie_key_ok; [done|]. unfold in_u. lia. Qed.

Lemma on_state_ok q u f u' : f u = Some u' → (update_state f : QM ()) (q, u) = Ok () (q, u').
Proof. intros Hf. unfold update_state. cbn [fst snd]. by rewrite Hf. Qed.

Lemma store_indices_ok q u i :
  queue_wf q → ∃ u', (store_indices i : QM ()) (q, u) = Ok () (set_indices q i, u') ∧ frame q u u' ∧
    st_view u' (index_key q) = Some (index_value (set_indices q i)) ∧
    ∀ n, key_ok (trie_key q n) → st_view u' (trie_key q n) = st_view u (trie_key q n).
Proof.
  intros Hwf. destruct (set_frame q u (index_key q) (index_value (set_indices q i))) as (u' & Hu & Hfr & Hv); [by apply index_key_ok|by left|].
  exists u'. split_and!; [|done| |].
  - unfold store_indices. rewrite (bind_Ok _ _ _ q (q, u)) by done. cbv zeta. rewrite (bind_Ok _ _ _ () (set_indices q i, u)) by done.
    apply on_state_ok. by rewrite write_indices_eq, index_key_set.
  - rewrite Hv by by apply index_key_ok. by rewrite decide_True.
  - intros n Hn. rewrite Hv by done. rewrite decide_False; [done|apply trie_key_not_index].
Qed.

Lemma take_item_ok q u k item :
  key_ok k → item_ok item → st_view u k = Some (borsh_encode item) → (take_item k : QM Item) (q, u) = Ok item (q, u).
Proof.
  intros Hk Hi Hv. unfold take_item, get_item. unfold mbind at 1, M_bind. cbn [fst snd].
  rewrite st_get_ok by done. rewrite Hv. cbn [decode_item]. by rewrite (try_from_slice_encode item_ok).
Qed.

(** The content after a change of the indices that keeps the items from [d] on. *)
Lemma shrink_rep q u u' items d first next :
  queue_rep q u items → 0 <= d → first = first_index (indices q) + d →
  next <= next_available_index (indices q) → first <= next →
  (∀ n, first <= n < next → st_view u' (trie_key q n) = st_view u (trie_key q n)) →
  queue_rep (set_indices q (mkIndices first next)) u' (take (Z.to_nat (next - first)) (drop (Z.to_nat d) items)).
Proof.
  intros [Hwf Hf Hn Hb Hi Hv] Hd -> Hnext Hle Hview.
  assert (length (take (Z.to_nat (next - (first_index (indices q) + d))) (drop (Z.to_nat d) items)) =
    Z.to_nat (next - (first_index (indices q) + d))) as Hlen by (rewrite length_take, length_drop; lia).
  constructor; rewrite ?indices_set; cbn [first_index next_available_index]; try lia.
  - by apply queue_wf_set.
  - by apply Forall_take, Forall_drop.
  - intros i item Hitem. rewrite trie_key_set. pose proof (lookup_lt_Some _ _ _ Hitem) as Hlt. rewrite Hlen in Hlt.
    rewrite Hview by lia. rewrite lookup_take_lt, lookup_drop in Hitem by lia. apply Hv in Hitem. rewrite <-Hitem. f_equal. f_equal. lia.
Qed.

Lemma push_back_ok q u items item :
  queue_rep q u items → item_ok item → next_available_index (indices q) < umax 64 →
  ∃ u', let q' := set_indices q (mkIndices (first_index (indices q)) (next_available_index (indices q) + 1)) in
    (push_back item : QM ()) (q, u) = Ok () (q', u') ∧ queue_rep q' u' (items ++ [item]) ∧ frame q u u' ∧
    st_view u' (index_key q) = Some (index_value q').
Proof.
  intros Hrep Hitem Hroom. assert (Hrep' := Hrep). destruct Hrep' as [Hwf Hf Hn Hb Hi Hv]. set (next := next_available_index (indices q)) in *.
  assert (key_ok (trie_key q next)) as Hk by (apply trie_key_ok; [done|unfold in_u; lia]).
  destruct (set_frame q u (trie_key q next) (borsh_encode item) Hk) as (u1 & Hu1 & Hf1 & Hv1); [eauto|].
  destruct (store_indices_ok q u1 (mkIndices (first_index (indices q)) (next + 1)) Hwf) as (u2 & Hu2 & Hf2 & Hiv & Hv2).
  exists u2. cbv zeta. split_and!; [| |by eapply frame_trans|done].
  - unfold push_back. rewrite (bind_Ok _ _ _ q (q, u)) by done. cbv zeta. fold next.
    rewrite (bind_Ok _ _ _ () (q, u1)) by (by apply on_state_ok). rewrite checked_add_ok by lia. exact Hu2.
  - constructor; rewrite ?indices_set; cbn [first_index next_available_index].
    + by apply queue_wf_set.
    + done.
    + rewrite length_app. simpl. lia.
    + lia.
    + apply Forall_app. by split; [|apply Forall_singleton].
    + intros i x Hx. rewrite trie_key_set. pose proof (lookup_lt_Some _ _ _ Hx) as Hlt. rewrite length_app in Hlt. simpl in Hlt.
      assert (key_ok (trie_key q (first_index (indices q) + Z.of_nat i))) as Hki by (apply trie_key_ok; [done|unfold in_u; lia]).
      rewrite Hv2, Hv1 by done. destruct (decide (i = length items)) as [->|Hne].
      * rewrite lookup_app_r, Nat.sub_diag in Hx by lia. injection Hx as ->. rewrite decide_True; [done|]. f_equal. lia.
      * rewrite lookup_app_l in Hx by lia. rewrite decide_False; [by apply Hv|]. intros E%trie_key_inj. lia.
Qed.

(** On a full range of indices the push fails, and the indices are not changed. *)
Lemma push_back_overflow q u items item :
  queue_rep q u items → next_available_index (indices q) = umax 64 →
  ∃ u', (push_back item : QM ()) (q, u) = Err UnexpectedIntegerOverflow (q, u').
Proof.
  intros [Hwf Hf Hn Hb Hi Hv] Hfull. assert (key_ok (trie_key q (umax 64))) as Hk by (apply trie_key_ok; [done|by vm_compute]).
  destruct (set_frame q u (trie_key q (umax 64)) (borsh_encode item) Hk) as (u1 & Hu1 & Hf1 & Hv1); [eauto|].
  exists u1. unfold push_back. rewrite (bind_Ok _ _ _ q (q, u)) by done. cbv zeta. rewrite Hfull.
  rewrite (bind_Ok _ _ _ () (q, u1)) by (by apply on_state_ok). by rewrite (proj2 (eq_None_not_Some _)) by (intros [? ?%checked_add_Some]; lia).
Qed.

Lemma empty_check q u : queue_rep q u [] → (next_available_index (indices q) <=? first_index (indices q)) = true.
Proof. intros [_ _ Hn _ _ _]. simpl in Hn. lia. Qed.

Lemma nonempty_check q u items : queue_rep q u items → items ≠ [] → (next_available_index (indices q) <=? first_index (indices q)) = false.
Proof. intros [_ _ Hn _ _ _] Hne. destruct items; [done|]. simpl in Hn. lia. Qed.

Lemma pop_front_empty q u : queue_rep q u [] → (pop_front : QM (option Item)) (q, u) = Ok None (q, u).
Proof. intros Hrep. unfold pop_front. rewrite (bind_Ok _ _ _ q (q, u)) by done. cbv zeta. by rewrite (empty_check q u). Qed.

Lemma pop_front_ok q u item items :
  queue_rep q u (item :: items) →
  ∃ u', let q' := set_indices q (mkIndices (first_index (indices q) + 1) (next_available_index (indices q))) in
    (pop_front : QM (option Item)) (q, u) = Ok (Some item) (q', u') ∧ queue_rep q' u' items ∧ frame q u u' ∧
    st_view u' (index_key q) = Some (index_value q').
Proof.
  intros Hrep. assert (Hrep' := Hrep). destruct Hrep' as [Hwf Hf Hn Hb Hi Hv]. cbn [length] in Hn.
  pose proof (item_key_ok q u _ 0 Hrep ltac:(simpl; lia)) as Hk. rewrite Z.add_0_r in Hk.
  destruct (remove_frame q u _ Hk) as (u1 & Hu1 & Hf1 & Hv1). apply Forall_cons in Hi as [Hitem Hi].
  destruct (store_indices_ok q u1 (mkIndices (first_index (indices q) + 1) (next_available_index (indices q))) Hwf) as (u2 & Hu2 & Hf2 & Hiv & Hv2).
  exists u2. cbv zeta. split_and!; [| |by eapply frame_trans|done].
  - unfold pop_front. rewrite (bind_Ok _ _ _ q (q, u)) by done. cbv zeta. rewrite (nonempty_check q u _ Hrep) by done.
    rewrite (bind_Ok _ _ _ item (q, u)). 2: { apply take_item_ok; [done|done|]. by rewrite <-(Hv 0%nat), Z.add_0_r. }
    rewrite (bind_Ok _ _ _ () (q, u1)) by (by apply on_state_ok). rewrite checked_add_ok by lia.
    rewrite (bind_Ok _ _ _ (first_index (indices q) + 1) (q, u1)) by done. by rewrite (bind_Ok _ _ _ () _ _ Hu2) || (erewrite bind_Ok by exact Hu2).
  - pose proof (shrink_rep q u u2 (item :: items) 1 (first_index (indices q) + 1) (next_available_index (indices q)) Hrep) as Hs.
    change (drop (Z.to_nat 1) (item :: items)) with items in Hs. rewrite take_ge in Hs by lia. apply Hs; try lia. intros n Hnr.
    assert (key_ok (trie_key q n)) by (apply trie_key_ok; [done|unfold in_u; lia]).
    rewrite Hv2, Hv1 by done. rewrite decide_False; [done|]. intros E%trie_key_inj. lia.
Qed.

Lemma pop_back_empty q u : queue_rep q u [] → (pop_back : QM (option Item)) (q, u) = Ok None (q, u).
Proof. intros Hrep. unfold pop_back. rewrite (bind_Ok _ _ _ q (q, u)) by done. cbv zeta. by rewrite (empty_check q u). Qed.

Lemma pop_back_ok q u items item :
  queue_rep q u (items ++ [item]) →
  ∃ u', let q' := set_indices q (mkIndices (first_index (indices q)) (next_available_index (indices q) - 1)) in
    (pop_back : QM (option Item)) (q, u) = Ok (Some item) (q', u') ∧ queue_rep q' u' items ∧ frame q u u' ∧
    st_view u' (index_key q) = Some (index_value q').
Proof.
  intros Hrep. assert (Hrep' := Hrep). destruct Hrep' as [Hwf Hf Hn Hb Hi Hv]. rewrite length_app in Hn. simpl in Hn.
  assert (next_available_index (indices q) - 1 = first_index (indices q) + Z.of_nat (length items)) as El by lia.
  pose proof (item_key_ok q u _ (length items) Hrep ltac:(rewrite length_app; simpl; lia)) as Hk. rewrite <-El in Hk.
  destruct (remove_frame q u _ Hk) as (u1 & Hu1 & Hf1 & Hv1). apply Forall_app in Hi as [Hi Hitem]. rewrite Forall_singleton in Hitem.
  destruct (store_indices_ok q u1 (mkIndices (first_index (indices q)) (next_available_index (indices q) - 1)) Hwf) as (u2 & Hu2 & Hf2 & Hiv & Hv2).
  exists u2. cbv zeta. split_and!; [| |by eapply frame_trans|done].
  - unfold pop_back. rewrite (bind_Ok _ _ _ q (q, u)) by done. cbv zeta. rewrite (nonempty_check q u _ Hrep) by by destruct items.
    rewrite checked_sub_ok by lia. rewrite (bind_Ok _ _ _ (next_available_index (indices q) - 1) (q, u)) by done.
    rewrite (bind_Ok _ _ _ item (q, u)). 2: { apply take_item_ok; [done|done|]. rewrite El. apply Hv. by apply list_lookup_middle. }
    rewrite (bind_Ok _ _ _ () (q, u1)) by (by apply on_state_ok). by rewrite (bind_Ok _ _ _ _ _ Hu2).
  - pose proof (shrink_rep q u u2 (items ++ [item]) 0 (first_index (indices q)) (next_available_index (indices q) - 1) Hrep) as Hs.
    rewrite drop_0, take_app_le, take_ge in Hs by lia. apply Hs; try lia. intros n Hnr.
    assert (key_ok (trie_key q n)) by (apply trie_key_ok; [done|unfold in_u; lia]).
    rewrite Hv2, Hv1 by done. rewrite decide_False; [done|]. intros E%trie_key_inj. lia.
Qed.

(** The first item is replaced, or removed when the function returns [None]. *)
Lemma modify_first_ok q u item items f r :
  queue_rep q u (item :: items) → f item = Some r → (∀ x, r = Some x → item_ok x) →
  ∃ q' u', (modify_first f : QM ()) (q, u) = Ok () (q', u') ∧ (q' = q ∨ ∃ i, q' = set_indices q i) ∧
    next_available_index (indices q') = next_available_index (indices q) ∧
    queue_rep q' u' (match r with Some x => x :: items | None => items end) ∧ frame q u u' ∧
    st_view u' (index_key q) = Some (index_value q').
Proof.
  intros Hrep Hfr Hok. assert (Hrep' := Hrep). destruct Hrep' as [Hwf Hf Hn Hb Hi Hv]. cbn [length] in Hn.
  pose proof (item_key_ok q u _ 0 Hrep ltac:(simpl; lia)) as Hk. rewrite Z.add_0_r in Hk. apply Forall_cons in Hi as [Hitem Hi].
  assert (Heq : (modify_first f : QM ()) (q, u) = (match r with
    | Some item => _ ← update_state (st_set (trie_key q (first_index (indices q))) (borsh_encode item)); update_state (write_indices q)
    | None => _ ← (pop_front : QM (option Item)); mret () end : QM ()) (q, u)).
  { unfold modify_first. rewrite (bind_Ok _ _ _ q (q, u)) by done. cbv zeta. rewrite (nonempty_check q u _ Hrep) by done.
    rewrite (bind_Ok _ _ _ item (q, u)). 2: { apply take_item_ok; [done|done|]. by rewrite <-(Hv 0%nat), Z.add_0_r. }
    rewrite Hfr. by rewrite (bind_Ok _ _ _ r (q, u)). }
  destruct r as [x|].
  - destruct (set_frame q u _ (borsh_encode x) Hk) as (u1 & Hu1 & Hf1 & Hv1); [eauto|].
    destruct (set_frame q u1 (index_key q) (index_value q)) as (u2 & Hu2 & Hf2 & Hv2); [by apply index_key_ok|by left|].
    exists q, u2. split_and!; [|by left|done| |by eapply frame_trans|].
    + rewrite Heq. rewrite (bind_Ok _ _ _ () (q, u1)) by (by apply on_state_ok). apply on_state_ok. by rewrite write_indices_eq.
    + constructor; [done..| |]; [constructor; auto|]. intros i y Hy.
      assert (key_ok (trie_key q (first_index (indices q) + Z.of_nat i))) by (apply (item_key_ok q u (item :: items)); [done|apply lookup_lt_Some in Hy; done]).
      rewrite Hv2 by done. rewrite decide_False by apply trie_key_not_index. rewrite Hv1 by done. destruct i as [|i].
      * injection Hy as ->. by rewrite Z.add_0_r, decide_True.
      * rewrite decide_False; [by apply Hv|]. intros E%trie_key_inj. lia.
    + rewrite Hv2 by by apply index_key_ok. by rewrite decide_True.
  - destruct (pop_front_ok q u item items Hrep) as (u' & Hp & Hr & Hfm & Hiv). exists (set_indices q (mkIndices (first_index (indices q) + 1) (next_available_index (indices q)))), u'.
    split_and!; [|right; by eexists|by rewrite indices_set|exact Hr|exact Hfm|exact Hiv].
    rewrite Heq. by rewrite (bind_Ok _ _ _ _ _ Hp).
Qed.

Lemma modify_first_panic q u item items f : queue_rep q u (item :: items) → f item = None → (modify_first f : QM ()) (q, u) = Panic.
Proof.
  intros Hrep Hfi. assert (Hrep' := Hrep). destruct Hrep' as [Hwf Hf Hn Hb Hi Hv]. apply Forall_cons in Hi as [Hitem Hi].
  pose proof (item_key_ok q u _ 0 Hrep ltac:(simpl; lia)) as Hk. rewrite Z.add_0_r in Hk.
  unfold modify_first. rewrite (bind_Ok _ _ _ q (q, u)) by done. cbv zeta. rewrite (nonempty_check q u _ Hrep) by done.
  rewrite (bind_Ok _ _ _ item (q, u)). 2: { apply take_item_ok; [done|done|]. by rewrite <-(Hv 0%nat), Z.add_0_r. }
  by rewrite Hfi.
Qed.

Lemma modify_first_empty q u f : queue_rep q u [] → (modify_first f : QM ()) (q, u) = Panic.
Proof. intros Hrep. unfold modify_first. rewrite (bind_Ok _ _ _ q (q, u)) by done. cbv zeta. by rewrite (empty_check q u). Qed.

Lemma remove_items_ok q u n : ∀ index, 0 <= index → index + Z.of_nat n <= umax 64 + 1 → queue_wf q →
  ∃ u', (remove_items q index n : QM ()) (q, u) = Ok () (q, u') ∧ frame q u u' ∧
    ∀ m, in_u 64 m → index + Z.of_nat n <= m → st_view u' (trie_key q m) = st_view u (trie_key q m).
Proof.
  revert u. induction n as [|n IH]; intros u index H0 Hb Hwf.
  - exists u. split_and!; [done|apply frame_refl|done].
  - assert (key_ok (trie_key q index)) as Hk by (apply trie_key_ok; [done|unfold in_u; lia]).
    destruct (remove_frame q u _ Hk) as (u1 & Hu1 & Hf1 & Hv1).
    destruct (IH u1 (index + 1)) as (u2 & Hu2 & Hf2 & Hv2); [lia..|done|]. exists u2. split_and!; [|by eapply frame_trans|].
    + cbn [remove_items]. rewrite (bind_Ok _ _ _ () (q, u1)) by (by apply on_state_ok). done.
    + intros m Hm Hle. rewrite Hv2, Hv1 by (try apply trie_key_ok; done || lia). rewrite decide_False; [done|]. intros E%trie_key_inj. lia.
Qed.

Lemma pop_n_eq q u items n d u1 :
  queue_rep q u items → d = Z.min n (Z.of_nat (length items)) → 0 <= d → (remove_items q (first_index (indices q)) (Z.to_nat d) : QM ()) (q, u) = Ok () (q, u1) →
  (pop_n n : QM Z) (q, u) = (_ ← (if 0 <? d then store_indices (mkIndices (first_index (indices q) + d) (next_available_index (indices q)))
    else mret ()); mret d : QM Z) (q, u1).
Proof.
  intros [Hwf Hf Hn Hb Hi Hv] Ed Hd Hu1. unfold pop_n. rewrite (bind_Ok _ _ _ q (q, u)) by done. cbv zeta. rewrite checked_sub_ok by lia.
  replace (Z.min n (default 0 _)) with d by (unfold default, id; lia).
  rewrite checked_add_ok by lia. rewrite (bind_Ok _ _ _ (first_index (indices q) + d) (q, u)) by done. by rewrite (bind_Ok _ _ _ _ _ Hu1).
Qed.

(** [pop_n] takes from the front. *)
Lemma pop_n_ok q u items n :
  queue_rep q u items → 0 <= n →
  ∃ q' u', (pop_n n : QM Z) (q, u) = Ok (Z.min n (Z.of_nat (length items))) (q', u') ∧ (q' = q ∨ ∃ i, q' = set_indices q i) ∧
    next_available_index (indices q') = next_available_index (indices q) ∧
    queue_rep q' u' (drop (Z.to_nat n) items) ∧ frame q u u' ∧ ((q', u') = (q, u) ∨ st_view u' (index_key q) = Some (index_value q')).
Proof.
  intros Hrep Hn0. assert (Hrep' := Hrep). destruct Hrep' as [Hwf Hf Hn Hb Hi Hv]. set (d := Z.min n (Z.of_nat (length items))).
  destruct (decide (d = 0)) as [Hd0|Hd0].
  - exists q, u. rewrite (pop_n_eq q u items n d u) by (done || lia || by rewrite Hd0). rewrite Hd0. rewrite (bind_Ok _ _ _ () (q, u)) by done.
    split_and!; [done|by left|done| |apply frame_refl|by left]. assert (items = [] ∨ n = 0) as Hz by (destruct items; [by left|right; simpl in *; lia]).
    destruct Hz as [->| ->]; [by rewrite drop_nil|done].
  - destruct (remove_items_ok q u (Z.to_nat d) (first_index (indices q))) as (u1 & Hu1 & Hf1 & Hv1); [lia..|done|].
    destruct (store_indices_ok q u1 (mkIndices (first_index (indices q) + d) (next_available_index (indices q))) Hwf) as (u2 & Hu2 & Hf2 & Hiv & Hv2).
    exists (set_indices q (mkIndices (first_index (indices q) + d) (next_available_index (indices q)))), u2. rewrite (pop_n_eq q u items n d u1) by (done || lia). rewrite (proj2 (Z.ltb_lt 0 d)) by lia. rewrite (bind_Ok _ _ _ _ _ Hu2).
    split_and!; [done|right; by eexists|by rewrite indices_set| |by eapply frame_trans|by right].
    pose proof (shrink_rep q u u2 items d (first_index (indices q) + d) (next_available_index (indices q)) Hrep) as Hs.
    rewrite take_ge in Hs by (rewrite length_drop; lia). replace (drop (Z.to_nat n) items) with (drop (Z.to_nat d) items).
    + apply Hs; try lia. intros m Hm. rewrite Hv2, Hv1 by (try apply trie_key_ok; unfold in_u in *; done || lia). done.
    + destruct (decide (n <= Z.of_nat (length items))); [f_equal; lia|]. rewrite !drop_ge by lia. done.
Qed.

(** The iterators list the items in order. *)
Lemma queue_iter_ok q u items :
  queue_rep q u items → (queue_iter (st_get u) q : list (option (RuntimeError StorageError + Item))) = (λ x, Some (inr x)) <$> items.
Proof.
  intros Hrep. assert (Hrep' := Hrep). destruct Hrep' as [Hwf Hf Hn Hb Hi Hv]. unfold queue_iter. apply list_eq. intros i.
  rewrite !list_lookup_fmap. replace (Z.to_nat _) with (length items) by lia. destruct (items !! i) as [x|] eqn:Hx.
  - assert (i < length items)%nat by (by apply lookup_lt_Some in Hx). rewrite lookup_seq_lt by done. cbn [fmap option_fmap option_map].
    unfold iter_item. rewrite st_get_ok by (by eapply item_key_ok). cbn [mbind option_bind]. rewrite Nat.add_0_l, (Hv i x Hx).
    unfold decode_item. by rewrite (try_from_slice_encode item_ok) by (by eapply Forall_lookup_1).
  - apply lookup_ge_None in Hx. by rewrite lookup_seq_ge by lia.
Qed.

Lemma queue_iter_trie q u read items :
  queue_rep q u items → (∀ i, (i < length items)%nat →
    read (trie_key q (first_index (indices q) + Z.of_nat i)) = st_get u (trie_key q (first_index (indices q) + Z.of_nat i))) →
  (queue_iter read q : list (option (RuntimeError StorageError + Item))) = (λ x, Some (inr x)) <$> items.
Proof.
  intros Hrep Hread. rewrite <-(queue_iter_ok q u items Hrep). unfold queue_iter. apply list_fmap_ext. intros i k Hk.
  apply lookup_seq in Hk as [-> Hlt]. unfold iter_item. rewrite Hread; [done|]. destruct Hrep as [? ? Hn ? ? ?]. lia.
Qed.

Lemma queue_len_ok q u items : queue_rep q u items → queue_len q = Some (Z.of_nat (length items)).
Proof. intros [Hwf Hf Hn Hb Hi Hv]. unfold queue_len, indices_len. rewrite checked_sub_ok by lia. f_equal. lia. Qed.

(** Another queue or other data in the state are not touched. *)
Lemma queue_rep_frame q u u' items :
  queue_rep q u items → (∀ k, key_ok k → (∃ n, in_u 64 n ∧ k = trie_key q n) → st_view u' k = st_view u k) → queue_rep q u' items.
Proof.
  intros Hrep Hview. assert (Hrep' := Hrep). destruct Hrep' as [Hwf Hf Hn Hb Hi Hv]. constructor; try done. intros i item Hitem.
  rewrite Hview; [by apply Hv| |].
  - eapply item_key_ok; [done|by apply lookup_lt_Some in Hitem].
  - eexists. split; [|done]. apply lookup_lt_Some in Hitem. unfold in_u. lia.
Qed.

(** Changes of the queue in memory that keep its indices and keys. *)
Lemma queue_rep_same q q' u items :
  indices q' = indices q → (∀ n, trie_key q' n = trie_key q n) → queue_wf q' → queue_rep q u items → queue_rep q' u items.
Proof. intros Hi Hk Hw [Hwf Hf Hn Hb Ho Hv]. constructor; rewrite ?Hi; try done. intros i item Hitem. rewrite Hk. by apply Hv. Qed.

Lemma frame_same q q' u u' : (∀ n, trie_key q' n = trie_key q n) → index_key q' = index_key q → frame q' u u' → frame q u u'.
Proof. intros Hk Hi [V T]. constructor; [|done]. intros k (Ho & Hn & Hm). apply V. split_and!; [done|congruence|]. intros n. rewrite Hk. apply Hm. Qed.

(** * Sequences of operations *)

Inductive QueueOp : Type :=
| OpPushBack (item : Item)
| OpPopFront
| OpPopBack
| OpModifyFirst (modify_fn : Item → option (option Item))
| OpPopN (n : Z)
| OpLen
| OpIter.

Inductive QueueResult : Type :=
| Done
| Popped (item : option Item)
| Count (n : Z)
| Items (items : list (option (RuntimeError StorageError + Item))).

Definition exec_op (op : QueueOp) : QM QueueResult :=
  match op with
  | OpPushBack item => _ ← push_back item; mret Done
  | OpPopFront => r ← pop_front; mret (Popped r)
  | OpPopBack => r ← pop_back; mret (Popped r)
  | OpModifyFirst modify_fn => _ ← modify_first modify_fn; mret Done
  | OpPopN n => r ← pop_n n; mret (Count r)
  | OpLen => q ← get_queue; n ← expect (queue_len q); mret (Count n)
  | OpIter => s ← get_state; mret (Items (queue_iter (st_get s.2) s.1))
  end.

(** The specification: a list, and how many indices are left at its end. *)
Abbreviation SM := (M (list Item * Z) (RuntimeError StorageError)).

Definition spec_op (op : QueueOp) : SM QueueResult := λ s,
  let '(items, room) := s in
  match op with
  | OpPushBack item => if room =? 0 then Err UnexpectedIntegerOverflow s else Ok Done (items ++ [item], room - 1)
  | OpPopFront => Ok (Popped (head items)) (tail items, room)
  | OpPopBack => match last items with
                 | Some item => Ok (Popped (Some item)) (take (length items - 1) items, room + 1)
                 | None => Ok (Popped None) s
                 end
  | OpModifyFirst modify_fn =>
      match items with
      | [] => Panic
      | item :: items =>
          match modify_fn item with
          | None => Panic
          | Some (Some item) => Ok Done (item :: items, room)
          | Some None => Ok Done (items, room)
          end
      end
  | OpPopN n => Ok (Count (Z.min n (Z.of_nat (length items)))) (drop (Z.to_nat n) items, room)
  | OpLen => Ok (Count (Z.of_nat (length items))) s
  | OpIter => Ok (Items ((λ x, Some (inr x)) <$> items)) s
  end.

Definition op_ok (op : QueueOp) : Prop :=
  match op with
  | OpPushBack item => item_ok item
  | OpModifyFirst f => ∀ x y, item_ok x → f x = Some (Some y) → item_ok y
  | OpPopN n => 0 <= n
  | _ => True
  end.

Fixpoint run_ops {S} (step : QueueOp → M S (RuntimeError StorageError) QueueResult) (ops : list QueueOp)
    : M S (RuntimeError StorageError) (list QueueResult) :=
  match ops with
  | [] => mret []
  | op :: ops => r ← step op; rs ← run_ops step ops; mret (r :: rs)
  end.

(** The queue, the list and the indices that are left; the changes since [u0] are those of the queue. *)
Record sim (q0 : Q) (u0 : U) (s : Q * U) (t : list Item * Z) : Prop := {
  sim_rep : queue_rep s.1 s.2 t.1;
  sim_room : t.2 = umax 64 - next_available_index (indices s.1);
  sim_queue : s.1 = q0 ∨ ∃ i, s.1 = set_indices q0 i;
  sim_frame : frame q0 u0 s.2;
  sim_stored : s = (q0, u0) ∨ st_view s.2 (index_key q0) = Some (index_value s.1)
}.

(** Both runs return the same, fail with the same error or panic. *)
Definition same {A} (R : Q * U → list Item * Z → Prop) (x : outcome (Q * U) (RuntimeError StorageError) A)
    (y : outcome (list Item * Z) (RuntimeError StorageError) A) : Prop :=
  match x, y with
  | Ok a s, Ok b t => a = b ∧ R s t
  | Err e _, Err e' _ => e = e'
  | Panic, Panic => True
  | _, _ => False
  end.

Lemma same_bind {A B} R (m : QM A) (m' : SM A) (f : A → QM B) (f' : A → SM B) s t :
  same R (m s) (m' t) → (∀ a s' t', R s' t' → same R (f a s') (f' a t')) → same R ((m ≫= f) s) ((m' ≫= f') t).
Proof. intros Hm Hf. unfold mbind, M_bind. destruct (m s), (m' t); cbn in *; try done. destruct Hm as [-> Hm]. by apply Hf. Qed.

Lemma sim_step q0 u0 q u items room q' u' items' room' :
  sim q0 u0 (q, u) (items, room) → (q' = q ∨ ∃ i, q' = set_indices q i) → queue_rep q' u' items' →
  room' = umax 64 - next_available_index (indices q') → frame q u u' →
  ((q', u') = (q, u) ∨ st_view u' (index_key q) = Some (index_value q')) → sim q0 u0 (q', u') (items', room').
Proof.
  intros [Hr Hm Hq Hf Hs] Hq' Hr' Hm' Hf' Hs'. cbn [fst snd] in *.
  assert (index_key q = index_key q0 ∧ frame q0 u u' ∧ (q' = q0 ∨ ∃ i, q' = set_indices q0 i)) as (Ek & Ef & Eq).
  { destruct Hq as [->|[i ->]]; [done|]. split; [apply index_key_set|]. split; [by apply (frame_set q0 i)|].
    destruct Hq' as [->|[j ->]]; right; [by eexists|]. exists j. apply set_set. }
  constructor; cbn [fst snd]; [done|done|done|by eapply frame_trans|].
  destruct Hs' as [[= -> ->]|Hs']; [done|]. right. by rewrite <-Ek.
Qed.

Lemma exec_spec q0 u0 s t op : op_ok op → sim q0 u0 s t → same (sim q0 u0) (exec_op op s) (spec_op op t).
Proof.
  destruct s as [q u], t as [items room]. intros Hop Hsim. assert (Hsim' := Hsim). destruct Hsim' as [Hrep Hroom _ _ _]. cbn [fst snd] in *.
  destruct op as [item| | |f|n| |]; cbn [exec_op spec_op].
  - destruct (Z.eqb_spec room 0) as [->|Hne].
    + destruct (push_back_overflow q u items item Hrep) as (u' & Hu'); [lia|]. unfold mbind, M_bind. by rewrite Hu'.
    + pose proof (qr_bound _ _ _ Hrep). destruct (push_back_ok q u items item Hrep Hop) as (u' & Hu' & Hr & Hf & Hv); [lia|].
      rewrite (bind_Ok _ _ _ _ _ Hu'). cbn. split; [done|]. eapply sim_step; eauto. rewrite indices_set. cbn. lia.
  - destruct items as [|item items].
    + rewrite (bind_Ok _ _ _ _ _ (pop_front_empty q u Hrep)). done.
    + destruct (pop_front_ok q u item items Hrep) as (u' & Hu' & Hr & Hf & Hv). rewrite (bind_Ok _ _ _ _ _ Hu'). cbn. split; [done|].
      eapply sim_step; eauto. by rewrite indices_set.
  - destruct items as [|item items _] using rev_ind.
    + rewrite (bind_Ok _ _ _ _ _ (pop_back_empty q u Hrep)). done.
    + destruct (pop_back_ok q u items item Hrep) as (u' & Hu' & Hr & Hf & Hv). rewrite (bind_Ok _ _ _ _ _ Hu'), last_snoc. cbn. split; [done|].
      rewrite length_app, take_app_le, take_ge by (simpl; lia). eapply sim_step; eauto. rewrite indices_set. cbn. lia.
  - destruct items as [|item items].
    + unfold mbind, M_bind. by rewrite (modify_first_empty q u f Hrep).
    + destruct (f item) as [r|] eqn:Hfi.
      * destruct (modify_first_ok q u item items f r Hrep Hfi) as (q' & u' & Hu' & Hq & Hx & Hr & Hf & Hv).
        { intros x ->. eapply Hop; [|done]. pose proof (qr_items _ _ _ Hrep) as Hi. by apply Forall_cons in Hi as [? _]. }
        rewrite (bind_Ok _ _ _ _ _ Hu'). destruct r; cbn; (split; [done|]; eapply sim_step; eauto; lia).
      * unfold mbind, M_bind. by rewrite (modify_first_panic q u item items f).
  - destruct (pop_n_ok q u items n Hrep Hop) as (q' & u' & Hu' & Hq & Hx & Hr & Hf & Hv). rewrite (bind_Ok _ _ _ _ _ Hu'). cbn. split; [done|].
    eapply sim_step; eauto. lia.
  - rewrite (bind_Ok _ _ _ q (q, u)) by done. rewrite (queue_len_ok q u items Hrep). done.
  - rewrite (bind_Ok _ _ _ (q, u) (q, u)) by done. cbn. by rewrite (queue_iter_ok q u items Hrep).
Qed.

Lemma run_spec q0 u0 ops : ∀ s t, Forall op_ok ops → sim q0 u0 s t → same (sim q0 u0) (run_ops exec_op ops s) (run_ops spec_op ops t).
Proof.
  induction ops as [|op ops IH]; intros s t Hops Hsim; [done|]. apply Forall_cons in Hops as [Hop Hops]. cbn [run_ops].
  apply same_bind; [by apply exec_spec|]. intros r s' t' Hs. apply same_bind; [by apply IH|]. by intros rs s2 t2.
Qed.

(** C36: A queue in the state is a list.  Any sequence of pushes, pops at either end, changes of the first item, removals of
    several items, lengths and iterations returns what it returns on a list, with the same errors: a push fails when
    the indices are used up, a change of the first item of an empty queue panics, and nothing else fails.  Afterwards
    the items in the state are the list, the indices are stored, and no other data in the state has changed. *)
Theorem queue_refines_list (q : Q) (u : U) (items : list Item) (ops : list QueueOp) :
  queue_rep q u items → Forall op_ok ops →
  same (sim q u) (run_ops exec_op ops (q, u)) (run_ops spec_op ops (items, umax 64 - next_available_index (indices q))).
Proof. intros Hrep Hops. apply run_spec; [done|]. constructor; [done|done|by left|apply frame_refl|by left]. Qed.
End laws.
