(* ===== verification/Fees.v ===== *)
(** Actions (core/primitives/src/action) and what they cost (runtime/runtime/src/config.rs): the
    fees for sending and executing a list of actions, the cost of a transaction, and the gas that
    congestion control counts for a receipt.

    Sums of fees are checked additions that return an error; the products inside a single fee are
    plain arithmetic, whose overflow is a panic. *)

From S2P Require Import Prelude Errors Costs TrieKey.
Local Open Scope Z_scope.

Abbreviation bytes := (list Z).

(** * Actions *)

Record FunctionCallPermission : Type := mkFunctionCallPermission {
  allowance : option Z;
  permitted_receiver : bytes;
  method_names : list bytes
}.

Inductive AccessKeyPermission : Type :=
| PermFunctionCall (p : FunctionCallPermission)
| PermFullAccess.

Record AccessKey : Type := mkAccessKey { access_nonce : Z; permission : AccessKeyPermission }.

Inductive GlobalContractDeployMode : Type := ModeCodeHash | ModeAccountId.

Section types.
Context {AccountId : Type}.

Inductive GlobalContractIdentifier : Type :=
| ContractCodeHash (hash : bytes)
| ContractAccountId (account_id : AccountId).

(** A list of [NonDelegateAction] is a list of actions, none of which is a delegate action. *)
Record DelegateAction (A : Type) : Type := mkDelegateAction {
  sender_id : AccountId;
  receiver_id : AccountId;
  actions : list A;
  nonce : Z;
  max_block_height : Z;
  delegate_public_key : PublicKey
}.

Record SignedDelegateAction (A : Type) : Type := mkSignedDelegateAction {
  delegate_action : DelegateAction A;
  signature : bytes
}.

Inductive Action : Type :=
| CreateAccount
| DeployContract (code : bytes)
| FunctionCall (method_name args : bytes) (gas deposit : Z)
| Transfer (deposit : Z)
| Stake (stake : Z) (public_key : PublicKey)
| AddKey (public_key : PublicKey) (access_key : AccessKey)
| DeleteKey (public_key : PublicKey)
| DeleteAccount (beneficiary_id : AccountId)
| Delegate (signed : SignedDelegateAction Action)
| DeployGlobalContract (code : bytes) (deploy_mode : GlobalContractDeployMode)
| UseGlobalContract (contract_identifier : GlobalContractIdentifier).
End types.
Arguments GlobalContractIdentifier : clear implicits.
Arguments DelegateAction : clear implicits.
Arguments SignedDelegateAction : clear implicits.
Arguments Action : clear implicits.
Arguments mkDelegateAction {AccountId A}.
Arguments sender_id {AccountId A}.
Arguments receiver_id {AccountId A}.
Arguments actions {AccountId A}.
Arguments nonce {AccountId A}.
Arguments max_block_height {AccountId A}.
Arguments delegate_public_key {AccountId A}.
Arguments mkSignedDelegateAction {AccountId A}.
Arguments delegate_action {AccountId A}.
Arguments signature {AccountId A}.

(** * Transactions *)

Section transactions.
Context {AccountId : Type}.

Record TransactionV0 : Type := mkTransactionV0 {
  tx0_signer_id : AccountId;
  tx0_public_key : PublicKey;
  tx0_nonce : Z;
  tx0_receiver_id : AccountId;
  tx0_block_hash : bytes;
  tx0_actions : list (Action AccountId)
}.

Record TransactionV1 : Type := mkTransactionV1 {
  tx1_signer_id : AccountId;
  tx1_public_key : PublicKey;
  tx1_nonce : Z;
  tx1_receiver_id : AccountId;
  tx1_block_hash : bytes;
  tx1_actions : list (Action AccountId);
  tx1_priority_fee : Z
}.

Inductive Transaction : Type :=
| TransactionIsV0 (tx : TransactionV0)
| TransactionIsV1 (tx : TransactionV1).

Definition tx_signer_id (t : Transaction) : AccountId :=
  match t with TransactionIsV0 tx => tx0_signer_id tx | TransactionIsV1 tx => tx1_signer_id tx end.
Definition tx_receiver_id (t : Transaction) : AccountId :=
  match t with TransactionIsV0 tx => tx0_receiver_id tx | TransactionIsV1 tx => tx1_receiver_id tx end.
Definition tx_public_key (t : Transaction) : PublicKey :=
  match t with TransactionIsV0 tx => tx0_public_key tx | TransactionIsV1 tx => tx1_public_key tx end.
Definition tx_nonce (t : Transaction) : Z :=
  match t with TransactionIsV0 tx => tx0_nonce tx | TransactionIsV1 tx => tx1_nonce tx end.
Definition tx_actions (t : Transaction) : list (Action AccountId) :=
  match t with TransactionIsV0 tx => tx0_actions tx | TransactionIsV1 tx => tx1_actions tx end.
Definition tx_block_hash (t : Transaction) : bytes :=
  match t with TransactionIsV0 tx => tx0_block_hash tx | TransactionIsV1 tx => tx1_block_hash tx end.
Definition tx_priority_fee (t : Transaction) : option Z :=
  match t with TransactionIsV0 _ => None | TransactionIsV1 tx => Some (tx1_priority_fee tx) end.
End transactions.

Record VmConfig : Type := mkVmConfig {
  implicit_account_creation : bool;
  eth_implicit_accounts : bool;
  max_receipt_size : Z
}.

(** * Sums *)

Definition safe_add_gas (a b : Z) : Res IntegerOverflowError Z := ok_or (checked_add 64 a b) IntegerOverflow.
Definition safe_add_balance (a b : Z) : Res IntegerOverflowError Z := ok_or (checked_add 128 a b) IntegerOverflow.
Definition safe_add_compute (a b : Z) : Res IntegerOverflowError Z := ok_or (checked_add 64 a b) IntegerOverflow.
Definition safe_gas_to_balance (gas_price gas : Z) : Res IntegerOverflowError Z :=
  ok_or (checked_mul 128 gas_price gas) IntegerOverflow.

(** [base + byte * num_bytes] on [u64]. *)
Definition base_and_bytes (base byte num_bytes : Z) : option Z :=
  p ← checked_mul 64 byte num_bytes;
  checked_add 64 base p.

(** A loop that adds up what [f] returns. *)
Section sum_loop.
Context {A : Type} (add : Z → Z → Res IntegerOverflowError Z) (f : A → Res IntegerOverflowError Z).

Fixpoint sum_loop (l : list A) (result : Z) : Res IntegerOverflowError Z :=
  match l with
  | [] => mret result
  | a :: l =>
      delta ← f a;
      result ← add result delta;
      sum_loop l result
  end.
End sum_loop.

(** * Fees *)

Section fees.
Context {AccountId : Type} `{!EqDecision AccountId} (as_bytes : AccountId → bytes) (get_account_type : AccountId → AccountType).
Variable fees : RuntimeFeesConfig.
Variable wasm_config : VmConfig.

Abbreviation Act := (Action AccountId).
Abbreviation R := (Res IntegerOverflowError).

(** [NonDelegateAction::try_from] *)
Definition non_delegate (a : Act) : bool := match a with Delegate _ => false | _ => true end.

Definition identifier_len (i : GlobalContractIdentifier AccountId) : Z :=
  match i with ContractCodeHash _ => 32 | ContractAccountId account_id => Z.of_nat (length (as_bytes account_id)) end.

(** The sum over the method names, with their terminating characters. *)
Fixpoint method_names_len (names : list bytes) (acc : Z) : option Z :=
  match names with
  | [] => Some acc
  | name :: names =>
      n ← checked_add 64 (Z.of_nat (length name)) 1;
      acc ← checked_add 64 acc n;
      method_names_len names acc
  end.

Definition get_prepaid_gas (a : Act) : Z := match a with FunctionCall _ _ gas _ => gas | _ => 0 end.

Definition get_deposit_balance (a : Act) : Z :=
  match a with FunctionCall _ _ _ deposit | Transfer deposit => deposit | _ => 0 end.

(** The fee of an action without the actions inside, for one of the two columns of the fee table:
    [column] selects the fee and [transfer_fee] is the fee of a transfer in that column. *)
Definition shallow_fee (column : Fee → Z) (transfer_fee : option Z) (a : Act) : option Z :=
  let f c := column (fee fees c) in
  match a with
  | CreateAccount => Some (f action_create_account)
  | DeployContract code => base_and_bytes (f action_deploy_contract_base) (f action_deploy_contract_byte) (Z.of_nat (length code))
  | FunctionCall method_name args _ _ =>
      num_bytes ← checked_add 64 (Z.of_nat (length method_name)) (Z.of_nat (length args));
      base_and_bytes (f action_function_call_base) (f action_function_call_byte) num_bytes
  | Transfer _ => transfer_fee
  | Stake _ _ => Some (f action_stake)
  | AddKey _ access_key =>
      match permission access_key with
      | PermFunctionCall call_perm =>
          num_bytes ← method_names_len (method_names call_perm) 0;
          base_and_bytes (f action_add_function_call_key_base) (f action_add_function_call_key_byte) num_bytes
      | PermFullAccess => Some (f action_add_full_access_key)
      end
  | DeleteKey _ => Some (f action_delete_key)
  | DeleteAccount _ => Some (f action_delete_account)
  | Delegate _ => Some (f action_delegate)
  | DeployGlobalContract code _ =>
      base_and_bytes (f action_deploy_global_contract_base) (f action_deploy_global_contract_byte) (Z.of_nat (length code))
  | UseGlobalContract id =>
      base_and_bytes (f action_use_global_contract_base) (f action_use_global_contract_byte) (identifier_len id)
  end.

Definition send_transfer_fee (sir : bool) (receiver : AccountId) : option Z :=
  transfer_send_fee fees sir (implicit_account_creation wasm_config) (eth_implicit_accounts wasm_config) (get_account_type receiver).

Definition exec_transfer_fee (receiver : AccountId) : option Z :=
  transfer_exec_fee fees (implicit_account_creation wasm_config) (eth_implicit_accounts wasm_config) (get_account_type receiver).

(** One turn of the loop of [total_send_fees]; the actions inside a delegate action are a call of the
    function. *)
Fixpoint send_delta (sir : bool) (receiver : AccountId) (a : Act) {struct a} : R Z :=
  d ← res_expect (shallow_fee (λ f, send_fee f sir) (send_transfer_fee sir receiver) a);
  match a with
  | Delegate signed =>
      let da := delegate_action signed in
      inner ← sum_loop safe_add_gas (send_delta sir (receiver_id da)) (actions da) 0;
      res_expect (checked_add 64 d inner)
  | _ => mret d
  end.

Definition total_send_fees (sir : bool) (l : list Act) (receiver : AccountId) : R Z :=
  sum_loop safe_add_gas (send_delta sir receiver) l 0.

Definition total_prepaid_send_fees (l : list Act) : R Z :=
  sum_loop safe_add_gas (λ a,
    match a with
    | Delegate signed =>
        let da := delegate_action signed in
        total_send_fees (bool_decide (sender_id da = receiver_id da)) (actions da) (receiver_id da)
    | _ => mret 0
    end) l 0.

Definition exec_fee (a : Act) (receiver : AccountId) : option Z :=
  shallow_fee Costs.exec_fee (exec_transfer_fee receiver) a.

Fixpoint exec_delta (receiver : AccountId) (a : Act) {struct a} : R Z :=
  match a with
  | Delegate signed =>
      let da := delegate_action signed in
      delta ← sum_loop safe_add_gas (exec_delta (receiver_id da)) (actions da) 0;
      e ← res_expect (exec_fee a (receiver_id da));
      delta ← safe_add_gas delta e;
      safe_add_gas delta (Costs.exec_fee (fee fees action_new_action_receipt))
  | _ => res_expect (exec_fee a receiver)
  end.

Definition total_prepaid_exec_fees (l : list Act) (receiver : AccountId) : R Z :=
  sum_loop safe_add_gas (exec_delta receiver) l 0.

Fixpoint deposit_delta (a : Act) : R Z :=
  match a with
  | Delegate signed => sum_loop safe_add_balance deposit_delta (actions (delegate_action signed)) 0
  | _ => mret (get_deposit_balance a)
  end.

Definition total_deposit (l : list Act) : R Z := sum_loop safe_add_balance deposit_delta l 0.

Fixpoint prepaid_delta (a : Act) : R Z :=
  match a with
  | Delegate signed => sum_loop safe_add_gas prepaid_delta (actions (delegate_action signed)) 0
  | _ => mret (get_prepaid_gas a)
  end.

Definition total_prepaid_gas (l : list Act) : R Z := sum_loop safe_add_gas prepaid_delta l 0.

(** * Cost of a transaction *)

(** On big integers; [x as usize] of an [i32] sign-extends. *)
Definition safe_gas_price_inflated (gas_price : Z) (inflation_base : Rational32) (inflation_exponent : Z) : R Z :=
  let numer := (numer inflation_base mod 2 ^ 64) ^ inflation_exponent in
  let denom := (denom inflation_base mod 2 ^ 64) ^ inflation_exponent in
  if denom =? 0 then RPanic
  else
    let inflated := (numer * gas_price + denom - 1) / denom in
    if inflated <=? umax 128 then mret inflated else RErr IntegerOverflow.

Definition minimum_new_receipt_gas : Z := 4855842000000.

Definition pessimistic_gas_price (gas_price : Z) (sender_is_receiver : bool) (prepaid_gas : Z) : R Z :=
  let initial_receipt_hop := if sender_is_receiver then 0 else 1 in
  if gas_price =? 0 then mret 0
  else
    let maximum_depth := if 0 <? minimum_new_receipt_gas then prepaid_gas / minimum_new_receipt_gas else 0 in
    s ← res_expect (checked_add 64 initial_receipt_hop maximum_depth);
    if s <=? umax 8 then safe_gas_price_inflated gas_price (pessimistic_gas_price_inflation_ratio fees) s
    else RErr IntegerOverflow.

Record TransactionCost : Type := mkTransactionCost {
  gas_burnt : Z;
  gas_remaining : Z;
  receipt_gas_price : Z;
  total_cost : Z;
  burnt_amount : Z
}.

(** The protocol version in which [ProtocolFeature::ReducedGasRefunds] is enabled. *)
Definition REDUCED_GAS_REFUNDS : Z := 78.

Definition tx_cost (tx : Transaction) (gas_price protocol_version : Z) : R TransactionCost :=
  let sender_is_receiver := bool_decide (tx_receiver_id tx = tx_signer_id tx) in
  send_fees ← total_send_fees sender_is_receiver (tx_actions tx) (tx_receiver_id tx);
  gas_burnt ← safe_add_gas (send_fee (fee fees action_new_action_receipt) sender_is_receiver) send_fees;
  attached ← total_prepaid_gas (tx_actions tx);
  prepaid_send ← total_prepaid_send_fees (tx_actions tx);
  prepaid_gas ← safe_add_gas attached prepaid_send;
  receipt_gas_price ← (if REDUCED_GAS_REFUNDS <=? protocol_version then mret gas_price
                       else pessimistic_gas_price gas_price sender_is_receiver prepaid_gas);
  gas_remaining ← safe_add_gas prepaid_gas (Costs.exec_fee (fee fees action_new_action_receipt));
  exec_fees ← total_prepaid_exec_fees (tx_actions tx) (tx_receiver_id tx);
  gas_remaining ← safe_add_gas gas_remaining exec_fees;
  burnt_amount ← safe_gas_to_balance gas_price gas_burnt;
  remaining_gas_amount ← safe_gas_to_balance receipt_gas_price gas_remaining;
  total_cost ← safe_add_balance burnt_amount remaining_gas_amount;
  deposit ← total_deposit (tx_actions tx);
  total_cost ← safe_add_balance total_cost deposit;
  mret (mkTransactionCost gas_burnt gas_remaining receipt_gas_price total_cost burnt_amount).

(** The gas of an action receipt in [compute_receipt_congestion_gas]. *)
Definition action_receipt_congestion_gas (l : list Act) (receiver : AccountId) : R Z :=
  exec ← total_prepaid_exec_fees l receiver;
  prepaid_exec_gas ← safe_add_gas exec (Costs.exec_fee (fee fees action_new_action_receipt));
  prepaid_send_gas ← total_prepaid_send_fees l;
  prepaid_gas ← safe_add_gas prepaid_exec_gas prepaid_send_gas;
  gas_attached_to_fns ← total_prepaid_gas l;
  safe_add_gas gas_attached_to_fns prepaid_gas.
End fees.

(** * Exact sums *)

(** The result is [v] when [v] fits into [w] bits, and no result otherwise. *)
Definition exact {E} (w : Z) (r : Res E Z) (v : Z) : Prop := 0 <= v ∧ ∀ x, r = ROk x ↔ x = v ∧ v <= umax w.

Create HintDb exact.

Lemma exact_ret {E} w v : 0 <= v <= umax w → exact w (mret v : Res E Z) v.
Proof. intros Hv. split; [lia|]. intros x. unfold mret, Res_ret. split; [intros [= ->]; lia|intros [-> _]; done]. Qed.

Lemma exact_add {E} w (r s : Res E Z) (e : E) u v :
  exact w r u → exact w s v → exact w (a ← r; b ← s; ok_or (checked_add w a b) e) (u + v).
Proof.
  intros [Hu Hr] [Hv Hs]. split; [lia|]. intros x. rewrite res_bind_ROk. split.
  - intros (a & [-> Ha]%Hr & Hb). apply res_bind_ROk in Hb as (b & [-> Hb]%Hs & Hx).
    unfold checked_add in Hx. case_match; cbn in Hx; [|done]. injection Hx as <-. lia.
  - intros [-> Hm]. exists u. split; [apply Hr; lia|]. rewrite res_bind_ROk. exists v. split; [apply Hs; lia|]. by rewrite checked_add_ok.
Qed.

Lemma exact_unique {E} w (r : Res E Z) u x : exact w r u → r = ROk x → x = u.
Proof. intros [_ Hr] Hx. by apply Hr in Hx as [-> _]. Qed.

Lemma exact_value {E} w (r : Res E Z) u : exact w r u → u <= umax w → r = ROk u.
Proof. intros [_ Hr] Hu. by apply Hr. Qed.

Lemma exact_ext {E} w (r s : Res E Z) v : (∀ x, r = ROk x ↔ s = ROk x) → exact w r v → exact w s v.
Proof. intros H [Hv Hr]. split; [done|]. intros x. by rewrite <-H. Qed.

Lemma exact_expect_add {E} w (a : Z) (r : Res E Z) u v :
  0 <= a <= umax w → exact w r u → v = a + u → exact w (x ← r; res_expect (checked_add w a x)) v.
Proof.
  intros Ha [Hu Hr] ->. split; [lia|]. intros x. rewrite res_bind_ROk. split.
  - intros (y & [-> Hy]%Hr & Hx). unfold checked_add in Hx. case_match; cbn in Hx; [|done]. injection Hx as <-. lia.
  - intros [-> Hm]. exists u. split; [apply Hr; lia|]. by rewrite checked_add_ok.
Qed.

Section sum_loop_exact.
Context {A : Type} (w : Z) (e : IntegerOverflowError) (f : A → Res IntegerOverflowError Z) (g : A → Z).

Lemma sum_loop_exact l r :
  0 <= r <= umax w → Forall (λ a, exact w (f a) (g a)) l →
  exact w (sum_loop (λ a b, ok_or (checked_add w a b) e) f l r) (r + sum_Z (g <$> l)).
Proof.
  intros Hr Hl. revert r Hr. induction Hl as [|a l [Ha Hf] Hl IH]; intros r Hr.
  - change (sum_Z (g <$> [])) with 0. rewrite Z.add_0_r. by apply exact_ret.
  - rewrite fmap_cons, sum_Z_cons. assert (0 <= sum_Z (g <$> l)) as Hs.
    { apply sum_Z_nonneg, Forall_fmap. eapply Forall_impl; [exact Hl|]. by intros ? [? _]. }
    split; [lia|]. intros x. cbn [sum_loop]. rewrite res_bind_ROk. split.
    + intros (d & [-> Hd]%Hf & Hx). apply res_bind_ROk in Hx as (r' & Hr' & Hx). unfold checked_add in Hr'.
      case_match eqn:Hc; cbn in Hr'; [|done]. injection Hr' as <-. apply (exact_unique w) with (u := r + g a + sum_Z (g <$> l)) in Hx as Hx'; [|apply IH; lia].
      apply IH in Hx; lia.
    + intros [-> Hm]. exists (g a). split; [apply Hf; lia|]. rewrite checked_add_ok by lia. cbn.
      replace (r + (g a + sum_Z (g <$> l))) with (r + g a + sum_Z (g <$> l)) by lia. apply (exact_value w); [apply IH; lia|lia].
Qed.
End sum_loop_exact.

(** * What actions cost *)

Section costs.
Context {AccountId : Type} `{!EqDecision AccountId} (as_bytes : AccountId → bytes) (get_account_type : AccountId → AccountType).
Context (fees : RuntimeFeesConfig) (wasm_config : VmConfig).

Abbreviation Act := (Action AccountId).

(** The number of bytes that are charged for. *)
Definition num_bytes (a : Act) : Z :=
  match a with
  | DeployContract code | DeployGlobalContract code _ => Z.of_nat (length code)
  | FunctionCall method_name args _ _ => Z.of_nat (length method_name) + Z.of_nat (length args)
  | AddKey _ access_key =>
      match permission access_key with
      | PermFunctionCall p => sum_Z ((λ name, Z.of_nat (length name) + 1) <$> method_names p)
      | PermFullAccess => 0
      end
  | UseGlobalContract id => identifier_len as_bytes id
  | _ => 0
  end.

(** The entries of the fee table for an action: per action and per byte. *)
Definition fee_entries (a : Act) : list ActionCosts * option ActionCosts :=
  match a with
  | CreateAccount => ([action_create_account], None)
  | DeployContract _ => ([action_deploy_contract_base], Some action_deploy_contract_byte)
  | FunctionCall _ _ _ _ => ([action_function_call_base], Some action_function_call_byte)
  | Transfer _ => ([], None)
  | Stake _ _ => ([action_stake], None)
  | AddKey _ access_key =>
      match permission access_key with
      | PermFunctionCall _ => ([action_add_function_call_key_base], Some action_add_function_call_key_byte)
      | PermFullAccess => ([action_add_full_access_key], None)
      end
  | DeleteKey _ => ([action_delete_key], None)
  | DeleteAccount _ => ([action_delete_account], None)
  | Delegate _ => ([action_delegate], None)
  | DeployGlobalContract _ _ => ([action_deploy_global_contract_base], Some action_deploy_global_contract_byte)
  | UseGlobalContract _ => ([action_use_global_contract_base], Some action_use_global_contract_byte)
  end.

(** A transfer to an implicit account may create it. *)
Definition transfer_entries (receiver : AccountId) : list ActionCosts :=
  action_transfer ::
    if implicit_account_creation wasm_config then
      match get_account_type receiver with
      | NearImplicitAccount => [action_create_account; action_add_full_access_key]
      | EthImplicitAccount => if eth_implicit_accounts wasm_config then [action_create_account] else []
      | NamedAccount => []
      end
    else [].

Definition entries (receiver : AccountId) (a : Act) : list ActionCosts :=
  (fee_entries a).1 ++ match a with Transfer _ => transfer_entries receiver | _ => [] end.

(** The cost of one action in a column of the fee table. *)
Definition action_cost (column : Fee → Z) (receiver : AccountId) (a : Act) : Z :=
  sum_Z ((λ c, column (fee fees c)) <$> entries receiver a) +
  match (fee_entries a).2 with Some c => column (fee fees c) * num_bytes a | None => 0 end.

(** The actions inside. *)
Definition inner (a : Act) : list Act := match a with Delegate signed => actions (delegate_action signed) | _ => [] end.
Definition inner_receiver (receiver : AccountId) (a : Act) : AccountId :=
  match a with Delegate signed => receiver_id (delegate_action signed) | _ => receiver end.

Definition send_cost (sir : bool) (receiver : AccountId) (a : Act) : Z :=
  action_cost (λ f, send_fee f sir) receiver a +
  sum_Z (action_cost (λ f, send_fee f sir) (inner_receiver receiver a) <$> inner a).

Definition prepaid_send_cost (a : Act) : Z :=
  match a with
  | Delegate signed =>
      let da := delegate_action signed in
      sum_Z (action_cost (λ f, send_fee f (bool_decide (sender_id da = receiver_id da))) (receiver_id da) <$> actions da)
  | _ => 0
  end.

Definition exec_cost (receiver : AccountId) (a : Act) : Z :=
  action_cost Costs.exec_fee (inner_receiver receiver a) a +
  sum_Z (action_cost Costs.exec_fee (inner_receiver receiver a) <$> inner a) +
  match a with Delegate _ => Costs.exec_fee (fee fees action_new_action_receipt) | _ => 0 end.

Definition deposit_of (a : Act) : Z := get_deposit_balance a + sum_Z (get_deposit_balance <$> inner a).
Definition prepaid_of (a : Act) : Z := get_prepaid_gas a + sum_Z (get_prepaid_gas <$> inner a).

(** The values of an action have the width of their types. *)
Definition shallow_ok (a : Act) : Prop := in_u 64 (num_bytes a) ∧ in_u 64 (get_prepaid_gas a) ∧ in_u 128 (get_deposit_balance a).
Definition action_ok (a : Act) : Prop := shallow_ok a ∧ Forall (λ b, shallow_ok b ∧ non_delegate b = true) (inner a).

Definition fees_ok : Prop := ∀ c, in_u 64 (send_sir (fee fees c)) ∧ in_u 64 (send_not_sir (fee fees c)) ∧ in_u 64 (execution (fee fees c)).

Definition column_ok (column : Fee → Z) : Prop := ∀ c, in_u 64 (column (fee fees c)).

Lemma send_column_ok sir : fees_ok → column_ok (λ f, send_fee f sir).
Proof. intros H c. specialize (H c). destruct sir; cbn; tauto. Qed.

Lemma exec_column_ok : fees_ok → column_ok Costs.exec_fee.
Proof. intros H c. specialize (H c). cbn. tauto. Qed.

Lemma num_bytes_nonneg a : 0 <= num_bytes a.
Proof.
  destruct a as [| | | | |? [? []]| | | | |[]]; cbn; try lia.
  apply sum_Z_nonneg, Forall_fmap, Forall_forall. intros x _. cbn. lia.
Qed.

(** An optional sum: what the arithmetic of a single fee returns. *)
Lemma exact_checked_add w a b :
  0 <= a → 0 <= b → exact w (res_expect (checked_add w a b) : Res IntegerOverflowError Z) (a + b).
Proof.
  intros Ha Hb. split; [lia|]. intros x. unfold checked_add. case_match; cbn; split; try (intros [= <-]; lia); intros [-> ?]; try done; lia.
Qed.

Lemma base_and_bytes_exact base byte n :
  in_u 64 base → in_u 64 byte → in_u 64 n →
  exact 64 (res_expect (base_and_bytes base byte n) : Res IntegerOverflowError Z) (base + byte * n).
Proof.
  unfold in_u. intros Hb Hy Hn. unfold base_and_bytes, checked_mul. assert (0 <= byte * n) by nia. case_match eqn:Hm.
  - cbn [mbind option_bind]. apply exact_checked_add; lia.
  - cbn. split; [lia|]. intros x. split; [done|]. lia.
Qed.

Lemma method_names_len_exact names : ∀ acc, 0 <= acc → acc + sum_Z ((λ name, Z.of_nat (length name) + 1) <$> names) <= umax 64 →
  method_names_len names acc = Some (acc + sum_Z ((λ name, Z.of_nat (length name) + 1) <$> names)).
Proof.
  induction names as [|name names IH]; intros acc Ha Hm; cbn [method_names_len].
  - change (sum_Z _) with 0. by rewrite Z.add_0_r.
  - rewrite fmap_cons, sum_Z_cons in *. assert (0 <= sum_Z ((λ name : bytes, Z.of_nat (length name) + 1) <$> names)).
    { apply sum_Z_nonneg, Forall_fmap, Forall_forall. intros x _. cbn. lia. }
    rewrite checked_add_ok by lia. cbn [mbind option_bind]. rewrite checked_add_ok by lia. cbn [mbind option_bind].
    rewrite IH by lia. f_equal. lia.
Qed.

Lemma exact_some w v : 0 <= v <= umax w → exact w (res_expect (Some v) : Res IntegerOverflowError Z) v.
Proof. apply exact_ret. Qed.

Lemma exact_checked_add3 w a b c :
  0 <= a → 0 <= b → 0 <= c → exact w (res_expect (s ← checked_add w a b; checked_add w s c) : Res IntegerOverflowError Z) (a + b + c).
Proof.
  intros Ha Hb Hc. unfold checked_add at 2. case_match; cbn [mbind option_bind]; [apply exact_checked_add; lia|].
  cbn. split; [lia|]. intros x. split; [done|lia].
Qed.

(** [transfer_send_fee] and [transfer_exec_fee] are the fees of [transfer_entries]. *)
Lemma transfer_fee_exact column (transfer : option Z) receiver :
  column_ok column →
  transfer = (let f c := column (fee fees c) in
    match implicit_account_creation wasm_config, eth_implicit_accounts wasm_config, get_account_type receiver with
    | _, _, NamedAccount => Some (f action_transfer)
    | false, _, _ => Some (f action_transfer)
    | true, false, EthImplicitAccount => Some (f action_transfer)
    | true, true, EthImplicitAccount => checked_add 64 (f action_transfer) (f action_create_account)
    | true, _, NearImplicitAccount =>
        s ← checked_add 64 (f action_transfer) (f action_create_account);
        checked_add 64 s (f action_add_full_access_key)
    end) →
  exact 64 (res_expect transfer : Res IntegerOverflowError Z) (sum_Z ((λ c, column (fee fees c)) <$> transfer_entries receiver)).
Proof.
  intros Hc ->. cbv zeta. unfold transfer_entries.
  pose proof (Hc action_transfer). pose proof (Hc action_create_account). pose proof (Hc action_add_full_access_key). unfold in_u in *.
  destruct (implicit_account_creation wasm_config), (eth_implicit_accounts wasm_config), (get_account_type receiver);
    cbn [fmap list_fmap sum_Z foldr]; rewrite ?Z.add_0_r, ?Z.add_assoc; try apply exact_some; try apply exact_checked_add; try apply exact_checked_add3; lia.
Qed.

Lemma send_transfer_exact sir receiver : fees_ok →
  exact 64 (res_expect (send_transfer_fee get_account_type fees wasm_config sir receiver) : Res IntegerOverflowError Z)
    (sum_Z ((λ c, send_fee (fee fees c) sir) <$> transfer_entries receiver)).
Proof. intros Hf. by apply (transfer_fee_exact (λ f, send_fee f sir)); [apply send_column_ok|]. Qed.

Lemma exec_transfer_exact receiver : fees_ok →
  exact 64 (res_expect (exec_transfer_fee get_account_type fees wasm_config receiver) : Res IntegerOverflowError Z)
    (sum_Z ((λ c, Costs.exec_fee (fee fees c)) <$> transfer_entries receiver)).
Proof. intros Hf. by apply (transfer_fee_exact Costs.exec_fee); [apply exec_column_ok|]. Qed.

Lemma shallow_fee_exact column transfer receiver a :
  column_ok column → shallow_ok a →
  exact 64 (res_expect transfer : Res IntegerOverflowError Z) (sum_Z ((λ c, column (fee fees c)) <$> transfer_entries receiver)) →
  exact 64 (res_expect (shallow_fee as_bytes fees column transfer a) : Res IntegerOverflowError Z) (action_cost column receiver a).
Proof.
  intros Hc (Hn & _) Ht. unfold action_cost, entries. pose proof (λ c, Hc c) as Hc'. unfold in_u in Hc'.
  destruct a as [|code|m args g d|d|st k|k [n [p|]]|k|b|sd|code mode|i];
    cbn [shallow_fee fee_entries fst snd app permission]; try (rewrite Z.add_0_r, app_nil_r || rewrite Z.add_0_r);
    try (cbn [fmap list_fmap sum_Z foldr]; rewrite Z.add_0_r; apply exact_some, Hc'); try exact Ht;
    cbn [fmap list_fmap sum_Z foldr]; rewrite ?Z.add_0_r.
  - by apply base_and_bytes_exact.
  - unfold in_u in Hn. cbn [num_bytes] in *. rewrite checked_add_ok by lia. cbn [mbind option_bind]. by apply base_and_bytes_exact.
  - unfold in_u in Hn. cbn [num_bytes permission] in *. rewrite method_names_len_exact by lia. rewrite Z.add_0_l. cbn [mbind option_bind].
    by apply base_and_bytes_exact.
  - by apply base_and_bytes_exact.
  - by apply base_and_bytes_exact.
Qed.

Hypothesis Hfees : fees_ok.

Abbreviation send_delta := (send_delta as_bytes get_account_type fees wasm_config).
Abbreviation exec_delta := (exec_delta as_bytes get_account_type fees wasm_config).

Lemma send_delta_non_delegate sir receiver a :
  non_delegate a = true →
  send_delta sir receiver a = res_expect (shallow_fee as_bytes fees (λ f, send_fee f sir) (send_transfer_fee get_account_type fees wasm_config sir receiver) a).
Proof. intros Hn. destruct a; try done; cbn [Fees.send_delta]; by destruct (res_expect _). Qed.

Lemma send_shallow_exact sir receiver a : shallow_ok a →
  exact 64 (res_expect (shallow_fee as_bytes fees (λ f, send_fee f sir) (send_transfer_fee get_account_type fees wasm_config sir receiver) a) : Res IntegerOverflowError Z)
    (action_cost (λ f, send_fee f sir) receiver a).
Proof. intros Ha. apply shallow_fee_exact; [by apply send_column_ok|done|by apply send_transfer_exact]. Qed.

Lemma inner_send_exact sir receiver l : Forall (λ b, shallow_ok b ∧ non_delegate b = true) l →
  exact 64 (sum_loop safe_add_gas (send_delta sir receiver) l 0) (sum_Z (action_cost (λ f, send_fee f sir) receiver <$> l)).
Proof.
  intros Hl. rewrite <-(Z.add_0_l (sum_Z _)). apply (sum_loop_exact 64); [split; [done|by vm_compute]|]. eapply Forall_impl; [exact Hl|]. intros b [Hb Hn]. cbn.
  rewrite send_delta_non_delegate by done. by apply send_shallow_exact.
Qed.

Lemma send_delta_exact sir receiver a : action_ok a → exact 64 (send_delta sir receiver a) (send_cost sir receiver a).
Proof.
  intros [Ha Hi]. destruct (non_delegate a) eqn:Hn.
  - rewrite send_delta_non_delegate by done. unfold send_cost. replace (inner a) with ([] : list Act) by by destruct a.
    change (sum_Z _) with 0 at 1. rewrite Z.add_0_r. by apply send_shallow_exact.
  - destruct a as [| | | | | | | |sd| |]; try done. unfold send_cost. cbn [inner inner_receiver] in *. cbn [Fees.send_delta shallow_fee res_expect mbind Res_bind].
    eapply exact_expect_add; [apply (send_column_ok sir Hfees action_delegate)|by apply inner_send_exact|].
    unfold action_cost, entries. cbn. lia.
Qed.

Lemma exact_sum {A} w e (f : A → Res IntegerOverflowError Z) g l :
  Forall (λ a, exact w (f a) (g a)) l → 0 <= umax w → exact w (sum_loop (λ a b, ok_or (checked_add w a b) e) f l 0) (sum_Z (g <$> l)).
Proof. intros Hl Hw. rewrite <-(Z.add_0_l (sum_Z _)). by apply sum_loop_exact. Qed.

Lemma total_send_exact sir receiver l : Forall action_ok l →
  exact 64 (total_send_fees as_bytes get_account_type fees wasm_config sir l receiver) (sum_Z (send_cost sir receiver <$> l)).
Proof. intros Hl. apply exact_sum; [|done]. eapply Forall_impl; [exact Hl|]. intros a Ha. by apply send_delta_exact. Qed.

Lemma total_prepaid_send_exact l : Forall action_ok l →
  exact 64 (total_prepaid_send_fees as_bytes get_account_type fees wasm_config l) (sum_Z (prepaid_send_cost <$> l)).
Proof.
  intros Hl. apply exact_sum; [|done]. eapply Forall_impl; [exact Hl|]. intros a [Ha Hi].
  destruct a as [| | | | | | | |sd| |]; try (by apply exact_ret). cbn [inner] in Hi. by apply inner_send_exact.
Qed.

Lemma exec_shallow_exact receiver a : shallow_ok a →
  exact 64 (res_expect (exec_fee as_bytes get_account_type fees wasm_config a receiver) : Res IntegerOverflowError Z) (action_cost Costs.exec_fee receiver a).
Proof. intros Ha. apply shallow_fee_exact; [by apply exec_column_ok|done|by apply exec_transfer_exact]. Qed.

Lemma exec_delta_non_delegate receiver a :
  non_delegate a = true → exec_delta receiver a = res_expect (exec_fee as_bytes get_account_type fees wasm_config a receiver).
Proof. by destruct a. Qed.

Lemma inner_exec_exact receiver l : Forall (λ b, shallow_ok b ∧ non_delegate b = true) l →
  exact 64 (sum_loop safe_add_gas (exec_delta receiver) l 0) (sum_Z (action_cost Costs.exec_fee receiver <$> l)).
Proof.
  intros Hl. apply exact_sum; [|done]. eapply Forall_impl; [exact Hl|]. intros b [Hb Hn]. cbn.
  rewrite exec_delta_non_delegate by done. by apply exec_shallow_exact.
Qed.

Lemma exact_bind_add (r : Res IntegerOverflowError Z) u v w0 : exact 64 r u → in_u 64 v → w0 = u + v → exact 64 (a ← r; safe_add_gas a v) w0.
Proof.
  intros Hr Hv ->. eapply exact_ext; [|apply (exact_add 64 r (mret v) IntegerOverflow); [exact Hr|by apply exact_ret]].
  intros x. by destruct r.
Qed.

Lemma exec_delta_exact receiver a : action_ok a → exact 64 (exec_delta receiver a) (exec_cost receiver a).
Proof.
  intros [Ha Hi]. destruct (non_delegate a) eqn:Hn.
  - rewrite exec_delta_non_delegate by done. unfold exec_cost. replace (inner a) with ([] : list Act) by by destruct a.
    replace (inner_receiver receiver a) with receiver by by destruct a. replace (match a with Delegate _ => _ | _ => 0 end) with 0 by by destruct a.
    change (sum_Z _) with 0 at 1. rewrite !Z.add_0_r. by apply exec_shallow_exact.
  - destruct a as [| | | | | | | |sd| |]; try done. unfold exec_cost. cbn [inner inner_receiver] in *.
    pose proof (exact_add 64 _ _ IntegerOverflow _ _ (inner_exec_exact (receiver_id (delegate_action sd)) _ Hi)
      (exec_shallow_exact (receiver_id (delegate_action sd)) (Delegate sd) Ha)) as Hsum.
    pose proof (exact_bind_add _ _ _ _ Hsum (exec_column_ok Hfees action_new_action_receipt) eq_refl) as Hall.
    rewrite (Z.add_comm (action_cost _ _ _)). revert Hall. apply exact_ext.
    intros x. cbn [Fees.exec_delta]. rewrite !res_bind_ROk. setoid_rewrite res_bind_ROk. setoid_rewrite res_bind_ROk. naive_solver.
Qed.

Lemma total_exec_exact receiver l : Forall action_ok l →
  exact 64 (total_prepaid_exec_fees as_bytes get_account_type fees wasm_config l receiver) (sum_Z (exec_cost receiver <$> l)).
Proof. intros Hl. apply exact_sum; [|done]. eapply Forall_impl; [exact Hl|]. intros a Ha. by apply exec_delta_exact. Qed.

Lemma total_deposit_exact l : Forall action_ok l → exact 128 (total_deposit l) (sum_Z (deposit_of <$> l)).
Proof.
  intros Hl. apply exact_sum; [|done]. eapply Forall_impl; [exact Hl|]. intros a [(_ & _ & Hd) Hi]. unfold deposit_of.
  destruct a as [| | | | | | | |sd| |]; cbn [inner deposit_delta] in *; try (change (sum_Z (_ <$> [])) with 0; rewrite Z.add_0_r; by apply exact_ret).
  rewrite Z.add_0_l. apply exact_sum; [|done]. eapply Forall_impl; [exact Hi|]. intros b [(_ & _ & Hb) Hn]. destruct b; try done; by apply exact_ret.
Qed.

Lemma total_prepaid_exact l : Forall action_ok l → exact 64 (total_prepaid_gas l) (sum_Z (prepaid_of <$> l)).
Proof.
  intros Hl. apply exact_sum; [|done]. eapply Forall_impl; [exact Hl|]. intros a [(_ & Hd & _) Hi]. unfold prepaid_of.
  destruct a as [| | | | | | | |sd| |]; cbn [inner prepaid_delta] in *; try (change (sum_Z (_ <$> [])) with 0; rewrite Z.add_0_r; by apply exact_ret).
  rewrite Z.add_0_l. apply exact_sum; [|done]. eapply Forall_impl; [exact Hi|]. intros b [(_ & Hb & _) Hn]. destruct b; try done; by apply exact_ret.
Qed.

(** * What transactions cost *)

Abbreviation Tx := (Transaction (AccountId := AccountId)).
Abbreviation receipt_fee := (fee fees action_new_action_receipt).

Definition tx_sir (tx : Tx) : bool := bool_decide (tx_receiver_id tx = tx_signer_id tx).

(** The gas that is burnt for sending the receipt, the gas that is attached to its actions, the gas that is
    bought for the receipt, and the deposits. *)
Definition burnt_gas (tx : Tx) : Z := send_fee receipt_fee (tx_sir tx) + sum_Z (send_cost (tx_sir tx) (tx_receiver_id tx) <$> tx_actions tx).
Definition attached_gas (l : list Act) : Z := sum_Z (prepaid_of <$> l) + sum_Z (prepaid_send_cost <$> l).
Definition receipt_gas (l : list Act) (receiver : AccountId) : Z :=
  attached_gas l + Costs.exec_fee receipt_fee + sum_Z (exec_cost receiver <$> l).
Definition deposits (tx : Tx) : Z := sum_Z (deposit_of <$> tx_actions tx).

(** The price at which the gas of the receipt is bought. *)
Definition price_of_receipt (tx : Tx) (gas_price protocol_version : Z) : Res IntegerOverflowError Z :=
  if REDUCED_GAS_REFUNDS <=? protocol_version then mret gas_price
  else pessimistic_gas_price fees gas_price (tx_sir tx) (attached_gas (tx_actions tx)).

Lemma exact_bind_iff {B} w (r : Res IntegerOverflowError Z) u (f : Z → Res IntegerOverflowError B) (b : B) :
  exact w r u → (r ≫= f) = ROk b ↔ u <= umax w ∧ f u = ROk b.
Proof. intros [_ Hr]. rewrite res_bind_ROk. setoid_rewrite Hr. naive_solver. Qed.

Lemma exact_safe_add w a b : 0 <= a → 0 <= b → exact w (ok_or (checked_add w a b) IntegerOverflow) (a + b).
Proof. intros Ha Hb. split; [lia|]. intros x. unfold checked_add. case_match; cbn; split; try (intros [= <-]; lia); intros [-> ?]; try done; lia. Qed.

Lemma exact_to_balance p g : 0 <= p → 0 <= g → exact 128 (safe_gas_to_balance p g) (p * g).
Proof.
  intros Hp Hg. split; [nia|]. intros x. unfold safe_gas_to_balance, checked_mul. case_match; cbn; split; try (intros [= <-]; lia); intros [-> ?]; try done; lia.
Qed.

Lemma price_nonneg tx gas_price protocol_version p : in_u 128 gas_price → price_of_receipt tx gas_price protocol_version = ROk p → 0 <= p.
Proof.
  unfold in_u, price_of_receipt, pessimistic_gas_price, safe_gas_price_inflated. intros Hg Hp.
  case_match; [injection Hp as <-; lia|]. case_match; [by injection Hp as <-|]. apply res_bind_ROk in Hp as (h & _ & Hp).
  case_match; [|done]. case_match eqn:Hd; [done|]. case_match; [|done]. injection Hp as <-. set (n := _ mod _) in *. set (d := _ mod _) in *.
  assert (0 <= n ^ h ∧ 0 <= d ^ h) as [Hn Hd0] by (split; apply Z.pow_nonneg, Z.mod_pos_bound; lia). apply Z.eqb_neq in Hd. apply Z.div_pos; nia.
Qed.

Lemma costs_nonneg l tx receiver : Forall action_ok l → Forall action_ok (tx_actions tx) →
  0 <= attached_gas l ∧ attached_gas l <= receipt_gas l receiver ∧ 0 <= burnt_gas tx ∧ 0 <= deposits tx.
Proof.
  intros Hl Htx. destruct (total_prepaid_exact l Hl) as [? _], (total_prepaid_send_exact l Hl) as [? _], (total_exec_exact receiver l Hl) as [? _].
  destruct (total_send_exact (tx_sir tx) (tx_receiver_id tx) _ Htx) as [? _], (total_deposit_exact _ Htx) as [? _].
  pose proof (exec_column_ok Hfees action_new_action_receipt). pose proof (send_column_ok (tx_sir tx) Hfees action_new_action_receipt).
  unfold receipt_gas, attached_gas, burnt_gas, deposits, in_u in *. lia.
Qed.

Lemma price_bind_iff tx gas_price protocol_version {B} (f : Z → Res IntegerOverflowError B) b :
  (price_of_receipt tx gas_price protocol_version ≫= f) = ROk b ↔ ∃ p, price_of_receipt tx gas_price protocol_version = ROk p ∧ f p = ROk b.
Proof. apply res_bind_ROk. Qed.

(** The balance part of [tx_cost]. *)
Lemma balances_iff tx gas_price p gas (c : TransactionCost) :
  Forall action_ok (tx_actions tx) → 0 <= gas_price → 0 <= p → 0 <= gas →
  (burnt_amount ← safe_gas_to_balance gas_price (burnt_gas tx);
   remaining_gas_amount ← safe_gas_to_balance p gas;
   total_cost ← safe_add_balance burnt_amount remaining_gas_amount;
   deposit ← total_deposit (tx_actions tx);
   total_cost ← safe_add_balance total_cost deposit;
   mret (mkTransactionCost (burnt_gas tx) gas p total_cost burnt_amount)) = ROk c ↔
  let total := gas_price * burnt_gas tx + p * gas + deposits tx in
  total <= umax 128 ∧ c = mkTransactionCost (burnt_gas tx) gas p total (gas_price * burnt_gas tx).
Proof.
  intros Htx Hgp Hp Hg. destruct (costs_nonneg (tx_actions tx) tx (tx_receiver_id tx) Htx Htx) as (_ & _ & Hb & Hd).
  unfold safe_add_balance. rewrite (exact_bind_iff 128 _ (gas_price * burnt_gas tx)) by (by apply exact_to_balance).
  rewrite (exact_bind_iff 128 _ (p * gas)) by (by apply exact_to_balance).
  rewrite (exact_bind_iff 128 _ (gas_price * burnt_gas tx + p * gas)) by (apply exact_safe_add; nia).
  rewrite (exact_bind_iff 128 _ (deposits tx)) by (by apply total_deposit_exact).
  rewrite (exact_bind_iff 128 _ (gas_price * burnt_gas tx + p * gas + deposits tx)) by (apply exact_safe_add; nia).
  cbv zeta. unfold mret, Res_ret. split; [intros (_ & _ & _ & _ & Ht & [= <-]); done|]. intros [Ht ->].
  assert (0 <= gas_price * burnt_gas tx ∧ 0 <= p * gas) by nia. split_and!; (done || lia).
Qed.

Lemma tx_cost_iff tx gas_price protocol_version c :
  Forall action_ok (tx_actions tx) → in_u 128 gas_price →
  tx_cost as_bytes get_account_type fees wasm_config tx gas_price protocol_version = ROk c ↔
    burnt_gas tx <= umax 64 ∧ receipt_gas (tx_actions tx) (tx_receiver_id tx) <= umax 64 ∧
    ∃ p, price_of_receipt tx gas_price protocol_version = ROk p ∧
      let total := gas_price * burnt_gas tx + p * receipt_gas (tx_actions tx) (tx_receiver_id tx) + deposits tx in
      total <= umax 128 ∧
      c = mkTransactionCost (burnt_gas tx) (receipt_gas (tx_actions tx) (tx_receiver_id tx)) p total (gas_price * burnt_gas tx).
Proof.
  intros Htx Hgp. destruct (costs_nonneg (tx_actions tx) tx (tx_receiver_id tx) Htx Htx) as (Ha & Hr & Hb & Hd).
  pose proof (exec_column_ok Hfees action_new_action_receipt) as He. pose proof (send_column_ok (tx_sir tx) Hfees action_new_action_receipt) as Hs.
  unfold in_u in He, Hs. destruct (total_send_exact (tx_sir tx) (tx_receiver_id tx) _ Htx) as [Hs0 _], (total_exec_exact (tx_receiver_id tx) _ Htx) as [He0 _].
  destruct (total_prepaid_exact _ Htx) as [Hp0 _], (total_prepaid_send_exact _ Htx) as [Hq0 _].
  assert (0 <= gas_price) by apply Hgp. unfold tx_cost, safe_add_gas. fold (tx_sir tx).
  rewrite (exact_bind_iff 64 _ _ _ _ (total_send_exact (tx_sir tx) (tx_receiver_id tx) _ Htx)).
  rewrite (exact_bind_iff 64 _ (burnt_gas tx)) by (apply exact_safe_add; lia).
  rewrite (exact_bind_iff 64 _ _ _ _ (total_prepaid_exact _ Htx)), (exact_bind_iff 64 _ _ _ _ (total_prepaid_send_exact _ Htx)).
  rewrite (exact_bind_iff 64 _ (attached_gas (tx_actions tx))) by (apply exact_safe_add; lia).
  fold (price_of_receipt tx gas_price protocol_version). rewrite price_bind_iff. split.
  - intros (_ & Hbu & _ & _ & _ & p & Hp & Hc). pose proof (price_nonneg _ _ _ _ Hgp Hp) as Hp'. revert Hc.
    rewrite (exact_bind_iff 64 _ (attached_gas (tx_actions tx) + Costs.exec_fee receipt_fee)) by (apply exact_safe_add; lia).
    rewrite (exact_bind_iff 64 _ _ _ _ (total_exec_exact (tx_receiver_id tx) _ Htx)).
    rewrite (exact_bind_iff 64 _ (receipt_gas (tx_actions tx) (tx_receiver_id tx))) by (apply exact_safe_add; lia).
    rewrite balances_iff by (done || lia). intros (_ & _ & Hrg & Hc). eauto.
  - intros (Hbu & Hrg & p & Hp & Hc). pose proof (price_nonneg _ _ _ _ Hgp Hp) as Hp'.
    pose proof (eq_refl (burnt_gas tx)) as Eb. pose proof (eq_refl (receipt_gas (tx_actions tx) (tx_receiver_id tx))) as Er.
    pose proof (eq_refl (attached_gas (tx_actions tx))) as Ea. unfold burnt_gas at 2 in Eb. unfold receipt_gas at 2 in Er. unfold attached_gas at 2 in Ea.
    split_and!; try lia. exists p. split; [done|]. rewrite <-balances_iff in Hc by (done || lia).
    rewrite (exact_bind_iff 64 _ (attached_gas (tx_actions tx) + Costs.exec_fee receipt_fee)) by (apply exact_safe_add; lia).
    rewrite (exact_bind_iff 64 _ _ _ _ (total_exec_exact (tx_receiver_id tx) _ Htx)).
    rewrite (exact_bind_iff 64 _ (receipt_gas (tx_actions tx) (tx_receiver_id tx))) by (apply exact_safe_add; lia).
    split_and!; (done || lia).
Qed.

(** The gas of a receipt does not depend on the order of the additions. *)
Lemma congestion_gas_exact l receiver :
  Forall action_ok l →
  exact 64 (action_receipt_congestion_gas as_bytes get_account_type fees wasm_config l receiver) (receipt_gas l receiver).
Proof.
  intros Hl. destruct (total_prepaid_exact _ Hl) as [Hp0 _], (total_prepaid_send_exact _ Hl) as [Hq0 _], (total_exec_exact receiver _ Hl) as [He0 _].
  pose proof (exec_column_ok Hfees action_new_action_receipt) as He. unfold in_u in He.
  split; [unfold receipt_gas, attached_gas; lia|]. intros x. unfold action_receipt_congestion_gas, safe_add_gas.
  rewrite (exact_bind_iff 64 _ _ _ _ (total_exec_exact receiver _ Hl)).
  rewrite (exact_bind_iff 64 _ (sum_Z (exec_cost receiver <$> l) + Costs.exec_fee receipt_fee)) by (apply exact_safe_add; lia).
  rewrite (exact_bind_iff 64 _ _ _ _ (total_prepaid_send_exact _ Hl)).
  rewrite (exact_bind_iff 64 _ (sum_Z (exec_cost receiver <$> l) + Costs.exec_fee receipt_fee + sum_Z (prepaid_send_cost <$> l))) by (apply exact_safe_add; lia).
  rewrite (exact_bind_iff 64 _ _ _ _ (total_prepaid_exact _ Hl)). unfold receipt_gas, attached_gas.
  destruct (exact_safe_add 64 (sum_Z (prepaid_of <$> l)) (sum_Z (exec_cost receiver <$> l) + Costs.exec_fee receipt_fee + sum_Z (prepaid_send_cost <$> l))) as [_ Hx]; [lia..|].
  rewrite Hx. split; [intros (? & ? & ? & ? & ? & -> & ?); lia|]. intros [-> ?]. split_and!; lia.
Qed.

(** C37: The cost of a transaction is exact.  The calculation returns a result if and only if the burnt gas, the
    gas bought for the receipt and the total price fit their widths, and then the result is the sum of the
    fees of all actions, the actions inside delegate actions included; the total is the price of the burnt
    gas, the price of the gas for the receipt and the deposits.  The gas bought for the receipt is the gas that
    congestion control counts for it. *)
Theorem transaction_cost_exact (tx : Tx) (gas_price protocol_version : Z) (c : TransactionCost) :
  Forall action_ok (tx_actions tx) → in_u 128 gas_price →
  (tx_cost as_bytes get_account_type fees wasm_config tx gas_price protocol_version = ROk c ↔
    burnt_gas tx <= umax 64 ∧ receipt_gas (tx_actions tx) (tx_receiver_id tx) <= umax 64 ∧
    ∃ p, price_of_receipt tx gas_price protocol_version = ROk p ∧
      let total := gas_price * burnt_gas tx + p * receipt_gas (tx_actions tx) (tx_receiver_id tx) + deposits tx in
      total <= umax 128 ∧
      c = mkTransactionCost (burnt_gas tx) (receipt_gas (tx_actions tx) (tx_receiver_id tx)) p total (gas_price * burnt_gas tx)) ∧
  (tx_cost as_bytes get_account_type fees wasm_config tx gas_price protocol_version = ROk c →
    action_receipt_congestion_gas as_bytes get_account_type fees wasm_config (tx_actions tx) (tx_receiver_id tx) = ROk (gas_remaining c)).
Proof.
  intros Htx Hgp. split; [by apply tx_cost_iff|]. intros (_ & Hr & p & _ & _ & ->)%tx_cost_iff; [|done..].
  by apply (exact_value 64); [apply congestion_gas_exact|].
Qed.
End costs.

(** The unit tests of the inflated price, with rounding. *)
Example inflated_prices :
  safe_gas_price_inflated 10000 (mkRational 101 100) 1 = ROk 10100 ∧
  safe_gas_price_inflated 10000 (mkRational 101 100) 2 = ROk 10201 ∧
  safe_gas_price_inflated 10000 (mkRational 101 100) 3 = ROk 10304 ∧
  safe_gas_price_inflated 10000 (mkRational 101 100) 32 = ROk 13750.
Proof. by vm_compute. Qed.

(** A transaction that relays a function call and a transfer to an implicit account. *)
Module FeeExample.
Definition as_bytes (a : Z) : bytes := [a].
Definition get_account_type (a : Z) : AccountType := if a =? 7 then NearImplicitAccount else NamedAccount.
Definition wasm_config : VmConfig := mkVmConfig true true 4194304.
Definition relayed : SignedDelegateAction Z (Action Z) :=
  mkSignedDelegateAction (mkDelegateAction 5 7 [FunctionCall [102; 111] [1; 2; 3] 30 4; Transfer 9] 1 2 (ED25519 [])) [].
Definition tx : Transaction := TransactionIsV0 (mkTransactionV0 5 (ED25519 []) 1 6 [] [Delegate relayed; Transfer 100; DeployContract [0; 97; 115; 109]]).
Definition cost : TransactionCost :=
  match tx_cost as_bytes get_account_type example_fees wasm_config tx 10 80 with ROk c => c | _ => mkTransactionCost 0 0 0 0 0 end.
End FeeExample.

Lemma transaction_cost_exact_witness :
  action_receipt_congestion_gas FeeExample.as_bytes FeeExample.get_account_type example_fees FeeExample.wasm_config
    (tx_actions FeeExample.tx) (tx_receiver_id FeeExample.tx) = ROk (gas_remaining FeeExample.cost).
Proof.
  apply (transaction_cost_exact FeeExample.as_bytes FeeExample.get_account_type example_fees FeeExample.wasm_config) with (gas_price := 10) (protocol_version := 80).
  - intros c. split_and!; destruct c; by vm_compute.
  - repeat constructor; by vm_compute.
  - by vm_compute.
  - by vm_compute.
Defined.
