(* ===== verification/Receipt.v ===== *)
(** Receipts (core/primitives/src/receipt.rs): their versions and the bytes under which they are stored,
    the shard that receives them, refunds, and the gas and size that congestion control counts for
    them (runtime/runtime/src/congestion_control.rs).

    Account ids and the derived serialisations come with instances of [Borsh]; the implementations
    that the file writes out by hand are modelled: the versions of a receipt are told apart by
    the first two bytes. *)

From S2P Require Import Prelude Errors Borsh Costs TrieKey Fees ShardLayout.
Local Open Scope Z_scope.

(** * Data *)

Section types.
Context {AccountId : Type}.

Record DataReceiver : Type := mkDataReceiver { dr_data_id : bytes; dr_receiver_id : AccountId }.

Record ActionReceipt : Type := mkActionReceipt {
  signer_id : AccountId;
  signer_public_key : PublicKey;
  gas_price : Z;
  output_data_receivers : list DataReceiver;
  input_data_ids : list bytes;
  receipt_actions : list (Action AccountId)
}.

Record DataReceipt : Type := mkDataReceipt { data_id : bytes; data : option bytes }.

Record GlobalContractDistributionReceipt : Type := mkDistribution {
  contract_id : GlobalContractIdentifier AccountId;
  target_shard : Z;
  already_delivered_shards : list Z;
  contract_code : bytes
}.

Inductive ReceiptEnum : Type :=
| ActionR (r : ActionReceipt)
| DataR (r : DataReceipt)
| PromiseYield (r : ActionReceipt)
| PromiseResume (r : DataReceipt)
| GlobalContractDistribution (r : GlobalContractDistributionReceipt).

Record ReceiptV0 : Type := mkReceiptV0 {
  v0_predecessor_id : AccountId;
  v0_receiver_id : AccountId;
  v0_receipt_id : bytes;
  v0_receipt : ReceiptEnum
}.

Record ReceiptV1 : Type := mkReceiptV1 {
  v1_predecessor_id : AccountId;
  v1_receiver_id : AccountId;
  v1_receipt_id : bytes;
  v1_receipt : ReceiptEnum;
  v1_priority : Z
}.

Inductive Receipt : Type :=
| ReceiptIsV0 (r : ReceiptV0)
| ReceiptIsV1 (r : ReceiptV1).

Record StateStoredReceiptMetadata : Type := mkMetadata { congestion_gas : Z; congestion_size : Z }.

Inductive StateStoredReceipt : Type :=
| StoredV0 (receipt : Receipt) (metadata : StateStoredReceiptMetadata)
| StoredV1 (receipt : Receipt) (metadata : StateStoredReceiptMetadata).

Inductive ReceiptOrStateStoredReceipt : Type :=
| PlainReceipt (r : Receipt)
| StoredReceipt (r : StateStoredReceipt).

Inductive ReceiptPriority : Type := Priority (value : Z) | NoPriority.
End types.
Arguments DataReceiver : clear implicits.
Arguments ActionReceipt : clear implicits.
Arguments GlobalContractDistributionReceipt : clear implicits.
Arguments ReceiptEnum : clear implicits.
Arguments ReceiptV0 : clear implicits.
Arguments ReceiptV1 : clear implicits.
Arguments Receipt : clear implicits.
Arguments StateStoredReceipt : clear implicits.
Arguments ReceiptOrStateStoredReceipt : clear implicits.

(** * Accessors *)

Section accessors.
Context {AccountId : Type}.
Implicit Types r : Receipt AccountId.

Definition receiver_id r : AccountId := match r with ReceiptIsV0 r => v0_receiver_id r | ReceiptIsV1 r => v1_receiver_id r end.
Definition predecessor_id r : AccountId := match r with ReceiptIsV0 r => v0_predecessor_id r | ReceiptIsV1 r => v1_predecessor_id r end.
Definition receipt r : ReceiptEnum AccountId := match r with ReceiptIsV0 r => v0_receipt r | ReceiptIsV1 r => v1_receipt r end.
Definition receipt_id r : bytes := match r with ReceiptIsV0 r => v0_receipt_id r | ReceiptIsV1 r => v1_receipt_id r end.
Definition priority r : ReceiptPriority := match r with ReceiptIsV0 _ => NoPriority | ReceiptIsV1 r => Priority (v1_priority r) end.

Definition priority_value (p : ReceiptPriority) : Z := match p with Priority value => value | NoPriority => 0 end.

Definition new_owned r (m : StateStoredReceiptMetadata) : StateStoredReceipt AccountId := StoredV1 r m.

Definition stored_receipt (s : StateStoredReceipt AccountId) : Receipt AccountId := match s with StoredV0 r _ | StoredV1 r _ => r end.
Definition metadata (s : StateStoredReceipt AccountId) : StateStoredReceiptMetadata := match s with StoredV0 _ m | StoredV1 _ m => m end.
Definition stored_updates_metadatas (s : StateStoredReceipt AccountId) : bool := match s with StoredV0 _ _ => false | StoredV1 _ _ => true end.

Definition into_receipt (r : ReceiptOrStateStoredReceipt AccountId) : Receipt AccountId :=
  match r with PlainReceipt r => r | StoredReceipt s => stored_receipt s end.

Definition should_update_outgoing_metadatas (r : ReceiptOrStateStoredReceipt AccountId) : bool :=
  match r with PlainReceipt _ => false | StoredReceipt s => stored_updates_metadatas s end.
End accessors.

(** * Serialisation *)

Definition STATE_STORED_RECEIPT_TAG : Z := 255.

Section serialisation.
Context {AccountId : Type} `{!Borsh AccountId} `{!Borsh (ReceiptEnum AccountId)}.

(** A [u64] of a derived implementation. *)
Definition decode_u64 : bytes → option (Z * bytes) := borsh_decode (Borsh := borsh_uint 8).
Definition encode_u64 : Z → bytes := borsh_encode (Borsh := borsh_uint 8).

(** The derived implementations: the fields in their order. *)
#[export] Instance ReceiptV0_borsh : Borsh (ReceiptV0 AccountId) := {|
  borsh_encode r := borsh_encode (v0_predecessor_id r) ++ borsh_encode (v0_receiver_id r) ++ v0_receipt_id r ++ borsh_encode (v0_receipt r);
  borsh_decode bytes :=
    '(p, bytes) ← borsh_decode bytes;
    '(r, bytes) ← borsh_decode bytes;
    '(i, bytes) ← read_bytes 32 bytes;
    '(e, bytes) ← borsh_decode bytes;
    Some (mkReceiptV0 p r i e, bytes)
|}.

#[export] Instance ReceiptV1_borsh : Borsh (ReceiptV1 AccountId) := {|
  borsh_encode r := borsh_encode (v1_predecessor_id r) ++ borsh_encode (v1_receiver_id r) ++ v1_receipt_id r ++ borsh_encode (v1_receipt r) ++
    encode_u64 (v1_priority r);
  borsh_decode bytes :=
    '(p, bytes) ← borsh_decode bytes;
    '(r, bytes) ← borsh_decode bytes;
    '(i, bytes) ← read_bytes 32 bytes;
    '(e, bytes) ← borsh_decode bytes;
    '(v, bytes) ← decode_u64 bytes;
    Some (mkReceiptV1 p r i e v, bytes)
|}.

Definition receipt_serialize (r : Receipt AccountId) : bytes :=
  match r with
  | ReceiptIsV0 r => borsh_encode r
  | ReceiptIsV1 r => 1 :: borsh_encode r
  end.

Definition receipt_deserialize (bytes : bytes) : option (Receipt AccountId * Fees.bytes) :=
  match bytes with
  | u1 :: u2 :: rest =>
      let is_v0 := u2 =? 0 in
      let prefix := if is_v0 then [u1; u2] else [u2] in
      let reader := prefix ++ rest in
      if is_v0 then '(r, rest) ← borsh_decode reader; Some (ReceiptIsV0 r, rest)
      else '(r, rest) ← borsh_decode reader; Some (ReceiptIsV1 r, rest)
  | _ => None
  end.

#[export] Instance Receipt_borsh : Borsh (Receipt AccountId) := {|
  borsh_encode := receipt_serialize;
  borsh_decode := receipt_deserialize
|}.

(** The derived form of [StateStoredReceiptV0] and [StateStoredReceiptV1]. *)
Definition stored_body (r : Receipt AccountId) (m : StateStoredReceiptMetadata) : bytes :=
  borsh_encode r ++ encode_u64 (congestion_gas m) ++ encode_u64 (congestion_size m).

Definition read_stored_body (bytes : bytes) : option (Receipt AccountId * StateStoredReceiptMetadata * Fees.bytes) :=
  '(r, bytes) ← borsh_decode bytes;
  '(g, bytes) ← decode_u64 bytes;
  '(s, bytes) ← decode_u64 bytes;
  Some (r, mkMetadata g s, bytes).

Definition stored_serialize (s : StateStoredReceipt AccountId) : bytes :=
  STATE_STORED_RECEIPT_TAG :: STATE_STORED_RECEIPT_TAG ::
    match s with
    | StoredV0 r m => 0 :: stored_body r m
    | StoredV1 r m => 1 :: stored_body r m
    end.

Definition stored_deserialize (bytes : bytes) : option (StateStoredReceipt AccountId * Fees.bytes) :=
  match bytes with
  | u1 :: u2 :: u3 :: bytes =>
      if negb (u1 =? STATE_STORED_RECEIPT_TAG) || negb (u2 =? STATE_STORED_RECEIPT_TAG) then None
      else if u3 =? 0 then '(r, m, bytes) ← read_stored_body bytes; Some (StoredV0 r m, bytes)
      else if u3 =? 1 then '(r, m, bytes) ← read_stored_body bytes; Some (StoredV1 r m, bytes)
      else None
  | _ => None
  end.

Definition receipt_or_stored_serialize (r : ReceiptOrStateStoredReceipt AccountId) : bytes :=
  match r with PlainReceipt r => borsh_encode r | StoredReceipt s => stored_serialize s end.

Definition receipt_or_stored_deserialize (bytes : bytes) : option (ReceiptOrStateStoredReceipt AccountId * Fees.bytes) :=
  match bytes with
  | u1 :: u2 :: rest =>
      let reader := [u1; u2] ++ rest in
      if (u1 =? STATE_STORED_RECEIPT_TAG) && (u2 =? STATE_STORED_RECEIPT_TAG)
      then '(s, rest) ← stored_deserialize reader; Some (StoredReceipt s, rest)
      else '(r, rest) ← borsh_decode reader; Some (PlainReceipt r, rest)
  | _ => None
  end.

#[export] Instance ReceiptOrStateStoredReceipt_borsh : Borsh (ReceiptOrStateStoredReceipt AccountId) := {|
  borsh_encode := receipt_or_stored_serialize;
  borsh_decode := receipt_or_stored_deserialize
|}.

(** [borsh::object_length], as a [u64]. *)
Definition compute_receipt_size (r : Receipt AccountId) : Res IntegerOverflowError Z :=
  let size := Z.of_nat (length (borsh_encode r)) in
  if size <=? umax 64 then mret size else RErr IntegerOverflow.

Definition receipt_size (r : ReceiptOrStateStoredReceipt AccountId) : Res IntegerOverflowError Z :=
  match r with
  | PlainReceipt r => compute_receipt_size r
  | StoredReceipt s => mret (congestion_size (metadata s))
  end.
End serialisation.

(** * Gas, shards and refunds *)

Section operations.
Context {AccountId : Type} `{!EqDecision AccountId} (as_bytes : AccountId → bytes) (get_account_type : AccountId → AccountType).
Context (account_le : relation AccountId) `{!RelDecision account_le} (hash_bytes : AccountId → list Z).
Context (fees : RuntimeFeesConfig) (wasm_config : VmConfig) (system : AccountId).

Definition compute_receipt_congestion_gas (r : Receipt AccountId) : Res IntegerOverflowError Z :=
  match receipt r with
  | ActionR action_receipt =>
      action_receipt_congestion_gas as_bytes get_account_type fees wasm_config (receipt_actions action_receipt) (receiver_id r)
  | DataR _ | PromiseYield _ | PromiseResume _ | GlobalContractDistribution _ => mret 0
  end.

Definition receipt_congestion_gas (r : ReceiptOrStateStoredReceipt AccountId) : Res IntegerOverflowError Z :=
  match r with
  | PlainReceipt r => compute_receipt_congestion_gas r
  | StoredReceipt s => mret (congestion_gas (metadata s))
  end.

Definition receiver_shard_id (r : Receipt AccountId) (layout : ShardLayout) : Res EpochError Z :=
  match receipt r with
  | ActionR _ | DataR _ | PromiseYield _ | PromiseResume _ =>
      res_expect (account_id_to_shard_id account_le hash_bytes layout (receiver_id r))
  | GlobalContractDistribution g =>
      if bool_decide (target_shard g ∈ shard_ids layout) then mret (target_shard g)
      else
        match get_children_shards_ids layout (target_shard g) with
        | None => RErr (ShardingError (target_shard g))
        | Some children_shards => res_expect (children_shards !! 0%nat)
        end
  end.

(** A transfer from the system; the receipt id is filled in later. *)
Definition refund_receipt (receiver : AccountId) (refund : Z) (signer : AccountId) (key : PublicKey) : ReceiptEnum AccountId :=
  ActionR (mkActionReceipt signer key 0 [] [] [Transfer refund]).

Definition refund (receiver : AccountId) (e : ReceiptEnum AccountId) (p : ReceiptPriority) : Receipt AccountId :=
  match p with
  | Priority p => ReceiptIsV1 (mkReceiptV1 system receiver (replicate 32 0) e p)
  | NoPriority => ReceiptIsV0 (mkReceiptV0 system receiver (replicate 32 0) e)
  end.

Definition new_balance_refund (receiver : AccountId) (amount : Z) (p : ReceiptPriority) : Receipt AccountId :=
  refund receiver (refund_receipt receiver amount system (ED25519 (replicate 32 0))) p.

Definition new_gas_refund (receiver : AccountId) (amount : Z) (key : PublicKey) (p : ReceiptPriority) : Receipt AccountId :=
  refund receiver (refund_receipt receiver amount receiver key) p.

Definition new_global_contract_distribution (predecessor : AccountId) (r : GlobalContractDistributionReceipt AccountId)
    : Receipt AccountId :=
  ReceiptIsV0 (mkReceiptV0 predecessor system (replicate 32 0) (GlobalContractDistribution r)).
End operations.

(** * Stored receipts can be read *)

(** The documented form of account ids: a string of 2 to 64 bytes after its length. *)
Class AccountIdBorsh {AccountId : Type} `{!Borsh AccountId} (as_bytes : AccountId → bytes) : Prop := {
  account_borsh_ok :: BorshOk AccountId (λ _, True);
  account_encode a : borsh_encode a = to_le_bytes 4 (Z.of_nat (length (as_bytes a))) ++ as_bytes a;
  account_length a : (2 ≤ length (as_bytes a) ≤ 64)%nat
}.

Section round_trip.
Context {AccountId : Type} `{!Borsh AccountId} `{!Borsh (ReceiptEnum AccountId)} (as_bytes : AccountId → bytes) (enum_ok : ReceiptEnum AccountId → Prop).
Context `{!AccountIdBorsh as_bytes} `{!BorshOk (ReceiptEnum AccountId) enum_ok}.

Definition receipt_ok (r : Receipt AccountId) : Prop :=
  length (receipt_id r) = 32%nat ∧ enum_ok (receipt r) ∧ in_u 64 (priority_value (priority r)).

Definition metadata_ok (m : StateStoredReceiptMetadata) : Prop := in_u 64 (congestion_gas m) ∧ in_u 64 (congestion_size m).

Definition stored_ok (r : ReceiptOrStateStoredReceipt AccountId) : Prop :=
  match r with PlainReceipt r => receipt_ok r | StoredReceipt s => receipt_ok (stored_receipt s) ∧ metadata_ok (metadata s) end.

Lemma decode_encode_u64 x rest : in_u 64 x → decode_u64 (encode_u64 x ++ rest) = Some (x, rest).
Proof. intros Hx. apply (borsh_uint_ok 8). unfold in_u, umax in Hx. change (256 ^ Z.of_nat 8) with (2 ^ 64). lia. Qed.

Lemma read_bytes_app n l rest : length l = n → read_bytes n (l ++ rest) = Some (l, rest).
Proof.
  intros <-. unfold read_bytes. rewrite (proj2 (Nat.ltb_ge _ _)) by (rewrite length_app; lia).
  by rewrite take_app_length, drop_app_length.
Qed.

(** The length of an account id is a small number: its first byte is the length and the second byte zero. *)
Lemma account_head (a : AccountId) : ∃ n rest, borsh_encode a = n :: 0 :: rest ∧ 2 <= n <= 64.
Proof.
  pose proof (account_length a) as Hl. rewrite account_encode. set (n := Z.of_nat (length (as_bytes a))).
  exists n. assert (0 <= n < 256) as Hn by lia. rewrite !to_le_bytes_S, (Z.mod_small n 256), (Z.div_small n 256) by done. cbn [app].
  eexists. split; [done|lia].
Qed.

Lemma receipt_v0_roundtrip (r : ReceiptV0 AccountId) rest : receipt_ok (ReceiptIsV0 r) → borsh_decode (borsh_encode r ++ rest) = Some (r, rest).
Proof.
  destruct r as [p v i e]. intros (Hi & He & _). cbn [borsh_decode borsh_encode ReceiptV0_borsh v0_predecessor_id v0_receiver_id v0_receipt_id v0_receipt receipt_id receipt] in *.
  rewrite <-!app_assoc. rewrite !borsh_roundtrip by done. cbn [mbind option_bind]. rewrite borsh_roundtrip by done. cbn [mbind option_bind].
  rewrite read_bytes_app by done. cbn [mbind option_bind]. by rewrite borsh_roundtrip.
Qed.

Lemma receipt_v1_roundtrip (r : ReceiptV1 AccountId) rest : receipt_ok (ReceiptIsV1 r) → borsh_decode (borsh_encode r ++ rest) = Some (r, rest).
Proof.
  destruct r as [p v i e pr]. intros (Hi & He & Hp). cbn [borsh_decode borsh_encode ReceiptV1_borsh v1_predecessor_id v1_receiver_id v1_receipt_id v1_receipt v1_priority receipt_id receipt priority priority_value] in *.
  rewrite <-!app_assoc. rewrite borsh_roundtrip by done. cbn [mbind option_bind]. rewrite borsh_roundtrip by done. cbn [mbind option_bind].
  rewrite read_bytes_app by done. cbn [mbind option_bind]. rewrite borsh_roundtrip by done. cbn [mbind option_bind]. by rewrite decode_encode_u64.
Qed.

(** The first two bytes of a receipt tell the versions apart, and never are the tag of a stored receipt. *)
Lemma receipt_head (r : Receipt AccountId) : ∃ u1 u2 rest, borsh_encode r = u1 :: u2 :: rest ∧ u1 < 255 ∧
  match r with ReceiptIsV0 _ => u2 = 0 | ReceiptIsV1 _ => u1 = 1 ∧ u2 ≠ 0 end.
Proof.
  destruct r as [[p v i e]|[p v i e pr]]; destruct (account_head p) as (n & l & E & Hn); cbn; rewrite E; cbn; do 3 eexists; split; [done|lia|done|].
  split; [lia|]. split; [done|lia].
Qed.

#[export] Instance receipt_roundtrip : BorshOk (Receipt AccountId) receipt_ok.
Proof.
  intros r rest Hr. destruct (receipt_head r) as (u1 & u2 & l & E & _ & Hv). rewrite E. cbn [app borsh_decode Receipt_borsh receipt_deserialize].
  destruct r as [r|r]; cbn [borsh_encode Receipt_borsh receipt_serialize] in E.
  - subst u2. rewrite Z.eqb_refl. change ([u1; 0] ++ l ++ rest) with ((u1 :: 0 :: l) ++ rest). rewrite <-E, receipt_v0_roundtrip by done. done.
  - destruct Hv as [-> Hu]. rewrite (proj2 (Z.eqb_neq _ _) Hu). apply (f_equal tail) in E. cbn [tail] in E. change ([u2] ++ l ++ rest) with ((u2 :: l) ++ rest).
    rewrite <-E, receipt_v1_roundtrip by done. done.
Qed.

Lemma read_stored_body_app r m rest : receipt_ok r → metadata_ok m → read_stored_body (stored_body r m ++ rest) = Some (r, m, rest).
Proof.
  intros Hr [Hg Hs]. unfold read_stored_body, stored_body. rewrite <-!app_assoc, (borsh_roundtrip (ok := receipt_ok)) by done. cbn [mbind option_bind].
  rewrite decode_encode_u64 by done. cbn [mbind option_bind]. rewrite decode_encode_u64 by done. by destruct m.
Qed.

Lemma stored_roundtrip (s : StateStoredReceipt AccountId) rest :
  receipt_ok (stored_receipt s) → metadata_ok (metadata s) → stored_deserialize (stored_serialize s ++ rest) = Some (s, rest).
Proof. intros Hr Hm. destruct s as [r m|r m]; cbn [stored_serialize stored_deserialize app stored_receipt metadata] in *; rewrite !Z.eqb_refl; cbn [negb orb Z.eqb]; by rewrite read_stored_body_app. Qed.

#[export] Instance receipt_or_stored_roundtrip : BorshOk (ReceiptOrStateStoredReceipt AccountId) stored_ok.
Proof.
  intros [r|s] rest Hr; cbn [borsh_encode borsh_decode ReceiptOrStateStoredReceipt_borsh receipt_or_stored_serialize stored_ok] in *.
  - destruct (receipt_head r) as (u1 & u2 & l & E & Hu & _). rewrite E. cbn [app receipt_or_stored_deserialize].
    unfold STATE_STORED_RECEIPT_TAG. rewrite (proj2 (Z.eqb_neq u1 255)) by lia. cbn [andb].
    change (u1 :: u2 :: l ++ rest) with ((u1 :: u2 :: l) ++ rest). rewrite <-E, (borsh_roundtrip (ok := receipt_ok)) by done. done.
  - destruct Hr as [Hr Hm]. pose proof (stored_roundtrip s rest Hr Hm) as Hs. cbn [stored_serialize app receipt_or_stored_deserialize] in *.
    rewrite !Z.eqb_refl. cbn [andb]. by rewrite Hs.
Qed.

(** Receipts that were written to the state can be read back, whatever follows them, in the three forms that the
    state may hold: receipts with the metadata of either version, and plain receipts of either version, which
    older versions of the program wrote and which are read as plain receipts. *)
Theorem stored_receipts_read_back (r : ReceiptOrStateStoredReceipt AccountId) (p : Receipt AccountId) (rest : bytes) :
  stored_ok r → receipt_ok p →
  receipt_or_stored_deserialize (receipt_or_stored_serialize r ++ rest) = Some (r, rest) ∧
  receipt_deserialize (receipt_serialize p ++ rest) = Some (p, rest) ∧
  receipt_or_stored_deserialize (receipt_serialize p ++ rest) = Some (PlainReceipt p, rest).
Proof.
  intros Hr Hp. split_and!; [by apply receipt_or_stored_roundtrip|by apply receipt_roundtrip|by apply (receipt_or_stored_roundtrip (PlainReceipt p))].
Qed.
End round_trip.

(** Two accounts, data receipts without data and transfers. *)
Module ReceiptExample.
Definition as_bytes (a : bool) : bytes := if a then [98; 111; 98] else [97; 108; 105; 99; 101].

#[export] Instance account_borsh : Borsh bool := {|
  borsh_encode a := to_le_bytes 4 (Z.of_nat (length (as_bytes a))) ++ as_bytes a;
  borsh_decode bytes :=
    match bytes with
    | 3 :: _ => Some (true, drop 7 bytes)
    | _ :: _ => Some (false, drop 9 bytes)
    | [] => None
    end
|}.

#[export] Instance account_ids : AccountIdBorsh as_bytes.
Proof. split; [by intros [|] rest _|done|intros [|]; cbn; lia]. Qed.

Definition enum_ok (e : ReceiptEnum bool) : Prop :=
  match e with
  | DataR (mkDataReceipt i None) => length i = 32%nat
  | ActionR (mkActionReceipt _ public_key price [] ids [Transfer deposit]) =>
      public_key_ok public_key ∧ in_u 128 price ∧ in_u 128 deposit ∧ Forall (λ d, length d = 32%nat) ids ∧ Z.of_nat (length ids) <= umax 32
  | _ => False
  end.

#[export] Instance enum_borsh : Borsh (ReceiptEnum bool) := {|
  borsh_encode e :=
    match e with
    | DataR (mkDataReceipt i None) => 1 :: i ++ [0]
    | ActionR (mkActionReceipt signer public_key price [] ids [Transfer deposit]) =>
        0 :: borsh_encode signer ++ borsh_encode public_key ++ to_le_bytes 16 price ++ [0; 0; 0; 0] ++ encode_vec (λ d, d) ids ++ [1; 0; 0; 0; 3] ++ to_le_bytes 16 deposit
    | _ => []
    end;
  borsh_decode bytes :=
    match bytes with
    | 0 :: bytes =>
        '(signer, bytes) ← borsh_decode bytes;
        '(public_key, bytes) ← borsh_decode bytes;
        '(price, bytes) ← borsh_decode (Borsh := borsh_uint 16) bytes;
        '(ids, bytes) ← decode_vec (read_bytes 32) (drop 4 bytes);
        '(deposit, bytes) ← borsh_decode (Borsh := borsh_uint 16) (drop 5 bytes);
        Some (ActionR (mkActionReceipt signer public_key price [] ids [Transfer deposit]), bytes)
    | 1 :: bytes => '(i, bytes) ← read_bytes 32 bytes; Some (DataR (mkDataReceipt i None), tail bytes)
    | _ => None
    end
|}.

#[export] Instance enum_borsh_ok : BorshOk (ReceiptEnum bool) enum_ok.
Proof.
  intros [[signer public_key price [|] ids [|[] [|]]]|[i [|]]| | |] rest He; try done; cbn [borsh_encode borsh_decode enum_borsh enum_ok] in *; cbn [app]; rewrite <-!app_assoc; [|by rewrite read_bytes_app].
  destruct He as (Hk & Hp & Hd & Hi & Hn). rewrite account_borsh_ok by done. cbn [mbind option_bind]. rewrite (PublicKey_borsh_ok public_key) by done. cbn [mbind option_bind].
  unfold in_u, umax in *. rewrite (borsh_uint_ok 16 price) by (change (256 ^ Z.of_nat 16) with (2 ^ 128); lia). cbn [mbind option_bind app drop].
  rewrite drop_0, <-!app_assoc. rewrite (decode_vec_ok (λ d, d) (read_bytes 32) (λ d, length d = 32%nat)) by (try done; intros; by apply read_bytes_app). cbn [mbind option_bind app drop].
  rewrite drop_0. by rewrite (borsh_uint_ok 16 deposit) by (change (256 ^ Z.of_nat 16) with (2 ^ 128); lia).
Qed.

Definition plain : Receipt bool := ReceiptIsV0 (mkReceiptV0 true false (replicate 32 5) (DataR (mkDataReceipt (replicate 32 6) None))).
Definition stored : ReceiptOrStateStoredReceipt bool :=
  StoredReceipt (StoredV1 (ReceiptIsV1 (mkReceiptV1 false true (replicate 32 7) (DataR (mkDataReceipt (replicate 32 8) None)) 9)) (mkMetadata 1000 2000)).
End ReceiptExample.
Import ReceiptExample.

Lemma stored_receipts_read_back_witness :
  receipt_or_stored_deserialize (receipt_or_stored_serialize ReceiptExample.stored ++ [1; 2; 3]) = Some (ReceiptExample.stored, [1; 2; 3]).
Proof.
  apply (stored_receipts_read_back ReceiptExample.as_bytes ReceiptExample.enum_ok ReceiptExample.stored ReceiptExample.plain [1; 2; 3]);
    by vm_compute.
Defined.
