(* ===== verification/ReceiptManager.v ===== *)
(** The receipts that a contract call creates (runtime/runtime/src/receipt_manager.rs): the host functions of the virtual machine
    create receipts, add actions to them, and give function calls a weight by which the gas that is left at the end is
    distributed. *)

From S2P Require Import Prelude Errors Costs TrieKey Fees Receipt.
Local Open Scope Z_scope.

(** * Data *)

(** The errors of the host that these functions return. *)
Inductive HostError : Type :=
| InvalidReceiptIndex (receipt_index : nat)
| InvalidMethodName.

Section manager.
Context {AccountId : Type} (as_bytes : AccountId → bytes).

Record ActionReceiptMetadata : Type := mkActionReceiptMetadata {
  md_receiver_id : AccountId;
  md_output_data_receivers : list (DataReceiver AccountId);
  md_input_data_ids : list bytes;
  md_actions : list (Action AccountId);
  is_promise_yield : bool
}.

Record DataReceiptMetadata : Type := mkDataReceiptMetadata {
  md_data_id : bytes;
  md_data : option bytes;
  is_promise_resume : bool
}.

Record FunctionCallActionIndex : Type := mkCallIndex { receipt_index : nat; action_index : nat }.
#[local] Instance FunctionCallActionIndex_eq : EqDecision FunctionCallActionIndex.
Proof. solve_decision. Defined.

Record ReceiptManager : Type := mkReceiptManager {
  action_receipts : list ActionReceiptMetadata;
  data_receipts : list DataReceiptMetadata;
  gas_weights : list (FunctionCallActionIndex * Z);
  promise_yield_receipt_index : gmap bytes nat
}.

Definition default_manager : ReceiptManager := mkReceiptManager [] [] [] ∅.

Definition set_action_receipts (l : list ActionReceiptMetadata) (m : ReceiptManager) : ReceiptManager :=
  mkReceiptManager l (data_receipts m) (gas_weights m) (promise_yield_receipt_index m).
Definition push_data_receipt (d : DataReceiptMetadata) (m : ReceiptManager) : ReceiptManager :=
  mkReceiptManager (action_receipts m) (data_receipts m ++ [d]) (gas_weights m) (promise_yield_receipt_index m).
Definition push_gas_weight (w : FunctionCallActionIndex * Z) (m : ReceiptManager) : ReceiptManager :=
  mkReceiptManager (action_receipts m) (data_receipts m) (gas_weights m ++ [w]) (promise_yield_receipt_index m).
Definition set_yield_index (i : gmap bytes nat) (m : ReceiptManager) : ReceiptManager :=
  mkReceiptManager (action_receipts m) (data_receipts m) (gas_weights m) i.

Definition push_action (a : Action AccountId) (r : ActionReceiptMetadata) : ActionReceiptMetadata :=
  mkActionReceiptMetadata (md_receiver_id r) (md_output_data_receivers r) (md_input_data_ids r) (md_actions r ++ [a]) (is_promise_yield r).
Definition push_output_receiver (d : DataReceiver AccountId) (r : ActionReceiptMetadata) : ActionReceiptMetadata :=
  mkActionReceiptMetadata (md_receiver_id r) (md_output_data_receivers r ++ [d]) (md_input_data_ids r) (md_actions r) (is_promise_yield r).
Definition set_md_actions (l : list (Action AccountId)) (r : ActionReceiptMetadata) : ActionReceiptMetadata :=
  mkActionReceiptMetadata (md_receiver_id r) (md_output_data_receivers r) (md_input_data_ids r) l (is_promise_yield r).
Definition unset_promise_yield (r : ActionReceiptMetadata) : ActionReceiptMetadata :=
  mkActionReceiptMetadata (md_receiver_id r) (md_output_data_receivers r) (md_input_data_ids r) (md_actions r) false.

(** * Operations *)

Abbreviation RM := (M ReceiptManager HostError).

Definition update (f : ReceiptManager → ReceiptManager) : RM () := λ m, Ok () (f m).

Definition get_receipt_receiver (receipt_index : nat) (m : ReceiptManager) : option AccountId := md_receiver_id <$> action_receipts m !! receipt_index.

Definition append_action (receipt_index : nat) (action : Action AccountId) : RM nat :=
  m ← get_state;
  r ← expect (action_receipts m !! receipt_index);
  _ ← put_state (set_action_receipts (<[receipt_index := push_action action r]> (action_receipts m)) m);
  mret (length (md_actions r)).

(** The output of each of the receipts goes to the new one. *)
Fixpoint connect_outputs (receiver_id : AccountId) (l : list (bytes * nat)) : RM () :=
  match l with
  | [] => mret ()
  | (data_id, receipt_index) :: l =>
      m ← get_state;
      match action_receipts m !! receipt_index with
      | None => throw (InvalidReceiptIndex receipt_index)
      | Some r =>
          _ ← put_state (set_action_receipts (<[receipt_index := push_output_receiver (mkDataReceiver data_id receiver_id) r]> (action_receipts m)) m);
          connect_outputs receiver_id l
      end
  end.

(** Pushes a receipt and returns its index. *)
Definition push_receipt (r : ActionReceiptMetadata) : RM nat :=
  m ← get_state;
  _ ← put_state (set_action_receipts (action_receipts m ++ [r]) m);
  mret (length (action_receipts m)).

Definition create_action_receipt (input_data_ids : list bytes) (receipt_indices : list nat) (receiver_id : AccountId) : RM nat :=
  if bool_decide (length input_data_ids = length receipt_indices) then
    _ ← connect_outputs receiver_id (zip input_data_ids receipt_indices);
    push_receipt (mkActionReceiptMetadata receiver_id [] input_data_ids [] false)
  else panic.

Definition create_promise_yield_receipt (input_data_id : bytes) (receiver_id : AccountId) : RM nat :=
  new_receipt_index ← push_receipt (mkActionReceiptMetadata receiver_id [] [input_data_id] [] true);
  _ ← update (λ m, set_yield_index (<[input_data_id := new_receipt_index]> (promise_yield_receipt_index m)) m);
  mret new_receipt_index.

Definition create_promise_resume_receipt (data_id data : bytes) : RM () :=
  update (push_data_receipt (mkDataReceiptMetadata data_id (Some data) true)).

Definition checked_resolve_promise_yield (data_id data : bytes) : RM bool :=
  m ← get_state;
  match promise_yield_receipt_index m !! data_id with
  | None => mret false
  | Some receipt_index =>
      _ ← update (set_yield_index (delete data_id (promise_yield_receipt_index m)));
      r ← expect (action_receipts m !! receipt_index);
      if negb (is_promise_yield r) then panic
      else
        _ ← update (set_action_receipts (<[receipt_index := unset_promise_yield r]> (action_receipts m)));
        _ ← update (push_data_receipt (mkDataReceiptMetadata data_id (Some data) false));
        mret true
  end.

(** ** Actions *)

Definition append_action_create_account (receipt_index : nat) : RM () := _ ← append_action receipt_index CreateAccount; mret ().
Definition append_action_deploy_contract (receipt_index : nat) (code : bytes) : RM () := _ ← append_action receipt_index (DeployContract code); mret ().
Definition append_action_deploy_global_contract (receipt_index : nat) (code : bytes) (mode : GlobalContractDeployMode) : RM () :=
  _ ← append_action receipt_index (DeployGlobalContract code mode); mret ().
Definition append_use_deploy_global_contract (receipt_index : nat) (contract_id : GlobalContractIdentifier AccountId) : RM () :=
  _ ← append_action receipt_index (UseGlobalContract contract_id); mret ().

Definition append_action_function_call_weight (receipt_index : nat) (method_name args : bytes) (attached_deposit prepaid_gas gas_weight : Z) : RM () :=
  if negb (utf8_ok method_name) then throw InvalidMethodName
  else
    action_index ← append_action receipt_index (FunctionCall method_name args prepaid_gas attached_deposit);
    if 0 <? gas_weight then update (push_gas_weight (mkCallIndex receipt_index action_index, gas_weight)) else mret ().

Definition append_action_transfer (receipt_index : nat) (deposit : Z) : RM () := _ ← append_action receipt_index (Transfer deposit); mret ().
Definition append_action_stake (receipt_index : nat) (stake : Z) (public_key : PublicKey) : RM () := _ ← append_action receipt_index (Stake stake public_key); mret ().
Definition append_action_add_key_with_full_access (receipt_index : nat) (public_key : PublicKey) (nonce : Z) : RM () :=
  _ ← append_action receipt_index (AddKey public_key (mkAccessKey nonce PermFullAccess)); mret ().

Definition append_action_add_key_with_function_call (receipt_index : nat) (public_key : PublicKey) (nonce : Z) (allowance : option Z) (receiver_id : AccountId)
    (method_names : list bytes) : RM () :=
  if forallb utf8_ok method_names then
    _ ← append_action receipt_index (AddKey public_key (mkAccessKey nonce (PermFunctionCall (mkFunctionCallPermission allowance (as_bytes receiver_id) method_names)))); mret ()
  else throw InvalidMethodName.

Definition append_action_delete_key (receipt_index : nat) (public_key : PublicKey) : RM () := _ ← append_action receipt_index (DeleteKey public_key); mret ().
Definition append_action_delete_account (receipt_index : nat) (beneficiary_id : AccountId) : RM () := _ ← append_action receipt_index (DeleteAccount beneficiary_id); mret ().

(** ** Gas *)

Section gas.
Context {E : Type} (overflow : IntegerOverflowError → E).
Abbreviation GM := (M ReceiptManager E).

(** [action.gas = safe_add_gas(action.gas, gas)?] of the function call at an index. *)
Definition add_call_gas (index : FunctionCallActionIndex) (gas : Z) : GM () :=
  m ← get_state;
  r ← expect (action_receipts m !! receipt_index index);
  match md_actions r !! action_index index with
  | Some (FunctionCall method_name args g deposit) =>
      g ← run_res overflow (safe_add_gas g gas);
      put_state (set_action_receipts
        (<[receipt_index index := set_md_actions (<[action_index index := FunctionCall method_name args g deposit]> (md_actions r)) r]> (action_receipts m)) m)
  | _ => panic
  end.

Fixpoint distribute_loop (weights : list (FunctionCallActionIndex * Z)) (unused_gas gas_weight_sum distributed : Z) : GM Z :=
  match weights with
  | [] => mret distributed
  | (index, weight) :: rest =>
      let to_assign := (unused_gas * weight / gas_weight_sum) mod 2 ^ 64 in
      _ ← add_call_gas index to_assign;
      distributed ← expect (checked_add 64 distributed to_assign);
      match rest with
      | [] =>
          let remainder := (unused_gas - distributed) mod 2 ^ 64 in
          distributed ← expect (checked_add 64 distributed remainder);
          _ ← add_call_gas index remainder;
          mret distributed
      | _ :: _ => distribute_loop rest unused_gas gas_weight_sum distributed
      end
  end.

Definition distribute_gas (unused_gas : Z) : GM Z :=
  m ← get_state;
  let gas_weight_sum := sum_Z (gas_weights m).*2 in
  if (gas_weight_sum =? 0) || (unused_gas =? 0) then mret 0
  else
    distributed ← distribute_loop (gas_weights m) unused_gas gas_weight_sum 0;
    if unused_gas =? distributed then mret distributed else panic.
End gas.

(** * Correctness *)

(** ** The shares of the gas *)

Definition action_at (i : FunctionCallActionIndex) (l : list ActionReceiptMetadata) : option (Action AccountId) :=
  r ← l !! receipt_index i; md_actions r !! action_index i.

Definition add_gas (g : Z) (a : Action AccountId) : Action AccountId :=
  match a with FunctionCall method_name args gas deposit => FunctionCall method_name args (gas + g) deposit | a => a end.

Definition is_call (a : Action AccountId) : Prop := match a with FunctionCall _ _ _ _ => True | _ => False end.

(** One share, on the receipts. *)
Definition add_share (l : list ActionReceiptMetadata) (p : FunctionCallActionIndex * Z) : list ActionReceiptMetadata :=
  alter (λ r, set_md_actions (alter (add_gas p.2) (action_index p.1) (md_actions r)) r) (receipt_index p.1) l.

(** Every call gets its part by weight, rounded down; the last one what is left. *)
Fixpoint shares (weights : list (FunctionCallActionIndex * Z)) (unused_gas gas_weight_sum distributed : Z) : list (FunctionCallActionIndex * Z) :=
  match weights with
  | [] => []
  | (index, weight) :: rest =>
      match rest with
      | [] => [(index, unused_gas - distributed)]
      | _ :: _ =>
          let to_assign := unused_gas * weight / gas_weight_sum in
          (index, to_assign) :: shares rest unused_gas gas_weight_sum (distributed + to_assign)
      end
  end.

Definition receipts_gas (l : list ActionReceiptMetadata) : Z := sum_Z ((λ r, sum_Z (get_prepaid_gas <$> md_actions r)) <$> l).

Lemma shares_sum ws u sum d : ws ≠ [] → sum_Z (shares ws u sum d).*2 = u - d.
Proof.
  revert d. induction ws as [|[i w] ws IH]; intros d; [done|]. intros _. cbn [shares]. destruct ws as [|p ws]; [cbn; lia|].
  cbn [fmap list_fmap snd]. rewrite sum_Z_cons, IH by done. lia.
Qed.

Lemma shares_index ws u sum d : (shares ws u sum d).*1 = ws.*1.
Proof.
  revert d. induction ws as [|[i w] ws IH]; intros d; [done|]. cbn [shares]. destruct ws as [|p ws]; [done|]. cbn [fmap list_fmap fst]. f_equal. apply IH.
Qed.

(** ** Actions after shares *)

Lemma action_at_share l p i : action_at i (add_share l p) = if decide (i = p.1) then add_gas p.2 <$> action_at i l else action_at i l.
Proof.
  destruct i as [r a], p as [[r' a'] g]. unfold action_at, add_share. cbn [receipt_index action_index fst snd].
  destruct (decide (r = r')) as [->|Hr].
  - rewrite list_lookup_alter_eq. destruct (l !! r') as [md|]; [|by case_decide]. cbn [fmap option_fmap option_map mbind option_bind md_actions set_md_actions].
    destruct (decide (a = a')) as [->|Ha]; [rewrite list_lookup_alter_eq, decide_True by done; done|]. rewrite list_lookup_alter_ne by congruence. by rewrite decide_False by congruence.
  - rewrite list_lookup_alter_ne by congruence. by rewrite decide_False by congruence.
Qed.

Lemma receipts_gas_share l p a : action_at p.1 l = Some a → is_call a → receipts_gas (add_share l p) = receipts_gas l + p.2.
Proof.
  destruct p as [[r i] g]. unfold action_at, add_share, receipts_gas. cbn [receipt_index action_index fst snd]. intros Ha Hc.
  destruct (l !! r) as [md|] eqn:Hr; [|done]. cbn [mbind option_bind] in Ha. rewrite (sum_Z_alter _ _ _ _ md Hr). cbn [md_actions set_md_actions].
  rewrite (sum_Z_alter _ _ _ _ a Ha). destruct a; try done. cbn. lia.
Qed.

Lemma is_call_add_gas g a : is_call (add_gas g a) ↔ is_call a.
Proof. by destruct a. Qed.

(** ** The loop *)

Definition weights_ok (ws : list (FunctionCallActionIndex * Z)) (l : list ActionReceiptMetadata) : Prop :=
  Forall (λ p, (∃ a, action_at p.1 l = Some a ∧ is_call a) ∧ 0 < p.2 <= umax 64) ws ∧ NoDup ws.*1.

(** No gas is negative, and no action is a delegate action. *)
Definition plain_action (a : Action AccountId) : Prop := 0 <= get_prepaid_gas a ∧ non_delegate a = true.
Definition gas_nonneg (l : list ActionReceiptMetadata) : Prop := Forall (λ r, Forall plain_action (md_actions r)) l.

Lemma action_gas_le l i a : gas_nonneg l → action_at i l = Some a → 0 <= get_prepaid_gas a <= receipts_gas l.
Proof.
  intros HF Ha. unfold action_at in Ha. destruct (l !! receipt_index i) as [r|] eqn:Hr; [|done]. cbn [mbind option_bind] in Ha.
  pose proof (proj1 (Forall_lookup _ _) HF _ _ Hr) as Hn. cbn in Hn. pose proof (proj1 (Forall_lookup _ _) Hn _ _ Ha) as [Hg _].
  assert (Hr' : ∀ r', r' ∈ l → Forall (λ x, 0 <= x) (get_prepaid_gas <$> md_actions r')).
  { intros r' Hr'. apply Forall_fmap. eapply Forall_impl; [exact (proj1 (Forall_forall _ _) HF r' Hr')|]. by intros b [? _]. }
  split; [done|]. trans (sum_Z (get_prepaid_gas <$> md_actions r)).
  - apply sum_Z_elem; [apply Hr'; by eapply list_elem_of_lookup_2|]. apply list_elem_of_fmap_2. by eapply list_elem_of_lookup_2.
  - apply sum_Z_elem.
    + apply Forall_fmap, Forall_forall. intros r' Hin. cbn. by apply sum_Z_nonneg, Hr'.
    + apply (list_elem_of_fmap_2 (λ r, sum_Z (get_prepaid_gas <$> md_actions r))). by eapply list_elem_of_lookup_2.
Qed.

Lemma add_call_gas_ok {E} (overflow : IntegerOverflowError → E) m i a g : action_at i (action_receipts m) = Some a → is_call a → get_prepaid_gas a + g <= umax 64 →
  add_call_gas overflow i g m = Ok () (set_action_receipts (add_share (action_receipts m) (i, g)) m).
Proof.
  intros Ha Hc Hg. unfold add_call_gas. rewrite (bind_Ok get_state _ _ m m) by done. unfold action_at in Ha.
  destruct (action_receipts m !! receipt_index i) as [r|] eqn:Hr; [|done]. cbn [mbind option_bind] in Ha. cbn [expect]. rewrite (bind_Ok (mret r) _ _ r m) by done.
  rewrite Ha. destruct a as [| |name args gas dep| | | | | | | |]; try done. cbn in Hg. unfold safe_add_gas. rewrite checked_add_ok by lia. cbn [ok_or run_res].
  rewrite (bind_Ok (mret (gas + g)) _ _ (gas + g) m) by done. unfold put_state. do 2 f_equal. unfold add_share. cbn [fst snd].
  apply list_eq. intros k. destruct (decide (k = receipt_index i)) as [->|Hk].
  - rewrite list_lookup_insert_eq by (by eapply lookup_lt_Some). rewrite list_lookup_alter_eq, Hr. cbn. do 2 f_equal.
    apply list_eq. intros j. destruct (decide (j = action_index i)) as [->|Hj].
    + rewrite list_lookup_insert_eq by (by eapply lookup_lt_Some). by rewrite list_lookup_alter_eq, Ha.
    + by rewrite list_lookup_insert_ne, list_lookup_alter_ne.
  - by rewrite list_lookup_insert_ne, list_lookup_alter_ne.
Qed.

Definition apply_shares (l : list ActionReceiptMetadata) (ps : list (FunctionCallActionIndex * Z)) : list ActionReceiptMetadata := foldl add_share l ps.

Lemma gas_nonneg_share l p : 0 <= p.2 → gas_nonneg l → gas_nonneg (add_share l p).
Proof.
  intros Hp HF. unfold add_share. apply Forall_alter; [done|]. intros r _ Hr. cbn. apply Forall_alter; [done|]. intros a _ [Ha Hd]. destruct a; try done. split; [cbn in *; lia|done].
Qed.

Lemma weights_ok_share ws l p : weights_ok ws l → weights_ok ws (add_share l p).
Proof.
  intros [HF Hnd]. split; [|done]. eapply Forall_impl; [exact HF|]. intros q [(a & Ha & Hc) Hw]. split; [|done].
  rewrite action_at_share. case_decide; rewrite Ha; cbn; eexists; split; [done| |done|done]. by apply is_call_add_gas.
Qed.

(** The part of a call is at most the gas that was not distributed before it. *)
Definition floors (ws : list (FunctionCallActionIndex * Z)) (u sum : Z) : Z := sum_Z ((λ p, u * p.2 / sum) <$> ws).

Lemma floors_nonneg ws u sum : 0 <= u → 0 < sum → Forall (λ p : FunctionCallActionIndex * Z, 0 <= p.2) ws → 0 <= floors ws u sum.
Proof.
  intros Hu Hs HF. apply sum_Z_nonneg, Forall_fmap. eapply Forall_impl; [exact HF|]. intros p Hp. cbn in *. apply Z.div_pos; nia.
Qed.

Lemma floors_le ws u sum : 0 <= u → 0 < sum → floors ws u sum * sum <= u * sum_Z ws.*2.
Proof.
  intros Hu Hs. induction ws as [|p ws IH]; [cbn; lia|]. unfold floors in *. rewrite !fmap_cons, !sum_Z_cons.
  pose proof (Z.mul_div_le (u * p.2) sum Hs). nia.
Qed.

Section loop.
Context {E : Type} (overflow : IntegerOverflowError → E) (u sum : Z) (Hu : 0 <= u <= umax 64) (Hsum : 0 < sum).

(** One call, if its share and the gas of all calls fit. *)
Lemma share_ok m i g w ws : weights_ok ((i, w) :: ws) (action_receipts m) → gas_nonneg (action_receipts m) → 0 <= g → receipts_gas (action_receipts m) + g <= umax 64 →
  let m' := set_action_receipts (add_share (action_receipts m) (i, g)) m in
  add_call_gas overflow i g m = Ok () m' ∧ weights_ok ((i, w) :: ws) (action_receipts m') ∧ gas_nonneg (action_receipts m') ∧
  receipts_gas (action_receipts m') = receipts_gas (action_receipts m) + g.
Proof.
  intros Hws Hg H0 Hle m'. destruct (Forall_inv (proj1 Hws)) as [(a & Ha & Hc) _]. cbn in Ha. pose proof (action_gas_le _ _ _ Hg Ha).
  split; [apply (add_call_gas_ok overflow m i a g Ha Hc); lia|]. split; [by apply weights_ok_share|]. split; [by apply gas_nonneg_share|]. exact (receipts_gas_share _ (i, g) a Ha Hc).
Qed.

Lemma add_share_twice l i g h : add_share (add_share l (i, g)) (i, h) = add_share l (i, g + h).
Proof.
  unfold add_share. cbn [fst snd]. rewrite list_alter_twice. apply list_alter_ext; [|done]. intros r _. unfold set_md_actions. cbn. f_equal.
  rewrite list_alter_twice. apply list_alter_ext; [|done]. intros a _. destruct a; try done. cbn. f_equal. lia.
Qed.

Lemma distribute_loop_ok ws d m : ws ≠ [] → weights_ok ws (action_receipts m) → gas_nonneg (action_receipts m) → 0 <= d → d + floors ws u sum <= u →
  receipts_gas (action_receipts m) + (u - d) <= umax 64 →
  distribute_loop overflow ws u sum d m = Ok u (set_action_receipts (apply_shares (action_receipts m) (shares ws u sum d)) m).
Proof.
  revert d m. induction ws as [|[i w] ws IH]; intros d m Hne Hws Hg Hd Hfl Hle; [done|].
  assert (Hpos : Forall (λ p : FunctionCallActionIndex * Z, 0 <= p.2) ((i, w) :: ws)) by (eapply Forall_impl; [exact (proj1 Hws)|]; cbn; intros p Hp; cbn in Hp; lia).
  apply Forall_cons in Hpos as [Hw Hpos]. cbn in Hw. pose proof (floors_nonneg ws u sum (proj1 Hu) Hsum Hpos).
  unfold floors in Hfl. rewrite fmap_cons, sum_Z_cons in Hfl. fold (floors ws u sum) in Hfl. cbn [snd] in Hfl.
  assert (0 <= u * w / sum) by (apply Z.div_pos; nia). set (g := u * w / sum) in *.
  destruct (share_ok m i g w ws Hws Hg ltac:(done) ltac:(lia)) as (E1 & Hws1 & Hg1 & Hr1). set (m1 := set_action_receipts _ m) in *.
  cbn [distribute_loop]. fold g. rewrite (Z.mod_small g) by (unfold umax in *; lia). rewrite (bind_Ok _ _ _ _ _ E1), checked_add_ok by lia. cbn [expect].
  rewrite (bind_Ok (mret (d + g)) _ _ (d + g) m1) by done. destruct ws as [|p ws].
  - rewrite (Z.mod_small (u - _)) by (unfold umax in *; lia). rewrite checked_add_ok by lia. cbn [expect].
    rewrite (bind_Ok (mret _) _ _ (d + g + (u - (d + g))) m1) by done.
    destruct (share_ok m1 i (u - (d + g)) w [] Hws1 Hg1 ltac:(lia) ltac:(lia)) as (E2 & _). rewrite (bind_Ok _ _ _ _ _ E2).
    replace (d + g + (u - (d + g))) with u by lia. cbn [shares apply_shares foldl action_receipts set_action_receipts m1].
    rewrite add_share_twice. replace (g + (u - (d + g))) with (u - d) by lia. done.
  - assert (Hws2 : weights_ok (p :: ws) (action_receipts m1)) by (destruct Hws1 as [HF Hnd]; split; [by apply Forall_cons in HF as [_ HF]|by apply NoDup_cons in Hnd as [_ Hnd]]).
    exact (IH (d + g) m1 ltac:(done) Hws2 Hg1 ltac:(lia) ltac:(lia) ltac:(lia)).
Qed.
End loop.

(** ** The operations of the host *)

Inductive RmOp : Type :=
| OpCreateActionReceipt (input_data_ids : list bytes) (receipt_indices : list nat) (receiver_id : AccountId)
| OpCreatePromiseYield (input_data_id : bytes) (receiver_id : AccountId)
| OpCreatePromiseResume (data_id data : bytes)
| OpResolvePromiseYield (data_id data : bytes)
| OpCreateAccount (i : nat)
| OpDeployContract (i : nat) (code : bytes)
| OpDeployGlobalContract (i : nat) (code : bytes) (mode : GlobalContractDeployMode)
| OpUseGlobalContract (i : nat) (contract_id : GlobalContractIdentifier AccountId)
| OpFunctionCall (i : nat) (method_name args : bytes) (attached_deposit prepaid_gas gas_weight : Z)
| OpTransfer (i : nat) (deposit : Z)
| OpStake (i : nat) (stake : Z) (public_key : PublicKey)
| OpAddFullAccessKey (i : nat) (public_key : PublicKey) (nonce : Z)
| OpAddFunctionCallKey (i : nat) (public_key : PublicKey) (nonce : Z) (allowance : option Z) (receiver_id : AccountId) (method_names : list bytes)
| OpDeleteKey (i : nat) (public_key : PublicKey)
| OpDeleteAccount (i : nat) (beneficiary_id : AccountId).

Definition discard {A} (f : RM A) : RM () := _ ← f; mret ().

Definition exec (op : RmOp) : RM () :=
  match op with
  | OpCreateActionReceipt ids idxs rid => discard (create_action_receipt ids idxs rid)
  | OpCreatePromiseYield id rid => discard (create_promise_yield_receipt id rid)
  | OpCreatePromiseResume id d => create_promise_resume_receipt id d
  | OpResolvePromiseYield id d => discard (checked_resolve_promise_yield id d)
  | OpCreateAccount i => append_action_create_account i
  | OpDeployContract i c => append_action_deploy_contract i c
  | OpDeployGlobalContract i c md => append_action_deploy_global_contract i c md
  | OpUseGlobalContract i c => append_use_deploy_global_contract i c
  | OpFunctionCall i n a d g w => append_action_function_call_weight i n a d g w
  | OpTransfer i d => append_action_transfer i d
  | OpStake i s pk => append_action_stake i s pk
  | OpAddFullAccessKey i pk n => append_action_add_key_with_full_access i pk n
  | OpAddFunctionCallKey i pk n al rid ms => append_action_add_key_with_function_call i pk n al rid ms
  | OpDeleteKey i pk => append_action_delete_key i pk
  | OpDeleteAccount i b => append_action_delete_account i b
  end.

(** What the host guarantees: it appends actions to receipts that it created, gas and weights are machine integers, and there
    is a data id for every receipt that is waited for. *)
Definition op_ok (op : RmOp) (m : ReceiptManager) : Prop :=
  match op with
  | OpCreateActionReceipt ids idxs _ => length ids = length idxs
  | OpCreatePromiseYield _ _ | OpCreatePromiseResume _ _ | OpResolvePromiseYield _ _ => True
  | OpFunctionCall i _ _ _ g w => (i < length (action_receipts m))%nat ∧ 0 <= g <= umax 64 ∧ 0 <= w <= umax 64
  | OpCreateAccount i | OpDeployContract i _ | OpDeployGlobalContract i _ _ | OpUseGlobalContract i _ | OpTransfer i _ | OpStake i _ _
  | OpAddFullAccessKey i _ _ | OpAddFunctionCallKey i _ _ _ _ _ | OpDeleteKey i _ | OpDeleteAccount i _ => (i < length (action_receipts m))%nat
  end.

(** Every weight is that of a function call, every pending yield that of a receipt that waits for its data id alone. *)
Definition yields_ok (idx : gmap bytes nat) (l : list ActionReceiptMetadata) : Prop :=
  map_Forall (λ id i, ∃ r, l !! i = Some r ∧ is_promise_yield r = true ∧ md_input_data_ids r = [id]) idx.

Record rm_ok (m : ReceiptManager) : Prop := {
  rm_weights : weights_ok (gas_weights m) (action_receipts m);
  rm_gas : gas_nonneg (action_receipts m);
  rm_yields : yields_ok (promise_yield_receipt_index m) (action_receipts m)
}.

Definition keeps_ok {A} (r : outcome ReceiptManager HostError A) : Prop :=
  match r with Ok _ m | Err _ m => rm_ok m | _ => False end.

Inductive manager_reached : ReceiptManager → Prop :=
| reached_default : manager_reached default_manager
| reached_ok m op m' : manager_reached m → op_ok op m → exec op m = Ok () m' → manager_reached m'
| reached_err m op e m' : manager_reached m → op_ok op m → exec op m = Err e m' → manager_reached m'.

(** ** Receipts only grow *)

Definition grows (r r' : ActionReceiptMetadata) : Prop :=
  md_actions r `prefix_of` md_actions r' ∧ is_promise_yield r' = is_promise_yield r ∧ md_input_data_ids r' = md_input_data_ids r.

Definition receipts_grow (l l' : list ActionReceiptMetadata) : Prop := ∀ i r, l !! i = Some r → ∃ r', l' !! i = Some r' ∧ grows r r'.

Lemma receipts_grow_insert l i r r' : l !! i = Some r → grows r r' → receipts_grow l (<[i := r']> l).
Proof.
  intros Hr Hg j r0 Hj. destruct (decide (i = j)) as [->|Hij]; [|rewrite list_lookup_insert_ne by done; by exists r0].
  rewrite list_lookup_insert_eq by (by eapply lookup_lt_Some). simplify_eq. by exists r'.
Qed.

Lemma receipts_grow_push l r : receipts_grow l (l ++ [r]).
Proof. intros i r0 Hi. exists r0. by rewrite (lookup_app_l_Some _ _ _ _ Hi). Qed.

Lemma rm_ok_grow m l' : rm_ok m → receipts_grow (action_receipts m) l' → gas_nonneg l' → rm_ok (set_action_receipts l' m).
Proof.
  intros [[Hw Hnd] _ Hy] Hle Hg. split; [split; [|done]|done|]; cbn in *.
  - eapply Forall_impl; [exact Hw|]. intros p [(a & Ha & Hc) Hp]. split; [|done]. exists a. split; [|done]. revert Ha. unfold action_at.
    destruct (_ !! receipt_index p.1) as [r|] eqn:Hr; [|done]. destruct (Hle _ _ Hr) as (r' & -> & (k & Hk) & _). cbn. rewrite Hk. apply lookup_app_l_Some.
  - intros id i Hi. destruct (Hy id i Hi) as (r & Hr & Hyr & Hid). destruct (Hle _ _ Hr) as (r' & Hr' & _ & E1 & E2). exists r'. by rewrite E1, E2.
Qed.

Lemma gas_nonneg_lookup l i r : gas_nonneg l → l !! i = Some r → Forall plain_action (md_actions r).
Proof. intros HF Hr. exact (proj1 (Forall_lookup _ _) HF _ _ Hr). Qed.

Lemma append_action_ok m i a : rm_ok m → (i < length (action_receipts m))%nat → plain_action a →
  ∃ r, action_receipts m !! i = Some r ∧
    append_action i a m = Ok (length (md_actions r)) (set_action_receipts (<[i := push_action a r]> (action_receipts m)) m) ∧
    rm_ok (set_action_receipts (<[i := push_action a r]> (action_receipts m)) m).
Proof.
  intros Hok [r Hr]%lookup_lt_is_Some Ha. exists r. split; [done|]. split.
  - unfold append_action. rewrite (bind_Ok get_state _ _ m m) by done. by rewrite Hr.
  - apply rm_ok_grow; [done| |].
    + apply (receipts_grow_insert _ _ r); [done|]. split; [by eexists|done].
    + apply Forall_insert; [apply rm_gas, Hok|]. cbn. apply Forall_app_2; [exact (gas_nonneg_lookup _ _ _ (rm_gas _ Hok) Hr)|by apply Forall_singleton].
Qed.

Lemma append_keeps_ok m i a : rm_ok m → (i < length (action_receipts m))%nat → get_prepaid_gas a = 0 → non_delegate a = true → keeps_ok ((_ ← append_action i a; mret ()) m).
Proof. intros Hok Hi Ha Hd. destruct (append_action_ok m i a Hok Hi) as (r & _ & E & H); [split; [lia|done]|]. by rewrite (bind_Ok _ _ _ _ _ E). Qed.

Lemma connect_outputs_ok rid l m : rm_ok m → keeps_ok (connect_outputs rid l m).
Proof.
  revert m. induction l as [|[id i] l IH]; intros m Hok; [done|]. cbn [connect_outputs]. rewrite (bind_Ok get_state _ _ m m) by done.
  destruct (action_receipts m !! i) as [r|] eqn:Hr; [|done]. erewrite bind_Ok by done. apply IH, rm_ok_grow; [done| |].
  - by apply (receipts_grow_insert _ _ r).
  - apply Forall_insert; [apply rm_gas, Hok|]. exact (gas_nonneg_lookup _ _ _ (rm_gas _ Hok) Hr).
Qed.

Lemma push_receipt_ok m r : rm_ok m → md_actions r = [] →
  push_receipt r m = Ok (length (action_receipts m)) (set_action_receipts (action_receipts m ++ [r]) m) ∧ rm_ok (set_action_receipts (action_receipts m ++ [r]) m).
Proof.
  intros Hok Hr. split; [done|]. apply rm_ok_grow; [done|apply receipts_grow_push|]. apply Forall_app_2; [apply rm_gas, Hok|]. apply Forall_singleton. by rewrite Hr.
Qed.

Lemma keeps_ok_bind {A B} (f : RM A) (g : A → RM B) m : keeps_ok (f m) → (∀ a m', rm_ok m' → keeps_ok (g a m')) → keeps_ok ((f ≫= g) m).
Proof. intros Hf Hg. unfold mbind, M_bind. destruct (f m); [by apply Hg|done..]. Qed.

Lemma create_yield_ok id rid m : rm_ok m → keeps_ok (create_promise_yield_receipt id rid m).
Proof.
  intros Hok. unfold create_promise_yield_receipt. set (r := mkActionReceiptMetadata _ _ _ _ _). destruct (push_receipt_ok m r Hok) as [E [Hw Hg Hy]]; [done|].
  rewrite (bind_Ok _ _ _ _ _ E). split; [done..|]. apply map_Forall_insert_2; [|done]. exists r. split; [|done]. cbn. by rewrite list_lookup_middle.
Qed.

Lemma resolve_yield_ok id d m : rm_ok m → keeps_ok (checked_resolve_promise_yield id d m).
Proof.
  intros Hok. unfold checked_resolve_promise_yield. rewrite (bind_Ok get_state _ _ m m) by done. destruct (_ !! id) as [i|] eqn:Hi; [|done].
  destruct (rm_yields _ Hok _ _ Hi) as (r & Hr & Hy & Hid). erewrite bind_Ok by done. rewrite Hr. erewrite bind_Ok by done. rewrite Hy.
  destruct Hok as [[Hw Hnd] Hg Hyl]. split; [split; [|done]| |]; cbn in *.
  - eapply Forall_impl; [exact Hw|]. intros p [(a & Ha & Hc) Hp]. split; [|done]. exists a. split; [|done]. revert Ha. unfold action_at.
    destruct (decide (i = receipt_index p.1)) as [<-|Hne]; [|by rewrite list_lookup_insert_ne]. rewrite Hr, list_lookup_insert_eq by (by eapply lookup_lt_Some). done.
  - apply Forall_insert; [done|]. exact (gas_nonneg_lookup _ _ _ Hg Hr).
  - intros id' j Hj. apply lookup_delete_Some in Hj as [Hne Hj]. destruct (Hyl _ _ Hj) as (r' & Hr' & Hy' & Hid'). exists r'. split; [|done].
    rewrite list_lookup_insert_ne; [done|]. intros <-. congruence.
Qed.

Lemma function_call_ok m i n a d g w : rm_ok m → op_ok (OpFunctionCall i n a d g w) m → keeps_ok (append_action_function_call_weight i n a d g w m).
Proof.
  intros Hok (Hi & Hg & Hw). unfold append_action_function_call_weight. destruct (negb _); [done|].
  destruct (append_action_ok m i (FunctionCall n a g d) Hok Hi) as (r & Hr & E & Hok'); [split; [cbn; lia|done]|]. rewrite (bind_Ok _ _ _ _ _ E).
  destruct (Z.ltb_spec 0 w) as [Hpos|_]; [|done]. destruct Hok' as [[Hws Hnd] Hgas Hy]. split; [split|done..]; cbn in *.
  - apply Forall_app_2; [done|]. apply Forall_singleton. split; [|cbn; lia]. exists (FunctionCall n a g d). split; [|done]. unfold action_at. cbn.
    rewrite list_lookup_insert_eq by (by eapply lookup_lt_Some). cbn. by apply list_lookup_middle.
  - rewrite fmap_app. apply NoDup_app. split; [done|]. split; [|apply NoDup_singleton]. intros p Hp Hin. apply list_elem_of_singleton in Hin as ->.
    apply list_elem_of_fmap in Hp as (q & Hq & Hin). destruct (proj1 (Forall_forall _ _) (proj1 (rm_weights _ Hok)) q Hin) as [(b & Hb & _) _].
    revert Hb. unfold action_at. rewrite <-Hq. cbn. rewrite Hr. cbn. rewrite lookup_ge_None_2 by lia. done.
Qed.

Lemma exec_ok op m : rm_ok m → op_ok op m → keeps_ok (exec op m).
Proof.
  intros Hok Hop. destruct op; cbn [exec op_ok] in *; try (by apply append_keeps_ok); try (by apply function_call_ok).
  - unfold discard, create_action_receipt. rewrite bool_decide_eq_true_2 by done. apply keeps_ok_bind; [|done]. apply keeps_ok_bind; [by apply connect_outputs_ok|].
    intros _ m' Hok'. by destruct (push_receipt_ok m' (mkActionReceiptMetadata receiver_id [] input_data_ids [] false) Hok') as [-> ?].
  - apply keeps_ok_bind; [by apply create_yield_ok|done].
  - destruct Hok as [Hw Hg Hy]. by split.
  - apply keeps_ok_bind; [by apply resolve_yield_ok|done].
  - unfold append_action_add_key_with_function_call. destruct (forallb _ _); [by apply append_keeps_ok|done].
Qed.

Lemma reached_rm_ok m : manager_reached m → rm_ok m.
Proof.
  induction 1 as [|m op m' _ IH Hop E|m op e m' _ IH Hop E]; [|by pose proof (exec_ok op m IH Hop) as H; rewrite E in H..].
  split; [split; [apply Forall_nil_2|apply NoDup_nil_2]|apply Forall_nil_2|apply map_Forall_empty].
Qed.

(** ** The distribution *)

Lemma apply_shares_gas ps l : (∀ p, p ∈ ps → ∃ a, action_at p.1 l = Some a ∧ is_call a) → receipts_gas (apply_shares l ps) = receipts_gas l + sum_Z ps.*2.
Proof.
  revert l. induction ps as [|p ps IH]; intros l Hp; [symmetry; apply Z.add_0_r|]. destruct (Hp p) as (a & Ha & Hc); [by left|]. cbn [apply_shares foldl].
  fold (apply_shares (add_share l p) ps). rewrite IH, (receipts_gas_share l p a Ha Hc), fmap_cons, sum_Z_cons by (intros q Hq; rewrite action_at_share;
    destruct (Hp q) as (b & -> & Hb); [by right|]; case_decide; eexists; split; [done| |done|done]; by apply is_call_add_gas). lia.
Qed.

Definition share_of (ps : list (FunctionCallActionIndex * Z)) (i : FunctionCallActionIndex) : Z := sum_Z (filter (λ p, p.1 = i) ps).*2.

(** Every action has its share added, and the actions without a weight are unchanged. *)
Lemma action_at_shares ps l i : action_at i (apply_shares l ps) = add_gas (share_of ps i) <$> action_at i l.
Proof.
  revert l. induction ps as [|p ps IH]; intros l.
  - cbn. destruct (action_at i l) as [a|]; [|done]. cbn. f_equal. destruct a; try done. cbn. f_equal. lia.
  - cbn [apply_shares foldl]. fold (apply_shares (add_share l p) ps). rewrite IH, action_at_share. unfold share_of. rewrite filter_cons.
    destruct (decide (i = p.1)) as [->|Hne]; [rewrite decide_True by done|by rewrite decide_False by congruence].
    rewrite fmap_cons, sum_Z_cons. destruct (action_at p.1 l) as [a|]; [|done]. cbn. f_equal. destruct a; try done. cbn. f_equal. lia.
Qed.

Lemma shares_lower ws u sum d : 0 <= u → 0 < sum → d + floors ws u sum <= u → Forall2 (λ p q, q.1 = p.1 ∧ u * p.2 / sum <= q.2) ws (shares ws u sum d).
Proof.
  intros Hu Hs. revert d. induction ws as [|[i w] ws IH]; intros d Hd; [constructor|]. unfold floors in *. rewrite fmap_cons, sum_Z_cons in Hd. cbn [shares snd] in *.
  destruct ws as [|p ws]; [apply Forall2_cons; split; [split; [done|cbn in *; lia]|apply Forall2_nil; done]|]. apply Forall2_cons. split; [done|]. apply IH. lia.
Qed.

Lemma share_of_elem ps i s : Forall (λ p : FunctionCallActionIndex * Z, 0 <= p.2) ps → (i, s) ∈ ps → s <= share_of ps i.
Proof.
  intros HF Hin. unfold share_of. apply sum_Z_elem.
  - apply Forall_fmap, Forall_forall. intros p Hp%list_elem_of_filter. exact (proj1 (Forall_forall _ _) HF p (proj2 Hp)).
  - apply (list_elem_of_fmap_2 snd _ (i, s)). by apply list_elem_of_filter.
Qed.

(** What every call gets of the gas: nothing if there is none to give. *)
Definition distribution (m : ReceiptManager) (unused_gas : Z) : list (FunctionCallActionIndex * Z) :=
  if unused_gas =? 0 then [] else shares (gas_weights m) unused_gas (sum_Z (gas_weights m).*2) 0.

Lemma weights_sum_pos ws l : weights_ok ws l → ws ≠ [] → 0 < sum_Z ws.*2.
Proof.
  intros [HF _] Hne. destruct ws as [|p ws]; [done|]. rewrite fmap_cons, sum_Z_cons. apply Forall_cons in HF as [Hp HF]. cbn in Hp.
  assert (0 <= sum_Z ws.*2); [|lia]. apply sum_Z_nonneg, Forall_fmap. eapply Forall_impl; [exact HF|]. cbn. intros q Hq. cbn in *. lia.
Qed.

Lemma floors_total ws l u : weights_ok ws l → ws ≠ [] → 0 <= u → floors ws u (sum_Z ws.*2) <= u.
Proof. intros Hw Hne Hu. pose proof (weights_sum_pos _ _ Hw Hne). pose proof (floors_le ws u (sum_Z ws.*2) Hu ltac:(done)). nia. Qed.

Lemma distribute_gas_ok {E} (overflow : IntegerOverflowError → E) m u : rm_ok m → 0 <= u <= umax 64 → receipts_gas (action_receipts m) + u <= umax 64 →
  distribute_gas overflow u m = Ok (sum_Z (distribution m u).*2) (set_action_receipts (apply_shares (action_receipts m) (distribution m u)) m).
Proof.
  intros [Hw Hg _] Hu Hle. unfold distribute_gas, distribution. rewrite (bind_Ok get_state _ _ m m) by done.
  destruct (Z.eqb_spec u 0) as [->|Hu0]; [rewrite orb_true_r; by destruct m|]. rewrite orb_false_r.
  destruct (decide (gas_weights m = [])) as [->|Hne]; [cbn; by destruct m|]. pose proof (weights_sum_pos _ _ Hw Hne) as Hpos.
  destruct (Z.eqb_spec (sum_Z (gas_weights m).*2) 0) as [?|_]; [lia|]. pose proof (floors_total _ _ u Hw Hne ltac:(lia)).
  erewrite bind_Ok by (apply distribute_loop_ok; [done..|lia|lia|lia]). rewrite Z.eqb_refl, shares_sum, Z.sub_0_r by done. done.
Qed.

Lemma distribution_lower m u i w : rm_ok m → 0 <= u → (i, w) ∈ gas_weights m → u * w / sum_Z (gas_weights m).*2 <= share_of (distribution m u) i.
Proof.
  intros [Hw _ _] Hu Hin. unfold distribution. destruct (Z.eqb_spec u 0) as [->|Hu0]; [rewrite Z.mul_0_l, Zdiv_0_l; done|].
  assert (Hne : gas_weights m ≠ []) by (intros E; rewrite E in Hin; by apply not_elem_of_nil in Hin). pose proof (weights_sum_pos _ _ Hw Hne) as Hpos.
  pose proof (floors_total _ _ u Hw Hne Hu) as Hf. pose proof (shares_lower (gas_weights m) u _ 0 Hu Hpos ltac:(lia)) as Hl.
  assert (Hnn : Forall (λ p : FunctionCallActionIndex * Z, 0 <= p.2) (shares (gas_weights m) u (sum_Z (gas_weights m).*2) 0)).
  { apply Forall_lookup. intros k q Hq. destruct (Forall2_lookup_r _ _ _ _ _ Hl Hq) as (p & Hp & _ & Hle). trans (u * p.2 / sum_Z (gas_weights m).*2); [|done].
    pose proof (proj1 (Forall_lookup _ _) (proj1 Hw) _ _ Hp) as [_ Hp2]. cbn in Hp2. apply Z.div_pos; nia. }
  apply list_elem_of_lookup in Hin as [k Hk]. destruct (Forall2_lookup_l _ _ _ _ _ Hl Hk) as ([j s] & Hq & Hij & Hs). cbn in Hij, Hs. subst j.
  trans s; [done|]. apply share_of_elem; [done|]. by eapply list_elem_of_lookup_2.
Qed.

(** C16: The gas that is left after a contract call reaches its function calls. For every receipt manager that the operations of
    the host can build, errors included, and every amount of gas that fits beside the gas the calls have already,
    [distribute_gas] neither fails nor panics. It returns all of the gas, or zero if no call has a weight; the gas of the receipts
    grows by exactly that amount; every call has its share added and nothing else of any action changes; and the share of a call is
    at least its part by weight, rounded down. *)
Theorem gas_distributed {E} (overflow : IntegerOverflowError → E) m u : manager_reached m → 0 <= u <= umax 64 → receipts_gas (action_receipts m) + u <= umax 64 →
  let given := if bool_decide (gas_weights m = []) then 0 else u in
  ∃ l', distribute_gas overflow u m = Ok given (set_action_receipts l' m) ∧
    receipts_gas l' = receipts_gas (action_receipts m) + given ∧
    (∀ i, action_at i l' = add_gas (share_of (distribution m u) i) <$> action_at i (action_receipts m)) ∧
    ∀ i w, (i, w) ∈ gas_weights m → u * w / sum_Z (gas_weights m).*2 <= share_of (distribution m u) i.
Proof.
  intros Hok%reached_rm_ok Hu Hle given. exists (apply_shares (action_receipts m) (distribution m u)).
  assert (Hsum : sum_Z (distribution m u).*2 = given).
  { unfold given, distribution. destruct (Z.eqb_spec u 0) as [->|_]; [by case_bool_decide|]. case_bool_decide as Hne; [by rewrite Hne|]. rewrite shares_sum by done. lia. }
  rewrite <-Hsum. split; [by apply distribute_gas_ok|]. split; [|split; [apply action_at_shares|intros; by apply distribution_lower; [|lia|]]].
  apply apply_shares_gas. intros p Hp. unfold distribution in Hp. destruct (u =? 0); [by apply not_elem_of_nil in Hp|].
  assert (Hp1 : p.1 ∈ (gas_weights m).*1) by (rewrite <-(shares_index _ u (sum_Z (gas_weights m).*2) 0); by apply list_elem_of_fmap_2).
  apply list_elem_of_fmap in Hp1 as (q & -> & Hq). exact (proj1 (proj1 (Forall_forall _ _) (proj1 (rm_weights _ Hok)) q Hq)).
Qed.
End manager.

(** Two calls of weights 1 and 2 share ten units. *)
Definition two_calls : ReceiptManager (AccountId := nat) :=
  mkReceiptManager [mkActionReceiptMetadata 7%nat [] [] [FunctionCall [] [] 5 0; FunctionCall [] [] 0 0] false] []
    [(mkCallIndex 0 0, 1); (mkCallIndex 0 1, 2)] ∅.

Lemma two_calls_reached : manager_reached (λ _ : nat, []) two_calls.
Proof.
  eapply (reached_ok _ _ (OpFunctionCall 0 [] [] 0 0 2)); [eapply (reached_ok _ _ (OpFunctionCall 0 [] [] 0 5 1));
    [eapply (reached_ok _ _ (OpCreateActionReceipt [] [] 7%nat)); [apply reached_default|done|reflexivity]| |reflexivity]| |reflexivity]; (split; [cbn; lia|split; by split]).
Qed.

Lemma gas_distributed_witness : ∃ l', distribute_gas id 10 two_calls = Ok 10 (set_action_receipts l' two_calls) ∧
  action_at (mkCallIndex 0 0) l' = Some (FunctionCall [] [] 8 0) ∧ action_at (mkCallIndex 0 1) l' = Some (FunctionCall [] [] 7 0).
Proof.
  destruct (gas_distributed (λ _ : nat, []) id two_calls 10 two_calls_reached) as (l' & E & _ & H & _); [by split|by cbn|]. exists l'. split; [exact E|].
  split; rewrite H; reflexivity.
Defined.
