(* ===== verification/Account.v ===== *)
(** Accounts as they are stored in the state (core/primitives-core/src/account.rs): the two versions, their
    contracts, and the serialisation that tells the versions apart by a balance that cannot occur. *)

From S2P Require Import Prelude Borsh TrieKey Fees Receipt.
Local Open Scope Z_scope.

(** [CryptoHash::default()] *)
Definition default_hash : bytes := replicate 32 0.

Section account.
Context {AccountId : Type}.

Abbreviation AccountContract := (AccountContract AccountId).

Definition contract_local_code (c : AccountContract) : option bytes :=
  match c with ContractLocal hash => Some hash | ContractNone | ContractGlobalByAccount _ | ContractGlobal _ => None end.

Definition from_local_code_hash (code_hash : bytes) : AccountContract :=
  if bool_decide (code_hash = default_hash) then ContractNone else ContractLocal code_hash.

Definition contract_is_none (c : AccountContract) : bool := match c with ContractNone => true | _ => false end.
Definition contract_is_local (c : AccountContract) : bool := match c with ContractLocal _ => true | _ => false end.

Definition identifier_storage_usage (as_bytes : AccountId → bytes) (c : AccountContract) : Z :=
  match c with
  | ContractNone | ContractLocal _ => 0
  | ContractGlobal _ => 32
  | ContractGlobalByAccount id => Z.of_nat (length (as_bytes id))
  end.

Record AccountV1 : Type := mkAccountV1 { a1_amount : Z; a1_locked : Z; a1_code_hash : bytes; a1_storage_usage : Z }.
Record AccountV2 : Type := mkAccountV2 { a2_amount : Z; a2_locked : Z; a2_storage_usage : Z; a2_contract : AccountContract }.

Inductive Account : Type :=
| AccountIsV1 (account : AccountV1)
| AccountIsV2 (account : AccountV2).

Definition to_v2 (a : AccountV1) : AccountV2 := mkAccountV2 (a1_amount a) (a1_locked a) (a1_storage_usage a) (from_local_code_hash (a1_code_hash a)).

Definition new_account (amount locked : Z) (contract : AccountContract) (storage_usage : Z) : Account :=
  match contract with
  | ContractNone => AccountIsV1 (mkAccountV1 amount locked default_hash storage_usage)
  | ContractLocal code_hash => AccountIsV1 (mkAccountV1 amount locked code_hash storage_usage)
  | _ => AccountIsV2 (mkAccountV2 amount locked storage_usage contract)
  end.

Definition amount (a : Account) : Z := match a with AccountIsV1 a => a1_amount a | AccountIsV2 a => a2_amount a end.
Definition locked (a : Account) : Z := match a with AccountIsV1 a => a1_locked a | AccountIsV2 a => a2_locked a end.
Definition contract (a : Account) : AccountContract :=
  match a with AccountIsV1 a => from_local_code_hash (a1_code_hash a) | AccountIsV2 a => a2_contract a end.
Definition storage_usage (a : Account) : Z := match a with AccountIsV1 a => a1_storage_usage a | AccountIsV2 a => a2_storage_usage a end.

Definition global_contract_hash (a : Account) : option bytes :=
  match a with AccountIsV2 (mkAccountV2 _ _ _ (ContractGlobal hash)) => Some hash | _ => None end.
Definition global_contract_account_id (a : Account) : option AccountId :=
  match a with AccountIsV2 (mkAccountV2 _ _ _ (ContractGlobalByAccount id)) => Some id | _ => None end.
Definition local_contract_hash (a : Account) : option bytes :=
  match a with
  | AccountIsV1 a => contract_local_code (from_local_code_hash (a1_code_hash a))
  | AccountIsV2 (mkAccountV2 _ _ _ (ContractLocal hash)) => Some hash
  | AccountIsV2 _ => None
  end.

Definition set_amount (x : Z) (a : Account) : Account :=
  match a with
  | AccountIsV1 (mkAccountV1 _ l h s) => AccountIsV1 (mkAccountV1 x l h s)
  | AccountIsV2 (mkAccountV2 _ l s c) => AccountIsV2 (mkAccountV2 x l s c)
  end.
Definition set_locked (x : Z) (a : Account) : Account :=
  match a with
  | AccountIsV1 (mkAccountV1 m _ h s) => AccountIsV1 (mkAccountV1 m x h s)
  | AccountIsV2 (mkAccountV2 m _ s c) => AccountIsV2 (mkAccountV2 m x s c)
  end.
Definition set_storage_usage (x : Z) (a : Account) : Account :=
  match a with
  | AccountIsV1 (mkAccountV1 m l h _) => AccountIsV1 (mkAccountV1 m l h x)
  | AccountIsV2 (mkAccountV2 m l _ c) => AccountIsV2 (mkAccountV2 m l x c)
  end.

Definition set_contract (c : AccountContract) (a : Account) : Account :=
  match a with
  | AccountIsV1 a =>
      match c with
      | ContractNone | ContractLocal _ =>
          AccountIsV1 (mkAccountV1 (a1_amount a) (a1_locked a) (default default_hash (contract_local_code c)) (a1_storage_usage a))
      | _ => let a := to_v2 a in AccountIsV2 (mkAccountV2 (a2_amount a) (a2_locked a) (a2_storage_usage a) c)
      end
  | AccountIsV2 a => AccountIsV2 (mkAccountV2 (a2_amount a) (a2_locked a) (a2_storage_usage a) c)
  end.

(** ** Serialisation *)

Context `{!Borsh AccountId}.

Definition SERIALIZATION_SENTINEL : Z := umax 128.

Definition encode_u128 : Z → bytes := borsh_encode (Borsh := borsh_uint 16).
Definition decode_u128 : bytes → option (Z * bytes) := borsh_decode (Borsh := borsh_uint 16).

(** The derived implementations. *)
#[export] Instance AccountContract_borsh : Borsh AccountContract := {|
  borsh_encode c :=
    match c with
    | ContractNone => [0]
    | ContractLocal hash => 1 :: hash
    | ContractGlobal hash => 2 :: hash
    | ContractGlobalByAccount id => 3 :: borsh_encode id
    end;
  borsh_decode bytes :=
    match bytes with
    | 0 :: bytes => Some (ContractNone, bytes)
    | 1 :: bytes => '(h, bytes) ← read_bytes 32 bytes; Some (ContractLocal h, bytes)
    | 2 :: bytes => '(h, bytes) ← read_bytes 32 bytes; Some (ContractGlobal h, bytes)
    | 3 :: bytes => '(id, bytes) ← borsh_decode bytes; Some (ContractGlobalByAccount id, bytes)
    | _ => None
    end
|}.

Definition encode_v1 (a : AccountV1) : bytes := encode_u128 (a1_amount a) ++ encode_u128 (a1_locked a) ++ a1_code_hash a ++ encode_u64 (a1_storage_usage a).
Definition encode_v2 (a : AccountV2) : bytes := encode_u128 (a2_amount a) ++ encode_u128 (a2_locked a) ++ encode_u64 (a2_storage_usage a) ++ borsh_encode (a2_contract a).

Definition decode_v2 (bytes : bytes) : option (AccountV2 * Fees.bytes) :=
  '(m, bytes) ← decode_u128 bytes;
  '(l, bytes) ← decode_u128 bytes;
  '(s, bytes) ← decode_u64 bytes;
  '(c, bytes) ← borsh_decode bytes;
  Some (mkAccountV2 m l s c, bytes).

(** [BorshVersionedAccount] has one version, with the number 0. *)
Definition account_deserialize (bytes : bytes) : option (Account * Fees.bytes) :=
  '(sentinel_or_amount, bytes) ← decode_u128 bytes;
  if sentinel_or_amount =? SERIALIZATION_SENTINEL then
    match bytes with
    | 0 :: bytes => '(a, bytes) ← decode_v2 bytes; Some (AccountIsV2 a, bytes)
    | _ => None
    end
  else
    '(l, bytes) ← decode_u128 bytes;
    '(h, bytes) ← read_bytes 32 bytes;
    '(s, bytes) ← decode_u64 bytes;
    Some (AccountIsV1 (mkAccountV1 sentinel_or_amount l h s), bytes).

Definition account_serialize (a : Account) : bytes :=
  match a with
  | AccountIsV1 a => encode_v1 a
  | AccountIsV2 a => encode_u128 SERIALIZATION_SENTINEL ++ 0 :: encode_v2 a
  end.

#[export] Instance Account_borsh : Borsh Account := {| borsh_encode := account_serialize; borsh_decode := account_deserialize |}.

(** ** Round trip *)

Definition contract_ok (c : AccountContract) : Prop :=
  match c with ContractLocal h | ContractGlobal h => length h = 32%nat | _ => True end.

(** The balance of a first-version account is never the sentinel. *)
Definition account_ok (a : Account) : Prop :=
  in_u 128 (amount a) ∧ in_u 128 (locked a) ∧ in_u 64 (storage_usage a) ∧
  match a with AccountIsV1 a => length (a1_code_hash a) = 32%nat ∧ a1_amount a ≠ SERIALIZATION_SENTINEL | AccountIsV2 a => contract_ok (a2_contract a) end.

Context `{!BorshOk AccountId (λ _, True)}.

Lemma decode_encode_u128 x rest : in_u 128 x → decode_u128 (encode_u128 x ++ rest) = Some (x, rest).
Proof. intros Hx. apply (borsh_uint_ok 16). unfold in_u, umax in Hx. change (256 ^ Z.of_nat 16) with (2 ^ 128). lia. Qed.

#[export] Instance contract_roundtrip : BorshOk AccountContract contract_ok.
Proof.
  intros [|h|h|id] rest Hc; cbn [borsh_encode borsh_decode AccountContract_borsh app contract_ok] in *; [done|by rewrite read_bytes_app..|].
  by rewrite borsh_roundtrip.
Qed.

#[export] Instance account_roundtrip : BorshOk Account account_ok.
Proof.
  intros [[m l h s]|[m l s c]] rest (Hm & Hl & Hs & Hv); cbn [borsh_encode borsh_decode Account_borsh account_serialize amount locked storage_usage a1_amount a1_locked
    a1_code_hash a1_storage_usage a2_amount a2_locked a2_storage_usage a2_contract] in *; unfold account_deserialize, encode_v1, encode_v2;
    cbn [a1_amount a1_locked a1_code_hash a1_storage_usage a2_amount a2_locked a2_storage_usage a2_contract]; rewrite <-!app_assoc; rewrite decode_encode_u128 by done; cbn [mbind option_bind].
  - destruct Hv as [Hh Hne]. rewrite (proj2 (Z.eqb_neq _ _) Hne). rewrite decode_encode_u128 by done. cbn [mbind option_bind]. rewrite read_bytes_app by done. cbn [mbind option_bind].
    by rewrite decode_encode_u64.
  - rewrite Z.eqb_refl. cbn [app]. unfold decode_v2. rewrite <-!app_assoc. do 2 (rewrite decode_encode_u128 by done; cbn [mbind option_bind]). rewrite decode_encode_u64 by done. cbn [mbind option_bind].
    by rewrite (borsh_roundtrip (ok := contract_ok)).
Qed.

(** ** Accessors *)

Lemma amount_set x a : amount (set_amount x a) = x.
Proof. by destruct a as [[]|[]]. Qed.
Lemma locked_set_amount x a : locked (set_amount x a) = locked a.
Proof. by destruct a as [[]|[]]. Qed.
Lemma storage_set_amount x a : storage_usage (set_amount x a) = storage_usage a.
Proof. by destruct a as [[]|[]]. Qed.
Lemma contract_set_amount x a : contract (set_amount x a) = contract a.
Proof. by destruct a as [[]|[]]. Qed.
Lemma set_amount_set x y a : set_amount x (set_amount y a) = set_amount x a.
Proof. by destruct a as [[]|[]]. Qed.
Lemma set_amount_same a : set_amount (amount a) a = a.
Proof. by destruct a as [[]|[]]. Qed.

Lemma account_ok_set_amount x a : account_ok a → 0 <= x <= amount a → account_ok (set_amount x a).
Proof.
  intros (Hm & Hl & Hs & Hv) Hx. unfold account_ok. rewrite amount_set, locked_set_amount, storage_set_amount. unfold in_u in *. split_and!; [lia..|].
  destruct a as [[]|[]]; [|done]. cbn in *. unfold SERIALIZATION_SENTINEL in *. destruct Hv. split; [done|lia].
Qed.
End account.
Arguments AccountV1 : clear implicits.
Arguments AccountV2 : clear implicits.
Arguments Account : clear implicits.
#[export] Hint Rewrite @amount_set @locked_set_amount @storage_set_amount @contract_set_amount @set_amount_set @set_amount_same : account.
