(* ===== verification/StoreUtils.v ===== *)
(** Access to the state by typed keys (core/store/src/utils/mod.rs): the getters and setters of the runtime, and the removal of an account. *)

From S2P Require Import Prelude Errors Borsh TrieKey Fees Receipt Account TrieQueue StateUpdate.
Local Open Scope Z_scope.

(** ** Data *)

(** The data of a receipt that waits for the action receipt. *)
Record ReceivedData : Type := mkReceivedData { received_data : option bytes }.

(** A key with a balance of its own. *)
Record GasKey : Type := mkGasKey { num_nonces : Z; gas_key_balance : Z; gas_key_permission : AccessKeyPermission }.

Record PromiseYieldIndices : Type := mkYieldIndices { yield_first_index : Z; yield_next_available_index : Z }.
Record PromiseYieldTimeout {AccountId : Type} : Type := mkYieldTimeout { timeout_account_id : AccountId; timeout_data_id : bytes; expires_at : Z }.
Arguments PromiseYieldTimeout : clear implicits.
Arguments mkYieldTimeout {AccountId}.

Definition default_yield_indices : PromiseYieldIndices := mkYieldIndices 0 0.
Definition default_indices : TrieQueueIndices := mkIndices 0 0.

Section utils.
Context {AccountId StorageError U : Type} `{!StateStore (TrieKey AccountId) StorageError U} `{!Borsh AccountId}.

Abbreviation Key := (TrieKey AccountId).
Abbreviation Acct := (Account AccountId).
Abbreviation Rcpt := (Receipt AccountId).
Abbreviation Read := (Key → option (StorageError + option (list Z))).

(** ** Values *)

(** [get]; the outer option is a panic. *)
Definition get_value {A} `{ValueBorsh : !Borsh A} (read : Read) (key : Key) : option (StorageError + option A) :=
  r ← read key;
  Some (match r with
        | inl e => inl e
        | inr None => inr None
        | inr (Some data) => match try_from_slice data with Some v => inr (Some v) | None => inl st_inconsistent end
        end).

(** [get(..)?.unwrap_or_default()] *)
Definition get_or {A} `{!Borsh A} (d : A) (read : Read) (key : Key) : option (StorageError + A) :=
  r ← get_value read key;
  Some (match r with inl e => inl e | inr v => inr (default d v) end).

(** [set] *)
Definition set_value {A} `{ValueBorsh : !Borsh A} (key : Key) (value : A) (u : U) : option U := st_set key (borsh_encode value) u.

(** ** Accounts and keys *)

Definition set_account (account_id : AccountId) (account : Acct) (u : U) : option U := set_value (TrieKey.Account account_id) account u.
Definition get_account (read : Read) (account_id : AccountId) : option (StorageError + option Acct) := get_value read (TrieKey.Account account_id).

Context `{!Borsh AccessKey}.
Definition set_access_key (account_id : AccountId) (public_key : PublicKey) (access_key : AccessKey) (u : U) : option U :=
  set_value (TrieKey.AccessKey account_id public_key) access_key u.
Definition get_access_key (read : Read) (account_id : AccountId) (public_key : PublicKey) : option (StorageError + option AccessKey) :=
  get_value read (TrieKey.AccessKey account_id public_key).
Definition remove_access_key (account_id : AccountId) (public_key : PublicKey) (u : U) : option U := st_remove (TrieKey.AccessKey account_id public_key) u.

Definition get_access_key_raw (as_bytes : AccountId → bytes) (from_str : bytes → option AccountId) (read : Read) (raw_key : bytes) : option (StorageError + option AccessKey) :=
  match parse_trie_key_access_key_from_raw_key as_bytes from_str raw_key with
  | inr key => get_value read key
  | inl _ => None
  end.

Context `{!Borsh GasKey} `{!Borsh Z}.
Definition set_gas_key (account_id : AccountId) (public_key : PublicKey) (gas_key : GasKey) (u : U) : option U :=
  set_value (TrieKey.GasKey account_id public_key None) gas_key u.
Definition set_gas_key_nonce (account_id : AccountId) (public_key : PublicKey) (index nonce : Z) (u : U) : option U :=
  set_value (TrieKey.GasKey account_id public_key (Some index)) nonce u.

(** ** Receipts *)

Context `{!Borsh ReceivedData} `{!Borsh (ReceiptEnum AccountId)}.
Definition set_received_data (receiver_id : AccountId) (data_id : bytes) (data : ReceivedData) (u : U) : option U := set_value (TrieKey.ReceivedData receiver_id data_id) data u.
Definition get_received_data (read : Read) (receiver_id : AccountId) (data_id : bytes) : option (StorageError + option ReceivedData) :=
  get_value read (TrieKey.ReceivedData receiver_id data_id).

Definition set_postponed_receipt (r : Rcpt) (u : U) : option U :=
  match receipt r with
  | ActionR _ => set_value (PostponedReceipt (Receipt.receiver_id r) (receipt_id r)) r u
  | _ => None
  end.
Definition remove_postponed_receipt (receiver_id : AccountId) (receipt_id : bytes) (u : U) : option U := st_remove (PostponedReceipt receiver_id receipt_id) u.
Definition get_postponed_receipt (read : Read) (receiver_id : AccountId) (receipt_id : bytes) : option (StorageError + option Rcpt) :=
  get_value read (PostponedReceipt receiver_id receipt_id).

Context `{!Borsh TrieQueueIndices} `{!Borsh (gmap Z TrieQueueIndices)}.
Definition get_delayed_receipt_indices (read : Read) : option (StorageError + TrieQueueIndices) := get_or default_indices read DelayedReceiptIndices.
Definition get_buffered_receipt_indices (read : Read) : option (StorageError + gmap Z TrieQueueIndices) := get_or ∅ read BufferedReceiptIndices.

Definition set_delayed_receipt (indices : TrieQueueIndices) (r : Rcpt) (u : U) : option (TrieQueueIndices * U) :=
  u ← set_value (DelayedReceipt (next_available_index indices)) r u;
  n ← checked_add 64 (next_available_index indices) 1;
  Some (mkIndices (first_index indices) n, u).

(** ** Promises that wait to be resumed *)

Context `{!Borsh PromiseYieldIndices} `{!Borsh (PromiseYieldTimeout AccountId)}.
Definition get_promise_yield_indices (read : Read) : option (StorageError + PromiseYieldIndices) := get_or default_yield_indices read TrieKey.PromiseYieldIndices.
Definition set_promise_yield_indices (indices : PromiseYieldIndices) (u : U) : option U := set_value TrieKey.PromiseYieldIndices indices u.

Definition enqueue_promise_yield_timeout (indices : PromiseYieldIndices) (account_id : AccountId) (data_id : bytes) (expires_at : Z) (u : U) : option (PromiseYieldIndices * U) :=
  u ← set_value (TrieKey.PromiseYieldTimeout (yield_next_available_index indices)) (mkYieldTimeout account_id data_id expires_at) u;
  n ← checked_add 64 (yield_next_available_index indices) 1;
  Some (mkYieldIndices (yield_first_index indices) n, u).

Definition set_promise_yield_receipt (r : Rcpt) (u : U) : option U :=
  match receipt r with
  | PromiseYield action_receipt =>
      match input_data_ids action_receipt with
      | [data_id] => set_value (PromiseYieldReceipt (Receipt.receiver_id r) data_id) r u
      | _ => None
      end
  | _ => None
  end.
Definition remove_promise_yield_receipt (receiver_id : AccountId) (data_id : bytes) (u : U) : option U := st_remove (PromiseYieldReceipt receiver_id data_id) u.
Definition get_promise_yield_receipt (read : Read) (receiver_id : AccountId) (data_id : bytes) : option (StorageError + option Rcpt) :=
  get_value read (PromiseYieldReceipt receiver_id data_id).

(** ** Keys without their values; [contains_key] of the state. *)

Context (contains_key : Key → option (StorageError + bool)).
Definition has_received_data (receiver_id : AccountId) (data_id : bytes) : option (StorageError + bool) := contains_key (TrieKey.ReceivedData receiver_id data_id).
Definition has_promise_yield_receipt (receiver_id : AccountId) (data_id : bytes) : option (StorageError + bool) := contains_key (PromiseYieldReceipt receiver_id data_id).
End utils.

(** * Values are read as they were written *)

Section values.
Context {AccountId StorageError U : Type} `{!EqDecision (TrieKey AccountId)} `{!StateStore (TrieKey AccountId) StorageError U}.
Context (key_ok : TrieKey AccountId → Prop) (st_view : U → TrieKey AccountId → option (list Z)) (st_trie_view : U → Base (TrieKey AccountId)).
Context `{!StateStoreOk (TrieKey AccountId) StorageError U key_ok st_view st_trie_view}.

Lemma get_value_ok {A} `{!Borsh A} (ok : A → Prop) `{!BorshOk A ok} u k (v : option A) : key_ok k → st_view u k = borsh_encode <$> v → (∀ a, v = Some a → ok a) →
  get_value (st_get u) k = Some (inr v : StorageError + _).
Proof.
  intros Hk Hv Hok. unfold get_value. rewrite st_get_ok by done. cbn [mbind option_bind]. rewrite Hv. destruct v as [a|]; [|done].
  cbn [fmap option_fmap option_map]. by rewrite (try_from_slice_encode ok) by by apply Hok.
Qed.
End values.
