(* ===== verification/RemoveAccount.v ===== *)
(** The removal of an account from the state (core/store/src/utils/mod.rs): the iterator of the overlay lists the keys
    of the account, the parsers read them, and each is removed. *)

From stdpp Require Import sorting.
From S2P Require Import Prelude Borsh TrieKey SortedMap StateUpdate StateUpdateCorrect StateIter.
Local Open Scope Z_scope.

Section remove.
Context {AccountId : Type} (as_bytes : AccountId → bytes) `{!Borsh (GlobalContractCodeIdentifier AccountId)} `{!Borsh (option Z)}.
Context {Trie StorageError Cause : Type} (inconsistent : StorageError).
(** The items of the trie from [seek_prefix] on. *)
Context (seek_prefix : Trie → bytes → StorageError + list (StorageError + bytes * bytes)).

Abbreviation Update := (TrieUpdate (AccountId := AccountId) (Trie := Trie) (Cause := Cause)).
Abbreviation UM := (M Update StorageError).

Definition updated (f : Update → option Update) : UM () := λ u, match f u with Some u => Ok () u | None => Panic end.

(** [map(..).collect::<Result<Vec<_>, _>>()]: stops at the first error. *)
Fixpoint collect_map {A} (fuel : nat) (parse : bytes → StorageError + A) (s : option (list (StorageError + bytes * bytes) * (list (bytes * option bytes) * list (bytes * option bytes))))
    (acc : list A) : option (StorageError + list A) :=
  match fuel with
  | O => None
  | S fuel =>
      '(item, s) ← iter_next s;
      match item with
      | None => Some (inr acc)
      | Some (inl err) => Some (inl err)
      | Some (inr raw_key) => match parse raw_key with inl err => Some (inl err) | inr a => collect_map fuel parse s (acc ++ [a]) end
      end
  end.

(** [locked_iter(..)?.map(..).collect::<Result<Vec<_>, _>>()?] *)
Definition parsed_keys {A} (parse : bytes → StorageError + A) (prefix : bytes) : UM (list A) := λ u,
  match seek_prefix (trie u) prefix with
  | inl err => Err err u
  | inr items =>
      match (s ← update_iter u prefix items; collect_map (S (iter_size s)) parse s []) with
      | None => Panic
      | Some (inl err) => Err err u
      | Some (inr keys) => Ok keys u
      end
  end.

Definition parse_public_key (account_id : AccountId) (raw_key : bytes) : StorageError + PublicKey :=
  match parse_public_key_from_access_key_key as_bytes raw_key account_id with inr k => inr k | inl _ => inl inconsistent end.
Definition parse_data_key (account_id : AccountId) (raw_key : bytes) : StorageError + bytes :=
  match parse_data_key_from_contract_data_key as_bytes raw_key account_id with inr k => inr k | inl _ => inl inconsistent end.

Definition remove_account (account_id : AccountId) : UM () :=
  _ ← updated (remove as_bytes (Account account_id));
  _ ← updated (remove as_bytes (ContractCode account_id));
  public_keys ← parsed_keys (parse_public_key account_id) (get_raw_prefix_for_access_keys as_bytes account_id);
  _ ← updated (for_each (λ public_key, remove as_bytes (AccessKey account_id public_key)) public_keys);
  data_keys ← parsed_keys (parse_data_key account_id) (get_raw_prefix_for_contract_data as_bytes account_id []);
  updated (for_each (λ key, remove as_bytes (ContractData account_id key)) data_keys).

(** * Correctness *)

Context (from_str : bytes → option AccountId) `{!AccountIds as_bytes from_str}.
Context `{!BorshOk (GlobalContractCodeIdentifier AccountId) identifier_ok} `{!BorshOk (option Z) nonce_index_ok}.
Context (content : Trie → gmap bytes bytes).
Context (seek_prefix_ok : ∀ t prefix, seek_prefix t prefix = inr (trie_items content t prefix)).

Abbreviation Key := (TrieKey AccountId).

Lemma collect_extends fuel s acc r : collect (StorageError := StorageError) fuel s acc = Some (inr r) → ∃ l, r = acc ++ l.
Proof.
  revert s acc. induction fuel as [|fuel IH]; intros s acc; cbn [collect]; [done|]. destruct (iter_next s) as [[item s']|]; [|done]. cbn [mbind option_bind].
  destruct item as [[err|raw]|]; [done| |intros [= <-]; exists []; by rewrite app_nil_r]. intros [l ->]%IH. exists (raw :: l). by rewrite <-app_assoc.
Qed.

Lemma collect_map_ok {A} (parse : bytes → StorageError + A) fuel s acc l acc' :
  collect fuel s acc = Some (inr (acc ++ l)) → (∀ raw, raw ∈ l → ∃ a, parse raw = inr a) →
  ∃ l', collect_map fuel parse s acc' = Some (inr (acc' ++ l')) ∧ Forall2 (λ raw a, parse raw = inr a) l l'.
Proof.
  revert s acc l acc'. induction fuel as [|fuel IH]; intros s acc l acc'; cbn [collect collect_map]; [done|]. destruct (iter_next s) as [[item s']|]; [|done]. cbn [mbind option_bind].
  destruct item as [[err|raw]|]; [done| |].
  - intros Hc Hp. destruct (collect_extends _ _ _ _ Hc) as [l1 Hl]. rewrite <-app_assoc in Hl. apply app_inv_head in Hl as ->. destruct (Hp raw) as [a Ha]; [by left|]. rewrite Ha.
    destruct (IH s' (acc ++ [raw]) l1 (acc' ++ [a])) as (l' & Hl' & Hf); [by rewrite Hc, <-app_assoc|intros r Hr; apply Hp; by right|].
    exists (a :: l'). split; [by rewrite <-app_assoc in Hl'|by constructor].
  - intros [= Hl] _. rewrite <-(app_nil_r acc) in Hl at 1. apply app_inv_head in Hl as <-. exists []. by rewrite app_nil_r.
Qed.

(** The state is well formed: it is represented by [x], and every key of it is the encoding of a well-formed key. *)
Record state_ok (t : Trie) (u : Update) (x : Tx) : Prop := {
  so_rep : rep content t u x;
  so_bytes : byte_keys content u;
  so_keys raw : is_Some (current x !! raw) → ∃ k, key_ok k ∧ to_vec as_bytes k = Some raw
}.

Lemma sorted_keys_size (m : gmap bytes bytes) l : StronglySorted lex_lt l → (∀ k, k ∈ l → is_Some (m !! k)) → (length l <= size m)%nat.
Proof.
  intros Hs Hm. rewrite <-size_dom, <-(size_list_to_set (C := gset bytes) l).
  - apply subseteq_size. intros k Hk. apply elem_of_dom, Hm. by apply elem_of_list_to_set in Hk.
  - clear Hm. induction Hs as [|k l _ IH Hk]; constructor; [|done]. intros Hin. rewrite Forall_forall in Hk. by apply (lex_lt_irrefl k), Hk.
Qed.

Lemma parsed_keys_ok {A} (parse : bytes → StorageError + A) (key : A → Key) `{!Inj (=) (=) key} t u x prefix :
  state_ok t u x → Forall byte_ok prefix →
  (∀ k raw, key_ok k → to_vec as_bytes k = Some raw → prefix `prefix_of` raw → ∃ a, k = key a ∧ parse raw = inr a) →
  (∀ a raw, to_vec as_bytes (key a) = Some raw → prefix `prefix_of` raw) →
  ∃ l, parsed_keys parse prefix u = Ok l u ∧ (length l <= size (current x))%nat ∧
    (∀ a, a ∈ l → key_ok (key a) ∧ ∃ raw, to_vec as_bytes (key a) = Some raw ∧ is_Some (current x !! raw)) ∧
    ∀ a raw, key_ok (key a) → to_vec as_bytes (key a) = Some raw → is_Some (current x !! raw) → a ∈ l.
Proof.
  intros [Hrep Hb Hk] Hp Hparse Hpre. unfold parsed_keys. rewrite seek_prefix_ok, (rep_trie _ _ _ _ Hrep).
  destruct (iter_view (StorageError := StorageError) content t u x prefix Hrep Hb Hp) as (s & l & -> & Hc & Hs & Hl). cbn [mbind option_bind].
  destruct (collect_map_ok parse (S (iter_size s)) s [] l []) as (l' & -> & Hf); [apply Hc; lia|intros raw [Hpr Hi]%Hl; destruct (Hk raw Hi) as (k & Hko & Hv); destruct (Hparse k raw Hko Hv Hpr) as (a & _ & Ha); by exists a|].
  exists l'. split_and!; [done| | |].
  - rewrite <-(Forall2_length _ _ _ Hf). apply sorted_keys_size; [done|]. intros k Hkl. by apply Hl.
  - intros a [i Hi]%list_elem_of_lookup. destruct (Forall2_lookup_r _ _ _ _ _ Hf Hi) as (raw & Hr & Ha). apply list_elem_of_lookup_2, Hl in Hr as [Hpr Hi'].
    destruct (Hk raw Hi') as (k & Hko & Hv). destruct (Hparse k raw Hko Hv Hpr) as (a' & -> & Ha'). assert (a' = a) as -> by congruence. split; [done|]. by exists raw.
  - intros a raw Hko Hv Hi. assert (raw ∈ l) as [i Hr]%list_elem_of_lookup by (apply Hl; split; [by eapply Hpre|done]). destruct (Forall2_lookup_l _ _ _ _ _ Hf Hr) as (a' & Ha' & Hp').
    destruct (Hparse (key a) raw Hko Hv) as (a2 & ->%(inj key) & Hp2); [by eapply Hpre|]. assert (a' = a2) as -> by congruence. by eapply list_elem_of_lookup_2.
Qed.

Lemma remove_keys_ok {A} (key : A → Key) t n l : ∀ u x, state_ok t u x → (∀ a, a ∈ l → ∃ raw, to_vec as_bytes (key a) = Some raw ∧ Forall byte_ok raw) →
  recorder_room (length l + n) (recorder u) →
  ∃ u' x', for_each (λ a, remove as_bytes (key a)) l u = Some u' ∧ state_ok t u' x' ∧ recorder_room n (recorder u') ∧
    ∀ raw, current x' !! raw = if decide (Exists (λ a, to_vec as_bytes (key a) = Some raw) l) then None else current x !! raw.
Proof.
  induction l as [|a l IH]; intros u x Hst Hl Hroom; cbn [for_each].
  { exists u, x. split_and!; [done..|]. intros raw. rewrite decide_False; [done|]. by intros ?%Exists_nil. }
  destruct (Hl a) as (raw & Hv & Hb); [by left|]. destruct (remove_ok as_bytes (key a) raw u (length l + n) Hv Hroom) as (r & -> & Hr). cbn [mbind option_bind].
  set (u1 := mkUpdate _ _ _ _ _). destruct Hst as [Hrep Hbk Hk]. pose proof (write_rep content t u x raw (key a) None r Hrep) as Hrep1. fold u1 in Hrep1.
  destruct (IH u1 _ (Build_state_ok t u1 _ Hrep1
    ltac:(intros k; cbn [u1 prospective committed trie]; destruct (decide (raw = k)) as [<-|Hne]; [done|rewrite lookup_insert_ne by done; apply Hbk])
    ltac:(cbn [current]; intros raw'; destruct (decide (raw = raw')) as [<-|Hne]; [rewrite lookup_partial_alter_eq; by intros [? ?]|rewrite lookup_partial_alter_ne by done; apply Hk])))
    as (u' & x' & Hu & Hst' & Hroom' & Hc); [intros a' Ha'; apply Hl; by right|done|].
  exists u', x'. split_and!; [done..|]. intros raw'. rewrite Hc. cbn [current]. destruct (decide (Exists _ l)) as [He|He].
  - rewrite decide_True; [done|]. by right.
  - destruct (decide (raw = raw')) as [<-|Hne]; [rewrite lookup_partial_alter_eq, decide_True; [done|by left]|].
    rewrite lookup_partial_alter_ne, decide_False; [done| |done]. intros [Ha|Ha]%Exists_cons; [congruence|done].
Qed.

Lemma current_bytes t u x raw : state_ok t u x → is_Some (current x !! raw) → Forall byte_ok raw.
Proof.
  intros [Hrep Hb _] [v Hv]. apply Hb. rewrite (rep_current _ _ _ _ Hrep) in Hv. unfold view, view_committed, last_change in Hv.
  destruct (prospective u !! raw) eqn:E1; [left; by eexists|right]. destruct (committed u !! raw) eqn:E2; [left; by eexists|right]. cbn in Hv. by eexists.
Qed.

Lemma account_bytes_ok a c l : byte_ok c → Forall byte_ok l → Forall byte_ok (c :: as_bytes a ++ l).
Proof.
  intros Hc Hl. constructor; [done|]. apply Forall_app. split; [|done]. eapply Forall_impl; [apply (account_chars a)|]. intros b Hb. cbn in Hb. unfold account_char, between in Hb. unfold byte_ok. lia.
Qed.

(** One round: list the keys with a prefix and remove them. *)
Lemma remove_round {A} (parse : bytes → StorageError + A) (key : A → Key) `{!Inj (=) (=) key} t n u x prefix :
  state_ok t u x → Forall byte_ok prefix → recorder_room (size (current x) + n) (recorder u) →
  (∀ k raw, key_ok k → to_vec as_bytes k = Some raw → prefix `prefix_of` raw → ∃ a, k = key a ∧ parse raw = inr a) →
  (∀ a raw, to_vec as_bytes (key a) = Some raw → prefix `prefix_of` raw) →
  returns (keys ← parsed_keys parse prefix; updated (for_each (λ a, remove as_bytes (key a)) keys)) u (λ _ u', ∃ x', state_ok t u' x' ∧ recorder_room n (recorder u') ∧
    (size (current x') <= size (current x))%nat ∧
    ∀ k raw, key_ok k → to_vec as_bytes k = Some raw →
      ((∃ a, k = key a) → current x' !! raw = None) ∧ ((∀ a, k ≠ key a) → current x' !! raw = current x !! raw)).
Proof.
  intros Hst Hp Hroom Hparse Hpre. destruct (parsed_keys_ok parse key t u x prefix Hst Hp Hparse Hpre) as (l & Hl & Hlen & Hin & Hall). eapply returns_step; [exact Hl|].
  destruct (remove_keys_ok key t n l u x Hst) as (u' & x' & Hu & Hst' & Hroom' & Hc).
  { intros a Ha. destruct (Hin a Ha) as (_ & raw & Hv & Hi). exists raw. split; [done|]. by eapply current_bytes. }
  { unfold recorder_room in *. destruct (recorder u); [lia|done]. }
  eapply returns_Ok; [unfold updated; by rewrite Hu|]. exists x'. split_and!; [done|done| |].
  - rewrite <-!size_dom. apply subseteq_size. intros raw [v Hv]%elem_of_dom. rewrite Hc in Hv. case_decide; [done|]. apply elem_of_dom. by eexists.
  - intros k raw Hk Hv. rewrite Hc. split.
    + intros [a ->]. destruct (current x !! raw) as [v|] eqn:Hx; [|by case_decide]. rewrite decide_True; [done|]. apply Exists_exists. exists a. split; [|done]. by eapply Hall.
    + intros Hne. rewrite decide_False; [done|]. intros (a & Ha & Hva)%Exists_exists. destruct (Hin a Ha) as [Hka _]. apply (Hne a). by apply (to_vec_inj as_bytes from_str k (key a) raw).
Qed.

#[local] Instance access_key_inj (account_id : AccountId) : Inj (=) (=) (AccessKey account_id).
Proof. by intros ?? [=]. Qed.
#[local] Instance contract_data_inj (account_id : AccountId) : Inj (=) (=) (ContractData account_id).
Proof. by intros ?? [=]. Qed.

(** The keys that are removed with an account. *)
Definition removed_with (account_id : AccountId) (k : Key) : Prop :=
  k = Account account_id ∨ k = ContractCode account_id ∨ (∃ pk, k = AccessKey account_id pk) ∨ (∃ key, k = ContractData account_id key).

Lemma access_round account_id k raw : key_ok k → to_vec as_bytes k = Some raw → get_raw_prefix_for_access_keys as_bytes account_id `prefix_of` raw →
  ∃ pk, k = AccessKey account_id pk ∧ parse_public_key account_id raw = inr pk.
Proof.
  intros Hk Hv Hp. apply (prefix_entries as_bytes from_str k raw account_id (ED25519 (replicate 32 0)) [] Hk eq_refl Hv) in Hp as [pk ->]. exists pk. split; [done|].
  unfold parse_public_key. by rewrite (parse_public_key_ok as_bytes account_id pk).
Qed.

Lemma data_round account_id k raw : key_ok k → to_vec as_bytes k = Some raw → get_raw_prefix_for_contract_data as_bytes account_id [] `prefix_of` raw →
  ∃ key, k = ContractData account_id key ∧ parse_data_key account_id raw = inr key.
Proof.
  intros Hk Hv Hp. apply (prefix_entries as_bytes from_str k raw account_id (ED25519 (replicate 32 0)) [] Hk eq_refl Hv) in Hp as [key ->]. exists key. split; [done|].
  unfold parse_data_key. by rewrite (parse_data_key_ok as_bytes account_id key).
Qed.

(** C15: Removing an account removes exactly what belongs to it.  From every well-formed state the removal returns; afterwards the state has no account, code,
    access key or contract data of it, also when they were only in the trie or only written and not yet committed, and all other keys,
    those of accounts whose name starts with the same letters included, have the value they had. *)
Theorem remove_account_exact account_id t u x : state_ok t u x → recorder_room (2 + 2 * size (current x)) (recorder u) →
  returns (remove_account account_id) u (λ _ u', ∃ x', state_ok t u' x' ∧ ∀ k raw, key_ok k → to_vec as_bytes k = Some raw →
    (removed_with account_id k → view content u' raw = None) ∧ (¬ removed_with account_id k → view content u' raw = view content u raw)).
Proof.
  intros Hst Hroom. unfold remove_account. set (sz := size (current x)) in *.
  destruct (remove_keys_ok id t (2 * sz) [Account account_id; ContractCode account_id] u x Hst) as (u1 & x1 & Hu1 & Hst1 & Hroom1 & Hc1).
  { intros k Hk. rewrite elem_of_cons, list_elem_of_singleton in Hk. destruct Hk as [-> | ->]; (eexists; split; [done|]); cbn [id to_vec append_into app]; rewrite <-(app_nil_r (as_bytes account_id)); by apply account_bytes_ok. }
  { done. }
  cbn [for_each id] in Hu1. destruct (remove as_bytes (Account account_id) u) as [u0|] eqn:E0; [|done]. cbn [mbind option_bind] in Hu1.
  destruct (remove as_bytes (ContractCode account_id) u0) as [u0'|] eqn:E1; [|done]. injection Hu1 as ->.
  eapply returns_step; [unfold updated; by rewrite E0|]. eapply returns_step; [unfold updated; by rewrite E1|].
  assert (size (current x1) <= sz)%nat as Hs1.
  { unfold sz. rewrite <-!size_dom. apply subseteq_size. intros raw [v Hv]%elem_of_dom. rewrite Hc1 in Hv. case_decide; [done|]. apply elem_of_dom. by eexists. }
  apply returns_assoc. eapply returns_bind; [apply (remove_round (parse_public_key account_id) (AccessKey account_id) t sz u1 x1 _ Hst1)|].
  { by apply account_bytes_ok; [|repeat constructor]. }
  { unfold recorder_room in *. destruct (recorder u1); [lia|done]. }
  { apply access_round. }
  { intros pk raw [= <-]. eexists. unfold get_raw_prefix_for_access_keys, get_raw_prefix_for_contract_data. by rewrite <-!app_assoc. }
  intros [] u2 (x2 & Hst2 & Hroom2 & Hs2 & Hc2).
  eapply returns_mono; [apply (remove_round (parse_data_key account_id) (ContractData account_id) t 0 u2 x2 _ Hst2)|].
  { by apply account_bytes_ok; [|repeat constructor]. }
  { unfold recorder_room in *. destruct (recorder u2); [lia|done]. }
  { apply data_round. }
  { intros key raw [= <-]. eexists. unfold get_raw_prefix_for_access_keys, get_raw_prefix_for_contract_data. by rewrite <-!app_assoc. }
  intros [] u3 (x3 & Hst3 & _ & _ & Hc3). exists x3. split; [done|]. intros k raw Hk Hv.
  rewrite <-(rep_current _ _ _ _ (so_rep _ _ _ Hst3)), <-(rep_current _ _ _ _ (so_rep _ _ _ Hst)).
  destruct (Hc2 k raw Hk Hv) as [A2 B2], (Hc3 k raw Hk Hv) as [A3 B3]. specialize (Hc1 raw). split.
  - intros Hr. destruct Hr as [->|[->|[[pk ->]|[key ->]]]].
    + rewrite B3, B2, Hc1 by done. rewrite decide_True; [done|]. by left.
    + rewrite B3, B2, Hc1 by done. rewrite decide_True; [done|]. right. by left.
    + rewrite B3 by done. apply A2. by eexists.
    + apply A3. by eexists.
  - intros Hr. rewrite B3, B2, Hc1 by (intros y ->; apply Hr; unfold removed_with; eauto). rewrite decide_False; [done|]. intros (k' & Hin & Hv')%Exists_exists. apply Hr.
    rewrite elem_of_cons, list_elem_of_singleton in Hin. unfold removed_with. destruct Hin as [-> | ->]; [left|right; left]; by apply (to_vec_inj as_bytes from_str k _ raw).
Qed.
End remove.

(** An account with data and a key in the trie, next to one whose name extends it. *)
Module RemoveExample.
Import KeyExample.

Definition keys : list (TrieKey AccountId) := [Account alice; ContractCode alice; AccessKey alice pk; ContractData alice [1]; ContractData alice_near [1]; GasKey alice pk None].
Definition raw (k : TrieKey AccountId) : bytes := default [] (to_vec as_bytes k).
Definition t : gmap bytes bytes := list_to_map ((λ k, (raw k, [7])) <$> keys).
Definition seek_prefix (t : gmap bytes bytes) (prefix : bytes) : () + list (() + bytes * bytes) := inr (trie_items (λ t, t) t prefix).

Abbreviation Update := (TrieUpdate (AccountId := AccountId) (Trie := gmap bytes bytes) (Cause := ())).
Definition u : Update := new_update t (Some (mkRecorder 0 0)).
Definition x : Tx := mkTx t t ∅ ∅.

Lemma t_keys r : is_Some (t !! r) → ∃ k, k ∈ keys ∧ r = raw k.
Proof. intros [v Hv]. apply elem_of_list_to_map_2, list_elem_of_fmap in Hv as (k & [= -> _] & Hk). by exists k. Qed.

Lemma keys_fine : Forall (λ k, key_ok k ∧ to_vec as_bytes k = Some (raw k) ∧ Forall byte_ok (raw k)) keys.
Proof. unfold keys. do 6 (apply Forall_cons; split; [split_and!; [by vm_compute|by vm_compute|by vm_compute; repeat first [apply Forall_nil_2|apply Forall_cons_2; [by split|]]]|]). constructor. Qed.

Lemma u_ok : state_ok as_bytes (λ t, t) t u x.
Proof.
  pose proof keys_fine as Hf. rewrite Forall_forall in Hf. split.
  - apply (new_rep (λ t, t)).
  - intros r [[? H]|[[? H]|H]]; [cbn [u new_update prospective committed] in H; by rewrite lookup_empty in H..|]. apply t_keys in H as (k & Hk & ->). by apply Hf.
  - intros r (k & Hk & ->)%t_keys. exists k. by destruct (Hf k Hk) as (? & ? & _).
Qed.
End RemoveExample.
Import KeyExample RemoveExample.

Lemma remove_account_exact_witness :
  returns (remove_account as_bytes () RemoveExample.seek_prefix alice) RemoveExample.u (λ _ u',
    view (λ t, t) u' (raw (AccessKey alice pk)) = None ∧ view (λ t, t) u' (raw (ContractData alice [1])) = None ∧
    view (λ t, t) u' (raw (ContractData alice_near [1])) = Some [7] ∧ view (λ t, t) u' (raw (GasKey alice pk None)) = Some [7]).
Proof.
  eapply returns_mono; [apply (remove_account_exact as_bytes () RemoveExample.seek_prefix from_str (λ t, t) (λ _ _, eq_refl) alice RemoveExample.t RemoveExample.u RemoveExample.x u_ok)|].
  - by vm_compute.
  - intros [] u' (x' & _ & Hx). split_and!.
    + apply (Hx (AccessKey alice pk)); [by vm_compute..|]. right. right. left. by eexists.
    + apply (Hx (ContractData alice [1])); [by vm_compute..|]. right. right. right. by eexists.
    + rewrite (proj2 (Hx (ContractData alice_near [1]) (raw (ContractData alice_near [1])) ltac:(by vm_compute) ltac:(by vm_compute))); [by vm_compute|].
      by intros [?|[?|[[? ?]|[? [= E]]]]].
    + rewrite (proj2 (Hx (GasKey alice pk None) (raw (GasKey alice pk None)) ltac:(by vm_compute) ltac:(by vm_compute))); [by vm_compute|].
      by intros [?|[?|[[? ?]|[? [= E]]]]].
Defined.
