(* ===== verification/Verifier.v ===== *)
(** Verification of transactions and receipts (runtime/runtime/src/verifier.rs) and of the form of signed
    transactions (core/primitives/src/transaction.rs): limits of actions, storage staking, nonces, access keys,
    and the charge of the signer.

    Account ids, staking keys, signatures and hashes come from libraries: parsing of account ids is [from_str],
    the check of staking keys [is_valid_staking_key] and of signatures [verify]. *)

From S2P Require Import Prelude Errors Borsh Costs TrieKey Fees Receipt Account.
Local Open Scope Z_scope.

(** * Errors *)

Inductive ActionsValidationError : Type :=
| DeleteActionMustBeFinal
| TotalPrepaidGasExceeded (total_prepaid_gas limit : Z)
| TotalNumberOfActionsExceeded (total_number_of_actions limit : Z)
| AddKeyMethodNamesNumberOfBytesExceeded (total_number_of_bytes limit : Z)
| AddKeyMethodNameLengthExceeded (length limit : Z)
| ActionsIntegerOverflow
| InvalidAccountId (account_id : bytes)
| ContractSizeExceeded (size limit : Z)
| FunctionCallMethodNameLengthExceeded (length limit : Z)
| FunctionCallArgumentsLengthExceeded (length limit : Z)
| UnsuitableStakingKey (public_key : PublicKey)
| FunctionCallZeroAttachedGas
| DelegateActionMustBeOnlyOne
| UnsupportedProtocolFeature (version : Z).

Inductive ReceiptValidationError : Type :=
| InvalidPredecessorId (account_id : bytes)
| InvalidReceiverId (account_id : bytes)
| ReturnedValueLengthExceeded (length limit : Z)
| NumberInputDataDependenciesExceeded (number_of_input_data_dependencies limit : Z)
| ReceiptActionsValidation (e : ActionsValidationError)
| ReceiptSizeExceeded (size limit : Z).

Inductive InvalidAccessKeyError (AccountId : Type) : Type :=
| AccessKeyNotFound (account_id : AccountId) (public_key : PublicKey)
| ReceiverMismatch (tx_receiver : AccountId) (ak_receiver : bytes)
| MethodNameMismatch (method_name : bytes)
| RequiresFullAccess
| NotEnoughAllowance (account_id : AccountId) (public_key : PublicKey) (allowance cost : Z)
| DepositWithFunctionCall.
Arguments AccessKeyNotFound {AccountId}.
Arguments ReceiverMismatch {AccountId}.
Arguments MethodNameMismatch {AccountId}.
Arguments RequiresFullAccess {AccountId}.
Arguments NotEnoughAllowance {AccountId}.
Arguments DepositWithFunctionCall {AccountId}.

Inductive InvalidTxError (AccountId StorageError : Type) : Type :=
| TxInvalidAccessKey (e : InvalidAccessKeyError AccountId)
| SignerDoesNotExist (signer_id : AccountId)
| InvalidNonce (tx_nonce ak_nonce : Z)
| NonceTooLarge (tx_nonce upper_bound : Z)
| InvalidSignature
| NotEnoughBalance (signer_id : AccountId) (balance cost : Z)
| LackBalanceForState (signer_id : AccountId) (amount : Z)
| TxActionsValidation (e : ActionsValidationError)
| TransactionSizeExceeded (size limit : Z)
| InvalidTransactionVersion
| TxStorageError (e : StorageError).
Arguments TxInvalidAccessKey {AccountId StorageError}.
Arguments SignerDoesNotExist {AccountId StorageError}.
Arguments InvalidNonce {AccountId StorageError}.
Arguments NonceTooLarge {AccountId StorageError}.
Arguments InvalidSignature {AccountId StorageError}.
Arguments NotEnoughBalance {AccountId StorageError}.
Arguments LackBalanceForState {AccountId StorageError}.
Arguments TxActionsValidation {AccountId StorageError}.
Arguments TransactionSizeExceeded {AccountId StorageError}.
Arguments InvalidTransactionVersion {AccountId StorageError}.
Arguments TxStorageError {AccountId StorageError}.

(** * Limits *)

Inductive AccountIdValidityRulesVersion : Type := RulesV0 | RulesV1.

(** The limits that validation uses. *)
Record LimitConfig : Type := mkLimitConfig {
  max_total_prepaid_gas : Z;
  max_actions_per_receipt : Z;
  max_number_bytes_method_names : Z;
  max_length_method_name : Z;
  max_arguments_length : Z;
  max_length_returned_data : Z;
  max_contract_size : Z;
  max_transaction_size : Z;
  limit_max_receipt_size : Z;
  max_number_input_data_dependencies : Z;
  account_id_validity_rules_version : AccountIdValidityRulesVersion
}.

(** The protocol version in which [ProtocolFeature::GlobalContracts] is enabled. *)
Definition GLOBAL_CONTRACTS : Z := 77.

(** [AccountId::MAX_LEN] *)
Definition ACCOUNT_ID_MAX_LEN : nat := 64.

(** [s.get(..i)]: [None] beyond the end and inside of a character. *)
Definition is_char_boundary (s : bytes) (i : nat) : bool :=
  (i =? 0)%nat || match s !! i with None => (i =? length s)%nat | Some b => (b <? 128) || (192 <=? b) end.
Definition str_get_to (s : bytes) (i : nat) : option bytes := if is_char_boundary s i then Some (take i s) else None.

(** The loop of [truncate_string]; the empty prefix always exists. *)
Fixpoint truncate_loop (s : bytes) (i : nat) : option bytes :=
  match str_get_to s i, i with
  | Some s, _ => Some s
  | None, O => None
  | None, S i => truncate_loop s i
  end.
Definition truncate_string (s : bytes) (limit : nat) : option bytes := truncate_loop s limit.

Section validation.
Context {AccountId : Type} (as_bytes : AccountId → bytes) (from_str : bytes → option AccountId) (is_valid_staking_key : PublicKey → bool).
Context (limit_config : LimitConfig) (current_protocol_version : Z).

Abbreviation Act := (Action AccountId).
Abbreviation V := (Res ActionsValidationError).

Definition len {A} (l : list A) : Z := Z.of_nat (length l).

Definition check_global_contracts_enabled : V () :=
  if GLOBAL_CONTRACTS <=? current_protocol_version then mret () else RErr (UnsupportedProtocolFeature current_protocol_version).

Definition validate_deploy_contract_action (code : bytes) : V () :=
  if max_contract_size limit_config <? len code then RErr (ContractSizeExceeded (len code) (max_contract_size limit_config)) else mret ().

Definition validate_deploy_global_contract_action (code : bytes) : V () :=
  _ ← check_global_contracts_enabled;
  if max_contract_size limit_config <? len code then RErr (ContractSizeExceeded (len code) (max_contract_size limit_config)) else mret ().

Definition validate_use_global_contract_action : V () := check_global_contracts_enabled.

Definition validate_function_call_action (method_name args : bytes) (gas : Z) : V () :=
  if gas =? 0 then RErr FunctionCallZeroAttachedGas
  else if max_length_method_name limit_config <? len method_name
  then RErr (FunctionCallMethodNameLengthExceeded (len method_name) (max_length_method_name limit_config))
  else if max_arguments_length limit_config <? len args
  then RErr (FunctionCallArgumentsLengthExceeded (len args) (max_arguments_length limit_config))
  else mret ().

Definition validate_stake_action (public_key : PublicKey) : V () :=
  if is_valid_staking_key public_key then mret () else RErr (UnsuitableStakingKey public_key).

(** The loop over the method names; the sum is a [u64]. *)
Fixpoint method_names_loop (names : list bytes) (total_number_of_bytes : Z) : V Z :=
  match names with
  | [] => mret total_number_of_bytes
  | method_name :: names =>
      if max_length_method_name limit_config <? len method_name
      then RErr (AddKeyMethodNameLengthExceeded (len method_name) (max_length_method_name limit_config))
      else
        length_and_end ← res_expect (checked_add 64 (len method_name) 1);
        total ← res_expect (checked_add 64 total_number_of_bytes length_and_end);
        method_names_loop names total
  end.

Definition validate_add_key_action (access_key : AccessKey) : V () :=
  match permission access_key with
  | PermFullAccess => mret ()
  | PermFunctionCall fc =>
      _ ← match account_id_validity_rules_version limit_config with
          | RulesV0 => mret ()
          | RulesV1 =>
              match from_str (permitted_receiver fc) with
              | Some _ => mret ()
              | None =>
                  account_id ← res_expect (truncate_string (permitted_receiver fc) (ACCOUNT_ID_MAX_LEN * 2));
                  RErr (InvalidAccountId account_id)
              end
          end;
      total ← method_names_loop (method_names fc) 0;
      if max_number_bytes_method_names limit_config <? total
      then RErr (AddKeyMethodNamesNumberOfBytesExceeded total (max_number_bytes_method_names limit_config))
      else mret ()
  end.

Definition validate_delete_action (beneficiary_id : AccountId) : V () :=
  match from_str (as_bytes beneficiary_id) with
  | Some _ => mret ()
  | None => RErr (InvalidAccountId (as_bytes beneficiary_id))
  end.

(** The loop over the actions; a delete action must be the last one and there is at most one delegate action. *)
Section loop.
Context (validate_action : Act → V ()).

Fixpoint actions_loop (l : list Act) (found_delegate_action : bool) : V () :=
  match l with
  | [] => mret ()
  | action :: rest =>
      match action with
      | DeleteAccount _ =>
          match rest with
          | _ :: _ => RErr DeleteActionMustBeFinal
          | [] => _ ← validate_action action; actions_loop rest found_delegate_action
          end
      | Delegate _ =>
          if found_delegate_action then RErr DelegateActionMustBeOnlyOne
          else _ ← validate_action action; actions_loop rest true
      | _ => _ ← validate_action action; actions_loop rest found_delegate_action
      end
  end.

Definition validate_actions_with (l : list Act) : V () :=
  if max_actions_per_receipt limit_config <? len l then RErr (TotalNumberOfActionsExceeded (len l) (max_actions_per_receipt limit_config))
  else
    _ ← actions_loop l false;
    total ← match total_prepaid_gas l with ROk total => ROk total | RErr _ => RErr ActionsIntegerOverflow | RPanic => RPanic end;
    if max_total_prepaid_gas limit_config <? total then RErr (TotalPrepaidGasExceeded total (max_total_prepaid_gas limit_config)) else mret ().
End loop.

(** [validate_action] and [validate_delegate_action] call each other. *)
Fixpoint validate_action (action : Act) : V () :=
  match action with
  | CreateAccount => mret ()
  | DeployContract code => validate_deploy_contract_action code
  | DeployGlobalContract code _ => validate_deploy_global_contract_action code
  | UseGlobalContract _ => validate_use_global_contract_action
  | FunctionCall method_name args gas _ => validate_function_call_action method_name args gas
  | Transfer _ => mret ()
  | Stake _ public_key => validate_stake_action public_key
  | AddKey _ access_key => validate_add_key_action access_key
  | DeleteKey _ => mret ()
  | DeleteAccount beneficiary_id => validate_delete_action beneficiary_id
  | Delegate signed => validate_actions_with validate_action (actions (delegate_action signed))
  end.

Definition validate_actions (l : list Act) : V () := validate_actions_with validate_action l.

(** ** Receipts *)

Inductive ValidateReceiptMode : Type := NewReceipt | ExistingReceipt.

Abbreviation RV := (Res ReceiptValidationError).

Definition validate_action_receipt (r : ActionReceipt AccountId) : RV () :=
  if max_number_input_data_dependencies limit_config <? len (input_data_ids r)
  then RErr (NumberInputDataDependenciesExceeded (len (input_data_ids r)) (max_number_input_data_dependencies limit_config))
  else match validate_actions (receipt_actions r) with ROk _ => mret () | RErr e => RErr (ReceiptActionsValidation e) | RPanic => RPanic end.

Definition validate_data_receipt (r : DataReceipt) : RV () :=
  let data_len := match data r with Some d => len d | None => 0 end in
  if max_length_returned_data limit_config <? data_len then RErr (ReturnedValueLengthExceeded data_len (max_length_returned_data limit_config)) else mret ().

Definition validate_receipt `{!Borsh (Receipt AccountId)} (r : Receipt AccountId) (mode : ValidateReceiptMode) : RV () :=
  _ ← match mode with
      | NewReceipt =>
          let receipt_size := len (borsh_encode r) in
          if limit_max_receipt_size limit_config <? receipt_size then RErr (ReceiptSizeExceeded receipt_size (limit_max_receipt_size limit_config)) else mret ()
      | ExistingReceipt => mret ()
      end;
  _ ← match from_str (as_bytes (predecessor_id r)) with Some _ => mret () | None => RErr (InvalidPredecessorId (as_bytes (predecessor_id r))) end;
  _ ← match from_str (as_bytes (Receipt.receiver_id r)) with Some _ => mret () | None => RErr (InvalidReceiverId (as_bytes (Receipt.receiver_id r))) end;
  match receipt r with
  | ActionR action_receipt | PromiseYield action_receipt => validate_action_receipt action_receipt
  | DataR data_receipt | PromiseResume data_receipt => validate_data_receipt data_receipt
  | GlobalContractDistribution _ => mret ()
  end.
End validation.

(** * Storage staking *)

Definition ZERO_BALANCE_ACCOUNT_STORAGE_LIMIT : Z := 770.

Inductive StorageStakingError : Type :=
| LackBalanceForStorageStaking (amount : Z)
| StakingStorageError.

Section charge.
Context {AccountId StorageError : Type} (as_bytes : AccountId → bytes) (inconsistent : StorageError) (storage_amount_per_byte : Z).

Definition is_zero_balance_account (account : Account AccountId) : bool := storage_usage account <=? ZERO_BALANCE_ACCOUNT_STORAGE_LIMIT.

Definition check_storage_stake (account : Account AccountId) (account_balance : Z) : StorageStakingError + () :=
  match checked_mul 128 (storage_usage account) storage_amount_per_byte with
  | None => inl StakingStorageError
  | Some required_amount =>
      match checked_add 128 account_balance (locked account) with
      | None => inl StakingStorageError
      | Some available_amount =>
          if required_amount <=? available_amount then inr ()
          else if is_zero_balance_account account then inr ()
          else inl (LackBalanceForStorageStaking (required_amount - available_amount))
      end
  end.

(** * Charging a transaction *)

Abbreviation TxError := (InvalidTxError AccountId StorageError).

(** The signer and the access key, both behind [&mut]. *)
Abbreviation TM := (M (Account AccountId * AccessKey) TxError).

Record VerificationResult : Type := mkVerificationResult {
  vr_gas_burnt : Z;
  vr_gas_remaining : Z;
  vr_receipt_gas_price : Z;
  vr_burnt_amount : Z
}.

Definition ACCESS_KEY_NONCE_RANGE_MULTIPLIER : Z := 1000000.

Definition set_allowance (a : option Z) (p : FunctionCallPermission) : FunctionCallPermission :=
  mkFunctionCallPermission a (permitted_receiver p) (method_names p).
Definition set_permission (p : AccessKeyPermission) (k : AccessKey) : AccessKey := mkAccessKey (access_nonce k) p.
Definition set_nonce (n : Z) (k : AccessKey) : AccessKey := mkAccessKey n (permission k).

(** The allowance of a function call key is reduced in place. *)
Definition reduce_allowance (tx : Transaction (AccountId := AccountId)) (total_cost : Z) : TM () :=
  s ← get_state;
  match permission s.2 with
  | PermFunctionCall perms =>
      match allowance perms with
      | Some a =>
          match checked_sub a total_cost with
          | Some a' => put_state (s.1, set_permission (PermFunctionCall (set_allowance (Some a') perms)) s.2)
          | None => throw (TxInvalidAccessKey (NotEnoughAllowance (tx_signer_id tx) (tx_public_key tx) a total_cost))
          end
      | None => mret ()
      end
  | PermFullAccess => mret ()
  end.

(** What a function call key may do. *)
Definition check_permission (tx : Transaction (AccountId := AccountId)) (p : FunctionCallPermission) : InvalidAccessKeyError AccountId + () :=
  if negb (len (tx_actions tx) =? 1) then inl RequiresFullAccess
  else
    match tx_actions tx !! 0%nat with
    | Some (FunctionCall method_name _ _ deposit) =>
        if 0 <? deposit then inl DepositWithFunctionCall
        else if negb (bool_decide (as_bytes (tx_receiver_id tx) = permitted_receiver p)) then inl (ReceiverMismatch (tx_receiver_id tx) (permitted_receiver p))
        else if negb (bool_decide (method_names p = [])) && forallb (λ name, negb (bool_decide (method_name = name))) (method_names p)
        then inl (MethodNameMismatch method_name)
        else inr ()
    | _ => inl RequiresFullAccess
    end.

Definition verify_and_charge_tx_ephemeral (tx : Transaction (AccountId := AccountId)) (transaction_cost : TransactionCost) (block_height : option Z) : TM VerificationResult :=
  s ← get_state;
  let signer := s.1 in
  let ak_nonce := access_nonce s.2 in
  if tx_nonce tx <=? ak_nonce then throw (InvalidNonce (tx_nonce tx) ak_nonce)
  else
    _ ← match block_height with
        | Some height =>
            upper_bound ← expect (checked_mul 64 height ACCESS_KEY_NONCE_RANGE_MULTIPLIER);
            if upper_bound <=? tx_nonce tx then throw (NonceTooLarge (tx_nonce tx) upper_bound) else mret ()
        | None => mret ()
        end;
    match checked_sub (amount signer) (total_cost transaction_cost) with
    | None => throw (NotEnoughBalance (tx_signer_id tx) (amount signer) (total_cost transaction_cost))
    | Some new_amount =>
        _ ← reduce_allowance tx (total_cost transaction_cost);
        _ ← match check_storage_stake signer new_amount with
            | inr _ => mret ()
            | inl (LackBalanceForStorageStaking missing) => throw (LackBalanceForState (tx_signer_id tx) missing)
            | inl StakingStorageError => throw (TxStorageError inconsistent)
            end;
        s ← get_state;
        _ ← match permission s.2 with
            | PermFunctionCall p => match check_permission tx p with inr _ => mret () | inl e => throw (TxInvalidAccessKey e) end
            | PermFullAccess => mret ()
            end;
        _ ← put_state (set_amount new_amount s.1, set_nonce (tx_nonce tx) s.2);
        mret (mkVerificationResult (gas_burnt transaction_cost) (gas_remaining transaction_cost) (receipt_gas_price transaction_cost) (burnt_amount transaction_cost))
    end.

(** ** When a transaction is accepted *)

Abbreviation Tx := (Transaction (AccountId := AccountId)).

Definition nonce_fits (tx : Tx) (block_height : option Z) (key : AccessKey) : Prop :=
  access_nonce key < tx_nonce tx ∧ ∀ h, block_height = Some h → tx_nonce tx < h * ACCESS_KEY_NONCE_RANGE_MULTIPLIER.

(** The upper bound of the nonces is a [u64]. *)
Definition height_fits (block_height : option Z) : Prop := ∀ h, block_height = Some h → h * ACCESS_KEY_NONCE_RANGE_MULTIPLIER <= umax 64.

(** The balance and the allowance cover the cost. *)
Definition allowance_covers (cost : Z) (key : AccessKey) : Prop :=
  match permission key with PermFunctionCall p => ∀ a, allowance p = Some a → cost <= a | PermFullAccess => True end.

Definition charged_permission (cost : Z) (p : AccessKeyPermission) : AccessKeyPermission :=
  match p with
  | PermFunctionCall p => PermFunctionCall (set_allowance ((λ a, a - cost) <$> allowance p) p)
  | PermFullAccess => PermFullAccess
  end.

(** The balance after the charge pays for the storage. *)
Definition stake_fits (signer : Account AccountId) (balance : Z) : Prop :=
  storage_usage signer * storage_amount_per_byte <= umax 128 ∧ balance + locked signer <= umax 128 ∧
  (storage_usage signer * storage_amount_per_byte <= balance + locked signer ∨ storage_usage signer <= ZERO_BALANCE_ACCOUNT_STORAGE_LIMIT).

(** A function call key allows one call without a deposit, of its receiver and of one of its methods. *)
Definition permitted (tx : Tx) (key : AccessKey) : Prop :=
  match permission key with
  | PermFullAccess => True
  | PermFunctionCall p =>
      ∃ method_name args gas deposit, tx_actions tx = [FunctionCall method_name args gas deposit] ∧ deposit <= 0 ∧
        as_bytes (tx_receiver_id tx) = permitted_receiver p ∧ (method_names p = [] ∨ method_name ∈ method_names p)
  end.

Lemma check_stake_ok signer balance :
  match check_storage_stake signer balance with inr _ => stake_fits signer balance | inl _ => ¬ stake_fits signer balance end.
Proof.
  unfold check_storage_stake, stake_fits, is_zero_balance_account, checked_mul, checked_add.
  destruct (_ <=? umax 128) eqn:E1; [|lia]. destruct (balance + locked signer <=? umax 128) eqn:E2; [|lia].
  destruct (_ <=? balance + locked signer) eqn:E3; [lia|]. destruct (storage_usage signer <=? _) eqn:E4; lia.
Qed.

Lemma check_permission_ok tx key p : permission key = PermFunctionCall p →
  match check_permission tx p with inr _ => permitted tx key | inl _ => ¬ permitted tx key end.
Proof.
  intros Hp. unfold check_permission, permitted, len. rewrite Hp. destruct (tx_actions tx) as [|act [|act' rest]] eqn:Ha; cbn [length].
  - cbn. intros (m & x & g & d & H & _). done.
  - change (Z.of_nat 1 =? 1) with true. cbn [negb lookup list_lookup].
    destruct act as [| |m x g d| | | | | | | |]; try (intros (m' & x' & g' & d' & H & _); done).
    destruct (0 <? d) eqn:Ed; [intros (m' & x' & g' & d' & [= <- <- <- <-] & Hd & _); lia|].
    destruct (bool_decide (as_bytes _ = _)) eqn:Er; cbn [negb]; [apply bool_decide_eq_true in Er|apply bool_decide_eq_false in Er; by intros (m' & x' & g' & d' & _ & _ & Hr & _)].
    destruct (bool_decide (method_names p = [])) eqn:En; cbn [negb andb]; [apply bool_decide_eq_true in En; exists m, x, g, d; split_and!; [done|lia|done|by left]|].
    apply bool_decide_eq_false in En. destruct (forallb _ _) eqn:Ef.
    + intros (m' & x' & g' & d' & [= <- <- <- <-] & _ & _ & [Hn|Hn]); [done|]. rewrite forallb_forall in Ef. apply list_elem_of_In, Ef in Hn. by rewrite bool_decide_true in Hn.
    + exists m, x, g, d. split_and!; [done|lia|done|right]. apply not_true_iff_false in Ef. destruct (decide (m ∈ method_names p)) as [Hin|Hin]; [done|]. destruct Ef. apply forallb_forall.
      intros y Hy%list_elem_of_In. rewrite bool_decide_false by (by intros ->). done.
  - rewrite (proj2 (Z.eqb_neq _ 1)) by lia. cbn. by intros (m & x & g & d & H & _).
Qed.

Lemma permitted_same tx key key' : (∀ p, permission key' = PermFunctionCall p → ∃ p', permission key = PermFunctionCall p' ∧ permitted_receiver p' = permitted_receiver p ∧ method_names p' = method_names p) →
  (permission key' = PermFullAccess → permission key = PermFullAccess) → permitted tx key ↔ permitted tx key'.
Proof.
  intros H1 H2. unfold permitted. destruct (permission key') as [p|]; [|by rewrite H2]. destruct (H1 p) as (p' & -> & E1 & E2); [done|]. by rewrite E1, E2.
Qed.

(** The checks before the allowance is reduced. *)
Definition covered (tx : Tx) (cost : Z) (block_height : option Z) (signer : Account AccountId) (key : AccessKey) : Prop :=
  nonce_fits tx block_height key ∧ height_fits block_height ∧ cost <= amount signer ∧ allowance_covers cost key.

Definition accepted (tx : Tx) (cost : Z) (block_height : option Z) (signer : Account AccountId) (key : AccessKey) : Prop :=
  covered tx cost block_height signer key ∧ stake_fits signer (amount signer - cost) ∧ permitted tx key.

Definition reduced_key (cost : Z) (key : AccessKey) : AccessKey := set_permission (charged_permission cost (permission key)) key.

Definition charged (tx : Tx) (cost : Z) (signer : Account AccountId) (key : AccessKey) : Account AccountId * AccessKey :=
  (set_amount (amount signer - cost) signer, set_nonce (tx_nonce tx) (reduced_key cost key)).

Definition result_of (c : TransactionCost) : VerificationResult := mkVerificationResult (gas_burnt c) (gas_remaining c) (receipt_gas_price c) (burnt_amount c).

Lemma reduce_allowance_ok tx cost signer key :
  match reduce_allowance tx cost (signer, key) with
  | Ok _ s => allowance_covers cost key ∧ s = (signer, reduced_key cost key)
  | Err _ s => ¬ allowance_covers cost key ∧ s = (signer, key)
  | _ => False
  end.
Proof.
  unfold reduce_allowance, allowance_covers, reduced_key, charged_permission, mbind, M_bind, get_state. destruct key as [n [[[a|] r ms]|]]; cbn.
  - unfold checked_sub. destruct (cost <=? a) eqn:E; cbn; split; try done; [intros x [= <-]; lia|]. intros H. specialize (H a eq_refl). lia.
  - split; [by intros x [=]|done].
  - done.
Qed.

Lemma reduced_permitted tx cost key : permitted tx (reduced_key cost key) ↔ permitted tx key.
Proof. unfold permitted, reduced_key, charged_permission. by destruct key as [n [p|]]. Qed.

(** Both checks after the allowance was reduced. *)
Lemma final_checks tx c signer key new_amount (r : VerificationResult) :
  match (_ ← match check_storage_stake signer new_amount with
            | inr _ => mret ()
            | inl (LackBalanceForStorageStaking missing) => throw (LackBalanceForState (tx_signer_id tx) missing)
            | inl StakingStorageError => throw (TxStorageError inconsistent)
            end;
         s ← get_state;
         _ ← match permission s.2 with
            | PermFunctionCall p => match check_permission tx p with inr _ => mret () | inl e => throw (TxInvalidAccessKey e) end
            | PermFullAccess => mret ()
            end;
         _ ← put_state (set_amount new_amount s.1, set_nonce (tx_nonce tx) s.2);
         mret r : TM VerificationResult) (signer, reduced_key c key) with
  | Ok r' s => stake_fits signer new_amount ∧ permitted tx key ∧ s = (set_amount new_amount signer, set_nonce (tx_nonce tx) (reduced_key c key)) ∧ r' = r
  | Err _ s => ¬ (stake_fits signer new_amount ∧ permitted tx key) ∧ s = (signer, reduced_key c key)
  | _ => False
  end.
Proof.
  unfold mbind, M_bind, mret, M_ret, get_state, put_state, throw. pose proof (check_stake_ok signer new_amount) as Hs.
  destruct (check_storage_stake signer new_amount) as [[m|]|[]]; [split; [tauto|done]..|]. cbn [snd]. destruct (permission (reduced_key c key)) as [p|] eqn:Hp.
  - pose proof (check_permission_ok tx (reduced_key c key) p Hp) as Hc. destruct (check_permission tx p) as [e|[]]; rewrite reduced_permitted in Hc; [split; [tauto|done]|done].
  - split_and!; [done| |done|done]. apply (reduced_permitted tx c key). unfold permitted. by rewrite Hp.
Qed.

(** The check of the block height. *)
Lemma height_check (tx : Tx) block_height (s : Account AccountId * AccessKey) :
  match (match block_height with
         | Some height =>
             upper_bound ← expect (checked_mul 64 height ACCESS_KEY_NONCE_RANGE_MULTIPLIER);
             if upper_bound <=? tx_nonce tx then throw (NonceTooLarge (tx_nonce tx) upper_bound) else mret ()
         | None => mret ()
         end : TM ()) s with
  | Ok _ s' => s' = s ∧ height_fits block_height ∧ ∀ h, block_height = Some h → tx_nonce tx < h * ACCESS_KEY_NONCE_RANGE_MULTIPLIER
  | Err _ s' => s' = s ∧ height_fits block_height ∧ ¬ ∀ h, block_height = Some h → tx_nonce tx < h * ACCESS_KEY_NONCE_RANGE_MULTIPLIER
  | Panic => ¬ height_fits block_height
  | OutOfFuel => False
  end.
Proof.
  unfold height_fits. destruct block_height as [h|]; [|by split_and!]. unfold mbind, M_bind, expect, checked_mul.
  destruct (h * _ <=? umax 64) eqn:E1; [|intros H; specialize (H h eq_refl); lia]. cbn. destruct (h * ACCESS_KEY_NONCE_RANGE_MULTIPLIER <=? tx_nonce tx) eqn:E2.
  - split_and!; [done|intros x [= <-]; lia|]. intros H. specialize (H h eq_refl). lia.
  - split_and!; [done|intros x [= <-]; lia..].
Qed.

Lemma verify_cases (tx : Tx) (c : TransactionCost) (block_height : option Z) (signer : Account AccountId) (key : AccessKey) :
  match verify_and_charge_tx_ephemeral tx c block_height (signer, key) with
  | Ok r s => accepted tx (total_cost c) block_height signer key ∧ s = charged tx (total_cost c) signer key ∧ r = result_of c
  | Err _ s => ¬ accepted tx (total_cost c) block_height signer key ∧
      (covered tx (total_cost c) block_height signer key ∧ s = (signer, reduced_key (total_cost c) key) ∨ ¬ covered tx (total_cost c) block_height signer key ∧ s = (signer, key))
  | Panic => access_nonce key < tx_nonce tx ∧ ¬ height_fits block_height
  | OutOfFuel => False
  end.
Proof.
  unfold verify_and_charge_tx_ephemeral, accepted, covered, nonce_fits, height_fits. erewrite bind_Ok by done. cbn [fst snd].
  destruct (tx_nonce tx <=? access_nonce key) eqn:En; [split; [lia|right; split; [lia|done]]|].
  unfold mbind at 1, M_bind at 1. pose proof (height_check tx block_height (signer, key)) as Hh.
  destruct ((match block_height with Some _ => _ | None => _ end : TM ()) (signer, key)) as [[] s|e s| |]; [|destruct Hh as (-> & Hh & Hb)|split; [lia|done]|done].
  2: { split; [tauto|right; split; [tauto|done]]. }
  destruct Hh as (-> & Hh & Hb). unfold checked_sub. destruct (total_cost c <=? amount signer) eqn:Ec; [|split; [lia|right; split; [lia|done]]].
  unfold mbind at 1, M_bind at 1. pose proof (reduce_allowance_ok tx (total_cost c) signer key) as Ha.
  destruct (reduce_allowance tx (total_cost c) (signer, key)) as [[] s|e s| |]; [destruct Ha as [Ha ->]|destruct Ha as [Ha ->]; split; [tauto|right; split; [tauto|done]]|done..].
  pose proof (final_checks tx (total_cost c) signer key (amount signer - total_cost c) (result_of c)) as Hf. unfold result_of in Hf.
  assert (access_nonce key < tx_nonce tx) by lia. assert (total_cost c <= amount signer) by lia.
  match type of Hf with match ?x with _ => _ end => destruct x as [r s|e s| |] end; [|split; [tauto|left; tauto]|done..].
  destruct Hf as (H1 & H2 & -> & ->). split; [tauto|done].
Qed.

(** C13: A transaction is charged exactly when it may be.  It is accepted if and only if its nonce is above the nonce of the key and
    below the bound of the block height, the balance and the allowance cover the cost, the remaining balance pays for the storage, and the
    key permits its actions; then exactly the cost is taken from the balance and from the allowance, and the nonce of the key becomes
    its nonce, so it cannot be accepted again.  Otherwise the account and the nonce are not changed.  The only panic is a
    block height whose bound of nonces is beyond 64 bits. *)
Theorem transaction_charged_or_rejected (tx : Tx) (c : TransactionCost) (block_height : option Z) (signer : Account AccountId) (key : AccessKey) :
  match verify_and_charge_tx_ephemeral tx c block_height (signer, key) with
  | Ok r s => accepted tx (total_cost c) block_height signer key ∧ s = charged tx (total_cost c) signer key ∧ r = result_of c
  | Err _ s => ¬ accepted tx (total_cost c) block_height signer key ∧
      (covered tx (total_cost c) block_height signer key ∧ s = (signer, reduced_key (total_cost c) key) ∨ ¬ covered tx (total_cost c) block_height signer key ∧ s = (signer, key))
  | Panic => access_nonce key < tx_nonce tx ∧ ¬ height_fits block_height
  | OutOfFuel => False
  end.
Proof. apply verify_cases. Qed.
End charge.
