(* ===== verification/Transaction.v ===== *)
(** Transactions (core/primitives/src/transaction.rs): the bytes of their two versions, signed transactions, and
    the checks that need no state (runtime/runtime/src/verifier.rs, [validate_transaction]).

    The hash and the verification of signatures come from libraries and are parameters. *)

From S2P Require Import Prelude Errors Borsh Costs TrieKey Fees Receipt Account Verifier.
Local Open Scope Z_scope.

Section transaction.
Context {AccountId : Type} `{!Borsh AccountId} (as_bytes : AccountId → bytes) (from_str : bytes → option AccountId).
Context `{!Borsh (list (Action AccountId))}.

Abbreviation Tx := (Transaction (AccountId := AccountId)).

(** The derived implementations. *)
Definition encode_tx_v0 (tx : TransactionV0 (AccountId := AccountId)) : bytes :=
  borsh_encode (tx0_signer_id tx) ++ borsh_encode (tx0_public_key tx) ++ encode_u64 (tx0_nonce tx) ++ borsh_encode (tx0_receiver_id tx) ++
  tx0_block_hash tx ++ borsh_encode (tx0_actions tx).
Definition encode_tx_v1 (tx : TransactionV1 (AccountId := AccountId)) : bytes :=
  borsh_encode (tx1_signer_id tx) ++ borsh_encode (tx1_public_key tx) ++ encode_u64 (tx1_nonce tx) ++ borsh_encode (tx1_receiver_id tx) ++
  tx1_block_hash tx ++ borsh_encode (tx1_actions tx) ++ encode_u64 (tx1_priority_fee tx).

Definition transaction_serialize (t : Tx) : bytes :=
  match t with
  | TransactionIsV0 tx => encode_tx_v0 tx
  | TransactionIsV1 tx => 1 :: encode_tx_v1 tx
  end.

(** The length of the account id is already read. *)
Definition read_signer_id (buf reader : bytes) : option (AccountId * bytes) :=
  '(str_vec, reader) ← read_bytes (Z.to_nat (from_le_bytes buf)) reader;
  a ← from_str str_vec;
  Some (a, reader).

(** The fields that both versions have after the signer. *)
Definition read_fields (reader : bytes) : option (PublicKey * Z * AccountId * bytes * list (Action AccountId) * bytes) :=
  '(public_key, reader) ← borsh_decode reader;
  '(nonce, reader) ← decode_u64 reader;
  '(receiver_id, reader) ← borsh_decode reader;
  '(block_hash, reader) ← read_bytes 32 reader;
  '(actions, reader) ← borsh_decode reader;
  Some (public_key, nonce, receiver_id, block_hash, actions, reader).

Definition transaction_deserialize (reader : bytes) : option (Tx * bytes) :=
  match reader with
  | u1 :: u2 :: u3 :: u4 :: reader =>
      if u2 =? 0 then
        '(signer_id, reader) ← read_signer_id [u1; u2; u3; u4] reader;
        '(public_key, nonce, receiver_id, block_hash, actions, reader) ← read_fields reader;
        Some (TransactionIsV0 (mkTransactionV0 signer_id public_key nonce receiver_id block_hash actions), reader)
      else
        match reader with
        | u5 :: reader =>
            '(signer_id, reader) ← read_signer_id [u2; u3; u4; u5] reader;
            '(public_key, nonce, receiver_id, block_hash, actions, reader) ← read_fields reader;
            '(priority_fee, reader) ← decode_u64 reader;
            Some (TransactionIsV1 (mkTransactionV1 signer_id public_key nonce receiver_id block_hash actions priority_fee), reader)
        | [] => None
        end
  | _ => None
  end.

#[export] Instance Transaction_borsh : Borsh Tx := {| borsh_encode := transaction_serialize; borsh_decode := transaction_deserialize |}.

(** * Signed transactions *)

Context (hash : bytes → bytes) (verify : bytes → bytes → PublicKey → bool).

Definition get_hash_and_size (t : Tx) : bytes * Z := let bytes := borsh_encode t in (hash bytes, Z.of_nat (length bytes)).

(** The hash and the size are computed once. *)
Record SignedTransaction : Type := mkSignedTransaction {
  transaction : Tx;
  tx_signature : bytes;
  tx_hash : bytes;
  tx_size : Z
}.

Definition new_signed (signature : bytes) (t : Tx) : SignedTransaction :=
  let '(h, size) := get_hash_and_size t in mkSignedTransaction t signature h size.

Context {StorageError : Type} (is_valid_staking_key : PublicKey → bool) (limit_config : LimitConfig) (current_protocol_version : Z).
Abbreviation TxError := (InvalidTxError AccountId StorageError).

(** [ValidatedTransaction::new]: a validated transaction is the signed one. *)
Definition validated_new (s : SignedTransaction) : TxError + SignedTransaction :=
  match transaction s with
  | TransactionIsV1 _ => inl InvalidTransactionVersion
  | TransactionIsV0 _ =>
      if max_transaction_size limit_config <? tx_size s then inl (TransactionSizeExceeded (tx_size s) (max_transaction_size limit_config))
      else if verify (tx_signature s) (tx_hash s) (tx_public_key (transaction s)) then inr s
      else inl InvalidSignature
  end.

(** [None] is a panic. *)
Definition validate_transaction (s : SignedTransaction) : option (TxError + SignedTransaction) :=
  match validate_actions as_bytes from_str is_valid_staking_key limit_config current_protocol_version (tx_actions (transaction s)) with
  | RPanic => None
  | RErr e => Some (inl (TxActionsValidation e))
  | ROk _ => Some (validated_new s)
  end.

(** * Round trip *)

Context `{!AccountIds as_bytes from_str} `{!AccountIdBorsh as_bytes} (actions_ok : list (Action AccountId) → Prop) `{!BorshOk (list (Action AccountId)) actions_ok}.

Definition transaction_ok (t : Tx) : Prop :=
  public_key_ok (tx_public_key t) ∧ in_u 64 (tx_nonce t) ∧ length (tx_block_hash t) = 32%nat ∧ actions_ok (tx_actions t) ∧ in_u 64 (default 0 (tx_priority_fee t)).

(** The length of an account id, and then its bytes. *)
Lemma account_bytes (a : AccountId) : ∃ n, 2 <= n <= 64 ∧ borsh_encode a = [n; 0; 0; 0] ++ as_bytes a ∧ n = Z.of_nat (length (as_bytes a)).
Proof.
  pose proof (account_length a) as Hl. rewrite account_encode. set (n := Z.of_nat (length (as_bytes a))). exists n. assert (0 <= n < 256) as Hn by lia.
  rewrite !to_le_bytes_S, (Z.mod_small n 256), (Z.div_small n 256) by done. split_and!; [lia|lia|done|done].
Qed.

Lemma read_signer_app (a : AccountId) n rest : n = Z.of_nat (length (as_bytes a)) → 2 <= n <= 64 → read_signer_id [n; 0; 0; 0] (as_bytes a ++ rest) = Some (a, rest).
Proof.
  intros -> Hn. unfold read_signer_id. change (from_le_bytes [?x; 0; 0; 0]) with (x + 256 * (0 + 256 * (0 + 256 * (0 + 256 * 0)))).
  replace (Z.to_nat _) with (length (as_bytes a)) by lia. rewrite read_bytes_app by done. cbn [mbind option_bind]. by rewrite from_str_as_bytes.
Qed.

Lemma read_fields_app k n (r : AccountId) h l rest : public_key_ok k → in_u 64 n → length h = 32%nat → actions_ok l →
  read_fields (borsh_encode k ++ encode_u64 n ++ borsh_encode r ++ h ++ borsh_encode l ++ rest) = Some (k, n, r, h, l, rest).
Proof.
  intros Hk Hn Hh Hl. unfold read_fields. rewrite (borsh_roundtrip (ok := public_key_ok)) by done. cbn [mbind option_bind]. rewrite decode_encode_u64 by done. cbn [mbind option_bind].
  rewrite (borsh_roundtrip (ok := λ _, True)) by done. cbn [mbind option_bind]. rewrite read_bytes_app by done. cbn [mbind option_bind]. by rewrite borsh_roundtrip.
Qed.

#[export] Instance transaction_roundtrip : BorshOk Tx transaction_ok.
Proof.
  intros [[a k n r h l]|[a k n r h l f]] rest (Hk & Hn & Hh & Hl & Hf); destruct (account_bytes a) as (m & Hm & Ea & Em);
    cbn [borsh_encode borsh_decode Transaction_borsh transaction_serialize tx_public_key tx_nonce tx_block_hash tx_actions tx_priority_fee] in *; unfold encode_tx_v0, encode_tx_v1;
    cbn [tx0_signer_id tx0_public_key tx0_nonce tx0_receiver_id tx0_block_hash tx0_actions tx1_signer_id tx1_public_key tx1_nonce tx1_receiver_id tx1_block_hash tx1_actions tx1_priority_fee default] in *;
    rewrite Ea, <-!app_assoc; cbn [app transaction_deserialize].
  - rewrite Z.eqb_refl, read_signer_app by done. cbn [mbind option_bind]. by rewrite read_fields_app.
  - rewrite (proj2 (Z.eqb_neq m 0)) by lia.
    rewrite <-!app_assoc, read_signer_app by done. cbn [mbind option_bind]. rewrite read_fields_app by done. cbn [mbind option_bind]. by rewrite decode_encode_u64.
Qed.
End transaction.
