(* ===== verification/ReceiptQueues.v ===== *)
(** The queues of receipts (core/store/src/trie/receipts_column_helper.rs): the delayed receipts, and
    the buffers of outgoing receipts, one per receiving shard.  The state below is the interface
    [StateStore], which the overlay [StateUpdate] implements here. *)

From S2P Require Import Prelude Errors ShardLayout Borsh TrieKey SortedMap StateUpdate StateUpdateCorrect TrieQueue Receipt.
Local Open Scope Z_scope.

#[export] Instance PublicKey_eq : EqDecision PublicKey.
Proof. solve_decision. Defined.
#[export] Instance GlobalContractCodeIdentifier_eq `{EqDecision AccountId} : EqDecision (GlobalContractCodeIdentifier AccountId).
Proof. solve_decision. Defined.
#[export] Instance TrieKey_eq `{EqDecision AccountId} : EqDecision (TrieKey AccountId).
Proof. solve_decision. Defined.

(** * The overlay as a state *)

Section overlay.
Context {AccountId : Type} `{!EqDecision AccountId} (as_bytes : AccountId → bytes) (from_str : bytes → option AccountId) `{!AccountIds as_bytes from_str}.
Context `{!Borsh (GlobalContractCodeIdentifier AccountId)} `{!BorshOk (GlobalContractCodeIdentifier AccountId) identifier_ok}.
Context `{!Borsh (option Z)} `{!BorshOk (option Z) nonce_index_ok}.
Context {Trie StorageError Cause : Type} (trie_get : Trie → bytes → StorageError + option bytes) (inconsistent : StorageError).
Context (content : Trie → gmap bytes bytes) (trie_get_content : ∀ t k, trie_get t k = inr (content t !! k)).

Abbreviation Key := (TrieKey AccountId).
Abbreviation Update := (TrieUpdate (AccountId := AccountId) (Trie := Trie) (Cause := Cause)).

#[export] Instance overlay_store : StateStore Key StorageError Update := {|
  st_get u k := get as_bytes trie_get u k;
  st_get_trie u k := key ← to_vec as_bytes k; Some (trie_get (trie u) key);
  st_set k v u := set as_bytes k v u;
  st_remove k u := remove as_bytes k u;
  st_inconsistent := inconsistent
|}.

(** The keys of the runtime itself; the removal of contract data is also recorded. *)
Definition runtime_key (k : Key) : Prop := key_ok k ∧ is_Some (to_vec as_bytes k) ∧ is_contract_data k = false.

Definition key_view (u : Update) (k : Key) : option bytes := raw ← to_vec as_bytes k; view content u raw.
Definition key_trie_view (u : Update) : Base Key :=
  mkBase (λ k, raw ← to_vec as_bytes k; content (trie u) !! raw) (bool_decide (is_Some (contract_storage u))).

Lemma view_prospective (u u' : Update) raw k kv :
  prospective u' = <[raw := kv]> (prospective u) → committed u' = committed u → trie u' = trie u →
  view content u' k = if decide (k = raw) then kv_value kv else view content u k.
Proof.
  intros Hp Hc Ht. unfold view, view_committed, last_change. rewrite Hp, Hc, Ht. destruct (decide (k = raw)) as [->|Hne].
  - by rewrite lookup_insert_eq.
  - by rewrite lookup_insert_ne.
Qed.

Lemma key_view_change (u u' : Update) k raw kv k' :
  runtime_key k → runtime_key k' → to_vec as_bytes k = Some raw →
  prospective u' = <[raw := kv]> (prospective u) → committed u' = committed u → trie u' = trie u →
  key_view u' k' = if decide (k' = k) then kv_value kv else key_view u k'.
Proof.
  intros (Hk & _) (Hk' & [raw' Hr'] & _) Hr Hp Hc Ht. unfold key_view. rewrite Hr'. cbn [mbind option_bind]. rewrite (view_prospective u u' raw) with (kv := kv) by done.
  destruct (decide (k' = k)) as [->|Hne]; [by rewrite Hr in Hr'; injection Hr' as ->; rewrite decide_True|].
  rewrite decide_False; [done|]. intros ->. apply Hne. by apply (to_vec_inj as_bytes from_str k' k raw).
Qed.

#[export] Instance overlay_store_ok : StateStoreOk Key StorageError Update runtime_key key_view key_trie_view.
Proof.
  split.
  - intros u k (_ & [raw Hr] & _). cbn [st_get overlay_store]. unfold get, key_view, get_from_updates. rewrite Hr. cbn [mbind option_bind]. f_equal.
    unfold get_ref_from_updates, view, view_committed, last_change. destruct (prospective u !! raw); [done|].
    destruct (committed u !! raw) as [c|]; cbn [mbind option_bind]; [|apply trie_get_content]. destruct (last (changes c)); [done|apply trie_get_content].
  - intros u k (_ & [raw Hr] & _). cbn [st_get_trie overlay_store]. unfold key_trie_view. cbn [base_view]. rewrite Hr. cbn. by rewrite trie_get_content.
  - intros u k v Hk. assert (Hk' := Hk). destruct Hk' as (_ & [raw Hr] & _). cbn [st_set overlay_store]. unfold set. rewrite Hr. cbn [mbind option_bind].
    eexists. split_and!; [done|done|]. intros k' Hk'. by eapply (key_view_change u _ k raw (mkKeyValue k (Some v))).
  - intros u k Hk. assert (Hk' := Hk). destruct Hk' as (_ & [raw Hr] & Hd). cbn [st_remove overlay_store]. unfold remove. rewrite Hr, Hd.
    destruct (recorder u) as [r|]; cbn [mbind option_bind]; eexists; (split_and!; [done|done|]; intros k' Hk'; by eapply (key_view_change u _ k raw (mkKeyValue k None))).
Qed.

(** A commit changes no value, as long as the update is in use. *)
Lemma overlay_commit_ok event (u : Update) : base_live (key_trie_view u) = true →
  ∃ u', commit event u = Some u' ∧ key_trie_view u' = key_trie_view u ∧ ∀ k, key_view u' k = key_view u k.
Proof.
  intros [t Ht]%bool_decide_eq_true. unfold commit. rewrite Ht. cbn [mbind option_bind]. eexists. split_and!; [done| |].
  - unfold key_trie_view. cbn [trie contract_storage]. f_equal. rewrite !bool_decide_true; [done|by eexists|by eexists].
  - intros k. unfold key_view. destruct (to_vec as_bytes k) as [raw|]; [|done]. cbn [mbind option_bind]. unfold view at 1. cbn [prospective]. rewrite lookup_empty.
    eapply commit_view. unfold commit. rewrite Ht. done.
Qed.
End overlay.

(** * Queues *)

Section queues.
Context {AccountId StorageError U : Type} `{!StateStore (TrieKey AccountId) StorageError U}.
Context `{!Borsh TrieQueueIndices} `{!Borsh (gmap Z TrieQueueIndices)}.

Abbreviation Key := (TrieKey AccountId).
Abbreviation Read := (Key → option (StorageError + option bytes)).

(** [get] and [set] of values. *)
Definition read_value {A} `{!Borsh A} (read : Read) (key : Key) : Res (RuntimeError StorageError) (option A) :=
  match read key with
  | None => RPanic
  | Some r => match decode_item r with inl e => RErr e | inr o => ROk o end
  end.

Definition write_value {A} `{!Borsh A} (key : Key) (value : A) (u : U) : option U := st_set key (borsh_encode value) u.

(** ** Delayed receipts *)

Record DelayedReceiptQueue : Type := mkDelayedReceiptQueue { delayed_indices : TrieQueueIndices }.

#[export] Instance delayed_queue : TrieQueue Key U DelayedReceiptQueue := {|
  indices := delayed_indices;
  set_indices _ i := mkDelayedReceiptQueue i;
  write_indices q u := write_value DelayedReceiptIndices (delayed_indices q) u;
  trie_key _ index := DelayedReceipt index
|}.

Definition load_delayed (read : Read) : Res (RuntimeError StorageError) DelayedReceiptQueue :=
  o ← read_value read DelayedReceiptIndices;
  mret (mkDelayedReceiptQueue (default default_indices o)).

(** ** Outgoing receipts *)

(** [BufferedReceiptIndices] is the map. *)
Record ShardsOutgoingReceiptBuffer : Type := mkBuffers { shards_indices : gmap Z TrieQueueIndices }.

(** The buffer of one shard borrows its parent. *)
Record OutgoingReceiptBuffer : Type := mkBuffer { buffer_shard_id : Z; parent : ShardsOutgoingReceiptBuffer }.

Definition load_buffers (read : Read) : Res (RuntimeError StorageError) ShardsOutgoingReceiptBuffer :=
  o ← read_value read BufferedReceiptIndices;
  mret (mkBuffers (default ∅ o)).

Definition to_shard (b : ShardsOutgoingReceiptBuffer) (shard_id : Z) : OutgoingReceiptBuffer := mkBuffer shard_id b.

Definition shards (b : ShardsOutgoingReceiptBuffer) : list Z := (ShardLayout.entries (shards_indices b)).*1.

(** The outer option is a panic. *)
Definition buffer_len (b : ShardsOutgoingReceiptBuffer) (shard_id : Z) : option (option Z) :=
  match shards_indices b !! shard_id with
  | None => Some None
  | Some i => Some <$> indices_len i
  end.

Definition write_buffers (b : ShardsOutgoingReceiptBuffer) (u : U) : option U := write_value BufferedReceiptIndices (shards_indices b) u.

#[export] Instance buffer_queue : TrieQueue Key U OutgoingReceiptBuffer := {|
  indices b := default default_indices (shards_indices (parent b) !! buffer_shard_id b);
  set_indices b i := mkBuffer (buffer_shard_id b) (mkBuffers (<[buffer_shard_id b := i]> (shards_indices (parent b))));
  write_indices b u := write_buffers (parent b) u;
  trie_key b index := BufferedReceipt (buffer_shard_id b) index
|}.
End queues.

Section queue_laws.
Context {AccountId StorageError U : Type} `{!EqDecision AccountId} `{!StateStore (TrieKey AccountId) StorageError U}.
Context `{!Borsh TrieQueueIndices} `{!Borsh (gmap Z TrieQueueIndices)}.
Context (key_ok : TrieKey AccountId → Prop) (st_view : U → TrieKey AccountId → option bytes) (st_trie_view : U → Base (TrieKey AccountId)).
Context `{!StateStoreOk (TrieKey AccountId) StorageError U key_ok st_view st_trie_view}.

(** Keys of queues are well formed up to the last index; the ids of shards have 16 bits. *)
Class QueueKeys : Prop := {
  delayed_indices_ok : key_ok DelayedReceiptIndices;
  delayed_item_ok n : in_u 64 n → key_ok (DelayedReceipt n);
  buffered_indices_ok : key_ok BufferedReceiptIndices;
  buffered_item_ok s n : in_u 16 s → in_u 64 n → key_ok (BufferedReceipt s n);
  groups_data_ok s : in_u 16 s → key_ok (BufferedReceiptGroupsQueueData s);
  groups_item_ok s n : in_u 16 s → in_u 64 n → key_ok (BufferedReceiptGroupsQueueItem s n);
}.
Context `{!QueueKeys}.

#[export] Instance delayed_queue_ok :
  TrieQueueOk key_ok DelayedReceiptQueue (λ _, True) (λ _, DelayedReceiptIndices) (λ q, borsh_encode (delayed_indices q)).
Proof. split; try done; intros; [by apply delayed_indices_ok|by apply delayed_item_ok|cbn in *; congruence]. Qed.

#[export] Instance buffer_queue_ok :
  TrieQueueOk key_ok OutgoingReceiptBuffer (λ b, in_u 16 (buffer_shard_id b)) (λ _, BufferedReceiptIndices)
    (λ b, borsh_encode (shards_indices (parent b))).
Proof.
  split; try done; cbn.
  - intros [s p] i. cbn. by rewrite lookup_insert_eq.
  - intros [s p] i j. cbn. by rewrite insert_insert_eq.
  - intros. apply buffered_indices_ok.
  - intros. by apply buffered_item_ok.
  - congruence.
Qed.
End queue_laws.

(** The keys of the overlay are such keys. *)
Section overlay_keys.
Context {AccountId : Type} (as_bytes : AccountId → bytes) `{!Borsh (GlobalContractCodeIdentifier AccountId)} `{!Borsh (option Z)}.

#[export] Instance runtime_queue_keys : QueueKeys (runtime_key as_bytes).
Proof.
  assert (∀ s, in_u 16 s → in_u 64 s) as H16 by (unfold in_u, umax; lia).
  split; unfold runtime_key.
  - by split_and!.
  - intros n Hn. by split_and!.
  - by split_and!.
  - intros s n Hs Hn. split_and!; [by split; [apply H16|]| |done]. unfold to_vec, append_into. rewrite (proj2 (Z.leb_le s (umax 16))) by apply Hs. done.
  - intros s Hs. split_and!; [by apply H16|done|done].
  - intros s n Hs Hn. split_and!; [by split; [apply H16|]|done|done].
Qed.
End overlay_keys.

(** Delayed receipts in the overlay of an empty trie. *)
Module QueueExample.
Import KeyExample ReceiptExample.

#[export] Instance indices_borsh : Borsh TrieQueueIndices := {|
  borsh_encode i := encode_u64 (first_index i) ++ encode_u64 (next_available_index i);
  borsh_decode bytes :=
    '(f, bytes) ← decode_u64 bytes;
    '(n, bytes) ← decode_u64 bytes;
    Some (mkIndices f n, bytes)
|}.

Definition trie_get (t : gmap bytes bytes) (k : bytes) : () + option bytes := inr (t !! k).
#[export] Instance store : StateStore (TrieKey KeyExample.AccountId) () (TrieUpdate (Trie := gmap bytes bytes) (Cause := ())) :=
  overlay_store KeyExample.as_bytes trie_get ().
#[export] Instance store_ok : StateStoreOk (TrieKey KeyExample.AccountId) () (TrieUpdate (Trie := gmap bytes bytes) (Cause := ()))
    (runtime_key KeyExample.as_bytes) (key_view KeyExample.as_bytes id) (key_trie_view KeyExample.as_bytes id) :=
  overlay_store_ok KeyExample.as_bytes KeyExample.from_str trie_get () id (λ _ _, eq_refl).
Definition u0 : TrieUpdate (AccountId := KeyExample.AccountId) (Trie := gmap bytes bytes) (Cause := ()) := new_update ∅ None.
Definition q0 : DelayedReceiptQueue := mkDelayedReceiptQueue default_indices.
End QueueExample.

Import KeyExample ReceiptExample QueueExample.

Lemma queue_refines_list_witness :
  match run_ops exec_op [OpPushBack ReceiptExample.stored; OpPushBack (PlainReceipt ReceiptExample.plain); OpPopFront; OpLen]
    (QueueExample.q0, QueueExample.u0) with
  | Ok results _ => results = [Done; Done; Popped (Some ReceiptExample.stored); Count 1]
  | _ => False
  end.
Proof.
  pose proof (queue_refines_list (runtime_key KeyExample.as_bytes) (key_view KeyExample.as_bytes id) (key_trie_view KeyExample.as_bytes id)
    (stored_ok ReceiptExample.enum_ok) (λ _, True) (λ _, DelayedReceiptIndices) (λ q, borsh_encode (delayed_indices q)) QueueExample.q0 QueueExample.u0 []
    [OpPushBack ReceiptExample.stored; OpPushBack (PlainReceipt ReceiptExample.plain); OpPopFront; OpLen]) as H.
  assert (spec_run : run_ops spec_op [OpPushBack ReceiptExample.stored; OpPushBack (PlainReceipt ReceiptExample.plain); OpPopFront; OpLen]
    ([], umax 64 - next_available_index (indices QueueExample.q0)) =
    (Ok [Done; Done; Popped (Some ReceiptExample.stored); Count 1] ([PlainReceipt ReceiptExample.plain], umax 64 - 2)
     : outcome _ (RuntimeError ()) _)) by by vm_compute.
  rewrite spec_run in H. unfold same in H.
  destruct (run_ops exec_op _ _) as [results s| | |]; (apply H; [split; try done; by vm_compute|repeat constructor; by vm_compute]).
Defined.
