(* ===== verification/RuntimeStore.v ===== *)
(** What the execution of receipts needs of the state beyond reading and writing: to commit and roll back, the lengths and
    hashes of values, contract code, and the removal of accounts.  The overlay implements it. *)

From S2P Require Import Prelude Errors Borsh TrieKey SortedMap StateUpdate StateUpdateCorrect StateIter TrieQueue ReceiptQueues RemoveAccount.
Local Open Scope Z_scope.

(** [StateChangeCause] (core/primitives/src/types.rs) *)
Inductive StateChangeCause : Type :=
| NotWritableToDisk
| InitialState
| TransactionProcessing (tx_hash : bytes)
| ActionReceiptProcessingStarted (receipt_hash : bytes)
| ActionReceiptGasReward (receipt_hash : bytes)
| ReceiptProcessing (receipt_hash : bytes)
| CausePostponedReceipt (receipt_hash : bytes)
| UpdatedDelayedReceipts
| CauseValidatorAccountsUpdate
| Migration
| UnusedReshardingV2
| BandwidthSchedulerStateUpdate.

Class RuntimeStore (AccountId StorageError U : Type) `{StateStore (TrieKey AccountId) StorageError U} : Type := {
  rs_commit : StateChangeCause → U → option U;
  rs_rollback : U → option U;
  rs_contains_key : U → TrieKey AccountId → option (StorageError + bool);
  rs_get_ref : U → TrieKey AccountId → option (StorageError + option (Z * bytes));
  rs_get_code : U → AccountId → bytes → option (StorageError + option Code);
  rs_get_code_len : U → AccountId → option (StorageError + option Z);
  rs_set_code : AccountId → Code → U → option U;
  rs_record_contract_deploy : Code → U → option U;
  rs_record_contract_call : AccountId → bytes → AccountContract AccountId → bool → U → option (StorageError + U);
  rs_remove_account : AccountId → M U StorageError ()
}.

(** What an operation leaves as it is: the trie below, the values a rollback returns to, and the values of all keys outside of [touched]. *)
Record st_frame {Key U : Type} (key_ok : Key → Prop) (st_view st_saved : U → Key → option (list Z)) (st_trie_view : U → Base Key) (touched : Key → Prop) (u u' : U) : Prop := {
  fr_base : st_trie_view u' = st_trie_view u;
  fr_saved k : st_saved u' k = st_saved u k;
  fr_view k : key_ok k → ¬ touched k → st_view u' k = st_view u k
}.

Section frames.
Context {Key U : Type} (key_ok : Key → Prop) (st_view st_saved : U → Key → option (list Z)) (st_trie_view : U → Base Key).
Abbreviation frame := (st_frame key_ok st_view st_saved st_trie_view).

Lemma st_frame_refl touched u : frame touched u u.
Proof. by split. Qed.

Lemma st_frame_trans touched u u1 u' : frame touched u u1 → frame touched u1 u' → frame touched u u'.
Proof. intros [B1 S1 V1] [B2 S2 V2]. split; [congruence|intros k; by rewrite S2|intros k Hk Hn; by rewrite V2, V1]. Qed.

Lemma frame_weaken (touched touched' : Key → Prop) u u' : (∀ k, touched k → touched' k) → frame touched u u' → frame touched' u u'.
Proof. intros Hw [B1 S1 V1]. split; [done..|]. intros k Hk Hn. apply V1; [done|]. intros Ht. by apply Hn, Hw. Qed.
End frames.

(** The promises, for operations that return. *)
Class RuntimeStoreOk (AccountId StorageError U : Type) `{RuntimeStore AccountId StorageError U} (key_ok : TrieKey AccountId → Prop)
    (st_view st_saved : U → TrieKey AccountId → option (list Z)) (st_trie_view : U → Base (TrieKey AccountId)) : Prop := {
  rs_set_frame k v u u' : key_ok k → st_set k v u = Some u' → st_frame key_ok st_view st_saved st_trie_view (eq k) u u';
  rs_remove_frame k u u' : key_ok k → st_remove k u = Some u' → st_frame key_ok st_view st_saved st_trie_view (eq k) u u';
  rs_commit_ok c u u' : rs_commit c u = Some u' → st_trie_view u' = st_trie_view u ∧ (∀ k, st_view u' k = st_view u k) ∧ (∀ k, st_saved u' k = st_view u k);
  rs_rollback_ok u u' : rs_rollback u = Some u' → st_trie_view u' = st_trie_view u ∧ (∀ k, st_view u' k = st_saved u k) ∧ (∀ k, st_saved u' k = st_saved u k);
  rs_code_len_ok u id n : rs_get_code_len u id = Some (inr (Some n)) → 0 <= n;
  rs_set_code_ok id c u : rs_set_code id c u = st_set (ContractCode id) (code c) u;
  rs_deploy_ok c u u' : rs_record_contract_deploy c u = Some u' → st_frame key_ok st_view st_saved st_trie_view (λ _, False) u u';
  rs_call_ok id h c b u u' : rs_record_contract_call id h c b u = Some (inr u') → st_frame key_ok st_view st_saved st_trie_view (λ _, False) u u';
  rs_remove_account_ok id u : ensures (rs_remove_account id) u (λ _ u',
    st_frame key_ok st_view st_saved st_trie_view (removed_with id) u u' ∧ (key_ok (Account id) → st_view u' (Account id) = None))
}.

(** ** Presence of keys *)

(** The first byte of a key. *)
Definition column_of {AccountId} (k : TrieKey AccountId) : Z :=
  match k with
  | Account _ => col.ACCOUNT
  | ContractCode _ => col.CONTRACT_CODE
  | AccessKey _ _ => col.ACCESS_KEY
  | ReceivedData _ _ => col.RECEIVED_DATA
  | PostponedReceiptId _ _ => col.POSTPONED_RECEIPT_ID
  | PendingDataCount _ _ => col.PENDING_DATA_COUNT
  | PostponedReceipt _ _ => col.POSTPONED_RECEIPT
  | DelayedReceiptIndices | DelayedReceipt _ => col.DELAYED_RECEIPT_OR_INDICES
  | ContractData _ _ => col.CONTRACT_DATA
  | PromiseYieldIndices => col.PROMISE_YIELD_INDICES
  | PromiseYieldTimeout _ => col.PROMISE_YIELD_TIMEOUT
  | PromiseYieldReceipt _ _ => col.PROMISE_YIELD_RECEIPT
  | BufferedReceiptIndices => col.BUFFERED_RECEIPT_INDICES
  | BufferedReceipt _ _ => col.BUFFERED_RECEIPT
  | BandwidthSchedulerState => col.BANDWIDTH_SCHEDULER_STATE
  | BufferedReceiptGroupsQueueData _ => col.BUFFERED_RECEIPT_GROUPS_QUEUE_DATA
  | BufferedReceiptGroupsQueueItem _ _ => col.BUFFERED_RECEIPT_GROUPS_QUEUE_ITEM
  | GlobalContractCode _ => col.GLOBAL_CONTRACT_CODE
  | GasKey _ _ _ => col.GAS_KEY
  end.

(** Keys that do not share their bytes: two keys that are well formed, or keys of two columns. *)
Definition apart {AccountId} (key_ok : TrieKey AccountId → Prop) (k k' : TrieKey AccountId) : Prop := key_ok k ∧ k ≠ k' ∨ column_of k ≠ column_of k'.

Section contains.
Context {AccountId StorageError U : Type} `{RuntimeStore AccountId StorageError U}.
Context (key_ok : TrieKey AccountId → Prop) (st_view : U → TrieKey AccountId → option (list Z)) (st_trie_view : U → Base (TrieKey AccountId)).

(** [contains_key] agrees with the value of the key.  It does not for a key that was removed and not committed. *)
Definition contains_exact (u : U) (k : TrieKey AccountId) : Prop := rs_contains_key u k = Some (inr (bool_decide (is_Some (st_view u k)))).

(** The key is as it was, for reads of its value and of its presence. *)
Definition same_at (u u' : U) (k : TrieKey AccountId) : Prop := st_view u' k = st_view u k ∧ rs_contains_key u' k = rs_contains_key u k.

Class ContainsKeyOk : Prop := {
  ck_set k v u u' : key_ok k → st_set k v u = Some u' → contains_exact u' k;
  ck_set_apart k v u u' : st_set k v u = Some u' → st_trie_view u' = st_trie_view u ∧ ∀ k', key_ok k' → apart key_ok k k' → same_at u u' k';
  ck_remove_apart k u u' : st_remove k u = Some u' → st_trie_view u' = st_trie_view u ∧ ∀ k', key_ok k' → apart key_ok k k' → same_at u u' k';
  ck_commit c u u' k : key_ok k → rs_commit c u = Some u' → contains_exact u' k;
  ck_commit_live c u : base_live (st_trie_view u) = true → is_Some (rs_commit c u);
  ck_rollback u u' k : key_ok k → rs_rollback u = Some u' → contains_exact u' k
}.

Lemma same_at_refl u k : same_at u u k.
Proof. done. Qed.
Lemma same_at_trans u1 u2 u3 k : same_at u1 u2 k → same_at u2 u3 k → same_at u1 u3 k.
Proof. intros [V1 C1] [V2 C2]. split; congruence. Qed.
Lemma same_at_exact u u' k : same_at u u' k → contains_exact u k → contains_exact u' k.
Proof. intros [V C] Hx. unfold contains_exact. by rewrite V, C. Qed.
End contains.

(** * The overlay *)

Section overlay.
Context {AccountId : Type} `{!EqDecision AccountId} (as_bytes : AccountId → bytes) (from_str : bytes → option AccountId) `{!AccountIds as_bytes from_str}.
Context `{!Borsh (GlobalContractCodeIdentifier AccountId)} `{!BorshOk (GlobalContractCodeIdentifier AccountId) identifier_ok}.
Context `{!Borsh (option Z)} `{!BorshOk (option Z) nonce_index_ok}.
Context {Trie StorageError : Type} (trie_get : Trie → bytes → StorageError + option bytes) (inconsistent : StorageError).
Context (trie_contains_key : Trie → bytes → StorageError + bool) (trie_value_ref : Trie → bytes → StorageError + option (Z * bytes)).
Context (is_missing_value : StorageError → bool) (hash : bytes → bytes).
Context (seek_prefix : Trie → bytes → StorageError + list (StorageError + bytes * bytes)).
Context (content : Trie → gmap bytes bytes).
(** The length of a value in the trie is not negative. *)
Context (trie_ref_length : ∀ t k n h, trie_value_ref t k = inr (Some (n, h)) → 0 <= n).

Abbreviation Key := (TrieKey AccountId).
Abbreviation Update := (TrieUpdate (AccountId := AccountId) (Trie := Trie) (Cause := StateChangeCause)).
#[local] Instance store : StateStore Key StorageError Update := overlay_store as_bytes trie_get inconsistent.

#[export] Instance overlay_runtime_store : RuntimeStore AccountId StorageError Update := {|
  rs_commit := commit;
  rs_rollback := rollback;
  rs_contains_key := contains_key as_bytes trie_contains_key;
  rs_get_ref := get_ref as_bytes trie_value_ref hash;
  rs_get_code := get_code as_bytes trie_get hash;
  rs_get_code_len := get_code_len as_bytes trie_value_ref hash;
  rs_set_code := set_code as_bytes;
  rs_record_contract_deploy := record_contract_deploy;
  rs_record_contract_call := record_contract_call as_bytes trie_value_ref is_missing_value;
  rs_remove_account := remove_account as_bytes inconsistent seek_prefix
|}.

Definition key_saved (u : Update) (k : Key) : option bytes := raw ← to_vec as_bytes k; view_committed content u raw.

Abbreviation frame := (st_frame (runtime_key as_bytes) (key_view as_bytes content) key_saved (key_trie_view as_bytes content)).

(** Two updates that differ in what is not yet committed. *)
Lemma overlay_frame (touched : Key → Prop) (u u' : Update) : trie u' = trie u → committed u' = committed u → (is_Some (contract_storage u') ↔ is_Some (contract_storage u)) →
  (∀ k raw, runtime_key as_bytes k → ¬ touched k → to_vec as_bytes k = Some raw → prospective u' !! raw = prospective u !! raw) → frame touched u u'.
Proof.
  intros Ht Hc Hs Hp. split.
  - unfold key_trie_view. rewrite Ht. f_equal. by apply bool_decide_ext.
  - intros k. unfold key_saved, view_committed, last_change. by rewrite Ht, Hc.
  - intros k Hk Hn. unfold key_view. destruct (to_vec as_bytes k) as [raw|] eqn:Hr; [|done]. cbn. unfold view, view_committed, last_change.
    by rewrite (Hp k raw Hk Hn Hr), Ht, Hc.
Qed.

Lemma remove_inv k (u u' : Update) : remove as_bytes k u = Some u' →
  ∃ raw, to_vec as_bytes k = Some raw ∧ trie u' = trie u ∧ committed u' = committed u ∧ contract_storage u' = contract_storage u ∧
    prospective u' = <[raw := mkKeyValue k None]> (prospective u).
Proof.
  unfold remove. destruct (recorder u) as [r|]; [destruct (is_contract_data k); [destruct (record_key_removal r) as [r'|]|]|]; cbn [mbind option_bind fmap option_fmap option_map]; try done;
    destruct (to_vec as_bytes k) as [raw|]; try done;
    intros [= <-]; by exists raw.
Qed.

(** A key is removed; [touched] holds of every key with these bytes. *)
Lemma remove_key_frame (touched : Key → Prop) k (u u' : Update) : remove as_bytes k u = Some u' →
  (∀ k' raw, key_ok k' → to_vec as_bytes k' = Some raw → to_vec as_bytes k = Some raw → touched k') → frame touched u u'.
Proof.
  intros (raw & Hr & Ht & Hc & Hs & Hp)%remove_inv Hk. apply overlay_frame; [done|done|by rewrite Hs|]. intros k' raw' (Hk' & _) Hn Hr'. rewrite Hp.
  apply lookup_insert_ne. intros ->. by eapply Hn, Hk.
Qed.

Lemma remove_all_frame {A} (touched : Key → Prop) (key : A → Key) l (u u' : Update) : for_each (λ a, remove as_bytes (key a)) l u = Some u' →
  (∀ a k' raw, key_ok k' → to_vec as_bytes k' = Some raw → to_vec as_bytes (key a) = Some raw → touched k') → frame touched u u'.
Proof.
  intros Hu Hk. revert u Hu. induction l as [|a l IH]; intros u Hu; cbn [for_each] in Hu; [injection Hu as ->; apply st_frame_refl|].
  destruct (remove as_bytes (key a) u) as [u1|] eqn:E; [|done]. cbn in Hu. eapply st_frame_trans; [|exact (IH _ Hu)]. eapply remove_key_frame; [exact E|]. intros. by eapply Hk.
Qed.

Lemma updated_ensures (f : Update → option Update) u (Q : () → Update → Prop) : (∀ u', f u = Some u' → Q () u') → ensures (updated (StorageError := StorageError) f) u Q.
Proof. intros H. unfold ensures, updated. destruct (f u) as [u'|]; [by apply H|done]. Qed.

Lemma parsed_keys_same {A} (parse : bytes → StorageError + A) prefix (u : Update) :
  ensures (parsed_keys seek_prefix parse prefix) u (λ _ u', u' = u).
Proof.
  unfold ensures, parsed_keys. destruct (seek_prefix (trie u) prefix) as [|items]; [done|]. by destruct (s ← update_iter u prefix items; collect_map (S (iter_size s)) parse s []) as [[|]|].
Qed.

(** The bytes of a key of the account begin with its prefix. *)
Lemma key_by_prefix id pk k raw : key_ok k → to_vec as_bytes k = Some raw → to_vec as_bytes (AccessKey id pk) = Some raw → ∃ pk', k = AccessKey id pk'.
Proof.
  intros Hk Hr [= <-]. apply (prefix_entries as_bytes from_str k _ id (ED25519 (replicate 32 0)) [] Hk eq_refl Hr). eexists.
  unfold get_raw_prefix_for_access_keys, get_raw_prefix_for_contract_data. by rewrite <-!app_assoc.
Qed.

Lemma data_by_prefix id key k raw : key_ok k → to_vec as_bytes k = Some raw → to_vec as_bytes (ContractData id key) = Some raw → ∃ key', k = ContractData id key'.
Proof.
  intros Hk Hr [= <-]. apply (prefix_entries as_bytes from_str k _ id (ED25519 (replicate 32 0)) [] Hk eq_refl Hr). eexists.
  unfold get_raw_prefix_for_access_keys, get_raw_prefix_for_contract_data. by rewrite <-!app_assoc.
Qed.

Lemma remove_account_frame id u : ensures (remove_account as_bytes inconsistent seek_prefix id) u (λ _ u', frame (removed_with id) u u' ∧
  (runtime_key as_bytes (Account id) → key_view as_bytes content u' (Account id) = None)).
Proof.
  unfold remove_account. eapply ensures_bind; [apply (updated_ensures _ _ (λ _ u1, remove as_bytes (Account id) u = Some u1)); by intros|]. intros [] u1 H1.
  eapply ensures_bind; [apply (updated_ensures _ _ (λ _ u2, remove as_bytes (ContractCode id) u1 = Some u2)); by intros|]. intros [] u2 H2.
  eapply ensures_bind; [apply parsed_keys_same|]. intros pks ? ->.
  eapply ensures_bind; [apply (updated_ensures _ _ (λ _ u3, for_each (λ pk, remove as_bytes (AccessKey id pk)) pks u2 = Some u3)); by intros|]. intros [] u3 H3.
  eapply ensures_bind; [apply parsed_keys_same|]. intros keys ? ->. apply updated_ensures. intros u' H4.
  assert (F1 : frame (eq (Account id)) u u1) by (eapply remove_key_frame; [exact H1|]; intros k' raw Hk Hr Hr'; symmetry; by apply (to_vec_inj as_bytes from_str k' (Account id) raw)).
  assert (F2 : frame (λ k, removed_with id k ∧ k ≠ Account id) u1 u').
  { eapply st_frame_trans; [|eapply st_frame_trans].
    - eapply remove_key_frame; [exact H2|]. intros k' raw Hk Hr Hr'. assert (k' = ContractCode id) as -> by by apply (to_vec_inj as_bytes from_str k' (ContractCode id) raw).
      split; [right; by left|done].
    - eapply remove_all_frame; [exact H3|]. intros pk k' raw Hk Hr Hr'. destruct (key_by_prefix _ _ _ _ Hk Hr Hr') as [pk' ->]. split; [|done]. right. right. left. by eexists.
    - eapply remove_all_frame; [exact H4|]. intros pk k' raw Hk Hr Hr'. destruct (data_by_prefix _ _ _ _ Hk Hr Hr') as [key' ->]. split; [|done]. right. right. right. by eexists. }
  split.
  - eapply st_frame_trans; [eapply frame_weaken; [|exact F1]; intros k <-; by left|]. eapply frame_weaken; [|exact F2]. by intros k [? _].
  - intros Hk. rewrite (fr_view _ _ _ _ _ _ _ F2) by (try done; by intros [_ ?]). apply remove_inv in H1 as (raw & Hr & _ & _ & _ & Hp). unfold key_view. rewrite Hr. cbn.
    unfold view. by rewrite Hp, lookup_insert_eq.
Qed.

Lemma overlay_set_frame k v (u u' : Update) : runtime_key as_bytes k → set as_bytes k v u = Some u' → frame (eq k) u u'.
Proof.
  intros (Hk & [raw Hr] & _) Hs. unfold set in Hs. rewrite Hr in Hs. injection Hs as <-. apply overlay_frame; [done..|]. intros k' raw' (Hk' & _) Hn Hr'.
  apply lookup_insert_ne. intros ->. apply Hn. by apply (to_vec_inj as_bytes from_str k k' raw').
Qed.

Lemma commit_frame c (u u' : Update) : commit c u = Some u' → key_trie_view as_bytes content u' = key_trie_view as_bytes content u ∧
  (∀ k, key_view as_bytes content u' k = key_view as_bytes content u k) ∧ ∀ k, key_saved u' k = key_view as_bytes content u k.
Proof.
  intros Hc. assert (Hs : ∀ raw, view_committed content u' raw = view content u raw) by (intros raw; by eapply commit_view). unfold commit in Hc.
  destruct (contract_storage u) as [ct|] eqn:Hct; [|done]. injection Hc as Hu. split_and!.
  - subst u'. unfold key_trie_view. cbn [trie contract_storage]. f_equal. by rewrite Hct.
  - intros k. unfold key_view. destruct (to_vec as_bytes k) as [raw|]; [|done]. cbn. rewrite <-Hs. unfold view. subst u'. cbn [prospective]. by rewrite lookup_empty.
  - intros k. unfold key_saved, key_view. destruct (to_vec as_bytes k) as [raw|]; [|done]. apply Hs.
Qed.

Lemma rollback_frame (u u' : Update) : rollback u = Some u' → key_trie_view as_bytes content u' = key_trie_view as_bytes content u ∧
  (∀ k, key_view as_bytes content u' k = key_saved u k) ∧ ∀ k, key_saved u' k = key_saved u k.
Proof.
  unfold rollback. destruct (contract_storage u) as [ct|] eqn:Hct; [|done]. intros [= <-]. split_and!; [|done|done].
  unfold key_trie_view. cbn [trie contract_storage]. f_equal. by rewrite Hct.
Qed.

Lemma tracker_frame (u u' : Update) ct ct' : contract_storage u = Some ct → u' = mkUpdate (trie u) (recorder u) (Some ct') (committed u) (prospective u) → frame (λ _, False) u u'.
Proof. intros Hct ->. apply overlay_frame; [done|done| |done]. cbn. rewrite Hct. split; by eexists. Qed.

#[export] Instance overlay_runtime_store_ok : RuntimeStoreOk AccountId StorageError Update (runtime_key as_bytes) (key_view as_bytes content) key_saved (key_trie_view as_bytes content).
Proof.
  split.
  - intros k v u u'. apply overlay_set_frame.
  - intros k u u' (Hk & _) Hr. eapply remove_key_frame; [exact Hr|]. intros k' raw Hk' Hr1 Hr2. by apply (to_vec_inj as_bytes from_str k k' raw).
  - apply commit_frame.
  - apply rollback_frame.
  - intros u id n H. cbn [rs_get_code_len overlay_runtime_store] in H. unfold get_code_len, get_ref in H. destruct (to_vec as_bytes (ContractCode id)) as [key|]; [|done]. cbn [mbind option_bind] in H.
    destruct (get_ref_from_updates u key) as [[v|]|]; cbn in H; [|done|].
    + injection H as <-. apply Z.mod_pos_bound. lia.
    + destruct (trie_value_ref (trie u) key) as [|[[m h]|]] eqn:E; cbn in H; [done| |done]. injection H as <-. by eapply trie_ref_length.
  - done.
  - intros c u u' H. cbn in H. unfold record_contract_deploy in H. destruct (contract_storage u) as [ct|] eqn:Hct; [|done]. injection H as <-. by eapply tracker_frame.
  - intros id h c b u u' H. cbn in H. unfold record_contract_call in H. destruct (negb b); [injection H as <-; apply st_frame_refl|].
    destruct (for_account_contract_code id c) as [k|]; [|injection H as <-; apply st_frame_refl]. destruct (to_vec as_bytes k) as [key|]; [|done]. cbn [mbind option_bind] in H.
    destruct (trie_value_ref (trie u) key) as [err|r]; [destruct (is_missing_value err); [injection H as <-; apply st_frame_refl|done]|].
    case_bool_decide; [|injection H as <-; apply st_frame_refl]. unfold record_call in H. destruct (contract_storage u) as [ct|] eqn:Hct; [|done]. injection H as <-. by eapply tracker_frame.
  - intros id u. apply remove_account_frame.
Qed.

(** ** Presence of keys *)

Context (trie_contains_content : ∀ t k, trie_contains_key t k = inr (bool_decide (is_Some (content t !! k)))).

Lemma to_vec_column k raw : to_vec as_bytes k = Some raw → head raw = Some (column_of k).
Proof. destruct k; cbn; try (intros [= <-]; done). destruct (receiving_shard <=? _); [|done]. by intros [= <-]. Qed.

Abbreviation exact := (contains_exact (key_view as_bytes content)).

(** Only keys with an uncommitted removal are reported wrongly. *)
Lemma exact_overlay (u : Update) k raw : to_vec as_bytes k = Some raw → kv_value <$> prospective u !! raw ≠ Some None → exact u k.
Proof.
  intros Hr Hp. unfold contains_exact. cbn [rs_contains_key overlay_runtime_store]. unfold contains_key, key_view. rewrite Hr. cbn [mbind option_bind]. unfold view, view_committed, last_change.
  destruct (prospective u !! raw) as [[kk [v|]]|]; cbn in *; [done..|]. destruct (committed u !! raw) as [c|]; cbn; [|by rewrite trie_contains_content].
  destruct (last (changes c)) as [d|]; cbn; [done|by rewrite trie_contains_content].
Qed.

Lemma write_apart k raw kv (u u' : Update) : to_vec as_bytes k = Some raw → trie u' = trie u → committed u' = committed u → contract_storage u' = contract_storage u →
  prospective u' = <[raw := kv]> (prospective u) →
  key_trie_view as_bytes content u' = key_trie_view as_bytes content u ∧ ∀ k', runtime_key as_bytes k' → apart (runtime_key as_bytes) k k' → same_at (key_view as_bytes content) u u' k'.
Proof.
  intros Hr Ht Hc Hs Hp. split; [unfold key_trie_view; by rewrite Ht, Hs|]. intros k' (Hk' & [raw' Hr'] & _) Ha.
  assert (Hne : raw' ≠ raw).
  { intros ->. destruct Ha as [[(Hk & _) Hne]|Hne]; [apply Hne; by apply (to_vec_inj as_bytes from_str k k' raw)|].
    apply to_vec_column in Hr, Hr'. congruence. }
  split; [unfold key_view|cbn [rs_contains_key overlay_runtime_store]; unfold contains_key]; rewrite Hr'; cbn [mbind option_bind]; unfold view, view_committed, last_change;
    by rewrite Hp, (lookup_insert_ne _ raw raw'), Ht, Hc by congruence.
Qed.

#[export] Instance overlay_contains_ok : ContainsKeyOk (runtime_key as_bytes) (key_view as_bytes content) (key_trie_view as_bytes content).
Proof.
  split.
  - intros k v u u' (_ & [raw Hr] & _) Hs. cbn in Hs. unfold set in Hs. rewrite Hr in Hs. injection Hs as <-. apply (exact_overlay _ k raw Hr). cbn [prospective set_prospective]. by rewrite lookup_insert_eq.
  - intros k v u u' Hs. cbn in Hs. unfold set in Hs. apply bind_Some in Hs as (raw & Hr & Hs). injection Hs as <-. by eapply write_apart.
  - intros k u u' (raw & Hr & Ht & Hc & Hs & Hp)%remove_inv. by eapply write_apart.
  - intros c u u' k (_ & [raw Hr] & _) Hc. apply (exact_overlay _ k raw Hr). cbn in Hc. unfold commit in Hc. destruct (contract_storage u); [|done]. injection Hc as <-. cbn [prospective]. by rewrite lookup_empty.
  - intros c u Hl. cbn in *. unfold commit. apply bool_decide_eq_true in Hl as [ct ->]. by eexists.
  - intros u u' k (_ & [raw Hr] & _) Hc. apply (exact_overlay _ k raw Hr). cbn in Hc. unfold rollback in Hc. destruct (contract_storage u); [|done]. injection Hc as <-. cbn [prospective]. by rewrite lookup_empty.
Qed.
End overlay.
