(* ===== verification/ProcessTransactions.v ===== *)
(** Processing of the transactions of a chunk (runtime/runtime/src/lib.rs, [Runtime::process_transactions], and the getters and
    setters of core/store/src/utils/mod.rs): validity masks per job, the prefetched accounts and access keys, the charge of the
    signers and the receipts.

    The receipt sink is behind an interface: [forward] with the condition [sink_inv] under which it returns.  The state
    is an instance of [StateStore] with a [commit] that changes no values.  The number of threads is a parameter. *)

From S2P Require Import Prelude Errors Borsh Costs TrieKey Fees Receipt Account StoreUtils Verifier Transaction TrieQueue ReceiptQueues.
Local Open Scope Z_scope.

#[export] Instance PublicKey_countable : Countable PublicKey.
Proof.
  apply (inj_countable' (λ k, match k with ED25519 l => inl l | SECP256K1 l => inr l end) (λ s, match s with inl l => ED25519 l | inr l => SECP256K1 l end)).
  by intros [].
Defined.

(** [create_hash_index] and [create_receipt_id_from_transaction] *)
Section ids.
Context (hash : bytes → bytes).

Definition create_hash_index (base : bytes) (block_height salt : Z) : bytes := hash (base ++ to_le_bytes 8 block_height ++ to_le_bytes 8 salt).
Definition create_receipt_id_from_transaction (tx_hash : bytes) (block_height : Z) : bytes := create_hash_index tx_hash block_height 0.
End ids.

(** * Validity masks *)

Section masks.
Context {A : Type} (valid : A → option bool).

(** [par_chunks] *)
Fixpoint chunks_fuel (fuel n : nat) (l : list A) : list (list A) :=
  match fuel, l with
  | S fuel, _ :: _ => take n l :: chunks_fuel fuel n (drop n l)
  | _, _ => []
  end.
Definition par_chunks (n : nat) (l : list A) : list (list A) := chunks_fuel (length l) n l.

(** The mask of one job; [None] is a panic. *)
Fixpoint mask_loop (txs : list A) (idx : nat) (valid_mask : Z) : option Z :=
  match txs with
  | [] => Some valid_mask
  | tx :: txs =>
      is_valid ← valid tx;
      mask_loop txs (S idx) (if (is_valid : bool) then Z.lor valid_mask (Z.shiftl 1 (Z.of_nat idx)) else valid_mask)
  end.

Fixpoint map_option {B C} (f : B → option C) (l : list B) : option (list C) :=
  match l with
  | [] => Some []
  | x :: l => y ← f x; ys ← map_option f l; Some (y :: ys)
  end.

Definition valid_masks (chunk_size : nat) (txs : list A) : option (list Z) := map_option (λ c, mask_loop c 0 0) (par_chunks chunk_size txs).

Definition mask_bits (chunk_size : nat) (mask : Z) : list bool := (λ idx, Z.land (Z.shiftr mask (Z.of_nat idx)) 1 =? 1) <$> seq 0 chunk_size.

(** The transactions with their validity. *)
Definition valid_iterator (chunk_size : nat) (txs : list A) : option (list (A * bool)) :=
  masks ← valid_masks chunk_size txs;
  Some (zip txs (masks ≫= mask_bits chunk_size)).

(** *** The masks say which transactions are valid, whatever the size of the jobs *)

Lemma mask_loop_bits txs : ∀ vs idx m, map_option valid txs = Some vs →
  ∃ m', mask_loop txs idx m = Some m' ∧
    ∀ j, Z.testbit m' (Z.of_nat j) = Z.testbit m (Z.of_nat j) || (bool_decide (idx ≤ j)%nat && default false (vs !! (j - idx)%nat)).
Proof.
  induction txs as [|tx txs IH]; intros vs idx m Hv; cbn [map_option mask_loop] in *.
  - injection Hv as <-. exists m. split; [done|]. intros j. cbn. by rewrite andb_false_r, orb_false_r.
  - destruct (valid tx) as [v|]; [|done]. cbn [mbind option_bind] in *. destruct (map_option valid txs) as [vs'|]; [|done]. injection Hv as <-.
    destruct (IH vs' (S idx) (if v then Z.lor m (Z.shiftl 1 (Z.of_nat idx)) else m) eq_refl) as (m' & Hm & Hb). exists m'. split; [done|].
    intros j. rewrite Hb. destruct (decide (j = idx)) as [->|Hne].
    + rewrite (bool_decide_false (S idx ≤ idx)%nat), (bool_decide_true (idx ≤ idx)%nat), Nat.sub_diag by lia. cbn [andb lookup list_lookup default]. rewrite orb_false_r.
      destruct v; [|by rewrite orb_false_r]. rewrite Z.lor_spec, Z.shiftl_spec, Z.sub_diag by lia. done.
    + replace (Z.testbit (if v then Z.lor m (Z.shiftl 1 (Z.of_nat idx)) else m) (Z.of_nat j)) with (Z.testbit m (Z.of_nat j)).
      2: { destruct v; [|done]. rewrite Z.lor_spec, Z.shiftl_spec by lia. destruct (decide (j < idx)%nat).
           - by rewrite (Z.testbit_neg_r 1 (Z.of_nat j - Z.of_nat idx)), orb_false_r by lia.
           - rewrite (Z.bits_above_log2 1 (Z.of_nat j - Z.of_nat idx)), orb_false_r by (cbn; lia). done. }
      f_equal. destruct (decide (idx < j)%nat) as [Hlt|Hge].
      * rewrite !bool_decide_true by lia. cbn [andb]. replace (j - idx)%nat with (S (j - S idx)) by lia. done.
      * rewrite !bool_decide_false by lia. done.
Qed.

Lemma mask_bits_lookup n m j : (j < n)%nat → mask_bits n m !! j = Some (Z.testbit m (Z.of_nat j)).
Proof.
  intros Hj. unfold mask_bits. rewrite list_lookup_fmap, lookup_seq_lt by done. cbn. f_equal. change 1 with (Z.ones 1) at 1. rewrite Z.land_ones by lia.
  change (2 ^ 1) with 2. rewrite <-Z.bit0_mod, Z.shiftr_spec by lia. rewrite Z.add_0_l. by destruct (Z.testbit _ _).
Qed.

Lemma map_option_split n l vs : map_option valid l = Some vs →
  length vs = length l ∧ map_option valid (take n l) = Some (take n vs) ∧ map_option valid (drop n l) = Some (drop n vs).
Proof.
  revert n vs. induction l as [|x l IH]; intros n vs Hv; cbn [map_option] in Hv; [injection Hv as <-; by destruct n|].
  destruct (valid x) as [v|] eqn:Hx; [|done]. cbn [mbind option_bind] in Hv. destruct (map_option valid l) as [vs'|] eqn:Hl; [|done]. injection Hv as <-.
  destruct n as [|n]; [|by destruct (IH n vs' eq_refl) as (E1 & E2 & E3); cbn [take drop map_option length]; rewrite Hx; cbn [mbind option_bind]; rewrite E2; split_and!; [lia|done|done]].
  destruct (IH 0%nat vs' eq_refl) as (E1 & _ & _). split_and!; [cbn; lia|done|]. cbn [drop map_option]. by rewrite Hx, Hl.
Qed.

Lemma mask_bits_length n m : length (mask_bits n m) = n.
Proof. unfold mask_bits. by rewrite length_fmap, length_seq. Qed.

Lemma masks_lookup fuel n : (0 < n)%nat → ∀ l vs, (length l ≤ fuel)%nat → map_option valid l = Some vs →
  ∃ masks, map_option (λ c, mask_loop c 0 0) (chunks_fuel fuel n l) = Some masks ∧ ∀ j, (j < length l)%nat → (masks ≫= mask_bits n) !! j = vs !! j.
Proof.
  intros Hn. induction fuel as [|fuel IH]; intros l vs Hl Hv; [exists []; split; [done|]; intros j Hj; lia|].
  destruct l as [|x l]; [exists []; split; [done|]; intros j Hj; cbn in Hj; lia|]. cbn [chunks_fuel map_option]. destruct (map_option_split n (x :: l) vs Hv) as (E1 & E2 & E3).
  destruct (mask_loop_bits _ _ 0 0 E2) as (m & -> & Hm). cbn [mbind option_bind]. destruct (IH (drop n (x :: l)) (drop n vs)) as (masks & -> & Hr); [rewrite length_drop; lia|done|].
  cbn [mbind option_bind]. exists (m :: masks). split; [done|]. intros j Hj. cbn [mbind list_bind]. destruct (decide (j < n)%nat) as [Hlt|Hge].
  - rewrite lookup_app_l by (by rewrite mask_bits_length). rewrite mask_bits_lookup, Hm by done. rewrite Z.bits_0. cbn [orb]. rewrite bool_decide_true by lia. cbn [andb]. rewrite Nat.sub_0_r, lookup_take_lt by done.
    destruct (lookup_lt_is_Some_2 vs j) as [v ->]; [lia|done].
  - rewrite lookup_app_r by (rewrite mask_bits_length; lia). rewrite mask_bits_length, Hr by (rewrite length_drop; cbn [length] in *; lia). rewrite lookup_drop. f_equal. lia.
Qed.

Lemma zip_prefix {B} (l : list A) (k1 k2 : list B) : (∀ j, (j < length l)%nat → k1 !! j = k2 !! j) → zip l k1 = zip l k2.
Proof.
  intros Hk. apply list_eq. intros j. rewrite !lookup_zip_with. destruct (l !! j) eqn:Hj; [|done]. cbn. rewrite Hk; [done|]. by eapply lookup_lt_Some.
Qed.

Lemma valid_iterator_ok n l vs : (0 < n)%nat → map_option valid l = Some vs → valid_iterator n l = Some (zip l vs).
Proof.
  intros Hn Hv. unfold valid_iterator, valid_masks, par_chunks. destruct (masks_lookup (length l) n Hn l vs (le_n _) Hv) as (masks & -> & Hm). cbn [mbind option_bind].
  f_equal. by apply zip_prefix.
Qed.
End masks.

Definition MIN_CHUNK_SIZE : nat := 8.
Definition VALID_BITMASK_BITS : nat := 32.
Definition TARGET_CHUNKS_PER_THREAD : nat := 4.

(** There is at least one thread. *)
Definition tx_chunk_size (threads len : nat) : nat :=
  Nat.min (Nat.max (len / (threads * TARGET_CHUNKS_PER_THREAD)) MIN_CHUNK_SIZE) VALID_BITMASK_BITS.

(** * Transactions *)

Section process.
Context {AccountId StorageError U K : Type} `{!EqDecision AccountId} `{!Countable AccountId} `{!StateStore (TrieKey AccountId) StorageError U}.
Context `{!Borsh AccountId} `{!Borsh AccessKey} `{!Borsh (list (Action AccountId))}.
Context (as_bytes : AccountId → bytes) (from_str : bytes → option AccountId) (get_account_type : AccountId → AccountType).
Context (hash : bytes → bytes) (verify : bytes → bytes → PublicKey → bool) (is_valid_staking_key : PublicKey → bool).
Context (fees : RuntimeFeesConfig) (wasm_config : VmConfig) (limit_config : LimitConfig) (storage_amount_per_byte : Z).
Context (threads : nat) (commit : bytes → U → option U).

Abbreviation Tx := (Transaction (AccountId := AccountId)).
Abbreviation Signed := (SignedTransaction (AccountId := AccountId)).
Abbreviation Rcpt := (Receipt AccountId).
Abbreviation Error := (RuntimeError StorageError).
Abbreviation Acct := (Account AccountId).
Abbreviation Read := (TrieKey AccountId → option (StorageError + option (list Z))).

(** The receipt sink of the chunk. *)
Context (forward : Rcpt → M (K * U) Error ()).

(** ** A single transaction *)

(** [get_signer_and_access_key]; the outer option is a panic. *)
Definition get_signer_and_access_key (read : Read) (tx : Signed) : option (InvalidTxError AccountId StorageError + Acct * AccessKey) :=
  let signer_id := tx_signer_id (transaction tx) in
  signer ← get_account read signer_id;
  match signer with
  | inl e => Some (inl (TxStorageError e))
  | inr None => Some (inl (SignerDoesNotExist signer_id))
  | inr (Some signer) =>
      access_key ← get_access_key read signer_id (tx_public_key (transaction tx));
      match access_key with
      | inl e => Some (inl (TxStorageError e))
      | inr None => Some (inl (TxInvalidAccessKey (AccessKeyNotFound signer_id (tx_public_key (transaction tx)))))
      | inr (Some access_key) => Some (inr (signer, access_key))
      end
  end.

Definition set_tx_state_changes (tx : Signed) (signer : Acct) (access_key : AccessKey) (u : U) : option U :=
  let t := transaction tx in
  u ← set_access_key (tx_signer_id t) (tx_public_key t) access_key u;
  set_account (tx_signer_id t) signer u.

(** ** Prefetching *)

Abbreviation AccountV := (StorageError + option Acct)%type.
Abbreviation AccessKeyV := (StorageError + option AccessKey)%type.

Record Prefetched : Type := mkPrefetched {
  accounts : gmap AccountId AccountV;
  access_keys : gmap (AccountId * PublicKey) AccessKeyV
}.

(** [entry(..).or_insert_with(..)] *)
Definition or_insert_with {Key V} `{!EqDecision Key} `{!Countable Key} (m : gmap Key V) (k : Key) (f : option V) : option (gmap Key V) :=
  match m !! k with Some _ => Some m | None => v ← f; Some (<[k := v]> m) end.

Definition prefetch_tx (read : Read) (p : Prefetched) (tx : Signed) : option Prefetched :=
  let signer_id := tx_signer_id (transaction tx) in
  let pubkey := tx_public_key (transaction tx) in
  a ← or_insert_with (accounts p) signer_id (get_account read signer_id);
  k ← or_insert_with (access_keys p) (signer_id, pubkey) (get_access_key read signer_id pubkey);
  Some (mkPrefetched a k).

(** The jobs only read the state, so their order does not matter. *)
Fixpoint prefetch (read : Read) (txs : list Signed) (p : Prefetched) : option Prefetched :=
  match txs with
  | [] => Some p
  | tx :: txs => p ← prefetch_tx read p tx; prefetch read txs p
  end.

(** ** The loop *)

(** The outcome of a transaction, whose status is the id of its receipt. *)
Record TxOutcome : Type := mkTxOutcome {
  outcome_id : bytes;
  outcome_receipt_id : bytes;
  outcome_gas_burnt : Z;
  outcome_compute_usage : Z;
  outcome_tokens_burnt : Z;
  outcome_executor_id : AccountId
}.

Record TxState : Type := mkTxState {
  prefetched : Prefetched;
  tx_burnt_amount : Z;
  local_receipts : list Rcpt;
  total_gas : Z;
  total_compute : Z;
  outcomes : list TxOutcome;
  last_tx_hash : bytes;
  sink_and_update : K * U
}.

Definition set_prefetched (p : Prefetched) (s : TxState) : TxState :=
  mkTxState p (tx_burnt_amount s) (local_receipts s) (total_gas s) (total_compute s) (outcomes s) (last_tx_hash s) (sink_and_update s).
Definition set_tx_burnt (x : Z) (s : TxState) : TxState :=
  mkTxState (prefetched s) x (local_receipts s) (total_gas s) (total_compute s) (outcomes s) (last_tx_hash s) (sink_and_update s).
Definition set_local (l : list Rcpt) (s : TxState) : TxState :=
  mkTxState (prefetched s) (tx_burnt_amount s) l (total_gas s) (total_compute s) (outcomes s) (last_tx_hash s) (sink_and_update s).
Definition set_total (g c : Z) (s : TxState) : TxState :=
  mkTxState (prefetched s) (tx_burnt_amount s) (local_receipts s) g c (outcomes s) (last_tx_hash s) (sink_and_update s).
Definition set_outcomes (l : list TxOutcome) (s : TxState) : TxState :=
  mkTxState (prefetched s) (tx_burnt_amount s) (local_receipts s) (total_gas s) (total_compute s) l (last_tx_hash s) (sink_and_update s).
Definition set_last_hash (h : bytes) (s : TxState) : TxState :=
  mkTxState (prefetched s) (tx_burnt_amount s) (local_receipts s) (total_gas s) (total_compute s) (outcomes s) h (sink_and_update s).
Definition set_sink_and_update (t : K * U) (s : TxState) : TxState :=
  mkTxState (prefetched s) (tx_burnt_amount s) (local_receipts s) (total_gas s) (total_compute s) (outcomes s) (last_tx_hash s) t.

Abbreviation PM := (M TxState Error).

Definition modify (f : TxState → TxState) : PM () := λ s, Ok () (f s).

Definition tx_receipt (tx : Signed) (block_height receipt_gas_price : Z) : Rcpt :=
  let t := transaction tx in
  ReceiptIsV0 (mkReceiptV0 (tx_signer_id t) (tx_receiver_id t) (create_receipt_id_from_transaction hash (tx_hash tx) block_height)
    (ActionR (mkActionReceipt (tx_signer_id t) (tx_public_key t) receipt_gas_price [] [] (tx_actions t)))).

Definition tx_outcome (tx : Signed) (r : Rcpt) (v : VerificationResult) : TxOutcome :=
  mkTxOutcome (tx_hash tx) (receipt_id r) (vr_gas_burnt v) (vr_gas_burnt v) (vr_burnt_amount v) (tx_signer_id (transaction tx)).

(** [TotalResourceGuard::add] *)
Definition total_add (gas compute : Z) : PM () :=
  s ← get_state;
  g ← run_res from_overflow (safe_add_gas (total_gas s) gas);
  _ ← modify (set_total g (total_compute s));
  c ← run_res from_overflow (safe_add_compute (total_compute s) compute);
  modify (set_total g c).

(** What is done after a transaction was charged. *)
Definition emit_receipt (tx : Signed) (block_height : Z) (v : VerificationResult) : PM () :=
  let r := tx_receipt tx block_height (vr_receipt_gas_price v) in
  let outcome := tx_outcome tx r v in
  s ← get_state;
  match safe_add_balance (tx_burnt_amount s) (vr_burnt_amount v) with
  | ROk new_balance =>
      _ ← modify (set_tx_burnt new_balance);
      _ ← (if bool_decide (Receipt.receiver_id r = tx_signer_id (transaction tx)) then modify (set_local (local_receipts s ++ [r]))
           else zoom sink_and_update (λ t s, set_sink_and_update t s) (forward r));
      _ ← total_add (outcome_gas_burnt outcome) (outcome_compute_usage outcome);
      s ← get_state;
      modify (set_outcomes (outcomes s ++ [outcome]))
  | _ => mret ()
  end.

(** The charge works on the prefetched values in place, also when it returns an error. *)
Definition process_tx (gas_price block_height protocol_version : Z) (tx : Signed) : PM () :=
  _ ← modify (set_last_hash (tx_hash tx));
  let t := transaction tx in
  match tx_cost as_bytes get_account_type fees wasm_config t gas_price protocol_version with
  | RPanic => panic
  | RErr _ => mret ()
  | ROk cost =>
      s ← get_state;
      let p := prefetched s in
      match accounts p !! tx_signer_id t with
      | None => panic
      | Some (inl e) => throw (RtStorageError e)
      | Some (inr None) => mret ()
      | Some (inr (Some account)) =>
          match access_keys p !! (tx_signer_id t, tx_public_key t) with
          | None => panic
          | Some (inl e) => throw (RtStorageError e)
          | Some (inr None) => mret ()
          | Some (inr (Some access_key)) =>
              let put '(a, k) := mkPrefetched (<[tx_signer_id t := inr (Some a)]> (accounts p)) (<[(tx_signer_id t, tx_public_key t) := inr (Some k)]> (access_keys p)) in
              match verify_and_charge_tx_ephemeral as_bytes (st_inconsistent : StorageError) storage_amount_per_byte t cost (Some block_height) (account, access_key) with
              | Ok v ak => _ ← modify (set_prefetched (put ak)); emit_receipt tx block_height v
              | Err _ ak => modify (set_prefetched (put ak))
              | Panic => panic
              | OutOfFuel => out_of_fuel
              end
          end
      end
  end.

Fixpoint process_loop (gas_price block_height protocol_version : Z) (txs : list (Signed * bool)) : PM () :=
  match txs with
  | [] => mret ()
  | (tx, is_valid) :: txs =>
      _ ← (if (is_valid : bool) then process_tx gas_price block_height protocol_version tx else mret ());
      process_loop gas_price block_height protocol_version txs
  end.

(** ** Writing back *)

Definition write_account (e : AccountId * AccountV) (u : U) : option U :=
  match e.2 with inr (Some a) => set_account e.1 a u | _ => Some u end.
Definition write_access_key (e : (AccountId * PublicKey) * AccessKeyV) (u : U) : option U :=
  match e.2 with inr (Some k) => set_access_key e.1.1 e.1.2 k u | _ => Some u end.

Definition write_back (p : Prefetched) (u : U) : option U :=
  u ← for_each write_account (map_to_list (accounts p)) u;
  for_each write_access_key (map_to_list (access_keys p)) u.

Definition is_valid_transaction (protocol_version : Z) (tx : Signed) : option bool :=
  match (validate_transaction as_bytes from_str verify is_valid_staking_key limit_config protocol_version tx : option (InvalidTxError AccountId StorageError + Signed)) with
  | None => None
  | Some (inr _) => Some true
  | Some (inl _) => Some false
  end.

Definition process_transactions (gas_price block_height protocol_version : Z) (tx_vec : list Signed) : PM () :=
  let chunk_size := tx_chunk_size threads (length tx_vec) in
  txs ← expect (valid_iterator (is_valid_transaction protocol_version) chunk_size tx_vec);
  s ← get_state;
  p ← expect (prefetch (st_get (sink_and_update s).2) tx_vec (mkPrefetched ∅ ∅));
  _ ← modify (set_prefetched p);
  _ ← modify (set_last_hash default_hash);
  _ ← process_loop gas_price block_height protocol_version txs;
  s ← get_state;
  u ← expect (write_back (prefetched s) (sink_and_update s).2);
  u ← expect (commit (last_tx_hash s) u);
  modify (set_sink_and_update ((sink_and_update s).1, u)).
End process.
