(* ===== verification/Actions.v ===== *)
(** The actions of a receipt (runtime/runtime/src/actions.rs and global_contracts.rs): what each action does to the account of
    the receiver, to the state and to the result.

    An action runs on an [ActionState], what the functions of the source get as [&mut].  Errors of the user go
    into the result; a [RuntimeError] aborts the chunk.  The virtual machine is behind the interface [Vm]: a run gets the context
    and changes the state and the receipt manager.  The properties of account names, the decoding of hexadecimal numbers, the
    wallet contract, the cache of compiled contracts and the epoch manager are outside; metrics, logging and debug assertions are left out. *)

From S2P Require Import Prelude Errors Borsh Costs TrieKey StateUpdate TrieQueue Fees Receipt ReceiptManager Account StoreUtils Verifier Transaction ReceiptQueues ProcessTransactions RuntimeStore.
Local Open Scope Z_scope.

(** * Results *)

Inductive ReturnData : Type :=
| ReturnValue (value : bytes)
| ReturnReceiptIndex (index : Z)
| ReturnNone.

Inductive PromiseResult : Type := NotReady | Successful (value : bytes) | Failed.

(** [FunctionCallError]: the errors of the virtual machine are of the type [CallError]. *)
Inductive FunctionCallError (CallError : Type) : Type :=
| CodeDoesNotExist (account_id : bytes)
| VmCallError (e : CallError).
Arguments CodeDoesNotExist {CallError}.
Arguments VmCallError {CallError}.

Inductive ActionErrorKind (AccountId CallError : Type) : Type :=
| AccountAlreadyExists (account_id : AccountId)
| AccountDoesNotExist (account_id : AccountId)
| CreateAccountOnlyByRegistrar (account_id registrar_account_id predecessor_id : AccountId)
| CreateAccountNotAllowed (account_id predecessor_id : AccountId)
| ActorNoPermission (account_id actor_id : AccountId)
| DeleteKeyDoesNotExist (account_id : AccountId) (public_key : PublicKey)
| AddKeyAlreadyExists (account_id : AccountId) (public_key : PublicKey)
| DeleteAccountStaking (account_id : AccountId)
| ActionLackBalanceForState (account_id : AccountId) (amount : Z)
| TriesToUnstake (account_id : AccountId)
| TriesToStake (account_id : AccountId) (stake locked balance : Z)
| InsufficientStake (account_id : AccountId) (stake minimum_stake : Z)
| ActionFunctionCallError (e : FunctionCallError CallError)
| NewReceiptValidationError (e : ReceiptValidationError)
| OnlyImplicitAccountCreationAllowed (account_id : AccountId)
| DeleteAccountWithLargeState (account_id : AccountId)
| DelegateActionInvalidSignature
| DelegateActionSenderDoesNotMatchTxReceiver (sender_id receiver_id : AccountId)
| DelegateActionExpired
| DelegateActionAccessKeyError (e : InvalidAccessKeyError AccountId)
| DelegateActionInvalidNonce (delegate_nonce ak_nonce : Z)
| DelegateActionNonceTooLarge (delegate_nonce upper_bound : Z)
| GlobalContractDoesNotExist (identifier : GlobalContractIdentifier AccountId).
Arguments AccountAlreadyExists {AccountId CallError}.
Arguments AccountDoesNotExist {AccountId CallError}.
Arguments CreateAccountOnlyByRegistrar {AccountId CallError}.
Arguments CreateAccountNotAllowed {AccountId CallError}.
Arguments ActorNoPermission {AccountId CallError}.
Arguments DeleteKeyDoesNotExist {AccountId CallError}.
Arguments AddKeyAlreadyExists {AccountId CallError}.
Arguments DeleteAccountStaking {AccountId CallError}.
Arguments ActionLackBalanceForState {AccountId CallError}.
Arguments TriesToUnstake {AccountId CallError}.
Arguments TriesToStake {AccountId CallError}.
Arguments InsufficientStake {AccountId CallError}.
Arguments ActionFunctionCallError {AccountId CallError}.
Arguments NewReceiptValidationError {AccountId CallError}.
Arguments OnlyImplicitAccountCreationAllowed {AccountId CallError}.
Arguments DeleteAccountWithLargeState {AccountId CallError}.
Arguments DelegateActionInvalidSignature {AccountId CallError}.
Arguments DelegateActionSenderDoesNotMatchTxReceiver {AccountId CallError}.
Arguments DelegateActionExpired {AccountId CallError}.
Arguments DelegateActionAccessKeyError {AccountId CallError}.
Arguments DelegateActionInvalidNonce {AccountId CallError}.
Arguments DelegateActionNonceTooLarge {AccountId CallError}.
Arguments GlobalContractDoesNotExist {AccountId CallError}.

Record ActionError (AccountId CallError : Type) : Type := mkActionError { err_index : option Z; err_kind : ActionErrorKind AccountId CallError }.
Arguments mkActionError {AccountId CallError}.
Arguments err_index {AccountId CallError}.
Arguments err_kind {AccountId CallError}.

Record ValidatorStake (AccountId : Type) : Type := mkValidatorStake { vs_account_id : AccountId; vs_public_key : PublicKey; vs_stake : Z }.
Arguments mkValidatorStake {AccountId}.
Arguments vs_account_id {AccountId}.
Arguments vs_public_key {AccountId}.
Arguments vs_stake {AccountId}.

Record BalanceStats : Type := mkBalanceStats {
  tx_burnt_amount : Z;
  slashed_burnt_amount : Z;
  other_burnt_amount : Z;
  gas_deficit_amount : Z;
  global_actions_burnt_amount : Z
}.

Record AccountCreationConfig (AccountId : Type) : Type := mkAccountCreationConfig {
  min_allowed_top_level_account_length : Z;
  registrar_account_id : AccountId
}.
Arguments mkAccountCreationConfig {AccountId}.
Arguments min_allowed_top_level_account_length {AccountId}.
Arguments registrar_account_id {AccountId}.

(** The part of the configuration that the execution of receipts uses. *)
Record RuntimeConfig (AccountId : Type) : Type := mkRuntimeConfig {
  cfg_fees : RuntimeFeesConfig;
  cfg_wasm : VmConfig;
  cfg_limit : LimitConfig;
  cfg_account_creation : AccountCreationConfig AccountId;
  yield_timeout_length_in_blocks : Z
}.
Arguments mkRuntimeConfig {AccountId}.
Arguments cfg_fees {AccountId}.
Arguments cfg_wasm {AccountId}.
Arguments cfg_limit {AccountId}.
Arguments cfg_account_creation {AccountId}.
Arguments yield_timeout_length_in_blocks {AccountId}.

Record ApplyState (AccountId : Type) : Type := mkApplyState {
  update_tracked_shard : bool;
  block_height : Z;
  prev_block_hash : bytes;
  shard_id : Z;
  epoch_height : Z;
  block_gas_price : Z;
  block_timestamp : Z;
  gas_limit : option Z;
  random_seed : bytes;
  current_protocol_version : Z;
  apply_config : RuntimeConfig AccountId
}.
Arguments mkApplyState {AccountId}.
Arguments update_tracked_shard {AccountId}.
Arguments block_height {AccountId}.
Arguments prev_block_hash {AccountId}.
Arguments shard_id {AccountId}.
Arguments epoch_height {AccountId}.
Arguments block_gas_price {AccountId}.
Arguments block_timestamp {AccountId}.
Arguments gas_limit {AccountId}.
Arguments random_seed {AccountId}.
Arguments current_protocol_version {AccountId}.
Arguments apply_config {AccountId}.

Section result.
Context {AccountId CallError : Type}.

Record ActionResult : Type := mkActionResult {
  gas_burnt : Z;
  gas_burnt_for_function_call : Z;
  gas_used : Z;
  compute_usage : Z;
  result : ActionError AccountId CallError + ReturnData;
  logs : list bytes;
  new_receipts : list (Receipt AccountId);
  validator_proposals : list (ValidatorStake AccountId);
  profile : ProfileDataV3
}.

Definition default_result : ActionResult := mkActionResult 0 0 0 0 (inr ReturnNone) [] [] [] new_profile.

Definition set_gas_burnt (x : Z) (r : ActionResult) : ActionResult :=
  mkActionResult x (gas_burnt_for_function_call r) (gas_used r) (compute_usage r) (result r) (logs r) (new_receipts r) (validator_proposals r) (profile r).
Definition set_gas_burnt_for_function_call (x : Z) (r : ActionResult) : ActionResult :=
  mkActionResult (gas_burnt r) x (gas_used r) (compute_usage r) (result r) (logs r) (new_receipts r) (validator_proposals r) (profile r).
Definition set_gas_used (x : Z) (r : ActionResult) : ActionResult :=
  mkActionResult (gas_burnt r) (gas_burnt_for_function_call r) x (compute_usage r) (result r) (logs r) (new_receipts r) (validator_proposals r) (profile r).
Definition set_compute_usage (x : Z) (r : ActionResult) : ActionResult :=
  mkActionResult (gas_burnt r) (gas_burnt_for_function_call r) (gas_used r) x (result r) (logs r) (new_receipts r) (validator_proposals r) (profile r).
Definition set_result (x : ActionError AccountId CallError + ReturnData) (r : ActionResult) : ActionResult :=
  mkActionResult (gas_burnt r) (gas_burnt_for_function_call r) (gas_used r) (compute_usage r) x (logs r) (new_receipts r) (validator_proposals r) (profile r).
Definition set_logs (x : list bytes) (r : ActionResult) : ActionResult :=
  mkActionResult (gas_burnt r) (gas_burnt_for_function_call r) (gas_used r) (compute_usage r) (result r) x (new_receipts r) (validator_proposals r) (profile r).
Definition set_new_receipts (x : list (Receipt AccountId)) (r : ActionResult) : ActionResult :=
  mkActionResult (gas_burnt r) (gas_burnt_for_function_call r) (gas_used r) (compute_usage r) (result r) (logs r) x (validator_proposals r) (profile r).
Definition set_proposals (x : list (ValidatorStake AccountId)) (r : ActionResult) : ActionResult :=
  mkActionResult (gas_burnt r) (gas_burnt_for_function_call r) (gas_used r) (compute_usage r) (result r) (logs r) (new_receipts r) x (profile r).
Definition set_profile (x : ProfileDataV3) (r : ActionResult) : ActionResult :=
  mkActionResult (gas_burnt r) (gas_burnt_for_function_call r) (gas_used r) (compute_usage r) (result r) (logs r) (new_receipts r) (validator_proposals r) x.

Definition result_ok (r : ActionResult) : bool := match result r with inr _ => true | inl _ => false end.

(** [ActionResult::merge]; the failed assertions and the overflow of the index are panics. *)
Definition merge_result (self next : ActionResult) : Res IntegerOverflowError ActionResult :=
  if negb (gas_burnt_for_function_call next <=? gas_burnt next) then RPanic
  else if negb (gas_burnt next <=? gas_used next) then RPanic
  else
    burnt ← safe_add_gas (gas_burnt self) (gas_burnt next);
    call ← safe_add_gas (gas_burnt_for_function_call self) (gas_burnt_for_function_call next);
    used ← safe_add_gas (gas_used self) (gas_used next);
    compute ← safe_add_compute (compute_usage self) (compute_usage next);
    res ← (match result next with
           | inr (ReturnReceiptIndex receipt_index) =>
               i ← res_expect (checked_add 64 receipt_index (Z.of_nat (length (new_receipts self))));
               mret (inr (ReturnReceiptIndex i))
           | r => mret r
           end);
    mret (mkActionResult burnt call used compute res (logs self ++ logs next)
      (match res with inr _ => new_receipts self ++ new_receipts next | inl _ => [] end)
      (match res with inr _ => validator_proposals self ++ validator_proposals next | inl _ => [] end)
      (merge (profile self) (profile next))).
End result.
Arguments ActionResult : clear implicits.

(** * The virtual machine *)

Record VMContext (AccountId : Type) : Type := mkVMContext {
  current_account_id : AccountId;
  signer_account_id : AccountId;
  signer_account_pk : bytes;
  predecessor_account_id : AccountId;
  input : bytes;
  promise_results : list PromiseResult;
  ctx_block_height : Z;
  ctx_block_timestamp : Z;
  ctx_epoch_height : Z;
  account_balance : Z;
  account_locked_balance : Z;
  ctx_storage_usage : Z;
  attached_deposit : Z;
  prepaid_gas : Z;
  ctx_random_seed : bytes;
  is_view : bool;
  ctx_output_data_receivers : list AccountId
}.
Arguments mkVMContext {AccountId}.
Arguments current_account_id {AccountId}.
Arguments signer_account_id {AccountId}.
Arguments signer_account_pk {AccountId}.
Arguments predecessor_account_id {AccountId}.
Arguments input {AccountId}.
Arguments promise_results {AccountId}.
Arguments ctx_block_height {AccountId}.
Arguments ctx_block_timestamp {AccountId}.
Arguments ctx_epoch_height {AccountId}.
Arguments account_balance {AccountId}.
Arguments account_locked_balance {AccountId}.
Arguments ctx_storage_usage {AccountId}.
Arguments attached_deposit {AccountId}.
Arguments prepaid_gas {AccountId}.
Arguments ctx_random_seed {AccountId}.
Arguments is_view {AccountId}.
Arguments ctx_output_data_receivers {AccountId}.

Record VMOutcome (CallError : Type) : Type := mkVMOutcome {
  out_balance : Z;
  out_storage_usage : Z;
  out_return_data : ReturnData;
  out_burnt_gas : Z;
  out_used_gas : Z;
  out_compute_usage : Z;
  out_logs : list bytes;
  out_profile : ProfileDataV3;
  aborted : option (FunctionCallError CallError)
}.
Arguments mkVMOutcome {CallError}.
Arguments out_balance {CallError}.
Arguments out_storage_usage {CallError}.
Arguments out_return_data {CallError}.
Arguments out_burnt_gas {CallError}.
Arguments out_used_gas {CallError}.
Arguments out_compute_usage {CallError}.
Arguments out_logs {CallError}.
Arguments out_profile {CallError}.
Arguments aborted {CallError}.

Definition nop_outcome {CallError} (error : FunctionCallError CallError) : VMOutcome CallError :=
  mkVMOutcome 0 0 ReturnNone 0 0 0 [] new_profile (Some error).

Definition set_out_used_gas {CallError} (x : Z) (o : VMOutcome CallError) : VMOutcome CallError :=
  mkVMOutcome (out_balance o) (out_storage_usage o) (out_return_data o) (out_burnt_gas o) x (out_compute_usage o) (out_logs o) (out_profile o) (aborted o).

Inductive VMRunnerError (StorageError : Type) : Type :=
| InconsistentStateIntegerOverflow
| CacheError
| LoadingError
| ExternalStorageError (e : StorageError)
| ExternalValidatorError (e : EpochError)
| Nondeterministic
| WasmUnknownError
| ContractCodeNotPresent.
Arguments InconsistentStateIntegerOverflow {StorageError}.
Arguments CacheError {StorageError}.
Arguments LoadingError {StorageError}.
Arguments ExternalStorageError {StorageError}.
Arguments ExternalValidatorError {StorageError}.
Arguments Nondeterministic {StorageError}.
Arguments WasmUnknownError {StorageError}.
Arguments ContractCodeNotPresent {StorageError}.

(** What [RuntimeExt] holds besides the state and the receipt manager. *)
Record RuntimeExt (AccountId : Type) : Type := mkRuntimeExt {
  ext_account_id : AccountId;
  ext_account : Account AccountId;
  ext_action_hash : bytes;
  ext_block_height : Z;
  ext_protocol_version : Z
}.
Arguments mkRuntimeExt {AccountId}.
Arguments ext_account_id {AccountId}.
Arguments ext_account {AccountId}.
Arguments ext_action_hash {AccountId}.
Arguments ext_block_height {AccountId}.
Arguments ext_protocol_version {AccountId}.

(** [ReceiptPreparationPipeline::get_contract] and [near_vm_runner::run] *)
Class Vm (AccountId StorageError U CallError : Type) : Type := {
  vm_contract : Type;
  get_contract : U → Receipt AccountId → bytes → nat → vm_contract;
  vm_run : vm_contract → RuntimeExt AccountId → VMContext AccountId → RuntimeFeesConfig →
    M (U * ReceiptManager (AccountId := AccountId)) (VMRunnerError StorageError) (VMOutcome CallError)
}.

(** * Identifiers (core/primitives/src/utils.rs) *)

Section identifiers.
Context (hash : bytes → bytes).

Definition create_receipt_id_from_receipt_id (receipt_id : bytes) (block_height : Z) (receipt_index : nat) : bytes :=
  create_hash_index hash receipt_id block_height (Z.of_nat receipt_index).

Definition create_action_hash_from_receipt_id (receipt_id : bytes) (block_height : Z) (action_index : nat) : bytes :=
  create_hash_index hash receipt_id block_height ((umax 64 - Z.of_nat action_index) mod 2 ^ 64).

Definition create_random_seed (action_hash random_seed : bytes) : bytes := hash (action_hash ++ random_seed).
End identifiers.

(** [Account::MAX_ACCOUNT_DELETION_STORAGE_USAGE] *)
Definition MAX_ACCOUNT_DELETION_STORAGE_USAGE : Z := 10000.

(** The version in which [ProtocolFeature::ExcludeExistingCodeFromWitnessForCodeLen] is enabled. *)
Definition EXCLUDE_EXISTING_CODE : Z := 148.

(** The discriminant of the messages of NEP 366. *)
Definition DELEGATE_ACTION_DISCRIMINANT : Z := 2 ^ 30 + 366.

(** * Actions *)

Section actions.
Context {AccountId StorageError U CallError : Type} `{!EqDecision AccountId} `{Store : !StateStore (TrieKey AccountId) StorageError U} `{!RuntimeStore AccountId StorageError U}.
Context `{!Borsh AccountId} `{!Borsh AccessKey} `{!Borsh PromiseYieldIndices} `{!Borsh (PromiseYieldTimeout AccountId)} `{!Borsh (DelegateAction AccountId (Action AccountId))}.
Context `{!Vm AccountId StorageError U CallError}.
Context (as_bytes : AccountId → bytes) (get_account_type : AccountId → AccountType) (is_top_level : AccountId → bool) (is_sub_account_of : AccountId → AccountId → bool).
Context (system : AccountId) (hash : bytes → bytes) (verify : bytes → bytes → PublicKey → bool) (hex_decode : bytes → option bytes).
Context (wallet_magic_bytes : Code) (wallet_contract : bytes → option Code) (minimum_stake : bytes → EpochError + Z).
Context (apply_state : ApplyState AccountId).

Abbreviation config := (apply_config apply_state).
Abbreviation fees := (cfg_fees config).
Abbreviation Acct := (Account AccountId).
Abbreviation Rcpt := (Receipt AccountId).
Abbreviation Act := (Action AccountId).
Abbreviation Error := (RuntimeError StorageError).
Abbreviation Kind := (ActionErrorKind AccountId CallError).
Abbreviation Manager := (ReceiptManager (AccountId := AccountId)).

(** What an action changes. *)
Record ActionState : Type := mkActionState {
  s_update : U;
  s_account : option Acct;
  s_actor : AccountId;
  s_result : ActionResult AccountId CallError;
  s_stats : BalanceStats
}.

Abbreviation AM := (M ActionState Error).

Definition set_update (u : U) (s : ActionState) : ActionState := mkActionState u (s_account s) (s_actor s) (s_result s) (s_stats s).
Definition set_s_account (a : option Acct) (s : ActionState) : ActionState := mkActionState (s_update s) a (s_actor s) (s_result s) (s_stats s).
Definition set_actor (a : AccountId) (s : ActionState) : ActionState := mkActionState (s_update s) (s_account s) a (s_result s) (s_stats s).
Definition set_s_result (r : ActionResult AccountId CallError) (s : ActionState) : ActionState := mkActionState (s_update s) (s_account s) (s_actor s) r (s_stats s).
Definition set_s_stats (t : BalanceStats) (s : ActionState) : ActionState := mkActionState (s_update s) (s_account s) (s_actor s) (s_result s) t.

Definition gets {A} (f : ActionState → A) : AM A := λ s, Ok (f s) s.
Definition modify (f : ActionState → ActionState) : AM () := λ s, Ok () (f s).
Definition modify_result (f : ActionResult AccountId CallError → ActionResult AccountId CallError) : AM () := modify (λ s, set_s_result (f (s_result s)) s).

(** A write of the state; a read of it. *)
Definition write (f : U → option U) : AM () := λ s, match f (s_update s) with Some u => Ok () (set_update u s) | None => Panic end.
Definition read {A} (f : U → option (StorageError + A)) : AM A := λ s,
  match f (s_update s) with
  | None => Panic
  | Some (inl e) => Err (RtStorageError e) s
  | Some (inr a) => Ok a s
  end.

(** [account: &mut Account], after [expect(EXPECT_ACCOUNT_EXISTS)] *)
Definition get_acct : AM Acct := a ← gets s_account; expect a.
Definition put_acct (a : Acct) : AM () := modify (set_s_account (Some a)).

(** [result.result = Err(kind.into())] *)
Definition fail (kind : Kind) : AM () := modify_result (set_result (inl (mkActionError None kind))).

Definition safe {A} (r : Res IntegerOverflowError A) : AM A := run_res from_overflow r.
Definition inconsistent {A} : AM A := throw (RtStorageError st_inconsistent).

(** ** Permissions *)

Definition account_is_implicit (account_id : AccountId) (eth_implicit_accounts_enabled : bool) : bool :=
  match get_account_type account_id with
  | NearImplicitAccount => true
  | EthImplicitAccount => eth_implicit_accounts_enabled
  | NamedAccount => false
  end.

Definition check_actor_permissions (action : Act) (account : option Acct) (actor_id account_id : AccountId) : option (Kind + ()) :=
  match action with
  | DeployContract _ | Stake _ _ | AddKey _ _ | DeleteKey _ | DeployGlobalContract _ _ | UseGlobalContract _ =>
      Some (if bool_decide (actor_id = account_id) then inr () else inl (ActorNoPermission account_id actor_id))
  | DeleteAccount _ =>
      if bool_decide (actor_id = account_id) then
        account ← account;
        Some (if locked account =? 0 then inr () else inl (DeleteAccountStaking account_id))
      else Some (inl (ActorNoPermission account_id actor_id))
  | CreateAccount | FunctionCall _ _ _ _ | Transfer _ | Delegate _ => Some (inr ())
  end.

Definition check_transfer_to_nonexisting_account (account_id : AccountId) (implicit_account_creation_eligible : bool) : Kind + () :=
  if implicit_account_creation (cfg_wasm config) && implicit_account_creation_eligible && account_is_implicit account_id (eth_implicit_accounts (cfg_wasm config))
  then inr () else inl (AccountDoesNotExist account_id).

Definition check_account_existence (action : Act) (account : option Acct) (account_id : AccountId) (implicit_account_creation_eligible : bool) : Kind + () :=
  match action with
  | CreateAccount =>
      match account with
      | Some _ => inl (AccountAlreadyExists account_id)
      | None =>
          if implicit_account_creation (cfg_wasm config) && account_is_implicit account_id (eth_implicit_accounts (cfg_wasm config))
          then inl (OnlyImplicitAccountCreationAllowed account_id) else inr ()
      end
  | Transfer _ => match account with Some _ => inr () | None => check_transfer_to_nonexisting_account account_id implicit_account_creation_eligible end
  | _ => match account with Some _ => inr () | None => inl (AccountDoesNotExist account_id) end
  end.

(** ** Accounts *)

Definition action_create_account (account_id predecessor_id : AccountId) : AM () :=
  let create :=
    _ ← modify (set_actor account_id);
    put_acct (new_account 0 0 ContractNone (num_bytes_account (storage_usage_config fees))) in
  let creation := cfg_account_creation config in
  if is_top_level account_id then
    if (Z.of_nat (length (as_bytes account_id)) <? min_allowed_top_level_account_length creation) && negb (bool_decide (predecessor_id = registrar_account_id creation))
    then fail (CreateAccountOnlyByRegistrar account_id (registrar_account_id creation) predecessor_id)
    else create
  else if negb (is_sub_account_of account_id predecessor_id) then fail (CreateAccountNotAllowed account_id predecessor_id)
  else create.

Definition action_transfer (deposit : Z) : AM () :=
  account ← get_acct;
  match checked_add 128 (amount account) deposit with
  | Some a => put_acct (set_amount a account)
  | None => inconsistent
  end.

Definition try_refund_allowance (account_id : AccountId) (public_key : PublicKey) (deposit : Z) : AM () :=
  access_key ← read (λ u, get_access_key (st_get u) account_id public_key);
  match access_key with
  | Some (mkAccessKey nonce (PermFunctionCall p)) =>
      match allowance p with
      | Some a =>
          let new_allowance := saturating_add 128 a deposit in
          if a <? new_allowance then write (set_access_key account_id public_key (mkAccessKey nonce (PermFunctionCall (set_allowance (Some new_allowance) p))))
          else mret ()
      | None => mret ()
      end
  | _ => mret ()
  end.

(** [PublicKey::from_near_implicit_account(..).unwrap()] *)
Definition from_near_implicit_account (account_id : AccountId) : option PublicKey :=
  match get_account_type account_id with
  | NearImplicitAccount => key ← hex_decode (as_bytes account_id); try_from_slice (0 :: key)
  | _ => None
  end.

(** The nonce of a new access key. *)
Definition initial_nonce : option Z := h ← checked_sub (block_height apply_state) 1; checked_mul 64 h ACCESS_KEY_NONCE_RANGE_MULTIPLIER.

Definition action_implicit_account_creation_transfer (account_id : AccountId) (deposit : Z) : AM () :=
  let storage := storage_usage_config fees in
  _ ← modify (set_actor account_id);
  match get_account_type account_id with
  | NearImplicitAccount =>
      nonce ← expect initial_nonce;
      let access_key := mkAccessKey nonce PermFullAccess in
      public_key ← expect (from_near_implicit_account account_id);
      usage ← expect (x ← checked_add 64 (num_bytes_account storage) (Z.of_nat (public_key_len public_key));
                      y ← checked_add 64 x (Z.of_nat (length (borsh_encode access_key)));
                      checked_add 64 y (num_extra_bytes_record storage));
      _ ← put_acct (new_account deposit 0 ContractNone usage);
      write (set_access_key account_id public_key access_key)
  | EthImplicitAccount =>
      usage ← expect (x ← checked_add 64 (num_bytes_account storage) (Z.of_nat (length (code wallet_magic_bytes)));
                      checked_add 64 x (num_extra_bytes_record storage));
      _ ← put_acct (new_account deposit 0 (from_local_code_hash (code_hash wallet_magic_bytes)) usage);
      _ ← write (rs_set_code account_id wallet_magic_bytes);
      _ ← expect (wallet_contract (code_hash wallet_magic_bytes));
      mret ()
  | NamedAccount => panic
  end.

Definition action_stake (account_id : AccountId) (stake : Z) (public_key : PublicKey) : AM () :=
  account ← get_acct;
  let increment := saturating_sub stake (locked account) in
  let propose :=
    _ ← modify_result (λ r, set_proposals (validator_proposals r ++ [mkValidatorStake account_id public_key stake]) r);
    if locked account <? stake then
      a ← expect (checked_sub (amount account) increment);
      put_acct (set_locked stake (set_amount a account))
    else mret () in
  if increment <=? amount account then
    if (locked account =? 0) && (stake =? 0) then fail (TriesToUnstake account_id)
    else if 0 <? stake then
      match minimum_stake (prev_block_hash apply_state) with
      | inl e => throw (from_epoch e)
      | inr minimum_stake => if stake <? minimum_stake then fail (InsufficientStake account_id stake minimum_stake) else propose
      end
    else propose
  else fail (TriesToStake account_id stake (locked account) (amount account)).

(** ** Contracts *)

Definition get_code_len_or_default (account_id : AccountId) (code_hash : bytes) : AM Z :=
  code_len ← (if EXCLUDE_EXISTING_CODE <=? current_protocol_version apply_state then read (λ u, rs_get_code_len u account_id)
              else read (λ u, map_value (λ contract, Z.of_nat (length (code contract))) (rs_get_code u account_id code_hash)));
  let n := default 0 code_len in
  if n <=? umax 64 then mret n else panic.

Definition clear_account_contract_storage_usage (account_id : AccountId) : AM () :=
  account ← get_acct;
  match contract account with
  | ContractNone => mret ()
  | ContractLocal code_hash =>
      prev_code_len ← get_code_len_or_default account_id code_hash;
      put_acct (set_storage_usage (saturating_sub (storage_usage account) prev_code_len) account)
  | ContractGlobal _ | ContractGlobalByAccount _ =>
      put_acct (set_storage_usage (saturating_sub (storage_usage account) (identifier_storage_usage as_bytes (contract account))) account)
  end.

(** [account.set_storage_usage(account.storage_usage().checked_add(..).ok_or_else(..)?)] *)
Definition add_storage_usage (n : Z) : AM () :=
  account ← get_acct;
  match checked_add 64 (storage_usage account) n with
  | Some x => put_acct (set_storage_usage x account)
  | None => inconsistent
  end.

Definition action_deploy_contract (account_id : AccountId) (raw : bytes) : AM () :=
  _ ← clear_account_contract_storage_usage account_id;
  let c := new_code hash raw None in
  _ ← add_storage_usage (Z.of_nat (length (code c)));
  account ← get_acct;
  _ ← put_acct (set_contract (ContractLocal (code_hash c)) account);
  _ ← write (rs_set_code account_id c);
  write (rs_record_contract_deploy c).

(** [remove_account] on the state. *)
Definition on_update {A} (m : M U StorageError A) : AM A := λ s,
  match m (s_update s) with
  | Ok a u => Ok a (set_update u s)
  | Err e u => Err (RtStorageError e) (set_update u s)
  | Panic => Panic
  | OutOfFuel => OutOfFuel
  end.

Definition push_receipt (r : Rcpt) : AM () := modify_result (λ res, set_new_receipts (new_receipts res ++ [r]) res).

Definition action_delete_account (predecessor_id account_id beneficiary_id : AccountId) : AM () :=
  account ← get_acct;
  code_len ← get_code_len_or_default account_id (default default_hash (local_contract_hash account));
  let account_storage_usage := saturating_sub (storage_usage account) code_len in
  if MAX_ACCOUNT_DELETION_STORAGE_USAGE <? account_storage_usage then fail (DeleteAccountWithLargeState account_id)
  else
    let account_balance := amount account in
    _ ← (if 0 <? account_balance then push_receipt (new_balance_refund system beneficiary_id account_balance NoPriority) else mret ());
    _ ← on_update (rs_remove_account account_id);
    _ ← modify (set_actor predecessor_id);
    modify (set_s_account None).

(** ** Access keys *)

(** The storage of an access key: [object_length] of the key, of the access key, and the extra bytes. *)
Definition key_storage (public_key : PublicKey) (access_key : AccessKey) : option Z :=
  x ← checked_add 64 (Z.of_nat (length (borsh_encode public_key))) (Z.of_nat (length (borsh_encode access_key)));
  checked_add 64 x (num_extra_bytes_record (storage_usage_config fees)).

Definition action_delete_key (account_id : AccountId) (public_key : PublicKey) : AM () :=
  access_key ← read (λ u, get_access_key (st_get u) account_id public_key);
  match access_key with
  | Some access_key =>
      usage ← expect (key_storage public_key access_key);
      _ ← write (remove_access_key account_id public_key);
      account ← get_acct;
      put_acct (set_storage_usage (saturating_sub (storage_usage account) usage) account)
  | None => fail (DeleteKeyDoesNotExist account_id public_key)
  end.

Definition action_add_key (account_id : AccountId) (public_key : PublicKey) (access_key : AccessKey) : AM () :=
  existing ← read (λ u, get_access_key (st_get u) account_id public_key);
  match existing with
  | Some _ => fail (AddKeyAlreadyExists account_id public_key)
  | None =>
      nonce ← expect initial_nonce;
      _ ← write (set_access_key account_id public_key (set_nonce nonce access_key));
      usage ← expect (key_storage public_key access_key);
      add_storage_usage usage
  end.

(** ** Delegate actions *)

Definition get_nep461_hash (da : DelegateAction AccountId Act) : bytes := hash (to_le_bytes 4 DELEGATE_ACTION_DISCRIMINANT ++ borsh_encode da).

Definition verify_delegate (s : SignedDelegateAction AccountId Act) : bool :=
  verify (signature s) (get_nep461_hash (delegate_action s)) (delegate_public_key (delegate_action s)).

(** The checks of the permission of a function-call key: the error that the result is left with, and whether the
    function returned early. *)
Definition check_delegate_permission (da : DelegateAction AccountId Act) (p : FunctionCallPermission) : option Kind * bool :=
  let key_error e := Some (DelegateActionAccessKeyError e) in
  match Fees.actions da with
  | [FunctionCall method_name _ _ deposit] =>
      let kept := if 0 <? deposit then key_error DepositWithFunctionCall else None in
      if negb (bool_decide (as_bytes (Fees.receiver_id da) = permitted_receiver p)) then (key_error (ReceiverMismatch (Fees.receiver_id da) (permitted_receiver p)), true)
      else if negb (bool_decide (method_names p = [])) && forallb (λ m, negb (bool_decide (method_name = m))) (method_names p) then (key_error (MethodNameMismatch method_name), true)
      else (kept, false)
  | _ => (key_error RequiresFullAccess, true)
  end.

Definition validate_delegate_action_key (da : DelegateAction AccountId Act) : AM () :=
  key ← read (λ u, get_access_key (st_get u) (Fees.sender_id da) (delegate_public_key da));
  match key with
  | None => fail (DelegateActionAccessKeyError (AccessKeyNotFound (Fees.sender_id da) (delegate_public_key da)))
  | Some access_key =>
      if Fees.nonce da <=? access_nonce access_key then fail (DelegateActionInvalidNonce (Fees.nonce da) (access_nonce access_key))
      else
        upper_bound ← expect (checked_mul 64 (block_height apply_state) ACCESS_KEY_NONCE_RANGE_MULTIPLIER);
        if upper_bound <=? Fees.nonce da then fail (DelegateActionNonceTooLarge (Fees.nonce da) upper_bound)
        else
          let access_key := set_nonce (Fees.nonce da) access_key in
          let '(error, return_early) := match permission access_key with PermFunctionCall p => check_delegate_permission da p | PermFullAccess => (None, false) end in
          _ ← (match error with Some kind => fail kind | None => mret () end);
          if (return_early : bool) then mret () else write (set_access_key (Fees.sender_id da) (delegate_public_key da) access_key)
  end.

(** [receipt_required_gas] of an action receipt; it is zero for the others. *)
Definition receipt_required_gas (r : Rcpt) : AM Z :=
  match receipt r with
  | ActionR action_receipt | PromiseYield action_receipt =>
      exec ← safe (total_prepaid_exec_fees as_bytes get_account_type fees (cfg_wasm config) (receipt_actions action_receipt) (Receipt.receiver_id r));
      prepaid ← safe (total_prepaid_gas (receipt_actions action_receipt));
      required_gas ← safe (safe_add_gas exec prepaid);
      safe (safe_add_gas required_gas (Costs.exec_fee (fee fees action_new_action_receipt)))
  | GlobalContractDistribution _ | DataR _ | PromiseResume _ => mret 0
  end.

Definition add_gas_used (x : Z) : AM () := r ← gets s_result; g ← safe (safe_add_gas (gas_used r) x); modify_result (set_gas_used g).
Definition add_gas_burnt (x : Z) : AM () := r ← gets s_result; g ← safe (safe_add_gas (gas_burnt r) x); modify_result (set_gas_burnt g).
Definition add_compute_usage (x : Z) : AM () := r ← gets s_result; g ← safe (safe_add_compute (compute_usage r) x); modify_result (set_compute_usage g).

Definition apply_delegate_action (action_receipt : ActionReceipt AccountId) (sender_id : AccountId) (signed : SignedDelegateAction AccountId Act) : AM () :=
  let da := delegate_action signed in
  if negb (verify_delegate signed) then fail DelegateActionInvalidSignature
  else if Fees.max_block_height da <? block_height apply_state then fail DelegateActionExpired
  else if negb (bool_decide (as_bytes (Fees.sender_id da) = as_bytes sender_id)) then fail (DelegateActionSenderDoesNotMatchTxReceiver (Fees.sender_id da) sender_id)
  else
    _ ← validate_delegate_action_key da;
    r ← gets s_result;
    if negb (result_ok r) then mret ()
    else
      let new_receipt := ReceiptIsV0 (mkReceiptV0 sender_id (Fees.receiver_id da) default_hash
        (ActionR (mkActionReceipt (signer_id action_receipt) (signer_public_key action_receipt) (gas_price action_receipt) [] [] (Fees.actions da)))) in
      prepaid_send_fees ← safe (total_prepaid_send_fees as_bytes get_account_type fees (cfg_wasm config) (receipt_actions action_receipt));
      required_gas ← receipt_required_gas new_receipt;
      _ ← add_gas_used required_gas;
      _ ← add_gas_used prepaid_send_fees;
      _ ← add_gas_burnt prepaid_send_fees;
      _ ← add_compute_usage prepaid_send_fees;
      push_receipt new_receipt.

(** ** Global contracts (runtime/runtime/src/global_contracts.rs) *)

Definition initiate_distribution (account_id : AccountId) (contract_code : bytes) (deploy_mode : GlobalContractDeployMode) : AM () :=
  let id := match deploy_mode with ModeCodeHash => ContractCodeHash (hash contract_code) | ModeAccountId => ContractAccountId account_id end in
  push_receipt (new_global_contract_distribution system account_id (mkDistribution id (shard_id apply_state) [] contract_code)).

Definition add_global_burnt (x : Z) (t : BalanceStats) : BalanceStats :=
  mkBalanceStats (tx_burnt_amount t) (slashed_burnt_amount t) (other_burnt_amount t) (gas_deficit_amount t) (saturating_add 128 (global_actions_burnt_amount t) x).

Definition action_deploy_global_contract (account_id : AccountId) (raw : bytes) (deploy_mode : GlobalContractDeployMode) : AM () :=
  account ← get_acct;
  let storage_cost := saturating_mul 128 (global_contract_storage_amount_per_byte (storage_usage_config fees)) (Z.of_nat (length raw)) in
  match checked_sub (amount account) storage_cost with
  | None => fail (ActionLackBalanceForState account_id storage_cost)
  | Some updated_balance =>
      _ ← modify (λ s, set_s_stats (add_global_burnt storage_cost (s_stats s)) s);
      _ ← put_acct (set_amount updated_balance account);
      initiate_distribution account_id raw deploy_mode
  end.

Definition code_identifier (i : GlobalContractIdentifier AccountId) : GlobalContractCodeIdentifier AccountId :=
  match i with ContractCodeHash h => IdCodeHash h | ContractAccountId id => IdAccountId id end.

Definition action_use_global_contract (account_id : AccountId) (contract_identifier : GlobalContractIdentifier AccountId) : AM () :=
  let key := GlobalContractCode (code_identifier contract_identifier) in
  exists_ ← read (λ u, rs_contains_key u key);
  if negb exists_ then fail (GlobalContractDoesNotExist contract_identifier)
  else
    _ ← clear_account_contract_storage_usage account_id;
    account ← get_acct;
    _ ← (if contract_is_local (contract account) then write (st_remove (ContractCode account_id)) else mret ());
    _ ← add_storage_usage (identifier_len as_bytes contract_identifier);
    account ← get_acct;
    put_acct (set_contract (match contract_identifier with ContractCodeHash code_hash => ContractGlobal code_hash | ContractAccountId id => ContractGlobalByAccount id end) account).

(** [AccountContractStoreExt] *)
Definition contract_code_of (account_id : AccountId) (c : AccountContract AccountId) (u : U) : option (StorageError + option Code) :=
  match for_account_contract_code account_id c with
  | None => Some (inr None)
  | Some key =>
      let code_hash := match c with ContractNone | ContractGlobalByAccount _ => None | ContractLocal h | ContractGlobal h => Some h end in
      map_value (λ raw, new_code hash raw code_hash) (st_get u key)
  end.

Definition contract_hash_of (c : AccountContract AccountId) (u : U) : option (StorageError + bytes) :=
  match c with
  | ContractNone => Some (inr default_hash)
  | ContractLocal h | ContractGlobal h => Some (inr h)
  | ContractGlobalByAccount account_id =>
      r ← rs_get_ref u (GlobalContractCode (IdAccountId account_id));
      Some (match r with
            | inl e => inl e
            | inr None => inl st_inconsistent
            | inr (Some value_ref) => inr value_ref.2
            end)
  end.

(** ** Function calls *)

(** A run of the virtual machine on the state and a receipt manager: the manager is local to the call. *)
Definition execute_function_call (c : vm_contract) (ext : RuntimeExt AccountId) (predecessor_id : AccountId) (action_receipt : ActionReceipt AccountId)
    (results : list PromiseResult) (method_args : bytes) (gas deposit : Z) (is_last_action view : bool) : M (U * Manager) Error (VMOutcome CallError) :=
  let account := ext_account ext in
  let context := mkVMContext (ext_account_id ext) (signer_id action_receipt) (borsh_encode (signer_public_key action_receipt)) predecessor_id method_args results
    (block_height apply_state) (block_timestamp apply_state) (epoch_height apply_state) (amount account) (locked account) (storage_usage account) deposit gas
    (create_random_seed hash (ext_action_hash ext) (random_seed apply_state)) view
    (if is_last_action then dr_receiver_id <$> Receipt.output_data_receivers action_receipt else []) in
  λ s,
  match vm_run c ext context fees s with
  | Ok outcome s =>
      if view then Ok outcome s
      else
        (distributed ← zoom snd (λ m s, (s.1, m)) (distribute_gas from_overflow (saturating_sub gas (out_used_gas outcome)));
         used ← run_res from_overflow (safe_add_gas (out_used_gas outcome) distributed);
         mret (set_out_used_gas used outcome)) s
  | Err ContractCodeNotPresent s => Ok (nop_outcome (CodeDoesNotExist (as_bytes (ext_account_id ext)))) s
  | Err (ExternalStorageError e) s => Err (RtStorageError e) s
  | Err (ExternalValidatorError e) s => Err (ValidatorError e) s
  | Err InconsistentStateIntegerOverflow s | Err CacheError s => Err (RtStorageError st_inconsistent) s
  | Err LoadingError _ | Err Nondeterministic _ | Err WasmUnknownError _ => Panic
  | Panic => Panic
  | OutOfFuel => OutOfFuel
  end.

(** The new receipts of a call, with a timeout for each that waits to be resumed. *)
Definition action_receipt_of (account_id : AccountId) (parent : ActionReceipt AccountId) (r : ActionReceiptMetadata (AccountId := AccountId)) : Rcpt :=
  let new := mkActionReceipt (signer_id parent) (signer_public_key parent) (gas_price parent) (md_output_data_receivers r) (md_input_data_ids r) (md_actions r) in
  ReceiptIsV0 (mkReceiptV0 account_id (md_receiver_id r) default_hash (if is_promise_yield r then PromiseYield new else ActionR new)).

Definition data_receipt_of (account_id : AccountId) (r : DataReceiptMetadata) : Rcpt :=
  let new := mkDataReceipt (md_data_id r) (md_data r) in
  ReceiptIsV0 (mkReceiptV0 account_id account_id default_hash (if is_promise_resume r then PromiseResume new else DataR new)).

Fixpoint enqueue_timeouts (account_id : AccountId) (l : list (ActionReceiptMetadata (AccountId := AccountId))) (indices : PromiseYieldIndices) (u : U) : option (PromiseYieldIndices * U) :=
  match l with
  | [] => Some (indices, u)
  | r :: l =>
      '(indices, u) ← (if is_promise_yield r then
                         id ← md_input_data_ids r !! 0%nat;
                         expires ← checked_add 64 (block_height apply_state) (yield_timeout_length_in_blocks config);
                         enqueue_promise_yield_timeout indices account_id id expires u
                       else Some (indices, u));
      enqueue_timeouts account_id l indices u
  end.

Definition yield_indices_eq (i j : PromiseYieldIndices) : bool :=
  (yield_first_index i =? yield_first_index j) && (yield_next_available_index i =? yield_next_available_index j).

(** [get_promise_yield_indices(state_update).unwrap_or_default()]: an error is ignored. *)
Definition write_timeouts (account_id : AccountId) (l : list (ActionReceiptMetadata (AccountId := AccountId))) (u : U) : option U :=
  r ← get_promise_yield_indices (st_get u);
  let initial := match r with inr i => i | inl _ => default_yield_indices end in
  '(indices, u) ← enqueue_timeouts account_id l initial u;
  if yield_indices_eq indices initial then Some u else set_promise_yield_indices indices u.

Definition action_function_call (r : Rcpt) (action_receipt : ActionReceipt AccountId) (results : list PromiseResult) (account_id : AccountId) (method_args : bytes) (gas deposit : Z)
    (action_hash code_hash : bytes) (is_last_action : bool) (c : vm_contract) : AM () :=
  account ← get_acct;
  match checked_add 128 (amount account) deposit with
  | None => inconsistent
  | Some _ =>
      u ← read (λ u, rs_record_contract_call account_id code_hash (contract account) (update_tracked_shard apply_state) u);
      _ ← modify (set_update u);
      let ext := mkRuntimeExt account_id account action_hash (block_height apply_state) (current_protocol_version apply_state) in
      '(outcome, manager) ← (λ s,
         match execute_function_call c ext (predecessor_id r) action_receipt results method_args gas deposit is_last_action false (s_update s, default_manager) with
         | Ok outcome (u, manager) => Ok (outcome, manager) (set_update u s)
         | Err e (u, _) => Err e (set_update u s)
         | Panic => Panic
         | OutOfFuel => OutOfFuel
         end);
      _ ← (match aborted outcome with Some err => fail (ActionFunctionCallError err) | None => mret () end);
      _ ← add_gas_burnt (out_burnt_gas outcome);
      res ← gets s_result;
      call ← safe (safe_add_gas (gas_burnt_for_function_call res) (out_burnt_gas outcome));
      _ ← modify_result (set_gas_burnt_for_function_call call);
      _ ← add_gas_used (out_used_gas outcome);
      _ ← add_compute_usage (out_compute_usage outcome);
      _ ← modify_result (λ res, set_profile (merge (profile res) (out_profile outcome)) (set_logs (logs res ++ out_logs outcome) res));
      match aborted outcome with
      | Some _ => mret ()
      | None =>
          _ ← write (write_timeouts account_id (action_receipts manager));
          let new := (action_receipt_of account_id action_receipt <$> action_receipts manager) ++ (data_receipt_of account_id <$> data_receipts manager) in
          _ ← put_acct (set_storage_usage (out_storage_usage outcome) (set_amount (out_balance outcome) account));
          modify_result (λ res, set_new_receipts (new_receipts res ++ new) (set_result (inr (out_return_data outcome)) res))
      end
  end.

(** * The action of a receipt (runtime/runtime/src/lib.rs) *)

Definition action_transfer_or_implicit_account_creation (deposit : Z) (is_refund : bool) (action_receipt : ActionReceipt AccountId) (r : Rcpt) : AM () :=
  account ← gets s_account;
  match account with
  | Some _ =>
      _ ← action_transfer deposit;
      if is_refund && bool_decide (signer_id action_receipt = Receipt.receiver_id r)
      then try_refund_allowance (Receipt.receiver_id r) (signer_public_key action_receipt) deposit else mret ()
  | None => action_implicit_account_creation_transfer (Receipt.receiver_id r) deposit
  end.

Definition is_system (id : AccountId) : bool := bool_decide (id = system).

(** The result starts with the fee for the action. *)
Definition apply_action (action : Act) (r : Rcpt) (action_receipt : ActionReceipt AccountId) (results : list PromiseResult) (action_hash : bytes) (action_index num_actions : nat) : AM () :=
  let account_id := Receipt.receiver_id r in
  let is_refund := is_system (predecessor_id r) in
  let implicit_account_creation_eligible := bool_decide (num_actions = 1%nat) && negb is_refund in
  exec_fees ← expect (Fees.exec_fee as_bytes get_account_type fees (cfg_wasm config) action account_id);
  _ ← modify (set_s_result (set_compute_usage exec_fees (set_gas_burnt exec_fees (set_gas_used exec_fees default_result))));
  account ← gets s_account;
  match check_account_existence action account account_id implicit_account_creation_eligible with
  | inl e => fail e
  | inr () =>
      actor_id ← gets s_actor;
      permitted ← expect (check_actor_permissions action account actor_id account_id);
      match permitted with
      | inl e => fail e
      | inr () =>
          match action with
          | CreateAccount => action_create_account account_id (predecessor_id r)
          | DeployContract code => action_deploy_contract account_id code
          | DeployGlobalContract code deploy_mode => action_deploy_global_contract account_id code deploy_mode
          | UseGlobalContract contract_identifier => action_use_global_contract account_id contract_identifier
          | FunctionCall _ args gas deposit =>
              account ← get_acct;
              code_hash ← read (contract_hash_of (contract account));
              u ← gets s_update;
              action_function_call r action_receipt results account_id args gas deposit action_hash code_hash (bool_decide (S action_index = num_actions)) (get_contract u r code_hash action_index)
          | Transfer deposit => action_transfer_or_implicit_account_creation deposit is_refund action_receipt r
          | Stake stake public_key => action_stake account_id stake public_key
          | AddKey public_key access_key => action_add_key account_id public_key access_key
          | DeleteKey public_key => action_delete_key account_id public_key
          | DeleteAccount beneficiary_id => action_delete_account (predecessor_id r) account_id beneficiary_id
          | Delegate signed => apply_delegate_action action_receipt account_id signed
          end
      end
  end.
End actions.
