(* ===== verification/ActionsCorrect.v ===== *)
(** What the actions of a receipt do to balances, gas and the state: every action that succeeds moves exactly its deposit, burns
    what it pays for, and uses at most the gas that was bought for it; outside of the account it changes nothing. *)

From S2P Require Import Prelude Errors Borsh Costs TrieKey StateUpdate TrieQueue Fees Receipt ReceiptManager Account StoreUtils RemoveAccount Verifier ReceiptQueues ProcessTransactions RuntimeStore Actions.
Local Open Scope Z_scope.

(** * Values of receipts *)

Section values.
Context {AccountId : Type} `{!EqDecision AccountId} (as_bytes : AccountId → bytes) (get_account_type : AccountId → AccountType).
Context (fees : RuntimeFeesConfig) (wasm_config : VmConfig) (system : AccountId).

Abbreviation Act := (Action AccountId).
Abbreviation Rcpt := (Receipt AccountId).
Abbreviation Metadata := (ActionReceiptMetadata (AccountId := AccountId)).
Abbreviation Manager := (ReceiptManager (AccountId := AccountId)).
Abbreviation receipt_gas := (receipt_gas as_bytes get_account_type fees wasm_config).

(** The deposits that a receipt carries; the gas that was bought for it, none for the receipts of the system; both in tokens. *)
Definition receipt_deposit (r : Rcpt) : Z :=
  match receipt r with ActionR a | PromiseYield a => sum_Z (deposit_of <$> receipt_actions a) | _ => 0 end.

Definition bought_gas (r : Rcpt) : Z :=
  if bool_decide (predecessor_id r = system) then 0
  else match receipt r with ActionR a | PromiseYield a => receipt_gas (receipt_actions a) (Receipt.receiver_id r) | _ => 0 end.

Definition receipt_price (r : Rcpt) : Z := match receipt r with ActionR a | PromiseYield a => gas_price a | _ => 0 end.

Definition receipt_value (r : Rcpt) : Z := receipt_deposit r + receipt_price r * bought_gas r.

Definition total_deposits (l : list Rcpt) : Z := sum_Z (receipt_deposit <$> l).
Definition total_bought (l : list Rcpt) : Z := sum_Z (bought_gas <$> l).
Definition total_value (l : list Rcpt) : Z := sum_Z (receipt_value <$> l).

(** The receipts of an execution were bought at one price, or are free. *)
Definition priced (p : Z) (r : Rcpt) : Prop := bought_gas r = 0 ∨ receipt_price r = p.

Lemma total_deposits_app l k : total_deposits (l ++ k) = total_deposits l + total_deposits k.
Proof. unfold total_deposits. by rewrite fmap_app, sum_Z_app. Qed.
Lemma total_bought_app l k : total_bought (l ++ k) = total_bought l + total_bought k.
Proof. unfold total_bought. by rewrite fmap_app, sum_Z_app. Qed.
Lemma total_value_app l k : total_value (l ++ k) = total_value l + total_value k.
Proof. unfold total_value. by rewrite fmap_app, sum_Z_app. Qed.

Lemma total_value_priced p l : Forall (priced p) l → total_value l = total_deposits l + p * total_bought l.
Proof.
  unfold total_value, total_deposits, total_bought. induction 1 as [|r l Hr _ IH]; [cbn; lia|]. rewrite !fmap_cons, !sum_Z_cons, IH.
  unfold receipt_value. destruct Hr as [->| ->]; lia.
Qed.

(** ** Receipts of a call *)

Definition metadata_gas (r : Metadata) : Z := receipt_gas (md_actions r) (md_receiver_id r).
Definition metadata_deposit (r : Metadata) : Z := sum_Z (deposit_of <$> md_actions r).
Definition manager_gas (l : list Metadata) : Z := sum_Z (metadata_gas <$> l).
Definition manager_deposits (l : list Metadata) : Z := sum_Z (metadata_deposit <$> l).

(** Gas that is added to a call is bought with its receipt, and changes no other cost. *)
Lemma receipt_gas_share l i a g receiver : l !! i = Some a → is_call a → receipt_gas (alter (add_gas g) i l) receiver = receipt_gas l receiver + g.
Proof.
  intros Ha Hc. unfold Fees.receipt_gas, attached_gas. rewrite !(sum_Z_alter _ _ _ _ a Ha). destruct a; try done.
  unfold prepaid_of at 2 3, prepaid_send_cost at 2 3, exec_cost at 2 3. cbn [add_gas get_prepaid_gas inner fmap list_fmap inner_receiver].
  replace (action_cost _ _ _ _ _ _ (FunctionCall method_name args (gas + g) deposit)) with (action_cost as_bytes get_account_type fees wasm_config Costs.exec_fee receiver (FunctionCall method_name args gas deposit)) by done. lia.
Qed.

Lemma deposits_share (l : list Act) i a g : l !! i = Some a → sum_Z (deposit_of <$> alter (add_gas g) i l) = sum_Z (deposit_of <$> l).
Proof. intros Ha. rewrite (sum_Z_alter _ _ _ _ a Ha). destruct a; unfold deposit_of at 2 3; cbn [add_gas get_deposit_balance inner]; lia. Qed.

Lemma add_share_manager l p a : action_at p.1 l = Some a → is_call a →
  manager_gas (add_share l p) = manager_gas l + p.2 ∧ manager_deposits (add_share l p) = manager_deposits l.
Proof.
  destruct p as [[r i] g]. unfold action_at, add_share, manager_gas, manager_deposits. cbn [receipt_index action_index fst snd]. intros Ha Hc.
  destruct (l !! r) as [md|] eqn:Hr; [|done]. cbn [mbind option_bind] in Ha. rewrite !(sum_Z_alter _ _ _ _ md Hr).
  unfold metadata_gas, metadata_deposit. cbn [md_actions set_md_actions md_receiver_id]. rewrite (receipt_gas_share _ _ a), (deposits_share _ _ a) by done. lia.
Qed.

Lemma apply_shares_manager ps l : (∀ p, p ∈ ps → ∃ a, action_at p.1 l = Some a ∧ is_call a) →
  manager_gas (apply_shares l ps) = manager_gas l + sum_Z ps.*2 ∧ manager_deposits (apply_shares l ps) = manager_deposits l.
Proof.
  revert l. induction ps as [|p ps IH]; intros l Hp; [split; [symmetry; apply Z.add_0_r|done]|]. destruct (Hp p) as (a & Ha & Hc); [by left|].
  cbn [apply_shares foldl]. fold (apply_shares (add_share l p) ps). destruct (add_share_manager l p a Ha Hc) as [E1 E2].
  destruct (IH (add_share l p)) as [-> ->]; [|rewrite E1, E2, fmap_cons, sum_Z_cons; lia]. intros q Hq. rewrite action_at_share.
  destruct (Hp q) as (b & -> & Hb); [by right|]. case_decide; eexists; (split; [done|]); [|done]. by apply is_call_add_gas.
Qed.

Lemma shares_are_calls (m : Manager) u p : rm_ok m → p ∈ distribution m u → ∃ a, action_at p.1 (action_receipts m) = Some a ∧ is_call a.
Proof.
  intros Hok Hp. unfold distribution in Hp. destruct (u =? 0); [by apply not_elem_of_nil in Hp|].
  assert (Hp1 : p.1 ∈ (gas_weights m).*1) by (rewrite <-(shares_index _ u (sum_Z (gas_weights m).*2) 0); by apply list_elem_of_fmap_2).
  apply list_elem_of_fmap in Hp1 as (q & -> & Hq). exact (proj1 (proj1 (Forall_forall _ _) (proj1 (rm_weights _ Hok)) q Hq)).
Qed.

Lemma distribution_sum (m : Manager) u : sum_Z (distribution m u).*2 = if bool_decide (gas_weights m = []) then 0 else u.
Proof.
  unfold distribution. destruct (Z.eqb_spec u 0) as [->|_]; [by case_bool_decide|]. case_bool_decide as Hne; [by rewrite Hne|]. rewrite shares_sum by done. lia.
Qed.

(** The gas that is left of a call is distributed without an error, and bought with the receipts. *)
Lemma distribute_manager {E} (overflow : IntegerOverflowError → E) (m : Manager) u : rm_ok m → 0 <= u <= umax 64 → receipts_gas (action_receipts m) + u <= umax 64 →
  ∃ given l', distribute_gas overflow u m = Ok given (set_action_receipts l' m) ∧ 0 <= given <= u ∧
    manager_gas l' = manager_gas (action_receipts m) + given ∧ manager_deposits l' = manager_deposits (action_receipts m) ∧
    ∀ i, action_at i l' = add_gas (share_of (distribution m u) i) <$> action_at i (action_receipts m).
Proof.
  intros Hok Hu Hle. exists (sum_Z (distribution m u).*2), (apply_shares (action_receipts m) (distribution m u)).
  split; [by apply distribute_gas_ok|]. split; [rewrite distribution_sum; case_bool_decide; lia|].
  destruct (apply_shares_manager (distribution m u) (action_receipts m)) as [-> ->]; [intros p; by apply shares_are_calls|]. split_and!; [done..|]. apply action_at_shares.
Qed.
End values.

(** * Costs of the actions inside *)

Section limits.
Context {AccountId : Type} `{!EqDecision AccountId} (as_bytes : AccountId → bytes) (get_account_type : AccountId → AccountType).
Context (fees : RuntimeFeesConfig) (wasm : VmConfig) (fees_fit : fees_ok fees).
Abbreviation Act := (Action AccountId).
Abbreviation action_ok := (action_ok as_bytes).

Lemma inner_action_ok (l : list Act) : Forall (λ b, shallow_ok as_bytes b ∧ non_delegate b = true) l → Forall action_ok l ∧ sum_Z (prepaid_send_cost as_bytes get_account_type fees wasm <$> l) = 0.
Proof.
  induction 1 as [|b l [Hb Hn] _ [IH1 IH2]]; [by split|]. split; [apply Forall_cons; split; [|done]|rewrite fmap_cons, sum_Z_cons, IH2]; destruct b; try done; by split.
Qed.

Lemma inner_deposits (l : list Act) : Forall (λ b, shallow_ok as_bytes b ∧ non_delegate b = true) l → sum_Z (deposit_of <$> l) = sum_Z (get_deposit_balance <$> l).
Proof. induction 1 as [|b l [Hb Hn] _ IH]; [done|]. rewrite !fmap_cons, !sum_Z_cons, IH. unfold deposit_of. destruct b; try done; cbn; lia. Qed.

Lemma inner_prepaid (l : list Act) : Forall (λ b, shallow_ok as_bytes b ∧ non_delegate b = true) l → sum_Z (prepaid_of <$> l) = sum_Z (get_prepaid_gas <$> l).
Proof. induction 1 as [|b l [Hb Hn] _ IH]; [done|]. rewrite !fmap_cons, !sum_Z_cons, IH. unfold prepaid_of. destruct b; try done; cbn; lia. Qed.

Lemma inner_exec receiver (l : list Act) : Forall (λ b, shallow_ok as_bytes b ∧ non_delegate b = true) l →
  sum_Z (exec_cost as_bytes get_account_type fees wasm receiver <$> l) = sum_Z (action_cost as_bytes get_account_type fees wasm Costs.exec_fee receiver <$> l).
Proof. induction 1 as [|b l [Hb Hn] _ IH]; [done|]. rewrite !fmap_cons, !sum_Z_cons, IH. unfold exec_cost. destruct b; try done; cbn [inner inner_receiver fmap list_fmap sum_Z foldr]; lia. Qed.

Abbreviation receipt_gas := (receipt_gas as_bytes get_account_type fees wasm).

Lemma receipt_gas_nonneg (l : list Act) receiver : Forall (λ b, shallow_ok as_bytes b ∧ non_delegate b = true) l → 0 <= receipt_gas l receiver.
Proof.
  intros [Hok Hps]%inner_action_ok. unfold Fees.receipt_gas, attached_gas. rewrite Hps. pose proof (proj1 (total_exec_exact _ get_account_type fees wasm fees_fit receiver _ Hok)).
  pose proof (proj1 (total_prepaid_exact _ _ Hok)). pose proof (exec_column_ok _ fees_fit action_new_action_receipt) as [? _]. lia.
Qed.

(** The gas that an action may use beyond its fee. *)
Definition action_bound (ar : ActionReceipt AccountId) (a : Act) : Z :=
  match a with
  | FunctionCall _ _ gas _ => gas
  | Delegate signed => receipt_gas (Fees.actions (delegate_action signed)) (Fees.receiver_id (delegate_action signed)) + sum_Z (prepaid_send_cost as_bytes get_account_type fees wasm <$> receipt_actions ar)
  | _ => 0
  end.

Lemma action_bound_nonneg ar a : action_ok a → Forall action_ok (receipt_actions ar) → 0 <= action_bound ar a.
Proof.
  intros [(_ & [Hg _] & _) Hin] Hall. destruct a; cbn [action_bound]; try done. cbn [inner] in Hin. pose proof (receipt_gas_nonneg _ (Fees.receiver_id (delegate_action signed)) Hin).
  pose proof (proj1 (total_prepaid_send_exact _ get_account_type fees wasm fees_fit _ Hall)). lia.
Qed.
End limits.

(** * Accounts *)

Section accounts.
Context {AccountId : Type}.
Implicit Types a : Account AccountId.

(** The values have the widths of their fields. *)
Definition hash_fits a : Prop := match a with AccountIsV1 a => length (a1_code_hash a) = 32%nat | AccountIsV2 a => contract_ok (a2_contract a) end.
Definition acct_fits a : Prop := in_u 128 (amount a) ∧ in_u 128 (locked a) ∧ in_u 64 (storage_usage a) ∧ hash_fits a.

Definition held (o : option (Account AccountId)) : Z := match o with Some a => amount a + locked a | None => 0 end.

Lemma acct_fits_ok a : acct_fits a → amount a < umax 128 → account_ok a.
Proof.
  intros (H1 & H2 & H3 & H4) Hlt. split_and!; [done..|]. destruct a; [|done]. split; [done|]. cbn in Hlt. unfold SERIALIZATION_SENTINEL. lia.
Qed.

Lemma account_ok_fits a : account_ok a → acct_fits a.
Proof. intros (H1 & H2 & H3 & H4). split_and!; [done..|]. destruct a; [by destruct H4|done]. Qed.

Lemma fits_set_amount x a : in_u 128 x → acct_fits a → acct_fits (set_amount x a).
Proof. destruct a as [[]|[]]; intros Hx (_ & H2 & H3 & H4); by split_and!. Qed.
Lemma fits_set_locked x a : in_u 128 x → acct_fits a → acct_fits (set_locked x a).
Proof. destruct a as [[]|[]]; intros Hx (H1 & _ & H3 & H4); by split_and!. Qed.
Lemma fits_set_storage x a : in_u 64 x → acct_fits a → acct_fits (set_storage_usage x a).
Proof. destruct a as [[]|[]]; intros Hx (H1 & H2 & _ & H4); by split_and!. Qed.

Lemma fits_set_contract c a : contract_ok c → acct_fits a → acct_fits (set_contract c a).
Proof.
  destruct a as [[]|[]], c; intros Hc (H1 & H2 & H3 & H4); cbn in *; split_and!; try done; cbn; try apply length_replicate; try exact Hc.
Qed.

Lemma fits_new m l c s : in_u 128 m → in_u 128 l → contract_ok c → in_u 64 s → acct_fits (new_account m l c s).
Proof. intros Hm Hl Hc Hs. destruct c; split_and!; try done; cbn; apply length_replicate. Qed.

Lemma held_storage x a : held (Some (set_storage_usage x a)) = held (Some a).
Proof. by destruct a as [[]|[]]. Qed.
Lemma held_contract c a : held (Some (set_contract c a)) = held (Some a).
Proof. by destruct a as [[]|[]], c. Qed.
Lemma held_amount x a : held (Some (set_amount x a)) = x + locked a.
Proof. by destruct a as [[]|[]]. Qed.
Lemma held_locked x a : held (Some (set_locked x a)) = amount a + x.
Proof. by destruct a as [[]|[]]. Qed.
Lemma held_new m l c s : held (Some (new_account m l c s)) = m + l.
Proof. by destruct c. Qed.
Lemma amount_locked x a : amount (set_locked x a) = amount a.
Proof. by destruct a as [[]|[]]. Qed.
Lemma contract_ok_fits a : acct_fits a → contract_ok (contract a).
Proof. intros (_ & _ & _ & H4). destruct a as [[m l h s]|[]]; cbn in *; [|done]. unfold from_local_code_hash. by case_bool_decide. Qed.
End accounts.
#[export] Hint Rewrite @held_storage @held_contract @held_amount @held_locked @held_new @amount_locked : account.
Create HintDb fits.
#[export] Hint Resolve fits_set_amount fits_set_locked fits_set_storage fits_set_contract fits_new : fits.

(** * What the virtual machine promises *)

Section vm.
Context {AccountId StorageError U CallError : Type} `{!EqDecision AccountId} `{!StateStore (TrieKey AccountId) StorageError U} `{!Vm AccountId StorageError U CallError}.
Context (as_bytes : AccountId → bytes) (get_account_type : AccountId → AccountType).
Context (key_ok : TrieKey AccountId → Prop) (st_view st_saved : U → TrieKey AccountId → option (list Z)) (st_trie_view : U → Base (TrieKey AccountId)).

(** A call burns no more than it uses, uses no more than it was given, and attaches no more to its receipts than it uses.  If it was not aborted, the deposits of the receipts it created are
    taken from the balance, and the gas that it used and did not burn is bought with them. *)
Record vm_outcome_ok (fees : RuntimeFeesConfig) (wasm_config : VmConfig) (ctx : VMContext AccountId) (o : VMOutcome CallError) (m : ReceiptManager (AccountId := AccountId)) : Prop := {
  vo_manager : manager_reached as_bytes m;
  vo_gas : 0 <= out_burnt_gas o <= out_used_gas o;
  vo_prepaid : out_used_gas o <= prepaid_gas ctx;
  vo_attached : receipts_gas (action_receipts m) <= out_used_gas o;
  vo_storage : in_u 64 (out_storage_usage o);
  vo_actions : Forall (λ r, Forall (action_ok as_bytes) (md_actions r)) (action_receipts m);
  vo_balance : aborted o = None → 0 <= out_balance o ∧ out_balance o + manager_deposits (action_receipts m) = account_balance ctx + attached_deposit ctx;
  vo_bought : aborted o = None → manager_gas as_bytes get_account_type fees wasm_config (action_receipts m) = out_used_gas o - out_burnt_gas o
}.

(** The machine writes the contract data of the account and nothing else, and keeps its accounts of gas and balance. *)
Class VmOk (wasm_config : VmConfig) : Prop := {
  vm_run_ok c ext ctx fees u :
    match vm_run c ext ctx fees (u, default_manager) with
    | Ok o (u', m) => st_frame key_ok st_view st_saved st_trie_view (λ k, ∃ key, k = ContractData (ext_account_id ext) key) u u' ∧ vm_outcome_ok fees wasm_config ctx o m
    | Err _ (u', _) => st_frame key_ok st_view st_saved st_trie_view (λ k, ∃ key, k = ContractData (ext_account_id ext) key) u u'
    | _ => True
    end
}.
End vm.

(** * Rules *)

Section rules.
Context {AccountId StorageError U CallError : Type} `{!StateStore (TrieKey AccountId) StorageError U}.

Abbreviation Acct := (Account AccountId).
Abbreviation State := (ActionState (AccountId := AccountId) (U := U) (CallError := CallError)).
Abbreviation AM := (M State (RuntimeError StorageError)).
Implicit Types (s : State).

Lemma e_gets {A} (f : State → A) s (Q : A → State → Prop) : Q (f s) s → ensures (gets f : AM A) s Q.
Proof. done. Qed.
Lemma e_modify (f : State → State) s (Q : () → State → Prop) : Q () (f s) → ensures (modify f : AM ()) s Q.
Proof. done. Qed.
Lemma e_write f s (Q : () → State → Prop) : (∀ u, f (s_update s) = Some u → Q () (set_update u s)) → ensures (write f : AM ()) s Q.
Proof. intros H. unfold ensures, write. destruct (f (s_update s)) as [u|]; [by apply H|done]. Qed.
Lemma e_read {A} f s (Q : A → State → Prop) : (∀ a, f (s_update s) = Some (inr a) → Q a s) → ensures (read f : AM A) s Q.
Proof. intros H. unfold ensures, read. destruct (f (s_update s)) as [[e|a]|]; [done|by apply H|done]. Qed.
Lemma e_expect {A} (o : option A) s (Q : A → State → Prop) : (∀ a, o = Some a → Q a s) → ensures (expect o : AM A) s Q.
Proof. intros H. destruct o as [a|]; [by apply H|done]. Qed.
Lemma e_get_acct s (Q : Acct → State → Prop) : (∀ a, s_account s = Some a → Q a s) → ensures (get_acct : AM Acct) s Q.
Proof. intros H. unfold get_acct. apply ensures_seq, e_gets, e_expect, H. Qed.
Lemma e_safe {A} (r : Res IntegerOverflowError A) s (Q : A → State → Prop) : (∀ a, r = ROk a → Q a s) → ensures (safe r : AM A) s Q.
Proof. intros H. destruct r as [a| |]; [by apply H|done..]. Qed.
Lemma e_inconsistent {A} s (Q : A → State → Prop) : ensures (inconsistent : AM A) s Q.
Proof. done. Qed.
Lemma e_on_update {A} (m : M U StorageError A) s (Q : A → State → Prop) : ensures m (s_update s) (λ a u, Q a (set_update u s)) → ensures (on_update m : AM A) s Q.
Proof. unfold ensures, on_update. by destruct (m (s_update s)). Qed.
End rules.

(** One step of an action. *)
Ltac estep :=
  (match goal with
   | |- ensures (_ ≫= _) _ _ => apply ensures_seq
   | |- ensures (mret _) _ _ => apply ensures_ret
   | |- ensures (gets _) _ _ => apply e_gets
   | |- ensures (modify _) _ _ => apply e_modify
   | |- ensures (modify_result _) _ _ => apply e_modify
   | |- ensures (put_acct _) _ _ => apply e_modify
   | |- ensures (fail _) _ _ => apply e_modify
   | |- ensures (push_receipt _) _ _ => apply e_modify
   | |- ensures (write _) _ _ => apply e_write; intros ? ?
   | |- ensures (read _) _ _ => apply e_read; intros ? ?
   | |- ensures (expect _) _ _ => apply e_expect; intros ? ?
   | |- ensures get_acct _ _ => apply e_get_acct; intros ? ?
   | |- ensures (safe _) _ _ => apply e_safe; intros ? ?
   | |- ensures inconsistent _ _ => apply e_inconsistent
   | |- ensures (throw _) _ _ => exact I
   | |- ensures panic _ _ => exact I
   end); cbv beta zeta.

Lemma safe_add_gas_ROk a b x : safe_add_gas a b = ROk x → x = a + b ∧ x <= umax 64.
Proof. unfold safe_add_gas. destruct (checked_add 64 a b) as [y|] eqn:Hy; [|done]. intros [= <-]. apply checked_add_Some in Hy as [-> Hy]. lia. Qed.

(** Checked sums and products that returned. *)
Ltac inv_checked :=
  repeat match goal with
  | H : (_ ≫= _) = Some _ |- _ => apply bind_Some in H as (? & ? & ?)
  | H : checked_add _ _ _ = Some _ |- _ => apply checked_add_Some in H as [? ?]
  | H : checked_sub _ _ = Some _ |- _ => apply checked_sub_Some in H as [? ?]
  | H : checked_mul _ _ _ = Some _ |- _ => apply checked_mul_Some in H as [? ?]
  end; subst.

Definition storage_ok (c : StorageUsageConfig) : Prop :=
  in_u 64 (num_bytes_account c) ∧ in_u 64 (num_extra_bytes_record c) ∧ 0 <= global_contract_storage_amount_per_byte c.

(** * Keys *)

Lemma read_bytes_length n bytes key rest : read_bytes n bytes = Some (key, rest) → length key = n.
Proof. unfold read_bytes. destruct (Nat.ltb_spec (length bytes) n); [done|]. intros [= <- _]. rewrite length_take. lia. Qed.

Lemma decoded_key_ok data (pk : PublicKey) : try_from_slice data = Some pk → public_key_ok pk.
Proof.
  unfold try_from_slice. cbn [borsh_decode PublicKey_borsh]. destruct (public_key_deserialize data) as [[k [|]]|] eqn:Hd; try done. intros [= <-].
  destruct data as [|b data]; [done|]. cbn [public_key_deserialize] in Hd.
  destruct (b =? 0); [|destruct (b =? 1); [|done]]; (destruct (read_bytes _ data) as [[key rest]|] eqn:Hr; [|done]); injection Hd as <- _; by eapply read_bytes_length.
Qed.

Lemma implicit_key_ok {AccountId} as_bytes get_account_type hex_decode (id : AccountId) pk : from_near_implicit_account as_bytes get_account_type hex_decode id = Some pk → public_key_ok pk.
Proof. unfold from_near_implicit_account. destruct (get_account_type id); try done. destruct (hex_decode _); [|done]. apply decoded_key_ok. Qed.

(** * Timeouts *)

Section timeouts.
Context {AccountId StorageError U : Type} `{Store : !StateStore (TrieKey AccountId) StorageError U} `{RStore : !RuntimeStore AccountId StorageError U}.
Context `{!Borsh PromiseYieldIndices} `{!Borsh (PromiseYieldTimeout AccountId)} (apply_state : ApplyState AccountId).
Context (key_ok : TrieKey AccountId → Prop) (st_view st_saved : U → TrieKey AccountId → option (list Z)) (st_trie_view : U → Base (TrieKey AccountId)).
Context `{StoreOk : !RuntimeStoreOk AccountId StorageError U key_ok st_view st_saved st_trie_view}.
Context (yield_keys_ok : key_ok TrieKey.PromiseYieldIndices ∧ ∀ i, in_u 64 i → key_ok (TrieKey.PromiseYieldTimeout i)).
Context (yield_indices_fit : ∀ data (i : PromiseYieldIndices) rest, borsh_decode data = Some (i, rest) → in_u 64 (yield_next_available_index i)).
Abbreviation frame := (st_frame key_ok st_view st_saved st_trie_view).

(** The timeouts are written at the end of their queue. *)
Lemma enqueue_timeouts_frame account_id l : ∀ indices u indices' u', in_u 64 (yield_next_available_index indices) →
  enqueue_timeouts apply_state account_id l indices u = Some (indices', u') → frame (λ k, ∃ i, k = TrieKey.PromiseYieldTimeout i) u u'.
Proof.
  induction l as [|r l IH]; intros indices u indices' u' Hi; cbn [enqueue_timeouts]; [intros [= _ <-]; apply st_frame_refl|]. destruct (is_promise_yield r); [|by apply IH].
  intros ([indices1 u1] & Hx & Hrest)%bind_Some. apply bind_Some in Hx as (data_id & _ & Hx). apply bind_Some in Hx as (expires & _ & Hx).
  apply bind_Some in Hx as (u2 & Hu2 & Hx). apply bind_Some in Hx as (n & Hn & Hx). injection Hx as <- <-. apply checked_add_Some in Hn as [-> Hn].
  eapply st_frame_trans; [|eapply IH; [|exact Hrest]; cbn; unfold in_u in *; lia]. eapply frame_weaken; [|eapply rs_set_frame; [|exact Hu2]]; [intros k <-; by eexists|by apply yield_keys_ok].
Qed.

Lemma write_timeouts_frame account_id l u u' : write_timeouts apply_state account_id l u = Some u' →
  frame (λ k, k = TrieKey.PromiseYieldIndices ∨ ∃ i, k = TrieKey.PromiseYieldTimeout i) u u'.
Proof.
  intros (r & Hr & Hw)%bind_Some. apply bind_Some in Hw as ([indices u1] & Hq & Hw).
  assert (Hf : frame (λ k, k = TrieKey.PromiseYieldIndices ∨ ∃ i, k = TrieKey.PromiseYieldTimeout i) u u1).
  { eapply frame_weaken; [|eapply enqueue_timeouts_frame; [|exact Hq]]; [intros k Hk; by right|]. apply bind_Some in Hr as (v & Hv & Hr). injection Hr as <-.
    apply bind_Some in Hv as (d & Hd & Hv). injection Hv as <-. destruct d as [e|[d|]]; [done| |done]. unfold try_from_slice. destruct (borsh_decode d) as [[i []]|] eqn:Hdec; [|done..]. cbn. by eapply yield_indices_fit. }
  destruct (yield_indices_eq _ _); [by injection Hw as <-|]. eapply st_frame_trans; [exact Hf|]. eapply frame_weaken; [|eapply rs_set_frame; [exact (proj1 yield_keys_ok)|exact Hw]]. intros k <-. by left.
Qed.
End timeouts.

(** * Actions *)

Section correct.
Context {AccountId StorageError U CallError : Type} `{!EqDecision AccountId} `{Store : !StateStore (TrieKey AccountId) StorageError U} `{RStore : !RuntimeStore AccountId StorageError U}.
Context `{!Borsh AccountId} `{!Borsh AccessKey} `{!Borsh PromiseYieldIndices} `{!Borsh (PromiseYieldTimeout AccountId)} `{!Borsh (DelegateAction AccountId (Action AccountId))}.
Context `{TheVm : !Vm AccountId StorageError U CallError}.
Context (as_bytes : AccountId → bytes) (get_account_type : AccountId → AccountType) (is_top_level : AccountId → bool) (is_sub_account_of : AccountId → AccountId → bool).
Context (system : AccountId) (hash : bytes → bytes) (verify : bytes → bytes → PublicKey → bool) (hex_decode : bytes → option bytes).
Context (wallet_magic_bytes : Code) (wallet_contract : bytes → option Code) (minimum_stake : bytes → EpochError + Z).
Context (apply_state : ApplyState AccountId).
Context (key_ok : TrieKey AccountId → Prop) (st_view st_saved : U → TrieKey AccountId → option (list Z)) (st_trie_view : U → Base (TrieKey AccountId)).
Context `{StoreOk : !RuntimeStoreOk AccountId StorageError U key_ok st_view st_saved st_trie_view}.

Abbreviation config := (apply_config apply_state).
Abbreviation fees := (cfg_fees config).
Abbreviation wasm := (cfg_wasm config).
Abbreviation Acct := (Account AccountId).
Abbreviation Rcpt := (Receipt AccountId).
Abbreviation Act := (Action AccountId).
Abbreviation Error := (RuntimeError StorageError).
Abbreviation Result := (ActionResult AccountId CallError).
Abbreviation State := (ActionState (AccountId := AccountId) (U := U) (CallError := CallError)).
Abbreviation AM := (M State Error).
Abbreviation frame := (st_frame key_ok st_view st_saved st_trie_view).
Abbreviation action_ok := (action_ok as_bytes).

Context `{TheVmOk : !VmOk as_bytes get_account_type key_ok st_view st_saved st_trie_view wasm}.

(** Account ids are their bytes; hashes have 32 bytes; the fees are machine integers; the keys of an account are well formed. *)
Context (as_bytes_inj : Inj (=) (=) as_bytes) (hash_length : ∀ b, length (hash b) = 32%nat) (wallet_hash_length : length (code_hash wallet_magic_bytes) = 32%nat).
Context (fees_fit : fees_ok fees) (storage_fits : storage_ok (storage_usage_config fees)).
Context (account_keys_ok : ∀ id, key_ok (TrieKey.Account id) ∧ key_ok (ContractCode id)) (access_keys_ok : ∀ id pk, public_key_ok pk → key_ok (TrieKey.AccessKey id pk)).
Context (yield_keys_ok : key_ok TrieKey.PromiseYieldIndices ∧ ∀ i, in_u 64 i → key_ok (TrieKey.PromiseYieldTimeout i)).
Context (yield_indices_fit : ∀ data (i : PromiseYieldIndices) rest, borsh_decode data = Some (i, rest) → in_u 64 (yield_next_available_index i)).


(** ** The invariant of an execution *)

(** The keys that the execution of a receipt of [id] may change. *)
Definition exec_key (id : AccountId) (k : TrieKey AccountId) : Prop :=
  removed_with id k ∨ k = TrieKey.PromiseYieldIndices ∨ ∃ i, k = TrieKey.PromiseYieldTimeout i.

Record act_inv (id : AccountId) (u0 : U) (s : State) : Prop := {
  ai_frame : frame (exec_key id) u0 (s_update s);
  ai_none : s_account s = None → st_view (s_update s) (TrieKey.Account id) = None;
  ai_fits : ∀ a, s_account s = Some a → acct_fits a
}.

Lemma inv_ext id u0 (s s' : State) : s_update s' = s_update s → s_account s' = s_account s → act_inv id u0 s → act_inv id u0 s'.
Proof. intros Eu Ea [F N W]. split; [by rewrite Eu|by rewrite Eu, Ea|by rewrite Ea]. Qed.

Lemma inv_account id u0 (s s' : State) a : s_update s' = s_update s → s_account s' = Some a → acct_fits a → act_inv id u0 s → act_inv id u0 s'.
Proof. intros Eu Ea Ha [F N W]. split; [by rewrite Eu|by rewrite Ea|rewrite Ea; by intros ? [= <-]]. Qed.

Lemma inv_write id u0 (s : State) u (touched : TrieKey AccountId → Prop) : frame touched (s_update s) u → (∀ k, touched k → exec_key id k ∧ k ≠ TrieKey.Account id) →
  act_inv id u0 s → act_inv id u0 (set_update u s).
Proof.
  intros Hf Ht [F N W]. split; [|intros Ha|done]; cbn in *.
  - eapply st_frame_trans; [exact F|]. eapply frame_weaken; [|exact Hf]. intros k Hk. by apply Ht.
  - rewrite <-(N Ha). apply (fr_view _ _ _ _ _ _ _ Hf); [apply account_keys_ok|]. intros Hk. by apply Ht in Hk as [_ ?].
Qed.

Lemma inv_set id u0 (s : State) u k v : key_ok k → exec_key id k → k ≠ TrieKey.Account id → st_set k v (s_update s) = Some u → act_inv id u0 s → act_inv id u0 (set_update u s).
Proof. intros Hk He Hne Hs. eapply inv_write; [by eapply rs_set_frame|]. by intros ? <-. Qed.

Lemma inv_remove id u0 (s : State) u k : key_ok k → exec_key id k → k ≠ TrieKey.Account id → st_remove k (s_update s) = Some u → act_inv id u0 s → act_inv id u0 (set_update u s).
Proof. intros Hk He Hne Hs. eapply inv_write; [by eapply rs_remove_frame|]. by intros ? <-. Qed.

Lemma access_exec_key id pk : exec_key id (TrieKey.AccessKey id pk) ∧ TrieKey.AccessKey id pk ≠ TrieKey.Account id.
Proof. split; [|done]. left. right. right. left. by eexists. Qed.
Lemma code_exec_key id : exec_key id (ContractCode id) ∧ ContractCode id ≠ TrieKey.Account id.
Proof. split; [|done]. left. right. by left. Qed.

(** ** What an action moves *)

Definition same_stats (t t' : BalanceStats) : Prop :=
  tx_burnt_amount t' = tx_burnt_amount t ∧ slashed_burnt_amount t' = slashed_burnt_amount t ∧ other_burnt_amount t' = other_burnt_amount t ∧
  gas_deficit_amount t' = gas_deficit_amount t ∧ global_actions_burnt_amount t <= global_actions_burnt_amount t'.

Abbreviation all_bought := (total_bought as_bytes get_account_type fees wasm system).
Abbreviation receipt_gas := (receipt_gas as_bytes get_account_type fees wasm).
Abbreviation action_bound := (action_bound as_bytes get_account_type fees wasm).
Abbreviation gas_of := (bought_gas as_bytes get_account_type fees wasm system).
Abbreviation at_price := (priced as_bytes get_account_type fees wasm system).

(** The gas of an action: the fee [f] is burnt, and at most [bound] is used beyond it. *)
Definition gas_ok (f bound : Z) (r : Result) : Prop :=
  0 <= gas_burnt_for_function_call r <= gas_burnt r ∧ gas_burnt r <= gas_used r <= f + bound.

(** The balance and the new receipts of an action that succeeded hold the balance before and the deposit, but for what was burnt. *)
Definition value_ok (p deposit : Z) (s s' : State) : Prop :=
  let r := s_result s' in
  Forall (at_price p) (new_receipts r) ∧ all_bought (new_receipts r) = gas_used r - gas_burnt r ∧ 0 <= total_deposits (new_receipts r) ∧
  held (s_account s') + total_deposits (new_receipts r) + (global_actions_burnt_amount (s_stats s') - global_actions_burnt_amount (s_stats s)) = held (s_account s) + deposit.

Record moved (p f deposit bound : Z) (s s' : State) : Prop := {
  mv_gas : gas_ok f bound (s_result s');
  mv_stats : same_stats (s_stats s) (s_stats s');
  mv_value : result_ok (s_result s') = true → value_ok p deposit s s'
}.

Definition fee_result (f : Z) : Result := set_compute_usage f (set_gas_burnt f (set_gas_used f default_result)).

Lemma same_stats_refl t : same_stats t t.
Proof. split_and!; done. Qed.

(** An action that neither calls nor delegates. *)
Lemma plain_moved p f deposit bound (s s' : State) : 0 <= f → 0 <= bound →
  gas_burnt (s_result s') = f → gas_used (s_result s') = f → gas_burnt_for_function_call (s_result s') = 0 → s_stats s' = s_stats s →
  (result_ok (s_result s') = true → Forall (λ r, gas_of r = 0) (new_receipts (s_result s')) ∧ 0 <= total_deposits (new_receipts (s_result s')) ∧
    held (s_account s') + total_deposits (new_receipts (s_result s')) = held (s_account s) + deposit) →
  moved p f deposit bound s s'.
Proof.
  intros Hf Hb E1 E2 E3 E4 HV. split; [|rewrite E4; apply same_stats_refl|].
  - unfold gas_ok. rewrite E1, E2, E3. lia.
  - intros [HF [H0 Hv]]%HV. unfold value_ok. cbv zeta. split_and!; [eapply Forall_impl; [exact HF|]; intros r Hr; by left| |done|rewrite E4; lia].
    rewrite E1, E2, Z.sub_diag. clear -HF. unfold total_bought. induction HF as [|r l Hr _ IH]; [done|]. rewrite fmap_cons, sum_Z_cons, Hr, IH. done.
Qed.

Lemma failed_moved p f deposit bound (s s' : State) : 0 <= f → 0 <= bound → s_result s = fee_result f → s_stats s' = s_stats s →
  (∃ e, s_result s' = set_result (inl e) (s_result s)) → moved p f deposit bound s s'.
Proof. intros Hf Hb Hr Hs [e He]. apply plain_moved; try done; rewrite He, Hr; done. Qed.

(** ** Helpers *)

(** The account is another one that holds the same. *)
Definition account_kept (s s' : State) : Prop := ∃ a, s' = set_s_account (Some a) s ∧ acct_fits a ∧ held (Some a) = held (s_account s).

Lemma code_len_good account_id h (s : State) : ensures (get_code_len_or_default apply_state account_id h : AM Z) s (λ n s', s' = s ∧ 0 <= n).
Proof.
  unfold get_code_len_or_default. estep. destruct (EXCLUDE_EXISTING_CODE <=? _); estep.
  - assert (0 <= default 0 a) by (destruct a; [by eapply rs_code_len_ok|done]). destruct (default 0 a <=? umax 64); by estep.
  - assert (0 <= default 0 a) by (destruct (rs_get_code (s_update s) account_id h) as [[|[c|]]|]; cbn in H; simplify_eq; cbn; lia). destruct (default 0 a <=? umax 64); by estep.
Qed.

Lemma saturating_sub_u64 x y : in_u 64 x → 0 <= y → in_u 64 (saturating_sub x y).
Proof. unfold in_u, saturating_sub. lia. Qed.

Lemma clear_usage_good account_id (s : State) : (∀ a, s_account s = Some a → acct_fits a) →
  ensures (clear_account_contract_storage_usage as_bytes apply_state account_id : AM ()) s (λ _ s', account_kept s s').
Proof.
  intros Hfit. unfold clear_account_contract_storage_usage. estep. estep. pose proof (Hfit _ H) as Ha.
  assert (Hset : ∀ n, 0 <= n → account_kept s (set_s_account (Some (set_storage_usage (saturating_sub (storage_usage a) n) a)) s)).
  { intros n Hn. eexists. split; [done|]. rewrite held_storage, H. split; [|done]. apply fits_set_storage; [|done]. apply saturating_sub_u64; [apply Ha|done]. }
  destruct (contract a) as [|h|h|id].
  - estep. exists a. rewrite H. split; [|done]. rewrite <-H. by destruct s.
  - estep. eapply ensures_mono; [apply code_len_good|]. intros n s' [-> Hn]. estep. by apply Hset.
  - estep. by apply Hset.
  - estep. apply Hset. cbn. lia.
Qed.

Lemma add_usage_good n (s : State) : 0 <= n → (∀ a, s_account s = Some a → acct_fits a) → ensures (add_storage_usage n : AM ()) s (λ _ s', account_kept s s').
Proof.
  intros Hn Hfit. unfold add_storage_usage. estep. estep. pose proof (Hfit _ H) as Ha. destruct (checked_add _ _ _) as [x|] eqn:Hx; [|estep].
  apply checked_add_Some in Hx as [-> Hx]. estep. eexists. split; [done|]. rewrite held_storage, H. split; [|done]. apply fits_set_storage; [|done].
  destruct Ha as (_ & _ & Hs & _). unfold in_u in *. lia.
Qed.

Lemma kept_trans (s s1 s2 : State) : account_kept s s1 → account_kept s1 s2 → account_kept s s2.
Proof. intros (a & -> & Ha & H1) (b & -> & Hb & H2). exists b. split; [done|]. split; [done|]. by rewrite H2, <-H1. Qed.

Lemma kept_fits (s s1 : State) : account_kept s s1 → ∀ a, s_account s1 = Some a → acct_fits a.
Proof. intros (a & -> & Ha & H1) b [= <-]. done. Qed.

(** ** Accounts *)

Section steps.
Context (id : AccountId) (u0 : U) (p f : Z) (fee_nonneg : 0 <= f).

(** From a state in which the fee has been charged, the action keeps the invariant and moves [deposit]. *)
Definition action_good (deposit bound : Z) (s : State) (m : AM ()) : Prop :=
  ensures m s (λ _ s', act_inv id u0 s' ∧ moved p f deposit bound s s').

Context (s : State) (Hinv : act_inv id u0 s) (Hres : s_result s = fee_result f).

Lemma fail_good deposit bound kind : 0 <= bound → action_good deposit bound s (fail kind).
Proof. intros Hb. unfold action_good. estep. split; [by apply (inv_ext id u0 s)|]. eapply failed_moved; [done..|]. by eexists. Qed.

(** An action that only changes the account, and the value that it holds by the deposit. *)
Lemma account_good deposit bound (s' : State) a : 0 <= bound → s_update s' = s_update s → s_account s' = Some a → acct_fits a →
  s_result s' = s_result s → s_stats s' = s_stats s → held (Some a) = held (s_account s) + deposit → act_inv id u0 s' ∧ moved p f deposit bound s s'.
Proof.
  intros Hb Eu Ea Ha Er Et Hv. split; [by apply (inv_account id u0 s s' a)|]. apply plain_moved; try done; rewrite ?Er, ?Hres; try done. intros _.
  split; [constructor|]. split; [done|]. rewrite Ea. cbn [fee_result new_receipts default_result set_compute_usage set_gas_burnt set_gas_used]. cbn. cbn in Hv. lia.
Qed.

Lemma create_account_good account_id predecessor : s_account s = None →
  action_good 0 0 s (action_create_account as_bytes is_top_level is_sub_account_of apply_state account_id predecessor).
Proof.
  intros Ha. assert (Hc : action_good 0 0 s (_ ← modify (set_actor account_id); put_acct (new_account 0 0 ContractNone (num_bytes_account (storage_usage_config fees))))).
  { unfold action_good. estep. estep. estep. eapply account_good; try done; [|by rewrite Ha]. by apply fits_new; [..|apply storage_fits]. }
  unfold action_create_account. destruct (is_top_level account_id).
  - destruct (_ && _); [by apply fail_good|done].
  - destruct (negb _); [by apply fail_good|done].
Qed.

Lemma transfer_good deposit : 0 <= deposit → action_good deposit 0 s (action_transfer deposit).
Proof.
  intros Hd. unfold action_good, action_transfer. estep. estep. destruct (checked_add _ _ _) as [x|] eqn:Hx; [|estep]. apply checked_add_Some in Hx as [-> Hx].
  pose proof (ai_fits _ _ _ Hinv _ H) as Hfit. estep. eapply account_good; try done; [|rewrite held_amount, H; cbn; lia].
  apply fits_set_amount; [|done]. destruct Hfit as (Hm & _). unfold in_u in *. lia.
Qed.

(** A write of the state that keeps the invariant, after which nothing was moved. *)
Lemma write_good deposit bound (s' : State) u : 0 <= bound → act_inv id u0 s' ∧ moved p f deposit bound s s' →
  (act_inv id u0 s' → act_inv id u0 (set_update u s')) → act_inv id u0 (set_update u s') ∧ moved p f deposit bound s (set_update u s').
Proof. intros Hb [Hi [G S V]] Hw. split; [by apply Hw|]. by split. Qed.

Lemma set_access_key_inv pk k u (s' : State) : public_key_ok pk → set_access_key id pk k (s_update s') = Some u → act_inv id u0 s' → act_inv id u0 (set_update u s').
Proof. intros Hpk Hs. destruct (access_exec_key id pk) as [He Hne]. eapply inv_set; [by apply access_keys_ok|done|done|exact Hs]. Qed.

Lemma set_code_inv c u (s' : State) : rs_set_code id c (s_update s') = Some u → act_inv id u0 s' → act_inv id u0 (set_update u s').
Proof. intros Hs. destruct (code_exec_key id) as [He Hne]. rewrite rs_set_code_ok in Hs. eapply inv_set; [apply account_keys_ok|done|done|exact Hs]. Qed.

Lemma implicit_good deposit : s_account s = None → in_u 128 deposit →
  action_good deposit 0 s (action_implicit_account_creation_transfer as_bytes get_account_type hex_decode wallet_magic_bytes wallet_contract apply_state id deposit).
Proof.
  intros Ha Hd. destruct storage_fits as ([S1 _] & [S2 _] & _). unfold action_good, action_implicit_account_creation_transfer. estep. estep. destruct (get_account_type id) eqn:Hty; [by estep| |].
  - repeat estep. match goal with Hk : from_near_implicit_account _ _ _ _ = Some ?k |- _ => apply implicit_key_ok in Hk end.
    apply write_good; [lia| |intros; by eapply set_access_key_inv]. eapply account_good; try done; [|by rewrite Ha, held_new; cbn; lia].
    apply fits_new; [done..|]. inv_checked. unfold in_u. lia.
  - repeat estep. apply write_good; [lia| |intros; by eapply set_code_inv]. eapply account_good; try done; [|by rewrite Ha, held_new; cbn; lia].
    apply fits_new; [done|done|by unfold from_local_code_hash; case_bool_decide|]. inv_checked. unfold in_u. lia.
Qed.

Lemma refund_allowance_good pk deposit (s' : State) : public_key_ok pk → act_inv id u0 s' → ensures (try_refund_allowance id pk deposit : AM ()) s' (λ _ s2, act_inv id u0 s2 ∧ ∃ u, s2 = set_update u s').
Proof.
  intros Hpk Hi. assert (Hsame : act_inv id u0 s' ∧ ∃ u, s' = set_update u s') by (split; [done|]; exists (s_update s'); by destruct s').
  unfold try_refund_allowance. estep. estep. destruct a as [[n [q|]]|]; [|by estep..]. destruct (allowance q) as [x|]; [|by estep].
  destruct (x <? _); [|by estep]. estep. split; [by eapply set_access_key_inv|by eexists].
Qed.

Lemma transfer_or_create_good deposit is_refund ar r : in_u 128 deposit → Receipt.receiver_id r = id → public_key_ok (signer_public_key ar) →
  action_good deposit 0 s (action_transfer_or_implicit_account_creation as_bytes get_account_type hex_decode wallet_magic_bytes wallet_contract apply_state deposit is_refund ar r).
Proof.
  intros Hd Hr Hpk. unfold action_good, action_transfer_or_implicit_account_creation. rewrite Hr. estep. estep. destruct (s_account s) as [a|] eqn:Ha; [|by apply implicit_good].
  estep. eapply ensures_mono; [apply transfer_good, Hd|]. intros [] s1 [Hi [G T V]]. cbn beta. destruct (_ && _); [|by estep].
  eapply ensures_mono; [by apply refund_allowance_good|]. intros [] s2 [Hi2 [u ->]]. split; [done|]. by split.
Qed.

(** The proposal is recorded, and the account holds the same. *)
Lemma proposed_good (s' : State) a l : s_update s' = s_update s → s_account s' = Some a → acct_fits a → s_stats s' = s_stats s →
  s_result s' = set_proposals l (s_result s) → held (Some a) = held (s_account s) → act_inv id u0 s' ∧ moved p f 0 0 s s'.
Proof.
  intros Eu Ea Ha Et Er Hv. split; [by apply (inv_account id u0 s s' a)|]. apply plain_moved; try done; rewrite Er, Hres; try done. intros _. cbn [set_proposals new_receipts fee_result].
  split; [constructor|]. split; [done|]. rewrite Ea. cbn. cbn in Hv. lia.
Qed.

Lemma stake_good stake pk : in_u 128 stake → action_good 0 0 s (action_stake minimum_stake apply_state id stake pk).
Proof.
  intros Hst. unfold action_good, action_stake. estep. estep. pose proof (ai_fits _ _ _ Hinv _ H) as Hfit. set (propose := (_ ≫= _) : AM ()).
  assert (Hp : ensures propose s (λ _ s', act_inv id u0 s' ∧ moved p f 0 0 s s')).
  { subst propose. estep. estep. destruct (Z.ltb_spec (locked a) stake) as [Hlt|_].
    - repeat estep. inv_checked. unfold saturating_sub in *. eapply proposed_good; try done.
      + destruct Hfit as (Hm & _). apply fits_set_locked; [done|]. apply fits_set_amount; [unfold in_u in *; lia|apply (ai_fits _ _ _ Hinv _ H)].
      + rewrite held_locked, amount_set, H. cbn. lia.
    - estep. eapply proposed_good; try done. by rewrite H. }
  destruct (_ <=? amount a); [|by apply fail_good]. destruct (_ && _); [by apply fail_good|]. destruct (0 <? stake); [|done].
  destruct (minimum_stake _) as [e|m]; [by estep|]. destruct (stake <? m); [by apply fail_good|done].
Qed.

(** ** Contracts *)

(** Nothing has been moved yet. *)
Definition quiet (s' : State) : Prop :=
  act_inv id u0 s' ∧ s_result s' = s_result s ∧ s_stats s' = s_stats s ∧ held (s_account s') = held (s_account s).

Lemma quiet_good s' : quiet s' → act_inv id u0 s' ∧ moved p f 0 0 s s'.
Proof.
  intros (Hi & Er & Et & Hv). split; [done|]. apply plain_moved; try done; rewrite ?Er, ?Hres; try done. intros _.
  split; [constructor|]. split; [done|]. rewrite Hv. cbn. lia.
Qed.

Lemma quiet_refl : quiet s.
Proof. by split_and!. Qed.

Lemma quiet_kept s1 s2 : quiet s1 → account_kept s1 s2 → quiet s2.
Proof. intros (Hi & Er & Et & Hv) (a & -> & Ha & Hh). split_and!; try done; [by apply (inv_account id u0 s1 _ a)|]. cbn in *. lia. Qed.

Lemma quiet_write s1 u : quiet s1 → (act_inv id u0 s1 → act_inv id u0 (set_update u s1)) → quiet (set_update u s1).
Proof. intros (Hi & Er & Et & Hv) Hw. split_and!; try done. by apply Hw. Qed.

Lemma quiet_usage s1 n : quiet s1 → 0 <= n → ensures (add_storage_usage n : AM ()) s1 (λ _ s2, quiet s2).
Proof. intros Hq Hn. eapply ensures_mono; [apply add_usage_good; [done|apply (ai_fits _ _ _ (proj1 Hq))]|]. intros [] s2. by apply quiet_kept. Qed.

Lemma quiet_clear s1 account_id : quiet s1 → ensures (clear_account_contract_storage_usage as_bytes apply_state account_id : AM ()) s1 (λ _ s2, quiet s2).
Proof. intros Hq. eapply ensures_mono; [apply clear_usage_good, (ai_fits _ _ _ (proj1 Hq))|]. intros [] s2. by apply quiet_kept. Qed.

Lemma quiet_contract s1 a c : quiet s1 → s_account s1 = Some a → contract_ok c → quiet (set_s_account (Some (set_contract c a)) s1).
Proof.
  intros Hq Ha Hc. apply (quiet_kept s1); [done|]. eexists. split; [done|]. rewrite held_contract, Ha. split; [|done].
  apply fits_set_contract; [done|]. by apply (ai_fits _ _ _ (proj1 Hq)).
Qed.

Lemma deploy_good raw : action_good 0 0 s (action_deploy_contract as_bytes hash apply_state id raw).
Proof.
  unfold action_good, action_deploy_contract. estep. eapply ensures_mono; [apply quiet_clear, quiet_refl|]. intros [] s1 H1. cbn beta zeta.
  estep. eapply ensures_mono; [apply (quiet_usage s1); [done|lia]|]. intros [] s2 H2. repeat estep. apply quiet_good. apply quiet_write.
  - apply quiet_write; [apply quiet_contract; [done..|apply hash_length]|intros; by eapply set_code_inv].
  - intros Hi. eapply inv_write; [by eapply rs_deploy_ok| |done]. done.
Qed.

Lemma use_global_good i : (∀ h, i = ContractCodeHash h → length h = 32%nat) → action_good 0 0 s (action_use_global_contract as_bytes apply_state id i).
Proof.
  intros Hh. unfold action_good, action_use_global_contract. estep. estep. destruct (negb a); [by apply fail_good|].
  estep. eapply ensures_mono; [apply quiet_clear, quiet_refl|]. intros [] s1 H1. cbn beta zeta. estep. estep. estep.
  apply (ensures_mono _ _ (λ _, quiet)).
  { destruct (contract_is_local _); estep; [|done]. destruct (code_exec_key id) as [He Hne]. apply quiet_write; [done|]. eapply inv_remove; [apply account_keys_ok|done..]. }
  intros [] s2 H2. estep. eapply ensures_mono; [apply (quiet_usage s2); [done|]|].
  { destruct i; cbn; lia. }
  intros [] s3 H3. repeat estep. apply quiet_good, quiet_contract; [done..|]. destruct i; [by apply Hh|done].
Qed.

(** ** Access keys *)

Lemma delete_key_good pk : public_key_ok pk → action_good 0 0 s (action_delete_key apply_state id pk).
Proof.
  intros Hpk. unfold action_good, action_delete_key. estep. estep. destruct a as [k|]; [|by apply fail_good]. repeat estep. destruct (access_exec_key id pk) as [He Hne].
  assert (Hq : quiet (set_update u s)) by (apply quiet_write; [apply quiet_refl|]; eapply inv_remove; [by apply access_keys_ok|done..]).
  match goal with H : s_account _ = Some _ |- _ => rename H into Ha end.
  apply quiet_good. apply (quiet_kept _ _ Hq). eexists. split; [done|]. rewrite held_storage. split; [|by rewrite Ha].
  pose proof (ai_fits _ _ _ (proj1 Hq) _ Ha) as Hf. apply fits_set_storage; [|done]. apply saturating_sub_u64; [apply Hf|]. destruct storage_fits as (_ & [? _] & _).
  unfold key_storage in *. inv_checked. lia.
Qed.

Lemma add_key_good pk k : public_key_ok pk → action_good 0 0 s (action_add_key apply_state id pk k).
Proof.
  intros Hpk. unfold action_good, action_add_key. estep. estep. destruct a as [k'|]; [by apply fail_good|]. repeat estep.
  eapply ensures_mono; [apply (quiet_usage (set_update u s))|intros []; apply quiet_good].
  - apply quiet_write; [apply quiet_refl|]. by eapply set_access_key_inv.
  - destruct storage_fits as (_ & [? _] & _). unfold key_storage in *. inv_checked. lia.
Qed.

(** ** Deletion *)

Lemma deposit_refund receiver x q : receipt_deposit (new_balance_refund system receiver x q) = x ∧ gas_of (new_balance_refund system receiver x q) = 0.
Proof.
  unfold new_balance_refund, receipt_deposit, bought_gas. destruct q; cbn [refund receipt predecessor_id v0_receipt v0_predecessor_id v1_receipt v1_predecessor_id refund_receipt];
    (rewrite bool_decide_true by done); (split; [|done]); unfold deposit_of; cbn; lia.
Qed.

Lemma set_same_result (s' : State) r : s_result s' = r → set_s_result r s' = s'.
Proof. by intros <-; destruct s'. Qed.

(** The balance goes to the beneficiary; nothing is locked. *)
Lemma delete_account_good predecessor beneficiary : (∀ a, s_account s = Some a → locked a = 0) →
  action_good 0 0 s (action_delete_account system apply_state predecessor id beneficiary).
Proof.
  intros Hl. unfold action_good, action_delete_account. estep. estep. estep. eapply ensures_mono; [apply code_len_good|]. intros n s1 [-> Hn]. cbn beta zeta.
  destruct (MAX_ACCOUNT_DELETION_STORAGE_USAGE <? _); [by apply fail_good|]. set (refunds := if 0 <? amount a then [new_balance_refund system beneficiary (amount a) NoPriority] else []).
  pose proof (ai_fits _ _ _ Hinv _ H) as ([Hm _] & _). estep. apply (ensures_mono _ _ (λ _ s1, s1 = set_s_result (set_new_receipts refunds (s_result s)) s)).
  { subst refunds. rewrite Hres. destruct (0 <? amount a); estep; [unfold modify_result, modify; by rewrite Hres|]. symmetry. by apply set_same_result. }
  intros [] s1 ->. repeat estep. apply e_on_update. eapply ensures_mono; [apply rs_remove_account_ok|]. intros [] u [Hf Hnone]. cbv beta. repeat estep. split.
  - split; cbn; [|intros _; apply Hnone, account_keys_ok|done]. eapply st_frame_trans; [apply Hinv|]. eapply frame_weaken; [|exact Hf]. intros k Hk. by left.
  - apply plain_moved; cbn; rewrite ?Hres; try done. intros _. rewrite H. cbn. rewrite (Hl _ H). subst refunds. unfold total_deposits.
    destruct (deposit_refund beneficiary (amount a) NoPriority) as [E1 E2]. destruct (Z.ltb_spec 0 (amount a)).
    + split; [by repeat constructor|]. rewrite fmap_cons, sum_Z_cons, E1. cbn. lia.
    + split; [constructor|]. cbn. lia.
Qed.

(** ** Global contracts *)

(** What is stored for all shards is paid for by burning. *)
Lemma deploy_global_good raw mode : (∀ a, s_account s = Some a → global_actions_burnt_amount (s_stats s) + amount a <= umax 128) → 
  action_good 0 0 s (action_deploy_global_contract system hash apply_state id raw mode).
Proof.
  intros Hroom. unfold action_good, action_deploy_global_contract. estep. estep. set (cost := saturating_mul _ _ _). destruct (checked_sub _ _) as [x|] eqn:Hx; [|by apply fail_good].
  apply checked_sub_Some in Hx as [-> Hx]. pose proof (ai_fits _ _ _ Hinv _ H) as Hfit. specialize (Hroom _ H).
  assert (0 <= cost) by (subst cost; destruct storage_fits as (_ & _ & ?); apply Z.min_glb; [by apply Z.mul_nonneg_nonneg; [|lia]|done]).
  repeat estep. clearbody cost. unfold umax in Hroom. split.
  - eapply inv_account; [..|exact Hinv]; try done. apply fits_set_amount; [|done]. destruct Hfit as ([? ?] & _). unfold in_u in *. lia.
  - split; cbn; rewrite ?Hres; cbn.
    + unfold gas_ok. cbn. lia.
    + unfold same_stats. cbn. unfold saturating_add, umax. lia.
    + intros _. pose proof (held_amount (amount a - cost) a) as Hh. unfold value_ok, total_bought, bought_gas, total_deposits. cbn in *. rewrite H. unfold saturating_add, umax.
      split; [|case_bool_decide; cbn; lia]. apply Forall_singleton. left. unfold bought_gas. cbn. by case_bool_decide.
Qed.

(** ** Delegate actions *)

(** The result is as it was, or an error. *)
Definition passed_or_failed (s' : State) : Prop :=
  act_inv id u0 s' ∧ s_account s' = s_account s ∧ s_stats s' = s_stats s ∧ (s_result s' = s_result s ∨ ∃ e, s_result s' = set_result (inl e) (s_result s)).

Lemma delegate_key_good da : Fees.sender_id da = id → public_key_ok (delegate_public_key da) →
  ensures (validate_delegate_action_key as_bytes apply_state da : AM ()) s (λ _ s', passed_or_failed s').
Proof.
  intros Hid Hpk. unfold validate_delegate_action_key.
  assert (Hfail : ∀ k, passed_or_failed (set_s_result (set_result (inl (mkActionError None k)) (s_result s)) s)) by (intros k; split_and!; try done; [by apply (inv_ext id u0 s)|right; by eexists]).
  estep. estep. destruct a as [key|]; [|estep; apply Hfail]. destruct (_ <=? _); [estep; apply Hfail|]. estep. estep. destruct (_ <=? _); [estep; apply Hfail|].
  destruct (match permission _ with PermFunctionCall _ => _ | _ => _ end) as [error early]. estep.
  apply (ensures_mono _ _ (λ _, passed_or_failed)); [destruct error; estep; [apply Hfail|split_and!; try done; by left]|]. intros [] s1 H1. destruct early; estep; [done|].
  destruct H1 as (Hi & Ea & Et & Er). split_and!; try done. rewrite Hid in *. by eapply set_access_key_inv.
Qed.

(** The gas that a receipt requires is what is bought for it, but for the sending of the actions inside. *)
Lemma required_gas_good sender receiver ar (s' : State) : Forall (λ b, shallow_ok as_bytes b ∧ non_delegate b = true) (receipt_actions ar) →
  ensures (receipt_required_gas as_bytes get_account_type apply_state (ReceiptIsV0 (mkReceiptV0 sender receiver default_hash (ActionR ar))) : AM Z) s'
    (λ g s2, s2 = s' ∧ g = receipt_gas (receipt_actions ar) receiver ∧ 0 <= g).
Proof.
  intros [Hok Hps]%(inner_action_ok as_bytes get_account_type fees wasm). unfold receipt_required_gas. cbn [receipt v0_receipt Receipt.receiver_id v0_receiver_id]. repeat estep.
  pose proof (proj1 (total_exec_exact _ get_account_type fees wasm fees_fit receiver _ Hok)) as He. pose proof (proj1 (total_prepaid_exact _ _ Hok)) as Hp.
  pose proof (exec_column_ok _ fees_fit action_new_action_receipt) as [Hn _].
  repeat match goal with H : _ = ROk _ |- _ => first
    [apply (exact_unique _ _ _ _ (total_exec_exact _ _ _ _ fees_fit receiver _ Hok)) in H|apply (exact_unique _ _ _ _ (total_prepaid_exact _ _ Hok)) in H|apply safe_add_gas_ROk in H as [-> _]] end. subst.
  unfold Fees.receipt_gas, attached_gas. rewrite Hps. split_and!; [done|lia..].
Qed.

(** The gas of the new receipt is bought, and that of sending it is burnt. *)
Lemma delegate_good ar signed : let da := delegate_action signed in id ≠ system → public_key_ok (delegate_public_key da) → gas_price ar = p →
  action_ok (Delegate signed) → Forall action_ok (receipt_actions ar) →
  action_good (sum_Z (get_deposit_balance <$> Fees.actions da)) (receipt_gas (Fees.actions da) (Fees.receiver_id da) + sum_Z (prepaid_send_cost as_bytes get_account_type fees wasm <$> receipt_actions ar))
    s (apply_delegate_action as_bytes get_account_type hash verify apply_state ar id signed).
Proof.
  intros da Hsys Hpk Hp [_ Hin] Hok. cbn [inner] in Hin. fold da in Hin. set (bound := _ + _). pose proof (inner_action_ok _ get_account_type fees wasm _ Hin) as [Hin' Hps].
  pose proof (proj1 (total_prepaid_send_exact _ get_account_type fees wasm fees_fit _ Hok)) as Hsend.
  assert (Hb : 0 <= bound) by (subst bound; pose proof (receipt_gas_nonneg _ get_account_type fees wasm fees_fit _ (Fees.receiver_id da) Hin); lia).
  unfold action_good, apply_delegate_action, add_gas_used, add_gas_burnt, add_compute_usage. fold da. destruct (negb (verify_delegate _ _ _)); [by apply fail_good|].
  destruct (_ <? _); [by apply fail_good|]. destruct (negb _) eqn:Hid; [by apply fail_good|]. apply negb_false_iff, bool_decide_eq_true in Hid. apply as_bytes_inj in Hid.
  estep. eapply ensures_mono; [by apply delegate_key_good|]. intros [] s1 (Hi1 & Ea & Et & Er). cbv beta. estep. estep. destruct Er as [Er|[e Er]].
  2: { rewrite Er, Hres. cbn [result_ok result set_result negb]. estep. split; [done|]. eapply failed_moved; [done..|]. by eexists. }
  rewrite Er, Hres. change (result_ok (fee_result f)) with true. cbn [negb].
  estep. estep. match goal with H : _ = ROk _ |- _ => apply (exact_unique _ _ _ _ (total_prepaid_send_exact _ _ _ _ fees_fit _ Hok)) in H as -> end.
  estep. eapply ensures_mono; [by apply required_gas_good|]. intros g s2 (-> & Hg & Hg0). cbn [receipt_actions] in *. cbv beta.
  repeat estep. repeat match goal with H : safe_add_gas _ _ = ROk _ |- _ => apply safe_add_gas_ROk in H as [-> _] end.
  split; [by apply (inv_ext id u0 s1)|]. set (send := sum_Z (prepaid_send_cost _ _ _ _ <$> _)) in *. fold da in Hg. clearbody send. set (new := ReceiptIsV0 _).
  assert (Hnew : receipt_deposit new = sum_Z (get_deposit_balance <$> Fees.actions da) ∧ gas_of new = g ∧ receipt_price new = p).
  { subst new. unfold bought_gas. cbn. rewrite bool_decide_false by done. split_and!; [by apply (inner_deposits as_bytes)|done..]. }
  clearbody new. destruct Hnew as (E1 & E2 & E3). split; cbn [s_result s_stats modify_result modify set_s_result].
  - unfold gas_ok. cbn. rewrite Er, Hres. cbn. lia.
  - cbn. rewrite Et. apply same_stats_refl.
  - intros _. unfold value_ok, total_bought, total_deposits. cbn. rewrite Er, Hres, Ea, Et. cbn. rewrite E1, E2. split; [|split; [lia|]].
    + apply Forall_singleton. by right.
    + pose proof (proj1 (total_deposit_exact _ _ Hin')) as H0. rewrite (inner_deposits _ _ Hin) in H0. lia.
Qed.

(** ** Function calls *)

Lemma timeouts_inv account_id l u (s' : State) : write_timeouts apply_state account_id l (s_update s') = Some u → act_inv id u0 s' → act_inv id u0 (set_update u s').
Proof.
  intros Hw. eapply inv_write; [by eapply write_timeouts_frame|]. intros k [->|[i ->]]; (split; [|done]); right; [by left|right; by eexists].
Qed.

(** A call, after the gas it left has been distributed. *)
Record call_ok (balance gas : Z) (o : VMOutcome CallError) (m : ReceiptManager (AccountId := AccountId)) : Prop := {
  co_gas : 0 <= out_burnt_gas o <= out_used_gas o;
  co_prepaid : out_used_gas o <= gas;
  co_balance : aborted o = None → 0 <= out_balance o ∧ 0 <= manager_deposits (action_receipts m) ∧ out_balance o + manager_deposits (action_receipts m) = balance;
  co_storage : aborted o = None → in_u 64 (out_storage_usage o);
  co_bought : aborted o = None → manager_gas as_bytes get_account_type fees wasm (action_receipts m) = out_used_gas o - out_burnt_gas o
}.

Lemma manager_deposits_nonneg (l : list (ActionReceiptMetadata (AccountId := AccountId))) : Forall (λ r, Forall action_ok (md_actions r)) l → 0 <= manager_deposits l.
Proof.
  intros Hl. apply sum_Z_nonneg, Forall_fmap. eapply Forall_impl; [exact Hl|]. intros r Hr. exact (proj1 (total_deposit_exact _ _ Hr)).
Qed.

Lemma execute_call_good c ext predecessor ar results args gas deposit last u : in_u 64 gas →
  ensures (execute_function_call as_bytes hash apply_state c ext predecessor ar results args gas deposit last false : M _ Error _) (u, default_manager)
    (λ o s', frame (λ k, ∃ key, k = ContractData (ext_account_id ext) key) u s'.1 ∧ call_ok (amount (ext_account ext) + deposit) gas o s'.2).
Proof.
  intros Hg. unfold ensures, execute_function_call. set (ctx := mkVMContext _ _ _ _ _ _ _ _ _ _ _ _ _ _ _ _ _). 
  pose proof (vm_run_ok as_bytes get_account_type key_ok st_view st_saved st_trie_view (VmOk := TheVmOk) c ext ctx fees u) as Hrun.
  destruct (vm_run c ext ctx fees (u, default_manager)) as [o [u' m]|e [u' m]| |]; [|..|done|done].
  - destruct Hrun as [Hf Ho]. pose proof (vo_gas _ _ _ _ _ _ _ Ho) as Hb. pose proof (vo_prepaid _ _ _ _ _ _ _ Ho) as Hp. pose proof (vo_attached _ _ _ _ _ _ _ Ho) as Ha. cbn [prepaid_gas ctx] in Hp.
    destruct (distribute_manager as_bytes get_account_type fees wasm system (from_overflow : _ → Error) m (saturating_sub gas (out_used_gas o))) as (given & l & Hd & Hgiven & Hgas & Hdep & _).
    { eapply reached_rm_ok, vo_manager, Ho. } { unfold saturating_sub, in_u in *. lia. } { unfold saturating_sub, in_u in *. lia. }
    unfold zoom, mbind, M_bind. cbn [fst snd]. rewrite Hd.
    unfold run_res. destruct (safe_add_gas _ _) as [x| |] eqn:Hx; [|done..]. apply safe_add_gas_ROk in Hx as [-> Hx]. cbn. split; [done|].
    split; cbn [out_burnt_gas out_used_gas out_balance set_out_used_gas aborted action_receipts set_action_receipts snd fst out_storage_usage]; unfold saturating_sub in *; try lia; intros Hab.
    + rewrite Hdep. pose proof (vo_balance _ _ _ _ _ _ _ Ho Hab) as [H1 H2]. pose proof (manager_deposits_nonneg _ (vo_actions _ _ _ _ _ _ _ Ho)). cbn in H2. lia.
    + apply Ho.
    + rewrite Hgas, (vo_bought _ _ _ _ _ _ _ Ho Hab). lia.
  - destruct e; try done. split; [done|]. split; cbn; unfold in_u in *; try lia; done.
Qed.

(** The receipts of a call carry what its manager holds. *)
Lemma call_receipts ar (m : ReceiptManager (AccountId := AccountId)) : id ≠ system → gas_price ar = p →
  let new := (action_receipt_of id ar <$> action_receipts m) ++ (data_receipt_of id <$> data_receipts m) in
  Forall (at_price p) new ∧ all_bought new = manager_gas as_bytes get_account_type fees wasm (action_receipts m) ∧ total_deposits new = manager_deposits (action_receipts m).
Proof.
  intros Hsys Hp new. subst new. rewrite total_bought_app, total_deposits_app.
  assert (Hd : Forall (λ r, gas_of r = 0 ∧ receipt_deposit r = 0) (data_receipt_of id <$> data_receipts m)).
  { apply Forall_fmap, Forall_forall. intros d _. unfold compose, bought_gas, receipt_deposit, data_receipt_of. cbn. case_bool_decide; destruct (is_promise_resume d); done. }
  assert (Ha : ∀ md, receipt_price (action_receipt_of id ar md) = p ∧ gas_of (action_receipt_of id ar md) = metadata_gas as_bytes get_account_type fees wasm md ∧ receipt_deposit (action_receipt_of id ar md) = metadata_deposit md).
  { intros md. unfold bought_gas, receipt_deposit, receipt_price, action_receipt_of. cbn. rewrite bool_decide_false by done. by destruct (is_promise_yield md). }
  split_and!.
  - apply Forall_app. split; [|eapply Forall_impl; [exact Hd|]; intros r [Hr _]; by left]. apply Forall_fmap, Forall_forall. intros md _. right. apply Ha.
  - assert (all_bought (data_receipt_of id <$> data_receipts m) = 0) as -> by (clear -Hd; unfold total_bought; induction Hd as [|r l [Hr _] _ IH]; [done|]; by rewrite fmap_cons, sum_Z_cons, Hr, IH).
    rewrite Z.add_0_r. unfold total_bought, manager_gas. rewrite <-list_fmap_compose. f_equal. apply list_fmap_ext. intros _ md _. apply Ha.
  - assert (total_deposits (data_receipt_of id <$> data_receipts m) = 0) as -> by (clear -Hd; unfold total_deposits; induction Hd as [|r l [_ Hr] _ IH]; [done|]; by rewrite fmap_cons, sum_Z_cons, Hr, IH).
    rewrite Z.add_0_r. unfold total_deposits, manager_deposits. rewrite <-list_fmap_compose. f_equal. apply list_fmap_ext. intros _ md _. apply Ha.
Qed.

Lemma function_call_good r ar results args gas deposit action_hash code_hash last c : id ≠ system → gas_price ar = p → in_u 64 gas → 0 <= deposit →
  action_good deposit gas s (action_function_call as_bytes hash apply_state r ar results id args gas deposit action_hash code_hash last c).
Proof.
  intros Hsys Hp Hg Hd. unfold action_good, action_function_call, add_gas_used, add_gas_burnt, add_compute_usage. estep. estep.
  destruct (checked_add _ _ _) as [x|] eqn:Hx; [|estep]. apply checked_add_Some in Hx as [-> Hx]. repeat estep.
  match goal with Hc : rs_record_contract_call _ _ _ _ _ = _ |- _ => pose proof (inv_write id u0 s _ (λ _, False) (rs_call_ok _ _ _ _ _ _ Hc) ltac:(done) Hinv) as Hi1 end.
  match goal with |- ensures _ (set_update ?u _) _ => set (s1 := set_update u s) in *; change u with (s_update s1) end.
  apply (ensures_mono _ _ (λ om s2, (∃ u, s2 = set_update u s1) ∧ act_inv id u0 s2 ∧ call_ok (amount a + deposit) gas om.1 om.2)).
  { pose proof (execute_call_good c (mkRuntimeExt id a action_hash (block_height apply_state) (current_protocol_version apply_state)) (predecessor_id r) ar results args gas deposit last (s_update s1) Hg) as Hx1.
    unfold ensures in *. destruct (execute_function_call _ _ _ _ _ _ _ _ _ _ _ _ _ _) as [o [u m]|? []| |]; [|done..]. cbn in Hx1 |- *. destruct Hx1 as [Hf Hc]. split; [by eexists|]. split; [|done].
    eapply inv_write; [exact Hf| |done]. intros k [key ->]. split; [|done]. left. right. right. right. by eexists. }
  intros [o m] s2 ([u2 ->] & Hi2 & Hc). cbn [fst snd] in Hc. destruct Hc as [Cg Cp Cb Cs Cu]. destruct (aborted o) as [err|] eqn:Hab; repeat estep;
    repeat match goal with H : safe_add_gas _ _ = ROk _ |- _ => apply safe_add_gas_ROk in H as [-> _] end.
  - split; [by apply (inv_ext id u0 (set_update u2 s1))|]. split; [|apply same_stats_refl|done]. unfold gas_ok. cbn. rewrite Hres. cbn. lia.
  - pose proof (ai_fits _ _ _ Hinv _ H) as Hfit. destruct (Cb eq_refl) as (B1 & B2 & B3). destruct (call_receipts ar m Hsys Hp) as (R1 & R2 & R3). split; [|split].
    + match goal with Ht : write_timeouts _ _ _ _ = Some _ |- _ => apply timeouts_inv in Ht; [|by apply (inv_ext id u0 (set_update u2 s1))]; eapply inv_account; [..|exact Ht] end; try done.
      apply fits_set_storage; [by apply Cs|]. apply fits_set_amount; [|done]. unfold in_u. lia.
    + unfold gas_ok. cbn. rewrite Hres. cbn. lia.
    + apply same_stats_refl.
    + intros _. unfold value_ok. cbn -[all_bought total_deposits manager_gas]. rewrite Hres. cbn -[all_bought total_deposits manager_gas].
      pose proof (held_storage (out_storage_usage o) (set_amount (out_balance o) a)) as E1. rewrite held_amount in E1. cbn in E1. rewrite R2, R3, H, (Cu eq_refl). cbn.
      split_and!; [exact R1|lia..].
Qed.

End steps.

(** ** Any action *)

(** The values inside have the widths of their types. *)
Definition action_fits (a : Act) : Prop :=
  match a with
  | Stake stake pk => in_u 128 stake
  | AddKey pk _ | DeleteKey pk => public_key_ok pk
  | Delegate signed => public_key_ok (delegate_public_key (delegate_action signed))
  | UseGlobalContract (ContractCodeHash h) => length h = 32%nat
  | _ => True
  end.

Abbreviation apply_action := (apply_action as_bytes get_account_type is_top_level is_sub_account_of system hash verify hex_decode wallet_magic_bytes wallet_contract minimum_stake apply_state).

Lemma permission_locked predecessor account actor account_id : check_actor_permissions (DeleteAccount predecessor) account actor account_id = Some (inr () : ActionErrorKind AccountId CallError + ()) →
  ∀ a, account = Some a → locked a = 0.
Proof. intros Hc a ->. cbn in Hc. case_bool_decide; [|done]. cbn in Hc. destruct (Z.eqb_spec (locked a) 0); done. Qed.

(** The gas of an action that was applied, and the tokens that it moved. *)
Lemma apply_action_good u0 p a r ar results action_hash i n (s : State) : let id := Receipt.receiver_id r in
  act_inv id u0 s → id ≠ system → public_key_ok (signer_public_key ar) → gas_price ar = p → action_ok a → action_fits a → Forall action_ok (receipt_actions ar) →
  (∀ acct, s_account s = Some acct → global_actions_burnt_amount (s_stats s) + amount acct <= umax 128) →
  ensures (apply_action a r ar results action_hash i n : AM ()) s (λ _ s', act_inv id u0 s' ∧ 
    moved p (action_cost as_bytes get_account_type fees wasm Costs.exec_fee id a) (deposit_of a) (action_bound ar a) s s').
Proof.
  intros id Hinv Hsys Hpk Hp Hok Hfits Hall Hroom. unfold Actions.apply_action. fold id. estep. estep. match goal with H : Fees.exec_fee _ _ _ _ _ _ = Some ?x |- _ => rename H into Hfee, x into f end.
  pose proof (exec_shallow_exact _ get_account_type fees wasm fees_fit id a (proj1 Hok)) as Hex. rewrite <-(exact_unique _ _ _ f Hex) by by rewrite Hfee.
  assert (Hf : 0 <= f) by (rewrite (exact_unique _ _ _ f Hex) by (by rewrite Hfee); apply Hex). clear Hfee Hex.
  estep. estep. set (s1 := set_s_result (fee_result f) s). assert (Hi1 : act_inv id u0 s1) by by apply (inv_ext id u0 s).
  apply (ensures_mono _ _ (λ _ s', act_inv id u0 s' ∧ moved p f (deposit_of a) (action_bound ar a) s1 s')); [|by intros [] s' [? []]].
  fold (action_good id u0 p f (deposit_of a) (action_bound ar a) s1). pose proof (action_bound_nonneg _ get_account_type fees wasm fees_fit ar a Hok Hall) as Hb.
  unfold action_good. estep. estep. change (s_account s1) with (s_account s). destruct (check_account_existence _ _ _ _ _ _) as [e|[]] eqn:Hex; [by apply fail_good|]. estep. estep. estep. estep.
  match goal with H : check_actor_permissions _ _ _ _ = Some ?x |- _ => rename H into Hperm; destruct x as [e|[]]; [by apply fail_good|] end.
  assert (Hnew : a = CreateAccount → s_account s = None) by (intros ->; cbn in Hex; by destruct (s_account s)).
  destruct Hok as [(_ & Hgas & Hdep) Hin].
  destruct a; cbn [get_prepaid_gas get_deposit_balance] in *; cbn [action_bound]; unfold deposit_of; cbn [get_deposit_balance inner fmap list_fmap sum_Z foldr]; rewrite ?Z.add_0_r.
  - by apply create_account_good; [..|apply Hnew].
  - by apply deploy_good.
  - repeat estep. by apply function_call_good; [..|apply Hdep].
  - by apply transfer_or_create_good.
  - by apply stake_good.
  - by apply add_key_good.
  - by apply delete_key_good.
  - apply delete_account_good; [done..|]. by eapply permission_locked.
  - by apply delegate_good.
  - by apply deploy_global_good.
  - apply use_global_good; [done..|]. by intros h ->.
Qed.
End correct.
