(* ===== verification/ValidatorAccounts.v ===== *)
(** The accounts of validators at the start of an epoch (runtime/runtime/src/lib.rs, [Runtime::update_validator_accounts]): rewards are
    added to the stakes, and the stake that is not needed any more is returned. *)

From S2P Require Import Prelude Errors Borsh TrieKey StateUpdate TrieQueue Receipt Account StoreUtils ReceiptQueues RuntimeStore ActionsCorrect.
Local Open Scope Z_scope.

(** The hash map of the stakes is a list in the order of its iterator. *)
Record ValidatorAccountsUpdate (AccountId : Type) `{Countable AccountId} : Type := mkValidatorAccountsUpdate {
  stake_info : list (AccountId * Z);
  validator_rewards : gmap AccountId Z;
  last_proposals : gmap AccountId Z;
  protocol_treasury_account_id : option AccountId
}.
Arguments mkValidatorAccountsUpdate {AccountId _ _}.
Arguments stake_info {AccountId _ _}.
Arguments validator_rewards {AccountId _ _}.
Arguments last_proposals {AccountId _ _}.
Arguments protocol_treasury_account_id {AccountId _ _}.

Section update.
Context {AccountId StorageError U : Type} `{!EqDecision AccountId} `{!Countable AccountId} `{Store : !StateStore (TrieKey AccountId) StorageError U} `{RStore : !RuntimeStore AccountId StorageError U}.
Context `{!Borsh AccountId}.

Abbreviation Error := (RuntimeError StorageError).
Abbreviation UM := (M U Error).
Abbreviation Acct := (Account AccountId).
Abbreviation Update := (ValidatorAccountsUpdate AccountId).

(** Reads and writes of the state alone. *)
Definition state_read {A} (f : U → option (StorageError + A)) : UM A := λ u,
  match f u with Some (inr a) => Ok a u | Some (inl e) => Err (RtStorageError e) u | None => Panic end.
Definition state_write (f : U → option U) : UM () := λ u, match f u with Some u => Ok () u | None => Panic end.

Definition inconsistent_state {A} : UM A := throw (RtStorageError st_inconsistent).
Definition no_overflow {A} (o : option A) : UM A := match o with Some a => mret a | None => throw UnexpectedIntegerOverflow end.

Definition reward_stake (update : Update) (id : AccountId) (account : Acct) : UM Acct :=
  match validator_rewards update !! id with
  | Some reward => l ← no_overflow (checked_add 128 (locked account) reward); mret (set_locked l account)
  | None => mret account
  end.

Definition return_stake (last_proposal max_of_stakes : Z) (account : Acct) : UM Acct :=
  returned ← no_overflow (checked_sub (locked account) (Z.max max_of_stakes last_proposal));
  l ← no_overflow (checked_sub (locked account) returned);
  let account := set_locked l account in
  m ← no_overflow (checked_add 128 (amount account) returned);
  mret (set_amount m account).

Definition update_staker (update : Update) (id : AccountId) (max_of_stakes : Z) : UM () :=
  account ← state_read (λ u, get_account (st_get u) id);
  match account with
  | Some account =>
      account ← reward_stake update id account;
      if locked account <? max_of_stakes then inconsistent_state
      else
        account ← return_stake (default 0 (last_proposals update !! id)) max_of_stakes account;
        state_write (set_account id account)
  | None => if 0 <? max_of_stakes then inconsistent_state else mret ()
  end.

Fixpoint update_stakers (update : Update) (stakers : list (AccountId * Z)) : UM () :=
  match stakers with
  | [] => mret ()
  | (id, max_of_stakes) :: stakers => _ ← update_staker update id max_of_stakes; update_stakers update stakers
  end.

Definition update_treasury (update : Update) : UM () :=
  match protocol_treasury_account_id update with
  | None => mret ()
  | Some id =>
      if bool_decide (id ∈ (stake_info update).*1) then mret ()
      else
        account ← state_read (λ u, get_account (st_get u) id);
        match account with
        | None => inconsistent_state
        | Some account =>
            match validator_rewards update !! id with
            | None => inconsistent_state
            | Some treasury_reward =>
                m ← no_overflow (checked_add 128 (amount account) treasury_reward);
                state_write (set_account id (set_amount m account))
            end
        end
  end.

Definition update_validator_accounts (update : Update) : UM () :=
  _ ← update_stakers update (stake_info update);
  _ ← update_treasury update;
  state_write (rs_commit CauseValidatorAccountsUpdate).
End update.

(** * What the update does *)

Section correct.
Context {AccountId StorageError U : Type} `{!EqDecision AccountId} `{!Countable AccountId} `{Store : !StateStore (TrieKey AccountId) StorageError U} `{RStore : !RuntimeStore AccountId StorageError U}.
Context `{!Borsh AccountId} `{!BorshOk AccountId (λ _, True)}.
Context (key_ok : TrieKey AccountId → Prop) (st_view st_saved : U → TrieKey AccountId → option (list Z)) (st_trie_view : U → Base (TrieKey AccountId)).
Context `{!StateStoreOk (TrieKey AccountId) StorageError U key_ok st_view st_trie_view} `{!RuntimeStoreOk AccountId StorageError U key_ok st_view st_saved st_trie_view}.
Context `{!ContainsKeyOk key_ok st_view st_trie_view} (account_keys_ok : ∀ id, key_ok (TrieKey.Account id)).

Abbreviation Acct := (Account AccountId).
Abbreviation Update := (ValidatorAccountsUpdate AccountId).
Abbreviation Ledger := (AccountId → option Acct).
Abbreviation UM := (M U (RuntimeError StorageError)).
Implicit Types (update : Update) (f : Ledger).

(** The accounts in the state. *)
Definition holds (u : U) f : Prop := ∀ id, st_view u (TrieKey.Account id) = borsh_encode <$> f id ∧ ∀ a, f id = Some a → account_ok a.

(** Only accounts were written. *)
Record others_same (u u' : U) : Prop := {
  os_base : st_trie_view u' = st_trie_view u;
  os_view k : key_ok k → (∀ id, k ≠ TrieKey.Account id) → st_view u' k = st_view u k
}.

Definition reward_of update (id : AccountId) : Z := default 0 (validator_rewards update !! id).
Definition kept_stake update (id : AccountId) (max_of_stakes : Z) : Z := Z.max max_of_stakes (default 0 (last_proposals update !! id)).

(** A validator that is not staking less than it has to. *)
Definition staker_ok update f (e : AccountId * Z) : Prop :=
  match f e.1 with
  | Some a => kept_stake update e.1 e.2 <= locked a + reward_of update e.1
  | None => e.2 <= 0
  end.

Definition treasury_ok update f : Prop :=
  match protocol_treasury_account_id update with
  | Some id => id ∈ (stake_info update).*1 ∨ is_Some (f id) ∧ is_Some (validator_rewards update !! id)
  | None => True
  end.

Definition settled_staker update (id : AccountId) (max_of_stakes : Z) (a : Acct) : Acct :=
  set_amount (amount a + (locked a + reward_of update id - kept_stake update id max_of_stakes)) (set_locked (kept_stake update id max_of_stakes) a).

Definition stakers_paid update (stakers : list (AccountId * Z)) f : Ledger := λ id,
  match (list_to_map stakers : gmap AccountId Z) !! id with
  | Some m => settled_staker update id m <$> f id
  | None => f id
  end.

(** The accounts after the update. *)
Definition all_paid update f : Ledger := λ id,
  if decide (protocol_treasury_account_id update = Some id ∧ id ∉ (stake_info update).*1) then (λ a, set_amount (amount a + reward_of update id) a) <$> f id
  else stakers_paid update (stake_info update) f id.

(** Balances are not negative. *)
Record amounts_ok update : Prop := {
  uf_rewards id : 0 <= reward_of update id;
  uf_proposals id : 0 <= default 0 (last_proposals update !! id);
  uf_stakes : Forall (λ e, 0 <= e.2) (stake_info update)
}.

(** The account can take its reward. *)
Definition has_room update f (id : AccountId) : Prop := ∀ a, f id = Some a → amount a + locked a + reward_of update id < umax 128.

Lemma read_account u f id : holds u f → (state_read (λ u, get_account (st_get u) id) : UM (option Acct)) u = Ok (f id) u.
Proof. intros H. unfold state_read, get_account. destruct (H id) as [Hv Hok]. by rewrite (get_value_ok key_ok st_view st_trie_view account_ok u _ (f id)) by done. Qed.

Lemma write_account_ok u f id a : holds u f → account_ok a → ∃ u', (state_write (set_account id a) : UM ()) u = Ok () u' ∧ others_same u u' ∧ holds u' (λ i, if decide (i = id) then Some a else f i).
Proof.
  intros H Ha. destruct (st_set_ok u (TrieKey.Account id) (borsh_encode a) (account_keys_ok id)) as (u' & Hu & Ht & Hv). exists u'. unfold state_write, set_account, set_value. rewrite Hu. split; [done|]. split.
  - split; [done|]. intros k Hk Hn. rewrite Hv by done. by rewrite decide_False.
  - intros i. rewrite Hv by apply account_keys_ok. destruct (decide (i = id)) as [->|Hne]; [rewrite decide_True by done; split; [done|]; by intros ? [= <-]|]. rewrite decide_False by congruence. apply H.
Qed.

Lemma others_same_refl u : others_same u u.
Proof. by split. Qed.
Lemma others_same_trans u1 u2 u3 : others_same u1 u2 → others_same u2 u3 → others_same u1 u3.
Proof. intros [B1 V1] [B2 V2]. split; [congruence|]. intros k Hk Hn. by rewrite V2, V1. Qed.

Lemma settled_ok update f id m a : amounts_ok update → has_room update f id → 0 <= m → f id = Some a → account_ok a → kept_stake update id m <= locked a + reward_of update id → account_ok (settled_staker update id m a).
Proof.
  intros Hfit Hroom Hm Hf Ha Hk. pose proof (uf_rewards _ Hfit id). pose proof (uf_proposals _ Hfit id). pose proof (Hroom a Hf). apply account_ok_fits in Ha. pose proof Ha as ([? ?] & [? ?] & _).
  unfold settled_staker. assert (0 <= kept_stake update id m) by (unfold kept_stake; lia). apply acct_fits_ok.
  - apply fits_set_amount; [unfold in_u; lia|]. apply fits_set_locked; [unfold in_u; lia|done].
  - destruct a as [[]|[]]; cbn in *; lia.
Qed.

(** The account that is computed for a validator. *)
Lemma pay_staker update f id m a (u : U) : amounts_ok update → has_room update f id → 0 <= m → f id = Some a → account_ok a →
  ((account ← reward_stake update id a; if locked account <? m then inconsistent_state else return_stake (default 0 (last_proposals update !! id)) m account) : UM Acct) u =
  if decide (kept_stake update id m <= locked a + reward_of update id) then Ok (settled_staker update id m a) u
  else Err (if locked a + reward_of update id <? m then RtStorageError st_inconsistent else UnexpectedIntegerOverflow) u.
Proof.
  intros Hfit Hroom Hm Hf Ha. pose proof (uf_rewards _ Hfit id) as Hr. pose proof (uf_proposals _ Hfit id) as Hp. pose proof (Hroom a Hf) as Hb. apply account_ok_fits in Ha as ([? ?] & [? ?] & _).
  assert (Hl : (reward_stake update id a : UM Acct) u = Ok (set_locked (locked a + reward_of update id) a) u).
  { unfold reward_stake, reward_of in *. destruct (validator_rewards update !! id) as [x|]; cbn in Hr, Hb |- *; [by rewrite checked_add_ok by lia|]. rewrite Z.add_0_r. by destruct a as [[]|[]]. }
  rewrite (bind_Ok _ _ _ _ _ Hl). replace (locked (set_locked (locked a + reward_of update id) a)) with (locked a + reward_of update id) by by destruct a as [[]|[]].
  unfold return_stake. replace (locked (set_locked (locked a + reward_of update id) a)) with (locked a + reward_of update id) by by destruct a as [[]|[]].
  fold (kept_stake update id m). assert (m <= kept_stake update id m) by (unfold kept_stake; lia).
  case_decide as Hk; [|destruct (Z.ltb_spec (locked a + reward_of update id) m); [done|]; destruct (checked_sub _ _) as [?|] eqn:E; [apply checked_sub_Some in E; lia|done]].
  rewrite (proj2 (Z.ltb_ge _ _)) by lia. rewrite checked_sub_ok by lia. cbn [no_overflow]. erewrite bind_Ok by done. rewrite checked_sub_ok by lia. erewrite bind_Ok by done.
  replace (amount (set_locked _ (set_locked _ a))) with (amount a) by by destruct a as [[]|[]]. rewrite checked_add_ok by lia. erewrite bind_Ok by done.
  unfold settled_staker. replace (locked a + reward_of update id - (locked a + reward_of update id - kept_stake update id m)) with (kept_stake update id m) by lia. by destruct a as [[]|[]].
Qed.

Lemma update_staker_ok update f u id m : amounts_ok update → has_room update f id → 0 <= m → holds u f →
  match (update_staker update id m : UM ()) u with
  | Ok _ u' => staker_ok update f (id, m) ∧ others_same u u' ∧ holds u' (λ i, if decide (i = id) then settled_staker update id m <$> f id else f i)
  | Err _ _ => ¬ staker_ok update f (id, m)
  | _ => False
  end.
Proof.
  intros Hfit Hroom Hm Hh. unfold update_staker, staker_ok. rewrite (bind_Ok _ _ _ _ _ (read_account u f id Hh)). cbn [fst snd]. destruct (f id) as [a|] eqn:Hf.
  - destruct (Hh id) as [_ Ha]. specialize (Ha a Hf). pose proof (pay_staker update f id m a u Hfit Hroom Hm Hf Ha) as P. unfold mbind, M_bind in P |- *.
    destruct (reward_stake update id a u) as [b u1|e u1| |]; cbn beta iota in P |- *; [|case_decide; by simplify_eq..].
    destruct (locked b <? m); [case_decide; [done|]; unfold inconsistent_state in P |- *; by simplify_eq|]. case_decide as Hk; rewrite P; cbn beta iota; [|done].
    destruct (write_account_ok u f id (settled_staker update id m a) Hh) as (u' & -> & Ho & Hh'); [by eapply settled_ok|done].
  - destruct (Z.ltb_spec 0 m); [cbn; lia|]. cbn. split; [done|]. split; [apply others_same_refl|]. intros i. destruct (decide (i = id)) as [->|]; [rewrite <-Hf|]; apply Hh.
Qed.

Lemma stakers_ok_mono update stakers f f' : (∀ id, id ∈ stakers.*1 → f' id = f id) → Forall (staker_ok update f') stakers ↔ Forall (staker_ok update f) stakers.
Proof. intros H. rewrite !Forall_forall. split; intros Ha e He; specialize (Ha e He); unfold staker_ok in *; [rewrite <-H|rewrite H]; try done; apply list_elem_of_fmap; by exists e. Qed.

Lemma ledger_ext u f f' : (∀ id, f id = f' id) → holds u f → holds u f'.
Proof. intros H Hh id. rewrite <-H. apply Hh. Qed.

Lemma update_stakers_ok update stakers : NoDup stakers.*1 → Forall (λ e, 0 <= e.2) stakers → amounts_ok update → ∀ f u, Forall (has_room update f) stakers.*1 → holds u f →
  match (update_stakers update stakers : UM ()) u with
  | Ok _ u' => Forall (staker_ok update f) stakers ∧ others_same u u' ∧ holds u' (stakers_paid update stakers f)
  | Err _ _ => ¬ Forall (staker_ok update f) stakers
  | _ => False
  end.
Proof.
  induction stakers as [|[id m] stakers IH]; intros Hn Hm Hfit f u Hroom Hh; cbn [update_stakers]; [done|]. apply Forall_cons in Hroom as [Hr0 Hroom]. apply NoDup_cons in Hn as [Hni Hn]. apply Forall_cons in Hm as [Hm0 Hm]. cbn in Hni, Hm0.
  pose proof (update_staker_ok update f u id m Hfit Hr0 Hm0 Hh) as H1. unfold mbind, M_bind. destruct (update_staker update id m u) as [[] u1|e u1| |]; [|by intros [? _]%Forall_cons|done..].
  destruct H1 as (Hs & Ho & Hh1). set (f1 := λ i, if decide (i = id) then settled_staker update id m <$> f id else f i) in *.
  assert (Hsame : ∀ i, i ∈ stakers.*1 → f1 i = f i) by (intros i Hi; unfold f1; rewrite decide_False; [done|]; by intros ->).
  assert (Hr1 : Forall (has_room update f1) stakers.*1) by (rewrite Forall_forall in Hroom |- *; intros i Hi; unfold has_room; rewrite Hsame by done; by apply Hroom).
  specialize (IH Hn Hm Hfit f1 u1 Hr1 Hh1). pose proof (stakers_ok_mono update stakers f f1 Hsame) as Hiff.
  destruct (update_stakers update stakers u1) as [[] u2|e u2| |]; [|by intros [_ ?%Hiff]%Forall_cons|done..]. destruct IH as (Hs2%Hiff & Ho2 & Hh2). split_and!; [by constructor|by eapply others_same_trans|].
  eapply ledger_ext; [|exact Hh2]. intros i. unfold stakers_paid, f1. cbn [list_to_map fst snd foldr].
  destruct (decide (i = id)) as [->|Hne]; [by rewrite lookup_insert_eq, not_elem_of_list_to_map_1|]. by rewrite lookup_insert_ne.
Qed.

Lemma update_treasury_ok update f u : amounts_ok update → (∀ id, has_room update f id) → holds u (stakers_paid update (stake_info update) f) → 
  match (update_treasury update : UM ()) u with
  | Ok _ u' => treasury_ok update f ∧ others_same u u' ∧ holds u' (all_paid update f)
  | Err _ _ => ¬ treasury_ok update f
  | _ => False
  end.
Proof.
  intros Hfit Hroom Hh. unfold update_treasury, treasury_ok, all_paid. destruct (protocol_treasury_account_id update) as [id|].
  2: { cbn. split_and!; [done|apply others_same_refl|]. eapply ledger_ext; [|exact Hh]. intros i. rewrite decide_False; [done|]. by intros []. }
  case_bool_decide as Hin; [cbn; split_and!; [by left|apply others_same_refl|]; eapply ledger_ext; [|exact Hh]; intros i; rewrite decide_False; [done|]; by intros [[= ->] ?]|].
  rewrite (bind_Ok _ _ _ _ _ (read_account u _ id Hh)). assert (Hf : stakers_paid update (stake_info update) f id = f id) by (unfold stakers_paid; by rewrite not_elem_of_list_to_map_1).
  rewrite Hf. destruct (f id) as [a|] eqn:Ha; [|by intros [?|[[? ?] _]]]. destruct (validator_rewards update !! id) as [x|] eqn:Hx; [|by intros [?|[_ [? ?]]]].
  assert (Hrw : reward_of update id = x) by (unfold reward_of; by rewrite Hx). pose proof (uf_rewards _ Hfit id). pose proof (Hroom id a Ha). destruct (Hh id) as [_ Hok]. specialize (Hok a Hf).
  apply account_ok_fits in Hok. pose proof Hok as ([? ?] & [? ?] & _). rewrite checked_add_ok by lia. erewrite bind_Ok by done.
  destruct (write_account_ok u _ id (set_amount (amount a + x) a) Hh) as (u' & -> & Ho & Hh').
  { apply acct_fits_ok; [apply fits_set_amount; [unfold in_u; lia|done]|]. destruct a as [[]|[]]; cbn in *; lia. }
  split_and!; [right; split; by eexists|done|]. eapply ledger_ext; [|exact Hh']. intros i. destruct (decide (i = id)) as [->|Hne].
  - rewrite Ha. cbn [fmap option_fmap option_map]. rewrite Hrw. by rewrite !decide_True.
  - rewrite !decide_False; [done|naive_solver..].
Qed.

(** Rewards are the only tokens that appear. *)
Lemma held_all_paid update f id : held (all_paid update f id) = held (f id) +
  (if decide (id ∈ (stake_info update).*1 ∨ protocol_treasury_account_id update = Some id) then match f id with Some _ => reward_of update id | None => 0 end else 0).
Proof.
  unfold all_paid. destruct (decide (id ∈ (stake_info update).*1)) as [Hin|Hin].
  - rewrite decide_False by (by intros [_ ?]). rewrite decide_True by by left. unfold stakers_paid.
    destruct ((list_to_map (stake_info update) : gmap AccountId Z) !! id) as [m|] eqn:E; [|by apply not_elem_of_list_to_map in E]. destruct (f id) as [a|]; [|done]. cbn [fmap option_fmap option_map]. unfold settled_staker. rewrite held_amount. destruct a as [[]|[]]; cbn; lia.
  - destruct (decide (protocol_treasury_account_id update = Some id)) as [Ht|Ht].
    + rewrite !decide_True by auto. destruct (f id) as [a|]; [|done]. cbn [fmap option_fmap option_map]. rewrite held_amount. cbn. lia.
    + rewrite !decide_False by naive_solver. unfold stakers_paid. rewrite not_elem_of_list_to_map_1 by done. lia.
Qed.

(** C14: Validator accounts are paid exactly.  The update at the start of an epoch succeeds if and only if every validator has as much locked, with its reward, as it has to keep, and the treasury
    account exists and has a reward.  Then each validator keeps the larger of its past stakes and its last proposal locked and gets back the rest, the treasury gets its reward, no other key
    changes, and each of these accounts holds exactly its reward more than before; the order of the hash map does not matter.  It never panics. *)
Theorem validator_accounts_paid update f u : NoDup (stake_info update).*1 → amounts_ok update → (∀ id, has_room update f id) → holds u f → base_live (st_trie_view u) = true →
  match (update_validator_accounts update : UM ()) u with
  | Ok _ u' => Forall (staker_ok update f) (stake_info update) ∧ treasury_ok update f ∧ others_same u u' ∧ holds u' (all_paid update f) ∧
      ∀ id, held (all_paid update f id) = held (f id) +
        (if decide (id ∈ (stake_info update).*1 ∨ protocol_treasury_account_id update = Some id) then match f id with Some _ => reward_of update id | None => 0 end else 0)
  | Err _ _ => ¬ (Forall (staker_ok update f) (stake_info update) ∧ treasury_ok update f)
  | _ => False
  end.
Proof.
  intros Hn Hfit Hroom Hh Hlive. unfold update_validator_accounts. pose proof (update_stakers_ok update (stake_info update) Hn (uf_stakes _ Hfit) Hfit f u) as H1. unfold mbind, M_bind.
  specialize (H1 ltac:(by apply Forall_forall; intros; apply Hroom) Hh). destruct (update_stakers update (stake_info update) u) as [[] u1|e u1| |]; [|by intros [? _]|done..].
  destruct H1 as (Hs & Ho1 & Hh1). pose proof (update_treasury_ok update f u1 Hfit Hroom Hh1) as H2. destruct (update_treasury update u1) as [[] u2|e u2| |]; [|by intros [_ ?]|done..].
  destruct H2 as (Ht & Ho2 & Hh2). pose proof (others_same_trans _ _ _ Ho1 Ho2) as Ho. destruct (ck_commit_live key_ok st_view st_trie_view CauseValidatorAccountsUpdate u2) as [u3 Hc]; [by rewrite (os_base _ _ Ho)|].
  unfold state_write. rewrite Hc. destruct (rs_commit_ok _ _ _ Hc) as (B3 & V3 & _). split_and!; [done|done| |by intros id; rewrite V3; apply Hh2|apply held_all_paid].
  split; [by rewrite B3, (os_base _ _ Ho)|]. intros k Hk Hn'. rewrite V3. by apply Ho.
Qed.
End correct.
