(* ===== verification/ApplyReceipt.v ===== *)
(** The execution of an action receipt (runtime/runtime/src/lib.rs): the input data is collected, the actions run one
    after the other, and the state is committed or rolled back; gas that was not used and, after a failure, the deposits are refunded, the
    rest is burnt but for the reward of the contract; the new receipts get their ids and go to the sink.

    The sink is a parameter, as in [ProcessTransactions]. *)

From S2P Require Import Prelude Errors Borsh Costs TrieKey StateUpdate TrieQueue Fees Receipt ReceiptManager Account StoreUtils Verifier Transaction ReceiptQueues ProcessTransactions RuntimeStore Actions.
Local Open Scope Z_scope.

(** * Refunds *)

Record GasRefundResult : Type := mkGasRefund { price_deficit : Z; price_surplus : Z; refund_penalty : Z }.
Definition default_gas_refund : GasRefundResult := mkGasRefund 0 0 0.

Section refunds.
Context {AccountId CallError : Type} `{!EqDecision AccountId} (as_bytes : AccountId → bytes) (get_account_type : AccountId → AccountType) (system : AccountId).
Context (fees : RuntimeFeesConfig) (wasm_config : VmConfig).

Abbreviation R := (Res IntegerOverflowError).
Abbreviation Rcpt := (Receipt AccountId).
Abbreviation Result := (ActionResult AccountId CallError).

Definition add_receipt (r : Rcpt) (res : Result) : Result := set_new_receipts (new_receipts res ++ [r]) res.

(** The gas that was paid for with the receipt, and what is left of it. *)
Definition prepaid_total (r : Rcpt) (action_receipt : ActionReceipt AccountId) : R Z :=
  prepaid ← total_prepaid_gas (receipt_actions action_receipt);
  send ← total_prepaid_send_fees as_bytes get_account_type fees wasm_config (receipt_actions action_receipt);
  prepaid_gas ← safe_add_gas prepaid send;
  exec ← total_prepaid_exec_fees as_bytes get_account_type fees wasm_config (receipt_actions action_receipt) (Receipt.receiver_id r);
  prepaid_exec_gas ← safe_add_gas exec (Costs.exec_fee (fee fees action_new_action_receipt));
  safe_add_gas prepaid_gas prepaid_exec_gas.

Definition unspent_gas (total : Z) (res : Result) : R Z := res_expect (checked_sub total (if result_ok res then gas_used res else gas_burnt res)).

Definition push_refunds (r : Rcpt) (action_receipt : ActionReceipt AccountId) (deposit_refund gas_balance_refund : Z) (res : Result) : Result :=
  let res := if 0 <? deposit_refund then add_receipt (new_balance_refund system (predecessor_id r) deposit_refund (priority r)) res else res in
  if 0 <? gas_balance_refund
  then add_receipt (new_gas_refund system (signer_id action_receipt) gas_balance_refund (signer_public_key action_receipt) (priority r)) res else res.

(** Before NEP-536. *)
Definition refund_unspent_gas_and_unspent_gas_and_deposits (current_gas_price : Z) (r : Rcpt) (action_receipt : ActionReceipt AccountId) (res : Result) : R (Z * Result) :=
  total_deposit ← total_deposit (receipt_actions action_receipt);
  total ← prepaid_total r action_receipt;
  let deposit_refund := if result_ok res then 0 else total_deposit in
  gas_refund ← unspent_gas total res;
  gas_balance_refund ← safe_gas_to_balance (gas_price action_receipt) gas_refund;
  '(gas_balance_refund, gas_deficit_amount) ←
    (if gas_price action_receipt <? current_gas_price then
       gas_deficit_amount ← safe_gas_to_balance (current_gas_price - gas_price action_receipt) (gas_burnt res);
       if gas_deficit_amount <=? gas_balance_refund then mret (gas_balance_refund - gas_deficit_amount, 0)
       else mret (0, gas_deficit_amount - gas_balance_refund)
     else
       difference ← safe_gas_to_balance (gas_price action_receipt - current_gas_price) (gas_burnt res);
       x ← safe_add_balance gas_balance_refund difference;
       mret (x, 0));
  mret (gas_deficit_amount, push_refunds r action_receipt deposit_refund gas_balance_refund res).

(** Since NEP-536. *)
Definition refund_unspent_gas_and_deposits (current_gas_price : Z) (r : Rcpt) (action_receipt : ActionReceipt AccountId) (res : Result) : R (GasRefundResult * Result) :=
  total_deposit ← total_deposit (receipt_actions action_receipt);
  total ← prepaid_total r action_receipt;
  let deposit_refund := if result_ok res then 0 else total_deposit in
  gross_gas_refund ← unspent_gas total res;
  refund_penalty ← res_expect (gas_penalty_for_gas_refund fees gross_gas_refund);
  net_gas_refund ← res_expect (checked_sub gross_gas_refund refund_penalty);
  gas_balance_refund ← safe_gas_to_balance (gas_price action_receipt) net_gas_refund;
  penalty ← safe_gas_to_balance (gas_price action_receipt) refund_penalty;
  '(deficit, surplus) ←
    (if gas_price action_receipt <? current_gas_price then
       x ← safe_gas_to_balance (current_gas_price - gas_price action_receipt) (gas_burnt res); mret (x, 0)
     else
       x ← safe_gas_to_balance (gas_price action_receipt - current_gas_price) (gas_burnt res); mret (0, x));
  mret (mkGasRefund deficit surplus penalty, push_refunds r action_receipt deposit_refund gas_balance_refund res).

Definition generate_refund_receipts (current_gas_price : Z) (r : Rcpt) (action_receipt : ActionReceipt AccountId) (res : Result) : R (GasRefundResult * Result) :=
  if refund_gas_price_changes fees then
    '(price_deficit, res) ← refund_unspent_gas_and_unspent_gas_and_deposits current_gas_price r action_receipt res;
    mret (mkGasRefund price_deficit 0 0, res)
  else refund_unspent_gas_and_deposits current_gas_price r action_receipt res.

(** * What is burnt *)

(** [receiver_gas_reward]: products on [u64]. *)
Definition receiver_gas_reward (res : Result) : R Z :=
  p ← res_expect (checked_mul 64 (gas_burnt_for_function_call res) (numer (burnt_gas_reward fees) mod 2 ^ 64));
  res_expect (checked_div p (denom (burnt_gas_reward fees) mod 2 ^ 64)).

Definition receiver_reward (current_gas_price : Z) (action_receipt : ActionReceipt AccountId) (refund : GasRefundResult) (res : Result) : R Z :=
  reward_gas ← receiver_gas_reward res;
  if refund_gas_price_changes fees then
    full_reward ← safe_gas_to_balance current_gas_price reward_gas;
    mret (saturating_sub full_reward (price_deficit refund))
  else safe_gas_to_balance (gas_price action_receipt) reward_gas.

Definition burnt_amount (current_gas_price : Z) (r : Rcpt) (refund : GasRefundResult) (res : Result) : R Z :=
  let gas_burnt := if bool_decide (predecessor_id r = system) then 0 else gas_burnt res in
  x ← safe_gas_to_balance current_gas_price gas_burnt;
  x ← res_expect (checked_sub x (price_deficit refund));
  x ← safe_add_balance x (price_surplus refund);
  safe_add_balance x (refund_penalty refund).

(** * Data for other receipts *)

Definition extend_output_receivers (l : list (DataReceiver AccountId)) (e : ReceiptEnum AccountId) : option (ReceiptEnum AccountId) :=
  let extend (a : ActionReceipt AccountId) := mkActionReceipt (signer_id a) (signer_public_key a) (gas_price a) (output_data_receivers a ++ l) (input_data_ids a) (receipt_actions a) in
  match e with
  | ActionR a => Some (ActionR (extend a))
  | PromiseYield a => Some (PromiseYield (extend a))
  | _ => None
  end.

Definition set_receipt_enum (e : ReceiptEnum AccountId) (r : Rcpt) : Rcpt :=
  match r with
  | ReceiptIsV0 r => ReceiptIsV0 (mkReceiptV0 (v0_predecessor_id r) (v0_receiver_id r) (v0_receipt_id r) e)
  | ReceiptIsV1 r => ReceiptIsV1 (mkReceiptV1 (v1_predecessor_id r) (v1_receiver_id r) (v1_receipt_id r) e (v1_priority r))
  end.

Definition set_receipt_id (id : bytes) (r : Rcpt) : Rcpt :=
  match r with
  | ReceiptIsV0 r => ReceiptIsV0 (mkReceiptV0 (v0_predecessor_id r) (v0_receiver_id r) id (v0_receipt r))
  | ReceiptIsV1 r => ReceiptIsV1 (mkReceiptV1 (v1_predecessor_id r) (v1_receiver_id r) id (v1_receipt r) (v1_priority r))
  end.

Definition data_for (account_id : AccountId) (data : option bytes) (d : DataReceiver AccountId) : Rcpt :=
  ReceiptIsV0 (mkReceiptV0 account_id (dr_receiver_id d) default_hash (DataR (mkDataReceipt (dr_data_id d) data))).

(** The output goes to a new receipt, if that is what was returned, or is sent to the receivers. *)
Definition outgoing_data (account_id : AccountId) (action_receipt : ActionReceipt AccountId) (res : Result) : R Result :=
  match output_data_receivers action_receipt with
  | [] => mret res
  | receivers =>
      match result res with
      | inr (ReturnReceiptIndex i) =>
          r ← res_expect (new_receipts res !! Z.to_nat i);
          e ← res_expect (extend_output_receivers receivers (receipt r));
          mret (set_new_receipts (<[Z.to_nat i := set_receipt_enum e r]> (new_receipts res)) res)
      | _ =>
          let data := match result res with inr (ReturnValue data) => Some data | inr _ => Some [] | inl _ => None end in
          mret (set_new_receipts (new_receipts res ++ (data_for account_id data <$> receivers)) res)
      end
  end.
End refunds.

(** * The execution of a receipt *)

Inductive ExecutionStatus (AccountId CallError : Type) : Type :=
| Failure (e : ActionError AccountId CallError)
| SuccessValue (value : bytes)
| SuccessReceiptId (id : bytes).
Arguments Failure {AccountId CallError}.
Arguments SuccessValue {AccountId CallError}.
Arguments SuccessReceiptId {AccountId CallError}.

Record ExecutionOutcomeWithId (AccountId CallError : Type) : Type := mkExecutionOutcome {
  outcome_id : bytes;
  status : ExecutionStatus AccountId CallError;
  outcome_logs : list bytes;
  receipt_ids : list bytes;
  outcome_gas_burnt : Z;
  outcome_compute_usage : Z;
  tokens_burnt : Z;
  executor_id : AccountId;
  outcome_profile : ProfileDataV3
}.
Arguments mkExecutionOutcome {AccountId CallError}.
Arguments outcome_id {AccountId CallError}.
Arguments status {AccountId CallError}.
Arguments outcome_logs {AccountId CallError}.
Arguments receipt_ids {AccountId CallError}.
Arguments outcome_gas_burnt {AccountId CallError}.
Arguments outcome_compute_usage {AccountId CallError}.
Arguments tokens_burnt {AccountId CallError}.
Arguments executor_id {AccountId CallError}.
Arguments outcome_profile {AccountId CallError}.

Section execution.
Context {AccountId StorageError U CallError K : Type} `{!EqDecision AccountId} `{Store : !StateStore (TrieKey AccountId) StorageError U} `{RStore : !RuntimeStore AccountId StorageError U}.
Context `{!Borsh AccountId} `{!Borsh AccessKey} `{!Borsh PromiseYieldIndices} `{!Borsh (PromiseYieldTimeout AccountId)} `{!Borsh (DelegateAction AccountId (Action AccountId))}.
Context `{!Borsh ReceivedData} `{!Borsh (ReceiptEnum AccountId)} `{!Vm AccountId StorageError U CallError}.
Context (as_bytes : AccountId → bytes) (from_str : bytes → option AccountId) (get_account_type : AccountId → AccountType) (is_top_level : AccountId → bool) (is_sub_account_of : AccountId → AccountId → bool).
Context (system : AccountId) (hash : bytes → bytes) (verify : bytes → bytes → PublicKey → bool) (hex_decode : bytes → option bytes) (is_valid_staking_key : PublicKey → bool).
Context (wallet_magic_bytes : Code) (wallet_contract : bytes → option Code) (minimum_stake : bytes → EpochError + Z).
Context (forward : Receipt AccountId → M (K * U) (RuntimeError StorageError) ()).
Context (apply_state : ApplyState AccountId).

Abbreviation config := (apply_config apply_state).
Abbreviation fees := (cfg_fees config).
Abbreviation Acct := (Account AccountId).
Abbreviation Rcpt := (Receipt AccountId).
Abbreviation Act := (Action AccountId).
Abbreviation Error := (RuntimeError StorageError).
Abbreviation Result := (ActionResult AccountId CallError).
Abbreviation State := (ActionState (AccountId := AccountId) (U := U) (CallError := CallError)).
Abbreviation AM := (M State Error).
Abbreviation apply_action := (apply_action as_bytes get_account_type is_top_level is_sub_account_of system hash verify hex_decode wallet_magic_bytes wallet_contract minimum_stake apply_state).

(** What the execution of receipts changes. *)
Record RtState : Type := mkRtState {
  rt_sink : K;
  rt_update : U;
  rt_proposals : list (ValidatorStake AccountId);
  rt_stats : BalanceStats
}.

Abbreviation RtM := (M RtState Error).

Definition set_rt_update (u : U) (s : RtState) : RtState := mkRtState (rt_sink s) u (rt_proposals s) (rt_stats s).
Definition set_rt_stats (t : BalanceStats) (s : RtState) : RtState := mkRtState (rt_sink s) (rt_update s) (rt_proposals s) t.
Definition set_rt_proposals (l : list (ValidatorStake AccountId)) (s : RtState) : RtState := mkRtState (rt_sink s) (rt_update s) l (rt_stats s).

Definition rt_gets {A} (f : RtState → A) : RtM A := λ s, Ok (f s) s.
Definition rt_modify (f : RtState → RtState) : RtM () := λ s, Ok () (f s).
Definition rt_write (f : U → option U) : RtM () := λ s, match f (rt_update s) with Some u => Ok () (set_rt_update u s) | None => Panic end.
Definition rt_read {A} (f : U → option (StorageError + A)) : RtM A := λ s,
  match f (rt_update s) with
  | None => Panic
  | Some (inl e) => Err (RtStorageError e) s
  | Some (inr a) => Ok a s
  end.
Definition rt_safe {A} (r : Res IntegerOverflowError A) : RtM A := run_res from_overflow r.
Definition rt_commit (c : StateChangeCause) : RtM () := rt_write (rs_commit c).
Definition rt_forward (r : Rcpt) : RtM () := zoom (λ s, (rt_sink s, rt_update s)) (λ t s, mkRtState t.1 t.2 (rt_proposals s) (rt_stats s)) (forward r).

(** ** Input *)

Fixpoint collect_input (account_id : AccountId) (ids : list bytes) : RtM (list PromiseResult) :=
  match ids with
  | [] => mret []
  | id :: ids =>
      received ← rt_read (λ u, get_received_data (st_get u) account_id id);
      match received with
      | None => throw (RtStorageError st_inconsistent)
      | Some (mkReceivedData data) =>
          _ ← rt_write (st_remove (TrieKey.ReceivedData account_id id));
          rest ← collect_input account_id ids;
          mret ((match data with Some value => Successful value | None => Failed end) :: rest)
      end
  end.

(** ** Actions *)

Fixpoint validate_new_receipts (l : list Rcpt) : Res ReceiptValidationError () :=
  match l with
  | [] => mret ()
  | r :: l =>
      _ ← validate_receipt as_bytes from_str is_valid_staking_key (cfg_limit config) (current_protocol_version apply_state) r NewReceipt;
      validate_new_receipts l
  end.

(** The result of an action is an error also if one of its receipts is not valid. *)
Definition validated_result (res : Result) : AM Result :=
  if result_ok res then
    match validate_new_receipts (new_receipts res) with
    | ROk _ => mret res
    | RErr e => mret (set_result (inl (mkActionError None (NewReceiptValidationError e))) res)
    | RPanic => panic
    end
  else mret res.

Fixpoint run_actions (r : Rcpt) (action_receipt : ActionReceipt AccountId) (results : list PromiseResult) (num_actions : nat) (l : list Act) (action_index : nat) (res : Result) : AM Result :=
  match l with
  | [] => mret res
  | action :: l =>
      let action_hash := create_action_hash_from_receipt_id hash (receipt_id r) (block_height apply_state) action_index in
      _ ← apply_action action r action_receipt results action_hash action_index num_actions;
      new_result ← gets s_result;
      new_result ← validated_result new_result;
      res ← safe (merge_result res new_result);
      match result res with
      | inl e => mret (set_result (inl (mkActionError (Some (Z.of_nat action_index)) (err_kind e))) res)
      | inr _ => run_actions r action_receipt results num_actions l (S action_index) res
      end
  end.

(** The balance covers the storage; otherwise the receipt fails. *)
Definition check_storage (account_id : AccountId) (res : Result) : AM Result :=
  if result_ok res then
    account ← gets s_account;
    match account with
    | None => mret res
    | Some account =>
        match check_storage_stake (storage_amount_per_byte (storage_usage_config fees)) account (amount account) with
        | inr () => _ ← write (set_account account_id account); mret res
        | inl (LackBalanceForStorageStaking a) => safe (merge_result res (set_result (inl (mkActionError None (ActionLackBalanceForState account_id a))) default_result))
        | inl StakingStorageError => throw (RtStorageError st_inconsistent)
        end
    end
  else mret res.

Definition initial_result : Result :=
  let exec_fees := Costs.exec_fee (fee fees action_new_action_receipt) in
  set_compute_usage exec_fees (set_gas_burnt exec_fees (set_gas_used exec_fees default_result)).

(** The actions on the state of the runtime: the account is read once, and written at the end. *)
Definition execute_actions (r : Rcpt) (action_receipt : ActionReceipt AccountId) (results : list PromiseResult) : RtM Result :=
  account ← rt_read (λ u, get_account (st_get u) (Receipt.receiver_id r));
  zoom (λ s, mkActionState (rt_update s) account (predecessor_id r) default_result (rt_stats s))
    (λ t s, mkRtState (rt_sink s) (s_update t) (rt_proposals s) (s_stats t))
    (res ← run_actions r action_receipt results (length (receipt_actions action_receipt)) (receipt_actions action_receipt) 0 initial_result;
     check_storage (Receipt.receiver_id r) res).

(** ** Accounting *)

Definition add_tx_burnt (x : Z) : RtM () :=
  t ← rt_gets rt_stats;
  y ← rt_safe (safe_add_balance (tx_burnt_amount t) x);
  rt_modify (set_rt_stats (mkBalanceStats y (slashed_burnt_amount t) (other_burnt_amount t) (gas_deficit_amount t) (global_actions_burnt_amount t))).
Definition add_other_burnt (x : Z) : RtM () :=
  t ← rt_gets rt_stats;
  y ← rt_safe (safe_add_balance (other_burnt_amount t) x);
  rt_modify (set_rt_stats (mkBalanceStats (tx_burnt_amount t) (slashed_burnt_amount t) y (gas_deficit_amount t) (global_actions_burnt_amount t))).
Definition add_gas_deficit (x : Z) : RtM () :=
  t ← rt_gets rt_stats;
  y ← rt_safe (safe_add_balance (gas_deficit_amount t) x);
  rt_modify (set_rt_stats (mkBalanceStats (tx_burnt_amount t) (slashed_burnt_amount t) (other_burnt_amount t) y (global_actions_burnt_amount t))).

(** A refund that fails is burnt. *)
Definition settle_refunds (r : Rcpt) (action_receipt : ActionReceipt AccountId) (res : Result) : RtM (GasRefundResult * Result) :=
  if is_system system (predecessor_id r) then
    _ ← (if result_ok res then mret () else d ← rt_safe (total_deposit (receipt_actions action_receipt)); add_other_burnt d);
    mret (default_gas_refund, res)
  else rt_safe (generate_refund_receipts as_bytes get_account_type system fees (cfg_wasm config) (block_gas_price apply_state) r action_receipt res).

(** The reward goes to the account, if it exists; the amount that is burnt without it. *)
Definition pay_reward (r : Rcpt) (reward burnt : Z) : RtM Z :=
  let account_id := Receipt.receiver_id r in
  if 0 <? reward then
    account ← rt_read (λ u, get_account (st_get u) account_id);
    match account with
    | Some account =>
        burnt ← expect (checked_sub burnt reward);
        a ← rt_safe (safe_add_balance (amount account) reward);
        _ ← rt_write (set_account account_id (set_amount a account));
        _ ← rt_commit (ActionReceiptGasReward (receipt_id r));
        mret burnt
    | None => mret burnt
    end
  else mret burnt.

(** ** New receipts *)

Definition create_receipt_id (parent : bytes) (i : nat) : bytes := create_receipt_id_from_receipt_id hash parent (block_height apply_state) i.

Definition is_action (r : Rcpt) : bool := match receipt r with ActionR _ | PromiseYield _ => true | _ => false end.

Fixpoint send_receipts (parent : bytes) (l : list Rcpt) (i : nat) : RtM (list bytes) :=
  match l with
  | [] => mret []
  | r :: l =>
      let id := create_receipt_id parent i in
      let r := set_receipt_id id r in
      _ ← rt_forward r;
      ids ← send_receipts parent l (S i);
      mret (if is_action r then id :: ids else ids)
  end.

Definition status_of (parent : bytes) (res : Result) : ExecutionStatus AccountId CallError :=
  match result res with
  | inr (ReturnReceiptIndex i) => SuccessReceiptId (create_receipt_id parent (Z.to_nat i))
  | inr (ReturnValue data) => SuccessValue data
  | inr ReturnNone => SuccessValue []
  | inl e => Failure e
  end.

(** The body of [apply_action_receipt] on the action receipt inside. *)
Definition apply_receipt_actions (r : Rcpt) (action_receipt : ActionReceipt AccountId) : RtM (ExecutionOutcomeWithId AccountId CallError) :=
  let account_id := Receipt.receiver_id r in
  results ← collect_input account_id (input_data_ids action_receipt);
  _ ← rt_commit (ActionReceiptProcessingStarted (receipt_id r));
  res ← execute_actions r action_receipt results;
  '(refund, res) ← settle_refunds r action_receipt res;
  _ ← add_gas_deficit (price_deficit refund);
  _ ← rt_modify (λ s, set_rt_proposals (rt_proposals s ++ validator_proposals res) s);
  _ ← (if result_ok res then rt_commit (ReceiptProcessing (receipt_id r)) else rt_write rs_rollback);
  tokens_burnt ← rt_safe (burnt_amount system (block_gas_price apply_state) r refund res);
  reward ← rt_safe (receiver_reward fees (block_gas_price apply_state) action_receipt refund res);
  tx_burnt ← pay_reward r reward tokens_burnt;
  _ ← add_tx_burnt tx_burnt;
  res ← rt_safe (outgoing_data account_id action_receipt res);
  ids ← send_receipts (receipt_id r) (new_receipts res) 0;
  mret (mkExecutionOutcome (receipt_id r) (status_of (receipt_id r) res) (logs res) ids (gas_burnt res) (compute_usage res) tokens_burnt account_id (profile res)).

Definition apply_action_receipt (r : Rcpt) : RtM (ExecutionOutcomeWithId AccountId CallError) :=
  match receipt r with
  | ActionR action_receipt | PromiseYield action_receipt => apply_receipt_actions r action_receipt
  | _ => panic
  end.
End execution.
