(* ===== verification/ExecutionFrame.v ===== *)
(** What the execution of a receipt leaves as it is: every key of the state but the account of the receiver with its code, keys
    and data, and the queue of timeouts.  Nothing is assumed of balances and gas, so the frame holds of every run that returns. *)

From S2P Require Import Prelude Errors Borsh Costs TrieKey StateUpdate TrieQueue Fees Receipt ReceiptManager Account StoreUtils RemoveAccount Verifier Transaction ReceiptQueues ProcessTransactions RuntimeStore Actions ActionsCorrect ApplyReceipt.
Local Open Scope Z_scope.

(** * Steps of the runtime *)

Section runtime_rules.
Context {AccountId StorageError U K : Type} `{Store : !StateStore (TrieKey AccountId) StorageError U}.
Abbreviation Rt := (RtState (AccountId := AccountId) (U := U) (K := K)).
Abbreviation RtM := (M Rt (RuntimeError StorageError)).

Lemma er_gets {A} (f : Rt → A) s (Q : A → Rt → Prop) : Q (f s) s → ensures (rt_gets f : RtM A) s Q.
Proof. done. Qed.
Lemma er_modify (f : Rt → Rt) s (Q : () → Rt → Prop) : Q () (f s) → ensures (rt_modify f : RtM ()) s Q.
Proof. done. Qed.
Lemma er_write f s (Q : () → Rt → Prop) : (∀ u, f (rt_update s) = Some u → Q () (set_rt_update u s)) → ensures (rt_write f : RtM ()) s Q.
Proof. intros H. unfold ensures, rt_write. destruct (f (rt_update s)) as [u|]; [by apply H|done]. Qed.
Lemma er_read {A} f s (Q : A → Rt → Prop) : (∀ a, f (rt_update s) = Some (inr a) → Q a s) → ensures (rt_read f : RtM A) s Q.
Proof. intros H. unfold ensures, rt_read. destruct (f (rt_update s)) as [[e|a]|]; [done|by apply H|done]. Qed.
Lemma er_safe {A} (x : Res IntegerOverflowError A) s (Q : A → Rt → Prop) : (∀ a, x = ROk a → Q a s) → ensures (rt_safe x : RtM A) s Q.
Proof. intros H. destruct x as [a| |]; [by apply H|done..]. Qed.

Lemma er_expect {A} (o : option A) s (Q : A → Rt → Prop) : (∀ a, o = Some a → Q a s) → ensures (expect o : RtM A) s Q.
Proof. intros H. destruct o as [a|]; [by apply H|done]. Qed.
End runtime_rules.

Ltac rstep :=
  (match goal with
   | |- ensures (_ ≫= _) _ _ => apply ensures_seq
   | |- ensures (mret _) _ _ => apply ensures_ret
   | |- ensures (rt_gets _) _ _ => apply er_gets
   | |- ensures (rt_modify _) _ _ => apply er_modify
   | |- ensures (rt_write _) _ _ => apply er_write; intros ? ?
   | |- ensures (rt_commit _) _ _ => apply er_write; intros ? ?
   | |- ensures (rt_read _) _ _ => apply er_read; intros ? ?
   | |- ensures (rt_safe _) _ _ => apply er_safe; intros ? ?
   | |- ensures (expect _) _ _ => apply er_expect; intros ? ?
   | |- ensures (throw _) _ _ => exact I
   | |- ensures panic _ _ => exact I
   end); cbv beta zeta.


(** * Frames of steps *)

Section frame_rules.
Context {AccountId StorageError U CallError : Type} `{!StateStore (TrieKey AccountId) StorageError U}.
Context (key_ok : TrieKey AccountId → Prop) (st_view st_saved : U → TrieKey AccountId → option (list Z)) (st_trie_view : U → Base (TrieKey AccountId)).
Context (touched : TrieKey AccountId → Prop).

Abbreviation State := (ActionState (AccountId := AccountId) (U := U) (CallError := CallError)).
Abbreviation AM := (M State (RuntimeError StorageError)).
Abbreviation frame := (st_frame key_ok st_view st_saved st_trie_view touched).

(** A step that changes keys of [touched] only. *)
Definition keeps {A} (m : AM A) : Prop := ∀ s, ensures m s (λ _ s', frame (s_update s) (s_update s')).

Lemma keeps_ret {A} (a : A) : keeps (mret a).
Proof. intros s. apply st_frame_refl. Qed.
Lemma keeps_bind {A B} (m : AM A) (f : A → AM B) : keeps m → (∀ a, keeps (f a)) → keeps (m ≫= f).
Proof. intros Hm Hf s. eapply ensures_bind; [apply Hm|]. intros a s1 F1. eapply ensures_mono; [apply Hf|]. intros b s2 F2. eapply st_frame_trans; [exact F1|exact F2]. Qed.
Lemma keeps_gets {A} (f : State → A) : keeps (gets f).
Proof. intros s. apply st_frame_refl. Qed.
Lemma keeps_modify f : (∀ s : State, s_update (f s) = s_update s) → keeps (modify f).
Proof. intros Hf s. apply e_modify. rewrite Hf. apply st_frame_refl. Qed.
Lemma keeps_write f : (∀ u u', f u = Some u' → frame u u') → keeps (write f).
Proof. intros Hf s. apply e_write. intros u Hu. by apply Hf. Qed.
Lemma keeps_read {A} (f : U → option (StorageError + A)) : keeps (read f).
Proof. intros s. apply e_read. intros a _. apply st_frame_refl. Qed.
Lemma keeps_expect {A} (o : option A) : keeps (expect o).
Proof. intros s. apply e_expect. intros a _. apply st_frame_refl. Qed.
Lemma keeps_expect_bind {A B} (o : option A) (f : A → AM B) : (∀ a, o = Some a → keeps (f a)) → keeps (expect o ≫= f).
Proof. intros Hf s. apply ensures_expect. intros a Ha. by apply Hf. Qed.
Lemma keeps_safe {A} (r : Res IntegerOverflowError A) : keeps (safe r).
Proof. intros s. apply e_safe. intros a _. apply st_frame_refl. Qed.
Lemma keeps_throw {A} e : keeps (throw e : AM A).
Proof. by intros s. Qed.
Lemma keeps_panic {A} : keeps (panic : AM A).
Proof. by intros s. Qed.
Lemma keeps_on_update {A} (m : M U StorageError A) : (∀ u, ensures m u (λ _ u', frame u u')) → keeps (on_update m).
Proof. intros Hm s. apply e_on_update. eapply ensures_mono; [apply Hm|]. by intros a u. Qed.
End frame_rules.

Create HintDb keeps.
#[export] Hint Resolve keeps_ret keeps_gets keeps_read keeps_expect keeps_safe keeps_throw keeps_panic : keeps.
#[export] Hint Extern 1 (keeps _ _ _ _ _ (modify _)) => apply keeps_modify; done : keeps.

(** The frame of a composed action, from the frames of its parts. *)
Ltac keep :=
  repeat (intros; first
    [ solve [eauto 2 with keeps] | apply keeps_modify; done
    | match goal with
      | |- keeps _ _ _ _ _ (expect _ ≫= _) => apply keeps_expect_bind
      | |- keeps _ _ _ _ _ (_ ≫= _) => apply keeps_bind
      | |- keeps _ _ _ _ _ (let _ := _ in _) => cbv zeta
      | |- keeps _ _ _ _ _ (if ?b then _ else _) => destruct b
      | |- keeps _ _ _ _ _ (match ?x with _ => _ end) => destruct x
      | |- keeps _ _ _ _ _ (let '(_, _) := ?x in _) => destruct x
      end ]); intros.

(** * Receipts that wait *)

(** The keys of data and of receipts that wait for each other. *)
Definition mail_key {AccountId} (k : TrieKey AccountId) : Prop :=
  match k with
  | TrieKey.ReceivedData _ d | PostponedReceiptId _ d | PendingDataCount _ d | PostponedReceipt _ d | PromiseYieldReceipt _ d => length d = 32%nat
  | _ => False
  end.

Lemma mail_not_exec {AccountId} (id : AccountId) k : mail_key k → ¬ exec_key id k.
Proof. intros Hm He. repeat destruct He as [He|He]; subst; try done; by destruct He as [? ->]. Qed.

Section sink.
Context {AccountId StorageError U K : Type} `{RStore : RuntimeStore AccountId StorageError U}.
Context (key_ok : TrieKey AccountId → Prop) (st_view : U → TrieKey AccountId → option (list Z)) (st_trie_view : U → Base (TrieKey AccountId)).
Context (forward : Receipt AccountId → M (K * U) (RuntimeError StorageError) ()).

(** The mail is as it was. *)
Definition mail_same (u u' : U) : Prop := st_trie_view u' = st_trie_view u ∧ ∀ k, key_ok k → mail_key k → same_at st_view u u' k.

(** A sink for new receipts keeps to keys of its own. *)
Class SinkFrame : Prop := sink_frame r t : ensures (forward r) t (λ _ t', mail_same t.2 t'.2).

Lemma mail_same_refl u : mail_same u u.
Proof. by split. Qed.
Lemma mail_same_trans u1 u2 u3 : mail_same u1 u2 → mail_same u2 u3 → mail_same u1 u3.
Proof. intros [B1 S1] [B2 S2]. split; [congruence|]. intros k Hk Hm. eapply same_at_trans; [by apply S1|by apply S2]. Qed.

Lemma mail_same_set `{!ContainsKeyOk key_ok st_view st_trie_view} k v u u' : (∀ k' : TrieKey AccountId, mail_key k' → column_of k ≠ column_of k') → st_set k v u = Some u' → mail_same u u'.
Proof. intros Hc Hs. destruct (ck_set_apart key_ok st_view st_trie_view _ _ _ _ Hs) as [B S]. split; [done|]. intros k' Hk' Hm. apply S; [done|]. right. by apply Hc. Qed.

Lemma mail_same_remove `{!ContainsKeyOk key_ok st_view st_trie_view} k u u' : (∀ k' : TrieKey AccountId, mail_key k' → column_of k ≠ column_of k') → st_remove k u = Some u' → mail_same u u'.
Proof. intros Hc Hs. destruct (ck_remove_apart key_ok st_view st_trie_view _ _ _ Hs) as [B S]. split; [done|]. intros k' Hk' Hm. apply S; [done|]. right. by apply Hc. Qed.
End sink.

(** * Actions *)

Section actions.
Context {AccountId StorageError U CallError : Type} `{!EqDecision AccountId} `{Store : !StateStore (TrieKey AccountId) StorageError U} `{RStore : !RuntimeStore AccountId StorageError U}.
Context `{!Borsh AccountId} `{!Borsh AccessKey} `{!Borsh PromiseYieldIndices} `{!Borsh (PromiseYieldTimeout AccountId)} `{!Borsh (DelegateAction AccountId (Action AccountId))}.
Context `{TheVm : !Vm AccountId StorageError U CallError}.
Context (as_bytes : AccountId → bytes) (get_account_type : AccountId → AccountType) (is_top_level : AccountId → bool) (is_sub_account_of : AccountId → AccountId → bool).
Context (system : AccountId) (hash : bytes → bytes) (verify : bytes → bytes → PublicKey → bool) (hex_decode : bytes → option bytes).
Context (wallet_magic_bytes : Code) (wallet_contract : bytes → option Code) (minimum_stake : bytes → EpochError + Z).
Context (apply_state : ApplyState AccountId).
Context (key_ok : TrieKey AccountId → Prop) (st_view st_saved : U → TrieKey AccountId → option (list Z)) (st_trie_view : U → Base (TrieKey AccountId)).
Context `{StoreOk : !RuntimeStoreOk AccountId StorageError U key_ok st_view st_saved st_trie_view}.
Context `{TheVmOk : !VmOk as_bytes get_account_type key_ok st_view st_saved st_trie_view (cfg_wasm (apply_config apply_state))}.
Context (as_bytes_inj : Inj (=) (=) as_bytes).
Context (account_keys_ok : ∀ id, key_ok (TrieKey.Account id) ∧ key_ok (ContractCode id)) (access_keys_ok : ∀ id pk, public_key_ok pk → key_ok (TrieKey.AccessKey id pk)).
Context (yield_keys_ok : key_ok TrieKey.PromiseYieldIndices ∧ ∀ i, in_u 64 i → key_ok (TrieKey.PromiseYieldTimeout i)).
Context (yield_indices_fit : ∀ data (i : PromiseYieldIndices) rest, borsh_decode data = Some (i, rest) → in_u 64 (yield_next_available_index i)).

Abbreviation Rcpt := (Receipt AccountId).
Abbreviation State := (ActionState (AccountId := AccountId) (U := U) (CallError := CallError)).
Abbreviation AM := (M State (RuntimeError StorageError)).
Abbreviation frame := (st_frame key_ok st_view st_saved st_trie_view).

Section account.
Context (id : AccountId).
Abbreviation keeps := (keeps (CallError := CallError) (StorageError := StorageError) key_ok st_view st_saved st_trie_view (exec_key id)).

(** ** Writes *)

Lemma set_exec_frame k v u u' : key_ok k → exec_key id k → st_set k v u = Some u' → frame (exec_key id) u u'.
Proof. intros Hk He Hs. eapply frame_weaken; [|by eapply rs_set_frame]. by intros ? <-. Qed.

Lemma remove_exec_frame k u u' : key_ok k → exec_key id k → st_remove k u = Some u' → frame (exec_key id) u u'.
Proof. intros Hk He Hs. eapply frame_weaken; [|by eapply rs_remove_frame]. by intros ? <-. Qed.

Lemma keeps_set_access_key pk k : public_key_ok pk → keeps (write (set_access_key id pk k)).
Proof. intros Hpk. apply keeps_write. intros u u'. apply set_exec_frame; [by apply access_keys_ok|apply access_exec_key]. Qed.

Lemma keeps_remove_access_key pk : public_key_ok pk → keeps (write (remove_access_key id pk)).
Proof. intros Hpk. apply keeps_write. intros u u'. apply remove_exec_frame; [by apply access_keys_ok|apply access_exec_key]. Qed.

Lemma keeps_set_code c : keeps (write (rs_set_code id c)).
Proof. apply keeps_write. intros u u'. rewrite rs_set_code_ok. apply set_exec_frame; [apply account_keys_ok|apply code_exec_key]. Qed.

Lemma keeps_remove_code : keeps (write (st_remove (ContractCode id))).
Proof. apply keeps_write. intros u u'. apply remove_exec_frame; [apply account_keys_ok|apply code_exec_key]. Qed.

Lemma keeps_set_account a : keeps (write (set_account id a)).
Proof. apply keeps_write. intros u u'. apply set_exec_frame; [apply account_keys_ok|left; by left]. Qed.

Lemma keeps_record_deploy c : keeps (write (rs_record_contract_deploy c)).
Proof. apply keeps_write. intros u u' H. eapply frame_weaken; [|by eapply rs_deploy_ok]. done. Qed.

Lemma keeps_write_timeouts l : keeps (write (write_timeouts apply_state id l)).
Proof.
  apply keeps_write. intros u u' H. eapply frame_weaken; [|by eapply write_timeouts_frame]. intros k Hk. by right.
Qed.

Lemma keeps_remove_account : keeps (on_update (rs_remove_account id)).
Proof. apply keeps_on_update. intros u. eapply ensures_mono; [apply rs_remove_account_ok|]. intros [] u' [F _]. eapply frame_weaken; [|exact F]. intros k Hk. by left. Qed.

#[local] Hint Resolve keeps_set_code keeps_remove_code keeps_set_account keeps_record_deploy keeps_write_timeouts keeps_remove_account : keeps.

Lemma keeps_get_acct : keeps get_acct.
Proof. unfold get_acct. keep. Qed.
#[local] Hint Resolve keeps_get_acct : keeps.

(** ** Actions *)

Lemma keeps_code_len h : keeps (get_code_len_or_default apply_state id h).
Proof. unfold get_code_len_or_default. keep. Qed.
#[local] Hint Resolve keeps_code_len : keeps.

Lemma keeps_clear : keeps (clear_account_contract_storage_usage as_bytes apply_state id).
Proof. unfold clear_account_contract_storage_usage, put_acct. keep. Qed.

Lemma keeps_add_storage n : keeps (add_storage_usage n).
Proof. unfold add_storage_usage, put_acct, inconsistent. keep. Qed.
#[local] Hint Resolve keeps_clear keeps_add_storage : keeps.

Lemma keeps_create predecessor : keeps (action_create_account as_bytes is_top_level is_sub_account_of apply_state id predecessor).
Proof. unfold action_create_account, put_acct, fail, modify_result. keep. Qed.

Lemma keeps_deploy raw : keeps (action_deploy_contract as_bytes hash apply_state id raw).
Proof. unfold action_deploy_contract, put_acct. keep. Qed.

Lemma keeps_transfer_or_create deposit is_refund ar (r : Rcpt) : Receipt.receiver_id r = id → public_key_ok (signer_public_key ar) →
  keeps (action_transfer_or_implicit_account_creation as_bytes get_account_type hex_decode wallet_magic_bytes wallet_contract apply_state deposit is_refund ar r).
Proof.
  intros Hid Hpk. unfold action_transfer_or_implicit_account_creation, action_transfer, try_refund_allowance, action_implicit_account_creation_transfer, put_acct, inconsistent. rewrite Hid.
  keep.
  - by apply keeps_set_access_key.
  - apply keeps_set_access_key. eapply implicit_key_ok; eassumption.
Qed.

Lemma keeps_stake stake pk : keeps (action_stake minimum_stake apply_state id stake pk).
Proof. unfold action_stake, put_acct, fail, modify_result. keep. Qed.

Lemma keeps_add_key pk k : public_key_ok pk → keeps (action_add_key apply_state id pk k).
Proof. intros Hpk. unfold action_add_key, fail, modify_result. keep. by apply keeps_set_access_key. Qed.

Lemma keeps_delete_key pk : public_key_ok pk → keeps (action_delete_key apply_state id pk).
Proof. intros Hpk. unfold action_delete_key, fail, modify_result, put_acct. keep. by apply keeps_remove_access_key. Qed.

Lemma keeps_delete_account predecessor beneficiary : keeps (action_delete_account system apply_state predecessor id beneficiary).
Proof. unfold action_delete_account, fail, modify_result, push_receipt. keep. Qed.

Lemma keeps_delegate ar (signed : SignedDelegateAction AccountId (Action AccountId)) : public_key_ok (delegate_public_key (delegate_action signed)) →
  keeps (apply_delegate_action as_bytes get_account_type hash verify apply_state ar id signed).
Proof.
  intros Hpk. unfold apply_delegate_action, validate_delegate_action_key, fail, modify_result, push_receipt, receipt_required_gas, add_gas_used, add_gas_burnt, add_compute_usage.
  destruct (verify_delegate _ _ _); cbn [negb]; [|by keep]. destruct (_ <? _); [by keep|]. case_bool_decide as He; cbn [negb]; [|by keep].
  apply as_bytes_inj in He. rewrite He. keep. by apply keeps_set_access_key.
Qed.

Lemma keeps_deploy_global raw mode : keeps (action_deploy_global_contract system hash apply_state id raw mode).
Proof. unfold action_deploy_global_contract, initiate_distribution, fail, modify_result, push_receipt, put_acct. keep. Qed.

Lemma keeps_use_global i : keeps (action_use_global_contract as_bytes apply_state id i).
Proof. unfold action_use_global_contract, fail, modify_result, put_acct. keep. Qed.

(** ** Function calls *)

Lemma execute_call_frame c ext predecessor ar results args gas deposit last u :
  ensures (execute_function_call as_bytes hash apply_state c ext predecessor ar results args gas deposit last false : M _ (RuntimeError StorageError) _) (u, default_manager)
    (λ _ s', frame (λ k, ∃ key, k = ContractData (ext_account_id ext) key) u s'.1).
Proof.
  unfold ensures, execute_function_call. set (ctx := mkVMContext _ _ _ _ _ _ _ _ _ _ _ _ _ _ _ _ _).
  pose proof (vm_run_ok as_bytes get_account_type key_ok st_view st_saved st_trie_view (VmOk := TheVmOk) c ext ctx (cfg_fees (apply_config apply_state)) u) as Hrun.
  destruct (vm_run c ext ctx _ (u, default_manager)) as [o [u' m]|e [u' m]| |]; [destruct Hrun as [Hf _]|by destruct e|done|done].
  unfold zoom, mbind, M_bind. cbn [fst snd]. destruct (distribute_gas _ _ _) as [x m'| | |]; [|done..]. unfold run_res. by destruct (safe_add_gas _ _).
Qed.

Lemma keeps_function_call r ar results args gas deposit action_hash code_hash last c :
  keeps (action_function_call as_bytes hash apply_state r ar results id args gas deposit action_hash code_hash last c).
Proof.
  unfold action_function_call, add_gas_used, add_gas_burnt, add_compute_usage, inconsistent, fail, modify_result, put_acct. apply keeps_bind; [keep|]. intros account.
  destruct (checked_add _ _ _); [|keep]. intros s. apply ensures_seq, e_read. intros u Hc. apply ensures_seq, e_modify.
  apply (ensures_mono _ _ (λ _ s', frame (exec_key id) (s_update (set_update u s)) (s_update s'))); [|intros [] s' F; eapply st_frame_trans; [eapply frame_weaken; [|by eapply rs_call_ok]; done|exact F]].
  generalize (set_update u s). clear Hc. match goal with |- ∀ s, ensures ?m s _ => change (keeps m) end. apply keeps_bind; [|keep].
  intros s1. pose proof (execute_call_frame c (mkRuntimeExt id account action_hash (block_height apply_state) (current_protocol_version apply_state)) (predecessor_id r) ar results args gas deposit last (s_update s1)) as Hx.
  unfold ensures in *. destruct (execute_function_call _ _ _ _ _ _ _ _ _ _ _ _ _ _) as [o [u1 m]|? []| |]; [|done..]. eapply frame_weaken; [|exact Hx].
  intros k [key ->]. left. right. right. right. by eexists.
Qed.

Lemma keeps_action a r ar results action_hash i n : Receipt.receiver_id r = id → public_key_ok (signer_public_key ar) → action_fits a →
  keeps (apply_action as_bytes get_account_type is_top_level is_sub_account_of system hash verify hex_decode wallet_magic_bytes wallet_contract minimum_stake apply_state a r ar results action_hash i n).
Proof.
  intros Hid Hpk Ha. unfold apply_action, fail, modify_result. rewrite Hid. do 3 (apply keeps_bind; [by keep|]; intros ?). destruct (check_account_existence _ _ _ _ _ _) as [|[]]; [by keep|].
  apply keeps_bind; [by keep|]. intros actor_id. apply keeps_bind; [by keep|]. intros [|[]]; [by keep|].
  destruct a; [apply keeps_create|apply keeps_deploy| |by apply keeps_transfer_or_create|apply keeps_stake|by apply keeps_add_key|by apply keeps_delete_key|apply keeps_delete_account|by apply keeps_delegate|
    apply keeps_deploy_global|apply keeps_use_global].
  keep. apply keeps_function_call.
Qed.
End account.

(** * Receipts *)

Context {K : Type} `{!Borsh ReceivedData} `{!Borsh (ReceiptEnum AccountId)} (from_str : bytes → option AccountId) (is_valid_staking_key : PublicKey → bool).
Context `{!StateStoreOk (TrieKey AccountId) StorageError U key_ok st_view st_trie_view} `{!ContainsKeyOk key_ok st_view st_trie_view}.
Context (received_keys_ok : ∀ id d, length d = 32%nat → key_ok (TrieKey.ReceivedData id d)).
Abbreviation Rt := (RtState (AccountId := AccountId) (U := U) (K := K)).
Abbreviation RtM := (M Rt (RuntimeError StorageError)).
Abbreviation execute_actions := (execute_actions as_bytes from_str get_account_type is_top_level is_sub_account_of system hash verify hex_decode is_valid_staking_key wallet_magic_bytes wallet_contract minimum_stake (K := K) apply_state).

Section receipt.
Context (r : Rcpt) (ar : ActionReceipt AccountId).
Abbreviation id := (Receipt.receiver_id r).
Context (signer_key_ok : public_key_ok (signer_public_key ar)) (actions_fit : Forall action_fits (receipt_actions ar)) (ids_ok : Forall (λ d, length d = 32%nat) (input_data_ids ar)).
Abbreviation keeps := (keeps (CallError := CallError) (StorageError := StorageError) key_ok st_view st_saved st_trie_view (exec_key id)).

Lemma keeps_run results n l : Forall action_fits l → ∀ i res,
  keeps (run_actions as_bytes from_str get_account_type is_top_level is_sub_account_of system hash verify hex_decode is_valid_staking_key wallet_magic_bytes wallet_contract minimum_stake apply_state r ar results n l i res).
Proof.
  induction 1 as [|a l Ha _ IH]; intros i res; cbn [run_actions]; [keep|]. apply keeps_bind; [by apply keeps_action|]. intros []. unfold validated_result. keep.
Qed.

Lemma keeps_check_storage res : keeps (check_storage apply_state id res).
Proof. unfold check_storage. keep. apply keeps_set_account. Qed.

Lemma execute_frame results s : ensures (execute_actions r ar results : RtM _) s (λ _ s', frame (exec_key id) (rt_update s) (rt_update s')).
Proof.
  unfold execute_actions. rstep. rstep. apply ensures_zoom. refine ((_ : keeps _) (mkActionState _ _ _ _ _)).
  apply keeps_bind; [by apply keeps_run|]. intros res. apply keeps_check_storage.
Qed.

Abbreviation view := (λ s k, st_view (rt_update s) k).
Abbreviation base := (λ s, st_trie_view (rt_update s)).

(** The data that the receipt takes. *)
Definition taken (k : TrieKey AccountId) : Prop := ∃ d, d ∈ input_data_ids ar ∧ k = TrieKey.ReceivedData id d.

(** What the execution of the receipt did to the mail of [u]: its data is gone. *)
Record took (u u' : U) : Prop := {
  took_base : st_trie_view u' = st_trie_view u;
  took_data k : taken k → st_view u' k = None;
  took_other k : key_ok k → mail_key k → ¬ taken k → st_view u' k = st_view u k
}.

Definition settled (u : U) : Prop := ∀ k, key_ok k → mail_key k → contains_exact st_view u k.

Lemma remove_view k u u' : key_ok k → st_remove k u = Some u' → st_trie_view u' = st_trie_view u ∧ ∀ k', key_ok k' → st_view u' k' = if decide (k' = k) then None else st_view u k'.
Proof. intros Hk Hr. destruct (st_remove_ok u k Hk) as (u1 & H1 & ? & ?). rewrite Hr in H1. by injection H1 as <-. Qed.

Lemma collect_view ids : Forall (λ d, length d = 32%nat) ids → ∀ s, ensures (collect_input id ids : RtM (list PromiseResult)) s (λ _ s', base s' = base s ∧
  ∀ k, key_ok k → (∀ d, d ∈ ids → k = TrieKey.ReceivedData id d → view s' k = None) ∧ ((∀ d, d ∈ ids → k ≠ TrieKey.ReceivedData id d) → view s' k = view s k)).
Proof.
  induction 1 as [|d ids Hd _ IH]; intros s; cbn [collect_input]; [rstep; split; [done|]; intros k Hk; split; [by intros d ?%not_elem_of_nil|done]|].
  rstep. rstep. destruct a as [[data]|]; [|rstep]. rstep. rstep. match goal with H : st_remove _ _ = Some _ |- _ => apply remove_view in H as [B V]; [|by apply received_keys_ok] end.
  rstep. eapply ensures_mono; [apply IH|]. intros l s' (B' & V'). rstep. cbn in *. split; [congruence|]. intros k Hk. destruct (V' k Hk) as [N' O']. split.
  - intros d' [->|Hd']%elem_of_cons ->; [|by eapply N']. destruct (decide (d ∈ ids)) as [Hin|Hin]; [by eapply N'|]. rewrite O' by (intros d' ? [= ->]; done). rewrite (V _ Hk). by rewrite decide_True.
  - intros Hn. rewrite O' by (intros d' ?; apply Hn; by right). rewrite (V _ Hk), decide_False; [done|]. apply Hn. by left.
Qed.

(** ** Steps that leave the state alone *)

Lemma settle_same res s : ensures (settle_refunds (CallError := CallError) as_bytes get_account_type system apply_state r ar res : RtM _) s (λ _ s', rt_update s' = rt_update s).
Proof.
  unfold settle_refunds. destruct (is_system _ _); [|by rstep]. rstep. destruct (result_ok res); repeat rstep; [done|]. unfold add_other_burnt. by repeat rstep.
Qed.

Context (forward : Rcpt → M (K * U) (RuntimeError StorageError) ()) `{Frame : !SinkFrame key_ok st_view st_trie_view forward}.

Lemma send_same parent l : ∀ i s, ensures (send_receipts hash forward apply_state parent l i : RtM (list bytes)) s (λ _ s', mail_same key_ok st_view st_trie_view (rt_update s) (rt_update s')).
Proof.
  induction l as [|r' l IH]; intros i s; cbn [send_receipts]; rstep; [apply mail_same_refl|]. apply ensures_zoom. eapply ensures_mono; [apply (sink_frame key_ok st_view st_trie_view forward)|].
  intros [] [k u] F. rstep. eapply ensures_mono; [apply IH|]. intros ids s' F'. rstep. eapply mail_same_trans; [exact F|exact F'].
Qed.

Lemma reward_same reward burnt s : settled (rt_update s) → ensures (pay_reward r reward burnt : RtM Z) s (λ _ s', base s' = base s ∧ settled (rt_update s') ∧ ∀ k, key_ok k → mail_key k → view s' k = view s k).
Proof.
  intros Hs. unfold pay_reward. destruct (0 <? reward); [|by rstep]. rstep. rstep. destruct a as [a|]; [|by rstep]. repeat rstep. cbn.
  match goal with H : set_account _ _ _ = Some _, H' : rs_commit _ _ = Some _ |- _ => 
    pose proof (rs_set_frame _ _ _ _ (proj1 (account_keys_ok id)) H) as [B _ V]; pose proof (rs_commit_ok _ _ _ H') as (B' & V' & _); rename H' into Hc end. cbn in *.
  split_and!; [congruence|by intros k Hk _; eapply ck_commit|]. intros k Hk Hm. rewrite V'. apply V; [done|]. intros <-. done.
Qed.

Abbreviation apply_receipt_actions := (apply_receipt_actions as_bytes from_str get_account_type is_top_level is_sub_account_of system hash verify hex_decode is_valid_staking_key wallet_magic_bytes wallet_contract minimum_stake forward apply_state).

(** The actions have run and the state was committed or rolled back. *)
Lemma finish_took (s s1 s3 : Rt) u2 : base s1 = base s →
  (∀ k, key_ok k → (∀ d, d ∈ input_data_ids ar → k = TrieKey.ReceivedData id d → view s1 k = None) ∧ ((∀ d, d ∈ input_data_ids ar → k ≠ TrieKey.ReceivedData id d) → view s1 k = view s k)) →
  st_trie_view u2 = base s1 → (∀ k, st_view u2 k = view s1 k) → (∀ k, st_saved u2 k = view s1 k) → frame (exec_key id) u2 (rt_update s3) → ∀ u (ok : bool) c, (if ok then rs_commit c else rs_rollback) (rt_update s3) = Some u →
  took (rt_update s) u ∧ settled u.
Proof.
  intros B1 V1 B2 V2 W2 [B3 W3 V3] u ok c Hu.
  assert (st_trie_view u = base s3 ∧ (∀ k, key_ok k → mail_key k → st_view u k = view s1 k) ∧ settled u) as (B4 & V4 & S4).
  { destruct ok.
    - destruct (rs_commit_ok _ _ _ Hu) as (B4 & V4 & _). split_and!; [done| |intros k Hk _; by eapply ck_commit]. intros k Hk Hm. rewrite V4, V3, V2; [done..|by apply mail_not_exec].
    - destruct (rs_rollback_ok _ _ Hu) as (B4 & V4 & _). split_and!; [done| |intros k Hk _; by eapply ck_rollback]. intros k Hk Hm. by rewrite V4, W3, W2. }
  split; [|done]. split; [congruence| |].
  - intros k (d & Hd & ->). assert (length d = 32%nat) as Hl by by eapply Forall_forall in ids_ok. pose proof (received_keys_ok id d Hl) as Hk. rewrite V4 by done. by eapply (V1 _ Hk).
  - intros k Hk Hm Hn. rewrite V4 by done. apply (V1 _ Hk). intros d Hd ->. apply Hn. by exists d.
Qed.

Lemma took_same u u1 u' : took u u1 → st_trie_view u' = st_trie_view u1 → (∀ k, key_ok k → mail_key k → st_view u' k = st_view u1 k) → took u u'.
Proof.
  intros [B D O] B' V'. split; [congruence| |intros k Hk Hm Hn; rewrite V' by done; by apply O]. intros k Ht. rewrite V'; [by apply D|..]; destruct Ht as (d & Hd & ->); eapply Forall_forall in ids_ok; eauto.
Qed.

(** A receipt that was executed took its data, and left the rest of the mail. *)
Lemma apply_took s : ensures (apply_receipt_actions r ar : RtM _) s (λ o s', outcome_id o = receipt_id r ∧ took (rt_update s) (rt_update s') ∧ settled (rt_update s')).
Proof.
  unfold ApplyReceipt.apply_receipt_actions. rstep. eapply ensures_mono; [by apply collect_view|]. intros results s1 [B1 V1]. rstep. rstep.
  match goal with H : rs_commit _ _ = Some _ |- _ => apply rs_commit_ok in H as (B2 & V2 & W2) end.
  rstep. eapply ensures_mono; [apply execute_frame|]. intros res s3 F3. cbn [rt_update set_rt_update] in F3. rstep. eapply ensures_mono; [apply settle_same|]. intros [refund res'] s4 E4.
  unfold add_gas_deficit. do 7 rstep. rewrite <-E4 in F3.
  assert (Hf : ∀ s5, rt_update s5 = rt_update s4 → ensures ((if result_ok res' then rt_commit (ReceiptProcessing (receipt_id r)) else rt_write rs_rollback) : RtM ()) s5
    (λ _ s6, took (rt_update s) (rt_update s6) ∧ settled (rt_update s6))).
  { intros s5 E5. apply ensures_intro. intros [] s6 H6. eapply (finish_took s s1 s4 _ B1 V1 B2 V2 W2 F3 _ (result_ok res') (ReceiptProcessing (receipt_id r))).
    destruct (result_ok res'); unfold rt_commit, rt_write in H6; rewrite E5 in H6; [destruct (rs_commit _ _)|destruct (rs_rollback _)]; try done; by injection H6 as <-. }
  repeat rstep. eapply ensures_mono; [apply Hf; done|]. intros [] s6 [T6 S6]. do 4 rstep. rstep. eapply ensures_mono; [by apply reward_same|]. intros tx s7 (B7 & S7 & V7).
  unfold add_tx_burnt. do 9 rstep. eapply ensures_mono; [apply send_same|]. intros ids s8 [B8 V8]. cbn [rt_update set_rt_stats] in *. rstep. cbn [outcome_id]. split_and!; [done| |].
  - eapply took_same; [exact T6|congruence|]. intros k Hk Hm. rewrite (proj1 (V8 k Hk Hm)). by apply V7.
  - intros k Hk Hm. eapply same_at_exact; [by apply V8|by apply S7].
Qed.
End receipt.
End actions.
