(* ===== verification/ProcessReceipt.v ===== *)
(** The processing of one receipt (runtime/runtime/src/lib.rs, [process_receipt]): data is kept for the receipts that wait for it, an action receipt
    is postponed until all its data is there, a receipt that yields waits to be resumed, and the code of a
    global contract is stored and sent on to the next shard (runtime/runtime/src/global_contracts.rs).

    The cache of compiled contracts is outside: the result of [precompile_contract] is ignored by the code. *)

From stdpp Require Import sorting.
From S2P Require Import Prelude Errors Borsh Costs ShardLayout TrieKey StateUpdate TrieQueue Fees Receipt ReceiptManager Account StoreUtils Verifier Transaction ReceiptQueues ProcessTransactions RuntimeStore Actions ApplyReceipt.
Local Open Scope Z_scope.

(** A hash in the state: its 32 bytes. *)
Definition hash_borsh : Borsh bytes := {| borsh_encode h := h; borsh_decode := read_bytes 32 |}.

Lemma hash_borsh_ok : @BorshOk bytes hash_borsh (λ h, length h = 32%nat).
Proof.
  intros h rest Hh. cbn [borsh_encode borsh_decode hash_borsh]. unfold read_bytes. rewrite (proj2 (Nat.ltb_ge _ _)) by (rewrite length_app; lia).
  by rewrite take_app_length', drop_app_length'.
Qed.

(** * The distribution of global contracts *)

Section distribution.
Context {AccountId : Type}.
Abbreviation Distribution := (GlobalContractDistributionReceipt AccountId).

(** A [BTreeSet] of the shards, in order. *)
Definition delivered_shards (shard_id : Z) (g : Distribution) : list Z := merge_sort Z.le (remove_dups (already_delivered_shards g ++ [shard_id])).

Definition next_shard (ids : list Z) (delivered : list Z) : option Z := head (filter (λ shard, shard ∉ delivered) ids).

(** The distribution that is sent on from a shard, if one is left. *)
Definition next_distribution (ids : list Z) (shard_id : Z) (g : Distribution) : option Distribution :=
  let delivered := delivered_shards shard_id g in
  shard ← next_shard ids delivered;
  Some (mkDistribution (contract_id g) shard delivered (contract_code g)).

(** The way of a distribution through the shards; each is processed by its target shard.  [None] if there is no end after [fuel] shards. *)
Fixpoint distribution_path (ids : list Z) (fuel : nat) (g : Distribution) : option (list Distribution) :=
  match fuel with
  | O => None
  | S fuel =>
      match next_distribution ids (target_shard g) g with
      | None => Some [g]
      | Some next => path ← distribution_path ids fuel next; Some (g :: path)
      end
  end.

Lemma elem_of_delivered shard shard_id g : shard ∈ delivered_shards shard_id g ↔ shard ∈ already_delivered_shards g ∨ shard = shard_id.
Proof. unfold delivered_shards. by rewrite merge_sort_Permutation, elem_of_remove_dups, elem_of_app, list_elem_of_singleton. Qed.

(** The shards that are left. *)
Abbreviation remaining ids g := (filter (λ shard, shard ∉ already_delivered_shards g) ids).

Lemma remaining_next ids g : NoDup ids → target_shard g ∈ remaining ids g →
  remaining ids g ≡ₚ target_shard g :: filter (λ shard, shard ∉ delivered_shards (target_shard g) g) ids.
Proof.
  intros Hn [Hd Hin]%list_elem_of_filter. apply list_elem_of_lookup in Hin as [i Hi]. eapply filter_one_more; [exact Hi|done| |].
  - intros H. apply H, elem_of_delivered. by right.
  - intros j x Hj Hne. rewrite elem_of_delivered. assert (x ≠ target_shard g) by (intros ->; apply Hne; by eapply NoDup_lookup). naive_solver.
Qed.

Lemma distribution_path_ok ids : NoDup ids → ∀ n g, target_shard g ∈ remaining ids g → length (remaining ids g) = n →
  ∃ path, distribution_path ids n g = Some path ∧ target_shard <$> path ≡ₚ remaining ids g ∧ Forall (λ g', contract_id g' = contract_id g ∧ contract_code g' = contract_code g) path.
Proof.
  intros Hn. induction n as [|n IH]; intros g Ht Hlen; pose proof (remaining_next ids g Hn Ht) as Hp; rewrite Hp in Hlen; [done|]. injection Hlen as Hlen. cbn [distribution_path].
  unfold next_distribution, next_shard. destruct (filter (λ shard, shard ∉ delivered_shards (target_shard g) g) ids) as [|t rest] eqn:Hf; cbn [head mbind option_bind].
  - exists [g]. split_and!; [done|by rewrite Hp|by repeat constructor].
  - set (next := mkDistribution (contract_id g) t (delivered_shards (target_shard g) g) (contract_code g)). assert (remaining ids next = t :: rest) as Hr by done.
    destruct (IH next) as (path & -> & Hpath & Hc); [rewrite Hr; by left|by rewrite Hr|]. exists (g :: path). split_and!; [done| |by constructor].
    cbn [fmap list_fmap]. by rewrite Hpath, Hr, Hp.
Qed.

(** C27: A global contract reaches every shard once.  The distribution that a deployment starts on a shard of the layout, forwarded from shard to shard, visits each shard of the layout
    exactly once and then ends, and carries the same code all the way. *)
Theorem distribution_reaches_every_shard ids shard (id : GlobalContractIdentifier AccountId) code : NoDup ids → shard ∈ ids →
  ∃ path, distribution_path ids (length ids) (mkDistribution id shard [] code) = Some path ∧ target_shard <$> path ≡ₚ ids ∧ Forall (λ g, contract_id g = id ∧ contract_code g = code) path.
Proof.
  intros Hn Hs. assert (remaining ids (mkDistribution id shard [] code) = ids) as Hr by (apply filter_all_elem; intros; apply not_elem_of_nil).
  destruct (distribution_path_ok ids Hn (length ids) (mkDistribution id shard [] code)) as (path & Hp & Hperm & Hc); [by rewrite Hr|by rewrite Hr|]. exists path. by rewrite Hr in Hperm.
Qed.
End distribution.

(** Three shards, starting in the middle. *)
Lemma distribution_reaches_every_shard_witness : ∃ path, distribution_path (AccountId := bool) [0; 1; 2] 3 (mkDistribution (ContractAccountId true) 1 [] [7]) = Some path ∧ target_shard <$> path = [1; 0; 2].
Proof.
  destruct (distribution_reaches_every_shard [0; 1; 2] 1 (ContractAccountId true) [7]) as (path & Hp & _); [by apply NoDup_ListNoDup; repeat constructor; set_solver|set_solver|].
  exists path. split; [exact Hp|]. vm_compute in Hp. by injection Hp as <-.
Defined.

(** * Receipts *)

Section process.
Context {AccountId StorageError U CallError K : Type} `{!EqDecision AccountId} `{Store : !StateStore (TrieKey AccountId) StorageError U} `{RStore : !RuntimeStore AccountId StorageError U}.
Context `{!Borsh AccountId} `{!Borsh AccessKey} `{!Borsh PromiseYieldIndices} `{!Borsh (PromiseYieldTimeout AccountId)} `{!Borsh (DelegateAction AccountId (Action AccountId))}.
Context `{!Borsh ReceivedData} `{!Borsh (ReceiptEnum AccountId)} `{TheVm : !Vm AccountId StorageError U CallError}.
Context (as_bytes : AccountId → bytes) (from_str : bytes → option AccountId) (get_account_type : AccountId → AccountType) (is_top_level : AccountId → bool) (is_sub_account_of : AccountId → AccountId → bool).
Context (system : AccountId) (hash : bytes → bytes) (verify : bytes → bytes → PublicKey → bool) (hex_decode : bytes → option bytes) (is_valid_staking_key : PublicKey → bool).
Context (wallet_magic_bytes : Code) (wallet_contract : bytes → option Code) (minimum_stake : bytes → EpochError + Z) (epoch_shard_layout : EpochError + ShardLayout (AccountId := AccountId)).
Context (forward : Receipt AccountId → M (K * U) (RuntimeError StorageError) ()).
Context (apply_state : ApplyState AccountId).

Abbreviation Rcpt := (Receipt AccountId).
Abbreviation Error := (RuntimeError StorageError).
Abbreviation Rt := (RtState (AccountId := AccountId) (U := U) (K := K)).
Abbreviation RtM := (M Rt Error).
Abbreviation Outcome := (ExecutionOutcomeWithId AccountId CallError).
Abbreviation apply_action_receipt := (apply_action_receipt as_bytes from_str get_account_type is_top_level is_sub_account_of system hash verify hex_decode is_valid_staking_key wallet_magic_bytes wallet_contract minimum_stake forward apply_state).

Definition rt_inconsistent {A} : RtM A := throw (RtStorageError st_inconsistent).

(** ** Global contracts *)

Definition apply_distribution_current_shard (r : Rcpt) (g : GlobalContractDistributionReceipt AccountId) : RtM () :=
  _ ← rt_write (st_set (GlobalContractCode (code_identifier (contract_id g))) (contract_code g));
  rt_commit (ReceiptProcessing (receipt_id r)).

Definition forward_distribution_next_shard (r : Rcpt) (g : GlobalContractDistributionReceipt AccountId) : RtM () :=
  match epoch_shard_layout with
  | inl e => throw (from_epoch e)
  | inr layout =>
      match next_distribution (shard_ids layout) (shard_id apply_state) g with
      | Some next =>
          let next_receipt := new_global_contract_distribution system (predecessor_id r) next in
          rt_forward forward (set_receipt_id (create_receipt_id hash apply_state (receipt_id r) 0) next_receipt)
      | None => mret ()
      end
  end.

Definition apply_global_contract_distribution_receipt (r : Rcpt) : RtM () :=
  match receipt r with
  | GlobalContractDistribution g =>
      _ ← apply_distribution_current_shard r g;
      forward_distribution_next_shard r g
  | _ => panic
  end.

(** ** Postponed receipts *)

(** The [PostponedReceiptId]s and [PendingDataCount]s. *)
Definition get_postponed_receipt_id (account_id : AccountId) (data_id : bytes) : RtM (option bytes) :=
  rt_read (λ u, get_value (ValueBorsh := hash_borsh) (st_get u) (PostponedReceiptId account_id data_id)).
Definition set_postponed_receipt_id (account_id : AccountId) (data_id receipt_id : bytes) : RtM () :=
  rt_write (set_value (ValueBorsh := hash_borsh) (PostponedReceiptId account_id data_id) receipt_id).
Definition get_pending_data_count (account_id : AccountId) (receipt_id : bytes) : RtM (option Z) :=
  rt_read (λ u, get_value (ValueBorsh := borsh_uint 4) (st_get u) (PendingDataCount account_id receipt_id)).
Definition set_pending_data_count (account_id : AccountId) (receipt_id : bytes) (n : Z) : RtM () :=
  rt_write (set_value (ValueBorsh := borsh_uint 4) (PendingDataCount account_id receipt_id) n).

(** [state_update.commit] when nothing was executed. *)
Definition not_executed (r : Rcpt) : RtM (option Outcome) :=
  _ ← rt_commit (CausePostponedReceipt (receipt_id r));
  mret None.

Definition executed_now (r : Rcpt) : RtM (option Outcome) :=
  o ← apply_action_receipt r;
  mret (Some o).

(** The count of the receipt that waits for the data that was received. *)
Definition receive_pending (r : Rcpt) (account_id : AccountId) (data_id waiting_id : bytes) : RtM (option Outcome) :=
  _ ← rt_write (st_remove (PostponedReceiptId account_id data_id));
  count ← get_pending_data_count account_id waiting_id;
  match count with
  | None => rt_inconsistent
  | Some count =>
      if count =? 1 then
        _ ← rt_write (st_remove (PendingDataCount account_id waiting_id));
        ready ← rt_read (λ u, get_postponed_receipt (st_get u) account_id waiting_id);
        match ready with
        | None => rt_inconsistent
        | Some ready =>
            _ ← rt_write (remove_postponed_receipt account_id waiting_id);
            executed_now ready
        end
      else
        match checked_sub count 1 with
        | None => rt_inconsistent
        | Some n =>
            _ ← set_pending_data_count account_id waiting_id n;
            not_executed r
        end
  end.

Definition process_data (r : Rcpt) (d : DataReceipt) : RtM (option Outcome) :=
  let account_id := Receipt.receiver_id r in
  _ ← rt_write (set_received_data account_id (data_id d) (mkReceivedData (Receipt.data d)));
  waiting ← get_postponed_receipt_id account_id (data_id d);
  match waiting with
  | Some waiting_id => receive_pending r account_id (data_id d) waiting_id
  | None => not_executed r
  end.

(** The number of data ids that were not received; each gets a link to the receipt. *)
Fixpoint count_pending (account_id : AccountId) (waiting_id : bytes) (ids : list bytes) (count : Z) : RtM Z :=
  match ids with
  | [] => mret count
  | id :: ids =>
      received ← rt_read (λ u, has_received_data (rs_contains_key u) account_id id);
      if (received : bool) then count_pending account_id waiting_id ids count
      else
        count ← expect (checked_add 32 count 1);
        _ ← set_postponed_receipt_id account_id id waiting_id;
        count_pending account_id waiting_id ids count
  end.

Definition process_action (r : Rcpt) (a : ActionReceipt AccountId) : RtM (option Outcome) :=
  let account_id := Receipt.receiver_id r in
  pending_data_count ← count_pending account_id (receipt_id r) (input_data_ids a) 0;
  if pending_data_count =? 0 then executed_now r
  else
    _ ← set_pending_data_count account_id (receipt_id r) pending_data_count;
    _ ← rt_write (set_postponed_receipt r);
    not_executed r.

Definition process_resume (r : Rcpt) (d : DataReceipt) : RtM (option Outcome) :=
  let account_id := Receipt.receiver_id r in
  yield_receipt ← rt_read (λ u, get_promise_yield_receipt (st_get u) account_id (data_id d));
  match yield_receipt with
  | Some yield_receipt =>
      _ ← rt_write (remove_promise_yield_receipt account_id (data_id d));
      _ ← rt_write (set_received_data account_id (data_id d) (mkReceivedData (Receipt.data d)));
      executed_now yield_receipt
  | None => mret None
  end.

Definition process_receipt (r : Rcpt) : RtM (option Outcome) :=
  match receipt r with
  | DataR d => process_data r d
  | ActionR a => process_action r a
  | PromiseYield _ =>
      _ ← rt_write (set_promise_yield_receipt r);
      not_executed r
  | PromiseResume d => process_resume r d
  | GlobalContractDistribution _ =>
      _ ← apply_global_contract_distribution_receipt r;
      mret None
  end.

(** Receipts one after the other, with the outcomes of those that were executed. *)
Fixpoint process_in_order (l : list Rcpt) : RtM (list Outcome) :=
  match l with
  | [] => mret []
  | r :: l =>
      o ← process_receipt r;
      outs ← process_in_order l;
      mret (match o with Some o => o :: outs | None => outs end)
  end.
End process.
