(* ===== verification/Mail.v ===== *)
(** The specification of [process_receipt]: what the receipts that a shard has got so far say about the state.  An action receipt runs
    when all the data it waits for has arrived, in whatever order; a receipt that yields runs when it is resumed. *)

From S2P Require Import Prelude Errors Borsh TrieKey TrieQueue Fees Receipt StoreUtils Verifier Actions ActionsCorrect.
Local Open Scope Z_scope.

Section mail.
Context {AccountId : Type} `{!EqDecision AccountId} `{!Borsh AccountId} `{!Borsh ReceivedData} `{!Borsh (ReceiptEnum AccountId)}.
Abbreviation Rcpt := (Receipt AccountId).
Implicit Types (l : list Rcpt) (r w q : Rcpt).

(** ** Receipts that wait *)

Definition waits (w : Rcpt) : bool := match receipt w with ActionR _ | PromiseYield _ => true | _ => false end.
Definition inputs (w : Rcpt) : list bytes := match receipt w with ActionR a | PromiseYield a => input_data_ids a | _ => [] end.

(** [q] brings the data [d] that [w] waits for. *)
Definition brings (w : Rcpt) (d : bytes) (q : Rcpt) : bool :=
  bool_decide (Receipt.receiver_id q = Receipt.receiver_id w) &&
  match receipt w, receipt q with
  | ActionR _, DataR x | PromiseYield _, PromiseResume x => bool_decide (data_id x = d)
  | _, _ => false
  end.

(** What has not arrived. *)
Definition missing (l : list Rcpt) (w : Rcpt) : list bytes := filter (λ d, existsb (brings w d) l = false) (inputs w).

(** The receipts that have run. *)
Definition complete (l : list Rcpt) (w : Rcpt) : Prop := waits w = true ∧ missing l w = [].
#[export] Instance complete_dec l w : Decision (complete l w) := _.
Definition have_run (l : list Rcpt) : list Rcpt := filter (complete l) l.

(** ** The state *)

(** What a receipt contributes to the state, if it misses the data [m], after the receipts of [ran] were executed. *)
Inductive post (m : list bytes) (ran : list Rcpt) (w : Rcpt) : TrieKey AccountId → bytes → Prop :=
| post_receipt a : receipt w = ActionR a → m ≠ [] → post m ran w (PostponedReceipt (Receipt.receiver_id w) (receipt_id w)) (borsh_encode w)
| post_count a : receipt w = ActionR a → m ≠ [] → post m ran w (PendingDataCount (Receipt.receiver_id w) (receipt_id w)) (borsh_encode (Borsh := borsh_uint 4) (Z.of_nat (length m)))
| post_link a d : receipt w = ActionR a → d ∈ m → post m ran w (PostponedReceiptId (Receipt.receiver_id w) d) (receipt_id w)
| post_yield a d : receipt w = PromiseYield a → d ∈ m → post m ran w (PromiseYieldReceipt (Receipt.receiver_id w) d) (borsh_encode w)
| post_data d : receipt w = DataR d → (∀ w', w' ∈ ran → Receipt.receiver_id w' = Receipt.receiver_id w → data_id d ∉ inputs w') →
    post m ran w (TrieKey.ReceivedData (Receipt.receiver_id w) (data_id d)) (borsh_encode (mkReceivedData (Receipt.data d))).

(** The entries of the state after the receipts of [l]. *)
Definition entry (l ran : list Rcpt) (k : TrieKey AccountId) (v : bytes) : Prop := ∃ w, w ∈ l ∧ post (missing l w) ran w k v.

(** The keys that a receipt may contribute. *)
Definition owns (w : Rcpt) (k : TrieKey AccountId) : Prop :=
  match receipt w, k with
  | ActionR _, PostponedReceipt a i | ActionR _, PendingDataCount a i => a = Receipt.receiver_id w ∧ i = receipt_id w
  | ActionR _, PostponedReceiptId a d | PromiseYield _, PromiseYieldReceipt a d => a = Receipt.receiver_id w ∧ d ∈ inputs w
  | DataR x, TrieKey.ReceivedData a d => a = Receipt.receiver_id w ∧ d = data_id x
  | _, _ => False
  end.
#[export] Instance owns_dec w k : Decision (owns w k).
Proof. unfold owns. destruct (receipt w), k; apply _. Defined.

(** ** Receipts that fit together *)

Context (enum_ok : ReceiptEnum AccountId → Prop) (received_ok : ReceivedData → Prop).

Definition receipt_fits (r : Rcpt) : Prop :=
  receipt_ok enum_ok r ∧
  match receipt r with
  | ActionR a | PromiseYield a =>
      NoDup (input_data_ids a) ∧ Forall (λ d, length d = 32%nat) (input_data_ids a) ∧ Z.of_nat (length (input_data_ids a)) <= umax 32 ∧
      public_key_ok (signer_public_key a) ∧ Forall action_fits (receipt_actions a) ∧ match receipt r with PromiseYield _ => length (input_data_ids a) = 1%nat | _ => True end
  | DataR d | PromiseResume d => length (data_id d) = 32%nat ∧ received_ok (mkReceivedData (Receipt.data d))
  | GlobalContractDistribution _ => True
  end.

(** Two receipts for the same account, the first of which came earlier: the ids of receipts and of data are fresh, and nothing is resumed
    before it has yielded. *)
Definition compatible (r r' : Rcpt) : Prop :=
  match receipt r, receipt r' with
  | ActionR a, ActionR a' => receipt_id r ≠ receipt_id r' ∧ ∀ d, d ∈ input_data_ids a → d ∉ input_data_ids a'
  | DataR d, DataR d' => data_id d ≠ data_id d'
  | PromiseYield a, PromiseYield a' => ∀ d, d ∈ input_data_ids a → d ∉ input_data_ids a'
  | PromiseResume d, PromiseYield a | DataR d, PromiseYield a | PromiseYield a, DataR d => data_id d ∉ input_data_ids a
  | _, _ => True
  end.

Record mail_ok (l : list Rcpt) : Prop := {
  mo_fits : Forall receipt_fits l;
  mo_pairs i j r r' : (i < j)%nat → l !! i = Some r → l !! j = Some r' → Receipt.receiver_id r = Receipt.receiver_id r' → compatible r r'
}.

Lemma mail_ok_app l l' : mail_ok (l ++ l') → mail_ok l.
Proof.
  intros [F P]. split; [by apply Forall_app in F as [? _]|]. intros i j r r' Hij Hi Hj. apply (P i j); [done|..]; by apply lookup_app_l_Some.
Qed.

Lemma last_compatible l r w : mail_ok (l ++ [r]) → w ∈ l → Receipt.receiver_id w = Receipt.receiver_id r → compatible w r.
Proof.
  intros [_ P] [i Hi]%list_elem_of_lookup. apply (P i (length l)); [by eapply lookup_lt_Some|by apply lookup_app_l_Some|by apply lookup_snoc_length].
Qed.

Lemma pair_compatible l w w' : mail_ok l → w ∈ l → w' ∈ l → Receipt.receiver_id w = Receipt.receiver_id w' → w = w' ∨ compatible w w' ∨ compatible w' w.
Proof.
  intros [_ P] [i Hi]%list_elem_of_lookup [j Hj]%list_elem_of_lookup He. destruct (decide (i = j)) as [->|Hne]; [left; congruence|]. right.
  destruct (decide (i < j)%nat); [left; by eapply (P i j)|right; eapply (P j i); [lia|done..]].
Qed.

(** ** What arrives *)

Lemma missing_snoc l r w : missing (l ++ [r]) w = filter (λ d, brings w d r = false) (missing l w).
Proof.
  unfold missing. rewrite list_filter_filter. apply list_filter_iff. intros d. rewrite existsb_app. cbn. rewrite orb_false_r, orb_false_iff. tauto.
Qed.

Lemma missing_quiet l r w : (∀ d, d ∈ missing l w → brings w d r = false) → missing (l ++ [r]) w = missing l w.
Proof. intros H. rewrite missing_snoc. apply filter_all_elem. intros d Hd. by apply H. Qed.

Lemma missing_inputs l w d : d ∈ missing l w → d ∈ inputs w.
Proof. by intros [_ ?]%list_elem_of_filter. Qed.

(** ** Ownership *)

Lemma post_link_iff m ran w a d v : receipt w = ActionR a → post m ran w (PostponedReceiptId (Receipt.receiver_id w) d) v ↔ d ∈ m ∧ v = receipt_id w.
Proof. intros E. split; [intros Hp; by inversion Hp; subst|]. intros [? ->]. by eapply post_link. Qed.
Lemma post_count_iff m ran w a v : receipt w = ActionR a →
  post m ran w (PendingDataCount (Receipt.receiver_id w) (receipt_id w)) v ↔ m ≠ [] ∧ v = borsh_encode (Borsh := borsh_uint 4) (Z.of_nat (length m)).
Proof. intros E. split; [intros Hp; by inversion Hp; subst|]. intros [? ->]. by eapply post_count. Qed.
Lemma post_receipt_iff m ran w a v : receipt w = ActionR a → post m ran w (PostponedReceipt (Receipt.receiver_id w) (receipt_id w)) v ↔ m ≠ [] ∧ v = borsh_encode w.
Proof. intros E. split; [intros Hp; by inversion Hp; subst|]. intros [? ->]. by eapply post_receipt. Qed.
Lemma post_yield_iff m ran w a d v : receipt w = PromiseYield a → post m ran w (PromiseYieldReceipt (Receipt.receiver_id w) d) v ↔ d ∈ m ∧ v = borsh_encode w.
Proof. intros E. split; [intros Hp; by inversion Hp; subst|]. intros [? ->]. by eapply post_yield. Qed.

Lemma post_owns l ran w k v : post (missing l w) ran w k v → owns w k.
Proof. intros Hp. unfold owns. destruct Hp as [a E|a E|a d E Hd|a d E Hd|d E]; rewrite E; try done; (split; [done|]); by eapply missing_inputs. Qed.

Lemma compatible_owns w w' k : Receipt.receiver_id w = Receipt.receiver_id w' → compatible w w' → owns w k → owns w' k → False.
Proof. unfold owns, compatible, inputs. destruct (receipt w) eqn:E, (receipt w') eqn:E', k; naive_solver. Qed.

Lemma owns_receiver w w' k : owns w k → owns w' k → Receipt.receiver_id w = Receipt.receiver_id w'.
Proof. unfold owns. destruct (receipt w), k; try done; intros [-> _]; destruct (receipt w'); try done; by intros [-> _]. Qed.

Lemma owns_unique l w w' k : mail_ok l → w ∈ l → w' ∈ l → owns w k → owns w' k → w = w'.
Proof.
  intros Hok Hw Hw' Ho Ho'. pose proof (owns_receiver _ _ _ Ho Ho') as He. destruct (pair_compatible l w w' Hok Hw Hw' He) as [|[Hc|Hc]]; [done|..]; exfalso; [exact (compatible_owns w w' k He Hc Ho Ho')|exact (compatible_owns w' w k (eq_sym He) Hc Ho' Ho)].
Qed.

(** The state after one more receipt, which changed what [w] misses. *)
Lemma entries_update l r w ran (view view' : TrieKey AccountId → option bytes) (P : TrieKey AccountId → Prop) : mail_ok (l ++ [r]) → w ∈ l ++ [r] → (∀ x, x ∈ l → x ≠ w → missing (l ++ [r]) x = missing l x) →
  (∀ k v, P k → view k = Some v ↔ entry l ran k v) →
  (∀ k v, P k → owns w k → view' k = Some v ↔ post (missing (l ++ [r]) w) ran w k v) →
  (∀ k v, P k → owns r k → view' k = Some v ↔ post (missing (l ++ [r]) r) ran r k v) →
  (∀ k, P k → ¬ owns w k → ¬ owns r k → view' k = view k) →
  ∀ k v, P k → view' k = Some v ↔ entry (l ++ [r]) ran k v.
Proof.
  intros Hok Hw Hm Hv Hvw Hvr Hvo k v Hk. destruct (decide (owns w k)) as [Ho|Hnw]; [|destruct (decide (owns r k)) as [Ho|Hnr]].
  - rewrite (Hvw k v Hk Ho). split; [intros Hp; by exists w|]. intros (x & Hx & Hp). assert (x = w) as -> by (eapply owns_unique; eauto using post_owns). done.
  - rewrite (Hvr k v Hk Ho). split; [intros Hp; exists r; split; [apply elem_of_app; right; by left|done]|]. intros (x & Hx & Hp).
    assert (x = r) as -> by (eapply (owns_unique (l ++ [r])); eauto using post_owns; apply elem_of_app; right; by left). done.
  - rewrite (Hvo k Hk Hnw Hnr), (Hv k v Hk). split; intros (x & Hx & Hp).
    + assert (x ≠ w) as Hne by (intros ->; by apply post_owns in Hp). exists x. split; [apply elem_of_app; by left|]. by rewrite (Hm x Hx Hne).
    + assert (x ≠ w ∧ x ≠ r) as [Hne Hnr'] by (split; intros ->; by apply post_owns in Hp). apply elem_of_app in Hx as [Hx|Hx%list_elem_of_singleton]; [|done].
      exists x. split; [done|]. by rewrite <-(Hm x Hx Hne).
Qed.

(** The data of a receipt that ran is gone. *)
Lemma entry_ran l ran w k v : entry l (w :: ran) k v ↔ entry l ran k v ∧ ∀ d, d ∈ inputs w → k ≠ TrieKey.ReceivedData (Receipt.receiver_id w) d.
Proof.
  split.
  - intros (x & Hx & Hp). split.
    + exists x. split; [done|]. destruct Hp as [| | | |d E Hn]; econstructor; eauto. intros w' Hw'. apply Hn. by right.
    + intros d Hd ->. inversion Hp as [| | | |d' E Hn Ea]; subst. by eapply (Hn w); [left|..].
  - intros [(x & Hx & Hp) Hn]. exists x. split; [done|]. destruct Hp as [| | | |d E Hr]; econstructor; eauto. intros w' [->|Hw']%elem_of_cons; [|by apply Hr]. intros He Hd. eapply Hn; [done|]. by rewrite He.
Qed.

Lemma entry_perm l ran ran' k v : (∀ w, w ∈ ran ↔ w ∈ ran') → entry l ran k v ↔ entry l ran' k v.
Proof. intros He. split; intros (x & Hx & Hp); exists x; (split; [done|]); destruct Hp; econstructor; eauto; intros w'; [rewrite <-He|rewrite He]; eauto. Qed.

(** ** Who is woken *)

Lemma brings_inv w d q : brings w d q = true → Receipt.receiver_id q = Receipt.receiver_id w ∧ waits w = true ∧ waits q = false ∧
  ((∃ a x, receipt w = ActionR a ∧ receipt q = DataR x ∧ data_id x = d) ∨ ∃ a x, receipt w = PromiseYield a ∧ receipt q = PromiseResume x ∧ data_id x = d).
Proof. unfold brings, waits. rewrite andb_true_iff, bool_decide_eq_true. destruct (receipt w), (receipt q); rewrite ?bool_decide_eq_true; naive_solver. Qed.

Lemma brings_unique l r w x d d' : mail_ok l → w ∈ l → x ∈ l → d ∈ inputs w → d' ∈ inputs x → brings w d r = true → brings x d' r = true → w = x.
Proof.
  intros Hok Hw Hx Hd Hd' (R1 & _ & _ & K1)%brings_inv (R2 & _ & _ & K2)%brings_inv. assert (Receipt.receiver_id w = Receipt.receiver_id x) as He by congruence.
  destruct (pair_compatible l w x Hok Hw Hx He) as [|Hc]; [done|]. exfalso. unfold compatible, inputs in *.
  destruct K1 as [(a & y & E1 & E2 & <-)|(a & y & E1 & E2 & <-)], K2 as [(a' & y' & E1' & E2' & <-)|(a' & y' & E1' & E2' & <-)]; rewrite E1, E1', ?E2 in *; naive_solver.
Qed.

Lemma waiting_once w d r : d ∈ inputs w → brings w d r = true → ¬ compatible w w.
Proof.
  unfold compatible, inputs. intros Hd (_ & _ & _ & K)%brings_inv. destruct K as [(a & y & E & _)|(a & y & E & _)]; rewrite E in *; [by intros [? _]|]. intros Hc. by eapply Hc.
Qed.

Section woken.
Context (l : list Rcpt) (r w : Rcpt) (d : bytes) (Hok : mail_ok (l ++ [r])) (Hw : w ∈ l) (Hd : d ∈ missing l w) (Hb : brings w d r = true).

Lemma woken_others x : x ∈ l → x ≠ w → missing (l ++ [r]) x = missing l x.
Proof.
  intros Hx Hne. apply missing_quiet. intros d' Hd'. apply not_true_is_false. intros Hb'. apply Hne.
  apply (brings_unique l r x w d' d (mail_ok_app _ _ Hok) Hx Hw (missing_inputs _ _ _ Hd') (missing_inputs _ _ _ Hd) Hb' Hb).
Qed.

Lemma woken_missing : NoDup (inputs w) → missing l w ≡ₚ d :: missing (l ++ [r]) w.
Proof.
  intros Hn. assert (NoDup (missing l w)) as Hm by by apply NoDup_filter. apply list_elem_of_lookup in Hd as [i Hi].
  rewrite missing_snoc. rewrite <-(filter_all_elem (λ _, True) (missing l w)) at 1 by done. eapply filter_one_more; [exact Hi|done|by rewrite Hb|].
  intros j x Hj Hne. split; [|done]. intros _. apply not_true_is_false. intros Hb'. apply Hne. eapply NoDup_lookup; [exact Hm|exact Hj|].
  pose proof (brings_inv _ _ _ Hb) as (_ & _ & _ & K). apply brings_inv in Hb' as (_ & _ & _ & K'). rewrite Hi. f_equal.
  destruct K as [(? & ? & ? & ? & ?)|(? & ? & ? & ? & ?)], K' as [(? & ? & ? & ? & ?)|(? & ? & ? & ? & ?)]; congruence.
Qed.

Lemma woken_position i j x : l !! i = Some w → l !! j = Some x → j ≠ i → x ≠ w.
Proof.
  intros Hi Hj Hne ->. apply (waiting_once w d r (missing_inputs _ _ _ Hd) Hb). apply mail_ok_app in Hok. destruct Hok as [_ P]. destruct (decide (i < j)%nat); [by eapply (P i j)|eapply (P j i); [lia|done..]].
Qed.

Lemma complete_snoc x : missing (l ++ [r]) x = missing l x → complete (l ++ [r]) x ↔ complete l x.
Proof. unfold complete. by intros ->. Qed.

Lemma not_complete_last : ¬ complete (l ++ [r]) r.
Proof. intros [Hr _]. apply brings_inv in Hb as (_ & _ & ? & _). congruence. Qed.

Lemma woken_run : missing (l ++ [r]) w = [] → have_run (l ++ [r]) ≡ₚ w :: have_run l.
Proof.
  intros Hm. unfold have_run. rewrite filter_app, (filter_singleton_False _ r), app_nil_r by (try exact []; apply not_complete_last). destruct (list_elem_of_lookup_1 _ _ Hw) as [i Hi].
  eapply filter_one_more; [exact Hi| | |].
  - split; [by apply brings_inv in Hb as (_ & ? & _)|done].
  - intros [_ Hm']. rewrite Hm' in Hd. by apply not_elem_of_nil in Hd.
  - intros j x Hj Hne. apply complete_snoc, woken_others; [by eapply list_elem_of_lookup_2|by eapply woken_position].
Qed.

Lemma woken_waits : missing (l ++ [r]) w ≠ [] → have_run (l ++ [r]) = have_run l.
Proof.
  intros Hm. unfold have_run. rewrite filter_app, (filter_singleton_False _ r), app_nil_r by (try exact []; apply not_complete_last). apply filter_ext_elem. intros x (j & Hj)%list_elem_of_lookup.
  destruct (list_elem_of_lookup_1 _ _ Hw) as [i Hi]. destruct (decide (j = i)) as [->|Hne].
  - assert (x = w) as -> by congruence. split; intros [_ Hm']; [done|]. rewrite Hm' in Hd. by apply not_elem_of_nil in Hd.
  - apply complete_snoc, woken_others; [by eapply list_elem_of_lookup_2|by eapply woken_position].
Qed.
End woken.

Lemma complete_mono l l' w : complete l w → complete (l ++ l') w.
Proof.
  intros [Hw Hm]. split; [done|]. destruct (missing (l ++ l') w) as [|d m] eqn:E; [done|]. exfalso. assert (d ∈ missing (l ++ l') w) as Hd by (rewrite E; by left).
  apply list_elem_of_filter in Hd as [Hd Hi]. rewrite existsb_app, orb_false_iff in Hd. assert (d ∈ missing l w) as Hin by (apply list_elem_of_filter; naive_solver). rewrite Hm in Hin. by apply not_elem_of_nil in Hin.
Qed.

(** Nobody waited for the receipt. *)
Section quiet.
Context (l : list Rcpt) (r : Rcpt) (quiet : ∀ x, x ∈ l → missing (l ++ [r]) x = missing l x).

Lemma have_run_quiet : have_run (l ++ [r]) = have_run l ++ filter (complete (l ++ [r])) [r].
Proof. unfold have_run. rewrite filter_app. f_equal. apply filter_ext_elem. intros x Hx. by apply complete_snoc, quiet. Qed.

Lemma have_run_last : complete (l ++ [r]) r → have_run (l ++ [r]) ≡ₚ r :: have_run l.
Proof. intros Hc. rewrite have_run_quiet, filter_singleton_True by (try exact []; done). by rewrite Permutation_app_comm. Qed.

Lemma have_run_same : ¬ complete (l ++ [r]) r → have_run (l ++ [r]) = have_run l.
Proof. intros Hc. by rewrite have_run_quiet, filter_singleton_False, app_nil_r by (try exact []; done). Qed.
End quiet.

Lemma no_bringer l r : (∀ x d, brings x d r = false) → ∀ x, missing (l ++ [r]) x = missing l x.
Proof. intros Hq x. by apply missing_quiet. Qed.

Lemma waits_quiet r x d : waits r = true → brings x d r = false.
Proof. intros Hr. apply not_true_is_false. intros (_ & _ & ? & _)%brings_inv. congruence. Qed.

(** ** Data *)

Lemma arrived_in l w d : d ∈ inputs w → d ∉ missing l w → ∃ q, q ∈ l ∧ brings w d q = true.
Proof.
  intros Hd Hn. destruct (existsb (brings w d) l) eqn:E.
  - apply existsb_exists in E as (q & Hq%list_elem_of_In & Hb). by exists q.
  - exfalso. apply Hn, list_elem_of_filter. done.
Qed.

(** New data was not taken. *)
Lemma data_fresh l r x : mail_ok (l ++ [r]) → receipt r = DataR x → ∀ w, w ∈ have_run l → Receipt.receiver_id w = Receipt.receiver_id r → data_id x ∉ inputs w.
Proof.
  intros Hok Hr w [[Hwt Hm] Hw]%list_elem_of_filter He Hd. pose proof (last_compatible l r w Hok Hw He) as Hc. destruct (arrived_in l w (data_id x) Hd) as (q & Hq & Hb); [rewrite Hm; apply not_elem_of_nil|].
  apply brings_inv in Hb as (R & _ & _ & [(a & y & E1 & E2 & E3)|(a & y & E1 & _)]).
  - pose proof (last_compatible l r q Hok Hq) as Hc'. unfold compatible in Hc'. rewrite E2, Hr in Hc'. apply Hc'; [congruence|done].
  - unfold compatible, inputs in *. rewrite E1, Hr in Hc. by rewrite E1 in Hd.
Qed.

(** Data that an action receipt waits for is there, as long as the receipt has not run. *)
Lemma inputs_there l w a d ran : mail_ok l → w ∈ l → receipt w = ActionR a → d ∈ inputs w → d ∉ missing l w → (∀ x, x ∈ ran → x ∈ l ∧ waits x = true ∧ x ≠ w) →
  ∃ q x, q ∈ l ∧ receipt q = DataR x ∧ entry [q] ran (TrieKey.ReceivedData (Receipt.receiver_id w) d) (borsh_encode (mkReceivedData (Receipt.data x))).
Proof.
  intros Hok Hw Ha Hd Hm Hran. destruct (arrived_in l w d Hd Hm) as (q & Hq & Hb).
  apply brings_inv in Hb as (R & _ & _ & [(a' & x & E1 & E2 & E3)|(a' & x & E1 & _)]); [|congruence]. exists q, x. split_and!; [done..|]. exists q. split; [by left|]. rewrite <-R, <-E3. apply post_data; [done|].
  intros x' (Hx' & Hwt & Hne)%Hran He Hd'. rewrite E3 in Hd'. unfold waits in Hwt. destruct (receipt x') as [b| |b| |] eqn:Ex; try done.
  - destruct (pair_compatible l w x' Hok Hw Hx') as [|Hc]; [congruence|done|]. unfold compatible, inputs in *. rewrite E1, Ex in *. naive_solver.
  - destruct (pair_compatible l q x' Hok Hq Hx') as [->|Hc]; [congruence|congruence|]. unfold compatible, inputs in *. rewrite E2, Ex in *. naive_solver.
Qed.

Lemma data_entry l q ran x a d v : q ∈ l → receipt q = DataR x → entry [q] ran (TrieKey.ReceivedData a d) v → entry l ran (TrieKey.ReceivedData a d) v.
Proof. intros Hq Ex (q' & ->%list_elem_of_singleton & Hp). exists q. split; [done|]. inversion Hp. subst. by apply post_data. Qed.

Lemma have_run_elem l x : x ∈ have_run l → x ∈ l ∧ waits x = true ∧ missing l x = [].
Proof. by intros [[] ?]%list_elem_of_filter. Qed.

(** A new action receipt finds the data that arrived. *)
Lemma data_of_last l r a d : mail_ok (l ++ [r]) → receipt r = ActionR a → d ∈ inputs r → (∃ v, entry l (have_run l) (TrieKey.ReceivedData (Receipt.receiver_id r) d) v) ↔ d ∉ missing l r.
Proof.
  intros Hok Ha Hd. split.
  - intros (v & q & Hq & Hp). inversion Hp as [| | | |x E Hn Ek]; subst. intros [Hm _]%list_elem_of_filter. apply not_true_iff_false in Hm. apply Hm, existsb_exists. exists q.
    rewrite <-list_elem_of_In. split; [done|]. unfold brings. rewrite Ha, E. apply andb_true_intro. split; by apply bool_decide_eq_true.
  - intros Hm. destruct (inputs_there (l ++ [r]) r a d (have_run l)) as (q & x & Hq & Ex & He); try done.
    + apply elem_of_app. right. by left.
    + rewrite no_bringer; [done|]. intros y e. unfold brings. rewrite Ha. rewrite andb_comm. by destruct (receipt y).
    + intros x (Hx & Hwt & _)%have_run_elem. split_and!; [apply elem_of_app; by left|done|]. intros ->.
      pose proof (last_compatible l r r Hok Hx eq_refl) as Hc. unfold compatible in Hc. rewrite Ha in Hc. by destruct Hc.
    + eexists. eapply data_entry; [|exact Ex|exact He]. apply elem_of_app in Hq as [?|Hs%list_elem_of_singleton]; [done|congruence].
Qed.
End mail.
