(* ===== verification/MailCorrect.v ===== *)
(** Receipts run exactly once: [process_receipt] keeps in the state what the specification in [Mail] says, and runs a receipt when, and only when, the last of its
    data arrives. *)

From S2P Require Import Prelude Errors Borsh Costs ShardLayout TrieKey StateUpdate TrieQueue Fees Receipt ReceiptManager Account StoreUtils RemoveAccount Verifier Transaction ReceiptQueues ProcessTransactions RuntimeStore Actions ActionsCorrect ApplyReceipt ExecutionFrame ProcessReceipt Mail.
Local Open Scope Z_scope.

(** A run that failed as [x] did. *)
Definition failed_as {S E A B} (x : outcome S E A) (y : outcome S E B) : Prop :=
  match x, y with
  | Err e s, Err e' s' => e = e' ∧ s = s'
  | Panic, Panic | OutOfFuel, OutOfFuel => True
  | _, _ => False
  end.

(** Which of the keys it is. *)
Ltac keys := repeat (case_decide; simplify_eq).

Section correct.
Context {AccountId StorageError U CallError K : Type} `{!EqDecision AccountId} `{Store : !StateStore (TrieKey AccountId) StorageError U} `{RStore : !RuntimeStore AccountId StorageError U}.
Context `{!Borsh AccountId} `{!Borsh AccessKey} `{!Borsh PromiseYieldIndices} `{!Borsh (PromiseYieldTimeout AccountId)} `{!Borsh (DelegateAction AccountId (Action AccountId))}.
Context `{!Borsh ReceivedData} `{!Borsh (ReceiptEnum AccountId)} `{TheVm : !Vm AccountId StorageError U CallError}.
Context (as_bytes : AccountId → bytes) (from_str : bytes → option AccountId) (get_account_type : AccountId → AccountType) (is_top_level : AccountId → bool) (is_sub_account_of : AccountId → AccountId → bool).
Context (system : AccountId) (hash : bytes → bytes) (verify : bytes → bytes → PublicKey → bool) (hex_decode : bytes → option bytes) (is_valid_staking_key : PublicKey → bool).
Context (wallet_magic_bytes : Code) (wallet_contract : bytes → option Code) (minimum_stake : bytes → EpochError + Z) (epoch_shard_layout : EpochError + ShardLayout (AccountId := AccountId)).
Context (forward : Receipt AccountId → M (K * U) (RuntimeError StorageError) ()) (apply_state : ApplyState AccountId).
Context (key_ok : TrieKey AccountId → Prop) (st_view st_saved : U → TrieKey AccountId → option (list Z)) (st_trie_view : U → Base (TrieKey AccountId)).
Context `{StoreOk : !RuntimeStoreOk AccountId StorageError U key_ok st_view st_saved st_trie_view} `{!StateStoreOk (TrieKey AccountId) StorageError U key_ok st_view st_trie_view}.
Context `{!ContainsKeyOk key_ok st_view st_trie_view} `{!SinkFrame key_ok st_view st_trie_view forward}.
Context (mail_keys_ok : ∀ k, mail_key k → key_ok k).

Abbreviation Rcpt := (Receipt AccountId).
Abbreviation Rt := (RtState (AccountId := AccountId) (U := U) (K := K)).
Abbreviation RtM := (M Rt (RuntimeError StorageError)).
Abbreviation Outcome := (ExecutionOutcomeWithId AccountId CallError).
Abbreviation settled := (settled key_ok st_view).
Abbreviation live u := (base_live (st_trie_view u) = true).

(** ** Steps *)

Lemma write_run {A} f (g : () → RtM A) s u : f (rt_update s) = Some u → (rt_write f ≫= g) s = g () (set_rt_update u s).
Proof. intros Hu. unfold mbind, M_bind, rt_write. by rewrite Hu. Qed.

Lemma read_run {A B} f (g : B → RtM A) s b : f (rt_update s) = Some (inr b) → (rt_read f ≫= g) s = g b s.
Proof. intros Hu. unfold mbind, M_bind, rt_read. by rewrite Hu. Qed.

Lemma set_mail k v u : mail_key k → ∃ u', st_set k v u = Some u' ∧ st_trie_view u' = st_trie_view u ∧
  (∀ k', mail_key k' → st_view u' k' = if decide (k' = k) then Some v else st_view u k') ∧ (settled u → settled u').
Proof.
  intros Hk%mail_keys_ok. destruct (st_set_ok u k v Hk) as (u' & Hu & B & V). exists u'. split_and!; [done..|intros k' Hk'; by apply V, mail_keys_ok|].
  intros Hs k' Hk' Hm. destruct (decide (k = k')) as [<-|Hne]; [by eapply ck_set|]. eapply same_at_exact; [|by apply Hs]. apply (proj2 (ck_set_apart key_ok st_view st_trie_view _ _ _ _ Hu)); [done|by left].
Qed.

Lemma remove_mail k u : mail_key k → ∃ u', st_remove k u = Some u' ∧ st_trie_view u' = st_trie_view u ∧
  ∀ k', mail_key k' → st_view u' k' = if decide (k' = k) then None else st_view u k'.
Proof.
  intros Hk%mail_keys_ok. destruct (st_remove_ok u k Hk) as (u' & Hu & B & V). exists u'. split_and!; [done..|]. intros k' Hk'. by apply V, mail_keys_ok.
Qed.

(** ** The state *)

(** The state after the receipts of [l] were processed. *)
Record mail (l : list Rcpt) (u : U) : Prop := {
  ml_live : live u;
  ml_settled : settled u;
  ml_entries k v : mail_key k → st_view u k = Some v ↔ entry l (have_run l) k v
}.

(** The state when [w] is about to run: all its data is there. *)
Record about_to_run (l ran : list Rcpt) (w : Rcpt) (u : U) : Prop := {
  ar_live : live u;
  ar_entries k v : mail_key k → (∀ d, d ∈ inputs w → k ≠ TrieKey.ReceivedData (Receipt.receiver_id w) d) → st_view u k = Some v ↔ entry l ran k v;
  ar_inputs d : d ∈ inputs w → ∃ x, st_view u (TrieKey.ReceivedData (Receipt.receiver_id w) d) = Some (borsh_encode (mkReceivedData x))
}.

Abbreviation not_executed := (not_executed (CallError := CallError) (K := K) (AccountId := AccountId)).

(** Nothing is executed: the state is committed. *)
Lemma not_executed_ok l r (s : Rt) : live (rt_update s) → (∀ k v, mail_key k → st_view (rt_update s) k = Some v ↔ entry l (have_run l) k v) →
  ∃ s', (not_executed r : RtM (option Outcome)) s = Ok None s' ∧ mail l (rt_update s').
Proof.
  intros Hl He. destruct (ck_commit_live key_ok st_view st_trie_view (CausePostponedReceipt (receipt_id r)) _ Hl) as [u Hu]. destruct (rs_commit_ok _ _ _ Hu) as (B & V & _).
  exists (set_rt_update u s). split; [unfold ProcessReceipt.not_executed, rt_commit; by rewrite (write_run _ _ _ _ Hu)|]. split; cbn.
  - by rewrite B.
  - intros k Hk _. by eapply ck_commit.
  - intros k v Hk. rewrite V. by apply He.
Qed.

(** ** Links to a receipt that waits *)

Lemma count_pending_ok a i ids : length i = 32%nat → Forall (λ d, length d = 32%nat) ids → ∀ n (s : Rt), 0 <= n → n + Z.of_nat (length ids) <= umax 32 → settled (rt_update s) →
  let pending d := st_view (rt_update s) (TrieKey.ReceivedData a d) = None in
  ∃ s', (count_pending a i ids n : RtM Z) s = Ok (n + Z.of_nat (length (filter pending ids))) s' ∧ st_trie_view (rt_update s') = st_trie_view (rt_update s) ∧ settled (rt_update s') ∧
    ∀ k, mail_key k → ((∃ d, d ∈ ids ∧ pending d ∧ k = PostponedReceiptId a d) → st_view (rt_update s') k = Some i) ∧
      ((∀ d, d ∈ ids → pending d → k ≠ PostponedReceiptId a d) → st_view (rt_update s') k = st_view (rt_update s) k).
Proof.
  intros Hi. induction 1 as [|d ids Hd Hids IH]; intros n s Hn Hroom Hs pending; cbn [count_pending length] in *.
  { exists s. rewrite Z.add_0_r. split_and!; try done. intros k Hk. split; [by intros (d & ?%not_elem_of_nil & _)|done]. }
  assert (Hx : has_received_data (rs_contains_key (rt_update s)) a d = Some (inr (bool_decide (is_Some (st_view (rt_update s) (TrieKey.ReceivedData a d)))))) by (apply Hs; [by apply mail_keys_ok|done]).
  rewrite (read_run (λ u, has_received_data (rs_contains_key u) a d) _ s _ Hx). case_bool_decide as Hr.
  - destruct (IH n s) as (s' & Hc & B & S' & V); [done|lia|done|]. exists s'. rewrite Hc, filter_cons_False by (intros Hp; rewrite Hp in Hr; by destruct Hr). split_and!; [done..|].
    intros k Hk. destruct (V k Hk) as [V1 V2]. split.
    + intros (d' & [->|Hd']%elem_of_cons & Hp & ->); [by rewrite Hp in Hr; destruct Hr|]. apply V1. eauto.
    + intros Hne. apply V2. intros d' Hd'. apply Hne. by right.
  - assert (Hp : pending d) by (unfold pending; by destruct (st_view _ _); [destruct Hr; eexists|]). rewrite checked_add_ok by lia.
    destruct (set_mail (PostponedReceiptId a d) i (rt_update s) Hd) as (u & Hu & B & V & S1). unfold set_postponed_receipt_id, set_value. rewrite bind_expect.
    rewrite (write_run (st_set (PostponedReceiptId a d) i) _ s u Hu).
    assert (Hsame : ∀ d', length d' = 32%nat → st_view u (TrieKey.ReceivedData a d') = st_view (rt_update s) (TrieKey.ReceivedData a d')) by (intros d' Hd'; rewrite V by done; by rewrite decide_False).
    assert (Hext : ∀ d', d' ∈ ids → st_view u (TrieKey.ReceivedData a d') = None ↔ pending d') by (intros d' Hd'; unfold pending; rewrite Hsame; [done|by eapply Forall_forall in Hids]).
    destruct (IH (n + 1) (set_rt_update u s)) as (s' & Hc & B' & S' & V'); [lia|lia|by apply S1|]. cbn [rt_update set_rt_update] in *. exists s'. split_and!; [|congruence|done|].
    + rewrite Hc, (filter_ext_elem _ pending ids Hext), (filter_cons_True pending) by done. cbn [length]. f_equal. lia.
    + intros k Hk. destruct (V' k Hk) as [V1 V2]. split.
      * intros (d' & [->|Hd']%elem_of_cons & Hp' & ->); [|apply V1; exists d'; by rewrite Hext]. destruct (decide (d ∈ ids)) as [Hin|Hin]; [apply V1; exists d; by rewrite Hext|].
        rewrite V2 by (intros d' ? _ [= ->]; done). rewrite V by done. by rewrite decide_True.
      * intros Hne. rewrite V2 by (intros d' Hd'; rewrite Hext by done; apply Hne; by right). rewrite V by done. rewrite decide_False; [done|]. apply Hne; [by left|done].
Qed.

(** ** One receipt *)

Context (enum_ok : ReceiptEnum AccountId → Prop) (received_ok : ReceivedData → Prop).
Context `{!AccountIdBorsh as_bytes} `{!BorshOk (ReceiptEnum AccountId) enum_ok} `{!BorshOk ReceivedData received_ok}.
Abbreviation mail_ok := (mail_ok enum_ok received_ok).
Abbreviation receipt_fits := (receipt_fits enum_ok received_ok).
Abbreviation process_data := (process_data as_bytes from_str get_account_type is_top_level is_sub_account_of system hash verify hex_decode is_valid_staking_key wallet_magic_bytes wallet_contract minimum_stake forward apply_state).
Abbreviation executed_now := (executed_now as_bytes from_str get_account_type is_top_level is_sub_account_of system hash verify hex_decode is_valid_staking_key wallet_magic_bytes wallet_contract minimum_stake forward apply_state).

Lemma ok_fits l w : mail_ok l → w ∈ l → receipt_fits w.
Proof. intros [F _] Hw. by eapply Forall_forall in F. Qed.

(** What a receipt did: nothing ran, or [w] is run. *)
Definition step_result (l : list Rcpt) (r : Rcpt) (m : RtM (option Outcome)) (s : Rt) : Prop :=
  (∃ s', m s = Ok None s' ∧ have_run (l ++ [r]) = have_run l ∧ mail (l ++ [r]) (rt_update s')) ∨
  (∃ w s1, m s = (executed_now w : RtM (option Outcome)) s1 ∧ have_run (l ++ [r]) ≡ₚ w :: have_run l ∧ w ∈ l ++ [r] ∧ about_to_run (l ++ [r]) (have_run l) w (rt_update s1)).

(** What the state holds of a receipt. *)
Lemma own_view l w u k v : mail_ok l → mail l u → w ∈ l → mail_key k → owns w k → st_view u k = Some v ↔ post (missing l w) (have_run l) w k v.
Proof.
  intros Hok Hm Hw Hk Ho. rewrite (ml_entries _ _ Hm) by done. split; [|intros Hp; by exists w]. intros (x & Hx & Hp). assert (x = w) as -> by (eapply owns_unique; eauto using post_owns). done.
Qed.

Lemma last_elem (l : list Rcpt) r : r ∈ l ++ [r].
Proof. apply elem_of_app. right. by left. Qed.
#[local] Hint Resolve last_elem : core.

Section data.
Context (l : list Rcpt) (r : Rcpt) (x : DataReceipt) (s : Rt) (Hok : mail_ok (l ++ [r])) (Hr : receipt r = DataR x) (Hmail : mail l (rt_update s)).
Abbreviation a := (Receipt.receiver_id r).
Abbreviation d := (data_id x).
Abbreviation view := (st_view (rt_update s)).
Abbreviation data_key := (TrieKey.ReceivedData a d).
Abbreviation stored := (borsh_encode (mkReceivedData (Receipt.data x))).

Lemma data_length : length d = 32%nat.
Proof. pose proof (ok_fits _ _ Hok (last_elem l r)) as [_ Hf]. rewrite Hr in Hf. apply Hf. Qed.

Lemma data_owned k v : owns r k → k = data_key ∧ (Some stored = Some v ↔ post (missing (l ++ [r]) r) (have_run l) r k v).
Proof.
  unfold owns. rewrite Hr. destruct k; try done. intros [-> ->]. split; [done|]. split; [intros [= <-]; apply post_data; [done|by eapply data_fresh]|].
  intros Hp. inversion Hp. congruence.
Qed.

(** Nobody waits. *)
Lemma data_unclaimed u : view (PostponedReceiptId a d) = None → st_trie_view u = st_trie_view (rt_update s) → (∀ k, mail_key k → st_view u k = if decide (k = data_key) then Some stored else view k) →
  have_run (l ++ [r]) = have_run l ∧ ∀ k v, mail_key k → st_view u k = Some v ↔ entry (l ++ [r]) (have_run l) k v.
Proof.
  intros Hn B V. assert (Hq : ∀ y, y ∈ l → missing (l ++ [r]) y = missing l y).
  { intros y Hy. apply missing_quiet. intros e He. apply not_true_is_false. intros (R & _ & _ & [(b & x' & E1 & E2 & <-)|(b & x' & E1 & E2 & <-)])%brings_inv; [|congruence].
    assert (x' = x) as -> by congruence. assert (view (PostponedReceiptId a d) = Some (receipt_id y)); [|congruence]. apply (ml_entries _ _ Hmail); [apply data_length|]. exists y. split; [done|]. rewrite R. by eapply post_link. }
  split; [apply have_run_same; [done|]; intros [Hw _]; unfold waits in Hw; by rewrite Hr in Hw|].
  apply (entries_update enum_ok received_ok l r r (have_run l) view (st_view u) mail_key Hok); [done|by intros y Hy _; apply Hq|apply (ml_entries _ _ Hmail)| | |].
  - intros k v Hk Ho. destruct (data_owned k v Ho) as [-> <-]. by rewrite V, decide_True.
  - intros k v Hk Ho. destruct (data_owned k v Ho) as [-> <-]. by rewrite V, decide_True.
  - intros k Hk _ Ho. rewrite V, decide_False; [done| |done]. intros ->. apply Ho. unfold owns. by rewrite Hr.
Qed.

(** A receipt waits. *)
Lemma data_claimed i : view (PostponedReceiptId a d) = Some i → ∃ w b, w ∈ l ∧ receipt w = ActionR b ∧ Receipt.receiver_id w = a ∧ d ∈ missing l w ∧ i = receipt_id w ∧ brings w d r = true.
Proof.
  intros (w & Hw & Hp)%(ml_entries _ _ Hmail); [|apply data_length]. inversion Hp as [| |b e E Hd Ea| |]; subst. exists w, b. split_and!; try done. unfold brings. rewrite E, Hr.
  apply andb_true_intro. split; by apply bool_decide_eq_true.
Qed.

Section woken.
Context (w : Rcpt) (b : ActionReceipt AccountId) (Hw : w ∈ l) (Hb : receipt w = ActionR b) (Ha : Receipt.receiver_id w = a) (Hd : d ∈ missing l w) (Hbr : brings w d r = true).
Abbreviation i := (receipt_id w).
Abbreviation left := (missing (l ++ [r]) w).

Lemma woken_fits : length i = 32%nat ∧ NoDup (inputs w) ∧ Forall (λ e, length e = 32%nat) (inputs w) ∧ Z.of_nat (length (missing l w)) <= umax 32 ∧ receipt_ok enum_ok w.
Proof.
  destruct (ok_fits l w (mail_ok_app _ _ _ _ Hok) Hw) as [R F]. unfold inputs. rewrite Hb in *. destruct F as (N & L & B & _). destruct R as (I & R). split_and!; try done.
  etrans; [|exact B]. unfold missing, inputs. rewrite Hb. apply inj_le. apply length_filter.
Qed.

Lemma woken_perm : missing l w ≡ₚ d :: left.
Proof. apply (woken_missing l r w d Hd Hbr), woken_fits. Qed.

Lemma woken_entries u (c p : option bytes) : (∀ v, c = Some v ↔ left ≠ [] ∧ v = borsh_encode (Borsh := borsh_uint 4) (Z.of_nat (length left))) → (∀ v, p = Some v ↔ left ≠ [] ∧ v = borsh_encode w) →
  (∀ k, mail_key k → st_view u k = if decide (k = PendingDataCount a i) then c else if decide (k = PostponedReceipt a i) then p else if decide (k = PostponedReceiptId a d) then None
     else if decide (k = data_key) then Some stored else view k) →
  ∀ k v, mail_key k → st_view u k = Some v ↔ entry (l ++ [r]) (have_run l) k v.
Proof.
  intros Hc Hp V. apply (entries_update enum_ok received_ok l r w (have_run l) view (st_view u) mail_key Hok); [apply elem_of_app; by left|by apply (woken_others enum_ok received_ok l r w d)|apply (ml_entries _ _ Hmail)| | |].
  - intros k v Hk Ho. rewrite V by done. assert (Ho' := Ho). unfold owns in Ho'. rewrite Hb in Ho'. destruct k; try done; destruct Ho' as [-> Ho']; rewrite Ha in *; subst.
    + pose proof (post_link_iff left (have_run l) w b data_id v Hb) as Hl. rewrite Ha in Hl. rewrite Hl. clear Hl. keys.
      * split; [done|]. intros [Hin _]. pose proof (NoDup_filter (λ e, existsb (brings w e) l = false) (inputs w) (proj1 (proj2 woken_fits))) as Hn. change (NoDup (missing l w)) in Hn.
        rewrite woken_perm in Hn. by apply NoDup_cons in Hn as [? _].
      * rewrite (own_view l w) by (try done; by eapply mail_ok_app). pose proof (post_link_iff (missing l w) (have_run l) w b data_id v Hb) as Hl. rewrite Ha in Hl. rewrite Hl.
        rewrite woken_perm, elem_of_cons. naive_solver.
    + keys. rewrite Hc. pose proof (post_count_iff left (have_run l) w b v Hb) as Hl. by rewrite Ha in Hl.
    + keys. rewrite Hp. pose proof (post_receipt_iff left (have_run l) w b v Hb) as Hl. by rewrite Ha in Hl.
  - intros k v Hk Ho. destruct (data_owned k v Ho) as [-> <-]. rewrite V by done. by keys.
  - intros k Hk Hnw Hnr. rewrite V by done. unfold owns in Hnw, Hnr. rewrite Hb in Hnw. rewrite Hr in Hnr. rewrite !decide_False; [done|..]; intros ->; try by apply Hnr. 
    + apply Hnw. split; [done|]. by eapply missing_inputs.
    + by apply Hnw.
    + by apply Hnw.
Qed.

Abbreviation receive_pending := (receive_pending as_bytes from_str get_account_type is_top_level is_sub_account_of system hash verify hex_decode is_valid_staking_key wallet_magic_bytes wallet_contract minimum_stake forward apply_state).

(** The last data arrives. *)
Lemma woken_inputs u : left = [] → (∀ k v, mail_key k → st_view u k = Some v ↔ entry (l ++ [r]) (have_run l) k v) →
  ∀ e, e ∈ inputs w → ∃ y, st_view u (TrieKey.ReceivedData (Receipt.receiver_id w) e) = Some (borsh_encode (mkReceivedData y)).
Proof.
  intros Hl He e Hin. destruct (inputs_there enum_ok received_ok (l ++ [r]) w b e (have_run l)) as (q & y & Hq & Ey & Hen); try done.
  - apply elem_of_app. by left.
  - rewrite Hl. apply not_elem_of_nil.
  - intros y (Hy & Hwt & Hm)%have_run_elem. split_and!; [apply elem_of_app; by left|done|]. intros ->. rewrite Hm in Hd. by apply not_elem_of_nil in Hd.
  - eexists. apply He; [|by eapply data_entry]. destruct woken_fits as (_ & _ & F & _). by eapply Forall_forall in F.
Qed.

Lemma count_read u : st_view u (PendingDataCount a i) = view (PendingDataCount a i) →
  get_value (ValueBorsh := borsh_uint 4) (st_get u) (PendingDataCount a i) = Some (inr (Some (Z.of_nat (length (missing l w)))) : StorageError + _).
Proof.
  intros Hu. destruct woken_fits as (Hi & _ & _ & Hn & _). rewrite (get_value_ok key_ok st_view st_trie_view (λ x, 0 <= x < 256 ^ Z.of_nat 4) (BorshOk0 := borsh_uint_ok 4) u _ (Some (Z.of_nat (length (missing l w))))); [done|by apply mail_keys_ok| |].
  - rewrite Hu. cbn [fmap option_fmap option_map]. apply (ml_entries _ _ Hmail); [done|]. exists w. split; [done|]. rewrite <-Ha. eapply post_count; [done|]. intros Hm. rewrite Hm in Hd. by apply not_elem_of_nil in Hd.
  - intros n [= <-]. unfold umax in Hn. change (256 ^ Z.of_nat 4) with (2 ^ 32). lia.
Qed.

Lemma receipt_read u : st_view u (PostponedReceipt a i) = view (PostponedReceipt a i) → get_postponed_receipt (st_get u) a i = Some (inr (Some w) : StorageError + _).
Proof.
  intros Hu. destruct woken_fits as (Hi & _ & _ & _ & Hw0). apply (get_value_ok key_ok st_view st_trie_view (receipt_ok enum_ok) u _ (Some w)); [by apply mail_keys_ok| |by intros ? [= <-]].
  rewrite Hu. cbn [fmap option_fmap option_map]. apply (ml_entries _ _ Hmail); [done|]. exists w. split; [done|]. rewrite <-Ha. eapply post_receipt; [done|]. intros Hm. rewrite Hm in Hd. by apply not_elem_of_nil in Hd.
Qed.

(** The receipt is taken out of the state and run. *)
Lemma receive_last u : live u → left = [] → (∀ k, mail_key k → st_view u k = if decide (k = PostponedReceiptId a d) then None else if decide (k = data_key) then Some stored else view k) →
  ∃ u', st_remove (PendingDataCount a i) u = Some u' ∧ get_postponed_receipt (st_get u') a i = Some (inr (Some w) : StorageError + _) ∧
    ∃ u2, remove_postponed_receipt a i u' = Some u2 ∧ about_to_run (l ++ [r]) (have_run l) w u2.
Proof.
  intros Hlive Hl V. destruct woken_fits as (Hi & _). destruct (remove_mail (PendingDataCount a i) u Hi) as (u1 & H1 & B1 & V1). exists u1. split; [done|].
  split; [apply receipt_read; rewrite V1, V by done; by keys|]. destruct (remove_mail (PostponedReceipt a i) u1 Hi) as (u2 & H2 & B2 & V2). exists u2. split; [done|].
  assert (He : ∀ k v, mail_key k → st_view u2 k = Some v ↔ entry (l ++ [r]) (have_run l) k v).
  { apply (woken_entries u2 None None); [rewrite Hl; naive_solver..|]. intros k Hk. rewrite V2, V1, V by done. by keys. }
  split; [by rewrite B2, B1|by intros k v Hk _; apply He|by apply woken_inputs].
Qed.

(** More is missing: it is counted. *)
Lemma receive_more u : live u → left ≠ [] → (∀ k, mail_key k → st_view u k = if decide (k = PostponedReceiptId a d) then None else if decide (k = data_key) then Some stored else view k) →
  ∃ u', set_value (ValueBorsh := borsh_uint 4) (PendingDataCount a i) (Z.of_nat (length left)) u = Some u' ∧ live u' ∧ ∀ k v, mail_key k → st_view u' k = Some v ↔ entry (l ++ [r]) (have_run l) k v.
Proof.
  intros Hlive Hl V. destruct woken_fits as (Hi & _). destruct (set_mail (PendingDataCount a i) (borsh_encode (Borsh := borsh_uint 4) (Z.of_nat (length left))) u Hi) as (u1 & H1 & B1 & V1 & _).
  exists u1. split_and!; [done|by rewrite B1|]. eapply (woken_entries u1 (Some _) (view (PostponedReceipt a i))); [naive_solver| |intros k Hk; rewrite V1, V by done; by keys].
  intros v. rewrite (own_view l w) by first [done|by eapply mail_ok_app|unfold owns; rewrite Hb; by rewrite Ha]. rewrite <-Ha, (post_receipt_iff _ _ _ b) by done.
  assert (missing l w ≠ []) by (intros Hm; rewrite Hm in Hd; by apply not_elem_of_nil in Hd). naive_solver.
Qed.

Lemma receive_ok u : live u → (∀ k, mail_key k → st_view u k = if decide (k = data_key) then Some stored else view k) →
  step_result l r (receive_pending r a d i) (set_rt_update u s).
Proof.
  intros Hlive V. pose proof (Permutation_length woken_perm) as Hlen. cbn [length] in Hlen. destruct woken_fits as (Hi & _).
  destruct (remove_mail (PostponedReceiptId a d) u data_length) as (u2 & Hu2 & B2 & V2). unfold step_result, ProcessReceipt.receive_pending, get_pending_data_count.
  assert (V2' : ∀ k, mail_key k → st_view u2 k = if decide (k = PostponedReceiptId a d) then None else if decide (k = data_key) then Some stored else view k) by (intros k Hk; by rewrite V2, V).
  rewrite (write_run (st_remove (PostponedReceiptId a d)) _ (set_rt_update u s) u2 Hu2).
  rewrite (read_run _ _ (set_rt_update u2 (set_rt_update u s)) _ (count_read u2 ltac:(rewrite V2' by done; by keys))). destruct left as [|e rest] eqn:Hl.
  - right. rewrite (proj2 (Z.eqb_eq _ 1)) by (by rewrite Hlen). destruct (receive_last u2) as (u3 & H3 & Hget & u4 & H4 & Hrun); [by rewrite B2|done|done|].
    rewrite (write_run (st_remove (PendingDataCount a i)) _ (set_rt_update u2 _) u3 H3), (read_run (λ u, get_postponed_receipt (st_get u) a i) _ (set_rt_update u3 _) (Some w) Hget), (write_run (remove_postponed_receipt a i) _ (set_rt_update u3 _) u4 H4). eexists w, _. split_and!; [done|by apply (woken_run enum_ok received_ok l r w d)|apply elem_of_app; by left|done].
  - left. rewrite (proj2 (Z.eqb_neq _ 1)) by (rewrite Hlen; cbn [length]; lia). rewrite checked_sub_ok by lia.
    destruct (receive_more u2) as (u3 & H3 & L3 & E3); [by rewrite B2|by rewrite Hl|done|]. unfold set_pending_data_count.
    assert (Z.of_nat (length (missing l w)) - 1 = Z.of_nat (length left)) as -> by (rewrite Hlen, Hl; cbn [length]; lia). rewrite (write_run (set_value (PendingDataCount a i) _) _ (set_rt_update u2 _) u3 H3).
    assert (have_run (l ++ [r]) = have_run l) as Hrun by (apply (woken_waits enum_ok received_ok l r w d); try done; by rewrite Hl).
    destruct (not_executed_ok (l ++ [r]) r (set_rt_update u3 (set_rt_update u2 (set_rt_update u s)))) as (s' & Hs' & Hm); [done|by rewrite Hrun|]. exists s'. done.
Qed.
End woken.

Lemma process_data_ok : step_result l r (process_data r x) s.
Proof.
  pose proof data_length as Hdl. destruct (set_mail data_key stored (rt_update s) Hdl) as (u & Hu & B & V & _). unfold step_result, ProcessReceipt.process_data, get_postponed_receipt_id.
  rewrite (write_run (set_received_data a d (mkReceivedData (Receipt.data x))) _ s u Hu). assert (Hl : live u) by (rewrite B; apply Hmail).
  assert (Hget : get_value (ValueBorsh := hash_borsh) (st_get u) (PostponedReceiptId a d) = Some (inr (view (PostponedReceiptId a d)) : StorageError + _)).
  { apply (get_value_ok key_ok st_view st_trie_view (λ h, length h = 32%nat) (BorshOk0 := hash_borsh_ok)); [by apply mail_keys_ok| |].
    - rewrite V by done. keys. by destruct (view _).
    - intros h (w & b & Hw & Hb & Ha & Hd & -> & Hbr)%data_claimed. eapply woken_fits; done. }
  rewrite (read_run _ _ (set_rt_update u s) _ Hget). destruct (view (PostponedReceiptId a d)) as [h|] eqn:Hv.
  - apply data_claimed in Hv as (w & b & Hw & Hb & Ha & Hd & -> & Hbr). by eapply receive_ok.
  - left. destruct (data_unclaimed u Hv B V) as [Hrun He]. destruct (not_executed_ok (l ++ [r]) r (set_rt_update u s)) as (s' & Hs' & Hm); [done|by rewrite Hrun|]. by exists s'.
Qed.
End data.

(** A new action receipt. *)
Section action.
Context (l : list Rcpt) (r : Rcpt) (b : ActionReceipt AccountId) (s : Rt) (Hok : mail_ok (l ++ [r])) (Hr : receipt r = ActionR b) (Hmail : mail l (rt_update s)).
Abbreviation a := (Receipt.receiver_id r).
Abbreviation i := (receipt_id r).
Abbreviation view := (st_view (rt_update s)).
Abbreviation process_action := (process_action as_bytes from_str get_account_type is_top_level is_sub_account_of system hash verify hex_decode is_valid_staking_key wallet_magic_bytes wallet_contract minimum_stake forward apply_state).

Lemma action_quiet x : missing (l ++ [r]) x = missing l x.
Proof. apply no_bringer. intros y e. apply waits_quiet. unfold waits. by rewrite Hr. Qed.

Lemma action_fits_32 : length i = 32%nat ∧ Forall (λ e, length e = 32%nat) (inputs r) ∧ Z.of_nat (length (inputs r)) <= umax 32 ∧ receipt_ok enum_ok r.
Proof. destruct (ok_fits _ _ Hok (last_elem l r)) as [R F]. unfold inputs. rewrite Hr in *. destruct F as (_ & L & B & _). split_and!; try done. apply R. Qed.

Lemma action_not_before : r ∉ l.
Proof. intros Hin. pose proof (last_compatible _ _ l r r Hok Hin eq_refl) as Hc. unfold compatible in Hc. rewrite Hr in Hc. by destruct Hc. Qed.

(** The data that is missing is the data that is not in the state. *)
Lemma pending_missing : filter (λ d, view (TrieKey.ReceivedData a d) = None) (inputs r) = missing l r.
Proof.
  unfold missing. apply filter_ext_elem. intros d Hd. assert (length d = 32%nat) as Hl by (destruct action_fits_32 as (_ & F & _); by eapply Forall_forall in F).
  pose proof (data_of_last enum_ok received_ok l r b d Hok Hr Hd) as Hiff. assert (d ∈ missing l r ↔ existsb (brings r d) l = false) as <- by (unfold missing; rewrite list_elem_of_filter; naive_solver).
  destruct (view (TrieKey.ReceivedData a d)) as [v|] eqn:Hv.
  - apply (ml_entries _ _ Hmail) in Hv; [|done]. split; [done|]. intros Hm. exfalso. apply (proj1 Hiff); [by eexists|done].
  - split; [|done]. intros _. destruct (decide (d ∈ missing l r)) as [|Hn]; [done|]. apply Hiff in Hn as [v He]. apply (ml_entries _ _ Hmail) in He; [congruence|done].
Qed.

Lemma own_absent k : mail_key k → owns r k → view k = None.
Proof.
  intros Hk Ho. destruct (view k) as [v|] eqn:Hv; [|done]. apply (ml_entries _ _ Hmail) in Hv as (w & Hw & Hq); [|done]. exfalso. apply action_not_before.
  assert (w = r) as <-; [|done]. eapply (owns_unique enum_ok received_ok (l ++ [r])); [done|apply elem_of_app; by left|done|by eapply post_owns|done].
Qed.

(** The entries, when the links were written and with the receipt and its count. *)
Lemma action_entries u (c p : option bytes) : (∀ v, c = Some v ↔ missing l r ≠ [] ∧ v = borsh_encode (Borsh := borsh_uint 4) (Z.of_nat (length (missing l r)))) → (∀ v, p = Some v ↔ missing l r ≠ [] ∧ v = borsh_encode r) →
  st_view u (PendingDataCount a i) = c → st_view u (PostponedReceipt a i) = p → (∀ d, d ∈ missing l r → st_view u (PostponedReceiptId a d) = Some i) →
  (∀ k, mail_key k → k ≠ PendingDataCount a i → k ≠ PostponedReceipt a i → (∀ d, d ∈ missing l r → k ≠ PostponedReceiptId a d) → st_view u k = view k) →
  ∀ k v, mail_key k → st_view u k = Some v ↔ entry (l ++ [r]) (have_run l) k v.
Proof.
  intros Hc Hp Vc Vp Vl Vo.
  assert (Hown : ∀ k v, mail_key k → owns r k → st_view u k = Some v ↔ post (missing (l ++ [r]) r) (have_run l) r k v).
  { intros k v Hk Ho. rewrite action_quiet. unfold owns in Ho. rewrite Hr in Ho. destruct k; try done; destruct Ho as [-> Ho]; [|rewrite Ho..].
    - rewrite (post_link_iff _ _ _ b) by done. destruct (decide (data_id ∈ missing l r)) as [Hm|Hm]; [rewrite Vl by done; naive_solver|].
      rewrite Vo; [|done|done|done|by intros d ? [= ->]]. rewrite own_absent; [naive_solver|done|]. unfold owns. by rewrite Hr.
    - rewrite Vc, Hc. by rewrite (post_count_iff _ _ _ b).
    - rewrite Vp, Hp. by rewrite (post_receipt_iff _ _ _ b). }
  apply (entries_update enum_ok received_ok l r r (have_run l) view (st_view u) mail_key Hok); [done|by intros; apply action_quiet|apply (ml_entries _ _ Hmail)|done|done|].
  intros k Hk Hn _. unfold owns in Hn. rewrite Hr in Hn. apply Vo; [done|..].
  - intros ->. by apply Hn.
  - intros ->. by apply Hn.
  - intros d Hd ->. apply Hn. split; [done|]. by eapply missing_inputs.
Qed.

Lemma action_runs (s1 : Rt) : missing l r = [] → live (rt_update s1) → (∀ k, mail_key k → st_view (rt_update s1) k = view k) → have_run (l ++ [r]) ≡ₚ r :: have_run l ∧ about_to_run (l ++ [r]) (have_run l) r (rt_update s1).
Proof.
  intros Hm Hl V. destruct action_fits_32 as (Hi & Hids & _). split.
  - apply have_run_last; [by intros; apply action_quiet|]. split; [unfold waits; by rewrite Hr|by rewrite action_quiet].
  - assert (He : ∀ k v, mail_key k → st_view (rt_update s1) k = Some v ↔ entry (l ++ [r]) (have_run l) k v).
    { apply (action_entries (rt_update s1) None None); [rewrite Hm; naive_solver..| | | |by intros; apply V].
      - rewrite V by done. apply own_absent; [done|]. unfold owns. by rewrite Hr.
      - rewrite V by done. apply own_absent; [done|]. unfold owns. by rewrite Hr.
      - rewrite Hm. by intros d ?%not_elem_of_nil. }
    split; [done|by intros k v Hk _; apply He|]. intros e Hin.
    destruct (inputs_there enum_ok received_ok (l ++ [r]) r b e (have_run l)) as (q & y & Hq & Ey & Hen); try done; [rewrite action_quiet, Hm; apply not_elem_of_nil| |].
    + intros y (Hy & Hwt & _)%have_run_elem. split_and!; [apply elem_of_app; by left|done|]. intros ->. by apply action_not_before.
    + eexists. apply He; [by eapply Forall_forall in Hids|by eapply data_entry].
Qed.

Lemma process_action_ok : step_result l r (process_action r b) s.
Proof.
  destruct action_fits_32 as (Hi & Hids & Hn & Hr0). assert (input_data_ids b = inputs r) as Ei by (unfold inputs; by rewrite Hr).
  destruct (count_pending_ok a i (inputs r) Hi Hids 0 s) as (s1 & Hc & B & S1 & V); [lia|lia|apply Hmail|]. cbv zeta in V. rewrite pending_missing in Hc.
  unfold step_result, ProcessReceipt.process_action. rewrite Z.add_0_l in Hc. rewrite Ei, (bind_Ok _ _ _ _ _ Hc). assert (Hl : live (rt_update s1)) by (rewrite B; apply Hmail).
  assert (Hlink : ∀ d, d ∈ missing l r ↔ d ∈ inputs r ∧ view (TrieKey.ReceivedData a d) = None) by (intros d; rewrite <-pending_missing, list_elem_of_filter; naive_solver).
  destruct (Z.eqb_spec (Z.of_nat (length (missing l r))) 0) as [Hz|Hz].
  - right. exists r, s1. assert (Hm : missing l r = []) by (apply length_zero_iff_nil; lia). destruct (action_runs s1 Hm Hl) as [Hp Hrun]; [|exact (conj eq_refl (conj Hp (conj (last_elem l r) Hrun)))].
    intros k Hk. apply (V k Hk). intros d Hd Hv. exfalso. assert (d ∈ missing l r) as Hin by by apply Hlink. rewrite Hm in Hin. by apply not_elem_of_nil in Hin.
  - left. assert (Hm : missing l r ≠ []) by (intros Hm; by rewrite Hm in Hz).
    destruct (set_mail (PendingDataCount a i) (borsh_encode (Borsh := borsh_uint 4) (Z.of_nat (length (missing l r)))) (rt_update s1) Hi) as (u2 & H2 & B2 & V2 & _).
    destruct (set_mail (PostponedReceipt a i) (borsh_encode r) u2 Hi) as (u3 & H3 & B3 & V3 & _). unfold set_pending_data_count.
    rewrite (write_run (set_value (ValueBorsh := borsh_uint 4) (PendingDataCount a i) _) _ s1 u2 H2), (write_run (set_postponed_receipt r) _ (set_rt_update u2 s1) u3) by (unfold set_postponed_receipt; by rewrite Hr).
    assert (Hrun : have_run (l ++ [r]) = have_run l) by (apply have_run_same; [by intros; apply action_quiet|]; intros [_ Hm']; by rewrite action_quiet in Hm').
    destruct (not_executed_ok (l ++ [r]) r (set_rt_update u3 (set_rt_update u2 s1))) as (s' & Hs' & Hmail'); [cbn; by rewrite B3, B2| |by exists s'].
    rewrite Hrun. cbn [rt_update set_rt_update]. eapply (action_entries u3 (Some _) (Some _)); [naive_solver|naive_solver|rewrite V3, V2 by done; by keys|rewrite V3 by done; by keys|..].
    + intros d Hd. assert (length d = 32%nat) by (apply Hlink in Hd as [Hd _]; by eapply Forall_forall in Hids). rewrite V3, V2 by done. keys. apply (V (PostponedReceiptId a d)); [done|]. exists d. apply Hlink in Hd. naive_solver.
    + intros k Hk N1 N2 N3. rewrite V3, V2 by done. keys. apply (V k Hk). intros d Hd Hv. by apply N3, Hlink.
Qed.
End action.

(** A receipt that leaves nothing behind. *)
Lemma mail_skip l r u : mail_ok (l ++ [r]) → (∀ x, x ∈ l → missing (l ++ [r]) x = missing l x) → waits r = false → (∀ k, ¬ owns r k) → mail l u → have_run (l ++ [r]) = have_run l ∧ mail (l ++ [r]) u.
Proof.
  intros Hok Hq Hw Hn [L S' E]. assert (Hrun : have_run (l ++ [r]) = have_run l) by (apply have_run_same; [done|]; intros [? _]; congruence). split; [done|]. split; [done..|]. rewrite Hrun.
  apply (entries_update enum_ok received_ok l r r (have_run l) (st_view u) (st_view u) mail_key Hok); try done; [by intros; apply Hq|intros; exfalso; by eapply Hn..].
Qed.

(** A new receipt that yields. *)
Section yield.
Context (l : list Rcpt) (r : Rcpt) (b : ActionReceipt AccountId) (s : Rt) (Hok : mail_ok (l ++ [r])) (Hr : receipt r = PromiseYield b) (Hmail : mail l (rt_update s)).
Abbreviation a := (Receipt.receiver_id r).

Lemma yield_missing : missing (l ++ [r]) r = inputs r.
Proof.
  rewrite no_bringer by (intros; apply waits_quiet; unfold waits; by rewrite Hr). unfold missing. apply filter_all_elem. intros d Hd. apply not_true_is_false. intros (q & Hq%list_elem_of_In & Hb)%existsb_exists.
  apply brings_inv in Hb as (R & _ & _ & [(b' & y & E1 & _)|(b' & y & E1 & E2 & <-)]); [congruence|]. pose proof (last_compatible _ _ l r q Hok Hq R) as Hc. unfold compatible in Hc. rewrite E2, Hr in Hc.
  unfold inputs in Hd. by rewrite Hr in Hd.
Qed.

Lemma process_yield_ok : ∃ s', (rt_write (set_promise_yield_receipt r) ≫= λ _, not_executed r) s = Ok None s' ∧ have_run (l ++ [r]) = have_run l ∧ mail (l ++ [r]) (rt_update s').
Proof.
  destruct (ok_fits _ _ Hok (last_elem l r)) as [R F]. rewrite Hr in F. destruct F as (_ & L & _ & _ & _ & Hone). destruct (input_data_ids b) as [|d [|]] eqn:Ed; try done.
  apply Forall_cons in L as [Hd _]. destruct (set_mail (PromiseYieldReceipt a d) (borsh_encode r) (rt_update s) Hd) as (u & Hu & B & V & _).
  rewrite (write_run (set_promise_yield_receipt r) _ s u) by (unfold set_promise_yield_receipt; by rewrite Hr, Ed). assert (Ei : inputs r = [d]) by (unfold inputs; by rewrite Hr).
  assert (Hq : ∀ x, x ∈ l → missing (l ++ [r]) x = missing l x) by (intros x _; apply no_bringer; intros; apply waits_quiet; unfold waits; by rewrite Hr).
  assert (Hrun : have_run (l ++ [r]) = have_run l) by (apply have_run_same; [done|]; intros [_ Hm]; by rewrite yield_missing, Ei in Hm).
  destruct (not_executed_ok (l ++ [r]) r (set_rt_update u s)) as (s' & Hs' & Hm); [cbn; rewrite B; apply Hmail| |by exists s']. rewrite Hrun. cbn [rt_update set_rt_update].
  assert (Hown : ∀ k v, mail_key k → owns r k → st_view u k = Some v ↔ post (missing (l ++ [r]) r) (have_run l) r k v).
  { intros k v Hk Ho. unfold owns in Ho. rewrite Hr in Ho. destruct k; try done. destruct Ho as [-> Ho]. rewrite Ei in Ho. apply list_elem_of_singleton in Ho. rewrite Ho, V, decide_True by (try done; by rewrite <-Ho).
    rewrite yield_missing, Ei, (post_yield_iff _ _ _ b), list_elem_of_singleton by done. naive_solver. }
  apply (entries_update enum_ok received_ok l r r (have_run l) (st_view (rt_update s)) (st_view u) mail_key Hok); [done|by intros; apply Hq|apply (ml_entries _ _ Hmail)|done|done|].
  intros k Hk Hn _. rewrite V by done. keys; [|done]. exfalso. apply Hn. unfold owns. rewrite Hr, Ei. split; [done|by left].
Qed.
End yield.

(** A receipt that resumes another. *)
Section resume.
Context (l : list Rcpt) (r : Rcpt) (x : DataReceipt) (s : Rt) (Hok : mail_ok (l ++ [r])) (Hr : receipt r = PromiseResume x) (Hmail : mail l (rt_update s)).
Abbreviation a := (Receipt.receiver_id r).
Abbreviation d := (data_id x).
Abbreviation view := (st_view (rt_update s)).
Abbreviation process_resume := (process_resume as_bytes from_str get_account_type is_top_level is_sub_account_of system hash verify hex_decode is_valid_staking_key wallet_magic_bytes wallet_contract minimum_stake forward apply_state).

Lemma resume_length : length d = 32%nat.
Proof. pose proof (ok_fits _ _ Hok (last_elem l r)) as [_ Hf]. rewrite Hr in Hf. apply Hf. Qed.

Lemma resume_brings w : brings w d r = true ↔ Receipt.receiver_id w = a ∧ ∃ b, receipt w = PromiseYield b.
Proof.
  unfold brings. rewrite andb_true_iff, bool_decide_eq_true, Hr. split.
  - intros [-> Hw]. destruct (receipt w); try done. eauto.
  - intros [-> [b ->]]. by rewrite bool_decide_eq_true.
Qed.

Lemma resume_ignored : view (PromiseYieldReceipt a d) = None → have_run (l ++ [r]) = have_run l ∧ mail (l ++ [r]) (rt_update s).
Proof.
  intros Hn. apply mail_skip; [done| |unfold waits; by rewrite Hr|intros k Ho; unfold owns in Ho; by rewrite Hr in Ho|done]. intros y Hy. apply missing_quiet. intros e He. apply not_true_is_false.
  intros (R & _ & _ & [(b & x' & E1 & E2 & <-)|(b & x' & E1 & E2 & <-)])%brings_inv; [congruence|]. assert (x' = x) as -> by congruence.
  assert (view (PromiseYieldReceipt a d) = Some (borsh_encode y)); [|congruence]. apply (ml_entries _ _ Hmail); [apply resume_length|]. exists y. split; [done|]. rewrite R. by eapply post_yield.
Qed.

Lemma resume_runs w b u : w ∈ l → receipt w = PromiseYield b → Receipt.receiver_id w = a → d ∈ missing l w → live u →
  (∀ k, mail_key k → st_view u k = if decide (k = TrieKey.ReceivedData a d) then Some (borsh_encode (mkReceivedData (Receipt.data x))) else if decide (k = PromiseYieldReceipt a d) then None else view k) →
  have_run (l ++ [r]) ≡ₚ w :: have_run l ∧ about_to_run (l ++ [r]) (have_run l) w u.
Proof.
  intros Hw Hb Ha Hd Hl V. assert (Hbr : brings w d r = true) by (apply resume_brings; eauto). destruct (ok_fits l w (mail_ok_app _ _ _ _ Hok) Hw) as [_ F]. rewrite Hb in F. destruct F as (Hnd & _ & _ & _ & _ & Hone).
  assert (Ei : inputs w = [d]). { pose proof (missing_inputs _ _ _ Hd) as Hi. unfold inputs in *. rewrite Hb in *. destruct (input_data_ids b) as [|e [|]]; try done. by apply list_elem_of_singleton in Hi as ->. }
  assert (Hm : missing (l ++ [r]) w = []). { rewrite missing_snoc. unfold missing. rewrite Ei. rewrite list_filter_filter, filter_singleton_False; [done|exact []|]. intros [? _]. congruence. }
  split; [by apply (woken_run enum_ok received_ok l r w d)|]. split; [done| |].
  - intros k v Hk Ht. apply (entries_update enum_ok received_ok l r w (have_run l) view (st_view u) (λ k, mail_key k ∧ ∀ e, e ∈ inputs w → k ≠ TrieKey.ReceivedData (Receipt.receiver_id w) e) Hok); [apply elem_of_app; by left|by apply (woken_others enum_ok received_ok l r w d)|..]; try done.
    + intros k' v' [Hk' _]. by apply (ml_entries _ _ Hmail).
    + intros k' v' [Hk' _] Ho. rewrite Hm. unfold owns in Ho. rewrite Hb in Ho. destruct k'; try done. destruct Ho as [-> Ho]. rewrite Ei in Ho. apply list_elem_of_singleton in Ho.
      rewrite V, Ha, Ho by done. keys. rewrite <-Ha, (post_yield_iff _ _ _ b) by done. split; [done|]. by intros [?%not_elem_of_nil _].
    + intros k' v' _ Ho. unfold owns in Ho. by rewrite Hr in Ho.
    + intros k' [Hk' Ht'] Ho _. rewrite V by done. keys; [exfalso; apply (Ht' d); [rewrite Ei; by left|by rewrite Ha]| |done]. exfalso. apply Ho. unfold owns. rewrite Hb, Ei. split; [done|by left].
  - intros e He. rewrite Ei in He. apply list_elem_of_singleton in He as ->. rewrite Ha, V, decide_True by (try done; apply resume_length). by eexists.
Qed.

Lemma resume_claimed v : view (PromiseYieldReceipt a d) = Some v → ∃ w b, w ∈ l ∧ receipt w = PromiseYield b ∧ Receipt.receiver_id w = a ∧ d ∈ missing l w ∧ v = borsh_encode w.
Proof.
  intros (w & Hw & Hp)%(ml_entries _ _ Hmail); [|apply resume_length]. inversion Hp as [| | |b e E Hd Ea|]; subst. by exists w, b.
Qed.

Lemma process_resume_ok : step_result l r (process_resume r x) s.
Proof.
  pose proof resume_length as Hdl. unfold step_result, ProcessReceipt.process_resume. destruct (view (PromiseYieldReceipt a d)) as [v|] eqn:Hv.
  - destruct (resume_claimed v Hv) as (w & b & Hw & Hb & Ha & Hd & ->). right.
    assert (Hget : get_promise_yield_receipt (st_get (rt_update s)) a d = Some (inr (Some w) : StorageError + _)).
    { apply (get_value_ok key_ok st_view st_trie_view (receipt_ok enum_ok) _ _ (Some w)); [by apply mail_keys_ok|by rewrite Hv|]. intros ? [= <-]. apply (ok_fits l w (mail_ok_app _ _ _ _ Hok) Hw). }
    destruct (remove_mail (PromiseYieldReceipt a d) (rt_update s) Hdl) as (u1 & H1 & B1 & V1). destruct (set_mail (TrieKey.ReceivedData a d) (borsh_encode (mkReceivedData (Receipt.data x))) u1 Hdl) as (u2 & H2 & B2 & V2 & _).
    rewrite (read_run (λ u, get_promise_yield_receipt (st_get u) a d) _ s _ Hget), (write_run (remove_promise_yield_receipt a d) _ s u1 H1), (write_run (set_received_data a d (mkReceivedData (Receipt.data x))) _ (set_rt_update u1 s) u2 H2).
    destruct (resume_runs w b u2) as [Hrun Hab]; try done; [rewrite B2, B1; apply Hmail|intros k Hk; by rewrite V2, V1 by done|].
    eexists w, (set_rt_update u2 (set_rt_update u1 s)). split_and!; [done|done|apply elem_of_app; by left|done].
  - assert (Hget : get_promise_yield_receipt (st_get (rt_update s)) a d = Some (inr None : StorageError + _)).
    { apply (get_value_ok key_ok st_view st_trie_view (receipt_ok enum_ok) _ _ None); [by apply mail_keys_ok|by rewrite Hv|done]. }
    rewrite (read_run (λ u, get_promise_yield_receipt (st_get u) a d) _ s _ Hget). left. exists s. split; [done|]. by apply resume_ignored.
Qed.
End resume.

(** ** Global contracts *)

Lemma mail_commit l c u u' : mail l u → rs_commit c u = Some u' → mail l u'.
Proof. intros [L S' E] Hc. destruct (rs_commit_ok _ _ _ Hc) as (B & V & _). split; [by rewrite B|by intros k Hk _; eapply ck_commit|]. intros k v Hk. rewrite V. by apply E. Qed.

Lemma mail_moved l u u' : mail l u → mail_same key_ok st_view st_trie_view u u' → mail l u'.
Proof.
  intros [L S' E] [B V]. split; [by rewrite B|intros k Hk Hm; eapply same_at_exact; [by apply V|by apply S']|]. intros k v Hk. rewrite (proj1 (V k (mail_keys_ok k Hk) Hk)). by apply E.
Qed.

Abbreviation apply_global_contract_distribution_receipt := (apply_global_contract_distribution_receipt system hash epoch_shard_layout forward apply_state).

Lemma distribution_ok l r g (s : Rt) : mail_ok (l ++ [r]) → receipt r = GlobalContractDistribution g → mail l (rt_update s) →
  have_run (l ++ [r]) = have_run l ∧ ensures (apply_global_contract_distribution_receipt r : RtM ()) s (λ _ s', mail (l ++ [r]) (rt_update s')).
Proof.
  intros Hok Hr Hmail. destruct (mail_skip l r (rt_update s) Hok) as [Hrun Hm]; [|unfold waits; by rewrite Hr|intros k Ho; unfold owns in Ho; by rewrite Hr in Ho|done|].
  { intros x _. apply no_bringer. intros y e. unfold brings. rewrite Hr, andb_comm. by destruct (receipt y). }
  split; [done|]. unfold ProcessReceipt.apply_global_contract_distribution_receipt. rewrite Hr. unfold apply_distribution_current_shard. rstep. rstep. rstep.
  assert (Hm1 : mail (l ++ [r]) u). { eapply mail_moved; [exact Hm|]. eapply (mail_same_set key_ok st_view st_trie_view); [|exact H]. intros k' Hk'. by destruct k'. }
  rstep. match goal with Hc : rs_commit _ _ = Some ?u |- _ => assert (Hm2 : mail (l ++ [r]) u) by by eapply mail_commit end.
  unfold forward_distribution_next_shard. destruct epoch_shard_layout as [e|layout]; [rstep|]. destruct (next_distribution _ _ g) as [next|]; [|by rstep].
  apply ensures_zoom. eapply ensures_mono; [apply (sink_frame key_ok st_view st_trie_view forward)|]. intros [] [k u3] F. by eapply mail_moved.
Qed.

(** ** All receipts *)

Abbreviation process_receipt := (process_receipt as_bytes from_str get_account_type is_top_level is_sub_account_of system hash verify hex_decode is_valid_staking_key wallet_magic_bytes wallet_contract minimum_stake epoch_shard_layout forward apply_state).

Lemma process_receipt_ok l r (s : Rt) : mail_ok (l ++ [r]) → mail l (rt_update s) → (∀ g, receipt r ≠ GlobalContractDistribution g) → step_result l r (process_receipt r) s.
Proof.
  intros Hok Hmail Hn. unfold step_result, ProcessReceipt.process_receipt. destruct (receipt r) as [b|x|b|x|g] eqn:Hr; [..|by destruct (Hn g)].
  - by apply process_action_ok.
  - by apply process_data_ok.
  - left. by eapply process_yield_ok.
  - by apply process_resume_ok.
Qed.

(** ** Execution *)

Context `{TheVmOk : !VmOk as_bytes get_account_type key_ok st_view st_saved st_trie_view (cfg_wasm (apply_config apply_state))} (as_bytes_inj : Inj (=) (=) as_bytes).
Context (account_keys_ok : ∀ id, key_ok (TrieKey.Account id) ∧ key_ok (ContractCode id)) (access_keys_ok : ∀ id pk, public_key_ok pk → key_ok (TrieKey.AccessKey id pk)).
Context (yield_keys_ok : key_ok TrieKey.PromiseYieldIndices ∧ ∀ i, in_u 64 i → key_ok (TrieKey.PromiseYieldTimeout i)).
Context (yield_indices_fit : ∀ data (i : PromiseYieldIndices) rest, borsh_decode data = Some (i, rest) → in_u 64 (yield_next_available_index i)).
Abbreviation apply_action_receipt := (apply_action_receipt as_bytes from_str get_account_type is_top_level is_sub_account_of system hash verify hex_decode is_valid_staking_key wallet_magic_bytes wallet_contract minimum_stake forward apply_state).
Abbreviation process_in_order := (process_in_order as_bytes from_str get_account_type is_top_level is_sub_account_of system hash verify hex_decode is_valid_staking_key wallet_magic_bytes wallet_contract minimum_stake epoch_shard_layout forward apply_state).

Lemma run_mail l ran w (s : Rt) : mail_ok l → w ∈ l → waits w = true → about_to_run l ran w (rt_update s) → have_run l ≡ₚ w :: ran →
  ensures (apply_action_receipt w : RtM Outcome) s (λ o s', outcome_id o = receipt_id w ∧ mail l (rt_update s')).
Proof.
  intros Hok Hw Hwt [L E _] Hp. destruct (ok_fits _ _ Hok Hw) as [_ F].
  assert (∃ b, apply_action_receipt w = apply_receipt_actions as_bytes from_str get_account_type is_top_level is_sub_account_of system hash verify hex_decode is_valid_staking_key wallet_magic_bytes wallet_contract minimum_stake forward apply_state w b ∧
    inputs w = input_data_ids b ∧ public_key_ok (signer_public_key b) ∧ Forall action_fits (receipt_actions b) ∧ Forall (λ d, length d = 32%nat) (input_data_ids b)) as (b & -> & Ei & Hpk & Hfit & Hids).
  { unfold ApplyReceipt.apply_action_receipt, inputs. unfold waits in Hwt. destruct (receipt w) as [b| |b| |]; try done; exists b; naive_solver. }
  eapply ensures_mono; [eapply apply_took; eauto; intros; by apply mail_keys_ok|]. intros o s' (Ho & [B D O] & S'). split; [done|]. split; [by rewrite B|done|].
  intros k v Hk. rewrite (entry_perm l (have_run l) (w :: ran)) by (intros y; by rewrite Hp). rewrite entry_ran.
  destruct (decide (Exists (λ d, k = TrieKey.ReceivedData (Receipt.receiver_id w) d) (inputs w))) as [(d & Hd & ->)%Exists_exists|Hn].
  - rewrite D by (exists d; by rewrite <-Ei). split; [done|]. intros [_ Hn]. by destruct (Hn d Hd).
  - assert (Hn' : ∀ d, d ∈ inputs w → k ≠ TrieKey.ReceivedData (Receipt.receiver_id w) d) by (intros d Hd ->; apply Hn, Exists_exists; eauto).
    rewrite O; [|by apply mail_keys_ok|done|intros (d & Hd & ->); rewrite <-Ei in Hd; by apply (Hn' d)]. rewrite E by done. naive_solver.
Qed.

(** The data that [w] waits for is in the state. *)
Definition has_inputs (w : Rcpt) (u : U) : Prop := ∀ d, d ∈ inputs w → ∃ x, st_view u (TrieKey.ReceivedData (Receipt.receiver_id w) d) = Some (borsh_encode (mkReceivedData x)).

(** How the processing of receipts fails: the execution of a receipt that is complete fails, or the distribution of a contract. *)
Definition failed_in {A} (l : list Rcpt) (x : outcome Rt (RuntimeError StorageError) A) : Prop :=
  ∃ w s, w ∈ l ∧ ((complete l w ∧ has_inputs w (rt_update s) ∧ failed_as ((apply_action_receipt w : RtM Outcome) s) x) ∨
                  ((∃ g, receipt w = GlobalContractDistribution g) ∧ failed_as ((apply_global_contract_distribution_receipt w : RtM ()) s) x)).

Lemma failed_in_app {A B} l l' (x : outcome Rt (RuntimeError StorageError) A) (y : outcome Rt (RuntimeError StorageError) B) : failed_in l x → (∀ C (z : outcome Rt (RuntimeError StorageError) C), failed_as z x → failed_as z y) → failed_in (l ++ l') y.
Proof.
  intros (w & s & Hw & Hf) Hxy. exists w, s. split; [apply elem_of_app; by left|]. destruct Hf as [(Hc & Hi & Hf)|[Hg Hf]]; [left|right]; eauto using complete_mono.
Qed.

Lemma run_step l r w (s : Rt) : mail_ok (l ++ [r]) → have_run (l ++ [r]) ≡ₚ w :: have_run l → w ∈ l ++ [r] → about_to_run (l ++ [r]) (have_run l) w (rt_update s) →
  match (executed_now w : RtM (option Outcome)) s with
  | Ok o s' => match o with Some o => [outcome_id o] | None => [] end ++ (receipt_id <$> have_run l) ≡ₚ receipt_id <$> have_run (l ++ [r]) ∧ mail (l ++ [r]) (rt_update s')
  | x => failed_in (l ++ [r]) x
  end.
Proof.
  intros Hok Hrun Hw Hab. assert (complete (l ++ [r]) w) as Hc. { assert (w ∈ have_run (l ++ [r])) as Hin by (rewrite Hrun; by left). by apply list_elem_of_filter in Hin as [? _]. }
  pose proof (run_mail (l ++ [r]) (have_run l) w s Hok Hw (proj1 Hc) Hab Hrun) as He. unfold ProcessReceipt.executed_now, mbind, M_bind, ensures in *.
  destruct (apply_action_receipt w s) as [o s'|e s'| |] eqn:Ea; cbn; [by destruct He as [-> ?]; rewrite Hrun|..]; exists w, s; (split; [done|]); left; (split_and!; [done|exact (ar_inputs _ _ _ _ Hab)|by rewrite Ea]).
Qed.

(** One receipt: what ran is in the outcome. *)
Lemma process_one l r (s : Rt) : mail_ok (l ++ [r]) → mail l (rt_update s) →
  match (process_receipt r : RtM (option Outcome)) s with
  | Ok o s' => match o with Some o => [outcome_id o] | None => [] end ++ (receipt_id <$> have_run l) ≡ₚ receipt_id <$> have_run (l ++ [r]) ∧ mail (l ++ [r]) (rt_update s')
  | x => failed_in (l ++ [r]) x
  end.
Proof.
  intros Hok Hmail. destruct (receipt r) as [b|x|b|x|g] eqn:Hr.
  5: { destruct (distribution_ok l r g s Hok Hr Hmail) as [Hrun He]. unfold ProcessReceipt.process_receipt. rewrite Hr. unfold mbind, M_bind, ensures in *.
       destruct (apply_global_contract_distribution_receipt r s) as [[] s'|e s'| |] eqn:Ed; cbn; [by rewrite Hrun|..]; exists r, s; (split; [apply last_elem|]); right; (split; [by eexists|]); by rewrite Ed. }
  all: destruct (process_receipt_ok l r s Hok Hmail) as [(s' & -> & Hrun & Hm)|(w & s1 & -> & Hrun & Hw & Hab)]; [intros g; congruence|by rewrite Hrun|]; by apply run_step.
Qed.

Lemma process_rest rest : ∀ l (s : Rt), mail_ok (l ++ rest) → mail l (rt_update s) →
  match (process_in_order rest : RtM (list Outcome)) s with
  | Ok outs s' => (outcome_id <$> outs) ++ (receipt_id <$> have_run l) ≡ₚ receipt_id <$> have_run (l ++ rest) ∧ mail (l ++ rest) (rt_update s')
  | x => failed_in (l ++ rest) x
  end.
Proof.
  induction rest as [|r rest IH]; intros l s Hok Hmail; cbn [ProcessReceipt.process_in_order]; [rewrite app_nil_r; by split|]. rewrite (cons_middle r l rest), app_assoc in Hok |- *.
  pose proof (process_one l r s (mail_ok_app _ _ _ _ Hok) Hmail) as Hone. unfold mbind, M_bind.
  destruct (process_receipt r s) as [o s1|e s1| |]; [|eapply failed_in_app; [exact Hone|done]..]. destruct Hone as [Hp Hm]. specialize (IH (l ++ [r]) s1 Hok Hm).
  destruct (process_in_order rest s1) as [outs s2|e s2| |]; cbn [mret M_ret]; [|done..]. destruct IH as [Hp' Hm']. split; [|done]. rewrite <-Hp', <-Hp. destruct o as [o|]; cbn; [|done].
  by rewrite <-Permutation_middle.
Qed.

(** C3: Receipts run exactly once.  When a shard processes receipts one after the other, starting without mail, the receipts that were executed are, each once,
    the action receipts all of whose input data came along and the yielded receipts that were resumed, in whatever order receipts and data
    arrived and wherever the input was already there; the state holds the data, links, counts and receipts that are still waiting and no others.  The run
    fails only if the execution of such a receipt fails, and then its data is in the state, or if the distribution of a global contract fails: the bookkeeping never finds
    the state inconsistent and does not panic. *)
Theorem receipts_run_exactly_once l (s : Rt) : mail_ok l → mail [] (rt_update s) →
  match (process_in_order l : RtM (list Outcome)) s with
  | Ok outs s' => outcome_id <$> outs ≡ₚ receipt_id <$> have_run l ∧ mail l (rt_update s')
  | x => failed_in l x
  end.
Proof.
  intros Hok Hmail. pose proof (process_rest l [] s Hok Hmail) as H. cbn [app] in H. destruct (process_in_order l s); [|done..]. by rewrite app_nil_r in H.
Qed.
End correct.
