(* ===== verification/ProcessCorrect.v ===== *)
(** Correctness of the processing of transactions: with the prefetched values, the validity masks of the jobs and the writes at the
    end, it does what charging the transactions one after the other on the ledger does. *)

From stdpp Require Import functions sorting.
From S2P Require Import Prelude Errors Borsh Costs TrieKey Fees Receipt Account StoreUtils Verifier Transaction TrieQueue ReceiptQueues ProcessTransactions ActionsCorrect.
Local Open Scope Z_scope.

(** What a receipt sink promises: [sink_inv todo handled] is the condition under which it accepts the receipts [todo] after it accepted
    [handled]; it uses only the keys [own_key]. *)
Class ReceiptSinkOk {AccountId StorageError U K : Type} (key_ok : TrieKey AccountId → Prop) (st_view : U → TrieKey AccountId → option (list Z))
    (st_trie_view : U → Base (TrieKey AccountId)) (own_key : TrieKey AccountId → Prop) (forward : Receipt AccountId → M (K * U) (RuntimeError StorageError) ())
    (sink_inv : list (Receipt AccountId) → list (Receipt AccountId) → K * U → Prop) : Prop := {
  forward_ok r todo handled s : sink_inv (r :: todo) handled s →
    returns (forward r) s (λ _ s', sink_inv todo (handled ++ [r]) s' ∧ st_trie_view s'.2 = st_trie_view s.2 ∧
      ∀ k, key_ok k → ¬ own_key k → st_view s'.2 k = st_view s.2 k);
  sink_skip r todo handled s : sink_inv (r :: todo) handled s → sink_inv todo handled s;
  sink_same todo handled x u u' : sink_inv todo handled (x, u) → st_trie_view u' = st_trie_view u →
    (∀ k, key_ok k → own_key k → st_view u' k = st_view u k) → sink_inv todo handled (x, u')
}.

(** Values that the fields of an access key can hold: integers of their widths and strings. *)
Definition string_ok (s : bytes) : Prop := utf8_ok s = true ∧ Z.of_nat (length s) <= umax 32.

Definition access_key_ok (k : AccessKey) : Prop :=
  in_u 64 (access_nonce k) ∧
  match permission k with
  | PermFullAccess => True
  | PermFunctionCall p => (∀ a, allowance p = Some a → in_u 128 a) ∧ string_ok (permitted_receiver p) ∧ Forall string_ok (method_names p) ∧ Z.of_nat (length (method_names p)) <= umax 32
  end.

Lemma reduced_key_ok cost k : 0 <= cost → allowance_covers cost k → access_key_ok k → access_key_ok (reduced_key cost k).
Proof.
  unfold access_key_ok, allowance_covers, reduced_key, charged_permission. destruct k as [n [p|]]; cbn [permission set_permission access_nonce]; [|done].
  intros Hc Ha (Hn & Hp & Hs). split_and!; [done| |apply Hs..]. intros x Hx. cbn [allowance set_allowance] in Hx. apply fmap_Some in Hx as (a & Hx & ->).
  specialize (Ha a Hx). specialize (Hp a Hx). unfold in_u in *. lia.
Qed.

Section correct.
Context {AccountId StorageError U K : Type} `{!EqDecision AccountId} `{!Countable AccountId} `{!StateStore (TrieKey AccountId) StorageError U}.
Context `{!Borsh AccountId} `{!Borsh AccessKey} `{!Borsh (list (Action AccountId))}.
Context (as_bytes : AccountId → bytes) (from_str : bytes → option AccountId) (get_account_type : AccountId → AccountType).
Context (hash : bytes → bytes) (verify : bytes → bytes → PublicKey → bool) (is_valid_staking_key : PublicKey → bool).
Context (fees : RuntimeFeesConfig) (wasm_config : VmConfig) (limit_config : LimitConfig) (storage_amount_per_byte : Z).
Context (threads : nat) (commit : bytes → U → option U) (forward : Receipt AccountId → M (K * U) (RuntimeError StorageError) ()).
Context (key_ok : TrieKey AccountId → Prop) (st_view : U → TrieKey AccountId → option (list Z)) (st_trie_view : U → Base (TrieKey AccountId)).
Context `{!StateStoreOk (TrieKey AccountId) StorageError U key_ok st_view st_trie_view}.
Context `{!BorshOk AccountId (λ _, True)} `{!BorshOk AccessKey access_key_ok}.
Context (commit_ok : ∀ h u, base_live (st_trie_view u) = true → ∃ u', commit h u = Some u' ∧ st_trie_view u' = st_trie_view u ∧ ∀ k, st_view u' k = st_view u k).
Context (own_key : TrieKey AccountId → Prop) (sink_inv : list (Receipt AccountId) → list (Receipt AccountId) → K * U → Prop).
Context `{!ReceiptSinkOk key_ok st_view st_trie_view own_key forward sink_inv}.

Abbreviation Signed := (SignedTransaction (AccountId := AccountId)).
Abbreviation Rcpt := (Receipt AccountId).
Abbreviation Error := (RuntimeError StorageError).
Abbreviation Acct := (Account AccountId).
Abbreviation State := (TxState (AccountId := AccountId) (StorageError := StorageError) (U := U) (K := K)).
Abbreviation Cache := (Prefetched (AccountId := AccountId) (StorageError := StorageError)).
Abbreviation PM := (M State Error).

(** * The ledger *)

Record Ledger : Type := mkLedger {
  ledger_account : AccountId → option Acct;
  ledger_key : AccountId * PublicKey → option AccessKey
}.

Definition signer (tx : Signed) : AccountId := tx_signer_id (transaction tx).
Definition signing_key (tx : Signed) : AccountId * PublicKey := (signer tx, tx_public_key (transaction tx)).

(** The keys of accounts and access keys are well formed and do not belong to the sink. *)
Context (account_keys : ∀ id, key_ok (TrieKey.Account id) ∧ ¬ own_key (TrieKey.Account id)).
Context (access_keys_foreign : ∀ id pk, ¬ own_key (TrieKey.AccessKey id pk)).

(** The state holds the ledger. *)
Record ledger_rep (L : Ledger) (u : U) : Prop := {
  lr_account id : st_view u (TrieKey.Account id) = borsh_encode <$> ledger_account L id;
  lr_key id pk : key_ok (TrieKey.AccessKey id pk) → st_view u (TrieKey.AccessKey id pk) = borsh_encode <$> ledger_key L (id, pk);
  lr_account_ok id a : ledger_account L id = Some a → account_ok a;
  lr_key_ok i k : ledger_key L i = Some k → access_key_ok k
}.

Lemma get_account_ok L u id : ledger_rep L u → get_account (st_get u) id = Some (inr (ledger_account L id) : StorageError + _).
Proof. intros [H1 _ H3 _]. apply (get_value_ok key_ok st_view st_trie_view account_ok); [apply account_keys|done|apply H3]. Qed.

Lemma get_access_key_ok L u id pk : ledger_rep L u → key_ok (TrieKey.AccessKey id pk) → get_access_key (st_get u) id pk = Some (inr (ledger_key L (id, pk)) : StorageError + _).
Proof. intros [_ H2 _ H4] Hk. apply (get_value_ok key_ok st_view st_trie_view access_key_ok); [done|by apply H2|apply H4]. Qed.

(** The cache holds the values of the ledger for the signers of [txs]. *)
Record cache_rep (L : Ledger) (txs : list Signed) (p : Cache) : Prop := {
  cr_account id : accounts p !! id = if decide (id ∈ signer <$> txs) then Some (inr (ledger_account L id)) else None;
  cr_key i : access_keys p !! i = if decide (i ∈ signing_key <$> txs) then Some (inr (ledger_key L i)) else None
}.

Lemma or_insert_lookup {I V} `{!EqDecision I} `{!Countable I} (f : Signed → I) (g : I → V) (m : gmap I V) txs tx :
  (∀ i, m !! i = if decide (i ∈ f <$> txs) then Some (g i) else None) →
  ∃ m', or_insert_with m (f tx) (Some (g (f tx))) = Some m' ∧ ∀ i, m' !! i = if decide (i ∈ f <$> txs ++ [tx]) then Some (g i) else None.
Proof.
  intros Hm. unfold or_insert_with. assert (∀ i, i ∈ f <$> txs ++ [tx] ↔ i ∈ f <$> txs ∨ i = f tx) as Hin by (intros i; rewrite fmap_app, elem_of_app; cbn; by rewrite list_elem_of_singleton).
  rewrite Hm. destruct (decide (f tx ∈ f <$> txs)) as [Ht|Ht]; eexists; (split; [done|]); intros i.
  - rewrite Hm. apply decide_ext. rewrite Hin. naive_solver.
  - destruct (decide (i = f tx)) as [->|Hne]; [rewrite lookup_insert_eq, decide_True by (apply Hin; by right); done|].
    rewrite lookup_insert_ne, Hm by done. apply decide_ext. rewrite Hin. naive_solver.
Qed.

Lemma prefetch_tx_ok L u txs p tx : ledger_rep L u → cache_rep L txs p → key_ok (TrieKey.AccessKey (signer tx) (tx_public_key (transaction tx))) →
  ∃ p', prefetch_tx (st_get u) p tx = Some p' ∧ cache_rep L (txs ++ [tx]) p'.
Proof.
  intros HL [C1 C2] Hk. unfold prefetch_tx. fold (signer tx). rewrite (get_account_ok L), (get_access_key_ok L) by done. fold (signing_key tx).
  destruct (or_insert_lookup signer (λ id, inr (ledger_account L id) : StorageError + _) _ txs tx C1) as (a & -> & Ha). cbn [mbind option_bind].
  destruct (or_insert_lookup signing_key (λ i, inr (ledger_key L i) : StorageError + _) _ txs tx C2) as (k & -> & Hk'). by eexists.
Qed.

Lemma prefetch_ok L u txs p pre : ledger_rep L u → cache_rep L pre p → (∀ tx, tx ∈ txs → key_ok (TrieKey.AccessKey (signer tx) (tx_public_key (transaction tx)))) →
  ∃ p', prefetch (st_get u) txs p = Some p' ∧ cache_rep L (pre ++ txs) p'.
Proof.
  intros HL. revert pre p. induction txs as [|tx txs IH]; intros pre p Hp Hk; [exists p; by rewrite app_nil_r|]. cbn [prefetch].
  destruct (prefetch_tx_ok L u pre p tx HL Hp) as (p1 & -> & Hp1); [apply Hk; by left|]. cbn [mbind option_bind].
  destruct (IH _ _ Hp1) as (p' & Hp' & Hr); [intros t Ht; apply Hk; by right|]. exists p'. by rewrite <-app_assoc in Hr.
Qed.

(** * Charging on the ledger *)

Context (gas_price block_height protocol_version : Z).
Context (fees_fit : fees_ok fees) (gas_price_fits : in_u 128 gas_price) (height_ok : height_fits (Some block_height)).

Definition cost_of (tx : Signed) : option TransactionCost :=
  match tx_cost as_bytes get_account_type fees wasm_config (transaction tx) gas_price protocol_version with ROk c => Some c | _ => None end.

Definition put_ledger (L : Ledger) (tx : Signed) (ak : Acct * AccessKey) : Ledger :=
  mkLedger (<[signer tx := Some ak.1]> (ledger_account L)) (<[signing_key tx := Some ak.2]> (ledger_key L)).

Definition may_pay (L : Ledger) (tx : Signed) (c : TransactionCost) (a : Acct) (k : AccessKey) : Prop :=
  cost_of tx = Some c ∧ ledger_account L (signer tx) = Some a ∧ ledger_key L (signing_key tx) = Some k ∧
  covered (transaction tx) (total_cost c) (Some block_height) a k.

Definition final_checks_pass (tx : Signed) (c : TransactionCost) (a : Acct) (k : AccessKey) : Prop :=
  stake_fits storage_amount_per_byte a (amount a - total_cost c) ∧ permitted as_bytes (transaction tx) k.

(** One transaction: it is charged, or it spends its allowance without being charged, or it has no effect. *)
Inductive ledger_step (L : Ledger) (tx : Signed) : Ledger → list (Signed * TransactionCost) → Prop :=
| step_accepted c a k : may_pay L tx c a k → final_checks_pass tx c a k →
    ledger_step L tx (put_ledger L tx (charged (transaction tx) (total_cost c) a k)) [(tx, c)]
| step_spent c a k : may_pay L tx c a k → ¬ final_checks_pass tx c a k →
    ledger_step L tx (put_ledger L tx (a, reduced_key (total_cost c) k)) []
| step_ignored : (∀ c a k, ¬ may_pay L tx c a k) → ledger_step L tx L [].

Inductive ledger_run : Ledger → list Signed → Ledger → list (Signed * TransactionCost) → Prop :=
| run_nil L : ledger_run L [] L []
| run_cons L tx L1 acc1 txs L2 acc2 : ledger_step L tx L1 acc1 → ledger_run L1 txs L2 acc2 → ledger_run L (tx :: txs) L2 (acc1 ++ acc2).

(** * The loop *)

(** Transactions whose fields fit their types and for which the checks do not panic. *)
Record tx_fine (tx : Signed) : Prop := {
  tf_key : key_ok (TrieKey.AccessKey (signer tx) (tx_public_key (transaction tx)));
  tf_actions : Forall (action_ok as_bytes) (tx_actions (transaction tx));
  tf_nonce : in_u 64 (tx_nonce (transaction tx));
  tf_valid : is_Some (is_valid_transaction (StorageError := StorageError) as_bytes from_str verify is_valid_staking_key limit_config protocol_version tx);
  tf_cost : tx_cost as_bytes get_account_type fees wasm_config (transaction tx) gas_price protocol_version ≠ RPanic
}.

Definition receipt_of (p : Signed * TransactionCost) : Rcpt := tx_receipt hash p.1 block_height (receipt_gas_price p.2).
Definition outcome_of (p : Signed * TransactionCost) : TxOutcome := tx_outcome p.1 (receipt_of p) (result_of p.2).
Definition to_itself (p : Signed * TransactionCost) : Prop := tx_receiver_id (transaction p.1) = signer p.1.
#[local] Instance to_itself_dec p : Decision (to_itself p).
Proof. unfold to_itself. apply _. Defined.

Definition local_of (acc : list (Signed * TransactionCost)) : list Rcpt := receipt_of <$> filter to_itself acc.
Definition forwarded_of (acc : list (Signed * TransactionCost)) : list Rcpt := receipt_of <$> filter (λ p, ¬ to_itself p) acc.
Definition burnt_of (acc : list (Signed * TransactionCost)) : Z := sum_Z ((λ p, burnt_amount p.2) <$> acc).
Definition burnt_gas_of (acc : list (Signed * TransactionCost)) : Z := sum_Z ((λ p, gas_burnt p.2) <$> acc).

(** The transactions that could be accepted. *)
Definition candidates (txs : list Signed) : list (Signed * TransactionCost) := omap (λ tx, pair tx <$> cost_of tx) txs.

Lemma cost_nonneg tx c : Forall (action_ok as_bytes) (tx_actions (transaction tx)) → cost_of tx = Some c →
  0 <= total_cost c ∧ 0 <= burnt_amount c ∧ 0 <= gas_burnt c.
Proof.
  intros Ha. unfold cost_of. destruct (tx_cost _ _ _ _ _ _ _) as [c'| |] eqn:Hc; [|done..]. intros [= <-].
  apply tx_cost_iff in Hc as (_ & _ & p & Hp & _ & ->); [|done..]. cbn. apply price_nonneg in Hp; [|done].
  destruct (costs_nonneg as_bytes get_account_type fees wasm_config fees_fit _ (transaction tx) (tx_receiver_id (transaction tx)) Ha Ha) as (? & ? & ? & ?). unfold in_u in gas_price_fits. split_and!; nia.
Qed.

Record running (all : list Signed) (s0 : State) (L : Ledger) (acc : list (Signed * TransactionCost)) (rest : list Signed) (s : State) : Prop := {
  pr_fine : Forall tx_fine rest;
  pr_cache : cache_rep L all (prefetched s);
  pr_accounts id a : ledger_account L id = Some a → account_ok a;
  pr_keys i k : ledger_key L i = Some k → access_key_ok k;
  pr_burnt : tx_burnt_amount s = tx_burnt_amount s0 + burnt_of acc;
  pr_gas : total_gas s = total_gas s0 + burnt_gas_of acc;
  pr_compute : total_compute s = total_compute s0 + burnt_gas_of acc;
  pr_local : local_receipts s = local_receipts s0 ++ local_of acc;
  pr_outcomes : outcomes s = outcomes s0 ++ (outcome_of <$> acc);
  pr_sink : sink_inv (forwarded_of (candidates rest)) (forwarded_of acc) (sink_and_update s);
  pr_base : st_trie_view (sink_and_update s).2 = st_trie_view (sink_and_update s0).2;
  pr_view k : key_ok k → ¬ own_key k → st_view (sink_and_update s).2 k = st_view (sink_and_update s0).2 k;
  pr_burnt_room : tx_burnt_amount s + burnt_of (candidates rest) <= umax 128;
  pr_gas_room : total_gas s + burnt_gas_of (candidates rest) <= umax 64;
  pr_compute_room : total_compute s + burnt_gas_of (candidates rest) <= umax 64
}.

Lemma candidates_cons tx txs : candidates (tx :: txs) = match cost_of tx with Some c => (tx, c) :: candidates txs | None => candidates txs end.
Proof. unfold candidates. cbn. by destruct (cost_of tx). Qed.

Lemma burnt_of_cons p acc : burnt_of (p :: acc) = burnt_amount p.2 + burnt_of acc.
Proof. unfold burnt_of. by rewrite fmap_cons, sum_Z_cons. Qed.
Lemma burnt_gas_of_cons p acc : burnt_gas_of (p :: acc) = gas_burnt p.2 + burnt_gas_of acc.
Proof. unfold burnt_gas_of. by rewrite fmap_cons, sum_Z_cons. Qed.
Lemma burnt_of_snoc acc p : burnt_of (acc ++ [p]) = burnt_of acc + burnt_amount p.2.
Proof. unfold burnt_of. rewrite fmap_app, sum_Z_app. cbn. lia. Qed.
Lemma burnt_gas_of_snoc acc p : burnt_gas_of (acc ++ [p]) = burnt_gas_of acc + gas_burnt p.2.
Proof. unfold burnt_gas_of. rewrite fmap_app, sum_Z_app. cbn. lia. Qed.

Lemma candidates_nonneg txs : Forall tx_fine txs → 0 <= burnt_of (candidates txs) ∧ 0 <= burnt_gas_of (candidates txs).
Proof.
  induction 1 as [|tx txs Hf _ IH]; [done|]. rewrite candidates_cons. destruct (cost_of tx) as [c|] eqn:Hc; [|done].
  destruct (cost_nonneg tx c (tf_actions _ Hf) Hc) as (_ & Hb & Hg). rewrite burnt_of_cons, burnt_gas_of_cons. cbn [snd]. lia.
Qed.

Lemma running_skip all s0 L acc tx rest s : running all s0 L acc (tx :: rest) s → running all s0 L acc rest s.
Proof.
  intros [F C A Ke B G Co Lo O S Ba V RB RG RC]. apply Forall_cons in F as [Hf F]. rewrite candidates_cons in *. destruct (cost_of tx) as [c|] eqn:Hc; [|done].
  destruct (cost_nonneg tx c (tf_actions _ Hf) Hc) as (_ & Hb & Hg). rewrite burnt_of_cons in RB. rewrite burnt_gas_of_cons in RG, RC. cbn [snd] in *.
  split; try done; [|lia..]. unfold forwarded_of in S |- *. rewrite filter_cons in S. case_decide; [by eapply sink_skip|done].
Qed.

Lemma running_cache all s0 L L' acc rest s p : running all s0 L acc rest s → cache_rep L' all p → (∀ id a, ledger_account L' id = Some a → account_ok a) →
  (∀ i k, ledger_key L' i = Some k → access_key_ok k) → running all s0 L' acc rest (set_prefetched p s).
Proof. intros [F C A Ke B G Co Lo O S Ba V RB RG RC] Hc Ha Hk. by split. Qed.

Lemma running_hash all s0 L acc rest s h : running all s0 L acc rest s → running all s0 L acc rest (set_last_hash h s).
Proof. intros [F C A Ke B G Co Lo O S Ba V RB RG RC]. by split. Qed.

Definition put_cache (p : Cache) (tx : Signed) (ak : Acct * AccessKey) : Cache :=
  mkPrefetched (<[signer tx := inr (Some ak.1)]> (accounts p)) (<[signing_key tx := inr (Some ak.2)]> (access_keys p)).

Lemma insert_fn_lookup {I V} `{!EqDecision I} `{!Countable I} (f : Signed → I) (g : I → V) (m : gmap I (StorageError + V)) (all : list Signed) tx v : tx ∈ all →
  (∀ i, m !! i = if decide (i ∈ f <$> all) then Some (inr (g i)) else None) →
  ∀ i, <[f tx := inr v]> m !! i = if decide (i ∈ f <$> all) then Some (inr (<[f tx := v]> g i)) else None.
Proof.
  intros Ht Hm i. destruct (decide (i = f tx)) as [->|Hne].
  - rewrite lookup_insert_eq, decide_True, fn_lookup_insert by (by apply list_elem_of_fmap_2). done.
  - rewrite lookup_insert_ne, Hm, fn_lookup_insert_ne by done. done.
Qed.

Lemma cache_put L all p tx ak : tx ∈ all → cache_rep L all p → cache_rep (put_ledger L tx ak) all (put_cache p tx ak).
Proof. intros Ht [C1 C2]. split; cbn [put_cache accounts access_keys put_ledger ledger_account ledger_key]; by apply insert_fn_lookup. Qed.

Lemma cache_put_same L all p tx a k : tx ∈ all → cache_rep L all p → ledger_account L (signer tx) = Some a → ledger_key L (signing_key tx) = Some k →
  put_cache p tx (a, k) = p.
Proof.
  intros Ht [C1 C2] Ha Hk. unfold put_cache. destruct p as [pa pk]. cbn [accounts access_keys fst snd] in *. f_equal; apply insert_id.
  - rewrite C1, decide_True, Ha by (by apply list_elem_of_fmap_2). done.
  - rewrite C2, decide_True, Hk by (by apply list_elem_of_fmap_2). done.
Qed.

Lemma total_add_ok g (s : State) : total_gas s + g <= umax 64 → total_compute s + g <= umax 64 →
  total_add g g s = Ok () (set_total (total_gas s + g) (total_compute s + g) s : State).
Proof.
  intros Hg Hc. unfold total_add. erewrite bind_Ok by done. unfold safe_add_gas, safe_add_compute. rewrite !checked_add_ok by done.
  erewrite bind_Ok by by apply run_res_ok. erewrite bind_Ok by done. by erewrite bind_Ok by by apply run_res_ok.
Qed.

(** The receipt of an accepted transaction. *)
Lemma emit_receipt_ok all s0 L acc tx c rest s : cost_of tx = Some c → running all s0 L acc (tx :: rest) s →
  returns (emit_receipt hash forward tx block_height (result_of c)) s (λ _ s', running all s0 L (acc ++ [(tx, c)]) rest s').
Proof.
  intros Hc [F C A Ke B G Co Lo O S Ba V RB RG RC]. apply Forall_cons in F as [Hf F]. destruct (cost_nonneg tx c (tf_actions _ Hf) Hc) as (_ & Hb & Hg).
  rewrite candidates_cons, Hc in *. destruct (candidates_nonneg rest F) as [Hb' Hg']. rewrite burnt_of_cons in RB. rewrite burnt_gas_of_cons in RG, RC. cbn [snd] in *.
  unfold emit_receipt. eapply returns_step; [done|]. unfold safe_add_balance. cbn [result_of vr_burnt_amount]. rewrite checked_add_ok by lia. cbn [ok_or].
  eapply returns_step; [done|]. eapply (returns_bind _ _ _ (λ _ s', s' = set_sink_and_update (sink_and_update s') (set_local (local_receipts s ++ local_of [(tx, c)]) (set_tx_burnt (tx_burnt_amount s + burnt_amount c) s)) ∧
    sink_inv (forwarded_of (candidates rest)) (forwarded_of (acc ++ [(tx, c)])) (sink_and_update s') ∧
    st_trie_view (sink_and_update s').2 = st_trie_view (sink_and_update s0).2 ∧ ∀ k, key_ok k → ¬ own_key k → st_view (sink_and_update s').2 k = st_view (sink_and_update s0).2 k)).
  - unfold forwarded_of, local_of in *. rewrite filter_app, fmap_app, !filter_cons, !filter_nil in *. cbn [fst]. destruct (decide (to_itself (tx, c))) as [Ht|Ht].
    + rewrite bool_decide_true by exact Ht. rewrite decide_False in S |- * by (intros H; by apply H). eapply returns_Ok; [done|]. cbn. rewrite app_nil_r. destruct s; done.
    + rewrite bool_decide_false by exact Ht. rewrite decide_True in S |- * by done. eapply returns_zoom, returns_mono; [by apply forward_ok|].
      intros [] t (HS & HB & HV). cbn in *. split_and!; [by rewrite app_nil_r; destruct s|done|congruence|]. intros k Hk Ho. by rewrite HV, V.
  - intros _ s' (Hs & HS & HB & HV). eapply returns_step.
    { apply total_add_ok; rewrite Hs; cbn; lia. }
    eapply returns_step; [done|]. apply returns_Ok with () (set_outcomes (outcomes s' ++ [outcome_of (tx, c)]) (set_total (total_gas s' + gas_burnt c) (total_compute s' + gas_burnt c) s')); [done|].
    destruct s as [p b l tg tc o h ku], s' as [p' b' l' tg' tc' o' h' ku']. unfold set_sink_and_update, set_local, set_tx_burnt in Hs. cbn in *. injection Hs as -> -> -> -> -> -> ->.
    split; cbn; try done; rewrite ?burnt_of_snoc, ?burnt_gas_of_snoc; cbn [snd]; try lia.
    + rewrite Lo, <-app_assoc. f_equal. unfold local_of. by rewrite filter_app, fmap_app.
    + by rewrite O, fmap_app, <-app_assoc.
Qed.

Lemma ledger_ok_put L tx ak : (∀ id a, ledger_account L id = Some a → account_ok a) → (∀ i k, ledger_key L i = Some k → access_key_ok k) →
  account_ok ak.1 → access_key_ok ak.2 →
  (∀ id a, ledger_account (put_ledger L tx ak) id = Some a → account_ok a) ∧ (∀ i k, ledger_key (put_ledger L tx ak) i = Some k → access_key_ok k).
Proof.
  intros Ha Hk H1 H2. split; intros i x; cbn [put_ledger ledger_account ledger_key].
  - destruct (decide (signer tx = i)) as [<-|Hne]; [rewrite fn_lookup_insert; by intros [= <-]|rewrite fn_lookup_insert_ne by done; apply Ha].
  - destruct (decide (signing_key tx = i)) as [<-|Hne]; [rewrite fn_lookup_insert; by intros [= <-]|rewrite fn_lookup_insert_ne by done; apply Hk].
Qed.

Lemma running_put all s0 L acc rest s tx ak : tx ∈ all → running all s0 L acc rest s → account_ok ak.1 → access_key_ok ak.2 →
  running all s0 (put_ledger L tx ak) acc rest (set_prefetched (put_cache (prefetched s) tx ak) s).
Proof.
  intros Ht Hr Ha Hk. destruct (ledger_ok_put L tx ak) as [??]; [apply Hr|apply Hr|done..|]. eapply running_cache; [done|by apply cache_put, Hr|done..].
Qed.

(** The charged values fit their types. *)
Lemma charged_ok L tx c a k : tx_fine tx → may_pay L tx c a k → account_ok a → access_key_ok k →
  account_ok (charged (transaction tx) (total_cost c) a k).1 ∧ access_key_ok (charged (transaction tx) (total_cost c) a k).2 ∧ access_key_ok (reduced_key (total_cost c) k).
Proof.
  intros Hf (Hc & _ & _ & _ & _ & Hm & Hal) Ha Hk. destruct (cost_nonneg tx c (tf_actions _ Hf) Hc) as (Hn & _). pose proof (reduced_key_ok (total_cost c) k Hn Hal Hk) as Hred.
  split_and!; [apply account_ok_set_amount; [done|lia]| |done]. split; [apply Hf|apply Hred].
Qed.

Lemma process_tx_ok all s0 L acc tx rest s : tx ∈ all → running all s0 L acc (tx :: rest) s →
  returns (process_tx as_bytes get_account_type hash fees wasm_config storage_amount_per_byte forward gas_price block_height protocol_version tx) s
    (λ _ s', ∃ L' acc', ledger_step L tx L' acc' ∧ running all s0 L' (acc ++ acc') rest s').
Proof.
  intros Ht Hr. unfold process_tx. eapply returns_step; [done|]. apply (running_hash _ _ _ _ _ _ (tx_hash tx)) in Hr. set (s1 := set_last_hash _ _) in *. clearbody s1. clear s.
  destruct (Forall_cons_1 _ _ _ (pr_fine _ _ _ _ _ _ Hr)) as [Hf _]. assert (∀ (_ : ∀ c a k, ¬ may_pay L tx c a k), returns (mret () : PM ()) s1 (λ _ s', ∃ L' acc', ledger_step L tx L' acc' ∧ running all s0 L' (acc ++ acc') rest s')) as Hskip.
  { intros Hn. apply returns_ret. exists L, []. split; [by constructor|]. rewrite app_nil_r. by eapply running_skip. }
  destruct (tx_cost _ _ _ _ _ _ _) as [c| |] eqn:Hc; [|apply Hskip; unfold may_pay, cost_of; rewrite Hc; by intros ??? [??]|by destruct (tf_cost _ Hf)].
  assert (cost_of tx = Some c) as Hco by (unfold cost_of; by rewrite Hc). eapply returns_step; [done|]. pose proof (pr_cache _ _ _ _ _ _ Hr) as HC. fold (signer tx). fold (signing_key tx).
  destruct HC as [C1 C2]. rewrite C1, C2, !decide_True by (by apply list_elem_of_fmap_2).
  destruct (ledger_account L (signer tx)) as [a|] eqn:Ha; [|apply Hskip; unfold may_pay; rewrite Ha; by intros ??? (?&?&?)].
  destruct (ledger_key L (signing_key tx)) as [k|] eqn:Hk; [|apply Hskip; unfold may_pay; rewrite Hk; by intros ??? (?&?&?&?)].
  pose proof (verify_cases as_bytes (st_inconsistent : StorageError) storage_amount_per_byte (transaction tx) c (Some block_height) a k) as Hv.
  destruct (verify_and_charge_tx_ephemeral _ _ _ _ _ _ _) as [v ak|e ak| |]; [| |by destruct Hv|done].
  - destruct Hv as ((Hcov & Hst & Hpe) & -> & ->). eapply returns_step; [done|]. assert (may_pay L tx c a k) as Hpay by done.
    destruct (charged_ok L tx c a k Hf Hpay) as (Ha' & Hk' & _); [by eapply pr_accounts|by eapply pr_keys|].
    eapply returns_mono; [eapply emit_receipt_ok; [done|exact (running_put all s0 L acc (tx :: rest) s1 tx (charged (transaction tx) (total_cost c) a k) Ht Hr Ha' Hk')]|].
    intros [] s' Hs'. do 2 eexists. split; [|exact Hs']. by apply (step_accepted _ _ c a k).
  - destruct Hv as [Hna [[Hcov ->]|[Hcov ->]]]; (eapply returns_Ok; [done|]).
    + assert (may_pay L tx c a k) as Hpay by done. exists (put_ledger L tx (a, reduced_key (total_cost c) k)), []. split.
      * apply step_spent; [done|]. intros [??]. by apply Hna.
      * rewrite app_nil_r. apply (running_skip _ _ _ _ tx), (running_put all s0 L acc (tx :: rest) s1 tx (a, reduced_key (total_cost c) k)); [done|done|by eapply pr_accounts|].
        eapply (charged_ok L tx c a k); [done|done|by eapply pr_accounts|by eapply pr_keys].
    + exists L, []. split; [apply step_ignored; intros c' a' k' (? & ? & ? & ?); by simplify_eq|]. rewrite app_nil_r.
      change (mkPrefetched _ _) with (put_cache (prefetched s1) tx (a, k)). rewrite (cache_put_same L all) by (done || apply Hr). eapply running_skip. destruct s1. exact Hr.
Qed.
Definition valid_of (l : list (Signed * bool)) : list Signed := (filter (λ p, p.2 = true) l).*1.

Lemma process_loop_ok all s0 L acc txs s : (∀ tx, tx ∈ txs.*1 → tx ∈ all) → running all s0 L acc (valid_of txs) s →
  returns (process_loop as_bytes get_account_type hash fees wasm_config storage_amount_per_byte forward gas_price block_height protocol_version txs) s
    (λ _ s', ∃ L' acc', ledger_run L (valid_of txs) L' acc' ∧ running all s0 L' (acc ++ acc') [] s').
Proof.
  revert L acc s. induction txs as [|[tx v] txs IH]; intros L acc s Hin Hr; cbn [process_loop].
  { apply returns_ret. exists L, []. rewrite app_nil_r. split; [constructor|done]. }
  unfold valid_of in *. rewrite filter_cons in *. cbn [snd] in *. destruct v; cbn [decide].
  - rewrite decide_True in Hr |- * by done. rewrite fmap_cons in Hr |- *. eapply returns_bind; [apply process_tx_ok; [apply Hin; by left|exact Hr]|].
    intros [] s1 (L1 & acc1 & Hst & Hr1). eapply returns_mono; [apply IH; [intros t Ht; apply Hin; by right|exact Hr1]|].
    intros [] s2 (L2 & acc2 & Hrun & Hr2). exists L2, (acc1 ++ acc2). split; [by econstructor|by rewrite app_assoc].
  - rewrite decide_False in Hr |- * by done. eapply returns_step; [done|]. apply IH; [|done]. intros t Ht. apply Hin. by right.
Qed.

(** * Writing back *)

Lemma write_all {I V} `{!EqDecision I} `{!Countable I} (write : I * (StorageError + option V) → U → option U) (key : I → TrieKey AccountId) (enc : V → bytes)
    (m : gmap I (StorageError + option V)) u :
  (∀ i j, key i = key j → i = j) → (∀ i v, m !! i = Some v → key_ok (key i)) →
  (∀ i v u, write (i, v) u = match v with inr (Some a) => st_set (key i) (enc a) u | _ => Some u end) →
  ∃ u', for_each write (map_to_list m) u = Some u' ∧ st_trie_view u' = st_trie_view u ∧
    (∀ i a, m !! i = Some (inr (Some a)) → st_view u' (key i) = Some (enc a)) ∧
    ∀ k, key_ok k → (∀ i a, m !! i = Some (inr (Some a)) → k ≠ key i) → st_view u' k = st_view u k.
Proof.
  intros Hinj Hok Hw. destruct (for_each_inv (λ pre u', st_trie_view u' = st_trie_view u ∧ (∀ i a, (i, inr (Some a)) ∈ pre → st_view u' (key i) = Some (enc a)) ∧
    ∀ k, key_ok k → (∀ i a, (i, inr (Some a)) ∈ pre → k ≠ key i) → st_view u' k = st_view u k) write (map_to_list m) u) as (u' & Hu & Ht & Hin & Hout).
  - split_and!; [done|by intros i a H%not_elem_of_nil|done].
  - intros pre [i v] post u1 Hl (Ht & Hin & Hout). rewrite Hw. assert (m !! i = Some v) as Hi by (apply elem_of_map_to_list; rewrite Hl; set_solver).
    pose proof (NoDup_fst_map_to_list m) as Hnd. rewrite Hl, fmap_app, fmap_cons in Hnd. apply NoDup_app in Hnd as (_ & Hnd & _).
    assert (∀ w, (i, w) ∉ pre) as Hpre by (intros w Hw'; apply (Hnd i); [by apply (list_elem_of_fmap_2 fst pre (i, w))|by left]).
    destruct v as [e|[a|]]; cycle 1.
    + destruct (st_set_ok u1 (key i) (enc a)) as (u2 & Hs & Ht2 & Hv2); [by eapply Hok|]. exists u2. split_and!; [done|congruence| |].
      * intros j b [Hj|[= -> ->]%list_elem_of_singleton]%elem_of_app; [|rewrite Hv2, decide_True by (done || by eapply Hok); done].
        assert (m !! j = Some (inr (Some b))) as Hmj by (apply elem_of_map_to_list; rewrite Hl; set_solver).
        rewrite Hv2, decide_False by (by eapply Hok || (intros ->%Hinj; by eapply Hpre)). by apply Hin.
      * intros k Hk Hne. rewrite Hv2, decide_False by (done || (eapply Hne; apply elem_of_app; right; by left)). apply Hout; [done|]. intros j b Hj. apply (Hne j b). set_solver.
    + exists u1. split_and!; [done|done| |]; [intros j b Hj; apply Hin; set_solver|intros k Hk Hne; apply Hout; [done|]; intros j b Hj; apply (Hne j b); set_solver].
    + exists u1. split_and!; [done|done| |]; [intros j b Hj; apply Hin; set_solver|intros k Hk Hne; apply Hout; [done|]; intros j b Hj; apply (Hne j b); set_solver].
  - exists u'. split_and!; [done|done| |]; [intros i a Hi; by apply Hin, elem_of_map_to_list|]. intros k Hk Hne. apply Hout; [done|]. intros i a Hi%elem_of_map_to_list. by eapply Hne.
Qed.
(** What a run on the ledger leaves: values of other signers, and which values exist. *)
Record same_outside (txs : list Signed) (L L' : Ledger) : Prop := {
  so_account id : id ∉ signer <$> txs → ledger_account L' id = ledger_account L id;
  so_key i : i ∉ signing_key <$> txs → ledger_key L' i = ledger_key L i;
  so_no_account id : ledger_account L' id = None ↔ ledger_account L id = None;
  so_no_key i : ledger_key L' i = None ↔ ledger_key L i = None
}.

Lemma same_outside_put L tx ak a k : ledger_account L (signer tx) = Some a → ledger_key L (signing_key tx) = Some k → same_outside [tx] L (put_ledger L tx ak).
Proof.
  intros Ha Hk. split; cbn [put_ledger ledger_account ledger_key].
  - intros id Hid. rewrite fn_lookup_insert_ne; [done|]. set_solver.
  - intros i Hi. rewrite fn_lookup_insert_ne; [done|]. set_solver.
  - intros id. destruct (decide (signer tx = id)) as [<-|Hne]; [by rewrite fn_lookup_insert, Ha|by rewrite fn_lookup_insert_ne].
  - intros i. destruct (decide (signing_key tx = i)) as [<-|Hne]; [by rewrite fn_lookup_insert, Hk|by rewrite fn_lookup_insert_ne].
Qed.

Lemma ledger_step_outside L tx L' acc : ledger_step L tx L' acc → same_outside [tx] L L'.
Proof. intros [c a k (_ & Ha & Hk & _) _|c a k (_ & Ha & Hk & _) _|_]; [by eapply same_outside_put..|done]. Qed.

Lemma ledger_run_outside L txs L' acc : ledger_run L txs L' acc → same_outside txs L L'.
Proof.
  induction 1 as [L|L tx L1 acc1 txs L2 acc2 Hst _ [I1 I2 I3 I4]]; [done|]. destruct (ledger_step_outside _ _ _ _ Hst) as [J1 J2 J3 J4].
  split; [|intros i Hi|intros id; by rewrite I3|intros i; by rewrite I4]; [intros id Hid; rewrite fmap_cons in Hid|rewrite fmap_cons in Hi]; apply not_elem_of_cons in Hid as [??] || apply not_elem_of_cons in Hi as [??].
  - rewrite I1, J1; [done| |done]. set_solver.
  - rewrite I2, J2; [done| |done]. set_solver.
Qed.

Lemma write_back_ok L0 L all txs p u : Forall tx_fine all → (∀ tx, tx ∈ txs → tx ∈ all) → cache_rep L all p → ledger_rep L0 u → same_outside txs L0 L →
  (∀ id a, ledger_account L id = Some a → account_ok a) → (∀ i k, ledger_key L i = Some k → access_key_ok k) →
  ∃ u', write_back p u = Some u' ∧ st_trie_view u' = st_trie_view u ∧ ledger_rep L u' ∧
    ∀ k, key_ok k → (∀ id, k ≠ TrieKey.Account id) → (∀ id pk, k ≠ TrieKey.AccessKey id pk) → st_view u' k = st_view u k.
Proof.
  intros Hf Hsub [C1 C2] [R1 R2 _ _] [O1 O2 O3 O4] Ha Hk. unfold write_back.
  destruct (write_all write_account TrieKey.Account borsh_encode (accounts p) u) as (u1 & -> & T1 & In1 & Out1); [by intros ?? [=]|intros; apply account_keys|by intros i [|[]]|].
  cbn [mbind option_bind]. destruct (write_all write_access_key (λ i, TrieKey.AccessKey i.1 i.2) borsh_encode (access_keys p) u1) as (u2 & -> & T2 & In2 & Out2).
  { intros [] [] [=]. cbn in *. congruence. }
  { intros i v. rewrite C2. case_decide as Hi; [|done]. apply list_elem_of_fmap in Hi as (tx & -> & Ht). rewrite Forall_forall in Hf. intros _. apply Hf, Ht. }
  { by intros [] [|[]]. }
  exists u2. split_and!; [done|congruence|split; [|..|exact Ha|exact Hk]|].
  - intros id. rewrite Out2 by (by apply account_keys || done). destruct (decide (id ∈ signer <$> all)) as [Hid|Hid].
    + destruct (ledger_account L id) as [a|] eqn:HL; [apply In1; rewrite C1, decide_True by done; by rewrite HL|].
      rewrite Out1, R1, (proj1 (O3 id) HL); [done|apply account_keys|]. intros id' a Hc [= <-]. rewrite C1, HL in Hc. by case_decide.
    + rewrite Out1, R1, O1; [done|set_solver|apply account_keys|]. intros id' a Hc [= <-]. rewrite C1, decide_False in Hc by done. done.
  - intros id pk Hkey. destruct (decide ((id, pk) ∈ signing_key <$> all)) as [Hid|Hid].
    + destruct (ledger_key L (id, pk)) as [a|] eqn:HL; [apply (In2 (id, pk)); rewrite C2, decide_True by done; by rewrite HL|].
      rewrite Out2, Out1, R2, (proj1 (O4 _) HL); [done..|]. intros [id' pk'] a Hc [= <- <-]. rewrite C2, HL in Hc. by case_decide.
    + rewrite Out2, Out1, R2, O2; [done|set_solver|done..|]. intros [id' pk'] a Hc [= <- <-]. rewrite C2, decide_False in Hc by done. done.
  - intros k Hk' Hna Hnk. rewrite Out2, Out1; [done|done| |done|]; [intros; apply Hna|intros; apply Hnk].
Qed.

(** * All transactions *)

Definition valid_txs (txs : list Signed) : list Signed :=
  filter (λ tx, is_valid_transaction (StorageError := StorageError) as_bytes from_str verify is_valid_staking_key limit_config protocol_version tx = Some true) txs.

Lemma valid_of_zip txs vs : map_option (is_valid_transaction (StorageError := StorageError) as_bytes from_str verify is_valid_staking_key limit_config protocol_version) txs = Some vs →
  valid_of (zip txs vs) = valid_txs txs ∧ (zip txs vs).*1 = txs.
Proof.
  revert vs. induction txs as [|tx txs IH]; intros vs; cbn [map_option]; [by intros [= <-]|]. destruct (is_valid_transaction _ _ _ _ _ _ tx) as [v|] eqn:Hv; [|done]. cbn [mbind option_bind].
  destruct (map_option _ txs) as [ws|]; [|done]. intros [= <-]. destruct (IH ws eq_refl) as [H1 H2]. unfold valid_of, valid_txs in *. cbn [zip zip_with]. rewrite !filter_cons, fmap_cons, H2.
  split; [|done]. cbn [snd]. rewrite Hv. destruct v; [rewrite !decide_True by done; by rewrite fmap_cons, H1|rewrite !decide_False by done; done].
Qed.

Lemma valid_masks_exist txs : Forall tx_fine txs →
  ∃ vs, map_option (is_valid_transaction (StorageError := StorageError) as_bytes from_str verify is_valid_staking_key limit_config protocol_version) txs = Some vs.
Proof. induction 1 as [|tx txs [_ _ _ [v Hv] _] _ [vs IH]]; [by exists []|]. cbn [map_option]. rewrite Hv, IH. by eexists. Qed.
Record process_ready (L : Ledger) (txs : list Signed) (s : State) : Prop := {
  rd_fine : Forall tx_fine txs;
  rd_ledger : ledger_rep L (sink_and_update s).2;
  rd_live : base_live (st_trie_view (sink_and_update s).2) = true;
  rd_sink : sink_inv (forwarded_of (candidates (valid_txs txs))) [] (sink_and_update s);
  rd_burnt : tx_burnt_amount s + burnt_of (candidates (valid_txs txs)) <= umax 128;
  rd_gas : total_gas s + burnt_gas_of (candidates (valid_txs txs)) <= umax 64;
  rd_compute : total_compute s + burnt_gas_of (candidates (valid_txs txs)) <= umax 64
}.

Record processed (L : Ledger) (txs : list Signed) (s : State) (L' : Ledger) (acc : list (Signed * TransactionCost)) (s' : State) : Prop := {
  pd_run : ledger_run L (valid_txs txs) L' acc;
  pd_ledger : ledger_rep L' (sink_and_update s').2;
  pd_burnt : tx_burnt_amount s' = tx_burnt_amount s + burnt_of acc;
  pd_gas : total_gas s' = total_gas s + burnt_gas_of acc;
  pd_local : local_receipts s' = local_receipts s ++ local_of acc;
  pd_sink : sink_inv [] (forwarded_of acc) (sink_and_update s');
  pd_outcomes : outcomes s' = outcomes s ++ (outcome_of <$> acc);
  pd_others k : key_ok k → ¬ own_key k → (∀ id, k ≠ TrieKey.Account id) → (∀ id pk, k ≠ TrieKey.AccessKey id pk) →
    st_view (sink_and_update s').2 k = st_view (sink_and_update s).2 k
}.

Abbreviation process := (process_transactions as_bytes from_str get_account_type hash verify is_valid_staking_key fees wasm_config limit_config
  storage_amount_per_byte threads commit forward gas_price block_height protocol_version).

Lemma ledger_rep_same L u u' : (∀ k, key_ok k → ¬ own_key k → st_view u' k = st_view u k) → ledger_rep L u → ledger_rep L u'.
Proof. intros Hv [R1 R2 R3 R4]. split; [|..|exact R3|exact R4]; [intros id; rewrite Hv by apply account_keys; apply R1|intros id pk Hk; rewrite Hv by done; by apply R2]. Qed.

Lemma tx_chunk_size_pos n : (0 < tx_chunk_size threads n)%nat.
Proof. unfold tx_chunk_size, MIN_CHUNK_SIZE, VALID_BITMASK_BITS. lia. Qed.

Lemma ready_running L txs s p : process_ready L txs s → cache_rep L txs p →
  running txs s L [] (valid_txs txs) (set_last_hash default_hash (set_prefetched p s)).
Proof.
  intros [F [R1 R2 R3 R4] Li S B G C] Hp. split; cbn; rewrite ?app_nil_r; try done; [|lia..]. apply Forall_forall. intros tx Ht.
  rewrite Forall_forall in F. apply F. unfold valid_txs in Ht. by apply list_elem_of_filter in Ht as [_ Ht].
Qed.

Lemma process_ok L txs s : process_ready L txs s → returns (process txs) s (λ _ s', ∃ L' acc, processed L txs s L' acc s').
Proof.
  intros Hrd. unfold process_transactions. destruct (valid_masks_exist txs) as [vs Hvs]; [apply Hrd|]. destruct (valid_of_zip txs vs Hvs) as [Hvz Hz].
  rewrite (valid_iterator_ok _ _ _ vs) by (apply tx_chunk_size_pos || done). eapply returns_step; [done|]. eapply returns_step; [done|].
  destruct (prefetch_ok L (sink_and_update s).2 txs (mkPrefetched ∅ ∅) []) as (p & -> & Hp); [apply Hrd|by split|intros tx Ht; pose proof (rd_fine _ _ _ Hrd) as F; rewrite Forall_forall in F; by apply F|].
  do 3 (eapply returns_step; [done|]). eapply returns_bind; [eapply (process_loop_ok txs s L [] (zip txs vs)); [by rewrite Hz|rewrite Hvz; by apply ready_running]|].
  rewrite Hvz. intros [] s1 (L1 & acc & Hrun & [F C A Ke B G Co Lo O S Ba V RB RG RC]). cbn [app] in *. eapply returns_step; [done|].
  destruct (write_back_ok L L1 txs (valid_txs txs) (prefetched s1) (sink_and_update s1).2) as (u2 & -> & T2 & R2 & V2); try done.
  { apply Hrd. }
  { unfold valid_txs. by intros tx [_ ?]%list_elem_of_filter. }
  { eapply ledger_rep_same; [exact V|apply Hrd]. }
  { by eapply ledger_run_outside. }
  eapply returns_step; [done|]. destruct (commit_ok (last_tx_hash s1) u2) as (u3 & -> & T3 & V3); [rewrite T2, Ba; apply Hrd|]. eapply returns_step; [done|].
  eapply returns_Ok; [done|]. exists L1, acc. split; cbn; try done.
  - eapply ledger_rep_same; [|exact R2]. intros k _ _. apply V3.
  - destruct (sink_and_update s1) as [x u1] eqn:Es. cbn in *. eapply sink_same; [exact S|congruence|]. intros k Hk Ho. rewrite V3. apply V2; [done|intros id ->; by destruct (account_keys id)|].
    intros id pk ->. by destruct (access_keys_foreign id pk).
  - intros k Hk Ho Hna Hnk. rewrite V3, V2 by done. by apply V.
Qed.
(** * Balances and nonces *)

Definition balance (L : Ledger) (id : AccountId) : Z := match ledger_account L id with Some a => amount a | None => 0 end.

Definition cost_of_all (acc : list (Signed * TransactionCost)) : Z := sum_Z ((λ p, total_cost p.2) <$> acc).

Lemma ledger_step_cost L tx L' acc (D : gset AccountId) : ledger_step L tx L' acc → signer tx ∈ D → sum_over (balance L) D = sum_over (balance L') D + cost_of_all acc.
Proof.
  intros Hst Hin. assert (∀ a k c a', may_pay L tx c a k → sum_over (balance (put_ledger L tx a')) D = sum_over (balance L) D - amount a + amount a'.1) as Hput.
  { intros a k c a' (_ & Ha & _). rewrite (sum_over_update (balance L) _ D (signer tx)); [|done|].
    - unfold balance at 2 3. cbn [put_ledger ledger_account]. rewrite Ha, fn_lookup_insert. done.
    - intros b Hb. unfold balance. cbn [put_ledger ledger_account]. by rewrite fn_lookup_insert_ne. }
  destruct Hst as [c a k Hpay _|c a k Hpay _|_]; [rewrite (Hput _ _ _ _ Hpay)..|]; unfold cost_of_all; cbn; [rewrite amount_set; lia|lia|lia].
Qed.

Lemma ledger_run_cost L txs L' acc (D : gset AccountId) : ledger_run L txs L' acc → (∀ tx, tx ∈ txs → signer tx ∈ D) →
  sum_over (balance L) D = sum_over (balance L') D + cost_of_all acc.
Proof.
  induction 1 as [L|L tx L1 acc1 txs L2 acc2 Hst _ IH]; intros Hin; [unfold cost_of_all; cbn; lia|].
  rewrite (ledger_step_cost _ _ _ _ D Hst) by (apply Hin; by left). rewrite IH by (intros t Ht; apply Hin; by right). unfold cost_of_all. rewrite fmap_app, sum_Z_app. lia.
Qed.

(** The nonces of the accepted transactions of a key. *)
Definition nonces_of (i : AccountId * PublicKey) (acc : list (Signed * TransactionCost)) : list Z := (λ p, tx_nonce (transaction p.1)) <$> filter (λ p, signing_key p.1 = i) acc.

Definition key_nonce (L : Ledger) (i : AccountId * PublicKey) (n : Z) : Prop := ∃ k, ledger_key L i = Some k ∧ access_nonce k = n.

Lemma ledger_step_nonce L tx L' acc i n : ledger_step L tx L' acc → key_nonce L i n →
  nonces_of i acc = [] ∧ key_nonce L' i n ∨ ∃ m, nonces_of i acc = [m] ∧ n < m ∧ key_nonce L' i m.
Proof.
  intros Hst (k0 & Hk0 & <-). unfold key_nonce, nonces_of. destruct Hst as [c a k (_ & _ & Hk & (Hn & _) & _) _|c a k (_ & _ & Hk & _) _|_]; cbn [put_ledger ledger_key].
  - rewrite filter_cons, filter_nil. cbn [fst]. case_decide as Hi; [|left; split; [done|]; exists k0; by rewrite fn_lookup_insert_ne].
    subst i. rewrite Hk in Hk0. injection Hk0 as ->. right. eexists. split_and!; [done|exact Hn|]. rewrite fn_lookup_insert. by eexists.
  - left. split; [done|]. destruct (decide (signing_key tx = i)) as [<-|Hne]; [rewrite fn_lookup_insert; rewrite Hk in Hk0; injection Hk0 as ->; by eexists|]. rewrite fn_lookup_insert_ne by done. by eexists.
  - left. split; [done|]. by eexists.
Qed.

(** The nonce of a key is the one of the last transaction that was accepted with it. *)
Lemma ledger_run_nonce L txs L' acc i n : ledger_run L txs L' acc → key_nonce L i n →
  StronglySorted Z.lt (n :: nonces_of i acc) ∧ ∃ n', key_nonce L' i n' ∧ last (n :: nonces_of i acc) = Some n'.
Proof.
  intros Hrun. revert n. induction Hrun as [L|L tx L1 acc1 txs L2 acc2 Hst _ IH]; intros n Hn.
  { unfold nonces_of. cbn. split; [repeat constructor|]. by exists n. }
  assert (nonces_of i (acc1 ++ acc2) = nonces_of i acc1 ++ nonces_of i acc2) as -> by (unfold nonces_of; by rewrite filter_app, fmap_app).
  destruct (ledger_step_nonce _ _ _ _ i n Hst Hn) as [[-> Hn1]|(m & -> & Hlt & Hn1)]; [by apply IH|].
  destruct (IH m Hn1) as (Hs & n' & Hn' & Hla). split; [|by exists n'].
  constructor; [done|]. cbn [app]. constructor; [done|]. apply StronglySorted_inv in Hs as [_ Hs]. eapply Forall_impl; [exact Hs|]. intros x Hx. cbn in Hx. lia.
Qed.

Lemma sorted_last_max (l : list Z) n m : StronglySorted Z.lt l → last l = Some n → m ∈ l → m <= n.
Proof.
  intros Hs. revert m. induction Hs as [|x l Hs IH Hx]; [done|]. intros m Hl Hm. destruct l as [|y l]; [apply list_elem_of_singleton in Hm as ->; injection Hl as ->; lia|].
  apply elem_of_cons in Hm as [->|Hm]; [|by apply IH]. rewrite Forall_forall in Hx. pose proof (Hx y ltac:(by left)). specialize (IH y Hl ltac:(by left)). lia.
Qed.

Lemma ledger_run_sublist L txs L' acc : ledger_run L txs L' acc → acc.*1 `sublist_of` txs.
Proof.
  induction 1 as [L|L tx L1 acc1 txs L2 acc2 Hst _ IH]; [constructor|]. destruct Hst; cbn; by constructor.
Qed.

(** Only transactions with an access key are accepted. *)
Lemma ledger_run_keys L txs L' acc : ledger_run L txs L' acc → ∀ p, p ∈ acc → p.1 ∈ txs ∧ is_Some (ledger_key L (signing_key p.1)).
Proof.
  induction 1 as [L|L tx L1 acc1 txs L2 acc2 Hst Hrun IH]; intros p; [by intros ?%not_elem_of_nil|]. intros [Hp|Hp]%elem_of_app.
  - destruct Hst as [c a k (_ & _ & Hk & _) _| |]; [|by apply not_elem_of_nil in Hp..]. apply list_elem_of_singleton in Hp as ->. cbn. rewrite Hk. split; [by left|by eexists].
  - destruct (IH p Hp) as [Hin [k Hk]]. split; [by right|]. destruct (ledger_key L (signing_key p.1)) eqn:E; [by eexists|].
    apply (so_no_key _ _ _ (ledger_step_outside _ _ _ _ Hst)) in E. congruence.
Qed.
Lemma ledger_run_costs L txs L' acc p : ledger_run L txs L' acc → p ∈ acc → cost_of p.1 = Some p.2.
Proof.
  induction 1 as [L|L tx L1 acc1 txs L2 acc2 Hst Hrun IH]; [by intros ?%not_elem_of_nil|]. intros [Hp|Hp]%elem_of_app; [|by apply IH].
  destruct Hst as [c a k (Hc & _) _| |]; [|by apply not_elem_of_nil in Hp..]. by apply list_elem_of_singleton in Hp as ->.
Qed.

(** * Correctness *)

(** C8: The processing of transactions does what charging them one after the other does.  It returns, for every number of threads; the
    transactions that pass the stateless checks have been charged in order on the ledger of the state, which is then in the state again;
    every accepted transaction has one outcome and one receipt, which is a local receipt or went to the receipt sink, in
    order; the burnt amounts and gas are the sums over the accepted transactions, and other keys of the state keep their values. *)
Theorem processing_is_sequential L txs s : process_ready L txs s → returns (process txs) s (λ _ s', ∃ L' acc, processed L txs s L' acc s').
Proof. apply process_ok. Qed.

(** The accepted transactions of [txs], with their costs: each has its outcome and its receipt. *)
Record emitted (txs : list Signed) (s : State) (acc : list (Signed * TransactionCost)) (s' : State) : Prop := {
  em_order : acc.*1 `sublist_of` txs;
  em_cost p : p ∈ acc → cost_of p.1 = Some p.2;
  em_local : local_receipts s' = local_receipts s ++ local_of acc;
  em_sink : sink_inv [] (forwarded_of acc) (sink_and_update s');
  em_outcomes : outcomes s' = outcomes s ++ (outcome_of <$> acc)
}.

Lemma processed_emitted L txs s L' acc s' : processed L txs s L' acc s' → emitted txs s acc s'.
Proof.
  intros [Hrun _ _ _ Hl Hs Ho _]. split; try done; [|intros p Hp; by eapply ledger_run_costs].
  etrans; [by eapply ledger_run_sublist|]. apply sublist_filter.
Qed.

(** The balance of an account in a state. *)
Definition balance_in (u : U) (id : AccountId) : Z :=
  match (get_account (st_get u) id : option (StorageError + option Acct)) with Some (inr (Some a)) => amount a | _ => 0 end.

Lemma balance_in_ok L u id : ledger_rep L u → balance_in u id = balance L id.
Proof. intros HL. unfold balance_in, balance. rewrite (get_account_ok L) by done. by destruct (ledger_account L id). Qed.

Abbreviation value := (receipt_value as_bytes get_account_type fees wasm_config).
Abbreviation values := (total_value as_bytes get_account_type fees wasm_config).

(** A transaction costs what is burnt and what its receipt is worth. *)
Lemma cost_parts system tx c : tx_fine tx → signer tx ≠ system → cost_of tx = Some c → total_cost c = burnt_amount c + value system (receipt_of (tx, c)).
Proof.
  intros Hf Hsys. unfold cost_of. destruct (tx_cost _ _ _ _ _ _ _) as [c'| |] eqn:Hc; [|done..]. intros [= <-].
  apply tx_cost_iff in Hc as (_ & _ & p & Hp & _ & ->); [|done|apply Hf|done]. unfold receipt_value, receipt_deposit, bought_gas, receipt_price. cbn.
  rewrite bool_decide_false by done. unfold deposits, sum_Z. lia.
Qed.

Lemma cost_of_all_parts system acc : (∀ p, p ∈ acc → (tx_fine p.1 ∧ signer p.1 ≠ system) ∧ cost_of p.1 = Some p.2) →
  cost_of_all acc = burnt_of acc + values system (local_of acc ++ forwarded_of acc).
Proof.
  rewrite total_value_app. unfold total_value, local_of, forwarded_of. induction acc as [|[tx c] acc IH]; intros Hacc; [done|].
  destruct (Hacc (tx, c)) as [[Hf Hsys] Hc]; [by left|]. pose proof (cost_parts system tx c Hf Hsys Hc) as Hp.
  rewrite burnt_of_cons, !filter_cons. unfold cost_of_all in *. rewrite fmap_cons, sum_Z_cons. cbn [snd fst] in *. rewrite IH by (intros p Hin; apply Hacc; by right).
  destruct (decide (to_itself (tx, c))) as [Hi|Hi]; [rewrite (decide_False (P := ¬ _)) by tauto|rewrite (decide_True (P := ¬ _)) by done]; rewrite !fmap_cons, sum_Z_cons; lia.
Qed.

(** C9: Transactions neither create nor destroy tokens.  What the accounts hold before is what they hold after, the amount that is added
    to the burnt tokens, and what the new receipts are worth: the deposits of their actions and, at the price of the receipt, the
    gas that their execution needs.  These are the receipts of the accepted transactions, local or passed to the sink.  The accounts
    are any that include the signers; the system account, whose receipts are free, signs no transaction. *)
Theorem transactions_conserve_tokens system L txs s (D : gset AccountId) : process_ready L txs s → (∀ tx, tx ∈ txs → signer tx ∈ D ∧ signer tx ≠ system) →
  returns (process txs) s (λ _ s', ∃ acc, emitted txs s acc s' ∧
    sum_over (balance_in (sink_and_update s).2) D =
      sum_over (balance_in (sink_and_update s').2) D + (tx_burnt_amount s' - tx_burnt_amount s) + values system (local_of acc ++ forwarded_of acc)).
Proof.
  intros Hrd HD. eapply returns_mono; [by eapply process_ok|]. intros [] s' (L' & acc & Hp). exists acc. split; [by eapply processed_emitted|]. destruct Hp as [Hrun Hl Hb _ _ _ _ _].
  assert (∀ tx, tx ∈ valid_txs txs → tx ∈ txs) as Hsub by (unfold valid_txs; by intros tx [_ ?]%list_elem_of_filter). pose proof (rd_fine _ _ _ Hrd) as F. rewrite Forall_forall in F.
  rewrite (sum_over_ext _ (balance L)) by (intros id _; by apply balance_in_ok, Hrd). rewrite (sum_over_ext (balance_in (sink_and_update s').2) (balance L')) by (intros id _; by apply balance_in_ok).
  rewrite (ledger_run_cost _ _ _ _ D Hrun) by (intros tx Ht; by apply HD, Hsub). rewrite (cost_of_all_parts system), Hb; [lia|].
  intros p Hp. destruct (ledger_run_keys _ _ _ _ Hrun p Hp) as [Hin _]. split; [|by eapply ledger_run_costs]. split; [by apply F, Hsub|by apply HD, Hsub].
Qed.

(** The access key of a transaction in a state. *)
Definition key_in (u : U) (tx : Signed) : option (StorageError + option AccessKey) := get_access_key (st_get u) (signer tx) (tx_public_key (transaction tx)).

Lemma key_in_ok L u tx : ledger_rep L u → tx_fine tx → key_in u tx = Some (inr (ledger_key L (signing_key tx))).
Proof. intros HL Hf. unfold key_in. by rewrite (get_access_key_ok L) by (done || apply Hf). Qed.

(** C10: No transaction is accepted twice.  The accepted transactions are in the order of the chunk.  For the key of each transaction
    of the chunk: without the key none is accepted; otherwise the nonces of the accepted ones strictly increase from the nonce of the key
    in the state before, and the nonce of the key in the state afterwards is the last of them.  So no accepted transaction is covered
    by its key from then on. *)
Theorem transactions_not_replayed L txs s : process_ready L txs s →
  returns (process txs) s (λ _ s', ∃ acc, emitted txs s acc s' ∧
    (∀ tx, tx ∈ txs → match key_in (sink_and_update s).2 tx with
      | Some (inr (Some k)) => StronglySorted Z.lt (access_nonce k :: nonces_of (signing_key tx) acc) ∧
          ∃ k', key_in (sink_and_update s').2 tx = Some (inr (Some k')) ∧ last (access_nonce k :: nonces_of (signing_key tx) acc) = Some (access_nonce k')
      | _ => nonces_of (signing_key tx) acc = []
      end) ∧
    ∀ p, p ∈ acc → ∃ k, key_in (sink_and_update s').2 p.1 = Some (inr (Some k)) ∧ ∀ cost height a, ¬ covered (transaction p.1) cost height (a : Acct) k).
Proof.
  intros Hrd. eapply returns_mono; [by eapply process_ok|]. intros [] s' (L' & acc & Hp). exists acc. split; [by eapply processed_emitted|]. destruct Hp as [Hrun Hl _ _ _ _ _ _].
  pose proof (rd_fine _ _ _ Hrd) as F. rewrite Forall_forall in F. split.
  - intros tx Ht. rewrite (key_in_ok L) by (apply Hrd || by apply F). destruct (ledger_key L (signing_key tx)) as [k|] eqn:Hk.
    + destruct (ledger_run_nonce _ _ _ _ _ (access_nonce k) Hrun ltac:(by exists k)) as (Hs & n & (k' & Hk' & <-) & Hla). split; [done|].
      exists k'. rewrite (key_in_ok L') by (done || by apply F). by rewrite Hk'.
    + destruct (nonces_of (signing_key tx) acc) as [|n l] eqn:Hn; [done|]. assert (n ∈ nonces_of (signing_key tx) acc) as Hin by (rewrite Hn; by left).
      unfold nonces_of in Hin. apply list_elem_of_fmap in Hin as (p & _ & [Hp Hin]%list_elem_of_filter). destruct (ledger_run_keys _ _ _ _ Hrun p Hin) as [_ [k Hk']]. congruence.
  - intros p Hp. destruct (ledger_run_keys _ _ _ _ Hrun p Hp) as [Hin [k Hk]]. destruct (ledger_run_nonce _ _ _ _ (signing_key p.1) (access_nonce k) Hrun ltac:(by exists k)) as (Hs & n & (k' & Hk' & <-) & Hla).
    exists k'. unfold valid_txs in Hin. apply list_elem_of_filter in Hin as [_ Hin]. rewrite (key_in_ok L') by (done || by apply F). rewrite Hk'. split; [done|]. intros cost height a [[Hlt _] _].
    pose proof (sorted_last_max _ _ (tx_nonce (transaction p.1)) Hs Hla) as Hle. apply Z.lt_nge in Hlt. apply Hlt, Hle. right.
    unfold nonces_of. apply (list_elem_of_fmap_2 (λ p, tx_nonce (transaction p.1))). by apply list_elem_of_filter.
Qed.

(** C11: A rejected transaction spends the allowance of its key.  When a transaction signed with a limited key passes the checks of the nonce, the
    balance and the allowance but not those of the storage or of the permitted actions, it has no receipt and no outcome and its signer pays
    nothing, but the allowance in the state is smaller by its cost. *)
Theorem rejected_transaction_spends_allowance L tx s c a k p x : process_ready L [tx] s → valid_txs [tx] = [tx] → may_pay L tx c a k → ¬ final_checks_pass tx c a k →
  permission k = PermFunctionCall p → allowance p = Some x →
  returns (process [tx]) s (λ _ s', outcomes s' = outcomes s ∧ local_receipts s' = local_receipts s ∧ sink_inv [] [] (sink_and_update s') ∧
    get_account (st_get (sink_and_update s').2) (signer tx) = Some (inr (Some a) : StorageError + _) ∧
    get_access_key (st_get (sink_and_update s').2) (signer tx) (tx_public_key (transaction tx)) =
      Some (inr (Some (mkAccessKey (access_nonce k) (PermFunctionCall (set_allowance (Some (x - total_cost c)) p)))) : StorageError + _)).
Proof.
  intros Hrd Hv Hpay Hnf Hp Hx. eapply returns_mono; [by eapply process_ok|]. intros [] s' (L' & acc & [Hrun Hl _ _ Hlo Hs Ho _]). rewrite Hv in Hrun.
  inversion Hrun as [|? ? L1 acc1 ? ? acc2 Hst Hnil]; subst. inversion Hnil; subst. assert (acc1 = [] ∧ L' = put_ledger L tx (a, reduced_key (total_cost c) k)) as [-> ->].
  { destruct Hpay as (Hc & Ha & Hk & Hcov). destruct Hst as [c' a' k' (? & ? & ? & ?) Hf|c' a' k' (? & ? & ? & ?) Hf|Hn]; [by simplify_eq|by simplify_eq|by destruct (Hn c a k)]. }
  cbn [app] in *. rewrite Hlo, Ho. unfold local_of, forwarded_of in *. cbn in *. rewrite !app_nil_r. pose proof (rd_fine _ _ _ Hrd) as F. apply Forall_cons in F as [F _].
  split_and!; [done..| |].
  - rewrite (get_account_ok _ _ _ Hl). cbn. by rewrite fn_lookup_insert.
  - rewrite (get_access_key_ok _ _ _ _ Hl) by apply F. cbn. fold (signing_key tx). rewrite fn_lookup_insert. unfold reduced_key, charged_permission, set_permission. rewrite Hp, Hx. done.
Qed.
End correct.
