(* ===== verification/ExecutionCorrect.v ===== *)
(** Receipts conserve tokens: what an action receipt carries and what its account holds is, after its execution, held by the account, carried by the
    receipts it created, or counted as burnt. *)

From S2P Require Import Prelude Errors Borsh Costs TrieKey StateUpdate TrieQueue Fees Receipt ReceiptManager Account StoreUtils RemoveAccount Verifier Transaction ReceiptQueues ProcessTransactions ProcessCorrect RuntimeStore Actions ActionsCorrect ApplyReceipt ExecutionFrame.
Local Open Scope Z_scope.

(** * Refunds *)

Lemma to_balance_ROk p g x : safe_gas_to_balance p g = ROk x → x = p * g.
Proof. unfold safe_gas_to_balance. destruct (checked_mul _ _ _) as [y|] eqn:Hy; [|done]. intros [= <-]. by apply checked_mul_Some in Hy as [-> _]. Qed.

Lemma add_balance_ROk a b x : safe_add_balance a b = ROk x → x = a + b.
Proof. unfold safe_add_balance. destruct (checked_add _ _ _) as [y|] eqn:Hy; [|done]. intros [= <-]. by apply checked_add_Some in Hy as [-> _]. Qed.

Lemma expect_sub_ROk {E} a b x : (res_expect (checked_sub a b) : Res E Z) = ROk x → x = a - b ∧ b <= a.
Proof. destruct (checked_sub a b) as [y|] eqn:Hy; [|done]. intros [= <-]. by apply checked_sub_Some in Hy as [-> ?]. Qed.

(** Checked arithmetic that returned. *)
Ltac inv_res :=
  repeat match goal with
  | H : (_ ≫= _) = ROk _ |- _ => apply res_bind_ROk in H as (? & ? & H)
  | H : safe_gas_to_balance _ _ = ROk _ |- _ => apply to_balance_ROk in H as ->
  | H : safe_add_balance _ _ = ROk _ |- _ => apply add_balance_ROk in H as ->
  | H : res_expect (checked_sub _ _) = ROk _ |- _ => apply expect_sub_ROk in H as [-> ?]
  | H : mret _ = ROk _ |- _ => unfold mret, Res_ret in H; simplify_eq
  end.

Section refunds.
Context {AccountId CallError : Type} `{!EqDecision AccountId} (as_bytes : AccountId → bytes) (get_account_type : AccountId → AccountType) (system : AccountId).
Context (fees : RuntimeFeesConfig) (wasm : VmConfig) (fees_fit : fees_ok fees).

Abbreviation Rcpt := (Receipt AccountId).
Abbreviation Result := (ActionResult AccountId CallError).
Abbreviation value := (receipt_value as_bytes get_account_type fees wasm system).
Abbreviation all_value := (total_value as_bytes get_account_type fees wasm system).
Abbreviation receipt_gas := (receipt_gas as_bytes get_account_type fees wasm).

Lemma refund_value receiver x signer key q : value (refund system receiver (refund_receipt receiver x signer key) q) = x.
Proof.
  unfold receipt_value, receipt_deposit, bought_gas, receipt_price. destruct q; cbn; (rewrite bool_decide_true by done); unfold deposit_of; cbn; lia.
Qed.

(** The gas that was bought with a receipt. *)
Lemma prepaid_total_good (r : Rcpt) ar x : Forall (action_ok as_bytes) (receipt_actions ar) → prepaid_total as_bytes get_account_type fees wasm r ar = ROk x → x = receipt_gas (receipt_actions ar) (Receipt.receiver_id r).
Proof.
  intros Hok. unfold prepaid_total. intros (a & Ha & H)%res_bind_ROk. apply res_bind_ROk in H as (b & Hb & H). apply res_bind_ROk in H as (c & [-> _]%safe_add_gas_ROk & H).
  apply res_bind_ROk in H as (d & Hd & H). apply res_bind_ROk in H as (e & [-> _]%safe_add_gas_ROk & [-> _]%safe_add_gas_ROk).
  apply (exact_unique _ _ _ _ (total_prepaid_exact _ _ Hok)) in Ha as ->. apply (exact_unique _ _ _ _ (total_prepaid_send_exact _ _ _ _ fees_fit _ Hok)) in Hb as ->.
  apply (exact_unique _ _ _ _ (total_exec_exact _ _ _ _ fees_fit _ _ Hok)) in Hd as ->. unfold Fees.receipt_gas, attached_gas. lia.
Qed.

(** The refunds are sent as receipts, and change nothing else of the result. *)
Lemma push_refunds_good r ar d g (res : Result) : 0 <= d → 0 <= g → ∃ l, push_refunds system r ar d g res = set_new_receipts (new_receipts res ++ l) res ∧ all_value l = d + g.
Proof.
  intros Hd Hg. exists ((if 0 <? d then [new_balance_refund system (predecessor_id r) d (priority r)] else []) ++
    (if 0 <? g then [new_gas_refund system (signer_id ar) g (signer_public_key ar) (priority r)] else [])). split.
  - unfold push_refunds, add_receipt. destruct (0 <? d), (0 <? g); cbn; rewrite ?app_nil_r, <-?app_assoc; try done. by destruct res.
  - rewrite total_value_app. unfold total_value. destruct (Z.ltb_spec 0 d), (Z.ltb_spec 0 g); rewrite ?fmap_cons, ?sum_Z_cons; unfold new_balance_refund, new_gas_refund; rewrite ?refund_value; cbn; lia.
Qed.

Abbreviation generate_refund_receipts := (generate_refund_receipts as_bytes get_account_type system fees wasm).

Abbreviation spent := (λ res : Result, if result_ok res then gas_used res else gas_burnt res).

(** The refund [g] with what is burnt at the current price. *)
Definition balanced (price : Z) (r : Rcpt) (ar : ActionReceipt AccountId) (res : Result) (refund : GasRefundResult) (g : Z) : Prop :=
  0 <= g ∧ price * gas_burnt res - price_deficit refund + price_surplus refund + refund_penalty refund + g =
    gas_price ar * (receipt_gas (receipt_actions ar) (Receipt.receiver_id r) - spent res + gas_burnt res).

Definition refunded (price : Z) (r : Rcpt) (ar : ActionReceipt AccountId) (res : Result) (refund : GasRefundResult) (res' : Result) : Prop :=
  ∃ g, res' = push_refunds system r ar (if result_ok res then 0 else sum_Z (deposit_of <$> receipt_actions ar)) g res ∧ balanced price r ar res refund g.

Lemma old_refunds_good price r ar res deficit res' : Forall (action_ok as_bytes) (receipt_actions ar) → 0 <= gas_price ar → 0 <= gas_burnt res →
  refund_unspent_gas_and_unspent_gas_and_deposits as_bytes get_account_type system fees wasm price r ar res = ROk (deficit, res') → refunded price r ar res (mkGasRefund deficit 0 0) res'.
Proof.
  intros Hok Hp Hb H. unfold refund_unspent_gas_and_unspent_gas_and_deposits, unspent_gas in H. apply res_bind_ROk in H as (d & Hd & H). apply (exact_unique _ _ _ _ (total_deposit_exact _ _ Hok)) in Hd as ->.
  apply res_bind_ROk in H as (total & ->%prepaid_total_good & H); [|done]. apply res_bind_ROk in H as (gross & [-> Hle]%expect_sub_ROk & H).
  apply res_bind_ROk in H as (x & ->%to_balance_ROk & H). apply res_bind_ROk in H as ([y z] & Hy & H). injection H as <- <-. exists y. split; [done|].
  unfold balanced. cbn [price_deficit price_surplus refund_penalty]. destruct (Z.ltb_spec (gas_price ar) price).
  - apply res_bind_ROk in Hy as (w & ->%to_balance_ROk & Hy). destruct (Z.leb_spec ((price - gas_price ar) * gas_burnt res) (gas_price ar * (receipt_gas (receipt_actions ar) (Receipt.receiver_id r) - spent res))); injection Hy as <- <-; nia.
  - inv_res. nia.
Qed.

Lemma new_refunds_good price r ar res refund res' : Forall (action_ok as_bytes) (receipt_actions ar) → 0 <= gas_price ar → 0 <= gas_burnt res →
  refund_unspent_gas_and_deposits as_bytes get_account_type system fees wasm price r ar res = ROk (refund, res') → refunded price r ar res refund res'.
Proof.
  intros Hok Hp Hb H. unfold refund_unspent_gas_and_deposits, unspent_gas in H. apply res_bind_ROk in H as (d & Hd & H). apply (exact_unique _ _ _ _ (total_deposit_exact _ _ Hok)) in Hd as ->.
  apply res_bind_ROk in H as (total & ->%prepaid_total_good & H); [|done]. apply res_bind_ROk in H as (gross & [-> Hle]%expect_sub_ROk & H).
  apply res_bind_ROk in H as (penalty & _ & H). apply res_bind_ROk in H as (net & [-> Hle']%expect_sub_ROk & H).
  apply res_bind_ROk in H as (x & ->%to_balance_ROk & H). apply res_bind_ROk in H as (q & ->%to_balance_ROk & H). apply res_bind_ROk in H as ([y z] & Hy & H). injection H as <- <-. eexists. split; [done|].
  unfold balanced. cbn [price_deficit price_surplus refund_penalty]. destruct (_ <? _); inv_res; nia.
Qed.

Lemma generate_refunds_good price r ar res refund res' : Forall (action_ok as_bytes) (receipt_actions ar) → 0 <= gas_price ar → 0 <= gas_burnt res →
  generate_refund_receipts price r ar res = ROk (refund, res') → refunded price r ar res refund res'.
Proof.
  intros Hok Hp Hb. unfold ApplyReceipt.generate_refund_receipts. destruct (refund_gas_price_changes fees); [|by apply new_refunds_good].
  intros ([d res1] & Hr & [= <- <-])%res_bind_ROk. by apply old_refunds_good.
Qed.

(** What is refunded and what is burnt is what was bought, but for the gas of the new receipts. *)
Lemma refunds_good price r ar (res res' : Result) refund x : predecessor_id r ≠ system → Forall (action_ok as_bytes) (receipt_actions ar) → 0 <= gas_price ar → 0 <= gas_burnt res →
  generate_refund_receipts price r ar res = ROk (refund, res') → burnt_amount system price r refund res' = ROk x →
  ∃ l, res' = set_new_receipts (new_receipts res ++ l) res ∧
    all_value l + x = (if result_ok res then 0 else sum_Z (deposit_of <$> receipt_actions ar)) +
      gas_price ar * (receipt_gas (receipt_actions ar) (Receipt.receiver_id r) - (spent res - gas_burnt res)).
Proof.
  intros Hsys Hok Hp Hb Hg Hx. apply generate_refunds_good in Hg as (g & -> & Hg0 & Hg); [|done..]. 
  destruct (push_refunds_good r ar (if result_ok res then 0 else sum_Z (deposit_of <$> receipt_actions ar)) g res) as (l & Hl & Hv); [|done|].
  { destruct (result_ok res); [done|]. exact (proj1 (total_deposit_exact _ _ Hok)). }
  exists l. split; [exact Hl|]. rewrite Hl in Hx. unfold burnt_amount in Hx. rewrite bool_decide_false in Hx by done. cbn [gas_burnt set_new_receipts] in Hx. inv_res. lia.
Qed.
End refunds.

Section correct.
Context {AccountId StorageError U CallError K : Type} `{!EqDecision AccountId} `{Store : !StateStore (TrieKey AccountId) StorageError U} `{RStore : !RuntimeStore AccountId StorageError U}.
Context `{!Borsh AccountId} `{!Borsh AccessKey} `{!Borsh PromiseYieldIndices} `{!Borsh (PromiseYieldTimeout AccountId)} `{!Borsh (DelegateAction AccountId (Action AccountId))}.
Context `{!Borsh ReceivedData} `{!Borsh (ReceiptEnum AccountId)} `{TheVm : !Vm AccountId StorageError U CallError}.
Context (as_bytes : AccountId → bytes) (from_str : bytes → option AccountId) (get_account_type : AccountId → AccountType) (is_top_level : AccountId → bool) (is_sub_account_of : AccountId → AccountId → bool).
Context (system : AccountId) (hash : bytes → bytes) (verify : bytes → bytes → PublicKey → bool) (hex_decode : bytes → option bytes) (is_valid_staking_key : PublicKey → bool).
Context (wallet_magic_bytes : Code) (wallet_contract : bytes → option Code) (minimum_stake : bytes → EpochError + Z).
Context (apply_state : ApplyState AccountId).
Context (key_ok : TrieKey AccountId → Prop) (st_view st_saved : U → TrieKey AccountId → option (list Z)) (st_trie_view : U → Base (TrieKey AccountId)).
Context `{StoreOk : !RuntimeStoreOk AccountId StorageError U key_ok st_view st_saved st_trie_view}.
Context `{!StateStoreOk (TrieKey AccountId) StorageError U key_ok st_view st_trie_view}.

Abbreviation config := (apply_config apply_state).
Abbreviation fees := (cfg_fees config).
Abbreviation wasm := (cfg_wasm config).
Abbreviation Acct := (Account AccountId).
Abbreviation Rcpt := (Receipt AccountId).
Abbreviation Act := (Action AccountId).
Abbreviation Error := (RuntimeError StorageError).
Abbreviation Result := (ActionResult AccountId CallError).
Abbreviation State := (ActionState (AccountId := AccountId) (U := U) (CallError := CallError)).
Abbreviation AM := (M State Error).
Abbreviation frame := (st_frame key_ok st_view st_saved st_trie_view).
Abbreviation action_ok := (action_ok as_bytes).

Context `{TheVmOk : !VmOk as_bytes get_account_type key_ok st_view st_saved st_trie_view wasm}.
Context (as_bytes_inj : Inj (=) (=) as_bytes) (hash_length : ∀ b, length (hash b) = 32%nat) (wallet_hash_length : length (code_hash wallet_magic_bytes) = 32%nat).
Context `{!BorshOk AccountId (λ _, True)} (fees_fit : fees_ok fees) (storage_fits : storage_ok (storage_usage_config fees)).
Context (account_keys_ok : ∀ id, key_ok (TrieKey.Account id) ∧ key_ok (ContractCode id)) (access_keys_ok : ∀ id pk, public_key_ok pk → key_ok (TrieKey.AccessKey id pk)).
Context (yield_keys_ok : key_ok TrieKey.PromiseYieldIndices ∧ ∀ i, in_u 64 i → key_ok (TrieKey.PromiseYieldTimeout i)).
Context (received_keys_ok : ∀ id d, length d = 32%nat → key_ok (TrieKey.ReceivedData id d)).
Context (yield_indices_fit : ∀ data (i : PromiseYieldIndices) rest, borsh_decode data = Some (i, rest) → in_u 64 (yield_next_available_index i)).

Abbreviation act_inv := (act_inv key_ok st_view st_saved st_trie_view).
Abbreviation moved := (moved as_bytes get_account_type system apply_state).
Abbreviation exec_cost_of := (action_cost as_bytes get_account_type fees wasm Costs.exec_fee).
Abbreviation action_bound := (action_bound as_bytes get_account_type fees wasm).
Abbreviation run_actions := (run_actions as_bytes from_str get_account_type is_top_level is_sub_account_of system hash verify hex_decode is_valid_staking_key wallet_magic_bytes wallet_contract minimum_stake apply_state).

(** The account that is stored. *)
Definition account_at (u : U) (id : AccountId) : option Acct := data ← st_view u (TrieKey.Account id); try_from_slice data.

Lemma get_account_at u id o : get_account (st_get u) id = Some (inr o) → o = account_at u id ∧ (o = None → st_view u (TrieKey.Account id) = None).
Proof.
  unfold get_account, get_value, account_at. rewrite st_get_ok by apply account_keys_ok. cbn. destruct (st_view u _) as [data|]; cbn; [|by intros [= <-]].
  destruct (try_from_slice data); by intros [= <-].
Qed.

Lemma set_account_at u u' id a : set_account id a u = Some u' → account_ok a → account_at u' id = Some a ∧ ∀ id', id' ≠ id → account_at u' id' = account_at u id'.
Proof.
  intros Hs Ha. destruct (st_set_ok u (TrieKey.Account id) (borsh_encode a) (proj1 (account_keys_ok id))) as (u1 & Hu & _ & Hv). unfold set_account, set_value in Hs. rewrite Hu in Hs. injection Hs as <-.
  unfold account_at. rewrite Hv by apply account_keys_ok. rewrite decide_True by done. split; [by apply (try_from_slice_encode account_ok)|].
  intros id' Hne. rewrite Hv by apply account_keys_ok. rewrite decide_False; [done|congruence].
Qed.

Lemma frame_account_at (touched : TrieKey AccountId → Prop) u u' id : frame touched u u' → ¬ touched (TrieKey.Account id) → account_at u' id = account_at u id.
Proof. intros Hf Ht. unfold account_at. by rewrite (fr_view _ _ _ _ _ _ _ Hf _ (proj1 (account_keys_ok id)) Ht). Qed.

(** ** The actions of a receipt *)

Lemma merge_inv (r next res : Result) : merge_result r next = ROk res →
  gas_burnt res = gas_burnt r + gas_burnt next ∧ gas_burnt_for_function_call res = gas_burnt_for_function_call r + gas_burnt_for_function_call next ∧ gas_used res = gas_used r + gas_used next ∧
  result_ok res = result_ok next ∧ (result_ok next = true → new_receipts res = new_receipts r ++ new_receipts next) ∧ (result_ok next = false → new_receipts res = []).
Proof.
  unfold merge_result. destruct (negb _); [done|]. destruct (negb _); [done|]. intros (b & [-> _]%safe_add_gas_ROk & H)%res_bind_ROk. apply res_bind_ROk in H as (c & [-> _]%safe_add_gas_ROk & H).
  apply res_bind_ROk in H as (u & [-> _]%safe_add_gas_ROk & H). apply res_bind_ROk in H as (w & _ & H). apply res_bind_ROk in H as (x & Hx & [= <-]). cbn.
  unfold result_ok. cbn. destruct (result next) as [e|[]]; (injection Hx as <- || apply res_bind_ROk in Hx as (j & _ & [= <-])); done.
Qed.

(** The receipt so far, from the state [s0] on: [res] is its result, and the actions that ran carry [deposit].  A receipt that failed creates nothing. *)
Definition so_far (p deposit bound : Z) (s0 : State) (res : Result) (s : State) : Prop :=
  moved p 0 deposit bound s0 (set_s_result res s) ∧ (result_ok res = false → new_receipts res = []).

Lemma so_far_step p f d b d' b' s0 res s s' next res' : so_far p d b s0 res s → result_ok res = true → moved p f d' b' s s' → 
  (next = s_result s' ∨ ∃ e, next = set_result (inl e) (s_result s')) → merge_result res next = ROk res' → so_far p (d + d') (b + (f + b')) s0 res' s'.
Proof.
  intros [[G1 S1 V1] _] Hok [G2 S2 V2] Hn (E1 & E2 & E3 & E4 & E5 & E6)%merge_inv. specialize (V1 Hok).
  assert (gas_burnt next = gas_burnt (s_result s') ∧ gas_burnt_for_function_call next = gas_burnt_for_function_call (s_result s') ∧ gas_used next = gas_used (s_result s')) as (F1 & F2 & F3) by by destruct Hn as [->|[e ->]].
  split; [|by rewrite E4]. split; cbn in *.
  - unfold gas_ok in *. cbn in *. lia.
  - unfold same_stats in *. cbn in *. lia.
  - intros Hok'. rewrite E4 in Hok'. destruct Hn as [->|[e ->]]; [|done]. specialize (V2 Hok'). specialize (E5 Hok'). unfold value_ok in *. cbn -[total_bought total_deposits] in *.
    rewrite E5, total_bought_app, total_deposits_app. destruct V1 as (P1 & B1 & D1 & X1), V2 as (P2 & B2 & D2 & X2). split; [by apply Forall_app|]. lia.
Qed.

Lemma so_far_failed p d d' b b' s0 res s e : so_far p d b s0 res s → result_ok res = false → b <= b' → so_far p d' b' s0 (set_result (inl e) res) s.
Proof. intros [[G S V] N] Hf Hb. split; [|intros _; by apply N]. split; [|done..]. unfold gas_ok in *. cbn in *. lia. Qed.

Section receipt.
Context (r : Rcpt) (ar : ActionReceipt AccountId) (u0 : U) (s0 : State).
Abbreviation id := (Receipt.receiver_id r).
Abbreviation p := (gas_price ar).
Context (not_system : id ≠ system) (signer_key_ok : public_key_ok (signer_public_key ar)).
Context (actions_ok : Forall action_ok (receipt_actions ar)) (actions_fit : Forall action_fits (receipt_actions ar)).

(** The gas that the action may use with its fee. *)
Definition action_limit (a : Act) : Z := exec_cost_of id a + action_bound ar a.

Lemma action_limit_nonneg a : action_ok a → 0 <= action_limit a.
Proof.
  intros Hok. unfold action_limit. pose proof (proj1 (exec_shallow_exact _ get_account_type fees wasm fees_fit id a (proj1 Hok))).
  pose proof (action_bound_nonneg _ get_account_type fees wasm fees_fit ar a Hok actions_ok). lia.
Qed.

Lemma deposit_nonneg (a : Act) : action_ok a → 0 <= deposit_of a.
Proof. intros Hok. pose proof (proj1 (total_deposit_exact _ [a] ltac:(by apply Forall_singleton))) as H. cbn in H. lia. Qed.

Lemma validated_good s (res : Result) :
  ensures (validated_result as_bytes from_str is_valid_staking_key apply_state res : AM Result) s (λ next s', s' = s ∧ (next = res ∨ ∃ e, next = set_result (inl e) res)).
Proof.
  unfold validated_result. destruct (result_ok res); [|estep; split; [done|by left]]. destruct (validate_new_receipts _ _ _ _ _); estep; (split; [done|]); [by left|right; by eexists].
Qed.

Lemma run_actions_good results n l : Forall action_ok l → Forall action_fits l → ∀ i d b res s, act_inv id u0 s → so_far p d b s0 res s → result_ok res = true →
  0 <= held (s_account s0) → global_actions_burnt_amount (s_stats s0) + held (s_account s0) + d + sum_Z (deposit_of <$> l) <= umax 128 →
  ensures (run_actions r ar results n l i res : AM Result) s (λ res' s', act_inv id u0 s' ∧
    so_far p (d + sum_Z (deposit_of <$> l)) (b + sum_Z (action_limit <$> l)) s0 res' s').
Proof.
  intros Hok Hfit. induction Hok as [|a l Ha Hl IH]; intros i d b res s Hinv Hso Hres Hh Hroom; cbn [ApplyReceipt.run_actions].
  { estep. cbn. by rewrite !Z.add_0_r. }
  apply Forall_cons in Hfit as [Hfa Hfl]. rewrite !fmap_cons, !sum_Z_cons, !Z.add_assoc in *. pose proof (deposit_nonneg a Ha) as Hd.
  assert (Hd2 : 0 <= sum_Z (deposit_of <$> l)) by exact (proj1 (total_deposit_exact _ _ Hl)).
  estep. eapply ensures_mono; [apply (apply_action_good as_bytes get_account_type is_top_level is_sub_account_of system hash verify hex_decode wallet_magic_bytes wallet_contract minimum_stake apply_state key_ok st_view st_saved st_trie_view) with (u0 := u0) (p := p)|]; try done.
  { intros acct Hacct. destruct (mv_value _ _ _ _ _ _ _ _ _ _ (proj1 Hso) Hres) as (_ & _ & D1 & X1). cbn in D1, X1. rewrite Hacct in X1. cbn in X1.
    destruct (ai_fits _ _ _ _ _ _ _ Hinv _ Hacct) as (_ & [? _] & _). lia. }
  intros [] s1 [Hi1 Hm]. cbv beta. estep. estep. estep. eapply ensures_mono; [apply validated_good|]. intros next s2 [-> Hn]. estep. estep.
  match goal with H : merge_result _ _ = ROk ?x |- _ => rename H into Hmerge, x into res' end. pose proof (so_far_step _ _ _ _ _ _ _ _ _ _ _ _ Hso Hres Hm Hn Hmerge) as Hso'.
  change (exec_cost_of id a + action_bound ar a) with (action_limit a) in Hso'. destruct (result res') as [e|v] eqn:Hr.
  - estep. split; [done|]. eapply so_far_failed; [exact Hso'|by unfold result_ok; rewrite Hr|]. assert (0 <= sum_Z (action_limit <$> l)); [|lia].
    apply sum_Z_nonneg, Forall_fmap. eapply Forall_impl; [exact Hl|]. apply action_limit_nonneg.
  - apply IH; try done; [by unfold result_ok; rewrite Hr|lia].
Qed.

Abbreviation check_storage := (check_storage (CallError := CallError) apply_state).

(** The account is stored, unless the receipt fails. *)
Lemma check_storage_good d b res s : act_inv id u0 s → so_far p d b s0 res s → (∀ a, s_account s = Some a → result_ok res = true → amount a < umax 128) →
  ensures (check_storage id res : AM Result) s (λ res' s', frame (exec_key id) u0 (s_update s') ∧ so_far p d b s0 res' s' ∧ (∀ a, s_account s' = Some a → acct_fits a) ∧
    (result_ok res' = true → account_at (s_update s') id = s_account s')).
Proof.
  intros Hinv Hso Hlt. unfold ApplyReceipt.check_storage. destruct (result_ok res) eqn:Hres.
  2: { estep. split_and!; [apply Hinv|done|apply Hinv|congruence]. }
  estep. estep. destruct (s_account s) as [a|] eqn:Ha.
  2: { estep. split_and!; [apply Hinv|done|apply Hinv|]. intros _. unfold account_at. rewrite (ai_none _ _ _ _ _ _ _ Hinv Ha). by rewrite Ha. }
  pose proof (ai_fits _ _ _ _ _ _ _ Hinv _ Ha) as Hfit. destruct (check_storage_stake _ _ _) as [[x|]|[]]; [| |].
  - estep. match goal with H : merge_result _ _ = ROk _ |- _ => apply merge_inv in H as (E1 & E2 & E3 & E4 & _ & E6) end. cbn in E1, E2, E3, E4, E6. destruct Hso as [[G S V] N]. split_and!.
    + apply Hinv.
    + split; [|intros _; by apply E6]. split; [|done|cbn; congruence]. unfold gas_ok in *. cbn in *. lia.
    + apply Hinv.
    + congruence.
  - estep.
  - estep. estep. estep. match goal with H : set_account _ _ _ = Some _ |- _ => rename H into Hset end. split_and!; [|by destruct Hso as [[] ?]| |].
    + eapply st_frame_trans; [apply Hinv|]. eapply frame_weaken; [|eapply rs_set_frame; [exact (proj1 (account_keys_ok id))|exact Hset]]. intros k <-. left. by left.
    + intros b'. cbn. rewrite Ha. by intros [= <-].
    + intros _. cbn. rewrite Ha. eapply set_account_at; [exact Hset|]. apply acct_fits_ok; [done|by apply Hlt].
Qed.
End receipt.

(** ** Steps of the runtime *)

Abbreviation Rt := (RtState (AccountId := AccountId) (U := U) (K := K)).
Abbreviation RtM := (M Rt Error).

Section execution.
Context (r : Rcpt) (ar : ActionReceipt AccountId).
Abbreviation id := (Receipt.receiver_id r).
Abbreviation p := (gas_price ar).
Context (not_system : id ≠ system) (signer_key_ok : public_key_ok (signer_public_key ar)).
Context (actions_ok : Forall action_ok (receipt_actions ar)) (actions_fit : Forall action_fits (receipt_actions ar)).
Abbreviation deposits := (sum_Z (deposit_of <$> receipt_actions ar)).
Abbreviation at_price := (priced as_bytes get_account_type fees wasm system p).
Abbreviation all_bought := (total_bought as_bytes get_account_type fees wasm system).
Abbreviation held_at := (λ u, held (account_at u id)).

(** The gas that the execution may use. *)
Definition gas_limit : Z := Costs.exec_fee (fee fees action_new_action_receipt) + sum_Z (action_limit r ar <$> receipt_actions ar).

Record executed (s : Rt) (res : Result) (s' : Rt) : Prop := {
  ex_sink : rt_sink s' = rt_sink s;
  ex_stats : same_stats (rt_stats s) (rt_stats s');
  ex_gas : gas_ok 0 gas_limit res;
  ex_failed : result_ok res = false → new_receipts res = [];
  ex_value : result_ok res = true → Forall at_price (new_receipts res) ∧ all_bought (new_receipts res) = gas_used res - gas_burnt res ∧ 0 <= total_deposits (new_receipts res) ∧
    held_at (rt_update s') + total_deposits (new_receipts res) + (global_actions_burnt_amount (rt_stats s') - global_actions_burnt_amount (rt_stats s)) = held_at (rt_update s) + deposits ∧
    (∀ a, account_at (rt_update s') id = Some a → acct_fits a)
}.

Abbreviation execute_actions := (execute_actions as_bytes from_str get_account_type is_top_level is_sub_account_of system hash verify hex_decode is_valid_staking_key wallet_magic_bytes wallet_contract minimum_stake (K := K) apply_state).

Lemma held_nonneg (o : option Acct) : (∀ a, o = Some a → acct_fits a) → 0 <= held o.
Proof. intros Ho. destruct o as [a|]; [|done]. destruct (Ho a eq_refl) as ([? _] & [? _] & _). cbn. lia. Qed.

Lemma execute_actions_good results s : (∀ a, account_at (rt_update s) id = Some a → acct_fits a) →
  global_actions_burnt_amount (rt_stats s) + held_at (rt_update s) + deposits < umax 128 → 0 <= global_actions_burnt_amount (rt_stats s) →
  ensures (execute_actions r ar results : RtM Result) s (λ res s', frame (exec_key id) (rt_update s) (rt_update s') ∧ executed s res s').
Proof.
  intros Hfit Hroom Hg. unfold ApplyReceipt.execute_actions. rstep. rstep. match goal with H : get_account _ _ = _ |- _ => apply get_account_at in H as [-> Hnone] end.
  apply ensures_zoom. set (s0 := mkActionState _ _ _ _ _). set (u0 := rt_update s).
  assert (Hi0 : act_inv id u0 s0) by (split; [apply st_frame_refl|exact Hnone|exact Hfit]).
  assert (Hs0 : so_far p 0 (Costs.exec_fee (fee fees action_new_action_receipt)) s0 (initial_result apply_state) s0).
  { pose proof (exec_column_ok _ fees_fit action_new_action_receipt) as [Hn _]. split; [|done]. split; [unfold gas_ok; cbn in *; lia|apply same_stats_refl|]. intros _. unfold value_ok. cbn. split_and!; [constructor|lia..]. }
  apply ensures_seq. eapply ensures_mono; [eapply (run_actions_good r ar u0 s0); try done|].
  { by apply held_nonneg. } { cbn. cbn in Hroom. lia. }
  intros res s1 [Hi1 Hs1]. rewrite Z.add_0_l in Hs1. eapply ensures_mono; [apply (check_storage_good r ar u0 s0 _ _ _ _ Hi1 Hs1)|].
  { intros a Ha Hres. destruct (mv_value _ _ _ _ _ _ _ _ _ _ (proj1 Hs1) Hres) as (_ & _ & D1 & X1). destruct (mv_stats _ _ _ _ _ _ _ _ _ _ (proj1 Hs1)) as (_ & _ & _ & _ & G1).
    cbn in D1, X1, G1, Hroom. rewrite Ha in X1. cbn in X1. destruct (ai_fits _ _ _ _ _ _ _ Hi1 _ Ha) as (_ & [? _] & _). lia. }
  intros res' s2 (F & [M N] & W & V). split; [done|]. split; cbn; try done; [apply M|apply M|]. intros Hok. specialize (V Hok). destruct (mv_value _ _ _ _ _ _ _ _ _ _ M Hok) as (P1 & B1 & D1 & X1).
  split_and!; try done; rewrite V; [exact X1|done].
Qed.

(** ** Gas *)

Definition delegates (l : list Act) : Z := sum_Z ((λ a, if non_delegate a then 0 else 1) <$> l).

Lemma action_limit_eq a : action_ok a → action_limit r ar a =
  exec_cost as_bytes get_account_type fees wasm id a + prepaid_of a + (if non_delegate a then 0 else 1) * sum_Z (prepaid_send_cost as_bytes get_account_type fees wasm <$> receipt_actions ar).
Proof.
  intros [_ Hin]. unfold action_limit, prepaid_of, exec_cost. destruct a; try (cbn [inner action_bound get_prepaid_gas non_delegate inner_receiver fmap list_fmap sum_Z foldr]; lia).
  cbn [inner action_bound get_prepaid_gas non_delegate inner_receiver] in *.
  destruct (inner_action_ok as_bytes get_account_type fees wasm _ Hin) as [_ Hps]. unfold Fees.receipt_gas, attached_gas. rewrite Hps, (inner_exec _ _ _ _ _ _ Hin), (inner_prepaid _ _ Hin).
  replace (exec_cost_of id (Delegate signed)) with (exec_cost_of (Fees.receiver_id (delegate_action signed)) (Delegate signed)) by done. lia.
Qed.

Lemma gas_limit_le : delegates (receipt_actions ar) <= 1 → gas_limit <= Fees.receipt_gas as_bytes get_account_type fees wasm (receipt_actions ar) id.
Proof.
  intros Hd. unfold gas_limit. set (send := sum_Z (prepaid_send_cost as_bytes get_account_type fees wasm <$> receipt_actions ar)).
  assert (Hsum : ∀ l, Forall action_ok l → sum_Z (action_limit r ar <$> l) = sum_Z (exec_cost as_bytes get_account_type fees wasm id <$> l) + sum_Z (prepaid_of <$> l) + delegates l * send).
  { induction 1 as [|a l Ha _ IH]; [done|]. unfold delegates in *. rewrite !fmap_cons, !sum_Z_cons, IH, action_limit_eq by done. fold send. lia. }
  rewrite Hsum by done. unfold Fees.receipt_gas, attached_gas. fold send. assert (0 <= send) by exact (proj1 (total_prepaid_send_exact _ get_account_type fees wasm fees_fit _ actions_ok)). nia.
Qed.

(** C7: with one delegate action at most, as receipts are validated, the execution uses at most the gas that was bought with the receipt: the subtraction that
    computes the unspent gas, which would panic otherwise, returns, whether the receipt succeeded or not. *)
Theorem execution_within_prepaid_gas results s res s' total : (∀ a, account_at (rt_update s) id = Some a → acct_fits a) →
  0 <= global_actions_burnt_amount (rt_stats s) → global_actions_burnt_amount (rt_stats s) + held_at (rt_update s) + deposits < umax 128 →
  delegates (receipt_actions ar) <= 1 → prepaid_total as_bytes get_account_type fees wasm r ar = ROk total →
  execute_actions r ar results s = Ok res s' →
  0 <= gas_burnt res <= gas_used res ∧ gas_used res <= total ∧ unspent_gas total res = ROk (total - (if result_ok res then gas_used res else gas_burnt res)).
Proof.
  intros Hfit Hg Hroom Hd Ht Hrun. destruct (ensures_inv _ _ _ _ _ (execute_actions_good results s Hfit Hroom Hg) Hrun) as [_ [_ _ G _ _]]. unfold gas_ok in G.
  apply prepaid_total_good in Ht as ->; [|done..]. pose proof (gas_limit_le Hd). split_and!; [lia..|]. unfold unspent_gas. rewrite checked_sub_ok; [done|]. destruct (result_ok res); lia.
Qed.

(** ** Input *)

Lemma collect_good ids : Forall (λ d, length d = 32%nat) ids → ∀ s,
  ensures (collect_input id ids : RtM (list PromiseResult)) s (λ _ s', frame (λ k, ∃ d, k = TrieKey.ReceivedData id d) (rt_update s) (rt_update s') ∧ rt_sink s' = rt_sink s ∧ rt_stats s' = rt_stats s).
Proof.
  induction 1 as [|d ids Hd _ IH]; intros s; cbn [collect_input]; [rstep; split; [apply st_frame_refl|done]|].
  rstep. rstep. destruct a as [[data]|]; [|rstep]. rstep. rstep. rstep. eapply ensures_mono; [apply IH|]. intros l s' (F & E1 & E2). rstep. split; [|done].
  eapply st_frame_trans; [|exact F]. eapply frame_weaken; [|eapply rs_remove_frame; [by apply received_keys_ok|eassumption]]. intros k <-. by eexists.
Qed.

(** ** Refunds and burnt tokens *)

Abbreviation value := (receipt_value as_bytes get_account_type fees wasm system).
Abbreviation all_value := (total_value as_bytes get_account_type fees wasm system).
Abbreviation settle_refunds := (settle_refunds (CallError := CallError) as_bytes get_account_type system (K := K) (U := U) (StorageError := StorageError) apply_state).

Context (is_receipt : receipt r = ActionR ar ∨ receipt r = PromiseYield ar) (price_nonneg : 0 <= p) (refunds_free : predecessor_id r = system → p = 0).

Lemma value_eq : value r = deposits + p * (if bool_decide (predecessor_id r = system) then 0 else Fees.receipt_gas as_bytes get_account_type fees wasm (receipt_actions ar) id).
Proof. unfold receipt_value, receipt_deposit, bought_gas, receipt_price. by destruct is_receipt as [-> | ->]. Qed.

Lemma value_ge : deposits <= value r.
Proof.
  rewrite value_eq. case_bool_decide; [lia|]. pose proof (proj1 (total_prepaid_exact _ _ actions_ok)). pose proof (proj1 (total_prepaid_send_exact _ get_account_type fees wasm fees_fit _ actions_ok)).
  pose proof (proj1 (total_exec_exact _ get_account_type fees wasm fees_fit id _ actions_ok)). pose proof (exec_column_ok _ fees_fit action_new_action_receipt) as [? _].
  unfold Fees.receipt_gas, attached_gas. nia.
Qed.

(** What the refunds carry with what will be burnt. *)
Definition settled (res : Result) (s : Rt) (refund : GasRefundResult) (res' : Result) (s' : Rt) : Prop :=
  ∃ l, res' = set_new_receipts (new_receipts res ++ l) res ∧ 0 <= all_value l ∧ rt_update s' = rt_update s ∧ rt_sink s' = rt_sink s ∧ other_burnt_amount (rt_stats s) <= other_burnt_amount (rt_stats s') ∧
    rt_stats s' = mkBalanceStats (tx_burnt_amount (rt_stats s)) (slashed_burnt_amount (rt_stats s)) (other_burnt_amount (rt_stats s')) (gas_deficit_amount (rt_stats s)) (global_actions_burnt_amount (rt_stats s)) ∧
    ∀ x, burnt_amount system (block_gas_price apply_state) r refund res' = ROk x →
      all_value l + x + (other_burnt_amount (rt_stats s') - other_burnt_amount (rt_stats s)) =
        (if result_ok res then 0 else deposits) + (value r - deposits) - p * (if result_ok res then gas_used res - gas_burnt res else 0).

Lemma settle_good res s : 0 <= gas_burnt res → ensures (settle_refunds r ar res : RtM _) s (λ '(refund, res') s', settled res s refund res' s').
Proof.
  intros Hb. unfold ApplyReceipt.settle_refunds, is_system. pose proof value_eq as Hv. case_bool_decide as Hsys.
  - pose proof (refunds_free Hsys) as Hp. rewrite Hp in Hv. rewrite Z.mul_0_l, Z.add_0_r in Hv.
    assert (Hx : ∀ x, burnt_amount system (block_gas_price apply_state) r default_gas_refund res = ROk x → x = 0).
    { intros x Hx. unfold burnt_amount in Hx. rewrite bool_decide_true in Hx by done. inv_res. cbn. lia. }
    rstep. apply (ensures_mono _ _ (λ _ s', settled res s default_gas_refund res s')); [|intros [] s' ?; by rstep]. destruct (result_ok res) eqn:Hres.
    + rstep. exists []. rewrite app_nil_r. split_and!; [by destruct res|done..|by destruct (rt_stats s)|]. rewrite Hres, Hv. intros x ->%Hx. cbn. lia.
    + rstep. rstep. match goal with H : total_deposit _ = _ |- _ => apply (exact_unique _ _ _ _ (total_deposit_exact _ _ actions_ok)) in H as -> end.
      unfold add_other_burnt. repeat rstep. inv_res. exists []. rewrite app_nil_r. pose proof (proj1 (total_deposit_exact _ _ actions_ok)) as Hd. split_and!; [by destruct res|done..|cbn; lia|done|]. rewrite Hres, Hv. intros x ->%Hx. cbn. lia.
  - rstep. destruct a as [refund res']. match goal with H : generate_refund_receipts _ _ _ _ _ _ _ _ _ = _ |- _ => rename H into Hgen end.
    destruct (generate_refunds_good as_bytes get_account_type system fees wasm fees_fit _ _ _ _ _ _ actions_ok price_nonneg Hb Hgen) as (g & Hpush & Hg0 & _).
    assert (0 <= if result_ok res then 0 else deposits) by (destruct (result_ok res); [done|exact (proj1 (total_deposit_exact _ _ actions_ok))]).
    destruct (push_refunds_good as_bytes get_account_type system fees wasm r ar (if result_ok res then 0 else deposits) g res) as (l & Hl & Hlv); [done..|].
    exists l. rewrite Hl in Hpush. split_and!; [done|lia|done..|by destruct (rt_stats s)|]. intros x Hx.
    destruct (refunds_good as_bytes get_account_type system fees wasm fees_fit _ _ _ _ _ _ _ Hsys actions_ok price_nonneg Hb Hgen Hx) as (l' & El & HV).
    rewrite Hpush in El. assert (l' = l) as -> by (injection El; intros E; by apply app_inv_head in E). rewrite Hv. destruct (result_ok res); lia.
Qed.

(** Other accounts are not changed. *)
Definition only_account (u u' : U) : Prop := ∀ id', id' ≠ id → account_at u' id' = account_at u id'.

(** The reward is moved from what is burnt to the account. *)
Lemma reward_good reward burnt s : (∀ a, account_at (rt_update s) id = Some a → acct_fits a) → held_at (rt_update s) + burnt < umax 128 →
  ensures (pay_reward (K := K) r reward burnt : RtM Z) s (λ burnt' s', held_at (rt_update s') + burnt' = held_at (rt_update s) + burnt ∧
    only_account (rt_update s) (rt_update s') ∧ rt_sink s' = rt_sink s ∧ rt_stats s' = rt_stats s).
Proof.
  intros Hfit Hroom. cbv beta in Hroom. unfold pay_reward. destruct (Z.ltb_spec 0 reward); [|by rstep]. rstep. rstep. match goal with H : get_account _ _ = _ |- _ => apply get_account_at in H as [-> _] end.
  destruct (account_at (rt_update s) id) as [a|] eqn:Ha; [|rstep; by rewrite Ha]. repeat rstep. inv_checked. inv_res.
  match goal with H : set_account _ _ _ = Some ?u |- _ => rename H into Hset, u into u1 end. match goal with H : rs_commit _ _ = Some ?u |- _ => rename H into Hcommit, u into u2 end.
  destruct (Hfit a eq_refl) as ([M0 M1] & [L0 L1] & F3 & F4). cbn [held] in Hroom.
  assert (Hok : account_ok (set_amount (amount a + reward) a)).
  { apply acct_fits_ok; [apply fits_set_amount; [unfold in_u in *; lia|by split_and!]|]. rewrite amount_set. lia. }
  destruct (set_account_at _ _ _ _ Hset Hok) as [E1 E2]. destruct (rs_commit_ok _ _ _ Hcommit) as (_ & Hv & _).
  assert (Hc : ∀ i, account_at u2 i = account_at u1 i) by (intros i; unfold account_at; by rewrite Hv).
  split_and!; try done; cbn [rt_update set_rt_update].
  - rewrite Hc, E1, held_amount. cbn. lia.
  - intros i Hi. rewrite Hc. by apply E2.
Qed.

(** ** Outgoing receipts *)

Lemma value_set_enum e r' a b : receipt r' = ActionR a ∨ receipt r' = PromiseYield a → e = ActionR b ∨ e = PromiseYield b → gas_price b = gas_price a → receipt_actions b = receipt_actions a →
  value (set_receipt_enum e r') = value r'.
Proof.
  intros Ha He Ep El. unfold receipt_value, receipt_deposit, bought_gas, receipt_price. replace (receipt (set_receipt_enum e r')) with e by by destruct r'.
  replace (predecessor_id (set_receipt_enum e r')) with (predecessor_id r') by by destruct r'. replace (Receipt.receiver_id (set_receipt_enum e r')) with (Receipt.receiver_id r') by by destruct r'.
  destruct Ha as [-> | ->], He as [-> | ->]; by rewrite Ep, El.
Qed.

Lemma value_set_id i r' : value (set_receipt_id i r') = value r'.
Proof. by destruct r'. Qed.

Lemma data_values data l : all_value (data_for id data <$> l) = 0.
Proof. unfold total_value. induction l as [|d l IH]; [done|]. rewrite !fmap_cons, sum_Z_cons, IH. unfold receipt_value, bought_gas. cbn. by case_bool_decide. Qed.

(** The output of a receipt carries no tokens. *)
Lemma outgoing_good res res' : outgoing_data (CallError := CallError) id ar res = ROk res' → all_value (new_receipts res') = all_value (new_receipts res) ∧ result res' = result res.
Proof.
  unfold outgoing_data. destruct (output_data_receivers ar) as [|d l]; [by intros [= <-]|]. 
  assert (Hd : ∀ x data, (mret (set_new_receipts (new_receipts res ++ (data_for id data <$> d :: l)) res) : Res IntegerOverflowError Result) = ROk x →
    all_value (new_receipts x) = all_value (new_receipts res) ∧ result x = result res).
  { intros x data Hx. assert (x = set_new_receipts (new_receipts res ++ (data_for id data <$> d :: l)) res) as -> by (unfold mret, Res_ret in Hx; congruence).
    split; [|done]. cbn [new_receipts set_new_receipts]. rewrite total_value_app, data_values. lia. }
  destruct (result res) as [e|[]] eqn:Hres; try (by apply Hd). intros (r' & Hr & H)%res_bind_ROk. apply res_bind_ROk in H as (e & He & [= <-]). split; [|exact Hres]. cbn [new_receipts set_new_receipts].
  destruct (new_receipts res !! _) as [r1|] eqn:Hlook; [|done]. injection Hr as ->.
  unfold total_value. rewrite list_fmap_insert, (sum_Z_insert _ _ _ (value r')) by by rewrite list_lookup_fmap, Hlook.
  assert (value (set_receipt_enum e r') = value r'); [|lia]. unfold extend_output_receivers in He.
  destruct (receipt r') as [a| |a| |] eqn:Er; try done; injection He as <-; by eapply value_set_enum; eauto.
Qed.

(** The receipts with their ids, as they are given to the sink. *)
Fixpoint numbered (parent : bytes) (l : list Rcpt) (i : nat) : list Rcpt :=
  match l with [] => [] | r :: l => set_receipt_id (create_receipt_id hash apply_state parent i) r :: numbered parent l (S i) end.

Lemma numbered_value parent l : ∀ i, all_value (numbered parent l i) = all_value l.
Proof. unfold total_value. induction l as [|r' l IH]; intros i; [done|]. cbn [numbered]. by rewrite !fmap_cons, !sum_Z_cons, IH, value_set_id. Qed.

Context (forward : Rcpt → M (K * U) (RuntimeError StorageError) ()).
Context (own_key : TrieKey AccountId → Prop) (sink_inv : list Rcpt → list Rcpt → K * U → Prop) `{SinkOk : !ReceiptSinkOk key_ok st_view st_trie_view own_key forward sink_inv}.
Context (accounts_not_own : ∀ id, ¬ own_key (TrieKey.Account id)).
Abbreviation send_receipts := (send_receipts hash forward apply_state).

Lemma send_stats parent l : ∀ i s, ensures (send_receipts parent l i : RtM (list bytes)) s (λ _ s', rt_stats s' = rt_stats s).
Proof.
  induction l as [|r' l IH]; intros i s; cbn [ApplyReceipt.send_receipts]; [by rstep|]. rstep. apply ensures_zoom. unfold ensures at 1. destruct (forward _ _) as [[] t| | |]; [|done..].
  rstep. eapply ensures_mono; [apply IH|]. intros ids s' Hs. by rstep.
Qed.

Lemma send_good parent l : ∀ i handled s, sink_inv (numbered parent l i) handled (rt_sink s, rt_update s) →
  ensures (send_receipts parent l i : RtM (list bytes)) s (λ _ s', sink_inv [] (handled ++ numbered parent l i) (rt_sink s', rt_update s') ∧ ∀ id', account_at (rt_update s') id' = account_at (rt_update s) id').
Proof.
  induction l as [|r' l IH]; intros i handled s Hs; cbn [ApplyReceipt.send_receipts numbered] in *; [rstep; by rewrite app_nil_r|]. rstep. apply ensures_zoom.
  apply forward_ok, returns_inv in Hs as (a & [k u] & Hf & Hs' & _ & Hv). unfold ensures at 1. rewrite Hf. rstep. eapply ensures_mono; [apply (IH (S i) (handled ++ _) (mkRtState k u _ _) Hs')|].
  intros ids s' [E1 E2]. rstep. rewrite <-app_assoc in E1. split; [done|]. intros id'. rewrite E2. unfold account_at. cbn in *. by rewrite (Hv _ (proj1 (account_keys_ok id')) (accounts_not_own id')).
Qed.

(** ** Conservation *)

Definition succeeded (o : ExecutionOutcomeWithId AccountId CallError) : bool := match status o with Failure _ => false | _ => true end.

(** The receipts [sent] are given to the sink in the state [s1]. *)
Record conserves (s : Rt) (ok : bool) (sent : list Rcpt) (s1 : Rt) : Prop := {
  cs_tokens : held_at (rt_update s) + value r =
    held_at (rt_update s1) + all_value sent + (tx_burnt_amount (rt_stats s1) - tx_burnt_amount (rt_stats s)) + (other_burnt_amount (rt_stats s1) - other_burnt_amount (rt_stats s)) +
    (if ok then global_actions_burnt_amount (rt_stats s1) - global_actions_burnt_amount (rt_stats s) else 0);
  cs_others : only_account (rt_update s) (rt_update s1);
  cs_sink : rt_sink s1 = rt_sink s
}.

Abbreviation apply_action_receipt := (apply_action_receipt as_bytes from_str get_account_type is_top_level is_sub_account_of system hash verify hex_decode is_valid_staking_key wallet_magic_bytes wallet_contract minimum_stake forward apply_state).

(** The actions have run: the accounts of [s] can be rolled back to. *)
Record ran (s : Rt) (res : Result) (s3 : Rt) : Prop := {
  rn_back : ∀ u, rs_rollback (rt_update s3) = Some u → ∀ id', account_at u id' = account_at (rt_update s) id';
  rn_others : only_account (rt_update s) (rt_update s3);
  rn_executed : executed s res s3
}.

Lemma start_good s : Forall (λ d, length d = 32%nat) (input_data_ids ar) → (∀ a, account_at (rt_update s) id = Some a → acct_fits a) →
  0 <= global_actions_burnt_amount (rt_stats s) → global_actions_burnt_amount (rt_stats s) + held_at (rt_update s) + deposits < umax 128 →
  ensures (results ← collect_input id (input_data_ids ar); _ ← rt_commit (ActionReceiptProcessingStarted (receipt_id r)); execute_actions r ar results) s (λ res s3, ran s res s3).
Proof.
  intros Hids Hfit Hg Hroom. rstep. eapply ensures_mono; [by apply collect_good|]. intros results s1 (F1 & Es1 & Et1). rstep. rstep.
  match goal with H : rs_commit _ _ = Some ?u |- _ => destruct (rs_commit_ok _ _ _ H) as (_ & Hv & Hsv); rename u into u2 end. set (s2 := set_rt_update u2 s1).
  assert (Hacc : ∀ id', account_at (rt_update s2) id' = account_at (rt_update s) id').
  { intros id'. unfold account_at at 1. cbn. rewrite Hv. apply (frame_account_at _ _ _ _ F1). by intros [d Hd]. }
  eapply ensures_mono; [apply (execute_actions_good results s2)|]; cbv beta in *; rewrite ?Hacc; cbn [s2 rt_stats set_rt_update]; rewrite ?Et1; try done.
  intros res s3 [F3 [X1 X2 X3 X4 X5]]. split; [| |split]; cbn in *; rewrite ?Et1, ?Hacc in *; try done; [|..|congruence].
  - intros u Hu id'. destruct (rs_rollback_ok _ _ Hu) as (_ & Hb & _). unfold account_at at 1. rewrite Hb, (fr_saved _ _ _ _ _ _ _ F3), Hsv. apply (frame_account_at _ _ _ _ F1). by intros [d Hd].
  - intros id' Hne. rewrite <-Hacc. apply (frame_account_at _ _ _ _ F3). intros [[|[|[[? ?]|[? ?]]]]|[|[? ?]]]; congruence.
Qed.

(** The changes are kept if the receipt succeeded, and undone otherwise. *)
Lemma committed_good s res s3 s4 : ran s res s3 → (∀ a, account_at (rt_update s) id = Some a → acct_fits a) → rt_update s4 = rt_update s3 →
  ensures (if result_ok res then rt_commit (ReceiptProcessing (receipt_id r)) else rt_write rs_rollback : RtM ()) s4 (λ _ s5, (∃ u, s5 = set_rt_update u s4) ∧
    only_account (rt_update s) (rt_update s5) ∧ (∀ a, account_at (rt_update s5) id = Some a → acct_fits a) ∧
    held_at (rt_update s5) + (if result_ok res then total_deposits (new_receipts res) + (global_actions_burnt_amount (rt_stats s3) - global_actions_burnt_amount (rt_stats s)) else 0) =
      held_at (rt_update s) + (if result_ok res then deposits else 0)).
Proof.
  intros [Hback Hother [X1 X2 X3 X4 X5]] Hfit E4. destruct (result_ok res).
  - rstep. match goal with H : rs_commit _ _ = Some ?u |- _ => destruct (rs_commit_ok _ _ _ H) as (_ & Hv & _); rename u into u5 end.
    assert (Hacc : ∀ id', account_at u5 id' = account_at (rt_update s3) id') by (intros id'; unfold account_at; by rewrite Hv, E4).
    destruct (X5 eq_refl) as (_ & _ & _ & Hval & Hf). split; [by eexists|]. cbn. rewrite Hacc. split_and!; [intros id' Hne; rewrite Hacc; by apply Hother|done|lia].
  - rstep. match goal with H : rs_rollback _ = Some ?u |- _ => rewrite E4 in H; pose proof (Hback _ H) as Hacc; rename u into u5 end.
    split; [by eexists|]. cbn. rewrite Hacc. split_and!; [intros id' Hne; apply Hacc|done|lia].
Qed.

Abbreviation apply_receipt_actions := (apply_receipt_actions as_bytes from_str get_account_type is_top_level is_sub_account_of system hash verify hex_decode is_valid_staking_key wallet_magic_bytes wallet_contract minimum_stake forward apply_state).

Lemma apply_receipt_body : (apply_action_receipt r : RtM (ExecutionOutcomeWithId AccountId CallError)) = apply_receipt_actions r ar.
Proof. unfold ApplyReceipt.apply_action_receipt. by destruct is_receipt as [-> | ->]. Qed.

Lemma apply_receipt_good s : Forall (λ d, length d = 32%nat) (input_data_ids ar) → (∀ a, account_at (rt_update s) id = Some a → acct_fits a) →
  0 <= global_actions_burnt_amount (rt_stats s) → global_actions_burnt_amount (rt_stats s) + held_at (rt_update s) + value r < umax 128 →
  ensures (apply_action_receipt r : RtM _) s (λ o s', ∃ new s1 ids, send_receipts (receipt_id r) new 0 s1 = Ok ids s' ∧ conserves s (succeeded o) (numbered (receipt_id r) new 0) s1).
Proof.
  intros Hids Hfit Hg Hroom. pose proof (proj1 (total_deposit_exact _ _ actions_ok)) as Hdep. pose proof value_ge as Hval.
  rewrite apply_receipt_body. unfold ApplyReceipt.apply_receipt_actions, add_gas_deficit, add_tx_burnt. pose proof (start_good s Hids Hfit Hg ltac:(cbv beta in *; lia)) as H0.
  rstep. eapply ensures_mono; [exact (ensures_split _ _ _ _ H0)|]. intros results s1 H1. rstep. eapply ensures_mono; [exact (ensures_split _ _ _ _ H1)|]. intros [] s2 H2.
  rstep. eapply ensures_mono; [exact H2|]. clear H0 H1 H2 s1 s2. intros res s3 H3.
  pose proof (rn_executed _ _ _ H3) as [_ X2 X3 X4 X5]. rstep. eapply ensures_mono; [apply settle_good; unfold gas_ok in X3; lia|]. intros [refund res'] s4 (l & -> & Hl & Eu4 & Es4 & Ho4 & Et4 & Hburnt).
  repeat rstep. eapply ensures_mono; [eapply (committed_good s res s3 _ H3 Hfit); exact Eu4|]. intros [] s5 ([u5 ->] & Hother & Hfit5 & Hheld). repeat rstep.
  match goal with H : burnt_amount _ _ _ _ _ = ROk ?x |- _ => apply Hburnt in H as HE; clear Hburnt; rename x into burnt end.
  assert (HN : all_value (new_receipts res) = if result_ok res then total_deposits (new_receipts res) + p * (gas_used res - gas_burnt res) else 0).
  { destruct (result_ok res); [|by rewrite X4]. destruct (X5 eq_refl) as (P & <- & _). by apply total_value_priced. }
  assert (Hnn : if result_ok res then 0 <= total_deposits (new_receipts res) else True) by (destruct (result_ok res); [by apply X5|done]).
  destruct X2 as (T1 & T2 & T3 & T4 & T5). unfold gas_ok in X3. rewrite Et4 in HE. cbn [other_burnt_amount] in HE.
  eapply ensures_mono; [apply reward_good; [exact Hfit5|]|].
  { cbv beta in *. destruct (result_ok res); nia. }
  intros b6 s6 (Hr & Hother6 & Es6 & Et6). repeat rstep. inv_res.
  match goal with H : outgoing_data _ _ _ = ROk _ |- _ => apply outgoing_good in H as [EV ER] end. apply ensures_intro. intros ids s' Hsend. rstep. do 3 eexists. split; [exact Hsend|].
  cbn [result set_new_receipts new_receipts] in EV, ER. cbn in Hr, Hheld, Es6, Et6. split; cbn.
  - rewrite numbered_value, EV, total_value_app, Et6. unfold succeeded, status_of. cbn. rewrite ER, Et4. cbn. rewrite T1, T3 in *.
    replace (match _ with Failure _ => false | _ => true end) with (result_ok res) by (unfold result_ok; by destruct (result res) as [|[]]). destruct (result_ok res); lia.
  - intros id' Hne. rewrite Hother6 by done. by apply Hother.
  - rewrite Es6, Es4. by apply H3.
Qed.

(** C2: the execution of an action receipt conserves tokens.  When [apply_action_receipt] returns, there is a state [s1] in which the receipts [sent] were given
    to the sink, such that what the account of the receiver held before and the value of the receipt (its deposits, and the gas that was bought with it at its price)
    is what the account holds, what the receipts that were sent carry, and what was counted as burnt; storage of global contracts is only paid for if the
    receipt succeeded.  No other account changed.  If the sink accepts the receipts, they are all handled and the accounts stay as they are. *)
Theorem receipt_conserves_tokens s o s' : Forall (λ d, length d = 32%nat) (input_data_ids ar) → (∀ a, account_at (rt_update s) id = Some a → acct_fits a) →
  0 <= global_actions_burnt_amount (rt_stats s) → global_actions_burnt_amount (rt_stats s) + held_at (rt_update s) + value r < umax 128 →
  apply_action_receipt r s = Ok o s' →
  ∃ sent s1, conserves s (succeeded o) sent s1 ∧ rt_stats s' = rt_stats s1 ∧
    ∀ handled, sink_inv sent handled (rt_sink s1, rt_update s1) →
      sink_inv [] (handled ++ sent) (rt_sink s', rt_update s') ∧ ∀ id', account_at (rt_update s') id' = account_at (rt_update s1) id'.
Proof.
  intros Hids Hfit Hg Hroom Hrun. destruct (ensures_inv _ _ _ _ _ (apply_receipt_good s Hids Hfit Hg Hroom) Hrun) as (new & s1 & ids & Hsend & Hc).
  exists (numbered (receipt_id r) new 0), s1. split; [done|]. split; [exact (ensures_inv _ _ _ _ _ (send_stats _ _ _ _) Hsend)|].
  intros handled Hs. exact (ensures_inv _ _ _ _ _ (send_good _ _ _ _ _ Hs) Hsend).
Qed.

End execution.
End correct.
