(* ===== verification/OutgoingMetadata.v ===== *)
(** The metadata of the outgoing buffers (core/store/src/trie/outgoing_metadata.rs): the receipts in the
    buffer to a shard are grouped, and the sizes and gas of the groups are kept in a queue in the
    state, from which bandwidth requests are made. *)

From S2P Require Import Prelude Errors Borsh TrieKey SortedMap TrieQueue ReceiptQueues.
Local Open Scope Z_scope.

(** * Groups *)

Record ReceiptGroup : Type := mkGroup { group_size : Z; group_gas : Z }.

Definition new_group (receipt_size receipt_gas : Z) : ReceiptGroup := mkGroup receipt_size receipt_gas.

(** [None] is the failed assertion. *)
Definition is_empty (g : ReceiptGroup) : option bool :=
  if group_size g =? 0 then if group_gas g =? 0 then Some true else None else Some false.

Definition add_size_checked (total delta : Z) : option Z := checked_add 64 total delta.
Definition subtract_size_checked (total delta : Z) : option Z := checked_sub total delta.
Definition add_gas_checked (total delta : Z) : option Z := checked_add 128 total delta.
Definition subtract_gas_checked (total delta : Z) : option Z := checked_sub total delta.

Record ReceiptGroupsConfig : Type := mkGroupsConfig { size_upper_bound : Z; gas_upper_bound : Z }.

Definition default_config : ReceiptGroupsConfig := mkGroupsConfig 100000 (umax 64).

Definition should_start_new_group (c : ReceiptGroupsConfig) (last_group : ReceiptGroup) (new_receipt_size new_receipt_gas : Z)
    : option bool :=
  size ← add_size_checked (group_size last_group) new_receipt_size;
  if size_upper_bound c <? size then Some true
  else
    gas ← add_gas_checked (group_gas last_group) new_receipt_gas;
    Some (gas_upper_bound c <? gas).

(** * The queue of groups *)

Record ReceiptGroupsQueueData : Type := mkQueueData {
  data_indices : TrieQueueIndices;
  total_size : Z;
  total_gas : Z;
  total_receipts_num : Z
}.

Record ReceiptGroupsQueue : Type := mkGroupsQueue { receiver_shard : Z; data : ReceiptGroupsQueueData }.

Definition new_groups_queue (shard : Z) : ReceiptGroupsQueue := mkGroupsQueue shard (mkQueueData default_indices 0 0 0).

Section metadata.
Context {AccountId StorageError U : Type} `{!StateStore (TrieKey AccountId) StorageError U}.
Context `{!Borsh ReceiptGroupsQueueData} `{!Borsh ReceiptGroup}.

Abbreviation Key := (TrieKey AccountId).
Abbreviation Read := (Key → option (StorageError + option (list Z))).

Definition load_data (read : Read) (shard : Z) : Res (RuntimeError StorageError) (option ReceiptGroupsQueueData) :=
  read_value read (BufferedReceiptGroupsQueueData shard).

Definition load_groups_queue (read : Read) (shard : Z) : Res (RuntimeError StorageError) (option ReceiptGroupsQueue) :=
  data_opt ← load_data read shard;
  mret (option_map (mkGroupsQueue shard) data_opt).

Definition save_data (q : ReceiptGroupsQueue) (u : U) : option U :=
  write_value (BufferedReceiptGroupsQueueData (receiver_shard q)) (data q) u.

#[export] Instance groups_queue : TrieQueue Key U ReceiptGroupsQueue := {|
  indices q := data_indices (data q);
  set_indices q i := mkGroupsQueue (receiver_shard q) (mkQueueData i (total_size (data q)) (total_gas (data q)) (total_receipts_num (data q)));
  write_indices q u := save_data q u;
  trie_key q index := BufferedReceiptGroupsQueueItem (receiver_shard q) index
|}.

Abbreviation GM := (M (ReceiptGroupsQueue * U) (RuntimeError StorageError)).

(** Change the totals of the queue in memory. *)
Definition put_totals (size gas num : Z) : GM () := λ s,
  let '(q, u) := s in
  Ok () (mkGroupsQueue (receiver_shard q) (mkQueueData (data_indices (data q)) size gas num), u).

Definition groups_pushed (receipt_size receipt_gas : Z) (c : ReceiptGroupsConfig) : GM () :=
  q ← get_queue;
  size ← expect (add_size_checked (total_size (data q)) receipt_size);
  gas ← expect (add_gas_checked (total_gas (data q)) receipt_gas);
  num ← expect (checked_add 64 (total_receipts_num (data q)) 1);
  _ ← put_totals size gas num;
  popped ← pop_back;
  match popped with
  | Some last_group =>
      start ← expect (should_start_new_group c last_group receipt_size receipt_gas);
      if (start : bool) then
        _ ← expect_ok (push_back last_group : GM ());
        expect_ok (push_back (new_group receipt_size receipt_gas) : GM ())
      else
        size ← expect (add_size_checked (group_size last_group) receipt_size);
        gas ← expect (add_gas_checked (group_gas last_group) receipt_gas);
        expect_ok (push_back (mkGroup size gas) : GM ())
  | None => expect_ok (push_back (new_group receipt_size receipt_gas) : GM ())
  end.

(** The function that changes the first group. *)
Definition shrink_group (receipt_size receipt_gas : Z) (first_group : ReceiptGroup) : option (option ReceiptGroup) :=
  size ← subtract_size_checked (group_size first_group) receipt_size;
  gas ← subtract_gas_checked (group_gas first_group) receipt_gas;
  empty ← is_empty (mkGroup size gas);
  Some (if (empty : bool) then None else Some (mkGroup size gas)).

Definition groups_popped (receipt_size receipt_gas : Z) : GM () :=
  q ← get_queue;
  size ← expect (subtract_size_checked (total_size (data q)) receipt_size);
  gas ← expect (subtract_gas_checked (total_gas (data q)) receipt_gas);
  num ← expect (checked_sub (total_receipts_num (data q)) 1);
  _ ← put_totals size gas num;
  len ← expect (indices_len (data_indices (data q)));
  if 0 <? len then modify_first (shrink_group receipt_size receipt_gas) else panic.

Definition iter_receipt_group_sizes (read : Read) (q : ReceiptGroupsQueue) : list (option (RuntimeError StorageError + Z)) :=
  (λ o, r ← o; Some (match r with inl e => inl e | inr g => inr (group_size g) end)) <$> queue_iter (Item := ReceiptGroup) read q.

(** * All buffers *)

Record OutgoingMetadatas : Type := mkMetadatas { metadatas : gmap Z ReceiptGroupsQueue; groups_config : ReceiptGroupsConfig }.

Definition new_metadatas (c : ReceiptGroupsConfig) : OutgoingMetadatas := mkMetadatas ∅ c.

Fixpoint load_metadatas_loop (read : Read) (shard_ids : list Z) (m : gmap Z ReceiptGroupsQueue)
    : Res (RuntimeError StorageError) (gmap Z ReceiptGroupsQueue) :=
  match shard_ids with
  | [] => mret m
  | shard_id :: shard_ids =>
      o ← load_groups_queue read shard_id;
      load_metadatas_loop read shard_ids (match o with Some q => <[shard_id := q]> m | None => m end)
  end.

Definition load_metadatas (read : Read) (shard_ids : list Z) (c : ReceiptGroupsConfig) : Res (RuntimeError StorageError) OutgoingMetadatas :=
  m ← load_metadatas_loop read shard_ids ∅;
  mret (mkMetadatas m c).

Abbreviation MM := (M (OutgoingMetadatas * U) (RuntimeError StorageError)).

(** A method of the queue of a shard, which starts as [q]. *)
Definition on_metadata {A} (shard_id : Z) (q : ReceiptGroupsQueue) (m : GM A) : MM A :=
  zoom (λ s, (q, s.2)) (λ t s, (mkMetadatas (<[shard_id := t.1]> (metadatas s.1)) (groups_config s.1), t.2)) m.

Definition update_on_receipt_pushed (shard_id receipt_size receipt_gas : Z) : MM () :=
  s ← get_state;
  let q := default (new_groups_queue shard_id) (metadatas s.1 !! shard_id) in
  on_metadata shard_id q (groups_pushed receipt_size receipt_gas (groups_config s.1)).

Definition update_on_receipt_popped (shard_id receipt_size receipt_gas : Z) : MM () :=
  s ← get_state;
  q ← expect (metadatas s.1 !! shard_id);
  on_metadata shard_id q (groups_popped receipt_size receipt_gas).
End metadata.

(** * The groups count the receipts *)

(** A receipt is its size and its gas. *)
Definition sizes (l : list (Z * Z)) : Z := sum_Z l.*1.
Definition gases (l : list (Z * Z)) : Z := sum_Z l.*2.

Definition group_of (l : list (Z * Z)) : ReceiptGroup := mkGroup (sizes l) (gases l).

Lemma sizes_app l k : sizes (l ++ k) = sizes l + sizes k.
Proof. unfold sizes. by rewrite fmap_app, sum_Z_app. Qed.
Lemma gases_app l k : gases (l ++ k) = gases l + gases k.
Proof. unfold gases. by rewrite fmap_app, sum_Z_app. Qed.
Lemma sizes_cons r l : sizes (r :: l) = r.1 + sizes l.
Proof. unfold sizes. by rewrite fmap_cons, sum_Z_cons. Qed.
Lemma gases_cons r l : gases (r :: l) = r.2 + gases l.
Proof. unfold gases. by rewrite fmap_cons, sum_Z_cons. Qed.

(** There are no receipts of size zero. *)
Definition entry_ok (r : Z * Z) : Prop := 0 < r.1 ∧ 0 <= r.2.

Lemma sizes_nonneg l : Forall entry_ok l → 0 <= sizes l.
Proof. intros Hl. apply sum_Z_nonneg, Forall_fmap. eapply Forall_impl; [exact Hl|]. intros r [? ?]. cbn. lia. Qed.
Lemma gases_nonneg l : Forall entry_ok l → 0 <= gases l.
Proof. intros Hl. apply sum_Z_nonneg, Forall_fmap. eapply Forall_impl; [exact Hl|]. intros r [? ?]. cbn. lia. Qed.
Lemma sizes_pos r l : Forall entry_ok (r :: l) → 0 < sizes (r :: l).
Proof. intros [[? ?] Hl]%Forall_cons. rewrite sizes_cons. pose proof (sizes_nonneg l Hl). lia. Qed.

(** The last group takes the receipt unless it would get too large. *)
Definition push_groups (c : ReceiptGroupsConfig) (groups : list (list (Z * Z))) (r : Z * Z) : list (list (Z * Z)) :=
  match last groups with
  | None => [[r]]
  | Some g =>
      if (size_upper_bound c <? sizes g + r.1) || (gas_upper_bound c <? gases g + r.2) then groups ++ [[r]]
      else take (length groups - 1) groups ++ [g ++ [r]]
  end.

Definition pop_groups (groups : list (list (Z * Z))) : list (list (Z * Z)) :=
  match groups with
  | (_ :: g) :: groups => match g with [] => groups | _ => g :: groups end
  | _ => []
  end.

Lemma concat_push_groups c groups r : concat (push_groups c groups r) = concat groups ++ [r].
Proof.
  unfold push_groups. destruct groups as [|g groups _] using rev_ind; [done|]. rewrite last_snoc. case_match.
  - by rewrite concat_app.
  - rewrite length_app, take_app_le, take_ge by (simpl; lia). rewrite !concat_app. simpl. by rewrite !app_nil_r, app_assoc.
Qed.

(** Groups of more than one receipt are within the bounds. *)
Definition group_bounded (c : ReceiptGroupsConfig) (g : list (Z * Z)) : Prop :=
  (1 < length g)%nat → sizes g <= size_upper_bound c ∧ gases g <= gas_upper_bound c.

Section laws.
Context {AccountId StorageError U : Type} `{!EqDecision AccountId} `{!StateStore (TrieKey AccountId) StorageError U}.
Context `{!Borsh ReceiptGroupsQueueData} `{!Borsh ReceiptGroup}.
Context (key_ok : TrieKey AccountId → Prop) (st_view : U → TrieKey AccountId → option (list Z)) (st_trie_view : U → Base (TrieKey AccountId)).
Context `{!StateStoreOk (TrieKey AccountId) StorageError U key_ok st_view st_trie_view} `{!QueueKeys key_ok}.

Definition group_ok (g : ReceiptGroup) : Prop := in_u 64 (group_size g) ∧ in_u 128 (group_gas g).
Context `{!BorshOk ReceiptGroup group_ok}.

Abbreviation GM := (M (ReceiptGroupsQueue * U) (RuntimeError StorageError)).
Abbreviation groups_wf := (λ q, in_u 16 (receiver_shard q)).
Abbreviation groups_key := (λ q, BufferedReceiptGroupsQueueData (receiver_shard q)).
Abbreviation groups_value := (λ q, borsh_encode (data q)).

#[export] Instance groups_queue_ok : TrieQueueOk key_ok ReceiptGroupsQueue groups_wf groups_key groups_value.
Proof.
  split; try done; cbn.
  - intros. by apply groups_data_ok.
  - intros. by apply groups_item_ok.
  - congruence.
Qed.

Abbreviation queue_rep := (queue_rep st_view group_ok groups_wf).
Abbreviation frame := (frame key_ok st_view st_trie_view groups_key).

(** The queue holds the groups, and its totals are those of the receipts. *)
Record groups_rep (q : ReceiptGroupsQueue) (u : U) (groups : list (list (Z * Z))) : Prop := {
  gr_queue : queue_rep q u (group_of <$> groups);
  gr_nonempty : Forall (λ g, g ≠ []) groups;
  gr_entries : Forall entry_ok (concat groups);
  gr_size : total_size (data q) = sizes (concat groups);
  gr_gas : total_gas (data q) = gases (concat groups);
  gr_num : total_receipts_num (data q) = Z.of_nat (length (concat groups))
}.

Definition with_totals (q : ReceiptGroupsQueue) (size gas num : Z) : ReceiptGroupsQueue :=
  mkGroupsQueue (receiver_shard q) (mkQueueData (data_indices (data q)) size gas num).

Lemma totals_rep q u size gas num items : queue_rep q u items → queue_rep (with_totals q size gas num) u items.
Proof. intros Hrep. apply (queue_rep_same st_view group_ok groups_wf q); [done|done|apply Hrep|done]. Qed.

Lemma totals_frame q u u' size gas num : frame (with_totals q size gas num) u u' → frame q u u'.
Proof. by apply frame_same. Qed.

Lemma start_group_ok c g r :
  sizes g + r.1 <= umax 64 → gases g + r.2 <= umax 128 →
  should_start_new_group c (group_of g) r.1 r.2 = Some ((size_upper_bound c <? sizes g + r.1) || (gas_upper_bound c <? gases g + r.2)).
Proof.
  intros Hs Hg. unfold should_start_new_group, add_size_checked, add_gas_checked. cbn [group_size group_gas group_of].
  rewrite (checked_add_ok 64 (sizes g)) by done. cbn [mbind option_bind]. case_match; [done|]. by rewrite checked_add_ok.
Qed.

(** The result of an operation on the queue [q]. *)
Record after (q q' : ReceiptGroupsQueue) (u u' : U) (items : list ReceiptGroup) : Prop := {
  af_queue : queue_rep q' u' items;
  af_frame : frame q u u';
  af_shard : receiver_shard q' = receiver_shard q;
  af_totals : total_size (data q') = total_size (data q) ∧ total_gas (data q') = total_gas (data q) ∧
    total_receipts_num (data q') = total_receipts_num (data q);
  af_stored : st_view u' (groups_key q) = Some (groups_value q')
}.

Lemma push_after q u items g :
  queue_rep q u items → group_ok g → next_available_index (indices q) < umax 64 →
  ∃ q' u', (expect_ok (push_back g : GM ()) : GM ()) (q, u) = Ok () (q', u') ∧ after q q' u u' (items ++ [g]) ∧
    next_available_index (indices q') = next_available_index (indices q) + 1.
Proof.
  intros Hrep Hg Hroom. destruct (push_back_ok key_ok st_view st_trie_view group_ok groups_wf groups_key groups_value q u items g Hrep Hg Hroom)
    as (u' & Hu & Hr & Hf & Hv). do 2 eexists. split_and!; [by apply expect_ok_Ok|by split|done].
Qed.

Lemma after_trans q q1 q2 u u1 u2 items1 items2 : after q q1 u u1 items1 → after q1 q2 u1 u2 items2 → after q q2 u u2 items2.
Proof.
  intros [R1 F1 S1 T1 V1] [R2 F2 S2 T2 V2]. split; [done| |congruence| |].
  - eapply frame_trans; [exact F1|]. apply (frame_same key_ok st_view st_trie_view groups_key q q1); [cbn; congruence|congruence|done].
  - destruct T1 as (? & ? & ?), T2 as (? & ? & ?). split_and!; congruence.
  - rewrite <-S1. exact V2.
Qed.

(** What is done to the groups once the totals are changed. *)
Definition push_tail (size gas : Z) (c : ReceiptGroupsConfig) : GM () :=
  popped ← pop_back;
  match popped with
  | Some last_group =>
      start ← expect (should_start_new_group c last_group size gas);
      if (start : bool) then
        _ ← expect_ok (push_back last_group : GM ());
        expect_ok (push_back (new_group size gas) : GM ())
      else
        size ← expect (add_size_checked (group_size last_group) size);
        gas ← expect (add_gas_checked (group_gas last_group) gas);
        expect_ok (push_back (mkGroup size gas) : GM ())
  | None => expect_ok (push_back (new_group size gas) : GM ())
  end.

Lemma group_of_snoc g r : group_of (g ++ [r]) = mkGroup (sizes g + r.1) (gases g + r.2).
Proof. unfold group_of. rewrite sizes_app, gases_app, sizes_cons, gases_cons. change (sizes []) with 0. change (gases []) with 0. f_equal; lia. Qed.

Lemma group_of_single r : group_of [r] = new_group r.1 r.2.
Proof. exact (group_of_snoc [] r). Qed.

Lemma concat_entries groups g : Forall entry_ok (concat groups) → g ∈ groups → Forall entry_ok g ∧ sizes g <= sizes (concat groups) ∧ gases g <= gases (concat groups).
Proof.
  intros He (k & l & ->)%list_elem_of_split. rewrite concat_app in *. cbn [concat] in *. rewrite !Forall_app in He. destruct He as (Hk & Hg & Hl).
  rewrite !sizes_app, !gases_app. pose proof (sizes_nonneg _ Hk). pose proof (sizes_nonneg _ Hl). pose proof (gases_nonneg _ Hk). pose proof (gases_nonneg _ Hl).
  split; [done|lia].
Qed.

Lemma push_tail_ok q u groups c r :
  queue_rep q u (group_of <$> groups) → Forall entry_ok (concat groups) → entry_ok r → sizes (concat groups) + r.1 <= umax 64 →
  gases (concat groups) + r.2 <= umax 128 → next_available_index (indices q) < umax 64 →
  ∃ q' u', push_tail r.1 r.2 c (q, u) = Ok () (q', u') ∧ after q q' u u' (group_of <$> push_groups c groups r) ∧
    next_available_index (indices q') <= next_available_index (indices q) + 1.
Proof.
  intros Hrep He Hr Hs Hg Hroom. destruct r as [size gas]. unfold entry_ok in Hr. cbn [fst snd] in *. unfold push_groups. destruct groups as [|g groups _] using rev_ind.
  - pose proof (pop_back_empty st_view group_ok groups_wf q u Hrep) as Hp. change (sizes (concat [])) with 0 in Hs. change (gases (concat [])) with 0 in Hg.
    destruct (push_after q u [] (new_group size gas) Hrep) as (q' & u' & Hu & Ha & Hn); [split; unfold in_u; cbn; lia|done|].
    exists q', u'. unfold push_tail. rewrite (bind_Ok _ _ _ _ _ Hp). split_and!; [done| |lia]. cbn [last fmap list_fmap]. by rewrite (group_of_single (size, gas)).
  - rewrite fmap_app in Hrep. cbn [fmap list_fmap] in Hrep. destruct (concat_entries _ g He) as (Heg & Hsg & Hgg); [set_solver|].
    pose proof (sizes_nonneg _ Heg). pose proof (gases_nonneg _ Heg).
    destruct (pop_back_ok key_ok st_view st_trie_view group_ok groups_wf groups_key groups_value q u _ _ Hrep) as (u1 & Hu1 & Hr1 & Hf1 & Hv1).
    set (q1 := set_indices _ _) in *. assert (after q q1 u u1 (group_of <$> groups)) as Ha1 by by split.
    pose proof (qr_items _ _ _ _ _ _ Hrep) as Hio. rewrite Forall_app, Forall_singleton in Hio. destruct Hio as [_ Hog].
    pose proof (qr_next _ _ _ _ _ _ Hrep) as Hqn. pose proof (qr_first _ _ _ _ _ _ Hrep) as Hqf. rewrite length_app in Hqn. cbn [length] in Hqn.
    assert (next_available_index (indices q1) = next_available_index (indices q) - 1) as Hn1 by done.
    unfold push_tail. rewrite (bind_Ok _ _ _ _ _ Hu1). rewrite last_snoc. cbn [fst snd]. pose proof (start_group_ok c g (size, gas)) as Hst. cbn [fst snd] in Hst.
    rewrite Hst by lia. rewrite bind_expect. case_match eqn:Hc.
    + destruct (push_after q1 u1 _ _ Hr1 Hog) as (q2 & u2 & Hu2 & Ha2 & Hn2); [lia|]. rewrite (bind_Ok _ _ _ _ _ Hu2).
      destruct (push_after q2 u2 _ (new_group size gas) (af_queue _ _ _ _ _ Ha2)) as (q3 & u3 & Hu3 & Ha3 & Hn3); [split; unfold in_u; cbn; lia|lia|].
      exists q3, u3. split_and!; [done| |lia]. rewrite !fmap_app. cbn [fmap list_fmap]. rewrite (group_of_single (size, gas)).
      eapply after_trans; [exact Ha1|]. by eapply after_trans.
    + unfold add_size_checked, add_gas_checked. cbn [group_size group_gas group_of]. rewrite !checked_add_ok by lia. rewrite !bind_expect.
      destruct (push_after q1 u1 _ (mkGroup (sizes g + size) (gases g + gas)) Hr1) as (q2 & u2 & Hu2 & Ha2 & Hn2); [split; unfold in_u; cbn; lia|lia|].
      exists q2, u2. split_and!; [done| |lia]. rewrite length_app, take_app_le, take_ge by (simpl; lia). rewrite fmap_app. cbn [fmap list_fmap].
      rewrite (group_of_snoc g (size, gas)). by eapply after_trans.
Qed.

Lemma groups_pushed_eq q u size gas c :
  total_size (data q) + size <= umax 64 → total_gas (data q) + gas <= umax 128 → total_receipts_num (data q) + 1 <= umax 64 →
  (groups_pushed size gas c : GM ()) (q, u) =
    push_tail size gas c (with_totals q (total_size (data q) + size) (total_gas (data q) + gas) (total_receipts_num (data q) + 1), u).
Proof.
  intros Hs Hg Hn. unfold groups_pushed, add_size_checked, add_gas_checked. rewrite (bind_Ok _ _ _ q (q, u)) by done.
  rewrite (checked_add_ok 64 (total_size (data q))), (checked_add_ok 128 (total_gas (data q))), (checked_add_ok 64 (total_receipts_num (data q))) by done.
  by rewrite !bind_expect.
Qed.

(** The result of counting one receipt: the queue after it, the frame, and the stored data. *)
Definition counted (q q' : ReceiptGroupsQueue) (u u' : U) (groups : list (list (Z * Z))) : Prop :=
  groups_rep q' u' groups ∧ frame q u u' ∧ receiver_shard q' = receiver_shard q ∧ st_view u' (groups_key q) = Some (groups_value q').

Lemma push_groups_nonempty c groups r : Forall (λ g, g ≠ []) groups → Forall (λ g, g ≠ []) (push_groups c groups r).
Proof.
  intros Hg. unfold push_groups. destruct groups as [|g groups _] using rev_ind; [by repeat constructor|]. rewrite last_snoc.
  case_match; [by apply Forall_app; split; [|repeat constructor]|]. rewrite length_app, take_app_le, take_ge by (simpl; lia).
  apply Forall_app in Hg as [Hg _]. apply Forall_app. split; [done|]. repeat constructor. by destruct g.
Qed.

Lemma push_groups_bounded c groups r : Forall (group_bounded c) groups → Forall (group_bounded c) (push_groups c groups r).
Proof.
  intros Hg. unfold push_groups. assert (group_bounded c [r]) as Hr by (intros ?; simpl in *; lia).
  destruct groups as [|g groups _] using rev_ind; [cbn [last]; by rewrite Forall_singleton|]. rewrite last_snoc.
  case_match eqn:Hc; [by rewrite Forall_app, Forall_singleton|]. rewrite length_app, take_app_le, take_ge by (simpl; lia).
  apply Forall_app in Hg as [Hg _]. rewrite Forall_app, Forall_singleton. split; [done|]. intros _. rewrite sizes_app, gases_app, sizes_cons, gases_cons.
  change (sizes []) with 0. change (gases []) with 0. apply orb_false_iff in Hc as [?%Z.ltb_ge ?%Z.ltb_ge]. lia.
Qed.

Lemma groups_pushed_ok q u groups c r :
  groups_rep q u groups → entry_ok r → sizes (concat groups) + r.1 <= umax 64 → gases (concat groups) + r.2 <= umax 128 →
  Z.of_nat (length (concat groups)) < umax 64 → next_available_index (indices q) < umax 64 →
  ∃ q' u', (groups_pushed r.1 r.2 c : GM ()) (q, u) = Ok () (q', u') ∧ counted q q' u u' (push_groups c groups r) ∧
    next_available_index (indices q') <= next_available_index (indices q) + 1.
Proof.
  intros [Hq Hne He Hs Hg Hn] Hr Hsz Hgs Hnum Hroom. rewrite groups_pushed_eq by lia. set (q1 := with_totals _ _ _ _).
  destruct (push_tail_ok q1 u groups c r) as (q' & u' & Hu & [Hq' Hf (* receiver *) Hsh (Ht1 & Ht2 & Ht3) Hst] & Hnx); [by apply totals_rep|done..|].
  exists q', u'. split_and!; [done| |done]. cbn [q1 with_totals data total_size total_gas total_receipts_num receiver_shard] in *.
  split_and!; [|by apply totals_frame in Hf|done|done]. constructor; rewrite ?concat_push_groups; [done|by apply push_groups_nonempty|by rewrite Forall_app, Forall_singleton| | |].
  - rewrite sizes_app, sizes_cons. change (sizes []) with 0. lia.
  - rewrite gases_app, gases_cons. change (gases []) with 0. lia.
  - rewrite length_app. cbn [length]. lia.
Qed.

Lemma shrink_group_ok r g :
  Forall entry_ok (r :: g) → shrink_group r.1 r.2 (group_of (r :: g)) = Some (match g with [] => None | _ => Some (group_of g) end).
Proof.
  intros Hg. apply Forall_cons in Hg as [Hr Hg]. unfold shrink_group, subtract_size_checked, subtract_gas_checked, group_of. cbn [group_size group_gas].
  rewrite sizes_cons, gases_cons. pose proof (sizes_nonneg g Hg). pose proof (gases_nonneg g Hg). unfold entry_ok in Hr.
  rewrite (checked_sub_ok (r.1 + sizes g)) by lia. cbn [mbind option_bind]. rewrite (checked_sub_ok (r.2 + gases g)) by lia. cbn [mbind option_bind].
  replace (r.1 + sizes g - r.1) with (sizes g) by lia. replace (r.2 + gases g - r.2) with (gases g) by lia. unfold is_empty. cbn [group_size group_gas].
  destruct g as [|r' g]; [done|]. pose proof (sizes_pos r' g Hg). rewrite (proj2 (Z.eqb_neq (sizes (r' :: g)) 0)) by lia. done.
Qed.

Lemma groups_popped_ok q u r g groups :
  groups_rep q u ((r :: g) :: groups) →
  ∃ q' u', (groups_popped r.1 r.2 : GM ()) (q, u) = Ok () (q', u') ∧ counted q q' u u' (pop_groups ((r :: g) :: groups)) ∧
    next_available_index (indices q') = next_available_index (indices q).
Proof.
  intros [Hq Hne He Hs Hg Hn]. cbn [concat app] in *. assert (He' := He). apply Forall_cons in He' as [Hr He1]. unfold entry_ok in Hr.
  rewrite sizes_cons in Hs. rewrite gases_cons in Hg. cbn [length] in Hn. pose proof (sizes_nonneg _ He1). pose proof (gases_nonneg _ He1).
  set (q1 := with_totals q (total_size (data q) - r.1) (total_gas (data q) - r.2) (total_receipts_num (data q) - 1)).
  assert (Heq : (groups_popped r.1 r.2 : GM ()) (q, u) = (modify_first (shrink_group r.1 r.2) : GM ()) (q1, u)).
  { unfold groups_popped, subtract_size_checked, subtract_gas_checked. rewrite (bind_Ok _ _ _ q (q, u)) by done.
    rewrite (checked_sub_ok (total_size (data q))), (checked_sub_ok (total_gas (data q))), (checked_sub_ok (total_receipts_num (data q))) by lia.
    rewrite !bind_expect. rewrite (bind_Ok _ _ _ () (q1, u)) by done. pose proof (queue_len_ok st_view group_ok groups_wf q u _ Hq) as Hl. unfold queue_len in Hl. cbn [indices groups_queue] in Hl.
    rewrite Hl, bind_expect. by rewrite (proj2 (Z.ltb_lt _ _)) by (cbn; lia). }
  rewrite Heq. cbn [fmap list_fmap] in Hq. pose proof (qr_items _ _ _ _ _ _ Hq) as Hio. apply Forall_cons in Hio as [Hog _].
  assert (Forall entry_ok (r :: g)) as Hrg by (rewrite Forall_cons; split; [done|by apply Forall_app in He1 as [? _]]).
  destruct (modify_first_ok key_ok st_view st_trie_view group_ok groups_wf groups_key groups_value q1 u _ _ (shrink_group r.1 r.2) _
    (totals_rep _ _ _ _ _ _ Hq) (shrink_group_ok r g Hrg)) as (q' & u' & Hu & Hq' & Hnx & Hrep & Hf & Hst).
  { intros x. destruct g as [|r' g]; [done|]. intros [= <-]. destruct Hog as [Hos Hogas]. unfold in_u, group_of in *. cbn [group_size group_gas] in *.
    rewrite sizes_cons in Hos. rewrite gases_cons in Hogas. apply Forall_cons in Hrg as [_ Hrg]. pose proof (sizes_nonneg _ Hrg). pose proof (gases_nonneg _ Hrg).
    split; unfold in_u; cbn [group_size group_gas]; lia. }
  exists q', u'. split_and!; [done| |done]. apply Forall_cons in Hne as [_ Hne].
  assert (receiver_shard q' = receiver_shard q ∧ total_size (data q') = total_size (data q1) ∧ total_gas (data q') = total_gas (data q1) ∧
    total_receipts_num (data q') = total_receipts_num (data q1)) as (Es & E1 & E2 & E3) by (destruct Hq' as [->|[i ->]]; done).
  assert (pop_groups ((r :: g) :: groups) = match g with [] => groups | _ => g :: groups end ∧ concat (match g with [] => groups | _ => g :: groups end) = g ++ concat groups) as [Ep Ec] by by destruct g.
  rewrite Ep. split_and!; [|by apply totals_frame in Hf|done|done]. constructor; rewrite ?Ec, ?E1, ?E2, ?E3; cbn [q1 with_totals data total_size total_gas total_receipts_num]; try lia.
  - destruct g; [exact Hrep|exact Hrep].
  - destruct g; [done|]. by apply Forall_cons.
  - by apply Forall_cons in He as [_ He].
Qed.

Lemma iter_sizes_ok q u groups :
  groups_rep q u groups → iter_receipt_group_sizes (st_get u) q = (λ g, Some (inr (sizes g))) <$> groups.
Proof.
  intros Hrep. unfold iter_receipt_group_sizes. rewrite (queue_iter_ok key_ok st_view st_trie_view group_ok groups_wf groups_key groups_value q u _ (gr_queue _ _ _ Hrep)).
  rewrite <-!list_fmap_compose. done.
Qed.

(** * Sequences of receipts *)

(** A receipt enters or leaves the buffer. *)
Inductive BufferEvent : Type :=
| Enters (r : Z * Z)
| Leaves (r : Z * Z).

(** The buffer is first in, first out. *)
Fixpoint buffer_after (l : list (Z * Z)) (events : list BufferEvent) : option (list (Z * Z)) :=
  match events with
  | [] => Some l
  | Enters r :: events => buffer_after (l ++ [r]) events
  | Leaves r :: events =>
      match l with
      | r' :: l => if decide (r = r') then buffer_after l events else None
      | [] => None
      end
  end.

Fixpoint count_events (c : ReceiptGroupsConfig) (events : list BufferEvent) : GM () :=
  match events with
  | [] => mret ()
  | Enters r :: events => _ ← groups_pushed r.1 r.2 c; count_events c events
  | Leaves r :: events => _ ← groups_popped r.1 r.2; count_events c events
  end.

Definition entering (events : list BufferEvent) : list (Z * Z) := omap (λ e, match e with Enters r => Some r | Leaves _ => None end) events.

(** The sums fit their types, also when nothing leaves. *)
Definition events_fit (q : ReceiptGroupsQueue) (l new : list (Z * Z)) : Prop :=
  sizes (l ++ new) <= umax 64 ∧ gases (l ++ new) <= umax 128 ∧ Z.of_nat (length (l ++ new)) <= umax 64 ∧
  next_available_index (indices q) + Z.of_nat (length new) <= umax 64.

Lemma counted_trans q q1 q2 u u1 u2 groups1 groups2 : counted q q1 u u1 groups1 → counted q1 q2 u1 u2 groups2 → counted q q2 u u2 groups2.
Proof.
  intros (R1 & F1 & S1 & V1) (R2 & F2 & S2 & V2). split_and!; [done| |congruence|congruence].
  eapply frame_trans; [exact F1|]. apply (frame_same key_ok st_view st_trie_view groups_key q q1); [cbn; congruence|congruence|done].
Qed.

Lemma pop_groups_bounded c groups : Forall (group_bounded c) groups → Forall entry_ok (concat groups) → Forall (group_bounded c) (pop_groups groups).
Proof.
  intros Hg He. destruct groups as [|[|r g] groups]; [done|done|]. cbn [pop_groups concat app] in *. apply Forall_cons in Hg as [Hb Hg]. destruct g as [|r' g]; [done|].
  apply Forall_cons. split; [|done]. apply Forall_cons in He as [[? ?] _]. intros Hl. destruct Hb as [Hs Hga]; [cbn in *; lia|].
  rewrite sizes_cons in Hs. rewrite gases_cons in Hga. lia.
Qed.

Lemma concat_pop_groups r g groups : concat (pop_groups ((r :: g) :: groups)) = g ++ concat groups.
Proof. by destruct g. Qed.

Lemma events_fit_enters q q1 l r new :
  entry_ok r → Forall entry_ok new → next_available_index (indices q1) <= next_available_index (indices q) + 1 →
  events_fit q l (r :: new) → events_fit q1 (l ++ [r]) new ∧ sizes l + r.1 <= umax 64 ∧ gases l + r.2 <= umax 128 ∧
    Z.of_nat (length l) < umax 64 ∧ next_available_index (indices q) < umax 64.
Proof.
  intros Hr Hnew Hq (Hs & Hg & Hn & Hx). pose proof (sizes_nonneg _ Hnew). pose proof (gases_nonneg _ Hnew). unfold events_fit.
  rewrite !sizes_app, !gases_app, !length_app, ?sizes_cons, ?gases_cons in *. change (sizes []) with 0. change (gases []) with 0. cbn [length] in *. lia.
Qed.

Lemma events_fit_leaves q q1 r l new :
  entry_ok r → next_available_index (indices q1) = next_available_index (indices q) → events_fit q (r :: l) new → events_fit q1 l new.
Proof.
  intros [? ?] Hq (Hs & Hg & Hn & Hx). unfold events_fit. cbn [app length] in *. rewrite sizes_cons in Hs. rewrite gases_cons in Hg. lia.
Qed.

Lemma counted_compose q q1 u u1 groups1 (events : list BufferEvent) (P : ReceiptGroupsQueue → U → list (list (Z * Z)) → Prop) :
  counted q q1 u u1 groups1 →
  (∃ q' u' groups', P q' u' groups' ∧ (events = [] ∧ q' = q1 ∧ u' = u1 ∧ groups' = groups1 ∨ counted q1 q' u1 u' groups')) →
  ∃ q' u' groups', P q' u' groups' ∧ counted q q' u u' groups'.
Proof.
  intros H1 (q' & u' & groups' & HP & [(_ & -> & -> & ->)|H2]); [by exists q1, u1, groups1|].
  exists q', u', groups'. split; [done|]. by eapply counted_trans.
Qed.

Lemma count_events_ok c events : ∀ q u groups l,
  groups_rep q u groups → Forall (group_bounded c) groups → buffer_after (concat groups) events = Some l → Forall entry_ok (entering events) →
  events_fit q (concat groups) (entering events) →
  ∃ q' u' groups', count_events c events (q, u) = Ok () (q', u') ∧ concat groups' = l ∧ Forall (group_bounded c) groups' ∧
    (events = [] ∧ q' = q ∧ u' = u ∧ groups' = groups ∨ counted q q' u u' groups').
Proof.
  induction events as [|[r|r] events IH]; intros q u groups l Hrep Hb Hl He Hfit; cbn [buffer_after count_events] in *.
  - injection Hl as <-. exists q, u, groups. split_and!; auto.
  - cbn [entering omap list_omap] in *. fold (entering events) in *. apply Forall_cons in He as [Hr He].
    destruct (events_fit_enters q q _ _ _ Hr He ltac:(lia) Hfit) as (_ & ? & ? & ? & ?).
    destruct (groups_pushed_ok q u groups c r Hrep Hr) as (q1 & u1 & Hu1 & Hc1 & Hnx1); [done..|]. rewrite (bind_Ok _ _ _ _ _ Hu1).
    destruct (counted_compose q q1 u u1 _ events (λ q' u' groups', count_events c events (q1, u1) = Ok () (q', u') ∧ concat groups' = l ∧ Forall (group_bounded c) groups') Hc1)
      as (q' & u' & groups' & (? & ? & ?) & ?); [|by exists q', u', groups'; auto].
    edestruct IH as (q' & u' & groups' & ? & ? & ? & ?); [apply Hc1|by apply push_groups_bounded|by rewrite concat_push_groups|done| |by exists q', u', groups'].
    rewrite concat_push_groups. by eapply events_fit_enters.
  - destruct groups as [|[|r0 g] groups]; [done|by destruct (Forall_inv (gr_nonempty _ _ _ Hrep))|]. cbn [concat app] in Hl. case_decide; [|done]. subst r0.
    destruct (groups_popped_ok q u r g groups Hrep) as (q1 & u1 & Hu1 & Hc1 & Hnx1). rewrite (bind_Ok _ _ _ _ _ Hu1). pose proof (gr_entries _ _ _ Hrep) as Hent.
    destruct (counted_compose q q1 u u1 _ events (λ q' u' groups', count_events c events (q1, u1) = Ok () (q', u') ∧ concat groups' = l ∧ Forall (group_bounded c) groups') Hc1)
      as (q' & u' & groups' & (? & ? & ?) & ?); [|by exists q', u', groups'; auto].
    edestruct IH as (q' & u' & groups' & ? & ? & ? & ?); [apply Hc1|by apply pop_groups_bounded|by rewrite concat_pop_groups|done| |by exists q', u', groups'].
    rewrite concat_pop_groups. cbn [concat app] in *. apply Forall_cons in Hent as [Hr _]. by eapply events_fit_leaves.
Qed.

(** The groups count the receipts.  Whatever receipts enter a buffer and leave it in order, counting them never panics
    or fails while the sums fit their types; afterwards the groups are a partition of the receipts in the buffer into
    consecutive parts that are not empty, the totals are those of the receipts, every group of more than one
    receipt is within the bounds, the sizes that a bandwidth request is made from are the sizes of the groups,
    and the data in the state is the data of the queue. *)
Theorem groups_count_receipts (c : ReceiptGroupsConfig) (events : list BufferEvent) (q : ReceiptGroupsQueue) (u : U)
    (groups : list (list (Z * Z))) (l : list (Z * Z)) :
  groups_rep q u groups → Forall (group_bounded c) groups → buffer_after (concat groups) events = Some l →
  Forall entry_ok (entering events) → events_fit q (concat groups) (entering events) → events ≠ [] →
  ∃ q' u' groups', count_events c events (q, u) = Ok () (q', u') ∧
    concat groups' = l ∧ Forall (λ g, g ≠ []) groups' ∧ Forall (group_bounded c) groups' ∧
    total_size (data q') = sizes l ∧ total_gas (data q') = gases l ∧ total_receipts_num (data q') = Z.of_nat (length l) ∧
    iter_receipt_group_sizes (st_get u') q' = (λ g, Some (inr (sizes g))) <$> groups' ∧
    st_view u' (BufferedReceiptGroupsQueueData (receiver_shard q)) = Some (borsh_encode (data q')).
Proof.
  intros Hrep Hb Hl He Hfit Hne. destruct (count_events_ok c events q u groups l) as (q' & u' & groups' & Hu & <- & Hb' & [(-> & _)|(Hrep' & Hf & Hs & Hst)]); [done..|].
  exists q', u', groups'. split_and!; [done|done|apply Hrep'|done|apply Hrep'|apply Hrep'|apply Hrep'|by apply iter_sizes_ok|done].
Qed.
End laws.

(** Three receipts enter the buffer to shard 3, the second of which starts a new group, and one leaves. *)
Module MetadataExample.
Import KeyExample QueueExample.

#[export] Instance group_borsh : Borsh ReceiptGroup := {|
  borsh_encode g := to_le_bytes 8 (group_size g) ++ to_le_bytes 16 (group_gas g);
  borsh_decode bytes :=
    '(s, bytes) ← borsh_decode (Borsh := borsh_uint 8) bytes;
    '(g, bytes) ← borsh_decode (Borsh := borsh_uint 16) bytes;
    Some (mkGroup s g, bytes)
|}.

#[export] Instance group_borsh_ok : BorshOk ReceiptGroup group_ok.
Proof.
  intros [s g] rest [Hs Hg]. unfold in_u, umax in *. cbn [group_size group_gas] in *. cbn [borsh_encode borsh_decode group_borsh group_size group_gas]. rewrite <-app_assoc.
  rewrite (borsh_uint_ok 8 s) by (change (256 ^ Z.of_nat 8) with (2 ^ 64); lia). cbn [mbind option_bind].
  rewrite (borsh_uint_ok 16 g) by (change (256 ^ Z.of_nat 16) with (2 ^ 128); lia). done.
Qed.

#[export] Instance data_borsh : Borsh ReceiptGroupsQueueData := {|
  borsh_encode d := borsh_encode (data_indices d) ++ to_le_bytes 8 (total_size d) ++ to_le_bytes 16 (total_gas d) ++ to_le_bytes 8 (total_receipts_num d);
  borsh_decode _ := None
|}.

Definition config : ReceiptGroupsConfig := mkGroupsConfig 100 1000.
Definition events : list BufferEvent := [Enters (60, 5); Enters (50, 0); Enters (40, 7); Leaves (60, 5)].
End MetadataExample.
Import KeyExample QueueExample MetadataExample.

Lemma groups_count_receipts_witness :
  ∃ q' u' groups', count_events MetadataExample.config MetadataExample.events (new_groups_queue 3, QueueExample.u0) = Ok () (q', u') ∧
    concat groups' = [(50, 0); (40, 7)] ∧ total_size (data q') = 90 ∧ iter_receipt_group_sizes (st_get u') q' = (λ g, Some (inr (sizes g))) <$> groups'.
Proof.
  destruct (groups_count_receipts (runtime_key KeyExample.as_bytes) (key_view KeyExample.as_bytes id) (key_trie_view KeyExample.as_bytes id)
    MetadataExample.config MetadataExample.events (new_groups_queue 3) QueueExample.u0 [] [(50, 0); (40, 7)])
    as (q' & u' & groups' & Hu & Hc & _ & _ & Ht & _ & _ & Hi & _).
  - by split.
  - done.
  - by vm_compute.
  - repeat constructor; by vm_compute.
  - by vm_compute.
  - done.
  - exists q', u', groups'. by split_and!.
Defined.
