(* ===== verification/F64.v ===== *)
(** The 64-bit floating-point numbers of the source, as the executable specification of the Standard
    Library: numbers with a mantissa of 53 bits, rounded to nearest, ties to even.

    The theory is what congestion control relies on: conversion from integers keeps the order, and a
    quotient of ordered numbers is at most one. *)

From Stdlib Require Import SpecFloat.
From S2P Require Import Prelude.
Local Open Scope Z_scope.

(** * Operations *)

Abbreviation f64 := spec_float.

Definition f64_of_Z (x : Z) : f64 := binary_normalize 53 1024 x 0 false.
Definition f64_add : f64 → f64 → f64 := SFadd 53 1024.
Definition f64_sub : f64 → f64 → f64 := SFsub 53 1024.
Definition f64_mul : f64 → f64 → f64 := SFmul 53 1024.
Definition f64_div : f64 → f64 → f64 := SFdiv 53 1024.
Definition f64_eqb : f64 → f64 → bool := SFeqb.
Definition f64_ltb : f64 → f64 → bool := SFltb.
Definition f64_leb : f64 → f64 → bool := SFleb.

Definition zero : f64 := S754_zero false.
Definition one : f64 := S754_finite false 4503599627370496 (-52).

(** [f64::max]: a number that is not NaN is preferred. *)
Definition f64_max (a b : f64) : f64 :=
  match SFcompare a b with
  | Some Lt => b
  | Some _ => a
  | None => match a with S754_nan => b | _ => a end
  end.

(** [x.round() as u64]: halves are rounded away from zero, and the result is saturated. *)
Definition f64_round_to_u64 (x : f64) : Z :=
  match x with
  | S754_nan | S754_zero _ | S754_infinity true | S754_finite true _ _ => 0
  | S754_infinity false => umax 64
  | S754_finite false m e =>
      let v := if 0 <=? e then Z.shiftl (Zpos m) e else (Z.shiftl (Zpos m) 1 + Z.shiftl 1 (- e)) / Z.shiftl 1 (- e + 1) in
      Z.min v (umax 64)
  end.

(** * Shifts of the mantissa *)

Lemma iter_pos_nat {A} (f : A → A) p x : SpecFloat.iter_pos f p x = Nat.iter (Pos.to_nat p) f x.
Proof.
  revert x. induction p as [p IH|p IH|]; intros x; cbn [SpecFloat.iter_pos]; [| |done].
  - rewrite !IH, Pos2Nat.inj_xI. replace (S (2 * Pos.to_nat p))%nat with (Pos.to_nat p + (Pos.to_nat p + 1))%nat by lia. by rewrite !Nat.iter_add.
  - rewrite !IH, Pos2Nat.inj_xO. replace (2 * Pos.to_nat p)%nat with (Pos.to_nat p + Pos.to_nat p)%nat by lia. by rewrite Nat.iter_add.
Qed.

Lemma digits2_spec p : 2 ^ (Zpos (digits2_pos p) - 1) <= Zpos p < 2 ^ Zpos (digits2_pos p).
Proof.
  induction p as [p IH|p IH|]; cbn [digits2_pos]; [| |done];
    (rewrite Pos2Z.inj_succ; replace (Z.succ (Zpos (digits2_pos p)) - 1) with (Z.succ (Zpos (digits2_pos p) - 1)) by lia; rewrite !Z.pow_succ_r by lia; lia).
Qed.

Lemma digits2_unique p d : 0 < d → 2 ^ (d - 1) <= Zpos p < 2 ^ d → Zpos (digits2_pos p) = d.
Proof.
  intros Hd Hp. pose proof (digits2_spec p) as Hs. destruct (Z.lt_trichotomy (Zpos (digits2_pos p)) d) as [H|[H|H]]; [|done|].
  - assert (2 ^ Zpos (digits2_pos p) <= 2 ^ (d - 1)) by (apply Z.pow_le_mono_r; lia). lia.
  - assert (2 ^ d <= 2 ^ (Zpos (digits2_pos p) - 1)) by (apply Z.pow_le_mono_r; lia). lia.
Qed.

Lemma shr_1_m mrs : 0 <= shr_m mrs → shr_m (shr_1 mrs) = shr_m mrs / 2.
Proof.
  destruct mrs as [m r s]. cbn [shr_m]. intros Hm. destruct m as [|[p|p|]|]; [done| | |done|lia]; cbn [shr_1 shr_m].
  - rewrite Pos2Z.inj_xI, Z.mul_comm, Z.div_add_l by lia. done.
  - rewrite Pos2Z.inj_xO, Z.mul_comm, Z.div_mul by lia. done.
Qed.

Lemma shr_iter_m n mrs : 0 <= shr_m mrs → shr_m (Nat.iter n shr_1 mrs) = shr_m mrs / 2 ^ Z.of_nat n.
Proof.
  intros Hm. induction n as [|n IH]; [by rewrite Z.div_1_r|]. rewrite Nat.iter_succ, shr_1_m by (rewrite IH; apply Z.div_pos; lia).
  rewrite IH, Z.div_div by lia. rewrite Nat2Z.inj_succ, Z.pow_succ_r by lia. f_equal. lia.
Qed.

(** The bits that are shifted out, as the location of the number between its neighbours. *)
Definition location_of (m : Z) (n : nat) : location :=
  if m mod 2 ^ Z.of_nat n =? 0 then loc_Exact else loc_Inexact (2 * (m mod 2 ^ Z.of_nat n) ?= 2 ^ Z.of_nat n).

Lemma mod_pow_succ m n : 0 <= m → m mod 2 ^ Z.of_nat (S n) = (m / 2 ^ Z.of_nat n mod 2) * 2 ^ Z.of_nat n + m mod 2 ^ Z.of_nat n.
Proof.
  intros Hm. rewrite Nat2Z.inj_succ, Z.pow_succ_r by lia. rewrite (Z.mul_comm 2), Z.rem_mul_r by lia. lia.
Qed.

(** After at least one shift, the round bit is the last bit that was shifted out and the sticky bit says whether any other was set. *)
Lemma shr_iter_bits m n : 0 <= m →
  Nat.iter (S n) shr_1 (Build_shr_record m false false) =
    Build_shr_record (m / 2 ^ Z.of_nat (S n)) (Z.odd (m / 2 ^ Z.of_nat n)) (negb (m mod 2 ^ Z.of_nat n =? 0)).
Proof.
  intros Hm. assert (∀ k r s, 0 <= k → shr_1 (Build_shr_record k r s) = Build_shr_record (k / 2) (Z.odd k) (r || s)) as H1.
  { intros k r s Hk. pose proof (shr_1_m (Build_shr_record k r s) Hk) as Hd. destruct k as [|[p|p|]|]; [done|..|lia]; cbn [shr_1 shr_m] in *; by rewrite <-Hd. }
  induction n as [|n IH].
  - cbn [Nat.iter]. rewrite H1 by done. by rewrite Z.mod_1_r, Z.div_1_r.
  - rewrite Nat.iter_succ, IH, H1 by (apply Z.div_pos; lia). rewrite Z.div_div by lia. f_equal.
    + f_equal. rewrite (Nat2Z.inj_succ (S n)), Z.pow_succ_r by lia. lia.
    + rewrite mod_pow_succ by done. rewrite Zmod_odd. pose proof (Z.mod_pos_bound m (2 ^ Z.of_nat n) ltac:(lia)) as Hb.
      assert (0 < 2 ^ Z.of_nat n) by lia. destruct (Z.odd (m / 2 ^ Z.of_nat n)); [|by rewrite Z.mul_0_l]. cbn [orb]. symmetry. apply negb_true_iff, Z.eqb_neq. lia.
Qed.

Lemma shr_iter_location m n : 0 <= m → loc_of_shr_record (Nat.iter n shr_1 (Build_shr_record m false false)) = location_of m n.
Proof.
  intros Hm. destruct n as [|n]; [unfold location_of; by rewrite Z.mod_1_r|]. rewrite shr_iter_bits by done. unfold location_of. rewrite mod_pow_succ by done.
  rewrite Nat2Z.inj_succ, Z.pow_succ_r by lia. rewrite Zmod_odd. pose proof (Z.mod_pos_bound m (2 ^ Z.of_nat n) ltac:(lia)) as Hb.
  assert (0 < 2 ^ Z.of_nat n) as Hp by lia. cbn [loc_of_shr_record]. destruct (Z.odd (m / 2 ^ Z.of_nat n)); destruct (Z.eqb_spec (m mod 2 ^ Z.of_nat n) 0) as [H0|H0]; cbn [negb].
  - rewrite H0, Z.mul_1_l, Z.add_0_r. rewrite (proj2 (Z.eqb_neq _ _)) by lia. by rewrite Z.compare_refl.
  - rewrite (proj2 (Z.eqb_neq _ _)) by lia. f_equal. symmetry. apply Z.compare_gt_iff. lia.
  - by rewrite H0.
  - rewrite Z.mul_0_l, Z.add_0_l. rewrite (proj2 (Z.eqb_neq _ _)) by lia. f_equal. symmetry. apply Z.compare_lt_iff. lia.
Qed.

(** * Upper bounds *)

(** A number that is not negative and at most [2 ^ K]. *)
Definition upto (K : Z) (x : f64) : Prop :=
  match x with
  | S754_zero false => True
  | S754_finite false m e => e <= K - 52 ∧ Zpos m <= 2 ^ (K - e)
  | _ => False
  end.

Lemma digits2_upto m k : 0 <= m <= 2 ^ k → 0 <= k → Zdigits2 m <= k + 1.
Proof.
  intros Hm Hk. destruct m as [|p|p]; [cbn; lia| |lia]. cbn [Zdigits2]. pose proof (digits2_spec p) as [Hs _].
  destruct (Z.le_gt_cases (Zpos (digits2_pos p)) (k + 1)) as [H|H]; [done|].
  assert (2 ^ (k + 1) <= 2 ^ (Zpos (digits2_pos p) - 1)) as Hp by (apply Z.pow_le_mono_r; lia). rewrite Z.pow_add_r in Hp by lia.
  pose proof (Z.pow_pos_nonneg 2 k). lia.
Qed.

Lemma shr_fexp_upto K m e l :
  -1021 <= K → e <= K - 52 → 0 <= m <= 2 ^ (K - e) → (m = 2 ^ (K - e) → l = loc_Exact) →
  let '(mrs, e') := shr_fexp 53 1024 m e l in
  e <= e' <= K - 52 ∧ 0 <= shr_m mrs <= 2 ^ (K - e') ∧ (shr_m mrs = 2 ^ (K - e') → loc_of_shr_record mrs = loc_Exact).
Proof.
  intros HK He Hm Hl. unfold shr_fexp, shr. set (n := fexp 53 1024 (Zdigits2 m + e) - e).
  assert (shr_m (shr_record_of_loc m l) = m) as Hr by by destruct l as [|[]].
  destruct n as [|p|p] eqn:En.
  1,3: (rewrite Hr; split; [lia|]; split; [done|]; intros Hx; rewrite (Hl Hx); done).
  pose proof (digits2_upto m (K - e) Hm ltac:(lia)) as Hd. assert (e + Zpos p <= K - 52) as Hep by (unfold n, fexp, emin in En; lia).
  rewrite iter_pos_nat, shr_iter_m, Hr by (rewrite Hr; lia). rewrite positive_nat_Z.
  replace (K - (e + Zpos p)) with (K - e - Zpos p) by lia. rewrite Z.pow_sub_r by lia. set (P := 2 ^ Zpos p) in *. assert (0 < P) by (unfold P; lia).
  assert (2 ^ (K - e) = 2 ^ (K - e) / P * P) as Hdiv.
  { assert (2 ^ (K - e) = 2 ^ (K - e - Zpos p) * P) as -> by (unfold P; rewrite <-Z.pow_add_r by lia; f_equal; lia). by rewrite Z.div_mul by lia. }
  split; [lia|]. split; [split; [apply Z.div_pos; lia|apply Z.div_le_mono; lia]|]. intros Hx.
  assert (m = 2 ^ (K - e)) as Hmax by (pose proof (Z.mul_div_le m P ltac:(lia)); nia). rewrite (Hl Hmax). cbn [shr_record_of_loc].
  rewrite shr_iter_location by lia. unfold location_of. rewrite positive_nat_Z. fold P. by rewrite Hmax, Hdiv, Z.mod_mul by lia.
Qed.

Lemma round_upto m l B : 0 <= m <= B → (m = B → l = loc_Exact) → 0 <= round_nearest_even m l <= B.
Proof.
  intros Hm Hl. destruct (decide (m = B)) as [E|E]; [rewrite (Hl E); cbn; lia|]. destruct l as [|[]]; cbn; [lia| |lia|lia]. destruct (Z.even m); lia.
Qed.

Lemma binary_round_aux_upto K m e l :
  -1021 <= K <= 1023 → e <= K - 52 → 0 <= m <= 2 ^ (K - e) → (m = 2 ^ (K - e) → l = loc_Exact) → upto K (binary_round_aux 53 1024 false m e l).
Proof.
  intros HK He Hm Hl. unfold binary_round_aux. pose proof (shr_fexp_upto K m e l ltac:(lia) He Hm Hl) as H1.
  destruct (shr_fexp 53 1024 m e l) as [mrs1 e1]. destruct H1 as (He1 & Hm1 & Hl1).
  pose proof (round_upto (shr_m mrs1) (loc_of_shr_record mrs1) _ Hm1 Hl1) as Hr.
  pose proof (shr_fexp_upto K _ e1 loc_Exact ltac:(lia) ltac:(lia) Hr ltac:(done)) as H2. destruct (shr_fexp 53 1024 _ e1 loc_Exact) as [mrs2 e2].
  destruct H2 as (He2 & Hm2 & _). destruct (shr_m mrs2) as [|p|p]; [done| |lia]. rewrite (proj2 (Z.leb_le _ _)) by lia. cbn. lia.
Qed.

(** A quotient of ordered numbers is at most one. *)
Lemma div_upto_one mx ex my ey :
  Zpos mx * 2 ^ (ex + 1074) <= Zpos my * 2 ^ (ey + 1074) → -1074 <= ex → -1074 <= ey →
  upto 0 (f64_div (S754_finite false mx ex) (S754_finite false my ey)).
Proof.
  intros Hle Hex Hey. unfold f64_div. cbn [SFdiv xorb]. unfold SFdiv_core_binary. cbn [Zdigits2].
  pose proof (digits2_spec mx) as [Hx _]. pose proof (digits2_spec my) as [_ Hy]. set (d1 := Zpos (digits2_pos mx)) in *. set (d2 := Zpos (digits2_pos my)) in *.
  assert (d1 + ex <= d2 + ey) as Hd.
  { destruct (Z.le_gt_cases (d1 + ex) (d2 + ey)) as [H|H]; [done|]. assert (2 ^ (d2 + (ey + 1074)) <= 2 ^ (d1 - 1 + (ex + 1074))) as Hp by (apply Z.pow_le_mono_r; lia).
    rewrite (Z.pow_add_r 2 d2), (Z.pow_add_r 2 (d1 - 1)) in Hp by lia. set (A := 2 ^ (ex + 1074)) in *. set (B := 2 ^ (ey + 1074)) in *.
    assert (0 < A ∧ 0 < B) as [HA HB] by (unfold A, B; lia). assert (2 ^ (d1 - 1) * A <= Zpos mx * A) by nia. assert (Zpos my * B < 2 ^ d2 * B) by nia. lia. }
  set (e' := Z.min (fexp 53 1024 (d1 + ex - (d2 + ey))) (ex - ey)). assert (e' <= -53) as He' by (unfold e', fexp, emin; lia).
  set (s := ex - ey - e'). assert (0 <= s) as Hs by (unfold s, e'; lia).
  assert (match s with Zpos _ => Z.shiftl (Zpos mx) s | Z0 => Zpos mx | Zneg _ => 0 end = Zpos mx * 2 ^ s) as ->.
  { destruct s eqn:E; [lia|by rewrite Z.shiftl_mul_pow2 by lia|lia]. }
  assert (Zpos mx * 2 ^ s <= Zpos my * 2 ^ (0 - e')) as Hq.
  { assert (2 ^ s * 2 ^ (ey + 1074) = 2 ^ (ex + 1074) * 2 ^ (0 - e')) as E by (rewrite <-!Z.pow_add_r by lia; f_equal; lia).
    set (A := 2 ^ (ex + 1074)) in *. set (B := 2 ^ (ey + 1074)) in *. set (C := 2 ^ (0 - e')) in *. set (D := 2 ^ s) in *.
    assert (0 < B ∧ 0 < C) as [HB HC] by (unfold B, C; lia). apply (Z.mul_le_mono_pos_r _ _ B HB). rewrite <-Z.mul_assoc, E. nia. }
  pose proof (Z_div_mod (Zpos mx * 2 ^ s) (Zpos my) ltac:(lia)) as Hdm. destruct (Z.div_eucl (Zpos mx * 2 ^ s) (Zpos my)) as [q r]. destruct Hdm as [Hdm Hr].
  assert (0 < 2 ^ s) by lia. apply binary_round_aux_upto; [lia|lia|nia|]. intros ->. assert (r = 0) as -> by nia. unfold new_location, new_location_even, new_location_odd.
  by destruct (Z.even (Zpos my)).
Qed.

(** * Conversion of integers *)

(** [v / 2 ^ n], rounded. *)
Definition rn (n : nat) (v : Z) : Z := round_nearest_even (v / 2 ^ Z.of_nat n) (location_of v n).

Lemma rn_bounds n v : 0 <= v → v / 2 ^ Z.of_nat n <= rn n v <= v / 2 ^ Z.of_nat n + 1.
Proof. intros Hv. unfold rn. destruct (location_of v n) as [|[]]; cbn; try lia. destruct (Z.even _); lia. Qed.

Lemma rn_mono n v w : 0 <= v <= w → rn n v <= rn n w.
Proof.
  intros Hvw. pose proof (rn_bounds n v ltac:(lia)) as Hv. pose proof (rn_bounds n w ltac:(lia)) as Hw. set (P := 2 ^ Z.of_nat n) in *. assert (0 < P) as HP by (unfold P; lia).
  pose proof (Z.div_le_mono v w P HP ltac:(lia)) as Hq. destruct (decide (v / P = w / P)) as [E|E]; [|lia].
  pose proof (Z.div_mod v P ltac:(lia)) as Ev. pose proof (Z.div_mod w P ltac:(lia)) as Ew. pose proof (Z.mod_pos_bound v P HP). pose proof (Z.mod_pos_bound w P HP).
  clear Hv Hw. unfold rn, location_of. fold P. rewrite E in *. assert (v mod P <= w mod P) as Hr by lia.
  destruct (Z.eqb_spec (v mod P) 0) as [|Hv0]; cbn [round_nearest_even].
  { destruct (w mod P =? 0); cbn; [lia|]. destruct (2 * (w mod P) ?= P); try lia. destruct (Z.even (w / P)); lia. }
  rewrite (proj2 (Z.eqb_neq (w mod P) 0)) by lia.
  destruct (Z.compare_spec (2 * (v mod P)) P), (Z.compare_spec (2 * (w mod P)) P); cbn [round_nearest_even]; try lia; destruct (Z.even (w / P)); lia.
Qed.

Lemma pow_bounds_53 q : 2 ^ 52 <= q <= 2 ^ 53 → ∃ p, q = Zpos p ∧ (Zpos (digits2_pos p) = 53 ∨ p = 9007199254740992%positive).
Proof.
  intros Hq. destruct q as [|p|p]; [lia| |lia]. exists p. split; [done|]. destruct (decide (Zpos p = 2 ^ 53)) as [E|E]; [right; by injection E|].
  left. apply digits2_unique; [lia|]. change (53 - 1) with 52. lia.
Qed.

(** A mantissa of 53 bits stays, and a carry into the next bit changes the exponent. *)
Lemma shr_fexp_53 q e :
  2 ^ 52 <= q <= 2 ^ 53 → -1074 <= e <= 969 →
  ∃ mrs e' p, shr_fexp 53 1024 q e loc_Exact = (mrs, e') ∧ shr_m mrs = Zpos p ∧ Zpos p * 2 ^ (e' + 1074) = q * 2 ^ (e + 1074) ∧ e <= e' <= e + 1 ∧
    (q < 2 ^ 53 → mrs = Build_shr_record q false false ∧ e' = e).
Proof.
  intros Hq He. destruct (pow_bounds_53 q Hq) as (p & -> & [Hd| ->]); unfold shr_fexp, fexp, emin; cbn [Zdigits2 shr_record_of_loc].
  - rewrite Hd. replace (Z.max (53 + e - 53) (3 - 1024 - 53) - e) with 0 by lia. cbn [shr]. do 3 eexists. split_and!; [done|done|done|lia|lia|done].
  - replace (Z.max _ _ - e) with 1 by (cbn; lia). cbn [shr SpecFloat.iter_pos shr_1]. do 3 eexists. split_and!; [done|done| |lia|lia|lia].
    replace (e + 1 + 1074) with (Z.succ (e + 1074)) by lia. rewrite Z.pow_succ_r by lia. lia.
Qed.

(** The value of a number that is not negative, in units of the smallest one. *)
Definition value (x : f64) : Z := match x with S754_finite false m e => Zpos m * 2 ^ (e + 1074) | _ => 0 end.

Definition finite_pos (x : f64) : Prop := match x with S754_finite false _ e => -1074 <= e | _ => False end.

Lemma iter_xO p k : Zpos (Pos.iter xO p k) = Zpos p * 2 ^ Zpos k.
Proof.
  induction k as [|k IH] using Pos.peano_ind; [cbn; lia|]. rewrite Pos.iter_succ, Pos2Z.inj_xO, IH, Pos2Z.inj_succ, Z.pow_succ_r by lia. lia.
Qed.

Lemma of_Z_value p :
  Zpos (digits2_pos p) <= 1000 →
  finite_pos (f64_of_Z (Zpos p)) ∧
  value (f64_of_Z (Zpos p)) =
    if Zpos (digits2_pos p) <? 53 then Zpos p * 2 ^ 1074 else rn (Z.to_nat (Zpos (digits2_pos p) - 53)) (Zpos p) * 2 ^ (Zpos (digits2_pos p) - 53 + 1074).
Proof.
  intros Hd. set (d := Zpos (digits2_pos p)) in *. pose proof (digits2_spec p) as Hp. fold d in Hp. assert (0 < d) as Hd0 by (unfold d; lia).
  unfold f64_of_Z. cbn [binary_normalize]. unfold binary_round. fold d. replace (fexp 53 1024 (d + 0)) with (d - 53) by (unfold fexp, emin; lia).
  unfold shl_align. rewrite Z.sub_0_r. destruct (Z.ltb_spec d 53) as [Hlt|Hge].
  - destruct (d - 53) as [|k|k] eqn:Ek; [lia|lia|]. pose proof (iter_xO p k) as Hz.
    assert (2 ^ 52 <= Zpos p * 2 ^ Zpos k < 2 ^ 53) as Hm.
    { assert (2 ^ 52 = 2 ^ (d - 1) * 2 ^ Zpos k) as -> by (rewrite <-Z.pow_add_r by lia; f_equal; lia).
      assert (2 ^ 53 = 2 ^ d * 2 ^ Zpos k) as -> by (rewrite <-Z.pow_add_r by lia; f_equal; lia). assert (0 < 2 ^ Zpos k) by lia. nia. }
    unfold binary_round_aux. rewrite Hz. destruct (shr_fexp_53 (Zpos p * 2 ^ Zpos k) (Zneg k)) as (mrs & e' & q & -> & Hq & Hv & _ & Hex); [lia|lia|].
    destruct Hex as [-> ->]; [lia|]. cbn [shr_m loc_of_shr_record round_nearest_even].
    destruct (shr_fexp_53 (Zpos p * 2 ^ Zpos k) (Zneg k)) as (mrs & e' & q' & -> & Hq' & Hv' & _ & Hex); [lia|lia|]. destruct Hex as [-> ->]; [lia|].
    cbn [shr_m] in *. rewrite Hq'. rewrite (proj2 (Z.leb_le _ _)) by lia. cbn [finite_pos value]. split; [lia|]. rewrite <-Hq', <-Z.mul_assoc, <-Z.pow_add_r by lia. f_equal. f_equal. lia.
  - assert (match d - 53 with Zneg k => (Pos.iter xO p k, d - 53) | _ => (p, 0) end = (p, 0)) as -> by (destruct (d - 53) eqn:E; [done|done|lia]).
    set (n := Z.to_nat (d - 53)). assert (d - 53 = Z.of_nat n) as En by lia. rewrite En in *.
    assert (shr_fexp 53 1024 (Zpos p) 0 loc_Exact = (Nat.iter n shr_1 (Build_shr_record (Zpos p) false false), Z.of_nat n)) as Hs.
    { unfold shr_fexp. cbn [Zdigits2 shr_record_of_loc]. fold d. replace (fexp 53 1024 (d + 0) - 0) with (Z.of_nat n) by (unfold fexp, emin; lia). unfold shr.
      destruct (Z.of_nat n) as [|k|k] eqn:E; [by replace n with 0%nat by lia| |lia]. rewrite iter_pos_nat, Z.add_0_l. do 2 f_equal. lia. }
    unfold binary_round_aux. rewrite Hs, shr_iter_m, shr_iter_location by (cbn; lia). cbn [shr_m]. fold (rn n (Zpos p)).
    assert (2 ^ 52 <= rn n (Zpos p) <= 2 ^ 53) as Hr.
    { pose proof (rn_bounds n (Zpos p) ltac:(lia)). pose proof (Z.pow_pos_nonneg 2 (Z.of_nat n)). replace d with (53 + Z.of_nat n) in Hp by lia.
      replace (53 + Z.of_nat n - 1) with (52 + Z.of_nat n) in Hp by lia. rewrite !Z.pow_add_r in Hp by lia.
      assert (2 ^ 52 <= Zpos p / 2 ^ Z.of_nat n) by (apply Z.div_le_lower_bound; lia). assert (Zpos p / 2 ^ Z.of_nat n < 2 ^ 53) by (apply Z.div_lt_upper_bound; lia). lia. }
    destruct (shr_fexp_53 (rn n (Zpos p)) (Z.of_nat n)) as (mrs & e' & q & -> & Hq & Hv & He & _); [lia|lia|]. rewrite Hq, (proj2 (Z.leb_le _ _)) by lia.
    cbn [finite_pos value]. split; [lia|done].
Qed.

Lemma digits2_le p q : Zpos p <= Zpos q → Zpos (digits2_pos p) <= Zpos (digits2_pos q).
Proof.
  intros Hpq. pose proof (digits2_spec p) as [Hp _]. pose proof (digits2_spec q) as [_ Hq].
  destruct (Z.le_gt_cases (Zpos (digits2_pos p)) (Zpos (digits2_pos q))) as [H|H]; [done|].
  assert (2 ^ Zpos (digits2_pos q) <= 2 ^ (Zpos (digits2_pos p) - 1)) by (apply Z.pow_le_mono_r; lia). lia.
Qed.

(** Conversion keeps the order. *)
Lemma of_Z_mono p q : Zpos p <= Zpos q → Zpos (digits2_pos q) <= 1000 → value (f64_of_Z (Zpos p)) <= value (f64_of_Z (Zpos q)).
Proof.
  intros Hpq Hd. pose proof (digits2_le p q Hpq) as Hle. destruct (of_Z_value p ltac:(lia)) as [_ ->], (of_Z_value q Hd) as [_ ->].
  pose proof (digits2_spec p) as Sp. pose proof (digits2_spec q) as Sq. set (d := Zpos (digits2_pos p)) in *. set (f := Zpos (digits2_pos q)) in *.
  assert (∃ U, 0 < U ∧ 2 ^ 1074 = U ∧ ∀ n, 0 <= n → 2 ^ (n + 1074) = 2 ^ n * U) as (U & Hu & -> & Hpow).
  { exists (2 ^ 1074). split_and!; [lia|done|]. intros n Hn. by rewrite Z.pow_add_r by lia. }
  assert (∀ x k, 53 <= k → 2 ^ (k - 1) <= x < 2 ^ k → 2 ^ (k - 1) <= rn (Z.to_nat (k - 53)) x * 2 ^ (k - 53) <= 2 ^ k) as Hrn.
  { intros x k Hk Hx. pose proof (rn_bounds (Z.to_nat (k - 53)) x ltac:(pose proof (Z.pow_pos_nonneg 2 (k - 1)); lia)) as Hb. rewrite Z2Nat.id in Hb by lia.
    assert (2 ^ (k - 1) = 2 ^ 52 * 2 ^ (k - 53)) as E1 by (rewrite <-Z.pow_add_r by lia; f_equal; lia).
    assert (2 ^ k = 2 ^ 53 * 2 ^ (k - 53)) as E2 by (rewrite <-Z.pow_add_r by lia; f_equal; lia). set (P := 2 ^ (k - 53)) in *. assert (0 < P) by (unfold P; lia).
    rewrite E1, E2 in *. assert (2 ^ 52 <= x / P) by (apply Z.div_le_lower_bound; lia). assert (x / P < 2 ^ 53) by (apply Z.div_lt_upper_bound; lia). nia. }
  destruct (Z.ltb_spec d 53) as [Hd53|Hd53], (Z.ltb_spec f 53) as [Hf53|Hf53]; [nia| |lia|].
  - rewrite Hpow by lia. specialize (Hrn _ _ Hf53 Sq). assert (2 ^ d <= 2 ^ (f - 1)) by (apply Z.pow_le_mono_r; lia). nia.
  - rewrite !Hpow by lia. rewrite !Z.mul_assoc. apply Z.mul_le_mono_nonneg_r; [lia|]. destruct (decide (d = f)) as [E|E].
    + rewrite E. apply Z.mul_le_mono_nonneg_r; [lia|]. by apply rn_mono.
    + pose proof (Hrn _ _ Hd53 Sp). pose proof (Hrn _ _ Hf53 Sq). assert (2 ^ d <= 2 ^ (f - 1)) by (apply Z.pow_le_mono_r; lia). lia.
Qed.

Lemma digits2_bound p k : 0 <= k → Zpos p < 2 ^ k → Zpos (digits2_pos p) <= k.
Proof.
  intros Hk Hp. pose proof (digits2_spec p) as [Hs _]. destruct (Z.le_gt_cases (Zpos (digits2_pos p)) k) as [H|H]; [done|].
  assert (2 ^ k <= 2 ^ (Zpos (digits2_pos p) - 1)) by (apply Z.pow_le_mono_r; lia). lia.
Qed.

(** The quotient of two converted integers is between zero and one. *)
Lemma fraction_upto v m : 0 <= v <= m → 0 < m < 2 ^ 128 → upto 0 (f64_div (f64_of_Z v) (f64_of_Z m)).
Proof.
  intros Hv Hm. destruct m as [|q|q]; [lia| |lia]. assert (Zpos (digits2_pos q) <= 1000) as Hd by (pose proof (digits2_bound q 128); lia).
  destruct (of_Z_value q Hd) as [Hq _]. destruct v as [|p|p]; [|clear Hq|lia].
  - cbn [f64_of_Z]. destruct (f64_of_Z (Zpos q)) as [| | |[] m e]; try done.
  - pose proof (of_Z_mono p q ltac:(lia) Hd) as Hmono. pose proof (digits2_le p q ltac:(lia)). destruct (of_Z_value p ltac:(lia)) as [Hp _], (of_Z_value q Hd) as [Hq _].
    destruct (f64_of_Z (Zpos p)) as [| | |[] mp ep]; try done. destruct (f64_of_Z (Zpos q)) as [| | |[] mq eq]; try done. by apply div_upto_one.
Qed.

(** * Small integers are exact *)

(** A mantissa of 53 bits is rounded to itself. *)
Lemma round_aux_53 m e : 2 ^ 52 <= Zpos m < 2 ^ 53 → -1074 <= e <= 969 → binary_round_aux 53 1024 false (Zpos m) e loc_Exact = S754_finite false m e.
Proof.
  intros Hm He. unfold binary_round_aux. destruct (shr_fexp_53 (Zpos m) e) as (mrs & e' & q & Hs & _ & _ & _ & Hex); [lia|lia|]. destruct Hex as [-> ->]; [lia|].
  rewrite Hs. cbn [shr_m loc_of_shr_record round_nearest_even]. rewrite Hs. cbn [shr_m]. by rewrite (proj2 (Z.leb_le _ _)) by lia.
Qed.

Lemma of_Z_exact p : Zpos (digits2_pos p) <= 53 →
  ∃ m k, f64_of_Z (Zpos p) = S754_finite false m (- k) ∧ 0 <= k <= 52 ∧ Zpos m = Zpos p * 2 ^ k ∧ 2 ^ 52 <= Zpos m < 2 ^ 53.
Proof.
  intros Hd. set (d := Zpos (digits2_pos p)) in *. pose proof (digits2_spec p) as Hp. fold d in Hp. assert (0 < d) as Hd0 by (unfold d; lia).
  unfold f64_of_Z. cbn [binary_normalize]. unfold binary_round. fold d. replace (fexp 53 1024 (d + 0)) with (d - 53) by (unfold fexp, emin; lia).
  unfold shl_align. rewrite Z.sub_0_r. destruct (d - 53) as [|k|k] eqn:Ek; [|lia|].
  - exists p, 0. rewrite Z.mul_1_r. assert (d = 53) as E53 by lia. rewrite E53 in Hp. change (53 - 1) with 52 in Hp. split_and!; [by apply round_aux_53; lia|lia..].
  - pose proof (iter_xO p k) as Hz.
    assert (2 ^ 52 <= Zpos p * 2 ^ Zpos k < 2 ^ 53) as Hm.
    { assert (2 ^ 52 = 2 ^ (d - 1) * 2 ^ Zpos k) as -> by (rewrite <-Z.pow_add_r by lia; f_equal; lia).
      assert (2 ^ 53 = 2 ^ d * 2 ^ Zpos k) as -> by (rewrite <-Z.pow_add_r by lia; f_equal; lia). assert (0 < 2 ^ Zpos k) by lia. nia. }
    exists (Pos.iter xO p k), (Zpos k). split_and!; [apply round_aux_53; lia|lia..].
Qed.

Lemma mul_one m e : 2 ^ 52 <= Zpos m < 2 ^ 53 → -1022 <= e <= 969 → f64_mul (S754_finite false m e) one = S754_finite false m e.
Proof.
  intros Hm He. unfold f64_mul, one. cbn [SFmul xorb]. rewrite Pos2Z.inj_mul. change 4503599627370496%positive with (2 ^ 52)%positive.
  assert (Hs : shr_fexp 53 1024 (Zpos m * 2 ^ 52) (e + -52) loc_Exact = (Build_shr_record (Zpos m) false false, e)).
  { unfold shr_fexp. change (shr_record_of_loc (Zpos m * 2 ^ 52) loc_Exact) with (Build_shr_record (Zpos m * 2 ^ 52) false false).
    assert (Zdigits2 (Zpos m * 2 ^ 52) = 105) as ->.
    { change (Zpos m * 2 ^ 52) with (Zpos (m * 2 ^ 52)). cbn [Zdigits2]. apply digits2_unique; [lia|]. rewrite Pos2Z.inj_mul. change (Zpos (2 ^ 52)) with (2 ^ 52).
      change (2 ^ (105 - 1)) with (2 ^ 52 * 2 ^ 52). change (2 ^ 105) with (2 ^ 53 * 2 ^ 52). nia. }
    replace (fexp 53 1024 (105 + (e + -52)) - (e + -52)) with 52 by (unfold fexp, emin; lia). unfold shr. rewrite iter_pos_nat. change (Pos.to_nat 52) with (S 51).
    rewrite shr_iter_bits by lia. change (Z.of_nat (S 51)) with 52. change (Z.of_nat 51) with 51. f_equal; [|lia].
    replace (Zpos m * 2 ^ 52) with (Zpos m * 2 * 2 ^ 51) by lia. rewrite Z.div_mul, Z.mod_mul by lia. rewrite Z.odd_mul, andb_false_r. change (2 ^ 52) with (2 * 2 ^ 51).
    rewrite <-Z.mul_assoc, Z.div_mul by lia. done. }
  pose proof (round_aux_53 m e Hm ltac:(lia)) as Hr. unfold binary_round_aux in *. change (Zpos (2 ^ 52)) with (2 ^ 52). rewrite Hs. cbn [shr_m loc_of_shr_record round_nearest_even].
  destruct (shr_fexp_53 (Zpos m) e) as (mrs & e' & q & Hs' & _ & _ & _ & Hex); [lia|lia|]. destruct Hex as [-> ->]; [lia|]. rewrite Hs' in *. cbn [shr_m loc_of_shr_record round_nearest_even] in *. by rewrite Hs' in Hr.
Qed.

Lemma round_exact p m k : 0 <= k <= 52 → Zpos m = Zpos p * 2 ^ k → Zpos m < 2 ^ 53 → f64_round_to_u64 (S754_finite false m (- k)) = Zpos p.
Proof.
  intros Hk Hm Hb. cbn [f64_round_to_u64]. assert (Zpos p <= Zpos m) as Hle by (rewrite Hm; pose proof (Z.pow_pos_nonneg 2 k); nia).
  change (umax 64) with 18446744073709551615. change (2 ^ 53) with 9007199254740992 in Hb. rewrite Z.opp_involutive.
  destruct (Z.leb_spec 0 (- k)) as [H|H]; [assert (k = 0) as -> by lia; rewrite Z.pow_0_r in Hm; rewrite Z.shiftl_0_r; lia|].
  rewrite !Z.shiftl_mul_pow2, !Z.mul_1_l by lia. rewrite Hm, Z.pow_add_r by lia. replace (Zpos p * 2 ^ k * 2 ^ 1 + 2 ^ k) with (2 ^ k + Zpos p * (2 ^ k * 2 ^ 1)) by lia.
  rewrite Z.div_add by lia. rewrite Z.div_small; lia.
Qed.

(** * Comparison with one *)

Lemma compare_cont_eq p q : PosDef.Pos.compare_cont Eq p q = (p ?= q)%positive.
Proof. done. Qed.

Lemma upto_one_compare x : upto 0 x → SFcompare x one = Some Lt ∨ x = one.
Proof.
  destruct x as [[]| | |[] m e]; try done; [by left|]. intros [He Hm]. unfold one. cbn [SFcompare].
  destruct (Z.compare_spec e (-52)) as [->|H|H]; [|by left|lia]. change (2 ^ (0 - -52)) with 4503599627370496 in Hm. rewrite compare_cont_eq.
  destruct (Pos.compare_spec m 4503599627370496) as [->|H|H]; [by right|by left|lia].
Qed.

Lemma max_one_l x : upto 0 x → f64_max one x = one.
Proof.
  destruct x as [[]| | |[] m e]; try done. intros [He Hm]. unfold f64_max, one. cbn [SFcompare]. destruct (Z.compare_spec (-52) e) as [<-|H|H]; [|lia|done].
  rewrite compare_cont_eq. change (2 ^ (0 - -52)) with 4503599627370496 in Hm. destruct (Pos.compare_spec 4503599627370496 m) as [E|H|H]; [done|lia|done].
Qed.

Lemma max_one_r x : upto 0 x → f64_max x one = one.
Proof. intros Hx. unfold f64_max. by destruct (upto_one_compare x Hx) as [->| ->]. Qed.

Lemma max_upto x y : upto 0 x → upto 0 y → upto 0 (f64_max x y).
Proof. intros Hx Hy. unfold f64_max. destruct (SFcompare x y) as [[]|]; try done. by destruct x. Qed.

Lemma upto_not_nan x : upto 0 x → x ≠ S754_nan.
Proof. by intros Hx ->. Qed.

Lemma upto_one_one : upto 0 one.
Proof. by split. Qed.

Lemma upto_zero : upto 0 zero.
Proof. done. Qed.

Lemma eqb_one : f64_eqb one one = true.
Proof. done. Qed.

Create HintDb f64.
#[export] Hint Resolve fraction_upto max_upto upto_one_one upto_zero : f64.
