(* ===== verification/CongestionInfo.v ===== *)
(** Congestion control (core/primitives/src/congestion_info.rs): how congested a shard is, how much other
    shards may send to it, and whether it accepts transactions.

    Levels are 64-bit floating-point numbers ([F64]).  [None] is a panic: the maxima of the
    configuration must not be zero. *)

From S2P Require Import Prelude Errors F64 SortedMap ShardLayout.
Local Open Scope Z_scope.

(** * Data *)

Record CongestionControlConfig : Type := mkCongestionControlConfig {
  max_congestion_incoming_gas : Z;
  max_congestion_outgoing_gas : Z;
  max_congestion_memory_consumption : Z;
  max_congestion_missed_chunks : Z;
  max_outgoing_gas : Z;
  min_outgoing_gas : Z;
  allowed_shard_outgoing_gas : Z;
  max_tx_gas : Z;
  min_tx_gas : Z;
  reject_tx_congestion_threshold : f64;
  outgoing_receipts_usual_size_limit : Z;
  outgoing_receipts_big_size_limit : Z
}.

(** [CongestionControlConfig::test_disabled] *)
Definition test_disabled : CongestionControlConfig :=
  let max_value := umax 64 in
  mkCongestionControlConfig max_value max_value max_value max_value max_value max_value max_value max_value max_value
    (f64_of_Z 2) max_value max_value.

(** [CongestionInfo] has the only version [V1]. *)
Record CongestionInfo : Type := mkCongestionInfo {
  delayed_receipts_gas : Z;
  buffered_receipts_gas : Z;
  receipt_bytes : Z;
  allowed_shard : Z
}.

#[export] Instance CongestionInfo_eq : EqDecision CongestionInfo.
Proof. solve_decision. Defined.

Definition default_congestion_info : CongestionInfo := mkCongestionInfo 0 0 0 0.

Record ExtendedCongestionInfo : Type := mkExtendedCongestionInfo { congestion_info : CongestionInfo; missed_chunks_count : Z }.

Record CongestionControl : Type := mkCongestionControl { config : CongestionControlConfig; info : CongestionInfo; missed_chunks : Z }.

Definition new_congestion_control (c : CongestionControlConfig) (i : CongestionInfo) (missed : Z) : CongestionControl :=
  mkCongestionControl c i missed.

Inductive RejectTransactionReason : Type :=
| IncomingCongestion (congestion_level : f64)
| OutgoingCongestion (congestion_level : f64)
| MemoryCongestion (congestion_level : f64)
| MissedChunks (missed_chunks : Z).

Inductive ShardAcceptsTransactions : Type := Yes | No (reason : RejectTransactionReason).

Definition is_yes (a : ShardAcceptsTransactions) : bool := match a with Yes => true | No _ => false end.
Definition is_no (a : ShardAcceptsTransactions) : bool := negb (is_yes a).

(** The ids of shards as [u16] and back. *)
Definition shard_id_to_u16 (shard : Z) : Z := shard mod 2 ^ 16.

(** * Levels *)

Definition clamped_f64_fraction (value max : Z) : option f64 :=
  if 0 <? max then Some (if max <=? value then one else f64_div (f64_of_Z value) (f64_of_Z max)) else None.

(** Linear interpolation. *)
Definition mix (left right : Z) (ratio : f64) : Z :=
  let left_part := f64_mul (f64_of_Z left) (f64_sub one ratio) in
  let right_part := f64_mul (f64_of_Z right) ratio in
  let total := f64_add left_part right_part in
  f64_round_to_u64 total.

Definition info_incoming_congestion (i : CongestionInfo) (c : CongestionControlConfig) : option f64 :=
  clamped_f64_fraction (delayed_receipts_gas i) (max_congestion_incoming_gas c).
Definition info_outgoing_congestion (i : CongestionInfo) (c : CongestionControlConfig) : option f64 :=
  clamped_f64_fraction (buffered_receipts_gas i) (max_congestion_outgoing_gas c).
Definition info_memory_congestion (i : CongestionInfo) (c : CongestionControlConfig) : option f64 :=
  clamped_f64_fraction (receipt_bytes i) (max_congestion_memory_consumption c).

Definition localized_congestion_level (i : CongestionInfo) (c : CongestionControlConfig) : option f64 :=
  incoming ← info_incoming_congestion i c;
  outgoing ← info_outgoing_congestion i c;
  memory ← info_memory_congestion i c;
  Some (f64_max (f64_max incoming outgoing) memory).

Definition incoming_congestion (cc : CongestionControl) : option f64 := info_incoming_congestion (info cc) (config cc).
Definition outgoing_congestion (cc : CongestionControl) : option f64 := info_outgoing_congestion (info cc) (config cc).
Definition memory_congestion (cc : CongestionControl) : option f64 := info_memory_congestion (info cc) (config cc).

Definition missed_chunks_congestion (cc : CongestionControl) : option f64 :=
  if missed_chunks cc <=? 1 then Some zero
  else clamped_f64_fraction (missed_chunks cc) (max_congestion_missed_chunks (config cc)).

Definition congestion_level (cc : CongestionControl) : option f64 :=
  incoming ← incoming_congestion cc;
  outgoing ← outgoing_congestion cc;
  memory ← memory_congestion cc;
  missed ← missed_chunks_congestion cc;
  Some (f64_max (f64_max (f64_max incoming outgoing) memory) missed).

Definition is_fully_congested (level : f64) : bool := f64_eqb level one.

(** * Limits *)

(** How much gas another shard can send to us in the next block. *)
Definition outgoing_gas_limit (cc : CongestionControl) (sender_shard : Z) : option Z :=
  congestion ← congestion_level cc;
  Some (if is_fully_congested congestion then
          if sender_shard =? allowed_shard (info cc) then allowed_shard_outgoing_gas (config cc) else 0
        else mix (max_outgoing_gas (config cc)) (min_outgoing_gas (config cc)) congestion).

Definition outgoing_size_limit (cc : CongestionControl) (sender_shard : Z) : Z :=
  if sender_shard =? allowed_shard (info cc) then outgoing_receipts_big_size_limit (config cc)
  else outgoing_receipts_usual_size_limit (config cc).

Definition process_tx_limit (cc : CongestionControl) : option Z :=
  incoming ← incoming_congestion cc;
  Some (mix (max_tx_gas (config cc)) (min_tx_gas (config cc)) incoming).

(** [NotNan::new(..).unwrap_or_else(..)] *)
Definition not_nan (x : f64) : f64 := match x with SpecFloat.S754_nan => one | _ => x end.

Definition shard_accepts_transactions (cc : CongestionControl) : option ShardAcceptsTransactions :=
  incoming ← incoming_congestion cc;
  outgoing ← outgoing_congestion cc;
  memory ← memory_congestion cc;
  missed ← missed_chunks_congestion cc;
  let level := not_nan (f64_max (f64_max (f64_max incoming outgoing) memory) missed) in
  Some (if f64_ltb level (reject_tx_congestion_threshold (config cc)) then Yes
        else No (if f64_leb level missed then MissedChunks (missed_chunks cc)
                 else if f64_leb level incoming then IncomingCongestion level
                 else if f64_leb level outgoing then OutgoingCongestion level
                 else MemoryCongestion level)).

(** * Accounting *)

Section accounting.
Context {StorageError : Type}.

(** A method on [&mut CongestionInfo]. *)
Abbreviation CM := (M CongestionInfo (RuntimeError StorageError)).

(** Replace a field by the result of a checked operation. *)
Definition update_field (put : Z → CongestionInfo → CongestionInfo) (op : CongestionInfo → option Z) : CM () := λ i,
  match op i with
  | Some x => Ok () (put x i)
  | None => Err UnexpectedIntegerOverflow i
  end.

Definition put_delayed_gas (x : Z) (i : CongestionInfo) : CongestionInfo :=
  mkCongestionInfo x (buffered_receipts_gas i) (receipt_bytes i) (allowed_shard i).
Definition put_buffered_gas (x : Z) (i : CongestionInfo) : CongestionInfo :=
  mkCongestionInfo (delayed_receipts_gas i) x (receipt_bytes i) (allowed_shard i).
Definition put_receipt_bytes (x : Z) (i : CongestionInfo) : CongestionInfo :=
  mkCongestionInfo (delayed_receipts_gas i) (buffered_receipts_gas i) x (allowed_shard i).

Definition add_receipt_bytes (bytes : Z) : CM () := update_field put_receipt_bytes (λ i, checked_add 64 (receipt_bytes i) bytes).
Definition remove_receipt_bytes (bytes : Z) : CM () := update_field put_receipt_bytes (λ i, checked_sub (receipt_bytes i) bytes).
Definition add_delayed_receipt_gas (gas : Z) : CM () := update_field put_delayed_gas (λ i, checked_add 128 (delayed_receipts_gas i) gas).
Definition remove_delayed_receipt_gas (gas : Z) : CM () := update_field put_delayed_gas (λ i, checked_sub (delayed_receipts_gas i) gas).
Definition add_buffered_receipt_gas (gas : Z) : CM () := update_field put_buffered_gas (λ i, checked_add 128 (buffered_receipts_gas i) gas).
Definition remove_buffered_receipt_gas (gas : Z) : CM () := update_field put_buffered_gas (λ i, checked_sub (buffered_receipts_gas i) gas).
End accounting.

Definition set_allowed_shard (shard : Z) (i : CongestionInfo) : CongestionInfo :=
  mkCongestionInfo (delayed_receipts_gas i) (buffered_receipts_gas i) (receipt_bytes i) shard.

Definition validate_extra_and_header (extra header : CongestionInfo) : bool :=
  (delayed_receipts_gas extra =? delayed_receipts_gas header) && (buffered_receipts_gas extra =? buffered_receipts_gas header) &&
  (receipt_bytes extra =? receipt_bytes header) && (allowed_shard extra =? allowed_shard header).

(** * The allowed shard *)

Definition get_new_allowed_shard (own_shard : Z) (all_shards : list Z) (congestion_seed : Z) : option Z :=
  let len := Z.of_nat (length all_shards) in
  if len =? 0 then Some own_shard else all_shards !! Z.to_nat (congestion_seed mod len).

Definition finalize_allowed_shard (own_shard : Z) (all_shards : list Z) (congestion_seed : Z) (i : CongestionInfo) : option CongestionInfo :=
  allowed ← get_new_allowed_shard own_shard all_shards congestion_seed;
  Some (set_allowed_shard (shard_id_to_u16 allowed) i).

(** The end of [Runtime::apply]: the seed is the height of the block and the index of the shard. *)
Definition finalize_own_info {AccountId : Type} (layout : ShardLayout (AccountId := AccountId)) (shard_id block_height : Z) (i : CongestionInfo) : Res EpochError CongestionInfo :=
  match get_shard_index layout shard_id with
  | inl _ => RErr (ShardingError shard_id)
  | inr shard_seed =>
      let congestion_seed := wrapping_add 64 block_height (Z.of_nat shard_seed) in
      res_expect (finalize_allowed_shard shard_id (shard_ids layout) congestion_seed i)
  end.

(** * The info of a block *)

Definition BlockCongestionInfo : Type := gmap Z ExtendedCongestionInfo.

Definition all_shards (b : BlockCongestionInfo) : list Z := (entries b).*1.
Definition block_info_get (shard_id : Z) (b : BlockCongestionInfo) : option ExtendedCongestionInfo := b !! shard_id.
Definition block_info_insert (shard_id : Z) (value : ExtendedCongestionInfo) (b : BlockCongestionInfo) : BlockCongestionInfo := <[shard_id := value]> b.

(** * Levels are fractions *)

(** The maxima are not zero. *)
Record config_ok (c : CongestionControlConfig) : Prop := {
  ok_incoming : 0 < max_congestion_incoming_gas c <= umax 64;
  ok_outgoing : 0 < max_congestion_outgoing_gas c <= umax 64;
  ok_memory : 0 < max_congestion_memory_consumption c <= umax 64;
  ok_missed : 0 < max_congestion_missed_chunks c <= umax 64
}.

Record info_ok (i : CongestionInfo) : Prop := {
  ok_delayed_gas : in_u 128 (delayed_receipts_gas i);
  ok_buffered_gas : in_u 128 (buffered_receipts_gas i);
  ok_bytes : in_u 64 (receipt_bytes i);
  ok_allowed : in_u 16 (allowed_shard i)
}.

(** The values at which a shard counts as fully congested.  One missed chunk never counts. *)
Definition at_capacity (cc : CongestionControl) : Prop :=
  max_congestion_incoming_gas (config cc) <= delayed_receipts_gas (info cc) ∨
  max_congestion_outgoing_gas (config cc) <= buffered_receipts_gas (info cc) ∨
  max_congestion_memory_consumption (config cc) <= receipt_bytes (info cc) ∨
  1 < missed_chunks cc ∧ max_congestion_missed_chunks (config cc) <= missed_chunks cc.

Lemma clamped_ok value max : 0 <= value → 0 < max <= umax 64 →
  ∃ x, clamped_f64_fraction value max = Some x ∧ upto 0 x ∧ (max <= value → x = one).
Proof.
  intros Hv Hm. unfold clamped_f64_fraction. rewrite (proj2 (Z.ltb_lt 0 max)) by lia. destruct (Z.leb_spec max value) as [H|H].
  - exists one. auto with f64.
  - eexists. split_and!; [done| |lia]. apply fraction_upto; [lia|]. change (umax 64) with 18446744073709551615 in Hm. lia.
Qed.

(** The four measures, each at most one, and one when it is at its maximum. *)
Lemma measures_ok cc : config_ok (config cc) → info_ok (info cc) → 0 <= missed_chunks cc →
  ∃ a b c d, incoming_congestion cc = Some a ∧ outgoing_congestion cc = Some b ∧ memory_congestion cc = Some c ∧ missed_chunks_congestion cc = Some d ∧
    upto 0 a ∧ upto 0 b ∧ upto 0 c ∧ upto 0 d ∧ (at_capacity cc → a = one ∨ b = one ∨ c = one ∨ d = one).
Proof.
  intros [C1 C2 C3 C4] [I1 I2 I3 _] Hm. unfold in_u in *.
  destruct (clamped_ok (delayed_receipts_gas (info cc)) _ ltac:(lia) C1) as (a & Ha & Ua & Fa).
  destruct (clamped_ok (buffered_receipts_gas (info cc)) _ ltac:(lia) C2) as (b & Hb & Ub & Fb).
  destruct (clamped_ok (receipt_bytes (info cc)) _ ltac:(lia) C3) as (c & Hc & Uc & Fc).
  destruct (clamped_ok (missed_chunks cc) _ Hm C4) as (d & Hd & Ud & Fd).
  unfold missed_chunks_congestion, at_capacity. destruct (Z.leb_spec (missed_chunks cc) 1) as [H1|H1].
  - exists a, b, c, zero. split_and!; auto with f64. intros [H|[H|[H|[H _]]]]; [auto..|lia].
  - exists a, b, c, d. split_and!; auto. intros [H|[H|[H|[_ H]]]]; auto 6.
Qed.

Lemma level_one a b c d : upto 0 a → upto 0 b → upto 0 c → upto 0 d → a = one ∨ b = one ∨ c = one ∨ d = one →
  f64_max (f64_max (f64_max a b) c) d = one.
Proof.
  intros Ha Hb Hc Hd [->|[->|[->| ->]]].
  - by rewrite !max_one_l.
  - by rewrite max_one_r, !max_one_l.
  - rewrite max_one_r, max_one_l; auto with f64.
  - apply max_one_r. auto with f64.
Qed.

Lemma congested_level cc : config_ok (config cc) → info_ok (info cc) → 0 <= missed_chunks cc →
  ∃ level, congestion_level cc = Some level ∧ (at_capacity cc → level = one).
Proof.
  intros Hc Hi Hm. destruct (measures_ok cc Hc Hi Hm) as (a & b & c & d & Ea & Eb & Ec & Ed & Ua & Ub & Uc & Ud & Hone).
  eexists. split; [unfold congestion_level; rewrite Ea, Eb, Ec, Ed; done|]. intros Hfull. by apply level_one; auto.
Qed.

(** ** Interpolation at its ends *)

Lemma of_Z_cases x : 0 <= x < 2 ^ 53 →
  x = 0 ∧ f64_of_Z x = zero ∨
  ∃ m k, f64_of_Z x = SpecFloat.S754_finite false m (- k) ∧ f64_mul (f64_of_Z x) one = f64_of_Z x ∧ f64_round_to_u64 (f64_of_Z x) = x.
Proof.
  intros Hx. destruct x as [|p|p]; [by left| |lia]. right. destruct (of_Z_exact p) as (m & k & E & Hk & Hm & Hb); [by apply digits2_bound; lia|].
  exists m, k. rewrite E. split_and!; [done|apply mul_one; lia|by apply round_exact; lia].
Qed.

(** Without congestion it is the left value, at full congestion the right one, for values that a number holds exactly. *)
Lemma mix_zero left right : 0 <= left < 2 ^ 53 → 0 <= right < 2 ^ 53 → mix left right zero = left.
Proof.
  intros Hl Hr. unfold mix. change (f64_sub one zero) with one.
  destruct (of_Z_cases left Hl) as [[-> ->]|(m & k & E & Em & Er)], (of_Z_cases right Hr) as [[-> ->]|(m' & k' & E' & _ & _)]; rewrite ?Em, ?E' in *; try done; by rewrite E in *.
Qed.

Lemma mix_one left right : 0 <= left < 2 ^ 53 → 0 <= right < 2 ^ 53 → mix left right one = right.
Proof.
  intros Hl Hr. unfold mix. change (f64_sub one one) with zero.
  destruct (of_Z_cases left Hl) as [[-> ->]|(m & k & E & _ & _)], (of_Z_cases right Hr) as [[-> ->]|(m' & k' & E' & Em & Er)]; rewrite ?Em, ?E in *; try done; by rewrite E' in *.
Qed.

Lemma level_not_nan a : upto 0 a → not_nan a = a.
Proof. intros Ha%upto_not_nan. by destruct a. Qed.

Lemma ltb_one_false t : f64_leb t one = true → f64_ltb one t = false.
Proof.
  unfold f64_leb, f64_ltb, SpecFloat.SFleb, SpecFloat.SFltb, one. destruct t as [[]|[]| |[] m e]; try done. cbn [SpecFloat.SFcompare].
  rewrite (Z.compare_antisym e (-52)). destruct (e ?= -52); cbn [CompOpp]; try done. rewrite (compare_cont_eq m), (compare_cont_eq 4503599627370496), (Pos.compare_antisym m 4503599627370496).
  by destruct (m ?= 4503599627370496)%positive.
Qed.

Lemma leb_one_one : f64_leb one one = true.
Proof. done. Qed.

(** A shard that has reached the maximum of delayed gas, buffered gas, memory or missed chunks is fully congested: its level
    is exactly one in spite of the rounding, no shard may send gas to it except the allowed shard, which may send exactly
    [allowed_shard_outgoing_gas], the gas for new transactions is its minimum when the delayed gas is at its maximum, and, unless the
    threshold is above one, transactions to it are rejected, for missed chunks only if these are at their maximum. *)
Theorem fully_congested_limits (cc : CongestionControl) :
  config_ok (config cc) → info_ok (info cc) → 0 <= missed_chunks cc → at_capacity cc →
  congestion_level cc = Some one ∧
  (∀ sender, outgoing_gas_limit cc sender =
     Some (if sender =? allowed_shard (info cc) then allowed_shard_outgoing_gas (config cc) else 0)) ∧
  (max_congestion_incoming_gas (config cc) <= delayed_receipts_gas (info cc) →
     0 <= max_tx_gas (config cc) < 2 ^ 53 → 0 <= min_tx_gas (config cc) < 2 ^ 53 → process_tx_limit cc = Some (min_tx_gas (config cc))) ∧
  (f64_leb (reject_tx_congestion_threshold (config cc)) one = true →
     ∃ reason, shard_accepts_transactions cc = Some (No reason) ∧
       (1 < missed_chunks cc → max_congestion_missed_chunks (config cc) <= missed_chunks cc → reason = MissedChunks (missed_chunks cc))).
Proof.
  intros Hc Hi Hm Hfull. destruct (measures_ok cc Hc Hi Hm) as (a & b & c & d & Ea & Eb & Ec & Ed & Ua & Ub & Uc & Ud & Hone).
  pose proof (level_one a b c d Ua Ub Uc Ud (Hone Hfull)) as Hl.
  assert (congestion_level cc = Some one) as Hlevel by (unfold congestion_level; rewrite Ea, Eb, Ec, Ed; cbn [mbind option_bind]; by rewrite Hl).
  split_and!; [done| | |].
  - intros sender. unfold outgoing_gas_limit. rewrite Hlevel. cbn [mbind option_bind]. unfold is_fully_congested. by rewrite eqb_one.
  - intros Hg Hmax Hmin. unfold process_tx_limit. unfold incoming_congestion, info_incoming_congestion, clamped_f64_fraction.
    rewrite (proj2 (Z.ltb_lt _ _)) by apply Hc. rewrite (proj2 (Z.leb_le _ _) Hg).
    cbn [mbind option_bind]. by rewrite mix_one.
  - intros Ht. unfold shard_accepts_transactions. rewrite Ea, Eb, Ec, Ed. cbn [mbind option_bind]. rewrite Hl, level_not_nan by auto with f64.
    rewrite ltb_one_false by done. eexists. split; [done|]. intros H1 H2. assert (d = one) as ->; [|by rewrite leb_one_one].
    unfold missed_chunks_congestion in Ed. rewrite (proj2 (Z.leb_gt _ _) H1) in Ed. unfold clamped_f64_fraction in Ed.
    rewrite (proj2 (Z.ltb_lt _ _)) in Ed by apply Hc. rewrite (proj2 (Z.leb_le _ _) H2) in Ed. by injection Ed.
Qed.

(** * Every shard is allowed in turn *)

Section turns.
Context {AccountId : Type}.
Implicit Types layout : ShardLayout (AccountId := AccountId).

(** The seed selects the shards one after the other. *)
Lemma new_allowed_shard_ok own shards seed j s :
  shards !! j = Some s → seed mod Z.of_nat (length shards) = Z.of_nat j → get_new_allowed_shard own shards seed = Some s.
Proof.
  intros Hj Hs. assert (j < length shards)%nat by by eapply lookup_lt_Some. unfold get_new_allowed_shard. rewrite (proj2 (Z.eqb_neq _ _)) by lia.
  by rewrite Hs, Nat2Z.id.
Qed.

(** One of [n] consecutive seeds has any given residue. *)
Lemma residue_turn seed n j : 0 <= j < n → ∃ k, 0 <= k < n ∧ (seed + k) mod n = j.
Proof.
  intros Hj. exists ((j - seed) mod n). split; [apply Z.mod_pos_bound; lia|]. rewrite Z.add_mod_idemp_r by lia. replace (seed + (j - seed)) with j by lia. by apply Z.mod_small.
Qed.

(** The sums do not wrap around before the turn comes. *)
Definition heights_fit layout (block_height : Z) (index : nat) : Prop :=
  0 <= block_height ∧ block_height + Z.of_nat index + Z.of_nat (length (shard_ids layout)) <= umax 64.

Lemma finalize_turn layout own index height sender :
  get_shard_index layout own = inr index → sender ∈ shard_ids layout → in_u 16 sender → heights_fit layout height index →
  ∃ k, 0 <= k < Z.of_nat (length (shard_ids layout)) ∧ ∀ i, finalize_own_info layout own (height + k) i = ROk (set_allowed_shard sender i).
Proof.
  intros Hi [j Hj]%list_elem_of_lookup Hs [Hh Hfit]. assert (j < length (shard_ids layout))%nat by by eapply lookup_lt_Some.
  destruct (residue_turn (height + Z.of_nat index) (Z.of_nat (length (shard_ids layout))) (Z.of_nat j)) as (k & Hk & Hm); [lia|].
  exists k. split; [done|]. intros i. unfold finalize_own_info. rewrite Hi. unfold finalize_allowed_shard, wrapping_add, umax in *.
  rewrite (new_allowed_shard_ok _ _ _ j sender Hj).
  - cbn [mbind option_bind res_expect]. do 2 f_equal. unfold shard_id_to_u16. apply Z.mod_small. unfold in_u, umax in Hs. lia.
  - rewrite (Z.mod_small _ (2 ^ 64)) by lia. rewrite <-Hm. f_equal. lia.
Qed.

(** C38: A fully congested shard cannot lock out a shard for ever.  Within as many consecutive heights as there are shards, every
    shard of the layout comes to its turn as the allowed shard, whatever the congestion is: at that height it may send
    [allowed_shard_outgoing_gas] and receipts up to the big size limit. *)
Theorem congested_shard_progress layout (own : Z) (index : nat) (height sender : Z) :
  get_shard_index layout own = inr index → sender ∈ shard_ids layout → in_u 16 sender → heights_fit layout height index →
  ∃ k, 0 <= k < Z.of_nat (length (shard_ids layout)) ∧
    ∀ c i missed, config_ok c → info_ok i → 0 <= missed → at_capacity (new_congestion_control c i missed) →
      ∃ i', finalize_own_info layout own (height + k) i = ROk i' ∧ info_ok i' ∧
        outgoing_gas_limit (new_congestion_control c i' missed) sender = Some (allowed_shard_outgoing_gas c) ∧
        outgoing_size_limit (new_congestion_control c i' missed) sender = outgoing_receipts_big_size_limit c.
Proof.
  intros Hi Hs H16 Hfit. destruct (finalize_turn layout own index height sender) as (k & Hk & Hf); [done..|]. exists k. split; [done|].
  intros c i missed Hc Hok Hm Hfull. exists (set_allowed_shard sender i). split; [done|].
  assert (info_ok (set_allowed_shard sender i)) as Hok' by (destruct Hok; by split). split; [done|]. split.
  - set (cc := new_congestion_control c (set_allowed_shard sender i) missed).
    destruct (congested_level cc) as (level & Hl & Hone); [done..|]. unfold outgoing_gas_limit. rewrite Hl, Hone by done. cbn. by rewrite Z.eqb_refl.
  - unfold outgoing_size_limit. cbn. by rewrite Z.eqb_refl.
Qed.
End turns.

(** The configuration of protocol version 68 (core/parameters/res/runtime_configs/68.yaml), with a threshold of one half. *)
(** * Sequences of changes *)

Section changes.
Context {StorageError : Type}.
Abbreviation CM := (M CongestionInfo (RuntimeError StorageError)).

Inductive InfoField : Type := DelayedGas | BufferedGas | Bytes.
Inductive InfoOp : Type := AddTo (f : InfoField) (amount : Z) | RemoveFrom (f : InfoField) (amount : Z).

Definition exec_info_op (op : InfoOp) : CM () :=
  match op with
  | AddTo DelayedGas x => add_delayed_receipt_gas x
  | AddTo BufferedGas x => add_buffered_receipt_gas x
  | AddTo Bytes x => add_receipt_bytes x
  | RemoveFrom DelayedGas x => remove_delayed_receipt_gas x
  | RemoveFrom BufferedGas x => remove_buffered_receipt_gas x
  | RemoveFrom Bytes x => remove_receipt_bytes x
  end.

Definition field_of (f : InfoField) (i : CongestionInfo) : Z :=
  match f with DelayedGas => delayed_receipts_gas i | BufferedGas => buffered_receipts_gas i | Bytes => receipt_bytes i end.

Definition width_of (f : InfoField) : Z := match f with DelayedGas | BufferedGas => 128 | Bytes => 64 end.

(** What an operation adds to a field. *)
Definition change_of (f : InfoField) (op : InfoOp) : Z :=
  match op, f with
  | AddTo DelayedGas x, DelayedGas | AddTo BufferedGas x, BufferedGas | AddTo Bytes x, Bytes => x
  | RemoveFrom DelayedGas x, DelayedGas | RemoveFrom BufferedGas x, BufferedGas | RemoveFrom Bytes x, Bytes => - x
  | _, _ => 0
  end.

(** The amounts are unsigned. *)
Definition amount_ok (op : InfoOp) : Prop := match op with AddTo _ x | RemoveFrom _ x => 0 <= x end.

Lemma exec_info_op_typed op i : info_ok i → amount_ok op →
  match exec_info_op op i with
  | Ok _ i' => info_ok i' ∧ allowed_shard i' = allowed_shard i ∧ ∀ f, field_of f i' = field_of f i + change_of f op
  | Err e i' => e = UnexpectedIntegerOverflow ∧ i' = i ∧ ∃ f, ¬ in_u (width_of f) (field_of f i + change_of f op)
  | _ => False
  end.
Proof.
  intros [I1 I2 I3 I4] Ha. destruct op as [f x|f x], f; cbn in Ha |- *; unfold add_delayed_receipt_gas, add_buffered_receipt_gas, add_receipt_bytes,
    remove_delayed_receipt_gas, remove_buffered_receipt_gas, remove_receipt_bytes, update_field, checked_add, checked_sub; destruct (_ <=? _) eqn:E; unfold in_u in *.
  all: try (split_and!; [by split; cbn; unfold in_u; lia|done|intros []; cbn; lia]).
  1, 4: split_and!; [done|done|exists DelayedGas; cbn; lia]. 1, 3: split_and!; [done|done|exists BufferedGas; cbn; lia].
  all: split_and!; [done|done|exists Bytes; cbn; lia].
Qed.

Fixpoint run_info_ops (ops : list InfoOp) : CM () :=
  match ops with
  | [] => mret ()
  | op :: ops => _ ← exec_info_op op; run_info_ops ops
  end.

(** All of [ops] were done. *)
Definition all_changed (ops : list InfoOp) (i i' : CongestionInfo) : Prop :=
  info_ok i' ∧ allowed_shard i' = allowed_shard i ∧ ∀ f, field_of f i' = field_of f i + sum_Z (change_of f <$> ops).

(** C40: Every value of the info stays in the range of its type.  Whatever sums are added to or removed from an info, in any order,
    either all changes are made, no value wraps around and every field changed by exactly the sum of its changes; or an overflow
    is reported by the first change that would leave the range, and the info holds the changes before that one. *)
Theorem info_stays_in_range (ops : list InfoOp) (i : CongestionInfo) : info_ok i → Forall amount_ok ops →
  match run_info_ops ops i with
  | Ok _ i' => all_changed ops i i'
  | Err e i' => e = UnexpectedIntegerOverflow ∧ ∃ pre op post f, ops = pre ++ op :: post ∧ all_changed pre i i' ∧ ¬ in_u (width_of f) (field_of f i' + change_of f op)
  | _ => False
  end.
Proof.
  revert i. induction ops as [|op ops IH]; intros i Hi Ho; [split_and!; [done|done|intros f; cbn; lia]|]. apply Forall_cons in Ho as [Ha Ho]. cbn [run_info_ops].
  pose proof (exec_info_op_typed op i Hi Ha) as Hop. unfold mbind, M_bind. destruct (exec_info_op op i) as [[] i1|e i1| |]; [|destruct Hop as (-> & -> & f & Hf)|done..].
  - destruct Hop as (Hi1 & Ha1 & Hf1). specialize (IH i1 Hi1 Ho). destruct (run_info_ops ops i1) as [[] i2|e i2| |]; [|destruct IH as (-> & pre & op' & post & f & -> & (H1 & H2 & H3) & H4)|done..].
    + destruct IH as (H1 & H2 & H3). split_and!; [done|congruence|]. intros f. rewrite H3, Hf1, fmap_cons, sum_Z_cons. lia.
    + split; [done|]. exists (op :: pre), op', post, f. split; [done|]. split; [|done]. split_and!; [done|congruence|]. intros f'. rewrite H3, Hf1, fmap_cons, sum_Z_cons. lia.
  - split; [done|]. exists [], op, ops, f. split; [done|]. split; [|done]. split_and!; [done|done|]. intros f'. cbn. lia.
Qed.
End changes.

Module CongestionExample.
Definition half : f64 := f64_div (f64_of_Z 50) (f64_of_Z 100).
Definition mainnet : CongestionControlConfig :=
  mkCongestionControlConfig 20000000000000000 10000000000000000 1000000000 5 300000000000000000 1000000000000000 1000000000000000
    500000000000000 20000000000000 half 102400 4718592.
Definition full : CongestionInfo := mkCongestionInfo 20000000000000000 0 0 2.
Definition layout : ShardLayout (AccountId := nat) := V0 (mkV0 4 0).

Lemma mainnet_ok : config_ok mainnet.
Proof. by split. Qed.
Lemma full_ok : info_ok full.
Proof. by split. Qed.
Lemma full_capacity missed : at_capacity (mkCongestionControl mainnet full missed).
Proof. by left. Qed.

(** The unit tests [test_mix], [test_clamped_f64_fraction] and [test_missed_chunks_congestion]. *)
Example mix_tests :
  let third := f64_div (f64_of_Z 33) (f64_of_Z 100) in let quarter := f64_div one (f64_of_Z 4) in
  mix 0 1000 half = 500 ∧ mix 50 80 third = 60 ∧ mix (umax 64) (umax 64) third = umax 64 ∧
  mix (umax 64 - 1023) (umax 64) quarter = umax 64 ∧ mix (umax 64 - 1024) (umax 64) quarter = umax 64 - 2047 ∧
  mix (umax 64 - 4000) (umax 64) quarter = umax 64 - 4095.
Proof. by vm_compute. Qed.

Example fraction_tests :
  clamped_f64_fraction 5 10 = Some half ∧ clamped_f64_fraction (umax 64 / 2) (umax 64) = Some half ∧
  clamped_f64_fraction (umax 128) 10 = Some one ∧ clamped_f64_fraction 1 0 = None.
Proof. by vm_compute. Qed.

Example missed_chunks_tests :
  congestion_level (mkCongestionControl mainnet default_congestion_info 1) = Some zero ∧
  congestion_level (mkCongestionControl mainnet default_congestion_info 2) = Some (f64_div (f64_of_Z 2) (f64_of_Z 5)) ∧
  congestion_level (mkCongestionControl mainnet default_congestion_info 5) = Some one.
Proof. by vm_compute. Qed.

(** Rounding can leave the range between the two values. *)
Example mix_outside : mix (2 ^ 53 + 1) (2 ^ 53 + 1) zero = 2 ^ 53.
Proof. by vm_compute. Qed.
End CongestionExample.

Lemma info_stays_in_range_witness :
  match run_info_ops [AddTo Bytes 10; RemoveFrom DelayedGas 5; RemoveFrom Bytes 11] CongestionExample.full with
  | Err e i' => e = (UnexpectedIntegerOverflow : RuntimeError ()) ∧ info_ok i'
  | _ => False
  end.
Proof.
  pose proof (info_stays_in_range (StorageError := ()) [AddTo Bytes 10; RemoveFrom DelayedGas 5; RemoveFrom Bytes 11] CongestionExample.full CongestionExample.full_ok) as H.
  assert (Forall amount_ok [AddTo Bytes 10; RemoveFrom DelayedGas 5; RemoveFrom Bytes 11]) as Ha by (repeat constructor; cbn; lia). specialize (H Ha).
  destruct (run_info_ops _ _) as [x i'|e i'| |] eqn:E; [by vm_compute in E|destruct H as (-> & pre & op & post & f & _ & [Hi _] & _); done|done|done].
Defined.

Lemma fully_congested_limits_witness :
  outgoing_gas_limit (mkCongestionControl CongestionExample.mainnet CongestionExample.full 0) 3 = Some 0 ∧
  process_tx_limit (mkCongestionControl CongestionExample.mainnet CongestionExample.full 0) = Some 20000000000000.
Proof.
  destruct (fully_congested_limits (mkCongestionControl CongestionExample.mainnet CongestionExample.full 0)) as (_ & Hg & Ht & _);
    [apply CongestionExample.mainnet_ok|apply CongestionExample.full_ok|done|apply CongestionExample.full_capacity|].
  split; [apply (Hg 3)|]. rewrite Ht; [done|cbn; lia..].
Defined.

Lemma congested_shard_progress_witness :
  ∃ k i', 0 <= k < 4 ∧ finalize_own_info CongestionExample.layout 1 (100 + k) CongestionExample.full = ROk i' ∧
    outgoing_gas_limit (new_congestion_control CongestionExample.mainnet i' 0) 3 = Some 1000000000000000.
Proof.
  destruct (congested_shard_progress CongestionExample.layout 1 1 100 3) as (k & Hk & Hp); [done| |done|by vm_compute|].
  - apply list_elem_of_lookup. by exists 3%nat.
  - destruct (Hp CongestionExample.mainnet CongestionExample.full 0) as (i' & Hf & _ & Hl & _);
      [apply CongestionExample.mainnet_ok|apply CongestionExample.full_ok|done|apply CongestionExample.full_capacity|]. by exists k, i'.
Defined.
