(* ===== verification/SchedulerRun.v ===== *)
(** The bandwidth scheduler in the application of a chunk (runtime/runtime/src/bandwidth_scheduler/mod.rs): its persistent state is read from
    the state, the statuses of the shards come from their congestion info, and the new state is written back. *)

From stdpp Require Import sorting.
From S2P Require Import Prelude Errors TrieQueue ReceiptQueues Borsh ShardLayout Bandwidth BandwidthCorrect TrieKey Account StoreUtils F64 CongestionInfo.
Local Open Scope Z_scope.

(** * Data *)

Record BandwidthSchedulerStateV1 : Type := mkSchedulerStateV1 { state_link_allowances : list LinkAllowance; sanity_check_hash : list Z }.
Inductive BandwidthSchedulerState : Type := SchedulerStateV1 (s : BandwidthSchedulerStateV1).

Record BandwidthSchedulerStats : Type := mkSchedulerStats {
  stats_params : option BandwidthSchedulerParams;
  prev_bandwidth_requests : gmap (Z * Z) (list Z);
  prev_bandwidth_requests_num : Z;
  stats_granted_bandwidth : gmap (Z * Z) Z;
  new_bandwidth_requests : gmap (Z * Z) (list Z)
}.
Definition default_scheduler_stats : BandwidthSchedulerStats := mkSchedulerStats None ∅ 0 ∅ ∅.

Record BandwidthSchedulerOutput : Type := mkSchedulerOutput {
  output_granted_bandwidth : gmap (Z * Z) Z;
  output_params : BandwidthSchedulerParams;
  scheduler_state_hash : list Z
}.

(** The part of the runtime config that the parameters depend on. *)
Record BandwidthSchedulerConfig : Type := mkSchedulerConfig {
  cfg_max_shard_bandwidth : Z;
  cfg_max_single_grant : Z;
  cfg_max_allowance : Z;
  cfg_max_base_bandwidth : Z;
  cfg_max_receipt_size : Z
}.

(** [BandwidthSchedulerParams::new] *)
Definition new_params (num_shards : Z) (c : BandwidthSchedulerConfig) : option BandwidthSchedulerParams :=
  calculate (cfg_max_shard_bandwidth c) (cfg_max_single_grant c) (cfg_max_allowance c) (cfg_max_base_bandwidth c) (cfg_max_receipt_size c) num_shards.

(** * Statistics *)

(** The number of entries of a map in memory fits. *)
Definition set_prev_bandwidth_requests (requests : list (Z * list BandwidthRequest)) (params : BandwidthSchedulerParams) (s : BandwidthSchedulerStats) : option BandwidthSchedulerStats :=
  m ← for_each (λ kv, add_requests_to_map kv.2 kv.1 params) requests (prev_bandwidth_requests s);
  Some (mkSchedulerStats (stats_params s) m (Z.of_nat (size m)) (stats_granted_bandwidth s) (new_bandwidth_requests s)).

Definition set_stats_params (params : BandwidthSchedulerParams) (s : BandwidthSchedulerStats) : BandwidthSchedulerStats :=
  mkSchedulerStats (Some params) (prev_bandwidth_requests s) (prev_bandwidth_requests_num s) (stats_granted_bandwidth s) (new_bandwidth_requests s).
Definition set_stats_granted (g : gmap (Z * Z) Z) (s : BandwidthSchedulerStats) : BandwidthSchedulerStats :=
  mkSchedulerStats (stats_params s) (prev_bandwidth_requests s) (prev_bandwidth_requests_num s) g (new_bandwidth_requests s).

(** * The run *)

Section run.
Context {AccountId StorageError U Rng : Type} `{!EqDecision AccountId} `{!StateStore (TrieKey AccountId) StorageError U}.
Context `{!Borsh BandwidthSchedulerState} `{!Borsh (list Z)} (hash : list Z → list Z) (commit : U → option U).
Context (shuffle : Rng → list SchedulerBandwidthRequest → list SchedulerBandwidthRequest * Rng) (rng_seed : list Z → Rng).

Abbreviation Error := (RuntimeError StorageError).
Abbreviation Layout := (ShardLayout (AccountId := AccountId)).
Abbreviation SM := (M (BandwidthSchedulerStats * U) Error).

(** What the application of a chunk knows of its block. *)
Record SchedulerInput : Type := mkSchedulerInput {
  in_shard_layout : Layout;
  in_congestion_info : BlockCongestionInfo;
  in_bandwidth_requests : list (Z * list BandwidthRequest);
  in_prev_block_hash : list Z;
  in_congestion_config : CongestionControlConfig;
  in_scheduler_config : BandwidthSchedulerConfig
}.

Definition initial_state : BandwidthSchedulerState := SchedulerStateV1 (mkSchedulerStateV1 [] default_hash).

Definition shard_status (input : SchedulerInput) (i : ExtendedCongestionInfo) : option ShardStatus :=
  let allowed := match get_shard_index (in_shard_layout input) (allowed_shard (congestion_info i)) with inr index => Some index | inl _ => None end in
  level ← congestion_level (new_congestion_control (in_congestion_config input) (congestion_info i) (missed_chunks_count i));
  Some (mkShardStatus (CongestionInfo.is_fully_congested level) (0 <? missed_chunks_count i) allowed).

Definition shards_status (input : SchedulerInput) : option (list (Z * ShardStatus)) :=
  mapM (λ p, s ← shard_status input p.2; Some (p.1, s)) (entries (in_congestion_info input)).

(** The check sum over the runs. *)
Definition next_check (all_shards : list Z) (h : list Z) : list Z := hash (h ++ hash (borsh_encode all_shards)).

Definition on_stats (f : BandwidthSchedulerStats → option BandwidthSchedulerStats) : SM () :=
  λ s, match f s.1 with Some t => Ok () (t, s.2) | None => Panic end.
Definition on_update (f : U → option U) : SM () :=
  λ s, match f s.2 with Some u => Ok () (s.1, u) | None => Panic end.

Definition get_bandwidth_scheduler_state (read : TrieKey AccountId → option (StorageError + option (list Z))) : option (StorageError + option BandwidthSchedulerState) :=
  get_value read TrieKey.BandwidthSchedulerState.
Definition set_bandwidth_scheduler_state (scheduler_state : BandwidthSchedulerState) (u : U) : option U := set_value TrieKey.BandwidthSchedulerState scheduler_state u.

Definition read_scheduler_state : SM BandwidthSchedulerState :=
  s ← get_state;
  r ← expect (get_bandwidth_scheduler_state (st_get s.2));
  match r with
  | inl e => throw (RtStorageError e)
  | inr prev_state => mret (default initial_state prev_state)
  end.

Definition run_bandwidth_scheduler (input : SchedulerInput) : SM BandwidthSchedulerOutput :=
  scheduler_state ← read_scheduler_state;
  let layout := in_shard_layout input in
  statuses ← expect (shards_status input);
  params ← expect (if num_shards layout =? 0 then None else new_params (num_shards layout) (in_scheduler_config input));
  _ ← on_stats (λ s, Some (set_stats_params params s));
  _ ← on_stats (set_prev_bandwidth_requests (in_bandwidth_requests input) params);
  let '(SchedulerStateV1 st) := scheduler_state in
  '(allowances, granted) ← expect (run shuffle layout (state_link_allowances st) params (in_bandwidth_requests input) statuses (rng_seed (in_prev_block_hash input)));
  _ ← on_stats (λ s, Some (set_stats_granted granted s));
  let new_state := SchedulerStateV1 (mkSchedulerStateV1 allowances (next_check (shard_ids layout) (sanity_check_hash st))) in
  _ ← on_update (set_bandwidth_scheduler_state new_state);
  _ ← on_update commit;
  mret (mkSchedulerOutput granted params (hash (borsh_encode new_state))).

(** One application of a chunk after the other. *)
Fixpoint run_blocks (inputs : list SchedulerInput) : SM (list BandwidthSchedulerOutput) :=
  match inputs with
  | [] => mret []
  | input :: inputs => out ← run_bandwidth_scheduler input; outs ← run_blocks inputs; mret (out :: outs)
  end.

(** * Correctness *)

(** Values that the fields can hold. *)
Definition fields_ok (la : LinkAllowance) : Prop := in_u 64 (la_sender la) ∧ in_u 64 (la_receiver la) ∧ in_u 64 (la_allowance la).

Definition scheduler_state_ok (s : BandwidthSchedulerState) : Prop :=
  match s with
  | SchedulerStateV1 s =>
      Forall fields_ok (state_link_allowances s) ∧
      Z.of_nat (length (state_link_allowances s)) <= umax 32 ∧ length (sanity_check_hash s) = 32%nat
  end.

Context (shuffle_permutes : ∀ r l, (shuffle r l).1 ≡ₚ l) (hash_length : ∀ b, length (hash b) = 32%nat).
Context (key_ok : TrieKey AccountId → Prop) (st_view : U → TrieKey AccountId → option (list Z)) (st_trie_view : U → Base (TrieKey AccountId)).
Context `{!StateStoreOk (TrieKey AccountId) StorageError U key_ok st_view st_trie_view} `{!BorshOk BandwidthSchedulerState scheduler_state_ok}.
Context (key_fine : key_ok TrieKey.BandwidthSchedulerState).
Context (commit_ok : ∀ u, base_live (st_trie_view u) = true → ∃ u', commit u = Some u' ∧ st_trie_view u' = st_trie_view u ∧ ∀ k, st_view u' k = st_view u k).

Record scheduler_config_ok (c : BandwidthSchedulerConfig) : Prop := {
  sc_receipt : cfg_max_receipt_size c <= cfg_max_single_grant c;
  sc_grant : cfg_max_single_grant c <= cfg_max_shard_bandwidth c <= umax 64;
  sc_base : 0 <= cfg_max_base_bandwidth c <= cfg_max_single_grant c;
  sc_values : cfg_max_single_grant c * 40 <= umax 64;
  sc_allowance : in_u 64 (cfg_max_allowance c)
}.

(** A well-formed block: its layout, which may differ from that of the block before, the requests and the congestion of its
    shards, and the config. *)
Record input_ok (input : SchedulerInput) : Prop := {
  io_layout : ∃ bs split parents, in_shard_layout input = v2_layout bs (shard_ids (in_shard_layout input)) split parents;
  io_nodup : NoDup (shard_ids (in_shard_layout input));
  io_ids : Forall (in_u 64) (shard_ids (in_shard_layout input));
  io_shards : shard_ids (in_shard_layout input) ≠ [];
  io_size : Z.of_nat (length (shard_ids (in_shard_layout input)) * length (shard_ids (in_shard_layout input))) <= umax 32;
  io_scheduler_config : scheduler_config_ok (in_scheduler_config input);
  io_bitmaps : Forall (λ kv, Forall (λ r, bitmap_ok (requested_values_bitmap r)) kv.2) (in_bandwidth_requests input);
  io_config : config_ok (in_congestion_config input);
  io_infos : map_Forall (λ _ i, info_ok (congestion_info i) ∧ 0 <= missed_chunks_count i) (in_congestion_info input)
}.

Definition control_of (input : SchedulerInput) (i : ExtendedCongestionInfo) : CongestionControl :=
  new_congestion_control (in_congestion_config input) (congestion_info i) (missed_chunks_count i).

(** The grants of a run: within the limits of all shards, nothing to or from a shard that missed its chunk, nothing to a shard of
    unknown congestion, and nothing to a shard at its capacity except from the shard it allows. *)
Record grants_ok (input : SchedulerInput) (ids : list Z) (granted : gmap (Z * Z) Z) : Prop := {
  go_out from : from ∈ ids → sum_Z ((λ to, get_granted_bandwidth granted from to) <$> ids) <= cfg_max_shard_bandwidth (in_scheduler_config input);
  go_in to : to ∈ ids → sum_Z ((λ from, get_granted_bandwidth granted from to) <$> ids) <= cfg_max_shard_bandwidth (in_scheduler_config input);
  go_missed from to i : from ∈ ids → to ∈ ids → in_congestion_info input !! to = Some i → 0 < missed_chunks_count i → get_granted_bandwidth granted from to = 0;
  go_missed_sender from to i : from ∈ ids → to ∈ ids → in_congestion_info input !! from = Some i → 0 < missed_chunks_count i → get_granted_bandwidth granted from to = 0;
  go_unknown from to : from ∈ ids → to ∈ ids → in_congestion_info input !! to = None → get_granted_bandwidth granted from to = 0;
  go_congested from to i : from ∈ ids → to ∈ ids → in_congestion_info input !! to = Some i → at_capacity (control_of input i) → from ≠ allowed_shard (congestion_info i) →
    get_granted_bandwidth granted from to = 0
}.

(** The scheduler state in the state of the shard, if there is one. *)
Definition stored (P : BandwidthSchedulerStateV1 → Prop) (u : U) : Prop :=
  ∃ st : option BandwidthSchedulerState, st_view u TrieKey.BandwidthSchedulerState = borsh_encode <$> st ∧
    ∀ s, st = Some s → scheduler_state_ok s ∧ let '(SchedulerStateV1 s) := s in P s.

(** The allowances that a run leaves. *)
Definition allowances_within (input : SchedulerInput) (st : BandwidthSchedulerStateV1) : Prop :=
  allowances_ok (shard_ids (in_shard_layout input)) (cfg_max_allowance (in_scheduler_config input)) (state_link_allowances st).

Lemma new_params_ok c k : 0 < k → scheduler_config_ok c → ∃ params, new_params k c = Some params ∧ params_ok params ∧
  max_allowance params = cfg_max_allowance c ∧ max_shard_bandwidth params = cfg_max_shard_bandwidth c.
Proof.
  intros Hk [H1 H2 H3 H4 [H5 H6]]. unfold new_params, calculate. rewrite !(proj2 (Z.leb_le _ _)) by lia. cbn [negb].
  rewrite !checked_sub_ok by lia. cbn [mbind option_bind]. eexists. split; [done|]. split; [|done].
  assert (0 <= (cfg_max_shard_bandwidth c - cfg_max_single_grant c) / Z.max 1 (k - 1)) by (apply Z.div_pos; lia).
  constructor; cbn; [|lia..]. destruct (_ <? _) eqn:E; [lia|]. apply Z.ltb_ge in E. lia.
Qed.

Lemma requested_values_ok params r : params_ok params → bitmap_ok (requested_values_bitmap r) → is_Some (get_requested_values r params).
Proof.
  intros Hp Hb. unfold get_requested_values. destruct (request_values_ok params Hp) as (vs & -> & Hl & _). cbn [mbind option_bind].
  apply for_each_total, Forall_forall. intros i [_ Hi]%elem_of_seq res.
  destruct (get_bit_ok (requested_values_bitmap r) i Hb Hi) as [[] ->]; cbn [mbind option_bind]; [|by eexists].
  destruct (lookup_lt_is_Some_2 vs i) as [v ->]; [lia|]. by eexists.
Qed.

Lemma set_prev_requests_ok params requests stats : params_ok params → Forall (λ kv : Z * list BandwidthRequest, Forall (λ r, bitmap_ok (requested_values_bitmap r)) kv.2) requests →
  is_Some (set_prev_bandwidth_requests requests params stats).
Proof.
  intros Hp HF. unfold set_prev_bandwidth_requests.
  destruct (for_each_total (λ kv, add_requests_to_map kv.2 kv.1 params) requests (prev_bandwidth_requests stats)) as [m ->]; [|by eexists].
  eapply Forall_impl; [exact HF|]. intros kv Hkv m. apply for_each_total. eapply Forall_impl; [exact Hkv|]. intros r Hr m'.
  destruct (requested_values_ok params r Hp Hr) as [v ->]. by eexists.
Qed.

(** The statuses of the shards, by their congestion. *)
Lemma shard_status_ok input i : input_ok input → info_ok (congestion_info i) → 0 <= missed_chunks_count i →
  ∃ st, shard_status input i = Some st ∧ last_chunk_missing st = (0 <? missed_chunks_count i) ∧
    (at_capacity (control_of input i) → Bandwidth.is_fully_congested st = true) ∧
    (∀ k, allowed_sender_shard_index st = Some k → shard_ids (in_shard_layout input) !! k = Some (allowed_shard (congestion_info i))).
Proof.
  intros Hin Hi Hm. destruct (congested_level (control_of input i)) as (level & Hl & Hfull); [apply Hin|done..|].
  unfold shard_status. unfold control_of in Hl. rewrite Hl. cbn [mbind option_bind]. eexists. split; [done|]. cbn. split; [done|]. split.
  - intros Hc. rewrite Hfull by done. apply eqb_one.
  - intros k Hk. destruct (io_layout _ Hin) as (bs & split & parents & Hlay). destruct (get_shard_index _ _) as [e|k'] eqn:Ek; simplify_eq.
    rewrite Hlay in Ek. by apply shard_index_ok in Ek; [|apply Hin].
Qed.

Lemma shards_status_ok input : input_ok input → ∃ sts, shards_status input = Some sts ∧ NoDup sts.*1 ∧ (∀ id, id ∈ sts.*1 → is_Some (in_congestion_info input !! id)) ∧
  ∀ id i, in_congestion_info input !! id = Some i → ∃ st, (id, st) ∈ sts ∧ shard_status input i = Some st.
Proof.
  intros Hin. unfold shards_status.
  assert (entries (in_congestion_info input) ≡ₚ map_to_list (in_congestion_info input)) as Hperm by apply merge_sort_Permutation.
  destruct (mapM_is_Some_2 (λ p, s ← shard_status input p.2; Some (p.1, s)) (entries (in_congestion_info input))) as [sts Hsts].
  - apply Forall_forall. intros [id i] Hp. rewrite Hperm in Hp. apply elem_of_map_to_list in Hp. destruct (io_infos _ Hin id i Hp) as [Hi Hm].
    destruct (shard_status_ok input i Hin Hi Hm) as (st & Hst & _). cbn. by rewrite Hst.
  - exists sts. split; [done|]. apply mapM_Some in Hsts. assert (sts.*1 = (entries (in_congestion_info input)).*1) as E.
    { clear -Hsts. induction Hsts as [|[id i] [id' st] l l' H _ IH]; [done|]. cbn in H. destruct (shard_status input i); simplify_eq/=. by rewrite IH. }
    split_and!.
    + rewrite E, Hperm. apply NoDup_fst_map_to_list.
    + intros id. rewrite E, Hperm. intros ([id' i] & -> & Hi%elem_of_map_to_list)%list_elem_of_fmap. by eexists.
    + intros id i Hi. assert ((id, i) ∈ entries (in_congestion_info input)) as Hp by (rewrite Hperm; by apply elem_of_map_to_list).
      apply list_elem_of_lookup in Hp as [k Hk]. destruct (Forall2_lookup_l _ _ _ _ _ Hsts Hk) as ([id' st] & Hst & H). cbn in H.
      destruct (shard_status input i) as [st'|]; simplify_eq/=. exists st. split; [by eapply list_elem_of_lookup_2|done].
Qed.

(** The scheduler itself, on the statuses and the parameters of the block. *)
Lemma run_grants_ok input las sts params seed : input_ok input → shards_status input = Some sts →
  new_params (num_shards (in_shard_layout input)) (in_scheduler_config input) = Some params → Forall (λ la, 0 <= la_allowance la) las →
  ∃ las' gm, run shuffle (in_shard_layout input) las params (in_bandwidth_requests input) sts seed = Some (las', gm) ∧
    allowances_ok (shard_ids (in_shard_layout input)) (cfg_max_allowance (in_scheduler_config input)) las' ∧
    grants_ok input (shard_ids (in_shard_layout input)) gm.
Proof.
  intros Hin Hsts Hpar Hlas. destruct (shards_status_ok input Hin) as (sts' & Hsts' & Hnd & Hknown & Hinfo). rewrite Hsts in Hsts'. simplify_eq.
  destruct (io_layout _ Hin) as (bs & split & parents & Hlay). pose proof (io_nodup _ Hin) as Hids. pose proof (io_shards _ Hin) as Hne.
  remember (shard_ids (in_shard_layout input)) as ids eqn:Eids.
  assert (num_shards (in_shard_layout input) = Z.of_nat (length ids)) as Hnum by by rewrite Hlay.
  destruct (new_params_ok (in_scheduler_config input) (num_shards (in_shard_layout input))) as (p & Hp & Hpok & Hmax & Hlim);
    [rewrite Hnum; destruct ids; [done|cbn; lia]|apply Hin|]. rewrite Hpar in Hp. injection Hp as <-.
  destruct (run_summary shuffle shuffle_permutes bs ids split parents Hids params las (in_bandwidth_requests input) sts' seed)
    as (las' & gm & m & Hrun & Hm & HF & Hout & Hinn & Hok); [constructor; [done|pose proof (io_size _ Hin) as Hs; rewrite <-Eids in Hs; unfold umax in *; lia|done|done|apply Hin]|].
  exists las', gm. rewrite Hlay, <-Hmax. split; [done|]. split; [done|].
  assert (∀ to i, to ∈ ids → in_congestion_info input !! to = Some i → ∃ st j, ids !! j = Some to ∧ m !! j = Some (Some st) ∧ shard_status input i = Some st ∧
    info_ok (congestion_info i) ∧ 0 <= missed_chunks_count i) as Hto.
  { intros to i [j Hj]%list_elem_of_lookup Hi. destruct (Hinfo to i Hi) as (st & Hst & Hs). exists st, j. destruct (io_infos _ Hin to i Hi).
    split; [done|]. split; [|done]. by eapply load_statuses_lookup. }
  constructor; [by intros from ?; rewrite <-Hlim; apply Hout|by intros to ?; rewrite <-Hlim; apply Hinn|..].
  - intros from to i [k Hk]%list_elem_of_lookup Hin' Hi Hmiss. destruct (Hto to i Hin' Hi) as (st & j & Hj & Hmj & Hs & Hio & Hmi).
    destruct (shard_status_ok input i Hin Hio Hmi) as (st' & Hs' & Hlast & _). rewrite Hs in Hs'. simplify_eq.
    destruct (Hok k j from to Hk Hj) as (ok & Hallow & Hz & _). apply Hz. unfold calculate_is_link_allowed, index_map_get in Hallow. rewrite Hmj in Hallow.
    cbn [mbind option_bind] in Hallow. rewrite Hlast, (proj2 (Z.ltb_lt _ _)) in Hallow by done. by simplify_eq.
  - intros from to i Hfrom [j Hj]%list_elem_of_lookup Hi Hmiss. destruct (Hto from i Hfrom Hi) as (st & k & Hk & Hmk & Hs & Hio & Hmi).
    destruct (shard_status_ok input i Hin Hio Hmi) as (st' & Hs' & Hlast & _). rewrite Hs in Hs'. simplify_eq.
    destruct (Hok k j from to Hk Hj) as (ok & Hallow & Hz & _). apply Hz. unfold calculate_is_link_allowed, index_map_get in Hallow.
    destruct (m !! j) as [[st|]|]; [|by simplify_eq/=|done]. cbn [mbind option_bind] in Hallow. destruct (last_chunk_missing st); [by simplify_eq|].
    rewrite Hmk in Hallow. cbn [mbind option_bind] in Hallow. rewrite Hlast, (proj2 (Z.ltb_lt _ _)) in Hallow by done. by simplify_eq.
  - intros from to [k Hk]%list_elem_of_lookup [j Hj]%list_elem_of_lookup Hi. destruct (Hok k j from to Hk Hj) as (ok & Hallow & Hz & _). apply Hz.
    assert (m !! j = Some None) as Hmj by (eapply load_statuses_none; [done|exact Hm|exact Hj|]; intros [i' Hi']%Hknown; congruence).
    unfold calculate_is_link_allowed, index_map_get in Hallow. rewrite Hmj in Hallow. by simplify_eq/=.
  - intros from to i [k Hk]%list_elem_of_lookup Hin' Hi Hcap Hfrom. destruct (Hto to i Hin' Hi) as (st & j & Hj & Hmj & Hs & Hio & Hmi).
    destruct (shard_status_ok input i Hin Hio Hmi) as (st' & Hs' & _ & Hfull & Hallowed). rewrite Hs in Hs'. simplify_eq.
    destruct (Hok k j from to Hk Hj) as (ok & Hallow & Hz & _). apply Hz. unfold calculate_is_link_allowed, index_map_get in Hallow. rewrite Hmj in Hallow.
    cbn [mbind option_bind] in Hallow. destruct (last_chunk_missing st'); [by simplify_eq|]. destruct (m !! k); [|done]. cbn [mbind option_bind] in Hallow.
    rewrite Hfull in Hallow by done. destruct (match o with Some _ => _ | None => _ end); [by simplify_eq|]. simplify_eq.
    apply bool_decide_eq_false. intros Ha. symmetry in Ha. apply Hallowed in Ha. congruence.
Qed.

(** What a run, or several, leave of the state. *)
Definition keeps_state (u u' : U) : Prop :=
  st_trie_view u' = st_trie_view u ∧ ∀ k, key_ok k → k ≠ TrieKey.BandwidthSchedulerState → st_view u' k = st_view u k.

Lemma allowances_state_ok input las h : input_ok input → length h = 32%nat →
  allowances_ok (shard_ids (in_shard_layout input)) (cfg_max_allowance (in_scheduler_config input)) las →
  scheduler_state_ok (SchedulerStateV1 (mkSchedulerStateV1 las h)).
Proof.
  intros Hin Hh [HF Hlen]. pose proof (io_size _ Hin). split; [|cbn; split; [lia|done]]. cbn. eapply Forall_impl; [done|]. intros la (Ha & Hs & Hr). pose proof (io_ids _ Hin) as Hids. rewrite Forall_forall in Hids.
  destruct (sc_allowance _ (io_scheduler_config _ Hin)). split_and!; [by apply Hids..|]. unfold in_u in *. lia.
Qed.

Lemma write_state_ok st P u : base_live (st_trie_view u) = true → scheduler_state_ok (SchedulerStateV1 st) → P st →
  ∃ u1 u2, set_bandwidth_scheduler_state (SchedulerStateV1 st) u = Some u1 ∧ commit u1 = Some u2 ∧ stored P u2 ∧ keeps_state u u2.
Proof.
  intros Hlive Hst HP. destruct (st_set_ok u TrieKey.BandwidthSchedulerState (borsh_encode (SchedulerStateV1 st)) key_fine) as (u1 & Hset & Ht1 & Hv1).
  destruct (commit_ok u1) as (u2 & Hc & Ht2 & Hv2); [by rewrite Ht1|]. exists u1, u2. split; [done|]. split; [done|]. split.
  - exists (Some (SchedulerStateV1 st)). rewrite Hv2, Hv1, decide_True by done. split; [done|]. by intros ? [= <-].
  - split; [by rewrite Ht2|]. intros k Hk Hne. by rewrite Hv2, Hv1, decide_False.
Qed.

Lemma read_state_ok stats u : stored (λ _, True) u → ∃ st, read_scheduler_state (stats, u) = Ok (SchedulerStateV1 st) (stats, u) ∧ scheduler_state_ok (SchedulerStateV1 st).
Proof.
  intros (st & Hst & Hok). exists (let '(SchedulerStateV1 s) := default initial_state st in s).
  assert (get_bandwidth_scheduler_state (st_get u) = Some (inr st : StorageError + _)) as Hget.
  { apply (get_value_ok key_ok st_view st_trie_view scheduler_state_ok); [done|done|]. intros s Hs. by apply Hok. }
  split.
  - unfold read_scheduler_state. rewrite (bind_Ok get_state _ _ (stats, u) (stats, u)) by done. cbn [fst snd]. rewrite Hget. destruct st as [[s]|]; done.
  - destruct st as [[s]|]; [by apply (Hok (SchedulerStateV1 s))|]. by split.
Qed.

Lemma run_scheduler_ok input stats u : input_ok input → base_live (st_trie_view u) = true → stored (λ _, True) u →
  returns (run_bandwidth_scheduler input) (stats, u) (λ out s',
    grants_ok input (shard_ids (in_shard_layout input)) (output_granted_bandwidth out) ∧ stored (allowances_within input) s'.2 ∧ keeps_state u s'.2).
Proof.
  intros Hin Hlive Hst. destruct (read_state_ok stats u Hst) as (st & Hread & Hsok). destruct (shards_status_ok input Hin) as (sts & Hsts & _ & _).
  assert (0 < num_shards (in_shard_layout input)) as Hnum.
  { destruct (io_layout _ Hin) as (bs & split & parents & Hlay). pose proof (io_shards _ Hin) as Hne. rewrite Hlay in Hne |- *. cbn in Hne |- *.
    destruct (shard_ids _); [done|cbn; lia]. }
  destruct (new_params_ok _ _ Hnum (io_scheduler_config _ Hin)) as (params & Hpar & Hpok & _).
  destruct (set_prev_requests_ok params (in_bandwidth_requests input) (set_stats_params params stats) Hpok (io_bitmaps _ Hin)) as [stats1 Hstats].
  destruct (run_grants_ok input (state_link_allowances st) sts params (rng_seed (in_prev_block_hash input)) Hin Hsts Hpar) as (las & gm & Hrun & Hlas & Hgr).
  { destruct Hsok as [HF _]. eapply Forall_impl; [done|]. intros la (_ & _ & H & _). done. }
  destruct (write_state_ok (mkSchedulerStateV1 las (next_check (shard_ids (in_shard_layout input)) (sanity_check_hash st))) (allowances_within input) u Hlive)
    as (u1 & u2 & Hset & Hcommit & Hst2 & Hkeep); [apply (allowances_state_ok input); [done|apply hash_length|done]|done|].
  unfold run_bandwidth_scheduler. eapply returns_step; [exact Hread|]. rewrite Hsts. eapply returns_step; [done|].
  rewrite (proj2 (Z.eqb_neq _ _)), Hpar by lia. eapply returns_step; [done|]. eapply returns_step; [done|].
  eapply returns_step; [unfold on_stats; cbn [fst snd]; rewrite Hstats; done|]. rewrite Hrun. eapply returns_step; [done|]. eapply returns_step; [done|].
  eapply returns_step; [unfold on_update; cbn [fst snd]; rewrite Hset; done|]. eapply returns_step; [unfold on_update; cbn [fst snd]; rewrite Hcommit; done|].
  apply returns_ret. by split.
Qed.

(** C12: The bandwidth scheduler over any sequence of blocks, whose layouts may change.  From a state with a well-formed scheduler
    state, or none yet, every run succeeds; the stored allowances stay well formed and, after the last run, belong to links of its
    layout and are at most the limit; no other key of the state changes.  In every block the bandwidth granted from a shard, and to a
    shard, is at most the limit of a shard; nothing is granted to or from a shard whose last chunk is missing, nothing to a shard whose
    congestion is not known, and nothing to a shard at its capacity, except from the one shard it allows. *)
Theorem scheduler_runs inputs stats u : Forall input_ok inputs → base_live (st_trie_view u) = true → stored (λ _, True) u →
  ∃ outs stats' u', run_blocks inputs (stats, u) = Ok outs (stats', u') ∧
    Forall2 (λ input out, grants_ok input (shard_ids (in_shard_layout input)) (output_granted_bandwidth out)) inputs outs ∧
    stored (λ st, ∀ input, last inputs = Some input → allowances_within input st) u' ∧ keeps_state u u'.
Proof.
  intros HF Hlive Hst. revert stats u Hlive Hst. induction HF as [|input inputs Hin HF IH]; intros stats u Hlive Hst.
  - exists [], stats, u. split; [done|]. split; [done|]. split; [|done]. destruct Hst as (st & Hst & Hok). exists st. split; [done|]. intros [s] Hs. by destruct (Hok _ Hs).
  - destruct (returns_inv _ _ _ (run_scheduler_ok input stats u Hin Hlive Hst)) as (out & [stats1 u1] & Hrun & Hgr & (st1 & Hst1 & Hok1) & Ht1 & Hk1). cbn [snd] in *.
    destruct (IH stats1 u1) as (outs & stats2 & u2 & Hrest & Hall & (st2 & Hst2 & Hok2) & Ht2 & Hk2); [by rewrite Ht1|exists st1; split; [done|]; intros [s] Hs; by destruct (Hok1 _ Hs)|].
    exists (out :: outs), stats2, u2. split; [|split; [by constructor|split]].
    + cbn [run_blocks]. rewrite (bind_Ok _ _ _ _ _ Hrun), (bind_Ok _ _ _ _ _ Hrest). done.
    + destruct inputs as [|input' inputs].
      * inversion Hall; simplify_eq. cbn in Hrest. injection Hrest as -> ->. exists st1. split; [done|]. intros [s] Hs. destruct (Hok1 _ Hs) as [H1 H2]. split; [done|]. by intros ? [= <-].
      * exists st2. split; [done|]. exact Hok2.
    + split; [by rewrite Ht2|]. intros k Hk Hne. by rewrite Hk2, Hk1.
Qed.
End run.
