(* ===== verification/ReceiptSink.v ===== *)
(** The sink of outgoing receipts (runtime/runtime/src/congestion_control.rs): a receipt is forwarded
    while the limits of its receiving shard allow it, and buffered in the state otherwise; at the start of
    a chunk the buffers are drained as far as the limits allow, and at its end bandwidth is requested for
    what is left.

    Every method runs in the monad [M] over the sink and the state.  Logging is left out. *)

From stdpp Require Import sorting.
From S2P Require Import Prelude Errors Borsh Costs TrieKey ShardLayout Bandwidth Fees Receipt TrieQueue ReceiptQueues OutgoingMetadata CongestionInfo.
Local Open Scope Z_scope.

(** * Statistics (core/primitives/src/chunk_apply_stats.rs) *)

Record ReceiptsStats : Type := mkReceiptsStats { num : Z; stats_size : Z; stats_gas : Z }.

Definition default_stats : ReceiptsStats := mkReceiptsStats 0 0 0.

(** [ReceiptsStats::add_receipt]; the sums panic on overflow. *)
Definition add_receipt (size gas : Z) (s : ReceiptsStats) : option ReceiptsStats :=
  n ← checked_add 64 (num s) 1;
  z ← checked_add 64 (stats_size s) size;
  g ← checked_add 128 (stats_gas s) gas;
  Some (mkReceiptsStats n z g).

(** Limits of gas and size, also as they are recorded in the statistics. *)
Record OutgoingLimit : Type := mkLimit { limit_gas : Z; limit_size : Z }.

Record ReceiptSinkStats : Type := mkSinkStats {
  outgoing_limits : gmap Z OutgoingLimit;
  forwarded_receipts : gmap Z ReceiptsStats;
  buffered_receipts : gmap Z ReceiptsStats;
  final_outgoing_buffers : gmap Z ReceiptsStats;
  is_outgoing_metadata_ready : gmap Z bool;
  all_outgoing_metadatas_ready : bool
}.

Definition default_sink_stats : ReceiptSinkStats := mkSinkStats ∅ ∅ ∅ ∅ ∅ false.

(** [ReceiptSinkStats::set_outgoing_limits] of a map of limits. *)
Definition set_outgoing_limits (limits : gmap Z OutgoingLimit) (s : ReceiptSinkStats) : ReceiptSinkStats :=
  mkSinkStats (limits ∪ outgoing_limits s) (forwarded_receipts s) (buffered_receipts s) (final_outgoing_buffers s)
    (is_outgoing_metadata_ready s) (all_outgoing_metadatas_ready s).

Definition set_forwarded (m : gmap Z ReceiptsStats) (s : ReceiptSinkStats) : ReceiptSinkStats :=
  mkSinkStats (outgoing_limits s) m (buffered_receipts s) (final_outgoing_buffers s) (is_outgoing_metadata_ready s) (all_outgoing_metadatas_ready s).
Definition set_buffered (m : gmap Z ReceiptsStats) (s : ReceiptSinkStats) : ReceiptSinkStats :=
  mkSinkStats (outgoing_limits s) (forwarded_receipts s) m (final_outgoing_buffers s) (is_outgoing_metadata_ready s) (all_outgoing_metadatas_ready s).
Definition record_buffer (shard : Z) (r : ReceiptsStats) (ready : bool) (s : ReceiptSinkStats) : ReceiptSinkStats :=
  mkSinkStats (outgoing_limits s) (forwarded_receipts s) (buffered_receipts s) (<[shard := r]> (final_outgoing_buffers s))
    (<[shard := ready]> (is_outgoing_metadata_ready s)) (all_outgoing_metadatas_ready s).

(** * The sink *)

Section sink.
Context {AccountId StorageError U : Type} `{!EqDecision AccountId} `{!StateStore (TrieKey AccountId) StorageError U}.
Context `{!Borsh AccountId} `{!Borsh (ReceiptEnum AccountId)} `{!Borsh TrieQueueIndices} `{!Borsh (gmap Z TrieQueueIndices)}.
Context `{!Borsh ReceiptGroupsQueueData} `{!Borsh ReceiptGroup}.
Context (as_bytes : AccountId → bytes) (get_account_type : AccountId → AccountType).
Context (account_le : relation AccountId) `{!RelDecision account_le} (hash_bytes : AccountId → list Z).

(** The configuration that [ApplyState] carries. *)
Context (fees : RuntimeFeesConfig) (wasm_config : VmConfig) (use_state_stored_receipt : bool).

Abbreviation Rcpt := (Receipt AccountId).
Abbreviation Item := (ReceiptOrStateStoredReceipt AccountId).
Abbreviation Layout := (ShardLayout (AccountId := AccountId)).
Abbreviation Error := (RuntimeError StorageError).
Abbreviation Read := (TrieKey AccountId → option (StorageError + option (list Z))).

Record ReceiptSinkV2 : Type := mkSink {
  own_congestion_info : CongestionInfo;
  outgoing_receipts : list Rcpt;
  outgoing_limit : gmap Z OutgoingLimit;
  outgoing_buffers : ShardsOutgoingReceiptBuffer;
  outgoing_metadatas : OutgoingMetadatas;
  scheduler_params : BandwidthSchedulerParams;
  stats : ReceiptSinkStats
}.

Definition set_info (i : CongestionInfo) (s : ReceiptSinkV2) : ReceiptSinkV2 :=
  mkSink i (outgoing_receipts s) (outgoing_limit s) (outgoing_buffers s) (outgoing_metadatas s) (scheduler_params s) (stats s).
Definition set_receipts (l : list Rcpt) (s : ReceiptSinkV2) : ReceiptSinkV2 :=
  mkSink (own_congestion_info s) l (outgoing_limit s) (outgoing_buffers s) (outgoing_metadatas s) (scheduler_params s) (stats s).
Definition set_limits (l : gmap Z OutgoingLimit) (s : ReceiptSinkV2) : ReceiptSinkV2 :=
  mkSink (own_congestion_info s) (outgoing_receipts s) l (outgoing_buffers s) (outgoing_metadatas s) (scheduler_params s) (stats s).
Definition set_buffers (b : ShardsOutgoingReceiptBuffer) (s : ReceiptSinkV2) : ReceiptSinkV2 :=
  mkSink (own_congestion_info s) (outgoing_receipts s) (outgoing_limit s) b (outgoing_metadatas s) (scheduler_params s) (stats s).
Definition set_metadatas (m : OutgoingMetadatas) (s : ReceiptSinkV2) : ReceiptSinkV2 :=
  mkSink (own_congestion_info s) (outgoing_receipts s) (outgoing_limit s) (outgoing_buffers s) m (scheduler_params s) (stats s).
Definition set_stats (t : ReceiptSinkStats) (s : ReceiptSinkV2) : ReceiptSinkV2 :=
  mkSink (own_congestion_info s) (outgoing_receipts s) (outgoing_limit s) (outgoing_buffers s) (outgoing_metadatas s) (scheduler_params s) t.

Record ReceiptSinkV2Info : Type := mkSinkInfo { shard_layout : Layout; parent_shard_ids : gset Z }.

(** Methods on [&mut ReceiptSinkV2] and [&mut TrieUpdate]. *)
Abbreviation SM := (M (ReceiptSinkV2 * U) Error).

Definition get_sink : SM ReceiptSinkV2 := λ s, Ok s.1 s.
Definition modify_sink (f : ReceiptSinkV2 → ReceiptSinkV2) : SM () := λ s, Ok () (f s.1, s.2).

Definition on_info {A} (m : M CongestionInfo Error A) : SM A := zoom (λ s, own_congestion_info s.1) (λ i s, (set_info i s.1, s.2)) m.
Definition on_buffer {A} (shard : Z) (m : M (OutgoingReceiptBuffer * U) Error A) : SM A :=
  zoom (λ s, (to_shard (outgoing_buffers s.1) shard, s.2)) (λ t s, (set_buffers (parent t.1) s.1, t.2)) m.
Definition on_metadatas {A} (m : M (OutgoingMetadatas * U) Error A) : SM A :=
  zoom (λ s, (outgoing_metadatas s.1, s.2)) (λ t s, (set_metadatas t.1 s.1, t.2)) m.

(** ** Forwarding *)

Inductive ReceiptForwarding : Type := Forwarded | NotForwarded (receipt : Rcpt).

(** Receipts above the limit are treated as if they were of the maximal size. *)
Definition forward_size (size : Z) : Z := if Fees.max_receipt_size wasm_config <? size then Fees.max_receipt_size wasm_config else size.

(** No limit of gas, and no grant of bandwidth. *)
Definition default_outgoing_limit : OutgoingLimit := mkLimit (umax 64) 0.

Definition try_forward (receipt : Rcpt) (gas size shard : Z) : SM ReceiptForwarding :=
  let size := forward_size size in
  sink ← get_sink;
  let forward_limit := default default_outgoing_limit (outgoing_limit sink !! shard) in
  _ ← modify_sink (set_limits (<[shard := forward_limit]> (outgoing_limit sink)));
  if (gas <=? limit_gas forward_limit) && (size <=? limit_size forward_limit) then
    _ ← modify_sink (set_receipts (outgoing_receipts sink ++ [receipt]));
    gas_left ← expect (checked_sub (limit_gas forward_limit) gas);
    size_left ← expect (checked_sub (limit_size forward_limit) size);
    _ ← modify_sink (set_limits (<[shard := mkLimit gas_left size_left]> (outgoing_limit sink)));
    st ← expect (add_receipt size gas (default default_stats (forwarded_receipts (stats sink) !! shard)));
    _ ← modify_sink (set_stats (set_forwarded (<[shard := st]> (forwarded_receipts (stats sink))) (stats sink)));
    mret Forwarded
  else mret (NotForwarded receipt).

(** How a receipt is stored. *)
Definition stored_item (receipt : Rcpt) (size gas : Z) : Item :=
  if use_state_stored_receipt then StoredReceipt (new_owned receipt (mkMetadata gas size)) else PlainReceipt receipt.

Definition buffer_receipt (receipt : Rcpt) (size gas shard : Z) : SM () :=
  let item := stored_item receipt size gas in
  _ ← on_info (add_receipt_bytes size);
  _ ← on_info (add_buffered_receipt_gas gas);
  _ ← (if should_update_outgoing_metadatas item then on_metadatas (update_on_receipt_pushed shard size gas) else mret ());
  _ ← on_buffer shard (push_back item);
  sink ← get_sink;
  st ← expect (add_receipt size gas (default default_stats (buffered_receipts (stats sink) !! shard)));
  modify_sink (set_stats (set_buffered (<[shard := st]> (buffered_receipts (stats sink))) (stats sink))).

Abbreviation compute_gas := (compute_receipt_congestion_gas as_bytes get_account_type fees wasm_config).
Abbreviation item_gas := (receipt_congestion_gas as_bytes get_account_type fees wasm_config).
Abbreviation target_of := (receiver_shard_id account_le hash_bytes).

Definition forward_or_buffer_receipt (info : ReceiptSinkV2Info) (receipt : Rcpt) : SM () :=
  shard ← run_res from_epoch (target_of receipt (shard_layout info));
  size ← run_res from_overflow (compute_receipt_size receipt);
  gas ← run_res from_overflow (compute_gas receipt);
  forwarding ← try_forward receipt gas size shard;
  match forwarding with
  | Forwarded => mret ()
  | NotForwarded receipt => buffer_receipt receipt size gas shard
  end.

(** ** Draining the buffers *)

(** The loop over the items of a buffer: how many were forwarded, and the size and gas of those whose metadata is kept. *)
Fixpoint forward_loop (layout : Layout) (items : list (option (Error + Item))) (num_forwarded : Z) (updates : list (Z * Z)) : SM (Z * list (Z * Z)) :=
  match items with
  | [] => mret (num_forwarded, updates)
  | receipt_result :: items =>
      r ← expect receipt_result;
      item ← (match r with inl e => throw e | inr item => mret item end : SM Item);
      gas ← run_res from_overflow (item_gas item);
      size ← run_res from_overflow (receipt_size item);
      let receipt := into_receipt item in
      target_shard_id ← run_res from_epoch (target_of receipt layout);
      forwarding ← try_forward receipt gas size target_shard_id;
      match forwarding with
      | Forwarded =>
          _ ← on_info (remove_receipt_bytes size);
          _ ← on_info (remove_buffered_receipt_gas gas);
          num_forwarded ← expect (checked_add 64 num_forwarded 1);
          forward_loop layout items num_forwarded (if should_update_outgoing_metadatas item then updates ++ [(size, gas)] else updates)
      | NotForwarded _ => mret (num_forwarded, updates)
      end
  end.

Fixpoint popped_loop (shard : Z) (updates : list (Z * Z)) : SM () :=
  match updates with
  | [] => mret ()
  | (size, gas) :: updates => _ ← on_metadatas (update_on_receipt_popped shard size gas); popped_loop shard updates
  end.

(** The iteration reads the trie below the changes of the chunk. *)
Definition forward_from_buffer_to_shard (buffer_shard_id : Z) (layout : Layout) : SM () :=
  s ← get_state;
  '(num_forwarded, updates) ← forward_loop layout (queue_iter (st_get_trie s.2) (to_shard (outgoing_buffers s.1) buffer_shard_id)) 0 [];
  _ ← on_buffer buffer_shard_id (pop_n num_forwarded);
  popped_loop buffer_shard_id updates.

(** Forward from each buffer; whether all of them are empty afterwards. *)
Fixpoint forward_shards (layout : Layout) (shard_ids : list Z) (all_buffers_empty : bool) : SM bool :=
  match shard_ids with
  | [] => mret all_buffers_empty
  | shard_id :: shard_ids =>
      _ ← forward_from_buffer_to_shard shard_id layout;
      sink ← get_sink;
      len ← expect (queue_len (to_shard (outgoing_buffers sink) shard_id));
      forward_shards layout shard_ids (all_buffers_empty && (len =? 0))
  end.

(** First the buffers of the parents of split shards, then those of the current layout. *)
Definition forward_from_buffer (info : ReceiptSinkV2Info) : SM () :=
  let layout := shard_layout info in
  all_buffers_empty ← forward_shards layout (merge_sort Z.le (elements (parent_shard_ids info))) true;
  all_buffers_empty ← forward_shards layout (shard_ids layout) all_buffers_empty;
  sink ← get_sink;
  if (all_buffers_empty : bool) then
    if buffered_receipts_gas (own_congestion_info sink) =? 0 then mret () else panic
  else mret ().

(** ** Bandwidth requests *)

(** The metadata is complete when it counts every receipt of the buffer. *)
Definition complete_metadata (sink : ReceiptSinkV2) (shard len : Z) : option ReceiptGroupsQueue :=
  q ← metadatas (outgoing_metadatas sink) !! shard;
  if total_receipts_num (OutgoingMetadata.data q) =? len then Some q else None.

(** The sizes that the iterator yields; the outer option is a panic. *)
Definition get_receipt_group_sizes_for_buffer_to_shard (sink : ReceiptSinkV2) (shard : Z) (read : Read) : option (list (Error + Z)) :=
  len ← buffer_len (outgoing_buffers sink) shard;
  let len := default 0 len in
  if len =? 0 then Some []
  else
    match complete_metadata sink shard len with
    | Some q => mapM id (iter_receipt_group_sizes read q)
    | None => Some [inr (Bandwidth.max_receipt_size (scheduler_params sink))]
    end.

Definition cap_size (params : BandwidthSchedulerParams) (r : Error + Z) : Error + Z :=
  match r with inl e => inl e | inr size => inr (Z.min size (Bandwidth.max_receipt_size params)) end.

Definition generate_bandwidth_request (sink : ReceiptSinkV2) (shard : Z) (read : Read) (layout : Layout)
    : option (Error + option BandwidthRequest) :=
  sizes ← get_receipt_group_sizes_for_buffer_to_shard sink shard read;
  parent ← get_parent_shard_id layout shard;
  sizes ← match parent with
          | inr parent_shard_id =>
              parent_sizes ← get_receipt_group_sizes_for_buffer_to_shard sink parent_shard_id read;
              Some (parent_sizes ++ sizes)
          | inl _ => Some sizes
          end;
  make_from_receipt_sizes shard (cap_size (scheduler_params sink) <$> sizes) (scheduler_params sink).

Fixpoint requests_loop (sink : ReceiptSinkV2) (shard_ids : list Z) (read : Read) (layout : Layout) (requests : list BandwidthRequest)
    : option (Error + list BandwidthRequest) :=
  match shard_ids with
  | [] => Some (inr requests)
  | shard_id :: shard_ids =>
      r ← generate_bandwidth_request sink shard_id read layout;
      match r with
      | inl e => Some (inl e)
      | inr o => requests_loop sink shard_ids read layout (requests ++ option_list o)
      end
  end.

(** The requests, and the statistics with them. *)
Definition generate_bandwidth_requests (sink : ReceiptSinkV2) (own_shard : Z) (read : Read) (layout : Layout) (new_requests : gmap (Z * Z) (list Z))
    : option (Error + list BandwidthRequest * gmap (Z * Z) (list Z)) :=
  r ← requests_loop sink (shard_ids layout) read layout [];
  match r with
  | inl e => Some (inl e)
  | inr requests =>
      m ← add_requests_to_map requests own_shard (scheduler_params sink) new_requests;
      Some (inr (requests, m))
  end.

(** ** Start and end of a chunk *)

Fixpoint record_buffers (sink : ReceiptSinkV2) (shards : list Z) (t : ReceiptSinkStats) : option ReceiptSinkStats :=
  match shards with
  | [] => Some t
  | shard :: shards =>
      len ← queue_len (to_shard (outgoing_buffers sink) shard);
      record_buffers sink shards
        (if len =? 0 then record_buffer shard default_stats true t
         else match complete_metadata sink shard len with
              | Some q => record_buffer shard (mkReceiptsStats len (total_size (OutgoingMetadata.data q)) (total_gas (OutgoingMetadata.data q))) true t
              | None => record_buffer shard (mkReceiptsStats len 0 0) false t
              end)
  end.

Definition record_outgoing_buffer_stats (sink : ReceiptSinkV2) : option ReceiptSinkV2 :=
  t ← record_buffers sink (shards (outgoing_buffers sink)) (stats sink);
  let ready := forallb id (map_to_list (is_outgoing_metadata_ready t)).*2 in
  Some (set_stats (mkSinkStats (outgoing_limits t) (forwarded_receipts t) (buffered_receipts t) (final_outgoing_buffers t)
    (is_outgoing_metadata_ready t) ready) sink).

(** The statistics and the receipts that leave the chunk. *)
Definition finalize_stats_get_outgoing_receipts (sink : ReceiptSinkV2) : option (ReceiptSinkStats * list Rcpt) :=
  sink ← record_outgoing_buffer_stats sink;
  Some (stats sink, outgoing_receipts sink).

(** The limit for receipts from [own_shard] to a shard. *)
Definition limit_of (config : CongestionControlConfig) (granted : gmap (Z * Z) Z) (own_shard shard_id : Z) (congestion : ExtendedCongestionInfo)
    : option OutgoingLimit :=
  let other := new_congestion_control config (congestion_info congestion) (missed_chunks_count congestion) in
  gas_limit ← (if decide (shard_id = own_shard) then Some (umax 64) else outgoing_gas_limit other own_shard);
  Some (mkLimit gas_limit (default 0 (granted !! (own_shard, shard_id)))).

(** The map of limits, in the order of the shards. *)
Definition limits_of (config : CongestionControlConfig) (granted : gmap (Z * Z) Z) (own_shard : Z) (block : BlockCongestionInfo)
    : option (gmap Z OutgoingLimit) :=
  for_each (λ kv limits, l ← limit_of config granted own_shard kv.1 kv.2; Some (<[kv.1 := l]> limits)) (ShardLayout.entries block) ∅.

Definition new_sink_info (layout : Layout) : option ReceiptSinkV2Info :=
  parents ← get_split_parent_shard_ids layout;
  Some (mkSinkInfo layout parents).

(** [ReceiptSink::new]; the outcome of the scheduler is its grants and parameters. *)
Definition new_sink (read : Read) (config : CongestionControlConfig) (own_shard : Z) (block : BlockCongestionInfo)
    (prev_own_congestion_info : CongestionInfo) (granted : gmap (Z * Z) Z) (params : BandwidthSchedulerParams) (layout : Layout)
    : Res Error (ReceiptSinkV2 * ReceiptSinkV2Info) :=
  buffers ← load_buffers read;
  limits ← res_expect (limits_of config granted own_shard block);
  metadatas ← load_metadatas read (shards buffers) OutgoingMetadata.default_config;
  info ← res_expect (new_sink_info layout);
  mret (mkSink prev_own_congestion_info [] limits buffers metadatas params (set_outgoing_limits limits default_sink_stats), info).
End sink.
