(* ===== verification/MailSink.v ===== *)
(** The receipt sink keeps to its own columns of the state: sending a receipt on, or adding it to a buffer, leaves alone the data and the receipts that wait
    for each other. *)

From S2P Require Import Prelude Errors Borsh Costs TrieKey Fees Receipt TrieQueue ReceiptQueues OutgoingMetadata CongestionInfo ShardLayout ReceiptSink RuntimeStore ActionsCorrect ExecutionFrame.
Local Open Scope Z_scope.

Section moves.
Context {AccountId StorageError U : Type} `{RStore : RuntimeStore AccountId StorageError U}.
Context (key_ok : TrieKey AccountId → Prop) (st_view : U → TrieKey AccountId → option (list Z)) (st_trie_view : U → Base (TrieKey AccountId)).
Context `{!ContainsKeyOk key_ok st_view st_trie_view}.
Abbreviation same := (mail_same key_ok st_view st_trie_view).

(** A step on a component and the state that leaves the mail as it is. *)
Definition moves {S E A} (m : M (S * U) E A) : Prop := ∀ t, ensures m t (λ _ t', same t.2 t'.2).

Lemma moves_ret {S E A} (a : A) : moves (mret a : M (S * U) E A).
Proof. intros t. apply mail_same_refl. Qed.
Lemma moves_bind {S E A B} (m : M (S * U) E A) (f : A → M (S * U) E B) : moves m → (∀ a, moves (f a)) → moves (m ≫= f).
Proof. intros Hm Hf t. eapply ensures_bind; [apply Hm|]. intros a t1 F1. eapply ensures_mono; [apply Hf|]. intros b t2 F2. eapply mail_same_trans; [exact F1|exact F2]. Qed.
Lemma moves_expect {S E A} (o : option A) : moves (expect o : M (S * U) E A).
Proof. intros t. unfold ensures, expect. destruct o; [apply mail_same_refl|done]. Qed.
Lemma moves_run_res {S E E' A} (conv : E → E') (r : Res E A) : moves (run_res conv r : M (S * U) E' A).
Proof. intros t. unfold ensures, run_res. destruct r; [apply mail_same_refl|done..]. Qed.
Lemma moves_throw {S E A} e : moves (throw e : M (S * U) E A).
Proof. by intros t. Qed.
Lemma moves_panic {S E A} : moves (panic : M (S * U) E A).
Proof. by intros t. Qed.
Lemma moves_expect_ok {S E E' A} (m : M (S * U) E A) : moves m → moves (expect_ok m : M (S * U) E' A).
Proof. intros Hm t. specialize (Hm t). unfold ensures, expect_ok in *. by destruct (m t). Qed.
Lemma moves_zoom {S T E A} part update (m : M (T * U) E A) : (∀ s : S * U, (part s).2 = s.2) → (∀ t (s : S * U), (update t s).2 = t.2) → moves m → moves (zoom part update m).
Proof. intros Hp Hu Hm s. apply ensures_zoom. eapply ensures_mono; [apply Hm|]. intros a t F. by rewrite Hu, <-(Hp s). Qed.
Lemma moves_zoom_part {S T E A} part update (m : M T E A) : (∀ t (s : S * U), (update t s).2 = s.2) → moves (zoom part update m : M (S * U) E A).
Proof. intros Hu s. apply ensures_zoom, ensures_intro. intros a t _. rewrite Hu. apply mail_same_refl. Qed.

(** ** Queues *)

(** A queue with columns of its own. *)
Class QuietQueue (Q : Type) `{!TrieQueue (TrieKey AccountId) U Q} : Prop := {
  qq_key (q : Q) i (k : TrieKey AccountId) : mail_key k → column_of (trie_key q i) ≠ column_of k;
  qq_write (q : Q) u u' : write_indices q u = Some u' → same u u'
}.

Section queue.
Context {Q Item : Type} `{!TrieQueue (TrieKey AccountId) U Q} `{!QuietQueue Q} `{!Borsh Item}.
Abbreviation QM := (M (Q * U) (RuntimeError StorageError)).

Lemma moves_get_queue : moves (get_queue : QM Q).
Proof. intros t. apply mail_same_refl. Qed.
Lemma moves_update f : (∀ u u', f u = Some u' → same u u') → moves (update_state f : QM ()).
Proof. intros Hf [q u]. unfold ensures, update_state. cbn. destruct (f u) as [u'|] eqn:E; [by apply Hf|done]. Qed.
Lemma moves_store_indices i : moves (store_indices i : QM ()).
Proof. unfold store_indices. apply moves_bind; [apply moves_get_queue|]. intros q. apply moves_bind; [intros t; apply mail_same_refl|]. intros []. apply moves_update. intros u u'. apply qq_write. Qed.
Lemma moves_take_item k : moves (take_item k : QM Item).
Proof.
  unfold take_item. apply moves_bind; [|intros [item|]; [apply moves_ret|apply moves_throw]]. intros [q u]. unfold ensures, get_item. destruct (st_get _ _) as [r|]; [|done]. destruct (decode_item r); [done|apply mail_same_refl].
Qed.

Lemma moves_push_back (item : Item) : moves (push_back item : QM ()).
Proof.
  unfold push_back. apply moves_bind; [apply moves_get_queue|]. intros q. apply moves_bind.
  - apply moves_update. intros u u'. apply (mail_same_set key_ok st_view st_trie_view). intros k. apply qq_key.
  - intros []. destruct (checked_add _ _ _); [apply moves_store_indices|apply moves_throw].
Qed.

Lemma moves_pop_back : moves (pop_back : QM (option Item)).
Proof.
  unfold pop_back. apply moves_bind; [apply moves_get_queue|]. intros q. cbv zeta. destruct (_ <=? _); [apply moves_ret|]. apply moves_bind; [apply moves_expect|]. intros i.
  apply moves_bind; [apply moves_take_item|]. intros item. apply moves_bind; [|intros []; apply moves_bind; [apply moves_store_indices|intros []; apply moves_ret]].
  apply moves_update. intros u u'. apply (mail_same_remove key_ok st_view st_trie_view). intros k. apply qq_key.
Qed.
End queue.
End moves.

Create HintDb moves.
#[export] Hint Resolve moves_ret moves_expect moves_run_res moves_throw moves_panic moves_get_queue moves_push_back moves_pop_back : moves.

Ltac stay :=
  repeat (intros; first
    [ solve [eauto 3 with moves typeclass_instances]
    | match goal with
      | |- moves _ _ _ (_ ≫= _) => apply moves_bind
      | |- moves _ _ _ (let _ := _ in _) => cbv zeta
      | |- moves _ _ _ (if ?b then _ else _) => destruct b
      | |- moves _ _ _ (match ?x with _ => _ end) => destruct x
      end ]); intros.

Section sink.
Context {AccountId StorageError U : Type} `{!EqDecision AccountId} `{Store : !StateStore (TrieKey AccountId) StorageError U} `{RStore : !RuntimeStore AccountId StorageError U}.
Context `{!Borsh AccountId} `{!Borsh (ReceiptEnum AccountId)} `{!Borsh TrieQueueIndices} `{!Borsh (gmap Z TrieQueueIndices)} `{!Borsh ReceiptGroupsQueueData} `{!Borsh ReceiptGroup}.
Context (as_bytes : AccountId → bytes) (get_account_type : AccountId → AccountType).
Context (account_le : relation AccountId) `{!RelDecision account_le} (hash_bytes : AccountId → list Z).
Context (fees : RuntimeFeesConfig) (wasm_config : VmConfig) (use_state_stored_receipt : bool).
Context (key_ok : TrieKey AccountId → Prop) (st_view : U → TrieKey AccountId → option (list Z)) (st_trie_view : U → Base (TrieKey AccountId)).
Context `{!ContainsKeyOk key_ok st_view st_trie_view}.
Abbreviation moves := (moves key_ok st_view st_trie_view).

#[export] Instance quiet_buffers : QuietQueue key_ok st_view st_trie_view OutgoingReceiptBuffer.
Proof. split; [intros q i k Hk; by destruct k|]. intros q u u'. apply (mail_same_set key_ok st_view st_trie_view). intros k Hk. by destruct k. Qed.
#[export] Instance quiet_groups : QuietQueue key_ok st_view st_trie_view ReceiptGroupsQueue.
Proof. split; [intros q i k Hk; by destruct k|]. intros q u u'. apply (mail_same_set key_ok st_view st_trie_view). intros k Hk. by destruct k. Qed.

Lemma moves_groups_pushed size gas c : moves (groups_pushed size gas c).
Proof.
  unfold groups_pushed. stay; [by intros []; apply mail_same_refl|..]; apply moves_expect_ok; stay.
Qed.

Abbreviation Sink := (ReceiptSinkV2 (AccountId := AccountId)).

Lemma moves_get_sink : moves (get_sink : M (Sink * U) (RuntimeError StorageError) Sink).
Proof. intros t. apply mail_same_refl. Qed.
Lemma moves_modify_sink f : moves (modify_sink f : M (Sink * U) (RuntimeError StorageError) ()).
Proof. intros t. apply mail_same_refl. Qed.
#[local] Hint Resolve moves_get_sink moves_modify_sink moves_groups_pushed : moves.

Lemma moves_metadatas shard size gas : moves (on_metadatas (update_on_receipt_pushed shard size gas) : M (Sink * U) (RuntimeError StorageError) ()).
Proof.
  apply moves_zoom; [done..|]. unfold update_on_receipt_pushed. apply moves_bind; [intros t; apply mail_same_refl|]. intros t. apply moves_zoom; [done..|]. apply moves_groups_pushed.
Qed.

#[export] Instance sink_quiet info : SinkFrame key_ok st_view st_trie_view (forward_or_buffer_receipt as_bytes get_account_type account_le hash_bytes fees wasm_config use_state_stored_receipt info).
Proof.
  intros r. match goal with |- ∀ t, ensures ?m t _ => change (moves m) end. unfold forward_or_buffer_receipt, try_forward, buffer_receipt. stay; try by apply moves_zoom_part.
  - apply moves_metadatas.
  - apply moves_zoom; [done..|]. apply moves_push_back; apply _.
Qed.
End sink.
