(* ===== verification/DelayedReceipts.v ===== *)
(** The queue of delayed receipts with its accounting, and the congestion info that is computed from the state
    (runtime/runtime/src/congestion_control.rs, [DelayedReceiptQueueWrapper] and
    [bootstrap_congestion_info]). *)

From S2P Require Import Prelude Errors Borsh Costs TrieKey ShardLayout Fees Receipt TrieQueue ReceiptQueues CongestionInfo.
Local Open Scope Z_scope.

Section wrapper.
Context {AccountId StorageError U : Type} `{!EqDecision AccountId} `{!StateStore (TrieKey AccountId) StorageError U}.
Context `{!Borsh AccountId} `{!Borsh (ReceiptEnum AccountId)} `{!Borsh TrieQueueIndices} `{!Borsh (gmap Z TrieQueueIndices)}.
Context (as_bytes : AccountId → bytes) (get_account_type : AccountId → AccountType).
Context (account_le : relation AccountId) `{!RelDecision account_le} (hash_bytes : AccountId → list Z).
Context (fees : RuntimeFeesConfig) (wasm_config : VmConfig) (use_state_stored_receipt : bool).

(** [check_proof_size_limit_exceed] of the trie below, which counts what was read. *)
Context (proof_limit_exceeded : U → bool).

Abbreviation Rcpt := (Receipt AccountId).
Abbreviation Item := (ReceiptOrStateStoredReceipt AccountId).
Abbreviation Error := (RuntimeError StorageError).
Abbreviation Read := (TrieKey AccountId → option (StorageError + option (list Z))).

Abbreviation compute_gas := (compute_receipt_congestion_gas as_bytes get_account_type fees wasm_config).
Abbreviation item_gas := (receipt_congestion_gas as_bytes get_account_type fees wasm_config).
Abbreviation target_of := (receiver_shard_id account_le hash_bytes).

(** The layout stands for the epoch and the provider of its information. *)
Record DelayedReceiptQueueWrapper : Type := mkWrapper {
  queue : DelayedReceiptQueue;
  layout : ShardLayout (AccountId := AccountId);
  own_shard : Z;
  new_delayed_gas : Z;
  new_delayed_bytes : Z;
  removed_delayed_gas : Z;
  removed_delayed_bytes : Z
}.

Definition new_wrapper (q : DelayedReceiptQueue) (l : ShardLayout (AccountId := AccountId)) (shard : Z) : DelayedReceiptQueueWrapper :=
  mkWrapper q l shard 0 0 0 0.

Definition set_queue (q : DelayedReceiptQueue) (w : DelayedReceiptQueueWrapper) : DelayedReceiptQueueWrapper :=
  mkWrapper q (layout w) (own_shard w) (new_delayed_gas w) (new_delayed_bytes w) (removed_delayed_gas w) (removed_delayed_bytes w).
Definition set_new (gas size : Z) (w : DelayedReceiptQueueWrapper) : DelayedReceiptQueueWrapper :=
  mkWrapper (queue w) (layout w) (own_shard w) gas size (removed_delayed_gas w) (removed_delayed_bytes w).
Definition set_removed (gas size : Z) (w : DelayedReceiptQueueWrapper) : DelayedReceiptQueueWrapper :=
  mkWrapper (queue w) (layout w) (own_shard w) (new_delayed_gas w) (new_delayed_bytes w) gas size.

Abbreviation WM := (M (DelayedReceiptQueueWrapper * U) Error).

Definition get_wrapper : WM DelayedReceiptQueueWrapper := λ s, Ok s.1 s.
Definition modify_wrapper (f : DelayedReceiptQueueWrapper → DelayedReceiptQueueWrapper) : WM () := λ s, Ok () (f s.1, s.2).
Definition on_queue {A} (m : M (DelayedReceiptQueue * U) Error A) : WM A :=
  zoom (λ s, (queue s.1, s.2)) (λ t s, (set_queue t.1 s.1, t.2)) m.

Definition delayed_item (receipt : Rcpt) (gas size : Z) : Item :=
  if use_state_stored_receipt then StoredReceipt (new_owned receipt (mkMetadata gas size)) else PlainReceipt receipt.

Definition push (receipt : Rcpt) : WM () :=
  gas ← run_res from_overflow (compute_gas receipt);
  size ← run_res from_overflow (compute_receipt_size receipt);
  w ← get_wrapper;
  new_gas ← run_res from_overflow (safe_add_gas (new_delayed_gas w) gas);
  _ ← modify_wrapper (set_new new_gas (new_delayed_bytes w));
  new_bytes ← run_res from_overflow (safe_add_gas (new_delayed_bytes w) size);
  _ ← modify_wrapper (set_new new_gas new_bytes);
  on_queue (push_back (delayed_item receipt gas size)).

(** Receipts of the sibling shard are left over from a split; [None] is the panic of an [unwrap]. *)
Definition receipt_filter_fn (w : DelayedReceiptQueueWrapper) (item : Item) : option bool :=
  match target_of (into_receipt item) (layout w) with
  | ROk receipt_shard_id => Some (receipt_shard_id =? own_shard w)
  | RErr _ | RPanic => None
  end.

(** One receipt leaves the queue, and its gas and size are counted. *)
Definition remove_counted (item : Item) : WM () :=
  delayed_gas ← run_res from_overflow (item_gas item);
  delayed_bytes ← run_res from_overflow (receipt_size item);
  w ← get_wrapper;
  gas ← run_res from_overflow (safe_add_gas (removed_delayed_gas w) delayed_gas);
  _ ← modify_wrapper (set_removed gas (removed_delayed_bytes w));
  bytes ← run_res from_overflow (safe_add_gas (removed_delayed_bytes w) delayed_bytes);
  modify_wrapper (set_removed gas bytes).

Fixpoint pop_loop (fuel : nat) : WM (option Item) :=
  match fuel with
  | O => out_of_fuel
  | S fuel =>
      s ← get_state;
      if proof_limit_exceeded s.2 then mret None
      else
        popped ← on_queue pop_front;
        match popped with
        | None => mret None
        | Some item =>
            _ ← remove_counted item;
            w ← get_wrapper;
            keep ← expect (receipt_filter_fn w item);
            if (keep : bool) then mret (Some item) else pop_loop fuel
        end
  end.

(** Every round takes a receipt from the queue, so the length of the queue bounds the number of rounds. *)
Definition pop : WM (option Item) :=
  w ← get_wrapper;
  let i := delayed_indices (queue w) in
  pop_loop (S (Z.to_nat (next_available_index i - first_index i))).

(** What the iterator yields: it ends at the first error. *)
Fixpoint peek_loop (w : DelayedReceiptQueueWrapper) (items : list (option (Error + Item))) : option (list Item) :=
  match items with
  | [] => Some []
  | o :: items =>
      r ← o;
      match r with
      | inl _ => Some []
      | inr item =>
          keep ← receipt_filter_fn w item;
          rest ← peek_loop w items;
          Some (if (keep : bool) then item :: rest else rest)
      end
  end.

Definition peek_iter (w : DelayedReceiptQueueWrapper) (u : U) : option (list Item) := peek_loop w (queue_iter (st_get u) (queue w)).

Definition upper_bound_len (w : DelayedReceiptQueueWrapper) : option Z := queue_len (queue w).

Definition apply_congestion_changes (w : DelayedReceiptQueueWrapper) : M CongestionInfo Error () :=
  _ ← add_delayed_receipt_gas (new_delayed_gas w);
  _ ← remove_delayed_receipt_gas (removed_delayed_gas w);
  _ ← add_receipt_bytes (new_delayed_bytes w);
  remove_receipt_bytes (removed_delayed_bytes w).

(** * Congestion info from the state *)

Abbreviation SR := (Res StorageError).

(** [int_overflow_to_storage_err], [overflow_storage_err] *)
Definition map_overflow {A} (r : Res IntegerOverflowError A) : SR A :=
  match r with ROk a => ROk a | RErr _ => RErr st_inconsistent | RPanic => RPanic end.

Definition safe_add_gas_to_u128 (a b : Z) : Res IntegerOverflowError Z := ok_or (checked_add 128 a b) IntegerOverflow.

(** The errors of reading are errors of the storage. *)
Definition storage_result {A} (r : Res Error A) : SR A :=
  match r with
  | ROk a => ROk a
  | RErr (RtStorageError e) => RErr e
  | RErr _ => RErr st_inconsistent
  | RPanic => RPanic
  end.

(** The sums of gas and of bytes over the items of a queue. *)
Fixpoint bootstrap_loop (items : list (option (Error + Item))) (gas_sum bytes_sum : Z) : SR (Z * Z) :=
  match items with
  | [] => mret (gas_sum, bytes_sum)
  | o :: items =>
      r ← (res_expect o : SR (Error + Item));
      item ← storage_result (match r with inl e => RErr e | inr item => ROk item end);
      gas ← map_overflow (item_gas item);
      gas_sum ← map_overflow (safe_add_gas_to_u128 gas_sum gas);
      memory ← map_overflow (receipt_size item);
      bytes_sum ← ok_or (checked_add 64 bytes_sum memory) st_inconsistent;
      bootstrap_loop items gas_sum bytes_sum
  end.

Fixpoint bootstrap_buffers (read : Read) (buffers : ShardsOutgoingReceiptBuffer) (shard_ids : list Z) (gas_sum bytes_sum : Z) : SR (Z * Z) :=
  match shard_ids with
  | [] => mret (gas_sum, bytes_sum)
  | shard :: shard_ids =>
      '(gas_sum, bytes_sum) ← bootstrap_loop (queue_iter read (to_shard buffers shard)) gas_sum bytes_sum;
      bootstrap_buffers read buffers shard_ids gas_sum bytes_sum
  end.

Definition bootstrap_congestion_info (read : Read) (shard_id : Z) : SR CongestionInfo :=
  delayed ← storage_result (load_delayed read);
  '(delayed_gas, bytes) ← bootstrap_loop (queue_iter read delayed) 0 0;
  buffers ← storage_result (load_buffers read);
  '(buffered_gas, bytes) ← bootstrap_buffers read buffers (shards buffers) 0 bytes;
  mret (mkCongestionInfo delayed_gas buffered_gas bytes (shard_id_to_u16 shard_id)).
End wrapper.
