(* ===== verification/ReceiptSinkCorrect.v ===== *)
(** Correctness of the sink of outgoing receipts: no receipt is lost, the limits are kept, and the congestion info
    counts exactly the receipts in the buffers. *)

From stdpp Require Import functions sorting.
From S2P Require Import Prelude Errors Borsh Costs TrieKey ShardLayout Bandwidth Fees Receipt TrieQueue ReceiptQueues OutgoingMetadata CongestionInfo ReceiptSink.
Local Open Scope Z_scope.

(** * Methods on parts of the state *)

Section parts.
Context {AccountId StorageError U : Type} `{!StateStore (TrieKey AccountId) StorageError U}.
Abbreviation Error := (RuntimeError StorageError).
Abbreviation Sink := (ReceiptSinkV2 (AccountId := AccountId)).

Lemma update_field_ok put op i x : op i = Some x → (update_field put op : M CongestionInfo Error ()) i = Ok () (put x i).
Proof. intros H. unfold update_field. by rewrite H. Qed.

Lemma add_bytes_ok bytes i : receipt_bytes i + bytes <= umax 64 →
  (add_receipt_bytes bytes : M CongestionInfo Error ()) i = Ok () (put_receipt_bytes (receipt_bytes i + bytes) i).
Proof. intros H. unfold add_receipt_bytes, update_field. by rewrite checked_add_ok. Qed.

Lemma remove_bytes_ok bytes i : bytes <= receipt_bytes i →
  (remove_receipt_bytes bytes : M CongestionInfo Error ()) i = Ok () (put_receipt_bytes (receipt_bytes i - bytes) i).
Proof. intros H. unfold remove_receipt_bytes, update_field. by rewrite checked_sub_ok. Qed.

Lemma add_buffered_ok gas i : buffered_receipts_gas i + gas <= umax 128 →
  (add_buffered_receipt_gas gas : M CongestionInfo Error ()) i = Ok () (put_buffered_gas (buffered_receipts_gas i + gas) i).
Proof. intros H. unfold add_buffered_receipt_gas, update_field. by rewrite checked_add_ok. Qed.

Lemma remove_buffered_ok gas i : gas <= buffered_receipts_gas i →
  (remove_buffered_receipt_gas gas : M CongestionInfo Error ()) i = Ok () (put_buffered_gas (buffered_receipts_gas i - gas) i).
Proof. intros H. unfold remove_buffered_receipt_gas, update_field. by rewrite checked_sub_ok. Qed.

Lemma on_info_ok {A} (m : M CongestionInfo Error A) (sink : Sink) (u : U) a i :
  m (own_congestion_info sink) = Ok a i → on_info m (sink, u) = Ok a (set_info i sink, u).
Proof. intros H. unfold on_info. by apply (zoom_Ok (λ s : Sink * U, own_congestion_info s.1) (λ i s, (set_info i s.1, s.2))). Qed.

Lemma on_buffer_ok {A} shard (m : M (OutgoingReceiptBuffer * U) Error A) (sink : Sink) (u u' : U) a q :
  m (to_shard (outgoing_buffers sink) shard, u) = Ok a (q, u') → on_buffer shard m (sink, u) = Ok a (set_buffers (parent q) sink, u').
Proof.
  intros H. unfold on_buffer.
  by apply (zoom_Ok (λ s : Sink * U, (to_shard (outgoing_buffers s.1) shard, s.2)) (λ t s, (set_buffers (parent t.1) s.1, t.2)) m (sink, u) a (q, u')).
Qed.

Lemma on_metadatas_ok {A} (m : M (OutgoingMetadatas * U) Error A) (sink : Sink) (u u' : U) a t :
  m (outgoing_metadatas sink, u) = Ok a (t, u') → on_metadatas m (sink, u) = Ok a (set_metadatas t sink, u').
Proof.
  intros H. unfold on_metadatas.
  by apply (zoom_Ok (λ s : Sink * U, (outgoing_metadatas s.1, s.2)) (λ t s, (set_metadatas t.1 s.1, t.2)) m (sink, u) a (t, u')).
Qed.
End parts.

(** * Statistics *)

(** There is room for [n] more receipts of total size [z] and gas [g]. *)
Definition stats_room (st : ReceiptsStats) (n z g : Z) : Prop :=
  num st + n <= umax 64 ∧ stats_size st + z <= umax 64 ∧ stats_gas st + g <= umax 128.

Definition counted_stats (st : ReceiptsStats) (size gas : Z) : ReceiptsStats := mkReceiptsStats (num st + 1) (stats_size st + size) (stats_gas st + gas).

Lemma add_receipt_ok st size gas n z g : stats_room st n z g → 1 <= n → size <= z → gas <= g →
  add_receipt size gas st = Some (counted_stats st size gas) ∧ stats_room (counted_stats st size gas) (n - 1) (z - size) (g - gas).
Proof.
  intros (H1 & H2 & H3) Hn Hz Hg. split; [|unfold stats_room, counted_stats; cbn; lia].
  unfold add_receipt. rewrite (checked_add_ok 64 (num st)) by lia. cbn [mbind option_bind]. rewrite (checked_add_ok 64 (stats_size st)) by lia.
  cbn [mbind option_bind]. by rewrite (checked_add_ok 128 (stats_gas st)) by lia.
Qed.

Lemma stats_room_mono st n z g n' z' g' : stats_room st n z g → n' <= n → z' <= z → g' <= g → stats_room st n' z' g'.
Proof. unfold stats_room. lia. Qed.

(** * The content of the buffers *)

(** What the indices of the buffers must satisfy to be stored. *)
Definition indices_map_ok (m : gmap Z TrieQueueIndices) : Prop :=
  ∀ shard i, m !! shard = Some i → in_u 16 shard ∧ in_u 64 (first_index i) ∧ in_u 64 (next_available_index i).

Section rep.
Context {AccountId StorageError U : Type} `{!EqDecision AccountId} `{!StateStore (TrieKey AccountId) StorageError U}.
Context `{!Borsh AccountId} `{!Borsh (ReceiptEnum AccountId)} `{!Borsh TrieQueueIndices} `{!Borsh (gmap Z TrieQueueIndices)}.
Context `{!Borsh ReceiptGroupsQueueData} `{!Borsh ReceiptGroup}.
Context (as_bytes : AccountId → bytes) (get_account_type : AccountId → AccountType).
Context (account_le : relation AccountId) `{!RelDecision account_le} (hash_bytes : AccountId → list Z).
Context (fees : RuntimeFeesConfig) (wasm_config : VmConfig) (use_state_stored_receipt : bool).
Context (key_ok : TrieKey AccountId → Prop) (st_view : U → TrieKey AccountId → option (list Z)) (st_trie_view : U → Base (TrieKey AccountId)).
Context `{!StateStoreOk (TrieKey AccountId) StorageError U key_ok st_view st_trie_view} `{!QueueKeys key_ok}.
Context (enum_ok : ReceiptEnum AccountId → Prop) `{!AccountIdBorsh as_bytes} `{!BorshOk (ReceiptEnum AccountId) enum_ok}.
Context `{!BorshOk ReceiptGroup group_ok}.
Context `{!BorshOk (gmap Z TrieQueueIndices) indices_map_ok}.

Abbreviation Rcpt := (Receipt AccountId).
Abbreviation Item := (ReceiptOrStateStoredReceipt AccountId).
Abbreviation Layout := (ShardLayout (AccountId := AccountId)).
Abbreviation Error := (RuntimeError StorageError).
Abbreviation Sink := (ReceiptSinkV2 (AccountId := AccountId)).
Abbreviation item_ok := (stored_ok enum_ok).
Abbreviation item_gas := (receipt_congestion_gas as_bytes get_account_type fees wasm_config).
Abbreviation target_of := (receiver_shard_id account_le hash_bytes).
Abbreviation buffer_wf := (λ b, in_u 16 (buffer_shard_id b)).
Abbreviation buffer_rep := (TrieQueue.queue_rep st_view item_ok buffer_wf).
Abbreviation groups_rep := (OutgoingMetadata.groups_rep st_view).

(** Size and gas of a stored receipt. *)
Definition size_of (item : Item) : Z := match receipt_size item with ROk size => size | _ => 0 end.
Definition gas_of (item : Item) : Z := match item_gas item with ROk gas => gas | _ => 0 end.
Definition entry (item : Item) : Z * Z := (size_of item, gas_of item).

(** A receipt with the size and the gas that the sink counts for it. *)
Definition measured (item : Item) : Rcpt * (Z * Z) := (into_receipt item, entry item).

(** The entries that the metadata counts. *)
Definition tracked (l : list Item) : list (Z * Z) := entry <$> filter (λ i, should_update_outgoing_metadatas i = true) l.

(** The shards that buffers may be for. *)
Context (S : gset Z) (S_ok : ∀ shard, shard ∈ S → in_u 16 shard).

(** Items whose size and gas can be computed and which have a receiving shard in the layout. *)
Record item_fine (layout : Layout) (item : Item) : Prop := {
  fine_ok : item_ok item;
  fine_size : receipt_size item = ROk (size_of item);
  fine_gas : item_gas item = ROk (gas_of item);
  fine_size_pos : 0 < size_of item <= umax 64;
  fine_gas_pos : 0 <= gas_of item <= umax 64;
  fine_target : ∃ t, t ∈ S ∧ target_of (into_receipt item) layout = ROk t
}.

Lemma fine_entry layout item : item_fine layout item → entry_ok (entry item).
Proof. intros [_ _ _ Hs Hg _]. split; cbn; lia. Qed.

Lemma fine_entries layout l : Forall (item_fine layout) l → Forall entry_ok (entry <$> l).
Proof. intros Hl. apply Forall_fmap. eapply Forall_impl; [exact Hl|]. apply fine_entry. Qed.

(** A new receipt has the same size and gas when it is stored. *)
Lemma stored_item_entry (r : Rcpt) : entry (stored_item use_state_stored_receipt r (size_of (PlainReceipt r)) (gas_of (PlainReceipt r))) = entry (PlainReceipt r).
Proof. unfold stored_item. by destruct use_state_stored_receipt. Qed.

Lemma stored_item_fine layout r : item_fine layout (PlainReceipt r) →
  item_fine layout (stored_item use_state_stored_receipt r (size_of (PlainReceipt r)) (gas_of (PlainReceipt r))).
Proof.
  intros Hr. unfold stored_item. destruct use_state_stored_receipt; [|done]. destruct Hr as [Ho Hs Hg Hsp Hgp Ht].
  split; [|done..|exact Ht]. split; [exact Ho|]. unfold metadata_ok, in_u. cbn. lia.
Qed.

Lemma into_stored_item (r : Rcpt) size gas : into_receipt (stored_item use_state_stored_receipt r size gas) = r.
Proof. unfold stored_item. by destruct use_state_stored_receipt. Qed.

Lemma measured_stored_item (r : Rcpt) :
  measured (stored_item use_state_stored_receipt r (size_of (PlainReceipt r)) (gas_of (PlainReceipt r))) = measured (PlainReceipt r).
Proof. unfold measured. by rewrite into_stored_item, stored_item_entry. Qed.

Lemma sizes_entries_cons item l : sizes (entry <$> item :: l) = size_of item + sizes (entry <$> l).
Proof. rewrite fmap_cons. apply sizes_cons. Qed.
Lemma gases_entries_cons item l : gases (entry <$> item :: l) = gas_of item + gases (entry <$> l).
Proof. rewrite fmap_cons. apply gases_cons. Qed.

(** Sums over the entries of a buffer. *)
Lemma tracked_le layout l : Forall (item_fine layout) l → sizes (tracked l) <= sizes (entry <$> l) ∧ gases (tracked l) <= gases (entry <$> l) ∧
  (length (tracked l) <= length l)%nat.
Proof.
  unfold tracked. induction 1 as [|item l Hi Hl IH]; [done|]. pose proof (fine_entry _ _ Hi) as [? ?]. rewrite filter_cons. case_decide.
  all: rewrite !fmap_cons, ?sizes_cons, ?gases_cons; cbn [length] in *; rewrite ?fmap_cons, ?sizes_cons, ?gases_cons; cbn [length]; lia.
Qed.

Lemma tracked_app l k : tracked (l ++ k) = tracked l ++ tracked k.
Proof. unfold tracked. by rewrite filter_app, fmap_app. Qed.

(** ** All buffers *)

Definition all_sizes (bufs : Z → list Item) : Z := sum_over (λ shard, sizes (entry <$> bufs shard)) S.
Definition all_gases (bufs : Z → list Item) : Z := sum_over (λ shard, gases (entry <$> bufs shard)) S.
Definition all_count (bufs : Z → list Item) : Z := sum_over (λ shard, Z.of_nat (length (bufs shard))) S.
Definition all_items (bufs : Z → list Item) : list Item := concat (bufs <$> elements S).

Lemma all_sizes_update bufs shard l : shard ∈ S → all_sizes (<[shard := l]> bufs) = all_sizes bufs - sizes (entry <$> bufs shard) + sizes (entry <$> l).
Proof.
  intros Hs. unfold all_sizes. rewrite (sum_over_update (λ shard, sizes (entry <$> bufs shard)) _ S shard) by (done || intros b Hb; by rewrite fn_lookup_insert_ne).
  by rewrite fn_lookup_insert.
Qed.

Lemma all_gases_update bufs shard l : shard ∈ S → all_gases (<[shard := l]> bufs) = all_gases bufs - gases (entry <$> bufs shard) + gases (entry <$> l).
Proof.
  intros Hs. unfold all_gases. rewrite (sum_over_update (λ shard, gases (entry <$> bufs shard)) _ S shard) by (done || intros b Hb; by rewrite fn_lookup_insert_ne).
  by rewrite fn_lookup_insert.
Qed.

Lemma all_count_update bufs shard l : shard ∈ S → all_count (<[shard := l]> bufs) = all_count bufs - Z.of_nat (length (bufs shard)) + Z.of_nat (length l).
Proof.
  intros Hs. unfold all_count. rewrite (sum_over_update (λ shard, Z.of_nat (length (bufs shard))) _ S shard) by (done || intros b Hb; by rewrite fn_lookup_insert_ne).
  by rewrite fn_lookup_insert.
Qed.

Lemma all_items_split bufs shard : shard ∈ S → ∃ rest, ∀ l, all_items (<[shard := l]> bufs) ≡ₚ l ++ rest.
Proof.
  intros Hs. exists (concat (bufs <$> elements (S ∖ {[shard]}))). intros l. unfold all_items.
  assert (elements S ≡ₚ shard :: elements (S ∖ {[shard]})) as ->.
  { rewrite (union_difference_singleton_L shard S) at 1 by done. by rewrite elements_union_singleton by set_solver. }
  rewrite fmap_cons. cbn [concat]. rewrite fn_lookup_insert. apply Permutation_app_head.
  replace (<[shard := l]> bufs <$> elements (S ∖ {[shard]})) with (bufs <$> elements (S ∖ {[shard]})); [done|].
  apply list_fmap_ext. intros i x Hx. apply list_elem_of_lookup_2, elem_of_elements in Hx. rewrite fn_lookup_insert_ne; [done|]. set_solver.
Qed.

Lemma fn_insert_id (bufs : Z → list Item) shard : ∀ x, <[shard := bufs shard]> bufs x = bufs x.
Proof. intros x. destruct (decide (shard = x)) as [->|Hne]; [by rewrite fn_lookup_insert|by rewrite fn_lookup_insert_ne]. Qed.

Lemma all_items_update bufs shard l : shard ∈ S → ∃ rest, all_items bufs ≡ₚ bufs shard ++ rest ∧ all_items (<[shard := l]> bufs) ≡ₚ l ++ rest.
Proof.
  intros Hs. destruct (all_items_split bufs shard Hs) as [rest Hr]. exists rest. split; [|apply Hr]. rewrite <-Hr.
  replace (all_items (<[shard := bufs shard]> bufs)) with (all_items bufs); [done|]. unfold all_items. f_equal. apply list_fmap_ext. intros i x _. by rewrite fn_insert_id.
Qed.

(** ** The representation *)

(** The metadata of a buffer counts the entries [l], and its data is in the state. *)
Definition meta_rep (u : U) (shard : Z) (o : option ReceiptGroupsQueue) (l : list (Z * Z)) : Prop :=
  match o with
  | None => l = []
  | Some q => receiver_shard q = shard ∧ ∃ groups, groups_rep q u groups ∧ concat groups = l
  end ∧ st_view u (BufferedReceiptGroupsQueueData shard) = (λ q, borsh_encode (OutgoingMetadata.data q)) <$> o.

(** The indices of the buffers are in the state. *)
Definition buffers_stored (u : U) (b : ShardsOutgoingReceiptBuffer) : Prop :=
  st_view u BufferedReceiptIndices = Some (borsh_encode (shards_indices b)) ∨ st_view u BufferedReceiptIndices = None ∧ shards_indices b = ∅.

(** Keys that the sink does not use, and changes that keep them. *)
Definition foreign_to_sink (k : TrieKey AccountId) : Prop :=
  key_ok k ∧ match k with
             | BufferedReceiptIndices | BufferedReceipt _ _ | BufferedReceiptGroupsQueueData _ | BufferedReceiptGroupsQueueItem _ _ => False
             | _ => True
             end.

Record sink_frame (u u' : U) : Prop := {
  sf_view : ∀ k, foreign_to_sink k → st_view u' k = st_view u k;
  sf_trie : st_trie_view u' = st_trie_view u
}.

Lemma sink_frame_refl u : sink_frame u u.
Proof. done. Qed.

Lemma sink_frame_trans u1 u2 u3 : sink_frame u1 u2 → sink_frame u2 u3 → sink_frame u1 u3.
Proof. intros [V1 T1] [V2 T2]. split; [|congruence]. intros k Hk. by rewrite V2, V1. Qed.

(** The buffers hold [bufs]; the congestion info counts them, and more bytes and gas of delayed receipts, the pair [base]. *)
Record sink_rep (layout : Layout) (base : Z * Z) (bufs : Z → list Item) (s : Sink * U) : Prop := {
  sr_buffer : ∀ shard, shard ∈ S → buffer_rep (to_shard (outgoing_buffers s.1) shard) s.2 (bufs shard);
  sr_fine : ∀ shard, shard ∈ S → Forall (item_fine layout) (bufs shard);
  sr_meta : ∀ shard, shard ∈ S → meta_rep s.2 shard (metadatas (outgoing_metadatas s.1) !! shard) (tracked (bufs shard));
  sr_gas : buffered_receipts_gas (own_congestion_info s.1) = all_gases bufs;
  sr_bytes : receipt_bytes (own_congestion_info s.1) = base.1 + all_sizes bufs;
  sr_delayed : delayed_receipts_gas (own_congestion_info s.1) = base.2;
  sr_stored : buffers_stored s.2 (outgoing_buffers s.1);
  sr_dom : ∀ shard i, shards_indices (outgoing_buffers s.1) !! shard = Some i → shard ∈ S
}.

(** Room for [n] more receipts of total size [z] and gas [g] in the buffers, in the info and in the statistics. *)
Record sink_room (bufs : Z → list Item) (n z g : Z) (sink : Sink) : Prop := {
  rm_index : ∀ shard, shard ∈ S → next_available_index (indices (to_shard (outgoing_buffers sink) shard)) + n <= umax 64;
  rm_groups : ∀ shard, shard ∈ S →
    next_available_index (indices (default (new_groups_queue shard) (metadatas (outgoing_metadatas sink) !! shard))) + n <= umax 64;
  rm_bytes : receipt_bytes (own_congestion_info sink) + z <= umax 64;
  rm_gas : buffered_receipts_gas (own_congestion_info sink) + g <= umax 128;
  rm_forwarded : ∀ shard, stats_room (default default_stats (forwarded_receipts (stats sink) !! shard))
    (all_count bufs + n) (all_sizes bufs + z) (all_gases bufs + g);
  rm_buffered : ∀ shard, stats_room (default default_stats (buffered_receipts (stats sink) !! shard)) n z g
}.

Lemma fine_sums layout bufs : (∀ shard, shard ∈ S → Forall (item_fine layout) (bufs shard)) → ∀ shard, shard ∈ S →
  0 <= sizes (entry <$> bufs shard) <= all_sizes bufs ∧ 0 <= gases (entry <$> bufs shard) <= all_gases bufs ∧ Z.of_nat (length (bufs shard)) <= all_count bufs.
Proof.
  intros Hf shard Hs. assert (∀ x, x ∈ S → Forall entry_ok (entry <$> bufs x)) as He by (intros x Hx; by eapply fine_entries, Hf).
  split_and!; [by apply sizes_nonneg, He| |by apply gases_nonneg, He| |].
  - apply (sum_over_elem (λ x, sizes (entry <$> bufs x))); [|done]. intros x Hx. by apply sizes_nonneg, He.
  - apply (sum_over_elem (λ x, gases (entry <$> bufs x))); [|done]. intros x Hx. by apply gases_nonneg, He.
  - apply (sum_over_elem (λ x, Z.of_nat (length (bufs x)))); [|done]. intros x Hx. lia.
Qed.

Lemma all_nonneg layout bufs : (∀ shard, shard ∈ S → Forall (item_fine layout) (bufs shard)) → 0 <= all_sizes bufs ∧ 0 <= all_gases bufs ∧ 0 <= all_count bufs.
Proof.
  intros Hf. assert (∀ x, x ∈ S → Forall entry_ok (entry <$> bufs x)) as He by (intros x Hx; by eapply fine_entries, Hf).
  split_and!; apply sum_Z_nonneg, Forall_fmap, Forall_forall; intros x Hx%elem_of_elements; cbn; [by apply sizes_nonneg, He|by apply gases_nonneg, He|lia].
Qed.

(** Changes of the sink that do not touch the buffers. *)
Lemma sink_rep_same layout base bufs sink sink' u :
  own_congestion_info sink' = own_congestion_info sink → outgoing_buffers sink' = outgoing_buffers sink →
  outgoing_metadatas sink' = outgoing_metadatas sink → sink_rep layout base bufs (sink, u) → sink_rep layout base bufs (sink', u).
Proof. intros Hi Hb Hm [B F Me G By De St Dom]. split; cbn [fst snd] in *; rewrite ?Hi, ?Hb, ?Hm; done. Qed.

(** The keys that the sink uses; nothing else matters for it. *)
Definition sink_key (k : TrieKey AccountId) : Prop :=
  match k with BufferedReceiptIndices | BufferedReceipt _ _ | BufferedReceiptGroupsQueueData _ | BufferedReceiptGroupsQueueItem _ _ => True | _ => False end.

Lemma sink_rep_keys layout base bufs sink u u' : (∀ k, key_ok k → sink_key k → st_view u' k = st_view u k) → sink_rep layout base bufs (sink, u) → sink_rep layout base bufs (sink, u').
Proof.
  intros Hv [B F Me G By De St Dom]. cbn [fst snd] in *. split; cbn [fst snd]; try done.
  - intros shard Hs. eapply (queue_rep_frame key_ok st_view item_ok buffer_wf (λ _ : OutgoingReceiptBuffer, BufferedReceiptIndices) (λ b, borsh_encode (shards_indices (parent b)))); [by apply B|].
    intros k Hk (n & _ & ->). by apply Hv.
  - intros shard Hs. destruct (Me shard Hs) as [Hm Hst]. split; [|rewrite <-Hst; apply Hv; [by apply groups_data_ok, S_ok|done]].
    destruct (metadatas _ !! shard) as [q|]; [|done]. destruct Hm as (Hq & groups & [Hr Hne He Hsz Hg Hn] & Hc). split; [done|]. exists groups. split; [|done]. split; try done.
    eapply (queue_rep_frame key_ok st_view group_ok (λ q, in_u 16 (receiver_shard q)) (λ q, BufferedReceiptGroupsQueueData (receiver_shard q)) (λ q, borsh_encode (OutgoingMetadata.data q))); [exact Hr|].
    intros k Hk (n' & _ & ->). by apply Hv.
  - unfold buffers_stored. rewrite Hv; [done|by apply buffered_indices_ok|done].
Qed.

(** ** Keys of different queues *)

Abbreviation buffer_key := (λ _ : OutgoingReceiptBuffer, BufferedReceiptIndices).
Abbreviation buffer_value := (λ b, borsh_encode (shards_indices (parent b))).
Abbreviation groups_wf := (λ q, in_u 16 (receiver_shard q)).
Abbreviation groups_key := (λ q, BufferedReceiptGroupsQueueData (receiver_shard q)).
Abbreviation groups_value := (λ q, borsh_encode (OutgoingMetadata.data q)).

Abbreviation buffer_frame := (TrieQueue.frame key_ok st_view st_trie_view buffer_key).
Abbreviation groups_frame := (TrieQueue.frame key_ok st_view st_trie_view groups_key).

Lemma buffer_frame_buffer buffers buffers' u u' shard shard' items :
  buffer_frame (to_shard buffers shard) u u' → shard ≠ shard' → shards_indices buffers' !! shard' = shards_indices buffers !! shard' →
  buffer_rep (to_shard buffers shard') u items → buffer_rep (to_shard buffers' shard') u' items.
Proof.
  intros Hf Hne Hi Hrep. apply (queue_rep_same st_view item_ok buffer_wf (to_shard buffers shard')); [cbn; by rewrite Hi|done|apply Hrep|].
  eapply (queue_rep_frame key_ok st_view item_ok buffer_wf buffer_key buffer_value); [exact Hrep|]. intros k Hk (n & Hn & ->). apply Hf. split_and!; [done|done|]. intros m. cbn. congruence.
Qed.

Lemma buffer_frame_meta buffers u u' shard shard' o l : in_u 16 shard' → buffer_frame (to_shard buffers shard) u u' → meta_rep u shard' o l → meta_rep u' shard' o l.
Proof.
  intros Hin Hf [Hm Hst]. split; [|rewrite <-Hst; apply Hf; by split_and!; [apply groups_data_ok|..]].
  destruct o as [q|]; [|done]. destruct Hm as (Hq & groups & [Hr Hne He Hs Hg Hn] & Hc). split; [done|]. exists groups. split; [|done]. split; try done.
  eapply (queue_rep_frame key_ok st_view group_ok groups_wf groups_key groups_value); [exact Hr|]. intros k Hk (n & Hn' & ->). apply Hf. by split_and!.
Qed.

Lemma buffer_frame_sink buffers u u' shard : buffer_frame (to_shard buffers shard) u u' → sink_frame u u'.
Proof. intros [V T]. split; [|done]. intros k [Hk Hn]. apply V. split_and!; [done|by destruct k|by intros n ->]. Qed.

Lemma groups_frame_buffer q u u' buffers shard items : groups_frame q u u' → buffer_rep (to_shard buffers shard) u items → buffer_rep (to_shard buffers shard) u' items.
Proof.
  intros Hf Hrep. eapply (queue_rep_frame key_ok st_view item_ok buffer_wf buffer_key buffer_value); [exact Hrep|].
  intros k Hk (n & Hn & ->). apply Hf. by split_and!.
Qed.

Lemma groups_frame_meta q u u' shard o l : in_u 16 shard → groups_frame q u u' → receiver_shard q ≠ shard → meta_rep u shard o l → meta_rep u' shard o l.
Proof.
  intros Hin Hf Hne [Hm Hst]. split; [|rewrite <-Hst; apply Hf; split_and!; [by apply groups_data_ok|cbn; congruence|done]].
  destruct o as [q'|]; [|done]. destruct Hm as (Hq & groups & [Hr Hnn He Hs Hg Hn] & Hc). split; [done|]. exists groups. split; [|done]. split; try done.
  eapply (queue_rep_frame key_ok st_view group_ok groups_wf groups_key groups_value); [exact Hr|]. intros k Hk (n & Hn' & ->). apply Hf. split_and!; [done| |]; cbn; intros; congruence.
Qed.

Lemma groups_frame_sink q u u' : groups_frame q u u' → sink_frame u u'.
Proof. intros [V T]. split; [|done]. intros k [Hk Hn]. apply V. split_and!; [done|by intros ->|by intros n ->]. Qed.

Lemma groups_frame_stored q u u' b : groups_frame q u u' → buffers_stored u b → buffers_stored u' b.
Proof. intros Hf. unfold buffers_stored. by rewrite (fr_view _ _ _ _ _ _ _ Hf BufferedReceiptIndices) by (split_and!; [by apply buffered_indices_ok|done|done]). Qed.

(** * Forwarding *)

Abbreviation SM := (M (Sink * U) Error).

Definition limit_at (sink : Sink) (t : Z) : OutgoingLimit := default default_outgoing_limit (outgoing_limit sink !! t).

Definition fits (sink : Sink) (t size gas : Z) : bool :=
  (gas <=? limit_gas (limit_at sink t)) && (forward_size wasm_config size <=? limit_size (limit_at sink t)).

(** The sink after [try_forward]. *)
Definition touched (sink : Sink) (t : Z) : Sink := set_limits (<[t := limit_at sink t]> (outgoing_limit sink)) sink.

Definition forwarded_stats (sink : Sink) (t : Z) : ReceiptsStats := default default_stats (forwarded_receipts (stats sink) !! t).

Definition forwarded_sink (sink : Sink) (r : Rcpt) (size gas t : Z) : Sink :=
  set_stats (set_forwarded (<[t := counted_stats (forwarded_stats sink t) (forward_size wasm_config size) gas]> (forwarded_receipts (stats sink))) (stats sink))
    (set_limits (<[t := mkLimit (limit_gas (limit_at sink t) - gas) (limit_size (limit_at sink t) - forward_size wasm_config size)]> (outgoing_limit sink))
      (set_receipts (outgoing_receipts sink ++ [r]) sink)).

Lemma forward_size_le size : forward_size wasm_config size <= size.
Proof. unfold forward_size. case_match eqn:H; to_prop; lia. Qed.

Lemma try_forward_ok sink u r size gas t n z g :
  stats_room (forwarded_stats sink t) n z g → 1 <= n → size <= z → gas <= g →
  (try_forward wasm_config r gas size t : SM _) (sink, u) =
    if fits sink t size gas then Ok Forwarded (forwarded_sink sink r size gas t, u) else Ok (NotForwarded r) (touched sink t, u).
Proof.
  intros Hroom Hn Hz Hg. pose proof (forward_size_le size) as Hle. unfold try_forward, fits. rewrite (bind_Ok _ _ _ sink (sink, u)) by done.
  fold (limit_at sink t). cbv zeta. rewrite (bind_Ok _ _ _ () (touched sink t, u)) by done. destruct (_ && _) eqn:Hfit; [|done]. apply andb_true_iff in Hfit as [H1 H2]. to_prop.
  rewrite (bind_Ok _ _ _ () (set_receipts (outgoing_receipts sink ++ [r]) (touched sink t), u)) by done.
  rewrite (checked_sub_ok (limit_gas (limit_at sink t))), (checked_sub_ok (limit_size (limit_at sink t))) by done. rewrite !bind_expect. erewrite bind_Ok by done.
  fold (forwarded_stats sink t). destruct (add_receipt_ok _ (forward_size wasm_config size) gas n z g Hroom) as [-> _]; [lia..|]. by rewrite bind_expect.
Qed.

(** What has been sent, and what is left of the limits. *)
Definition goes_to (layout : Layout) (t : Z) (item : Item) : bool :=
  match target_of (into_receipt item) layout with ROk t' => t' =? t | _ => false end.

Definition sent_gas (layout : Layout) (t : Z) (sent : list Item) : Z := sum_Z (gas_of <$> filter (λ i, goes_to layout t i = true) sent).
Definition sent_size (layout : Layout) (t : Z) (sent : list Item) : Z :=
  sum_Z ((λ i, forward_size wasm_config (size_of i)) <$> filter (λ i, goes_to layout t i = true) sent).

Record spent (layout : Layout) (sink0 : Sink) (sent : list Item) (sink : Sink) : Prop := {
  sp_receipts : outgoing_receipts sink = outgoing_receipts sink0 ++ (into_receipt <$> sent);
  sp_gas : ∀ t, limit_gas (limit_at sink t) = limit_gas (limit_at sink0 t) - sent_gas layout t sent;
  sp_size : ∀ t, limit_size (limit_at sink t) = limit_size (limit_at sink0 t) - sent_size layout t sent;
  sp_left : ∀ t, 0 <= limit_gas (limit_at sink t) ∧ 0 <= limit_size (limit_at sink t)
}.

Lemma limit_at_set sink t l t' : limit_at (set_limits (<[t := l]> (outgoing_limit sink)) sink) t' = if decide (t = t') then l else limit_at sink t'.
Proof. unfold limit_at. cbn. destruct (decide (t = t')) as [->|Hne]; [by rewrite lookup_insert_eq|by rewrite lookup_insert_ne]. Qed.

Lemma spent_touched layout sink0 sent sink t : spent layout sink0 sent sink → spent layout sink0 sent (touched sink t).
Proof.
  intros [R G Z L]. assert (∀ t', limit_at (touched sink t) t' = limit_at sink t') as E by (intros t'; unfold touched; rewrite limit_at_set; by case_decide; subst).
  split; [done|..]; intros t'; rewrite E; auto.
Qed.

Lemma sent_snoc layout t sent item :
  sent_gas layout t (sent ++ [item]) = sent_gas layout t sent + (if goes_to layout t item then gas_of item else 0) ∧
  sent_size layout t (sent ++ [item]) = sent_size layout t sent + (if goes_to layout t item then forward_size wasm_config (size_of item) else 0).
Proof.
  unfold sent_gas, sent_size. rewrite filter_app, !fmap_app, !sum_Z_app. rewrite filter_cons, filter_nil.
  destruct (goes_to layout t item) eqn:E; [rewrite decide_True by done|rewrite decide_False by done]; cbn; lia.
Qed.

Lemma spent_forwarded layout sink0 sent sink item t :
  spent layout sink0 sent sink → target_of (into_receipt item) layout = ROk t → fits sink t (size_of item) (gas_of item) = true →
  spent layout sink0 (sent ++ [item]) (forwarded_sink sink (into_receipt item) (size_of item) (gas_of item) t).
Proof.
  intros [R G Z L] Ht [H1 H2]%andb_true_iff. to_prop.
  assert (∀ t', limit_at (forwarded_sink sink (into_receipt item) (size_of item) (gas_of item) t) t' =
    if decide (t = t') then mkLimit (limit_gas (limit_at sink t) - gas_of item) (limit_size (limit_at sink t) - forward_size wasm_config (size_of item)) else limit_at sink t') as E
    by (intros t'; apply (limit_at_set sink t)).
  assert (∀ t', goes_to layout t' item = bool_decide (t = t')) as Eg.
  { intros t'. unfold goes_to. rewrite Ht. destruct (Z.eqb_spec t t'); [by rewrite bool_decide_true|by rewrite bool_decide_false]. }
  split.
  - cbn. by rewrite R, fmap_app, app_assoc.
  - intros t'. destruct (sent_snoc layout t' sent item) as [-> _]. rewrite E, Eg. case_decide; [subst t'; rewrite bool_decide_true by done|rewrite bool_decide_false by done]; cbn; rewrite G; lia.
  - intros t'. destruct (sent_snoc layout t' sent item) as [_ ->]. rewrite E, Eg. case_decide; [subst t'; rewrite bool_decide_true by done|rewrite bool_decide_false by done]; cbn; rewrite Z; lia.
  - intros t'. rewrite E. case_decide; [cbn; lia|apply L].
Qed.

(** * Metadata of one buffer *)

Lemma new_groups_rep shard u : in_u 16 shard → groups_rep (new_groups_queue shard) u [].
Proof. intros Hs. by split; try done; split. Qed.

(** The metadata of a buffer after a change. *)
Definition meta_after (m m' : OutgoingMetadatas) (u u' : U) (shard : Z) (l : list (Z * Z)) (more : Z) : Prop :=
  ∃ q q', m' = mkMetadatas (<[shard := q']> (metadatas m)) (groups_config m) ∧ meta_rep u' shard (Some q') l ∧
    groups_frame q u u' ∧ receiver_shard q = shard ∧
    next_available_index (indices q') <= next_available_index (indices (default (new_groups_queue shard) (metadatas m !! shard))) + more.

Abbreviation MM := (M (OutgoingMetadatas * U) Error).

Lemma metadata_pushed_ok m u shard l size gas :
  in_u 16 shard → meta_rep u shard (metadatas m !! shard) l → entry_ok (size, gas) → sizes l + size <= umax 64 → gases l + gas <= umax 128 →
  Z.of_nat (length l) < umax 64 → next_available_index (indices (default (new_groups_queue shard) (metadatas m !! shard))) < umax 64 →
  returns (update_on_receipt_pushed shard size gas : MM ()) (m, u) (λ _ s, meta_after m s.1 u s.2 shard (l ++ [(size, gas)]) 1).
Proof.
  intros Hin Hm He Hs Hg Hn Hx. set (q := default (new_groups_queue shard) (metadatas m !! shard)) in *.
  assert (receiver_shard q = shard ∧ ∃ groups, groups_rep q u groups ∧ concat groups = l) as (Hq & groups & Hrep & <-).
  { unfold q. destruct Hm as [Hm _]. destruct (metadatas m !! shard) as [q0|]; [done|]. split; [done|]. exists []. split; [by apply new_groups_rep|done]. }
  destruct (groups_pushed_ok key_ok st_view st_trie_view q u groups (groups_config m) (size, gas)) as (q' & u' & Hu & (Hr & Hf & Hsh & Hst) & Hnx); [done..|].
  eapply returns_Ok.
  - unfold update_on_receipt_pushed. rewrite (bind_Ok _ _ _ (m, u) (m, u)) by done. cbn [fst snd]. fold q. unfold on_metadata. eapply zoom_Ok. exact Hu.
  - cbn [fst snd]. exists q, q'. split_and!; [done| |done|done|done]. split; [|rewrite <-Hq; exact Hst]. split; [congruence|]. eexists. split; [done|]. apply concat_push_groups.
Qed.

Lemma metadata_popped_ok m u shard e l :
  meta_rep u shard (metadatas m !! shard) (e :: l) →
  returns (update_on_receipt_popped shard e.1 e.2 : MM ()) (m, u) (λ _ s, meta_after m s.1 u s.2 shard l 0).
Proof.
  intros [Hm _]. destruct (metadatas m !! shard) as [q|] eqn:Eq; [|done]. destruct Hm as (Hq & groups & Hrep & Hc).
  pose proof (gr_nonempty _ _ _ _ Hrep) as Hne. destruct groups as [|[|e' g] groups]; [done|by apply Forall_inv in Hne|]. cbn in Hc. injection Hc as -> Hc.
  destruct (groups_popped_ok key_ok st_view st_trie_view q u e g groups Hrep) as (q' & u' & Hu & (Hr & Hf & Hsh & Hst) & Hnx).
  eapply returns_Ok.
  - unfold update_on_receipt_popped. rewrite (bind_Ok _ _ _ (m, u) (m, u)) by done. cbn [fst snd]. rewrite Eq, bind_expect. unfold on_metadata. eapply zoom_Ok. exact Hu.
  - cbn [fst snd]. exists q, q'. split_and!; [done| |done|done|rewrite Eq, Hnx; cbn; lia]. split; [|rewrite <-Hq; exact Hst]. split; [congruence|]. eexists. split; [done|]. by rewrite concat_pop_groups.
Qed.

(** The sink after a change of the metadata of one buffer.  [l'] is what the metadata counts for it. *)
Lemma meta_after_rest m m' u u' shard l more : meta_after m m' u u' shard l more →
  (∀ shard', shard' ≠ shard → metadatas m' !! shard' = metadatas m !! shard') ∧
  (∀ shard' l', in_u 16 shard' → shard' ≠ shard → meta_rep u shard' (metadatas m !! shard') l' → meta_rep u' shard' (metadatas m' !! shard') l') ∧
  meta_rep u' shard (metadatas m' !! shard) l ∧ sink_frame u u' ∧ (∀ b, buffers_stored u b → buffers_stored u' b) ∧
  (∀ buffers shard' items, buffer_rep (to_shard buffers shard') u items → buffer_rep (to_shard buffers shard') u' items).
Proof.
  intros (q & q' & -> & Hm & Hf & Hq & _). cbn [metadatas].
  assert (∀ shard', shard' ≠ shard → <[shard := q']> (metadatas m) !! shard' = metadatas m !! shard') as Hne by (intros; by rewrite lookup_insert_ne).
  split_and!; [done| |by rewrite lookup_insert_eq|by eapply groups_frame_sink| |].
  - intros shard' l' Hin Hs Hr. rewrite Hne by done. eapply groups_frame_meta; [done|exact Hf|congruence|done].
  - intros b. by eapply groups_frame_stored.
  - intros buffers shard' items. by eapply groups_frame_buffer.
Qed.

(** * One buffer *)

(** The buffers after a change of the one to [shard]. *)
Record buffer_step (b b' : ShardsOutgoingReceiptBuffer) (u u' : U) (shard : Z) (items : list Item) (more : Z) : Prop := {
  bs_rep : buffer_rep (to_shard b' shard) u' items;
  bs_other : ∀ shard', shard' ≠ shard → shards_indices b' !! shard' = shards_indices b !! shard';
  bs_frame : buffer_frame (to_shard b shard) u u';
  bs_next : next_available_index (indices (to_shard b' shard)) = next_available_index (indices (to_shard b shard)) + more;
  bs_stored : b' = b ∧ u' = u ∨ st_view u' BufferedReceiptIndices = Some (borsh_encode (shards_indices b'))
}.

Abbreviation BM := (M (OutgoingReceiptBuffer * U) Error).

Lemma push_buffer_ok b u shard items item :
  buffer_rep (to_shard b shard) u items → item_ok item → next_available_index (indices (to_shard b shard)) < umax 64 →
  returns (push_back item : BM ()) (to_shard b shard, u) (λ _ s, buffer_step b (parent s.1) u s.2 shard (items ++ [item]) 1).
Proof.
  intros Hrep Hi Hx. destruct (push_back_ok key_ok st_view st_trie_view item_ok buffer_wf buffer_key buffer_value _ u items item Hrep Hi Hx) as (u' & Hu & Hr & Hf & Hv).
  eapply returns_Ok; [exact Hu|]. cbn [fst snd]. split; [exact Hr| |exact Hf| |by right].
  - intros shard' Hne. cbn. by rewrite lookup_insert_ne.
  - cbn. by rewrite lookup_insert_eq.
Qed.

Lemma pop_buffer_ok b u shard items n :
  buffer_rep (to_shard b shard) u items → 0 <= n →
  returns (pop_n n : BM Z) (to_shard b shard, u) (λ _ s, buffer_step b (parent s.1) u s.2 shard (drop (Z.to_nat n) items) 0).
Proof.
  intros Hrep Hn. destruct (pop_n_ok key_ok st_view st_trie_view item_ok buffer_wf buffer_key buffer_value _ u items n Hrep Hn) as (q' & u' & Hu & Hq & Hnx & Hr & Hf & Hv).
  eapply returns_Ok; [exact Hu|]. cbn [fst snd]. assert (to_shard (parent q') shard = q' ∧ ∀ shard', shard' ≠ shard → shards_indices (parent q') !! shard' = shards_indices b !! shard') as [Eq Ho].
  { destruct Hq as [->|[i ->]]; [done|]. split; [done|]. intros shard' Hne. cbn. by rewrite lookup_insert_ne. }
  split; rewrite ?Eq; [exact Hr|exact Ho|exact Hf|rewrite Hnx; lia|]. destruct Hv as [[= -> ->]|Hv]; [by left|by right].
Qed.

(** The other buffers and all metadata are kept. *)
Lemma buffer_step_rest b b' u u' shard items more : buffer_step b b' u u' shard items more →
  (∀ shard' items', shard' ≠ shard → buffer_rep (to_shard b shard') u items' → buffer_rep (to_shard b' shard') u' items') ∧
  (∀ shard' o l, in_u 16 shard' → meta_rep u shard' o l → meta_rep u' shard' o l) ∧ sink_frame u u' ∧
  (∀ shard', shard' ≠ shard → indices (to_shard b' shard') = indices (to_shard b shard')) ∧ (buffers_stored u b → buffers_stored u' b').
Proof.
  intros [Hr Ho Hf Hn Hs]. split_and!; [| |by eapply buffer_frame_sink| |].
  - intros shard' items' Hne. apply (buffer_frame_buffer b b' u u' shard); [done|done|by apply Ho].
  - intros shard' o l Hin. by apply (buffer_frame_meta b u u' shard).
  - intros shard' Hne. cbn. by rewrite Ho.
  - intros Hst. destruct Hs as [[-> ->]|Hs]; [done|by left].
Qed.

Lemma buffer_step_dom b b' u u' shard items more : buffer_step b b' u u' shard items more → shard ∈ S →
  (∀ shard i, shards_indices b !! shard = Some i → shard ∈ S) → ∀ shard' i, shards_indices b' !! shard' = Some i → shard' ∈ S.
Proof. intros Hstep Hs Hd shard' i Hi. destruct (decide (shard' = shard)) as [->|Hne]; [done|]. rewrite (bs_other _ _ _ _ _ _ _ Hstep) in Hi by done. by eapply Hd. Qed.

(** * Buffering a receipt *)

Lemma default_stats_insert m t st t' n z g : stats_room st n z g → (∀ t', stats_room (default default_stats (m !! t')) n z g) →
  stats_room (default default_stats ((<[t := st]> m : gmap Z ReceiptsStats) !! t')) n z g.
Proof. intros Hst Hm. destruct (decide (t = t')) as [->|Hne]; [by rewrite lookup_insert_eq|by rewrite lookup_insert_ne]. Qed.

(** The parts of the sink that buffering does not touch. *)
Definition same_forwarding (sink sink' : Sink) : Prop :=
  outgoing_receipts sink' = outgoing_receipts sink ∧ outgoing_limit sink' = outgoing_limit sink ∧
  forwarded_receipts (stats sink') = forwarded_receipts (stats sink) ∧ scheduler_params sink' = scheduler_params sink.

Definition add_item (bufs : Z → list Item) (shard : Z) (item : Item) : Z → list Item := <[shard := bufs shard ++ [item]]> bufs.

Lemma add_item_sums bufs shard item : shard ∈ S →
  all_sizes (add_item bufs shard item) = all_sizes bufs + size_of item ∧ all_gases (add_item bufs shard item) = all_gases bufs + gas_of item ∧
  all_count (add_item bufs shard item) = all_count bufs + 1.
Proof.
  intros Hs. unfold add_item. rewrite all_sizes_update, all_gases_update, all_count_update by done. rewrite fmap_app, sizes_app, gases_app, length_app.
  rewrite fmap_cons, sizes_cons, gases_cons. cbn [fmap list_fmap entry fst snd length]. change (sizes []) with 0. change (gases []) with 0. lia.
Qed.

(** The metadata part of [buffer_receipt]. *)
Lemma track_pushed_ok layout (sink : Sink) u bufs shard item :
  (∀ shard, shard ∈ S → buffer_rep (to_shard (outgoing_buffers sink) shard) u (bufs shard)) → (∀ shard, shard ∈ S → Forall (item_fine layout) (bufs shard)) →
  (∀ shard, shard ∈ S → meta_rep u shard (metadatas (outgoing_metadatas sink) !! shard) (tracked (bufs shard))) → buffers_stored u (outgoing_buffers sink) →
  shard ∈ S → item_fine layout item → all_sizes bufs + size_of item <= umax 64 → all_gases bufs + gas_of item <= umax 128 →
  next_available_index (indices (to_shard (outgoing_buffers sink) shard)) < umax 64 →
  next_available_index (indices (default (new_groups_queue shard) (metadatas (outgoing_metadatas sink) !! shard))) < umax 64 →
  returns (if should_update_outgoing_metadatas item then on_metadatas (update_on_receipt_pushed shard (size_of item) (gas_of item)) else mret () : SM ()) (sink, u)
    (λ _ s, ∃ m, s.1 = set_metadatas m sink ∧ (∀ shard', shard' ∈ S → meta_rep s.2 shard' (metadatas m !! shard') (tracked (add_item bufs shard item shard'))) ∧
      (∀ shard', shard' ∈ S → buffer_rep (to_shard (outgoing_buffers sink) shard') s.2 (bufs shard')) ∧ sink_frame u s.2 ∧ buffers_stored s.2 (outgoing_buffers sink) ∧
      (∀ shard', shard' ∈ S → next_available_index (indices (default (new_groups_queue shard') (metadatas m !! shard'))) <=
        next_available_index (indices (default (new_groups_queue shard') (metadatas (outgoing_metadatas sink) !! shard'))) + 1)).
Proof.
  intros B F Me St Hs Hi Hz Hg RI RG.
  assert (tracked [item] = if should_update_outgoing_metadatas item then [entry item] else []) as Et by (unfold tracked; rewrite filter_cons, filter_nil; by destruct (should_update_outgoing_metadatas item)).
  assert (∀ shard', shard' ≠ shard → add_item bufs shard item shard' = bufs shard') as Hne by (intros; unfold add_item; by rewrite fn_lookup_insert_ne).
  assert (tracked (add_item bufs shard item shard) = tracked (bufs shard) ++ tracked [item]) as Ea by (unfold add_item; rewrite fn_lookup_insert; apply tracked_app).
  destruct (should_update_outgoing_metadatas item).
  - destruct (tracked_le layout (bufs shard)) as (T1 & T2 & T3); [by apply F|]. destruct (fine_sums layout bufs F shard Hs) as (S1 & S2 & S3).
    pose proof (qr_next _ _ _ _ _ _ (B shard Hs)) as Hqn. pose proof (qr_first _ _ _ _ _ _ (B shard Hs)) as Hqf.
    destruct (returns_inv _ _ _ (metadata_pushed_ok (outgoing_metadatas sink) u shard (tracked (bufs shard)) (size_of item) (gas_of item)
      (S_ok shard Hs) (Me shard Hs) (fine_entry _ _ Hi) ltac:(lia) ltac:(lia) ltac:(lia) RG)) as ([] & [m u'] & Hu & Ha). cbn [fst snd] in Ha.
    eapply returns_Ok; [by apply on_metadatas_ok|]. cbn [fst snd]. exists m. destruct (meta_after_rest _ _ _ _ _ _ _ Ha) as (M1 & M2 & M3 & M4 & M5 & M6). split_and!; [done| | |done|by apply M5|].
    + intros shard' Hs'. destruct (decide (shard' = shard)) as [->|Hd]; [by rewrite Ea, Et|]. rewrite Hne by done. apply M2; [by apply S_ok|done|by apply Me].
    + intros shard' Hs'. apply M6. by apply B.
    + intros shard' Hs'. destruct (decide (shard' = shard)) as [->|Hd]; [|rewrite M1 by done; lia]. destruct Ha as (q & q' & -> & _ & _ & _ & Hx). cbn [metadatas]. rewrite lookup_insert_eq. exact Hx.
  - apply returns_ret. exists (outgoing_metadatas sink). split_and!; [by destruct sink| |done|done|done|intros; lia]. cbn [fst snd]. intros shard' Hs'. destruct (decide (shard' = shard)) as [->|Hd].
    + rewrite Ea, Et, app_nil_r. by apply Me.
    + rewrite Hne by done. by apply Me.
Qed.

(** The info after a receipt was added to the buffers. *)
Definition buffered_info (i : CongestionInfo) (item : Item) : CongestionInfo :=
  put_buffered_gas (buffered_receipts_gas i + gas_of item) (put_receipt_bytes (receipt_bytes i + size_of item) i).

Lemma buffered_info_ok {B} (sink : Sink) (u : U) item (f : () → SM B) Q : receipt_bytes (own_congestion_info sink) + size_of item <= umax 64 →
  buffered_receipts_gas (own_congestion_info sink) + gas_of item <= umax 128 →
  returns (f ()) (set_info (buffered_info (own_congestion_info sink) item) sink, u) Q →
  returns (_ ← on_info (add_receipt_bytes (size_of item)); y ← on_info (add_buffered_receipt_gas (gas_of item)); f y : SM B) (sink, u) Q.
Proof.
  intros Hz Hg Hf. eapply returns_step; [apply on_info_ok, add_bytes_ok; lia|]. eapply returns_step; [apply on_info_ok, add_buffered_ok; cbn; lia|]. exact Hf.
Qed.

(** The buffers after [push_back], put together. *)
Lemma pushed_rep layout base bufs (sink sink' : Sink) u u' shard item m :
  (∀ shard, shard ∈ S → buffer_rep (to_shard (outgoing_buffers sink) shard) u (bufs shard)) → (∀ shard, shard ∈ S → Forall (item_fine layout) (bufs shard)) →
  buffered_receipts_gas (own_congestion_info sink) = all_gases bufs → receipt_bytes (own_congestion_info sink) = base.1 + all_sizes bufs →
  delayed_receipts_gas (own_congestion_info sink) = base.2 → buffers_stored u (outgoing_buffers sink) →
  (∀ shard i, shards_indices (outgoing_buffers sink) !! shard = Some i → shard ∈ S) → shard ∈ S → item_fine layout item → own_congestion_info sink' = buffered_info (own_congestion_info sink) item →
  outgoing_metadatas sink' = m → (∀ shard', shard' ∈ S → meta_rep u shard' (metadatas m !! shard') (tracked (add_item bufs shard item shard'))) →
  buffer_step (outgoing_buffers sink) (outgoing_buffers sink') u u' shard (bufs shard ++ [item]) 1 →
  sink_rep layout base (add_item bufs shard item) (sink', u').
Proof.
  intros B F G By De St Dom Hs Hi Ei Em Hm Hstep. destruct (buffer_step_rest _ _ _ _ _ _ _ Hstep) as (R1 & R2 & R3 & R4 & R5).
  destruct (add_item_sums bufs shard item Hs) as (A1 & A2 & A3). split; cbn [fst snd].
  - intros shard' Hs'. unfold add_item. destruct (decide (shard = shard')) as [->|Hne]; [rewrite fn_lookup_insert; apply Hstep|].
    rewrite fn_lookup_insert_ne by done. apply R1; [congruence|by apply B].
  - intros shard' Hs'. unfold add_item. destruct (decide (shard = shard')) as [->|Hne]; [rewrite fn_lookup_insert|rewrite fn_lookup_insert_ne by done; by apply F].
    rewrite Forall_app, Forall_singleton. split; [by apply F|done].
  - intros shard' Hs'. rewrite Em. apply R2; [by apply S_ok|by apply Hm].
  - rewrite Ei. cbn. lia.
  - rewrite Ei. cbn. lia.
  - by rewrite Ei.
  - by apply R5.
  - by apply (buffer_step_dom _ _ _ _ _ _ _ Hstep).
Qed.

Lemma buffer_receipt_ok layout base bufs (sink : Sink) u r shard n z g :
  sink_rep layout base bufs (sink, u) → 0 <= base.1 → shard ∈ S → item_fine layout (PlainReceipt r) → sink_room bufs n z g sink →
  1 <= n → size_of (PlainReceipt r) <= z → gas_of (PlainReceipt r) <= g →
  let item := stored_item use_state_stored_receipt r (size_of (PlainReceipt r)) (gas_of (PlainReceipt r)) in
  returns (buffer_receipt use_state_stored_receipt r (size_of (PlainReceipt r)) (gas_of (PlainReceipt r)) shard : SM ()) (sink, u)
    (λ _ s, sink_rep layout base (add_item bufs shard item) s ∧ sink_frame u s.2 ∧ same_forwarding sink s.1 ∧
       sink_room (add_item bufs shard item) (n - 1) (z - size_of item) (g - gas_of item) s.1).
Proof.
  intros [B F Me G By De St Dom] Hbase Hs Hr [RI RG RB RGa RF RBu] Hn Hz Hg item. cbn [fst snd] in *. pose proof (stored_item_fine layout r Hr) as Hi. pose proof (stored_item_entry r) as He.
  fold item in Hi, He. unfold entry in He. injection He as Ez Eg. unfold buffer_receipt. cbv zeta. fold item. rewrite <-Ez, <-Eg in *. pose proof Hi as [_ _ _ Hzp Hgp _].
  apply buffered_info_ok; [lia..|]. set (sink1 := set_info (buffered_info (own_congestion_info sink) item) sink).
  eapply returns_bind; [apply (track_pushed_ok layout sink1 u bufs shard item); try done; [lia|lia|specialize (RI shard Hs); cbn in *; lia|specialize (RG shard Hs); cbn in *; lia]|].
  intros [] [s2 u2] (m & Em & M1 & M2 & M3 & M4 & M5). cbn [fst snd] in *. subst s2.
  destruct (returns_inv _ _ _ (push_buffer_ok (outgoing_buffers sink) u2 shard (bufs shard) item (M2 shard Hs) (fine_ok _ _ Hi) ltac:(specialize (RI shard Hs); lia)))
    as ([] & [q u3] & Hu3 & Hstep). cbn [fst snd] in Hstep.
  eapply returns_step; [by apply on_buffer_ok|]. eapply returns_step; [done|].
  destruct (add_receipt_ok (default default_stats (buffered_receipts (stats sink) !! shard)) (size_of item) (gas_of item) n z g (RBu shard) Hn Hz Hg) as [Ha Hb].
  cbn [fst stats set_buffers set_metadatas sink1 set_info]. rewrite Ha. eapply returns_step; [done|]. eapply returns_Ok; [done|]. cbn [fst snd].
  destruct (add_item_sums bufs shard item Hs) as (A1 & A2 & A3). destruct (buffer_step_rest _ _ _ _ _ _ _ Hstep) as (_ & _ & R3 & R4 & _). split_and!.
  - by eapply (pushed_rep layout base bufs sink _ u2 u3 shard item m).
  - by eapply sink_frame_trans.
  - done.
  - split; rewrite ?A1, ?A2, ?A3.
    + intros shard' Hs'. specialize (RI shard' Hs'). destruct (decide (shard' = shard)) as [->|Hne].
      * pose proof (bs_next _ _ _ _ _ _ _ Hstep) as Hx. cbn in *. lia.
      * rewrite <-(R4 shard' Hne) in RI. cbn in *. lia.
    + intros shard' Hs'. specialize (RG shard' Hs'). specialize (M5 shard' Hs'). cbn in *. lia.
    + cbn. lia.
    + cbn. lia.
    + intros shard'. eapply stats_room_mono; [apply (RF shard')|lia..].
    + intros shard'. cbn. apply default_stats_insert; [exact Hb|]. intros t'. eapply stats_room_mono; [apply (RBu t')|lia..].
Qed.

(** * A new receipt *)

Lemma forwarded_room bufs n z g (sink : Sink) r size gas t :
  sink_room bufs n z g sink → 1 <= n → 0 <= size <= z → 0 <= gas <= g → sink_room bufs (n - 1) (z - size) (g - gas) (forwarded_sink sink r size gas t).
Proof.
  intros [RI RG RB RGa RF RBu] Hn Hz Hg. pose proof (forward_size_le size) as Hle. split.
  - intros shard Hs. specialize (RI shard Hs). cbn in *. lia.
  - intros shard Hs. specialize (RG shard Hs). cbn in *. lia.
  - cbn. lia.
  - cbn. lia.
  - intros shard. cbn. apply default_stats_insert; [|intros t'; eapply stats_room_mono; [apply (RF t')|lia..]].
    specialize (RF t). unfold stats_room, counted_stats, forwarded_stats in *. cbn. lia.
  - intros shard. eapply stats_room_mono; [apply (RBu shard)|lia..].
Qed.

(** What a new receipt does to the buffers: nothing when it fits into the limits. *)
Definition after_new (layout : Layout) (sink : Sink) (bufs : Z → list Item) (r : Rcpt) (bufs' : Z → list Item) (sent' : list Item) : Prop :=
  ∃ t, target_of r layout = ROk t ∧
    if fits sink t (size_of (PlainReceipt r)) (gas_of (PlainReceipt r)) then bufs' = bufs ∧ sent' = [PlainReceipt r]
    else bufs' = add_item bufs t (stored_item use_state_stored_receipt r (size_of (PlainReceipt r)) (gas_of (PlainReceipt r))) ∧ sent' = [].

Lemma forward_or_buffer_ok info base bufs (sink0 sink : Sink) sent u r n z g :
  sink_rep (shard_layout info) base bufs (sink, u) → 0 <= base.1 → spent (shard_layout info) sink0 sent sink → item_fine (shard_layout info) (PlainReceipt r) →
  sink_room bufs n z g sink → 1 <= n → size_of (PlainReceipt r) <= z → gas_of (PlainReceipt r) <= g →
  returns (forward_or_buffer_receipt as_bytes get_account_type account_le hash_bytes fees wasm_config use_state_stored_receipt info r : SM ()) (sink, u)
    (λ _ s, ∃ bufs' sent', after_new (shard_layout info) sink bufs r bufs' sent' ∧ sink_rep (shard_layout info) base bufs' s ∧ sink_frame u s.2 ∧
       spent (shard_layout info) sink0 (sent ++ sent') s.1 ∧ sink_room bufs' (n - 1) (z - size_of (PlainReceipt r)) (g - gas_of (PlainReceipt r)) s.1).
Proof.
  intros Hrep Hbase Hsp Hr Hroom Hn Hz Hg. pose proof (sr_fine _ _ _ _ Hrep) as Hf. pose proof Hr as [_ Hs Hga Hsz Hgz (t & HtS & Ht)]. unfold forward_or_buffer_receipt.
  eapply returns_step; [by apply run_res_ok|]. eapply returns_step; [by apply run_res_ok|]. eapply returns_step; [by apply run_res_ok|].
  assert (0 <= all_sizes bufs ∧ 0 <= all_gases bufs ∧ 0 <= all_count bufs) as (A1 & A2 & A3) by (by eapply all_nonneg).
  pose proof (try_forward_ok sink u r (size_of (PlainReceipt r)) (gas_of (PlainReceipt r)) t _ _ _ (rm_forwarded _ _ _ _ _ Hroom t) ltac:(lia) ltac:(lia) ltac:(lia)) as Htf.
  destruct (fits sink t (size_of (PlainReceipt r)) (gas_of (PlainReceipt r))) eqn:Hfit.
  - eapply returns_step; [exact Htf|]. apply returns_ret. exists bufs, [PlainReceipt r]. cbn [fst snd]. split_and!.
    + exists t. by rewrite Hfit.
    + by apply (sink_rep_same (shard_layout info) base bufs sink).
    + apply sink_frame_refl.
    + by apply (spent_forwarded (shard_layout info) sink0 sent sink (PlainReceipt r) t).
    + apply forwarded_room; [done|lia..].
  - eapply returns_step; [exact Htf|]. eapply returns_mono; [eapply (buffer_receipt_ok (shard_layout info) base bufs (touched sink t) u r t n z g); try done|].
    + by apply (sink_rep_same (shard_layout info) base bufs sink).
    + by destruct Hroom as [RI RG RB RGa RF RBu]; split.
    + cbv beta zeta. intros [] s (Hrep' & Hfr & (E1 & E2 & _) & Hroom'). set (item := stored_item _ _ _ _) in *. pose proof (stored_item_entry r) as He. fold item in He. injection He as Ez Eg. rewrite Ez, Eg in Hroom'.
      exists (add_item bufs t item), []. split_and!; [by exists t; rewrite Hfit|done|done| |done]. rewrite app_nil_r.
      apply (spent_touched _ _ _ _ t) in Hsp as [R G Z L]. assert (∀ t', limit_at s.1 t' = limit_at (touched sink t) t') as El by (intros t'; unfold limit_at; by rewrite E2).
      split; [congruence|intros t'; rewrite El; auto..].
Qed.

(** * Draining a buffer *)

Definition drained_info (i : CongestionInfo) (l : list Item) : CongestionInfo :=
  put_buffered_gas (buffered_receipts_gas i - gases (entry <$> l)) (put_receipt_bytes (receipt_bytes i - sizes (entry <$> l)) i).

(** The first [k] items were forwarded, and the next one does not fit. *)
Record drained (layout : Layout) (sink0 : Sink) (sent items : list Item) (n z g : Z) (k : nat) (sink sink' : Sink) : Prop := {
  dr_le : (k <= length items)%nat;
  dr_buffers : outgoing_buffers sink' = outgoing_buffers sink;
  dr_metadatas : outgoing_metadatas sink' = outgoing_metadatas sink;
  dr_info : own_congestion_info sink' = drained_info (own_congestion_info sink) (take k items);
  dr_spent : spent layout sink0 (sent ++ take k items) sink';
  dr_room : ∀ t, stats_room (forwarded_stats sink' t) (n - Z.of_nat k) (z - sizes (entry <$> take k items)) (g - gases (entry <$> take k items));
  dr_buffered : buffered_receipts (stats sink') = buffered_receipts (stats sink);
  dr_stop : ∀ item, items !! k = Some item → ∃ t, target_of (into_receipt item) layout = ROk t ∧ fits sink' t (size_of item) (gas_of item) = false
}.

Lemma drained_none layout sink0 sent items n z g sink sink' :
  outgoing_buffers sink' = outgoing_buffers sink → outgoing_metadatas sink' = outgoing_metadatas sink → own_congestion_info sink' = own_congestion_info sink →
  spent layout sink0 sent sink' → stats sink' = stats sink → (∀ t, stats_room (forwarded_stats sink t) n z g) →
  (∀ item, items !! 0%nat = Some item → ∃ t, target_of (into_receipt item) layout = ROk t ∧ fits sink' t (size_of item) (gas_of item) = false) →
  drained layout sink0 sent items n z g 0 sink sink'.
Proof.
  intros Hb Hm Hi Hsp Hst Hroom Hstop. split; try done; cbn [take]; [lia| | | |by rewrite Hst].
  - rewrite Hi. unfold drained_info. change (gases (entry <$> [])) with 0. change (sizes (entry <$> [])) with 0. rewrite !Z.sub_0_r. by destruct (own_congestion_info sink).
  - by rewrite app_nil_r.
  - intros t. unfold forwarded_stats. rewrite Hst. change (gases (entry <$> [])) with 0. change (sizes (entry <$> [])) with 0. rewrite !Z.sub_0_r. apply Hroom.
Qed.

Lemma drained_cons layout sink0 sent item items n z g k (sink sink1 sink2 : Sink) :
  outgoing_buffers sink1 = outgoing_buffers sink → outgoing_metadatas sink1 = outgoing_metadatas sink →
  own_congestion_info sink1 = drained_info (own_congestion_info sink) [item] → buffered_receipts (stats sink1) = buffered_receipts (stats sink) →
  drained layout sink0 (sent ++ [item]) items (n - 1) (z - size_of item) (g - gas_of item) k sink1 sink2 →
  drained layout sink0 sent (item :: items) n z g (Datatypes.S k) sink sink2.
Proof.
  intros Hb Hm Hi Hst [D1 D2 D3 D4 D5 D6 D7 D8]. split; [cbn; lia|congruence|congruence| | | |congruence|done]; cbn [take]; rewrite ?fmap_cons, ?sizes_cons, ?gases_cons; cbn [entry fst snd].
  - rewrite D4, Hi. unfold drained_info, put_buffered_gas, put_receipt_bytes. cbn [buffered_receipts_gas receipt_bytes delayed_receipts_gas allowed_shard].
    rewrite !fmap_cons, !sizes_cons, !gases_cons. cbn [fmap list_fmap entry fst snd]. change (sizes []) with 0. change (gases []) with 0. f_equal; lia.
  - rewrite <-app_assoc in D5. exact D5.
  - intros t. eapply stats_room_mono; [apply (D6 t)|lia..].
Qed.

Lemma drain_step_info {B} (sink : Sink) (u : U) item (f : () → SM B) Q : size_of item <= receipt_bytes (own_congestion_info sink) → gas_of item <= buffered_receipts_gas (own_congestion_info sink) →
  returns (f ()) (set_info (drained_info (own_congestion_info sink) [item]) sink, u) Q →
  returns (_ ← on_info (remove_receipt_bytes (size_of item)); y ← on_info (remove_buffered_receipt_gas (gas_of item)); f y : SM B) (sink, u) Q.
Proof.
  intros Hz Hg Hf. eapply returns_step; [apply on_info_ok, remove_bytes_ok; lia|]. eapply returns_step; [apply on_info_ok, remove_buffered_ok; cbn; lia|].
  replace (set_info (drained_info (own_congestion_info sink) [item]) sink) with
    (set_info (put_buffered_gas (buffered_receipts_gas (own_congestion_info sink) - gas_of item) (put_receipt_bytes (receipt_bytes (own_congestion_info sink) - size_of item) (own_congestion_info sink))) sink) in Hf; [exact Hf|].
  unfold drained_info. rewrite fmap_cons, sizes_cons, gases_cons. cbn [fmap list_fmap entry fst snd]. change (sizes []) with 0. change (gases []) with 0. by rewrite !Z.add_0_r.
Qed.

Abbreviation forward_loop := (forward_loop as_bytes get_account_type account_le hash_bytes fees wasm_config).

Lemma forward_loop_ok layout sink0 items : ∀ sink u sent n z g num upd,
  Forall (item_fine layout) items → spent layout sink0 sent sink → sizes (entry <$> items) <= receipt_bytes (own_congestion_info sink) →
  gases (entry <$> items) <= buffered_receipts_gas (own_congestion_info sink) → (∀ t, stats_room (forwarded_stats sink t) n z g) →
  Z.of_nat (length items) <= n → sizes (entry <$> items) <= z → gases (entry <$> items) <= g → num + Z.of_nat (length items) <= umax 64 →
  returns (forward_loop layout ((λ x, Some (inr x)) <$> items) num upd : SM _) (sink, u)
    (λ res s, s.2 = u ∧ ∃ k, res = (num + Z.of_nat k, upd ++ tracked (take k items)) ∧ drained layout sink0 sent items n z g k sink s.1).
Proof.
  induction items as [|item items IH]; intros sink u sent n z g num upd Hf Hsp Hb Hg Hroom Hn Hz Hgg Hnum.
  - apply returns_ret. split; [done|]. exists 0%nat. split; [cbn; by rewrite Z.add_0_r, app_nil_r|]. by apply drained_none.
  - apply Forall_cons in Hf as [Hi Hf]. pose proof Hi as [_ Hs Hga Hsz Hgz (t & _ & Ht)]. rewrite sizes_entries_cons in Hb, Hz. rewrite gases_entries_cons in Hg, Hgg. cbn [length] in *. rewrite fmap_cons.
    pose proof (sizes_nonneg _ (fine_entries _ _ Hf)). pose proof (gases_nonneg _ (fine_entries _ _ Hf)). cbn [ReceiptSink.forward_loop].
    eapply returns_step; [done|]. eapply returns_step; [done|]. do 3 (eapply returns_step; [by apply run_res_ok|]).
    pose proof (try_forward_ok sink u (into_receipt item) (size_of item) (gas_of item) t n z g (Hroom t) ltac:(lia) ltac:(lia) ltac:(lia)) as Htf.
    destruct (fits sink t (size_of item) (gas_of item)) eqn:Hfit.
    + eapply returns_step; [exact Htf|]. apply drain_step_info; [cbn; lia..|]. rewrite checked_add_ok by lia. eapply returns_step; [done|].
      set (sink1 := set_info _ _). eapply returns_mono; [eapply (IH sink1 u (sent ++ [item]) (n - 1) (z - size_of item) (g - gas_of item)); try done; try lia|].
      * destruct (spent_forwarded layout sink0 sent sink item t Hsp Ht Hfit) as [R1 R2 R3 R4]. by split.
      * unfold sink1, drained_info. cbn. lia.
      * unfold sink1, drained_info. cbn. lia.
      * intros t'. apply default_stats_insert; [|intros t''; eapply stats_room_mono; [apply (Hroom t'')|lia..]].
        pose proof (forward_size_le (size_of item)). specialize (Hroom t). unfold stats_room, counted_stats, forwarded_stats in *. cbn. lia.
      * intros res s [-> (k & -> & Hd)]. split; [done|]. exists (Datatypes.S k). split; [|by apply (drained_cons layout sink0 sent item items n z g k sink sink1)].
        f_equal; [lia|]. cbn [take]. unfold tracked. rewrite filter_cons. destruct (should_update_outgoing_metadatas item); [rewrite decide_True by done; by rewrite fmap_cons, <-app_assoc|by rewrite decide_False].
    + eapply returns_step; [exact Htf|]. apply returns_ret. split; [done|]. exists 0%nat. split; [cbn; by rewrite Z.add_0_r, app_nil_r|]. apply drained_none; try done; [by apply spent_touched|].
      intros x [= <-]. exists t. split; [done|]. rewrite <-Hfit. unfold fits, limit_at, touched. cbn. by rewrite lookup_insert_eq.
Qed.

(** What is kept while the metadata of one buffer changes. *)
Record meta_kept (shard : Z) (m m' : OutgoingMetadatas) (u u' : U) : Prop := {
  mk_same : ∀ shard', shard' ≠ shard → metadatas m' !! shard' = metadatas m !! shard';
  mk_meta : ∀ shard' l, in_u 16 shard' → shard' ≠ shard → meta_rep u shard' (metadatas m !! shard') l → meta_rep u' shard' (metadatas m' !! shard') l;
  mk_frame : sink_frame u u';
  mk_stored : ∀ b, buffers_stored u b → buffers_stored u' b;
  mk_buffer : ∀ b shard' items, buffer_rep (to_shard b shard') u items → buffer_rep (to_shard b shard') u' items;
  mk_next : next_available_index (indices (default (new_groups_queue shard) (metadatas m' !! shard))) <=
    next_available_index (indices (default (new_groups_queue shard) (metadatas m !! shard)))
}.

Lemma meta_kept_refl shard m u : meta_kept shard m m u u.
Proof. by split. Qed.

Lemma meta_kept_trans shard m1 m2 m3 u1 u2 u3 : meta_kept shard m1 m2 u1 u2 → meta_kept shard m2 m3 u2 u3 → meta_kept shard m1 m3 u1 u3.
Proof.
  intros [A1 A2 A3 A4 A5 A6] [B1 B2 B3 B4 B5 B6]. split; [| |by eapply sink_frame_trans|auto|auto|lia].
  - intros shard' Hne. by rewrite B1, A1.
  - intros shard' l Hin Hne Hr. apply B2; [done|done|]. by apply A2.
Qed.

Lemma meta_after_kept m m' u u' shard l : meta_after m m' u u' shard l 0 → meta_kept shard m m' u u' ∧ meta_rep u' shard (metadatas m' !! shard) l.
Proof.
  intros Ha. destruct (meta_after_rest _ _ _ _ _ _ _ Ha) as (M1 & M2 & M3 & M4 & M5 & M6). split; [|done]. split; try done.
  destruct Ha as (q & q' & -> & _ & _ & _ & Hx). cbn [metadatas]. rewrite lookup_insert_eq. cbn [default from_option id] in *. lia.
Qed.

Lemma popped_loop_ok (sink : Sink) shard upd : ∀ m u rest,
  meta_rep u shard (metadatas m !! shard) (upd ++ rest) →
  returns (popped_loop shard upd : SM ()) (set_metadatas m sink, u)
    (λ _ s, ∃ m', s.1 = set_metadatas m' sink ∧ meta_kept shard m m' u s.2 ∧ meta_rep s.2 shard (metadatas m' !! shard) rest).
Proof.
  induction upd as [|[size gas] upd IH]; intros m u rest Hm.
  - apply returns_ret. exists m. split_and!; [done|apply meta_kept_refl|done].
  - destruct (returns_inv _ _ _ (metadata_popped_ok m u shard (size, gas) (upd ++ rest) Hm)) as ([] & [m1 u1] & Hu & Ha). cbn [fst snd] in *.
    destruct (meta_after_kept _ _ _ _ _ _ Ha) as [Hk Hm1]. cbn [popped_loop]. eapply returns_step; [apply on_metadatas_ok; exact Hu|].
    eapply returns_mono; [apply (IH m1 u1 rest Hm1)|]. intros [] s (m' & -> & Hk' & Hr). exists m'. split_and!; [done|by eapply meta_kept_trans|done].
Qed.

(** The items of the buffers are also in the trie below. *)
Definition in_trie (bufs : Z → list Item) (s : Sink * U) : Prop :=
  ∀ shard i item, shard ∈ S → bufs shard !! i = Some item →
    base_view (st_trie_view s.2) (BufferedReceipt shard (first_index (indices (to_shard (outgoing_buffers s.1) shard)) + Z.of_nat i)) = Some (borsh_encode item).

Lemma trie_iter_ok layout base bufs sink u shard : sink_rep layout base bufs (sink, u) → in_trie bufs (sink, u) → shard ∈ S →
  queue_iter (st_get_trie u) (to_shard (outgoing_buffers sink) shard) = (λ x, Some (inr x : Error + Item)) <$> bufs shard.
Proof.
  intros Hrep Ht Hs. pose proof (sr_buffer _ _ _ _ Hrep shard Hs) as Hb. cbn [fst snd] in Hb.
  apply (queue_iter_trie key_ok st_view st_trie_view item_ok buffer_wf buffer_key buffer_value _ u); [done|]. intros i Hi.
  pose proof (item_key_ok key_ok st_view item_ok buffer_wf buffer_key buffer_value _ _ _ i Hb Hi) as Hk.
  rewrite st_get_trie_ok, st_get_ok by exact Hk. destruct (lookup_lt_is_Some_2 _ _ Hi) as [item Hitem]. rewrite (qr_view _ _ _ _ _ _ Hb i item Hitem).
  do 2 f_equal. by apply (Ht shard i item).
Qed.

(** The buffers after the buffer of [shard] was drained. *)
Definition drop_items (bufs : Z → list Item) (shard : Z) (k : nat) : Z → list Item := <[shard := drop k (bufs shard)]> bufs.

Lemma drop_items_sums bufs shard k : shard ∈ S →
  all_sizes (drop_items bufs shard k) = all_sizes bufs - sizes (entry <$> take k (bufs shard)) ∧
  all_gases (drop_items bufs shard k) = all_gases bufs - gases (entry <$> take k (bufs shard)) ∧
  ((k <= length (bufs shard))%nat → all_count (drop_items bufs shard k) = all_count bufs - Z.of_nat k).
Proof.
  intros Hs. unfold drop_items. rewrite all_sizes_update, all_gases_update, all_count_update by done.
  assert (entry <$> bufs shard = (entry <$> take k (bufs shard)) ++ (entry <$> drop k (bufs shard))) as -> by by rewrite <-fmap_app, take_drop.
  rewrite sizes_app, gases_app, length_drop. lia.
Qed.

Lemma drop_items_at bufs shard k : drop_items bufs shard k shard = drop k (bufs shard).
Proof. apply fn_lookup_insert. Qed.
Lemma drop_items_other bufs shard k shard' : shard' ≠ shard → drop_items bufs shard k shard' = bufs shard'.
Proof. intros. by apply fn_lookup_insert_ne. Qed.

(** The state after the buffer of [shard] was drained, put together from its parts. *)
Lemma drained_rep layout sink0 base bufs sent (sink sink1 sink2 : Sink) u u1 u2 shard n z g n' z' g' k m :
  sink_rep layout base bufs (sink, u) → in_trie bufs (sink, u) → sink_room bufs n z g sink → shard ∈ S →
  drained layout sink0 sent (bufs shard) n' z' g' k sink sink1 →
  n' = all_count bufs + n → z' = all_sizes bufs + z → g' = all_gases bufs + g →
  buffer_step (outgoing_buffers sink) (outgoing_buffers sink2) u u1 shard (drop k (bufs shard)) 0 →
  sink2 = set_metadatas m (set_buffers (outgoing_buffers sink2) sink1) →
  meta_kept shard (outgoing_metadatas sink) m u1 u2 → meta_rep u2 shard (metadatas m !! shard) (tracked (drop k (bufs shard))) →
  sink_rep layout base (drop_items bufs shard k) (sink2, u2) ∧ in_trie (drop_items bufs shard k) (sink2, u2) ∧ sink_frame u u2 ∧
  sink_room (drop_items bufs shard k) n z g sink2 ∧ spent layout sink0 (sent ++ take k (bufs shard)) sink2.
Proof.
  intros [B F Me G By De St Dom] Ht [RI RG RB RGa RF RBu] Hs [D1 D2 D3 D4 D5 D6 D7 D8] -> -> -> Hstep E2 [K1 K2 K3 K4 K5 K6] Hm. cbn [fst snd] in *.
  destruct (buffer_step_rest _ _ _ _ _ _ _ Hstep) as (R1 & R2 & R3 & R4 & R5). pose proof Hstep as [Hbr _ _ Hnx _]. destruct (drop_items_sums bufs shard k Hs) as (A1 & A2 & A3). specialize (A3 D1).
  assert (own_congestion_info sink2 = own_congestion_info sink1 ∧ outgoing_metadatas sink2 = m ∧ outgoing_receipts sink2 = outgoing_receipts sink1 ∧ outgoing_limit sink2 = outgoing_limit sink1 ∧
    stats sink2 = stats sink1) as (E3 & E4 & E5 & E6 & E7) by (by rewrite E2).
  assert (sink_frame u u2) as Hfr by by eapply sink_frame_trans. split_and!; [split; cbn [fst snd]| |done| |].
  - intros shard' Hs'. apply K5. destruct (decide (shard' = shard)) as [->|Hne]; [by rewrite drop_items_at|]. rewrite drop_items_other by done. apply R1; [done|by apply B].
  - intros shard' Hs'. destruct (decide (shard' = shard)) as [->|Hne]; [rewrite drop_items_at; by apply Forall_drop, F|rewrite drop_items_other by done; by apply F].
  - intros shard' Hs'. rewrite E4. destruct (decide (shard' = shard)) as [->|Hne]; [by rewrite drop_items_at|]. rewrite drop_items_other by done. apply K2; [by apply S_ok|done|].
    apply R2; [by apply S_ok|by apply Me].
  - rewrite E3, D4. unfold drained_info. cbn [buffered_receipts_gas put_buffered_gas]. lia.
  - rewrite E3, D4. unfold drained_info. cbn [receipt_bytes put_buffered_gas put_receipt_bytes]. lia.
  - by rewrite E3, D4.
  - by apply K4, R5.
  - by apply (buffer_step_dom _ _ _ _ _ _ _ Hstep).
  - intros shard' i item Hs' Hi. cbn [fst snd]. rewrite (sf_trie _ _ Hfr). destruct (decide (shard' = shard)) as [->|Hne].
    + rewrite drop_items_at, lookup_drop in Hi. rewrite <-(Ht shard (k + i)%nat item Hs Hi). cbn [fst snd]. do 2 f_equal.
      pose proof (qr_next _ _ _ _ _ _ (B shard Hs)) as Q1. pose proof (qr_next _ _ _ _ _ _ Hbr) as Q2. rewrite length_drop in Q2. lia.
    + rewrite drop_items_other in Hi by done. rewrite R4 by done. by apply (Ht shard' i item).
  - assert (0 <= sizes (entry <$> take k (bufs shard)) ∧ 0 <= gases (entry <$> take k (bufs shard))) as [P1 P2]
      by (split; [apply sizes_nonneg|apply gases_nonneg]; by eapply fine_entries, Forall_take, F).
    split; rewrite ?A1, ?A2, ?A3, ?E3, ?E7, ?D7, ?D4; [| |unfold drained_info; cbn [receipt_bytes buffered_receipts_gas put_buffered_gas put_receipt_bytes]; lia..| |done].
    + intros shard' Hs'. specialize (RI shard' Hs'). destruct (decide (shard' = shard)) as [->|Hne]; [lia|by rewrite R4].
    + intros shard' Hs'. specialize (RG shard' Hs'). rewrite E4. destruct (decide (shard' = shard)) as [->|Hne]; [lia|by rewrite K1].
    + intros t. eapply stats_room_mono; [apply (D6 t)|lia..].
  - destruct D5 as [P1 P2 P3 P4]. assert (∀ t, limit_at sink2 t = limit_at sink1 t) as El by (intros t; unfold limit_at; by rewrite E6). split; [congruence|intros t; rewrite El; auto..].
Qed.

Abbreviation forward_from_buffer_to_shard := (forward_from_buffer_to_shard as_bytes get_account_type account_le hash_bytes fees wasm_config).

(** The first item that is left does not fit into the limits of its receiver. *)
Definition blocked (layout : Layout) (sink : Sink) (l : list Item) : Prop :=
  ∀ item, head l = Some item → ∃ t, target_of (into_receipt item) layout = ROk t ∧ fits sink t (size_of item) (gas_of item) = false.

Lemma forward_to_shard_ok layout base bufs (sink0 sink : Sink) sent u shard n z g :
  sink_rep layout base bufs (sink, u) → 0 <= base.1 → in_trie bufs (sink, u) → spent layout sink0 sent sink → sink_room bufs n z g sink → 0 <= n → 0 <= z → 0 <= g → shard ∈ S →
  returns (forward_from_buffer_to_shard shard layout : SM ()) (sink, u)
    (λ _ s, ∃ k, sink_rep layout base (drop_items bufs shard k) s ∧ in_trie (drop_items bufs shard k) s ∧ sink_frame u s.2 ∧
       sink_room (drop_items bufs shard k) n z g s.1 ∧ spent layout sink0 (sent ++ take k (bufs shard)) s.1 ∧ blocked layout s.1 (drop k (bufs shard))).
Proof.
  intros Hrep Hbase Ht Hsp Hroom Hn Hz Hg Hs. unfold forward_from_buffer_to_shard. eapply returns_step; [done|]. cbn [fst snd]. rewrite (trie_iter_ok layout base bufs) by done.
  pose proof (sr_fine _ _ _ _ Hrep) as F. destruct (fine_sums layout bufs F shard Hs) as (S1 & S2 & S3). pose proof (sr_buffer _ _ _ _ Hrep shard Hs) as Hb.
  pose proof (sr_gas _ _ _ _ Hrep) as G. pose proof (sr_bytes _ _ _ _ Hrep) as By. cbn [fst snd] in *.
  pose proof (qr_next _ _ _ _ _ _ Hb) as Q1. pose proof (qr_first _ _ _ _ _ _ Hb) as Q2. pose proof (qr_bound _ _ _ _ _ _ Hb) as Q3.
  eapply returns_bind; [apply (forward_loop_ok layout sink0 (bufs shard) sink u sent (all_count bufs + n) (all_sizes bufs + z) (all_gases bufs + g) 0 []); try done; try lia; [by apply F|apply Hroom]|].
  intros res [sink1 u1] [Eu (k & -> & Hd)]. cbn [fst snd] in *. subst u1. rewrite Z.add_0_l. cbn [app].
  rewrite <-(dr_buffers _ _ _ _ _ _ _ _ _ _ Hd) in Hb.
  destruct (returns_inv _ _ _ (pop_buffer_ok (outgoing_buffers sink1) u shard (bufs shard) (Z.of_nat k) Hb ltac:(lia))) as (cnt & [q u2] & Hu2 & Hstep). cbn [fst snd] in Hstep. rewrite Nat2Z.id in Hstep.
  eapply returns_step; [by apply on_buffer_ok|]. rewrite (dr_buffers _ _ _ _ _ _ _ _ _ _ Hd) in Hstep.
  eapply returns_mono; [apply (popped_loop_ok (set_buffers (parent q) sink1) shard (tracked (take k (bufs shard))) (outgoing_metadatas sink1) u2 (tracked (drop k (bufs shard))))|].
  - rewrite <-tracked_app, take_drop, (dr_metadatas _ _ _ _ _ _ _ _ _ _ Hd). apply (buffer_step_rest _ _ _ _ _ _ _ Hstep); [by apply S_ok|by apply (sr_meta _ _ _ _ Hrep)].
  - intros [] [sink2 u3] (m & E2 & Hk & Hm). cbn [fst snd] in *. rewrite (dr_metadatas _ _ _ _ _ _ _ _ _ _ Hd) in Hk. exists k.
    assert (outgoing_buffers sink2 = parent q) as Eb by by rewrite E2.
    destruct (drained_rep layout sink0 base bufs sent sink sink1 sink2 u u2 u3 shard n z g _ _ _ k m Hrep Ht Hroom Hs Hd eq_refl eq_refl eq_refl) as (C1 & C2 & C3 & C4 & C5); [by rewrite Eb|by rewrite Eb|done|done|].
    split_and!; [done..|]. intros item Hi. destruct (dr_stop _ _ _ _ _ _ _ _ _ _ Hd item) as (t & Htt & Hf).
    + by rewrite <-lookup_drop_0, <-head_lookup.
    + exists t. split; [done|]. rewrite <-Hf. by rewrite E2.
Qed.

(** * Draining all buffers *)

Lemma sent_app layout t l k : sent_gas layout t (l ++ k) = sent_gas layout t l + sent_gas layout t k ∧ sent_size layout t (l ++ k) = sent_size layout t l + sent_size layout t k.
Proof. unfold sent_gas, sent_size. by rewrite filter_app, !fmap_app, !sum_Z_app. Qed.

Context (max_size_ok : 0 <= Fees.max_receipt_size wasm_config).

Lemma sent_nonneg layout t l : Forall (item_fine layout) l → 0 <= sent_gas layout t l ∧ 0 <= sent_size layout t l.
Proof.
  intros Hf. rewrite Forall_forall in Hf. split; apply sum_Z_nonneg, Forall_fmap, Forall_forall; intros i [_ Hi]%list_elem_of_filter; destruct (Hf i Hi) as [_ _ _ Hs Hg _]; cbn; [lia|].
  unfold forward_size. case_match; lia.
Qed.

Lemma blocked_mono layout sink0 sent more (sink sink' : Sink) l :
  spent layout sink0 sent sink → spent layout sink0 (sent ++ more) sink' → Forall (item_fine layout) more → blocked layout sink l → blocked layout sink' l.
Proof.
  intros [_ G Z _] [_ G' Z' _] Hf Hb item Hi. destruct (Hb item Hi) as (t & Ht & Hfit). exists t. split; [done|]. destruct (sent_app layout t sent more) as [A1 A2].
  destruct (sent_nonneg layout t more Hf) as [N1 N2]. specialize (G t). specialize (Z t). specialize (G' t). specialize (Z' t). unfold fits in *. rewrite andb_false_iff in *.
  destruct Hfit as [Hfit|Hfit]; to_prop; [left|right]; apply Z.leb_gt; lia.
Qed.

(** From [bufs], the items [sent] were taken from the fronts of the buffers. *)
Record drains (bufs bufs' : Z → list Item) (sent : list Item) : Prop := {
  dn_suffix : ∀ shard, ∃ k, bufs' shard = drop k (bufs shard);
  dn_items : all_items bufs ≡ₚ sent ++ all_items bufs';
  dn_elem : ∀ item, item ∈ sent → ∃ shard, shard ∈ S ∧ item ∈ bufs shard
}.

Lemma drains_refl bufs : drains bufs bufs [].
Proof. split; [intros shard; by exists 0%nat|done|]. intros item Hi. by apply not_elem_of_nil in Hi. Qed.

Lemma drains_drop bufs shard k : shard ∈ S → drains bufs (drop_items bufs shard k) (take k (bufs shard)).
Proof.
  intros Hs. split.
  - intros shard'. destruct (decide (shard' = shard)) as [->|Hne]; [exists k; apply drop_items_at|exists 0%nat; by apply drop_items_other].
  - destruct (all_items_update bufs shard (drop k (bufs shard)) Hs) as (rest & E1 & E2). unfold drop_items. rewrite E1, E2, app_assoc, take_drop. done.
  - intros item Hi. exists shard. split; [done|]. by eapply elem_of_take in Hi as (i & ? & _); eapply list_elem_of_lookup_2.
Qed.

Lemma drains_trans bufs1 bufs2 bufs3 sent1 sent2 : drains bufs1 bufs2 sent1 → drains bufs2 bufs3 sent2 → drains bufs1 bufs3 (sent1 ++ sent2).
Proof.
  intros [A1 A2 A3] [B1 B2 B3]. split.
  - intros shard. destruct (A1 shard) as [k Hk], (B1 shard) as [k' Hk']. exists (k + k')%nat. by rewrite Hk', Hk, drop_drop.
  - by rewrite A2, B2, app_assoc.
  - intros item [Hi|Hi]%elem_of_app; [by apply A3|]. destruct (B3 item Hi) as (shard & Hs & Hin). exists shard. split; [done|]. destruct (A1 shard) as [k Hk]. rewrite Hk in Hin.
    apply list_elem_of_lookup in Hin as [i Hl]. rewrite lookup_drop in Hl. by eapply list_elem_of_lookup_2.
Qed.

Lemma drains_fine layout bufs bufs' sent : (∀ shard, shard ∈ S → Forall (item_fine layout) (bufs shard)) → drains bufs bufs' sent → Forall (item_fine layout) sent.
Proof. intros F [_ _ D]. apply Forall_forall. intros item Hi. destruct (D item Hi) as (shard & Hs & Hin). specialize (F shard Hs). rewrite Forall_forall in F. by apply F. Qed.

Abbreviation forward_shards := (forward_shards as_bytes get_account_type account_le hash_bytes fees wasm_config).

(** The state of the sink while buffers are drained. *)
Record draining (layout : Layout) (base : Z * Z) (sink0 : Sink) (bufs0 bufs : Z → list Item) (sent : list Item) (n z g : Z) (u0 : U) (s : Sink * U) : Prop := {
  dg_rep : sink_rep layout base bufs s;
  dg_trie : in_trie bufs s;
  dg_frame : sink_frame u0 s.2;
  dg_room : sink_room bufs n z g s.1;
  dg_spent : spent layout sink0 sent s.1;
  dg_drains : drains bufs0 bufs sent
}.

Lemma forward_shards_ok layout base sink0 bufs0 u0 n z g shards : ∀ bufs sent s b done_shards,
  draining layout base sink0 bufs0 bufs sent n z g u0 s → 0 <= base.1 → 0 <= n → 0 <= z → 0 <= g → Forall (λ shard, shard ∈ S) shards →
  (∀ shard, shard ∈ done_shards → blocked layout s.1 (bufs shard)) → (b = true → ∀ shard, shard ∈ done_shards → bufs shard = []) →
  returns (forward_shards layout shards b : SM bool) s
    (λ b' s', ∃ bufs' sent', draining layout base sink0 bufs0 bufs' sent' n z g u0 s' ∧
       (∀ shard, shard ∈ done_shards ++ shards → blocked layout s'.1 (bufs' shard)) ∧
       (b' = true → ∀ shard, shard ∈ done_shards ++ shards → bufs' shard = [])).
Proof.
  induction shards as [|shard shards IH]; intros bufs sent [sink u] b pre [C1 C2 C3 C4 C5 C6] Hbase Hn Hz Hg Hin Hbl He.
  - apply returns_ret. exists bufs, sent. rewrite app_nil_r. by split_and!.
  - apply Forall_cons in Hin as [Hs Hin]. cbn [ReceiptSink.forward_shards fst snd] in *. pose proof (sr_fine _ _ _ _ C1) as F.
    eapply returns_bind; [by apply (forward_to_shard_ok layout base bufs sink0 sink sent u shard n z g)|].
    intros [] [sink1 u1] (k & D1 & D2 & D3 & D4 & D5 & D6). cbn [fst snd] in *. eapply returns_step; [done|].
    pose proof (sr_buffer _ _ _ _ D1 shard Hs) as Hb. cbn [fst snd] in Hb. rewrite drop_items_at in Hb. cbn [fst snd]. rewrite (queue_len_ok st_view item_ok buffer_wf _ _ _ Hb). eapply returns_step; [done|].
    replace (pre ++ shard :: shards) with ((pre ++ [shard]) ++ shards) by by rewrite <-app_assoc.
    apply (IH (drop_items bufs shard k) (sent ++ take k (bufs shard))); try done.
    + split; try done; [by eapply sink_frame_trans|]. by eapply drains_trans, drains_drop.
    + intros shard' Hp. destruct (decide (shard' = shard)) as [->|Hne]; [by rewrite drop_items_at|]. rewrite drop_items_other by done.
      apply elem_of_app in Hp as [Hp|Hp%list_elem_of_singleton]; [|done]. eapply blocked_mono; [exact C5|exact D5|by apply Forall_take, F|by apply Hbl].
    + intros [Hb1 Hb2]%andb_true_iff shard' Hp. to_prop. assert (drop k (bufs shard) = []) as E by (apply nil_length_inv; lia).
      destruct (decide (shard' = shard)) as [->|Hne]; [by rewrite drop_items_at|]. rewrite drop_items_other by done.
      apply elem_of_app in Hp as [Hp|Hp%list_elem_of_singleton]; [by apply He|done].
Qed.

(** * A whole chunk *)

(** The shards that the sink forwards from are the ones that buffers may be for. *)
Definition sink_shards (info : ReceiptSinkV2Info (AccountId := AccountId)) : Prop := ∀ shard, shard ∈ S ↔ shard ∈ parent_shard_ids info ∨ shard ∈ shard_ids (shard_layout info).

Abbreviation forward_from_buffer := (forward_from_buffer as_bytes get_account_type account_le hash_bytes fees wasm_config).
Abbreviation forward_or_buffer_receipt := (forward_or_buffer_receipt as_bytes get_account_type account_le hash_bytes fees wasm_config use_state_stored_receipt).

Lemma all_empty bufs : (∀ shard, shard ∈ S → bufs shard = []) → all_gases bufs = 0.
Proof. intros He. unfold all_gases. apply sum_over_zero. intros shard Hs. by rewrite He. Qed.

Lemma forward_from_buffer_ok info base bufs (sink0 : Sink) s u0 n z g :
  sink_shards info → draining (shard_layout info) base sink0 bufs bufs [] n z g u0 s → 0 <= base.1 → 0 <= n → 0 <= z → 0 <= g →
  returns (forward_from_buffer info : SM ()) s
    (λ _ s', ∃ bufs' sent', draining (shard_layout info) base sink0 bufs bufs' sent' n z g u0 s' ∧ ∀ shard, shard ∈ S → blocked (shard_layout info) s'.1 (bufs' shard)).
Proof.
  intros Hsh Hd Hbase Hn Hz Hg. unfold forward_from_buffer. set (parents := merge_sort Z.le (elements (parent_shard_ids info))).
  assert (∀ shard, shard ∈ parents ↔ shard ∈ parent_shard_ids info) as Hp by (intros shard; unfold parents; by rewrite merge_sort_Permutation, elem_of_elements).
  eapply returns_bind; [apply (forward_shards_ok (shard_layout info) base sink0 bufs u0 n z g parents bufs [] s true []); try done|].
  - apply Forall_forall. intros shard Hin%Hp. apply Hsh. by left.
  - intros shard Hin. by apply not_elem_of_nil in Hin.
  - intros _ shard Hin. by apply not_elem_of_nil in Hin.
  - intros b1 s1 (bufs1 & sent1 & Hd1 & Hbl1 & He1). cbn [app] in *.
    eapply returns_bind; [apply (forward_shards_ok (shard_layout info) base sink0 bufs u0 n z g (shard_ids (shard_layout info)) bufs1 sent1 s1 b1 parents); try done|].
    + apply Forall_forall. intros shard Hin. apply Hsh. by right.
    + intros b2 s2 (bufs2 & sent2 & Hd2 & Hbl2 & He2). assert (∀ shard, shard ∈ S → shard ∈ parents ++ shard_ids (shard_layout info)) as Hall by (intros shard Hs%Hsh; by rewrite elem_of_app, Hp).
      eapply returns_step; [done|]. destruct b2; [|apply returns_ret; exists bufs2, sent2; auto].
      rewrite (sr_gas _ _ _ _ (dg_rep _ _ _ _ _ _ _ _ _ _ _ Hd2)), all_empty by auto. apply returns_ret. exists bufs2, sent2. auto.
Qed.

(** New receipts, one after the other. *)
Fixpoint forward_all (info : ReceiptSinkV2Info) (receipts : list Rcpt) : SM () :=
  match receipts with
  | [] => mret ()
  | receipt :: receipts => _ ← forward_or_buffer_receipt info receipt; forward_all info receipts
  end.

(** Receipts were added at the ends of the buffers or sent. *)
Record extends (bufs bufs' : Z → list Item) (sent : list Item) (receipts : list Rcpt) : Prop := {
  ex_prefix : ∀ shard, ∃ new, bufs' shard = bufs shard ++ new;
  ex_items : (measured <$> sent ++ all_items bufs') ≡ₚ (measured <$> all_items bufs) ++ (measured ∘ PlainReceipt <$> receipts)
}.

Lemma extends_new layout sink bufs r bufs' sent t : t ∈ S → target_of r layout = ROk t → after_new layout sink bufs r bufs' sent → extends bufs bufs' sent [r].
Proof.
  intros Hs Ht (t' & Ht' & Hn). assert (t' = t) as -> by congruence. destruct (fits _ _ _ _); destruct Hn as [-> ->].
  - split; [intros shard; exists []; by rewrite app_nil_r|]. cbn [app fmap list_fmap into_receipt]. by rewrite Permutation_app_comm.
  - set (item := stored_item _ _ _ _). destruct (all_items_update bufs t (bufs t ++ [item]) Hs) as (rest & E1 & E2). split.
    + intros shard. unfold add_item. destruct (decide (t = shard)) as [->|Hne]; [exists [item]; by rewrite fn_lookup_insert|exists []; by rewrite fn_lookup_insert_ne, app_nil_r].
    + cbn [app]. unfold add_item. rewrite E1, E2. rewrite !fmap_app. cbn [fmap list_fmap]. unfold item, compose. rewrite measured_stored_item, <-!app_assoc. apply Permutation_app_head. by rewrite Permutation_app_comm.
Qed.

Lemma extends_trans bufs1 bufs2 bufs3 sent1 sent2 r1 r2 : extends bufs1 bufs2 sent1 r1 → extends bufs2 bufs3 sent2 r2 → extends bufs1 bufs3 (sent1 ++ sent2) (r1 ++ r2).
Proof.
  intros [A1 A2] [B1 B2]. split.
  - intros shard. destruct (A1 shard) as [n1 E1], (B1 shard) as [n2 E2]. exists (n1 ++ n2). by rewrite E2, E1, app_assoc.
  - rewrite (fmap_app _ r1 r2), (app_assoc _ _ (_ <$> r2)), <-A2, <-app_assoc, (fmap_app _ sent1), (fmap_app _ sent1 (all_items bufs2)), B2, <-app_assoc. done.
Qed.

Definition receipt_sizes (receipts : list Rcpt) : Z := sizes (entry <$> (PlainReceipt <$> receipts)).
Definition receipt_gases (receipts : list Rcpt) : Z := gases (entry <$> (PlainReceipt <$> receipts)).

Lemma sink_room_mono bufs n z g n' z' g' sink : sink_room bufs n z g sink → n' <= n → z' <= z → g' <= g → sink_room bufs n' z' g' sink.
Proof.
  intros [RI RG RB RGa RF RBu] Hn Hz Hg. split; [intros shard Hs; specialize (RI shard Hs); lia|intros shard Hs; specialize (RG shard Hs); lia|lia|lia|..];
    intros shard; (eapply stats_room_mono; [apply (RF shard) || apply (RBu shard)|lia..]).
Qed.

Lemma forward_all_ok info base (sink0 : Sink) receipts : ∀ bufs sent sink u,
  sink_rep (shard_layout info) base bufs (sink, u) → 0 <= base.1 → spent (shard_layout info) sink0 sent sink → Forall (λ r, item_fine (shard_layout info) (PlainReceipt r)) receipts →
  sink_room bufs (Z.of_nat (length receipts)) (receipt_sizes receipts) (receipt_gases receipts) sink →
  returns (forward_all info receipts) (sink, u)
    (λ _ s, ∃ bufs' sent', sink_rep (shard_layout info) base bufs' s ∧ sink_frame u s.2 ∧ spent (shard_layout info) sink0 (sent ++ sent') s.1 ∧ extends bufs bufs' sent' receipts).
Proof.
  induction receipts as [|r receipts IH]; intros bufs sent sink u Hrep Hbase Hsp Hf Hroom.
  - apply returns_ret. exists bufs, []. split_and!; [done|done|by rewrite app_nil_r|]. split; [intros shard; exists []; by rewrite app_nil_r|by rewrite !app_nil_r].
  - apply Forall_cons in Hf as [Hr Hf]. unfold receipt_sizes, receipt_gases in Hroom. rewrite fmap_cons, sizes_entries_cons, gases_entries_cons in Hroom. cbn [length] in Hroom.
    assert (Forall entry_ok (entry <$> (PlainReceipt <$> receipts))) as He by (eapply fine_entries, Forall_fmap; exact Hf).
    pose proof (sizes_nonneg _ He). pose proof (gases_nonneg _ He). cbn [forward_all].
    eapply returns_bind; [apply (forward_or_buffer_ok info base bufs sink0 sink sent u r _ _ _ Hrep Hbase Hsp Hr Hroom); lia|].
    intros [] [sink1 u1] (bufs1 & sent1 & Hn & Hrep1 & Hfr1 & Hsp1 & Hroom1). cbn [fst snd] in *.
    eapply returns_mono; [apply (IH bufs1 (sent ++ sent1) sink1 u1 Hrep1 Hbase Hsp1 Hf)|].
    + eapply sink_room_mono; [exact Hroom1|unfold receipt_sizes, receipt_gases; lia..].
    + intros [] s (bufs2 & sent2 & Hrep2 & Hfr2 & Hsp2 & Hex). exists bufs2, (sent1 ++ sent2). destruct (fine_target _ _ Hr) as (t & HtS & Ht).
      split_and!; [done|by eapply sink_frame_trans|by rewrite app_assoc|]. apply (extends_trans bufs bufs1 bufs2 sent1 sent2 [r] receipts); [by eapply extends_new|done].
Qed.

Lemma spent_init layout (sink : Sink) : (∀ t, 0 <= limit_gas (limit_at sink t) ∧ 0 <= limit_size (limit_at sink t)) → spent layout sink [] sink.
Proof. intros Hl. split; [by rewrite app_nil_r|..]; intros t; unfold sent_gas, sent_size; cbn; [lia..|apply Hl]. Qed.

(** The state at the start of a chunk that will produce [receipts]. *)
Record chunk_start (info : ReceiptSinkV2Info) (base : Z * Z) (bufs : Z → list Item) (receipts : list Rcpt) (s : Sink * U) : Prop := {
  cs_shards : sink_shards info;
  cs_rep : sink_rep (shard_layout info) base bufs s;
  cs_base : 0 <= base.1;
  cs_trie : in_trie bufs s;
  cs_room : sink_room bufs (Z.of_nat (length receipts)) (receipt_sizes receipts) (receipt_gases receipts) s.1;
  cs_limits : ∀ t, 0 <= limit_gas (limit_at s.1 t) ∧ 0 <= limit_size (limit_at s.1 t);
  cs_receipts : Forall (λ r, item_fine (shard_layout info) (PlainReceipt r)) receipts
}.

(** Draining the buffers from there. *)
Lemma drain_chunk_ok info base bufs receipts s :
  chunk_start info base bufs receipts s →
  returns (forward_from_buffer info : SM ()) s
    (λ _ s', ∃ bufs' sent, draining (shard_layout info) base s.1 bufs bufs' sent (Z.of_nat (length receipts)) (receipt_sizes receipts) (receipt_gases receipts) s.2 s' ∧
       ∀ shard, shard ∈ S → blocked (shard_layout info) s'.1 (bufs' shard)).
Proof.
  intros [C1 C2 C3 C4 C5 C6 C7]. assert (Forall entry_ok (entry <$> (PlainReceipt <$> receipts))) as He by (eapply fine_entries, Forall_fmap; exact C7).
  pose proof (sizes_nonneg _ He) as Hz. pose proof (gases_nonneg _ He) as Hg. apply forward_from_buffer_ok; try done; [|lia].
  split; try done; [by apply spent_init|apply drains_refl].
Qed.

(** The state at its end: [sent] was sent, the buffers hold [bufs']. *)
Record chunk_end (info : ReceiptSinkV2Info) (base : Z * Z) (bufs bufs' : Z → list Item) (sent : list Item) (receipts : list Rcpt) (s s' : Sink * U) : Prop := {
  ce_rep : sink_rep (shard_layout info) base bufs' s';
  ce_frame : sink_frame s.2 s'.2;
  ce_spent : spent (shard_layout info) s.1 sent s'.1;
  ce_order : ∀ shard, ∃ k new, bufs' shard = drop k (bufs shard) ++ new;
  ce_items : (measured <$> sent ++ all_items bufs') ≡ₚ (measured <$> all_items bufs) ++ (measured ∘ PlainReceipt <$> receipts)
}.

(** The same without the measures. *)
Lemma ce_receipts info base bufs bufs' sent receipts s s' : chunk_end info base bufs bufs' sent receipts s s' →
  (into_receipt <$> sent ++ all_items bufs') ≡ₚ (into_receipt <$> all_items bufs) ++ receipts.
Proof.
  intros Hc. pose proof (fmap_Permutation fst _ _ (ce_items _ _ _ _ _ _ _ _ Hc)) as H. rewrite (fmap_app fst), <-!list_fmap_compose in H.
  by rewrite (list_fmap_ext (fst ∘ (measured ∘ PlainReceipt)) id receipts) in H by done; rewrite list_fmap_id in H.
Qed.

(** Drain the buffers, then forward or buffer the new receipts. *)
Definition forward_chunk (info : ReceiptSinkV2Info) (receipts : list Rcpt) : SM () := _ ← forward_from_buffer info; forward_all info receipts.

Lemma forward_chunk_ok info base bufs receipts s :
  chunk_start info base bufs receipts s → returns (forward_chunk info receipts) s (λ _ s', ∃ bufs' sent, chunk_end info base bufs bufs' sent receipts s s').
Proof.
  intros Hs. unfold forward_chunk. eapply returns_bind; [by apply (drain_chunk_ok info base bufs receipts)|]. destruct Hs as [C1 C2 C3 C4 C5 C6 C7].
  intros [] [sink1 u1] (bufs1 & sent1 & [D1 D2 D3 D4 D5 D6] & _). cbn [fst snd] in *.
  eapply returns_mono; [by apply (forward_all_ok info base s.1 receipts bufs1 sent1 sink1 u1)|].
  intros [] s2 (bufs2 & sent2 & E1 & E2 & E3 & E4). exists bufs2, (sent1 ++ sent2). split; [done|by eapply sink_frame_trans|done| |].
  - intros shard. destruct (dn_suffix _ _ _ D6 shard) as [k Hk], (ex_prefix _ _ _ _ E4 shard) as [new Hn]. exists k, new. by rewrite Hn, Hk.
  - rewrite <-app_assoc, fmap_app, (ex_items _ _ _ _ E4), app_assoc, <-fmap_app. by rewrite (dn_items _ _ _ D6).
Qed.

(** The indices in the state are those of the buffers. *)
Lemma load_buffers_ok b u bufs :
  (∀ shard, shard ∈ S → buffer_rep (to_shard b shard) u (bufs shard)) → buffers_stored u b → (∀ shard i, shards_indices b !! shard = Some i → shard ∈ S) →
  load_buffers (st_get u) = (ROk b : Res Error _).
Proof.
  intros B St Dom. unfold load_buffers, read_value. assert (key_ok BufferedReceiptIndices) as Hk by (by apply buffered_indices_ok). rewrite st_get_ok by exact Hk. destruct St as [->|[-> He]]; cbn [decode_item].
  - rewrite (try_from_slice_encode indices_map_ok); [by destruct b|]. intros shard i Hi. pose proof (Dom shard i Hi) as Hs. destruct (B shard Hs) as [_ Q1 Q2 Q3 _ _].
    pose proof (S_ok shard Hs) as H16. cbn in Q1, Q2, Q3. rewrite Hi in Q1, Q2, Q3. cbn in Q1, Q2, Q3. unfold in_u, umax in *. lia.
  - cbn. destruct b as [m]. cbn in He. by rewrite He.
Qed.

(** C5: No receipt is lost and the congestion info counts exactly what is buffered.  From a state in which the buffers, their
    metadata and the congestion info agree, draining the buffers and then forwarding or buffering any receipts that the chunk
    produces returns without an error or a panic while the sums and indices fit their types.  The receipts that are sent and
    those in the buffers are together the receipts that were in the buffers before and the new ones; every buffer lost a prefix and
    gained new receipts at its end; the info counts the gas and the bytes of the buffers, and the queues in the state hold
    the receipts that the indices in the state say. *)
Theorem sink_conserves_receipts (info : ReceiptSinkV2Info) (base : Z * Z) (bufs : Z → list Item) (receipts : list Rcpt) (sink : Sink) (u : U) :
  chunk_start info base bufs receipts (sink, u) →
  ∃ sink' u' bufs' sent, forward_chunk info receipts (sink, u) = Ok () (sink', u') ∧
    outgoing_receipts sink' = outgoing_receipts sink ++ (into_receipt <$> sent) ∧
    (into_receipt <$> sent ++ all_items bufs') ≡ₚ (into_receipt <$> all_items bufs) ++ receipts ∧
    (∀ shard, ∃ k new, bufs' shard = drop k (bufs shard) ++ new) ∧
    buffered_receipts_gas (own_congestion_info sink') = all_gases bufs' ∧ receipt_bytes (own_congestion_info sink') = base.1 + all_sizes bufs' ∧
    delayed_receipts_gas (own_congestion_info sink') = base.2 ∧
    load_buffers (st_get u') = (ROk (outgoing_buffers sink') : Res Error _) ∧
    ∀ shard, shard ∈ S → queue_iter (st_get u') (to_shard (outgoing_buffers sink') shard) = (λ x, Some (inr x : Error + Item)) <$> bufs' shard.
Proof.
  intros Hs. destruct (returns_inv _ _ _ (forward_chunk_ok info base bufs receipts (sink, u) Hs)) as ([] & [sink' u'] & Hu & bufs' & sent & Hc). pose proof (ce_receipts _ _ _ _ _ _ _ _ Hc).
  destruct Hc as [E1 E2 E3 E4 E5]. cbn [fst snd] in *. exists sink', u', bufs', sent. split_and!; [done|apply E3|done|done|apply E1|apply E1|apply E1|by eapply load_buffers_ok; apply E1|].
  intros shard Hin. by apply (queue_iter_ok key_ok st_view st_trie_view item_ok buffer_wf buffer_key buffer_value), (sr_buffer _ _ _ _ E1).
Qed.

(** C6: The limits are kept and used.  In such a chunk, what is sent to a shard uses up its limits exactly: the gas and the size that
    the sink counts for the sent receipts, where a receipt counts at most with the maximal receipt size, are what the limits of
    the shard have lost since the start of the chunk, and no limit becomes negative.  What is counted are the measures that the
    receipts had in the buffers, or that were computed for new ones: with the buffers in the state afterwards they make up the
    buffers before and the new receipts.  And after the buffers were drained, the first receipt of every buffer that is not empty
    does not fit into what is left of the limits of its receiver. *)
Theorem sink_respects_limits (info : ReceiptSinkV2Info) (base : Z * Z) (bufs : Z → list Item) (receipts : list Rcpt) (sink : Sink) (u : U) :
  chunk_start info base bufs receipts (sink, u) →
  (∃ sink' u' bufs' sent, forward_chunk info receipts (sink, u) = Ok () (sink', u') ∧
     outgoing_receipts sink' = outgoing_receipts sink ++ (into_receipt <$> sent) ∧
     (measured <$> sent ++ all_items bufs') ≡ₚ (measured <$> all_items bufs) ++ (measured ∘ PlainReceipt <$> receipts) ∧
     (∀ shard, shard ∈ S → queue_iter (st_get u') (to_shard (outgoing_buffers sink') shard) = (λ x, Some (inr x : Error + Item)) <$> bufs' shard) ∧
     ∀ t, (sent_gas (shard_layout info) t sent + limit_gas (limit_at sink' t) = limit_gas (limit_at sink t) ∧ 0 <= limit_gas (limit_at sink' t)) ∧
       (sent_size (shard_layout info) t sent + limit_size (limit_at sink' t) = limit_size (limit_at sink t) ∧ 0 <= limit_size (limit_at sink' t))) ∧
  (∃ sink' u' bufs', forward_from_buffer info (sink, u) = (Ok () (sink', u') : outcome _ Error _) ∧ sink_rep (shard_layout info) base bufs' (sink', u') ∧
     ∀ shard, shard ∈ S → blocked (shard_layout info) sink' (bufs' shard)).
Proof.
  intros Hs. split.
  - destruct (returns_inv _ _ _ (forward_chunk_ok info base bufs receipts (sink, u) Hs)) as ([] & [sink' u'] & Hu & bufs' & sent & [E1 E2 E3 E4 E5]). cbn [fst snd] in *.
    exists sink', u', bufs', sent. destruct E3 as [P1 P2 P3 P4]. split; [done|]. split; [done|]. split; [done|]. split.
    + intros shard Hin. by apply (queue_iter_ok key_ok st_view st_trie_view item_ok buffer_wf buffer_key buffer_value), (sr_buffer _ _ _ _ E1).
    + intros t. specialize (P2 t). specialize (P3 t). specialize (P4 t). lia.
  - destruct (returns_inv _ _ _ (drain_chunk_ok info base bufs receipts (sink, u) Hs)) as ([] & [sink' u'] & Hu & bufs' & sent & Hd & Hbl).
    exists sink', u', bufs'. split_and!; [done|apply Hd|done].
Qed.
End rep.
