(* ===== verification/DelayedCorrect.v ===== *)
(** Correctness of the queue of delayed receipts and of the congestion info over a whole chunk: what the info
    counts is what would be computed from the state. *)

From stdpp Require Import functions sorting.
From S2P Require Import Prelude Errors Borsh Costs TrieKey ShardLayout Bandwidth Fees Receipt TrieQueue ReceiptQueues OutgoingMetadata CongestionInfo ReceiptSink DelayedReceipts ReceiptSinkCorrect.
Local Open Scope Z_scope.

(** What the indices of a queue must satisfy to be stored. *)
Definition queue_indices_ok (i : TrieQueueIndices) : Prop := in_u 64 (first_index i) ∧ in_u 64 (next_available_index i).

Section delayed.
Context {AccountId StorageError U : Type} `{!EqDecision AccountId} `{!StateStore (TrieKey AccountId) StorageError U}.
Context `{!Borsh AccountId} `{!Borsh (ReceiptEnum AccountId)} `{!Borsh TrieQueueIndices} `{!Borsh (gmap Z TrieQueueIndices)}.
Context `{!Borsh ReceiptGroupsQueueData} `{!Borsh ReceiptGroup}.
Context (as_bytes : AccountId → bytes) (get_account_type : AccountId → AccountType).
Context (account_le : relation AccountId) `{!RelDecision account_le} (hash_bytes : AccountId → list Z).
Context (fees : RuntimeFeesConfig) (wasm_config : VmConfig) (use_state_stored_receipt : bool).
Context (key_ok : TrieKey AccountId → Prop) (st_view : U → TrieKey AccountId → option (list Z)) (st_trie_view : U → Base (TrieKey AccountId)).
Context `{!StateStoreOk (TrieKey AccountId) StorageError U key_ok st_view st_trie_view} `{!QueueKeys key_ok}.
Context (enum_ok : ReceiptEnum AccountId → Prop) `{!AccountIdBorsh as_bytes} `{!BorshOk (ReceiptEnum AccountId) enum_ok}.
Context `{!BorshOk ReceiptGroup group_ok} `{!BorshOk (gmap Z TrieQueueIndices) indices_map_ok} `{!BorshOk TrieQueueIndices queue_indices_ok}.
Context (S : gset Z) (S_ok : ∀ shard, shard ∈ S → in_u 16 shard).

Abbreviation Rcpt := (Receipt AccountId).
Abbreviation Item := (ReceiptOrStateStoredReceipt AccountId).
Abbreviation Layout := (ShardLayout (AccountId := AccountId)).
Abbreviation Error := (RuntimeError StorageError).
Abbreviation Wrapper := (DelayedReceiptQueueWrapper (AccountId := AccountId)).
Abbreviation WM := (M (Wrapper * U) Error).
Abbreviation item_ok := (stored_ok enum_ok).
Abbreviation size_of := (size_of (AccountId := AccountId)).
Abbreviation gas_of := (gas_of as_bytes get_account_type fees wasm_config).
Abbreviation entry := (entry as_bytes get_account_type fees wasm_config).
Abbreviation item_fine := (item_fine as_bytes get_account_type account_le hash_bytes fees wasm_config enum_ok S).
Abbreviation goes_to := (goes_to account_le hash_bytes).

Abbreviation delayed_wf := (λ _ : DelayedReceiptQueue, True).
Abbreviation delayed_key := (λ _ : DelayedReceiptQueue, DelayedReceiptIndices).
Abbreviation delayed_value := (λ q, borsh_encode (delayed_indices q)).
Abbreviation queue_rep := (TrieQueue.queue_rep st_view item_ok delayed_wf).
Abbreviation delayed_frame := (TrieQueue.frame key_ok st_view st_trie_view delayed_key (mkDelayedReceiptQueue default_indices)).

(** * The queue *)

Definition delayed_stored (u : U) (q : DelayedReceiptQueue) : Prop :=
  st_view u DelayedReceiptIndices = Some (borsh_encode (delayed_indices q)) ∨ st_view u DelayedReceiptIndices = None ∧ delayed_indices q = default_indices.

(** The queue holds [items]. *)
Record delayed_rep (items : list Item) (s : Wrapper * U) : Prop := {
  de_queue : queue_rep (queue s.1) s.2 items;
  de_fine : Forall (item_fine (layout s.1)) items;
  de_stored : delayed_stored s.2 (queue s.1)
}.

Lemma any_frame (q : DelayedReceiptQueue) u u' : TrieQueue.frame key_ok st_view st_trie_view delayed_key q u u' → delayed_frame u u'.
Proof. by apply frame_same. Qed.

(** The sums of what entered and of what left. *)
Record delayed_room (n z g : Z) (items : list Item) (w : Wrapper) : Prop := {
  dm_index : next_available_index (delayed_indices (queue w)) + n <= umax 64;
  dm_new_gas : 0 <= new_delayed_gas w ∧ new_delayed_gas w + g <= umax 64;
  dm_new_bytes : 0 <= new_delayed_bytes w ∧ new_delayed_bytes w + z <= umax 64;
  dm_removed_gas : 0 <= removed_delayed_gas w ∧ removed_delayed_gas w + gases (entry <$> items) + g <= umax 64;
  dm_removed_bytes : 0 <= removed_delayed_bytes w ∧ removed_delayed_bytes w + sizes (entry <$> items) + z <= umax 64
}.

(** The wrapper after changes of its sums. *)
Definition counts (w w' : Wrapper) (pushed popped : list Item) : Prop :=
  layout w' = layout w ∧ own_shard w' = own_shard w ∧
  new_delayed_gas w' = new_delayed_gas w + gases (entry <$> pushed) ∧ new_delayed_bytes w' = new_delayed_bytes w + sizes (entry <$> pushed) ∧
  removed_delayed_gas w' = removed_delayed_gas w + gases (entry <$> popped) ∧ removed_delayed_bytes w' = removed_delayed_bytes w + sizes (entry <$> popped).

Lemma counts_none w : counts w w [] [].
Proof. unfold counts. change (sizes (entry <$> [])) with 0. change (gases (entry <$> [])) with 0. split_and!; done || lia. Qed.

Lemma on_queue_ok {A} (m : M (DelayedReceiptQueue * U) Error A) (w : Wrapper) (u u' : U) a q :
  m (queue w, u) = Ok a (q, u') → on_queue m (w, u) = Ok a (set_queue q w, u').
Proof.
  intros H. unfold on_queue.
  by apply (zoom_Ok (λ s : Wrapper * U, (queue s.1, s.2)) (λ t s, (set_queue t.1 s.1, t.2)) m (w, u) a (q, u')).
Qed.

Lemma safe_add_ok a b (s : Wrapper * U) : a + b <= umax 64 → (run_res from_overflow (safe_add_gas a b) : WM Z) s = Ok (a + b) s.
Proof. intros H. unfold safe_add_gas. by rewrite checked_add_ok. Qed.

Lemma entry_sums l item : sizes (entry <$> l ++ [item]) = sizes (entry <$> l) + size_of item ∧ gases (entry <$> l ++ [item]) = gases (entry <$> l) + gas_of item.
Proof.
  rewrite fmap_app, sizes_app, gases_app, fmap_cons, sizes_cons, gases_cons. cbn [fmap list_fmap ReceiptSinkCorrect.entry fst snd]. change (sizes []) with 0. change (gases []) with 0. lia.
Qed.

Lemma delayed_push_ok items w u r n z g :
  delayed_rep items (w, u) → item_fine (layout w) (PlainReceipt r) → delayed_room n z g items w → 1 <= n → size_of (PlainReceipt r) <= z → gas_of (PlainReceipt r) <= g →
  let item := delayed_item use_state_stored_receipt r (gas_of (PlainReceipt r)) (size_of (PlainReceipt r)) in
  returns (push as_bytes get_account_type fees wasm_config use_state_stored_receipt r : WM ()) (w, u)
    (λ _ s, delayed_rep (items ++ [item]) s ∧ delayed_frame u s.2 ∧ counts w s.1 [item] [] ∧
       delayed_room (n - 1) (z - size_of item) (g - gas_of item) (items ++ [item]) s.1 ∧ entry item = entry (PlainReceipt r)).
Proof.
  intros [Hq Hf Hst] Hr [RI RG RB XG XB] Hn Hz Hg item. cbn [fst snd] in *. pose proof Hr as [_ Hs Hga Hsz Hgz _].
  assert (item_fine (layout w) item) as Hi by (by apply (stored_item_fine as_bytes get_account_type account_le hash_bytes fees wasm_config use_state_stored_receipt enum_ok S)).
  assert (entry item = entry (PlainReceipt r)) as He by apply stored_item_entry. pose proof He as He'. injection He' as Ez Eg.
  unfold push. eapply returns_step; [by apply run_res_ok|]. eapply returns_step; [by apply run_res_ok|]. eapply returns_step; [done|]. cbn [fst snd].
  eapply returns_step; [apply safe_add_ok; lia|]. eapply returns_step; [done|]. eapply returns_step; [apply safe_add_ok; lia|]. eapply returns_step; [done|]. cbn [fst snd].
  destruct (push_back_ok key_ok st_view st_trie_view item_ok delayed_wf delayed_key delayed_value _ u items item Hq (fine_ok _ _ _ _ _ _ _ _ _ _ Hi)) as (u' & Hu & Hrep & Hfr & Hv); [cbn; lia|].
  eapply returns_Ok; [by apply on_queue_ok|]. cbn [fst snd]. destruct (entry_sums items item) as [E1 E2]. destruct (entry_sums [] item) as [E3 E4]. cbn [app] in E3, E4.
  change (sizes (entry <$> [])) with 0 in *. change (gases (entry <$> [])) with 0 in *. split_and!.
  - split; cbn [fst snd]; [exact Hrep|by rewrite Forall_app, Forall_singleton|by left].
  - by apply any_frame in Hfr.
  - unfold counts. rewrite E3, E4. change (sizes (entry <$> [])) with 0. change (gases (entry <$> [])) with 0. cbn. split_and!; done || lia.
  - split; rewrite ?E1, ?E2; cbn; lia.
  - done.
Qed.

(** A receipt that leaves is counted. *)
Lemma remove_counted_ok (w : Wrapper) u item : item_fine (layout w) item → removed_delayed_gas w + gas_of item <= umax 64 → removed_delayed_bytes w + size_of item <= umax 64 →
  (remove_counted as_bytes get_account_type fees wasm_config item : WM ()) (w, u) = Ok () (set_removed (removed_delayed_gas w + gas_of item) (removed_delayed_bytes w + size_of item) w, u).
Proof.
  intros [_ Hs Hga _ _ _] Hg Hz. unfold remove_counted. rewrite (bind_Ok _ _ _ (gas_of item) (w, u)) by by apply run_res_ok. rewrite (bind_Ok _ _ _ (size_of item) (w, u)) by by apply run_res_ok.
  rewrite (bind_Ok _ _ _ w (w, u)) by done. erewrite bind_Ok by by apply safe_add_ok. erewrite bind_Ok by done. by erewrite bind_Ok by by apply safe_add_ok.
Qed.

Lemma filter_fn_ok (w : Wrapper) item : item_fine (layout w) item → receipt_filter_fn account_le hash_bytes w item = Some (goes_to (layout w) (own_shard w) item).
Proof. intros [_ _ _ _ _ (t & _ & Ht)]. unfold receipt_filter_fn, ReceiptSinkCorrect.goes_to. by rewrite Ht. Qed.

Context (proof_limit_exceeded : U → bool).

(** What a pop returned after it took [k] receipts: the first receipt of the shard, or nothing at the end of the queue or at the limit. *)
Definition popped (w : Wrapper) (items : list Item) (k : nat) (r : option Item) (u' : U) : Prop :=
  match r with
  | Some item => ∃ j, k = Datatypes.S j ∧ items !! j = Some item ∧ goes_to (layout w) (own_shard w) item = true ∧
      Forall (λ i, goes_to (layout w) (own_shard w) i = false) (take j items)
  | None => Forall (λ i, goes_to (layout w) (own_shard w) i = false) (take k items) ∧ (drop k items = [] ∨ proof_limit_exceeded u' = true)
  end.

Abbreviation pop_loop := (pop_loop as_bytes get_account_type account_le hash_bytes fees wasm_config proof_limit_exceeded).

Lemma pop_loop_ok fuel : ∀ items w u n z g,
  (length items < fuel)%nat → delayed_rep items (w, u) → delayed_room n z g items w → 0 <= z → 0 <= g →
  returns (pop_loop fuel : WM _) (w, u)
    (λ r s, ∃ k, delayed_rep (drop k items) s ∧ delayed_frame u s.2 ∧ counts w s.1 [] (take k items) ∧ delayed_room n z g (drop k items) s.1 ∧ popped w items k r s.2).
Proof.
  induction fuel as [|fuel IH]; intros items w u n z g Hl Hd Hroom Hz0 Hg0; [lia|]. cbn [DelayedReceipts.pop_loop]. eapply returns_step; [done|]. cbn [fst snd].
  assert (∀ r, popped w items 0 r u → ∃ k, delayed_rep (drop k items) (w, u) ∧ delayed_frame u u ∧ counts w w [] (take k items) ∧ delayed_room n z g (drop k items) w ∧ popped w items k r u) as Hstay.
  { intros r Hp. exists 0%nat. split_and!; [done|apply frame_refl|rewrite take_0; apply counts_none|done|done]. }
  destruct (proof_limit_exceeded u) eqn:Hlim; [apply returns_ret; apply Hstay; split; [constructor|by right]|].
  pose proof Hd as [Hq Hf Hst]. cbn [fst snd] in *. destruct items as [|item items].
  - eapply returns_step; [apply on_queue_ok; by apply (pop_front_empty st_view item_ok delayed_wf)|]. replace (set_queue (queue w) w) with w by by destruct w.
    apply returns_ret. apply Hstay. split; [constructor|by left].
  - apply Forall_cons in Hf as [Hi Hf]. destruct (pop_front_ok key_ok st_view st_trie_view item_ok delayed_wf delayed_key delayed_value _ u item items Hq) as (u1 & Hu1 & Hrep & Hfr & Hv). apply any_frame in Hfr.
    eapply returns_step; [by apply on_queue_ok|]. set (w1 := set_queue _ w). destruct Hroom as [RI RG RB XG XB]. pose proof Hi as [_ _ _ Hsz Hgz _].
    assert (sizes (entry <$> item :: items) = size_of item + sizes (entry <$> items) ∧ gases (entry <$> item :: items) = gas_of item + gases (entry <$> items)) as [E1 E2]
      by (split; [apply sizes_entries_cons|apply gases_entries_cons]).
    assert (Forall entry_ok (entry <$> items)) as Hent by (by eapply fine_entries). pose proof (sizes_nonneg _ Hent). pose proof (gases_nonneg _ Hent).
    eapply returns_step; [apply (remove_counted_ok w1); [done|cbn; lia..]|]. eapply returns_step; [done|]. cbn [fst snd]. set (w2 := set_removed _ _ w1).
    rewrite (filter_fn_ok w2) by done. eapply returns_step; [done|].
    assert (delayed_rep items (w2, u1)) as Hd2 by (split; cbn [fst snd]; [exact Hrep|done|by left]).
    assert (delayed_room n z g items w2) as Hroom2 by (split; cbn; lia).
    change (goes_to (layout w2) (own_shard w2) item) with (goes_to (layout w) (own_shard w) item). destruct (goes_to (layout w) (own_shard w) item) eqn:Hmine.
    + apply returns_ret. exists 1%nat. cbn [fst snd]. split_and!; [done|done| |done|by exists 0%nat]. change (take 1 (item :: items)) with (item :: take 0 items). rewrite take_0. unfold counts. destruct (entry_sums [] item) as [E3 E4]. cbn [app] in E3, E4.
      rewrite E3, E4. change (sizes (entry <$> [])) with 0. change (gases (entry <$> [])) with 0. cbn. split_and!; done || lia.
    + eapply returns_mono; [apply (IH items w2 u1 n z g); [cbn in Hl; lia|done..]|]. intros r s (k & K1 & K2 & (L1 & L2 & L3 & L4 & L5 & L6) & K4 & K5). exists (Datatypes.S k). cbn [drop take].
      split_and!; [done|by eapply frame_trans| |done|].
      * unfold counts. rewrite fmap_cons, sizes_cons, gases_cons. cbn [ReceiptSinkCorrect.entry fst snd]. cbn in L1, L2, L3, L4, L5, L6. split_and!; done || lia.
      * destruct r as [i|]; cbn [popped] in *; [|destruct K5 as [K5 K6]; split; [by constructor|done]].
        destruct K5 as (j & -> & Hj & Hm & Hall). exists (Datatypes.S j). split_and!; [done|done|done|]. cbn [take]. by constructor.
Qed.

Abbreviation pop := (pop as_bytes get_account_type account_le hash_bytes fees wasm_config proof_limit_exceeded).

Lemma delayed_pop_ok items w u n z g :
  delayed_rep items (w, u) → delayed_room n z g items w → 0 <= z → 0 <= g →
  returns (pop : WM _) (w, u)
    (λ r s, ∃ k, delayed_rep (drop k items) s ∧ delayed_frame u s.2 ∧ counts w s.1 [] (take k items) ∧ delayed_room n z g (drop k items) s.1 ∧ popped w items k r s.2).
Proof.
  intros Hd Hroom Hz Hg. unfold DelayedReceipts.pop. eapply returns_step; [done|]. cbn [fst snd]. apply pop_loop_ok; [|done..].
  pose proof (qr_next _ _ _ _ _ _ (de_queue _ _ Hd)) as Hn. cbn in Hn. lia.
Qed.

(** ** The congestion info *)

(** The info after the sums of the wrapper were applied. *)
Definition applied (w : Wrapper) (i : CongestionInfo) : CongestionInfo :=
  put_delayed_gas (delayed_receipts_gas i + new_delayed_gas w - removed_delayed_gas w)
    (put_receipt_bytes (receipt_bytes i + new_delayed_bytes w - removed_delayed_bytes w) i).

Lemma apply_changes_ok (w : Wrapper) i :
  delayed_receipts_gas i + new_delayed_gas w <= umax 128 → removed_delayed_gas w <= delayed_receipts_gas i + new_delayed_gas w →
  receipt_bytes i + new_delayed_bytes w <= umax 64 → removed_delayed_bytes w <= receipt_bytes i + new_delayed_bytes w →
  (apply_congestion_changes w : M CongestionInfo Error ()) i = Ok () (applied w i).
Proof.
  intros H1 H2 H3 H4. unfold apply_congestion_changes. erewrite bind_Ok by (apply update_field_ok; by apply checked_add_ok).
  erewrite bind_Ok by (apply update_field_ok; by apply checked_sub_ok). erewrite bind_Ok by (by apply add_bytes_ok). by apply remove_bytes_ok.
Qed.

Lemma load_delayed_ok items s : delayed_rep items s → load_delayed (st_get s.2) = (ROk (queue s.1) : Res Error _).
Proof.
  intros [Hq _ Hst]. unfold load_delayed, read_value. assert (key_ok DelayedReceiptIndices) as Hk by (by apply delayed_indices_ok). rewrite st_get_ok by exact Hk.
  destruct Hst as [->|[-> He]]; cbn [decode_item].
  - rewrite (try_from_slice_encode queue_indices_ok); [by destruct (queue s.1)|]. destruct Hq as [_ Q1 Q2 Q3 _ _]. cbn in Q1, Q2, Q3. unfold queue_indices_ok, in_u. lia.
  - cbn. destruct (queue s.1) as [i]. cbn in He. by rewrite He.
Qed.

(** ** The sink and the delayed receipts use different keys *)

Abbreviation sink_rep := (sink_rep as_bytes get_account_type account_le hash_bytes fees wasm_config st_view enum_ok S).
Abbreviation sink_frame := (sink_frame key_ok st_view st_trie_view).

Lemma delayed_frame_foreign u u' k : delayed_frame u u' → key_ok k → k ≠ DelayedReceiptIndices → (∀ n, k ≠ DelayedReceipt n) → st_view u' k = st_view u k.
Proof. intros [V _] H1 H2 H3. by apply V. Qed.

Lemma delayed_frame_sink layout base bufs sink u u' : delayed_frame u u' → sink_rep layout base bufs (sink, u) → sink_rep layout base bufs (sink, u').
Proof.
  intros Hf. apply (sink_rep_keys as_bytes get_account_type account_le hash_bytes fees wasm_config key_ok st_view enum_ok S S_ok).
  intros k Hk Hs. apply (delayed_frame_foreign u); [done|done|by intros ->|by intros n ->].
Qed.

Lemma sink_frame_delayed items w u u' : sink_frame u u' → delayed_rep items (w, u) → delayed_rep items (w, u').
Proof.
  intros [V _] [Hq Hf Hst]. cbn [fst snd] in *. split; cbn [fst snd]; [|done|].
  - eapply (queue_rep_frame key_ok st_view item_ok delayed_wf delayed_key delayed_value); [exact Hq|]. intros k Hk (n & _ & ->). by apply V.
  - unfold delayed_stored. rewrite V; [done|]. split; [by apply delayed_indices_ok|done].
Qed.
End delayed.
