(* ===== verification/ChunkCongestion.v ===== *)
(** The congestion info of a chunk: it is computed from the state when no earlier info is known, and it is
    updated while receipts are delayed, taken from the queue, sent and buffered (runtime/runtime/src/lib.rs,
    [Runtime::apply] and runtime/runtime/src/congestion_control.rs).  Both give the same. *)

From stdpp Require Import functions sorting.
From S2P Require Import Prelude Errors Borsh Costs TrieKey ShardLayout Bandwidth Fees Receipt TrieQueue ReceiptQueues OutgoingMetadata CongestionInfo ReceiptSink DelayedReceipts ReceiptSinkCorrect DelayedCorrect.
Local Open Scope Z_scope.

Section chunk.
Context {AccountId StorageError U : Type} `{!EqDecision AccountId} `{!StateStore (TrieKey AccountId) StorageError U}.
Context `{!Borsh AccountId} `{!Borsh (ReceiptEnum AccountId)} `{!Borsh TrieQueueIndices} `{!Borsh (gmap Z TrieQueueIndices)}.
Context `{!Borsh ReceiptGroupsQueueData} `{!Borsh ReceiptGroup}.
Context (as_bytes : AccountId → bytes) (get_account_type : AccountId → AccountType).
Context (account_le : relation AccountId) `{!RelDecision account_le} (hash_bytes : AccountId → list Z).
Context (fees : RuntimeFeesConfig) (wasm_config : VmConfig) (use_state_stored_receipt : bool) (proof_limit_exceeded : U → bool).

Abbreviation Rcpt := (Receipt AccountId).
Abbreviation Item := (ReceiptOrStateStoredReceipt AccountId).
Abbreviation Layout := (ShardLayout (AccountId := AccountId)).
Abbreviation Error := (RuntimeError StorageError).
Abbreviation Wrapper := (DelayedReceiptQueueWrapper (AccountId := AccountId)).
Abbreviation Sink := (ReceiptSinkV2 (AccountId := AccountId)).
Abbreviation bootstrap_loop := (bootstrap_loop as_bytes get_account_type fees wasm_config).
Abbreviation bootstrap_buffers := (bootstrap_buffers as_bytes get_account_type fees wasm_config).
Abbreviation bootstrap_congestion_info := (bootstrap_congestion_info as_bytes get_account_type fees wasm_config).

(** What [Runtime::apply] does with the queue of delayed receipts and with the sink, in any order. *)
Inductive ChunkOp : Type :=
| DelayReceipt (receipt : Rcpt)
| TakeDelayed
| ForwardReceipt (receipt : Rcpt).

Abbreviation CM := (M (Wrapper * Sink * U) Error).

Definition on_delayed {A} (m : M (Wrapper * U) Error A) : CM A := zoom (λ s, (s.1.1, s.2)) (λ t s, (t.1, s.1.2, t.2)) m.
Definition on_sink {A} (m : M (Sink * U) Error A) : CM A := zoom (λ s, (s.1.2, s.2)) (λ t s, (s.1.1, t.1, t.2)) m.

Definition run_op (info : ReceiptSinkV2Info) (op : ChunkOp) : CM () :=
  match op with
  | DelayReceipt receipt => on_delayed (push as_bytes get_account_type fees wasm_config use_state_stored_receipt receipt)
  | TakeDelayed => _ ← on_delayed (pop as_bytes get_account_type account_le hash_bytes fees wasm_config proof_limit_exceeded); mret ()
  | ForwardReceipt receipt => on_sink (forward_or_buffer_receipt as_bytes get_account_type account_le hash_bytes fees wasm_config use_state_stored_receipt info receipt)
  end.

Fixpoint run_chunk_ops (info : ReceiptSinkV2Info) (ops : list ChunkOp) : CM () :=
  match ops with
  | [] => mret ()
  | op :: ops => _ ← run_op info op; run_chunk_ops info ops
  end.

(** The info at the end of the chunk, in [validate_apply_state_update]. *)
Definition final_info (layout : Layout) (shard_id block_height : Z) : CM CongestionInfo :=
  s ← get_state;
  match apply_congestion_changes s.1.1 (own_congestion_info s.1.2) with
  | Ok _ i => run_res from_epoch (finalize_own_info layout shard_id block_height i)
  | Err e _ => throw e
  | Panic => panic
  | OutOfFuel => out_of_fuel
  end.

Definition apply_chunk (info : ReceiptSinkV2Info) (shard_id : Z) (ops : list ChunkOp) (block_height : Z) : CM CongestionInfo :=
  _ ← on_sink (forward_from_buffer as_bytes get_account_type account_le hash_bytes fees wasm_config info);
  _ ← run_chunk_ops info ops;
  final_info (shard_layout info) shard_id block_height.

(** [ApplyState::own_congestion_info] *)
Definition apply_state_own_info (infos : BlockCongestionInfo) (read : TrieKey AccountId → option (StorageError + option (list Z))) (shard_id : Z) : Res Error CongestionInfo :=
  match block_info_get shard_id infos with
  | Some extended => mret (congestion_info extended)
  | None => match bootstrap_congestion_info read shard_id with
            | ROk i => ROk i
            | RErr e => RErr (RtStorageError e)
            | RPanic => RPanic
            end
  end.

Context (key_ok : TrieKey AccountId → Prop) (st_view : U → TrieKey AccountId → option (list Z)) (st_trie_view : U → Base (TrieKey AccountId)).
Context `{!StateStoreOk (TrieKey AccountId) StorageError U key_ok st_view st_trie_view} `{!QueueKeys key_ok}.
Context (enum_ok : ReceiptEnum AccountId → Prop) `{!AccountIdBorsh as_bytes} `{!BorshOk (ReceiptEnum AccountId) enum_ok}.
Context `{!BorshOk ReceiptGroup group_ok} `{!BorshOk (gmap Z TrieQueueIndices) indices_map_ok} `{!BorshOk TrieQueueIndices queue_indices_ok}.
Context (S : gset Z) (S_ok : ∀ shard, shard ∈ S → in_u 16 shard).

Abbreviation size_of := (size_of (AccountId := AccountId)).
Abbreviation gas_of := (gas_of as_bytes get_account_type fees wasm_config).
Abbreviation entry := (entry as_bytes get_account_type fees wasm_config).
Abbreviation item_fine := (item_fine as_bytes get_account_type account_le hash_bytes fees wasm_config enum_ok S).
Abbreviation all_sizes := (all_sizes as_bytes get_account_type fees wasm_config S).
Abbreviation all_gases := (all_gases as_bytes get_account_type fees wasm_config S).
Abbreviation item_ok := (stored_ok enum_ok).
Abbreviation buffer_wf := (λ b, in_u 16 (buffer_shard_id b)).
Abbreviation buffer_rep := (TrieQueue.queue_rep st_view item_ok buffer_wf).
Abbreviation buffers_stored := (buffers_stored st_view).
Abbreviation delayed_rep := (delayed_rep as_bytes get_account_type account_le hash_bytes fees wasm_config st_view enum_ok S).
Abbreviation yields := (fmap (λ x, Some (inr x : Error + Item))).

(** * The info from the state *)

(** What the info of a shard should be: the sums over the delayed receipts and over the buffers. *)
Definition counted_info (items : list Item) (bufs : Z → list Item) (shard_id : Z) : CongestionInfo :=
  mkCongestionInfo (gases (entry <$> items)) (all_gases bufs) (sizes (entry <$> items) + all_sizes bufs) (shard_id_to_u16 shard_id).

(** The sums of a loop, or the error of the first sum that does not fit. *)
Definition sums_or_error (items : list Item) (gas bytes : Z) : Res StorageError (Z * Z) :=
  if decide (gas + gases (entry <$> items) <= umax 128 ∧ bytes + sizes (entry <$> items) <= umax 64)
  then ROk (gas + gases (entry <$> items), bytes + sizes (entry <$> items)) else RErr st_inconsistent.

Lemma bootstrap_loop_exact layout items : ∀ gas bytes, Forall (item_fine layout) items → gas <= umax 128 → bytes <= umax 64 →
  bootstrap_loop (yields items) gas bytes = sums_or_error items gas bytes.
Proof.
  unfold sums_or_error. induction items as [|item items IH]; intros gas bytes Hf Hg Hb.
  - cbn [DelayedReceipts.bootstrap_loop fmap list_fmap]. change (sizes []) with 0. change (gases []) with 0. rewrite decide_True by lia. by rewrite !Z.add_0_r.
  - apply Forall_cons in Hf as [Hi Hf]. destruct Hi as [_ Hs Hga Hsz Hgz _]. rewrite sizes_entries_cons, gases_entries_cons.
    assert (Forall entry_ok (entry <$> items)) as He by (by eapply fine_entries). pose proof (sizes_nonneg _ He). pose proof (gases_nonneg _ He).
    rewrite fmap_cons. cbn [DelayedReceipts.bootstrap_loop res_expect storage_result mbind Res_bind]. rewrite Hga. cbn [map_overflow mbind Res_bind]. unfold safe_add_gas_to_u128.
    destruct (decide (gas + gas_of item <= umax 128)) as [Hg'|Hg'].
    + rewrite checked_add_ok by done. cbn [ok_or map_overflow mbind Res_bind]. rewrite Hs. cbn [map_overflow mbind Res_bind]. destruct (decide (bytes + size_of item <= umax 64)) as [Hb'|Hb'].
      * rewrite checked_add_ok by done. cbn [ok_or mbind Res_bind]. rewrite IH by done. by rewrite !Z.add_assoc.
      * rewrite checked_add_overflow by lia. cbn [ok_or mbind Res_bind]. by rewrite decide_False by lia.
    + rewrite checked_add_overflow by lia. cbn [ok_or map_overflow mbind Res_bind]. by rewrite decide_False by lia.
Qed.

Lemma bootstrap_loop_app l k : ∀ gas bytes, bootstrap_loop (l ++ k) gas bytes = (p ← bootstrap_loop l gas bytes; bootstrap_loop k p.1 p.2).
Proof.
  induction l as [|[[e|item]|] l IH]; intros gas bytes; [done| |..|done]; cbn [app DelayedReceipts.bootstrap_loop res_expect mbind Res_bind storage_result].
  - by destruct e.
  - destruct (map_overflow (receipt_congestion_gas _ _ _ _ item)); cbn [mbind Res_bind]; [|done..].
    destruct (map_overflow (safe_add_gas_to_u128 _ _)); cbn [mbind Res_bind]; [|done..]. destruct (map_overflow (receipt_size item)); cbn [mbind Res_bind]; [|done..].
    destruct (ok_or _ _); cbn [mbind Res_bind]; [apply IH|done..].
Qed.

(** The loop over the buffers is one loop over their receipts. *)
Lemma bootstrap_buffers_concat read b bufs shard_ids : ∀ gas bytes,
  (∀ shard, shard ∈ shard_ids → queue_iter read (to_shard b shard) = yields (bufs shard)) →
  bootstrap_buffers read b shard_ids gas bytes = bootstrap_loop (yields (concat (bufs <$> shard_ids))) gas bytes.
Proof.
  induction shard_ids as [|shard shard_ids IH]; intros gas bytes Hi; [done|]. cbn [DelayedReceipts.bootstrap_buffers]. rewrite Hi by left.
  rewrite fmap_cons. cbn [concat]. rewrite fmap_app, bootstrap_loop_app. destruct (bootstrap_loop (yields (bufs shard)) gas bytes) as [[g z]| |]; cbn [mbind Res_bind fst snd]; [|done..].
  apply IH. intros s Hs. apply Hi. by right.
Qed.

Lemma concat_sums (bufs : Z → list Item) l : sizes (entry <$> concat (bufs <$> l)) = sum_Z ((λ shard, sizes (entry <$> bufs shard)) <$> l) ∧
  gases (entry <$> concat (bufs <$> l)) = sum_Z ((λ shard, gases (entry <$> bufs shard)) <$> l).
Proof.
  induction l as [|shard l [IH1 IH2]]; [done|]. rewrite !fmap_cons. cbn [concat]. rewrite fmap_app, sizes_app, gases_app, IH1, IH2. done.
Qed.

(** The buffers of the state hold [bufs]; shards without indices have empty buffers. *)
Record buffers_hold (layout : Layout) (bufs : Z → list Item) (b : ShardsOutgoingReceiptBuffer) (u : U) : Prop := {
  bh_buffer : ∀ shard, shard ∈ S → buffer_rep (to_shard b shard) u (bufs shard);
  bh_fine : ∀ shard, shard ∈ S → Forall (item_fine layout) (bufs shard);
  bh_stored : buffers_stored u b;
  bh_dom : ∀ shard i, shards_indices b !! shard = Some i → shard ∈ S
}.

Lemma shards_perm b : shards b ≡ₚ elements (dom (shards_indices b)).
Proof. unfold shards. rewrite entries_perm. symmetry. apply elements_dom. Qed.

Lemma stored_shards_sum layout bufs b u (f : list Item → Z) : buffers_hold layout bufs b u → f [] = 0 →
  sum_Z ((λ shard, f (bufs shard)) <$> shards b) = sum_over (λ shard, f (bufs shard)) S.
Proof.
  clear proof_limit_exceeded. intros [B _ _ Dom] H0. rewrite (sum_Z_permutation _ ((λ shard, f (bufs shard)) <$> elements (dom (shards_indices b)))) by by rewrite shards_perm.
  fold (sum_over (λ shard, f (bufs shard)) (dom (shards_indices b))). assert (dom (shards_indices b) ⊆ S) as Hsub by (intros shard [i Hi]%elem_of_dom; by eapply Dom).
  rewrite (union_difference_L (dom (shards_indices b)) S Hsub). rewrite sum_over_union by set_solver. rewrite (sum_over_zero _ (S ∖ _)); [lia|].
  intros shard [Hs Hd]%elem_of_difference. apply not_elem_of_dom in Hd. pose proof (qr_next _ _ _ _ _ _ (B shard Hs)) as Hn. cbn in Hn. rewrite Hd in Hn. cbn in Hn.
  by destruct (bufs shard); [|cbn in Hn; lia].
Qed.

(** The sums of a state fit the types of the info. *)
Definition sums_fit (items : list Item) (bufs : Z → list Item) : Prop :=
  gases (entry <$> items) <= umax 128 ∧ all_gases bufs <= umax 128 ∧ sizes (entry <$> items) + all_sizes bufs <= umax 64.

#[export] Instance sums_fit_dec items bufs : Decision (sums_fit items bufs).
Proof. unfold sums_fit. apply _. Defined.

Lemma bootstrap_exact items w bufs b u shard_id : delayed_rep items (w, u) → buffers_hold (layout w) bufs b u →
  bootstrap_congestion_info (st_get u) shard_id = if decide (sums_fit items bufs) then ROk (counted_info items bufs shard_id) else RErr st_inconsistent.
Proof.
  clear proof_limit_exceeded. intros Hd Hb. pose proof Hb as [B F St Dom]. unfold DelayedReceipts.bootstrap_congestion_info.
  assert (load_delayed (st_get u) = (ROk (queue w) : Res Error _)) as -> by (by eapply (load_delayed_ok _ _ _ _ _ _ _ _ _ _ _ items (w, u))). cbn [storage_result mbind Res_bind].
  pose proof Hd as [Hq Hf _]. cbn [fst snd] in Hq, Hf.
  rewrite (queue_iter_ok key_ok st_view st_trie_view item_ok (λ _ : DelayedReceiptQueue, True) (λ _, DelayedReceiptIndices) (λ q, borsh_encode (delayed_indices q)) _ u items Hq).
  rewrite (bootstrap_loop_exact (layout w)) by done. assert (Forall entry_ok (entry <$> items)) as He by (by eapply fine_entries). pose proof (sizes_nonneg _ He).
  pose proof (all_nonneg _ _ _ _ _ _ _ _ _ _ F) as (A1 & _ & _). unfold sums_or_error, sums_fit. rewrite !Z.add_0_l.
  destruct (decide (gases (entry <$> items) <= umax 128 ∧ sizes (entry <$> items) <= umax 64)) as [Hfit|Hno]; cbn [mbind Res_bind]; [|by rewrite decide_False by lia].
  assert (load_buffers (st_get u) = (ROk b : Res Error _)) as -> by (by eapply load_buffers_ok). cbn [storage_result mbind Res_bind].
  assert (∀ shard, shard ∈ shards b → shard ∈ S) as Hin by (intros shard; rewrite shards_perm, elem_of_elements; intros [i Hi]%elem_of_dom; by eapply Dom).
  rewrite (bootstrap_buffers_concat _ _ bufs).
  2: { intros shard Hs%Hin. by apply (queue_iter_ok key_ok st_view st_trie_view item_ok buffer_wf (λ _ : OutgoingReceiptBuffer, BufferedReceiptIndices) (λ b, borsh_encode (shards_indices (parent b)))), B. }
  rewrite (bootstrap_loop_exact (layout w)); [|by apply Forall_concat, Forall_fmap, Forall_forall; intros shard Hs%Hin; apply F|done|lia].
  unfold sums_or_error. destruct (concat_sums bufs (shards b)) as [E1 E2]. rewrite E1, E2, (stored_shards_sum _ _ _ _ (λ l, sizes (entry <$> l)) Hb), (stored_shards_sum _ _ _ _ (λ l, gases (entry <$> l)) Hb) by done.
  fold (all_sizes bufs) (all_gases bufs). rewrite Z.add_0_l.
  destruct (decide (all_gases bufs <= umax 128 ∧ sizes (entry <$> items) + all_sizes bufs <= umax 64)); cbn [mbind Res_bind]; [by rewrite decide_True by lia|by rewrite decide_False by lia].
Qed.

(** * The info over a chunk *)

Abbreviation sink_rep := (sink_rep as_bytes get_account_type account_le hash_bytes fees wasm_config st_view enum_ok S).
Abbreviation sink_room := (sink_room as_bytes get_account_type fees wasm_config S).
Abbreviation delayed_room := (delayed_room as_bytes get_account_type fees wasm_config).
Abbreviation spent := (spent as_bytes get_account_type account_le hash_bytes fees wasm_config).
Abbreviation receipt_sizes := (receipt_sizes as_bytes get_account_type fees wasm_config).
Abbreviation receipt_gases := (receipt_gases as_bytes get_account_type fees wasm_config).

Definition delays (ops : list ChunkOp) : list Rcpt := omap (λ op, match op with DelayReceipt r => Some r | _ => None end) ops.
Definition forwards (ops : list ChunkOp) : list Rcpt := omap (λ op, match op with ForwardReceipt r => Some r | _ => None end) ops.

Definition op_fine (layout : Layout) (op : ChunkOp) : Prop :=
  match op with DelayReceipt r | ForwardReceipt r => item_fine layout (PlainReceipt r) | TakeDelayed => True end.

(** Before the operations [ops]: [items0] were delayed at the start of the chunk, [items] are now. *)
Record running (layout : Layout) (items0 items : list Item) (bufs : Z → list Item) (sink0 : Sink) (slack : Z) (ops : list ChunkOp) (s : Wrapper * Sink * U) : Prop := {
  rn_sink : sink_rep layout (sizes (entry <$> items0), gases (entry <$> items0)) bufs (s.1.2, s.2);
  rn_delayed : delayed_rep items (s.1.1, s.2);
  rn_layout : DelayedReceipts.layout s.1.1 = layout;
  rn_sink_room : sink_room bufs (Z.of_nat (length (forwards ops))) (receipt_sizes (forwards ops) + slack) (receipt_gases (forwards ops)) s.1.2;
  rn_delayed_room : delayed_room (Z.of_nat (length (delays ops))) (receipt_sizes (delays ops)) (receipt_gases (delays ops)) items s.1.1;
  rn_spent : ∃ sent, spent layout sink0 sent s.1.2;
  rn_gas : gases (entry <$> items) + removed_delayed_gas s.1.1 = gases (entry <$> items0) + new_delayed_gas s.1.1;
  rn_bytes : sizes (entry <$> items) + removed_delayed_bytes s.1.1 = sizes (entry <$> items0) + new_delayed_bytes s.1.1;
  rn_slack : new_delayed_bytes s.1.1 + receipt_sizes (delays ops) = slack;
  rn_fine : Forall (op_fine layout) ops;
  rn_items0 : 0 <= sizes (entry <$> items0)
}.

Lemma receipt_sums_cons r l : receipt_sizes (r :: l) = size_of (PlainReceipt r) + receipt_sizes l ∧ receipt_gases (r :: l) = gas_of (PlainReceipt r) + receipt_gases l.
Proof. done. Qed.

Lemma receipt_sums_nonneg layout l : Forall (λ r, item_fine layout (PlainReceipt r)) l → 0 <= receipt_sizes l ∧ 0 <= receipt_gases l.
Proof.
  intros Hf. assert (Forall entry_ok (entry <$> (PlainReceipt <$> l))) as He by (eapply fine_entries, Forall_fmap; exact Hf).
  split; [by apply sizes_nonneg|by apply gases_nonneg].
Qed.

Lemma delays_fine layout ops : Forall (op_fine layout) ops → Forall (λ r, item_fine layout (PlainReceipt r)) (delays ops).
Proof. intros Hf. apply Forall_forall. intros r (op & Hop & Hr)%list_elem_of_omap. rewrite Forall_forall in Hf. specialize (Hf op Hop). by destruct op; simplify_eq. Qed.

Lemma forwards_fine layout ops : Forall (op_fine layout) ops → Forall (λ r, item_fine layout (PlainReceipt r)) (forwards ops).
Proof. intros Hf. apply Forall_forall. intros r (op & Hop & Hr)%list_elem_of_omap. rewrite Forall_forall in Hf. specialize (Hf op Hop). by destruct op; simplify_eq. Qed.

Abbreviation next_running layout items0 sink0 slack ops := (λ (_ : ()) s, ∃ items bufs, running layout items0 items bufs sink0 slack ops s).

Lemma delay_op_ok info items0 items bufs sink0 slack r ops s :
  running (shard_layout info) items0 items bufs sink0 slack (DelayReceipt r :: ops) s →
  returns (run_op info (DelayReceipt r)) s (next_running (shard_layout info) items0 sink0 slack ops).
Proof.
  destruct s as [[w sink] u]. intros [Hs Hd Hl Rs Rd Hsp Hg Hb Hsl Hf H0]. cbn [fst snd] in *. apply Forall_cons in Hf as [Hr Hf]. cbn in Hr.
  change (delays (DelayReceipt r :: ops)) with (r :: delays ops) in *. change (forwards (DelayReceipt r :: ops)) with (forwards ops) in *. destruct (receipt_sums_cons r (delays ops)) as [E1 E2]. rewrite E1, E2 in *.
  pose proof (receipt_sums_nonneg _ _ (delays_fine _ _ Hf)) as [N1 N2]. unfold run_op, on_delayed. apply returns_zoom. cbn [fst snd].
  eapply returns_mono; [eapply (delayed_push_ok as_bytes get_account_type account_le hash_bytes fees wasm_config use_state_stored_receipt key_ok st_view st_trie_view enum_ok S items w u r); [exact Hd|by rewrite Hl|exact Rd|cbn [length]; lia..]|].
  cbv beta zeta. set (item := delayed_item _ _ _ _). intros [] [w' u'] (D1 & D2 & (C1 & C2 & C3 & C4 & C5 & C6) & D4 & He). cbn [fst snd] in *. injection He as Ez Eg.
  destruct (entry_sums as_bytes get_account_type fees wasm_config items item) as [F1 F2]. destruct (entry_sums as_bytes get_account_type fees wasm_config [] item) as [F3 F4]. cbn [app] in F3, F4.
  rewrite F3, F4 in *. change (sizes (entry <$> [])) with 0 in *. change (gases (entry <$> [])) with 0 in *.
  exists (items ++ [item]), bufs. split; cbn [fst snd]; rewrite ?F1, ?F2; try done; try lia; [|by rewrite C1|].
  - by eapply delayed_frame_sink.
  - rewrite Ez, Eg in D4. destruct D4 as [X1 X2 X3 X4 X5]. cbn [length] in *. split; lia.
Qed.

Lemma take_op_ok info items0 items bufs sink0 slack ops s :
  running (shard_layout info) items0 items bufs sink0 slack (TakeDelayed :: ops) s →
  returns (run_op info TakeDelayed) s (next_running (shard_layout info) items0 sink0 slack ops).
Proof.
  destruct s as [[w sink] u]. intros [Hs Hd Hl Rs Rd Hsp Hg Hb Hsl Hf H0]. cbn [fst snd] in *. apply Forall_cons in Hf as [_ Hf].
  change (delays (TakeDelayed :: ops)) with (delays ops) in *. change (forwards (TakeDelayed :: ops)) with (forwards ops) in *.
  pose proof (receipt_sums_nonneg _ _ (delays_fine _ _ Hf)) as [N1 N2]. unfold run_op.
  eapply (returns_bind _ _ _ (λ _, next_running (shard_layout info) items0 sink0 slack ops tt)); [|intros o s Hn; by apply returns_ret].
  unfold on_delayed. apply returns_zoom. cbn [fst snd].
  eapply returns_mono; [by eapply (delayed_pop_ok as_bytes get_account_type account_le hash_bytes fees wasm_config key_ok st_view st_trie_view enum_ok S proof_limit_exceeded items w u)|].
  intros o [w' u'] (k & D1 & D2 & (C1 & C2 & C3 & C4 & C5 & C6) & D4 & _). cbn [fst snd] in *. exists (drop k items), bufs.
  assert (sizes (entry <$> items) = sizes (entry <$> take k items) + sizes (entry <$> drop k items) ∧ gases (entry <$> items) = gases (entry <$> take k items) + gases (entry <$> drop k items)) as [G1 G2]
    by (rewrite <-sizes_app, <-gases_app, <-fmap_app, take_drop; done).
  change (sizes (entry <$> [])) with 0 in *. change (gases (entry <$> [])) with 0 in *.
  split; cbn [fst snd]; try done; try lia; [by eapply delayed_frame_sink|by rewrite C1].
Qed.

Lemma forward_op_ok info items0 items bufs sink0 slack r ops s : 0 <= slack →
  running (shard_layout info) items0 items bufs sink0 slack (ForwardReceipt r :: ops) s →
  returns (run_op info (ForwardReceipt r)) s (next_running (shard_layout info) items0 sink0 slack ops).
Proof.
  intros Hslack. destruct s as [[w sink] u]. intros [Hs Hd Hl Rs Rd [sent Hsp] Hg Hb Hsl Hf H0]. cbn [fst snd] in *. apply Forall_cons in Hf as [Hr Hf]. cbn in Hr.
  change (delays (ForwardReceipt r :: ops)) with (delays ops) in *. change (forwards (ForwardReceipt r :: ops)) with (r :: forwards ops) in *. destruct (receipt_sums_cons r (forwards ops)) as [E1 E2]. rewrite E1, E2 in *.
  pose proof (receipt_sums_nonneg _ _ (forwards_fine _ _ Hf)) as [N1 N2]. unfold run_op, on_sink. apply returns_zoom. cbn [fst snd].
  eapply returns_mono; [eapply (forward_or_buffer_ok as_bytes get_account_type account_le hash_bytes fees wasm_config use_state_stored_receipt key_ok st_view st_trie_view enum_ok S S_ok info _ bufs sink0 sink sent u r); [exact Hs|exact H0|exact Hsp|exact Hr|exact Rs|cbn [length]; lia..]|].
  intros [] [sink' u'] (bufs' & sent' & _ & D1 & D2 & D3 & D4). cbn [fst snd] in *.
  exists items, bufs'. split; cbn [fst snd]; try done; [by eapply sink_frame_delayed| |by exists (sent ++ sent')].
  replace (Z.of_nat (length (forwards ops))) with (Z.of_nat (length (r :: forwards ops)) - 1) by (cbn [length]; lia).
  replace (receipt_sizes (forwards ops) + slack) with (size_of (PlainReceipt r) + receipt_sizes (forwards ops) + slack - size_of (PlainReceipt r)) by lia.
  by replace (receipt_gases (forwards ops)) with (gas_of (PlainReceipt r) + receipt_gases (forwards ops) - gas_of (PlainReceipt r)) by lia.
Qed.

Lemma run_ops_ok info items0 sink0 slack ops : 0 <= slack → ∀ items bufs s,
  running (shard_layout info) items0 items bufs sink0 slack ops s → returns (run_chunk_ops info ops) s (next_running (shard_layout info) items0 sink0 slack []).
Proof.
  intros Hslack. induction ops as [|op ops IH]; intros items bufs s Hr; [apply returns_ret; by exists items, bufs|]. cbn [run_chunk_ops].
  apply (returns_bind _ _ _ (next_running (shard_layout info) items0 sink0 slack ops)); [|intros [] s' (items' & bufs' & Hr'); by eapply IH].
  destruct op; [by eapply delay_op_ok|by eapply take_op_ok|by eapply forward_op_ok].
Qed.

(** The state at the start of a chunk that does [ops]: the info counts the delayed receipts and the buffers. *)
Record chunk_ready (info : ReceiptSinkV2Info) (shard_id : Z) (items : list Item) (bufs : Z → list Item) (ops : list ChunkOp) (s : Wrapper * Sink * U) : Prop := {
  cr_shards : sink_shards S info;
  cr_sink : sink_rep (shard_layout info) (sizes (entry <$> items), gases (entry <$> items)) bufs (s.1.2, s.2);
  cr_trie : in_trie st_trie_view S bufs (s.1.2, s.2);
  cr_wrapper : s.1.1 = new_wrapper (queue s.1.1) (shard_layout info) shard_id;
  cr_delayed : delayed_rep items (s.1.1, s.2);
  cr_sink_room : sink_room bufs (Z.of_nat (length (forwards ops))) (receipt_sizes (forwards ops) + receipt_sizes (delays ops)) (receipt_gases (forwards ops)) s.1.2;
  cr_delayed_room : delayed_room (Z.of_nat (length (delays ops))) (receipt_sizes (delays ops)) (receipt_gases (delays ops)) items s.1.1;
  cr_limits : ∀ t, 0 <= limit_gas (limit_at s.1.2 t) ∧ 0 <= limit_size (limit_at s.1.2 t);
  cr_fine : Forall (op_fine (shard_layout info)) ops;
  cr_index : ∃ index, get_shard_index (shard_layout info) shard_id = inr index
}.

Context (max_size_ok : 0 <= Fees.max_receipt_size wasm_config).

Lemma drain_ready_ok info shard_id items bufs ops s : chunk_ready info shard_id items bufs ops s →
  returns (on_sink (forward_from_buffer as_bytes get_account_type account_le hash_bytes fees wasm_config info)) s
    (λ _ s', ∃ bufs', running (shard_layout info) items items bufs' s.1.2 (receipt_sizes (delays ops)) ops s').
Proof.
  destruct s as [[w sink] u]. intros [Hsh Hs Ht Hw Hd Rs Rd Hl Hf _]. cbn [fst snd] in *. unfold on_sink. apply returns_zoom. cbn [fst snd].
  pose proof (receipt_sums_nonneg _ _ (delays_fine _ _ Hf)) as [N1 N2]. pose proof (receipt_sums_nonneg _ _ (forwards_fine _ _ Hf)) as [N3 N4].
  assert (Forall entry_ok (entry <$> items)) as He by (eapply fine_entries; apply Hd). pose proof (sizes_nonneg _ He) as N5.
  eapply returns_mono; [eapply (forward_from_buffer_ok as_bytes get_account_type account_le hash_bytes fees wasm_config key_ok st_view st_trie_view enum_ok S S_ok max_size_ok info _ bufs sink (sink, u) u _ _ _ Hsh); [split; cbn [fst snd]; [exact Hs|done|apply sink_frame_refl|exact Rs|by apply spent_init|apply drains_refl]|cbn; lia..]|].
  intros [] [sink' u'] (bufs' & sent & [D1 D2 D3 D4 D5 D6] & _). cbn [fst snd] in *. exists bufs'. rewrite Hw in *. split; cbn [fst snd]; try done; try (cbn; lia); [|by exists sent].
  by eapply sink_frame_delayed.
Qed.

Lemma finalize_ok (l : Layout) shard_id index height i : get_shard_index l shard_id = inr index → ∃ allowed, finalize_own_info l shard_id height i = ROk (set_allowed_shard allowed i).
Proof.
  intros Hi. unfold finalize_own_info, finalize_allowed_shard, get_new_allowed_shard. rewrite Hi. destruct (_ =? 0) eqn:E; [by eexists|]. set (seed := wrapping_add _ _ _).
  destruct (shard_ids l !! Z.to_nat (seed mod Z.of_nat (length (shard_ids l)))) as [a|] eqn:Ha; [by eexists|]. apply lookup_ge_None in Ha.
  pose proof (Z.mod_pos_bound seed (Z.of_nat (length (shard_ids l)))). lia.
Qed.

Lemma final_info_ok (l : Layout) items0 items bufs sink0 slack shard_id index height s : get_shard_index l shard_id = inr index →
  running l items0 items bufs sink0 slack [] s →
  returns (final_info l shard_id height) s (λ i s', s' = s ∧ sums_fit items bufs ∧ counted_info items bufs shard_id = set_allowed_shard (shard_id_to_u16 shard_id) i).
Proof.
  intros Hi. destruct s as [[w sink] u]. intros [Hs Hd Hl Rs Rd Hsp Hg Hb Hsl Hf H0]. cbn [fst snd] in *. change (receipt_sizes (delays [])) with 0 in *. change (receipt_sizes (forwards [])) with 0 in *.
  change (receipt_gases (delays [])) with 0 in *. pose proof (sr_gas _ _ _ _ _ _ _ _ _ _ _ _ _ Hs) as Sg. pose proof (sr_bytes _ _ _ _ _ _ _ _ _ _ _ _ _ Hs) as Sb. pose proof (sr_delayed _ _ _ _ _ _ _ _ _ _ _ _ _ Hs) as Sd.
  pose proof (rm_bytes _ _ _ _ _ _ _ _ _ _ Rs) as Rb. pose proof (rm_gas _ _ _ _ _ _ _ _ _ _ Rs) as Rg. destruct Rd as [_ XG XB YG YB].
  assert (Forall entry_ok (entry <$> items)) as He by (eapply fine_entries; apply Hd). pose proof (sizes_nonneg _ He). pose proof (gases_nonneg _ He).
  pose proof (all_nonneg _ _ _ _ _ _ _ _ _ _ (sr_fine _ _ _ _ _ _ _ _ _ _ _ _ _ Hs)) as (A1 & A2 & _). cbn [fst snd] in *. change (receipt_gases (forwards [])) with 0 in *.
  unfold final_info. eapply returns_step; [done|]. cbn [fst snd]. rewrite apply_changes_ok; [|unfold umax in *; lia|lia|lia|lia].
  destruct (finalize_ok l shard_id index height (applied w (own_congestion_info sink)) Hi) as [a ->]. apply returns_ret. split_and!; [done|unfold sums_fit, umax in *; lia|].
  unfold counted_info, set_allowed_shard, applied. cbn. f_equal; lia.
Qed.

Lemma sink_rep_hold l base bufs sink u : sink_rep l base bufs (sink, u) → buffers_hold l bufs (outgoing_buffers sink) u.
Proof. intros [B F _ _ _ _ St Dom]. by split. Qed.

(** C4: The congestion info that a chunk produces is what would be computed from the state after the chunk.  From a state in which
    the info counts the delayed receipts and the buffers, [apply] drains the buffers, then delays, takes and forwards receipts in
    any order and number, and at the end applies the sums of the delayed receipts and chooses the allowed shard.  It returns
    without an error or a panic while the sums and indices fit their types, and computing the info from all receipts in the
    resulting state gives the same info up to the allowed shard. *)
Theorem chunk_info_matches_state (info : ReceiptSinkV2Info) (shard_id height : Z) (items : list Item) (bufs : Z → list Item) (ops : list ChunkOp) (s : Wrapper * Sink * U) :
  chunk_ready info shard_id items bufs ops s →
  ∃ i s', apply_chunk info shard_id ops height s = Ok i s' ∧ bootstrap_congestion_info (st_get s'.2) shard_id = ROk (set_allowed_shard (shard_id_to_u16 shard_id) i).
Proof.
  intros Hc. apply (returns_inv _ _ (λ i s', bootstrap_congestion_info (st_get s'.2) shard_id = ROk (set_allowed_shard (shard_id_to_u16 shard_id) i))).
  unfold apply_chunk. destruct (cr_index _ _ _ _ _ _ Hc) as [index Hi]. eapply returns_bind; [by eapply drain_ready_ok|]. intros [] s1 (bufs1 & Hr1).
  pose proof (receipt_sums_nonneg _ _ (delays_fine _ _ (cr_fine _ _ _ _ _ _ Hc))) as [N1 _].
  eapply returns_bind; [by eapply (run_ops_ok info items _ _ ops N1)|]. intros [] s2 (items2 & bufs2 & Hr2).
  eapply returns_mono; [by eapply final_info_ok|]. intros i s3 (-> & Hfit & <-). destruct s2 as [[w sink] u]. pose proof Hr2 as [Hs Hd Hl _ _ _ _ _ _ _ _]. cbn [fst snd] in *.
  erewrite bootstrap_exact; [by rewrite decide_True|exact Hd|]. rewrite Hl. by eapply sink_rep_hold.
Qed.

(** C39: The info of the own shard.  It is the info of the block when the block has one.  Otherwise it is computed from the state:
    it is exactly the sums over the delayed receipts and over all buffers when these fit 128 and 64 bits, and an inconsistent
    state is reported when one of them does not; it never panics and no sum wraps around. *)
Theorem own_info_counts_or_fails (infos : BlockCongestionInfo) (items : list Item) (w : Wrapper) (bufs : Z → list Item) (b : ShardsOutgoingReceiptBuffer) (u : U) (shard_id : Z) :
  delayed_rep items (w, u) → buffers_hold (layout w) bufs b u →
  apply_state_own_info infos (st_get u) shard_id =
    match infos !! shard_id with
    | Some extended => ROk (congestion_info extended)
    | None => if decide (sums_fit items bufs) then ROk (counted_info items bufs shard_id) else RErr (RtStorageError st_inconsistent)
    end.
Proof.
  intros Hd Hb. unfold apply_state_own_info, block_info_get. destruct (infos !! shard_id); [done|]. rewrite (bootstrap_exact items w bufs b u) by done. by destruct (decide _).
Qed.

(** Taking a delayed receipt ends.  It looks at no more receipts than the queue holds.  It returns the first receipt
    whose receiver is in the own shard, and removes it and those before it; without such a receipt, or when the proof grows
    over its limit, it returns nothing.  All removed receipts, also those of the sibling shard, are counted as removed. *)
Theorem pop_returns_next_receipt (items : list Item) (w : Wrapper) (u : U) (n z g : Z) :
  delayed_rep items (w, u) → delayed_room n z g items w → 0 <= z → 0 <= g →
  ∃ r w' u' k, pop as_bytes get_account_type account_le hash_bytes fees wasm_config proof_limit_exceeded (w, u) = (Ok r (w', u') : outcome _ Error _) ∧
    delayed_rep (drop k items) (w', u') ∧ popped account_le hash_bytes proof_limit_exceeded w items k r u' ∧
    removed_delayed_gas w' = removed_delayed_gas w + gases (entry <$> take k items) ∧ removed_delayed_bytes w' = removed_delayed_bytes w + sizes (entry <$> take k items).
Proof.
  intros Hd Hr Hz Hg. destruct (returns_inv _ _ _ (delayed_pop_ok as_bytes get_account_type account_le hash_bytes fees wasm_config key_ok st_view st_trie_view enum_ok S proof_limit_exceeded items w u n z g Hd Hr Hz Hg))
    as (r & [w' u'] & Hp & k & D1 & _ & (_ & _ & _ & _ & C5 & C6) & _ & D5). by exists r, w', u', k.
Qed.
End chunk.
