(* ===== verification/ChunkExamples.v ===== *)
(** A concrete chunk: two shards, a state with delayed and buffered receipts in the overlay of a trie, and the
    theorems on the sink, the delayed receipts and the congestion info applied to it. *)

From stdpp Require Import functions sorting.
From S2P Require Import Prelude Errors Borsh Costs TrieKey ShardLayout Bandwidth StateUpdate StateUpdateCorrect Fees Receipt TrieQueue ReceiptQueues OutgoingMetadata CongestionInfo ReceiptSink DelayedReceipts ReceiptSinkCorrect DelayedCorrect ChunkCongestion.
Import ReceiptExample.
Import (hints) KeyExample QueueExample MetadataExample.
Local Open Scope Z_scope.

Module SinkExample.

(** ** Accounts *)

Definition from_str (l : bytes) : option bool :=
  if bool_decide (l = as_bytes true) then Some true else if bool_decide (l = as_bytes false) then Some false else None.

#[export] Instance account_names : AccountIds as_bytes from_str.
Proof. split; intros [|]; [by repeat constructor..|done|done]. Qed.

#[export] Instance code_borsh : Borsh (GlobalContractCodeIdentifier bool) := {|
  borsh_encode i := match i with IdCodeHash hash => 0 :: hash | IdAccountId a => 1 :: borsh_encode a end;
  borsh_decode bytes :=
    match bytes with
    | 0 :: rest => '(h, rest) ← read_bytes 32 rest; Some (IdCodeHash h, rest)
    | 1 :: rest => '(a, rest) ← borsh_decode rest; Some (IdAccountId a, rest)
    | _ => None
    end
|}.

#[export] Instance code_borsh_ok : BorshOk (GlobalContractCodeIdentifier bool) identifier_ok.
Proof.
  intros [h|a] rest Hi; cbn [borsh_encode borsh_decode code_borsh app]; [by rewrite read_bytes_app|]. by destruct a.
Qed.

(** ** Maps: the number of entries, then the entries in the order of the keys. *)

Definition encode_entry (e : Z * TrieQueueIndices) : bytes := encode_u64 e.1 ++ borsh_encode e.2.

Fixpoint decode_entries (n : nat) (bytes : list Z) : option (list (Z * TrieQueueIndices) * list Z) :=
  match n with
  | O => Some ([], bytes)
  | S n =>
      '(k, bytes) ← decode_u64 bytes;
      '(i, bytes) ← borsh_decode bytes;
      '(rest, bytes) ← decode_entries n bytes;
      Some ((k, i) :: rest, bytes)
  end.

#[export] Instance indices_map_borsh : Borsh (gmap Z TrieQueueIndices) := {|
  borsh_encode m := to_le_bytes 4 (Z.of_nat (size m)) ++ concat (encode_entry <$> ShardLayout.entries m);
  borsh_decode bytes :=
    '(n, bytes) ← borsh_decode (Borsh := borsh_uint 4) bytes;
    '(l, bytes) ← decode_entries (Z.to_nat n) bytes;
    Some (list_to_map l, bytes)
|}.

#[export] Instance indices_borsh_ok : BorshOk TrieQueueIndices queue_indices_ok.
Proof.
  intros [f n] rest [Hf Hn]. unfold in_u, umax in *. cbn [first_index next_available_index] in *. cbn [borsh_encode borsh_decode QueueExample.indices_borsh first_index next_available_index].
  rewrite <-app_assoc. unfold decode_u64, encode_u64. rewrite (borsh_uint_ok 8 f) by (change (256 ^ Z.of_nat 8) with (2 ^ 64); lia). cbn [mbind option_bind].
  by rewrite (borsh_uint_ok 8 n) by (change (256 ^ Z.of_nat 8) with (2 ^ 64); lia).
Qed.

Lemma decode_entries_ok l rest : Forall (λ e : Z * TrieQueueIndices, in_u 64 e.1 ∧ queue_indices_ok e.2) l →
  decode_entries (length l) (concat (encode_entry <$> l) ++ rest) = Some (l, rest).
Proof.
  induction 1 as [|[k i] l [Hk Hi] _ IH]; [done|]. cbn [length decode_entries fmap list_fmap concat]. unfold encode_entry at 1. cbn [fst snd] in *. rewrite <-!app_assoc.
  unfold decode_u64, encode_u64. rewrite (borsh_uint_ok 8 k) by (unfold in_u, umax in Hk; change (256 ^ Z.of_nat 8) with (2 ^ 64); lia). cbn [mbind option_bind].
  rewrite (indices_borsh_ok i) by done. cbn [mbind option_bind]. by rewrite IH.
Qed.

(** The ids of shards have 16 bits, so the number of entries fits. *)
Lemma indices_map_size m : indices_map_ok m → (Z.of_nat (size m) <= 65536).
Proof.
  intros Hm. rewrite <-size_dom. assert (dom m ⊆ list_to_set (C := gset Z) (seqZ 0 65536)) as Hs.
  { intros k [i Hi]%elem_of_dom. apply elem_of_list_to_set, elem_of_seqZ. destruct (Hm k i Hi) as [Hk _]. unfold in_u, umax in Hk. lia. }
  apply subseteq_size in Hs. rewrite size_list_to_set in Hs by apply NoDup_seqZ. rewrite length_seqZ in Hs. lia.
Qed.

#[export] Instance indices_map_borsh_ok : BorshOk (gmap Z TrieQueueIndices) indices_map_ok.
Proof.
  intros m rest Hm. pose proof (indices_map_size m Hm) as Hs. cbn [borsh_encode borsh_decode indices_map_borsh]. rewrite <-app_assoc.
  change (to_le_bytes 4 ?n) with (@borsh_encode Z (borsh_uint 4) n). rewrite (@borsh_roundtrip Z (borsh_uint 4) _ (borsh_uint_ok 4)) by (change (256 ^ Z.of_nat 4) with (2 ^ 32); lia). cbn [mbind option_bind]. rewrite Nat2Z.id.
  replace (size m) with (length (ShardLayout.entries m)) by (rewrite entries_perm; apply length_map_to_list). rewrite decode_entries_ok.
  - cbn [mbind option_bind]. do 2 f_equal. rewrite <-(list_to_map_to_list m) at 2. apply list_to_map_proper; [|apply entries_perm]. rewrite entries_perm. apply NoDup_fst_map_to_list.
  - apply Forall_forall. intros [k i]. rewrite entries_perm, elem_of_map_to_list. intros Hi. destruct (Hm k i Hi) as (H1 & H2 & H3). split; [|done]. unfold in_u, umax in *. cbn. lia.
Qed.

(** ** The state: one receipt for each shard is delayed in shard 0, and one receipt is in a buffer. *)

Abbreviation Item := (ReceiptOrStateStoredReceipt bool).
Abbreviation Update := (TrieUpdate (AccountId := bool) (Trie := gmap bytes bytes) (Cause := ())).

#[export] Instance chunk_store : StateStore (TrieKey bool) () Update := overlay_store as_bytes QueueExample.trie_get ().
#[export] Instance chunk_store_ok : StateStoreOk (TrieKey bool) () Update (runtime_key as_bytes) (key_view as_bytes id) (key_trie_view as_bytes id) :=
  overlay_store_ok as_bytes from_str QueueExample.trie_get () id (λ _ _, eq_refl).

Definition get_account_type (_ : bool) : AccountType := NamedAccount.
Definition account_le : relation bool := eq.
#[export] Instance account_le_dec : RelDecision account_le.
Proof. unfold account_le. apply _. Defined.
Definition hash_bytes (a : bool) : bytes := if a then [1; 0; 0; 0; 0; 0; 0; 0] else [0; 0; 0; 0; 0; 0; 0; 0].
Definition wasm_config : VmConfig := mkVmConfig true true 4194304.
Definition two_shards : ShardLayout (AccountId := bool) := V0 (mkV0 2 0).
Definition both : gset Z := {[0; 1]}.

Definition delayed : list Item := [stored; PlainReceipt plain].
Definition buffered (shard : Z) : list Item := if shard =? 0 then [PlainReceipt plain] else [].
Definition queue0 : DelayedReceiptQueue := mkDelayedReceiptQueue (mkIndices 7 9).
Definition buffers0 : ShardsOutgoingReceiptBuffer := mkBuffers {[0 := mkIndices 3 4]}.

Definition raw (k : TrieKey bool) : bytes := default [] (to_vec as_bytes k).
Definition trie_entries0 : list (bytes * bytes) := [
  (raw DelayedReceiptIndices, borsh_encode (delayed_indices queue0));
  (raw (DelayedReceipt 7), borsh_encode stored);
  (raw (DelayedReceipt 8), borsh_encode (PlainReceipt plain));
  (raw BufferedReceiptIndices, borsh_encode (shards_indices buffers0));
  (raw (BufferedReceipt 0 3), borsh_encode (PlainReceipt plain))].
Definition trie0 : gmap bytes bytes := list_to_map trie_entries0.
Definition state0 : Update := new_update trie0 None.

Definition wrapper0 : DelayedReceiptQueueWrapper (AccountId := bool) := new_wrapper queue0 two_shards 0.
Definition info0 : ReceiptSinkV2Info (AccountId := bool) := mkSinkInfo two_shards ∅.
Definition entries0 (l : list Item) : list (Z * Z) := entry as_bytes get_account_type example_fees wasm_config <$> l.
Definition base0 : Z * Z := (sizes (entries0 delayed), gases (entries0 delayed)).
Definition sink0 : ReceiptSinkV2 (AccountId := bool) :=
  mkSink (counted_info as_bytes get_account_type example_fees wasm_config both delayed buffered 0) []
    {[0 := mkLimit 1000000 100; 1 := mkLimit 500000 4096]} buffers0 (new_metadatas default_config) (mkParams 0 0 0 4194304 0) default_sink_stats.

Lemma both_ok shard : shard ∈ both → in_u 16 shard.
Proof. unfold both, in_u, umax. rewrite elem_of_union, !elem_of_singleton. lia. Qed.

Lemma both_cases (P : Z → Prop) : P 0 → P 1 → ∀ shard, shard ∈ both → P shard.
Proof. intros H0 H1 shard. unfold both. rewrite elem_of_union, !elem_of_singleton. by intros [->| ->]. Qed.

Lemma item_fine_by (item : Item) t : stored_ok enum_ok item → receipt_size item = ROk (size_of item) →
  receipt_congestion_gas as_bytes get_account_type example_fees wasm_config item = ROk (gas_of as_bytes get_account_type example_fees wasm_config item) →
  (0 <? size_of item) && (size_of item <=? umax 64) && (0 <=? gas_of as_bytes get_account_type example_fees wasm_config item) &&
  (gas_of as_bytes get_account_type example_fees wasm_config item <=? umax 64) = true →
  receiver_shard_id account_le hash_bytes (into_receipt item) two_shards = ROk t → t ∈ both →
  item_fine as_bytes get_account_type account_le hash_bytes example_fees wasm_config enum_ok both two_shards item.
Proof. intros H1 H2 H3 H4 H5 H6. split; [done..|lia|lia|by exists t]. Qed.

Lemma plain_fine : item_fine as_bytes get_account_type account_le hash_bytes example_fees wasm_config enum_ok both two_shards (PlainReceipt plain).
Proof. by apply (item_fine_by _ 0); vm_compute. Qed.

Lemma stored_fine : item_fine as_bytes get_account_type account_le hash_bytes example_fees wasm_config enum_ok both two_shards stored.
Proof. by apply (item_fine_by _ 1); vm_compute. Qed.

Lemma buffered_fine shard : shard ∈ both → Forall (item_fine as_bytes get_account_type account_le hash_bytes example_fees wasm_config enum_ok both two_shards) (buffered shard).
Proof. revert shard. apply both_cases; [by repeat constructor; apply plain_fine|constructor]. Qed.

Abbreviation sink_rep := (sink_rep as_bytes get_account_type account_le hash_bytes example_fees wasm_config (key_view as_bytes id) enum_ok both).

Lemma buffered_rep shard : shard ∈ both → TrieQueue.queue_rep (key_view as_bytes id) (stored_ok enum_ok) (λ b, in_u 16 (buffer_shard_id b)) (to_shard buffers0 shard) state0 (buffered shard).
Proof.
  revert shard. apply both_cases; split; [done|done|done|done| | |done|done|done|done|constructor|done].
  - by repeat constructor; apply plain_fine.
  - intros [|i] item Hi; [injection Hi as <-; by vm_compute|done].
Qed.

Lemma delayed_queue_rep : delayed_rep as_bytes get_account_type account_le hash_bytes example_fees wasm_config (key_view as_bytes id) enum_ok both delayed (wrapper0, state0).
Proof.
  split; [split; [done|done|done|done| |]| |by left; vm_compute].
  - apply Forall_cons. split; [apply stored_fine|]. apply Forall_singleton, plain_fine.
  - intros [|[|i]] item Hi; [injection Hi as <-; by vm_compute..|done].
  - apply Forall_cons. split; [apply stored_fine|]. apply Forall_singleton, plain_fine.
Qed.

Lemma buffers0_dom shard i : shards_indices buffers0 !! shard = Some i → shard ∈ both.
Proof. cbn. intros [<- _]%lookup_singleton_Some. set_solver. Qed.

Lemma sink0_rep : sink_rep two_shards base0 buffered (sink0, state0).
Proof.
  split; cbn [fst snd].
  - exact buffered_rep.
  - exact buffered_fine.
  - apply both_cases; by split; vm_compute.
  - by vm_compute.
  - by vm_compute.
  - by vm_compute.
  - left. by vm_compute.
  - exact buffers0_dom.
Qed.

Lemma sink0_trie : in_trie (key_trie_view as_bytes id) both buffered (sink0, state0).
Proof.
  intros shard i item Hs. unfold both in Hs. apply elem_of_union in Hs as [->%elem_of_singleton| ->%elem_of_singleton]; [|done].
  destruct i as [|i]; [|done]. intros [= <-]. by vm_compute.
Qed.

Lemma sink0_limits t : 0 <= limit_gas (limit_at sink0 t) ∧ 0 <= limit_size (limit_at sink0 t).
Proof.
  unfold limit_at. cbn [outgoing_limit sink0]. destruct (decide (t = 0)) as [->|H0]; [by vm_compute|]. rewrite lookup_insert_ne by done.
  destruct (decide (t = 1)) as [->|H1]; [by vm_compute|]. rewrite lookup_singleton_ne by done. by vm_compute.
Qed.

Lemma sink0_room n z g : n <= 1000 → z <= 1000000 → g <= 1000000 → sink_room as_bytes get_account_type example_fees wasm_config both buffered n z g sink0.
Proof.
  intros Hn Hz Hg.
  assert (all_sizes as_bytes get_account_type example_fees wasm_config both buffered <= 1000 ∧ all_gases as_bytes get_account_type example_fees wasm_config both buffered <= 1000 ∧ all_count both buffered <= 1000) as (A1 & A2 & A3)
    by (split_and!; by vm_compute).
  split.
  - apply both_cases; (apply Z.le_trans with (10 + n); [by apply Z.add_le_mono_r; vm_compute|unfold umax; lia]).
  - apply both_cases; (apply Z.le_trans with (10 + n); [by apply Z.add_le_mono_r; vm_compute|unfold umax; lia]).
  - change (receipt_bytes _) with (sizes (entries0 delayed) + all_sizes as_bytes get_account_type example_fees wasm_config both buffered).
    assert (sizes (entries0 delayed) <= 10000) by by vm_compute. unfold umax. lia.
  - change (buffered_receipts_gas _) with (all_gases as_bytes get_account_type example_fees wasm_config both buffered). unfold umax. lia.
  - intros shard. unfold stats_room, umax. cbn [forwarded_receipts stats sink0 default_sink_stats]. rewrite lookup_empty. cbn. lia.
  - intros shard. unfold stats_room, umax. cbn [buffered_receipts stats sink0 default_sink_stats]. rewrite lookup_empty. cbn. lia.
Qed.

Lemma both_shards : sink_shards both info0.
Proof.
  intros shard. unfold both, info0. cbn [shard_layout parent_shard_ids]. change (shard_ids two_shards) with [0; 1].
  rewrite elem_of_union, !elem_of_singleton, elem_of_empty, elem_of_cons, list_elem_of_singleton. tauto.
Qed.

Lemma start0 : chunk_start as_bytes get_account_type account_le hash_bytes example_fees wasm_config (key_view as_bytes id) (key_trie_view as_bytes id) enum_ok both info0 base0 buffered [plain] (sink0, state0).
Proof.
  split; [exact both_shards|exact sink0_rep|done|exact sink0_trie|by apply sink0_room|exact sink0_limits|apply Forall_singleton, plain_fine].
Qed.

Definition ops0 : list (ChunkOp (AccountId := bool)) := [DelayReceipt plain; TakeDelayed; ForwardReceipt plain].

Lemma delayed_room0 n z g : n <= 1000 → z <= 1000000 → g <= 1000000 → 0 <= z → 0 <= g → delayed_room as_bytes get_account_type example_fees wasm_config n z g delayed wrapper0.
Proof.
  intros. assert (sizes (entries0 delayed) <= 10000 ∧ gases (entries0 delayed) <= 10000) as [E1 E2] by (split; by vm_compute). unfold entries0 in E1, E2. split; unfold umax in *; cbn [new_delayed_gas new_delayed_bytes removed_delayed_gas removed_delayed_bytes queue wrapper0 new_wrapper delayed_indices queue0 next_available_index]; lia.
Qed.

Lemma ready0 : chunk_ready as_bytes get_account_type account_le hash_bytes example_fees wasm_config (key_view as_bytes id) (key_trie_view as_bytes id) enum_ok both info0 0 delayed buffered ops0 (wrapper0, sink0, state0).
Proof.
  split; cbn [fst snd]; [exact both_shards|exact sink0_rep|exact sink0_trie|done|exact delayed_queue_rep|by apply sink0_room|by apply delayed_room0|exact sink0_limits| |by exists 0%nat].
  apply Forall_cons. split; [apply plain_fine|]. apply Forall_cons. split; [done|]. apply Forall_singleton, plain_fine.
Qed.

(** Sizes that are too large together. *)
Definition huge : Item := StoredReceipt (StoredV1 (ReceiptIsV1 (mkReceiptV1 false true (replicate 32 7) (DataR (mkDataReceipt (replicate 32 8) None)) 9)) (mkMetadata 1000 (umax 64))).
Definition trie1 : gmap bytes bytes := list_to_map [
  (raw DelayedReceiptIndices, borsh_encode (delayed_indices queue0)); (raw (DelayedReceipt 7), borsh_encode huge); (raw (DelayedReceipt 8), borsh_encode huge)].
Definition state1 : Update := new_update trie1 None.
Definition no_buffers : ShardsOutgoingReceiptBuffer := mkBuffers ∅.

Lemma huge_fine : item_fine as_bytes get_account_type account_le hash_bytes example_fees wasm_config enum_ok both two_shards huge.
Proof. by apply (item_fine_by _ 1); vm_compute. Qed.

Lemma huge_rep : delayed_rep as_bytes get_account_type account_le hash_bytes example_fees wasm_config (key_view as_bytes id) enum_ok both [huge; huge] (wrapper0, state1).
Proof.
  split; [split; [done|done|done|done| |]| |by left; vm_compute].
  - apply Forall_cons. split; [apply huge_fine|]. apply Forall_singleton, huge_fine.
  - intros [|[|i]] item Hi; [injection Hi as <-; by vm_compute..|done].
  - apply Forall_cons. split; [apply huge_fine|]. apply Forall_singleton, huge_fine.
Qed.

Lemma no_buffers_hold : buffers_hold as_bytes get_account_type account_le hash_bytes example_fees wasm_config (key_view as_bytes id) enum_ok both two_shards (λ _, []) no_buffers state1.
Proof.
  split; [|constructor|right; split; by vm_compute|done]. apply both_cases; (split; [done|done|done|done|constructor|done]).
Qed.
End SinkExample.
Import SinkExample.

Lemma sink_conserves_receipts_witness : ∃ sink u bufs sent,
  forward_chunk as_bytes get_account_type account_le hash_bytes example_fees wasm_config true info0 [plain] (sink0, state0) = Ok () (sink, u) ∧
  outgoing_receipts sink = into_receipt <$> sent ∧ length (sent ++ all_items both bufs) = 2%nat.
Proof.
  destruct (sink_conserves_receipts as_bytes get_account_type account_le hash_bytes example_fees wasm_config true (runtime_key as_bytes) (key_view as_bytes id) (key_trie_view as_bytes id) enum_ok both both_ok ltac:(done)
    info0 base0 buffered [plain] sink0 state0 start0) as (sink & u & bufs & sent & H1 & H2 & H3 & _). exists sink, u, bufs, sent. split_and!; [done|done|].
  apply Permutation_length in H3. rewrite length_app, !length_fmap in H3. by rewrite H3.
Defined.

Lemma sink_respects_limits_witness : ∃ sink u bufs sent,
  forward_chunk as_bytes get_account_type account_le hash_bytes example_fees wasm_config true info0 [plain] (sink0, state0) = Ok () (sink, u) ∧
  length (sent ++ all_items both bufs) = 2%nat ∧ sent_size account_le hash_bytes wasm_config two_shards 0 sent + limit_size (limit_at sink 0) = 100.
Proof.
  destruct (sink_respects_limits as_bytes get_account_type account_le hash_bytes example_fees wasm_config true (runtime_key as_bytes) (key_view as_bytes id) (key_trie_view as_bytes id) enum_ok both both_ok ltac:(done)
    info0 base0 buffered [plain] sink0 state0 start0) as [(sink & u & bufs & sent & H1 & _ & H3 & _ & H5) _]. exists sink, u, bufs, sent. split; [done|]. split; [|apply (H5 0)].
  apply Permutation_length in H3. rewrite length_app, !length_fmap in H3. by rewrite H3.
Defined.

Lemma chunk_info_matches_state_witness : ∃ i s,
  apply_chunk as_bytes get_account_type account_le hash_bytes example_fees wasm_config true (λ _, false) info0 0 ops0 100 (wrapper0, sink0, state0) = Ok i s ∧
  bootstrap_congestion_info as_bytes get_account_type example_fees wasm_config (st_get s.2) 0 = ROk (set_allowed_shard 0 i).
Proof.
  exact (chunk_info_matches_state as_bytes get_account_type account_le hash_bytes example_fees wasm_config true (λ _, false) (runtime_key as_bytes) (key_view as_bytes id) (key_trie_view as_bytes id) enum_ok both both_ok ltac:(done)
    info0 0 100 delayed buffered ops0 (wrapper0, sink0, state0) ready0).
Defined.

Lemma own_info_counts_or_fails_witness :
  apply_state_own_info as_bytes get_account_type example_fees wasm_config ∅ (st_get state1) 0 = RErr (RtStorageError ()).
Proof.
  rewrite (own_info_counts_or_fails as_bytes get_account_type account_le hash_bytes example_fees wasm_config (runtime_key as_bytes) (key_view as_bytes id) (key_trie_view as_bytes id) enum_ok both both_ok
    ∅ [huge; huge] wrapper0 (λ _, []) no_buffers state1 0 huge_rep no_buffers_hold). cbn [lookup]. destruct (decide _) as [(_ & _ & H)|_]; [by vm_compute in H|done].
Defined.

(** The first delayed receipt is for the other shard. *)
Lemma pop_returns_next_receipt_witness : ∃ w u,
  pop as_bytes get_account_type account_le hash_bytes example_fees wasm_config (λ _, false) (wrapper0, state0) = (Ok (Some (PlainReceipt plain)) (w, u) : outcome _ (RuntimeError ()) _).
Proof.
  destruct (pop_returns_next_receipt as_bytes get_account_type account_le hash_bytes example_fees wasm_config (λ _, false) (runtime_key as_bytes) (key_view as_bytes id) (key_trie_view as_bytes id) enum_ok both
    delayed wrapper0 state0 0 0 0 delayed_queue_rep ltac:(by apply delayed_room0) ltac:(done) ltac:(done)) as (r & w & u & k & H1 & _ & H2 & _).
  destruct r as [item|]; [|destruct H2 as [H2 [H3|H3]]; [|done]].
  - destruct H2 as ([|[|j]] & _ & H2 & H3 & _); [injection H2 as <-; by vm_compute in H3|injection H2 as <-; by exists w, u|done].
  - destruct k as [|[|k]]; [done|done|]. apply Forall_cons in H2 as [_ H2]. cbn [take] in H2. apply Forall_cons in H2 as [H2 _]. by vm_compute in H2.
Defined.
