(* ===== verification/ProcessSink.v ===== *)
(** The receipt sink keeps what the processing of transactions needs of it. *)

From stdpp Require Import functions.
From S2P Require Import Prelude Errors Borsh Costs TrieKey Fees Receipt TrieQueue ReceiptQueues OutgoingMetadata CongestionInfo ShardLayout ReceiptSink ReceiptSinkCorrect ProcessCorrect.
Local Open Scope Z_scope.

Section sink.
Context {AccountId StorageError U : Type} `{!EqDecision AccountId} `{!StateStore (TrieKey AccountId) StorageError U}.
Context `{!Borsh AccountId} `{!Borsh (ReceiptEnum AccountId)} `{!Borsh TrieQueueIndices} `{!Borsh (gmap Z TrieQueueIndices)}.
Context `{!Borsh ReceiptGroupsQueueData} `{!Borsh ReceiptGroup}.
Context (as_bytes : AccountId → bytes) (get_account_type : AccountId → AccountType).
Context (account_le : relation AccountId) `{!RelDecision account_le} (hash_bytes : AccountId → list Z).
Context (fees : RuntimeFeesConfig) (wasm_config : VmConfig) (use_state_stored_receipt : bool).
Context (key_ok : TrieKey AccountId → Prop) (st_view : U → TrieKey AccountId → option (list Z)) (st_trie_view : U → Base (TrieKey AccountId)).
Context `{!StateStoreOk (TrieKey AccountId) StorageError U key_ok st_view st_trie_view} `{!QueueKeys key_ok}.
Context (enum_ok : ReceiptEnum AccountId → Prop) `{!AccountIdBorsh as_bytes} `{!BorshOk (ReceiptEnum AccountId) enum_ok}.
Context `{!BorshOk ReceiptGroup group_ok} `{!BorshOk (gmap Z TrieQueueIndices) indices_map_ok}.
Context (S : gset Z) (S_ok : ∀ shard, shard ∈ S → in_u 16 shard).

Abbreviation Rcpt := (Receipt AccountId).
Abbreviation Sink := (ReceiptSinkV2 (AccountId := AccountId)).
Abbreviation item_fine := (item_fine as_bytes get_account_type account_le hash_bytes fees wasm_config enum_ok S).
Abbreviation sink_rep := (sink_rep as_bytes get_account_type account_le hash_bytes fees wasm_config st_view enum_ok S).
Abbreviation sink_room := (sink_room as_bytes get_account_type fees wasm_config S).
Abbreviation spent := (spent as_bytes get_account_type account_le hash_bytes fees wasm_config).
Abbreviation extends := (extends as_bytes get_account_type fees wasm_config S).
Abbreviation receipt_sizes := (receipt_sizes as_bytes get_account_type fees wasm_config).
Abbreviation receipt_gases := (receipt_gases as_bytes get_account_type fees wasm_config).

(** From the sink [sink0] with the buffers [bufs0], the receipts [handled] were sent or added to the buffers, and [todo] would be accepted. *)
Record accepts (info : ReceiptSinkV2Info (AccountId := AccountId)) (base : Z * Z) (bufs0 : Z → list (ReceiptOrStateStoredReceipt AccountId)) (sink0 : Sink)
    (todo handled : list Rcpt) (s : Sink * U) : Prop := {
  ac_base : 0 <= base.1;
  ac_fine : Forall (λ r, item_fine (shard_layout info) (PlainReceipt r)) todo;
  ac_state : ∃ bufs sent, sink_rep (shard_layout info) base bufs s ∧ spent (shard_layout info) sink0 sent s.1 ∧ extends bufs0 bufs sent handled ∧
    sink_room bufs (Z.of_nat (length todo)) (receipt_sizes todo) (receipt_gases todo) s.1
}.

Lemma receipts_cons info r todo : Forall (λ r, item_fine (shard_layout info) (PlainReceipt r)) (r :: todo) →
  size_of (PlainReceipt r) + receipt_sizes todo = receipt_sizes (r :: todo) ∧ 0 <= receipt_sizes todo ∧ 0 < size_of (PlainReceipt r) ∧
  gas_of as_bytes get_account_type fees wasm_config (PlainReceipt r) + receipt_gases todo = receipt_gases (r :: todo) ∧ 0 <= receipt_gases todo ∧
  0 <= gas_of as_bytes get_account_type fees wasm_config (PlainReceipt r).
Proof.
  intros [Hr Hf]%Forall_cons. assert (Forall entry_ok (entry as_bytes get_account_type fees wasm_config <$> (PlainReceipt <$> todo))) as He by (eapply fine_entries, Forall_fmap; exact Hf).
  pose proof (sizes_nonneg _ He). pose proof (gases_nonneg _ He). destruct Hr as [_ _ _ Hs Hg _].
  unfold ReceiptSinkCorrect.receipt_sizes, ReceiptSinkCorrect.receipt_gases. rewrite fmap_cons, sizes_entries_cons, gases_entries_cons. lia.
Qed.

#[export] Instance sink_accepts info base bufs0 sink0 : ReceiptSinkOk key_ok st_view st_trie_view sink_key
  (forward_or_buffer_receipt as_bytes get_account_type account_le hash_bytes fees wasm_config use_state_stored_receipt info) (accepts info base bufs0 sink0).
Proof.
  split.
  - intros r todo handled [sink u] [Hb Hf (bufs & sent & Hrep & Hsp & Hex & Hroom)]. pose proof (receipts_cons info r todo Hf) as Hs. apply Forall_cons in Hf as [Hr Hf]. cbn [fst snd length] in *.
    eapply returns_mono; [eapply (forward_or_buffer_ok as_bytes get_account_type account_le hash_bytes fees wasm_config use_state_stored_receipt key_ok st_view st_trie_view enum_ok S S_ok info base bufs sink0 sink sent u r); try done; lia|].
    intros [] [sink1 u1] (bufs1 & sent1 & Hn & Hrep1 & [V T] & Hsp1 & Hroom1). cbn [fst snd] in *. split_and!; [|done|].
    + split; [done|done|]. exists bufs1, (sent ++ sent1). split_and!; [done|done| |eapply sink_room_mono; [exact Hroom1|lia..]].
      destruct (fine_target _ _ _ _ _ _ _ _ _ _ Hr) as (t & HtS & Ht). eapply extends_trans; [exact Hex|]. by eapply extends_new.
    + intros k Hk Ho. apply V. split; [done|]. by destruct k.
  - intros r todo handled [sink u] [Hb Hf (bufs & sent & Hrep & Hsp & Hex & Hroom)]. pose proof (receipts_cons info r todo Hf) as Hs. apply Forall_cons in Hf as [Hr Hf].
    split; [done|done|]. exists bufs, sent. split_and!; [done..|]. eapply sink_room_mono; [exact Hroom|cbn [length]; lia..].
  - intros todo handled x u u' [Hb Hf (bufs & sent & Hrep & Hsp & Hex & Hroom)] _ Hv. split; [done|done|]. exists bufs, sent. split_and!; try done.
    by eapply (sink_rep_keys as_bytes get_account_type account_le hash_bytes fees wasm_config key_ok st_view enum_ok S S_ok).
Qed.
End sink.
