(* ===== verification/ProcessExamples.v ===== *)
(** A concrete list of transactions: a transfer to another shard, a transfer of an account to itself, a replay and a call that the
    key does not permit, processed on the state and the sink of the example chunk. *)

From stdpp Require Import functions sorting.
From S2P Require Import Prelude Errors Borsh Costs TrieKey ShardLayout StateUpdate Fees Receipt Account StoreUtils Verifier Transaction TrieQueue ReceiptQueues ProcessTransactions ActionsCorrect ProcessCorrect OutgoingMetadata CongestionInfo ReceiptSink ReceiptSinkCorrect ChunkExamples ProcessSink.
Import ReceiptExample SinkExample.
Import (hints) KeyExample QueueExample MetadataExample.
Local Open Scope Z_scope.

Module ProcessExample.

(** ** The derived serialisation of access keys *)

Definition encode_string (s : bytes) : bytes := to_le_bytes 4 (Z.of_nat (length s)) ++ s.
Definition decode_string (b : bytes) : option (bytes * bytes) :=
  '(n, b) ← borsh_decode (Borsh := borsh_uint 4) b;
  '(s, b) ← read_bytes (Z.to_nat n) b;
  if utf8_ok s then Some (s, b) else None.

Definition encode_allowance (a : option Z) : bytes := match a with None => [0] | Some a => 1 :: encode_u128 a end.
Definition decode_allowance (b : bytes) : option (option Z * bytes) :=
  match b with
  | 0 :: b => Some (None, b)
  | 1 :: b => '(a, b) ← decode_u128 b; Some (Some a, b)
  | _ => None
  end.

Definition encode_permission (p : AccessKeyPermission) : bytes :=
  match p with
  | PermFunctionCall p => 0 :: encode_allowance (allowance p) ++ encode_string (permitted_receiver p) ++ encode_vec encode_string (method_names p)
  | PermFullAccess => [1]
  end.
Definition decode_permission (b : bytes) : option (AccessKeyPermission * bytes) :=
  match b with
  | 0 :: b =>
      '(a, b) ← decode_allowance b;
      '(r, b) ← decode_string b;
      '(l, b) ← decode_vec decode_string b;
      Some (PermFunctionCall (mkFunctionCallPermission a r l), b)
  | 1 :: b => Some (PermFullAccess, b)
  | _ => None
  end.

#[export] Instance access_key_borsh : Borsh AccessKey := {|
  borsh_encode k := encode_u64 (access_nonce k) ++ encode_permission (permission k);
  borsh_decode b := '(n, b) ← decode_u64 b; '(p, b) ← decode_permission b; Some (mkAccessKey n p, b)
|}.

Lemma decode_length n rest : n <= umax 32 → 0 <= n → borsh_decode (Borsh := borsh_uint 4) (to_le_bytes 4 n ++ rest) = Some (n, rest).
Proof. intros. unfold umax in *. apply (borsh_uint_ok 4). change (256 ^ Z.of_nat 4) with (2 ^ 32). lia. Qed.

Lemma decode_string_ok s rest : string_ok s → decode_string (encode_string s ++ rest) = Some (s, rest).
Proof.
  intros [Hu Hl]. unfold decode_string, encode_string. rewrite <-app_assoc, decode_length by lia. cbn [mbind option_bind]. rewrite read_bytes_app by lia. cbn [mbind option_bind]. by rewrite Hu.
Qed.

#[export] Instance access_key_roundtrip : BorshOk AccessKey access_key_ok.
Proof.
  intros [n p] rest [Hn Hp]. cbn [borsh_encode borsh_decode access_key_borsh access_nonce permission] in *. rewrite <-app_assoc, decode_encode_u64 by done. cbn [mbind option_bind].
  destruct p as [[a r ms]|]; [|done]. destruct Hp as (Ha & Hr & Hms & Hl). cbn [allowance permitted_receiver method_names encode_permission] in *. cbn [app decode_permission]. rewrite <-!app_assoc.
  assert (∀ rest, decode_allowance (encode_allowance a ++ rest) = Some (a, rest)) as ->.
  { intros rest'. destruct a as [a|]; [|done]. cbn [encode_allowance app decode_allowance]. by rewrite decode_encode_u128 by by apply Ha. }
  cbn [mbind option_bind]. rewrite decode_string_ok by done. cbn [mbind option_bind].
  by rewrite (decode_vec_ok _ _ string_ok) by (done || by intros; apply decode_string_ok).
Qed.

(** ** Parameters *)

Definition hash (b : bytes) : bytes := replicate 32 (Z.of_nat (length b) mod 256).
Definition verify (signature h : bytes) (k : PublicKey) : bool := true.
Definition limits : LimitConfig := mkLimitConfig 1000000 100 100 100 1000 1000 1000 1000 1000 10 RulesV1.
Definition commit (_ : bytes) (u : Update) : option Update := StateUpdate.commit () u.
Definition forward := forward_or_buffer_receipt as_bytes get_account_type account_le hash_bytes example_fees wasm_config true info0 (StorageError := ()) (U := Update).

Definition alice : bool := false.
Definition bob : bool := true.
Definition full_key : PublicKey := ED25519 (replicate 32 1).
Definition call_key : PublicKey := ED25519 (replicate 32 2).

Definition sign (key : PublicKey) (nonce : Z) (receiver : bool) (acts : list (Action bool)) : SignedTransaction (AccountId := bool) :=
  mkSignedTransaction (TransactionIsV0 (mkTransactionV0 alice key nonce receiver (replicate 32 0) acts)) [] (replicate 32 nonce) 200.

Definition to_bob := sign full_key 8 bob [Transfer 5].
Definition to_alice := sign full_key 9 alice [Transfer 7].
Definition forbidden := sign call_key 4 bob [Transfer 1].
Definition txs0 := [to_bob; to_alice; to_bob; forbidden].

(** ** The state *)

Definition account0 : Account bool := AccountIsV1 (mkAccountV1 1000 0 (replicate 32 0) 100).
Definition full_access0 : AccessKey := mkAccessKey 7 PermFullAccess.
Definition call_access0 : AccessKey := mkAccessKey 3 (PermFunctionCall (mkFunctionCallPermission (Some 100) [98; 111; 98] [])).

Definition write (e : TrieKey bool * bytes) (u : Update) : option Update := st_set (StateStore := chunk_store) e.1 e.2 u.
Definition state2 : Update := default state0 (for_each write
  [(TrieKey.Account alice, borsh_encode account0); (TrieKey.AccessKey alice full_key, borsh_encode full_access0); (TrieKey.AccessKey alice call_key, borsh_encode call_access0)] state0).

Definition ledger0 : Ledger := mkLedger (λ id, if decide (id = alice) then Some account0 else None)
  (λ i, if decide (i = (alice, full_key)) then Some full_access0 else if decide (i = (alice, call_key)) then Some call_access0 else None).

Abbreviation view := (key_view as_bytes id).
Abbreviation good := (runtime_key as_bytes).

Lemma account_keys id : good (TrieKey.Account id) ∧ ¬ sink_key (TrieKey.Account id).
Proof. split; [|by intros []]. split_and!; [done| |done]. destruct id; by eexists. Qed.

Lemma access_keys_foreign (id : bool) pk : ¬ sink_key (TrieKey.AccessKey id pk).
Proof. by intros []. Qed.

Lemma access_key_good id pk : public_key_ok pk → good (TrieKey.AccessKey id pk).
Proof. intros Hk. split_and!; [done| |done]. by eexists. Qed.

Lemma state2_view k : good k → view state2 k =
  if decide (k = TrieKey.AccessKey alice call_key) then Some (borsh_encode call_access0)
  else if decide (k = TrieKey.AccessKey alice full_key) then Some (borsh_encode full_access0)
  else if decide (k = TrieKey.Account alice) then Some (borsh_encode account0)
  else view state0 k.
Proof.
  intros Hk. unfold state2. cbn [for_each]. unfold write. cbn [fst snd].
  destruct (st_set_ok state0 (TrieKey.Account alice) (borsh_encode account0)) as (u1 & -> & _ & V1); [apply account_keys|]. cbn [mbind option_bind].
  destruct (st_set_ok u1 (TrieKey.AccessKey alice full_key) (borsh_encode full_access0)) as (u2 & -> & _ & V2); [by apply access_key_good|]. cbn [mbind option_bind].
  destruct (st_set_ok u2 (TrieKey.AccessKey alice call_key) (borsh_encode call_access0)) as (u3 & -> & _ & V3); [by apply access_key_good|]. cbn [mbind option_bind default].
  by rewrite V3, V2, V1.
Qed.

Lemma state0_account id : view state0 (TrieKey.Account id) = None.
Proof. by destruct id; vm_compute. Qed.

Lemma state0_access_key id pk : view state0 (TrieKey.AccessKey id pk) = None.
Proof.
  unfold key_view. destruct (to_vec as_bytes (TrieKey.AccessKey id pk)) as [raw|] eqn:Hr; [|done]. cbn [mbind option_bind].
  assert (head raw = Some 2) as Hh by (vm_compute in Hr; destruct id; by injection Hr as <-).
  unfold StateUpdateCorrect.view, StateUpdateCorrect.view_committed, StateUpdateCorrect.last_change, state0, new_update. cbn [prospective committed trie]. rewrite !lookup_empty. cbn [mbind option_bind].
  apply not_elem_of_list_to_map_1. intros Hin. assert (Forall (λ r, head r ≠ Some 2) trie_entries0.*1) as Hf by (by repeat constructor; vm_compute). rewrite Forall_forall in Hf. by apply (Hf raw).
Qed.

Lemma ledger0_rep : ledger_rep good view ledger0 state2.
Proof.
  split.
  - intros id. rewrite state2_view by apply account_keys. rewrite !decide_False by done. cbn [ledger0 ledger_account]. destruct (decide (id = alice)) as [->|Hne]; [done|].
    rewrite decide_False by congruence. apply state0_account.
  - intros id pk Hk. rewrite state2_view by done. cbn [ledger0 ledger_key]. rewrite (decide_False (P := TrieKey.AccessKey id pk = TrieKey.Account alice)) by done.
    destruct (decide ((id, pk) = (alice, full_key))) as [[= -> ->]|H1]; [by rewrite decide_False, decide_True|]. destruct (decide ((id, pk) = (alice, call_key))) as [[= -> ->]|H2]; [by rewrite decide_True|].
    rewrite !decide_False by congruence. apply state0_access_key.
  - intros id a. cbn. case_decide; [|done]. intros [= <-]. by vm_compute.
  - intros i k. cbn. repeat case_decide; [intros [= <-]..|done]; [by vm_compute|]. split; [by vm_compute|]. split_and!; [intros a [= <-]; by vm_compute|by vm_compute|constructor|by vm_compute].
Qed.

Abbreviation fine := (item_fine as_bytes get_account_type account_le hash_bytes example_fees wasm_config enum_ok both two_shards).
Abbreviation sink_ready := (accepts as_bytes get_account_type account_le hash_bytes example_fees wasm_config view enum_ok both info0 base0 buffered sink0).

#[export] Instance forward_accepts : ReceiptSinkOk good view (key_trie_view as_bytes id) sink_key forward sink_ready :=
  sink_accepts as_bytes get_account_type account_le hash_bytes example_fees wasm_config true good view (key_trie_view as_bytes id) enum_ok both both_ok info0 base0 buffered sink0.

Lemma sink_ready0 todo : Forall (λ r, fine (PlainReceipt r)) todo → (length todo <= 1000)%nat → receipt_sizes as_bytes get_account_type example_fees wasm_config todo <= 1000000 →
  receipt_gases as_bytes get_account_type example_fees wasm_config todo <= 1000000 → sink_ready todo [] (sink0, state2).
Proof.
  intros Hf Hl Hz Hg. split; [done|done|]. exists buffered, []. split_and!; [|apply spent_init, sink0_limits| |apply sink0_room; lia].
  - eapply (sink_rep_keys as_bytes get_account_type account_le hash_bytes example_fees wasm_config good view enum_ok both both_ok); [|exact sink0_rep].
    intros k Hk Hs. rewrite state2_view by done. rewrite !decide_False by (by intros ->). done.
  - split; [intros shard; exists []; by rewrite app_nil_r|by rewrite app_nil_r].
Qed.

Abbreviation State := (TxState (AccountId := bool) (StorageError := ()) (U := Update) (K := ReceiptSinkV2 (AccountId := bool))).
Definition start : State := mkTxState (mkPrefetched ∅ ∅) 0 [] 0 0 [] [] (sink0, state2).

Abbreviation ready := (process_ready as_bytes from_str get_account_type hash verify (λ _, true) example_fees wasm_config limits good view (key_trie_view as_bytes id) sink_ready 10 100 80 ledger0).
Abbreviation tx_good := (tx_fine (StorageError := ()) as_bytes from_str get_account_type verify (λ _, true) example_fees wasm_config limits good 10 80).

Lemma tx_good_by (key : PublicKey) (nonce : Z) (receiver : bool) (deposit : Z) : public_key_ok key → in_u 64 nonce → in_u 128 deposit →
  (match tx_cost as_bytes get_account_type example_fees wasm_config (transaction (sign key nonce receiver [Transfer deposit])) 10 80 with RPanic => false | _ => true end) = true →
  tx_good (sign key nonce receiver [Transfer deposit]).
Proof.
  intros Hk Hn Hd Hc. split; cbn [transaction sign tx_actions tx0_actions]; [by apply access_key_good|apply Forall_singleton; by split|done|by eexists|].
  intros E. cbn [transaction sign] in Hc. by rewrite E in Hc.
Qed.

Lemma txs0_good : Forall tx_good txs0.
Proof. unfold txs0, to_bob, to_alice, forbidden. do 4 (apply Forall_cons; split; [by apply tx_good_by; vm_compute|]). constructor. Qed.

Definition accepted0 : list (SignedTransaction (AccountId := bool) * TransactionCost) := [(to_bob, mkTransactionCost 2 2 10 45 20); (to_alice, mkTransactionCost 2 2 10 47 20)].

Abbreviation candidates0 := (candidates as_bytes get_account_type example_fees wasm_config 10 80).
Abbreviation valid0 := (valid_txs (StorageError := ()) as_bytes from_str verify (λ _, true) limits 80).

Lemma receipt_fine tx : tx ∈ [to_bob; forbidden] → ∀ c, fine (PlainReceipt (receipt_of hash 100 (tx, mkTransactionCost 2 2 10 c 20))).
Proof.
  intros Ht c. rewrite elem_of_cons, list_elem_of_singleton in Ht. destruct Ht as [-> | ->]; by apply (item_fine_by _ 1); vm_compute.
Qed.

Lemma valid_txs0 : valid0 txs0 = txs0.
Proof. by vm_compute. Qed.
Lemma candidates_txs0 : candidates0 txs0 = [(to_bob, mkTransactionCost 2 2 10 45 20); (to_alice, mkTransactionCost 2 2 10 47 20); (to_bob, mkTransactionCost 2 2 10 45 20); (forbidden, mkTransactionCost 2 2 10 41 20)].
Proof. by vm_compute. Qed.

Abbreviation receipt0 := (receipt_of hash 100).

Lemma forwarded_txs0 : forwarded_of hash 100 (candidates0 (valid0 txs0)) =
  [receipt0 (to_bob, mkTransactionCost 2 2 10 45 20); receipt0 (to_bob, mkTransactionCost 2 2 10 45 20); receipt0 (forbidden, mkTransactionCost 2 2 10 41 20)].
Proof. by vm_compute. Qed.

Lemma txs_ready0 : ready txs0 start.
Proof.
  split; [exact txs0_good|exact ledger0_rep|by vm_compute| |rewrite valid_txs0, candidates_txs0; by vm_compute..].
  rewrite forwarded_txs0. apply sink_ready0; [|cbn; lia|by vm_compute..]. do 3 (apply Forall_cons; split; [apply receipt_fine; set_solver|]). constructor.
Qed.

Lemma ready1 : ready [forbidden] start.
Proof.
  split; [by apply Forall_singleton, tx_good_by; vm_compute|exact ledger0_rep|by vm_compute| |by vm_compute..].
  replace (forwarded_of _ _ _) with [receipt0 (forbidden, mkTransactionCost 2 2 10 41 20)] by (by vm_compute).
  apply sink_ready0; [|cbn; lia|by vm_compute..]. apply Forall_singleton, receipt_fine. set_solver.
Qed.

Lemma fees0_ok : fees_ok example_fees.
Proof. split; intros; by vm_compute. Qed.
Lemma price0 : in_u 128 10.
Proof. unfold in_u, umax. lia. Qed.
Lemma height0 : height_fits (Some 100).
Proof. intros h [= <-]. by vm_compute. Qed.
Lemma commit0 (h : bytes) (u : Update) : base_live (key_trie_view as_bytes id u) = true → ∃ u', commit h u = Some u' ∧ key_trie_view as_bytes id u' = key_trie_view as_bytes id u ∧ ∀ k, view u' k = view u k.
Proof. apply overlay_commit_ok. Qed.

Abbreviation run := (process_transactions as_bytes from_str get_account_type hash verify (λ _, true) example_fees wasm_config limits 1 3 commit forward 10 100 80).
Abbreviation processed0 := (processed as_bytes from_str get_account_type hash verify (λ _, true) example_fees wasm_config limits 1 good view sink_key sink_ready 10 100 80).
Abbreviation emitted0 := (emitted as_bytes get_account_type hash example_fees wasm_config sink_ready 10 100 80).
End ProcessExample.
Import ProcessExample.

Lemma processing_is_sequential_witness : returns (run txs0) start (λ _ s', ∃ L' acc, processed0 ledger0 txs0 start L' acc s').
Proof.
  exact (processing_is_sequential as_bytes from_str get_account_type hash verify (λ _, true) example_fees wasm_config limits 1 3 commit forward good view (key_trie_view as_bytes id)
    commit0 sink_key sink_ready account_keys access_keys_foreign 10 100 80 fees0_ok price0 height0 ledger0 txs0 start txs_ready0).
Defined.

(** The account of the system is not one of the two. *)
Lemma transactions_conserve_tokens_witness :
  returns (run txs0) start (λ _ s', ∃ acc, emitted0 txs0 start acc s' ∧
    1000 = sum_over (balance_in (StorageError := ()) (sink_and_update s').2) ({[alice; bob]} : gset bool) + tx_burnt_amount s' +
      total_value as_bytes get_account_type example_fees wasm_config bob (local_of hash 100 acc ++ forwarded_of hash 100 acc)).
Proof.
  eapply returns_mono; [apply (transactions_conserve_tokens as_bytes from_str get_account_type hash verify (λ _, true) example_fees wasm_config limits 1 3 commit forward good view (key_trie_view as_bytes id)
    commit0 sink_key sink_ready account_keys access_keys_foreign 10 100 80 fees0_ok price0 height0 bob ledger0 txs0 start {[alice; bob]} txs_ready0)|].
  - apply Forall_forall. repeat (apply Forall_cons; split; [split; [set_solver|done]|]). constructor.
  - intros [] s' (acc & H1 & H2). exists acc. split; [exact H1|]. replace (sum_over _ _) with 1000 in H2 at 1 by (by vm_compute). cbn [tx_burnt_amount start] in H2. lia.
Defined.

Lemma transactions_not_replayed_witness :
  returns (run txs0) start (λ _ s', ∃ acc, emitted0 txs0 start acc s' ∧
    (∀ tx, tx ∈ txs0 → match key_in (StorageError := ()) (sink_and_update start).2 tx with
      | Some (inr (Some k)) => StronglySorted Z.lt (access_nonce k :: nonces_of (signing_key tx) acc) ∧
          ∃ k', key_in (StorageError := ()) (sink_and_update s').2 tx = Some (inr (Some k')) ∧ last (access_nonce k :: nonces_of (signing_key tx) acc) = Some (access_nonce k')
      | _ => nonces_of (signing_key tx) acc = []
      end) ∧
    ∀ p, p ∈ acc → ∃ k, key_in (StorageError := ()) (sink_and_update s').2 p.1 = Some (inr (Some k)) ∧ ∀ cost height a, ¬ covered (transaction p.1) cost height (a : Account bool) k).
Proof.
  exact (transactions_not_replayed as_bytes from_str get_account_type hash verify (λ _, true) example_fees wasm_config limits 1 3 commit forward good view (key_trie_view as_bytes id)
    commit0 sink_key sink_ready account_keys access_keys_foreign 10 100 80 fees0_ok price0 height0 ledger0 txs0 start txs_ready0).
Defined.

Lemma rejected_transaction_spends_allowance_witness :
  returns (run [forbidden]) start (λ _ s', outcomes s' = [] ∧
    get_account (st_get (sink_and_update s').2) alice = Some (inr (Some account0) : () + _) ∧
    get_access_key (st_get (sink_and_update s').2) alice call_key =
      Some (inr (Some (mkAccessKey 3 (PermFunctionCall (mkFunctionCallPermission (Some 59) [98; 111; 98] [])))) : () + _)).
Proof.
  eapply returns_mono; [apply (rejected_transaction_spends_allowance as_bytes from_str get_account_type hash verify (λ _, true) example_fees wasm_config limits 1 3 commit forward good view (key_trie_view as_bytes id)
    commit0 sink_key sink_ready account_keys access_keys_foreign 10 100 80 fees0_ok price0 height0 ledger0 forbidden start (mkTransactionCost 2 2 10 41 20) account0 call_access0
    (mkFunctionCallPermission (Some 100) [98; 111; 98] []) 100 ready1)|].
  - by vm_compute.
  - split_and!; [by vm_compute|done|done|]. split_and!; [split; [by vm_compute|intros h [= <-]; by vm_compute]|exact height0|by vm_compute|intros a [= <-]; by vm_compute].
  - intros [_ (m & x & g & d & Ha & _)]. done.
  - done.
  - done.
  - intros [] s' (H1 & _ & _ & H2 & H3). by split_and!.
Defined.
