(* ===== verification/ExecutionExamples.v ===== *)
(** A concrete receipt: an account calls a contract of its own, which sends a transfer, and is then paid a deposit.  It is executed on the
    overlay of a trie, with the sink of the example chunk and a small virtual machine. *)

From stdpp Require Import functions sorting.
From S2P Require Import Prelude Errors Borsh Costs TrieKey ShardLayout StateUpdate StateUpdateCorrect Fees Receipt ReceiptManager Account StoreUtils RemoveAccount Verifier Transaction TrieQueue ReceiptQueues ProcessTransactions ProcessCorrect RuntimeStore Actions ActionsCorrect ApplyReceipt ExecutionCorrect OutgoingMetadata CongestionInfo ReceiptSink ReceiptSinkCorrect ChunkExamples ProcessSink ProcessExamples.
Import ReceiptExample SinkExample.
Import (hints) KeyExample QueueExample MetadataExample ProcessExample.
Local Open Scope Z_scope.

Module ExecutionExample.

(** ** The state *)

Abbreviation Update := (TrieUpdate (AccountId := bool) (Trie := gmap bytes bytes) (Cause := StateChangeCause)).

Definition trie_contains_key (t : gmap bytes bytes) (k : bytes) : () + bool := inr (bool_decide (is_Some (t !! k))).
Definition trie_value_ref (t : gmap bytes bytes) (k : bytes) : () + option (Z * bytes) := inr ((λ v, (Z.of_nat (length v), ProcessExample.hash v)) <$> t !! k).
Definition seek_prefix (t : gmap bytes bytes) (prefix : bytes) : () + list (() + bytes * bytes) := inr [].

#[export] Instance exec_store : StateStore (TrieKey bool) () Update := overlay_store as_bytes QueueExample.trie_get ().
#[export] Instance exec_store_ok : StateStoreOk (TrieKey bool) () Update (runtime_key as_bytes) (key_view as_bytes id) (key_trie_view as_bytes id) :=
  overlay_store_ok as_bytes from_str QueueExample.trie_get () id (λ _ _, eq_refl).
#[export] Instance exec_runtime_store : RuntimeStore bool () Update :=
  overlay_runtime_store as_bytes QueueExample.trie_get () trie_contains_key trie_value_ref (λ _, true) ProcessExample.hash seek_prefix.

Lemma ref_length t k n h : trie_value_ref t k = inr (Some (n, h)) → 0 <= n.
Proof. unfold trie_value_ref. destruct (t !! k); [|done]. intros [= <- _]. lia. Qed.

#[export] Instance exec_runtime_store_ok : RuntimeStoreOk bool () Update (runtime_key as_bytes) (key_view as_bytes id) (key_saved as_bytes id) (key_trie_view as_bytes id) :=
  overlay_runtime_store_ok as_bytes from_str QueueExample.trie_get () trie_contains_key trie_value_ref (λ _, true) ProcessExample.hash seek_prefix id ref_length.

(** ** Serialisation *)

#[export] Instance yield_indices_borsh : Borsh PromiseYieldIndices := {|
  borsh_encode i := encode_u64 (yield_first_index i) ++ encode_u64 (yield_next_available_index i);
  borsh_decode b :=
    '(f, b) ← decode_u64 b;
    '(n, b) ← decode_u64 b;
    if (0 <=? n) && (n <=? umax 64) then Some (mkYieldIndices f n, b) else None
|}.

Lemma yield_indices_fit data (i : PromiseYieldIndices) rest : borsh_decode data = Some (i, rest) → in_u 64 (yield_next_available_index i).
Proof.
  cbn [borsh_decode yield_indices_borsh]. destruct (decode_u64 data) as [[f b]|]; [|done]. cbn [mbind option_bind]. destruct (decode_u64 b) as [[n b']|]; [|done]. cbn [mbind option_bind].
  destruct (Z.leb_spec 0 n), (Z.leb_spec n (umax 64)); cbn; try done. by intros [= <- _].
Qed.

#[export] Instance yield_timeout_borsh : Borsh (PromiseYieldTimeout bool) := {|
  borsh_encode t := borsh_encode (timeout_account_id t) ++ timeout_data_id t ++ encode_u64 (expires_at t);
  borsh_decode b := '(a, b) ← borsh_decode b; '(d, b) ← read_bytes 32 b; '(e, b) ← decode_u64 b; Some (mkYieldTimeout a d e, b)
|}.

#[export] Instance received_borsh : Borsh ReceivedData := {|
  borsh_encode d := match received_data d with None => [0] | Some data => 1 :: ProcessExample.encode_string data end;
  borsh_decode b :=
    match b with
    | 0 :: b => Some (mkReceivedData None, b)
    | 1 :: b => '(n, b) ← borsh_decode (Borsh := borsh_uint 4) b; '(d, b) ← read_bytes (Z.to_nat n) b; Some (mkReceivedData (Some d), b)
    | _ => None
    end
|}.

(** Delegate actions are only hashed. *)
#[export] Instance delegate_borsh : Borsh (DelegateAction bool (Action bool)) := {| borsh_encode da := encode_u64 (Fees.nonce da); borsh_decode _ := None |}.

(** ** The virtual machine *)

Definition alice : bool := false.
Definition system : bool := true.

(** Any contract burns 7 gas and creates a receipt with a transfer of 2 to [alice]; the machine does not accept calls that cannot pay for it. *)
Definition transfer_manager : ReceiptManager (AccountId := bool) :=
  set_action_receipts [mkActionReceiptMetadata alice [] [] [Transfer 2] false] default_manager.

Definition transfer_gas (fees : RuntimeFeesConfig) : Z := manager_gas as_bytes get_account_type fees wasm_config (action_receipts transfer_manager).

Definition call_outcome (fees : RuntimeFeesConfig) (ctx : VMContext bool) : VMOutcome () :=
  mkVMOutcome (account_balance ctx + attached_deposit ctx - 2) (ctx_storage_usage ctx) ReturnNone 7 (7 + transfer_gas fees) 7 [] new_profile None.

Definition callable (fees : RuntimeFeesConfig) (ctx : VMContext bool) : bool :=
  (0 <=? transfer_gas fees) && (7 + transfer_gas fees <=? prepaid_gas ctx) && (2 <=? account_balance ctx + attached_deposit ctx) && (0 <=? ctx_storage_usage ctx) && (ctx_storage_usage ctx <=? umax 64).

#[export] Instance small_vm : Vm bool () Update () := {|
  vm_contract := ();
  get_contract _ _ _ _ := ();
  vm_run _ _ ctx fees s := if callable fees ctx then Ok (call_outcome fees ctx) (s.1, transfer_manager) else Panic
|}.

Lemma transfer_manager_reached : manager_reached as_bytes transfer_manager.
Proof.
  eapply (reached_ok _ _ (OpTransfer 0 2)); [eapply (reached_ok _ _ (OpCreateActionReceipt [] [] alice)); [apply reached_default|done|reflexivity]|cbn; lia|reflexivity].
Qed.

#[export] Instance small_vm_ok : VmOk as_bytes get_account_type (runtime_key as_bytes) (key_view as_bytes id) (key_saved as_bytes id) (key_trie_view as_bytes id) wasm_config.
Proof.
  split. intros c ext ctx fees u. cbn [vm_run small_vm]. unfold callable. destruct (Z.leb_spec 0 (transfer_gas fees)); [|done]. destruct (Z.leb_spec (7 + transfer_gas fees) (prepaid_gas ctx)); [|done].
  destruct (Z.leb_spec 2 (account_balance ctx + attached_deposit ctx)); [|done]. destruct (Z.leb_spec 0 (ctx_storage_usage ctx)); [|done]. destruct (Z.leb_spec (ctx_storage_usage ctx) (umax 64)); [|done].
  cbn [andb]. split; [apply st_frame_refl|]. split; cbn [out_burnt_gas out_used_gas out_balance out_storage_usage call_outcome aborted].
  - exact transfer_manager_reached.
  - lia.
  - done.
  - change (receipts_gas (action_receipts transfer_manager)) with 0. lia.
  - done.
  - by repeat constructor.
  - intros _. change (manager_deposits (action_receipts transfer_manager)) with 2. lia.
  - intros _. fold (transfer_gas fees). lia.
Qed.

(** ** The receipt *)

Definition config0 : RuntimeConfig bool := mkRuntimeConfig example_fees wasm_config ProcessExample.limits (mkAccountCreationConfig 0 alice) 200.
Definition apply_state0 : ApplyState bool := mkApplyState false 100 [] 0 1 10 5 None [] 80 config0.
Definition wallet : Code := mkCode [] (replicate 32 1).

Definition call0 : ActionReceipt bool := mkActionReceipt alice ProcessExample.full_key 12 [] [] [FunctionCall [109] [] 60 5; Transfer 3].
Definition receipt0 : Receipt bool := ReceiptIsV0 (mkReceiptV0 alice alice (replicate 32 9) (ActionR call0)).

Definition write0 (e : TrieKey bool * bytes) (u : Update) : option Update := st_set (StateStore := exec_store) e.1 e.2 u.
Definition state3 : Update := default (new_update trie0 None) (for_each write0 [(TrieKey.Account alice, borsh_encode ProcessExample.account0)] (new_update trie0 None)).

Definition stats0 : BalanceStats := mkBalanceStats 0 0 0 0 0.
Definition forward := forward_or_buffer_receipt as_bytes get_account_type account_le hash_bytes example_fees wasm_config true info0 (StorageError := ()) (U := Update).
Definition rt0 : RtState (AccountId := bool) (U := Update) (K := ReceiptSinkV2 (AccountId := bool)) := mkRtState sink0 state3 [] stats0.

Abbreviation run := (apply_action_receipt as_bytes from_str get_account_type (λ _, true) (λ _ _, false) system ProcessExample.hash ProcessExample.verify (λ _, None) (λ _, true) wallet (λ _, None) (λ _, inr 0) forward apply_state0 (CallError := ())).

Abbreviation view := (key_view as_bytes id).
Abbreviation saved := (key_saved as_bytes id).
Abbreviation good := (runtime_key as_bytes).
Abbreviation trie_view := (key_trie_view as_bytes id).
Abbreviation sink_ready := (accepts as_bytes get_account_type account_le hash_bytes example_fees wasm_config view enum_ok both info0 base0 buffered sink0).

#[export] Instance forward_accepts : ReceiptSinkOk good view trie_view sink_key forward sink_ready :=
  sink_accepts as_bytes get_account_type account_le hash_bytes example_fees wasm_config true good view trie_view enum_ok both both_ok info0 base0 buffered sink0.

Lemma as_bytes_injective : Inj (=) (=) as_bytes.
Proof. by intros [|] [|]. Qed.
Lemma hash0_length b : length (ProcessExample.hash b) = 32%nat.
Proof. apply length_replicate. Qed.
Lemma storage0_ok : storage_ok (storage_usage_config example_fees).
Proof. by split_and!; vm_compute. Qed.
Lemma account_keys0 id : good (TrieKey.Account id) ∧ good (ContractCode id).
Proof. split; (split_and!; [done| |done]); destruct id; by eexists. Qed.
Lemma access_keys0 id pk : public_key_ok pk → good (TrieKey.AccessKey id pk).
Proof. intros Hk. split_and!; [done| |done]. by eexists. Qed.
Lemma yield_keys0 : good TrieKey.PromiseYieldIndices ∧ ∀ i, in_u 64 i → good (TrieKey.PromiseYieldTimeout i).
Proof. split; [|intros i Hi]; (split_and!; [done| |done]); by eexists. Qed.
Lemma received_keys0 id d : length d = 32%nat → good (TrieKey.ReceivedData id d).
Proof. intros Hd. split_and!; [done| |done]. by eexists. Qed.
Lemma call0_ok : Forall (action_ok as_bytes) (receipt_actions call0) ∧ Forall action_fits (receipt_actions call0).
Proof. split; repeat (apply Forall_cons; split); try constructor; try done; by split_and!. Qed.
Lemma state3_account a : account_at view state3 alice = Some a → acct_fits a.
Proof. intros Ha. assert (account_at view state3 alice = Some ProcessExample.account0) as E by by vm_compute. rewrite E in Ha. injection Ha as <-. by split_and!; vm_compute. Qed.
Lemma accounts_foreign (id : bool) : ¬ sink_key (TrieKey.Account id).
Proof. by intros []. Qed.
End ExecutionExample.
Import ExecutionExample.

Definition is_Ok {S E A} (x : outcome S E A) : bool := match x with Ok _ _ => true | _ => false end.

Lemma run0_returns : is_Ok (run receipt0 rt0) = true.
Proof. by vm_compute. Qed.

Lemma receipt_conserves_tokens_witness : ∃ o s', run receipt0 rt0 = Ok o s' ∧ ∃ sent s1,
  conserves as_bytes get_account_type system apply_state0 view receipt0 rt0 (succeeded o) sent s1 ∧ rt_stats s' = rt_stats s1 ∧
    ∀ handled, sink_ready sent handled (rt_sink s1, rt_update s1) →
      sink_ready [] (handled ++ sent) (rt_sink s', rt_update s') ∧ ∀ id', account_at view (rt_update s') id' = account_at view (rt_update s1) id'.
Proof.
  pose proof run0_returns as Hok. destruct (run receipt0 rt0) as [o s'| | |] eqn:Hrun; [clear Hok|done..]. exists o, s'. split; [done|].
  refine (receipt_conserves_tokens as_bytes from_str get_account_type (λ _, true) (λ _ _, false) system ProcessExample.hash ProcessExample.verify (λ _, None) (λ _, true) wallet (λ _, None) (λ _, inr 0) apply_state0
    good view saved trie_view as_bytes_injective hash0_length eq_refl ProcessExample.fees0_ok storage0_ok account_keys0 access_keys0 yield_keys0 received_keys0 yield_indices_fit
    receipt0 call0 ltac:(done) eq_refl (proj1 call0_ok) (proj2 call0_ok) (or_introl eq_refl) ltac:(done) ltac:(done) forward sink_key sink_ready accounts_foreign rt0 o s' _ _ _ _ Hrun).
  - constructor.
  - exact state3_account.
  - done.
  - by vm_compute.
Defined.

Abbreviation execute := (execute_actions as_bytes from_str get_account_type (λ _, true) (λ _ _, false) system ProcessExample.hash ProcessExample.verify (λ _, None) (λ _, true) wallet (λ _, None) (λ _, inr 0) (K := ReceiptSinkV2 (AccountId := bool)) apply_state0 (CallError := ())).

Lemma execute0_returns : is_Ok (execute receipt0 call0 [] rt0) = true.
Proof. by vm_compute. Qed.

Lemma execution_within_prepaid_gas_witness : ∃ res s', execute receipt0 call0 [] rt0 = Ok res s' ∧ 0 <= gas_burnt res <= gas_used res ∧ gas_used res <= 64 ∧
  unspent_gas 64 res = ROk (64 - (if result_ok res then gas_used res else gas_burnt res)).
Proof.
  pose proof execute0_returns as Hok. destruct (execute receipt0 call0 [] rt0) as [res s'| | |] eqn:Hrun; [clear Hok|done..]. exists res, s'. split; [done|].
  refine (execution_within_prepaid_gas as_bytes from_str get_account_type (λ _, true) (λ _ _, false) system ProcessExample.hash ProcessExample.verify (λ _, None) (λ _, true) wallet (λ _, None) (λ _, inr 0) apply_state0
    good view saved trie_view as_bytes_injective hash0_length eq_refl ProcessExample.fees0_ok storage0_ok account_keys0 access_keys0 yield_keys0 yield_indices_fit
    receipt0 call0 ltac:(done) eq_refl (proj1 call0_ok) (proj2 call0_ok) [] rt0 res s' 64 _ _ _ _ _ Hrun).
  - exact state3_account.
  - done.
  - by vm_compute.
  - by vm_compute.
  - by vm_compute.
Defined.
