(* ===== verification/MailExamples.v ===== *)
(** A receipt that waits for data, and the data that arrives after it, on the overlay of an empty trie. *)

From stdpp Require Import functions sorting.
From S2P Require Import Prelude Errors Borsh Costs TrieKey ShardLayout StateUpdate StateUpdateCorrect Fees Receipt ReceiptManager Account StoreUtils RemoveAccount Verifier Transaction TrieQueue ReceiptQueues ProcessTransactions ProcessCorrect RuntimeStore Actions ActionsCorrect ApplyReceipt ExecutionFrame ProcessReceipt Mail MailCorrect OutgoingMetadata CongestionInfo ReceiptSink MailSink ReceiptSinkCorrect ChunkExamples ProcessSink ProcessExamples ExecutionExamples.
Import ReceiptExample SinkExample.
Import (hints) KeyExample QueueExample MetadataExample ProcessExample.
Import ExecutionExample.
Local Open Scope Z_scope.

Module MailExample.
#[export] Instance exec_contains_ok : ContainsKeyOk good view trie_view :=
  overlay_contains_ok as_bytes from_str QueueExample.trie_get () trie_contains_key trie_value_ref (λ _, true) ProcessExample.hash seek_prefix id (λ _ _, eq_refl).
#[export] Instance forward_quiet : SinkFrame good view trie_view forward :=
  sink_quiet as_bytes get_account_type account_le hash_bytes example_fees wasm_config true good view trie_view info0.

Definition received_ok (d : ReceivedData) : Prop := received_data d = None.
#[export] Instance received_borsh_ok : BorshOk ReceivedData received_ok.
Proof. by intros [[|]] rest Hd. Qed.

Definition state4 : Update := default (new_update ∅ None) (write0 (TrieKey.Account alice, borsh_encode ProcessExample.account0) (new_update ∅ None)).
Definition rt1 : RtState (AccountId := bool) (U := Update) (K := ReceiptSinkV2 (AccountId := bool)) := mkRtState sink0 state4 [] stats0.

Definition waiting : Receipt bool := ReceiptIsV0 (mkReceiptV0 alice alice (replicate 32 9) (ActionR (mkActionReceipt alice ProcessExample.full_key 12 [] [replicate 32 6] [Transfer 3]))).
Definition data_for_it : Receipt bool := ReceiptIsV0 (mkReceiptV0 alice alice (replicate 32 5) (DataR (mkDataReceipt (replicate 32 6) None))).
Definition both_receipts : list (Receipt bool) := [waiting; data_for_it].

Lemma mail_keys0 (k : TrieKey bool) : mail_key k → good k.
Proof. intros Hk. destruct k; try done; (split_and!; [done| |done]); by eexists. Qed.

Lemma waiting_fits : receipt_fits enum_ok received_ok waiting.
Proof.
  split; [split_and!; [done|split_and!; try by vm_compute|by vm_compute]|]; [by repeat constructor|].
  change (NoDup [replicate 32 6] ∧ Forall (λ d, length d = 32%nat) [replicate 32 6] ∧ 1 <= umax 32 ∧ public_key_ok ProcessExample.full_key ∧ Forall (action_fits (AccountId := bool)) [Transfer 3] ∧ True).
  split_and!; [apply NoDup_singleton|by repeat constructor|by vm_compute|done|by repeat constructor|done].
Qed.

Lemma data_fits : receipt_fits enum_ok received_ok data_for_it.
Proof. by split; [split_and!; vm_compute|]. Qed.

Lemma receipts_fit : mail_ok enum_ok received_ok both_receipts.
Proof.
  split.
  - apply Forall_cons_2; [exact waiting_fits|]. apply Forall_cons_2; [exact data_fits|]. constructor.
  - intros i j r r' Hij Hi Hj _. destruct i as [|[|]], j as [|[|[]]]; try lia; try done. by injection Hi as <-; injection Hj as <-.
Qed.

(** No mail. *)
Lemma no_prospective k raw : mail_key k → to_vec as_bytes k = Some raw → prospective state4 !! raw = None.
Proof.
  intros Hk Hr. apply to_vec_column in Hr. assert (prospective state4 = {[ [0; 97; 108; 105; 99; 101] := mkKeyValue (TrieKey.Account alice) (Some (borsh_encode ProcessExample.account0)) ]}) as -> by reflexivity.
  apply lookup_singleton_ne. intros <-. cbn in Hr. injection Hr as Hc. by destruct k.
Qed.

Lemma no_mail : mail good view trie_view [] state4.
Proof.
  split; [done| |].
  - intros k Hk Hm. destruct (mail_keys0 k Hm) as (_ & [raw Hr] & _). apply (exact_overlay as_bytes QueueExample.trie_get () trie_contains_key trie_value_ref (λ _, true) ProcessExample.hash seek_prefix id (λ _ _, eq_refl) state4 k raw Hr).
    by rewrite (no_prospective k raw Hm Hr).
  - intros k v Hk. destruct (mail_keys0 k Hk) as (_ & [raw Hr] & _). split; [|by intros (w & ?%not_elem_of_nil & _)]. unfold key_view. rewrite Hr. cbn [mbind option_bind]. unfold StateUpdateCorrect.view.
    rewrite (no_prospective k raw Hk Hr). by vm_compute.
Qed.
End MailExample.
Import MailExample.

Abbreviation process := (process_in_order as_bytes from_str get_account_type (λ _, true) (λ _ _, false) system ProcessExample.hash ProcessExample.verify (λ _, None) (λ _, true) wallet (λ _, None) (λ _, inr 0) (inr two_shards) forward apply_state0 (CallError := ())).

Lemma both_returns : is_Ok (process both_receipts rt1) = true.
Proof. by vm_compute. Qed.

Lemma receipts_run_exactly_once_witness : ∃ outs s', process both_receipts rt1 = Ok outs s' ∧ outcome_id <$> outs = [replicate 32 9] ∧ mail good view trie_view both_receipts (rt_update s').
Proof.
  pose proof (receipts_run_exactly_once as_bytes from_str get_account_type (λ _, true) (λ _ _, false) system ProcessExample.hash ProcessExample.verify (λ _, None) (λ _, true) wallet (λ _, None) (λ _, inr 0) (inr two_shards) forward apply_state0
    good view saved trie_view mail_keys0 enum_ok received_ok as_bytes_injective account_keys0 access_keys0 yield_keys0 yield_indices_fit both_receipts rt1 receipts_fit no_mail) as H.
  pose proof both_returns as Hok. destruct (process both_receipts rt1) as [outs s'| | |]; [clear Hok|done..]. exists outs, s'. destruct H as [Hp Hm]. split; [done|]. split; [|done].
  assert (receipt_id <$> have_run both_receipts = [replicate 32 9]) as E by by vm_compute. rewrite E in Hp. by apply Permutation_singleton_r in Hp.
Defined.
