(* ===== verification/ValidatorExamples.v ===== *)
(** A validator and the treasury at the start of an epoch, on the overlay of an empty trie. *)

From S2P Require Import Prelude Errors Borsh Costs TrieKey StateUpdate StateUpdateCorrect Receipt Account StoreUtils TrieQueue ReceiptQueues ProcessCorrect RuntimeStore ActionsCorrect ValidatorAccounts ReceiptSinkCorrect ChunkExamples ProcessExamples ExecutionExamples MailExamples.
Import ReceiptExample SinkExample.
Import (hints) KeyExample QueueExample ProcessExample.
Import ExecutionExample MailExample.
Local Open Scope Z_scope.

Module ValidatorExample.
Definition bob : bool := true.
Definition validator0 : Account bool := AccountIsV1 (mkAccountV1 1000 50 (replicate 32 0) 100).
Definition treasury0 : Account bool := AccountIsV1 (mkAccountV1 20 0 (replicate 32 0) 100).
Definition accounts0 (id : bool) : option (Account bool) := Some (if id then treasury0 else validator0).

Definition state5 : Update :=
  default (new_update ∅ None) (for_each write0 [(TrieKey.Account alice, borsh_encode validator0); (TrieKey.Account bob, borsh_encode treasury0)] (new_update ∅ None)).

Definition epoch0 : ValidatorAccountsUpdate bool := mkValidatorAccountsUpdate [(alice, 30)] {[ alice := 7; bob := 3 ]} {[ alice := 40 ]} (Some bob).

Lemma accounts_hold : holds view state5 accounts0.
Proof. intros [|]; (split; [by vm_compute|]); intros a [= <-]; by split_and!; vm_compute. Qed.

Lemma epoch_amounts : amounts_ok epoch0.
Proof. split; [by intros [|]; vm_compute|by intros [|]; vm_compute|by repeat constructor]. Qed.

Lemma epoch_room id : has_room epoch0 accounts0 id.
Proof. intros a [= <-]. by destruct id; vm_compute. Qed.
End ValidatorExample.
Import ValidatorExample.

Lemma validator_accounts_paid_witness : ∃ u', update_validator_accounts epoch0 state5 = (Ok () u' : outcome _ (RuntimeError ()) _) ∧
  holds view u' (λ id, Some (AccountIsV1 (if id then mkAccountV1 23 0 (replicate 32 0) 100 else mkAccountV1 1017 40 (replicate 32 0) 100))).
Proof.
  pose proof (validator_accounts_paid good view saved trie_view (λ id, proj1 (account_keys0 id)) epoch0 accounts0 state5 ltac:(by apply NoDup_singleton) epoch_amounts epoch_room accounts_hold eq_refl) as H.
  assert (is_Ok (update_validator_accounts epoch0 state5 : outcome _ (RuntimeError ()) _) = true) as Hok by by vm_compute.
  destruct (update_validator_accounts epoch0 state5) as [[] u'| | |]; [clear Hok|done..]. exists u'. split; [done|]. destruct H as (_ & _ & _ & Hh & _).
  eapply ledger_ext; [|exact Hh]. by intros [|]; vm_compute.
Defined.
