(* ===== verification/SchedulerExamples.v ===== *)
(** Two blocks of the bandwidth scheduler on the state of the example chunk: a shard is at its capacity and another missed its chunk,
    and the second block has the layout after a split. *)

From S2P Require Import Prelude Errors Borsh TrieKey Account TrieQueue StateUpdate Receipt ReceiptQueues ShardLayout Bandwidth BandwidthCorrect OutgoingMetadata CongestionInfo SchedulerRun ChunkExamples ProcessExamples.
Import ReceiptExample SinkExample.
Import (hints) KeyExample QueueExample.
Local Open Scope Z_scope.

Module SchedulerExample.

(** ** The derived serialisation of the state *)

Definition encode_allowance (la : LinkAllowance) : list Z := encode_u64 (la_sender la) ++ encode_u64 (la_receiver la) ++ encode_u64 (la_allowance la).
Definition decode_allowance (b : list Z) : option (LinkAllowance * list Z) :=
  '(s, b) ← decode_u64 b; '(r, b) ← decode_u64 b; '(a, b) ← decode_u64 b; Some (mkLinkAllowance s r a, b).

Lemma decode_allowance_ok la rest : fields_ok la → decode_allowance (encode_allowance la ++ rest) = Some (la, rest).
Proof.
  destruct la as [s r a]. intros (Hs & Hr & Ha). unfold encode_allowance, decode_allowance. cbn [la_sender la_receiver la_allowance] in *.
  rewrite <-!app_assoc, decode_encode_u64 by done. cbn [mbind option_bind]. rewrite decode_encode_u64 by done. cbn [mbind option_bind]. by rewrite decode_encode_u64.
Qed.

#[export] Instance state_borsh : Borsh BandwidthSchedulerState := {|
  borsh_encode s := let '(SchedulerStateV1 s) := s in 0 :: encode_vec encode_allowance (state_link_allowances s) ++ sanity_check_hash s;
  borsh_decode b :=
    match b with
    | 0 :: b => '(las, b) ← decode_vec decode_allowance b; '(h, b) ← read_bytes 32 b; Some (SchedulerStateV1 (mkSchedulerStateV1 las h), b)
    | _ => None
    end
|}.

#[export] Instance state_roundtrip : BorshOk BandwidthSchedulerState scheduler_state_ok.
Proof.
  intros [[las h]] rest (HF & Hl & Hh). cbn [state_link_allowances sanity_check_hash] in *. cbn [borsh_encode borsh_decode state_borsh app state_link_allowances sanity_check_hash].
  rewrite <-app_assoc, (decode_vec_ok encode_allowance decode_allowance fields_ok) by (done || apply decode_allowance_ok).
  cbn [mbind option_bind]. by rewrite read_bytes_app.
Qed.

#[export] Instance ids_borsh : Borsh (list Z) := {| borsh_encode := encode_vec encode_u64; borsh_decode := decode_vec decode_u64 |}.

(** ** The blocks *)

Definition commit0 (u : Update) : option Update := commit () u.
Definition config0 : BandwidthSchedulerConfig := mkSchedulerConfig 4500000 4194304 4500000 100000 4194304.
Definition layout_of (ids : list Z) : ShardLayout (AccountId := bool) := v2_layout [] ids None None.
Definition congestion0 : BlockCongestionInfo :=
  {[0 := mkExtendedCongestionInfo default_congestion_info 0; 2 := mkExtendedCongestionInfo CongestionExample.full 0; 5 := mkExtendedCongestionInfo default_congestion_info 1]}.
Definition block (ids : list Z) : SchedulerInput :=
  mkSchedulerInput (layout_of ids) congestion0 BandwidthCorrect.Example.requests [] CongestionExample.mainnet config0.
Definition before : list Z := [0; 2; 5; 7].
Definition after : list Z := [0; 2; 5; 8; 9].

Lemma block_ok ids : NoDup ids → Forall (in_u 64) ids → ids ≠ [] → Z.of_nat (length ids * length ids) <= umax 32 → input_ok (block ids).
Proof.
  intros H1 H2 H3 H4. constructor; [by exists [], None, None|done|done|done|done| | |apply CongestionExample.mainnet_ok|].
  - constructor; cbn; unfold in_u, umax; lia.
  - by repeat constructor.
  - cbn [block in_congestion_info]. unfold congestion0. intros id i Hi.
    apply lookup_insert_Some in Hi as [[_ <-]|[_ [[_ <-]|[_ [_ <-]%lookup_singleton_Some]]%lookup_insert_Some]]; by split.
Qed.

Lemma blocks_ok : Forall input_ok [block before; block after].
Proof.
  apply Forall_cons. split; [|apply Forall_singleton].
  - apply block_ok; [apply (bool_decide_unpack _); by vm_compute|unfold before|done|done]. repeat (apply Forall_cons; split; [unfold in_u, umax; lia|]); done.
  - apply block_ok; [apply (bool_decide_unpack _); by vm_compute|unfold after|done|done]. repeat (apply Forall_cons; split; [unfold in_u, umax; lia|]); done.
Qed.

Lemma hash_length b : length (ProcessExample.hash b) = 32%nat.
Proof. apply length_replicate. Qed.

Lemma scheduler_key : runtime_key as_bytes TrieKey.BandwidthSchedulerState.
Proof. split_and!; [done|by eexists|done]. Qed.

Lemma no_state : SchedulerRun.stored (key_view as_bytes id) (λ _, True) state0.
Proof. by exists None. Qed.

Abbreviation run2 := (run_blocks (AccountId := bool) (StorageError := ()) ProcessExample.hash commit0 Example.no_shuffle (λ _, ()) [block before; block after] (default_scheduler_stats, state0)).
Abbreviation keeps := (keeps_state (runtime_key as_bytes) (key_view as_bytes id) (key_trie_view as_bytes id)).
End SchedulerExample.
Import SchedulerExample.

Lemma scheduler_runs_witness :
  ∃ outs stats' u', run2 = Ok outs (stats', u') ∧
    Forall2 (λ input out, SchedulerRun.grants_ok input (shard_ids (in_shard_layout input)) (output_granted_bandwidth out)) [block before; block after] outs ∧
    SchedulerRun.stored (key_view as_bytes id) (λ st, ∀ input, last [block before; block after] = Some input → allowances_within input st) u' ∧ keeps state0 u'.
Proof.
  apply (scheduler_runs ProcessExample.hash commit0 Example.no_shuffle (λ _, ()) (λ r l, reflexivity l) hash_length (runtime_key as_bytes) (key_view as_bytes id) (key_trie_view as_bytes id)
    scheduler_key (overlay_commit_ok as_bytes id ())).
  - exact blocks_ok.
  - by vm_compute.
  - exact no_state.
Defined.

(** In that run the shard at its capacity is granted bandwidth from the shard it allows only, and the shard that missed its chunk
    nothing. *)
Example scheduler_runs_grants :
  match run2 with
  | Ok [o1; o2] _ =>
      let g1 := get_granted_bandwidth (output_granted_bandwidth o1) in let g2 := get_granted_bandwidth (output_granted_bandwidth o2) in
      g1 0 2 = 0 ∧ 0 < g1 2 2 ∧ g1 2 5 = 0 ∧ g1 2 0 = 1500000 ∧ g2 2 0 = 1125000
  | _ => False
  end.
Proof. by vm_compute. Qed.
